(* ===== verification/_CoqProject ===== *)
-Q . S2P
Prelude.v
JsMap.v
JsValue.v
Decimal.v
Amount.v
ClaimPredicate.v
EventTypes.v
Normalize.v
Dedupe.v
Route.v
Subscriptions.v
EventQueue.v
Ingest.v
Stream.v
Coverage.v
Lifecycle.v
Retry.v
Claims.v
Guards.v
Cursors.v
SorobanCalls.v
Soroban.v
PrivateIp.v
Webhooks.v
WebhookQueue.v
WebhookVerify.v
TriggerPredicate.v
Triggers.v
Backstop.v
SubscriptionService.v
Sponsorship.v
Anchor.v
RpcClient.v
Cap67.v
UnifiedPoller.v
CanonicalJson.v
Attestation.v
AttestationPolicy.v
Schedule.v
ComputationTrigger.v
WorkerVerdicts.v
VerdictStore.v
Slo.v
Exports.v
Evidence.v
Backfill.v
RegistryCache.v
RegistryClients.v
Spec.v
Wasm.v
Discovery.v
SchemaCheck.v
LockFile.v
Taxonomy.v
ConnectionPool.v
EventHooks.v
ScvalCodec.v
WorkerStores.v
DeadLetters.v
Receiver.v
Historical.v
Doubles.v
Reputation.v
