(* ===== verification/Prelude.v ===== *)
(** * Orbital: a verification development for the orbital_stellar packages

    Orbital is a TypeScript monorepo of Stellar tooling.  This development models
    the logic of six of its packages: the event engine of packages/pulse-core,
    which turns Horizon operations, Soroban contract events and CAP-67 unified
    events into notifications; the delivery side of packages/pulse-webhooks, which
    posts them to a subscriber's URLs and lets the subscriber verify what it
    receives; packages/pulse-notify, which shows them to React components over
    shared connections; packages/worker-core, which runs scheduled and triggered
    work, sells it as subscriptions, backs it up and scores it;
    packages/abi-registry, which finds, checks, names and attests the interfaces
    of contracts and converts their values; and the status machines of
    packages/anchor-sdk.  Paths below are relative to src/packages.

    ** How the parts fit together

    In the engine (pulse-core/src/EventEngine.ts) a stream of Horizon records is
    kept open across errors ([Stream]); each record is normalised ([Normalize],
    over [Amount], [ClaimPredicate] and the event types of [EventTypes]), given a
    dedupe reference and let through or held back by the family's transport
    ([Ingest]), queued under a backpressure policy ([EventQueue]), and routed to
    the watchers whose subscription and filter it meets ([Route]), once per
    operation whichever transport saw it ([Dedupe]).  Watchers come and go by
    reference-counted subscriptions ([Subscriptions]); the four state parts share
    the record [Router].  Beside it a [Soroban] subscriber polls the RPC server
    for contract events, with the calls [SorobanCalls] plans, keeps a cursor
    (behind the write cache of [Cursors]) and hands each event to the engine's
    Soroban dispatch.  The unified transport asks the same server through
    [RpcClient], in the loop of [UnifiedPoller]; [Cap67] decodes what comes and
    hands it to [Route] and [Dedupe], where it meets the Horizon stream.  A
    contract event is given a meaning by the resolver of [Taxonomy].  A replay
    that reaches behind what a node keeps goes over to another source
    ([Historical]).

    A [Webhooks] delivery takes the events of one watcher.  Each is posted to
    every URL that [PrivateIp] lets through; what fails in a retryable way is
    retried, from a timer in memory or from the durable queue of
    [WebhookQueue]; what is given up goes to the store of [DeadLetters], which
    also keeps the health of a URL.  The receiver checks signature and age with
    [WebhookVerify] and drops repeats with [Receiver].

    In a browser the hooks of pulse-notify ask for events by a key; callers with
    one key share one source of events or one socket ([ConnectionPool]), and what
    a hook shows follows from the calls its connection makes ([EventHooks]).

    In the worker core a worker is owed a fire: by a [Schedule], by a chain event
    that meets the condition of [TriggerPredicate] and opens a window in
    [Triggers], or by an attested occurrence in [ComputationTrigger].  A fire is
    claimed before it is submitted ([Claims]), guarded by a price check and a
    circuit breaker ([Guards]), paid for by a sponsor within limits
    ([Sponsorship]), and when its submission fails the error is classified and
    the attempt scheduled again inside its window ([Retry]), or kept in
    [DeadLetters].  What is registered, fired and claimed is kept in the stores of
    [WorkerStores].  The [Backstop]
    watches the same windows and fires, over the same claims, those the primary
    left open.  A subscriber buys that cover from the [SubscriptionService]; paid
    coverage moves through a life cycle ([Lifecycle]) that writes an append-only
    audit record ([Coverage]).  Afterwards [WorkerVerdicts] says of each window
    what the chain shows, [VerdictStore] keeps the answers with their
    corrections, [Slo] publishes the service level and its turns, and an operator
    is scored by such verdicts ([Reputation], over the arithmetic of [Doubles]).  The
    evidence of a subject is scored apart from that: [Exports] reads ledgers,
    [Evidence] brings operations into one form and scores them, [Backfill] writes
    the verdicts of the past and of the present so that they agree.

    In the ABI registry [CanonicalJson] fixes the bytes a signature covers,
    [Attestation] signs and checks them, [AttestationPolicy] chooses whom to
    believe.  [Spec] is the description of a contract, its validation and its
    canonical text; [Wasm] and [Discovery] read one from a contract's code,
    [SchemaCheck] compares a submitted one with it and runs the verification job
    (over the verdict store of [Slo]), [LockFile] remembers the specs code was
    generated from, and [RegistryClients] look specs up behind the caches of
    [RegistryCache].  [ScvalCodec] turns JavaScript values into contract values by
    the types of a spec, and events into JSON.

    [Anchor] is apart: the SEP-24 and SEP-31 status machines and their events.

    ** Files

    - Prelude: results, stateful methods, JavaScript numbers, list lemmas, the
      tactics [crunch] and [bool_to_prop], the hint database [orbital].
    - Doubles: the operators of binary64 numbers, over the rounded quotient of
      Sponsorship.
    - JsMap: the insertion-ordered Map of JavaScript, with its reading as a gmap.
    - JsValue: untyped JSON values and the string operations the source uses.
    - Decimal: decimal digits, padding, split, parseInt.

    pulse-core/src:
    - Amount: amount.ts.  ClaimPredicate: claimPredicate.ts.  EventTypes: the
      normalised events and families of index.ts.  Dedupe: dedupe.ts.
      Cursors: coalesceCursorStore.ts.
    - Normalize: EventEngine._normalize and every normalizer it calls.
    - Route: EventEngine.route, its fan-out, filters and Soroban dispatch.
    - Subscriptions: subscribe, unsubscribe, subscribeContract, retain, release
      and Watcher.stop.
    - EventQueue: enqueueEvent, processQueue, pauseSource, resumeSource.
    - Ingest: the onmessage path and deriveHorizonDedupeRef,
      deriveUnifiedDedupeRef.
    - Stream: start, stop, openStream, closeStream, handleStreamError and
      backoff.ts.
    - SorobanCalls, Soroban: SorobanSubscriber.ts, first the partition of the
      subscriptions into getEvents calls and the topic filters, then start, tick,
      the polling loop, the cursor and the seen-event cache.
    - RpcClient: SorobanRpcClient.ts.  UnifiedPoller: its pollUnifiedEvents and
      the unified half of the engine's start and stop.  Cap67: cap67/, the
      dispatch of unified events and address.ts.  Historical: HistoricalSource.ts.

    pulse-webhooks/src:
    - PrivateIp: private-ip.ts, url-validator.ts and the checks of
      WebhookDelivery.validateUrl and validateResolvedHostname.
    - Webhooks: WebhookDelivery of index.ts with retries in memory: handleEvent,
      the concurrency gate and its eviction, the attempts, the timers, stop.
    - WebhookQueue: MemoryRetryQueue.ts and the persistent half of
      WebhookDelivery (persistRetry, drainDueRetries, processQueueRecord).
    - WebhookVerify: signing.ts, verifyWebhook and verifyWebhookRaw of index.ts
      and their twins of edge.ts.
    - DeadLetters: MemoryDeadLetterStore.ts, DeadLetterStore.ts and worker-core's
      WorkerDeadLetterStore.ts.  Receiver: dedup.ts and backoff.ts.

    pulse-notify/src:
    - ConnectionPool: connectionPool.ts and wsTransport.ts.  EventHooks: the state
      of the hooks of index.ts, the history and the amounts.

    worker-core/src:
    - Claims: idempotency.ts.  Retry: errors.ts and retry.ts.  Guards:
      guards/circuitBreaker.ts and priceGuard.ts.  Sponsorship:
      sponsorshipPolicy.ts and Paymaster.ts.
    - Schedule: schedule.ts and TriggerEvaluator.ts.  TriggerPredicate,
      Triggers, ComputationTrigger: triggers/.
    - Backstop: backstop/BackstopWatcher.ts, intervention.ts, windowVerdict.ts.
    - Lifecycle, Coverage, SubscriptionService: subscription/ and
      backstop/tiers.ts.
    - WorkerStores: WorkerStateStore.ts, its stores in memory and in files, and
      migrateWorkerState.ts.  Reputation: reputation/.
    - WorkerVerdicts: verification/workerFireVerdict.ts and
      WorkerVerificationEngine.ts.  VerdictStore:
      verification/WorkerFireVerdictStore.ts, its memory and PostgreSQL forms and
      the adapter.  Slo: backstop/slo.ts.
    - Exports: exports/.  Evidence: verification/canonical.ts and verdict.ts.
      Backfill: verification/stores.ts, backfill.ts and liveVerifier.ts.

    abi-registry/src:
    - CanonicalJson: canonicalJson.ts.  Attestation: attestation.ts.
      AttestationPolicy: attestationPolicy.ts.
    - RegistryCache: LruCache.ts, TtlLruCache.ts.  RegistryClients: the clients
      AbiRegistryClient, Local-, Hosted- and ChainedAbiRegistryClient.
    - Spec: spec.ts.  Wasm, Discovery: discovery/.  SchemaCheck:
      verifySchema.ts, verificationJob.ts, specStore.ts.  LockFile: lockFile.ts.
    - Taxonomy: taxonomy.ts, taxonomyResolver.ts, wellKnownTaxonomy.ts.
    - ScvalCodec: scval.ts and decode.ts.

    anchor-sdk/src:
    - Anchor: sep24StatusMachine.ts, statusMachine.ts, normalizeAnchorEvent.ts.

    An operation of the code is the definition of its name, in the file of its
    component; where a name is taken the model's has a suffix or the class in
    front.  A state is a record whose fields are the
    class's.

    ** What the theorems show

    Routing: an event reaches exactly the watchers the specification [receives]
    says are due it, and nobody twice but in a self-merge; an event held back for
    its ABI spec is delivered whatever the lookup answers.  Subscriptions: the
    registrations are those of the counts of holders, after any sequence of
    calls.  Cursors: a flush that resolves is durable, a failed one is final.
    Queue: bounded and in order under every interleaving of arrivals with
    the drain loop, which terminates.  Stream: in every reachable state the
    streams open on the server are exactly the one the engine can close; what an
    error does; stop is final.  Dedupe and ingestion: one delivery per operation
    across transports within the window's capacity, the keys of the transports
    agree exactly on the same operation, each family comes from one transport.
    Normalising: what an event carries, what is thrown and why.  Amounts and
    predicates: round trips and evaluation.

    Soroban: an event is handed over again only after the seen-event cache evicted
    it, the stored cursor is that of an event already delivered, a stopped
    subscriber starts no request, and the calls planned cover the subscriptions.
    Unified transport: a request's outcome is classified by what happened; one
    poller at most runs, it can be stopped, and its cursor follows the pages it was
    given, which unified mode has dispatched before; a payment arrives alike through either transport and once.
    Webhooks: an event times a URL is always in exactly one place (waiting, in
    flight, on a timer, delivered, dead, evicted), attempts are numbered without
    gaps up to the maximum, the number in flight is bounded, every delivery ends
    however the receivers answer, and nothing is posted to an address the checks
    block; the address check is membership in the written ranges.  The durable
    queue holds a record until it is settled, and draining it ends with nothing
    due left, within the attempts left to what was due.  The verifier
    accepts exactly the signatures of the secret within the tolerance, and the
    two implementations agree on decodable bodies.  Dead letters: the newest are
    kept, and forgetting what is older than an hour changes no health.  Once an id
    is marked only the calls for it already under way hand it on.  Replay: until the first ledger that
    is no longer kept the primary source answers, from then on the other alone.
    Connections, for callers that give each connection back once: a key has at most
    one source, open exactly while it has subscribers, and a socket is reconnected
    while anybody is left; a callback that throws cuts the round of an event short.

    Claims: mutual exclusion over any store that keeps the interface's laws, which
    the in-memory and the PostgreSQL store do, as long as the runs of one owner for
    one key do not meet before the chain check; a key fires once while submissions
    become visible within the lease.  Retry: chains are bounded in number and in
    time; the in-memory queue holds a record until it is acknowledged, hands out
    the earliest due one and hides it; a restart of the file queue is invisible.
    Schedules: what is due is exactly the grid, each time once over successive
    polls.  Triggers: the planned windows are disjoint, in order, distinct in
    name, and cover every due event.  Backstop: no window is fired twice, by
    whomever, as long as the claims last.  Coverage, life cycle and service: the
    record is append-only, disjoint and complete, the audit answers are what it
    says, a lapse is never silent, and the audit trail replays to the record.
    Guards and sponsorship: when the breaker is open, what the price guard
    accepts, what is spent against the limits.  Verdicts: each is exactly what the
    chain shows, settles, and follows its corrections; alerts are the turns of the
    published status.  Stores of workers: the file store refines the one in
    memory, and a copy from any lawful store to an empty one gives every worker
    back.  Reputation: a score is whole, from 0 to 1000, and lowered by exactly
    the misses and slow successes.  Evidence: the core bytes tell verdicts apart
    exactly, the metrics are exact, a backfill survives crashes and agrees with
    the live path.

    Registry: a canonical text exists exactly for the documents of the data model
    and determines them; an accepted attestation was signed; the effective ones
    are exactly those the policy describes.  A cached answer is as fresh as
    promised, the hosted registry is held against the chain, a chain of clients
    answers with the first.  A custom section is found as the format defines it,
    discovery answers with all of its entries, a discovered spec is valid exactly
    under the conditions written, the comparison matches exactly equal schemas
    where names are distinct,
    the job accounts for every contract, and drift is what the hash can see.  The
    taxonomy's answer is unique and independent of the order of the entries, and
    what can still be ambiguous in a set that loads is described.  A wide integer
    of its type is carried exactly, and of another only the part that the SDK's
    integer classes take may differ; which values are decoded is exact, and those of
    a plain type are encoded to the same value again.

    Where one property rests on a behaviour of code outside src/ (a store's laws,
    the SDK, the clock), it is a class or a section hypothesis named at the
    theorem, and its witness instantiates it.

    Some lemmas record behaviour a reader may not expect; their comments say so.
    In the engine: [filters_share_keys], [user_pause_lost],
    [restart_after_giving_up], [get_during_flush], [handler_called_after_stop],
    [overlapping_polls_repeat], [stop_misses_a_timer], [cursor_of_first_call],
    [fallback_saves_a_ledger], [topics_not_rechecked], [timeout_ends_poller],
    [idless_event_ends_poller], [restart_during_stop], [late_stop_hides_poller],
    [abort_in_backoff_rejects], [page_dispatched_after_abort],
    [muxed_number_drops_payment], [missing_id_throws], [unified_never_triggers],
    [later_error_is_bare], [failed_fallback_is_final],
    [future_ledger_called_too_old].
    In delivery: [blocks_more_than_documented], [delivers_after_stop],
    [poller_never_gives_up], [node_accepts_trailing_text],
    [long_window_is_cut], [negative_limit], [dropped_recorded_twice],
    [overlapping_calls_deliver_twice], [repeat_dropped_before_handling].
    In the browser: [second_unsubscribe_doubles_source],
    [twice_subscribed_closed_early], [throwing_callback_hides_event],
    [empty_topic_shares_source], [expired_source_is_joined],
    [filtered_event_keeps_waiting], [star_list_differs], [parse_error_sticks].
    In the worker core: [stale_reclaim_overwrites], [shared_owner_fires_twice],
    [late_submission_fires_twice], [throwing_hook_disables_breaker],
    [fractional_bound_throws], [reactivate_keeps_announcement],
    [unread_role_never_matches], [merged_account_unread], [filter_type_unread],
    [double_star_is_literal], [one_character_is_scval],
    [same_ledger_order_decides], [ranges_forget_open_windows],
    [failed_window_fired_again], [slow_primary_fired_twice],
    [rejected_record_uncounted], [cancellation_undone], [change_tier_refused],
    [ceiling_overshot], [nan_ceiling_unbounded], [first_bump_unlimited],
    [eventless_attestation_throws], [interval_loop_ends], [failed_poll_counts],
    [fire_once_moves_the_grid], [attested_worker_unread], [clock_decides],
    [window_ids_collide], [missed_becomes_late], [late_rejection_excuses],
    [one_call_answers_two_windows], [ledgerless_call_is_missed],
    [short_intervals_share_ids], [range_start_shifts_windows],
    [engine_hides_rejections], [circular_correction_hides],
    [moved_correction_splits_backends], [rejected_alert_is_lost],
    [present_ledgers_refused], [refused_input_half_recorded],
    [assetless_operation_throws], [file_names_order_ledgers],
    [negative_amount_kept], [unreadable_amount_throws],
    [trailing_checkpoint_skips], [unordered_export_overwrites],
    [subjects_uncanonical], [overlapping_appends_lose_record],
    [damaged_file_is_replaced], [window_claimed_twice], [foreign_name_rejects],
    [second_copy_doubles], [zero_target_no_score], [slow_without_loss],
    [misses_lose_latency].
    In the registry and the anchor SDK: [wasm_hash_is_no_noop],
    [later_failure_loses_winner], [at_sign_confuses], [trailing_slash_stays],
    [historical_spec_compared_with_latest], [null_body_throws],
    [nan_capacity_keeps_all], [types_unchecked], [indices_ordered_as_numbers],
    [proto_is_not_hashed], [overlong_length_wraps], [cut_section_accepted],
    [one_tuple_refused], [proto_type_lost], [bad_module_is_no_missing_spec],
    [duplicate_names_hide], [inherited_names_not_missed],
    [host_not_found_is_unverifiable], [refused_issue_loses_alert],
    [signature_change_unnoticed], [type_called_name_is_seen],
    [empty_object_is_lock], [default_taxonomy_names_nothing],
    [cap67_mint_unnamed], [muxed_transfer_unnamed],
    [superseded_loses_without_replacement], [mutual_supersession_throws],
    [decoded_map_not_encoded], [nested_map_key], [one_field_struct_lost],
    [bad_part_throws], [other_address_opaque], [text_read_as_xdr],
    [out_of_range_up_to_the_sdk],
    [sep31_stage_regresses].

    ** Conventions

    - A code path that throws returns [Err] with a constructor per error; the
      prose of messages is left out unless code reads it, and a list of validation
      errors is the list of the paths they are about.
    - A method that writes fields is a [method]: explicit state passing, writes
      before a throw stay.
    - A number is a [jsnum] (NaN, an infinity or a dyadic rational) where the
      source validates it and the integer it then is afterwards; bigints are [Z],
      bytes are [Z] from 0 to 255, and the 32-bit operators wrap as written.
      Rounding of binary64 does not occur on the integers below 2^53 that pass;
      where the code divides, the quotient is rounded ([Sponsorship], [Doubles]).
    - Ledger sequences are integers.  [Math.random()] is an argument, in units of
      2^-53; the time is an argument, read once per stretch between two awaits.
    - What the Stellar SDK, the network, a database or an application's callback
      answers is an argument or a class; nothing is assumed of it unless a
      hypothesis says so.
    - Texts are ASCII.  A key put together from several texts is the pair or the
      list of them where the parts cannot contain the separator; where they can,
      the text is written out.
    - JavaScript runs one callback at a time: a method is atomic between its
      awaits, and where the interleaving at an await matters (the queue's drain
      loop, the stream's cursor lookup, the runs of a fire key, the watcher of a
      window) each stretch is a step of its own and the theorems quantify over
      every sequence of steps.
    - Listeners, filters and hooks are application code: they return, filters are
      pure, except where a hook's throwing is modelled ([Guards]).  Log lines are
      left out.

    Fuel: [processQueue] takes one more than the number of queued events, which
    [processQueue_drains] shows is enough; the loops of [Schedule] are bounded by
    the length of the interval (at least a millisecond is gained in each round,
    or it ends, [interval_loop_ends]); [findCustomSection] takes the length of the
    binary and [read_entries] that of the payload, each round reading a byte at
    least; [private_ip] takes two ([private_ip_fuel]); [jsToScval] ends within the
    depth of a type ([typed_value_roundtrip]).

    ** Not modelled

    Left out because they are input and output, or glue over a library: the
    cursor, retry, dead-letter, state and registry stores over a database, Redis,
    S3 or SQS, and those over files but for [Retry]'s queue and [WorkerStores];
    metrics; command lines; the signing of transactions and the SEP-10, 24 and 31
    requests; React's scheduling, suspense and the visibility of the page; the web
    application; the indexer's publishing loop; generated and declarative types
    (_raw-horizon.gen.ts); and the Rust contracts, which are another language.
    Left out though they hold some logic: the engine's health reports and its
    multi-network fan-out, the listeners of Watcher.ts (those of Node's
    EventEmitter), the text the code generator writes (generate.ts), the worker
    manifest, and the cost reports (costMeter.ts). *)

From Stdlib Require Export Ascii.
From Stdlib Require Import Sorted.
From stdpp Require Export base tactics option numbers list strings gmap pretty.

#[global] Set Default Goal Selector "!".
#[global] Arguments String.append : simpl nomatch.

Declare Scope orbital_scope.
Delimit Scope orbital_scope with orbital.

(** ** Results: a value, or the error the code throws or rejects with *)

Inductive result (E A : Type) : Type :=
  | Ok (a : A)
  | Err (e : E).
Arguments Ok {E A} a.
Arguments Err {E A} e.

#[export] Instance result_ret {E} : MRet (result E) := λ A a, Ok a.
#[export] Instance result_bind {E} : MBind (result E) := λ A B f r,
  match r with Ok a => f a | Err e => Err e end.
#[export] Instance result_fmap {E} : FMap (result E) := λ A B f r,
  match r with Ok a => Ok (f a) | Err e => Err e end.

#[export] Instance result_eq_dec `{EqDecision E, EqDecision A} : EqDecision (result E A).
Proof. solve_decision. Defined.

(** [if (c) throw e]: the guard the code writes at the head of most
    operations. *)
Definition reject_if {E} (c : bool) (e : E) : result E unit :=
  if c then Err e else Ok tt.

Definition is_ok {E A} (r : result E A) : bool :=
  match r with Ok _ => true | Err _ => false end.

Lemma result_bind_Ok {E A B} (f : A → result E B) (r : result E A) b :
  r ≫= f = Ok b ↔ ∃ a, r = Ok a ∧ f a = Ok b.
Proof. destruct r; cbn; naive_solver. Qed.

Lemma result_bind_Err {E A B} (f : A → result E B) (r : result E A) e :
  r ≫= f = Err e ↔ r = Err e ∨ ∃ a, r = Ok a ∧ f a = Err e.
Proof. destruct r; cbn; naive_solver. Qed.

Lemma reject_if_Ok {E} c (e : E) : reject_if c e = Ok tt ↔ c = false.
Proof. destruct c; cbn; naive_solver. Qed.

Lemma reject_if_Ok_any {E} c (e : E) u : reject_if c e = Ok u ↔ c = false.
Proof. destruct c, u; cbn; naive_solver. Qed.

Lemma reject_if_Err {E} c (e e' : E) : reject_if c e = Err e' ↔ c = true ∧ e' = e.
Proof. destruct c; cbn; naive_solver. Qed.

(** ** Stateful operations: a method body that reads and writes its object's
    fields and may throw.  What was written before the throw stays written. *)

Definition method (S E A : Type) : Type := S → result E A * S.

#[export] Instance method_ret {S E} : MRet (method S E) := λ A a s, (Ok a, s).
#[export] Instance method_bind {S E} : MBind (method S E) := λ A B f m s,
  match m s with
  | (Ok a, s') => f a s'
  | (Err e, s') => (Err e, s')
  end.

Definition throw {S E A} (e : E) : method S E A := λ s, (Err e, s).
Definition gets {S E A} (f : S → A) : method S E A := λ s, (Ok (f s), s).
Definition modify {S E} (f : S → S) : method S E unit := λ s, (Ok tt, f s).
Definition lift_result {S E A} (r : result E A) : method S E A := λ s, (r, s).
Definition throw_if {S E} (c : bool) (e : E) : method S E unit :=
  lift_result (reject_if c e).

Lemma method_bind_Ok {S E A B} (f : A → method S E B) (m : method S E A) s b s' :
  (m ≫= f) s = (Ok b, s') ↔ ∃ a s1, m s = (Ok a, s1) ∧ f a s1 = (Ok b, s').
Proof. unfold mbind, method_bind. destruct (m s) as [[a|e] s1]; naive_solver. Qed.

(** ** JavaScript numbers at the places that validate them

    Every finite binary64 value is [m / 2^k].  A guard such as
    [!Number.isInteger(x) || x < 1] is evaluated on this type; a value that
    passes is an integer and the code after the guard works on it as a [Z].  *)

Inductive jsnum : Type :=
  | JNaN
  | JInf (negative : bool)
  | JFin (m : Z) (k : nat).

(** The number an integer literal denotes. *)
Definition jint (z : Z) : jsnum := JFin z 0.

(** [Number.isInteger], with the integer it recognised. *)
Definition as_integer (x : jsnum) : option Z :=
  match x with
  | JFin m k => if (m mod 2 ^ Z.of_nat k =? 0)%Z then Some (m / 2 ^ Z.of_nat k)%Z else None
  | _ => None
  end.

(** [Number.isFinite]. *)
Definition js_isFinite (x : jsnum) : bool :=
  match x with JFin _ _ => true | _ => false end.

(** [x < z] for an integer literal [z]; every comparison with [NaN] is false. *)
Definition js_ltZ (x : jsnum) (z : Z) : bool :=
  match x with
  | JNaN => false
  | JInf neg => neg
  | JFin m k => (m <? z * 2 ^ Z.of_nat k)%Z
  end.

(** [x > z]. *)
Definition js_gtZ (x : jsnum) (z : Z) : bool :=
  match x with
  | JNaN => false
  | JInf neg => negb neg
  | JFin m k => (z * 2 ^ Z.of_nat k <? m)%Z
  end.

Definition MAX_SAFE_INTEGER : Z := 9007199254740991.

Lemma as_integer_jint z : as_integer (jint z) = Some z.
Proof. cbn. rewrite Z.mod_1_r. cbn. by rewrite Z.div_1_r. Qed.

(** The integers [Number.isSafeInteger] accepts. *)
Definition as_safe_integer (x : jsnum) : option Z :=
  z ← as_integer x;
  if (Z.abs z <=? MAX_SAFE_INTEGER)%Z then Some z else None.

(** ** Tactics *)

(** Case analysis on every match and boolean test of the goal and the
    context, with equations simplified on the way. *)
Ltac crunch :=
  repeat (simplify_eq/=; try case_match; try done).

(** Turn boolean comparisons into propositions. *)
Ltac bool_to_prop :=
  repeat match goal with
  | H : _ && _ = true |- _ => apply andb_true_iff in H as [? ?]
  | H : _ || _ = false |- _ => apply orb_false_iff in H as [? ?]
  | H : negb _ = true |- _ => apply negb_true_iff in H
  | H : negb _ = false |- _ => apply negb_false_iff in H
  | H : bool_decide _ = true |- _ => apply bool_decide_eq_true in H
  | H : bool_decide _ = false |- _ => apply bool_decide_eq_false in H
  | H : (_ <? _)%Z = true |- _ => apply Z.ltb_lt in H
  | H : (_ <? _)%Z = false |- _ => apply Z.ltb_ge in H
  | H : (_ <=? _)%Z = true |- _ => apply Z.leb_le in H
  | H : (_ <=? _)%Z = false |- _ => apply Z.leb_gt in H
  | H : (_ =? _)%Z = true |- _ => apply Z.eqb_eq in H
  | H : (_ =? _)%Z = false |- _ => apply Z.eqb_neq in H
  end.

(** ** Lists *)

Section lists.
Context {A : Type}.
Implicit Types l : list A.

Lemma forallb_Forall (f : A → bool) l :
  forallb f l = true ↔ Forall (λ x, f x = true) l.
Proof.
  induction l as [|x l IH]; cbn.
  - split; [constructor|done].
  - rewrite andb_true_iff, IH, Forall_cons. done.
Qed.

Lemma existsb_Exists (f : A → bool) l :
  existsb f l = true ↔ ∃ x, x ∈ l ∧ f x = true.
Proof.
  rewrite existsb_exists. setoid_rewrite list_elem_of_In. done.
Qed.

Lemma existsb_false (f : A → bool) l :
  existsb f l = false ↔ ∀ x, x ∈ l → f x = false.
Proof.
  rewrite <-not_true_iff_false, existsb_Exists. split.
  - intros H x Hx. apply not_true_iff_false. eauto.
  - intros H (x & Hx & Hf). rewrite (H x Hx) in Hf. done.
Qed.

(** [List.filter], the [filter] of arrays. *)
Lemma elem_of_List_filter (f : A → bool) l x : x ∈ List.filter f l ↔ x ∈ l ∧ f x = true.
Proof. by rewrite !list_elem_of_In, filter_In. Qed.

Lemma filter_nil_iff (f : A → bool) l : List.filter f l = [] ↔ ∀ x, x ∈ l → f x = false.
Proof.
  split.
  - intros H x Hx. destruct (f x) eqn:Hf; [|done].
    assert (x ∈ List.filter f l) as Hin by (by apply elem_of_List_filter). rewrite H in Hin. by apply elem_of_nil in Hin.
  - intros H. apply elem_of_nil_inv. intros x [Hx Hf]%elem_of_List_filter. rewrite H in Hf; done.
Qed.

Lemma find_Some_elem (f : A → bool) l x :
  List.find f l = Some x → x ∈ l ∧ f x = true.
Proof. intros [Hin Hf]%find_some. by rewrite list_elem_of_In. Qed.

Lemma find_None_all (f : A → bool) l :
  List.find f l = None ↔ ∀ x, x ∈ l → f x = false.
Proof.
  split.
  - intros H x Hx. eapply find_none; [exact H|]. by apply list_elem_of_In.
  - intros H. induction l as [|y l IH]; [done|]. cbn.
    rewrite (H y) by set_solver. apply IH. set_solver.
Qed.

Lemma NoDup_snoc l x : NoDup (l ++ [x]) ↔ NoDup l ∧ x ∉ l.
Proof.
  rewrite NoDup_app. split.
  - intros (H1 & H2 & _). set_solver.
  - intros [H1 H2]. split_and!; [done|set_solver|apply NoDup_singleton].
Qed.

Lemma last_snoc_eq l x : last (l ++ [x]) = Some x.
Proof. apply last_snoc. Qed.
End lists.

Lemma StronglySorted_snoc {A} (R : A → A → Prop) l x :
  StronglySorted R l → Forall (λ y, R y x) l → StronglySorted R (l ++ [x]).
Proof.
  induction 1 as [|y l Hs IH Hf]; cbn; [by repeat constructor|].
  intros [Hy Hall]%Forall_cons. constructor; [by apply IH|].
  apply Forall_app. split; [done|]. by apply Forall_singleton.
Qed.

(** ** Replacing one element of a list *)

Lemma bind_insert {A B} (f : A → list B) l i x y :
  l !! i = Some x → (<[i:=y]> l ≫= f) ++ f x ≡ₚ (l ≫= f) ++ f y.
Proof.
  revert i. induction l as [|z l IH]; intros [|i] Hi; try done; cbn in Hi |- *.
  - simplify_eq. rewrite (Permutation_app_comm (f y ++ _)), <-app_assoc.
    apply Permutation_app_head, Permutation_app_comm.
  - by rewrite <-!app_assoc, (IH i Hi).
Qed.

Lemma bind_insert_same {A B} (f : A → list B) l i x y :
  l !! i = Some x → f y = f x → <[i:=y]> l ≫= f = l ≫= f.
Proof.
  revert i. induction l as [|z l IH]; intros [|i] Hi Hf; try done; cbn in Hi |- *.
  - simplify_eq. by rewrite Hf.
  - f_equal. by apply IH.
Qed.

Lemma sum_insert {A} (f : A → nat) l i x y :
  l !! i = Some x → sum_list_with f (<[i:=y]> l) + f x = sum_list_with f l + f y.
Proof.
  revert i. induction l as [|z l IH]; intros [|i] Hi; try done; cbn in Hi |- *.
  - simplify_eq. lia.
  - specialize (IH i Hi). unfold insert in *. lia.
Qed.

(** ** Sorting by a key, keeping the order of equal keys

    The [sort] of JavaScript is stable; a list is determined by being sorted and
    by the order of the elements of each key. *)

Section sort_by.
Context {A : Type} (key : A → Z).

Fixpoint insert_by (x : A) (l : list A) : list A :=
  match l with
  | [] => [x]
  | y :: l' => if (key x <=? key y)%Z then x :: l else y :: insert_by x l'
  end.

Definition sort_by (l : list A) : list A := foldr insert_by [] l.

Definition key_le (x y : A) : Prop := (key x ≤ key y)%Z.

Lemma insert_by_perm x l : insert_by x l ≡ₚ x :: l.
Proof.
  induction l as [|y l IH]; cbn; [done|]. destruct (_ <=? _)%Z; [done|].
  rewrite IH. apply Permutation_swap.
Qed.

Lemma sort_by_perm l : sort_by l ≡ₚ l.
Proof.
  induction l as [|x l IH]; cbn; [done|]. by rewrite insert_by_perm, IH.
Qed.

Lemma insert_by_sorted x l :
  StronglySorted key_le l → StronglySorted key_le (insert_by x l).
Proof.
  induction 1 as [|y l Hs IH Hf]; cbn; [by repeat constructor|].
  destruct (Z.leb_spec (key x) (key y)) as [Hle|Hgt].
  - constructor; [by constructor|]. constructor; [done|].
    eapply Forall_impl; [exact Hf|]. unfold key_le. intros z Hz. cbn in Hz. lia.
  - constructor; [done|]. rewrite insert_by_perm. constructor; [unfold key_le; lia|done].
Qed.

Lemma sort_by_sorted l : StronglySorted key_le (sort_by l).
Proof. induction l; cbn; [constructor|by apply insert_by_sorted]. Qed.

Lemma insert_by_stable n x l :
  base.filter (λ y, key y = n) (insert_by x l) = base.filter (λ y, key y = n) (x :: l).
Proof.
  induction l as [|y l IH]; cbn [insert_by]; [done|].
  destruct (Z.leb_spec (key x) (key y)) as [Hle|Hgt]; [done|].
  rewrite filter_cons, IH, !filter_cons.
  repeat case_decide; try done; lia.
Qed.

Lemma sort_by_stable n l :
  base.filter (λ y, key y = n) (sort_by l) = base.filter (λ y, key y = n) l.
Proof.
  induction l as [|x l IH]; [done|]. cbn [sort_by foldr]. fold (sort_by l).
  rewrite insert_by_stable, !filter_cons, IH. done.
Qed.

Lemma sorted_by_unique l1 l2 :
  StronglySorted key_le l1 → StronglySorted key_le l2 →
  (∀ n, base.filter (λ y, key y = n) l1 = base.filter (λ y, key y = n) l2) → l1 = l2.
Proof.
  intros Hs1. revert l2. induction Hs1 as [|x l1 Hs1 IH Hf1]; intros l2 Hs2 Heq.
  - destruct l2 as [|y l2]; [done|]. specialize (Heq (key y)).
    rewrite filter_nil, filter_cons_True in Heq by done. done.
  - destruct l2 as [|y l2].
    { specialize (Heq (key x)). rewrite filter_nil, filter_cons_True in Heq by done. done. }
    apply StronglySorted_inv in Hs2 as [Hs2 Hf2].
    assert (key x = key y) as Hk.
    { assert (y ∈ x :: l1) as H1.
      { apply (list_elem_of_filter (λ z, key z = key y)).
        rewrite Heq, filter_cons_True by done. left. }
      assert (x ∈ y :: l2) as H2.
      { apply (list_elem_of_filter (λ z, key z = key x)).
        rewrite <-Heq, filter_cons_True by done. left. }
      rewrite Forall_forall in Hf1, Hf2.
      apply elem_of_cons in H1 as [->|H1]; [done|].
      apply elem_of_cons in H2 as [->|H2]; [done|].
      specialize (Hf1 _ H1). specialize (Hf2 _ H2). unfold key_le in *. lia. }
    assert (x = y) as ->.
    { specialize (Heq (key x)). rewrite !filter_cons_True in Heq by congruence. by inversion Heq. }
    f_equal. apply IH; [done|]. intros n. specialize (Heq n).
    rewrite !filter_cons in Heq. case_decide; by inversion Heq.
Qed.

(** The result of the sort depends on the order inside each key only. *)
Lemma sort_by_ext l1 l2 :
  (∀ n, base.filter (λ y, key y = n) l1 = base.filter (λ y, key y = n) l2) →
  sort_by l1 = sort_by l2.
Proof.
  intros Heq. apply sorted_by_unique; [apply sort_by_sorted..|].
  intros n. by rewrite !sort_by_stable.
Qed.
End sort_by.

(** ** Sorting by a comparison

    [le x y] is [compare(x, y) <= 0]; what is sorted is determined when the
    comparison separates its elements. *)

Section sort_with.
Context {A : Type} (le : A → A → bool).

Fixpoint insert_with (x : A) (l : list A) : list A :=
  match l with
  | [] => [x]
  | y :: l' => if le x y then x :: l else y :: insert_with x l'
  end.

Definition sort_with (l : list A) : list A := foldr insert_with [] l.

Lemma insert_with_perm x l : insert_with x l ≡ₚ x :: l.
Proof.
  induction l as [|y l IH]; cbn; [done|]. destruct (le x y); [done|].
  rewrite IH. apply Permutation_swap.
Qed.

Lemma sort_with_perm l : sort_with l ≡ₚ l.
Proof. induction l as [|x l IH]; cbn; [done|]. by rewrite insert_with_perm, IH. Qed.

Context (Htotal : ∀ x y, le x y = true ∨ le y x = true).
Context (Htrans : ∀ x y z, le x y = true → le y z = true → le x z = true).

Lemma insert_with_sorted x l :
  StronglySorted (λ x y, le x y = true) l → StronglySorted (λ x y, le x y = true) (insert_with x l).
Proof using Htotal Htrans.
  induction 1 as [|y l Hs IH Hf]; cbn; [by repeat constructor|].
  destruct (le x y) eqn:Hle.
  - constructor; [by constructor|]. constructor; [done|].
    eapply Forall_impl; [exact Hf|]. eauto.
  - constructor; [done|]. rewrite insert_with_perm. constructor; [|done].
    destruct (Htotal x y); [congruence|done].
Qed.

Lemma sort_with_sorted l : StronglySorted (λ x y, le x y = true) (sort_with l).
Proof using Htotal Htrans. induction l; cbn; [constructor|by apply insert_with_sorted]. Qed.
End sort_with.

(** ** Folds and texts *)

(** Steps that commute may be taken in any order. *)
Lemma foldl_permutation {A B} (f : B → A → B) b (l l' : list A) :
  (∀ b x y, f (f b x) y = f (f b y) x) → l ≡ₚ l' → foldl f b l = foldl f b l'.
Proof.
  intros Hf Hl. revert b. induction Hl as [|x l l' _ IH|x y l|l l' l'' _ IH _ IH']; intros b; cbn.
  - done.
  - apply IH.
  - by rewrite Hf.
  - by rewrite IH.
Qed.

Lemma string_ltb_leb s t : String.ltb s t = negb (String.leb t s).
Proof.
  unfold String.ltb, String.leb. rewrite (String.compare_antisym t s). by destruct (s ?= t)%string.
Qed.

(** ** The hint database of the development *)

Create HintDb orbital.
#[export] Hint Resolve NoDup_nil_2 NoDup_singleton : orbital.
