(* ===== verification/JsMap.v ===== *)
(** * The insertion-ordered [Map] of the JavaScript standard library

    [set] on a present key keeps the key's place, on an absent key appends it;
    iteration is in insertion order.  Components whose behaviour depends on that
    order (windows that evict their oldest key, queues that scan their records)
    are modelled over this type; [to_gmap] gives the unordered reading. *)

From S2P Require Import Prelude.

Abbreviation jsmap K V := (list (K * V)) (only parsing).

Section jsmap.
Context {K V : Type} `{EqDecision K}.
Implicit Types (m : jsmap K V) (k : K) (v : V).

Fixpoint mget k m : option V :=
  match m with
  | [] => None
  | (k', v) :: m' => if decide (k' = k) then Some v else mget k m'
  end.

Definition mhas k m : bool := bool_decide (is_Some (mget k m)).

Fixpoint mset k v m : jsmap K V :=
  match m with
  | [] => [(k, v)]
  | (k', v') :: m' =>
      if decide (k' = k) then (k', v) :: m' else (k', v') :: mset k v m'
  end.

Fixpoint mdel k m : jsmap K V :=
  match m with
  | [] => []
  | (k', v') :: m' => if decide (k' = k) then m' else (k', v') :: mdel k m'
  end.

Definition mkeys m : list K := m.*1.
Definition mvals m : list V := m.*2.
Definition msize m : nat := length m.

(** A map holds a key at most once; every operation keeps it so. *)
Definition mwf m : Prop := NoDup (mkeys m).

Lemma mget_mset_eq k v m : mget k (mset k v m) = Some v.
Proof.
  induction m as [|[k' v'] m IH]; cbn.
  - by rewrite decide_True.
  - case_decide; cbn; [by rewrite decide_True|by rewrite decide_False].
Qed.

Lemma mget_mset_ne k k' v m : k ≠ k' → mget k' (mset k v m) = mget k' m.
Proof.
  intros Hne. induction m as [|[k'' v''] m IH]; cbn.
  - by rewrite decide_False.
  - case_decide; cbn; subst; repeat case_decide; congruence.
Qed.

Lemma mget_mset k k' v m :
  mget k' (mset k v m) = if decide (k = k') then Some v else mget k' m.
Proof. case_decide; subst; [apply mget_mset_eq|by apply mget_mset_ne]. Qed.

Lemma mget_None k m : mget k m = None ↔ k ∉ mkeys m.
Proof.
  unfold mkeys. induction m as [|[k' v'] m IH]; cbn; [set_solver|].
  case_decide; subst; [set_solver|]. rewrite IH. set_solver.
Qed.

Lemma mget_Some_key k v m : mget k m = Some v → k ∈ mkeys m.
Proof.
  intros H. destruct (decide (k ∈ mkeys m)) as [|Hn]; [done|].
  apply mget_None in Hn. congruence.
Qed.

Lemma mget_Some_elem k v m : mget k m = Some v → (k, v) ∈ m.
Proof.
  induction m as [|[k' v'] m IH]; cbn; [done|].
  case_decide; intros; simplify_eq; set_solver.
Qed.

Lemma elem_of_mget k v m : mwf m → (k, v) ∈ m → mget k m = Some v.
Proof.
  unfold mwf, mkeys. induction m as [|[k' v'] m IH]; cbn; [set_solver|].
  rewrite NoDup_cons. intros [Hn Hd] [Heq|Hin]%elem_of_cons.
  - simplify_eq. by rewrite decide_True.
  - rewrite decide_False; [by apply IH|]. intros ->. apply Hn.
    apply list_elem_of_fmap. by exists (k, v).
Qed.

Lemma elem_of_mvals v m : mwf m → v ∈ mvals m ↔ ∃ k, mget k m = Some v.
Proof.
  intros Hm. unfold mvals. rewrite list_elem_of_fmap. split.
  - intros ([k v'] & -> & Hin). exists k. by apply elem_of_mget.
  - intros [k Hk]. exists (k, v). split; [done|by apply mget_Some_elem].
Qed.

Lemma mhas_true k m : mhas k m = true ↔ k ∈ mkeys m.
Proof.
  unfold mhas. rewrite bool_decide_eq_true. split.
  - intros [v Hv]. by eapply mget_Some_key.
  - intros Hin. destruct (mget k m) eqn:E; [done|]. by apply mget_None in E.
Qed.

Lemma mkeys_mset_fresh k v m : k ∉ mkeys m → mkeys (mset k v m) = mkeys m ++ [k].
Proof.
  unfold mkeys. induction m as [|[k' v'] m IH]; cbn; [done|]. intros Hn.
  rewrite decide_False by set_solver. cbn. rewrite IH; [done|set_solver].
Qed.

Lemma mset_fresh k v m : k ∉ mkeys m → mset k v m = m ++ [(k, v)].
Proof.
  unfold mkeys. induction m as [|[k' v'] m IH]; cbn; [done|]. intros Hn.
  rewrite decide_False by set_solver. rewrite IH; [done|set_solver].
Qed.

Lemma mkeys_mset_present k v m : k ∈ mkeys m → mkeys (mset k v m) = mkeys m.
Proof.
  unfold mkeys. induction m as [|[k' v'] m IH]; cbn; [set_solver|]. intros Hin.
  case_decide; cbn; [done|]. rewrite IH; [done|set_solver].
Qed.

Lemma mwf_nil : mwf [].
Proof. apply NoDup_nil_2. Qed.

Lemma mwf_mset k v m : mwf m → mwf (mset k v m).
Proof.
  unfold mwf. intros Hm. destruct (decide (k ∈ mkeys m)) as [Hin|Hn].
  - by rewrite mkeys_mset_present.
  - rewrite mkeys_mset_fresh by done. by apply NoDup_snoc.
Qed.

Lemma mkeys_mdel_sublist k m : mkeys (mdel k m) `sublist_of` mkeys m.
Proof.
  unfold mkeys. induction m as [|[k' v'] m IH]; cbn; [done|].
  case_decide; cbn; [by apply sublist_cons|by apply sublist_skip].
Qed.

Lemma mwf_mdel k m : mwf m → mwf (mdel k m).
Proof. unfold mwf. intros. eapply sublist_NoDup; [done|apply mkeys_mdel_sublist]. Qed.

Lemma mget_mdel_eq k m : mwf m → mget k (mdel k m) = None.
Proof.
  unfold mwf, mkeys. induction m as [|[k' v'] m IH]; cbn; [done|].
  rewrite NoDup_cons. intros [Hn Hd]. case_decide; subst.
  - by apply mget_None.
  - cbn. rewrite decide_False by done. by apply IH.
Qed.

Lemma mget_mdel_ne k k' m : k ≠ k' → mget k' (mdel k m) = mget k' m.
Proof.
  intros Hne. induction m as [|[k'' v''] m IH]; cbn; [done|].
  repeat (case_decide; subst; cbn); congruence.
Qed.

Lemma mget_mdel k k' m :
  mwf m → mget k' (mdel k m) = if decide (k = k') then None else mget k' m.
Proof. intros. case_decide; subst; [by apply mget_mdel_eq|by apply mget_mdel_ne]. Qed.

Lemma mdel_absent k m : k ∉ mkeys m → mdel k m = m.
Proof.
  unfold mkeys. induction m as [|[k' v'] m IH]; cbn; [done|]. intros Hn.
  rewrite decide_False by set_solver. rewrite IH; [done|set_solver].
Qed.

Lemma msize_mset_fresh k v m : k ∉ mkeys m → msize (mset k v m) = S (msize m).
Proof. intros. unfold msize. rewrite mset_fresh by done. rewrite length_app. cbn. lia. Qed.

Lemma msize_mkeys m : msize m = length (mkeys m).
Proof. unfold msize, mkeys. by rewrite length_fmap. Qed.

Lemma msize_mset_present k v m : k ∈ mkeys m → msize (mset k v m) = msize m.
Proof. intros. rewrite !msize_mkeys. by rewrite mkeys_mset_present. Qed.

Lemma msize_mdel_present k m : k ∈ mkeys m → msize m = S (msize (mdel k m)).
Proof.
  unfold msize, mkeys. induction m as [|[k' v'] m IH]; cbn; [set_solver|].
  intros Hin. case_decide; [done|]. cbn. rewrite IH; [done|set_solver].
Qed.

(** The unordered reading of a map. *)
Section gmap.
Context `{!Countable K}.

(** What a map holds is its entries up to their order. *)
Lemma mget_permutation m m' : mwf m → mwf m' → (∀ k, mget k m = mget k m') → m ≡ₚ m'.
Proof.
  intros Hm Hm' H. apply NoDup_Permutation; [by eapply NoDup_fmap_1|by eapply NoDup_fmap_1|].
  intros [k v]. split; intros Hin%elem_of_mget; try done; apply mget_Some_elem; congruence.
Qed.

Definition to_gmap m : gmap K V := list_to_map m.

Lemma lookup_to_gmap k m : to_gmap m !! k = mget k m.
Proof.
  unfold to_gmap. induction m as [|[k' v'] m IH]; cbn; [apply lookup_empty|].
  case_decide; subst; [apply lookup_insert_eq|]. by rewrite lookup_insert_ne.
Qed.

Lemma to_gmap_mset k v m : to_gmap (mset k v m) = <[k:=v]> (to_gmap m).
Proof.
  apply map_eq. intros i. rewrite lookup_to_gmap, mget_mset, lookup_insert.
  case_decide; [done|]. by rewrite lookup_to_gmap.
Qed.

Lemma to_gmap_mdel k m : mwf m → to_gmap (mdel k m) = delete k (to_gmap m).
Proof.
  intros. apply map_eq. intros i. rewrite lookup_to_gmap, mget_mdel by done.
  rewrite lookup_delete. case_decide; [done|]. by rewrite lookup_to_gmap.
Qed.
End gmap.
End jsmap.

#[export] Hint Resolve mwf_nil mwf_mset mwf_mdel : orbital.
#[export] Hint Rewrite @mget_mset_eq : orbital.

#[global] Arguments msize {K V} m : simpl never.
#[global] Arguments mkeys {K V} m : simpl never.
