(* ===== verification/JsValue.v ===== *)
(** * JavaScript values as the code receives them

    Records from Horizon and from Soroban RPC reach the code as [unknown]: JSON
    values of any shape.  [jsval] is that type, with the language's operations
    the code applies to such values: property access, [typeof] tests, [String],
    [Boolean] and [includes]. *)

From S2P Require Import Prelude.

Inductive jsval : Type :=
  | JUndef
  | JNull
  | JBool (b : bool)
  | JNum (n : jsnum)
  | JStr (s : string)
  | JArr (l : list jsval)
  | JObj (fields : list (string * jsval)).

(** What the language itself throws. *)
Inductive js_error := TypeError.

(** ** Property access *)

Definition field {A} (k : string) (f : jsval → A) (d : A) : list (string * jsval) → A :=
  fix go fs :=
    match fs with
    | [] => d
    | (k', v) :: fs' => if String.eqb k' k then f v else go fs'
    end.

(** [v[k]] for a named [k]: the fields of an object, [undefined] on the other
    values (no field the code reads is one of their own properties); [null] and
    [undefined] have no properties to read. *)
Definition prop (v : jsval) (k : string) : jsval :=
  match v with JObj fs => field k id JUndef fs | _ => JUndef end.

Definition nullish (v : jsval) : bool :=
  match v with JUndef | JNull => true | _ => false end.

Definition readable {E} (e : js_error → E) (v : jsval) : result E unit :=
  reject_if (nullish v) (e TypeError).

(** [v ?? w] *)
Definition coalesce (v w : jsval) : jsval := if nullish v then w else v.

Definition is_undef (v : jsval) : bool :=
  match v with JUndef => true | _ => false end.

(** ** [typeof] tests, with the value they narrow to *)

Definition as_string (v : jsval) : option string :=
  match v with JStr s => Some s | _ => None end.
Definition as_number (v : jsval) : option jsnum :=
  match v with JNum n => Some n | _ => None end.
Definition as_bool (v : jsval) : option bool :=
  match v with JBool b => Some b | _ => None end.
Definition as_array (v : jsval) : option (list jsval) :=
  match v with JArr l => Some l | _ => None end.

(** [typeof v === "string" && v !== ""] *)
Definition as_nonempty (v : jsval) : option string :=
  match v with JStr "" => None | JStr s => Some s | _ => None end.

(** [typeof v === "object" && v !== null] *)
Definition is_object (v : jsval) : bool :=
  match v with JArr _ | JObj _ => true | _ => false end.

Definition is_str (v : jsval) (s : string) : bool :=
  match v with JStr s' => String.eqb s' s | _ => false end.

(** [Boolean(v)] *)
Definition truthy (v : jsval) : bool :=
  match v with
  | JUndef | JNull => false
  | JBool b => b
  | JNum JNaN => false
  | JNum (JFin m _) => negb (m =? 0)%Z
  | JNum (JInf _) => true
  | JStr s => negb (String.eqb s "")
  | JArr _ | JObj _ => true
  end.

Lemma as_nonempty_Some v s : as_nonempty v = Some s ↔ v = JStr s ∧ s ≠ "".
Proof. destruct v as [| | | |[|c s']| |]; cbn; naive_solver. Qed.

Lemma is_str_true v s : is_str v s = true ↔ v = JStr s.
Proof. destruct v; cbn; rewrite ?String.eqb_eq; naive_solver. Qed.

Lemma as_string_Some v s : as_string v = Some s ↔ v = JStr s.
Proof. destruct v; cbn; naive_solver. Qed.

(** ** Strings *)

Fixpoint starts_with (p s : string) : bool :=
  match p, s with
  | EmptyString, _ => true
  | String a p', String b s' => Ascii.eqb a b && starts_with p' s'
  | _, _ => false
  end.

(** [s.includes(p)] on strings. *)
Fixpoint str_includes (s p : string) : bool :=
  starts_with p s ||
  match s with EmptyString => false | String _ s' => str_includes s' p end.

Lemma starts_with_spec p s : starts_with p s = true ↔ ∃ t, s = p +:+ t.
Proof.
  revert s. induction p as [|a p IH]; intros s; cbn; [naive_solver|].
  destruct s as [|b s]; cbn.
  - split; [done|]. by intros [t ?].
  - rewrite andb_true_iff, Ascii.eqb_eq, IH. split.
    + intros [-> [t ->]]. by exists t.
    + intros [t Ht]. cbn in Ht. injection Ht as -> ->. eauto.
Qed.

Lemma str_includes_spec s p : str_includes s p = true ↔ ∃ a b, s = a +:+ p +:+ b.
Proof.
  induction s as [|c s IH]; cbn; rewrite orb_true_iff, starts_with_spec.
  - split.
    + intros [[t Ht]|]; [|done]. by exists "", t.
    + intros (a & b & Heq). left. destruct a; [by exists b|done].
  - rewrite IH. split.
    + intros [[t ->]|(a & b & ->)]; [by exists "", t|by exists (String c a), b].
    + intros (a & b & Heq). destruct a as [|c' a]; cbn in Heq.
      * left. by exists b.
      * injection Heq as -> ->. right. eauto.
Qed.

Definition lower_char (c : ascii) : ascii :=
  let n := nat_of_ascii c in
  if (65 <=? n) && (n <=? 90) then ascii_of_nat (n + 32) else c.

(** [s.toLowerCase()] on ASCII text. *)
Fixpoint to_lower (s : string) : string :=
  match s with EmptyString => "" | String c s' => String (lower_char c) (to_lower s') end.

Fixpoint join (sep : string) (l : list string) : string :=
  match l with
  | [] => ""
  | [s] => s
  | s :: l' => s +:+ sep +:+ join sep l'
  end.

(** ** [String(v)] and template literals

    [fraction_to_string] is the language's shortest round-trip decimal for a
    number that is not an integer below [10^21] in magnitude; integers print
    exactly. *)

Section to_string.
Variable fraction_to_string : Z → nat → string.

Definition num_to_string (n : jsnum) : string :=
  match n with
  | JNaN => "NaN"
  | JInf true => "-Infinity"
  | JInf false => "Infinity"
  | JFin m k =>
      match as_integer n with
      | Some z => if (Z.abs z <? 10 ^ 21)%Z then pretty z else fraction_to_string m k
      | None => fraction_to_string m k
      end
  end.

Fixpoint to_string (v : jsval) : string :=
  match v with
  | JUndef => "undefined"
  | JNull => "null"
  | JBool true => "true"
  | JBool false => "false"
  | JNum n => num_to_string n
  | JStr s => s
  | JArr l => join "," (map (λ w, if nullish w then "" else to_string w) l)
  | JObj _ => "[object Object]"
  end.
End to_string.

(** [v?.includes(s) ?? false] for a string [s]: element test on arrays,
    substring on strings, a [TypeError] where there is no such method. *)
Definition opt_includes {E} (e : js_error → E) (v : jsval) (s : string) : result E bool :=
  match v with
  | JUndef | JNull => Ok false
  | JArr l => Ok (existsb (λ w, is_str w s) l)
  | JStr t => Ok (str_includes t s)
  | _ => Err (e TypeError)
  end.
