(* ===== verification/Decimal.v ===== *)
(** * Decimal text: digits, [parseInt], [padStart], [split]

    The string operations of the language that the amount, predicate and key
    code applies to decimal text, with the facts that tie them to printing. *)

From S2P Require Import Prelude.
From S2P Require Import JsValue.

(** The value of a decimal digit, from its code point. *)
Definition digit_val (c : ascii) : option N :=
  let n := N_of_ascii c in
  if ((48 <=? n) && (n <=? 57))%N then Some (n - 48)%N else None.

(** [/^\d*$/] *)
Fixpoint all_digits (s : string) : bool :=
  match s with
  | EmptyString => true
  | String c s' => bool_decide (is_Some (digit_val c)) && all_digits s'
  end.

(** The value of a run of digits read after [acc]; characters that are not
    digits do not occur where the code uses it. *)
Fixpoint digits_from (acc : N) (s : string) : N :=
  match s with
  | EmptyString => acc
  | String c s' => digits_from (10 * acc + default 0 (digit_val c)) s'
  end%N.

(** [BigInt(s)] for [s] matching [/^\d+$/]. *)
Definition digits_value (s : string) : N := digits_from 0 s.

(** ** Printing and reading *)

Lemma digit_val_char x : (x < 10)%N → digit_val (pretty_N_char x) = Some x.
Proof.
  intros Hx. destruct x as [|p]; [done|].
  do 4 (try destruct p as [p|p|]); try done; lia.
Qed.

(** The digits of [x] in front of a digit string [s] shift [x] past [s]. *)
Lemma digits_from_go x acc s :
  ∃ k, digits_from acc (pretty_N_go x s) = digits_from (acc * 10 ^ k + x) s
       ∧ (acc = 0 → k = 0 → x = 0)%N.
Proof.
  revert acc s. induction (N.lt_wf_0 x) as [x _ IH]; intros acc s.
  destruct (decide (x = 0)%N) as [->|Hx].
  - exists 0%N. rewrite pretty_N_go_0. split; [f_equal; lia|done].
  - rewrite pretty_N_go_step by lia.
    destruct (IH (x `div` 10)%N ltac:(apply N.div_lt; lia) acc
      (String (pretty_N_char (x `mod` 10)) s)) as (k & -> & _).
    exists (k + 1)%N. cbn. rewrite digit_val_char by (by apply N.mod_lt). cbn.
    split; [|lia]. f_equal. rewrite N.pow_add_r, N.pow_1_r.
    pose proof (N.div_mod x 10 ltac:(done)). lia.
Qed.

Lemma digits_value_pretty (n : N) : digits_value (pretty n) = n.
Proof.
  unfold digits_value, pretty, pretty_N. case_decide as Hn; [by subst|].
  destruct (digits_from_go n 0 "") as (k & -> & _). cbn. lia.
Qed.

Lemma all_digits_go x s : all_digits (pretty_N_go x s) = all_digits s.
Proof.
  revert s. induction (N.lt_wf_0 x) as [x _ IH]; intros s.
  destruct (decide (x = 0)%N) as [->|Hx]; [by rewrite pretty_N_go_0|].
  rewrite pretty_N_go_step by lia. rewrite IH by (apply N.div_lt; lia). cbn.
  rewrite digit_val_char by (by apply N.mod_lt). by rewrite bool_decide_true by eauto.
Qed.

Lemma all_digits_pretty (n : N) : all_digits (pretty n) = true.
Proof. unfold pretty, pretty_N. case_decide; [done|]. by rewrite all_digits_go. Qed.

Lemma length_pretty_go k x s :
  (x < 10 ^ N.of_nat k)%N → String.length (pretty_N_go x s) ≤ k + String.length s.
Proof.
  revert x s. induction k as [|k IH]; intros x s Hx.
  - assert (x = 0)%N as -> by (cbn in Hx; lia). by rewrite pretty_N_go_0.
  - destruct (decide (x = 0)%N) as [->|Hn]; [rewrite pretty_N_go_0; lia|].
    rewrite pretty_N_go_step by lia. etrans; [apply IH|cbn; lia].
    apply N.Div0.div_lt_upper_bound. rewrite Nat2N.inj_succ, N.pow_succ_r' in Hx. lia.
Qed.

Lemma length_pretty k (n : N) :
  0 < k → (n < 10 ^ N.of_nat k)%N → String.length (pretty n) ≤ k.
Proof.
  intros Hk Hn. unfold pretty, pretty_N. case_decide; [cbn; lia|].
  etrans; [by apply (length_pretty_go k)|cbn; lia].
Qed.

Lemma pretty_nonempty (n : N) : pretty n ≠ "".
Proof.
  unfold pretty, pretty_N. case_decide as Hn; [done|]. intros He.
  destruct (digits_from_go n 0 "") as (k & Hd & _). rewrite He in Hd. cbn in Hd. lia.
Qed.

(** ** [padStart] *)

Fixpoint zeros (k : nat) : string :=
  match k with 0 => "" | S k' => String "0"%char (zeros k') end.

(** [s.padStart(width, "0")] *)
Definition pad_start (width : nat) (s : string) : string :=
  zeros (width - String.length s) +:+ s.

Lemma zeros_S k : zeros (S k) = "0" +:+ zeros k.
Proof. done. Qed.

Lemma length_zeros k : String.length (zeros k) = k.
Proof. induction k as [|k IH]; cbn in *; [done|]. by rewrite IH. Qed.

Lemma string_length_app s t : String.length (s +:+ t) = String.length s + String.length t.
Proof. induction s as [|c s IH]; cbn; [done|]. by rewrite IH. Qed.

Lemma digits_from_zeros k s : digits_from 0 (zeros k +:+ s) = digits_from 0 s.
Proof. induction k as [|k IH]; [done|exact IH]. Qed.

Lemma all_digits_app s t : all_digits (s +:+ t) = all_digits s && all_digits t.
Proof. induction s as [|c s IH]; cbn; [done|]. by rewrite IH, andb_assoc. Qed.

Lemma all_digits_zeros k : all_digits (zeros k) = true.
Proof. by induction k. Qed.

Lemma length_pad_start w s :
  String.length s ≤ w → String.length (pad_start w s) = w.
Proof. intros. unfold pad_start. rewrite string_length_app, length_zeros. lia. Qed.

Lemma digits_value_pad w s : digits_value (pad_start w s) = digits_value s.
Proof. apply digits_from_zeros. Qed.

Lemma all_digits_pad w s : all_digits (pad_start w s) = all_digits s.
Proof. unfold pad_start. by rewrite all_digits_app, all_digits_zeros. Qed.

(** ** [slice(0, n)] *)

Lemma substring_app_l s t : String.substring 0 (String.length s) (s +:+ t) = s.
Proof. induction s as [|c s IH]; cbn; [by destruct t|]. by rewrite IH. Qed.

(** ** [split] on one character *)

Fixpoint str_split (c : ascii) (s : string) : list string :=
  match s with
  | EmptyString => [EmptyString]
  | String a s' =>
      if Ascii.eqb a c then EmptyString :: str_split c s'
      else match str_split c s' with
           | p :: ps => String a p :: ps
           | [] => [String a EmptyString]
           end
  end.

Fixpoint char_free (c : ascii) (s : string) : bool :=
  match s with
  | EmptyString => true
  | String a s' => negb (Ascii.eqb a c) && char_free c s'
  end.

Lemma char_free_app c s t : char_free c (s +:+ t) = char_free c s && char_free c t.
Proof. induction s as [|a s IH]; cbn; [done|]. by rewrite IH, andb_assoc. Qed.

Lemma str_split_nonempty c s : str_split c s ≠ [].
Proof. destruct s as [|a s]; cbn; [done|]. by repeat case_match. Qed.

Lemma str_split_free c s : char_free c s = true → str_split c s = [s].
Proof.
  induction s as [|a s IH]; cbn; [done|]. intros [Ha Hs]%andb_true_iff.
  apply negb_true_iff in Ha. by rewrite Ha, IH.
Qed.

Lemma str_split_app c s t :
  char_free c s = true → str_split c (s +:+ String c t) = s :: str_split c t.
Proof.
  induction s as [|a s IH]; cbn.
  - by rewrite Ascii.eqb_refl.
  - intros [Ha Hs]%andb_true_iff. apply negb_true_iff in Ha. by rewrite Ha, IH.
Qed.

Lemma all_digits_free c s :
  digit_val c = None → all_digits s = true → char_free c s = true.
Proof.
  intros Hc. induction s as [|a s IH]; cbn; [done|]. intros [Ha Hs]%andb_true_iff.
  apply bool_decide_eq_true in Ha. rewrite IH by done. rewrite andb_true_r.
  apply negb_true_iff, Ascii.eqb_neq. intros ->. rewrite Hc in Ha. by destruct Ha.
Qed.

(** ** [parseInt(s, 10)] *)

Definition is_space (c : ascii) : bool :=
  let n := nat_of_ascii c in (n =? 32)%nat || ((9 <=? n)%nat && (n <=? 13)%nat).

Fixpoint trim_start (s : string) : string :=
  match s with
  | String c s' => if is_space c then trim_start s' else s
  | EmptyString => s
  end.

Fixpoint trim_end (s : string) : string :=
  match s with
  | EmptyString => EmptyString
  | String c s' =>
      match trim_end s' with
      | EmptyString => if is_space c then EmptyString else String c EmptyString
      | t => String c t
      end
  end.

(** [s.trim()] *)
Definition trim (s : string) : string := trim_end (trim_start s).

(** The longest run of digits at the head of [s]; [None] is [NaN]. *)
Fixpoint digit_prefix (acc : option N) (s : string) : option N :=
  match s with
  | String c s' =>
      match digit_val c with
      | Some d => digit_prefix (Some (10 * default 0 acc + d)%N) s'
      | None => acc
      end
  | EmptyString => acc
  end.

Definition parse_int (s : string) : option Z :=
  match trim_start s with
  | String "-"%char r => Z.opp ∘ Z.of_N <$> digit_prefix None r
  | String "+"%char r => Z.of_N <$> digit_prefix None r
  | r => Z.of_N <$> digit_prefix None r
  end.
