(* ===== verification/Amount.v ===== *)
(** * Stellar amounts (packages/pulse-core/src/amount.ts)

    Seven-decimal amount strings and their stroop integers ([bigint], so [Z]
    without wrap-around). *)

From S2P Require Import Prelude.
From S2P Require Import JsValue.
From S2P Require Import Decimal.

Inductive amount_error := InvalidStellarAmount.

Definition STROOPS_PER_UNIT : Z := 10000000.

Definition toBigInt (s : string) : result amount_error Z :=
  let negative := starts_with "-" s in
  let abs := match s with String "-"%char r => r | _ => s end in
  _ ← reject_if (String.eqb abs "") InvalidStellarAmount;
  let parts := str_split "."%char abs in
  _ ← reject_if (2 <? length parts)%nat InvalidStellarAmount;
  let p0 := default "" (parts !! 0) in
  let whole := if String.eqb p0 "" then "0" else p0 in
  let frac := default "" (parts !! 1) in
  _ ← reject_if (negb (all_digits whole) || (negb (String.eqb frac "") && negb (all_digits frac)))
        InvalidStellarAmount;
  let padded := String.substring 0 7 (frac +:+ "0000000") in
  let combined := (Z.of_N (digits_value whole) * STROOPS_PER_UNIT
                    + Z.of_N (digits_value padded))%Z in
  Ok (if negative then (- combined)%Z else combined).

Definition fromBigInt (amount : Z) : string :=
  let negative := (amount <? 0)%Z in
  let abs := if negative then (- amount)%Z else amount in
  let whole := (abs / STROOPS_PER_UNIT)%Z in
  let frac := (abs mod STROOPS_PER_UNIT)%Z in
  (if negative then "-" else "") +:+ pretty (Z.to_N whole) +:+ "."
    +:+ pad_start 7 (pretty (Z.to_N frac)).

(** ** Parsing what was printed *)

(** A text that starts with a digit does not start with the sign. *)
Lemma digits_no_minus w t :
  w ≠ "" → all_digits w = true →
  starts_with "-" (w +:+ t) = false ∧
  match w +:+ t with String "-"%char r => r | _ => w +:+ t end = w +:+ t.
Proof.
  destruct w as [|c w]; [done|]. intros _ [Hc _]%andb_true_iff.
  destruct c as [[] [] [] [] [] [] [] []]; try done;
    by apply bool_decide_eq_true in Hc as [].
Qed.

Lemma toBigInt_parts (sign : bool) w f :
  w ≠ "" → all_digits w = true → all_digits f = true → String.length f = 7 →
  toBigInt ((if sign then "-" else "") +:+ w +:+ "." +:+ f) =
    let v := (Z.of_N (digits_value w) * STROOPS_PER_UNIT + Z.of_N (digits_value f))%Z in
    Ok (if sign then (- v)%Z else v).
Proof.
  intros Hw Dw Df Lf.
  assert (char_free "."%char w = true) as Fw by by apply all_digits_free.
  assert (char_free "."%char f = true) as Ff by by apply all_digits_free.
  assert (String.substring 0 7 (f +:+ "0000000") = f) as Hs.
  { rewrite <-Lf at 1. apply substring_app_l. }
  destruct (digits_no_minus w ("." +:+ f) Hw Dw) as [Hm Hn].
  change ("." +:+ f) with (String "."%char f) in *.
  unfold toBigInt. destruct sign; cbn [String.append]; rewrite ?Hm, ?Hn.
  all: rewrite (str_split_app _ _ _ Fw), (str_split_free _ _ Ff).
  all: destruct w as [|c w]; [done|]; cbn -[all_digits digits_value String.substring];
    rewrite Dw, Df, Hs; cbn; by rewrite andb_false_r.
Qed.

Lemma toBigInt_fromBigInt n : toBigInt (fromBigInt n) = Ok n.
Proof.
  unfold fromBigInt. set (a := if (n <? 0)%Z then (- n)%Z else n).
  assert (0 ≤ a)%Z as Ha by (subst a; destruct (n <? 0)%Z eqn:E; bool_to_prop; lia).
  assert (0 ≤ a mod STROOPS_PER_UNIT < STROOPS_PER_UNIT)%Z as Hf
    by (apply Z.mod_pos_bound; done).
  assert (0 ≤ a / STROOPS_PER_UNIT)%Z as Hw by (by apply Z.div_pos).
  rewrite toBigInt_parts.
  - cbn zeta. rewrite digits_value_pad, !digits_value_pretty, !Z2N.id by lia.
    rewrite (Z.mul_comm _ STROOPS_PER_UNIT), <-Z.div_mod by done.
    subst a. destruct (n <? 0)%Z; f_equal; lia.
  - apply pretty_nonempty.
  - apply all_digits_pretty.
  - rewrite all_digits_pad. apply all_digits_pretty.
  - apply length_pad_start, length_pretty; [lia|]. unfold STROOPS_PER_UNIT in *. lia.
Qed.

(** printing a stroop integer and parsing the text gives the integer back,
    for every [bigint]; so two integers never print alike, and every printed
    amount is one the parser accepts. *)
Theorem amount_roundtrip n :
  toBigInt (fromBigInt n) = Ok n ∧ ∀ m, fromBigInt m = fromBigInt n → m = n.
Proof.
  split; [apply toBigInt_fromBigInt|]. intros m Heq.
  pose proof (toBigInt_fromBigInt m) as H. rewrite Heq, toBigInt_fromBigInt in H. congruence.
Qed.

(** ** What is accepted *)

(** The strings [toBigInt] accepts: an optional minus sign, then a non-empty
    text of digits with at most one point, either side of which may be empty. *)
Definition accepted_amount (s : string) : bool :=
  let abs := match s with String "-"%char r => r | _ => s end in
  negb (String.eqb abs "") &&
  match str_split "."%char abs with
  | [w] => all_digits w
  | [w; f] => all_digits w && all_digits f
  | _ => false
  end.

(** [toBigInt] returns for exactly the accepted texts and throws on every
    other one.  The accepted ones include texts with no digit on one side of
    the point, and the lone point itself, which reads as zero. *)
Theorem toBigInt_accepts s :
  is_ok (toBigInt s) = accepted_amount s ∧ toBigInt "." = Ok 0%Z.
Proof.
  split; [|reflexivity]. unfold toBigInt, accepted_amount.
  generalize (match s with String "-"%char r => r | _ => s end) as abs. intros abs.
  destruct (String.eqb abs "") eqn:E; [done|]. cbn [negb reject_if mbind result_bind andb].
  destruct (str_split "."%char abs) as [|w [|f [|g l]]] eqn:Es; try done.
  - by apply str_split_nonempty in Es.
  - cbn. destruct (String.eqb_spec w "") as [->|]; cbn; [done|].
    by destruct (all_digits w).
  - cbn. destruct (String.eqb_spec w "") as [->|], (String.eqb_spec f "") as [->|]; cbn;
      rewrite ?andb_true_r; repeat (destruct (all_digits _)); done.
Qed.
