(* ===== verification/ClaimPredicate.v ===== *)
(** * Claim predicates (packages/pulse-core/src/claimPredicate.ts)

    The typed predicate language of claimable balances, its evaluation at a
    time, and the conversion from Horizon's optional-field objects. *)

From S2P Require Import Prelude.
From S2P Require Import JsValue.
From S2P Require Import Decimal.

Inductive ClaimPredicate : Type :=
  | Unconditional
  | NotP (predicate : ClaimPredicate)
  | AndP (predicates : list ClaimPredicate)
  | OrP (predicates : list ClaimPredicate)
  | AbsBefore (timestamp : string)
  | RelBefore (seconds : string).

Inductive predicate_kind := unconditional | not_ | and_ | or_ | abs_before | rel_before.

#[export] Instance predicate_kind_eq_dec : EqDecision predicate_kind.
Proof. solve_decision. Defined.

Definition kind_of (p : ClaimPredicate) : predicate_kind :=
  match p with
  | Unconditional => unconditional
  | NotP _ => not_
  | AndP _ => and_
  | OrP _ => or_
  | AbsBefore _ => abs_before
  | RelBefore _ => rel_before
  end.

Definition isClaimPredicateType (p : ClaimPredicate) (type : predicate_kind) : bool :=
  bool_decide (kind_of p = type).

(** Induction over the predicates of a list as well. *)
Section predicate_nested_ind.
Context (P : ClaimPredicate → Prop).
Context (Hu : P Unconditional) (Hn : ∀ p, P p → P (NotP p)).
Context (Ha : ∀ ps, Forall P ps → P (AndP ps)) (Ho : ∀ ps, Forall P ps → P (OrP ps)).
Context (Hab : ∀ t, P (AbsBefore t)) (Hr : ∀ s, P (RelBefore s)).

Fixpoint predicate_nested_ind (p : ClaimPredicate) : P p :=
  let go := fix go ps : Forall P ps :=
    match ps with
    | [] => Forall_nil_2 P
    | p :: ps' => Forall_cons_2 P p ps' (predicate_nested_ind p) (go ps')
    end in
  match p with
  | Unconditional => Hu
  | NotP p' => Hn p' (predicate_nested_ind p')
  | AndP ps => Ha ps (go ps)
  | OrP ps => Ho ps (go ps)
  | AbsBefore t => Hab t
  | RelBefore s => Hr s
  end.
End predicate_nested_ind.

(** ** Evaluation

    [date_ms] is the language's [new Date(s).getTime()] on a timestamp text,
    [None] where it is [NaN]; [now_ms] is the time in milliseconds. *)

Section evaluate.
Context (date_ms : string → option Z).

(** [nowSeconds < before], false when [before] is [NaN]. *)
Definition before_seconds (now_s : Z) (before : option Z) : bool :=
  match before with Some b => (now_s <? b)%Z | None => false end.

Fixpoint evaluatePredicate (p : ClaimPredicate) (now_ms : Z) : bool :=
  let now_s := (now_ms / 1000)%Z in
  match p with
  | Unconditional => true
  | NotP p' => negb (evaluatePredicate p' now_ms)
  | AndP ps => forallb (λ p', evaluatePredicate p' now_ms) ps
  | OrP ps => existsb (λ p', evaluatePredicate p' now_ms) ps
  | AbsBefore t => before_seconds now_s ((λ ms, ms / 1000)%Z <$> date_ms t)
  | RelBefore s => before_seconds now_s (parse_int s)
  end.
End evaluate.

(** ** From Horizon's raw object *)

Inductive predicate_error :=
  | InvalidOrAmbiguous (raw : jsval)
  | PredicateThrow (e : js_error).

(** [xs.map(f)] where [f] may throw: the first throw ends the loop. *)
Definition map_result {E A B} (f : A → result E B) : list A → result E (list B) :=
  fix go xs :=
    match xs with
    | [] => Ok []
    | x :: xs' => y ← f x; ys ← go xs'; Ok (y :: ys)
    end.

Definition is_true (v : jsval) : bool := match v with JBool b => b | _ => false end.

Fixpoint normalizeClaimPredicate (raw : jsval) : result predicate_error ClaimPredicate :=
  if nullish raw then Err (PredicateThrow TypeError) else
  match raw with
  | JObj fs =>
      if field "unconditional" is_true false fs then Ok Unconditional
      else if negb (field "not" is_undef true fs) then
        NotP <$> field "not" normalizeClaimPredicate (Err (InvalidOrAmbiguous raw)) fs
      else match prop raw "and" with
      | JArr _ =>
          AndP <$> field "and" (λ v, match v with
                                     | JArr l => map_result normalizeClaimPredicate l
                                     | _ => Ok []
                                     end) (Ok []) fs
      | _ => match prop raw "or" with
      | JArr _ =>
          OrP <$> field "or" (λ v, match v with
                                   | JArr l => map_result normalizeClaimPredicate l
                                   | _ => Ok []
                                   end) (Ok []) fs
      | _ => match prop raw "abs_before" with
      | JStr t => Ok (AbsBefore t)
      | _ => match prop raw "rel_before" with
      | JStr s => Ok (RelBefore s)
      | _ => Err (InvalidOrAmbiguous raw)
      end end end end
  | _ => Err (InvalidOrAmbiguous raw)
  end.

(** The object Horizon's SDK produces for a predicate. *)
Fixpoint raw_of (p : ClaimPredicate) : jsval :=
  match p with
  | Unconditional => JObj [("unconditional", JBool true)]
  | NotP p' => JObj [("not", raw_of p')]
  | AndP ps => JObj [("and", JArr (map raw_of ps))]
  | OrP ps => JObj [("or", JArr (map raw_of ps))]
  | AbsBefore t => JObj [("abs_before", JStr t)]
  | RelBefore s => JObj [("rel_before", JStr s)]
  end.

Lemma raw_of_defined p : is_undef (raw_of p) = false.
Proof. by destruct p. Qed.

Lemma map_result_raw ps :
  Forall (λ p, normalizeClaimPredicate (raw_of p) = Ok p) ps →
  map_result normalizeClaimPredicate (map raw_of ps) = Ok ps.
Proof. induction 1 as [|p ps Hp _ IH]; [done|]. cbn [map map_result]. by rewrite Hp, IH. Qed.

(** every predicate survives the trip through Horizon's object form. *)
Theorem predicate_roundtrip p : normalizeClaimPredicate (raw_of p) = Ok p.
Proof.
  induction p using predicate_nested_ind; cbn [raw_of normalizeClaimPredicate]; cbn.
  - done.
  - rewrite raw_of_defined. cbn. by rewrite IHp.
  - by rewrite (map_result_raw ps).
  - by rewrite (map_result_raw ps).
  - done.
  - done.
Qed.

(** ** Time only closes a predicate that holds no negation *)

Fixpoint positive (p : ClaimPredicate) : bool :=
  match p with
  | NotP _ => false
  | AndP ps | OrP ps => forallb positive ps
  | _ => true
  end.

Lemma before_seconds_antitone s s' b :
  (s ≤ s')%Z → before_seconds s' b = true → before_seconds s b = true.
Proof. destruct b; cbn; [|done]. rewrite !Z.ltb_lt. lia. Qed.

(** A predicate without negation that can be claimed at some time could be
    claimed at every earlier time: a claim window closes and stays closed. *)
Theorem positive_antitone date_ms p t t' :
  positive p = true → (t ≤ t')%Z →
  evaluatePredicate date_ms p t' = true → evaluatePredicate date_ms p t = true.
Proof.
  intros Hp Ht. assert (t / 1000 ≤ t' / 1000)%Z as Hs by (apply Z.div_le_mono; lia).
  revert Hp. induction p as [| |ps IH|ps IH| |] using predicate_nested_ind; cbn; try done.
  - rewrite !forallb_Forall, !Forall_forall. rewrite Forall_forall in IH. eauto.
  - rewrite forallb_Forall, !existsb_Exists, !Forall_forall in *. intros Hps (p & Hin & He).
    exists p. eauto.
  - intros _. by apply before_seconds_antitone.
  - intros _. by apply before_seconds_antitone.
Qed.

Lemma positive_antitone_witness :
  evaluatePredicate (λ _, None) (OrP [RelBefore "100"; AndP [Unconditional; AbsBefore "x"]]) 5000
    = true.
Proof.
  apply (positive_antitone (λ _, None) _ 5000 99000); [reflexivity|lia|reflexivity].
Defined.

(** [rel_before] is read as an absolute time: the predicate holds exactly
    while the clock, in seconds since 1970, is below the number of seconds it
    names.  The close time it is relative to plays no part, so at any clock past
    the number itself the claim reads as closed. *)
Theorem rel_before_absolute date_ms s n now :
  parse_int s = Some n →
  evaluatePredicate date_ms (RelBefore s) now = true ↔ (now < n * 1000)%Z.
Proof.
  intros Hs. cbn. rewrite Hs. cbn. rewrite Z.ltb_lt.
  pose proof (Z.div_mod now 1000). pose proof (Z.mod_pos_bound now 1000). lia.
Qed.

Lemma rel_before_absolute_witness :
  parse_int "3600" = Some 3600%Z ∧
  ¬ evaluatePredicate (λ _, None) (RelBefore "3600") 1780315200000 = true.
Proof.
  split; [reflexivity|].
  rewrite (rel_before_absolute _ "3600" 3600 _ eq_refl). lia.
Defined.
