(* ===== verification/EventTypes.v ===== *)
(** * The normalized event taxonomy (packages/pulse-core/src/index.ts)

    One record per event type of the source, with the field names of the source
    behind a short prefix.  A field the normaliser has checked is a [string]; a
    field it only casts ([r.price as string]) keeps whatever value the record
    held, a [jsval].  [timestampDate], a cached getter derived from
    [timestamp], is left out. *)

From S2P Require Import Prelude.
From S2P Require Import JsValue.
From S2P Require Import ClaimPredicate.

Inductive PaymentEventType := payment_received | payment_sent | payment_self.
Inductive TrustAuthEventType := trustline_authorized | trustline_deauthorized.
Inductive TrustlineEventType := trustline_added | trustline_removed | trustline_updated.
Inductive OfferEventType := offer_created | offer_updated | offer_deleted.
Inductive DataEventType := data_set | data_cleared.

#[export] Instance PaymentEventType_eq_dec : EqDecision PaymentEventType.
Proof. solve_decision. Defined.
#[export] Instance TrustlineEventType_eq_dec : EqDecision TrustlineEventType.
Proof. solve_decision. Defined.

Record SetOptionsSigner := { sgn_key : string; sgn_weight : jsnum }.

Record Thresholds := {
  low_threshold : option jsnum;
  med_threshold : option jsnum;
  high_threshold : option jsnum;
  master_key_weight : option jsnum;
}.

Record AccountOptionsChanges := {
  signer_added : option SetOptionsSigner;
  signer_removed : option SetOptionsSigner;
  thresholds : option Thresholds;
  home_domain : option string;
}.

Record ClassicEventIdentity := {
  id_txHash : option string;
  id_ledger : option jsnum;
  id_memo : option string;
}.

(** The fields of a payment; its type is only known once the event is routed. *)
Record PaymentFields := {
  pay_to : string;
  pay_from : string;
  pay_amount : string;
  pay_asset : string;
  pay_timestamp : string;
  pay_identity : ClassicEventIdentity;
  pay_raw : jsval;
}.

Record AccountOptionsEvent := {
  ao_source : jsval;
  ao_changes : AccountOptionsChanges;
  ao_timestamp : jsval;
  ao_identity : ClassicEventIdentity;
  ao_raw : jsval;
}.

Record OfferEvent := {
  of_type : OfferEventType;
  of_offer_id : string;
  of_source : string;
  of_buying_asset : string;
  of_selling_asset : string;
  of_amount : string;
  of_price : jsval;
  of_price_r : jsval;
  of_timestamp : string;
  of_identity : ClassicEventIdentity;
  of_raw : jsval;
}.

Record BumpSequenceEvent := {
  bs_source : string;
  bs_bump_to : jsval;
  bs_timestamp : string;
  bs_identity : ClassicEventIdentity;
  bs_raw : jsval;
}.

Record ClaimableBalanceClaimant := {
  cl_destination : string;
  cl_predicate : ClaimPredicate;
}.

Record ClaimableCreatedEvent := {
  cc_sponsor : string;
  cc_balanceId : string;
  cc_claimants : list ClaimableBalanceClaimant;
  cc_asset : string;
  cc_amount : string;
  cc_timestamp : string;
  cc_identity : ClassicEventIdentity;
  cc_raw : jsval;
}.

Record ClaimableClaimedEvent := {
  cd_claimant : string;
  cd_balanceId : string;
  cd_timestamp : string;
  cd_identity : ClassicEventIdentity;
  cd_raw : jsval;
}.

Record DataEvent := {
  da_type : DataEventType;
  da_source : string;
  da_name : string;
  da_value : option string;
  da_decoded : option (list Z);
  da_timestamp : string;
  da_identity : ClassicEventIdentity;
  da_raw : jsval;
}.

Record LiquidityPoolDepositEvent := {
  ld_source : string;
  ld_pool_id : string;
  ld_reserves_deposited : list jsval;
  ld_shares_received : string;
  ld_timestamp : string;
  ld_identity : ClassicEventIdentity;
  ld_raw : jsval;
}.

Record LiquidityPoolWithdrawEvent := {
  lw_source : string;
  lw_pool_id : string;
  lw_reserves_received : list jsval;
  lw_shares_redeemed : string;
  lw_timestamp : string;
  lw_identity : ClassicEventIdentity;
  lw_raw : jsval;
}.

Record TrustAuthEvent := {
  ta_type : TrustAuthEventType;
  ta_trustor : string;
  ta_issuer : string;
  ta_asset : string;
  ta_timestamp : string;
  ta_operation : string;
  ta_identity : ClassicEventIdentity;
  ta_raw : jsval;
}.

Record AccountCreatedEvent := {
  ac_funder : string;
  ac_account : string;
  ac_starting_balance : string;
  ac_timestamp : string;
  ac_identity : ClassicEventIdentity;
  ac_raw : jsval;
}.

Record TrustlineEvent := {
  tl_type : TrustlineEventType;
  tl_account : string;
  tl_asset : string;
  tl_limit : string;
  tl_timestamp : string;
  tl_identity : ClassicEventIdentity;
  tl_raw : jsval;
}.

Record AccountMergeEvent := {
  am_source : jsval;
  am_destination : jsval;
  am_timestamp : jsval;
  am_identity : ClassicEventIdentity;
  am_raw : jsval;
}.

Record AssetClawbackEvent := {
  cb_from : string;
  cb_asset : string;
  cb_amount : string;
  cb_timestamp : string;
  cb_raw : jsval;
}.

Record FeeIncurredEvent := {
  fe_from : string;
  fe_amount : string;
  fe_timestamp : string;
  fe_raw : jsval;
}.

Record ContractInvokedEvent := {
  ci_contractId : string;
  ci_function : string;
  ci_args : list jsval;
  ci_ledger : option jsnum;
  ci_txHash : option string;
  ci_timestamp : string;
  ci_inSuccessfulContractCall : option bool;
  ci_raw : jsval;
}.

(** [Semantic] is the taxonomy resolution of the abi-registry package. *)
Record ContractEmittedEvent (Semantic : Type) := {
  ce_contractId : string;
  ce_topics : list jsval;
  ce_data : jsval;
  ce_decodedData : jsval;
  ce_semantic : option Semantic;
  ce_ledger : option jsnum;
  ce_eventId : option string;
  ce_txHash : option string;
  ce_inSuccessfulContractCall : bool;
  ce_timestamp : string;
  ce_raw : jsval;
}.
Arguments ce_contractId {Semantic} c.
Arguments ce_topics {Semantic} c.
Arguments ce_data {Semantic} c.
Arguments ce_decodedData {Semantic} c.
Arguments ce_semantic {Semantic} c.
Arguments ce_ledger {Semantic} c.
Arguments ce_eventId {Semantic} c.
Arguments ce_txHash {Semantic} c.
Arguments ce_inSuccessfulContractCall {Semantic} c.
Arguments ce_timestamp {Semantic} c.
Arguments ce_raw {Semantic} c.

(** The events the engine normalizes and routes: the source's [NormalizedEvent]
    without the anchor events (which the engine never produces), plus the
    payment whose direction is still ["unknown"]. *)
Inductive Event (Semantic : Type) : Type :=
  | PendingPayment (p : PaymentFields)
  | Payment (type : PaymentEventType) (p : PaymentFields)
  | AccountOptions (e : AccountOptionsEvent)
  | AccountCreated (e : AccountCreatedEvent)
  | Trustline (e : TrustlineEvent)
  | AccountMerge (e : AccountMergeEvent)
  | Offer (e : OfferEvent)
  | BumpSequence (e : BumpSequenceEvent)
  | Data (e : DataEvent)
  | ClaimableCreated (e : ClaimableCreatedEvent)
  | ClaimableClaimed (e : ClaimableClaimedEvent)
  | LiquidityPoolDeposit (e : LiquidityPoolDepositEvent)
  | LiquidityPoolWithdraw (e : LiquidityPoolWithdrawEvent)
  | TrustAuth (e : TrustAuthEvent)
  | AssetClawback (e : AssetClawbackEvent)
  | FeeIncurred (e : FeeIncurredEvent)
  | ContractInvoked (e : ContractInvokedEvent)
  | ContractEmitted (e : ContractEmittedEvent Semantic).
Arguments PendingPayment {Semantic} p.
Arguments Payment {Semantic} type p.
Arguments AccountOptions {Semantic} e.
Arguments AccountCreated {Semantic} e.
Arguments Trustline {Semantic} e.
Arguments AccountMerge {Semantic} e.
Arguments Offer {Semantic} e.
Arguments BumpSequence {Semantic} e.
Arguments Data {Semantic} e.
Arguments ClaimableCreated {Semantic} e.
Arguments ClaimableClaimed {Semantic} e.
Arguments LiquidityPoolDeposit {Semantic} e.
Arguments LiquidityPoolWithdraw {Semantic} e.
Arguments TrustAuth {Semantic} e.
Arguments AssetClawback {Semantic} e.
Arguments FeeIncurred {Semantic} e.
Arguments ContractInvoked {Semantic} e.
Arguments ContractEmitted {Semantic} e.

Definition payment_name (t : PaymentEventType) : string :=
  match t with
  | payment_received => "payment.received"
  | payment_sent => "payment.sent"
  | payment_self => "payment.self"
  end.

Definition trustline_name (t : TrustlineEventType) : string :=
  match t with
  | trustline_added => "trustline.added"
  | trustline_removed => "trustline.removed"
  | trustline_updated => "trustline.updated"
  end.

Definition trust_auth_name (t : TrustAuthEventType) : string :=
  match t with
  | trustline_authorized => "trustline.authorized"
  | trustline_deauthorized => "trustline.deauthorized"
  end.

Definition offer_name (t : OfferEventType) : string :=
  match t with
  | offer_created => "offer.created"
  | offer_updated => "offer.updated"
  | offer_deleted => "offer.deleted"
  end.

Definition data_name (t : DataEventType) : string :=
  match t with data_set => "data.set" | data_cleared => "data.cleared" end.

(** [event.type] *)
Definition type_of {Semantic} (e : Event Semantic) : string :=
  match e with
  | PendingPayment _ => "unknown"
  | Payment t _ => payment_name t
  | AccountOptions _ => "account.options_changed"
  | AccountCreated _ => "account.created"
  | Trustline e => trustline_name (tl_type e)
  | AccountMerge _ => "account.merged"
  | Offer e => offer_name (of_type e)
  | BumpSequence _ => "account.bump_sequence"
  | Data e => data_name (da_type e)
  | ClaimableCreated _ => "claimable.created"
  | ClaimableClaimed _ => "claimable.claimed"
  | LiquidityPoolDeposit _ => "lp.deposited"
  | LiquidityPoolWithdraw _ => "lp.withdrawn"
  | TrustAuth e => trust_auth_name (ta_type e)
  | AssetClawback _ => "asset.clawback"
  | FeeIncurred _ => "fee.incurred"
  | ContractInvoked _ => "contract.invoked"
  | ContractEmitted _ => "contract.emitted"
  end.

(** ** Event families and transports *)

Inductive EventFamily :=
  | fam_payment | fam_trustlineAuth | fam_trustlineLimit | fam_accountCreated
  | fam_accountOptions | fam_accountMerge | fam_offer | fam_bumpSequence
  | fam_manageData | fam_claimableBalance | fam_liquidityPool.

#[export] Instance EventFamily_eq_dec : EqDecision EventFamily.
Proof. solve_decision. Defined.

Inductive Transport := via_unified | via_horizon.

Definition UNIFIED_EQUIVALENT_FAMILIES : list EventFamily := [fam_payment; fam_trustlineAuth].

Definition resolveFamilyTransport (family : EventFamily) (effectiveMode : Transport) : Transport :=
  match effectiveMode with
  | via_horizon => via_horizon
  | via_unified =>
      if bool_decide (family ∈ UNIFIED_EQUIVALENT_FAMILIES) then via_unified else via_horizon
  end.

Inductive IngestionMode := mode_unified | mode_horizon | mode_auto.

(** The [IngestionMode] an engine was configured with, resolved against whether
    a unified transport exists and whether the probed network supports it. *)
Definition resolveEffectiveIngestion (ingestion : IngestionMode)
    (unifiedRpc supportsUnifiedEvents : bool) : Transport :=
  match ingestion with
  | mode_horizon => via_horizon
  | _ =>
      if negb unifiedRpc then via_horizon
      else match ingestion with
      | mode_unified => via_unified
      | _ => if supportsUnifiedEvents then via_unified else via_horizon
      end
  end.
