(* ===== verification/Normalize.v ===== *)
(** * Normalizing Horizon operation records
    (packages/pulse-core/src/EventEngine.ts, [_normalize] and its helpers)

    A record of any shape goes in; out comes an event, or the reason the record
    was dropped, or the exception the code lets escape.  Logging is kept as the
    reason of a drop. *)

From S2P Require Import Prelude.
From S2P Require Import JsValue.
From S2P Require Import Decimal.
From S2P Require Import Amount.
From S2P Require Import ClaimPredicate.
From S2P Require Import EventTypes.

Definition STELLAR_MAX_TRUSTLINE_LIMIT : string := "922337203685.4775807".

Definition HORIZON_OP_TYPE_TO_FAMILY : list (string * EventFamily) :=
  [("payment", fam_payment);
   ("create_account", fam_accountCreated);
   ("set_options", fam_accountOptions);
   ("manage_sell_offer", fam_offer);
   ("manage_buy_offer", fam_offer);
   ("bump_sequence", fam_bumpSequence);
   ("manage_data", fam_manageData);
   ("change_trust", fam_trustlineLimit);
   ("account_merge", fam_accountMerge);
   ("create_claimable_balance", fam_claimableBalance);
   ("claim_claimable_balance", fam_claimableBalance);
   ("liquidity_pool_deposit", fam_liquidityPool);
   ("liquidity_pool_withdraw", fam_liquidityPool);
   ("allow_trust", fam_trustlineAuth);
   ("set_trust_line_flags", fam_trustlineAuth)].

(** A lookup in the table, an object literal: one of its own entries, or a
    property every object inherits ([table["constructor"]] is a function). *)
Inductive table_entry :=
  | Own (family : EventFamily)
  | Inherited (property : string).

Definition object_prototype : list string :=
  ["constructor"; "__defineGetter__"; "__defineSetter__"; "hasOwnProperty";
   "__lookupGetter__"; "__lookupSetter__"; "isPrototypeOf"; "propertyIsEnumerable";
   "toString"; "valueOf"; "__proto__"; "toLocaleString"].

Definition family_lookup (op : string) : option table_entry :=
  match List.find (λ e, String.eqb e.1 op) HORIZON_OP_TYPE_TO_FAMILY with
  | Some (_, family) => Some (Own family)
  | None => if existsb (String.eqb op) object_prototype then Some (Inherited op) else None
  end.

Definition horizonEventFamily (record : jsval) : option table_entry :=
  if negb (is_object record) then None
  else op ← as_string (prop record "type"); family_lookup op.

(** Why a record was dropped: a warning naming a field, a silent [return null],
    or an operation type the engine does not know (which is also announced to
    the watchers). *)
Inductive drop_reason :=
  | MissingField (field : string)
  | Silent
  | UnrecognizedOperation (operationType : string).

Inductive engine_throw :=
  | EngineThrow (e : js_error)
  | EnginePredicate (e : predicate_error).

Section normalize.
Context {Semantic : Type}.
(** Number printing for numbers that are not integers; Node's
    [Buffer.from(s, "base64")]; the taxonomy resolver. *)
Context (fraction_to_string : Z → nat → string).
Context (buffer_from_base64 : string → list Z).
Context (resolveSemantic : string → list jsval → jsval → option Semantic).

Inductive outcome :=
  | Normalized (e : Event Semantic)
  | Dropped (why : drop_reason).

Notation String_ := (to_string fraction_to_string).
Notation fallible := (result engine_throw outcome).

(** The first of the required fields that is not a non-empty string. *)
Definition first_missing (fields : list string) (r : jsval) : option string :=
  List.find (λ f, negb (bool_decide (is_Some (as_nonempty (prop r f))))) fields.

(** [r[f] as string] behind a check that it is one. *)
Definition str (r : jsval) (f : string) : string := default "" (as_string (prop r f)).

(** [kind === "native" ? "XLM" : `${code}:${issuer}`] *)
Definition asset_of (kind code issuer : jsval) : string :=
  if is_str kind "native" then "XLM" else String_ code +:+ ":" +:+ String_ issuer.

Definition asset_field (r : jsval) : string :=
  asset_of (prop r "asset_type") (prop r "asset_code") (prop r "asset_issuer").

Definition classicIdentity (r : jsval) : ClassicEventIdentity :=
  let tx := prop r "transaction" in
  {| id_txHash := as_nonempty (prop r "transaction_hash");
     id_ledger := if is_object tx then as_number (prop tx "ledger") else None;
     id_memo :=
       if is_object tx && negb (is_str (prop tx "memo_type") "none")
       then as_nonempty (prop tx "memo") else None |}.

Definition normalizePayment (r : jsval) : outcome :=
  match first_missing ["to"; "from"; "amount"; "created_at"] r with
  | Some f => Dropped (MissingField f)
  | None =>
      Normalized (PendingPayment
        {| pay_to := str r "to"; pay_from := str r "from"; pay_amount := str r "amount";
           pay_asset := asset_field r; pay_timestamp := str r "created_at";
           pay_identity := classicIdentity r; pay_raw := r |})
  end.

Definition offer_type_of (offer_id amount : string) : OfferEventType :=
  if String.eqb amount "0" || String.eqb amount "0.0000000" then offer_deleted
  else if String.eqb offer_id "0" then offer_created
  else offer_updated.

Definition normalizeOffer (r : jsval) : outcome :=
  match as_string (prop r "source_account"), as_string (prop r "created_at") with
  | Some source, Some created_at =>
      let offer_id := String_ (coalesce (prop r "offer_id") (JStr "0")) in
      let amount := String_ (coalesce (prop r "amount") (JStr "0")) in
      Normalized (Offer
        {| of_type := offer_type_of offer_id amount;
           of_offer_id := offer_id; of_source := source;
           of_buying_asset := asset_of (prop r "buying_asset_type")
                                (prop r "buying_asset_code") (prop r "buying_asset_issuer");
           of_selling_asset := asset_of (prop r "selling_asset_type")
                                (prop r "selling_asset_code") (prop r "selling_asset_issuer");
           of_amount := amount; of_price := prop r "price"; of_price_r := prop r "price_r";
           of_timestamp := created_at; of_identity := classicIdentity r; of_raw := r |})
  | _, _ => Dropped Silent
  end.

Definition normalizeCreateAccount (r : jsval) : outcome :=
  match as_string (prop r "funder"), as_string (prop r "account"),
        as_string (prop r "starting_balance"), as_string (prop r "created_at") with
  | Some funder, Some account, Some balance, Some created_at =>
      Normalized (AccountCreated
        {| ac_funder := funder; ac_account := account; ac_starting_balance := balance;
           ac_timestamp := created_at; ac_identity := classicIdentity r; ac_raw := r |})
  | _, _, _, _ => Dropped Silent
  end.

Definition normalizeBumpSequence (r : jsval) : outcome :=
  match as_string (prop r "source_account"), as_string (prop r "created_at") with
  | Some source, Some created_at =>
      Normalized (BumpSequence
        {| bs_source := source; bs_bump_to := prop r "bump_to"; bs_timestamp := created_at;
           bs_identity := classicIdentity r; bs_raw := r |})
  | _, _ => Dropped Silent
  end.

Definition normalizeManageData (r : jsval) : outcome :=
  match as_nonempty (prop r "source_account"), as_nonempty (prop r "data_name") with
  | None, _ => Dropped (MissingField "source_account")
  | _, None => Dropped (MissingField "data_name")
  | Some source, Some name =>
      let value := if nullish (prop r "data_value") then None
                   else Some (String_ (prop r "data_value")) in
      Normalized (Data
        {| da_type := match value with Some _ => data_set | None => data_cleared end;
           da_source := source; da_name := name; da_value := value;
           da_decoded := buffer_from_base64 <$> value;
           da_timestamp := str r "created_at";
           da_identity := classicIdentity r; da_raw := r |})
  end.

(** [/^0(?:\.0+)?$/] *)
Fixpoint only_zeros (s : string) : bool :=
  match s with
  | EmptyString => true
  | String c s' => Ascii.eqb c "0"%char && only_zeros s'
  end.

Definition isZeroTrustlineLimit (limit : string) : bool :=
  match limit with
  | EmptyString => false
  | String a r =>
      Ascii.eqb a "0"%char &&
      match r with
      | EmptyString => true
      | String b f => Ascii.eqb b "."%char && negb (String.eqb f "") && only_zeros f
      end
  end.

Definition resolveTrustlineEventType (limit : string) : TrustlineEventType :=
  if isZeroTrustlineLimit limit then trustline_removed
  else if String.eqb limit STELLAR_MAX_TRUSTLINE_LIMIT then trustline_added
  else trustline_updated.

Definition normalizeChangeTrust (r : jsval) : outcome :=
  match as_string (prop r "source_account"), as_string (prop r "created_at"),
        prop r "limit" with
  | Some source, Some created_at, (JStr _ | JNum _) as lim =>
      let limit := String_ lim in
      Normalized (Trustline
        {| tl_type := resolveTrustlineEventType limit; tl_account := source;
           tl_asset := asset_field r; tl_limit := limit; tl_timestamp := created_at;
           tl_identity := classicIdentity r; tl_raw := r |})
  | _, _, _ => Dropped Silent
  end.

Definition is_zero_number (n : jsnum) : bool :=
  match n with JFin m _ => (m =? 0)%Z | _ => false end.

Definition option_changes (r : jsval) : AccountOptionsChanges :=
  let weight := default (jint 0) (as_number (prop r "signer_weight")) in
  let th := {| low_threshold := as_number (prop r "low_threshold");
               med_threshold := as_number (prop r "med_threshold");
               high_threshold := as_number (prop r "high_threshold");
               master_key_weight := as_number (prop r "master_key_weight") |} in
  {| signer_added :=
       match as_string (prop r "signer_key") with
       | Some k => if is_zero_number weight then None
                   else Some {| sgn_key := k; sgn_weight := weight |}
       | None => None
       end;
     signer_removed :=
       match as_string (prop r "signer_key") with
       | Some k => if is_zero_number weight then Some {| sgn_key := k; sgn_weight := jint 0 |}
                   else None
       | None => None
       end;
     thresholds :=
       match th with
       | Build_Thresholds None None None None => None
       | _ => Some th
       end;
     home_domain := as_string (prop r "home_domain") |}.

Definition normalizeSetOptions (r : jsval) : outcome :=
  match option_changes r with
  | Build_AccountOptionsChanges None None None None => Dropped Silent
  | changes =>
      Normalized (AccountOptions
        {| ao_source := prop r "source_account"; ao_changes := changes;
           ao_timestamp := prop r "created_at"; ao_identity := classicIdentity r;
           ao_raw := r |})
  end.

Definition normalizeAccountMerge (r : jsval) : outcome :=
  Normalized (AccountMerge
    {| am_source := prop r "account"; am_destination := prop r "into";
       am_timestamp := prop r "created_at"; am_identity := classicIdentity r;
       am_raw := r |}).

Definition valid_claimant (c : jsval) : bool :=
  is_object c && bool_decide (is_Some (as_nonempty (prop c "destination"))).

Definition claimant_of (c : jsval) : result engine_throw ClaimableBalanceClaimant :=
  match normalizeClaimPredicate (prop c "predicate") with
  | Ok p => Ok {| cl_destination := str c "destination"; cl_predicate := p |}
  | Err e => Err (EnginePredicate e)
  end.

Definition normalizeCreateClaimableBalance (r : jsval) : fallible :=
  match first_missing ["source_account"; "created_at"; "amount"; "balance_id"] r with
  | Some f => Ok (Dropped (MissingField f))
  | None =>
      match prop r "claimants" with
      | JArr ((_ :: _) as cs) =>
          if forallb valid_claimant cs then
            claimants ← map_result claimant_of cs;
            Ok (Normalized (ClaimableCreated
              {| cc_sponsor := str r "source_account"; cc_balanceId := str r "balance_id";
                 cc_claimants := claimants; cc_asset := asset_field r;
                 cc_amount := str r "amount"; cc_timestamp := str r "created_at";
                 cc_identity := classicIdentity r; cc_raw := r |}))
          else Ok (Dropped (MissingField "claimants"))
      | _ => Ok (Dropped (MissingField "claimants"))
      end
  end.

Definition normalizeClaimClaimableBalance (r : jsval) : outcome :=
  match first_missing ["source_account"; "created_at"; "balance_id"] r with
  | Some f => Dropped (MissingField f)
  | None =>
      Normalized (ClaimableClaimed
        {| cd_claimant := str r "source_account"; cd_balanceId := str r "balance_id";
           cd_timestamp := str r "created_at"; cd_identity := classicIdentity r;
           cd_raw := r |})
  end.

Definition normalizeLiquidityPoolDeposit (r : jsval) : outcome :=
  match first_missing ["source_account"; "created_at"; "liquidity_pool_id";
                       "shares_received"] r with
  | Some f => Dropped (MissingField f)
  | None =>
      match as_array (prop r "reserves_deposited") with
      | None => Dropped (MissingField "reserves_deposited")
      | Some reserves =>
          Normalized (LiquidityPoolDeposit
            {| ld_source := str r "source_account"; ld_pool_id := str r "liquidity_pool_id";
               ld_reserves_deposited := reserves; ld_shares_received := str r "shares_received";
               ld_timestamp := str r "created_at"; ld_identity := classicIdentity r;
               ld_raw := r |})
      end
  end.

Definition normalizeLiquidityPoolWithdraw (r : jsval) : outcome :=
  match first_missing ["source_account"; "created_at"; "liquidity_pool_id"; "shares"] r with
  | Some f => Dropped (MissingField f)
  | None =>
      match as_array (prop r "reserves_received") with
      | None => Dropped (MissingField "reserves_received")
      | Some reserves =>
          Normalized (LiquidityPoolWithdraw
            {| lw_source := str r "source_account"; lw_pool_id := str r "liquidity_pool_id";
               lw_reserves_received := reserves; lw_shares_redeemed := str r "shares";
               lw_timestamp := str r "created_at"; lw_identity := classicIdentity r;
               lw_raw := r |})
      end
  end.

Definition normalizeAllowTrust (r : jsval) : outcome :=
  match as_nonempty (prop r "trustor"),
        as_nonempty (coalesce (prop r "trustee") (prop r "source_account")),
        as_bool (prop r "authorize"), as_string (prop r "created_at") with
  | Some trustor, Some issuer, Some authorize, Some created_at =>
      Normalized (TrustAuth
        {| ta_type := if authorize then trustline_authorized else trustline_deauthorized;
           ta_trustor := trustor; ta_issuer := issuer; ta_asset := asset_field r;
           ta_timestamp := created_at; ta_operation := "allow_trust";
           ta_identity := classicIdentity r; ta_raw := r |})
  | _, _, _, _ => Dropped Silent
  end.

Definition normalizeSetTrustLineFlags (r : jsval) : fallible :=
  match as_nonempty (prop r "trustor"), as_nonempty (prop r "source_account"),
        as_string (prop r "created_at") with
  | Some trustor, Some issuer, Some created_at =>
      isSettingAuth ← opt_includes EngineThrow (prop r "set_flags_s") "authorized";
      isClearingAuth ← opt_includes EngineThrow (prop r "clear_flags_s") "authorized";
      if Bool.eqb isSettingAuth isClearingAuth then Ok (Dropped Silent)
      else Ok (Normalized (TrustAuth
        {| ta_type := if isSettingAuth : bool then trustline_authorized
                      else trustline_deauthorized;
           ta_trustor := trustor; ta_issuer := issuer; ta_asset := asset_field r;
           ta_timestamp := created_at; ta_operation := "set_trust_line_flags";
           ta_identity := classicIdentity r; ta_raw := r |}))
  | _, _, _ => Ok (Dropped Silent)
  end.

Definition normalizeContractInvoked (r : jsval) : outcome :=
  match as_nonempty (prop r "contract_id"), as_string (prop r "function"),
        as_string (prop r "created_at") with
  | Some contract_id, Some function, Some created_at =>
      Normalized (ContractInvoked
        {| ci_contractId := contract_id; ci_function := function;
           ci_args := default [] (as_array (prop r "args"));
           ci_ledger := as_number (prop r "ledger"); ci_txHash := as_string (prop r "txHash");
           ci_timestamp := created_at; ci_inSuccessfulContractCall := None; ci_raw := r |})
  | _, _, _ => Dropped Silent
  end.

Definition normalizeContractEmitted (r : jsval) : outcome :=
  match as_nonempty (prop r "contract_id"), as_string (prop r "created_at") with
  | Some contract_id, Some created_at =>
      let topics := default [] (as_array (prop r "topics")) in
      Normalized (ContractEmitted
        {| ce_contractId := contract_id; ce_topics := topics;
           ce_data := coalesce (prop r "data") JNull;
           ce_decodedData := prop r "decodedData";
           ce_semantic := resolveSemantic contract_id topics (prop r "data");
           ce_ledger := as_number (prop r "ledger");
           ce_eventId := match as_string (prop r "eventId") with
                         | Some i => Some i
                         | None => as_string (prop r "event_id")
                         end;
           ce_txHash := match as_string (prop r "txHash") with
                        | Some h => Some h
                        | None => as_string (prop r "tx_hash")
                        end;
           ce_inSuccessfulContractCall :=
             truthy (coalesce (prop r "inSuccessfulContractCall")
                       (prop r "in_successful_contract_call"));
           ce_timestamp := created_at; ce_raw := r |})
  | _, _ => Dropped Silent
  end.

(** Dispatch on [r.type]; reading a field of [null] or [undefined] throws. *)
Definition _normalize (r : jsval) : fallible :=
  _ ← readable EngineThrow r;
  let t := prop r "type" in
  if is_str t "payment" then Ok (normalizePayment r)
  else if is_str t "set_options" then Ok (normalizeSetOptions r)
  else if is_str t "create_account" then Ok (normalizeCreateAccount r)
  else if is_str t "manage_sell_offer" || is_str t "manage_buy_offer" then Ok (normalizeOffer r)
  else if is_str t "bump_sequence" then Ok (normalizeBumpSequence r)
  else if is_str t "manage_data" then Ok (normalizeManageData r)
  else if is_str t "change_trust" then Ok (normalizeChangeTrust r)
  else if is_str t "account_merge" then Ok (normalizeAccountMerge r)
  else if is_str t "create_claimable_balance" then normalizeCreateClaimableBalance r
  else if is_str t "claim_claimable_balance" then Ok (normalizeClaimClaimableBalance r)
  else if is_str t "liquidity_pool_deposit" then Ok (normalizeLiquidityPoolDeposit r)
  else if is_str t "liquidity_pool_withdraw" then Ok (normalizeLiquidityPoolWithdraw r)
  else if is_str t "allow_trust" then Ok (normalizeAllowTrust r)
  else if is_str t "set_trust_line_flags" then normalizeSetTrustLineFlags r
  else if is_str t "contract_invocation" then Ok (normalizeContractInvoked r)
  else if is_str t "contract_event" then Ok (normalizeContractEmitted r)
  else Ok (Dropped (UnrecognizedOperation (String_ t))).
End normalize.
Arguments Normalized {Semantic} e.
Arguments Dropped {Semantic} why.

(** ** What a normalized event says about its record *)

(** The record an event was made from. *)
Definition raw_of_event {Semantic} (e : Event Semantic) : jsval :=
  match e with
  | PendingPayment p | Payment _ p => pay_raw p
  | AccountOptions e => ao_raw e
  | AccountCreated e => ac_raw e
  | Trustline e => tl_raw e
  | AccountMerge e => am_raw e
  | Offer e => of_raw e
  | BumpSequence e => bs_raw e
  | Data e => da_raw e
  | ClaimableCreated e => cc_raw e
  | ClaimableClaimed e => cd_raw e
  | LiquidityPoolDeposit e => ld_raw e
  | LiquidityPoolWithdraw e => lw_raw e
  | TrustAuth e => ta_raw e
  | AssetClawback e => cb_raw e
  | FeeIncurred e => fe_raw e
  | ContractInvoked e => ci_raw e
  | ContractEmitted e => ce_raw e
  end.

(** The routing family an event belongs to; contract events have none. *)
Definition family_of {Semantic} (e : Event Semantic) : option EventFamily :=
  match e with
  | PendingPayment _ | Payment _ _ => Some fam_payment
  | AccountOptions _ => Some fam_accountOptions
  | AccountCreated _ => Some fam_accountCreated
  | Trustline _ => Some fam_trustlineLimit
  | AccountMerge _ => Some fam_accountMerge
  | Offer _ => Some fam_offer
  | BumpSequence _ => Some fam_bumpSequence
  | Data _ => Some fam_manageData
  | ClaimableCreated _ | ClaimableClaimed _ => Some fam_claimableBalance
  | LiquidityPoolDeposit _ | LiquidityPoolWithdraw _ => Some fam_liquidityPool
  | TrustAuth _ => Some fam_trustlineAuth
  | _ => None
  end.

(** The accounts and contracts an event names, in the fields that are checked. *)
Definition named_parties {Semantic} (e : Event Semantic) : list string :=
  match e with
  | PendingPayment p | Payment _ p => [pay_to p; pay_from p]
  | ClaimableCreated e => cc_sponsor e :: (cl_destination <$> cc_claimants e)
  | ClaimableClaimed e => [cd_claimant e]
  | Data e => [da_source e]
  | LiquidityPoolDeposit e => [ld_source e]
  | LiquidityPoolWithdraw e => [lw_source e]
  | TrustAuth e => [ta_trustor e; ta_issuer e]
  | ContractInvoked e => [ci_contractId e]
  | ContractEmitted e => [ce_contractId e]
  | _ => []
  end.

Section normalize_facts.
Context {Semantic : Type}.
Context (fts : Z → nat → string) (b64 : string → list Z).
Context (sem : string → list jsval → jsval → option Semantic).


Lemma first_missing_None fields r f :
  first_missing fields r = None → f ∈ fields → ∃ s, prop r f = JStr s ∧ s ≠ "".
Proof.
  unfold first_missing. rewrite find_None_all. intros H Hf. specialize (H f Hf).
  apply negb_false_iff, bool_decide_eq_true in H as [s Hs].
  exists s. by apply as_nonempty_Some.
Qed.

Lemma str_nonempty fields r f :
  first_missing fields r = None → f ∈ fields → str r f ≠ "".
Proof.
  intros H Hf. destruct (first_missing_None _ _ _ H Hf) as (s & Hs & Hne).
  unfold str. by rewrite Hs.
Qed.

Lemma as_nonempty_ne v s : as_nonempty v = Some s → s ≠ "".
Proof. by intros [_ ?]%as_nonempty_Some. Qed.

(** Every branch of the dispatch: the type it tests, and what runs. *)
Inductive dispatch (r : jsval) : result engine_throw (outcome (Semantic := Semantic)) → Prop :=
  | d_payment : prop r "type" = JStr "payment" → dispatch r (Ok (normalizePayment fts r))
  | d_options : prop r "type" = JStr "set_options" → dispatch r (Ok (normalizeSetOptions r))
  | d_create : prop r "type" = JStr "create_account" → dispatch r (Ok (normalizeCreateAccount r))
  | d_sell : prop r "type" = JStr "manage_sell_offer" → dispatch r (Ok (normalizeOffer fts r))
  | d_buy : prop r "type" = JStr "manage_buy_offer" → dispatch r (Ok (normalizeOffer fts r))
  | d_bump : prop r "type" = JStr "bump_sequence" → dispatch r (Ok (normalizeBumpSequence r))
  | d_data : prop r "type" = JStr "manage_data" → dispatch r (Ok (normalizeManageData fts b64 r))
  | d_trust : prop r "type" = JStr "change_trust" → dispatch r (Ok (normalizeChangeTrust fts r))
  | d_merge : prop r "type" = JStr "account_merge" → dispatch r (Ok (normalizeAccountMerge r))
  | d_ccb : prop r "type" = JStr "create_claimable_balance" →
            dispatch r (normalizeCreateClaimableBalance fts r)
  | d_claim : prop r "type" = JStr "claim_claimable_balance" →
              dispatch r (Ok (normalizeClaimClaimableBalance r))
  | d_lpd : prop r "type" = JStr "liquidity_pool_deposit" →
            dispatch r (Ok (normalizeLiquidityPoolDeposit r))
  | d_lpw : prop r "type" = JStr "liquidity_pool_withdraw" →
            dispatch r (Ok (normalizeLiquidityPoolWithdraw r))
  | d_allow : prop r "type" = JStr "allow_trust" → dispatch r (Ok (normalizeAllowTrust fts r))
  | d_flags : prop r "type" = JStr "set_trust_line_flags" →
              dispatch r (normalizeSetTrustLineFlags fts r)
  | d_inv : prop r "type" = JStr "contract_invocation" →
            dispatch r (Ok (normalizeContractInvoked r))
  | d_emit : prop r "type" = JStr "contract_event" →
             dispatch r (Ok (normalizeContractEmitted sem r))
  | d_unknown : is_object r = false ∨ (∀ f, horizonEventFamily r ≠ Some (Own f)) →
                dispatch r (Ok (Dropped (UnrecognizedOperation (to_string fts (prop r "type"))))).

Lemma _normalize_dispatch r : nullish r = false → dispatch r (_normalize fts b64 sem r).
Proof.
  intros Hr. unfold _normalize, readable. rewrite Hr. cbn.
  repeat match goal with
  | |- context [if is_str ?v ?s then _ else _] =>
      let E := fresh in destruct (is_str v s) eqn:E;
      [apply is_str_true in E; by constructor|]
  | |- context [if is_str ?v ?s || is_str ?v ?t then _ else _] =>
      let E := fresh in let F := fresh in
      destruct (is_str v s) eqn:E; [apply is_str_true in E; by constructor|];
      destruct (is_str v t) eqn:F; [apply is_str_true in F; by constructor|]; cbn
  end.
  apply d_unknown. unfold horizonEventFamily. destruct (is_object r); [right|by left].
  cbn [negb].
  destruct (prop r "type") as [| | | |t| |]; try done. cbn [is_str] in *.
  cbn [as_string mbind option_bind].
  unfold family_lookup, HORIZON_OP_TYPE_TO_FAMILY. cbn [List.find fst].
  repeat match goal with H : String.eqb t _ = false |- _ =>
    rewrite String.eqb_sym in H; rewrite H; clear H end.
  intros f. by destruct (existsb _ _).
Qed.

(** Case analysis on what a normaliser tests before it builds an event. *)
Ltac norm_cases :=
  repeat match goal with
  | H : context [match ?x with _ => _ end] |- _ =>
      lazymatch x with
      | context [match _ with _ => _ end] => fail
      | _ => destruct x eqn:?; try done
      end
  end; simplify_eq.

Ltac family Hfam Ht := by rewrite (Hfam _ Ht).

Lemma set_options_inv r e :
  normalizeSetOptions r = Normalized (Semantic := Semantic) e →
  e = AccountOptions {| ao_source := prop r "source_account"; ao_changes := option_changes r;
        ao_timestamp := prop r "created_at"; ao_identity := classicIdentity r; ao_raw := r |}.
Proof.
  unfold normalizeSetOptions. generalize (option_changes r). intros [a b c d] H.
  by destruct a, b, c, d; simplify_eq.
Qed.

Lemma map_claimants cs out :
  map_result claimant_of cs = Ok out → cl_destination <$> out = (λ c, str c "destination") <$> cs.
Proof.
  revert out. induction cs as [|c cs IH]; intros out; cbn; [naive_solver|].
  rewrite result_bind_Ok. intros (x & Hx & (ys & Hys & [= <-])%result_bind_Ok).
  cbn. rewrite (IH ys) by done. unfold claimant_of in Hx.
  destruct (normalizeClaimPredicate _); simplify_eq. done.
Qed.

(** What is true of every event that one dispatched branch builds. *)
Lemma dispatch_event r o e :
  dispatch r o → o = Ok (Normalized e) →
  raw_of_event e = r ∧ Forall (λ s, s ≠ "") (named_parties e)
  ∧ horizonEventFamily r = Own <$> family_of e.
Proof.
  assert (∀ t, prop r "type" = JStr t → horizonEventFamily r = family_lookup t) as Hfam.
  { intros t Ht. unfold horizonEventFamily. destruct r; try done. by rewrite Ht. }
  destruct 1 as [Ht|Ht|Ht|Ht|Ht|Ht|Ht|Ht|Ht|Ht|Ht|Ht|Ht|Ht|Ht|Ht|Ht|Ht]; intros He;
    try (injection He as He).
  - unfold normalizePayment in He. norm_cases. split_and!; [done| |family Hfam Ht].
    repeat constructor; (eapply str_nonempty; [done|set_solver]).
  - apply set_options_inv in He as ->. split_and!; [done|by apply Forall_nil|family Hfam Ht].
  - unfold normalizeCreateAccount in He. norm_cases.
    split_and!; [done|by apply Forall_nil|family Hfam Ht].
  - unfold normalizeOffer in He. norm_cases.
    split_and!; [done|by apply Forall_nil|family Hfam Ht].
  - unfold normalizeOffer in He. norm_cases.
    split_and!; [done|by apply Forall_nil|family Hfam Ht].
  - unfold normalizeBumpSequence in He. norm_cases.
    split_and!; [done|by apply Forall_nil|family Hfam Ht].
  - unfold normalizeManageData in He. norm_cases;
      (split_and!; [done| |family Hfam Ht]);
      repeat constructor; by eapply as_nonempty_ne.
  - unfold normalizeChangeTrust in He. norm_cases;
      (split_and!; [done|by apply Forall_nil|family Hfam Ht]).
  - unfold normalizeAccountMerge in He. simplify_eq.
    split_and!; [done|by apply Forall_nil|family Hfam Ht].
  - unfold normalizeCreateClaimableBalance in He.
    destruct (first_missing _ r) eqn:Hm; [done|].
    destruct (prop r "claimants") as [| | | | |[|c0 cs]|] eqn:Hc; try done.
    destruct (forallb valid_claimant (c0 :: cs)) eqn:Hv; [|done].
    apply result_bind_Ok in He as (out & Hout & [= <-]).
    split_and!; [done| |family Hfam Ht].
    cbn [named_parties cc_sponsor cc_claimants]. constructor.
    + eapply str_nonempty; [done|set_solver].
    + rewrite (map_claimants _ _ Hout), Forall_fmap.
      apply forallb_Forall in Hv. eapply Forall_impl; [exact Hv|].
      intros c [_ [s [Hs Hne]%as_nonempty_Some]%bool_decide_eq_true]%andb_true_iff.
      unfold str. cbn. by rewrite Hs.
  - unfold normalizeClaimClaimableBalance in He. norm_cases.
    split_and!; [done| |family Hfam Ht].
    repeat constructor; (eapply str_nonempty; [done|set_solver]).
  - unfold normalizeLiquidityPoolDeposit in He. norm_cases.
    split_and!; [done| |family Hfam Ht].
    repeat constructor; (eapply str_nonempty; [done|set_solver]).
  - unfold normalizeLiquidityPoolWithdraw in He. norm_cases.
    split_and!; [done| |family Hfam Ht].
    repeat constructor; (eapply str_nonempty; [done|set_solver]).
  - unfold normalizeAllowTrust in He. norm_cases;
    (split_and!; [done| |family Hfam Ht]);
    repeat constructor; by eapply as_nonempty_ne.
  - unfold normalizeSetTrustLineFlags in He.
    destruct (as_nonempty (prop r "trustor")) eqn:H1; [|done].
    destruct (as_nonempty (prop r "source_account")) eqn:H2; [|done].
    destruct (as_string (prop r "created_at")) eqn:H3; [|done].
    apply result_bind_Ok in He as (b1 & _ & (b2 & _ & He)%result_bind_Ok).
    destruct (Bool.eqb b1 b2); simplify_eq.
    split_and!; [done| |family Hfam Ht].
    repeat constructor; by eapply as_nonempty_ne.
  - unfold normalizeContractInvoked in He. norm_cases.
    split_and!; [done| |family Hfam Ht].
    repeat constructor; by eapply as_nonempty_ne.
  - unfold normalizeContractEmitted in He. norm_cases;
    (split_and!; [done| |family Hfam Ht]);
    repeat constructor; by eapply as_nonempty_ne.
  - done.
Qed.

(** C22: every event the normaliser builds carries its record unchanged, names
    no empty account or contract in a field it checks, and belongs to the
    family the routing table gives the record's operation type. *)
Theorem normalized_event_sound r e :
  _normalize fts b64 sem r = Ok (Normalized e) →
  raw_of_event e = r ∧ Forall (λ s, s ≠ "") (named_parties e)
  ∧ horizonEventFamily r = Own <$> family_of e.
Proof.
  intros He. destruct (nullish r) eqn:Hr.
  - unfold _normalize, readable in He. by rewrite Hr in He.
  - eapply dispatch_event; [by apply _normalize_dispatch|done].
Qed.

Lemma map_result_Err {E A B} (f : A → result E B) l e :
  map_result f l = Err e → ∃ x, x ∈ l ∧ f x = Err e.
Proof.
  induction l as [|x l IH]; cbn; [done|].
  rewrite result_bind_Err. intros [Hx|(y & _ & [He|(ys & _ & [=])]%result_bind_Err)].
  - exists x. split; [set_solver|done].
  - destruct (IH He) as (z & ? & ?). exists z. split; [set_solver|done].
Qed.

Lemma opt_includes_Err {E} (k : js_error → E) v s x :
  opt_includes k v s = Err x → x = k TypeError ∧ nullish v = false ∧ as_array v = None
  ∧ as_string v = None.
Proof. destruct v; cbn; naive_solver. Qed.

(** the exceptions that leave the normaliser, and their only causes: a
    [null] record, a claimant whose predicate does not parse, and a trust
    flag list that is neither an array nor a string.  Every other malformed
    record is dropped. *)
Theorem normalize_throws r x :
  _normalize fts b64 sem r = Err x →
  (nullish r = true ∧ x = EngineThrow TypeError) ∨
  (prop r "type" = JStr "create_claimable_balance" ∧
   ∃ cs c pe, prop r "claimants" = JArr cs ∧ c ∈ cs ∧
     normalizeClaimPredicate (prop c "predicate") = Err pe ∧ x = EnginePredicate pe) ∨
  (prop r "type" = JStr "set_trust_line_flags" ∧ x = EngineThrow TypeError ∧
   ∃ f, f ∈ ["set_flags_s"; "clear_flags_s"] ∧ nullish (prop r f) = false ∧
     as_array (prop r f) = None ∧ as_string (prop r f) = None).
Proof.
  intros Hx. destruct (nullish r) eqn:Hr.
  { left. unfold _normalize, readable in Hx. rewrite Hr in Hx. cbn in Hx. naive_solver. }
  right. pose proof (_normalize_dispatch r Hr) as Hd. rewrite Hx in Hd.
  inversion Hd as [| | | | | | | | |Ht He| | | | |Ht He| | |]; subst.
  - left. split; [done|]. unfold normalizeCreateClaimableBalance in He.
    destruct (first_missing _ r); [done|].
    destruct (prop r "claimants") as [| | | | |[|c0 cs]|] eqn:Hc; try done.
    destruct (forallb valid_claimant (c0 :: cs)); [|done].
    apply result_bind_Err in He as [He|(? & _ & [=])].
    apply map_result_Err in He as (c & Hin & He). unfold claimant_of in He.
    destruct (normalizeClaimPredicate (prop c "predicate")) as [|pe] eqn:Hp; [done|].
    exists (c0 :: cs), c, pe. by simplify_eq.
  - right. split; [done|]. unfold normalizeSetTrustLineFlags in He.
    destruct (as_nonempty (prop r "trustor")), (as_nonempty (prop r "source_account")),
      (as_string (prop r "created_at")); try done.
    apply result_bind_Err in He as [He|(b1 & _ & He)].
    + apply opt_includes_Err in He as (-> & ?). split; [done|]. eexists. by split; [left|].
    + apply result_bind_Err in He as [He|(b2 & _ & He)]; [|by destruct (Bool.eqb b1 b2)].
      apply opt_includes_Err in He as (-> & ?). split; [done|].
      exists "clear_flags_s". split; [set_solver|done].
Qed.

Lemma set_options_known r op :
  normalizeSetOptions r ≠ Dropped (Semantic := Semantic) (UnrecognizedOperation op).
Proof.
  unfold normalizeSetOptions. generalize (option_changes r). intros [a b c d].
  by destruct a, b, c, d.
Qed.

Lemma dispatch_unrecognized r o op :
  dispatch r o → o = Ok (Dropped (UnrecognizedOperation op)) →
  (is_object r = false ∨ ∀ f, horizonEventFamily r ≠ Some (Own f)) ∧ op = to_string fts (prop r "type").
Proof.
  destruct 1 as [Ht|Ht|Ht|Ht|Ht|Ht|Ht|Ht|Ht|Ht|Ht|Ht|Ht|Ht|Ht|Ht|Ht|Hu]; intros He;
    try (injection He as He);
    unfold normalizePayment, normalizeOffer, normalizeCreateAccount, normalizeBumpSequence,
      normalizeManageData, normalizeChangeTrust, normalizeAccountMerge,
      normalizeCreateClaimableBalance, normalizeClaimClaimableBalance,
      normalizeLiquidityPoolDeposit, normalizeLiquidityPoolWithdraw, normalizeAllowTrust,
      normalizeSetTrustLineFlags, normalizeContractInvoked, normalizeContractEmitted in He;
    try (by norm_cases).
  - by apply set_options_known in He.
  - destruct (first_missing _ r); [done|]. destruct (prop r "claimants") as [| | | | |[|c0 cs]|];
      try done. destruct (forallb _ _); [|done]. by apply result_bind_Ok in He as (? & _ & ?).
  - destruct (as_nonempty (prop r "trustor")), (as_nonempty (prop r "source_account")),
      (as_string (prop r "created_at")); try done.
    apply result_bind_Ok in He as (b1 & _ & (b2 & _ & He)%result_bind_Ok).
    by destruct (Bool.eqb b1 b2).
Qed.

(** A record is reported as an unrecognized operation only when the
    routing table has no family for it: no operation type the table routes is
    ever unknown to the normaliser. *)
Theorem unrecognized_has_no_family r op :
  _normalize fts b64 sem r = Ok (Dropped (UnrecognizedOperation op)) →
  (∀ f, horizonEventFamily r ≠ Some (Own f)) ∧ op = to_string fts (prop r "type").
Proof.
  intros Hn. destruct (nullish r) eqn:Hr.
  { unfold _normalize, readable in Hn. by rewrite Hr in Hn. }
  destruct (dispatch_unrecognized _ _ _ (_normalize_dispatch r Hr) Hn) as [[Ho|Ho] ->];
    [|done]. split; [|done]. intros f. unfold horizonEventFamily. by rewrite Ho.
Qed.
End normalize_facts.

(** A payment record, for the witnesses. *)
Definition sample_payment : jsval :=
  JObj [("type", JStr "payment"); ("to", JStr "GB"); ("from", JStr "GA");
        ("amount", JStr "1.0000000"); ("created_at", JStr "2026-01-01T00:00:00Z");
        ("asset_type", JStr "native"); ("transaction_hash", JStr "abc")].

Definition no_fraction (m : Z) (k : nat) : string := "".
Definition no_bytes (s : string) : list Z := [].
Definition no_semantic (c : string) (ts : list jsval) (d : jsval) : option unit := None.

Lemma normalized_event_sound_witness :
  horizonEventFamily sample_payment = Some (Own fam_payment).
Proof.
  apply (normalized_event_sound no_fraction no_bytes no_semantic sample_payment
    (PendingPayment {| pay_to := "GB"; pay_from := "GA"; pay_amount := "1.0000000";
       pay_asset := "XLM"; pay_timestamp := "2026-01-01T00:00:00Z";
       pay_identity := {| id_txHash := Some "abc"; id_ledger := None; id_memo := None |};
       pay_raw := sample_payment |})).
  reflexivity.
Defined.

(** A claimable balance whose claimant carries no predicate. *)
Definition sample_bad_claimable : jsval :=
  JObj [("type", JStr "create_claimable_balance"); ("source_account", JStr "GA");
        ("created_at", JStr "t"); ("amount", JStr "1"); ("balance_id", JStr "b");
        ("claimants", JArr [JObj [("destination", JStr "GB")]])].

Lemma normalize_throws_witness :
  _normalize no_fraction no_bytes no_semantic sample_bad_claimable
    = Err (EnginePredicate (PredicateThrow TypeError)) ∧
  prop sample_bad_claimable "type" = JStr "create_claimable_balance".
Proof.
  split; [reflexivity|].
  destruct (normalize_throws no_fraction no_bytes no_semantic sample_bad_claimable
    (EnginePredicate (PredicateThrow TypeError)) eq_refl) as [[H _]|[[H _]|[H _]]].
  - discriminate.
  - exact H.
  - discriminate.
Defined.

Lemma unrecognized_has_no_family_witness :
  _normalize no_fraction no_bytes no_semantic (JObj [("type", JStr "inflation")])
    = Ok (Dropped (UnrecognizedOperation "inflation")) ∧
  horizonEventFamily (JObj [("type", JStr "inflation")]) ≠ Some (Own fam_payment).
Proof.
  split; [reflexivity|].
  apply (unrecognized_has_no_family no_fraction no_bytes no_semantic _ "inflation").
  reflexivity.
Defined.

(** ** Trustline limits *)

Lemma only_zeros_facts s :
  only_zeros s = true →
  all_digits s = true ∧ digits_value s = 0%N ∧
  digits_value (String.substring 0 7 (s +:+ "0000000")) = 0%N.
Proof.
  intros Hs. assert (∃ k, s = zeros k) as [k ->].
  { induction s as [|c s IH]; [by exists 0|]. cbn in Hs.
    apply andb_true_iff in Hs as [->%Ascii.eqb_eq Hs].
    destruct (IH Hs) as [k ->]. by exists (S k). }
  split_and!; [apply all_digits_zeros| |].
  - unfold digits_value. clear Hs. induction k as [|k IH]; [done|exact IH].
  - do 7 (destruct k as [|k]; [done|]). by destruct k.
Qed.

(** A limit read as zero parses as zero stroops. *)
Lemma zero_limit_value s : isZeroTrustlineLimit s = true → toBigInt s = Ok 0%Z.
Proof.
  intros Hs. assert (s = "0" ∨ ∃ f, s = "0." +:+ f ∧ f ≠ "" ∧ only_zeros f = true) as Hc.
  { destruct s as [|a [|b f]]; cbn in Hs; [done|..].
    - apply andb_true_iff in Hs as [->%Ascii.eqb_eq _]. by left.
    - apply andb_true_iff in Hs as [->%Ascii.eqb_eq [[->%Ascii.eqb_eq Hne]%andb_true_iff Hz]%andb_true_iff].
      right. exists f. split_and!; [done| |done]. apply negb_true_iff, String.eqb_neq in Hne. done. }
  destruct Hc as [->|(f & -> & Hne & (Hd & _ & Hv)%only_zeros_facts)]; [done|].
  assert (char_free "."%char f = true) as Hf by by apply all_digits_free.
  unfold toBigInt. cbn -[digits_value all_digits String.substring]. rewrite (str_split_free _ _ Hf).
  cbn -[digits_value all_digits String.substring].
  rewrite Hd, Hv. cbn. by rewrite andb_false_r.
Qed.

(** how a [change_trust] limit is classified, over the seven-decimal
    amounts Horizon prints: zero removes the trustline, the largest 64-bit
    amount adds it, and every other limit updates it. *)
Theorem trustline_type_of_amount n :
  resolveTrustlineEventType (fromBigInt n) =
    if decide (n = 0%Z) then trustline_removed
    else if decide (n = 2 ^ 63 - 1)%Z then trustline_added
    else trustline_updated.
Proof.
  unfold resolveTrustlineEventType. destruct (isZeroTrustlineLimit (fromBigInt n)) eqn:Hz.
  { apply zero_limit_value in Hz. rewrite toBigInt_fromBigInt in Hz. simplify_eq.
    by rewrite decide_True. }
  rewrite decide_False by (intros ->; discriminate Hz).
  destruct (String.eqb_spec (fromBigInt n) STELLAR_MAX_TRUSTLINE_LIMIT) as [He|He].
  - pose proof (toBigInt_fromBigInt n) as Hn. rewrite He in Hn. vm_compute in Hn.
    assert (n = 9223372036854775807%Z) as -> by congruence. by rewrite decide_True.
  - rewrite decide_False; [done|]. intros ->. by apply He.
Qed.
