(* ===== verification/Dedupe.v ===== *)
(** * Cross-transport duplicate suppression (packages/pulse-core/src/dedupe.ts)

    The key of an operation, and the bounded window of recently seen keys that
    [EventEngine.route] consults before it fans an event out.  The window's
    [Map] is modelled with its insertion order, because eviction removes the
    oldest key. *)

From S2P Require Import Prelude.
From S2P Require Import JsMap.

Record DedupeEventRef := { txHash : string; index : string }.

Inductive DedupeTransport := horizon | unified.

#[export] Instance DedupeTransport_eq_dec : EqDecision DedupeTransport.
Proof. solve_decision. Defined.
#[export] Instance DedupeTransport_countable : Countable DedupeTransport.
Proof.
  refine (inj_countable' (λ t, match t with horizon => true | unified => false end)
    (λ b, if b : bool then horizon else unified) _); by intros [].
Defined.

Definition deriveDedupeKey (ref : DedupeEventRef) : string :=
  txHash ref +:+ ":" +:+ index ref.

Inductive DedupeError := InvalidDedupeWindowCapacityError (capacity : jsnum).

Record DedupeWindow := {
  capacity : Z;
  seen : jsmap string (gset DedupeTransport);
}.

Definition dedupe_window (cap : jsnum) : result DedupeError DedupeWindow :=
  match as_integer cap with
  | Some c =>
      if (c <? 1)%Z then Err (InvalidDedupeWindowCapacityError cap)
      else Ok {| capacity := c; seen := [] |}
  | None => Err (InvalidDedupeWindowCapacityError cap)
  end.

Definition window_size (w : DedupeWindow) : Z := Z.of_nat (msize (seen w)).

(** The private [record]: insert, then evict the oldest key when over capacity. *)
Definition record (key : string) (transports : gset DedupeTransport)
    (w : DedupeWindow) : DedupeWindow :=
  let seen' := mset key transports (seen w) in
  {| capacity := capacity w;
     seen :=
       if (capacity w <? Z.of_nat (msize seen'))%Z then
         match mkeys seen' with
         | oldest :: _ => mdel oldest seen'
         | [] => seen'
         end
       else seen' |}.
#[global] Arguments record : simpl never.

Definition seenBefore (key : string) (w : DedupeWindow) : bool * DedupeWindow :=
  if mhas key (seen w) then (true, w) else (false, record key ∅ w).

(** A suppressed observation adds its transport to the stored set. *)
Definition seenFrom (key : string) (transport : DedupeTransport) (w : DedupeWindow)
    : bool * DedupeWindow :=
  match mget key (seen w) with
  | None => (false, record key {[ transport ]} w)
  | Some transports =>
      if bool_decide (transport ∈ transports) then (false, w)
      else (true, {| capacity := capacity w;
                     seen := mset key ({[ transport ]} ∪ transports) (seen w) |})
  end.

(** A run of observations, one [seenFrom] each; the delivered ones are those
    answered [false]. *)
Fixpoint observe_all (obs : list (string * DedupeTransport)) (w : DedupeWindow)
    : list (string * DedupeTransport) * DedupeWindow :=
  match obs with
  | [] => ([], w)
  | (k, t) :: obs' =>
      let '(dup, w1) := seenFrom k t w in
      let '(delivered, w2) := observe_all obs' w1 in
      (if dup then delivered else (k, t) :: delivered, w2)
  end.

(** ** Well-formed windows *)

Definition window_wf (w : DedupeWindow) : Prop :=
  (1 ≤ capacity w)%Z ∧ mwf (seen w) ∧ (window_size w ≤ capacity w)%Z.

Lemma dedupe_window_wf cap w : dedupe_window cap = Ok w → window_wf w ∧ seen w = [].
Proof.
  unfold dedupe_window. intros H. destruct (as_integer cap) as [c|]; [|done].
  destruct (c <? 1)%Z eqn:Hc; simplify_eq. bool_to_prop.
  split; [|done]. split_and!; cbn; [done|apply mwf_nil|by apply (Z.le_trans _ 1)].
Qed.

(** Keys after [record] of a fresh key: appended, and the front dropped when
    the window overflows. *)
Lemma record_keys k ts w :
  k ∉ mkeys (seen w) →
  mkeys (seen (record k ts w)) =
    if (capacity w <? window_size w + 1)%Z then tail (mkeys (seen w) ++ [k])
    else mkeys (seen w) ++ [k].
Proof.
  intros Hk. unfold record, window_size. cbn.
  rewrite msize_mset_fresh by done. rewrite Nat2Z.inj_succ, <-Z.add_1_r.
  destruct (_ <? _)%Z; rewrite ?mset_fresh by done.
  - destruct (seen w) as [|[k0 v0] m]; unfold mkeys; cbn; rewrite decide_True by done;
      [done|].
    by rewrite fmap_app.
  - unfold mkeys. by rewrite fmap_app.
Qed.

Lemma tail_NoDup {A} (l : list A) : NoDup l → NoDup (tail l).
Proof. destruct l; [done|]. cbn. by intros [_ ?]%NoDup_cons. Qed.

Lemma record_wf k ts w : window_wf w → k ∉ mkeys (seen w) → window_wf (record k ts w).
Proof.
  intros (Hc & Hm & Hs) Hk. pose proof (record_keys k ts w Hk) as Hkeys.
  assert (NoDup (mkeys (seen w) ++ [k])) as Hnd by by apply NoDup_snoc.
  unfold window_wf, window_size, mwf in *.
  rewrite !msize_mkeys, Hkeys in *.
  assert (capacity (record k ts w) = capacity w) as -> by done.
  split_and!; [done|..].
  - destruct (_ <? _)%Z; [by apply tail_NoDup|done].
  - destruct (_ <? _)%Z eqn:E; bool_to_prop; rewrite ?List.length_tl, length_app; cbn in *; lia.
Qed.

Lemma seenFrom_wf k t w : window_wf w → window_wf (seenFrom k t w).2.
Proof.
  intros Hw. unfold seenFrom. destruct (mget k (seen w)) as [ts|] eqn:E.
  - case_bool_decide; cbn; [done|]. destruct Hw as (Hc & Hm & Hs).
    split_and!; cbn; [done|by apply mwf_mset|].
    unfold window_size in *. cbn.
    rewrite msize_mset_present; [done|by eapply mget_Some_key].
  - cbn. apply record_wf; [done|]. by apply mget_None.
Qed.

Lemma seenBefore_wf k w : window_wf w → window_wf (seenBefore k w).2.
Proof.
  intros Hw. unfold seenBefore. destruct (mhas k (seen w)) eqn:E; cbn; [done|].
  apply record_wf; [done|]. rewrite <-mhas_true. by rewrite E.
Qed.

#[export] Hint Resolve seenFrom_wf seenBefore_wf record_wf : orbital.

Lemma observe_all_wf obs w : window_wf w → window_wf (observe_all obs w).2.
Proof.
  revert w. induction obs as [|[k t] obs IH]; intros w Hw; cbn; [done|].
  pose proof (seenFrom_wf k t w Hw) as H1. destruct (seenFrom k t w) as [dup w1].
  specialize (IH w1 H1). by destruct (observe_all obs w1).
Qed.

(** whatever the two transports observe, in whatever order, the window
    built by the constructor holds each key once and never holds more keys than
    its capacity. *)
Theorem window_bounded cap obs w :
  dedupe_window cap = Ok w →
  window_wf (observe_all obs w).2 ∧ capacity (observe_all obs w).2 = capacity w.
Proof.
  intros [Hw _]%dedupe_window_wf. split; [by apply observe_all_wf|].
  clear Hw. revert w. induction obs as [|[k t] obs IH]; intros w; [done|]. cbn.
  assert (capacity (seenFrom k t w).2 = capacity w) as Hc
    by (unfold seenFrom; destruct (mget k (seen w)); [case_bool_decide|]; done).
  specialize (IH (seenFrom k t w).2). destruct (seenFrom k t w) as [dup w1].
  cbn in *. destruct (observe_all obs w1). cbn in *. congruence.
Qed.

Lemma window_bounded_witness :
  dedupe_window (jint 2) = Ok {| capacity := 2; seen := [] |} ∧
  window_wf (observe_all [("a", horizon); ("b", unified); ("c", horizon)]
    {| capacity := 2; seen := [] |}).2.
Proof.
  split; [reflexivity|].
  apply (window_bounded (jint 2) _ {| capacity := 2; seen := [] |}). reflexivity.
Defined.

(** ** Which observations are delivered *)

(** The transports that observed [k] in a run. *)
Definition transports_of (k : string) (obs : list (string * DedupeTransport))
    : gset DedupeTransport :=
  list_to_set (filter (λ o, o.1 = k) obs).*2.

Definition count_key {T} (k : string) (obs : list (string * T)) : nat :=
  length (filter (λ o, o.1 = k) obs).

Definition both (ts : gset DedupeTransport) : bool :=
  bool_decide (horizon ∈ ts) && bool_decide (unified ∈ ts).

Definition stored (k : string) (w : DedupeWindow) : gset DedupeTransport :=
  default ∅ (mget k (seen w)).

(** The run never meets more keys than the window can hold. *)
Definition no_overflow (w : DedupeWindow) (obs : list (string * DedupeTransport)) : Prop :=
  (Z.of_nat (size (list_to_set (mkeys (seen w)) ∪ list_to_set obs.*1 : gset string))
     ≤ capacity w)%Z.

Definition no_empty_entry (w : DedupeWindow) : Prop :=
  ∀ k ts, mget k (seen w) = Some ts → ts ≠ ∅.

Lemma record_no_overflow k t ts w obs :
  window_wf w → k ∉ mkeys (seen w) → no_overflow w ((k, t) :: obs) →
  seen (record k ts w) = mset k ts (seen w).
Proof.
  intros (_ & Hm & _) Hk Ho. unfold record, no_overflow in *. cbn in *.
  destruct (_ <? _)%Z eqn:E; [|done]. bool_to_prop. exfalso.
  rewrite msize_mset_fresh, msize_mkeys in E by done.
  assert (size ({[k]} ∪ list_to_set (mkeys (seen w)) : gset string)
            = S (length (mkeys (seen w)))) as Hsz.
  { rewrite size_union by set_solver. rewrite size_singleton, size_list_to_set by done.
    done. }
  assert (size ({[k]} ∪ list_to_set (mkeys (seen w)) : gset string) ≤
    size (list_to_set (mkeys (seen w)) ∪ ({[k]} ∪ list_to_set obs.*1) : gset string))
    by (apply subseteq_size; set_solver).
  lia.
Qed.

(** One step, when nothing is evicted: the stored transports of [k] grow by
    [t], the other keys keep theirs. *)
Lemma seenFrom_stored k t w obs :
  window_wf w → no_overflow w ((k, t) :: obs) →
  let w1 := (seenFrom k t w).2 in
  no_overflow w1 obs ∧ ∀ k', stored k' w1 = if decide (k = k') then {[t]} ∪ stored k w
                                            else stored k' w.
Proof.
  intros Hw Ho. unfold seenFrom, stored.
  destruct (mget k (seen w)) as [ts|] eqn:E; cbn.
  - assert (k ∈ mkeys (seen w)) as Hk by by eapply mget_Some_key.
    case_bool_decide; cbn.
    + split; [|intros k'; case_decide; subst; rewrite ?E; cbn; set_solver].
      unfold no_overflow in *. cbn in Ho. etrans; [|exact Ho].
      apply inj_le, subseteq_size. set_solver.
    + split.
      * unfold no_overflow in *. cbn in *. rewrite mkeys_mset_present by done.
        etrans; [|exact Ho]. apply inj_le, subseteq_size. set_solver.
      * intros k'. rewrite mget_mset. by case_decide.
  - apply mget_None in E. pose proof (record_no_overflow k t {[t]} w obs Hw E Ho) as Hr.
    split.
    + unfold no_overflow in *. rewrite Hr, mkeys_mset_fresh by done. cbn in *.
      etrans; [|exact Ho]. apply inj_le, subseteq_size. set_solver.
    + intros k'. rewrite Hr, mget_mset. case_decide; [set_solver|done].
Qed.

Lemma seenFrom_no_empty k t w obs :
  window_wf w → no_overflow w ((k, t) :: obs) →
  no_empty_entry w → no_empty_entry (seenFrom k t w).2.
Proof.
  intros Hw Ho Hn. unfold seenFrom.
  destruct (mget k (seen w)) as [ts|] eqn:E; cbn.
  - case_bool_decide; [done|]. intros k' ts'. cbn. rewrite mget_mset.
    case_decide; [|apply Hn]. intros ?; simplify_eq. set_solver.
  - apply mget_None in E. intros k' ts'. erewrite record_no_overflow by done.
    rewrite mget_mset. case_decide; [|apply Hn]. intros ?; simplify_eq. set_solver.
Qed.

(** An observation is suppressed exactly when the key was seen, and only by the
    other transport. *)
Lemma seenFrom_dup k t w :
  no_empty_entry w →
  (seenFrom k t w).1 = true ↔ stored k w ≠ ∅ ∧ t ∉ stored k w.
Proof.
  intros Hn. unfold seenFrom, stored. destruct (mget k (seen w)) as [ts|] eqn:E; cbn.
  - specialize (Hn _ _ E). case_bool_decide; cbn; naive_solver.
  - naive_solver.
Qed.

Lemma transports_of_cons k k' t obs :
  transports_of k ((k', t) :: obs) =
    if decide (k' = k) then {[t]} ∪ transports_of k obs else transports_of k obs.
Proof. unfold transports_of. rewrite filter_cons. cbn. by case_decide. Qed.

Lemma count_key_cons {T} k k' (t : T) obs :
  count_key k ((k', t) :: obs) = (if decide (k' = k) then 1 else 0) + count_key k obs.
Proof. unfold count_key. rewrite filter_cons. cbn. by case_decide. Qed.

#[global] Arguments transports_of : simpl never.
#[global] Arguments count_key : simpl never.
#[global] Arguments stored : simpl never.

Definition b2n (b : bool) : nat := if b then 1 else 0.

Lemma mem_singleton (x t : DedupeTransport) :
  bool_decide (x ∈ ({[t]} : gset DedupeTransport)) = bool_decide (x = t).
Proof. apply bool_decide_ext. set_solver. Qed.

Lemma mem_union (x : DedupeTransport) (X Y : gset DedupeTransport) :
  bool_decide (x ∈ X ∪ Y) = bool_decide (x ∈ X) || bool_decide (x ∈ Y).
Proof. rewrite <-bool_decide_or. apply bool_decide_ext. set_solver. Qed.

Lemma nonempty_mem (S : gset DedupeTransport) :
  bool_decide (S ≠ ∅) = bool_decide (horizon ∈ S) || bool_decide (unified ∈ S).
Proof.
  rewrite <-bool_decide_or. apply bool_decide_ext. split.
  - intros [[] Hx]%set_choose_L; auto.
  - set_solver.
Qed.

Lemma both_step t (S T : gset DedupeTransport) :
  b2n (bool_decide (S ≠ ∅ ∧ t ∉ S)) + b2n (both (({[t]} ∪ S) ∪ T) && negb (both ({[t]} ∪ S)))
  = b2n (both (S ∪ ({[t]} ∪ T)) && negb (both S)).
Proof.
  unfold both. rewrite bool_decide_and, nonempty_mem, bool_decide_not.
  rewrite !mem_union, !mem_singleton.
  destruct t, (bool_decide (horizon ∈ S)), (bool_decide (unified ∈ S)),
    (bool_decide (horizon ∈ T)), (bool_decide (unified ∈ T)); reflexivity.
Qed.

Lemma observe_all_count obs w k :
  window_wf w → no_empty_entry w → no_overflow w obs →
  count_key k (observe_all obs w).1
    + b2n (both (stored k w ∪ transports_of k obs) && negb (both (stored k w)))
  = count_key k obs.
Proof.
  revert w. induction obs as [|[k' t] obs IH]; intros w Hw Hn Ho; cbn.
  - unfold transports_of, count_key. cbn. rewrite union_empty_r_L. by destruct (both _).
  - pose proof (seenFrom_stored k' t w obs Hw Ho) as [Ho1 Hst].
    pose proof (seenFrom_dup k' t w Hn) as Hd.
    specialize (IH (seenFrom k' t w).2 (seenFrom_wf _ _ _ Hw)
                  (seenFrom_no_empty _ _ _ _ Hw Ho Hn) Ho1).
    rewrite Hst in IH. rewrite transports_of_cons, count_key_cons.
    destruct (seenFrom k' t w) as [dup w1]. cbn in *.
    destruct (observe_all obs w1) as [dl w2]. cbn in *.
    destruct dup; rewrite ?count_key_cons; repeat case_decide; subst; try lia.
    + pose proof (both_step t (stored k w) (transports_of k obs)) as Hb.
      rewrite (bool_decide_true (_ ≠ _ ∧ _)) in Hb by (by apply Hd). cbn in Hb. lia.
    + pose proof (both_step t (stored k w) (transports_of k obs)) as Hb.
      rewrite (bool_decide_false (_ ≠ _ ∧ _)) in Hb by (intros ?%Hd; done).
      cbn in Hb. lia.
Qed.

(** the delivery rule of the dual-transport period.  As long as a run stays
    within the window's capacity, each operation key loses exactly one of its
    observations when both transports saw it, and none otherwise.  So an
    operation with N events on one transport and one on the other reaches the
    watcher N times, whichever transport came first. *)
Theorem cross_transport_delivery cap w obs k :
  dedupe_window cap = Ok w →
  no_overflow w obs →
  count_key k (observe_all obs w).1 =
    count_key k obs - b2n (both (transports_of k obs)).
Proof.
  intros [Hw Hs]%dedupe_window_wf Ho.
  pose proof (observe_all_count obs w k Hw) as H. unfold stored in H. rewrite Hs in H.
  cbn in H. rewrite union_empty_l_L in H. unfold both at 2 in H. cbn in H.
  rewrite andb_true_r in H. rewrite <-H; [lia| |done].
  intros k' ts. by rewrite Hs.
Qed.

Lemma cross_transport_delivery_witness :
  count_key "op" (observe_all [("op", unified); ("op", unified); ("op", horizon)]
    {| capacity := 4; seen := [] |}).1 = 2.
Proof.
  rewrite (cross_transport_delivery (jint 4));
    [vm_compute; reflexivity|reflexivity|vm_compute; discriminate].
Defined.

(** ** First in, first out *)

Fixpoint record_fresh (ks : list string) (w : DedupeWindow) : DedupeWindow :=
  match ks with
  | [] => w
  | k :: ks' => record_fresh ks' (seenBefore k w).2
  end.

Lemma record_fresh_keys ks w :
  window_wf w → NoDup (mkeys (seen w) ++ ks) →
  let all := mkeys (seen w) ++ ks in
  mkeys (seen (record_fresh ks w)) = drop (length all - Z.to_nat (capacity w)) all.
Proof.
  revert w. induction ks as [|k ks IH]; intros w Hw Hnd; cbn.
  - destruct Hw as (_ & _ & Hs). unfold window_size in Hs. rewrite msize_mkeys in Hs.
    rewrite app_nil_r. replace (_ - _) with 0 by lia. by rewrite drop_0.
  - assert (k ∉ mkeys (seen w)) as Hk by (apply NoDup_app in Hnd; set_solver).
    assert (seenBefore k w = (false, record k ∅ w)) as Hb.
    { unfold seenBefore. destruct (mhas k (seen w)) eqn:E; [|done]. by apply mhas_true in E. }
    rewrite Hb. cbn. pose proof (record_keys k ∅ w Hk) as Hr.
    pose proof Hw as (Hc & _ & Hs). unfold window_size in Hs, Hr.
    rewrite msize_mkeys in Hs, Hr. rewrite IH; [|by apply record_wf|].
    + rewrite Hr. unfold record at 1. cbn. destruct (_ <? _)%Z eqn:E; bool_to_prop.
      * destruct (mkeys (seen w)) as [|k0 m] eqn:Em; cbn in *; [lia|].
        rewrite <-app_assoc. cbn. rewrite !length_app. cbn.
        replace (S (length m + S (length ks)) - Z.to_nat (capacity w))
          with (S (length m + S (length ks) - Z.to_nat (capacity w))) by lia.
        done.
      * by rewrite <-app_assoc.
    + rewrite Hr. destruct (_ <? _)%Z; cbn; rewrite <-?app_assoc; [|done].
      destruct (mkeys (seen w)) as [|k0 m]; cbn in *.
      * by apply NoDup_cons in Hnd as [_ ?].
      * rewrite <-app_assoc. by apply NoDup_cons in Hnd as [_ ?].
Qed.

(** Eviction is first in, first out.  After recording distinct keys one by
    one the window holds exactly the latest [capacity] of them, oldest first. *)
Theorem window_keeps_latest cap w ks :
  dedupe_window cap = Ok w → NoDup ks →
  mkeys (seen (record_fresh ks w)) = drop (length ks - Z.to_nat (capacity w)) ks.
Proof.
  intros [Hw Hs]%dedupe_window_wf Hnd.
  pose proof (record_fresh_keys ks w Hw) as H. rewrite Hs in H. by apply H.
Qed.

Lemma window_keeps_latest_witness :
  mkeys (seen (record_fresh ["a"; "b"; "c"] {| capacity := 2; seen := [] |})) = ["b"; "c"].
Proof.
  rewrite (window_keeps_latest (jint 2));
    [reflexivity|reflexivity|by apply (bool_decide_unpack (NoDup ["a"; "b"; "c"])); vm_compute].
Defined.

(** ** Keys *)

Fixpoint no_char (c : Ascii.ascii) (s : string) : bool :=
  match s with
  | EmptyString => true
  | String c' s' => bool_decide (c' ≠ c) && no_char c s'
  end.

Lemma split_at_char c s1 s2 t1 t2 :
  no_char c s1 = true → no_char c s2 = true →
  s1 +:+ String c t1 = s2 +:+ String c t2 → s1 = s2 ∧ t1 = t2.
Proof.
  revert s2. induction s1 as [|a s1 IH]; intros [|b s2] H1 H2 Heq; cbn in *; simplify_eq.
  - done.
  - by rewrite bool_decide_false in H2 by tauto.
  - by rewrite bool_decide_false in H1 by tauto.
  - bool_to_prop. destruct (IH s2) as [-> ->]; done.
Qed.

(** Two references share a key only when they are the same reference, for
    transaction hashes without a colon (they are hexadecimal). *)
Theorem deriveDedupeKey_inj r1 r2 :
  no_char ":"%char (txHash r1) = true → no_char ":"%char (txHash r2) = true →
  deriveDedupeKey r1 = deriveDedupeKey r2 → r1 = r2.
Proof.
  destruct r1 as [h1 i1], r2 as [h2 i2]. unfold deriveDedupeKey. cbn.
  intros H1 H2 Heq. destruct (split_at_char ":"%char h1 h2 i1 i2) as [-> ->]; done.
Qed.

Lemma deriveDedupeKey_inj_witness :
  deriveDedupeKey {| txHash := "ab"; index := "1:2" |} = "ab:1:2" ∧
  {| txHash := "ab"; index := "1:2" |} = {| txHash := "ab"; index := "1:2" |}.
Proof.
  split; [reflexivity|].
  apply deriveDedupeKey_inj; reflexivity.
Defined.
