(* ===== verification/Route.v ===== *)
(** * Routing events to watchers
    (packages/pulse-core/src/EventEngine.ts, [route] and what it calls)

    The engine's registries and the fan-out of one event.  A watcher is a
    number; what reaches its listeners is a list of emissions, in order.  A
    listener is code of the application: here it returns and does not call the
    engine back (EventQueue.v has the calls that arrive while a listener runs).
    Filters are pure. *)

From S2P Require Import Prelude.
From S2P Require Import JsMap.
From S2P Require Import JsValue.
From S2P Require Import EventTypes.
From S2P Require Import Dedupe.

Definition WatcherId := nat.

Inductive Source := src_horizon | src_soroban.

#[export] Instance Source_eq_dec : EqDecision Source.
Proof. solve_decision. Defined.
#[export] Instance Source_countable : Countable Source.
Proof.
  refine (inj_countable' (λ s, match s with src_horizon => true | src_soroban => false end)
    (λ b, if b : bool then src_horizon else src_soroban) _); by intros [].
Defined.

(** A [null] in [topicFilters] is [None]: any topic. *)
Record ContractSubscriptionFilter := {
  f_type : option string;
  f_contractIds : option (list string);
  f_topicFilters : option (list (option string));
}.

(** Why a contract event could not be decoded. *)
Inductive decode_failure :=
  | DecodeError (message : string)
  | NoSpecFound (contractId : string)
  | LookupFailed (message : string).

(** The lifecycle notifications of [notifyWatchers]; times are left out. *)
Inductive Notice :=
  | Reconnecting (attempt delayMs : Z)
  | Reconnected (attempt : Z)
  | RateLimited (attempt delayMs : Z)
  | Stopped
  | CursorStoreUnhealthy
  | Backpressure (active : bool) (queued : nat).

Section route.
Context {Semantic Spec : Type}.
(** The abi-registry decoder, which turns every failure into an error value. *)
Context (decodeContractEvent : Spec → ContractEmittedEvent Semantic → string + jsval).

Notation Event := (Event Semantic).

Inductive Emission :=
  | EmitEvent (w : WatcherId) (name : string) (e : Event)
  | EmitUnrecognized (w : WatcherId) (operationType : string) (record : jsval)
  | EmitDecodeFailed (w : WatcherId) (contractId : string) (eventId : option string)
      (error : decode_failure)
  | EmitNotice (w : WatcherId) (name : option string) (n : Notice).

(** What a subscription's predicate answered; [Err] is an exception. *)
Definition EventFilter : Type := Event → result unit bool.

Record Router := {
  registry : jsmap string WatcherId;
  contractRegistry : jsmap string (WatcherId * list ContractSubscriptionFilter);
  filters : jsmap string EventFilter;
  subscriptionNames : jsmap string string;
  pausedSources : gset Source;
  dedupeWindow : DedupeWindow;
}.

Definition with_dedupeWindow (d : DedupeWindow) (r : Router) : Router :=
  {| registry := registry r; contractRegistry := contractRegistry r; filters := filters r;
     subscriptionNames := subscriptionNames r; pausedSources := pausedSources r;
     dedupeWindow := d |}.

Definition with_pausedSources (p : gset Source) (r : Router) : Router :=
  {| registry := registry r; contractRegistry := contractRegistry r; filters := filters r;
     subscriptionNames := subscriptionNames r; pausedSources := p;
     dedupeWindow := dedupeWindow r |}.

(** A filter that throws rejects the event. *)
Definition passesFilter (r : Router) (address : string) (e : Event) : bool :=
  match mget address (filters r) with
  | None => true
  | Some filter => match filter e with Ok b => b | Err _ => false end
  end.

(** [watcher.emit(event.type, event); watcher.emit("*", event)] *)
Definition emit_both (w : WatcherId) (e : Event) : list Emission :=
  [EmitEvent w (type_of e) e; EmitEvent w "*" e].

#[global] Arguments emit_both : simpl never.

(** Look the watcher of [address] up, ask its filter, emit. *)
Definition notify (r : Router) (address : string) (e : Event) : list Emission :=
  match mget address (registry r) with
  | Some w => if passesFilter r address e then emit_both w e else []
  | None => []
  end.

(** [registry.get(v)] for a value the normaliser did not check: only a string
    is a key. *)
Definition notify_value (r : Router) (v : jsval) (e : Event) : list Emission :=
  match as_string v with Some a => notify r a e | None => [] end.

Definition is_contract_event (e : Event) : bool :=
  match e with ContractInvoked _ | ContractEmitted _ => true | _ => false end.

Definition contract_of (e : Event) : string :=
  match e with
  | ContractInvoked c => ci_contractId c
  | ContractEmitted c => ce_contractId c
  | _ => ""
  end.

(** Position by position; a topic beyond the event's last one is [undefined]. *)
Fixpoint topics_match (patterns : list (option string)) (topics : list jsval) : bool :=
  match patterns with
  | [] => true
  | None :: ps => topics_match ps (tail topics)
  | Some p :: ps =>
      match head topics with
      | Some t => is_str t p && topics_match ps (tail topics)
      | None => false
      end
  end.

Definition matches_filter (e : Event) (f : ContractSubscriptionFilter) : bool :=
  match f_type f with Some t => String.eqb t (type_of e) | None => true end &&
  match f_contractIds f with
  | Some ids => existsb (String.eqb (contract_of e)) ids
  | None => true
  end &&
  match f_topicFilters f with
  | None => true
  | Some patterns =>
      match e with
      | ContractEmitted c => topics_match patterns (ce_topics c)
      | _ => false
      end
  end.

Definition matchesContractFilters (e : Event) (fs : list ContractSubscriptionFilter) : bool :=
  match fs with [] => true | _ => existsb (matches_filter e) fs end.

(** The contract subscriptions an event reaches, in registration order. *)
Definition contract_targets (r : Router) (e : Event) : list WatcherId :=
  omap (λ '(id, (w, fs)),
    if matchesContractFilters e fs && passesFilter r id e then Some w else None)
    (contractRegistry r).

Definition dispatchContractEvent (r : Router) (e : Event) : list Emission :=
  contract_targets r e ≫= λ w, emit_both w e.

Definition emitUnrecognizedOperationTypeNotification (r : Router) (operationType : string)
    (record : jsval) : list Emission :=
  ((λ w, EmitUnrecognized w operationType record) <$> mvals (registry r)) ++
  ((λ w, EmitUnrecognized w operationType record) <$> (mvals (contractRegistry r)).*1).

Definition emitDecodeFailedNotification (r : Router) (c : ContractEmittedEvent Semantic)
    (error : decode_failure) : list Emission :=
  (λ w, EmitDecodeFailed w (ce_contractId c) (ce_eventId c) error)
    <$> contract_targets r (ContractEmitted c).

(** A subscription's label, when it has one, is added to the notification. *)
Definition notifyWatchers (r : Router) (n : Notice) : list Emission :=
  ((λ '(address, w), EmitNotice w (mget address (subscriptionNames r)) n) <$> registry r) ++
  ((λ '(id, (w, _)), EmitNotice w (mget id (subscriptionNames r)) n) <$> contractRegistry r).

(** ** One branch of [route] per event type *)

Definition route_account_created (r : Router) (e : Event) (c : AccountCreatedEvent) :=
  notify r (ac_funder c) e ++
  (if negb (String.eqb (ac_account c) (ac_funder c)) then notify r (ac_account c) e else []).

(** Both sides are looked up, also when they are the same account. *)
Definition route_account_merged (r : Router) (e : Event) (m : AccountMergeEvent) :=
  notify_value r (am_source m) e ++ notify_value r (am_destination m) e.

(** Each claimant once, then the sponsor unless a claimant entry reached it. *)
Fixpoint notify_claimants (r : Router) (e : Event) (destinations : list string)
    (notified : gset string) : list Emission * gset string :=
  match destinations with
  | [] => ([], notified)
  | d :: ds =>
      match mget d (registry r) with
      | Some w =>
          if negb (bool_decide (d ∈ notified)) && passesFilter r d e then
            let '(out, n) := notify_claimants r e ds ({[d]} ∪ notified) in
            (emit_both w e ++ out, n)
          else notify_claimants r e ds notified
      | None => notify_claimants r e ds notified
      end
  end.

Definition route_claimable_created (r : Router) (e : Event) (c : ClaimableCreatedEvent) :=
  let '(out, notified) := notify_claimants r e (cl_destination <$> cc_claimants c) ∅ in
  out ++ (if bool_decide (cc_sponsor c ∈ notified) then [] else notify r (cc_sponsor c) e).

Definition route_trust_auth (r : Router) (e : Event) (t : TrustAuthEvent) :=
  notify r (ta_issuer t) e ++
  (if negb (String.eqb (ta_trustor t) (ta_issuer t)) then notify r (ta_trustor t) e else []).

Definition withResolvedType (p : PaymentFields) (type : PaymentEventType) : Event :=
  Payment type p.

Definition route_payment (r : Router) (p : PaymentFields) :=
  if String.eqb (pay_from p) (pay_to p) then
    notify r (pay_to p) (withResolvedType p payment_self)
  else
    notify r (pay_to p) (withResolvedType p payment_received) ++
    notify r (pay_from p) (withResolvedType p payment_sent).

(** The fan-out of a routed event.  With an ABI registry a contract event is
    held back ([inr]) until the lookup of its spec settles. *)
Definition fan_out (hasAbiRegistry : bool) (r : Router) (e : Event)
    : list Emission + ContractEmittedEvent Semantic :=
  match e with
  | AccountCreated c => inl (route_account_created r e c)
  | AccountOptions o => inl (notify_value r (ao_source o) e)
  | Offer o => inl (notify r (of_source o) e)
  | Trustline t => inl (notify r (tl_account t) e)
  | AccountMerge m => inl (route_account_merged r e m)
  | BumpSequence b => inl (notify r (bs_source b) e)
  | Data d => inl (notify r (da_source d) e)
  | ClaimableCreated c => inl (route_claimable_created r e c)
  | ClaimableClaimed c => inl (notify r (cd_claimant c) e)
  | LiquidityPoolDeposit l => inl (notify r (ld_source l) e)
  | LiquidityPoolWithdraw l => inl (notify r (lw_source l) e)
  | TrustAuth t => inl (route_trust_auth r e t)
  | ContractEmitted c => if hasAbiRegistry then inr c else inl (dispatchContractEvent r e)
  | ContractInvoked _ => inl (dispatchContractEvent r e)
  | PendingPayment p => inl (route_payment r p)
  | Payment _ _ | AssetClawback _ | FeeIncurred _ => inl []
  end.

Definition sourceOf (e : Event) : Source :=
  if is_contract_event e then src_soroban else src_horizon.

(** [route]: the duplicate check records the key before the pause check. *)
Definition route (hasAbiRegistry : bool) (dedupe : option (string * DedupeTransport))
    (e : Event) (r : Router) : (list Emission + ContractEmittedEvent Semantic) * Router :=
  let '(duplicate, d) :=
    match dedupe with
    | Some (key, transport) => seenFrom key transport (dedupeWindow r)
    | None => (false, dedupeWindow r)
    end in
  let r' := with_dedupeWindow d r in
  if duplicate then (inl [], r')
  else if bool_decide (sourceOf e ∈ pausedSources r) then (inl [], r')
  else (fan_out hasAbiRegistry r' e, r').

(** ** The two continuations of the spec lookup *)

Definition with_decodedData (v : jsval) (c : ContractEmittedEvent Semantic)
    : ContractEmittedEvent Semantic :=
  {| ce_contractId := ce_contractId c; ce_topics := ce_topics c; ce_data := ce_data c;
     ce_decodedData := v; ce_semantic := ce_semantic c; ce_ledger := ce_ledger c;
     ce_eventId := ce_eventId c; ce_txHash := ce_txHash c;
     ce_inSuccessfulContractCall := ce_inSuccessfulContractCall c;
     ce_timestamp := ce_timestamp c; ce_raw := ce_raw c |}.

Inductive lookup_outcome :=
  | SpecFound (spec : Spec)
  | SpecMissing
  | SpecRejected (message : string).

Definition spec_settled (r : Router) (c : ContractEmittedEvent Semantic)
    (outcome : lookup_outcome) : list Emission :=
  let failed error :=
    let c' := with_decodedData JUndef c in
    emitDecodeFailedNotification r c' error ++ dispatchContractEvent r (ContractEmitted c') in
  match outcome with
  | SpecFound spec =>
      match decodeContractEvent spec c with
      | inl error => failed (DecodeError error)
      | inr decoded => dispatchContractEvent r (ContractEmitted (with_decodedData decoded c))
      end
  | SpecMissing => failed (NoSpecFound (ce_contractId c))
  | SpecRejected message => failed (LookupFailed message)
  end.

(** ** A polled Soroban event *)

Record SorobanEvent := {
  so_id : string;
  so_topic : list jsval;
  so_value : jsval;
  so_contractId : option string;
  so_type : option string;
  so_decodedData : jsval;
  so_ledger : option jsnum;
  so_ledgerClosedAt : option string;
  so_txHash : option string;
  so_inSuccessfulContractCall : option bool;
  so_function : option string;
  so_args : option (list jsval);
  so_raw : jsval;
}.

(** The event a polled record is turned into; [now] stands in for a missing
    close time. *)
Definition handleSorobanEvent (resolveSemantic : string → list jsval → jsval → option Semantic)
    (now : string) (s : SorobanEvent) : option Event :=
  contractId ← so_contractId s;
  let timestamp := default now (so_ledgerClosedAt s) in
  if String.eqb contractId "" then None
  else if bool_decide (so_type s = Some "contract.invoked") then
    Some (ContractInvoked
      {| ci_contractId := contractId; ci_function := default "" (so_function s);
         ci_args := default [] (so_args s); ci_ledger := so_ledger s;
         ci_txHash := so_txHash s; ci_timestamp := timestamp; ci_inSuccessfulContractCall := None; ci_raw := so_raw s |})
  else if bool_decide (so_type s = Some "contract.emitted") then
    Some (ContractEmitted
      {| ce_contractId := contractId; ce_topics := so_topic s;
         ce_data := coalesce (so_decodedData s) (so_value s);
         ce_decodedData := so_decodedData s;
         ce_semantic := resolveSemantic contractId (so_topic s) (so_value s);
         ce_ledger := so_ledger s; ce_eventId := Some (so_id s); ce_txHash := so_txHash s;
         ce_inSuccessfulContractCall := default false (so_inSuccessfulContractCall s);
         ce_timestamp := timestamp; ce_raw := so_raw s |})
  else None.
(** ** What routing promises *)

Definition value_parties (v : jsval) (e : Event) : list (string * Event) :=
  match as_string v with Some a => [(a, e)] | None => [] end.

(** The accounts an event concerns, each with the event it should be told. *)
Definition parties (e : Event) : list (string * Event) :=
  match e with
  | AccountCreated c => [(ac_funder c, e); (ac_account c, e)]
  | AccountOptions o => value_parties (ao_source o) e
  | Offer o => [(of_source o, e)]
  | Trustline t => [(tl_account t, e)]
  | AccountMerge m => value_parties (am_source m) e ++ value_parties (am_destination m) e
  | BumpSequence b => [(bs_source b, e)]
  | Data d => [(da_source d, e)]
  | ClaimableCreated c => ((λ d, (cl_destination d, e)) <$> cc_claimants c) ++ [(cc_sponsor c, e)]
  | ClaimableClaimed c => [(cd_claimant c, e)]
  | LiquidityPoolDeposit l => [(ld_source l, e)]
  | LiquidityPoolWithdraw l => [(lw_source l, e)]
  | TrustAuth t => [(ta_issuer t, e); (ta_trustor t, e)]
  | PendingPayment p =>
      if decide (pay_from p = pay_to p) then [(pay_to p, Payment payment_self p)]
      else [(pay_to p, Payment payment_received p); (pay_from p, Payment payment_sent p)]
  | _ => []
  end.

(** Watcher [w] is due the event [e'] when [e] is routed: an account watcher of
    a party, or a contract subscription that matches, and the subscription's
    own filter accepts. *)
Inductive receives (r : Router) (e : Event) (w : WatcherId) : Event → Prop :=
  | receives_party a e' :
      (a, e') ∈ parties e → mget a (registry r) = Some w → passesFilter r a e' = true →
      receives r e w e'
  | receives_contract id fs :
      is_contract_event e = true → (id, (w, fs)) ∈ contractRegistry r →
      matchesContractFilters e fs = true → passesFilter r id e = true →
      receives r e w e.

(** ** Lemmas *)

Definition reached (r : Router) (ps : list (string * Event)) (m : Emission) : Prop :=
  ∃ a e' w, (a, e') ∈ ps ∧ mget a (registry r) = Some w ∧ passesFilter r a e' = true
            ∧ m ∈ emit_both w e'.

Lemma elem_notify r a e m : m ∈ notify r a e ↔ reached r [(a, e)] m.
Proof.
  unfold notify, reached. split.
  - destruct (mget a (registry r)) as [w|] eqn:Hw; [|set_solver].
    destruct (passesFilter r a e) eqn:Hf; [|set_solver].
    intros Hm. exists a, e, w. split_and!; [set_solver|done..].
  - intros (a' & e' & w & [= -> ->]%list_elem_of_singleton & Hw & Hf & Hm).
    by rewrite Hw, Hf.
Qed.

Lemma elem_notify_value r v e m : m ∈ notify_value r v e ↔ reached r (value_parties v e) m.
Proof.
  unfold notify_value, value_parties. destruct (as_string v); [apply elem_notify|].
  unfold reached. set_solver.
Qed.

Lemma reached_app r ps qs m : reached r (ps ++ qs) m ↔ reached r ps m ∨ reached r qs m.
Proof. unfold reached. setoid_rewrite elem_of_app. naive_solver. Qed.

Lemma reached_nil r m : ¬ reached r [] m.
Proof. unfold reached. set_solver. Qed.

Lemma reached_twice r a e m : reached r [(a, e); (a, e)] m ↔ reached r [(a, e)] m.
Proof. unfold reached. set_solver. Qed.

(** A subscribed address whose filter accepts. *)
Definition reaches (r : Router) (e : Event) (d : string) : bool :=
  bool_decide (is_Some (mget d (registry r))) && passesFilter r d e.

Lemma reached_reaches r d e m : reached r [(d, e)] m → reaches r e d = true.
Proof.
  intros (a & e' & w & [= -> ->]%list_elem_of_singleton & Hw & Hf & _).
  unfold reaches. rewrite Hf, andb_true_r. apply bool_decide_eq_true. by eexists.
Qed.

Lemma notify_claimants_cons r e d ds n :
  notify_claimants r e (d :: ds) n =
    if negb (bool_decide (d ∈ n)) && reaches r e d then
      let '(out, n') := notify_claimants r e ds ({[d]} ∪ n) in (notify r d e ++ out, n')
    else notify_claimants r e ds n.
Proof.
  unfold reaches, notify. cbn. destruct (mget d (registry r)) as [w|]; cbn.
  - by destruct (passesFilter r d e); [|rewrite !andb_false_r].
  - by rewrite andb_false_r.
Qed.

(** The loop over the claimants reaches those not yet notified, and records
    every destination it reached. *)
Lemma notify_claimants_spec r e ds n m :
  (m ∈ (notify_claimants r e ds n).1 ↔ ∃ d, d ∈ ds ∧ d ∉ n ∧ reached r [(d, e)] m) ∧
  (∀ d, d ∈ (notify_claimants r e ds n).2 ↔ d ∈ n ∨ (d ∈ ds ∧ reaches r e d = true)).
Proof.
  revert n. induction ds as [|d ds IH]; intros n; [set_solver|].
  rewrite notify_claimants_cons. destruct (negb _ && _) eqn:Hd.
  - apply andb_true_iff in Hd as [Hn%negb_true_iff%bool_decide_eq_false Hd].
    destruct (IH ({[d]} ∪ n)) as [IH1 IH2].
    destruct (notify_claimants r e ds ({[d]} ∪ n)) as [out n']. cbn in *. split.
    + rewrite elem_of_app, IH1, elem_notify. split.
      { intros [Hm|(x & Hx & Hxn & Hm)]; [by exists d; set_solver|].
        exists x. split_and!; [by right|set_solver|done]. }
      intros (x & [->|Hx]%elem_of_cons & Hxn & Hm); [by left|].
      destruct (decide (x = d)) as [->|Hne]; [by left|].
      right. exists x. split_and!; [done|set_solver|done].
    + intros x. rewrite IH2, elem_of_union, elem_of_singleton, elem_of_cons.
      clear IH1 IH2 IH. destruct (decide (x = d)) as [->|]; intuition.
  - destruct (IH n) as [IH1 IH2]. clear IH. apply andb_false_iff in Hd as [Hn|Hd].
    + apply negb_false_iff, bool_decide_eq_true in Hn. split.
      * rewrite IH1. clear IH1 IH2. setoid_rewrite elem_of_cons. naive_solver.
      * intros x. rewrite IH2, elem_of_cons. clear IH1 IH2. intuition congruence.
    + split.
      * rewrite IH1. clear IH1 IH2. setoid_rewrite elem_of_cons.
        pose proof (reached_reaches r d e m). naive_solver congruence.
      * intros x. rewrite IH2, elem_of_cons. clear IH1 IH2.
        destruct (decide (x = d)) as [->|]; intuition congruence.
Qed.

Lemma elem_claimable r e c m :
  m ∈ route_claimable_created r e c ↔
    reached r (((λ d, (cl_destination d, e)) <$> cc_claimants c) ++ [(cc_sponsor c, e)]) m.
Proof.
  unfold route_claimable_created.
  destruct (notify_claimants_spec r e (cl_destination <$> cc_claimants c) ∅ m) as [H1 H2].
  destruct (notify_claimants r e _ ∅) as [out n]. cbn in *.
  rewrite elem_of_app, H1, reached_app. clear H1.
  assert (reached r ((λ d, (cl_destination d, e)) <$> cc_claimants c) m ↔
    ∃ d, d ∈ cl_destination <$> cc_claimants c ∧ d ∉ (∅ : gset string) ∧ reached r [(d, e)] m) as ->.
  { unfold reached. setoid_rewrite list_elem_of_fmap. set_solver. }
  case_bool_decide as Hs; [|by rewrite elem_notify].
  split; [set_solver|]. intros [?|Hm]; [by left|].
  left. exists (cc_sponsor c). apply H2 in Hs as [?|[??]]; [set_solver|]. set_solver.
Qed.

Lemma elem_contract_targets r e w :
  w ∈ contract_targets r e ↔ ∃ id fs, (id, (w, fs)) ∈ contractRegistry r ∧
    matchesContractFilters e fs = true ∧ passesFilter r id e = true.
Proof.
  unfold contract_targets. rewrite list_elem_of_omap. split.
  - intros ([id [w' fs]] & Hin & H). case_match eqn:Hm; [|done]. bool_to_prop. naive_solver.
  - intros (id & fs & Hin & Hm & Hf). exists (id, (w, fs)). by rewrite Hm, Hf.
Qed.

Lemma elem_dispatch r e m :
  m ∈ dispatchContractEvent r e ↔ ∃ w, w ∈ contract_targets r e ∧ m ∈ emit_both w e.
Proof. unfold dispatchContractEvent. rewrite list_elem_of_bind. naive_solver. Qed.

Lemma elem_parties r e out m :
  is_contract_event e = false → fan_out false r e = inl out →
  m ∈ out ↔ reached r (parties e) m.
Proof.
  intros Hc Hf. destruct e; try discriminate Hc; cbn in Hf; simplify_eq; cbn;
    rewrite ?elem_notify, ?elem_notify_value; try done.
  - unfold route_payment. destruct (String.eqb_spec (pay_from p) (pay_to p)) as [He|He].
    + rewrite decide_True by done. apply elem_notify.
    + rewrite decide_False by done. rewrite elem_of_app, !elem_notify.
      by rewrite <-reached_app.
  - split; [set_solver|]. intros ?%reached_nil. done.
  - unfold route_account_created. rewrite elem_of_app, elem_notify.
    destruct (String.eqb_spec (ac_account e) (ac_funder e)) as [->|He]; cbn.
    + rewrite reached_twice. set_solver.
    + by rewrite elem_notify, <-reached_app.
  - unfold route_account_merged. by rewrite elem_of_app, !elem_notify_value, <-reached_app.
  - apply elem_claimable.
  - unfold route_trust_auth. rewrite elem_of_app, elem_notify.
    destruct (String.eqb_spec (ta_trustor e) (ta_issuer e)) as [->|He]; cbn.
    + rewrite reached_twice. set_solver.
    + by rewrite elem_notify, <-reached_app.
  - split; [set_solver|]. intros ?%reached_nil. done.
  - split; [set_solver|]. intros ?%reached_nil. done.
Qed.

Lemma parties_contract e : is_contract_event e = true → parties e = [].
Proof. by destruct e. Qed.

(** What the fan-out emits is what is due. *)
Lemma fan_out_receives abi r e out m :
  fan_out abi r e = inl out →
  m ∈ out ↔ ∃ w e', receives r e w e' ∧ m ∈ emit_both w e'.
Proof.
  intros Hf. destruct (is_contract_event e) eqn:Hc.
  - assert (out = dispatchContractEvent r e) as ->
      by (destruct e; try done; destruct abi; cbn in Hf; by simplify_eq).
    rewrite elem_dispatch. setoid_rewrite elem_contract_targets. split.
    + intros (w & (id & fs & Hin & Hm & Hp) & Hmm). exists w, e. split; [|done].
      by eapply receives_contract.
    + intros (w & e' & Hr & Hmm). inversion Hr as [a e1 Ha|id fs]; subst.
      * rewrite parties_contract in Ha by done. set_solver.
      * exists w. split; [by exists id, fs|done].
  - assert (fan_out false r e = inl out) as Hf' by (by destruct e).
    rewrite (elem_parties _ _ _ _ Hc Hf'). unfold reached. split.
    + intros (a & e' & w & Hp & Hw & Ha & Hm). exists w, e'. split; [|done].
      by eapply receives_party.
    + intros (w & e' & Hr & Hm). inversion Hr; [naive_solver|congruence].
Qed.

(** ** No watcher is told twice *)

(** Every account has its own watcher, and so has every contract subscription. *)
Definition watchers_distinct (r : Router) : Prop :=
  NoDup (mvals (registry r)) ∧ NoDup (mvals (contractRegistry r)).*1.

Lemma distinct_inj r a b w :
  watchers_distinct r → mget a (registry r) = Some w → mget b (registry r) = Some w → a = b.
Proof.
  intros [Hnd _] Ha%mget_Some_elem Hb%mget_Some_elem. revert Hnd Ha Hb.
  unfold mvals. induction (registry r) as [|[k v] m IH]; [set_solver|].
  cbn. intros [Hv Hnd]%NoDup_cons [Ha|Ha]%elem_of_cons [Hb|Hb]%elem_of_cons; simplify_eq; auto.
  - destruct Hv. apply list_elem_of_fmap. by eexists (_, _).
  - destruct Hv. apply list_elem_of_fmap. by eexists (_, _).
Qed.

Lemma type_of_star (e : Event) : type_of e ≠ "*".
Proof.
  destruct e as [|t| | |e| |e| |e| | | | |e| | | |]; try discriminate.
  - by destruct t.
  - cbn. by destruct (tl_type e).
  - cbn. by destruct (of_type e).
  - cbn. by destruct (da_type e).
  - cbn. by destruct (ta_type e).
Qed.

Lemma emit_both_NoDup w e : NoDup (emit_both w e).
Proof.
  unfold emit_both. apply NoDup_cons. split; [|apply NoDup_singleton].
  rewrite list_elem_of_singleton. intros [= H]. by apply type_of_star in H.
Qed.

Lemma emit_both_watcher w e w' e' m : m ∈ emit_both w e → m ∈ emit_both w' e' → w = w'.
Proof. unfold emit_both. set_solver. Qed.

Lemma notify_NoDup r a e : NoDup (notify r a e).
Proof.
  unfold notify. destruct (mget a (registry r)); [|apply NoDup_nil_2].
  destruct (passesFilter r a e); [apply emit_both_NoDup|apply NoDup_nil_2].
Qed.

Lemma notify_disjoint r a b e e' m :
  watchers_distinct r → a ≠ b → m ∈ notify r a e → m ∉ notify r b e'.
Proof.
  intros Hd Hab (x & ? & w & [= -> ->]%list_elem_of_singleton & Hw & _ & Hm)%elem_notify.
  intros (y & ? & w' & [= -> ->]%list_elem_of_singleton & Hw' & _ & Hm')%elem_notify.
  destruct Hab. eapply distinct_inj; [done|exact Hw|].
  by rewrite (emit_both_watcher _ _ _ _ _ Hm Hm').
Qed.

Lemma notify_pair_NoDup r a b e e' :
  watchers_distinct r → a ≠ b → NoDup (notify r a e ++ notify r b e').
Proof.
  intros Hd Hab. apply NoDup_app. split_and!; [apply notify_NoDup| |apply notify_NoDup].
  intros m. by apply notify_disjoint.
Qed.

Lemma notify_claimants_NoDup r e ds n :
  watchers_distinct r → NoDup (notify_claimants r e ds n).1.
Proof.
  intros Hd. revert n. induction ds as [|d ds IH]; intros n; [apply NoDup_nil_2|].
  rewrite notify_claimants_cons. destruct (negb _ && _); [|done].
  specialize (IH ({[d]} ∪ n)).
  pose proof (λ m, proj1 (notify_claimants_spec r e ds ({[d]} ∪ n) m)) as Hs.
  destruct (notify_claimants r e ds ({[d]} ∪ n)) as [out n']. cbn in *.
  apply NoDup_app. split_and!; [apply notify_NoDup| |done].
  intros m Hm (x & _ & Hx & Hm'%elem_notify)%Hs.
  eapply notify_disjoint; [done| |exact Hm|exact Hm']. set_solver.
Qed.

Lemma claimable_NoDup r e c : watchers_distinct r → NoDup (route_claimable_created r e c).
Proof.
  intros Hd. unfold route_claimable_created.
  pose proof (notify_claimants_NoDup r e (cl_destination <$> cc_claimants c) ∅ Hd) as Hn.
  pose proof (λ m, notify_claimants_spec r e (cl_destination <$> cc_claimants c) ∅ m) as Hs.
  destruct (notify_claimants r e _ ∅) as [out n]. cbn in *.
  case_bool_decide as Hin; [by rewrite app_nil_r|].
  apply NoDup_app. split_and!; [done| |apply notify_NoDup].
  intros m Hm Hm'. destruct (Hs m) as [H1 H2]. apply H1 in Hm as (d & Hd' & _ & Hm).
  destruct (decide (d = cc_sponsor c)) as [->|Hne].
  - destruct Hin. apply H2. right. split; [done|by eapply reached_reaches].
  - apply elem_notify in Hm. by eapply notify_disjoint in Hm.
Qed.

Lemma contract_targets_NoDup r e : watchers_distinct r → NoDup (contract_targets r e).
Proof.
  intros [_ Hd]. unfold contract_targets, mvals in *.
  induction (contractRegistry r) as [|[id [w fs]] m IH]; cbn in *; [apply NoDup_nil_2|].
  apply NoDup_cons in Hd as [Hw Hd]. destruct (_ && _); [|by apply IH].
  apply NoDup_cons. split; [|by apply IH].
  intros ([id' [w' fs']] & Hin & Hcase)%list_elem_of_omap. destruct (_ && _); simplify_eq.
  apply Hw. apply list_elem_of_fmap. exists (w, fs'). split; [done|].
  apply list_elem_of_fmap. by exists (id', (w, fs')).
Qed.

Lemma dispatch_NoDup r e : watchers_distinct r → NoDup (dispatchContractEvent r e).
Proof.
  intros Hd. unfold dispatchContractEvent. pose proof (contract_targets_NoDup r e Hd) as Ht.
  induction (contract_targets r e) as [|w ws IH]; cbn; [apply NoDup_nil_2|].
  apply NoDup_cons in Ht as [Hw Ht]. apply NoDup_app. split_and!; [apply emit_both_NoDup| |auto].
  intros m Hm (w' & Hm' & Hin)%list_elem_of_bind.
  by rewrite (emit_both_watcher _ _ _ _ _ Hm Hm') in Hw.
Qed.

(** A merge of an account into itself is announced to its watcher twice. *)
Definition self_merge (e : Event) : bool :=
  match e with
  | AccountMerge m =>
      match as_string (am_source m), as_string (am_destination m) with
      | Some a, Some b => String.eqb a b
      | _, _ => false
      end
  | _ => false
  end.

Lemma fan_out_NoDup abi r e out :
  watchers_distinct r → self_merge e = false → fan_out abi r e = inl out → NoDup out.
Proof.
  intros Hd Hm Hf.
  destruct e as [p| | |c| |m| | | |c| | | |t| | | |]; cbn in Hf; try (destruct abi); simplify_eq;
    try apply notify_NoDup; try apply NoDup_nil_2; try by apply dispatch_NoDup.
  all: unfold route_payment, route_account_created, route_account_merged, route_trust_auth,
    notify_value; cbn in Hm.
  1,2: destruct (String.eqb_spec (pay_from p) (pay_to p));
    [apply notify_NoDup|by apply notify_pair_NoDup].
  1,2: destruct (as_string (ao_source _)); [apply notify_NoDup|apply NoDup_nil_2].
  1,2: destruct (String.eqb_spec (ac_account c) (ac_funder c)); cbn;
    [rewrite app_nil_r; apply notify_NoDup|by apply notify_pair_NoDup].
  1,2: destruct (as_string (am_source m)) as [a|], (as_string (am_destination m)) as [b|];
    rewrite ?app_nil_r; try apply notify_NoDup; try apply NoDup_nil_2;
    apply notify_pair_NoDup; [done|]; intros ->; by rewrite String.eqb_refl in Hm.
  1,2: by apply claimable_NoDup.
  all: destruct (String.eqb_spec (ta_trustor t) (ta_issuer t)); cbn;
    [rewrite app_nil_r; apply notify_NoDup|by apply notify_pair_NoDup].
Qed.

(** The two guards at the head of [route]. *)
Definition duplicate (dedupe : option (string * DedupeTransport)) (r : Router) : bool :=
  match dedupe with
  | Some (key, transport) => (seenFrom key transport (dedupeWindow r)).1
  | None => false
  end.

Definition suppressed (dedupe : option (string * DedupeTransport)) (e : Event) (r : Router)
    : bool :=
  duplicate dedupe r || bool_decide (sourceOf e ∈ pausedSources r).

(** The fan-out does not read the dedupe window. *)
Lemma fan_out_dedupe abi d r e : fan_out abi (with_dedupeWindow d r) e = fan_out abi r e.
Proof.
  assert (∀ ds n, notify_claimants (with_dedupeWindow d r) e ds n = notify_claimants r e ds n)
    as Hn.
  { induction ds as [|x ds IH]; intros n; [done|]. cbn. rewrite !IH. done. }
  destruct e; try reflexivity. cbn. unfold route_claimable_created. by rewrite Hn.
Qed.

Lemma route_cases abi dd e r :
  ∃ d, (route abi dd e r).2 = with_dedupeWindow d r ∧
    (route abi dd e r).1 = if suppressed dd e r then inl [] else fan_out abi r e.
Proof.
  unfold route, suppressed, duplicate. destruct dd as [[k t]|].
  - destruct (seenFrom k t (dedupeWindow r)) as [dup d]. cbn.
    destruct dup; [by exists d|]. cbn.
    destruct (bool_decide _); exists d; (split; [done|]); [done|].
    apply fan_out_dedupe.
  - exists (dedupeWindow r). cbn. destruct (bool_decide _); (split; [done|]); [done|].
    apply fan_out_dedupe.
Qed.

(** C1: routing delivers an event to exactly the watchers it is due: the account
    watchers of its parties and the matching contract subscriptions, each when
    its own filter accepts, under the event's type and under ["*"], with a
    payment's direction seen from the account told; and to nobody when the
    event is a cross-transport duplicate or its source is paused. *)
Theorem route_delivers abi dd e r out w name e' :
  (route abi dd e r).1 = inl out →
  EmitEvent w name e' ∈ out ↔
    suppressed dd e r = false ∧ receives r e w e' ∧ (name = type_of e' ∨ name = "*").
Proof.
  destruct (route_cases abi dd e r) as (d & _ & ->). intros Hf.
  destruct (suppressed dd e r).
  { simplify_eq. set_solver. }
  rewrite (fan_out_receives _ _ _ _ _ Hf). unfold emit_both. split.
  - intros (w' & e'' & Hr & Hm). set_solver.
  - intros (_ & Hr & Hn). exists w, e'. split; [done|]. destruct Hn as [->| ->]; set_solver.
Qed.

(** no watcher is told the same thing twice by one routed event, as long as
    watchers are distinct; the one exception is an account merged into itself,
    whose two sides are looked up without a comparison. *)
Theorem route_no_duplicates abi dd e r out :
  watchers_distinct r → self_merge e = false →
  (route abi dd e r).1 = inl out → NoDup out.
Proof.
  intros Hd Hm. destruct (route_cases abi dd e r) as (d & _ & ->). intros Hf.
  destruct (suppressed dd e r); [simplify_eq; apply NoDup_nil_2|].
  by eapply fan_out_NoDup.
Qed.

(** The decoded data the subscribers of a held-back event see. *)
Definition settled_data (c : ContractEmittedEvent Semantic) (outcome : lookup_outcome) : jsval :=
  match outcome with
  | SpecFound spec => match decodeContractEvent spec c with inr v => v | inl _ => JUndef end
  | _ => JUndef
  end.

(** a contract event held back for its ABI spec is delivered whatever the
    lookup answers: exactly the subscriptions that accept the event with its
    decoded data (or without, when it could not be decoded) get it. *)
Theorem spec_settled_delivers r c outcome w name e' :
  EmitEvent w name e' ∈ spec_settled r c outcome ↔
    e' = ContractEmitted (with_decodedData (settled_data c outcome) c) ∧
    w ∈ contract_targets r e' ∧ (name = "contract.emitted" ∨ name = "*").
Proof.
  assert (∀ v, EmitEvent w name e' ∈ dispatchContractEvent r (ContractEmitted (with_decodedData v c))
    ↔ e' = ContractEmitted (with_decodedData v c) ∧ w ∈ contract_targets r e'
      ∧ (name = "contract.emitted" ∨ name = "*")) as Hd.
  { intros v. rewrite elem_dispatch. unfold emit_both. cbn. set_solver. }
  assert (∀ c' err, EmitEvent w name e' ∉ emitDecodeFailedNotification r c' err) as Hn.
  { intros c' err (w' & [=] & _)%list_elem_of_fmap. }
  unfold spec_settled, settled_data.
  destruct outcome as [spec| |msg]; [destruct (decodeContractEvent spec c)|..];
    rewrite ?elem_of_app, Hd; naive_solver.
Qed.
End route.
Arguments EmitEvent {Semantic} w name e.
Arguments EmitUnrecognized {Semantic} w operationType record.
Arguments EmitDecodeFailed {Semantic} w contractId eventId error.
Arguments EmitNotice {Semantic} w name n.
Arguments SpecFound {Spec} spec.
Arguments SpecMissing {Spec}.
Arguments SpecRejected {Spec} message.
#[global] Arguments emit_both : simpl never.
#[global] Arguments route : simpl never.

(** ** Witnesses *)

Definition sample_payment_fields : PaymentFields :=
  {| pay_to := "GB"; pay_from := "GA"; pay_amount := "1.0000000";
    pay_asset := "XLM"; pay_timestamp := "2026-01-01T00:00:00Z";
    pay_identity := {| id_txHash := None; id_ledger := None; id_memo := None |};
    pay_raw := JUndef |}.

Definition sample_pending : Event unit := PendingPayment sample_payment_fields.

(** Two accounts watched; the sender's filter refuses sent payments. *)
Definition sample_router : Router (Semantic := unit) :=
  {| registry := [("GA", 1); ("GB", 2)]; contractRegistry := [];
     filters := [("GA", λ e, Ok (negb (String.eqb (type_of e) "payment.sent")))];
     subscriptionNames := []; pausedSources := ∅;
     dedupeWindow := {| capacity := 4; seen := [] |} |}.

Lemma route_delivers_witness :
  (∃ out, (route false (Some ("h:1", horizon)) sample_pending sample_router).1 = inl out ∧
     EmitEvent 2 "payment.received" (Payment payment_received sample_payment_fields) ∈ out) ∧
  (∀ out e' name, (route false (Some ("h:1", horizon)) sample_pending sample_router).1 = inl out →
     EmitEvent 1 name e' ∉ out).
Proof.
  split.
  - eexists. split; [reflexivity|].
    apply (route_delivers false (Some ("h:1", horizon)) sample_pending sample_router);
      [reflexivity|].
    split; [reflexivity|]. split; [|left; reflexivity].
    eapply (receives_party _ _ _ "GB"); [apply list_elem_of_here|reflexivity|reflexivity].
  - intros out e' name Ho. rewrite (route_delivers _ _ _ _ _ _ _ _ Ho).
    intros (_ & Hr & _). inversion Hr as [a e1 Hin Hw Hp|? ? ? Hin]; [|inversion Hin].
    cbn in Hin. apply elem_of_cons in Hin as [[= -> ->]|Hin]; [discriminate Hw|].
    apply list_elem_of_singleton in Hin as [= -> ->]. discriminate Hp.
Defined.

Lemma route_no_duplicates_witness :
  ∃ out, (route false None sample_pending sample_router).1 = inl out ∧ NoDup out.
Proof.
  eexists. split; [reflexivity|].
  apply (route_no_duplicates false None sample_pending sample_router); try reflexivity.
  split; cbn; [|apply NoDup_nil_2].
  apply NoDup_cons. split; [set_solver|apply NoDup_singleton].
Defined.
