(* ===== verification/Subscriptions.v ===== *)
(** * Shared subscriptions and their reference counts
    (packages/pulse-core/src/EventEngine.ts, [subscribe] ... [unsubscribeAllContracts];
     Watcher.ts, [stop])

    A watcher is shared by the callers that ask for the same address, contract
    id or filter shape, and is stopped by the last of them.  A live watcher is
    one whose stop handler is still registered.  Log lines are left out; the
    multi-network engine, which forwards every call to one engine per network,
    is not modelled. *)

From S2P Require Import Prelude.
From S2P Require Import JsMap.
From S2P Require Import JsValue.
From S2P Require Import EventTypes.
From S2P Require Import Dedupe.
From S2P Require Import Route.

(** The three registries key their reference counts independently. *)
Definition refKey_address (address : string) : string := "addr:" +:+ address.
Definition refKey_contract (id : string) : string := "contract:" +:+ id.
Definition refKey_config (filterKey : string) : string := "config:" +:+ filterKey.

(** What stopping a watcher cleans up: the closure its subscription registered
    with [addStopHandler]. *)
Inductive StopHandler :=
  | StopAddress (address : string)
  | StopContract (id : string)
  | StopConfig (filterKey : string).

#[export] Instance StopHandler_eq_dec : EqDecision StopHandler.
Proof. solve_decision. Defined.

Definition refKey (h : StopHandler) : string :=
  match h with
  | StopAddress a => refKey_address a
  | StopContract id => refKey_contract id
  | StopConfig k => refKey_config k
  end.

Section subscriptions.
Context {Semantic : Type}.
Notation Router := (Router (Semantic := Semantic)).
Notation EventFilter := (EventFilter (Semantic := Semantic)).

Record SubscribeOptions := {
  opt_filter : option EventFilter;
  opt_name : option string;
  opt_filters : list ContractSubscriptionFilter;
}.

Record Subscriptions := {
  router : Router;
  contractConfigRegistry : jsmap string WatcherId;
  refCounts : jsmap string nat;
  stopHandlers : gmap WatcherId StopHandler;
  nextWatcher : WatcherId;
  isRunning : bool;
  sorobanSubscriber : option bool;
}.

Definition with_router (f : Router → Router) (s : Subscriptions) : Subscriptions :=
  {| router := f (router s); contractConfigRegistry := contractConfigRegistry s;
     refCounts := refCounts s; stopHandlers := stopHandlers s; nextWatcher := nextWatcher s;
     isRunning := isRunning s; sorobanSubscriber := sorobanSubscriber s |}.

Definition with_configs (m : jsmap string WatcherId) (s : Subscriptions) : Subscriptions :=
  {| router := router s; contractConfigRegistry := m;
     refCounts := refCounts s; stopHandlers := stopHandlers s; nextWatcher := nextWatcher s;
     isRunning := isRunning s; sorobanSubscriber := sorobanSubscriber s |}.

Definition with_refCounts (m : jsmap string nat) (s : Subscriptions) : Subscriptions :=
  {| router := router s; contractConfigRegistry := contractConfigRegistry s;
     refCounts := m; stopHandlers := stopHandlers s; nextWatcher := nextWatcher s;
     isRunning := isRunning s; sorobanSubscriber := sorobanSubscriber s |}.

Definition with_handlers (m : gmap WatcherId StopHandler) (s : Subscriptions) : Subscriptions :=
  {| router := router s; contractConfigRegistry := contractConfigRegistry s;
     refCounts := refCounts s; stopHandlers := m; nextWatcher := nextWatcher s;
     isRunning := isRunning s; sorobanSubscriber := sorobanSubscriber s |}.

Definition with_soroban (b : option bool) (s : Subscriptions) : Subscriptions :=
  {| router := router s; contractConfigRegistry := contractConfigRegistry s;
     refCounts := refCounts s; stopHandlers := stopHandlers s; nextWatcher := nextWatcher s;
     isRunning := isRunning s; sorobanSubscriber := b |}.

(** [new Watcher(...)], its stop handler attached. *)
Definition new_watcher (h : StopHandler) (s : Subscriptions) : WatcherId * Subscriptions :=
  (nextWatcher s,
   {| router := router s; contractConfigRegistry := contractConfigRegistry s;
      refCounts := refCounts s; stopHandlers := <[nextWatcher s := h]> (stopHandlers s);
      nextWatcher := S (nextWatcher s);
      isRunning := isRunning s; sorobanSubscriber := sorobanSubscriber s |}).

Definition set_registry (m : jsmap string WatcherId) (r : Router) : Router :=
  {| registry := m; contractRegistry := contractRegistry r; filters := filters r;
     subscriptionNames := subscriptionNames r; pausedSources := pausedSources r;
     dedupeWindow := dedupeWindow r |}.

Definition set_contractRegistry (m : jsmap string (WatcherId * list ContractSubscriptionFilter))
    (r : Router) : Router :=
  {| registry := registry r; contractRegistry := m; filters := filters r;
     subscriptionNames := subscriptionNames r; pausedSources := pausedSources r;
     dedupeWindow := dedupeWindow r |}.

Definition set_labels (fs : jsmap string EventFilter) (ns : jsmap string string) (r : Router)
    : Router :=
  {| registry := registry r; contractRegistry := contractRegistry r; filters := fs;
     subscriptionNames := ns; pausedSources := pausedSources r;
     dedupeWindow := dedupeWindow r |}.

Definition retain (key : string) (s : Subscriptions) : Subscriptions :=
  with_refCounts (mset key (S (default 0 (mget key (refCounts s)))) (refCounts s)) s.

(** True when that was the last holder; an unknown key is a watcher already
    torn down. *)
Definition release (key : string) (s : Subscriptions) : bool * Subscriptions :=
  match mget key (refCounts s) with
  | None => (true, s)
  | Some count =>
      if count <=? 1 then (true, with_refCounts (mdel key (refCounts s)) s)
      else (false, with_refCounts (mset key (count - 1) (refCounts s)) s)
  end.

(** The options' filter and name, where given, under the subscription's key:
    [filters] and [subscriptionNames] are keyed by the bare address or id. *)
Definition remember_options (key : string) (o : SubscribeOptions) (r : Router) : Router :=
  set_labels
    (match opt_filter o with Some f => mset key f (filters r) | None => filters r end)
    (match opt_name o with Some n => mset key n (subscriptionNames r)
     | None => subscriptionNames r end) r.

Definition forget_options (key : string) (r : Router) : Router :=
  set_labels (mdel key (filters r)) (mdel key (subscriptionNames r)) r.

(** The last contract subscription stops the Soroban subscriber. *)
Definition stop_idle_soroban (s : Subscriptions) : Subscriptions :=
  match contractRegistry (router s), sorobanSubscriber s with
  | [], Some _ => with_soroban (Some false) s
  | _, _ => s
  end.

Definition run_stop_handler (h : StopHandler) (s : Subscriptions) : Subscriptions :=
  let s := with_refCounts (mdel (refKey h) (refCounts s)) s in
  match h with
  | StopAddress a =>
      with_router (λ r, forget_options a (set_registry (mdel a (registry r)) r)) s
  | StopContract id =>
      stop_idle_soroban (with_router (λ r,
        forget_options id (set_contractRegistry (mdel id (contractRegistry r)) r)) s)
  | StopConfig k => with_configs (mdel k (contractConfigRegistry s)) s
  end.

(** [watcher.stop()]: a stopped watcher has no handler left. *)
Definition stop (w : WatcherId) (s : Subscriptions) : Subscriptions :=
  match stopHandlers s !! w with
  | None => s
  | Some h => run_stop_handler h (with_handlers (delete w (stopHandlers s)) s)
  end.

Definition subscribe (address : string) (o : SubscribeOptions) (s : Subscriptions)
    : WatcherId * Subscriptions :=
  match mget address (registry (router s)) with
  | Some w => (w, retain (refKey_address address) s)
  | None =>
      let '(w, s1) := new_watcher (StopAddress address) s in
      (w, with_router (λ r,
            set_registry (mset address w (registry r)) (remember_options address o r))
          (retain (refKey_address address) s1))
  end.

Definition unsubscribe (address : string) (s : Subscriptions) : Subscriptions :=
  match mget address (registry (router s)) with
  | None => s
  | Some w =>
      let '(last, s') := release (refKey_address address) s in
      if last then stop w s' else s'
  end.

Definition unsubscribeAll (s : Subscriptions) : Subscriptions :=
  foldl (λ s w, stop w s) s (mvals (registry (router s))).

(** A started engine starts its Soroban subscriber for the first contract. *)
Definition start_soroban (s : Subscriptions) : Subscriptions :=
  match sorobanSubscriber s with
  | Some _ => if isRunning s then with_soroban (Some true) s else s
  | None => s
  end.

Definition subscribeContract (id : string) (o : SubscribeOptions) (s : Subscriptions)
    : WatcherId * Subscriptions :=
  match mget id (contractRegistry (router s)) with
  | Some (w, _) => (w, retain (refKey_contract id) s)
  | None =>
      let '(w, s1) := new_watcher (StopContract id) s in
      (w, start_soroban (with_router (λ r,
            set_contractRegistry (mset id (w, opt_filters o) (contractRegistry r))
              (remember_options id o r))
          (retain (refKey_contract id) s1)))
  end.

(** The overload that takes a filter shape, given its validated key. *)
Definition subscribeContractConfig (key : string) (s : Subscriptions)
    : WatcherId * Subscriptions :=
  match mget key (contractConfigRegistry s) with
  | Some w => (w, retain (refKey_config key) s)
  | None =>
      let '(w, s1) := new_watcher (StopConfig key) s in
      let s2 := retain (refKey_config key) s1 in
      (w, with_configs (mset key w (contractConfigRegistry s2)) s2)
  end.

Definition unsubscribeContract (id : string) (s : Subscriptions) : Subscriptions :=
  match mget id (contractRegistry (router s)) with
  | None => s
  | Some (w, _) =>
      let '(last, s') := release (refKey_contract id) s in
      if last then stop w s' else s'
  end.

Definition unsubscribeContractConfig (key : string) (s : Subscriptions) : Subscriptions :=
  match mget key (contractConfigRegistry s) with
  | None => s
  | Some w =>
      let '(last, s') := release (refKey_config key) s in
      if last then stop w s' else s'
  end.

Definition unsubscribeAllContracts (s : Subscriptions)
    : list (Emission (Semantic := Semantic)) * Subscriptions :=
  let r := router s in
  let s1 := foldl (λ s w, stop w s) s (mvals (contractRegistry r)).*1 in
  (((λ '(id, (w, _)), EmitNotice w (mget id (subscriptionNames r)) Stopped) <$> contractRegistry r)
   ++ ((λ w, EmitNotice w None Stopped) <$> mvals (contractConfigRegistry s1)),
   foldl (λ s w, stop w s) s1 (mvals (contractConfigRegistry s1))).

(** ** The calls of a program, one at a time *)

Inductive call :=
  | Subscribe (address : string) (o : SubscribeOptions)
  | Unsubscribe (address : string)
  | UnsubscribeAll
  | SubscribeContract (id : string) (o : SubscribeOptions)
  | UnsubscribeContract (id : string)
  | SubscribeConfig (key : string)
  | UnsubscribeConfig (key : string)
  | UnsubscribeAllContracts
  | StopWatcher (w : WatcherId).

Definition step (c : call) (s : Subscriptions) : Subscriptions :=
  match c with
  | Subscribe a o => (subscribe a o s).2
  | Unsubscribe a => unsubscribe a s
  | UnsubscribeAll => unsubscribeAll s
  | SubscribeContract id o => (subscribeContract id o s).2
  | UnsubscribeContract id => unsubscribeContract id s
  | SubscribeConfig k => (subscribeContractConfig k s).2
  | UnsubscribeConfig k => unsubscribeContractConfig k s
  | UnsubscribeAllContracts => (unsubscribeAllContracts s).2
  | StopWatcher w => stop w s
  end.

(** ** The specification: a count of holders per subscription *)

Definition is_account (h : StopHandler) : bool :=
  match h with StopAddress _ => true | _ => false end.

Definition is_contract (h : StopHandler) : bool :=
  match h with StopContract _ => true | _ => false end.

Definition is_config (h : StopHandler) : bool :=
  match h with StopConfig _ => true | _ => false end.

(** [owner w] is the subscription a live watcher belongs to. *)
Definition count_step (owner : WatcherId → option StopHandler) (c : call)
    (count : StopHandler → nat) (h : StopHandler) : nat :=
  match c with
  | Subscribe a _ => if decide (h = StopAddress a) then S (count h) else count h
  | SubscribeContract id _ => if decide (h = StopContract id) then S (count h) else count h
  | SubscribeConfig k => if decide (h = StopConfig k) then S (count h) else count h
  | Unsubscribe a => if decide (h = StopAddress a) then pred (count h) else count h
  | UnsubscribeContract id => if decide (h = StopContract id) then pred (count h) else count h
  | UnsubscribeConfig k => if decide (h = StopConfig k) then pred (count h) else count h
  | UnsubscribeAll => if is_account h then 0 else count h
  | UnsubscribeAllContracts => if is_account h then count h else 0
  | StopWatcher w => if decide (owner w = Some h) then 0 else count h
  end.

(** ** The state seen through a subscription *)

Definition lookup_sub (h : StopHandler) (s : Subscriptions) : option WatcherId :=
  match h with
  | StopAddress a => mget a (registry (router s))
  | StopContract id => fst <$> mget id (contractRegistry (router s))
  | StopConfig k => mget k (contractConfigRegistry s)
  end.

Definition holders (s : Subscriptions) (h : StopHandler) : nat :=
  default 0 (mget (refKey h) (refCounts s)).

Definition maps_wf (s : Subscriptions) : Prop :=
  mwf (registry (router s)) ∧ mwf (contractRegistry (router s)) ∧
  mwf (contractConfigRegistry s) ∧ mwf (refCounts s).

(** A registry entry and a live watcher are the same thing. *)
Record subs_linked (s : Subscriptions) : Prop := {
  wf_maps : maps_wf s;
  wf_live : ∀ h w, lookup_sub h s = Some w ↔ stopHandlers s !! w = Some h;
  wf_fresh : ∀ w h, stopHandlers s !! w = Some h → w < nextWatcher s;
}.

(** A subscription is registered exactly while somebody holds it. *)
Definition subs_wf (s : Subscriptions) : Prop :=
  subs_linked s ∧ ∀ h, 0 < holders s h ↔ is_Some (lookup_sub h s).

Lemma refKey_inj h h' : refKey h = refKey h' → h = h'.
Proof. by destruct h, h'; cbn; intros [=]; subst. Qed.

Lemma holders_with_counts s h h' n :
  default 0 (mget (refKey h') (mset (refKey h) n (refCounts s)))
    = if decide (h' = h) then n else holders s h'.
Proof.
  rewrite mget_mset. destruct (decide (h' = h)) as [->|Hne].
  - by rewrite decide_True.
  - rewrite decide_False; [done|]. intros He%refKey_inj. by destruct Hne.
Qed.

Lemma holders_mdel s h h' :
  mwf (refCounts s) →
  default 0 (mget (refKey h') (mdel (refKey h) (refCounts s)))
    = if decide (h' = h) then 0 else holders s h'.
Proof.
  intros Hm. destruct (decide (h' = h)) as [->|Hne].
  - by rewrite mget_mdel_eq.
  - rewrite mget_mdel_ne; [done|]. intros He%refKey_inj. by destruct Hne.
Qed.

Lemma stop_idle_frame s : ∃ b, stop_idle_soroban s = with_soroban b s.
Proof.
  unfold stop_idle_soroban.
  destruct (contractRegistry (router s)), (sorobanSubscriber s) eqn:E; eauto;
    exists (sorobanSubscriber s); by destruct s.
Qed.

Section handler.
Context (s : Subscriptions) (Hs : maps_wf s) (h : StopHandler).

Lemma run_stop_lookup h' :
  lookup_sub h' (run_stop_handler h s) = if decide (h' = h) then None else lookup_sub h' s.
Proof.
  destruct Hs as (?&?&?&?). destruct (decide (h' = h)) as [->|Hne].
  - destruct h as [a|id|k]; cbn;
      try (edestruct stop_idle_frame as [b ->]; cbn); by rewrite mget_mdel_eq.
  - destruct h as [a|id|k]; cbn;
      try (edestruct stop_idle_frame as [b ->]); destruct h'; cbn; try done;
      rewrite mget_mdel_ne; congruence.
Qed.

Lemma run_stop_holders h' :
  holders (run_stop_handler h s) h' = if decide (h' = h) then 0 else holders s h'.
Proof.
  destruct Hs as (?&?&?&?). rewrite <-holders_mdel by done.
  destruct h; cbn; try (edestruct stop_idle_frame as [b ->]); done.
Qed.

Lemma run_stop_frame :
  stopHandlers (run_stop_handler h s) = stopHandlers s ∧
  nextWatcher (run_stop_handler h s) = nextWatcher s ∧
  maps_wf (run_stop_handler h s).
Proof.
  destruct Hs as (?&?&?&?). unfold maps_wf.
  destruct h; cbn; try (edestruct stop_idle_frame as [b ->]); cbn;
    split_and!; auto using mwf_mdel.
Qed.
End handler.

(** ** Stopping a watcher *)

Lemma stop_linked w s : subs_linked s → subs_linked (stop w s).
Proof.
  intros [Hm Hl Hf]. unfold stop. destruct (stopHandlers s !! w) as [h|] eqn:Hw; [|done].
  destruct (run_stop_frame (with_handlers (delete w (stopHandlers s)) s) Hm h) as (Hh & Hn & Hm').
  constructor; [done|..].
  - intros h' w'. rewrite Hh, run_stop_lookup by done. cbn. case_decide as He; subst.
    + split; [done|]. rewrite lookup_delete_Some. intros [Hne Hw']. destruct Hne.
      apply Hl in Hw, Hw'. congruence.
    + rewrite lookup_delete_Some, <-Hl. split; [|naive_solver]. intros Hw'.
      split; [|done]. intros ->. apply Hl in Hw'. congruence.
  - intros w' h'. rewrite Hh, Hn. cbn. intros [_ ?]%lookup_delete_Some. by eapply Hf.
Qed.

Lemma stop_lookup w s h : subs_linked s →
  lookup_sub h (stop w s) = if decide (stopHandlers s !! w = Some h) then None else lookup_sub h s.
Proof.
  intros [Hm _ _]. unfold stop. destruct (stopHandlers s !! w) as [h'|] eqn:Hw.
  - rewrite run_stop_lookup by done. by repeat case_decide; simplify_eq.
  - by rewrite decide_False.
Qed.

Lemma stop_holders w s h : subs_linked s →
  holders (stop w s) h = if decide (stopHandlers s !! w = Some h) then 0 else holders s h.
Proof.
  intros [Hm _ _]. unfold stop. destruct (stopHandlers s !! w) as [h'|] eqn:Hw.
  - rewrite run_stop_holders by done. by repeat case_decide; simplify_eq.
  - by rewrite decide_False.
Qed.

Lemma stop_handlers w s : subs_linked s → stopHandlers (stop w s) = delete w (stopHandlers s).
Proof.
  intros [Hm _ _]. unfold stop. destruct (stopHandlers s !! w) as [h'|] eqn:Hw.
  - by destruct (run_stop_frame (with_handlers (delete w (stopHandlers s)) s) Hm h') as (-> & _).
  - by rewrite delete_id.
Qed.

Lemma stop_wf w s : subs_wf s → subs_wf (stop w s).
Proof.
  intros [Hl Hh]. split; [by apply stop_linked|]. intros h.
  rewrite stop_holders, stop_lookup by done. case_decide; [|done].
  split; [lia|]. by intros [].
Qed.

(** ** Taking and releasing a share *)

Lemma retain_holders h s h' :
  holders (retain (refKey h) s) h' = if decide (h' = h) then S (holders s h) else holders s h'.
Proof. apply holders_with_counts. Qed.

Lemma retain_wf h s :
  subs_wf s → is_Some (lookup_sub h s) → subs_wf (retain (refKey h) s).
Proof.
  intros [[(?&?&?&?) Hl Hf] Hh] Hs. split.
  - constructor; [|intros h' w'; rewrite <-Hl; by destruct h'|done]. split_and!; cbn; auto using mwf_mset.
  - intros h'. rewrite retain_holders.
    assert (lookup_sub h' (retain (refKey h) s) = lookup_sub h' s) as -> by by destruct h'.
    case_decide; [|done]. subst. split; [done|lia].
Qed.

(** What a first subscription leaves behind. *)
Lemma register_wf h s s' :
  subs_wf s → lookup_sub h s = None → maps_wf s' →
  (∀ h', lookup_sub h' s' = if decide (h' = h) then Some (nextWatcher s) else lookup_sub h' s) →
  (∀ h', holders s' h' = if decide (h' = h) then S (holders s h) else holders s h') →
  stopHandlers s' = <[nextWatcher s := h]> (stopHandlers s) →
  nextWatcher s' = S (nextWatcher s) →
  subs_wf s'.
Proof.
  intros [[_ Hl Hf] Hh] Hnone Hm Hlook Hhold Hst Hn. split; [constructor; [done|..]|].
  - intros h' w. rewrite Hlook, Hst, lookup_insert_Some. case_decide as He; subst.
    + split; [naive_solver|]. intros [[-> _]|[_ Hw]]; [done|]. apply Hl in Hw. congruence.
    + rewrite Hl. split; [|naive_solver]. intros Hw. right. split; [|done].
      intros <-. apply Hf in Hw. lia.
  - intros w h'. rewrite Hst, Hn, lookup_insert_Some. intros [[-> _]|[_ Hw%Hf]]; lia.
  - intros h'. rewrite Hhold, Hlook. case_decide; [|done]. split; [done|lia].
Qed.

(** One holder gives the subscription up: the shape of the three [unsubscribe]s. *)
Definition let_go (h : StopHandler) (s : Subscriptions) : Subscriptions :=
  match lookup_sub h s with
  | None => s
  | Some w => let '(last, s') := release (refKey h) s in if last then stop w s' else s'
  end.

Lemma unsubscribe_let_go a s : unsubscribe a s = let_go (StopAddress a) s.
Proof. done. Qed.

Lemma unsubscribeContract_let_go id s : unsubscribeContract id s = let_go (StopContract id) s.
Proof. unfold unsubscribeContract, let_go. cbn. by destruct (mget id _) as [[w fs]|]. Qed.

Lemma unsubscribeContractConfig_let_go k s :
  unsubscribeContractConfig k s = let_go (StopConfig k) s.
Proof. done. Qed.

Lemma let_go_spec h s : subs_wf s →
  subs_wf (let_go h s) ∧
  (∀ h', holders (let_go h s) h' = if decide (h' = h) then pred (holders s h') else holders s h') ∧
  (∀ h', 0 < holders (let_go h s) h' → lookup_sub h' (let_go h s) = lookup_sub h' s).
Proof.
  intros Hs. pose proof Hs as [[Hm Hl Hf] Hh]. unfold let_go.
  destruct (lookup_sub h s) as [w|] eqn:Hw.
  2: { split_and!; [done| |done]. intros h'. case_decide; [|done]. subst.
       assert (¬ 0 < holders s h) by (rewrite Hh, Hw; by intros []). lia. }
  assert (0 < holders s h) as Hpos by (apply Hh; eauto).
  assert (stopHandlers s !! w = Some h) as Hhw by by apply Hl.
  unfold release. unfold holders in Hpos. destruct (mget (refKey h) (refCounts s)) as [c|] eqn:Hc;
    cbn in Hpos; [|lia]. destruct (Nat.leb_spec c 1).
  - set (s1 := with_refCounts (mdel (refKey h) (refCounts s)) s).
    assert (subs_linked s1) as Hl1.
    { destruct Hm as (?&?&?&?). constructor; [|intros h' w'; etrans; [|apply (Hl h' w')]; by destruct h'|done].
      split_and!; cbn; auto using mwf_mdel. }
    assert (∀ h', holders s1 h' = if decide (h' = h) then 0 else holders s h') as Hh1.
    { intros h'. apply holders_mdel. apply Hm. }
    assert (∀ h', lookup_sub h' s1 = lookup_sub h' s) as Hk1 by by intros [].
    assert (stopHandlers s1 !! w = Some h) as Hhw1 by done.
    assert (∀ h', holders (stop w s1) h' = if decide (h' = h) then 0 else holders s h') as Hst.
    { intros h'. rewrite stop_holders, Hhw1, Hh1 by done. by repeat case_decide; simplify_eq. }
    assert (∀ h', lookup_sub h' (stop w s1) = if decide (h' = h) then None else lookup_sub h' s)
      as Hlk.
    { intros h'. rewrite stop_lookup, Hhw1, Hk1 by done. by repeat case_decide; simplify_eq. }
    split_and!; [split; [by apply stop_linked|]|..]; intros h'; rewrite Hst, ?Hlk;
      case_decide; try done; subst.
    + split; [lia|by intros []].
    + unfold holders. rewrite Hc. cbn. lia.
    + lia.
  - set (s1 := with_refCounts _ s).
    assert (∀ h', holders s1 h' = if decide (h' = h) then c - 1 else holders s h') as Hh1
      by (intros; apply holders_with_counts).
    assert (∀ h', lookup_sub h' s1 = lookup_sub h' s) as Hk1 by by intros [].
    split_and!; [split|..]; try (intros h'; rewrite ?Hh1, ?Hk1).
    + destruct Hm as (?&?&?&?). constructor; [|intros h' w'; etrans; [|apply (Hl h' w')]; by destruct h'|done].
      split_and!; cbn; auto using mwf_mset.
    + case_decide; [|done]. subst. rewrite Hw. split; [done|lia].
    + case_decide; [|done]. subst. unfold holders. rewrite Hc. cbn. lia.
    + done.
Qed.

Lemma stop_all_spec ws s : subs_wf s →
  subs_wf (foldl (λ s w, stop w s) s ws) ∧
  (∀ h, holders (foldl (λ s w, stop w s) s ws) h =
     if decide (Exists (λ w, stopHandlers s !! w = Some h) ws) then 0 else holders s h) ∧
  (∀ h, 0 < holders (foldl (λ s w, stop w s) s ws) h →
     lookup_sub h (foldl (λ s w, stop w s) s ws) = lookup_sub h s).
Proof.
  revert s. induction ws as [|w ws IH]; intros s Hs; cbn.
  - split_and!; [done| |done]. intros h. rewrite decide_False; [done|]. by intros ?%Exists_nil.
  - pose proof Hs as [Hl _]. destruct (IH (stop w s) (stop_wf _ _ Hs)) as (H1 & H2 & H3).
    split_and!; [done|..]; intros h.
    + rewrite H2, stop_handlers, stop_holders by done. clear H1 H2 H3 IH.
      destruct (decide (stopHandlers s !! w = Some h)) as [Hw|Hw].
      * rewrite (decide_True (P := Exists _ (w :: ws))) by by left. by case_decide.
      * apply decide_ext. rewrite Exists_cons. rewrite !Exists_exists.
        setoid_rewrite lookup_delete_Some. split; [naive_solver|].
        intros [?|(x & Hx & Hxh)]; [done|]. exists x. split_and!; [done| |done]. congruence.
    + intros Hpos. rewrite H3 by done. rewrite stop_lookup by done.
      rewrite H2, stop_holders in Hpos by done. by repeat case_decide; try lia.
Qed.

(** Joining subscription [h]: one more share of the live watcher, or a first
    watcher registered with one share. *)
Definition joined (h : StopHandler) (s s' : Subscriptions) : Prop :=
  match lookup_sub h s with
  | Some _ => s' = retain (refKey h) s
  | None =>
      maps_wf s' ∧ refCounts s' = refCounts (retain (refKey h) s) ∧
      (∀ h', lookup_sub h' s' = if decide (h' = h) then Some (nextWatcher s) else lookup_sub h' s) ∧
      stopHandlers s' = <[nextWatcher s := h]> (stopHandlers s) ∧
      nextWatcher s' = S (nextWatcher s)
  end.

Lemma joined_spec h s s' : subs_wf s → joined h s s' →
  subs_wf s' ∧
  (∀ h', holders s' h' = if decide (h' = h) then S (holders s h') else holders s h') ∧
  (∀ h', is_Some (lookup_sub h' s) → lookup_sub h' s' = lookup_sub h' s).
Proof.
  intros Hs. unfold joined. destruct (lookup_sub h s) as [w|] eqn:Hw.
  - intros ->. split_and!; [apply retain_wf; eauto| |by intros []].
    intros h'. rewrite retain_holders. by case_decide; subst.
  - intros (Hm & Hc & Hk & Hst & Hn).
    assert (∀ h', holders s' h' = holders (retain (refKey h) s) h') as Hh
      by (intros h'; unfold holders; by rewrite Hc).
    split_and!.
    + eapply register_wf; [exact Hs|done..| |done|done].
      intros h'. by rewrite Hh, retain_holders.
    + intros h'. rewrite Hh, retain_holders. by case_decide; subst.
    + intros h' Hsome. rewrite Hk. case_decide; [|done]. subst. rewrite Hw in Hsome.
      by destruct Hsome.
Qed.

Lemma subscribe_joined a o s : subs_wf s → joined (StopAddress a) s (subscribe a o s).2.
Proof.
  intros [[(?&?&?&?) _ _] _]. unfold joined, subscribe. cbn [lookup_sub].
  destruct (mget a (registry (router s))); [done|].
  split_and!; [split_and!; cbn; auto using mwf_mset|done| |done..].
  intros [b| |]; cbn; [|done..]. rewrite mget_mset. by repeat case_decide; simplify_eq.
Qed.

Lemma start_soroban_frame s : ∃ b, start_soroban s = with_soroban b s.
Proof.
  unfold start_soroban. destruct (sorobanSubscriber s) eqn:E, (isRunning s); eauto;
    exists (sorobanSubscriber s); by destruct s.
Qed.

Lemma subscribeContract_joined id o s :
  subs_wf s → joined (StopContract id) s (subscribeContract id o s).2.
Proof.
  intros [[(?&?&?&?) _ _] _]. unfold joined, subscribeContract. cbn [lookup_sub].
  destruct (mget id (contractRegistry (router s))) as [[w fs]|]; [done|]. cbn [fmap option_fmap].
  cbn -[start_soroban]. edestruct start_soroban_frame as [b ->].
  split_and!; [split_and!; cbn; auto using mwf_mset|done| |done..].
  intros [|b'|]; cbn; [done| |done]. rewrite mget_mset. by repeat case_decide; simplify_eq.
Qed.

Lemma subscribeConfig_joined k s :
  subs_wf s → joined (StopConfig k) s (subscribeContractConfig k s).2.
Proof.
  intros [[(?&?&?&?) _ _] _]. unfold joined, subscribeContractConfig. cbn [lookup_sub].
  destruct (mget k (contractConfigRegistry s)); [done|].
  split_and!; [split_and!; cbn; auto using mwf_mset|done| |done..].
  intros [| |b]; cbn; [done..|]. rewrite mget_mset. by repeat case_decide; simplify_eq.
Qed.

(** The owner of every live watcher of a registry. *)
Lemma account_watchers s h : subs_wf s →
  Exists (λ w, stopHandlers s !! w = Some h) (mvals (registry (router s))) ↔
  is_account h = true ∧ is_Some (lookup_sub h s).
Proof.
  intros [[(Hm & _) Hl _] _]. rewrite Exists_exists. unfold mvals. split.
  - intros (w & ([a w'] & -> & Hin)%list_elem_of_fmap & Hw). cbn in Hw.
    apply (elem_of_mget _ _ _ Hm) in Hin.
    assert (stopHandlers s !! w' = Some (StopAddress a)) as Hw' by by apply Hl.
    rewrite Hw' in Hw. simplify_eq. split; [done|by eexists].
  - destruct h as [a| |]; intros [? [w Hw]]; try done. exists w. split.
    + apply list_elem_of_fmap. exists (a, w). split; [done|by apply mget_Some_elem].
    + by apply Hl.
Qed.

Lemma contract_watchers s h : subs_wf s →
  Exists (λ w, stopHandlers s !! w = Some h) (mvals (contractRegistry (router s))).*1 ↔
  is_contract h = true ∧ is_Some (lookup_sub h s).
Proof.
  intros [[(_ & Hm & _) Hl _] _]. rewrite Exists_exists. unfold mvals. split.
  - intros (w & ([w0 fs] & -> & ([id x] & Hx & Hin)%list_elem_of_fmap)%list_elem_of_fmap & Hw).
    cbn in *. subst x. apply (elem_of_mget _ _ _ Hm) in Hin.
    assert (stopHandlers s !! w0 = Some (StopContract id)) as Hw' by (apply Hl; cbn; by rewrite Hin).
    rewrite Hw' in Hw. simplify_eq. split; [done|]. cbn. rewrite Hin. by eexists.
  - destruct h as [|id|]; intros [? [w Hw]]; try done. exists w. split; [|by apply Hl]. cbn in Hw.
    destruct (mget id (contractRegistry (router s))) as [[w0 fs]|] eqn:E; cbn in Hw; simplify_eq.
    apply list_elem_of_fmap. exists (w, fs). split; [done|].
    apply list_elem_of_fmap. exists (id, (w, fs)). split; [done|by apply mget_Some_elem].
Qed.

Lemma config_watchers s h : subs_wf s →
  Exists (λ w, stopHandlers s !! w = Some h) (mvals (contractConfigRegistry s)) ↔
  is_config h = true ∧ is_Some (lookup_sub h s).
Proof.
  intros [[(_ & _ & Hm & _) Hl _] _]. rewrite Exists_exists. unfold mvals. split.
  - intros (w & ([k w'] & -> & Hin)%list_elem_of_fmap & Hw). cbn in Hw.
    apply (elem_of_mget _ _ _ Hm) in Hin.
    assert (stopHandlers s !! w' = Some (StopConfig k)) as Hw' by by apply Hl.
    rewrite Hw' in Hw. simplify_eq. split; [done|by eexists].
  - destruct h as [| |k]; intros [? [w Hw]]; try done. exists w. split; [|by apply Hl].
    apply list_elem_of_fmap. exists (k, w). split; [done|by apply mget_Some_elem].
Qed.

Lemma not_held s h : subs_wf s → ¬ is_Some (lookup_sub h s) → holders s h = 0.
Proof. intros [_ Hh] Hn. destruct (holders s h) eqn:E; [done|]. destruct Hn. apply Hh. lia. Qed.

(** Every call keeps the state well formed, counts as specified, and leaves the
    watcher of a subscription that is still held in place. *)
Lemma step_spec c s : subs_wf s →
  subs_wf (step c s) ∧
  (∀ h, holders (step c s) h = count_step (λ w, stopHandlers s !! w) c (holders s) h) ∧
  (∀ h, is_Some (lookup_sub h s) → 0 < holders (step c s) h →
     lookup_sub h (step c s) = lookup_sub h s).
Proof.
  intros Hs. destruct c; cbn [step count_step];
    rewrite ?unsubscribe_let_go, ?unsubscribeContract_let_go, ?unsubscribeContractConfig_let_go.
  1: destruct (joined_spec _ _ _ Hs (subscribe_joined address o s Hs)) as (?&?&?); auto.
  1: destruct (let_go_spec (StopAddress address) s Hs) as (?&?&?); auto.
  2: destruct (joined_spec _ _ _ Hs (subscribeContract_joined id o s Hs)) as (?&?&?); auto.
  2: destruct (let_go_spec (StopContract id) s Hs) as (?&?&?); auto.
  2: destruct (joined_spec _ _ _ Hs (subscribeConfig_joined key s Hs)) as (?&?&?); auto.
  2: destruct (let_go_spec (StopConfig key) s Hs) as (?&?&?); auto.
  - destruct (stop_all_spec (mvals (registry (router s))) s Hs) as (H1 & H2 & H3).
    unfold unsubscribeAll. split_and!; [done| |auto]. intros h. rewrite H2.
    rewrite (decide_ext _ _ _ _ (account_watchers s h Hs)). case_decide as Hd.
    + destruct Hd as [-> _]. done.
    + destruct (is_account h) eqn:E; [|done]. apply not_held; [done|]. by intros ?; destruct Hd.
  - unfold unsubscribeAllContracts. cbn [snd].
    destruct (stop_all_spec (mvals (contractRegistry (router s))).*1 s Hs) as (H1 & H2 & H3).
    set (s1 := foldl _ s _) in *.
    destruct (stop_all_spec (mvals (contractConfigRegistry s1)) s1 H1) as (H4 & H5 & H6).
    split_and!; [done| |].
    + intros h. rewrite H5, (decide_ext _ _ _ _ (config_watchers s1 h H1)). case_decide as Hd.
      * by destruct h, Hd.
      * destruct h as [a|id|k]; cbn [is_account].
        -- rewrite H2, (decide_ext _ _ _ _ (contract_watchers s _ Hs)), decide_False; [done|].
           by intros [? _].
        -- rewrite H2, (decide_ext _ _ _ _ (contract_watchers s _ Hs)). case_decide as Hc; [done|].
           apply not_held; [done|]. intros ?. destruct Hc. eauto.
        -- apply not_held; [done|]. intros ?. destruct Hd. eauto.
    + intros h _ Hpos. rewrite H6 by done. apply H3.
      rewrite H5 in Hpos. by case_decide; [lia|].
  - split_and!; [by apply stop_wf|..]; intros h; destruct Hs as [Hl _].
    + by rewrite stop_holders.
    + intros _ Hpos. rewrite stop_holders in Hpos by done. rewrite stop_lookup by done.
      by case_decide; [lia|].
Qed.

(** ** Runs of the engine *)

(** A new engine, with or without a Soroban subscriber. *)
Definition initial (hasSoroban : bool) (d : DedupeWindow) : Subscriptions :=
  {| router := {| registry := []; contractRegistry := []; filters := [];
                  subscriptionNames := []; pausedSources := ∅; dedupeWindow := d |};
     contractConfigRegistry := []; refCounts := []; stopHandlers := ∅; nextWatcher := 0;
     isRunning := false; sorobanSubscriber := if hasSoroban then Some false else None |}.

Fixpoint run (cs : list call) (s : Subscriptions) : Subscriptions :=
  match cs with [] => s | c :: cs' => run cs' (step c s) end.

Fixpoint count_run (cs : list call) (s : Subscriptions) (count : StopHandler → nat)
    : StopHandler → nat :=
  match cs with
  | [] => count
  | c :: cs' => count_run cs' (step c s) (count_step (λ w, stopHandlers s !! w) c count)
  end.

Lemma initial_wf hs d : subs_wf (initial hs d).
Proof.
  split; [constructor|].
  - split_and!; apply mwf_nil.
  - intros h w. cbn. rewrite lookup_empty. by destruct h.
  - intros w h. cbn. by rewrite lookup_empty.
  - intros h. split; [cbn; lia|]. destruct h; by intros [].
Qed.

Lemma count_step_ext o c f g h :
  (∀ h, f h = g h) → count_step o c f h = count_step o c g h.
Proof. intros Hfg. destruct c; cbn; by rewrite Hfg. Qed.

(** A call that starts a subscription ends no other. *)
Lemma count_step_one_way o c count h' h :
  count h' = 0 → 0 < count_step o c count h' → 0 < count h → h' ≠ h →
  0 < count_step o c count h.
Proof.
  intros H0 Hp Hc Hne. destruct c; cbn in *; repeat case_match; simplify_eq; lia.
Qed.

Lemma run_spec cs s count : subs_wf s → (∀ h, holders s h = count h) →
  subs_wf (run cs s) ∧ ∀ h, holders (run cs s) h = count_run cs s count h.
Proof.
  revert s count. induction cs as [|c cs IH]; intros s count Hs Hc; cbn; [done|].
  destruct (step_spec c s Hs) as (H1 & H2 & _). apply IH; [done|].
  intros h. rewrite H2. by apply count_step_ext.
Qed.

Lemma subs_watchers_distinct s : subs_wf s → watchers_distinct (router s).
Proof.
  intros [[(Hr & Hc & _) Hl _] _]. split.
  - unfold mvals. apply NoDup_fmap_2_strong; [|by eapply NoDup_fmap_1].
    intros [a w] [b w'] Ha%elem_of_mget Hb%elem_of_mget ?; [|done..]. cbn in *. subst w'.
    assert (StopAddress a = StopAddress b) as [= ->]; [|done].
    apply (Hl (StopAddress a)) in Ha. apply (Hl (StopAddress b)) in Hb. congruence.
  - unfold mvals. rewrite <-list_fmap_compose.
    apply NoDup_fmap_2_strong; [|by eapply NoDup_fmap_1].
    intros [a [w fa]] [b [w' fb]] Ha%elem_of_mget Hb%elem_of_mget ?; [|done..]. cbn in *. subst w'.
    assert (StopContract a = StopContract b) as [= ->]; [|congruence].
    assert (stopHandlers s !! w = Some (StopContract a)) as Ha' by (apply Hl; cbn; by rewrite Ha).
    assert (stopHandlers s !! w = Some (StopContract b)) as Hb' by (apply Hl; cbn; by rewrite Hb).
    congruence.
Qed.

(** C5: reference counting is right.  After any sequence of subscribe,
    unsubscribe and stop calls, each subscription is registered exactly while
    its count of holders is positive, the counts kept by the engine are those
    of the specification, and no two subscriptions of a kind share a watcher. *)
Theorem subscriptions_counted cs hs d h :
  let s := run cs (initial hs d) in
  let count := count_run cs (initial hs d) (λ _, 0) in
  holders s h = count h ∧ (is_Some (lookup_sub h s) ↔ 0 < count h)
  ∧ watchers_distinct (router s).
Proof.
  destruct (run_spec cs (initial hs d) (λ _, 0) (initial_wf hs d)) as [Hw Hh].
  { by destruct h. }
  cbn. rewrite <-Hh. split_and!; [done| |by apply subs_watchers_distinct].
  symmetry. apply Hw.
Qed.

(** the lifetime of a shared watcher.  A call that leaves the subscription
    held keeps the very same watcher registered; the call that gives up the
    last share takes it out of the registry and stops it. *)
Theorem watcher_lifetime cs hs d c h w :
  let s := run cs (initial hs d) in
  lookup_sub h s = Some w →
  if decide (count_step (λ w, stopHandlers s !! w) c (holders s) h = 0) then
    lookup_sub h (step c s) = None ∧ ∀ h', lookup_sub h' (step c s) ≠ Some w
  else lookup_sub h (step c s) = Some w.
Proof.
  intros s Hw.
  assert (subs_wf s) as Hs by (by eapply run_spec; [apply initial_wf|]).
  destruct (step_spec c s Hs) as (H1 & H2 & H3). case_decide as Hd.
  - assert (lookup_sub h (step c s) = None) as Hn.
    { apply eq_None_not_Some. intros Hsome. apply H1 in Hsome. rewrite H2 in Hsome. lia. }
    split; [done|]. intros h' Hw'. destruct (decide (h' = h)) as [->|Hne]; [congruence|].
    assert (0 < holders (step c s) h') as Hpos by (apply H1; by eexists).
    destruct (decide (is_Some (lookup_sub h' s))) as [Hs'|Hs'].
    + rewrite H3 in Hw' by done. apply (wf_live s (proj1 Hs)) in Hw, Hw'. congruence.
    + assert (0 < count_step (λ w, stopHandlers s !! w) c (holders s) h); [|lia].
      eapply (count_step_one_way _ _ _ h'); [by apply not_held|by rewrite <-H2| |done].
      apply Hs. by eexists.
  - rewrite H3; [done|by eexists|]. rewrite H2. lia.
Qed.

(** a watcher made by [subscribeContract] from a filter shape is never
    routed an event: only [contractConfigRegistry] holds it, and routing reads
    the other two registries. *)
Theorem config_watcher_unrouted cs hs d k w abi dd e out name e' :
  let s := run cs (initial hs d) in
  lookup_sub (StopConfig k) s = Some w →
  (route abi dd e (router s)).1 = inl out → EmitEvent w name e' ∉ out.
Proof.
  intros s Hw.
  assert (subs_wf s) as [[(_ & Hc & _) Hl _] _] by (by eapply run_spec; [apply initial_wf|]).
  apply Hl in Hw.
  destruct (route_cases abi dd e (router s)) as (d' & _ & ->). destruct (suppressed _ _ _).
  { intros [= <-]. set_solver. }
  intros Hf Hm. apply (fan_out_receives _ _ _ _ _ Hf) in Hm as (w' & e'' & Hr & Hm).
  assert (w' = w) as -> by (unfold emit_both in Hm; set_solver).
  destruct Hr as [a e'' _ Ha _|id fs _ Hin _ _].
  - apply (Hl (StopAddress a)) in Ha. congruence.
  - apply (elem_of_mget _ _ _ Hc) in Hin.
    assert (stopHandlers s !! w = Some (StopContract id)); [|congruence].
    apply Hl. cbn. by rewrite Hin.
Qed.
End subscriptions.

(** ** Witnesses *)

Definition no_options : SubscribeOptions (Semantic := unit) :=
  {| opt_filter := None; opt_name := None; opt_filters := [] |}.

Definition small_window : DedupeWindow := {| capacity := 4; seen := [] |}.

Lemma watcher_lifetime_witness :
  let s := run [Subscribe "GA" no_options; Subscribe "GA" no_options] (initial false small_window) in
  lookup_sub (StopAddress "GA") s = Some 0 ∧
  lookup_sub (StopAddress "GA") (step (Unsubscribe "GA") s) = Some 0.
Proof.
  split; [reflexivity|].
  apply (watcher_lifetime [Subscribe "GA" no_options; Subscribe "GA" no_options] false
    small_window (Unsubscribe "GA") (StopAddress "GA") 0).
  reflexivity.
Defined.

Definition sample_emitted : Event unit :=
  ContractEmitted {| ce_contractId := "CA"; ce_topics := []; ce_data := JNull;
    ce_decodedData := JUndef; ce_semantic := None; ce_ledger := None; ce_eventId := None;
    ce_txHash := None; ce_inSuccessfulContractCall := true; ce_timestamp := "t";
    ce_raw := JUndef |}.

Lemma config_watcher_unrouted_witness :
  let s := run [SubscribeConfig "[{}]"; SubscribeContract "mine" no_options]
             (initial (Semantic := unit) true small_window) in
  (route false None sample_emitted (router s)).1
    = inl [EmitEvent 1 "contract.emitted" sample_emitted; EmitEvent 1 "*" sample_emitted] ∧
  EmitEvent 0 "*" sample_emitted ∉
    [EmitEvent 1 "contract.emitted" sample_emitted; EmitEvent 1 "*" sample_emitted].
Proof.
  split; [reflexivity|].
  apply (config_watcher_unrouted [SubscribeConfig "[{}]"; SubscribeContract "mine" no_options]
    true small_window "[{}]" 0 false None sample_emitted); reflexivity.
Defined.

(** The filters of account and contract subscriptions share one table, keyed by
    the bare text: giving up a contract subscription whose id is a watched
    address removes the address's filter. *)
Lemma filters_share_keys :
  let reject : EventFilter (Semantic := unit) := λ _, Ok false in
  let o := {| opt_filter := Some reject; opt_name := None; opt_filters := [] |} in
  let s := run [Subscribe "X" o; SubscribeContract "X" no_options] (initial true small_window) in
  mget "X" (filters (router s)) = Some reject ∧
  mget "X" (filters (router (step (UnsubscribeContract "X") s))) = None ∧
  lookup_sub (StopAddress "X") (step (UnsubscribeContract "X") s) = Some 0.
Proof. split_and!; reflexivity. Qed.
