(* ===== verification/EventQueue.v ===== *)
(** * The bounded event queue and backpressure
    (packages/pulse-core/src/EventEngine.ts, [enqueueEvent], [processQueue],
     [pauseSource], [resumeSource] and the queue part of the constructor)

    [processQueue] has no [await]: it drains the queue within the call that
    pushed.  The queue only grows by calls that arrive while a listener runs,
    inside [route].  The drain loop is therefore cut at those points: [Routing]
    is the time between taking an event off the queue and the end of its
    [route], [Draining] the head of the loop, and calls into the engine may
    arrive in every phase. *)

From S2P Require Import Prelude.
From S2P Require Import JsMap.
From S2P Require Import JsValue.
From S2P Require Import EventTypes.
From S2P Require Import Dedupe.
From S2P Require Import Route.

Inductive QueuePolicy := policy_pause | policy_drop_oldest | policy_drop_newest.

(** ** The water marks *)

(** [len >= mark] and [len <= mark]. *)
Definition at_least (len : nat) (mark : jsnum) : bool :=
  match mark with
  | JNaN => false
  | JInf neg => neg
  | JFin m k => (m <=? Z.of_nat len * 2 ^ Z.of_nat k)%Z
  end.

Definition at_most (len : nat) (mark : jsnum) : bool :=
  match mark with
  | JNaN => false
  | JInf neg => negb neg
  | JFin m k => (Z.of_nat len * 2 ^ Z.of_nat k <=? m)%Z
  end.

Definition js_floor (x : jsnum) : jsnum :=
  match x with JFin m k => jint (m / 2 ^ Z.of_nat k) | _ => x end.

Definition js_half (x : jsnum) : jsnum :=
  match x with JFin m k => JFin m (S k) | _ => x end.

(** [Math.max(1, x)] *)
Definition js_max1 (x : jsnum) : jsnum :=
  match x with
  | JNaN => JNaN
  | _ => if js_ltZ x 1 then jint 1 else x
  end.

Definition resolveHighWaterMark (configured : option jsnum) : jsnum :=
  js_max1 (js_floor (default (jint 10000) configured)).

Definition resolveLowWaterMark (configured : option jsnum) (high : jsnum) : jsnum :=
  js_max1 (js_floor (default (js_floor (js_half high)) configured)).

Inductive Phase := Idle | Draining | Routing.

#[export] Instance Phase_eq_dec : EqDecision Phase.
Proof. solve_decision. Defined.

Section queue.
Context {Semantic : Type}.
Context (hasAbiRegistry : bool).
Context (queueHighWaterMark queueLowWaterMark : jsnum) (queuePolicy : QueuePolicy).

Notation Event := (Event Semantic).
Notation Router := (Router (Semantic := Semantic)).
Notation Emission := (Emission (Semantic := Semantic)).

(** A queued event and the dedupe key attached to it. *)
Definition Queued : Type := Event * option (string * DedupeTransport).

Record EngineQueue := {
  router : Router;
  eventQueue : list Queued;
  phase : Phase;
  inBackpressure : bool;
  wePausedSourcesForBackpressure : bool;
}.

Definition with_queue (q : list Queued) (s : EngineQueue) : EngineQueue :=
  {| router := router s; eventQueue := q; phase := phase s;
     inBackpressure := inBackpressure s;
     wePausedSourcesForBackpressure := wePausedSourcesForBackpressure s |}.

Definition with_phase (p : Phase) (s : EngineQueue) : EngineQueue :=
  {| router := router s; eventQueue := eventQueue s; phase := p;
     inBackpressure := inBackpressure s;
     wePausedSourcesForBackpressure := wePausedSourcesForBackpressure s |}.

Definition with_pressure (b we : bool) (r : Router) (s : EngineQueue) : EngineQueue :=
  {| router := r; eventQueue := eventQueue s; phase := phase s;
     inBackpressure := b; wePausedSourcesForBackpressure := we |}.

Definition pauseSource (source : Source) (r : Router) : Router :=
  with_pausedSources ({[source]} ∪ pausedSources r) r.

Definition resumeSource (source : Source) (r : Router) : Router :=
  with_pausedSources (pausedSources r ∖ {[source]}) r.

Definition pauseBoth (r : Router) : Router := pauseSource src_soroban (pauseSource src_horizon r).
Definition resumeBoth (r : Router) : Router :=
  resumeSource src_soroban (resumeSource src_horizon r).

Definition length_of (s : EngineQueue) : nat := length (eventQueue s).

(** The event is pushed and the processor kicked: it starts draining unless it
    is already under way. *)
Definition kick (s : EngineQueue) : EngineQueue :=
  match phase s with Idle => with_phase Draining s | _ => s end.

(** Entering backpressure, once; [we] tells whether the engine paused the
    sources itself. *)
Definition enter_backpressure (pausing : bool) (queued : nat) (s : EngineQueue)
    : list Emission * EngineQueue :=
  if inBackpressure s then ([], s)
  else
    let r := if pausing then pauseBoth (router s) else router s in
    (notifyWatchers r (Backpressure true queued),
     with_pressure true (if pausing then true else wePausedSourcesForBackpressure s) r s).

Definition enqueueEvent (ev : Queued) (s : EngineQueue) : list Emission * EngineQueue :=
  if bool_decide (sourceOf ev.1 ∈ pausedSources (router s)) then ([], s)
  else if at_least (length_of s) queueHighWaterMark then
    match queuePolicy with
    | policy_pause =>
        let '(out, s1) := enter_backpressure true (length_of s) s in
        (out, kick (with_queue (eventQueue s1 ++ [ev]) s1))
    | policy_drop_oldest =>
        let s1 := with_queue (tail (eventQueue s) ++ [ev]) s in
        let '(out, s2) := enter_backpressure false (length_of s1) s1 in
        (out, kick s2)
    | policy_drop_newest => enter_backpressure false (length_of s) s
    end
  else ([], kick (with_queue (eventQueue s ++ [ev]) s)).

(** The head of the drain loop: finish, or take an event and route it. *)
Definition drain_next (s : EngineQueue)
    : (list Emission + ContractEmittedEvent Semantic) * EngineQueue :=
  match eventQueue s with
  | [] => (inl [], with_phase Idle s)
  | (e, dd) :: q =>
      let '(out, r) := route hasAbiRegistry dd e (router s) in
      (out, {| router := r; eventQueue := q; phase := Routing;
               inBackpressure := inBackpressure s;
               wePausedSourcesForBackpressure := wePausedSourcesForBackpressure s |})
  end.

(** The end of an iteration: leave backpressure at the low-water mark. *)
Definition clear_backpressure (s : EngineQueue) : list Emission * EngineQueue :=
  if inBackpressure s && at_most (length_of s) queueLowWaterMark then
    let r := if wePausedSourcesForBackpressure s then resumeBoth (router s) else router s in
    (notifyWatchers r (Backpressure false (length_of s)),
     with_phase Draining (with_pressure false false r s))
  else ([], with_phase Draining s).

(** One iteration of the loop, when no call arrives while it routes. *)
Definition drain_iteration (s : EngineQueue)
    : list (list Emission + ContractEmittedEvent Semantic) * EngineQueue :=
  let '(out, s1) := drain_next s in
  match phase s1 with
  | Routing => let '(note, s2) := clear_backpressure s1 in ([out; inl note], s2)
  | _ => ([out], s1)
  end.

(** The whole loop; a queue of [n] events is drained with fuel [S n]. *)
Fixpoint processQueue (fuel : nat) (s : EngineQueue)
    : option (list (list Emission + ContractEmittedEvent Semantic) * EngineQueue) :=
  match fuel with
  | O => None
  | S fuel' =>
      let '(out, s1) := drain_iteration s in
      match phase s1 with
      | Idle => Some (out, s1)
      | _ => '(rest, s2) ← processQueue fuel' s1; Some (out ++ rest, s2)
      end
  end.

(** ** Interleaved steps *)

(** What can happen next: a call to [enqueueEvent], one half of a drain
    iteration, or a change of the paused sources from outside (the application's
    [pauseSource] and [resumeSource], and [stop]). *)
Inductive queue_op :=
  | Enqueue (ev : Queued)
  | Next
  | Finish
  | SetPaused (p : gset Source).

Definition queue_step (o : queue_op) (s : EngineQueue) : option EngineQueue :=
  match o with
  | Enqueue ev => Some (enqueueEvent ev s).2
  | Next => if decide (phase s = Draining) then Some (drain_next s).2 else None
  | Finish => if decide (phase s = Routing) then Some (clear_backpressure s).2 else None
  | SetPaused p => Some (with_pressure (inBackpressure s) (wePausedSourcesForBackpressure s)
                           (with_pausedSources p (router s)) s)
  end.

Fixpoint queue_run (os : list queue_op) (s : EngineQueue) : option EngineQueue :=
  match os with
  | [] => Some s
  | o :: os' => s1 ← queue_step o s; queue_run os' s1
  end.

(** The events a run routes, in order, and the ones it was handed. *)
Definition taken (o : queue_op) (s : EngineQueue) : list Queued :=
  match o with Next => take 1 (eventQueue s) | _ => [] end.

Fixpoint taken_by (os : list queue_op) (s : EngineQueue) : list Queued :=
  match os with
  | [] => []
  | o :: os' =>
      taken o s ++ match queue_step o s with Some s1 => taken_by os' s1 | None => [] end
  end.

Definition handed (o : queue_op) : list Queued :=
  match o with Enqueue ev => [ev] | _ => [] end.

Definition empty_queue (r : Router) : EngineQueue :=
  {| router := r; eventQueue := []; phase := Idle; inBackpressure := false;
     wePausedSourcesForBackpressure := false |}.

Definition no_external_pause (o : queue_op) : bool :=
  match o with SetPaused _ => false | _ => true end.

(** ** Lemmas *)

Lemma enter_frame pausing n s :
  eventQueue (enter_backpressure pausing n s).2 = eventQueue s ∧
  phase (enter_backpressure pausing n s).2 = phase s ∧
  inBackpressure (enter_backpressure pausing n s).2 = true.
Proof. unfold enter_backpressure. destruct (inBackpressure s) eqn:E; auto. Qed.

Lemma kick_queue s : eventQueue (kick s) = eventQueue s.
Proof. unfold kick. by destruct (phase s). Qed.

Lemma kick_frame s :
  eventQueue (kick s) = eventQueue s ∧ inBackpressure (kick s) = inBackpressure s ∧
  router (kick s) = router s ∧
  wePausedSourcesForBackpressure (kick s) = wePausedSourcesForBackpressure s.
Proof. unfold kick. by destruct (phase s). Qed.

(** The queue after a call to [enqueueEvent], policy by policy. *)
Lemma enqueue_queue ev s :
  eventQueue (enqueueEvent ev s).2 =
    if bool_decide (sourceOf ev.1 ∈ pausedSources (router s)) then eventQueue s
    else if at_least (length_of s) queueHighWaterMark then
      match queuePolicy with
      | policy_pause => eventQueue s ++ [ev]
      | policy_drop_oldest => tail (eventQueue s) ++ [ev]
      | policy_drop_newest => eventQueue s
      end
    else eventQueue s ++ [ev].
Proof.
  unfold enqueueEvent. destruct (bool_decide _); [done|].
  destruct (at_least _ _); [|apply kick_queue].
  destruct queuePolicy.
  - pose proof (enter_frame true (length_of s) s) as (He & _).
    destruct (enter_backpressure true (length_of s) s) as [out s1]. cbn [snd] in *.
    rewrite kick_queue. cbn. by rewrite He.
  - set (s1 := with_queue _ s).
    pose proof (enter_frame false (length_of s1) s1) as (He & _).
    destruct (enter_backpressure false (length_of s1) s1) as [out s2]. cbn [snd] in *.
    by rewrite kick_queue.
  - apply enter_frame.
Qed.

Lemma drain_next_queue s : eventQueue (drain_next s).2 = tail (eventQueue s).
Proof.
  unfold drain_next. destruct (eventQueue s) as [|[e dd] q] eqn:E; [done|].
  by destruct (route hasAbiRegistry dd e (router s)).
Qed.

Lemma clear_queue s : eventQueue (clear_backpressure s).2 = eventQueue s.
Proof. unfold clear_backpressure. by destruct (_ && _). Qed.

Lemma route_paused abi dd e (r : Router) :
  pausedSources (route abi dd e r).2 = pausedSources r.
Proof. by destruct (route_cases abi dd e r) as (d & -> & _). Qed.

(** One step never reorders and never invents: what is taken and what remains
    is a subsequence of what was there and what came in. *)
Lemma step_sublist o s s1 : queue_step o s = Some s1 →
  taken o s ++ eventQueue s1 `sublist_of` eventQueue s ++ handed o.
Proof.
  destruct o as [ev| | |p]; cbn [queue_step taken handed].
  - intros [= <-]. rewrite enqueue_queue. cbn [app].
    assert (eventQueue s `sublist_of` eventQueue s ++ [ev]) by by apply sublist_inserts_r.
    destruct (bool_decide _); [done|]. destruct (at_least _ _); [|done].
    destruct queuePolicy; [done| |done].
    apply sublist_app; [|done]. destruct (eventQueue s); [done|]. by apply sublist_cons.
  - case_decide; [|done]. intros [= <-]. rewrite drain_next_queue, app_nil_r.
    by destruct (eventQueue s).
  - case_decide; [|done]. intros [= <-]. by rewrite clear_queue, app_nil_r.
  - intros [= <-]. by rewrite app_nil_r.
Qed.

(** the queue is first in, first out under every policy and every
    interleaving: the events routed, followed by those still queued, are a
    subsequence of the events handed to [enqueueEvent], in order and without
    repetition. *)
Theorem queue_keeps_order os s s' :
  queue_run os s = Some s' →
  taken_by os s ++ eventQueue s' `sublist_of` eventQueue s ++ (os ≫= handed).
Proof.
  revert s. induction os as [|o os IH]; intros s; cbn [queue_run taken_by].
  - intros [= <-]. by rewrite app_nil_r.
  - intros Hrun. destruct (queue_step o s) as [s1|] eqn:Hstep; [|done]. cbn in Hrun.
    apply IH in Hrun. apply step_sublist in Hstep.
    change ((o :: os) ≫= handed) with (handed o ++ (os ≫= handed)).
    rewrite <-app_assoc. etrans; [apply sublist_app; [done|exact Hrun]|].
    rewrite !app_assoc. by apply sublist_app.
Qed.

(** ** The bound *)

Lemma at_least_jint n h : at_least n (jint h) = (h <=? Z.of_nat n)%Z.
Proof. unfold at_least, jint. by rewrite Z.mul_1_r. Qed.

Lemma at_most_jint n l : at_most n (jint l) = (Z.of_nat n <=? l)%Z.
Proof. unfold at_most, jint. by rewrite Z.mul_1_r. Qed.

Definition bound (h : Z) : Z :=
  match queuePolicy with policy_pause => h + 1 | _ => h end.

Definition both_paused (r : Router) : Prop :=
  src_horizon ∈ pausedSources r ∧ src_soroban ∈ pausedSources r.

(** Outside backpressure the queue is within the mark; in backpressure under
    the pause policy both sources are paused. *)
Definition queue_inv (h : Z) (s : EngineQueue) : Prop :=
  (Z.of_nat (length_of s) ≤ bound h)%Z ∧
  (inBackpressure s = false → (Z.of_nat (length_of s) ≤ h)%Z) ∧
  (queuePolicy = policy_pause → inBackpressure s = true → both_paused (router s)).

Lemma both_paused_source (r : Router) (e : Event) :
  both_paused r → bool_decide (sourceOf e ∈ pausedSources r) = true.
Proof.
  intros [??]. apply bool_decide_eq_true. unfold sourceOf. by destruct (is_contract_event e).
Qed.

Lemma pauseBoth_paused r : both_paused (pauseBoth r).
Proof. unfold both_paused, pauseBoth, pauseSource. cbn. set_solver. Qed.

Lemma enter_pausing n s :
  (inBackpressure s = true → both_paused (router s)) →
  both_paused (router (enter_backpressure true n s).2).
Proof.
  unfold enter_backpressure. destruct (inBackpressure s); [by auto|].
  intros _. apply pauseBoth_paused.
Qed.

Lemma enqueue_router ev s :
  (enqueueEvent ev s).2 = s ∨
  (inBackpressure (enqueueEvent ev s).2 = inBackpressure s ∧
     router (enqueueEvent ev s).2 = router s ∧ at_least (length_of s) queueHighWaterMark = false) ∨
  (inBackpressure (enqueueEvent ev s).2 = true ∧
     (queuePolicy = policy_pause → (inBackpressure s = true → both_paused (router s)) →
      both_paused (router (enqueueEvent ev s).2))).
Proof.
  unfold enqueueEvent. destruct (bool_decide _); [by left|].
  destruct (at_least _ _) eqn:Ha; right.
  2: { left. cbn [snd]. destruct (kick_frame (with_queue (eventQueue s ++ [ev]) s)) as (_&->&->&_).
       done. }
  right. destruct queuePolicy.
  - pose proof (enter_frame true (length_of s) s) as (_ & _ & He).
    pose proof (enter_pausing (length_of s) s) as Hp.
    destruct (enter_backpressure true (length_of s) s) as [out s1]. cbn [snd] in *.
    destruct (kick_frame (with_queue (eventQueue s1 ++ [ev]) s1)) as (_&->&->&_). auto.
  - set (s1 := with_queue _ s).
    pose proof (enter_frame false (length_of s1) s1) as (_ & _ & He).
    destruct (enter_backpressure false (length_of s1) s1) as [out s2]. cbn [snd] in *.
    destruct (kick_frame s2) as (_&->&->&_). done.
  - split; [apply enter_frame|done].
Qed.

Lemma bound_ge h : (h ≤ bound h)%Z.
Proof. unfold bound. destruct queuePolicy; lia. Qed.

Lemma enqueue_inv h ev s :
  (1 ≤ h)%Z → queueHighWaterMark = jint h → queue_inv h s → queue_inv h (enqueueEvent ev s).2.
Proof.
  intros Hh Hm (Hb & Hn & Hp). pose proof (bound_ge h) as Hge.
  pose proof (enqueue_queue ev s) as Hq.
  assert (queuePolicy = policy_pause → inBackpressure s = true →
          bool_decide (sourceOf ev.1 ∈ pausedSources (router s)) = true) as Hblock
    by (intros ??; apply both_paused_source; auto).
  rewrite Hm, at_least_jint in Hq.
  destruct (bool_decide _) eqn:Hpaused.
  { replace (enqueueEvent ev s).2 with s; [done|]. unfold enqueueEvent. by rewrite Hpaused. }
  assert (Z.of_nat (length_of (enqueueEvent ev s).2) ≤ bound h)%Z as Hlen.
  { unfold length_of in *. rewrite Hq. unfold bound in *.
    destruct (Z.leb_spec h (Z.of_nat (length (eventQueue s)))); [|rewrite length_app; cbn; lia].
    destruct queuePolicy; [|destruct (eventQueue s); cbn in *; rewrite ?length_app; cbn; lia|lia].
    destruct (inBackpressure s); [by discriminate Hblock|].
    rewrite length_app. cbn. specialize (Hn eq_refl). lia. }
  split; [done|]. destruct (enqueue_router ev s) as [->|[(He & Hr & Ha)|[He Hr]]]; [done|..].
  - rewrite He, Hr. split; [|done]. intros _. rewrite Hm, at_least_jint in Ha.
    unfold length_of in *. rewrite Hq, Ha, length_app. cbn. bool_to_prop. lia.
  - rewrite He. split; [done|]. auto.
Qed.

Lemma queue_step_inv h l o s s1 :
  (1 ≤ h)%Z → (l ≤ h)%Z → queueHighWaterMark = jint h → queueLowWaterMark = jint l →
  no_external_pause o = true → queue_step o s = Some s1 → queue_inv h s → queue_inv h s1.
Proof.
  intros Hh Hl Hm Hm' Ho Hs Hi. destruct o as [ev| | |p]; cbn in Hs; [..|done].
  - simplify_eq. by apply enqueue_inv.
  - case_decide; [|done]. simplify_eq. destruct Hi as (Hb & Hn & Hp).
    unfold queue_inv, length_of in *. rewrite drain_next_queue, length_tl.
    unfold drain_next. destruct (eventQueue s) as [|[e dd] q]; [split_and!; cbn in *; auto|].
    pose proof (route_paused hasAbiRegistry dd e (router s)) as Hr.
    destruct (route hasAbiRegistry dd e (router s)) as [out r]. cbn in *.
    unfold both_paused. rewrite Hr. split_and!; auto; intros; try apply Hn in H0; lia.
  - case_decide; [|done]. simplify_eq. destruct Hi as (Hb & Hn & Hp).
    unfold queue_inv, length_of in *. rewrite clear_queue. unfold clear_backpressure.
    rewrite Hm', at_most_jint.
    destruct (inBackpressure s && _) eqn:E; [|done]. bool_to_prop. cbn.
    unfold length_of in *. split_and!; [done| |done]. intros _. lia.
Qed.

(** memory stays bounded.  Whatever order records arrive and are routed in,
    the queue never holds more events than the high-water mark, one more under
    the pause policy, provided the low mark is not above the high one and
    nobody outside the queue pauses or resumes a source. *)
Theorem queue_bounded h l os r s :
  queueHighWaterMark = jint h → queueLowWaterMark = jint l → (1 ≤ h)%Z → (l ≤ h)%Z →
  forallb no_external_pause os = true →
  queue_run os (empty_queue r) = Some s →
  (Z.of_nat (length_of s) ≤ match queuePolicy with policy_pause => h + 1 | _ => h end)%Z.
Proof.
  intros Hm Hm' Hh Hl. assert (queue_inv h (empty_queue r)) as Hi.
  { pose proof (bound_ge h). unfold queue_inv, length_of. cbn. split_and!; [lia|lia|done]. }
  revert Hi. generalize (empty_queue r) as s0.
  induction os as [|o os IH]; intros s0 Hi Ho; cbn [queue_run].
  - intros [= <-]. apply Hi.
  - cbn in Ho. apply andb_true_iff in Ho as [Ho Hos]. intros Hrun.
    destruct (queue_step o s0) as [s1|] eqn:Hstep; [|done]. cbn in Hrun.
    eapply (IH s1); [by eapply queue_step_inv|done|done].
Qed.

(** ** Draining *)

(** A state between two iterations, or at rest. *)
Lemma drain_iteration_spec s :
  phase s ≠ Routing →
  (eventQueue s = [] → drain_iteration s = ([inl []], with_phase Idle s)) ∧
  (∀ x q, eventQueue s = x :: q →
     eventQueue (drain_iteration s).2 = q ∧ phase (drain_iteration s).2 = Draining).
Proof.
  intros Hph. unfold drain_iteration, drain_next. split.
  - intros ->. reflexivity.
  - intros [e dd] q ->. destruct (route hasAbiRegistry dd e (router s)) as [out r]. cbn.
    unfold clear_backpressure. by destruct (_ && _).
Qed.

(** draining terminates: with no call arriving meanwhile, the loop started
    by a push takes one iteration per queued event and one to finish, and
    leaves the queue empty and the processor idle. *)
Theorem processQueue_drains s :
  phase s ≠ Routing →
  ∃ out s', processQueue (S (length_of s)) s = Some (out, s') ∧
    eventQueue s' = [] ∧ phase s' = Idle ∧ processQueue (length_of s) s = None.
Proof.
  unfold length_of. remember (eventQueue s) as q eqn:Hq. revert s Hq.
  induction q as [|x q IH]; intros s Hq Hph;
    destruct (drain_iteration_spec s Hph) as [Hnil Hcons].
  - eexists _, _. cbn [length processQueue]. rewrite Hnil by done. split_and!; try done.
  - destruct (Hcons x q (eq_sym Hq)) as [Hq1 Hp1]. cbn [length].
    destruct (IH (drain_iteration s).2) as (out & s' & Hr & He & Hi & Hn);
      [done|by rewrite Hp1|].
    assert (∀ n, processQueue (S n) s =
      '(rest, s2) ← processQueue n (drain_iteration s).2;
      Some ((drain_iteration s).1 ++ rest, s2)) as Hstep.
    { intros n. cbn [processQueue]. destruct (drain_iteration s) as [o1 s1]. cbn in *.
      by rewrite Hp1. }
    exists ((drain_iteration s).1 ++ out), s'. rewrite !Hstep, Hr, Hn. done.
Qed.

(** [n] iterations of the loop. *)
Fixpoint drain_n (n : nat) (s : EngineQueue)
    : list (list Emission + ContractEmittedEvent Semantic) * EngineQueue :=
  match n with
  | O => ([], s)
  | S n' =>
      let '(out, s1) := drain_iteration s in
      let '(rest, s2) := drain_n n' s1 in
      (out ++ rest, s2)
  end.

Lemma drain_paused l s x q :
  queueLowWaterMark = jint l → both_paused (router s) →
  eventQueue s = x :: q → (l < Z.of_nat (length q))%Z →
  (drain_iteration s).1 = [inl []; inl []] ∧ eventQueue (drain_iteration s).2 = q ∧
  both_paused (router (drain_iteration s).2).
Proof.
  intros Hm Hp Hq Hl. destruct x as [e dd]. unfold drain_iteration, drain_next. rewrite Hq.
  destruct (route_cases hasAbiRegistry dd e (router s)) as (d & Hr & Ho).
  unfold suppressed in Ho. rewrite both_paused_source, orb_true_r in Ho by done.
  destruct (route hasAbiRegistry dd e (router s)) as [out r]. cbn in Hr, Ho. subst. cbn.
  unfold clear_backpressure, length_of. rewrite Hm, at_most_jint. cbn.
  destruct (Z.leb_spec (Z.of_nat (length q)) l); [lia|].
  by rewrite andb_false_r.
Qed.

(** the backlog of the pause policy is thrown away.  Once backpressure has
    paused both sources, the drain loop takes the events accepted before the
    pause off the queue and delivers none of them, until the queue is down to
    the low-water mark. *)
Theorem paused_backlog_dropped l s n :
  queueLowWaterMark = jint l → both_paused (router s) →
  (0 ≤ l)%Z → (Z.of_nat n + l < Z.of_nat (length_of s))%Z →
  Forall (λ out, out = inl []) (drain_n n s).1 ∧
  eventQueue (drain_n n s).2 = drop n (eventQueue s).
Proof.
  unfold length_of. intros Hm Hp Hl. revert s Hp. induction n as [|n IH]; intros s Hp Hn.
  - done.
  - destruct (eventQueue s) as [|x q] eqn:Hq; cbn in Hn; [lia|].
    destruct (drain_paused l s x q) as (Ho & Hq1 & Hp1); [done|done|done|lia|].
    cbn [drain_n]. destruct (drain_iteration s) as [o1 s1]. cbn in Ho, Hq1, Hp1.
    destruct (IH s1) as [H1 H2]; [done|rewrite Hq1; lia|].
    destruct (drain_n n s1) as [rest s2]. cbn in *. subst o1. rewrite H2, Hq1.
    split; [|done]. apply Forall_app. split; [|done]. repeat constructor.
Qed.
End queue.
#[global] Arguments EngineQueue Semantic : clear implicits.

(** ** The water marks that can be configured *)

(** A finite setting gives a whole mark of at least one; the default low mark
    is not above the high one. *)
Lemma high_mark_finite m k :
  ∃ h, resolveHighWaterMark (Some (JFin m k)) = jint h ∧ (1 ≤ h)%Z ∧
       (h = 1 ∨ h = m / 2 ^ Z.of_nat k)%Z.
Proof.
  unfold resolveHighWaterMark, js_max1, js_floor, js_ltZ, jint. cbn [from_option id].
  change (1 * 2 ^ Z.of_nat 0)%Z with 1%Z.
  destruct (Z.ltb_spec (m / 2 ^ Z.of_nat k) 1).
  - exists 1%Z. split_and!; [done|lia|by left].
  - exists (m / 2 ^ Z.of_nat k)%Z. split_and!; [done|lia|by right].
Qed.

(** The configured marks.  A finite high-water mark is a whole number of at
    least one, and with the default low-water mark, half of it, the bound of
    the queue applies; an omitted mark is 10000. *)
Theorem water_marks configured :
  (∀ x, configured = Some x → js_isFinite x = true) →
  ∃ h l, resolveHighWaterMark configured = jint h ∧
    resolveLowWaterMark None (resolveHighWaterMark configured) = jint l ∧
    (1 ≤ l)%Z ∧ (l ≤ h)%Z ∧ (l = Z.max 1 (h / 2))%Z ∧
    (configured = None → h = 10000%Z).
Proof.
  intros Hf. assert (∃ m k, default (jint 10000) configured = JFin m k ∧
    (configured = None → m = 10000%Z ∧ k = 0)) as (m & k & Hc & Hd).
  { destruct configured as [[| |m k]|].
    - discriminate (Hf _ eq_refl).
    - discriminate (Hf _ eq_refl).
    - by exists m, k.
    - by exists 10000%Z, 0. }
  assert (resolveHighWaterMark configured = resolveHighWaterMark (Some (JFin m k))) as Heq
    by (unfold resolveHighWaterMark; by rewrite Hc).
  destruct (high_mark_finite m k) as (h & Hh & H1 & Hor). rewrite Heq, Hh.
  exists h, (Z.max 1 (h / 2))%Z.
  assert (h / 2 ≤ h)%Z by (apply Z.div_le_upper_bound; lia).
  split_and!; [done| |lia|lia|done|].
  - unfold resolveLowWaterMark.
    unfold js_max1, js_half, js_floor, js_ltZ, jint. cbn [from_option id].
    change (2 ^ Z.of_nat 1)%Z with 2%Z. change (1 * 2 ^ Z.of_nat 0)%Z with 1%Z.
    change (2 ^ Z.of_nat 0)%Z with 1%Z. rewrite Z.div_1_r.
    destruct (Z.ltb_spec (h / 2) 1).
    + by rewrite Z.max_l by lia.
    + by rewrite Z.max_r by lia.
  - intros Hn. destruct (Hd Hn) as [-> ->].
    unfold resolveHighWaterMark in Hh. cbn in Hh. by injection Hh.
Qed.

(** ** Witnesses *)

Definition sample_queued (a : string) : Queued (Semantic := unit) :=
  (PendingPayment {| pay_to := a; pay_from := "GA"; pay_amount := "1"; pay_asset := "XLM";
     pay_timestamp := "t"; pay_identity := {| id_txHash := None; id_ledger := None; id_memo := None |};
     pay_raw := JUndef |}, None).

Definition sample_queue : EngineQueue unit :=
  empty_queue {| registry := [("GA", 1)]; contractRegistry := []; filters := [];
    subscriptionNames := []; pausedSources := ∅;
    dedupeWindow := {| capacity := 4; seen := [] |} |}.

(** Five records arrive while the first is being routed. *)
Definition burst : list (queue_op (Semantic := unit)) :=
  [Enqueue (sample_queued "G1"); Next; Enqueue (sample_queued "G2"); Enqueue (sample_queued "G3");
   Enqueue (sample_queued "G4"); Enqueue (sample_queued "G5"); Enqueue (sample_queued "G6")].

Definition after_burst (policy : QueuePolicy) : EngineQueue unit :=
  default sample_queue (queue_run false (jint 3) (jint 1) policy burst sample_queue).

Lemma queue_bounded_witness :
  queue_run false (jint 3) (jint 1) policy_pause burst sample_queue = Some (after_burst policy_pause) ∧
  (Z.of_nat (length_of (after_burst policy_pause)) ≤ 3 + 1)%Z.
Proof.
  split; [reflexivity|].
  apply (queue_bounded false (jint 3) (jint 1) policy_pause 3 1 burst (router sample_queue));
    first [reflexivity|lia].
Defined.

Lemma queue_keeps_order_witness :
  taken_by false (jint 3) (jint 1) policy_drop_oldest burst sample_queue ++
    eventQueue (after_burst policy_drop_oldest)
    = sample_queued <$> ["G1"; "G4"; "G5"; "G6"] ∧
  (sample_queued <$> ["G1"; "G4"; "G5"; "G6"]) `sublist_of` [] ++ (burst ≫= handed).
Proof.
  split; [reflexivity|].
  exact (queue_keeps_order false (jint 3) (jint 1) policy_drop_oldest burst sample_queue
    (after_burst policy_drop_oldest) eq_refl).
Defined.

Lemma processQueue_drains_witness :
  ∃ out s', processQueue false (jint 1) 4
    (with_phase Draining (with_queue (sample_queued <$> ["G1"; "G2"; "G3"]) sample_queue))
      = Some (out, s') ∧ eventQueue s' = [] ∧ phase s' = Idle.
Proof.
  destruct (processQueue_drains false (jint 1)
    (with_phase Draining (with_queue (sample_queued <$> ["G1"; "G2"; "G3"]) sample_queue)))
    as (out & s' & H & He & Hp & _); [discriminate|].
  exists out, s'. split; [exact H|]. split; [exact He|exact Hp].
Defined.

(** After the burst the pause policy holds four accepted events; the next two
    are taken off the queue and reach nobody, although their sender is watched. *)
Lemma paused_backlog_dropped_witness :
  both_paused (router (after_burst policy_pause)) ∧
  eventQueue (after_burst policy_pause) = sample_queued <$> ["G2"; "G3"; "G4"; "G5"] ∧
  Forall (λ out, out = inl []) (drain_n false (jint 1) 2 (after_burst policy_pause)).1.
Proof.
  assert (both_paused (router (after_burst policy_pause))) as Hp
    by (split; apply (bool_decide_unpack _); vm_compute; reflexivity).
  split; [exact Hp|]. split; [reflexivity|].
  apply (paused_backlog_dropped false (jint 1) 1); [reflexivity|exact Hp|lia|reflexivity].
Defined.

Lemma water_marks_witness :
  resolveHighWaterMark (Some (JFin 25 1)) = jint 12 ∧
  ∃ h l, resolveHighWaterMark (Some (JFin 25 1)) = jint h ∧ (1 ≤ l)%Z ∧ (l ≤ h)%Z.
Proof.
  split; [reflexivity|].
  destruct (water_marks (Some (JFin 25 1))) as (h & l & Hh & _ & H1 & H2 & _).
  - intros x Hx. injection Hx as <-. reflexivity.
  - exists h, l. split; [exact Hh|]. split; [exact H1|exact H2].
Defined.

(** A source the application had paused is resumed by the end of backpressure:
    the engine does not remember which sources were paused before. *)
Definition user_pause_run : list (queue_op (Semantic := unit)) :=
  [SetPaused {[src_soroban]}; Enqueue (sample_queued "G1"); Next;
   Enqueue (sample_queued "G2"); Enqueue (sample_queued "G3"); Finish; Next; Finish].

Lemma user_pause_lost :
  match queue_run false (jint 1) (jint 1) policy_pause user_pause_run sample_queue with
  | Some s => bool_decide (src_soroban ∈ pausedSources (router s)) = false ∧
              inBackpressure s = false
  | None => False
  end.
Proof. split; vm_compute; reflexivity. Qed.
