(* ===== verification/Ingest.v ===== *)
(** * What a Horizon record becomes, and the keys the two transports share
    (packages/pulse-core/src/EventEngine.ts, [onmessage], [deriveHorizonDedupeRef],
     [deriveUnifiedDedupeRef]) *)

From S2P Require Import Prelude.
From S2P Require Import JsValue.
From S2P Require Import Decimal.
From S2P Require Import EventTypes.
From S2P Require Import Normalize.
From S2P Require Import Dedupe.

(** ** [BigInt(s)] on text *)

(** A digit of a base up to sixteen. *)
Definition radix_digit (base : N) (c : ascii) : option N :=
  let n := N_of_ascii (lower_char c) in
  d ← match digit_val c with
      | Some d => Some d
      | None => if ((97 <=? n) && (n <=? 102))%N then Some (n - 87)%N else None
      end;
  if (d <? base)%N then Some d else None.

Fixpoint radix_value (base acc : N) (s : string) : option N :=
  match s with
  | EmptyString => Some acc
  | String c s' => d ← radix_digit base c; radix_value base (base * acc + d)%N s'
  end.

(** The base announced by a prefix, and what follows it. *)
Definition radix_prefix (s : string) : option (N * string) :=
  match s with
  | String a (String b r) =>
      let c := lower_char b in
      if negb (Ascii.eqb a "0"%char) then None
      else if Ascii.eqb c "x"%char then Some (16%N, r)
      else if Ascii.eqb c "o"%char then Some (8%N, r)
      else if Ascii.eqb c "b"%char then Some (2%N, r)
      else None
  | _ => None
  end.

Definition decimal_value (s : string) : option Z :=
  if String.eqb s "" || negb (all_digits s) then None else Some (Z.of_N (digits_value s)).

(** [None] where [BigInt] throws a [SyntaxError]; blank text is zero. *)
Definition bigint_of_string (s : string) : option Z :=
  let t := trim_end (trim_start s) in
  match t with
  | EmptyString => Some 0%Z
  | String c r =>
      match radix_prefix t with
      | Some (base, digits) =>
          if String.eqb digits "" then None else Z.of_N <$> radix_value base 0 digits
      | None =>
          if Ascii.eqb c "-"%char then Z.opp <$> decimal_value r
          else if Ascii.eqb c "+"%char then decimal_value r
          else decimal_value t
      end
  end.

(** ** Dedupe references *)

Definition deriveHorizonDedupeRef (record : jsval) : option DedupeEventRef :=
  if negb (is_object record) then None
  else
    txHash ← as_string (prop record "transaction_hash");
    id ← as_string (prop record "id");
    n ← bigint_of_string id;
    Some {| Dedupe.txHash := txHash; index := pretty n |}.

(** A raw event of the unified transport, as far as its key goes. *)
Record UnifiedRef := { u_txHash : option string; u_id : string }.

Definition deriveUnifiedDedupeRef (raw : UnifiedRef) : option DedupeEventRef :=
  txHash ← u_txHash raw;
  prefix ← head (str_split "-"%char (u_id raw));
  n ← bigint_of_string prefix;
  Some {| Dedupe.txHash := txHash; index := pretty n |}.

(** ** [onmessage] past the stream bookkeeping *)

(** [resolveFamilyTransport(...) === "unified"] for whatever the table lookup
    returned: an inherited property is in no set of families. *)
Definition claimed_by_unified (effectiveMode : Transport) (entry : option table_entry) : bool :=
  match entry with
  | Some (Own family) =>
      match resolveFamilyTransport family effectiveMode with
      | via_unified => true
      | via_horizon => false
      end
  | _ => false
  end.

Section ingest.
Context {Semantic : Type}.
Context (fraction_to_string : Z → nat → string).
Context (buffer_from_base64 : string → list Z).
Context (resolveSemantic : string → list jsval → jsval → option Semantic).
Context (effectiveIngestion : Transport).

Inductive ingest_outcome :=
  | Enqueued (e : Event Semantic) (dedupe : option (string * DedupeTransport))
  | LeftToUnified (e : Event Semantic)
  | NotNormalized (why : drop_reason).

Definition horizon_dedupe (record : jsval) : option (string * DedupeTransport) :=
  match horizonEventFamily record with
  | Some (Own fam_payment) | Some (Own fam_trustlineAuth) =>
      (λ ref, (deriveDedupeKey ref, horizon)) <$> deriveHorizonDedupeRef record
  | _ => None
  end.

Definition ingest (record : jsval) : result engine_throw ingest_outcome :=
  o ← _normalize fraction_to_string buffer_from_base64 resolveSemantic record;
  match o with
  | Dropped why => Ok (NotNormalized why)
  | Normalized e =>
      if claimed_by_unified effectiveIngestion (horizonEventFamily record) then
        Ok (LeftToUnified e)
      else Ok (Enqueued e (horizon_dedupe record))
  end.
End ingest.

(** ** Lemmas *)

Lemma digit_not_space c d : digit_val c = Some d → is_space c = false.
Proof.
  unfold digit_val, is_space, nat_of_ascii. generalize (N_of_ascii c). intros n H.
  destruct (N.leb_spec 48 n); [|done].
  apply orb_false_iff. split; [apply Nat.eqb_neq; lia|].
  apply andb_false_iff. right. apply Nat.leb_gt. lia.
Qed.

Lemma all_digits_cons c s :
  all_digits (String c s) = true → (∃ d, digit_val c = Some d) ∧ all_digits s = true.
Proof. cbn. by intros [[d Hd]%bool_decide_eq_true Hs]%andb_true_iff; eauto. Qed.

Lemma trim_start_digits s : all_digits s = true → trim_start s = s.
Proof.
  destruct s as [|c s]; [done|]. intros [[d Hd] _]%all_digits_cons. cbn.
  by rewrite (digit_not_space _ _ Hd).
Qed.

Lemma trim_end_digits s : all_digits s = true → trim_end s = s.
Proof.
  induction s as [|c s IH]; [done|]. intros [[d Hd] Hs]%all_digits_cons. cbn.
  rewrite IH by done. rewrite (digit_not_space _ _ Hd). by destruct s.
Qed.

(** A digit is none of the letters and signs [BigInt] looks for. *)
Lemma digit_plain c d : digit_val c = Some d →
  Ascii.eqb c "-"%char = false ∧ Ascii.eqb c "+"%char = false ∧
  Ascii.eqb (lower_char c) "x"%char = false ∧ Ascii.eqb (lower_char c) "o"%char = false ∧
  Ascii.eqb (lower_char c) "b"%char = false.
Proof.
  intros Hd. assert (lower_char c = c) as ->.
  { unfold lower_char, digit_val, nat_of_ascii in *. revert Hd. generalize (N_of_ascii c).
    intros n Hd. destruct (N.leb_spec n 57); [|by rewrite andb_false_r in Hd].
    destruct (Nat.leb_spec 65 (N.to_nat n)); [lia|done]. }
  split_and!; apply Ascii.eqb_neq; intros ->; discriminate Hd.
Qed.

Lemma bigint_of_digits s :
  all_digits s = true → s ≠ "" → bigint_of_string s = Some (Z.of_N (digits_value s)).
Proof.
  intros Hs Hne. unfold bigint_of_string.
  rewrite trim_start_digits, trim_end_digits by done.
  assert (decimal_value s = Some (Z.of_N (digits_value s))) as Hdec.
  { unfold decimal_value. rewrite Hs. by destruct (String.eqb_spec s ""). }
  destruct s as [|c s]; [done|].
  assert (radix_prefix (String c s) = None) as ->.
  { apply all_digits_cons in Hs as [_ Hs]. unfold radix_prefix. destruct s as [|b s]; [done|].
    apply all_digits_cons in Hs as [[d Hd] _]. destruct (digit_plain _ _ Hd) as (_ & _ & -> & -> & ->).
    by destruct (negb _). }
  apply all_digits_cons in Hs as [[d Hd] _].
  by destruct (digit_plain _ _ Hd) as (-> & -> & _).
Qed.

Lemma bigint_of_padded k (n : N) : bigint_of_string (zeros k +:+ pretty n) = Some (Z.of_N n).
Proof.
  rewrite bigint_of_digits.
  - unfold digits_value. rewrite digits_from_zeros. fold (digits_value (pretty n)).
    by rewrite digits_value_pretty.
  - by rewrite all_digits_app, all_digits_zeros, all_digits_pretty.
  - destruct k; [|done]. apply pretty_nonempty.
Qed.

(** The record of operation [n] of transaction [h], and an event of it on the
    unified transport: the number zero-padded, then the event's own index. *)
Definition horizon_operation (h : string) (n : N) (rest : list (string * jsval)) : jsval :=
  JObj (("transaction_hash", JStr h) :: ("id", JStr (pretty n)) :: rest).

Definition unified_event (h : string) (padding : nat) (n : N) (event_index : string) : UnifiedRef :=
  {| u_txHash := Some h;
     u_id := (zeros padding +:+ pretty n) +:+ String "-"%char event_index |}.

Lemma horizon_ref h n rest :
  deriveHorizonDedupeRef (horizon_operation h n rest)
    = Some {| Dedupe.txHash := h; index := pretty (Z.of_N n) |}.
Proof.
  unfold deriveHorizonDedupeRef, horizon_operation. cbn -[bigint_of_string].
  pose proof (bigint_of_padded 0 n) as Hn. cbn -[bigint_of_string] in Hn. by rewrite Hn.
Qed.

Lemma unified_ref h k n i :
  deriveUnifiedDedupeRef (unified_event h k n i)
    = Some {| Dedupe.txHash := h; index := pretty (Z.of_N n) |}.
Proof.
  unfold deriveUnifiedDedupeRef, unified_event. cbn -[bigint_of_string str_split zeros].
  rewrite str_split_app.
  - cbn -[bigint_of_string zeros]. by rewrite bigint_of_padded.
  - apply all_digits_free; [done|]. by rewrite all_digits_app, all_digits_zeros, all_digits_pretty.
Qed.

Lemma pretty_Z_inj (n m : N) : pretty (Z.of_N n) = pretty (Z.of_N m) → n = m.
Proof. intros H%(inj pretty). lia. Qed.

(** the two transports name an operation alike.  The key derived from a
    Horizon record and the key derived from a unified event, whose number is
    zero-padded and followed by the event's index, are equal exactly when both
    come from the same operation of the same transaction. *)
Theorem transport_keys_agree h n rest h' k n' i :
  no_char ":"%char h = true → no_char ":"%char h' = true →
  deriveDedupeKey <$> deriveHorizonDedupeRef (horizon_operation h n rest)
    = deriveDedupeKey <$> deriveUnifiedDedupeRef (unified_event h' k n' i)
  ↔ h = h' ∧ n = n'.
Proof.
  intros Hh Hh'. rewrite horizon_ref, unified_ref. cbn. split; [|by intros [-> ->]].
  unfold deriveDedupeKey. cbn. intros [= H].
  destruct (split_at_char ":"%char h h' (pretty (Z.of_N n)) (pretty (Z.of_N n'))) as [-> Hn];
    [done..|]. split; [done|by apply pretty_Z_inj].
Qed.

Lemma transport_keys_agree_witness :
  deriveDedupeKey <$> deriveHorizonDedupeRef (horizon_operation "ab" 4096 [])
    = deriveDedupeKey <$> deriveUnifiedDedupeRef (unified_event "ab" 3 4096 "0000000001").
Proof. apply transport_keys_agree; [reflexivity|reflexivity|split; reflexivity]. Defined.

(** ** What reaches the queue *)

Section ingest_facts.
Context {Semantic : Type}.
Context (fts : Z → nat → string) (b64 : string → list Z).
Context (sem : string → list jsval → jsval → option Semantic).

(** transport routing is exclusive.  In unified mode no payment and no
    trustline authorization of the Horizon stream reaches the queue; in Horizon
    mode every normalized record does; and a queued event carries a dedupe key
    only in those two families, the only ones both transports can deliver. *)
Theorem ingest_exclusive mode record e :
  _normalize fts b64 sem record = Ok (Normalized e) →
  let both_transports := family_of e = Some fam_payment ∨ family_of e = Some fam_trustlineAuth in
  (mode = via_unified → both_transports →
     ingest fts b64 sem mode record = Ok (LeftToUnified e)) ∧
  (mode = via_horizon ∨ ¬ both_transports →
     ∃ dd, ingest fts b64 sem mode record = Ok (Enqueued e dd) ∧
       (is_Some dd → both_transports)).
Proof.
  intros Hn. assert (horizonEventFamily record = Own <$> family_of e) as Hf.
  { destruct (nullish record) eqn:Hr; [unfold _normalize, readable in Hn; by rewrite Hr in Hn|].
    by eapply dispatch_event; [apply _normalize_dispatch|]. }
  unfold ingest. rewrite Hn. cbn -[horizonEventFamily]. unfold horizon_dedupe.
  rewrite Hf. clear Hf Hn. destruct (family_of e) as [f|]; cbn.
  - destruct mode, f; cbn; (split; [naive_solver|]); intros [?|Hx]; try done;
      try (exfalso; by apply Hx; auto); eexists; (split; [done|]); by first [auto|intros []].
  - split; [naive_solver|]. intros _. exists None. split; [done|]. by intros [].
Qed.
End ingest_facts.

Lemma ingest_exclusive_witness :
  _normalize no_fraction no_bytes no_semantic sample_payment
    = Ok (Normalized (PendingPayment {| pay_to := "GB"; pay_from := "GA"; pay_amount := "1.0000000";
       pay_asset := "XLM"; pay_timestamp := "2026-01-01T00:00:00Z";
       pay_identity := {| id_txHash := Some "abc"; id_ledger := None; id_memo := None |};
       pay_raw := sample_payment |})) ∧
  ∃ e, ingest no_fraction no_bytes no_semantic via_unified sample_payment = Ok (LeftToUnified e).
Proof.
  split; [reflexivity|]. eexists.
  refine (proj1 (ingest_exclusive no_fraction no_bytes no_semantic via_unified sample_payment _ _)
    eq_refl _); [reflexivity|left; reflexivity].
Defined.
