(* ===== verification/Stream.v ===== *)
(** * The Horizon stream: opening, failing, reconnecting, stopping
    (packages/pulse-core/src/EventEngine.ts, [start], [openStream],
     [handleStreamError], [stop] and their helpers; backoff.ts)

    The stream's side of the engine.  Opening reads the cursor store first when
    there is one, so the stream appears a promise later; the promise carries the
    epoch it was started in.  A closed stream calls nothing back.  Delays are
    exact: [Math.random()] is a multiple of [2^-53]. *)

From S2P Require Import Prelude.
From S2P Require Import JsValue.
From S2P Require Import Decimal.
From S2P Require Import Dedupe.
From S2P Require Import Route.

(** ** Delays *)

Definition RANDOM_UNIT : Z := 2 ^ 53.

(** [random] is [Math.random()] in units of [2^-53]. *)
Definition fullJitterBackoffMs (random attempt initialDelayMs maxDelayMs : Z) : Z :=
  let exponentialDelay := Z.min (initialDelayMs * 2 ^ (attempt - 1)) maxDelayMs in
  (random * exponentialDelay / RANDOM_UNIT)%Z.

(** What [headers] may be: an object with a [get] method, or any value. *)
Inductive Headers :=
  | HeaderMap (get : string → jsval)
  | HeaderValue (v : jsval).

(** A stream error: its fields, and the two places headers are looked up. *)
Record StreamError := {
  err_value : jsval;
  err_headers : Headers;
  err_response_headers : Headers;
}.

Definition nonempty_string (v : option string) : option string :=
  match v with Some EmptyString => None | _ => v end.

(** [a ?? b] on fields read by [getNumericField] and [getStringField]. *)
Definition or_else {A} (a b : option A) : option A :=
  match a with Some _ => a | None => b end.

Definition extractStatus (e : StreamError) : option jsnum :=
  let v := err_value e in
  if negb (is_object v) then None
  else
    let response := prop v "response" in
    or_else (as_number (prop v "status"))
      (or_else (as_number (prop v "statusCode"))
        (if is_object response then
           or_else (as_number (prop response "status")) (as_number (prop response "statusCode"))
         else None)).

(** A status equal to 429, however the number is written. *)
Definition isRateLimitError (e : StreamError) : bool :=
  match extractStatus e with
  | Some n => bool_decide (as_integer n = Some 429%Z)
  | None => false
  end.

Definition getHeaderValueFromHeaders (h : Headers) (headerName : string) : option string :=
  let lowerName := to_lower headerName in
  match h with
  | HeaderMap get => as_string (coalesce (get headerName) (get lowerName))
  | HeaderValue v =>
      if is_object v then or_else (as_string (prop v headerName)) (as_string (prop v lowerName))
      else None
  end.

Definition getHeaderValue (e : StreamError) (headerName : string) : option string :=
  let v := err_value e in
  if negb (is_object v) then None
  else
    let direct := or_else (as_string (prop v headerName)) (as_string (prop v (to_lower headerName))) in
    let responseHeaders :=
      if is_object (prop v "response") then err_response_headers e else HeaderValue JUndef in
    or_else (nonempty_string direct)
      (or_else (nonempty_string (getHeaderValueFromHeaders (err_headers e) headerName))
        (nonempty_string (getHeaderValueFromHeaders responseHeaders headerName))).

Section stream.
(** [new Date(s).getTime()], [None] for [NaN]. *)
Context (date_ms : string → option Z).
Context (initialDelayMs maxDelayMs : Z).
(** [None] is the default, [Infinity]. *)
Context (maxRetries : option Z).
Context (hasCursorStore : bool).

Definition parseRetryAfterMs (now : Z) (e : StreamError) : option Z :=
  header ← getHeaderValue e "Retry-After";
  match parse_int header with
  | Some seconds => Some (seconds * 1000)%Z
  | None => (λ date, Z.max (date - now) 0) <$> date_ms header
  end.

Record Stream := {
  isRunning : bool;
  stopStream : option nat;
  reconnectTimer : option Z;
  reconnectAttempt : Z;
  pendingReconnectSuccessAttempt : option Z;
  horizonCursor : option string;
  streamEpoch : nat;
  (** the epochs whose cursor is being read *)
  resolving : list nat;
  (** the streams the server holds open, and the next one's number *)
  openStreams : gset nat;
  nextStream : nat;
}.

Definition initial_stream : Stream :=
  {| isRunning := false; stopStream := None; reconnectTimer := None; reconnectAttempt := 0;
     pendingReconnectSuccessAttempt := None; horizonCursor := None; streamEpoch := 0;
     resolving := []; openStreams := ∅; nextStream := 0 |}.

Definition closeStream (s : Stream) : Stream :=
  match stopStream s with
  | None => s
  | Some i =>
      {| isRunning := isRunning s; stopStream := None; reconnectTimer := reconnectTimer s;
         reconnectAttempt := reconnectAttempt s;
         pendingReconnectSuccessAttempt := pendingReconnectSuccessAttempt s;
         horizonCursor := horizonCursor s; streamEpoch := streamEpoch s;
         resolving := resolving s; openStreams := openStreams s ∖ {[i]};
         nextStream := nextStream s |}
  end.

(** [this.stopStream = this.server...stream(callbacks)] *)
Definition connect (cursor : string) (s : Stream) : Stream :=
  {| isRunning := isRunning s; stopStream := Some (nextStream s);
     reconnectTimer := reconnectTimer s; reconnectAttempt := reconnectAttempt s;
     pendingReconnectSuccessAttempt := pendingReconnectSuccessAttempt s;
     horizonCursor := Some cursor; streamEpoch := streamEpoch s; resolving := resolving s;
     openStreams := {[nextStream s]} ∪ openStreams s; nextStream := S (nextStream s) |}.

Definition openStream (isReconnect : bool) (s0 : Stream) : Stream :=
  let s := closeStream s0 in
  let epoch := S (streamEpoch s) in
  let s1 :=
    {| isRunning := true; stopStream := stopStream s; reconnectTimer := None;
       reconnectAttempt := reconnectAttempt s;
       pendingReconnectSuccessAttempt :=
         if isReconnect then Some (reconnectAttempt s) else None;
       horizonCursor := Some "now"; streamEpoch := epoch;
       resolving := if hasCursorStore then epoch :: resolving s else resolving s;
       openStreams := openStreams s; nextStream := nextStream s |} in
  if hasCursorStore then s1 else connect "now" s1.

(** The continuation of [resolveStreamCursor]. *)
Definition cursorResolved (epoch : nat) (cursor : string) (s : Stream) : Stream :=
  let s1 :=
    {| isRunning := isRunning s; stopStream := stopStream s; reconnectTimer := reconnectTimer s;
       reconnectAttempt := reconnectAttempt s;
       pendingReconnectSuccessAttempt := pendingReconnectSuccessAttempt s;
       horizonCursor := horizonCursor s; streamEpoch := streamEpoch s;
       resolving := filter (λ e, e ≠ epoch) (resolving s); openStreams := openStreams s;
       nextStream := nextStream s |} in
  if negb (epoch =? streamEpoch s) || negb (isRunning s) then s1 else connect cursor s1.

Inductive StartError := EngineAlreadyStartedError | NetworkMismatchError.

(** The Horizon part of [start]; [networkMismatch] is the answer of the cached
    network probe. *)
Definition start (strict networkMismatch : bool) (s : Stream) : result StartError bool * Stream :=
  if isRunning s || bool_decide (is_Some (reconnectTimer s)) then
    (if strict then Err EngineAlreadyStartedError else Ok false, s)
  else if networkMismatch then (Err NetworkMismatchError, s)
  else (Ok true, openStream false s).

(** The first record after a reconnect reports success and resets the count. *)
Definition reconnect_succeeded (s : Stream) : list Notice * Stream :=
  match pendingReconnectSuccessAttempt s with
  | None => ([], s)
  | Some attempt =>
      ([Reconnected attempt],
       {| isRunning := isRunning s; stopStream := stopStream s;
          reconnectTimer := reconnectTimer s; reconnectAttempt := 0;
          pendingReconnectSuccessAttempt := None; horizonCursor := horizonCursor s;
          streamEpoch := streamEpoch s; resolving := resolving s;
          openStreams := openStreams s; nextStream := nextStream s |})
  end.

Definition getHorizonCursor (record : jsval) : option string :=
  if negb (is_object record) then None
  else or_else (as_string (prop record "paging_token")) (as_string (prop record "pagingToken")).

Definition with_cursor (c : option string) (s : Stream) : Stream :=
  match c with
  | None => s
  | Some cursor =>
      {| isRunning := isRunning s; stopStream := stopStream s;
         reconnectTimer := reconnectTimer s; reconnectAttempt := reconnectAttempt s;
         pendingReconnectSuccessAttempt := pendingReconnectSuccessAttempt s;
         horizonCursor := Some cursor; streamEpoch := streamEpoch s; resolving := resolving s;
         openStreams := openStreams s; nextStream := nextStream s |}
  end.

(** The head of [onmessage]; what follows is [Ingest.ingest]. *)
Definition message (record : jsval) (s : Stream) : list Notice * Stream :=
  let '(notices, s1) := reconnect_succeeded s in
  (notices, with_cursor (getHorizonCursor record) s1).

(** The delay before the next attempt, and how it is announced. *)
Definition reconnect_delay (now random attempt : Z) (e : StreamError) : Z * Notice :=
  if isRateLimitError e then
    let delayMs := default 60000%Z (parseRetryAfterMs now e) in
    (delayMs, RateLimited attempt delayMs)
  else
    let delayMs := fullJitterBackoffMs random attempt initialDelayMs maxDelayMs in
    (delayMs, Reconnecting attempt delayMs).

Definition exceeds_retries (attempt : Z) : bool :=
  match maxRetries with Some n => (n <? attempt)%Z | None => false end.

Definition handleStreamError (now random : Z) (e : StreamError) (s0 : Stream)
    : list Notice * Stream :=
  if bool_decide (is_Some (reconnectTimer s0)) then ([], s0)
  else
    let s := closeStream s0 in
    let nextAttempt := (reconnectAttempt s + 1)%Z in
    let '(delayMs, notice) := reconnect_delay now random nextAttempt e in
    let giveUp := exceeds_retries nextAttempt in
    (if giveUp then [] else [notice],
     {| isRunning := false; stopStream := stopStream s;
        reconnectTimer := if giveUp then None else Some delayMs;
        reconnectAttempt := if giveUp then reconnectAttempt s else nextAttempt;
        pendingReconnectSuccessAttempt := None; horizonCursor := horizonCursor s;
        streamEpoch := streamEpoch s; resolving := resolving s;
        openStreams := openStreams s; nextStream := nextStream s |}).

(** The reconnect timer fires: it is cleared and the stream reopened. *)
Definition timerFired (s : Stream) : Stream := openStream true s.

(** The Horizon part of [stop]. *)
Definition stop (s0 : Stream) : list Notice * Stream :=
  let s := closeStream s0 in
  ([Stopped],
   {| isRunning := false; stopStream := stopStream s; reconnectTimer := None;
      reconnectAttempt := 0; pendingReconnectSuccessAttempt := None; horizonCursor := None;
      streamEpoch := streamEpoch s; resolving := resolving s; openStreams := openStreams s;
      nextStream := nextStream s |}).

(** ** The stream as a state machine *)

(** What happens to the stream, with the conditions under which it can. *)
Inductive stream_step : Stream → list Notice → Stream → Prop :=
  | step_start strict mismatch r s s' :
      start strict mismatch s = (r, s') → stream_step s [] s'
  | step_resolved epoch cursor s :
      epoch ∈ resolving s → stream_step s [] (cursorResolved epoch cursor s)
  | step_message record i s n s' :
      stopStream s = Some i → message record s = (n, s') → stream_step s n s'
  | step_error now random e i s n s' :
      stopStream s = Some i → handleStreamError now random e s = (n, s') → stream_step s n s'
  | step_timer d s : reconnectTimer s = Some d → stream_step s [] (timerFired s)
  | step_stop s n s' : stop s = (n, s') → stream_step s n s'.

Inductive stream_reachable : Stream → Prop :=
  | reach_initial : stream_reachable initial_stream
  | reach_step s n s' : stream_reachable s → stream_step s n s' → stream_reachable s'.

(** ** Invariant *)

Record stream_inv (s : Stream) : Prop := {
  inv_open : openStreams s = match stopStream s with Some i => {[i]} | None => ∅ end;
  inv_running : ∀ i, stopStream s = Some i → isRunning s = true;
  inv_timer : ∀ d, reconnectTimer s = Some d → isRunning s = false;
  inv_epochs : NoDup (resolving s) ∧ ∀ e, e ∈ resolving s → e ≤ streamEpoch s;
  inv_pending : streamEpoch s ∈ resolving s → stopStream s = None;
  inv_attempt : (0 ≤ reconnectAttempt s)%Z ∧
    ∀ n, maxRetries = Some n → (reconnectAttempt s ≤ Z.max n 0)%Z;
  inv_report : ∀ a, pendingReconnectSuccessAttempt s = Some a →
    a = reconnectAttempt s ∧ isRunning s = true;
}.

Lemma closeStream_frame s :
  stopStream (closeStream s) = None ∧ reconnectTimer (closeStream s) = reconnectTimer s ∧
  reconnectAttempt (closeStream s) = reconnectAttempt s ∧
  streamEpoch (closeStream s) = streamEpoch s ∧ resolving (closeStream s) = resolving s.
Proof. unfold closeStream. by destruct (stopStream s) eqn:E. Qed.

Lemma closeStream_open s : stream_inv s → openStreams (closeStream s) = ∅.
Proof.
  intros [Ho _ _ _ _ _ _]. unfold closeStream. destruct (stopStream s); cbn; rewrite Ho; [|done].
  set_solver.
Qed.

Lemma initial_inv : stream_inv initial_stream.
Proof.
  constructor; cbn; try done.
  - split; [apply NoDup_nil_2|]. set_solver.
  - split; [done|]. intros; lia.
Qed.

Lemma openStream_inv b s : stream_inv s → stream_inv (openStream b s).
Proof.
  intros Hs. pose proof (closeStream_open s Hs) as Ho.
  destruct (closeStream_frame s) as (Hst & _ & Ha & He & Hr).
  destruct Hs as [_ _ _ [Hnd Hle] _ Hatt _]. unfold openStream.
  destruct hasCursorStore; constructor; cbn; rewrite ?Ho, ?Hst, ?Ha, ?He, ?Hr; try done.
  - split.
    + apply NoDup_cons. split; [|done]. intros Hin%Hle. lia.
    + intros e [->|Hin%Hle]%elem_of_cons; lia.
  - intros a. destruct b; [|done]. by intros [= <-].
  - apply union_empty_r_L.
  - split; [done|]. intros e Hin%Hle. lia.
  - intros Hin%Hle. lia.
  - intros a. destruct b; [|done]. by intros [= <-].
Qed.

Lemma cursorResolved_inv e c s : stream_inv s → e ∈ resolving s → stream_inv (cursorResolved e c s).
Proof.
  intros [Ho Hr Ht [Hnd Hle] Hp Ha Hrep] Hin. unfold cursorResolved.
  assert (NoDup (filter (λ e', e' ≠ e) (resolving s))) as Hnd' by by apply NoDup_filter.
  destruct (Nat.eqb_spec e (streamEpoch s)) as [->|Hne]; cbn.
  - destruct (isRunning s) eqn:Hrun; cbn; constructor; cbn; try done; try (by auto).
    + specialize (Hp Hin). rewrite Hp in Ho. rewrite Ho. set_solver.
    + split; [done|]. intros x [_ Hx]%list_elem_of_filter. auto.
    + intros [Hx _]%list_elem_of_filter. done.
    + split; [done|]. intros x [_ Hx]%list_elem_of_filter. auto.
  - constructor; cbn; try done; try (by auto).
    + split; [done|]. intros x [_ Hx]%list_elem_of_filter. auto.
    + intros [_ Hx]%list_elem_of_filter. auto.
Qed.

Lemma message_inv r s n s' : stream_inv s → message r s = (n, s') → stream_inv s'.
Proof.
  intros [Ho Hr Ht He Hp [Ha1 Ha2] Hrep]. unfold message, reconnect_succeeded.
  destruct (pendingReconnectSuccessAttempt s) as [a|] eqn:Hpend; intros [= <- <-];
    destruct (getHorizonCursor r); constructor; cbn; try done; try (by rewrite Hpend);
    split; try done; intros; lia.
Qed.

Lemma handleStreamError_inv now random e s n s' :
  stream_inv s → handleStreamError now random e s = (n, s') → stream_inv s'.
Proof.
  intros Hs. unfold handleStreamError. destruct (bool_decide _); [by intros [= <- <-]|].
  pose proof (closeStream_open s Hs) as Ho.
  destruct (closeStream_frame s) as (Hst & _ & Ha & He & Hr).
  destruct Hs as [_ _ _ Hep _ [Ha1 Ha2] _].
  destruct (reconnect_delay _ _ _ _) as [d notice]. intros [= <- <-].
  constructor; cbn; rewrite ?Ho, ?Hst, ?Ha, ?He, ?Hr; try done.
  unfold exceeds_retries. destruct maxRetries as [m|].
  - destruct (Z.ltb_spec m (reconnectAttempt s + 1)); split; try lia; [done|].
    intros ? [= <-]. lia.
  - split; [lia|done].
Qed.

Lemma stop_inv s n s' : stream_inv s → stop s = (n, s') → stream_inv s'.
Proof.
  intros Hs. unfold stop. intros [= <- <-]. pose proof (closeStream_open s Hs) as Ho.
  destruct (closeStream_frame s) as (Hst & _ & Ha & He & Hr).
  destruct Hs as [_ _ _ Hep _ _ _].
  constructor; cbn; rewrite ?Ho, ?Hst, ?He, ?Hr; try done. split; [done|]. intros; lia.
Qed.

Lemma stream_step_inv s n s' : stream_step s n s' → stream_inv s → stream_inv s'.
Proof.
  destruct 1 as [strict mismatch r s s' H|epoch c s Hin|r i s n s' Hi H|now random e i s n s' Hi H|d s H|s n s' H];
    intros Hs.
  - unfold start in H. destruct (_ || _); [by simplify_eq|].
    destruct mismatch; simplify_eq; [done|by apply openStream_inv].
  - by apply cursorResolved_inv.
  - by eapply message_inv.
  - by eapply handleStreamError_inv.
  - by apply openStream_inv.
  - by eapply stop_inv.
Qed.

Lemma reachable_inv s : stream_reachable s → stream_inv s.
Proof. induction 1; [apply initial_inv|by eapply stream_step_inv]. Qed.

(** C15: the engine never leaks a Horizon stream.  In every reachable state the
    server holds open exactly the stream the engine can still close: at most
    one, none while a reconnect is scheduled, and none when the engine is not
    running; and the attempt count never passes [maxRetries]. *)
Theorem stream_never_leaks s :
  stream_reachable s →
  (size (openStreams s) ≤ 1) ∧
  (∀ i, i ∈ openStreams s ↔ stopStream s = Some i) ∧
  (isRunning s = false ∨ is_Some (reconnectTimer s) → openStreams s = ∅) ∧
  (0 ≤ reconnectAttempt s)%Z ∧ (∀ n, maxRetries = Some n → (reconnectAttempt s ≤ Z.max n 0)%Z).
Proof.
  intros [Ho Hr Ht _ _ [Ha1 Ha2] _]%reachable_inv. rewrite Ho.
  split_and!; try done.
  - destruct (stopStream s); [by rewrite size_singleton|by rewrite size_empty; lia].
  - intros i. destruct (stopStream s); set_solver.
  - intros Hcase. destruct (stopStream s) as [i|] eqn:E; [|done]. exfalso.
    specialize (Hr i eq_refl). destruct Hcase as [|[d Hd]]; [congruence|].
    apply Ht in Hd. congruence.
Qed.

(** ** Reconnecting *)

Lemma jitter_bounds random attempt :
  (0 ≤ random < RANDOM_UNIT)%Z → (1 ≤ attempt)%Z → (0 < initialDelayMs)%Z → (0 < maxDelayMs)%Z →
  (0 ≤ fullJitterBackoffMs random attempt initialDelayMs maxDelayMs
     < Z.min (initialDelayMs * 2 ^ (attempt - 1)) maxDelayMs)%Z.
Proof.
  intros Hr Ha Hi Hm. unfold fullJitterBackoffMs.
  assert (0 < 2 ^ (attempt - 1))%Z by (apply Z.pow_pos_nonneg; lia).
  set (e := Z.min _ _). assert (0 < e)%Z by (subst e; apply Z.min_glb_lt; nia).
  assert (0 < RANDOM_UNIT)%Z by done.
  split; [apply Z.div_pos; nia|]. apply Z.div_lt_upper_bound; nia.
Qed.

(** what a stream error does.  The stream is closed; past [maxRetries] the
    engine gives up silently, otherwise one reconnect is scheduled and
    announced with its attempt number: after Horizon's own delay (a minute when
    it names none) on a rate limit, and otherwise after a random delay below
    the capped exponential one. *)
Theorem stream_error_outcome now random e s n s' :
  stream_reachable s → reconnectTimer s = None →
  (0 ≤ random < RANDOM_UNIT)%Z → (0 < initialDelayMs)%Z → (0 < maxDelayMs)%Z →
  handleStreamError now random e s = (n, s') →
  let attempt := (reconnectAttempt s + 1)%Z in
  openStreams s' = ∅ ∧ isRunning s' = false ∧
  if exceeds_retries attempt then
    n = [] ∧ reconnectTimer s' = None ∧ reconnectAttempt s' = reconnectAttempt s
  else
    ∃ d, reconnectTimer s' = Some d ∧ reconnectAttempt s' = attempt ∧
    if isRateLimitError e then
      n = [RateLimited attempt d] ∧ d = default 60000%Z (parseRetryAfterMs now e)
    else
      n = [Reconnecting attempt d] ∧
      (0 ≤ d < Z.min (initialDelayMs * 2 ^ reconnectAttempt s) maxDelayMs)%Z.
Proof.
  intros Hs%reachable_inv Ht Hrand Hi Hm. unfold handleStreamError. rewrite Ht. cbn [is_Some].
  rewrite bool_decide_false by by intros []. pose proof (closeStream_open s Hs) as Ho.
  destruct (closeStream_frame s) as (_ & _ & Ha & _). rewrite Ha.
  pose proof (jitter_bounds random (reconnectAttempt s + 1) Hrand) as Hj.
  replace (reconnectAttempt s + 1 - 1)%Z with (reconnectAttempt s) in Hj by lia.
  destruct Hs as [_ _ _ _ _ [Ha1 _] _].
  destruct (reconnect_delay _ _ _ _) as [d notice] eqn:Hd. intros [= <- <-]. cbn.
  split; [done|]. split; [done|]. destruct (exceeds_retries _); [done|].
  exists d. split; [done|]. split; [done|]. unfold reconnect_delay in Hd.
  destruct (isRateLimitError e); simplify_eq; split; try done. apply Hj; lia.
Qed.

(** The reopened stream: at once, or when the stored cursor has been read. *)
Definition reopened (cursor : string) (s : Stream) : Stream :=
  let s1 := timerFired s in
  if hasCursorStore then cursorResolved (streamEpoch s1) cursor s1 else s1.

(** a reconnect is reported with the number it was announced under.  When
    the timer fires the stream is open again, and its first record announces
    success with the attempt number of the last failure and resets the count. *)
Theorem reconnect_reports_attempt d cursor record s :
  stream_reachable s → reconnectTimer s = Some d →
  (∃ i, stopStream (reopened cursor s) = Some i) ∧
  isRunning (reopened cursor s) = true ∧ reconnectTimer (reopened cursor s) = None ∧
  ∃ s', message record (reopened cursor s) = ([Reconnected (reconnectAttempt s)], s') ∧
        reconnectAttempt s' = 0%Z ∧ pendingReconnectSuccessAttempt s' = None.
Proof.
  intros Hs%reachable_inv Ht. destruct (closeStream_frame s) as (_ & _ & Ha & _).
  unfold reopened, timerFired, openStream. destruct hasCursorStore.
  - unfold cursorResolved. cbn. rewrite Nat.eqb_refl. cbn.
    split_and!; [by eexists|done..|]. unfold message, reconnect_succeeded. cbn. rewrite Ha.
    eexists. split; [done|]. by destruct (getHorizonCursor record).
  - cbn. split_and!; [by eexists|done..|]. unfold message, reconnect_succeeded. cbn. rewrite Ha.
    eexists. split; [done|]. by destruct (getHorizonCursor record).
Qed.

(** ** Stopping *)

(** Steps other than a call to [start]. *)
Inductive steps_unstarted : Stream → Stream → Prop :=
  | unstarted_refl s : steps_unstarted s s
  | unstarted_step s n s1 s2 :
      stream_step s n s1 → (∀ strict mismatch r, start strict mismatch s ≠ (r, s1)) →
      steps_unstarted s1 s2 → steps_unstarted s s2.

Definition at_rest (s : Stream) : Prop :=
  isRunning s = false ∧ stopStream s = None ∧ reconnectTimer s = None ∧ openStreams s = ∅.

Lemma at_rest_step s n s' :
  stream_step s n s' → (∀ strict mismatch r, start strict mismatch s ≠ (r, s')) → at_rest s → at_rest s'.
Proof.
  destruct 1 as [strict mismatch r s s' H|epoch c s Hin|r i s n s' Hi H|now random e i s n s' Hi H|d s H|s n s' H];
    intros Hns (Hr & Hst & Ht & Ho).
  - by apply Hns in H.
  - unfold cursorResolved. rewrite Hr, orb_true_r. done.
  - congruence.
  - congruence.
  - congruence.
  - unfold stop in H. injection H as <- <-. unfold closeStream. by rewrite Hst.
Qed.

(** stopping is final.  After [stop] nothing but a new [start] brings the
    engine back: no pending cursor read, timer or late callback opens a stream
    or schedules a reconnect. *)
Theorem stop_is_final s n s1 s2 :
  stream_reachable s → stop s = (n, s1) → steps_unstarted s1 s2 → at_rest s2.
Proof.
  intros Hs%reachable_inv Hstop Hsteps. assert (at_rest s1) as Hrest.
  { unfold stop in Hstop. injection Hstop as <- <-.
    destruct (closeStream_frame s) as (Hst & _). split_and!; try done.
    by apply closeStream_open. }
  clear Hstop Hs. induction Hsteps as [|s1 n' s2 s3 Hstep Hns _ IH]; [done|].
  apply IH. by eapply at_rest_step.
Qed.

(** An engine that gave up does not get its retries back by being started
    again: only [stop], or a reconnect that succeeds, resets the count. *)
Lemma restart_after_giving_up now random e m s :
  maxRetries = Some m → (reconnectAttempt s = m) → reconnectTimer s = None → isRunning s = false →
  ∃ s1, start false false s = (Ok true, s1) ∧
    (handleStreamError now random e s1).1 = [] ∧
    reconnectTimer (handleStreamError now random e s1).2 = None.
Proof.
  intros Hmax Ha Ht Hr. unfold start. rewrite Hr, Ht. cbn.
  eexists. split; [done|].
  destruct (closeStream_frame s) as (_ & _ & Hc & _).
  assert (∀ b, reconnectAttempt (openStream b s) = m ∧ reconnectTimer (openStream b s) = None) as Hopen.
  { intros b. unfold openStream. destruct hasCursorStore; cbn; by rewrite Hc. }
  destruct (Hopen false) as [H1 H2]. unfold handleStreamError. rewrite H2.
  rewrite bool_decide_false by by intros [].
  destruct (closeStream_frame (openStream false s)) as (_ & _ & Hc' & _). rewrite Hc', H1.
  unfold exceeds_retries. rewrite Hmax. destruct (Z.ltb_spec m (m + 1)); [|lia].
  by destruct (reconnect_delay _ _ _ _).
Qed.
End stream.

(** ** Witnesses *)

Definition no_date (s : string) : option Z := None.

Definition sample_error : StreamError :=
  {| err_value := JObj [("status", JNum (jint 429)); ("retry-after", JStr "7")];
     err_headers := HeaderValue JUndef; err_response_headers := HeaderValue JUndef |}.

(** Started, then failed. *)
Definition running_stream : Stream := (start false false false initial_stream).2.
Definition failed_stream : Stream :=
  (handleStreamError no_date 1000 30000 None 0 0 sample_error running_stream).2.

Lemma running_reachable : stream_reachable no_date 1000 30000 None false running_stream.
Proof.
  eapply reach_step; [apply reach_initial|].
  eapply (step_start _ _ _ _ _ false false (Ok true)). reflexivity.
Qed.

Lemma failed_reachable : stream_reachable no_date 1000 30000 None false failed_stream.
Proof.
  eapply reach_step; [apply running_reachable|].
  eapply (step_error _ _ _ _ _ 0 0 sample_error 0); reflexivity.
Qed.

Lemma stream_never_leaks_witness :
  openStreams running_stream = {[0]} ∧ size (openStreams running_stream) ≤ 1.
Proof.
  split; [apply (bool_decide_unpack _); vm_compute; reflexivity|].
  apply (stream_never_leaks no_date 1000 30000 None false), running_reachable.
Defined.

Lemma stream_error_outcome_witness :
  ∃ d, reconnectTimer failed_stream = Some d ∧ d = 7000%Z.
Proof.
  destruct (stream_error_outcome no_date 1000 30000 None false 0 0 sample_error running_stream
    (handleStreamError no_date 1000 30000 None 0 0 sample_error running_stream).1 failed_stream)
    as (_ & _ & d & Hd & _ & _ & Hv);
    [apply running_reachable|reflexivity|split; [lia|reflexivity]|lia|lia|reflexivity|].
  exists d. split; [exact Hd|exact Hv].
Defined.

Lemma reconnect_reports_attempt_witness :
  ∃ s', message (JObj [("paging_token", JStr "9")]) (reopened false "now" failed_stream)
    = ([Reconnected 1], s') ∧ reconnectAttempt s' = 0%Z.
Proof.
  destruct (reconnect_reports_attempt no_date 1000 30000 None false 7000 "now"
    (JObj [("paging_token", JStr "9")]) failed_stream) as (_ & _ & _ & s' & Hm & Ha & _);
    [apply failed_reachable|reflexivity|].
  exists s'. split; [exact Hm|exact Ha].
Defined.

Lemma stop_is_final_witness :
  at_rest (stop failed_stream).2 ∧ reconnectTimer failed_stream = Some 7000%Z.
Proof.
  split; [|reflexivity].
  apply (stop_is_final no_date 1000 30000 None false failed_stream [Stopped] (stop failed_stream).2);
    [apply failed_reachable|reflexivity|apply unstarted_refl].
Defined.
