(* ===== verification/Coverage.v ===== *)
(** * The coverage ledger of backstop subscriptions
    (packages/worker-core/src/subscription/coverage.ts)

    An append-only record of half-open windows of ledgers, each saying whether
    the subscription was backstopped.  A window is checked on the way in: the
    raw numbers of the caller become integers there. *)

From Stdlib Require Import Sorted.
From S2P Require Import Prelude.
From S2P Require Import JsMap.

Inductive CoverageReason := reason_active | reason_grace | reason_lapsed | reason_cancelled.

#[export] Instance CoverageReason_eq_dec : EqDecision CoverageReason.
Proof. solve_decision. Defined.

Record CoverageWindow := {
  subscriptionId : string;
  startLedger : Z;
  endLedger : Z;
  covered : bool;
  reason : CoverageReason;
}.

(** A window as it is handed in. *)
Record RawWindow := {
  raw_subscriptionId : string;
  raw_startLedger : jsnum;
  raw_endLedger : jsnum;
  raw_covered : bool;
  raw_reason : CoverageReason;
}.

Inductive CoverageLedgerError :=
  | LEDGER_OUT_OF_RANGE (label : string) (value : jsnum)
  | EMPTY_WINDOW (startLedger endLedger : Z)
  | OVERLAPPING_WINDOW (w stored : CoverageWindow)
  | INCONSISTENT_REASON (reason : CoverageReason) (covered : bool).

Definition isCoveredReason (r : CoverageReason) : bool :=
  match r with reason_active | reason_grace => true | _ => false end.

Definition assertLedger (value : jsnum) (label : string) : result CoverageLedgerError Z :=
  match as_safe_integer value with
  | Some z => if (z <? 0)%Z then Err (LEDGER_OUT_OF_RANGE label value) else Ok z
  | None => Err (LEDGER_OUT_OF_RANGE label value)
  end.

Definition assertValidCoverageWindow (w : RawWindow) : result CoverageLedgerError CoverageWindow :=
  startL ← assertLedger (raw_startLedger w) "startLedger";
  endL ← assertLedger (raw_endLedger w) "endLedger";
  _ ← reject_if (endL <=? startL)%Z (EMPTY_WINDOW startL endL);
  _ ← reject_if (negb (Bool.eqb (raw_covered w) (isCoveredReason (raw_reason w))))
        (INCONSISTENT_REASON (raw_reason w) (raw_covered w));
  Ok {| subscriptionId := raw_subscriptionId w; startLedger := startL; endLedger := endL;
        covered := raw_covered w; reason := raw_reason w |}.

(** Two half-open intervals meet. *)
Definition overlaps (s e : Z) (w : CoverageWindow) : bool :=
  ((s <? endLedger w) && (startLedger w <? e))%Z.

(** The stable sort by [startLedger]. *)
Fixpoint insert_window (w : CoverageWindow) (l : list CoverageWindow) : list CoverageWindow :=
  match l with
  | [] => [w]
  | x :: l' => if (startLedger w <? startLedger x)%Z then w :: l else x :: insert_window w l'
  end.

Definition sort_windows (l : list CoverageWindow) : list CoverageWindow :=
  foldl (λ acc w, insert_window w acc) [] l.

Definition CoverageLedger := jsmap string (list CoverageWindow).

Definition history (id : string) (ledger : CoverageLedger) : list CoverageWindow :=
  default [] (mget id ledger).

Definition append (raw : RawWindow) (ledger : CoverageLedger)
    : result CoverageLedgerError CoverageLedger :=
  w ← assertValidCoverageWindow raw;
  let existing := history (subscriptionId w) ledger in
  match List.find (overlaps (startLedger w) (endLedger w)) existing with
  | Some stored => Err (OVERLAPPING_WINDOW w stored)
  | None => Ok (mset (subscriptionId w) (sort_windows (existing ++ [w])) ledger)
  end.

Definition contains (n : Z) (w : CoverageWindow) : bool :=
  ((startLedger w <=? n) && (n <? endLedger w))%Z.

Definition findAt (id : string) (at_ledger : jsnum) (ledger : CoverageLedger)
    : result CoverageLedgerError (option CoverageWindow) :=
  n ← assertLedger at_ledger "ledger";
  Ok (List.find (contains n) (history id ledger)).

(** [None] is "no record", which is not "not covered". *)
Definition wasCovered (id : string) (at_ledger : jsnum) (ledger : CoverageLedger)
    : result CoverageLedgerError (option bool) :=
  match findAt id at_ledger ledger with
  | Ok window => Ok (covered <$> window)
  | Err e => Err e
  end.

Inductive CoverageAnswer := answer_covered | answer_uncovered | answer_partial | answer_unknown.

#[export] Instance CoverageAnswer_eq_dec : EqDecision CoverageAnswer.
Proof. solve_decision. Defined.

(** The loop over the overlapping windows: [None] when one starts past the
    cursor, the final cursor otherwise. *)
Fixpoint sweep (cursor : Z) (ws : list CoverageWindow) : option Z :=
  match ws with
  | [] => Some cursor
  | w :: ws' =>
      if (cursor <? startLedger w)%Z then None else sweep (Z.max cursor (endLedger w)) ws'
  end.

Definition coverage_of (s e : Z) (stored : list CoverageWindow) : CoverageAnswer :=
  match filter (λ w, overlaps s e w = true) stored with
  | [] => answer_unknown
  | overlapping =>
      match sweep s overlapping with
      | None => answer_unknown
      | Some cursor =>
          if (cursor <? e)%Z then answer_unknown
          else
            let n := length (filter (λ w, covered w = true) overlapping) in
            if n =? length overlapping then answer_covered
            else if n =? 0 then answer_uncovered
            else answer_partial
      end
  end.

Definition coverageForWindow (id : string) (startRaw endRaw : jsnum) (ledger : CoverageLedger)
    : result CoverageLedgerError CoverageAnswer :=
  s ← assertLedger startRaw "startLedger";
  e ← assertLedger endRaw "endLedger";
  _ ← reject_if (e <=? s)%Z (EMPTY_WINDOW s e);
  Ok (coverage_of s e (history id ledger)).

(** ** The invariant of the record *)

Definition window_ok (id : string) (w : CoverageWindow) : Prop :=
  subscriptionId w = id ∧ (0 ≤ startLedger w)%Z ∧ (startLedger w < endLedger w)%Z ∧
  covered w = isCoveredReason (reason w).

(** Well-formed windows, one after the other. *)
Definition windows_ok (id : string) (ws : list CoverageWindow) : Prop :=
  Forall (window_ok id) ws ∧
  StronglySorted (λ a b, (endLedger a ≤ startLedger b)%Z) ws.

Definition ledger_wf (ledger : CoverageLedger) : Prop :=
  mwf ledger ∧ ∀ id, windows_ok id (history id ledger).

(** ** Lemmas *)

Lemma assertLedger_Ok v label z : assertLedger v label = Ok z → (0 ≤ z)%Z.
Proof.
  unfold assertLedger. destruct (as_safe_integer v); [|done].
  destruct (_ <? _)%Z eqn:E; [done|]. intros [= <-]. bool_to_prop. done.
Qed.

Lemma assertValid_Ok raw w : assertValidCoverageWindow raw = Ok w →
  window_ok (raw_subscriptionId raw) w.
Proof.
  unfold assertValidCoverageWindow. intros (s & Hs & H)%result_bind_Ok.
  apply result_bind_Ok in H as (e & He & (u & Hu & (u' & Hu' & [= <-])%result_bind_Ok)%result_bind_Ok).
  apply reject_if_Ok_any in Hu, Hu'. apply assertLedger_Ok in Hs. bool_to_prop.
  apply eqb_prop in Hu'. done.
Qed.

Lemma overlaps_false s e w :
  overlaps s e w = false ↔ (endLedger w ≤ s)%Z ∨ (e ≤ startLedger w)%Z.
Proof. unfold overlaps. rewrite andb_false_iff, !Z.ltb_ge. done. Qed.

Lemma overlaps_true s e w :
  overlaps s e w = true ↔ (s < endLedger w)%Z ∧ (startLedger w < e)%Z.
Proof. unfold overlaps. rewrite andb_true_iff, !Z.ltb_lt. done. Qed.

Lemma contains_true n w : contains n w = true ↔ (startLedger w ≤ n < endLedger w)%Z.
Proof. unfold contains. rewrite andb_true_iff, Z.leb_le, Z.ltb_lt. done. Qed.

Lemma insert_window_perm w l : insert_window w l ≡ₚ w :: l.
Proof.
  induction l as [|x l IH]; cbn; [done|]. destruct (_ <? _)%Z; [done|].
  rewrite IH. apply Permutation_swap.
Qed.

(** Inserting a window that overlaps none keeps the order. *)
Lemma insert_window_ok id w l :
  window_ok id w → windows_ok id l →
  (∀ x, x ∈ l → overlaps (startLedger w) (endLedger w) x = false) →
  windows_ok id (insert_window w l).
Proof.
  intros Hw [Hf Hs] Hno. split.
  { rewrite insert_window_perm. by constructor. }
  induction Hs as [|x l Hs IH Hx]; cbn; [repeat constructor|].
  apply Forall_cons in Hf as [Hxok Hf].
  assert (overlaps (startLedger w) (endLedger w) x = false) as Hwx%overlaps_false
    by (apply Hno; set_solver).
  destruct Hw as (? & ? & ? & ?), Hxok as (? & ? & ? & ?).
  destruct (Z.ltb_spec (startLedger w) (startLedger x)).
  - constructor; [by constructor|]. constructor; [lia|].
    eapply Forall_impl; [exact Hx|]. cbn. lia.
  - constructor; [apply IH; [done|]; intros; apply Hno; set_solver|].
    rewrite insert_window_perm. constructor; [lia|done].
Qed.

(** Sorting a sorted list with one window pushed at its end inserts it. *)
Lemma sort_windows_sorted l acc :
  StronglySorted (λ a b, (endLedger a ≤ startLedger b)%Z) (acc ++ l) →
  Forall (λ w, (startLedger w < endLedger w)%Z) (acc ++ l) →
  foldl (λ acc w, insert_window w acc) acc l = acc ++ l.
Proof.
  revert acc. induction l as [|w l IH]; intros acc Hs Hf; cbn; [by rewrite app_nil_r|].
  assert (insert_window w acc = acc ++ [w]) as ->.
  { clear IH. induction acc as [|x acc IH]; cbn in *; [done|].
    apply StronglySorted_inv in Hs as [Hs Hx]. apply Forall_cons in Hf as [Hxok Hf].
    rewrite Forall_forall in Hx. specialize (Hx w ltac:(set_solver)).
    destruct (Z.ltb_spec (startLedger w) (startLedger x)); [lia|]. by rewrite IH. }
  rewrite IH; rewrite <-?app_assoc; done.
Qed.

Lemma sort_windows_snoc id w l :
  windows_ok id l → sort_windows (l ++ [w]) = insert_window w l.
Proof.
  intros [Hf Hs]. unfold sort_windows. rewrite foldl_app. cbn. f_equal.
  apply (sort_windows_sorted l []); cbn; [done|].
  eapply Forall_impl; [exact Hf|]. by intros x (_ & _ & ? & _).
Qed.

(** ** Appending *)

Lemma history_mset id w ws ledger :
  history id (mset w ws ledger) = if decide (w = id) then ws else history id ledger.
Proof. unfold history. rewrite mget_mset. by case_decide. Qed.

Lemma append_wf raw ledger ledger' :
  ledger_wf ledger → append raw ledger = Ok ledger' → ledger_wf ledger'.
Proof.
  intros [Hm Hok]. unfold append. intros (w & Hw & H)%result_bind_Ok.
  destruct (List.find _ _) eqn:Hfind; simplify_eq.
  apply assertValid_Ok in Hw as Hwok. rewrite find_None_all in Hfind.
  split; [by apply mwf_mset|]. intros id. rewrite history_mset. case_decide; [|apply Hok]. subst.
  erewrite sort_windows_snoc by apply Hok.
  apply insert_window_ok; [by destruct Hwok as (_ & ?)|apply Hok|exact Hfind].
Qed.

(** A run of appends, each refused or taken. *)
Fixpoint append_all (raws : list RawWindow) (ledger : CoverageLedger) : CoverageLedger :=
  match raws with
  | [] => ledger
  | raw :: raws' =>
      append_all raws' (match append raw ledger with Ok l => l | Err _ => ledger end)
  end.

Lemma empty_ledger_wf : ledger_wf [].
Proof. split; [apply mwf_nil|]. intros id. split; constructor. Qed.

Lemma append_all_wf raws ledger : ledger_wf ledger → ledger_wf (append_all raws ledger).
Proof.
  revert ledger. induction raws as [|raw raws IH]; intros ledger Hw; cbn; [done|].
  apply IH. destruct (append raw ledger) eqn:E; [by eapply append_wf|done].
Qed.

Lemma append_history raw ledger ledger' id : ledger_wf ledger → append raw ledger = Ok ledger' →
  ∃ w, assertValidCoverageWindow raw = Ok w ∧
    history id ledger' ≡ₚ
      if decide (subscriptionId w = id) then w :: history id ledger else history id ledger.
Proof.
  intros [Hm Hok]. unfold append. intros (w & Hw & H)%result_bind_Ok.
  destruct (List.find _ _) eqn:Hfind; simplify_eq. exists w. split; [done|].
  rewrite history_mset. case_decide; [|done]. subst.
  erewrite sort_windows_snoc by apply Hok. apply insert_window_perm.
Qed.

(** the coverage record is append-only and never contradicts itself.  After
    any appends, refused ones included, every subscription's windows are
    non-empty, in ledger order and disjoint, each covered as its reason says;
    and one more accepted append adds its window and changes no stored one. *)
Theorem ledger_append_only raws raw ledger' :
  let ledger := append_all raws [] in
  ledger_wf ledger ∧
  (append raw ledger = Ok ledger' →
   ∃ w, assertValidCoverageWindow raw = Ok w ∧
     history (subscriptionId w) ledger' ≡ₚ w :: history (subscriptionId w) ledger ∧
     (∀ id, id ≠ subscriptionId w → history id ledger' = history id ledger) ∧
     (∀ x, x ∈ history (subscriptionId w) ledger →
        overlaps (startLedger w) (endLedger w) x = false)).
Proof.
  intros ledger. assert (ledger_wf ledger) as Hwf by apply append_all_wf, empty_ledger_wf.
  split; [done|]. intros Ha.
  unfold append in Ha. apply result_bind_Ok in Ha as (w & Hw & H).
  destruct (List.find _ _) eqn:Hfind; simplify_eq. rewrite find_None_all in Hfind.
  exists w. split_and!; [done| | |done].
  - rewrite history_mset, decide_True by done.
    erewrite sort_windows_snoc by apply Hwf. apply insert_window_perm.
  - intros id Hid. rewrite history_mset, decide_False by done. done.
Qed.

(** ** Reading *)

Lemma find_contains id ws w n :
  windows_ok id ws → w ∈ ws → contains n w = true → List.find (contains n) ws = Some w.
Proof.
  intros [Hf Hs] Hin Hc. induction Hs as [|x l Hs IH Hx]; [set_solver|]. cbn.
  apply Forall_cons in Hf as [Hxok Hf]. apply elem_of_cons in Hin as [->|Hin]; [by rewrite Hc|].
  rewrite Forall_forall in Hx. specialize (Hx w Hin).
  destruct (contains n x) eqn:Hcx; [|auto]. apply contains_true in Hcx, Hc. lia.
Qed.

Lemma assertLedger_jint n label :
  (0 ≤ n ≤ MAX_SAFE_INTEGER)%Z → assertLedger (jint n) label = Ok n.
Proof.
  intros Hn. unfold assertLedger, as_safe_integer. rewrite as_integer_jint. cbn.
  destruct (Z.leb_spec (Z.abs n) MAX_SAFE_INTEGER); [|lia].
  destruct (Z.ltb_spec n 0); [lia|done].
Qed.

Lemma assertLedger_jint_inv n label z :
  assertLedger (jint n) label = Ok z → z = n ∧ (0 ≤ n ≤ MAX_SAFE_INTEGER)%Z.
Proof.
  unfold assertLedger, as_safe_integer. rewrite as_integer_jint. cbn.
  destruct (Z.leb_spec (Z.abs n) MAX_SAFE_INTEGER); [|done].
  destruct (Z.ltb_spec n 0); [done|]. intros [= ->]. lia.
Qed.

(** What the loop establishes: below the final cursor every ledger is in one of
    the windows; a failure names a ledger in none. *)
Lemma sweep_covers cursor ws c :
  sweep cursor ws = Some c → ∀ n, (cursor ≤ n < c)%Z → ∃ w, w ∈ ws ∧ contains n w = true.
Proof.
  revert cursor. induction ws as [|w ws IH]; intros cursor; cbn.
  - intros [= ->]. lia.
  - destruct (Z.ltb_spec cursor (startLedger w)); [done|]. intros Hc n Hn.
    destruct (Z.lt_ge_cases n (endLedger w)).
    + exists w. split; [set_solver|]. apply contains_true. lia.
    + destruct (IH _ Hc n) as (x & Hx & Hxn); [lia|]. exists x. split; [set_solver|done].
Qed.

Lemma sweep_end cursor ws c w : sweep cursor ws = Some c → w ∈ ws → (endLedger w ≤ c)%Z.
Proof.
  assert (∀ ws k, sweep k ws = Some c → (k ≤ c)%Z) as Hmono.
  { induction ws0 as [|x ws0 IH]; intros k; cbn; [intros [= ->]; lia|].
    destruct (_ <? _)%Z; [done|]. intros ?%IH. lia. }
  revert cursor. induction ws as [|x ws IH]; intros cursor; cbn; [set_solver|].
  destruct (_ <? _)%Z; [done|]. intros Hs [->|Hin]%elem_of_cons; [|by eapply IH].
  apply Hmono in Hs. lia.
Qed.

Lemma sweep_gap e cursor ws :
  StronglySorted (λ a b, (endLedger a ≤ startLedger b)%Z) ws →
  Forall (λ w, (startLedger w < endLedger w)%Z ∧ (startLedger w < e)%Z) ws →
  sweep cursor ws = None →
  ∃ n, (cursor ≤ n < e)%Z ∧ ∀ w, w ∈ ws → contains n w = false.
Proof.
  intros Hs. revert cursor. induction Hs as [|w ws Hs IH Hw]; intros cursor Hf; cbn; [done|].
  apply Forall_cons in Hf as [[Hok He] Hf]. rewrite Forall_forall in Hw, Hf.
  assert (∀ n x, contains n x = false ↔ ¬ (startLedger x ≤ n < endLedger x)%Z) as Hcf.
  { intros n x. by rewrite <-contains_true, not_true_iff_false. }
  destruct (Z.ltb_spec cursor (startLedger w)).
  - intros _. exists cursor. split; [lia|]. intros x [->|Hx]%elem_of_cons; apply Hcf; [lia|].
    specialize (Hw x Hx). lia.
  - intros Hsw. destruct (IH (Z.max cursor (endLedger w))) as (n & Hn & Hno); [by apply Forall_forall|done|].
    exists n. split; [lia|]. intros x [->|Hx]%elem_of_cons; [apply Hcf; lia|auto].
Qed.

Lemma StronglySorted_filter {A} (R : A → A → Prop) (P : A → Prop) `{!∀ x, Decision (P x)} l :
  StronglySorted R l → StronglySorted R (filter P l).
Proof.
  induction 1 as [|x l Hs IH Hx]; [constructor|]. rewrite filter_cons. case_decide; [|done].
  constructor; [done|]. rewrite Forall_forall in *. intros y [_ Hy]%list_elem_of_filter. auto.
Qed.

(** The recorded answer for one ledger. *)
Definition recorded (n : Z) (ws : list CoverageWindow) : option bool :=
  covered <$> List.find (contains n) ws.

Lemma recorded_of id ws w n :
  windows_ok id ws → w ∈ ws → contains n w = true → recorded n ws = Some (covered w).
Proof. intros Hok Hw Hc. unfold recorded. by rewrite (find_contains id ws w n). Qed.

(** A ledger in none of the windows that meet [[s, e)] has no record. *)
Lemma recorded_none s e ws n :
  (s ≤ n < e)%Z → (∀ w, w ∈ filter (λ w, overlaps s e w = true) ws → contains n w = false) →
  recorded n ws = None.
Proof.
  intros Hn Hno. unfold recorded. rewrite (proj2 (find_None_all (contains n) ws)); [done|].
  intros w Hw. destruct (contains n w) eqn:Hc; [|done].
  rewrite <-Hc. apply Hno. apply list_elem_of_filter. split; [|done].
  apply contains_true in Hc. apply overlaps_true. lia.
Qed.

(** A window that meets [[s, e)] decides some ledger of it. *)
Lemma recorded_witness id s e ws w :
  (s < e)%Z → windows_ok id ws → w ∈ ws → overlaps s e w = true →
  ∃ n, (s ≤ n < e)%Z ∧ recorded n ws = Some (covered w).
Proof.
  intros Hse Hok Hw Ho%overlaps_true. exists (Z.max s (startLedger w)).
  assert (startLedger w < endLedger w)%Z.
  { destruct Hok as [Hf _]. rewrite Forall_forall in Hf. by destruct (Hf w Hw) as (_ & _ & ? & _). }
  split; [lia|]. eapply recorded_of; [done..|]. apply contains_true. lia.
Qed.

Definition answer_spec (s e : Z) (ws : list CoverageWindow) (a : CoverageAnswer) : Prop :=
  match a with
  | answer_unknown => ∃ n, (s ≤ n < e)%Z ∧ recorded n ws = None
  | answer_covered => ∀ n, (s ≤ n < e)%Z → recorded n ws = Some true
  | answer_uncovered => ∀ n, (s ≤ n < e)%Z → recorded n ws = Some false
  | answer_partial =>
      (∀ n, (s ≤ n < e)%Z → is_Some (recorded n ws)) ∧
      (∃ n, (s ≤ n < e)%Z ∧ recorded n ws = Some true) ∧
      (∃ n, (s ≤ n < e)%Z ∧ recorded n ws = Some false)
  end.

Lemma filter_length_all {A} (P : A → Prop) `{!∀ x, Decision (P x)} (l : list A) :
  length (filter P l) = length l → Forall P l.
Proof.
  induction l as [|x l IH]; [constructor|]. rewrite filter_cons. case_decide; cbn; intros H'.
  - constructor; [done|]. apply IH. lia.
  - pose proof (length_filter P l). lia.
Qed.

Lemma filter_length_forall {A} (P : A → Prop) `{!∀ x, Decision (P x)} (l : list A) :
  Forall P l → length (filter P l) = length l.
Proof.
  induction 1 as [|x l Hx _ IH]; [done|]. rewrite filter_cons, decide_True by done. cbn. lia.
Qed.

Lemma filter_length_none {A} (P : A → Prop) `{!∀ x, Decision (P x)} (l : list A) x :
  length (filter P l) = 0 → x ∈ l → ¬ P x.
Proof.
  intros Hl Hx HP. apply length_zero_iff_nil in Hl.
  assert (x ∈ filter P l) as Hin by by apply list_elem_of_filter. rewrite Hl in Hin. set_solver.
Qed.

(** When the sweep reaches the end, every ledger is decided by a window that
    meets the interval. *)
Lemma swept_recorded id s e ws c n :
  windows_ok id ws → sweep s (filter (λ w, overlaps s e w = true) ws) = Some c → (e ≤ c)%Z →
  (s ≤ n < e)%Z →
  ∃ w, w ∈ filter (λ w, overlaps s e w = true) ws ∧ recorded n ws = Some (covered w).
Proof.
  intros Hok Hsw Hc Hn. destruct (sweep_covers _ _ _ Hsw n) as (w & Hw & Hcw); [lia|].
  exists w. split; [done|]. apply list_elem_of_filter in Hw as [_ Hw]. by eapply recorded_of.
Qed.

Lemma coverage_of_spec id s e ws :
  windows_ok id ws → (s < e)%Z → answer_spec s e ws (coverage_of s e ws).
Proof.
  intros Hok Hse. unfold coverage_of. remember (filter _ ws) as ov eqn:Hov.
  destruct ov as [|w0 ov'].
  { exists s. split; [lia|]. apply (recorded_none s e); [lia|]. rewrite <-Hov. set_solver. }
  remember (w0 :: ov') as ov eqn:Hne. destruct (sweep s ov) as [c|] eqn:Hsw.
  2: { destruct (sweep_gap e s ov) as (n & Hn & Hno); [| |done|].
       - rewrite Hov. apply StronglySorted_filter, Hok.
       - rewrite Hov. apply Forall_forall. intros w [Ho%overlaps_true Hw]%list_elem_of_filter.
         destruct Hok as [Hf _]. rewrite Forall_forall in Hf.
         destruct (Hf w Hw) as (_ & _ & ? & _). lia.
       - exists n. split; [done|]. apply (recorded_none s e); [done|]. by rewrite <-Hov. }
  destruct (Z.ltb_spec c e).
  { exists (Z.max s c). assert (∀ w, w ∈ ov → (endLedger w ≤ c)%Z) as Hend
      by (intros w; by apply (sweep_end s)).
    split; [lia|]. apply (recorded_none s e); [lia|]. rewrite <-Hov. intros w Hw.
    specialize (Hend w Hw). apply not_true_iff_false. rewrite contains_true. lia. }
  assert (∀ n, (s ≤ n < e)%Z → ∃ w, w ∈ ov ∧ recorded n ws = Some (covered w)) as Hrec.
  { intros n Hn. rewrite Hov in *. by eapply swept_recorded. }
  assert (∀ w, w ∈ ov → ∃ n, (s ≤ n < e)%Z ∧ recorded n ws = Some (covered w)) as Hwit.
  { intros w. rewrite Hov. intros [Ho Hw]%list_elem_of_filter. by eapply recorded_witness. }
  destruct (Nat.eqb_spec (length (filter (λ w, covered w = true) ov)) (length ov)) as [Hall|Hnall].
  { apply filter_length_all in Hall. rewrite Forall_forall in Hall. intros n Hn.
    destruct (Hrec n Hn) as (w & Hw & ->). by rewrite Hall. }
  destruct (Nat.eqb_spec (length (filter (λ w, covered w = true) ov)) 0) as [Hno|Hsome].
  { intros n Hn. destruct (Hrec n Hn) as (w & Hw & ->).
    apply (filter_length_none _ _ w) in Hno; [|done]. cbn in Hno. by destruct (covered w). }
  split_and!.
  - intros n Hn. destruct (Hrec n Hn) as (w & _ & ->). by eexists.
  - destruct (filter (λ w, covered w = true) ov) as [|w l] eqn:Ef; [done|].
    assert (w ∈ filter (λ w, covered w = true) ov) as [Hc Hw]%list_elem_of_filter by (rewrite Ef; set_solver).
    destruct (Hwit w Hw) as (n & ? & Hn). exists n. by rewrite Hn, Hc.
  - destruct (decide (Forall (λ w, covered w = true) ov)) as [Hf|Hf].
    + destruct Hnall. by apply filter_length_forall.
    + apply not_Forall_Exists in Hf; [|apply _]. apply Exists_exists in Hf as (w & Hw & Hc).
      destruct (Hwit w Hw) as (n & ? & Hn). exists n. split; [done|]. rewrite Hn.
      cbn in Hc. by destruct (covered w).
Qed.

(** the audit answer for an interval agrees with the record ledger by
    ledger: covered or uncovered when every ledger is recorded so, partial when
    all are recorded and both kinds occur, and unknown exactly when some ledger
    has no record; a gap is never reported as covered. *)
Theorem coverage_answers raws id s e a :
  let ledger := append_all raws [] in
  coverageForWindow id (jint s) (jint e) ledger = Ok a →
  (s < e)%Z ∧ answer_spec s e (history id ledger) a.
Proof.
  intros ledger. assert (ledger_wf ledger) as [_ Hok] by apply append_all_wf, empty_ledger_wf.
  unfold coverageForWindow. intros (s' & Hs & (e' & He & H)%result_bind_Ok)%result_bind_Ok.
  apply assertLedger_jint_inv in Hs as [-> _], He as [-> _].
  apply result_bind_Ok in H as (u & Hu & [= <-]). apply reject_if_Ok_any in Hu. bool_to_prop.
  split; [done|]. by eapply coverage_of_spec.
Qed.

Definition raw_window (s e : Z) (r : CoverageReason) : RawWindow :=
  {| raw_subscriptionId := "s"; raw_startLedger := jint s; raw_endLedger := jint e;
     raw_covered := isCoveredReason r; raw_reason := r |}.

Lemma ledger_append_only_witness :
  ∃ l w, append (raw_window 10 20 reason_active) (append_all [raw_window 20 30 reason_lapsed] []) = Ok l
    ∧ history (subscriptionId w) l ≡ₚ
        w :: history (subscriptionId w) (append_all [raw_window 20 30 reason_lapsed] []).
Proof.
  eexists.
  destruct (proj2 (ledger_append_only [raw_window 20 30 reason_lapsed]
    (raw_window 10 20 reason_active) _) eq_refl) as (w & _ & Hp & _).
  exists w. split; [reflexivity|exact Hp].
Defined.

Lemma coverage_answers_witness :
  coverageForWindow "s" (jint 15) (jint 25)
    (append_all [raw_window 20 30 reason_lapsed; raw_window 10 20 reason_active] []) = Ok answer_partial ∧
  answer_spec 15 25 (history "s"
    (append_all [raw_window 20 30 reason_lapsed; raw_window 10 20 reason_active] [])) answer_partial.
Proof.
  split; [reflexivity|].
  apply (coverage_answers [raw_window 20 30 reason_lapsed; raw_window 10 20 reason_active] "s" 15 25).
  reflexivity.
Defined.
