(* ===== verification/Lifecycle.v ===== *)
(** * The life of a backstop subscription
    (packages/worker-core/src/subscription/lifecycle.ts)

    One subscription, the ledger it writes its record to, and the billing hooks
    it has fired, newest first.  An operation runs to completion before the next
    one starts; hooks and the ledger's storage do not fail. *)

From S2P Require Import Prelude.
From S2P Require Import JsMap.
From S2P Require Import Coverage.

#[local] Arguments history : simpl never.
#[local] Arguments recorded : simpl never.

Inductive SubscriptionState := st_active | st_expiring | st_lapsed | st_cancelled.

#[export] Instance SubscriptionState_eq_dec : EqDecision SubscriptionState.
Proof. solve_decision. Defined.

Definition LEGAL_TRANSITIONS (from : SubscriptionState) : list SubscriptionState :=
  match from with
  | st_active => [st_expiring; st_cancelled]
  | st_expiring => [st_active; st_lapsed]
  | st_lapsed => [st_active]
  | st_cancelled => [st_active]
  end.

Definition REASON_BY_STATE (s : SubscriptionState) : CoverageReason :=
  match s with
  | st_active => reason_active
  | st_expiring => reason_grace
  | st_lapsed => reason_lapsed
  | st_cancelled => reason_cancelled
  end.

Definition isCoveredState (s : SubscriptionState) : bool :=
  match s with st_active | st_expiring => true | _ => false end.

Definition isLegalTransition (from to : SubscriptionState) : bool :=
  bool_decide (to ∈ LEGAL_TRANSITIONS from).

Inductive SubscriptionLifecycleError :=
  | ILLEGAL_TRANSITION (from to : SubscriptionState)
  | LEDGER_NOT_ADVANCING (openedAt atLedger : Z)
  | LIFECYCLE_LEDGER_OUT_OF_RANGE (label : string) (value : jsnum)
  | INVALID_WINDOW_SIZE (windowLedgers : jsnum)
  | INSUFFICIENT_LAPSE_NOTICE (atLedger lapsesAtLedger : Z)
  | PREMATURE_LAPSE (announced atLedger : Z)
  | MISSING_FIELD (field : string)
  | CoverageRefused (e : CoverageLedgerError).

Record SubscriptionEvent := {
  ev_subscriptionId : string;
  ev_tier : string;
  ev_atLedger : Z;
  ev_window : option CoverageWindow;
}.

(** The hook that was called, with its event. *)
Inductive HookCall :=
  | onActivated (e : SubscriptionEvent)
  | onRenewed (e : SubscriptionEvent)
  | onExpiring (e : SubscriptionEvent) (lapsesAtLedger : Z)
  | onLapsed (e : SubscriptionEvent)
  | onCancelled (e : SubscriptionEvent).

Record BackstopSubscription := {
  sub_id : string;
  tier : string;
  windowLedgers : Z;
  currentState : SubscriptionState;
  openedAt : Z;
  announcedLapseLedger : option Z;
  coverage : CoverageLedger;
  fired : list HookCall;
}.

Definition set_state (st : SubscriptionState) (s : BackstopSubscription) : BackstopSubscription :=
  {| sub_id := sub_id s; tier := tier s; windowLedgers := windowLedgers s; currentState := st;
     openedAt := openedAt s; announcedLapseLedger := announcedLapseLedger s;
     coverage := coverage s; fired := fired s |}.

Definition set_announced (l : option Z) (s : BackstopSubscription) : BackstopSubscription :=
  {| sub_id := sub_id s; tier := tier s; windowLedgers := windowLedgers s;
     currentState := currentState s; openedAt := openedAt s; announcedLapseLedger := l;
     coverage := coverage s; fired := fired s |}.

Definition set_record (c : CoverageLedger) (opened : Z) (s : BackstopSubscription)
    : BackstopSubscription :=
  {| sub_id := sub_id s; tier := tier s; windowLedgers := windowLedgers s;
     currentState := currentState s; openedAt := opened;
     announcedLapseLedger := announcedLapseLedger s; coverage := c; fired := fired s |}.

Definition add_fired (h : HookCall) (s : BackstopSubscription) : BackstopSubscription :=
  {| sub_id := sub_id s; tier := tier s; windowLedgers := windowLedgers s;
     currentState := currentState s; openedAt := openedAt s;
     announcedLapseLedger := announcedLapseLedger s; coverage := coverage s;
     fired := h :: fired s |}.

Notation operation := (method BackstopSubscription SubscriptionLifecycleError).

Definition assertLedgerNumber (value : jsnum) (label : string)
    : result SubscriptionLifecycleError Z :=
  match as_safe_integer value with
  | Some z => if (z <? 0)%Z then Err (LIFECYCLE_LEDGER_OUT_OF_RANGE label value) else Ok z
  | None => Err (LIFECYCLE_LEDGER_OUT_OF_RANGE label value)
  end.

Definition fire (h : HookCall) : operation unit := modify (add_fired h).

Definition event (s : BackstopSubscription) (atLedger : Z) (w : option CoverageWindow)
    : SubscriptionEvent :=
  {| ev_subscriptionId := sub_id s; ev_tier := tier s; ev_atLedger := atLedger; ev_window := w |}.

(** The stretch [openedAt, atLedger) goes on record under the current state. *)
Definition open_window (s : BackstopSubscription) (atLedger : Z) : RawWindow :=
  {| raw_subscriptionId := sub_id s; raw_startLedger := jint (openedAt s);
     raw_endLedger := jint atLedger; raw_covered := isCoveredState (currentState s);
     raw_reason := REASON_BY_STATE (currentState s) |}.

Definition written_window (s : BackstopSubscription) (atLedger : Z) : CoverageWindow :=
  {| subscriptionId := sub_id s; startLedger := openedAt s; endLedger := atLedger;
     covered := isCoveredState (currentState s); reason := REASON_BY_STATE (currentState s) |}.

Definition writeOpenWindow (at_raw : jsnum) : operation (Z * CoverageWindow) := λ s,
  match assertLedgerNumber at_raw "atLedger" with
  | Err e => (Err e, s)
  | Ok atLedger =>
      if (atLedger <=? openedAt s)%Z then (Err (LEDGER_NOT_ADVANCING (openedAt s) atLedger), s)
      else
        match append (open_window s atLedger) (coverage s) with
        | Err e => (Err (CoverageRefused e), s)
        | Ok c => (Ok (atLedger, written_window s atLedger), set_record c atLedger s)
        end
  end.

Definition transition (to : SubscriptionState) (at_raw : jsnum) : operation (Z * CoverageWindow) :=
  λ s,
  if negb (isLegalTransition (currentState s) to) then
    (Err (ILLEGAL_TRANSITION (currentState s) to), s)
  else
    match writeOpenWindow at_raw s with
    | (Ok w, s') => (Ok w, set_state to s')
    | (Err e, s') => (Err e, s')
    end.

(** A transition, what it does to the announced lapse, and the hook it fires. *)
Definition move (to : SubscriptionState) (announce : option Z → option Z)
    (hook : SubscriptionEvent → HookCall) (at_raw : jsnum) : operation unit :=
  '(atLedger, w) ← transition to at_raw;
  _ ← modify (λ s, set_announced (announce (announcedLapseLedger s)) s);
  e ← gets (λ s, event s atLedger (Some w));
  fire (hook e).

Definition renew (at_raw : jsnum) : operation unit := move st_active (λ _, None) onRenewed at_raw.

Definition beginExpiring (at_raw lapses_raw : jsnum) : operation unit :=
  atLedger ← lift_result (assertLedgerNumber at_raw "atLedger");
  lapsesAtLedger ← lift_result (assertLedgerNumber lapses_raw "lapsesAtLedger");
  w ← gets windowLedgers;
  _ ← throw_if (lapsesAtLedger - atLedger <? w)%Z (INSUFFICIENT_LAPSE_NOTICE atLedger lapsesAtLedger);
  move st_expiring (λ _, Some lapsesAtLedger) (λ e, onExpiring e lapsesAtLedger) at_raw.

Definition lapse (at_raw : jsnum) : operation unit :=
  atLedger ← lift_result (assertLedgerNumber at_raw "atLedger");
  announced ← gets announcedLapseLedger;
  _ ← match announced with
      | Some l => throw_if (atLedger <? l)%Z (PREMATURE_LAPSE l atLedger)
      | None => mret tt
      end;
  move st_lapsed (λ _, None) onLapsed at_raw.

Definition cancel (at_raw : jsnum) : operation unit :=
  move st_cancelled (λ _, None) onCancelled at_raw.

(** [reactivate] leaves the announced lapse as it is. *)
Definition reactivate (at_raw : jsnum) : operation unit :=
  move st_active (λ l, l) onActivated at_raw.

Definition sealTo (at_raw : jsnum) : operation CoverageWindow :=
  '(_, w) ← writeOpenWindow at_raw; mret w.

Record BackstopSubscriptionConfig := {
  cfg_subscriptionId : string;
  cfg_tier : string;
  cfg_windowLedgers : jsnum;
  cfg_coverage : CoverageLedger;
}.

Definition activate (config : BackstopSubscriptionConfig) (at_raw : jsnum)
    : result SubscriptionLifecycleError BackstopSubscription :=
  _ ← reject_if (String.eqb (cfg_subscriptionId config) "") (MISSING_FIELD "subscriptionId");
  _ ← reject_if (String.eqb (cfg_tier config) "") (MISSING_FIELD "tier");
  match as_safe_integer (cfg_windowLedgers config) with
  | None => Err (INVALID_WINDOW_SIZE (cfg_windowLedgers config))
  | Some w =>
      _ ← reject_if (w <? 1)%Z (INVALID_WINDOW_SIZE (cfg_windowLedgers config));
      atLedger ← assertLedgerNumber at_raw "atLedger";
      let s := {| sub_id := cfg_subscriptionId config; tier := cfg_tier config;
                  windowLedgers := w; currentState := st_active; openedAt := atLedger;
                  announcedLapseLedger := None; coverage := cfg_coverage config; fired := [] |} in
      Ok (add_fired (onActivated (event s atLedger None)) s)
  end.

(** ** The calls of a program *)

Inductive lifecycle_op :=
  | Renew (at_ledger : jsnum)
  | BeginExpiring (at_ledger lapsesAt : jsnum)
  | Lapse (at_ledger : jsnum)
  | Cancel (at_ledger : jsnum)
  | Reactivate (at_ledger : jsnum)
  | SealTo (at_ledger : jsnum).

(** A refused operation leaves the state it had reached when it threw. *)
Definition perform (o : lifecycle_op) (s : BackstopSubscription)
    : result SubscriptionLifecycleError unit * BackstopSubscription :=
  match o with
  | Renew n => renew n s
  | BeginExpiring n l => beginExpiring n l s
  | Lapse n => lapse n s
  | Cancel n => cancel n s
  | Reactivate n => reactivate n s
  | SealTo n => let '(r, s') := sealTo n s in ((λ _, tt) <$> r, s')
  end.

Fixpoint perform_all (os : list lifecycle_op) (s : BackstopSubscription) : BackstopSubscription :=
  match os with [] => s | o :: os' => perform_all os' (perform o s).2 end.

(** ** What the hooks said *)

Definition call_event (h : HookCall) : SubscriptionEvent :=
  match h with
  | onActivated e | onRenewed e | onExpiring e _ | onLapsed e | onCancelled e => e
  end.

Definition call_at (h : HookCall) : Z := ev_atLedger (call_event h).

Definition state_after (h : HookCall) : SubscriptionState :=
  match h with
  | onActivated _ | onRenewed _ => st_active
  | onExpiring _ _ => st_expiring
  | onLapsed _ => st_lapsed
  | onCancelled _ => st_cancelled
  end.

(** Whether the subscriber was told coverage holds at ledger [n]: the latest
    call not after [n] decides. *)
Definition told_covered (calls : list HookCall) (n : Z) : bool :=
  match List.find (λ h, (call_at h <=? n)%Z) calls with
  | Some h => isCoveredState (state_after h)
  | None => false
  end.

(** A lapse comes right after the announcement of it, no earlier than announced,
    and was announced at least [w] ledgers ahead.  Calls are newest first. *)
Definition lapses_announced (w : Z) (calls : list HookCall) : Prop :=
  ∀ newer e older, calls = newer ++ onLapsed e :: older →
  ∃ e' l rest, older = onExpiring e' l :: rest ∧
    (ev_atLedger e' + w ≤ l)%Z ∧ (l ≤ ev_atLedger e)%Z.

Definition stored (s : BackstopSubscription) : list CoverageWindow :=
  history (sub_id s) (coverage s).

Record life_inv (a : Z) (s : BackstopSubscription) : Prop := {
  inv_ledger : ledger_wf (coverage s);
  inv_ends : ∀ w, w ∈ stored s → (endLedger w ≤ openedAt s)%Z;
  inv_range : (0 ≤ a)%Z ∧ (a ≤ openedAt s)%Z ∧ (openedAt s ≤ MAX_SAFE_INTEGER)%Z;
  inv_head : ∃ h rest, fired s = h :: rest ∧ state_after h = currentState s ∧
                       (call_at h ≤ openedAt s)%Z;
  inv_record : ∀ n, (a ≤ n < openedAt s)%Z → recorded n (stored s) = Some (told_covered (fired s) n);
  inv_lapses : lapses_announced (windowLedgers s) (fired s);
  inv_notice : currentState s = st_expiring →
    ∃ e l rest, fired s = onExpiring e l :: rest ∧ announcedLapseLedger s = Some l ∧
      (ev_atLedger e + windowLedgers s ≤ l)%Z;
}.

(** ** What one operation can do *)

Definition moved (n : Z) (c : CoverageLedger) (to : SubscriptionState)
    (announce : option Z → option Z) (h : HookCall) (s : BackstopSubscription)
    : BackstopSubscription :=
  let s1 := set_state to (set_record c n s) in
  add_fired h (set_announced (announce (announcedLapseLedger s)) s1).

(** The conditions under which the source moves the state. *)
Definition move_allowed (n : Z) (to : SubscriptionState) (announce : option Z → option Z)
    (h : HookCall) (s : BackstopSubscription) : Prop :=
  isLegalTransition (currentState s) to = true ∧ state_after h = to ∧ call_at h = n ∧
  (to = st_expiring → ∃ e l, h = onExpiring e l ∧ announce (announcedLapseLedger s) = Some l ∧
     (n + windowLedgers s ≤ l)%Z) ∧
  (to = st_lapsed → ∀ l, announcedLapseLedger s = Some l → (l ≤ n)%Z).

Inductive effect (s : BackstopSubscription) : BackstopSubscription → Prop :=
  | effect_none : effect s s
  | effect_seal n c :
      (openedAt s < n)%Z → (n ≤ MAX_SAFE_INTEGER)%Z →
      append (open_window s n) (coverage s) = Ok c → effect s (set_record c n s)
  | effect_move n c to announce h :
      (openedAt s < n)%Z → (n ≤ MAX_SAFE_INTEGER)%Z →
      append (open_window s n) (coverage s) = Ok c →
      move_allowed n to announce h s → effect s (moved n c to announce h s).

Lemma assertLedgerNumber_Ok v label n :
  assertLedgerNumber v label = Ok n → (0 ≤ n ≤ MAX_SAFE_INTEGER)%Z.
Proof.
  unfold assertLedgerNumber, as_safe_integer. destruct (as_integer v) as [z|]; cbn; [|done].
  destruct (Z.leb_spec (Z.abs z) MAX_SAFE_INTEGER); [|done].
  destruct (Z.ltb_spec z 0); [done|]. intros [= <-]. lia.
Qed.

Lemma writeOpenWindow_cases v s :
  (∃ e, writeOpenWindow v s = (Err e, s)) ∨
  ∃ n c, assertLedgerNumber v "atLedger" = Ok n ∧ (openedAt s < n)%Z ∧
    append (open_window s n) (coverage s) = Ok c ∧
    writeOpenWindow v s = (Ok (n, written_window s n), set_record c n s).
Proof.
  unfold writeOpenWindow. destruct (assertLedgerNumber v "atLedger") as [n|e] eqn:Hn; [|eauto].
  destruct (Z.leb_spec n (openedAt s)); [eauto|].
  destruct (append _ _) as [c|e] eqn:Hc; [|eauto]. right. by exists n, c.
Qed.

Lemma move_cases to announce hook v s :
  (∀ e, state_after (hook e) = to ∧ call_event (hook e) = e) →
  (to = st_expiring → ∃ l, (∀ e, hook e = onExpiring e l) ∧
     announce (announcedLapseLedger s) = Some l ∧
     ∀ n, assertLedgerNumber v "atLedger" = Ok n → (n + windowLedgers s ≤ l)%Z) →
  (to = st_lapsed → ∀ n l, assertLedgerNumber v "atLedger" = Ok n →
     announcedLapseLedger s = Some l → (l ≤ n)%Z) →
  effect s (move to announce hook v s).2.
Proof.
  intros Hhook Hexp Hlap. unfold move, mbind, method_bind, transition.
  destruct (isLegalTransition (currentState s) to) eqn:Hlegal; cbn; [|apply effect_none].
  destruct (writeOpenWindow_cases v s) as [[e ->]|(n & c & Hn & Hlt & Hc & ->)];
    [apply effect_none|]. cbn.
  apply assertLedgerNumber_Ok in Hn as Hrange.
  apply (effect_move s n c to announce (hook (event s n (Some (written_window s n)))));
    [done|lia|done|]. split_and!; [done|by apply Hhook| | |].
  - unfold call_at. by destruct (Hhook (event s n (Some (written_window s n)))) as [_ ->].
  - intros Hto. destruct (Hexp Hto) as (l & He & Ha & Hl). eexists _, l. by rewrite He; auto.
  - intros Hto l. by apply Hlap.
Qed.

Lemma perform_effect o s : effect s (perform o s).2.
Proof.
  destruct o as [v|v v'|v|v|v|v]; cbn [perform].
  - apply move_cases; [done|discriminate|discriminate].
  - unfold beginExpiring, mbind, method_bind, lift_result, gets, throw_if.
    destruct (assertLedgerNumber v "atLedger") as [n|e] eqn:Hn; [|apply effect_none].
    destruct (assertLedgerNumber v' "lapsesAtLedger") as [l|e]; [|apply effect_none].
    cbn. destruct (Z.ltb_spec (l - n) (windowLedgers s)); cbn; [apply effect_none|].
    apply move_cases; [done| |discriminate]. intros _. exists l. split_and!; [done..|].
    intros m Hm. assert (m = n) as -> by congruence. lia.
  - unfold lapse, mbind, method_bind, lift_result, gets, throw_if.
    destruct (assertLedgerNumber v "atLedger") as [n|e] eqn:Hn; [|apply effect_none].
    destruct (announcedLapseLedger s) as [l|] eqn:Hl; cbn.
    + destruct (Z.ltb_spec n l); cbn; [apply effect_none|].
      apply move_cases; [done|discriminate|]. intros _ m l' Hm Hl'.
      assert (m = n) by congruence. assert (l' = l) by congruence. lia.
    + apply move_cases; [done|discriminate|]. intros _ m l' _ ?. congruence.
  - apply move_cases; [done|discriminate|discriminate].
  - apply move_cases; [done|discriminate|discriminate].
  - unfold sealTo, mbind, method_bind.
    destruct (writeOpenWindow_cases v s) as [[e ->]|(n & c & Hn & Hlt & Hc & ->)];
      [apply effect_none|]. apply assertLedgerNumber_Ok in Hn. apply effect_seal; [done|lia|done].
Qed.

(** ** The invariant is kept *)

Lemma told_covered_new h calls n :
  told_covered (h :: calls) n =
    if (call_at h <=? n)%Z then isCoveredState (state_after h) else told_covered calls n.
Proof. unfold told_covered. cbn. by destruct (_ <=? _)%Z. Qed.

(** An accepted window adds its answer and changes no other. *)
Lemma recorded_append raw w ledger c n :
  ledger_wf ledger → append raw ledger = Ok c → assertValidCoverageWindow raw = Ok w →
  recorded n (history (subscriptionId w) c) =
    if contains n w then Some (covered w) else recorded n (history (subscriptionId w) ledger).
Proof.
  intros Hwf Ha Hw. pose proof (append_wf _ _ _ Hwf Ha) as [_ Hok].
  destruct (append_history raw ledger c (subscriptionId w) Hwf Ha) as (w' & Hw' & Hp).
  assert (w' = w) as -> by congruence.
  rewrite decide_True in Hp by done. specialize (Hok (subscriptionId w)).
  destruct (contains n w) eqn:Hc.
  - eapply recorded_of; [done| |done]. rewrite Hp. set_solver.
  - unfold recorded. destruct (List.find (contains n) (history (subscriptionId w) ledger)) as [x|] eqn:Hx.
    + apply find_Some_elem in Hx as [Hx Hcx].
      erewrite (find_contains _ _ x); [done|exact Hok| |done]. rewrite Hp. set_solver.
    + rewrite (proj2 (find_None_all _ _)); [done|]. intros y. rewrite Hp.
      intros [->|Hy]%elem_of_cons; [done|]. by eapply find_None_all in Hx.
Qed.

Lemma open_window_valid s n :
  (0 ≤ openedAt s)%Z → (openedAt s < n)%Z → (n ≤ MAX_SAFE_INTEGER)%Z →
  assertValidCoverageWindow (open_window s n) = Ok (written_window s n).
Proof.
  intros H0 Hlt Hn. unfold assertValidCoverageWindow, open_window. cbn [raw_startLedger raw_endLedger].
  rewrite !assertLedger_jint by lia. cbn.
  destruct (Z.leb_spec n (openedAt s)); [lia|]. cbn.
  destruct (currentState s) eqn:E; cbn; unfold written_window; by rewrite E.
Qed.

(** The record after the open stretch has been written. *)
Lemma written_record a s n c :
  life_inv a s → (openedAt s < n)%Z → (n ≤ MAX_SAFE_INTEGER)%Z →
  append (open_window s n) (coverage s) = Ok c →
  ledger_wf c ∧
  (∀ w, w ∈ history (sub_id s) c → (endLedger w ≤ n)%Z) ∧
  (∀ m, (a ≤ m < n)%Z → recorded m (history (sub_id s) c) =
     Some (if (openedAt s <=? m)%Z then isCoveredState (currentState s)
           else told_covered (fired s) m)).
Proof.
  intros [Hwf Hends Hr _ Hrec _ _] Hlt Hn Ha.
  pose proof (open_window_valid s n ltac:(lia) Hlt Hn) as Hv. split; [by eapply append_wf|]. split.
  - intros w. destruct (append_history _ _ _ (sub_id s) Hwf Ha) as (w' & Hw' & Hp).
    assert (w' = written_window s n) as -> by congruence.
    cbn in Hp. rewrite decide_True in Hp by done. rewrite Hp.
    intros [->|Hw%Hends]%elem_of_cons; cbn; lia.
  - intros m Hm. pose proof (recorded_append _ _ _ _ m Hwf Ha Hv) as Hrm. cbn in Hrm. rewrite Hrm.
    destruct (Z.leb_spec (openedAt s) m).
    + destruct (contains m _) eqn:Hc; [done|]. apply not_true_iff_false in Hc.
      destruct Hc. apply contains_true. cbn. lia.
    + destruct (contains m _) eqn:Hc; [apply contains_true in Hc; cbn in Hc; lia|].
      apply Hrec. lia.
Qed.

(** Between the last call and the end of the record, the last call decides. *)
Lemma told_covered_tail a s m :
  life_inv a s → (openedAt s ≤ m)%Z → told_covered (fired s) m = isCoveredState (currentState s).
Proof.
  intros [_ _ _ (h & rest & Hf & Hst & Hat) _ _ _] Hm. rewrite Hf, told_covered_new.
  destruct (Z.leb_spec (call_at h) m); [by rewrite Hst|lia].
Qed.

Lemma lapses_announced_cons w h calls :
  lapses_announced w calls →
  (∀ e, h = onLapsed e → ∃ e' l rest, calls = onExpiring e' l :: rest ∧
     (ev_atLedger e' + w ≤ l)%Z ∧ (l ≤ ev_atLedger e)%Z) →
  lapses_announced w (h :: calls).
Proof.
  intros Hc Hh [|x newer] e older [= -> Heq]; [subst; eauto|by eapply Hc].
Qed.

Lemma life_inv_step a s s' : life_inv a s → effect s s' → life_inv a s'.
Proof.
  intros Hinv. destruct 1 as [|n c Hlt Hn Ha|n c to announce h Hlt Hn Ha (Hleg & Hst & Hat & Hexp & Hlap)];
    [done|..]; destruct (written_record a s n c Hinv Hlt Hn Ha) as (Hwf & Hends & Hrec);
    pose proof (told_covered_tail a s) as Htail;
    pose proof Hinv as [_ _ Hr (h0 & rest & Hf & Hst0 & Hat0) _ Hlapses Hnotice].
  - constructor; cbn; try done; [lia| |].
    + exists h0, rest. split_and!; [done|done|lia].
    + intros m Hm. etrans; [by apply Hrec|].
      destruct (Z.leb_spec (openedAt s) m); [by rewrite Htail|done].
  - constructor; cbn; try done.
    + lia.
    + exists h, (fired s). split_and!; [done|done|lia].
    + intros m Hm. etrans; [by apply Hrec|]. rewrite told_covered_new.
      destruct (Z.leb_spec (call_at h) m); [lia|].
      destruct (Z.leb_spec (openedAt s) m); [by rewrite Htail|done].
    + apply lapses_announced_cons; [done|]. intros e ->. cbn in *.
      assert (currentState s = st_expiring) as Hcur.
      { subst to. unfold isLegalTransition in Hleg. apply bool_decide_eq_true in Hleg.
        destruct (currentState s); cbn in Hleg; set_solver. }
      destruct (Hnotice Hcur) as (e' & l & rest' & Hf' & Hl & Hw).
      exists e', l, rest'. split_and!; [done|done|]. unfold call_at in Hat. cbn in Hat. subst n.
      by apply Hlap.
    + intros ->. destruct Hexp as (e & l & -> & Hl & Hw); [done|].
      exists e, l, (fired s). split_and!; [done|done|]. unfold call_at in Hat. cbn in *. lia.
Qed.

(** A subscription activated on a ledger without records of its own. *)
Lemma activate_inv config v s :
  ledger_wf (cfg_coverage config) →
  history (cfg_subscriptionId config) (cfg_coverage config) = [] →
  activate config v = Ok s → life_inv (openedAt s) s ∧ coverage s = cfg_coverage config
    ∧ sub_id s = cfg_subscriptionId config ∧ (1 ≤ windowLedgers s)%Z.
Proof.
  intros Hwf Hh. unfold activate. intros (u & _ & (u' & _ & H)%result_bind_Ok)%result_bind_Ok.
  destruct (as_safe_integer (cfg_windowLedgers config)) as [w|]; [|done].
  apply result_bind_Ok in H as (u'' & Hw%reject_if_Ok_any & (n & Hn & [= <-])%result_bind_Ok).
  apply assertLedgerNumber_Ok in Hn. bool_to_prop. split; [|done].
  constructor; cbn; unfold stored; cbn; try done.
  - intros x. rewrite Hh. set_solver.
  - lia.
  - eexists _, []. split_and!; [done|done|]. unfold call_at. cbn. lia.
  - lia.
  - apply lapses_announced_cons; [|discriminate]. by intros [].
Qed.

Lemma perform_all_inv a os s : life_inv a s → life_inv a (perform_all os s).
Proof.
  revert s. induction os as [|o os IH]; intros s Hi; cbn; [done|].
  apply IH. eapply life_inv_step; [done|apply perform_effect].
Qed.

(** a lapse is never silent.  In the life of a subscription activated on a
    fresh record, every lapse directly follows the notice that announced it,
    comes no earlier than announced, and was announced at least one whole
    window ahead; the calls are listed newest first. *)
Theorem lapse_never_silent config v s os newer e older :
  ledger_wf (cfg_coverage config) →
  history (cfg_subscriptionId config) (cfg_coverage config) = [] →
  activate config v = Ok s →
  let s' := perform_all os s in
  fired s' = newer ++ onLapsed e :: older →
  ∃ e' l rest, older = onExpiring e' l :: rest ∧
    (ev_atLedger e' + windowLedgers s' ≤ l)%Z ∧ (l ≤ ev_atLedger e)%Z.
Proof.
  intros Hwf Hh Ha s' Hf. destruct (activate_inv _ _ _ Hwf Hh Ha) as (Hi & _).
  destruct (perform_all_inv _ os s Hi) as [_ _ _ _ _ Hl _]. by eapply Hl.
Qed.

(** the record is never behind the state and has no gap.  For every ledger
    from activation up to the open stretch the stored record says covered
    exactly when the latest call the subscriber had received by then left the
    subscription covered, so that every interval in that range has an answer. *)
Theorem record_complete config v s os :
  ledger_wf (cfg_coverage config) →
  history (cfg_subscriptionId config) (cfg_coverage config) = [] →
  activate config v = Ok s →
  let s' := perform_all os s in
  (∀ n, (openedAt s ≤ n < openedAt s')%Z →
     recorded n (stored s') = Some (told_covered (fired s') n)) ∧
  (∀ b e, (openedAt s ≤ b)%Z → (b < e)%Z → (e ≤ openedAt s')%Z →
     ∃ a, coverageForWindow (sub_id s') (jint b) (jint e) (coverage s') = Ok a ∧
          a ≠ answer_unknown ∧ answer_spec b e (stored s') a).
Proof.
  intros Hwf Hh Ha s'. destruct (activate_inv _ _ _ Hwf Hh Ha) as (Hi & _).
  destruct (perform_all_inv _ os s Hi) as [[_ Hok] _ Hr _ Hrec _ _].
  split; [done|]. intros b e Hb Hbe He.
  pose proof (coverage_of_spec (sub_id s') b e (stored s') (Hok _) Hbe) as Hspec.
  exists (coverage_of b e (stored s')). split_and!; [| |done].
  - unfold coverageForWindow. rewrite !assertLedger_jint by (fold s' in Hr; lia). cbn.
    by destruct (Z.leb_spec e b); [lia|].
  - intros Hu. rewrite Hu in Hspec. destruct Hspec as (n & Hn & Hnone).
    fold s' in Hrec. rewrite Hrec in Hnone by lia. done.
Qed.

(** Writing the record is never refused by the ledger: the only errors an
    operation can end in are the lifecycle's own. *)
Lemma record_never_refused a s v e :
  life_inv a s → (writeOpenWindow v s).1 = Err e →
  match e with CoverageRefused _ => False | _ => True end.
Proof.
  intros [Hwf Hends Hr _ _ _ _]. unfold writeOpenWindow.
  destruct (assertLedgerNumber v "atLedger") as [n|e'] eqn:Hn.
  2: { intros [= <-]. revert Hn. unfold assertLedgerNumber.
       destruct (as_safe_integer v); [|by intros [= <-]]. by destruct (_ <? _)%Z; intros [= <-]. }
  apply assertLedgerNumber_Ok in Hn. destruct (Z.leb_spec n (openedAt s)); [by intros [= <-]|].
  destruct (append _ _) as [c|e'] eqn:Ha; [done|]. exfalso. revert Ha. unfold append.
  rewrite open_window_valid by lia. cbn.
  rewrite (proj2 (find_None_all _ _)); [done|]. intros w Hw. apply overlaps_false.
  left. by apply Hends.
Qed.

(** Reactivating during the notice period leaves the announced lapse behind,
    although it is documented to be set only while expiring. *)
Lemma reactivate_keeps_announcement s :
  currentState s = st_expiring → ∀ v s', reactivate v s = (Ok tt, s') →
  currentState s' = st_active ∧ announcedLapseLedger s' = announcedLapseLedger s.
Proof.
  intros Hst v s'. unfold reactivate, move, mbind, method_bind, transition. rewrite Hst. cbn.
  destruct (writeOpenWindow_cases v s) as [[e ->]|(n & c & _ & _ & _ & ->)]; [done|].
  by intros [= <-].
Qed.

(** ** Witnesses *)

Definition sample_config : BackstopSubscriptionConfig :=
  {| cfg_subscriptionId := "s1"; cfg_tier := "gold"; cfg_windowLedgers := jint 10;
     cfg_coverage := [] |}.

Definition sample_sub : BackstopSubscription :=
  match activate sample_config (jint 100) with
  | Ok s => s
  | Err _ => {| sub_id := ""; tier := ""; windowLedgers := 0; currentState := st_lapsed;
                openedAt := 0; announcedLapseLedger := None; coverage := []; fired := [] |}
  end.

(** The premature lapse is refused; the one at the announced ledger is taken. *)
Definition sample_life : list lifecycle_op :=
  [BeginExpiring (jint 110) (jint 125); Lapse (jint 120); Lapse (jint 125); SealTo (jint 140)].

Definition after_life : list HookCall :=
  Eval vm_compute in fired (perform_all sample_life sample_sub).

Lemma lapse_never_silent_witness :
  fired (perform_all sample_life sample_sub) = after_life ∧
  ∃ e older e' l rest, after_life = onLapsed e :: older ∧
    older = onExpiring e' l :: rest ∧ (l ≤ ev_atLedger e)%Z.
Proof.
  assert (fired (perform_all sample_life sample_sub) = after_life) as Hf by (vm_compute; reflexivity).
  split; [exact Hf|]. eexists _, _.
  destruct (lapse_never_silent sample_config (jint 100) sample_sub sample_life [] _ _
    empty_ledger_wf eq_refl eq_refl Hf) as (e' & l & rest & H & _ & Hl).
  exists e', l, rest. split; [reflexivity|]. split; [exact H|exact Hl].
Defined.

Lemma record_complete_witness :
  recorded 124 (stored (perform_all sample_life sample_sub)) = Some true ∧
  recorded 130 (stored (perform_all sample_life sample_sub)) = Some false.
Proof.
  destruct (record_complete sample_config (jint 100) sample_sub sample_life
    empty_ledger_wf eq_refl eq_refl) as [H _].
  split; (etrans; [apply H; vm_compute; split; [discriminate|reflexivity]|reflexivity]).
Defined.
