(* ===== verification/Retry.v ===== *)
(** * Submission failures, the retry policy and the in-memory retry queue
    (packages/worker-core/src/errors.ts and retry.ts)

    Times are epoch milliseconds.  Message texts are ASCII: lower-casing and the
    order of ids are those of ASCII. *)

From S2P Require Import Prelude.
From S2P Require Import JsMap.
From S2P Require Import JsValue.
From S2P Require Import Stream.

(** ** Classification *)

Inductive SubmissionFailureKind :=
  | rpc_timeout | rpc_network | ledger_contention | insufficient_fee | rate_limit
  | contract_rejection | contract_invalid | unauthorized | unknown.

#[export] Instance SubmissionFailureKind_eq_dec : EqDecision SubmissionFailureKind.
Proof. solve_decision. Defined.

(** An error as the classifier reads it: an RPC error, or anything else through
    its message, its result code, and the name of an error that caused it. *)
Inductive SubmissionError :=
  | SorobanRpcError (code message : string) (retryable : bool)
  | OtherError (message : string) (result_code : option string) (cause_name : option string).

Record SubmissionFailure := {
  kind : SubmissionFailureKind;
  message : string;
  retryable : bool;
  cause : SubmissionError;
}.

Definition mapRpcCode (code : string) : SubmissionFailureKind :=
  if String.eqb code "network" then rpc_network
  else if String.eqb code "rate_limit" then rate_limit
  else if String.eqb code "server" then rpc_timeout
  else if String.eqb code "auth" then unauthorized
  else contract_invalid.

Definition matches (msg : string) (code : option string) (needles : list string) : bool :=
  let haystack := to_lower (msg +:+ " " +:+ default "" code) in
  existsb (λ needle, str_includes haystack (to_lower needle)) needles.

Definition hasNetworkCause (cause_name : option string) : bool :=
  match cause_name with
  | Some n =>
      let name := to_lower n in
      str_includes name "timeout" || str_includes name "network" || str_includes name "econn"
  | None => false
  end.

Definition fee_needles : list string := ["insufficient fee"; "tx_insufficient_fee"].
Definition contention_needles : list string :=
  ["tx bad seq"; "tx_too_early"; "tx_too_late"; "tx_outdated"; "tx_duplication"; "tx_duplicate";
   "bad seq"; "too late"; "too early"].
Definition rate_needles : list string := ["rate limit"; "too many requests"; "throttled"].
Definition timeout_needles : list string :=
  ["timeout"; "etimedout"; "econnreset"; "econnrefused"; "network"; "socket"].
Definition rejection_needles : list string :=
  ["contract"; "op_invalid"; "tx_failed"; "wasm"; "auth"; "bad auth"; "invalid auth"; "rejected"].
Definition unauthorized_needles : list string := ["unauthorized"; "unauthorised"; "401"; "403"].

Definition classifySubmissionError (error : SubmissionError) : SubmissionFailure :=
  match error with
  | SorobanRpcError code msg r =>
      {| kind := mapRpcCode code; message := msg; retryable := r; cause := error |}
  | OtherError msg code cause_name =>
      let classified k r := {| kind := k; message := msg; retryable := r; cause := error |} in
      if matches msg code fee_needles then classified insufficient_fee true
      else if matches msg code contention_needles then classified ledger_contention true
      else if matches msg code rate_needles then classified rate_limit true
      else if matches msg code timeout_needles then classified rpc_timeout true
      else if hasNetworkCause cause_name then classified rpc_network true
      else if matches msg code rejection_needles then classified contract_rejection false
      else if matches msg code unauthorized_needles then classified unauthorized false
      else classified unknown false
  end.

(** ** The retry policy *)

Record SubmissionHandle := { submissionId : string; windowDeadlineMs : Z }.

Inductive deadletter_reason := terminal | window_expired | max_attempts.

#[export] Instance deadletter_reason_eq_dec : EqDecision deadletter_reason.
Proof. solve_decision. Defined.

Inductive RetryDecision :=
  | Retry (attempt nextRetryAt : Z)
  | Deadletter (why : deadletter_reason) (attempt : Z) (failure : SubmissionFailure).

Record RetryPolicy := {
  maxAttempts : Z;
  initialDelayMs : Z;
  maxDelayMs : Z;
  jitter : bool;
}.

Inductive RetryPolicyError := BadMaxAttempts | BadInitialDelay | BadMaxDelay.

(** The constructor's checks.  A finite delay is a whole number of milliseconds
    here; [None] is a delay that is not finite. *)
Definition retry_policy (attempts : jsnum) (initial maxDelay : option Z) (jit : option bool)
    : result RetryPolicyError RetryPolicy :=
  match as_integer attempts with
  | None => Err BadMaxAttempts
  | Some n =>
      _ ← reject_if (n <? 1)%Z BadMaxAttempts;
      match initial with
      | Some i =>
          _ ← reject_if (i <? 0)%Z BadInitialDelay;
          match maxDelay with
          | Some m =>
              _ ← reject_if (m <? 0)%Z BadMaxDelay;
              Ok {| maxAttempts := n; initialDelayMs := i; maxDelayMs := m;
                    jitter := default true jit |}
          | None => Err BadMaxDelay
          end
      | None => Err BadInitialDelay
      end
  end.

Definition delayForAttempt (p : RetryPolicy) (random attempt : Z) : Z :=
  if jitter p then fullJitterBackoffMs random attempt (initialDelayMs p) (maxDelayMs p)
  else Z.min (initialDelayMs p * 2 ^ (attempt - 1)) (maxDelayMs p).

Definition decide_retry (p : RetryPolicy) (now random : Z) (attempt : Z) (error : SubmissionError)
    (submission : SubmissionHandle) : RetryDecision :=
  let failure := classifySubmissionError error in
  if negb (retryable failure) then Deadletter terminal attempt failure
  else if (maxAttempts p <=? attempt)%Z then Deadletter max_attempts attempt failure
  else
    let nextRetryAt := (now + delayForAttempt p random attempt)%Z in
    if (windowDeadlineMs submission <? nextRetryAt)%Z then
      Deadletter window_expired attempt failure
    else Retry (attempt + 1) nextRetryAt.

(** ** The in-memory queue *)

Record WorkerRetryRecord := {
  rec_id : string;
  rec_submission : SubmissionHandle;
  rec_attempt : Z;
  nextRetryAt : Z;
  lastError : option string;
  failures : list SubmissionFailure;
  createdAt : Z;
  updatedAt : Z;
}.

Definition touched (now : Z) (r : WorkerRetryRecord) : WorkerRetryRecord :=
  {| rec_id := rec_id r; rec_submission := rec_submission r; rec_attempt := rec_attempt r;
     nextRetryAt := nextRetryAt r; lastError := lastError r; failures := failures r;
     createdAt := createdAt r; updatedAt := now |}.

Definition due_now (now : Z) (r : WorkerRetryRecord) : WorkerRetryRecord :=
  {| rec_id := rec_id r; rec_submission := rec_submission r; rec_attempt := rec_attempt r;
     nextRetryAt := now; lastError := lastError r; failures := failures r;
     createdAt := createdAt r; updatedAt := now |}.

Record MemoryWorkerRetryQueue := {
  queued : jsmap string WorkerRetryRecord;
  inFlight : jsmap string (WorkerRetryRecord * Z);
  visibilityTimeoutMs : Z;
}.

(** [Math.max(1, Math.floor(x))] on a whole number of milliseconds. *)
Definition memory_queue (visibility : option Z) : MemoryWorkerRetryQueue :=
  {| queued := []; inFlight := []; visibilityTimeoutMs := Z.max 1 (default 30000%Z visibility) |}.

Definition enqueue (now : Z) (r : WorkerRetryRecord) (q : MemoryWorkerRetryQueue)
    : MemoryWorkerRetryQueue :=
  {| queued := mset (rec_id r) (touched now r) (queued q); inFlight := inFlight q;
     visibilityTimeoutMs := visibilityTimeoutMs q |}.

Definition reclaim_one (now : Z) (q : MemoryWorkerRetryQueue)
    (entry : string * (WorkerRetryRecord * Z)) : MemoryWorkerRetryQueue :=
  let '(id, (r, expiresAt)) := entry in
  if (expiresAt <=? now)%Z then
    {| queued := mset id (due_now now r) (queued q); inFlight := mdel id (inFlight q);
       visibilityTimeoutMs := visibilityTimeoutMs q |}
  else q.

Definition reclaimExpiredInFlight (now : Z) (q : MemoryWorkerRetryQueue) : MemoryWorkerRetryQueue :=
  foldl (reclaim_one now) q (inFlight q).

(** [a] comes before [b]: earlier due, ties by id. *)
Definition earlier (a b : WorkerRetryRecord) : bool :=
  (nextRetryAt a <? nextRetryAt b)%Z ||
  ((nextRetryAt a =? nextRetryAt b)%Z && String.ltb (rec_id a) (rec_id b)).

(** The scan for the best record that is due. *)
Fixpoint best_due (now : Z) (best : option WorkerRetryRecord) (rs : list WorkerRetryRecord)
    : option WorkerRetryRecord :=
  match rs with
  | [] => best
  | r :: rs' =>
      if (now <? nextRetryAt r)%Z then best_due now best rs'
      else
        match best with
        | None => best_due now (Some r) rs'
        | Some b => best_due now (if earlier r b then Some r else best) rs'
        end
  end.

Definition dequeue (now : Z) (q0 : MemoryWorkerRetryQueue)
    : option WorkerRetryRecord * MemoryWorkerRetryQueue :=
  let q := reclaimExpiredInFlight now q0 in
  match best_due now None (mvals (queued q)) with
  | None => (None, q)
  | Some best =>
      (Some best,
       {| queued := mdel (rec_id best) (queued q);
          inFlight := mset (rec_id best) (best, now + visibilityTimeoutMs q)%Z (inFlight q);
          visibilityTimeoutMs := visibilityTimeoutMs q |})
  end.

Definition ack (id : string) (q : MemoryWorkerRetryQueue) : MemoryWorkerRetryQueue :=
  {| queued := mdel id (queued q); inFlight := mdel id (inFlight q);
     visibilityTimeoutMs := visibilityTimeoutMs q |}.

Definition queue_size (q : MemoryWorkerRetryQueue) : nat := msize (queued q).

Definition makeRetryRecord (s : SubmissionHandle) (attempt next : Z) (f : SubmissionFailure)
    (prior : list SubmissionFailure) (now : Z) : WorkerRetryRecord :=
  {| rec_id := submissionId s; rec_submission := s; rec_attempt := attempt; nextRetryAt := next;
     lastError := Some (message f); failures := prior ++ [f]; createdAt := now; updatedAt := now |}.

Inductive queue_call :=
  | Enqueue (now : Z) (r : WorkerRetryRecord)
  | Dequeue (now : Z)
  | Ack (id : string).

Definition queue_call_step (c : queue_call) (q : MemoryWorkerRetryQueue) : MemoryWorkerRetryQueue :=
  match c with
  | Enqueue now r => enqueue now r q
  | Dequeue now => (dequeue now q).2
  | Ack id => ack id q
  end.

Definition run_calls (cs : list queue_call) (q : MemoryWorkerRetryQueue) : MemoryWorkerRetryQueue :=
  foldl (λ q c, queue_call_step c q) q cs.

(** ** The file-backed queue

    [file] is what is on disk, [None] when there is none; [cache] is what the
    object has loaded.  A record written with [JSON.stringify] is read back as it
    was written. *)

Record FileWorkerRetryQueue := {
  file : option (list WorkerRetryRecord);
  cache : option (list WorkerRetryRecord);
}.

Definition file_queue : FileWorkerRetryQueue := {| file := None; cache := None |}.

Definition load (q : FileWorkerRetryQueue) : list WorkerRetryRecord :=
  match cache q with Some rs => rs | None => default [] (file q) end.

Definition persist (rs : list WorkerRetryRecord) : FileWorkerRetryQueue :=
  {| file := Some rs; cache := Some rs |}.

Definition loaded (q : FileWorkerRetryQueue) : FileWorkerRetryQueue :=
  {| file := file q; cache := Some (load q) |}.

Definition file_enqueue (now : Z) (r : WorkerRetryRecord) (q : FileWorkerRetryQueue)
    : FileWorkerRetryQueue :=
  let records := load q in
  let updated := touched now r in
  match list_find (λ r', rec_id r' = rec_id r) records with
  | Some (idx, _) => persist (<[idx := updated]> records)
  | None => persist (records ++ [updated])
  end.

(** The same scan, with the index of the best record. *)
Fixpoint best_due_at (now : Z) (i : nat) (best : option (nat * WorkerRetryRecord))
    (rs : list WorkerRetryRecord) : option (nat * WorkerRetryRecord) :=
  match rs with
  | [] => best
  | r :: rs' =>
      if (now <? nextRetryAt r)%Z then best_due_at now (S i) best rs'
      else
        match best with
        | None => best_due_at now (S i) (Some (i, r)) rs'
        | Some (_, b) => best_due_at now (S i) (if earlier r b then Some (i, r) else best) rs'
        end
  end.

Definition file_dequeue (now : Z) (q : FileWorkerRetryQueue)
    : option WorkerRetryRecord * FileWorkerRetryQueue :=
  let records := load q in
  match best_due_at now 0 None records with
  | None => (None, loaded q)
  | Some (bestIdx, best) => (Some best, persist (delete bestIdx records))
  end.

Definition file_ack (id : string) (q : FileWorkerRetryQueue) : FileWorkerRetryQueue :=
  let records := load q in
  let next := base.filter (λ r, rec_id r ≠ id) records in
  if bool_decide (length next = length records) then loaded q else persist next.

(** A new process over the same directory. *)
Definition restart (q : FileWorkerRetryQueue) : FileWorkerRetryQueue :=
  {| file := file q; cache := None |}.

Definition file_call_step (c : queue_call) (q : FileWorkerRetryQueue)
    : option WorkerRetryRecord * FileWorkerRetryQueue :=
  match c with
  | Enqueue now r => (None, file_enqueue now r q)
  | Dequeue now => file_dequeue now q
  | Ack id => (None, file_ack id q)
  end.

Definition file_run (cs : list queue_call) (q : FileWorkerRetryQueue) : FileWorkerRetryQueue :=
  foldl (λ q c, (file_call_step c q).2) q cs.

(** ** What the classifier decides *)

Lemma matches_app msg code l1 l2 :
  matches msg code (l1 ++ l2) = matches msg code l1 || matches msg code l2.
Proof. apply existsb_app. Qed.

Lemma append_assoc (a b c : string) : (a +:+ b) +:+ c = a +:+ (b +:+ c).
Proof. induction a as [|x a IH]; [done|]. cbn. by rewrite IH. Qed.

Lemma str_includes_trans s p p' :
  str_includes s p = true → str_includes p p' = true → str_includes s p' = true.
Proof.
  rewrite !str_includes_spec. intros (a & b & ->) (c & d & ->).
  exists (a +:+ c), (d +:+ b). by rewrite !append_assoc.
Qed.

(** A text that contains a longer needle contains the needle inside it. *)
Lemma matches_inner msg code needle inner :
  matches msg code [needle] = true → str_includes (to_lower needle) (to_lower inner) = true →
  matches msg code [inner] = true.
Proof.
  unfold matches. cbn [existsb]. rewrite !orb_false_r. apply str_includes_trans.
Qed.

Lemma unauthorized_is_rejected msg code :
  matches msg code ["unauthorized"; "unauthorised"] = true →
  matches msg code rejection_needles = true.
Proof.
  intros H. change rejection_needles with
    (["contract"; "op_invalid"; "tx_failed"; "wasm"] ++ ["auth"] ++
       ["bad auth"; "invalid auth"; "rejected"]).
  rewrite !matches_app. change ["unauthorized"; "unauthorised"] with
    (["unauthorized"] ++ ["unauthorised"]) in H.
  rewrite matches_app in H. apply orb_true_iff in H as [H|H];
    eapply (matches_inner _ _ _ "auth") in H; try done; rewrite H; by rewrite orb_true_r.
Qed.

(** what the classifier decides about an error that is not an RPC error.
    It is retried exactly when its message or result code names a transient
    condition or a network error caused it.  It is called unauthorized exactly
    when it names no transient condition and no rejection but the status 401 or
    403: a message that says unauthorized contains "auth" and is taken for a
    contract rejection. *)
Theorem classification_exact msg code cause_name :
  let f := classifySubmissionError (OtherError msg code cause_name) in
  retryable f = matches msg code (fee_needles ++ contention_needles ++ rate_needles ++ timeout_needles)
                || hasNetworkCause cause_name ∧
  (kind f = unauthorized ↔
     retryable f = false ∧ matches msg code rejection_needles = false ∧
     matches msg code ["401"; "403"] = true) ∧
  (matches msg code ["unauthorized"; "unauthorised"] = true → retryable f = false →
   kind f = contract_rejection).
Proof.
  cbv zeta. rewrite !matches_app. cbn [classifySubmissionError].
  pose proof (unauthorized_is_rejected msg code) as Hrej.
  assert (matches msg code unauthorized_needles =
            matches msg code ["unauthorized"; "unauthorised"] || matches msg code ["401"; "403"])
    as -> by (by rewrite <-matches_app).
  destruct (matches msg code fee_needles), (matches msg code contention_needles),
    (matches msg code rate_needles), (matches msg code timeout_needles),
    (hasNetworkCause cause_name), (matches msg code rejection_needles),
    (matches msg code ["unauthorized"; "unauthorised"]), (matches msg code ["401"; "403"]);
    cbn; intuition congruence.
Qed.

Lemma classification_exact_witness :
  kind (classifySubmissionError (OtherError "Unauthorized" None None)) = contract_rejection ∧
  kind (classifySubmissionError (OtherError "HTTP 401" None None)) = unauthorized.
Proof.
  split.
  - by apply (classification_exact "Unauthorized" None None); vm_compute.
  - by apply (classification_exact "HTTP 401" None None); vm_compute.
Defined.

(** ** The retry chain of one submission *)

(** The decisions of a submission whose attempts fail in turn: each failure is
    the time, the random draw and the error. *)
Fixpoint retry_chain (p : RetryPolicy) (s : SubmissionHandle) (attempt : Z)
    (fs : list (Z * Z * SubmissionError)) : list RetryDecision :=
  match fs with
  | [] => []
  | (now, random, e) :: fs' =>
      let d := decide_retry p now random attempt e s in
      d :: match d with Retry next _ => retry_chain p s next fs' | Deadletter _ _ _ => [] end
  end.

Lemma decide_retry_cases p now random attempt e s :
  match decide_retry p now random attempt e s with
  | Retry next t =>
      retryable (classifySubmissionError e) = true ∧ (attempt < maxAttempts p)%Z ∧
      next = (attempt + 1)%Z ∧ t = (now + delayForAttempt p random attempt)%Z ∧
      (t ≤ windowDeadlineMs s)%Z
  | Deadletter why a f =>
      a = attempt ∧ f = classifySubmissionError e ∧
      match why with
      | terminal => retryable f = false
      | max_attempts => retryable f = true ∧ (maxAttempts p ≤ attempt)%Z
      | window_expired =>
          retryable f = true ∧ (attempt < maxAttempts p)%Z ∧
          (windowDeadlineMs s < now + delayForAttempt p random attempt)%Z
      end
  end.
Proof.
  unfold decide_retry. repeat case_match; simplify_eq; bool_to_prop; naive_solver lia.
Qed.

Lemma retry_policy_valid n i m j p :
  retry_policy n i m j = Ok p →
  (1 ≤ maxAttempts p)%Z ∧ (0 ≤ initialDelayMs p)%Z ∧ (0 ≤ maxDelayMs p)%Z.
Proof.
  unfold retry_policy. destruct (as_integer n) as [k|]; [|done].
  intros ([] & Hk & H)%result_bind_Ok. apply reject_if_Ok in Hk. destruct i as [i|]; [|done].
  apply result_bind_Ok in H as ([] & Hi & H). apply reject_if_Ok in Hi. destruct m as [m|]; [|done].
  apply result_bind_Ok in H as ([] & Hm & H). apply reject_if_Ok in Hm. simplify_eq/=.
  bool_to_prop. lia.
Qed.

Lemma delay_bounds p random attempt :
  (0 ≤ initialDelayMs p)%Z → (0 ≤ maxDelayMs p)%Z → (0 ≤ random < RANDOM_UNIT)%Z →
  (0 ≤ delayForAttempt p random attempt ≤ maxDelayMs p)%Z.
Proof.
  intros Hi Hm Hr. unfold delayForAttempt, fullJitterBackoffMs.
  assert (0 ≤ 2 ^ (attempt - 1))%Z by (apply Z.pow_nonneg; lia).
  set (e := Z.min _ _). assert (0 ≤ e ≤ maxDelayMs p)%Z by (subst e; nia).
  destruct (jitter p); [|done]. assert (0 < RANDOM_UNIT)%Z by done.
  split; [apply Z.div_pos; nia|]. apply Z.div_le_upper_bound; nia.
Qed.

(** the retry chain of a submission.  Under a policy the constructor
    accepts, whatever errors come back and whatever the clock shows, a
    submission is tried at most [maxAttempts] times; each retry is due between
    now and [maxDelayMs] from now, and never after the window's deadline, so no
    retry leaks into the next period. *)
Theorem retry_chain_bounded n i m j p s attempt fs :
  retry_policy n i m j = Ok p → (1 ≤ attempt ≤ maxAttempts p)%Z →
  Forall (λ f, (0 ≤ f.1.2 < RANDOM_UNIT)%Z) fs →
  (Z.of_nat (length (retry_chain p s attempt fs)) ≤ maxAttempts p - attempt + 1)%Z ∧
  Forall2 (λ f d, match d with
                  | Retry next t => (attempt < next ≤ maxAttempts p)%Z ∧
                      (f.1.1 ≤ t ≤ f.1.1 + maxDelayMs p)%Z ∧ (t ≤ windowDeadlineMs s)%Z
                  | Deadletter _ a _ => (attempt ≤ a)%Z
                  end)
    (take (length (retry_chain p s attempt fs)) fs) (retry_chain p s attempt fs).
Proof.
  intros (Hn & Hi & Hm)%retry_policy_valid. revert attempt.
  induction fs as [|[[now random] e] fs IH]; intros attempt Ha Hr; cbn; [split; [lia|done]|].
  apply Forall_cons in Hr as [Hr Hrs]. cbn in Hr.
  pose proof (decide_retry_cases p now random attempt e s) as Hd.
  destruct (decide_retry p now random attempt e s) as [next t|why a f]; cbn.
  - destruct Hd as (_ & Hlt & -> & Ht & Hw).
    pose proof (delay_bounds p random attempt Hi Hm Hr).
    destruct (IH (attempt + 1)%Z) as [IH1 IH2]; [lia|done|].
    split; [lia|]. constructor; [cbn; lia|].
    eapply Forall2_impl; [exact IH2|]. intros ? [? ?|? ? ?]; cbn; lia.
  - split; [lia|]. constructor; [|constructor]. destruct Hd as (-> & _ & _). lia.
Qed.

Lemma retry_chain_bounded_witness :
  let p := {| maxAttempts := 3; initialDelayMs := 100; maxDelayMs := 1000; jitter := false |} in
  let s := {| submissionId := "s"; windowDeadlineMs := 5000 |} in
  let e := OtherError "timeout" None None in
  retry_policy (jint 3) (Some 100%Z) (Some 1000%Z) (Some false) = Ok p ∧
  retry_chain p s 1 [(0, 0, e); (100, 0, e); (300, 0, e)]%Z =
    [Retry 2 100; Retry 3 300; Deadletter max_attempts 3 (classifySubmissionError e)] ∧
  (Z.of_nat (length (retry_chain p s 1 [(0, 0, e); (100, 0, e); (300, 0, e)]%Z)) ≤ 3 - 1 + 1)%Z.
Proof.
  cbv zeta. split; [reflexivity|]. split; [reflexivity|].
  eapply (retry_chain_bounded (jint 3) (Some 100%Z) (Some 1000%Z) (Some false)); [reflexivity|done|].
  repeat constructor; done.
Defined.

(** ** What the in-memory queue holds *)

(** Both maps hold a key once, and file every record under its own id. *)
Definition queue_ok (q : MemoryWorkerRetryQueue) : Prop :=
  mwf (queued q) ∧ mwf (inFlight q) ∧
  (∀ k r, mget k (queued q) = Some r → rec_id r = k) ∧
  (∀ k r e, mget k (inFlight q) = Some (r, e) → rec_id r = k).

Definition expired (now : Z) (x : option (WorkerRetryRecord * Z)) : option WorkerRetryRecord :=
  match x with
  | Some (r, e) => if (e <=? now)%Z then Some (due_now now r) else None
  | None => None
  end.

Lemma reclaim_one_spec now q i r e :
  mwf (queued q) → mwf (inFlight q) →
  let q' := reclaim_one now q (i, (r, e)) in
  mwf (queued q') ∧ mwf (inFlight q') ∧ visibilityTimeoutMs q' = visibilityTimeoutMs q ∧
  (∀ k, i ≠ k → mget k (queued q') = mget k (queued q) ∧
                mget k (inFlight q') = mget k (inFlight q)) ∧
  (match expired now (Some (r, e)) with
   | Some r' => mget i (queued q') = Some r' ∧ mget i (inFlight q') = None
   | None => q' = q
   end).
Proof.
  intros Hq Hf. cbn. destruct (e <=? now)%Z; cbn; [|by auto].
  split_and!; auto using mwf_mset, mwf_mdel.
  - intros k Hk. by rewrite mget_mset_ne, mget_mdel_ne.
  - by rewrite mget_mset_eq.
  - by apply mget_mdel_eq.
Qed.

Lemma reclaim_list now l q k :
  NoDup (mkeys l) → mwf (queued q) → mwf (inFlight q) →
  let q' := foldl (reclaim_one now) q l in
  mwf (queued q') ∧ mwf (inFlight q') ∧ visibilityTimeoutMs q' = visibilityTimeoutMs q ∧
  match expired now (mget k l) with
  | Some r => mget k (queued q') = Some r ∧ mget k (inFlight q') = None
  | None => mget k (queued q') = mget k (queued q) ∧ mget k (inFlight q') = mget k (inFlight q)
  end.
Proof.
  cbv zeta. revert q. induction l as [|[i [r e]] l IH]; intros q Hl Hq Hf; [done|].
  apply NoDup_cons in Hl as [Hi Hl].
  destruct (reclaim_one_spec now q i r e Hq Hf) as (W1 & W2 & W3 & W4 & W5).
  change (foldl (reclaim_one now) q ((i, (r, e)) :: l)) with
    (foldl (reclaim_one now) (reclaim_one now q (i, (r, e))) l).
  destruct (IH (reclaim_one now q (i, (r, e)))) as (H1 & H2 & H3 & H4); [done..|].
  split_and!; [done|done|congruence|].
  cbn [mget]. destruct (decide (i = k)) as [<-|Hne].
  - apply mget_None in Hi. cbn [fst] in Hi. rewrite Hi in H4. cbn [expired] in H4.
    destruct H4 as [-> ->]. cbn [expired] in W5 |- *.
    destruct (e <=? now)%Z; [done|]. by rewrite W5.
  - destruct (W4 k Hne) as [E1 E2]. destruct (expired now (mget k l)); [done|].
    by rewrite <-E1, <-E2.
Qed.

(** What a reclaim at [now] leaves under [k]. *)
Lemma reclaim_get now q k :
  queue_ok q →
  let q' := reclaimExpiredInFlight now q in
  mwf (queued q') ∧ mwf (inFlight q') ∧ visibilityTimeoutMs q' = visibilityTimeoutMs q ∧
  match expired now (mget k (inFlight q)) with
  | Some r => mget k (queued q') = Some r ∧ mget k (inFlight q') = None
  | None => mget k (queued q') = mget k (queued q) ∧ mget k (inFlight q') = mget k (inFlight q)
  end.
Proof. intros (H1 & H2 & _). by apply reclaim_list. Qed.

Lemma reclaim_ok now q : queue_ok q → queue_ok (reclaimExpiredInFlight now q).
Proof.
  intros Hok. destruct (reclaim_get now q "" Hok) as (H1 & H2 & _ & _).
  pose proof Hok as (_ & _ & Hq & Hf). split_and!; [done|done|..].
  - intros k r Hk. destruct (reclaim_get now q k Hok) as (_ & _ & _ & H).
    destruct (mget k (inFlight q)) as [[r' e]|] eqn:E; cbn [expired] in H;
      [destruct (e <=? now)%Z|].
    + destruct H as [H _]. rewrite H in Hk. simplify_eq. cbn. by eapply Hf.
    + destruct H as [H _]. apply Hq. congruence.
    + destruct H as [H _]. apply Hq. congruence.
  - intros k r e Hk. destruct (reclaim_get now q k Hok) as (_ & _ & _ & H).
    destruct (expired now (mget k (inFlight q))); destruct H as [_ H]; [congruence|].
    apply (Hf k r e). congruence.
Qed.

Lemma best_due_elem now best rs r :
  best_due now best rs = Some r → best = Some r ∨ (r ∈ rs ∧ (nextRetryAt r ≤ now)%Z).
Proof.
  revert best. induction rs as [|x rs IH]; intros best; cbn; [by left|].
  assert (∀ b, (b = best ∨ b = Some x) → (nextRetryAt x ≤ now)%Z → best_due now b rs = Some r →
               best = Some r ∨ (r ∈ x :: rs ∧ (nextRetryAt r ≤ now)%Z)) as Hgo.
  { intros b Hb Hx Hr. apply IH in Hr as [Hr|[Hr Hd]]; [|right; set_solver].
    destruct Hb as [->|Hb]; [by left|]. right. replace r with x by congruence. set_solver. }
  destruct (now <? nextRetryAt x)%Z eqn:Ex.
  - intros Hr. apply IH in Hr as [?|[? ?]]; [by left|right; set_solver].
  - bool_to_prop. destruct best as [b|]; [|by eauto]. case_match; eauto.
Qed.

Lemma best_due_present now b rs : is_Some (best_due now (Some b) rs).
Proof.
  revert b. induction rs as [|x rs IH]; intros b; cbn; [done|].
  repeat case_match; eauto.
Qed.

(** [a] is not after [b]: earlier due, or due together with an id not greater. *)
Definition not_after (a b : WorkerRetryRecord) : Prop :=
  (nextRetryAt a < nextRetryAt b)%Z ∨
  (nextRetryAt a = nextRetryAt b ∧ String.le (rec_id a) (rec_id b)).

#[export] Instance not_after_trans : Transitive not_after.
Proof.
  intros a b c [H1|[H1 H1']] [H2|[H2 H2']]; unfold not_after; [left; lia..|].
  right. split; [lia|]. by etrans.
Qed.

#[export] Instance not_after_refl : Reflexive not_after.
Proof. intros a. by right. Qed.

Lemma earlier_spec a b : if earlier a b then not_after a b else not_after b a.
Proof.
  unfold earlier, not_after, String.le, String.ltb, String.leb.
  rewrite (String.compare_antisym (rec_id b) (rec_id a)).
  destruct (Z.ltb_spec (nextRetryAt a) (nextRetryAt b)); [by left|].
  destruct (Z.eqb_spec (nextRetryAt a) (nextRetryAt b)); cbn; [|left; lia].
  destruct (rec_id a ?= rec_id b)%string; cbn; right; done.
Qed.

Lemma best_due_least now best rs r :
  best_due now best rs = Some r →
  (∀ b, best = Some b → not_after r b) ∧
  (∀ x, x ∈ rs → (nextRetryAt x ≤ now)%Z → not_after r x).
Proof.
  revert best. induction rs as [|y rs IH]; intros best; cbn.
  { intros ->. split; [intros b [= ->]; done|set_solver]. }
  destruct (Z.ltb_spec now (nextRetryAt y)) as [Hy|Hy].
  { intros Hr. apply IH in Hr as [H1 H2]. split; [done|].
    intros x [->|Hx]%elem_of_cons Hd; [lia|auto]. }
  destruct best as [b|]; intros Hr; apply IH in Hr as [H1 H2].
  - pose proof (earlier_spec y b) as He.
    destruct (earlier y b); specialize (H1 _ eq_refl); (split; [intros ? [= <-]|]).
    1, 3: by etrans.
    all: intros x [->|Hx]%elem_of_cons Hd; [by etrans|auto].
  - split; [done|]. intros x [->|Hx]%elem_of_cons Hd; auto.
Qed.

Lemma best_due_none now rs :
  best_due now None rs = None ↔ ∀ x, x ∈ rs → (now < nextRetryAt x)%Z.
Proof.
  induction rs as [|y rs IH]; cbn; [set_solver|].
  destruct (Z.ltb_spec now (nextRetryAt y)) as [Hy|Hy].
  - rewrite IH. split; [|set_solver]. intros H x [->|Hx]%elem_of_cons; auto.
  - split; intros H.
    + destruct (best_due_present now y rs) as [? ?]. congruence.
    + specialize (H y ltac:(set_solver)). lia.
Qed.

Definition holds (q : MemoryWorkerRetryQueue) (k : string) : Prop :=
  is_Some (mget k (queued q)) ∨ is_Some (mget k (inFlight q)).

(** The record of [k] a consumer at [now] can be handed: the queued one, or the
    one whose visibility timeout has passed. *)
Definition available (now : Z) (q : MemoryWorkerRetryQueue) (k : string)
    : option WorkerRetryRecord :=
  match expired now (mget k (inFlight q)) with
  | Some r => Some r
  | None => mget k (queued q)
  end.

Lemma reclaim_available now q k :
  queue_ok q → mget k (queued (reclaimExpiredInFlight now q)) = available now q k.
Proof.
  intros Hok. destruct (reclaim_get now q k Hok) as (_ & _ & _ & H). unfold available.
  by destruct (expired now (mget k (inFlight q))), H as [-> _].
Qed.

Lemma reclaim_holds now q k :
  queue_ok q → holds (reclaimExpiredInFlight now q) k ↔ holds q k.
Proof.
  intros Hok. destruct (reclaim_get now q k Hok) as (_ & _ & _ & H). unfold holds.
  destruct (expired now (mget k (inFlight q))) eqn:E; destruct H as [-> ->]; [|done].
  destruct (mget k (inFlight q)) as [[]|]; [|done].
  split; intros _; [right|left]; by eexists.
Qed.

Lemma dequeue_None now q :
  queue_ok q → (dequeue now q).1 = None →
  (dequeue now q).2 = reclaimExpiredInFlight now q ∧
  ∀ k r, available now q k = Some r → (now < nextRetryAt r)%Z.
Proof.
  intros Hok. unfold dequeue.
  destruct (best_due now None (mvals _)) eqn:E; [done|]. intros _. split; [done|].
  intros k r Hk. rewrite best_due_none in E. apply E.
  apply elem_of_mvals; [by apply reclaim_ok|]. exists k. by rewrite reclaim_available.
Qed.

Lemma dequeue_Some now q r :
  queue_ok q → (dequeue now q).1 = Some r →
  available now q (rec_id r) = Some r ∧ (nextRetryAt r ≤ now)%Z ∧
  (∀ k x, available now q k = Some x → (nextRetryAt x ≤ now)%Z → not_after r x) ∧
  let q1 := reclaimExpiredInFlight now q in
  (dequeue now q).2 =
    {| queued := mdel (rec_id r) (queued q1);
       inFlight := mset (rec_id r) (r, now + visibilityTimeoutMs q)%Z (inFlight q1);
       visibilityTimeoutMs := visibilityTimeoutMs q |}.
Proof.
  intros Hok. unfold dequeue. pose proof (reclaim_ok now q Hok) as Hok1.
  assert (visibilityTimeoutMs (reclaimExpiredInFlight now q) = visibilityTimeoutMs q) as Hv
    by (by destruct (reclaim_get now q "" Hok) as (_ & _ & -> & _)).
  destruct (best_due now None (mvals _)) as [b|] eqn:E; [|done]. intros [= ->].
  pose proof (best_due_least _ _ _ _ E) as [_ Hleast].
  apply best_due_elem in E as [|[Hin Hd]]; [done|].
  apply elem_of_mvals in Hin as [k Hk]; [|apply Hok1].
  assert (rec_id r = k) as -> by (by apply Hok1).
  split_and!.
  - by rewrite <-reclaim_available.
  - done.
  - intros k' x Hx Hxd. apply Hleast; [|done]. apply elem_of_mvals; [apply Hok1|].
    exists k'. by rewrite reclaim_available.
  - cbn. by rewrite Hv.
Qed.

Lemma enqueue_ok now r q : queue_ok q → queue_ok (enqueue now r q).
Proof.
  intros (H1 & H2 & H3 & H4). split_and!; cbn; auto using mwf_mset.
  intros k r'. rewrite mget_mset. case_decide; [intros [= <-]; done|apply H3].
Qed.

Lemma ack_ok id q : queue_ok q → queue_ok (ack id q).
Proof.
  intros (H1 & H2 & H3 & H4). split_and!; cbn; auto using mwf_mdel.
  - intros k r. rewrite mget_mdel by done. case_decide; [done|apply H3].
  - intros k r e. rewrite mget_mdel by done. case_decide; [done|apply H4].
Qed.

Lemma dequeue_ok now q : queue_ok q → queue_ok (dequeue now q).2.
Proof.
  intros Hok. pose proof (reclaim_ok now q Hok) as Hok1.
  destruct (dequeue now q).1 as [r|] eqn:E.
  - apply dequeue_Some in E as (_ & _ & _ & ->); [|done].
    destruct Hok1 as (H1 & H2 & H3 & H4). split_and!; cbn; auto using mwf_mset, mwf_mdel.
    + intros k r'. rewrite mget_mdel by done. case_decide; [done|apply H3].
    + intros k r' e. rewrite mget_mset. case_decide; [by intros [= <- _]|apply H4].
  - apply dequeue_None in E as [-> _]; done.
Qed.

Lemma call_ok c q : queue_ok q → queue_ok (queue_call_step c q).
Proof. destruct c; [apply enqueue_ok|apply dequeue_ok|apply ack_ok]. Qed.

Lemma calls_ok cs q : queue_ok q → queue_ok (run_calls cs q).
Proof. revert q. induction cs as [|c cs IH]; intros q H; [done|]. apply IH. by apply call_ok. Qed.

Lemma memory_queue_ok v : queue_ok (memory_queue v).
Proof. split_and!; cbn; auto using mwf_nil; done. Qed.

#[export] Hint Resolve enqueue_ok ack_ok dequeue_ok call_ok calls_ok memory_queue_ok : orbital.

(** ** The contract of the in-memory queue *)

(** A record is held from its enqueue to its acknowledgement. *)
Definition held_step (id : string) (h : bool) (c : queue_call) : bool :=
  match c with
  | Enqueue _ r => h || bool_decide (rec_id r = id)
  | Dequeue _ => h
  | Ack id' => h && negb (bool_decide (id' = id))
  end.

Definition held (id : string) (cs : list queue_call) : bool := foldl (held_step id) false cs.

Lemma call_holds c q k b :
  queue_ok q → (holds q k ↔ b = true) →
  (holds (queue_call_step c q) k ↔ held_step k b c = true).
Proof.
  intros Hok Hb. destruct c as [now r|now|id]; cbn [queue_call_step held_step].
  - rewrite orb_true_iff, bool_decide_eq_true, <-Hb. unfold holds. cbn.
    rewrite mget_mset. case_decide; [|naive_solver].
    split; [by right|]. intros _. left. by eexists.
  - rewrite <-Hb, <-(reclaim_holds now q k Hok). destruct (dequeue now q).1 as [r|] eqn:E.
    + apply dequeue_Some in E as (Ha & _ & _ & ->); [|done]. unfold holds. cbn.
      rewrite mget_mset, mget_mdel by apply reclaim_ok, Hok.
      case_decide; [subst|done]. rewrite reclaim_available, Ha by done.
      split; intros _; [left|right]; by eexists.
    + by apply dequeue_None in E as [-> _].
  - rewrite andb_true_iff, negb_true_iff, bool_decide_eq_false, <-Hb.
    destruct Hok as (H1 & H2 & _). unfold holds. cbn. rewrite !mget_mdel by done.
    case_decide; [|naive_solver]. split; [intros [[? ?]|[? ?]]; done|naive_solver].
Qed.

(** what the in-memory queue promises.  After any calls on a new queue, at
    any times, a record is in the queue (waiting, or handed out and not yet
    acknowledged) exactly while it has been enqueued and not acknowledged since:
    handing it out loses nothing, whatever becomes of the consumer. *)
Theorem queue_holds_until_ack visibility cs id :
  holds (run_calls cs (memory_queue visibility)) id ↔ held id cs = true.
Proof.
  unfold held, run_calls.
  assert (holds (memory_queue visibility) id ↔ false = true) as Hb.
  { split; [|done]. intros [[? H]|[? H]]; done. }
  pose proof (memory_queue_ok visibility) as Hok. revert Hb Hok.
  generalize (memory_queue visibility) as q, false as b.
  induction cs as [|c cs IH]; intros q b Hb Hok; [done|]. cbn.
  apply IH; [by apply call_holds|by apply call_ok].
Qed.

(** A call that neither enqueues [id] again nor dequeues at [until] or later. *)
Definition quiet (id : string) (until : Z) (c : queue_call) : Prop :=
  match c with
  | Enqueue _ r => rec_id r ≠ id
  | Dequeue now => (now < until)%Z
  | Ack _ => True
  end.

(** [id] cannot be handed out before [until]. *)
Definition hidden (id : string) (until : Z) (q : MemoryWorkerRetryQueue) : Prop :=
  mget id (queued q) = None ∧
  (∀ r e, mget id (inFlight q) = Some (r, e) → (until ≤ e)%Z).

Lemma hidden_available id until now q :
  hidden id until q → (now < until)%Z → available now q id = None.
Proof.
  intros [H1 H2] Hn. unfold available. destruct (mget id (inFlight q)) as [[r e]|]; cbn; [|done].
  specialize (H2 r e eq_refl). destruct (Z.leb_spec e now); [lia|done].
Qed.

Lemma hidden_reclaim id until now q :
  queue_ok q → hidden id until q → (now < until)%Z →
  hidden id until (reclaimExpiredInFlight now q).
Proof.
  intros Hok Hh Hn. pose proof (hidden_available _ _ _ _ Hh Hn) as Ha.
  destruct (reclaim_get now q id Hok) as (_ & _ & _ & H). unfold available in Ha.
  unfold hidden. destruct (expired now _); [done|]. destruct H as [-> ->]. exact Hh.
Qed.

Lemma hidden_call id until c q :
  queue_ok q → quiet id until c → hidden id until q → hidden id until (queue_call_step c q).
Proof.
  intros Hok Hc Hh. pose proof Hh as [H1 H2]. destruct c as [now r|now|id']; cbn in *.
  - split; cbn; [|done]. by rewrite mget_mset_ne.
  - destruct (dequeue now q).1 as [r|] eqn:E.
    + apply dequeue_Some in E as (Ha & _ & _ & ->); [|done].
      assert (rec_id r ≠ id) as Hne.
      { intros <-. by rewrite (hidden_available _ until) in Ha. }
      destruct (hidden_reclaim id until now q) as [H1' H2']; [done..|].
      split; cbn; [by rewrite mget_mdel_ne|by rewrite mget_mset_ne].
    + apply dequeue_None in E as [-> _]; [|done]. by apply hidden_reclaim.
  - destruct Hok as (Hq & Hf & _). split; cbn; rewrite !mget_mdel by done; by case_decide.
Qed.

Lemma hidden_calls id until cs q :
  queue_ok q → Forall (quiet id until) cs → hidden id until q → hidden id until (run_calls cs q).
Proof.
  unfold run_calls. revert q. induction cs as [|c cs IH]; intros q Hok Hcs Hh; cbn; [done|].
  apply Forall_cons in Hcs as [Hc Hcs]. apply IH; [by apply call_ok|done|by apply hidden_call].
Qed.

(** what [dequeue] hands out.  On a queue in any reachable state it answers
    [null] exactly when no record is due, and otherwise the least of the due
    records by due time and id; that record is then invisible: no call hands it
    out again before its visibility timeout, unless it is enqueued again. *)
Theorem dequeue_contract visibility cs now :
  let q := run_calls cs (memory_queue visibility) in
  match (dequeue now q).1 with
  | None => ∀ k x, available now q k = Some x → (now < nextRetryAt x)%Z
  | Some r =>
      available now q (rec_id r) = Some r ∧ (nextRetryAt r ≤ now)%Z ∧
      (∀ k x, available now q k = Some x → (nextRetryAt x ≤ now)%Z → not_after r x) ∧
      ∀ cs' now' r',
        Forall (quiet (rec_id r) (now + visibilityTimeoutMs q)) cs' →
        (dequeue now' (run_calls cs' (dequeue now q).2)).1 = Some r' →
        rec_id r' = rec_id r → (now + visibilityTimeoutMs q ≤ now')%Z
  end.
Proof.
  set (q := run_calls cs _). assert (queue_ok q) as Hok by (subst q; auto with orbital).
  cbv zeta. destruct (dequeue now q).1 as [r|] eqn:E; [|by apply dequeue_None in E as [_ ?]].
  pose proof (dequeue_ok now q Hok) as Hok1.
  apply dequeue_Some in E as (Ha & Hd & Hl & Hq'); [|done]. split_and!; [done..|].
  intros cs' now' r' Hquiet Hr' Hid. destruct (Z_lt_le_dec now' (now + visibilityTimeoutMs q)) as [Hlt|];
    [|done]. exfalso.
  assert (hidden (rec_id r) (now + visibilityTimeoutMs q) (dequeue now q).2) as Hh.
  { rewrite Hq'. split; cbn; [apply mget_mdel_eq, reclaim_ok, Hok|].
    rewrite mget_mset_eq. intros ? ? [= <- <-]. lia. }
  apply dequeue_Some in Hr' as (Ha' & _); [|by apply calls_ok]. rewrite Hid in Ha'.
  rewrite (hidden_available _ (now + visibilityTimeoutMs q)) in Ha'; [done| |done].
  by apply hidden_calls.
Qed.

(** A consumer that reports its failure by enqueueing the next attempt and does
    not acknowledge first loses that attempt: when the visibility timeout of the
    old record passes, the old record is put back over the new one. *)
Lemma stale_reclaim_overwrites :
  let s := {| submissionId := "s"; windowDeadlineMs := 100000 |} in
  let f := classifySubmissionError (OtherError "timeout" None None) in
  let r1 := makeRetryRecord s 2 0 f [] 0 in
  let r2 := makeRetryRecord s 3 50000 f (failures r1) 0 in
  let q := run_calls [Enqueue 0 r1; Dequeue 0; Enqueue 10 r2] (memory_queue None) in
  (rec_attempt <$> (dequeue 30000 q).1) = Some 2%Z ∧
  (dequeue 60000 (ack "s" (dequeue 30000 q).2)).1 = None.
Proof. vm_compute. done. Qed.

(** ** The contract of the file-backed queue *)

(** What is loaded is what is on disk. *)
Definition coherent (q : FileWorkerRetryQueue) : Prop :=
  cache q = None ∨ cache q = Some (default [] (file q)).

Definition ids_distinct (rs : list WorkerRetryRecord) : Prop := NoDup (rec_id <$> rs).

Definition file_ok (q : FileWorkerRetryQueue) : Prop := coherent q ∧ ids_distinct (load q).

Lemma coherent_load q : coherent q → load q = default [] (file q).
Proof. unfold load. by intros [-> | ->]. Qed.

Lemma persist_ok rs : ids_distinct rs → file_ok (persist rs).
Proof. intros H. split; [by right|done]. Qed.

Lemma loaded_ok q : file_ok q → file_ok (loaded q).
Proof.
  intros [Hc Hd]. split; [|done]. right. cbn. by rewrite coherent_load.
Qed.

Lemma best_due_at_spec now i best rs :
  snd <$> best_due_at now i best rs = best_due now (snd <$> best) rs ∧
  ∀ j r, best_due_at now i best rs = Some (j, r) →
    best = Some (j, r) ∨ (i ≤ j ∧ rs !! (j - i) = Some r).
Proof.
  revert i best. induction rs as [|x rs IH]; intros i best; cbn; [by auto|].
  assert (∀ b, b = best ∨ b = Some (i, x) →
    ∀ j r, best_due_at now (S i) b rs = Some (j, r) →
    best = Some (j, r) ∨ (i ≤ j ∧ (x :: rs) !! (j - i) = Some r)) as Hgo.
  { intros b Hb j r Hj. apply IH in Hj as [Hj|[Hle Hj]].
    - destruct Hb as [<-|Hb]; [by left|]. right. simplify_eq. by rewrite Nat.sub_diag.
    - right. split; [lia|]. by replace (j - i)%nat with (S (j - S i)) by lia. }
  destruct (now <? nextRetryAt x)%Z; [split; [apply IH|eauto]|].
  destruct best as [[k b]|]; cbn; (split; [|eauto]).
  - destruct (earlier x b); apply (IH (S i)).
  - destruct (earlier x b); eauto.
  - apply (IH (S i)).
Qed.

Lemma ids_insert rs i old new :
  ids_distinct rs → rs !! i = Some old → rec_id new = rec_id old → ids_distinct (<[i := new]> rs).
Proof.
  unfold ids_distinct. intros Hd Hi Hid. rewrite list_fmap_insert, Hid.
  rewrite list_insert_id; [done|]. by rewrite list_lookup_fmap, Hi.
Qed.

Lemma ids_delete rs i r :
  ids_distinct rs → rs !! i = Some r →
  ids_distinct (delete i rs) ∧ rec_id r ∉ rec_id <$> delete i rs.
Proof.
  unfold ids_distinct. intros Hd Hi.
  rewrite <-(take_drop_middle rs i r Hi) in Hd. rewrite delete_take_drop.
  rewrite fmap_app, fmap_cons in Hd. rewrite fmap_app.
  apply NoDup_app in Hd as (H1 & H2 & H3). apply NoDup_cons in H3 as [H3 H4].
  rewrite NoDup_app, elem_of_app. set_solver.
Qed.

Lemma file_call_ok c q : file_ok q → file_ok (file_call_step c q).2.
Proof.
  intros Hok. pose proof Hok as [_ Hd].
  destruct c as [now r|now|id]; cbn [file_call_step snd]; unfold file_enqueue, file_dequeue, file_ack.
  - destruct (list_find _ _) as [[i old]|] eqn:E; apply persist_ok.
    + apply list_find_Some in E as (Hi & He & _). by eapply ids_insert.
    + unfold ids_distinct in *. rewrite fmap_app. apply NoDup_snoc. split; [done|].
      apply list_find_None in E. rewrite list_elem_of_fmap. intros (x & Hx & Hin).
      rewrite Forall_forall in E. by apply (E x).
  - destruct (best_due_at now 0 None (load q)) as [[i r]|] eqn:E; [|by apply loaded_ok].
    apply best_due_at_spec in E as [|[_ Hi]]; [done|]. rewrite Nat.sub_0_r in Hi.
    by apply persist_ok, (ids_delete _ _ r).
  - case_bool_decide; [by apply loaded_ok|]. apply persist_ok. unfold ids_distinct in *.
    eapply sublist_NoDup; [exact Hd|]. apply fmap_sublist, sublist_filter.
Qed.

Lemma file_run_ok cs : file_ok (file_run cs file_queue).
Proof.
  unfold file_run. assert (file_ok file_queue) as H by (split; [by left|apply NoDup_nil_2]).
  revert H. generalize file_queue. induction cs as [|c cs IH]; intros q H; [done|].
  cbn. by apply IH, file_call_ok.
Qed.

(** what the file-backed queue promises.  After any calls, a restart is
    invisible: the next call answers and leaves the same as without it, whatever
    the call.  [dequeue] hands out the same record as the in-memory queue does
    on the same records; it forgets that record at once, on disk too, so a
    process that stops before enqueueing the next attempt loses the chain. *)
Theorem file_queue_contract cs :
  let q := file_run cs file_queue in
  (∀ c, file_call_step c (restart q) = file_call_step c q) ∧
  ∀ now,
    (file_dequeue now q).1 = best_due now None (load q) ∧
    ∀ r, (file_dequeue now q).1 = Some r →
      r ∈ load q ∧
      ∀ r', r' ∈ load (restart (file_dequeue now q).2) ↔ r' ∈ load q ∧ rec_id r' ≠ rec_id r.
Proof.
  cbv zeta. set (q := file_run cs file_queue).
  assert (file_ok q) as [Hc Hd] by apply file_run_ok.
  assert (load (restart q) = load q) as Hl by (by rewrite (coherent_load q Hc)).
  split.
  - assert (loaded (restart q) = loaded q) as Hld by (unfold loaded; by rewrite Hl).
    intros [now r|now|id]; cbn [file_call_step]; unfold file_enqueue, file_dequeue, file_ack;
      by rewrite Hl, ?Hld.
  - intros now. unfold file_dequeue.
    pose proof (best_due_at_spec now 0 None (load q)) as [Hb Hi].
    destruct (best_due_at now 0 None (load q)) as [[i r]|]; cbn in Hb |- *; [|done].
    split; [done|]. intros ? [= <-]. destruct (Hi i r eq_refl) as [|[_ Hr]]; [done|].
    rewrite Nat.sub_0_r in Hr. split; [by eapply list_elem_of_lookup_2|]. intros r'.
    unfold load at 1. cbn. destruct (ids_delete _ _ _ Hd Hr) as [_ Hnot].
    pose proof (take_drop_middle _ _ _ Hr) as Hm. rewrite delete_take_drop in *.
    assert (r' ∈ load q ↔ r' ∈ take i (load q) ++ r :: drop (S i) (load q)) as -> by (by rewrite Hm).
    rewrite !elem_of_app, elem_of_cons. split.
    + intros Hin. split; [naive_solver|]. intros Hid. apply Hnot. rewrite <-Hid.
      apply list_elem_of_fmap_2. by apply elem_of_app.
    + intros [[?|[->|?]] Hne]; naive_solver.
Qed.
