(* ===== verification/Claims.v ===== *)
(** * Fire claims (packages/worker-core/src/idempotency.ts)

    The claim store as an interface with laws, its two implementations, and the
    manager that claims a fire key before it submits.  Times are epoch
    milliseconds of one clock, the store's. *)

From S2P Require Import Prelude.
From S2P Require Import Decimal.

(** ** Fire keys *)

Record FireKey := { workerId : string; windowStartLedger : Z }.

#[export] Instance FireKey_eq_dec : EqDecision FireKey.
Proof. solve_decision. Defined.

(** An integer in a template literal. *)
Definition number_to_string (z : Z) : string :=
  (if (z <? 0)%Z then "-" else "") +:+ pretty (Z.to_N (Z.abs z)).

Definition fireKeyToString (k : FireKey) : string :=
  workerId k +:+ ":" +:+ number_to_string (windowStartLedger k).

(** ** The claim store *)

Record ClaimRecord := { owner : string; expiresAt : Z }.

(** What the interface [ClaimStore] offers; the first argument is the time. *)
Class ClaimStore (S : Type) := {
  claim : Z → string → string → Z → S → bool * S;
  get : Z → string → S → option ClaimRecord;
  release : string → option string → S → S;
}.

(** [release(key, owner)] frees a claim of [r] when no owner is named or it is
    the holder. *)
Definition releases (o : option string) (r : ClaimRecord) : bool :=
  match o with Some o => String.eqb (owner r) o | None => true end.

(** What it promises: the key is won exactly when nobody holds it, the winner
    holds it until its time to live is over, and only [release] ends it
    earlier. *)
Class LawfulClaimStore (S : Type) `{ClaimStore S} := {
  claim_wins now k o ttl (s : S) :
    (claim now k o ttl s).1 = true ↔ get now k s = None;
  claim_lost now k o ttl (s : S) :
    (claim now k o ttl s).1 = false → (claim now k o ttl s).2 = s;
  get_claim now k o ttl (s : S) now' k' :
    (claim now k o ttl s).1 = true →
    get now' k' (claim now k o ttl s).2 =
      if decide (k' = k) then
        (if (now + ttl <=? now')%Z then None else Some {| owner := o; expiresAt := now + ttl |})
      else get now' k' s;
  get_release k o (s : S) now k' :
    get now k' (release k o s) =
      match get now k' s with
      | Some r => if decide (k' = k) then (if releases o r then None else Some r) else Some r
      | None => None
      end;
  get_later now now' k (s : S) r :
    get now k s = Some r → (now ≤ now')%Z →
    (now < expiresAt r)%Z ∧
    get now' k s = if (expiresAt r <=? now')%Z then None else Some r;
}.

(** *** In memory *)

Record InMemoryClaimStore := { map : gmap string ClaimRecord }.

Definition memory_claim (now : Z) (key o : string) (ttlMs : Z) (s : InMemoryClaimStore)
    : bool * InMemoryClaimStore :=
  let taken := {| map := <[key := {| owner := o; expiresAt := now + ttlMs |}]> (map s) |} in
  match map s !! key with
  | Some existing => if (expiresAt existing <=? now)%Z then (true, taken) else (false, s)
  | None => (true, taken)
  end.

Definition memory_get (now : Z) (key : string) (s : InMemoryClaimStore) : option ClaimRecord :=
  match map s !! key with
  | Some r => if (expiresAt r <=? now)%Z then None else Some r
  | None => None
  end.

Definition memory_release (key : string) (o : option string) (s : InMemoryClaimStore)
    : InMemoryClaimStore :=
  match map s !! key with
  | Some existing => if releases o existing then {| map := delete key (map s) |} else s
  | None => s
  end.

#[export] Instance InMemoryClaimStore_ops : ClaimStore InMemoryClaimStore :=
  {| claim := memory_claim; get := memory_get; release := memory_release |}.

(** *** In PostgreSQL

    The table [worker_fire_claims] by its key [fire_key]; each method is one
    statement, which the database runs atomically and whose [NOW()] is [now]. *)

Record PostgresClaimStore := { worker_fire_claims : gmap string ClaimRecord }.

(** INSERT ... ON CONFLICT (fire_key) DO UPDATE ... WHERE expires_at <= NOW()
    RETURNING fire_key: the row it inserted or updated, if any. *)
Definition postgres_claim (now : Z) (key o : string) (ttlMs : Z) (s : PostgresClaimStore)
    : bool * PostgresClaimStore :=
  let excluded := {| owner := o; expiresAt := now + ttlMs |} in
  let rows :=
    match worker_fire_claims s !! key with
    | None => [excluded]
    | Some row => if (expiresAt row <=? now)%Z then [excluded] else []
    end in
  (0 <? length rows,
   {| worker_fire_claims :=
        foldr (λ row, <[key := row]>) (worker_fire_claims s) rows |}).

Definition postgres_get (now : Z) (key : string) (s : PostgresClaimStore) : option ClaimRecord :=
  match worker_fire_claims s !! key with
  | Some row => if (now <? expiresAt row)%Z then Some row else None
  | None => None
  end.

(** DELETE ... WHERE fire_key = $1 [AND owner = $2]. *)
Definition postgres_release (key : string) (o : option string) (s : PostgresClaimStore)
    : PostgresClaimStore :=
  let doomed (p : string * ClaimRecord) : bool := String.eqb p.1 key && releases o p.2 in
  {| worker_fire_claims := base.filter (λ p, doomed p = false) (worker_fire_claims s) |}.

#[export] Instance PostgresClaimStore_ops : ClaimStore PostgresClaimStore :=
  {| claim := postgres_claim; get := postgres_get; release := postgres_release |}.

(** ** The manager: [claimThenSubmit] by several owners at once

    A call is a run; between its awaits other runs take steps. *)

Inductive RunPhase :=
  | Refused      (** somebody else holds the claim: returned false *)
  | Checking     (** won the claim, waiting for the chain check *)
  | Released     (** the chain showed the action: released, returned false *)
  | Submitting   (** waiting for submitFn *)
  | Submitted    (** returned true *)
  | Failed.      (** the check or submitFn rejected, or the process died *)

#[export] Instance RunPhase_eq_dec : EqDecision RunPhase.
Proof. solve_decision. Defined.

Record Run := {
  run_key : FireKey;
  run_owner : string;
  claimedAt : Z;
  sentAt : option Z;     (** when submitFn was called *)
  phase : RunPhase;
}.

Inductive ClaimTtlError := ClaimTtlMustBePositive.

(** The constructor's check of [claimTtlMs]. *)
Definition valid_ttl (claimTtlMs : jsnum) : result ClaimTtlError unit :=
  reject_if (negb (js_isFinite claimTtlMs) || negb (js_gtZ claimTtlMs 0)) ClaimTtlMustBePositive.

Definition DEFAULT_CLAIM_TTL_MS : Z := 5 * 60000.

Section manager.
Context {S : Type} `{!ClaimStore S}.
Context (claimTtlMs : Z).

Record System := { clock : Z; claims : S; runs : gmap nat Run }.

Definition set_phase (r : Run) (sent : option Z) (p : RunPhase) : Run :=
  {| run_key := run_key r; run_owner := run_owner r; claimedAt := claimedAt r;
     sentAt := sent; phase := p |}.

(** Up to the chain check. *)
Definition begin_run (i : nat) (key : FireKey) (o : string) (st : System) : System :=
  match runs st !! i with
  | Some _ => st
  | None =>
      let ks := fireKeyToString key in
      let '(claimed, store) := claim (clock st) ks o claimTtlMs (claims st) in
      {| clock := clock st; claims := store;
         runs := <[i := {| run_key := key; run_owner := o; claimedAt := clock st; sentAt := None;
                           phase := if claimed then Checking else Refused |}]> (runs st) |}
  end.

(** The chain check answered. *)
Definition checked (i : nat) (executed : bool) (st : System) : System :=
  match runs st !! i with
  | Some r =>
      if decide (phase r = Checking) then
        if executed then
          {| clock := clock st;
             claims := release (fireKeyToString (run_key r)) (Some (run_owner r)) (claims st);
             runs := <[i := set_phase r None Released]> (runs st) |}
        else
          {| clock := clock st; claims := claims st;
             runs := <[i := set_phase r (Some (clock st)) Submitting]> (runs st) |}
      else st
  | None => st
  end.

(** [submitFn] resolved, or something rejected. *)
Definition settled (i : nat) (ok : bool) (st : System) : System :=
  match runs st !! i with
  | Some r =>
      match phase r with
      | Checking =>
          if ok then st
          else {| clock := clock st; claims := claims st;
                  runs := <[i := set_phase r (sentAt r) Failed]> (runs st) |}
      | Submitting =>
          {| clock := clock st; claims := claims st;
             runs := <[i := set_phase r (sentAt r) (if ok then Submitted else Failed)]> (runs st) |}
      | _ => st
      end
  | None => st
  end.

Inductive manager_event :=
  | Tick (now : Z)
  | Begin (i : nat) (key : FireKey) (o : string)
  | Checked (i : nat) (executed : bool)
  | Settled (i : nat) (ok : bool).

Definition manager_step (e : manager_event) (st : System) : System :=
  match e with
  | Tick now => {| clock := Z.max (clock st) now; claims := claims st; runs := runs st |}
  | Begin i key o => begin_run i key o st
  | Checked i b => checked i b st
  | Settled i ok => settled i ok st
  end.

Definition manager_run (es : list manager_event) (st : System) : System :=
  foldl (λ st e, manager_step e st) st es.

(** Every step of a sequence of events satisfies [P]. *)
Fixpoint along (P : System → manager_event → Prop) (st : System) (es : list manager_event) : Prop :=
  match es with
  | [] => True
  | e :: es' => P st e ∧ along P (manager_step e st) es'
  end.
End manager.
Arguments System S : clear implicits.

(** ** The two stores keep the laws *)

#[export] Instance InMemoryClaimStore_lawful : LawfulClaimStore InMemoryClaimStore.
Proof.
  split; cbn.
  - intros now k o ttl s. unfold memory_claim, memory_get. repeat case_match; done.
  - intros now k o ttl s. unfold memory_claim. by repeat case_match.
  - intros now k o ttl s now' k'. unfold memory_claim, memory_get.
    destruct (map s !! k) as [r|] eqn:E; [destruct (expiresAt r <=? now)%Z; [|done]|];
      intros _; cbn; (case_decide; subst; [by rewrite lookup_insert_eq|by rewrite lookup_insert_ne]).
  - intros k o s now k'. unfold memory_get, memory_release.
    destruct (decide (k' = k)) as [->|Hne].
    + destruct (map s !! k) as [r|] eqn:E; [|by rewrite E].
      destruct (releases o r) eqn:Er; cbn; rewrite ?lookup_delete_eq, ?E;
        destruct (expiresAt r <=? now)%Z; by rewrite ?Er.
    + assert (map (match map s !! k with
                   | Some existing =>
                       if releases o existing then {| map := delete k (map s) |} else s
                   | None => s end) !! k' = map s !! k') as ->
        by (repeat case_match; cbn; by rewrite ?lookup_delete_ne).
      by repeat case_match.
  - intros now now' k s r. unfold memory_get. destruct (map s !! k); [|done].
    destruct (Z.leb_spec (expiresAt c) now); [done|]. intros [= ->] _. done.
Qed.

#[export] Instance PostgresClaimStore_lawful : LawfulClaimStore PostgresClaimStore.
Proof.
  split; cbn [claim get release PostgresClaimStore_ops].
  - intros now k o ttl s. unfold postgres_claim, postgres_get. cbn.
    destruct (worker_fire_claims s !! k) as [r|]; [|done].
    destruct (Z.leb_spec (expiresAt r) now), (Z.ltb_spec now (expiresAt r)); cbn; (done || lia).
  - intros now k o ttl [t]. unfold postgres_claim. cbn. by repeat case_match.
  - intros now k o ttl s now' k' Hw.
    assert (worker_fire_claims (postgres_claim now k o ttl s).2 =
              <[k := {| owner := o; expiresAt := now + ttl |}]> (worker_fire_claims s)) as Hs
      by (unfold postgres_claim in *; cbn in *; by repeat case_match).
    unfold postgres_get. rewrite Hs. case_decide as Hk; subst.
    + rewrite lookup_insert_eq. cbn.
      destruct (Z.ltb_spec now' (now + ttl)), (Z.leb_spec (now + ttl) now'); (done || lia).
    + by rewrite lookup_insert_ne.
  - intros k o s now k'. unfold postgres_get, postgres_release. cbn.
    rewrite map_lookup_filter. destruct (worker_fire_claims s !! k') as [r|]; cbn; [|done].
    destruct (String.eqb_spec k' k) as [->|Hne]; cbn.
    + destruct (now <? expiresAt r)%Z eqn:E, (releases o r) eqn:Er;
        simplify_option_eq; by rewrite ?E.
    + destruct (now <? expiresAt r)%Z eqn:E; simplify_option_eq; by rewrite ?E.
  - intros now now' k s r. unfold postgres_get. destruct (worker_fire_claims s !! k) as [c|]; [|done].
    destruct (Z.ltb_spec now (expiresAt c)); [|done]. intros [= ->] ?. split; [done|].
    destruct (Z.ltb_spec now' (expiresAt r)), (Z.leb_spec (expiresAt r) now'); (done || lia).
Qed.

(** ** Fire keys name one worker and window *)

Lemma number_to_string_free z : char_free ":"%char (number_to_string z) = true.
Proof.
  unfold number_to_string.
  assert (char_free ":"%char (pretty (Z.to_N (Z.abs z))) = true) as H
    by (apply all_digits_free; [done|apply all_digits_pretty]).
  case_match; [|exact H]. cbn [String.append char_free]. by rewrite H.
Qed.

Lemma number_to_string_inj : Inj (=) (=) number_to_string.
Proof.
  assert (∀ n s, pretty (n : N) ≠ String "-"%char s) as Hneg.
  { intros n s He. pose proof (all_digits_pretty n) as Hd. by rewrite He in Hd. }
  intros x y. unfold number_to_string.
  destruct (Z.ltb_spec x 0), (Z.ltb_spec y 0); cbn [String.append]; intros Heq.
  - injection Heq as Heq. apply (inj pretty) in Heq. lia.
  - symmetry in Heq. by apply Hneg in Heq.
  - by apply Hneg in Heq.
  - apply (inj pretty) in Heq. lia.
Qed.

Lemma split_at_last c s1 s2 t1 t2 :
  char_free c t1 = true → char_free c t2 = true →
  s1 +:+ String c t1 = s2 +:+ String c t2 → s1 = s2 ∧ t1 = t2.
Proof.
  intros H1 H2. assert (∀ s t, char_free c (s +:+ String c t) = false) as Hno.
  { intros s t. induction s as [|a s IH]; cbn; [by rewrite Ascii.eqb_refl|].
    by rewrite IH, andb_false_r. }
  revert s2. induction s1 as [|a s1 IH]; intros [|b s2] Heq; cbn in Heq; simplify_eq.
  - done.
  - by rewrite Hno in H1.
  - by rewrite Hno in H2.
  - destruct (IH s2) as [-> ->]; done.
Qed.

(** Distinct keys have distinct texts, whatever the worker ids. *)
Lemma fireKeyToString_inj : Inj (=) (=) fireKeyToString.
Proof.
  intros [w1 l1] [w2 l2]. unfold fireKeyToString. cbn. intros Heq.
  apply split_at_last in Heq as [-> Hl]; [|apply number_to_string_free..].
  by apply number_to_string_inj in Hl as ->.
Qed.

(** ** Mutual exclusion *)

Section exclusion.
Context {S : Type} `{!ClaimStore S, !LawfulClaimStore S}.
Context (ttl : Z) (Httl : (0 < ttl)%Z).
Implicit Types (st : System S) (r : Run).

Definition run_text (r : Run) : string := fireKeyToString (run_key r).

(** The run won its claim and has not given it back. *)
Definition live (r : Run) : Prop := phase r ≠ Refused ∧ phase r ≠ Released.

(** No run begins while another run of its owner, for the same key, waits for its
    chain check and may still give back the owner's claim. *)
Definition owner_free (st : System S) (e : manager_event) : Prop :=
  match e with
  | Begin _ key o => ∀ j r, runs st !! j = Some r → run_key r = key → run_owner r = o → phase r ≠ Checking
  | _ => True
  end.

(** A live run's claim is in the store until its time to live is over. *)
Definition claim_kept (st : System S) (r : Run) : Prop :=
  (claimedAt r ≤ clock st)%Z ∧
  ((claimedAt r + ttl ≤ clock st)%Z ∨
   get (clock st) (run_text r) (claims st) =
     Some {| owner := run_owner r; expiresAt := claimedAt r + ttl |}).

Definition apart (r r' : Run) : Prop :=
  (claimedAt r + ttl ≤ claimedAt r')%Z ∨ (claimedAt r' + ttl ≤ claimedAt r)%Z.

Definition exclusive (st : System S) : Prop :=
  (∀ i r, runs st !! i = Some r → live r → claim_kept st r) ∧
  (∀ i j r r', runs st !! i = Some r → runs st !! j = Some r' → i ≠ j → run_key r = run_key r' →
     (live r → live r' → apart r r') ∧
     (run_owner r = run_owner r' → phase r = Checking → live r' → (claimedAt r' + ttl ≤ clock st)%Z)).

Lemma run_text_inj r r' : run_text r = run_text r' → run_key r = run_key r'.
Proof. apply fireKeyToString_inj. Qed.

Lemma claim_kept_tick st r now :
  claim_kept st r → claim_kept (manager_step ttl (Tick now) st) r.
Proof.
  intros [H1 H2]. split; cbn; [lia|].
  destruct (Z_le_gt_dec (claimedAt r + ttl) (Z.max (clock st) now)); [by left|right].
  destruct H2 as [H2|H2]; [lia|].
  destruct (get_later _ (Z.max (clock st) now) _ _ _ H2) as [_ ->]; [lia|]. cbn.
  destruct (Z.leb_spec (claimedAt r + ttl) (Z.max (clock st) now)); [lia|done].
Qed.

(** A step of one run that leaves the claims, the key, the owner and the time of
    the claim alone, and does not bring a run back to life. *)
Lemma exclusive_update st i r r' :
  runs st !! i = Some r → run_key r' = run_key r → run_owner r' = run_owner r →
  claimedAt r' = claimedAt r → (live r' → live r) → phase r' ≠ Checking → exclusive st →
  exclusive {| clock := clock st; claims := claims st; runs := <[i := r']> (runs st) |}.
Proof.
  intros Hi Hk Ho Hc Hl Hp [H1 H2].
  assert (∀ j x, <[i := r']> (runs st) !! j = Some x → ∃ x0, runs st !! j = Some x0 ∧
    run_key x = run_key x0 ∧ run_owner x = run_owner x0 ∧ claimedAt x = claimedAt x0 ∧
    (live x → live x0) ∧ (phase x = Checking → phase x0 = Checking)) as Hback.
  { intros j x. destruct (decide (i = j)) as [<-|Hne].
    - rewrite lookup_insert_eq. intros [= <-]. exists r. by split_and!.
    - rewrite lookup_insert_ne by done. intros Hx. exists x. by split_and!. }
  split; cbn.
  - intros j x (x0 & Hx & Ek & Eo & Ec & El & _)%Hback Hlx.
    destruct (H1 j x0 Hx (El Hlx)) as [Ha Hb]. unfold claim_kept, run_text in *. cbn.
    by rewrite Ek, Eo, Ec.
  - intros j k x y (x0 & Hx & Ek & Eo & Ec & El & Ep)%Hback (y0 & Hy & Ek' & Eo' & Ec' & El' & _)%Hback.
    rewrite Ek, Ek', Eo, Eo'. unfold apart. rewrite Ec, Ec'. intros Hne Heq.
    destruct (H2 j k x0 y0 Hx Hy Hne Heq) as [Hap Hsame]. split; intros; [apply Hap|apply Hsame]; auto.
Qed.

(** Giving back a claim leaves the claims of other owners alone. *)
Lemma exclusive_release st i r :
  runs st !! i = Some r → phase r = Checking → exclusive st →
  exclusive {| clock := clock st;
               claims := release (run_text r) (Some (run_owner r)) (claims st);
               runs := <[i := set_phase r None Released]> (runs st) |}.
Proof.
  intros Hi Hp Hex.
  assert (exclusive {| clock := clock st; claims := claims st;
                       runs := <[i := set_phase r None Released]> (runs st) |}) as [H1 H2].
  { apply (exclusive_update _ _ r); [done..| |done|done]. by intros [_ H]. }
  split; [|exact H2]. intros j x Hx Hl. destruct (H1 j x Hx Hl) as [Ha Hb].
  split; [done|]. cbn in *. destruct (decide (i = j)) as [<-|Hne].
  { rewrite lookup_insert_eq in Hx. simplify_eq. by destruct Hl. }
  rewrite lookup_insert_ne in Hx by done. destruct Hb as [Hb|Hb]; [by left|].
  rewrite get_release, Hb. case_decide as Hk; [|by right]. cbn.
  destruct (String.eqb_spec (run_owner x) (run_owner r)) as [Ho|]; [left|by right].
  destruct Hex as [_ Hex]. apply (Hex i j r x); try done. symmetry. by apply run_text_inj.
Qed.

Lemma exclusive_begin st i key o :
  owner_free st (Begin i key o) → exclusive st → exclusive (begin_run ttl i key o st).
Proof.
  intros Hf Hex. unfold begin_run. destruct (runs st !! i) as [|] eqn:Hi; [done|].
  pose proof (claim_wins (clock st) (fireKeyToString key) o ttl (claims st)) as Hwin.
  pose proof (claim_lost (clock st) (fireKeyToString key) o ttl (claims st)) as Hlost.
  pose proof (get_claim (clock st) (fireKeyToString key) o ttl (claims st)) as Hget.
  destruct (claim _ _ _ _ _) as [won store]. cbn in *. destruct Hex as [H1 H2].
  assert (∀ j x, runs st !! j = Some x → live x → run_key x = key → won = true →
                 (claimedAt x + ttl ≤ clock st)%Z) as Hold.
  { intros j x Hx Hl Hk Hw. destruct (H1 j x Hx Hl) as [_ [H|H]]; [done|]. exfalso.
    apply Hwin in Hw. unfold run_text in H. rewrite Hk in H. congruence. }
  split; cbn.
  - intros j x. destruct (decide (i = j)) as [<-|Hne].
    + rewrite lookup_insert_eq. intros [= <-] Hl. split; cbn; [done|]. right.
      destruct won; [|by destruct Hl]. rewrite Hget by done.
      rewrite decide_True by done. destruct (Z.leb_spec (clock st + ttl) (clock st)); [lia|done].
    + rewrite lookup_insert_ne by done. intros Hx Hl. destruct (H1 j x Hx Hl) as [Ha Hb].
      split; [done|]. cbn. destruct won; [|by rewrite Hlost].
      destruct Hb as [Hb|Hb]; [by left|]. rewrite Hget by done.
      case_decide as Hk; [|by right]. left. apply (Hold j); try done.
      by apply fireKeyToString_inj.
  - intros j k x y. destruct (decide (i = j)) as [<-|Hj], (decide (i = k)) as [<-|Hk];
      rewrite ?lookup_insert_eq, ?lookup_insert_ne by done; [done|..].
    + intros [= <-] Hy _ Heq. cbn in *. split.
      * intros [Hl _] Hly. right. cbn. destruct won; [|done]. by apply (Hold k).
      * intros _ Hp Hly. destruct won; [|done]. by apply (Hold k).
    + intros Hx [= <-] _ Heq. cbn in *. split.
      * intros Hlx [Hl _]. left. cbn. destruct won; [|done]. by apply (Hold j).
      * intros Ho Hp _. by destruct (Hf j x Hx Heq Ho).
    + apply H2.
Qed.

Lemma exclusive_step st e :
  owner_free st e → exclusive st → exclusive (manager_step ttl e st).
Proof.
  intros Hf Hex. destruct e as [now|i key o|i b|i ok].
  - destruct Hex as [H1 H2]. split; [intros i r Hi Hl; by apply claim_kept_tick, (H1 i)|].
    intros i j r r' Hi Hj Hne Hk. destruct (H2 i j r r' Hi Hj Hne Hk) as [Hap Hsame]. split; [done|].
    intros Ho Hp Hl. specialize (Hsame Ho Hp Hl). cbn. lia.
  - by apply exclusive_begin.
  - cbn. unfold checked. destruct (runs st !! i) as [r|] eqn:Hi; [|done]. case_decide; [|done].
    destruct b; [by apply exclusive_release|].
    apply (exclusive_update _ _ r); [done..| |done|done]. intros _. split; congruence.
  - cbn. unfold settled. destruct (runs st !! i) as [r|] eqn:Hi; [|done].
    destruct (phase r) eqn:Hp, ok; try done;
      (apply (exclusive_update _ _ r); [done..| |done|done]; intros _; split; congruence).
Qed.

Lemma exclusive_run es st :
  along ttl owner_free st es → exclusive st → exclusive (manager_run ttl es st).
Proof.
  revert st. induction es as [|e es IH]; intros st; cbn; [done|].
  intros [Hf Hes] Hex. apply IH; [done|]. by apply exclusive_step.
Qed.

(** No run yet, over any store. *)
Definition idle (now : Z) (s : S) : System S := {| clock := now; claims := s; runs := ∅ |}.

Lemma exclusive_idle now s : exclusive (idle now s).
Proof. split; cbn; intros ? *; by rewrite lookup_empty. Qed.
End exclusion.

(** ** At most one submission *)

Section fires_once.
Context {S : Type} `{!ClaimStore S, !LawfulClaimStore S}.
Context (ttl lag : Z) (Hlag : (0 < lag ≤ ttl)%Z).
Implicit Types (st : System S) (r : Run).

(** The manager's surroundings keep their side: runs of one key and owner do not
    meet before the chain check; a
    submission is sent early enough to be visible on chain, [lag] later, before
    its claim expires; and the chain check shows every submission of the key
    that is visible. *)
Definition timely (st : System S) (e : manager_event) : Prop :=
  owner_free st e ∧
  match e with
  | Checked i false =>
      ∀ r, runs st !! i = Some r → phase r = Checking →
        (clock st + lag ≤ claimedAt r + ttl)%Z ∧
        ∀ j r' t, runs st !! j = Some r' → run_key r' = run_key r → sentAt r' = Some t →
          (clock st < t + lag)%Z
  | _ => True
  end.

Definition sent_once (st : System S) : Prop :=
  (∀ i r t, runs st !! i = Some r → sentAt r = Some t →
     live r ∧ phase r ≠ Checking ∧ (claimedAt r ≤ t ≤ clock st)%Z ∧ (t + lag ≤ claimedAt r + ttl)%Z) ∧
  (∀ i j r r', runs st !! i = Some r → runs st !! j = Some r' → i ≠ j →
     run_key r = run_key r' → sentAt r = None ∨ sentAt r' = None).

(** A step of run [i] that sends nothing. *)
Lemma sent_once_update st i r r' store :
  runs st !! i = Some r → run_key r' = run_key r → claimedAt r' = claimedAt r →
  (sentAt r' = None ∨ sentAt r' = sentAt r ∧ (live r → phase r ≠ Checking → live r' ∧ phase r' ≠ Checking)) →
  sent_once st →
  sent_once {| clock := clock st; claims := store; runs := <[i := r']> (runs st) |}.
Proof.
  intros Hi Hk Hc Hs [H1 H2]. split; cbn.
  - intros j x t. destruct (decide (i = j)) as [<-|Hne].
    + rewrite lookup_insert_eq. intros [= <-] Ht. destruct Hs as [Hs|[Hs Hl]]; [congruence|].
      rewrite Hs in Ht. destruct (H1 i r t Hi Ht) as (Ha & Hb & Hcl & Hd).
      rewrite Hc. split_and!; try apply Hl; try done; lia.
    + rewrite lookup_insert_ne by done. apply H1.
  - intros j k x y. destruct (decide (i = j)) as [<-|Hj], (decide (i = k)) as [<-|Hk'];
      rewrite ?lookup_insert_eq, ?lookup_insert_ne by done; [done|..|apply H2].
    + intros [= <-] Hy _ Heq. destruct Hs as [Hs|[-> _]]; [by left|].
      apply (H2 i k); congruence.
    + intros Hx [= <-] _ Heq. destruct Hs as [Hs|[-> _]]; [by right|].
      apply (H2 j i); congruence.
Qed.

Lemma sent_once_begin st i key o : sent_once st → sent_once (begin_run ttl i key o st).
Proof.
  intros [H1 H2]. unfold begin_run. destruct (runs st !! i) eqn:Hi; [done|].
  destruct (claim _ _ _ _ _) as [won store]. split; cbn.
  - intros j x t. destruct (decide (i = j)) as [<-|Hne].
    + rewrite lookup_insert_eq. by intros [= <-].
    + rewrite lookup_insert_ne by done. apply H1.
  - intros j k x y. destruct (decide (i = j)) as [<-|Hj], (decide (i = k)) as [<-|Hk];
      rewrite ?lookup_insert_eq, ?lookup_insert_ne by done; [done|..|apply H2].
    + intros [= <-]. by left.
    + intros _ [= <-]. by right.
Qed.

(** The send itself: two live runs of one key are [ttl] apart, so the earlier
    one's submission is visible by now, or this one is late. *)
Lemma sent_once_send st i r :
  runs st !! i = Some r → phase r = Checking → exclusive ttl st →
  timely st (Checked i false) → sent_once st →
  sent_once {| clock := clock st; claims := claims st;
               runs := <[i := set_phase r (Some (clock st)) Submitting]> (runs st) |}.
Proof.
  intros Hi Hp [E1 E2] [_ Ht] [H1 H2]. destruct (Ht r Hi Hp) as [Hearly Hunseen].
  assert (live r) as Hlive by (split; congruence).
  destruct (E1 i r Hi Hlive) as [Hpast _].
  assert (∀ j x, runs st !! j = Some x → i ≠ j → run_key x = run_key r → sentAt x = None) as Hno.
  { intros j x Hx Hne Hk. destruct (sentAt x) as [t|] eqn:Es; [exfalso|done].
    destruct (H1 j x t Hx Es) as (Hlx & _ & Hb & Hd).
    pose proof (Hunseen j x t Hx Hk Es).
    destruct (E2 i j r x Hi Hx Hne) as [Hap _]; [done|].
    destruct (Hap Hlive Hlx); lia. }
  split; cbn.
  - intros j x t. destruct (decide (i = j)) as [<-|Hne].
    + rewrite lookup_insert_eq. intros [= <-] [= <-]. cbn. split_and!; done || lia.
    + rewrite lookup_insert_ne by done. apply H1.
  - intros j k x y. destruct (decide (i = j)) as [<-|Hj], (decide (i = k)) as [<-|Hk];
      rewrite ?lookup_insert_eq, ?lookup_insert_ne by done; [done|..|apply H2].
    + intros [= <-] Hy _ Heq. right. by apply (Hno k).
    + intros Hx [= <-] _ Heq. left. by apply (Hno j).
Qed.

Lemma sent_once_step st e :
  timely st e → exclusive ttl st → sent_once st → sent_once (manager_step ttl e st).
Proof.
  intros Ht Hex Hs. destruct e as [now|i key o|i b|i ok].
  - destruct Hs as [H1 H2]. split; [|exact H2]. cbn. intros i r t Hi Hr.
    destruct (H1 i r t Hi Hr) as (? & ? & ? & ?). split_and!; done || lia.
  - by apply sent_once_begin.
  - cbn. unfold checked. destruct (runs st !! i) as [r|] eqn:Hi; [|done]. case_decide; [|done].
    destruct b; [apply (sent_once_update _ _ r); try done; by left|by apply sent_once_send].
  - cbn. unfold settled. destruct (runs st !! i) as [r|] eqn:Hi; [|done].
    destruct (phase r) eqn:Hp, ok; try done;
      (apply (sent_once_update _ _ r); [done..| |done]; right; split; [done|];
       intros; split; [split|]; cbn; congruence).
Qed.

Lemma sent_once_run es st :
  along ttl timely st es → exclusive ttl st → sent_once st → sent_once (manager_run ttl es st).
Proof.
  revert st. induction es as [|e es IH]; intros st; cbn; [done|].
  intros [Ht Hes] Hex Hs. apply IH; [done| |by apply sent_once_step].
  apply exclusive_step; [lia|apply Ht|done].
Qed.
End fires_once.

(** C11: the claim is a lock with a lease.  Over any store that keeps the laws of
    the interface, whatever it held and however the runs interleave, crash or
    are refused, as long as no run begins while another run of its key and its
    owner waits for the chain check: of two runs of one key that won and did not
    give the claim back, one claimed at least [ttl] after the other.  Runs of
    distinct owners, and runs of one owner one after the other, are such. *)
Theorem claim_exclusion {S} `{LawfulClaimStore S} ttl now (s : S) es i j r r' :
  (0 < ttl)%Z →
  along ttl owner_free (idle now s) es →
  let st := manager_run ttl es (idle now s) in
  runs st !! i = Some r → runs st !! j = Some r' → i ≠ j →
  run_key r = run_key r' → live r → live r' →
  (claimedAt r + ttl ≤ claimedAt r')%Z ∨ (claimedAt r' + ttl ≤ claimedAt r)%Z.
Proof.
  intros Httl Hes st Hi Hj Hne Hk.
  destruct (exclusive_run ttl Httl es (idle now s) Hes (exclusive_idle ttl now s)) as [_ H2].
  by apply (H2 i j r r' Hi Hj Hne Hk).
Qed.

(** a key fires once.  If, besides, every submission becomes visible on
    chain within [lag] of being sent, is sent early enough for that to happen
    before its claim expires, and the chain check reports what is visible, then
    no two runs of one key ever call [submitFn]. *)
Theorem key_fires_once {S} `{LawfulClaimStore S} ttl lag now (s : S) es i j r r' t t' :
  (0 < lag ≤ ttl)%Z →
  along ttl (timely ttl lag) (idle now s) es →
  let st := manager_run ttl es (idle now s) in
  runs st !! i = Some r → runs st !! j = Some r' → run_key r = run_key r' →
  sentAt r = Some t → sentAt r' = Some t' → i = j.
Proof.
  intros Hlag Hes st Hi Hj Hk Ht Ht'. destruct (decide (i = j)) as [|Hne]; [done|exfalso].
  assert (sent_once ttl lag (idle now s)) as Hs0
    by (split; cbn; intros *; by rewrite lookup_empty).
  destruct (sent_once_run ttl lag Hlag es _ Hes (exclusive_idle ttl now s) Hs0) as [_ H2].
  destruct (H2 i j r r' Hi Hj Hne Hk); congruence.
Qed.

(** Without the lease's assumptions the key can fire twice: a submission sent
    after its claim expired, and an owner whose second run begins before the chain check
    of the first, which then gives back the second one's claim. *)
Definition august : FireKey := {| workerId := "payroll"; windowStartLedger := 8 |}.
Definition empty_store : InMemoryClaimStore := {| map := ∅ |}.

Definition fires (key : FireKey) (st : System InMemoryClaimStore) : nat :=
  length (base.filter (λ p : nat * Run, run_key p.2 = key ∧ is_Some (sentAt p.2))
            (map_to_list (runs st))).

Lemma late_submission_fires_twice :
  fires august (manager_run 1000
    [Begin 0 august "a"; Tick 1000; Begin 1 august "b"; Checked 1 false; Checked 0 false]
    (idle 0 empty_store)) = 2.
Proof. vm_compute. reflexivity. Qed.

Lemma shared_owner_fires_twice :
  fires august (manager_run 1000
    [Begin 0 august "a"; Tick 1000; Begin 1 august "a"; Checked 0 true; Checked 1 false;
     Begin 2 august "a"; Checked 2 false]
    (idle 0 empty_store)) = 2.
Proof. vm_compute. reflexivity. Qed.

Definition handover : list manager_event :=
  [Begin 0 august "a"; Settled 0 false; Begin 1 august "b"; Tick 1000; Begin 2 august "a";
   Checked 2 false; Settled 2 true].

Lemma claim_exclusion_witness :
  (λ r, (phase r, claimedAt r)) <$>
      runs (manager_run 1000 handover (idle 0 empty_store)) !! 2 = Some (Submitted, 1000%Z) ∧
  ((0 + 1000 ≤ 1000)%Z ∨ (1000 + 1000 ≤ 0)%Z).
Proof.
  split; [vm_compute; reflexivity|].
  refine (claim_exclusion 1000 0 empty_store handover 0 2
    {| run_key := august; run_owner := "a"; claimedAt := 0; sentAt := None; phase := Failed |}
    {| run_key := august; run_owner := "a"; claimedAt := 1000; sentAt := Some 1000%Z;
       phase := Submitted |} _ _ _ _ _ _ _ _).
  - lia.
  - assert (∀ (m : gmap nat Run) o, map_Forall (λ _ r, phase r ≠ Checking) m →
              ∀ j r, m !! j = Some r → run_key r = august → run_owner r = o → phase r ≠ Checking) as Hall
      by (intros m o Hm j r Hj _ _; by apply (Hm j)).
    cbn [along handover]. split_and!; try exact I; cbn [owner_free];
      apply Hall; refine (bool_decide_eq_true_1 _ _); vm_compute; reflexivity.
  - vm_compute. reflexivity.
  - vm_compute. reflexivity.
  - done.
  - done.
  - done.
  - done.
Defined.

Definition fired_run : Run :=
  {| run_key := august; run_owner := "a"; claimedAt := 0; sentAt := Some 0%Z; phase := Submitted |}.

Lemma key_fires_once_witness :
  let es := [Begin 0 august "a"; Checked 0 false; Settled 0 true] in
  runs (manager_run 1000 es (idle 0 empty_store)) !! 0 = Some fired_run ∧ 0 = 0.
Proof.
  cbv zeta. split; [vm_compute; reflexivity|].
  refine (key_fires_once 1000 100 0 empty_store
    [Begin 0 august "a"; Checked 0 false; Settled 0 true] 0 0 fired_run fired_run 0 0 _ _ _ _ _ _ _).
  - lia.
  - cbn [along]. split_and!; try exact I.
    + split; [|done]. intros j r Hj. vm_compute in Hj. done.
    + split; [done|]. assert (∀ (m : gmap nat Run), map_Forall (λ _ r, sentAt r = None) m →
        ∀ j r t, m !! j = Some r → sentAt r = Some t → False) as Hall
        by (intros m Hm j r t Hj Ht; specialize (Hm j r Hj); congruence).
      intros r Hr _. vm_compute in Hr. simplify_eq. split; [vm_compute; done|].
      intros j r' t Hj _ Ht. exfalso. revert j r' t Hj Ht. apply Hall.
      refine (bool_decide_eq_true_1 _ _). vm_compute. reflexivity.
    + split; done.
  - vm_compute. reflexivity.
  - vm_compute. reflexivity.
  - done.
  - done.
  - done.
Defined.
