(* ===== verification/Guards.v ===== *)
(** * Guards in front of an action (packages/worker-core/src/guards)

    The circuit breaker that halts a worker after consecutive guard trips, and
    the price guard.  Prices are bigints; timestamps and bounds are JavaScript
    numbers, whose differences are exact here (whole seconds are). *)

From S2P Require Import Prelude.
From S2P Require Import JsValue.

(** ** circuitBreaker.ts *)

Record GuardTripRecord := {
  workerId : string;
  occurredAtUnix : Z;
  reason : string;
  detail : jsval;
}.

Record ReenableRecord := { reenabledBy : string; reenabledAtUnix : Z; rationale : string }.

Inductive CircuitBreakerState :=
  | Closed (consecutiveTrips : Z)
  | Open (trippedAtUnix : Z) (trippingTrips : list GuardTripRecord).

Record CircuitBreaker := {
  state : CircuitBreakerState;
  trips : list GuardTripRecord;
  reenables : list ReenableRecord;
}.

Definition new_breaker : CircuitBreaker := {| state := Closed 0; trips := []; reenables := [] |}.

Definition isOpen (b : CircuitBreaker) : bool :=
  match state b with Open _ _ => true | Closed _ => false end.

(** [l.slice(start)]: a negative start counts from the end. *)
Definition js_slice_from {A} (start : Z) (l : list A) : list A :=
  drop (Z.to_nat (if (start <? 0)%Z then (Z.of_nat (length l) + start) else start)) l.

Inductive BreakerError :=
  | CircuitBreakerNotOpenError
  | HookThrew.   (** what [onTrip] threw *)

Section breaker.
(** [maxConsecutiveTrips], and whether the hook [onTrip] throws on a record. *)
Context (maxConsecutiveTrips : Z) (onTrip_throws : GuardTripRecord → bool).

Definition recordTrip (record : GuardTripRecord) : method CircuitBreaker BreakerError unit :=
  modify (λ b, {| state := state b; trips := trips b ++ [record]; reenables := reenables b |});;
  throw_if (onTrip_throws record) HookThrew;;
  modify (λ b,
    let latest := js_slice_from (- maxConsecutiveTrips) (trips b) in
    {| state :=
         match state b with
         | Open at_ _ => Open at_ latest
         | Closed n =>
             let consecutiveTrips := (n + 1)%Z in
             if (maxConsecutiveTrips <=? consecutiveTrips)%Z then Open (occurredAtUnix record) latest
             else Closed consecutiveTrips
         end;
       trips := trips b; reenables := reenables b |}).

Definition recordSuccess : method CircuitBreaker BreakerError unit :=
  modify (λ b,
    {| state := match state b with Closed _ => Closed 0 | Open _ _ => state b end;
       trips := trips b; reenables := reenables b |}).

Definition manualReenable (by_ : string) (at_ : Z) (why : string)
    : method CircuitBreaker BreakerError unit :=
  b ← gets id;
  throw_if (negb (isOpen b)) CircuitBreakerNotOpenError;;
  modify (λ b,
    {| state := Closed 0; trips := trips b;
       reenables := reenables b ++
         [{| reenabledBy := by_; reenabledAtUnix := at_; rationale := why |}] |}).

Inductive breaker_call :=
  | RecordTrip (record : GuardTripRecord)
  | RecordSuccess
  | ManualReenable (by_ : string) (at_ : Z) (why : string).

(** A call with whether it returned. *)
Definition call_breaker (c : breaker_call) (b : CircuitBreaker) : bool * CircuitBreaker :=
  let '(r, b') :=
    match c with
    | RecordTrip record => recordTrip record b
    | RecordSuccess => recordSuccess b
    | ManualReenable by_ at_ why => manualReenable by_ at_ why b
    end in
  (is_ok r, b').

Fixpoint breaker_history (cs : list breaker_call) (b : CircuitBreaker)
    : list (breaker_call * bool) * CircuitBreaker :=
  match cs with
  | [] => ([], b)
  | c :: cs' =>
      let '(ok, b1) := call_breaker c b in
      let '(h, b2) := breaker_history cs' b1 in
      ((c, ok) :: h, b2)
  end.
End breaker.

(** ** priceGuard.ts *)

Record PriceReading := {
  price : Z;
  decimals : Z;
  observedAtUnix : jsnum;
  source : string;
}.

Record PriceGuardConfig := { maxAgeSeconds : jsnum; maxDivergenceBps : jsnum }.

Inductive PriceGuardVerdict :=
  | GuardOk
  | StaleVerdict (source : string) (ageSeconds : jsnum)
  | DivergingVerdict (divergenceBps : jsnum) (readings : PriceReading * PriceReading).

(** [BigInt] of a number that is not an integer. *)
Inductive PriceGuardError := RangeError.

Definition js_sub (x y : jsnum) : jsnum :=
  match x, y with
  | JNaN, _ | _, JNaN => JNaN
  | JInf a, JInf b => if Bool.eqb a b then JNaN else JInf a
  | JInf a, JFin _ _ => JInf a
  | JFin _ _, JInf b => JInf (negb b)
  | JFin m k, JFin n l => JFin (m * 2 ^ Z.of_nat l - n * 2 ^ Z.of_nat k) (k + l)
  end.

(** [x > y]. *)
Definition js_gt (x y : jsnum) : bool :=
  match x, y with
  | JNaN, _ | _, JNaN => false
  | JInf false, JInf true => true
  | JInf _, JInf _ => false
  | JInf a, JFin _ _ => negb a
  | JFin _ _, JInf b => b
  | JFin m k, JFin n l => (n * 2 ^ Z.of_nat k <? m * 2 ^ Z.of_nat l)%Z
  end.

Definition checkStaleness (reading : PriceReading) (maxAge nowUnix : jsnum) : PriceGuardVerdict :=
  let ageSeconds := js_sub nowUnix (observedAtUnix reading) in
  if js_ltZ ageSeconds 0 || js_gt ageSeconds maxAge then StaleVerdict (source reading) ageSeconds
  else GuardOk.

Definition scaleTo (reading : PriceReading) (targetDecimals : Z) : Z :=
  let diff := (targetDecimals - decimals reading)%Z in
  if (diff =? 0)%Z then price reading
  else if (0 <? diff)%Z then (price reading * 10 ^ diff)%Z
  else (price reading ÷ 10 ^ (- diff))%Z.

Definition checkDeviation (a b : PriceReading) (maxBps : jsnum)
    : result PriceGuardError PriceGuardVerdict :=
  let targetDecimals := Z.max (decimals a) (decimals b) in
  let scaledA := scaleTo a targetDecimals in
  let scaledB := scaleTo b targetDecimals in
  if (scaledA <=? 0)%Z || (scaledB <=? 0)%Z then Ok (DivergingVerdict (JInf false) (a, b))
  else
    let diff := if (scaledB <? scaledA)%Z then (scaledA - scaledB)%Z else (scaledB - scaledA)%Z in
    let smaller := if (scaledA <? scaledB)%Z then scaledA else scaledB in
    let divergenceBpsExact := (diff * 10000 ÷ smaller)%Z in
    match as_integer maxBps with
    | None => Err RangeError
    | Some max =>
        if (max <? divergenceBpsExact)%Z then
          Ok (DivergingVerdict (jint divergenceBpsExact) (a, b))
        else Ok GuardOk
    end.

Definition verdict_ok (v : PriceGuardVerdict) : bool :=
  match v with GuardOk => true | _ => false end.

Definition checkPriceGuard (primary secondary : PriceReading) (config : PriceGuardConfig)
    (nowUnix : jsnum) : result PriceGuardError PriceGuardVerdict :=
  let primaryStaleness := checkStaleness primary (maxAgeSeconds config) nowUnix in
  if negb (verdict_ok primaryStaleness) then Ok primaryStaleness
  else
    let secondaryStaleness := checkStaleness secondary (maxAgeSeconds config) nowUnix in
    if negb (verdict_ok secondaryStaleness) then Ok secondaryStaleness
    else checkDeviation primary secondary (maxDivergenceBps config).

(** ** When the breaker is open *)

(** Of a call and whether it returned: a trip that was counted, a call that does
    not break a run of trips, and one that does not close an open breaker. *)
Definition counted (e : breaker_call * bool) : bool :=
  match e with (RecordTrip _, ok) => ok | _ => false end.

Definition unbroken (e : breaker_call * bool) : bool :=
  match e with
  | (RecordTrip _, _) => true
  | (RecordSuccess, _) => false
  | (ManualReenable _ _ _, ok) => negb ok
  end.

Definition not_closing (e : breaker_call * bool) : bool :=
  match e with (ManualReenable _ _ _, ok) => negb ok | _ => true end.

Definition trips_in (h : list (breaker_call * bool)) : nat := length (List.filter counted h).

(** [n] trips in a row were counted, and the breaker was not re-enabled since. *)
Definition tripped (n : nat) (h : list (breaker_call * bool)) : Prop :=
  ∃ before row after, h = before ++ row ++ after ∧
    forallb unbroken row = true ∧ trips_in row = n ∧ forallb not_closing after = true.

(** The records a history leaves: every trip, and the accepted re-enables. *)
Definition trip_of (e : breaker_call * bool) : option GuardTripRecord :=
  match e with (RecordTrip r, _) => Some r | _ => None end.

Definition reenable_of (e : breaker_call * bool) : option ReenableRecord :=
  match e with
  | (ManualReenable by_ at_ why, true) =>
      Some {| reenabledBy := by_; reenabledAtUnix := at_; rationale := why |}
  | _ => None
  end.

Section breaker_facts.
Context (max : Z) (throws : GuardTripRecord → bool).
Let limit : nat := Z.to_nat (Z.max 1 max).

Lemma trips_in_snoc h e : trips_in (h ++ [e]) = trips_in h + (if counted e then 1 else 0).
Proof. unfold trips_in. rewrite List.filter_app, length_app. cbn. by destruct (counted e). Qed.

Lemma forallb_snoc {A} (f : A → bool) l x : forallb f (l ++ [x]) = forallb f l && f x.
Proof. rewrite forallb_app. cbn. by rewrite andb_true_r. Qed.

Lemma tripped_snoc h e :
  tripped limit (h ++ [e]) ↔
    (tripped limit h ∧ not_closing e = true) ∨
    (∃ before row, h = before ++ row ∧ forallb unbroken row = true ∧ unbroken e = true ∧
       trips_in (row ++ [e]) = limit).
Proof.
  assert (1 ≤ limit) as Hl by (subst limit; lia). split.
  - intros (a & r & p & Heq & Hr & Hn & Hp). destruct p as [|x p _] using rev_ind.
    + rewrite app_nil_r in Heq. destruct r as [|x r _] using rev_ind; [cbn in Hn; lia|].
      rewrite app_assoc in Heq. apply app_inj_tail in Heq as [-> <-]. right.
      rewrite forallb_snoc in Hr. apply andb_true_iff in Hr as [Hr He]. by exists a, r.
    + rewrite !app_assoc in Heq. apply app_inj_tail in Heq as [-> <-]. left.
      rewrite forallb_snoc in Hp. apply andb_true_iff in Hp as [Hp He]. split; [|done].
      exists a, r, p. by rewrite <-app_assoc.
  - intros [[(a & r & p & -> & Hr & Hn & Hp) He]|(a & r & -> & Hr & He & Hn)].
    + exists a, r, (p ++ [e]). rewrite forallb_snoc, Hp, He, <-!app_assoc. done.
    + exists a, (r ++ [e]), []. rewrite app_nil_r, forallb_snoc, Hr, He, <-app_assoc. done.
Qed.

(** What a history leaves in the breaker. *)
Definition breaker_inv (h : list (breaker_call * bool)) (b : CircuitBreaker) : Prop :=
  trips b = omap trip_of h ∧ reenables b = omap reenable_of h ∧
  match state b with
  | Open _ _ => tripped limit h
  | Closed n =>
      (0 ≤ n)%Z ∧ Z.to_nat n < limit ∧ ¬ tripped limit h ∧
      (∃ before row, h = before ++ row ∧ forallb unbroken row = true ∧ trips_in row = Z.to_nat n) ∧
      (∀ before row, h = before ++ row → forallb unbroken row = true → trips_in row ≤ Z.to_nat n)
  end.

(** A call that leaves a closed breaker closed: the row goes on, or restarts. *)
Lemma closed_goes_on h e n :
  (0 ≤ n)%Z → Z.to_nat n < limit → ¬ tripped limit h →
  (∃ before row, h = before ++ row ∧ forallb unbroken row = true ∧ trips_in row = Z.to_nat n) →
  (∀ before row, h = before ++ row → forallb unbroken row = true → trips_in row ≤ Z.to_nat n) →
  let n' := (if unbroken e then n + (if counted e then 1 else 0) else 0)%Z in
  Z.to_nat n' < limit →
  (0 ≤ n')%Z ∧ Z.to_nat n' < limit ∧ ¬ tripped limit (h ++ [e]) ∧
  (∃ before row, h ++ [e] = before ++ row ∧ forallb unbroken row = true ∧ trips_in row = Z.to_nat n') ∧
  (∀ before row, h ++ [e] = before ++ row → forallb unbroken row = true →
     trips_in row ≤ Z.to_nat n').
Proof.
  intros H0 Hlt Hno (a & r & Heq & Hr & Hn) Hmax n' Hlt'.
  assert (∀ before row, h = before ++ row → forallb unbroken row = true → unbroken e = true →
            trips_in (row ++ [e]) ≤ Z.to_nat n') as Hstep.
  { intros b' r' Hb Hr' He. rewrite trips_in_snoc. subst n'. rewrite He.
    specialize (Hmax b' r' Hb Hr'). destruct (counted e); lia. }
  split_and!.
  - subst n'. destruct (unbroken e), (counted e); lia.
  - done.
  - rewrite tripped_snoc. intros [[? _]|(b' & r' & Hb & Hr' & He & Ht)]; [done|].
    specialize (Hstep b' r' Hb Hr' He). lia.
  - subst n'. destruct (unbroken e) eqn:He.
    + exists a, (r ++ [e]). rewrite forallb_snoc, Hr, He, trips_in_snoc, Heq, <-app_assoc.
      split_and!; [done..|]. destruct (counted e); lia.
    + exists (h ++ [e]), []. by rewrite app_nil_r.
  - intros b' r' Hb Hr'. destruct r' as [|x r' _] using rev_ind; [cbn; lia|].
    rewrite app_assoc in Hb. apply app_inj_tail in Hb as [Hb <-].
    rewrite forallb_snoc in Hr'. apply andb_true_iff in Hr' as [Hr' He]. by apply (Hstep b').
Qed.

Lemma call_inv h b c :
  breaker_inv h b →
  let '(ok, b') := call_breaker max throws c b in breaker_inv (h ++ [(c, ok)]) b'.
Proof.
  destruct b as [st ts rs]. intros (Ht & Hr & Hst). cbn in Ht, Hr, Hst. subst ts rs.
  assert (∀ ok, tripped limit h → not_closing (c, ok) = true → tripped limit (h ++ [(c, ok)])) as Hopen
    by (intros ok ? ?; apply tripped_snoc; by left).
  unfold breaker_inv.
  assert (∀ {B} (f : breaker_call * bool → option B) e, omap f (h ++ [e]) =
            omap f h ++ match f e with Some x => [x] | None => [] end) as Hlog
    by (intros B f e; rewrite omap_app; cbn; by destruct (f e)).
  destruct (call_breaker max throws c _) as [ok b'] eqn:E. rewrite !Hlog.
  destruct c as [r| |by_ at_ why];
    unfold call_breaker, recordTrip, manualReenable, throw_if in E; cbn in E.
  - destruct (throws r) eqn:Hth; cbn in E; injection E as <- <-; cbn [trip_of reenable_of trips reenables state];
      rewrite app_nil_r.
    + split; [done|]. split; [done|]. destruct st as [n|]; [|by apply Hopen].
      destruct Hst as (H0 & Hlt & Hno & Hex & Hmax).
      pose proof (closed_goes_on h (RecordTrip r, false) n H0 Hlt Hno Hex Hmax) as G.
      cbn [unbroken counted negb] in G. rewrite Z.add_0_r in G. by apply G.
    + split; [done|]. split; [done|]. destruct st as [n|]; [|by apply Hopen].
      destruct Hst as (H0 & Hlt & Hno & Hex & Hmax).
      destruct (Z.leb_spec max (n + 1)) as [Hge|Hge].
      * apply tripped_snoc. right. destruct Hex as (a & row & -> & Hrow & Hn).
        exists a, row. split_and!; [done..|]. rewrite trips_in_snoc. cbn. lia.
      * apply (closed_goes_on h (RecordTrip r, true) n); try done. cbn. lia.
  - injection E as <- <-. cbn [trip_of reenable_of trips reenables state].
    rewrite !app_nil_r. split; [done|]. split; [done|]. destruct st as [n|]; [|by apply Hopen]. destruct Hst as (H0 & Hlt & Hno & Hex & Hmax).
    apply (closed_goes_on h (RecordSuccess, true) n); try done. cbn. lia.
  - destruct st as [n|at' l]; cbn in E; injection E as <- <-;
      cbn [trip_of reenable_of trips reenables state]; rewrite ?app_nil_r.
    + split; [done|]. split; [done|]. destruct Hst as (H0 & Hlt & Hno & Hex & Hmax).
      pose proof (closed_goes_on h (ManualReenable by_ at_ why, false) n H0 Hlt Hno Hex Hmax) as G.
      cbn [unbroken counted negb] in G. rewrite Z.add_0_r in G. by apply G.
    + split; [done|]. split; [done|]. split_and!; [lia|subst limit; lia| | |].
      * rewrite tripped_snoc. by intros [[_ ?]|(? & ? & _ & _ & ? & _)].
      * eexists _, []. by rewrite app_nil_r.
      * intros b' r' Hb Hr'. destruct r' as [|x r' _] using rev_ind; [cbn; lia|].
        rewrite app_assoc in Hb. apply app_inj_tail in Hb as [_ <-].
        rewrite forallb_snoc in Hr'. by apply andb_true_iff in Hr' as [_ ?].
Qed.

Lemma history_inv cs h b :
  breaker_inv h b →
  let '(h', b') := breaker_history max throws cs b in breaker_inv (h ++ h') b'.
Proof.
  revert h b. induction cs as [|c cs IH]; intros h b Hb; cbn; [by rewrite app_nil_r|].
  pose proof (call_inv h b c Hb) as Hc. destruct (call_breaker max throws c b) as [ok b1].
  specialize (IH _ _ Hc). destruct (breaker_history max throws cs b1) as [h2 b2].
  by rewrite <-app_assoc in IH.
Qed.
End breaker_facts.

(** when the breaker is open.  After any calls on a new breaker it is open
    exactly when at some point [maxConsecutiveTrips] trips (at least one) were
    counted with no success among them, and no re-enable was accepted since: it
    neither opens early nor heals by itself.  Its records are complete: every
    trip and every accepted re-enable, in order.  A trip counts only if the hook
    [onTrip] returns. *)
Theorem breaker_open_exactly max throws cs :
  let '(h, b) := breaker_history max throws cs new_breaker in
  (isOpen b = true ↔ tripped (Z.to_nat (Z.max 1 max)) h) ∧
  trips b = omap trip_of h ∧ reenables b = omap reenable_of h.
Proof.
  assert (breaker_inv max [] new_breaker) as H0.
  { split; [done|]. split; [done|]. cbn. split_and!; [done|lia| | |].
    - intros (a & r & p & Heq & _ & Hn & _). destruct a, r, p; try done. cbn in Hn. lia.
    - by exists [], [].
    - intros a r Heq _. destruct a, r; try done. }
  pose proof (history_inv max throws cs [] new_breaker H0) as H.
  destruct (breaker_history max throws cs new_breaker) as [h b].
  destruct H as (H1 & H2 & H3). split_and!; [|done..].
  unfold isOpen. destruct (state b) as [n|]; [|done].
  destruct H3 as (_ & _ & Hno & _). split; done.
Qed.

(** A hook that throws keeps the breaker closed for ever. *)
Lemma throwing_hook_disables_breaker max cs :
  isOpen (breaker_history max (λ _, true) cs new_breaker).2 = false.
Proof.
  assert (∀ c b, isOpen b = false → isOpen (call_breaker max (λ _, true) c b).2 = false) as Hstep.
  { intros c [[n|] ts rs] Hb; [|done]. by destruct c. }
  assert (isOpen new_breaker = false) as Hb by done. revert Hb. generalize new_breaker.
  induction cs as [|c cs IH]; intros b Hb; cbn; [done|].
  specialize (Hstep c b Hb). destruct (call_breaker max _ c b) as [ok b1].
  specialize (IH b1 Hstep). by destruct (breaker_history max _ cs b1).
Qed.

(** ** What the price guard accepts *)

(** A reading is fresh: its timestamp, when it is a number, is neither in the
    future nor older than the bound. *)
Definition fresh (now maxAge : Z) (observed : jsnum) : Prop :=
  match observed with
  | JNaN => True
  | JInf _ => False
  | JFin m k => (0 ≤ now * 2 ^ Z.of_nat k - m ≤ maxAge * 2 ^ Z.of_nat k)%Z
  end.

Lemma checkStaleness_ok r now maxAge :
  verdict_ok (checkStaleness r (jint maxAge) (jint now)) = true ↔
  fresh now maxAge (observedAtUnix r).
Proof.
  unfold checkStaleness. destruct (observedAtUnix r) as [|[]|m k]; cbn; [done..|].
  change (2 ^ Z.of_nat 0)%Z with 1%Z. rewrite Z.mul_0_l, !Z.mul_1_r.
  destruct (Z.ltb_spec (now * 2 ^ Z.of_nat k - m) 0),
    (Z.ltb_spec (maxAge * 2 ^ Z.of_nat k) (now * 2 ^ Z.of_nat k - m)); cbn; split;
    (done || lia).
Qed.

(** The reading's mantissa at a common number of decimals. *)
Definition at_decimals (D : Z) (r : PriceReading) : Z := (price r * 10 ^ (D - decimals r))%Z.

Lemma scaleTo_at D r : (decimals r ≤ D)%Z → scaleTo r D = at_decimals D r.
Proof.
  intros H. unfold scaleTo, at_decimals.
  destruct (Z.eqb_spec (D - decimals r) 0) as [->|]; [lia|].
  by destruct (Z.ltb_spec 0 (D - decimals r)); [|lia].
Qed.

(** Two positive prices, and their divergence is below [bps + 1] basis points of
    the smaller. *)
Definition close (bps : Z) (x y : Z) : Prop :=
  (0 < x)%Z ∧ (0 < y)%Z ∧ (Z.abs (x - y) * 10000 < (bps + 1) * Z.min x y)%Z.

Lemma close_scale bps x y s : (0 < s)%Z → close bps (x * s) (y * s) ↔ close bps x y.
Proof.
  intros Hs. unfold close. rewrite <-Z.mul_sub_distr_r, Z.abs_mul, (Z.abs_eq s) by lia.
  rewrite Z.mul_min_distr_nonneg_r by lia.
  assert (∀ z, 0 < z * s ↔ 0 < z)%Z as Hpos by (intros; nia).
  rewrite !Hpos. assert (Z.abs (x - y) * s * 10000 < (bps + 1) * (Z.min x y * s) ↔
    Z.abs (x - y) * 10000 < (bps + 1) * Z.min x y)%Z as ->; [|done].
  rewrite (Z.mul_shuffle0 (Z.abs (x - y)) s), Z.mul_assoc.
  rewrite <-Z.mul_lt_mono_pos_r by done. done.
Qed.

Lemma checkDeviation_ok a b bps :
  let D := Z.max (decimals a) (decimals b) in
  checkDeviation a b (jint bps) = Ok GuardOk ↔ close bps (at_decimals D a) (at_decimals D b).
Proof.
  cbv zeta. unfold checkDeviation. rewrite !scaleTo_at by lia.
  set (x := at_decimals _ a). set (y := at_decimals _ b). unfold close.
  rewrite as_integer_jint.
  destruct (Z.leb_spec x 0); cbn [orb]; [split; [done|lia]|].
  destruct (Z.leb_spec y 0); [split; [done|lia]|].
  assert ((if (y <? x) then x - y else y - x) = Z.abs (x - y))%Z as ->
    by (destruct (Z.ltb_spec y x); lia).
  assert ((if (x <? y) then x else y) = Z.min x y)%Z as ->
    by (destruct (Z.ltb_spec x y); lia).
  assert (0 < Z.min x y)%Z as Hm by lia. set (m := Z.min x y) in *.
  rewrite Z.quot_div_nonneg by lia.
  destruct (Z.ltb_spec bps (Z.abs (x - y) * 10000 / m)) as [Hq|Hq]; split; try done.
  - intros (_ & _ & Hlt). apply Z.le_succ_l in Hq.
    assert (Z.abs (x - y) * 10000 / m < bps + 1)%Z by (apply Z.div_lt_upper_bound; lia). lia.
  - intros _. split; [done|]. split; [done|].
    pose proof (Z.mul_succ_div_gt (Z.abs (x - y) * 10000) m Hm). nia.
Qed.

Lemma close_decimals bps a b D :
  (Z.max (decimals a) (decimals b) ≤ D)%Z →
  close bps (at_decimals D a) (at_decimals D b) ↔
  close bps (at_decimals (Z.max (decimals a) (decimals b)) a)
            (at_decimals (Z.max (decimals a) (decimals b)) b).
Proof.
  intros HD. set (M := Z.max _ _) in *.
  assert (∀ r, (decimals r ≤ M)%Z → at_decimals D r = (at_decimals M r * 10 ^ (D - M))%Z) as Hr.
  { intros r Hr. unfold at_decimals. rewrite <-Z.mul_assoc, <-Z.pow_add_r by lia. do 2 f_equal. lia. }
  rewrite (Hr a), (Hr b) by lia. apply close_scale. apply Z.pow_pos_nonneg; lia.
Qed.

(** what the price guard accepts.  With whole-number bounds it accepts two
    readings exactly when both are fresh and their prices, at any common number
    of decimals, are positive and less than [bps + 1] basis points of the
    smaller apart; so the answer depends on the values and not on their fixed
    point, and not on which reading comes first.  The division rounds down: a
    divergence above [bps] but below [bps + 1] passes, and so does a timestamp
    that is [NaN]. *)
Theorem price_guard_exact a b now maxAge bps D :
  (decimals a ≤ D)%Z → (decimals b ≤ D)%Z →
  checkPriceGuard a b {| maxAgeSeconds := jint maxAge; maxDivergenceBps := jint bps |} (jint now)
    = Ok GuardOk ↔
  fresh now maxAge (observedAtUnix a) ∧ fresh now maxAge (observedAtUnix b) ∧
  close bps (at_decimals D a) (at_decimals D b).
Proof.
  intros Ha Hb. rewrite close_decimals, <-checkDeviation_ok by lia.
  rewrite <-!checkStaleness_ok. unfold checkPriceGuard. cbn [maxAgeSeconds maxDivergenceBps].
  destruct (checkStaleness a _ _) eqn:Ea; cbn [verdict_ok negb]; [|split; [done|naive_solver]..].
  destruct (checkStaleness b _ _) eqn:Eb; cbn [verdict_ok negb]; [|split; [done|naive_solver]..].
  naive_solver.
Qed.

Definition reading_at (p d : Z) (t : jsnum) : PriceReading :=
  {| price := p; decimals := d; observedAtUnix := t; source := "reflector:CEX" |}.

(** Nine tenths of a basis point pass a bound of zero, with no timestamp. *)
Lemma price_guard_exact_witness :
  checkPriceGuard (reading_at 100000 5 (jint 90)) (reading_at 1000090 6 JNaN)
    {| maxAgeSeconds := jint 60; maxDivergenceBps := jint 0 |} (jint 100) = Ok GuardOk.
Proof.
  apply (price_guard_exact _ _ 100 60 0 6); [vm_compute; discriminate..|].
  vm_compute. repeat split; discriminate.
Defined.

(** A bound that is not a whole number of basis points throws out of the guard. *)
Lemma fractional_bound_throws :
  checkPriceGuard (reading_at 100 2 (jint 90)) (reading_at 100 2 (jint 90))
    {| maxAgeSeconds := jint 60; maxDivergenceBps := JFin 25 1 |} (jint 100) = Err RangeError.
Proof. reflexivity. Qed.
