(* ===== verification/Cursors.v ===== *)
(** * Coalesced cursor writes (packages/pulse-core/src/coalesceCursorStore.ts)

    The decorator that buffers cursors and flushes them to an inner store.  The
    inner store is a map whose [setMany] takes effect when its promise settles; a
    call that rejects may have written some of its entries.  Flushes are chained
    on one promise, so at most one is under way and a rejection ends the chain. *)

From S2P Require Import Prelude.

Abbreviation cursors := (gmap string string) (only parsing).

Record CoalescingStore := {
  inner : cursors;
  buffer : cursors;
  timer : bool;                 (** the interval is set *)
  underway : option cursors;    (** the snapshot of the [doFlush] that waits *)
  waiting : nat;                (** [doFlush] calls chained behind it *)
  rejected : bool;              (** [flushInProgress] has rejected *)
  finished : nat;               (** [doFlush] calls that returned *)
}.

Inductive CoalesceError := IntervalNotPositive.

Definition coalesceCursorStore (store : cursors) (intervalMs : jsnum)
    : result CoalesceError CoalescingStore :=
  _ ← reject_if (negb (js_isFinite intervalMs) || negb (js_gtZ intervalMs 0)) IntervalNotPositive;
  Ok {| inner := store; buffer := ∅; timer := true; underway := None; waiting := 0;
        rejected := false; finished := 0 |}.

Definition with_buffer (b : cursors) (s : CoalescingStore) : CoalescingStore :=
  {| inner := inner s; buffer := b; timer := timer s; underway := underway s;
     waiting := waiting s; rejected := rejected s; finished := finished s |}.

Definition get (streamKey : string) (s : CoalescingStore) : option string :=
  match buffer s !! streamKey with
  | Some cursor => Some cursor
  | None => inner s !! streamKey
  end.

(** [set], and [setMany] entry by entry. *)
Definition set_cursor (streamKey cursor : string) (s : CoalescingStore) : CoalescingStore :=
  with_buffer (<[streamKey := cursor]> (buffer s)) s.

Definition setMany (entries : list (string * string)) (s : CoalescingStore) : CoalescingStore :=
  foldl (λ s e, set_cursor e.1 e.2 s) s entries.

(** The answers in the order of [keys]. *)
Definition getMany (keys : list string) (s : CoalescingStore) : list (string * option string) :=
  (λ k, (k, get k s)) <$> keys.

(** Chain one more [doFlush], by [flush] or by the timer.  On a rejected chain
    [then] never calls it. *)
Definition flush (s : CoalescingStore) : CoalescingStore :=
  {| inner := inner s; buffer := buffer s; timer := timer s; underway := underway s;
     waiting := S (waiting s); rejected := rejected s; finished := finished s |}.

Definition tick (s : CoalescingStore) : CoalescingStore := if timer s then flush s else s.

Definition dispose (s : CoalescingStore) : CoalescingStore :=
  {| inner := inner s; buffer := buffer s; timer := false; underway := underway s;
     waiting := waiting s; rejected := rejected s; finished := finished s |}.

(** The chain reaches the next [doFlush]: it returns at once on an empty buffer,
    otherwise takes the buffer and calls the inner [setMany]. *)
Definition doFlush (s : CoalescingStore) : CoalescingStore :=
  match rejected s, underway s, waiting s with
  | false, None, S n =>
      if decide (buffer s = ∅) then
        {| inner := inner s; buffer := buffer s; timer := timer s; underway := None;
           waiting := n; rejected := false; finished := S (finished s) |}
      else
        {| inner := inner s; buffer := ∅; timer := timer s; underway := Some (buffer s);
           waiting := n; rejected := false; finished := finished s |}
  | _, _, _ => s
  end.

(** The inner [setMany] resolves. *)
Definition written (s : CoalescingStore) : CoalescingStore :=
  match underway s with
  | Some snapshot =>
      {| inner := snapshot ∪ inner s; buffer := buffer s; timer := timer s; underway := None;
         waiting := waiting s; rejected := rejected s; finished := S (finished s) |}
  | None => s
  end.

(** It rejects, with the entries of [ks] written. *)
Definition failed (ks : gset string) (s : CoalescingStore) : CoalescingStore :=
  match underway s with
  | Some snapshot =>
      {| inner := base.filter (λ p, p.1 ∈ ks) snapshot ∪ inner s; buffer := buffer s;
         timer := timer s; underway := None; waiting := waiting s; rejected := true;
         finished := finished s |}
  | None => s
  end.

Inductive cursor_event :=
  | Set_ (streamKey cursor : string)
  | Flush
  | Tick
  | Dispose
  | DoFlush
  | Written
  | Failed (ks : gset string).

Definition cursor_step (e : cursor_event) (s : CoalescingStore) : CoalescingStore :=
  match e with
  | Set_ k c => set_cursor k c s
  | Flush => flush s
  | Tick => tick s
  | Dispose => dispose s
  | DoFlush => doFlush s
  | Written => written s
  | Failed ks => failed ks s
  end.

Definition cursor_run (es : list cursor_event) (s : CoalescingStore) : CoalescingStore :=
  foldl (λ s e, cursor_step e s) s es.

(** The value of [flush()]'s promise: it resolves when this many [doFlush] calls
    have returned. *)
Definition ticket (s : CoalescingStore) : nat :=
  finished s + (match underway s with Some _ => 1 | None => 0 end) + S (waiting s).

(** ** What is held *)

(** The cursors a store holds: buffered, on their way, or written. *)
Definition held_cursors (s : CoalescingStore) : cursors :=
  buffer s ∪ (default ∅ (underway s) ∪ inner s).

(** What a plain store holds after the same calls. *)
Definition plain_step (e : cursor_event) (m : cursors) : cursors :=
  match e with Set_ k c => <[k := c]> m | _ => m end.

Definition plain_run (es : list cursor_event) (m : cursors) : cursors :=
  foldl (λ m e, plain_step e m) m es.

Definition no_failure (e : cursor_event) : bool :=
  match e with Failed _ => false | _ => true end.

Lemma step_held e s :
  no_failure e = true → held_cursors (cursor_step e s) = plain_step e (held_cursors s).
Proof.
  destruct s as [i b t u w r n]. unfold held_cursors.
  destruct e as [k c| | | | | |ks]; cbn; intros He.
  - by rewrite insert_union_l.
  - done.
  - unfold tick. cbn. by destruct t.
  - done.
  - unfold doFlush. destruct r, u, w; try done. cbn [rejected underway waiting buffer].
    case_decide; cbn; [done|]. by rewrite !(left_id_L ∅ (∪)).
  - destruct u as [f|]; cbn; [|done]. by rewrite (left_id_L ∅ (∪)).
  - done.
Qed.

Lemma run_held es s :
  forallb no_failure es = true → held_cursors (cursor_run es s) = plain_run es (held_cursors s).
Proof.
  revert s. induction es as [|e es IH]; intros s; [done|]. cbn [forallb].
  intros [He Hes]%andb_true_iff. change (held_cursors (cursor_run es (cursor_step e s)) =
    plain_run es (plain_step e (held_cursors s))).
  by rewrite IH, step_held.
Qed.

(** ** A flush is durable *)

Section durable.
Context (k : string) (allowed : string → Prop) (target : nat).

(** [m] holds an allowed cursor of [k]. *)
Definition good (m : cursors) : Prop := ∃ c, m !! k = Some c ∧ allowed c.

Definition started (s : CoalescingStore) : nat :=
  finished s + match underway s with Some _ => 1 | None => 0 end.

(** Whatever cursor of [k] is held, nearest first, is allowed; from the
    [target]-th flush on, also without the buffer; from its return on, in the
    inner store. *)
Definition durable_inv (s : CoalescingStore) : Prop :=
  good (held_cursors s) ∧
  (∀ c, buffer s !! k = Some c → allowed c) ∧
  (target ≤ started s → good (default ∅ (underway s) ∪ inner s)) ∧
  (target ≤ finished s → good (inner s)) ∧
  (target ≤ started s → ∀ f c, underway s = Some f → f !! k = Some c → allowed c).

Lemma good_union m1 m2 :
  good (m1 ∪ m2) ↔ good m1 ∨ (m1 !! k = None ∧ good m2).
Proof.
  unfold good. rewrite lookup_union. destruct (m1 !! k) as [c|] eqn:E.
  - rewrite union_Some_l. naive_solver.
  - rewrite (left_id_L None (∪)). naive_solver.
Qed.

Definition allowed_event (e : cursor_event) : Prop :=
  match e with
  | Set_ k' c => k' = k → allowed c
  | Failed _ => False
  | _ => True
  end.

Lemma durable_step e s : allowed_event e → durable_inv s → durable_inv (cursor_step e s).
Proof.
  destruct s as [i b t u w r n].
  unfold durable_inv, held_cursors, started. cbn [buffer underway inner finished].
  intros He (H1 & H2 & H3 & H4 & H5). destruct e as [k' c| | | | | |ks]; cbn in He |- *; try done.
  - split_and!; [|intros c'|done..].
    + destruct (decide (k' = k)) as [->|Hne].
      * apply good_union. left. exists c. rewrite lookup_insert_eq. auto.
      * revert H1. rewrite !good_union. unfold good. by rewrite !lookup_insert_ne.
    + destruct (decide (k' = k)) as [->|Hne].
      * rewrite lookup_insert_eq. intros [= <-]. auto.
      * rewrite lookup_insert_ne by done. apply H2.
  - unfold tick. cbn. by destruct t.
  - unfold doFlush. cbn [rejected underway waiting buffer].
    destruct r, u as [f|], w as [|w]; try done. cbn [default] in *. case_decide as Hb; cbn.
    + subst b. rewrite !(left_id_L ∅ (∪)) in *. split_and!; try done.
    + rewrite (left_id_L ∅ (∪)) in *. split_and!; try done.
      intros _ f c Hf Hc. simplify_eq. by apply H2.
  - unfold written. cbn. destruct u as [f|]; cbn [default] in *; [|done]. cbn.
    rewrite !(left_id_L ∅ (∪)) in *. split_and!; try done; intros; apply H3; lia.
Qed.

Lemma durable_run es s : Forall allowed_event es → durable_inv s → durable_inv (cursor_run es s).
Proof.
  unfold cursor_run. revert s. induction es as [|e es IH]; intros s; [done|].
  intros [He Hes]%Forall_cons Hs. by apply IH, durable_step.
Qed.
End durable.

(** a flush is durable.  As long as no inner write has failed, when the
    promise of [flush()] resolves the inner store holds, for every key set
    before the call, the cursor last set then or one set since, however sets,
    flushes and timer ticks interleave with the writes; and until then [get]
    and the inner store together hold what a plain store would. *)
Theorem flush_is_durable store interval s0 es1 es2 k c :
  coalesceCursorStore store interval = Ok s0 →
  forallb no_failure (es1 ++ es2) = true →
  let s1 := cursor_run es1 s0 in
  let s2 := cursor_run es2 (flush s1) in
  plain_run es1 store !! k = Some c →
  held_cursors s1 = plain_run es1 store ∧
  (ticket s1 ≤ finished s2 →
   ∃ c', inner s2 !! k = Some c' ∧ (c' = c ∨ Set_ k c' ∈ es2)).
Proof.
  intros H0 Hes s1 s2 Hk.
  assert (held_cursors s0 = store) as Hs0.
  { unfold coalesceCursorStore in H0. apply result_bind_Ok in H0 as ([] & _ & [= <-]).
    unfold held_cursors. cbn. by rewrite !(left_id_L ∅ (∪)). }
  rewrite forallb_app in Hes. apply andb_true_iff in Hes as [Hes1 Hes2].
  assert (held_cursors s1 = plain_run es1 store) as Hh.
  { subst s1. rewrite run_held by done. by rewrite Hs0. }
  split; [exact Hh|]. intros Ht.
  set (allowed := λ c', c' = c ∨ Set_ k c' ∈ es2).
  assert (durable_inv k allowed (ticket s1) (flush s1)) as Hinv.
  { unfold durable_inv, ticket, started. cbn [flush buffer underway inner finished].
    assert (good k allowed (held_cursors s1)) as Hg.
    { rewrite Hh. exists c. split; [done|by left]. }
    split_and!; [exact Hg| |lia|lia|lia].
    intros c' Hc'. left. rewrite <-Hh in Hk. unfold held_cursors in Hk.
    rewrite (lookup_union_Some_l _ _ _ _ Hc') in Hk. congruence. }
  destruct (durable_run k allowed (ticket s1) es2 (flush s1)) as (_ & _ & _ & H & _).
  - apply Forall_forall. intros e He. rewrite forallb_Forall, Forall_forall in Hes2.
    specialize (Hes2 e He). destruct e; try done. intros ->. by right.
  - exact Hinv.
  - by apply H.
Qed.

(** The promise does resolve once the inner writes do. *)
Lemma flush_completes s :
  rejected s = false →
  ticket s ≤ finished (cursor_run (Written :: mjoin (replicate (S (waiting s)) [DoFlush; Written]))
                        (flush s)).
Proof.
  intros Hr. unfold ticket.
  assert (∀ n x, rejected x = false → underway x = None → waiting x = n →
    finished x + n ≤ finished (cursor_run (mjoin (replicate n [DoFlush; Written])) x)) as Hgo.
  { unfold cursor_run. induction n as [|n IH]; intros x H1 H2 H3; cbn; [lia|].
    destruct x as [i b t u w r m]. cbn in *. subst.
    unfold doFlush. cbn [rejected underway waiting buffer]. case_decide; unfold written; cbn;
      (etrans; [|apply IH; done]; cbn; lia). }
  set (x := written (flush s)).
  assert (finished x + S (waiting s) ≤
            finished (cursor_run (mjoin (replicate (S (waiting s)) [DoFlush; Written])) x)) as H.
  { apply Hgo; subst x; unfold written; cbn; destruct (underway s) eqn:E;
      (exact Hr || exact E || done). }
  change (cursor_run (Written :: mjoin _) (flush s)) with
    (cursor_run (mjoin (replicate (S (waiting s)) [DoFlush; Written])) x).
  etrans; [|exact H]. subst x. unfold written. cbn. destruct (underway s); cbn; lia.
Qed.

Definition fresh_store : CoalescingStore :=
  {| inner := ∅; buffer := ∅; timer := true; underway := None; waiting := 0; rejected := false;
     finished := 0 |}.

Lemma flush_is_durable_witness :
  inner (cursor_run [DoFlush; Set_ "horizon" "11"; Written]
    (flush (cursor_run [Set_ "horizon" "10"] fresh_store))) !! "horizon" = Some "10" ∧
  ∃ c', inner (cursor_run [DoFlush; Set_ "horizon" "11"; Written]
    (flush (cursor_run [Set_ "horizon" "10"] fresh_store))) !! "horizon" = Some c' ∧
    (c' = "10" ∨ Set_ "horizon" c' ∈ [DoFlush; Set_ "horizon" "11"; Written]).
Proof.
  split; [vm_compute; reflexivity|].
  apply (flush_is_durable ∅ (jint 5000) fresh_store [Set_ "horizon" "10"]
    [DoFlush; Set_ "horizon" "11"; Written] "horizon" "10");
    [reflexivity|reflexivity|vm_compute; reflexivity|vm_compute; lia].
Defined.

(** ** A failed flush *)

Lemma rejected_step e s :
  rejected s = true → underway s = None →
  let s' := cursor_step e s in
  rejected s' = true ∧ underway s' = None ∧ inner s' = inner s ∧ finished s' = finished s ∧
  buffer s' = plain_step e (buffer s).
Proof.
  destruct s as [i b t u w r n]. cbn [rejected underway]. intros -> ->.
  destruct e; cbn; try done. unfold tick. cbn. by destruct t.
Qed.

Lemma rejected_run es s :
  rejected s = true → underway s = None →
  let s' := cursor_run es s in
  rejected s' = true ∧ inner s' = inner s ∧ finished s' = finished s ∧
  buffer s' = plain_run es (buffer s).
Proof.
  unfold cursor_run, plain_run. revert s.
  induction es as [|e es IH]; intros s Hr Hu; [done|]. cbn [foldl].
  destruct (rejected_step e s Hr Hu) as (H1 & H2 & <- & <- & <-). by apply IH.
Qed.

(** after a flush has failed nothing is ever written again: the chain of
    flushes stays rejected, no later [flush] or timer tick reaches the inner
    store, and the entries the failed write left out are in neither the buffer
    nor the inner store. *)
Theorem failed_flush_is_final s f ks es :
  underway s = Some f →
  let s1 := failed ks s in
  let s2 := cursor_run es s1 in
  rejected s2 = true ∧ inner s2 = inner s1 ∧ finished s2 = finished s1 ∧
  buffer s2 = plain_run es (buffer s) ∧
  (∀ k c, f !! k = Some c → k ∉ ks → get k s1 = buffer s !! k ∨ get k s1 = inner s !! k).
Proof.
  intros Hu s1 s2.
  assert (rejected s1 = true ∧ underway s1 = None ∧ buffer s1 = buffer s) as (H1 & H2 & H3)
    by (subst s1; unfold failed; by rewrite Hu).
  destruct (rejected_run es s1 H1 H2) as (Ha & Hb & Hc & Hd). rewrite H3 in Hd.
  split_and!; [done..|]. intros k c Hf Hn. unfold get. rewrite H3.
  destruct (buffer s !! k) eqn:Eb; [by left|right]. subst s1. unfold failed. rewrite Hu. cbn.
  apply lookup_union_r. rewrite map_lookup_filter, Hf. cbn. by rewrite option_guard_False.
Qed.

Lemma failed_flush_is_final_witness :
  inner (cursor_run [Flush; DoFlush; Set_ "horizon" "12"; Tick; DoFlush; Written]
    (failed ∅ (cursor_run [Set_ "horizon" "10"; Flush; DoFlush] fresh_store))) = ∅.
Proof.
  assert (underway (cursor_run [Set_ "horizon" "10"; Flush; DoFlush] fresh_store) =
            Some {["horizon" := "10"]}) as Hu by (vm_compute; reflexivity).
  destruct (failed_flush_is_final _ _ ∅
    [Flush; DoFlush; Set_ "horizon" "12"; Tick; DoFlush; Written] Hu) as (_ & Hi & _).
  rewrite Hi. vm_compute. reflexivity.
Defined.

(** While a flush is under way [get] answers with the cursor of before it. *)
Lemma get_during_flush :
  let s := cursor_run [Set_ "horizon" "9"; Flush; DoFlush; Written;
                       Set_ "horizon" "10"; Flush; DoFlush] fresh_store in
  get "horizon" s = Some "9".
Proof. vm_compute. reflexivity. Qed.
