(* ===== verification/SorobanCalls.v ===== *)
(** * What a Soroban poll asks for
    (packages/pulse-core/src/SorobanSubscriber.ts)

    The constructor's checks, the coalescing of the subscriptions' filters into
    calls of at most five, and which subscriptions an event is handed to. *)

From S2P Require Import Prelude.
From S2P Require Import JsMap.
From S2P Require Import Route.

(** ** Options *)

Inductive SubscriberError :=
  | PageLimitOutOfRange (received : jsnum)
  | PollIntervalNotPositive
  | BadStartLedgerLookback
  | BadStartLedger.

Definition MIN_PAGE_LIMIT : Z := 1.
Definition MAX_PAGE_LIMIT : Z := 10000.
Definition DEFAULT_PAGE_LIMIT : Z := 100.
Definition DEFAULT_DEDUP_CACHE_SIZE : Z := 1024.

Definition resolveSorobanPageLimit (pageLimit : option jsnum) : result SubscriberError Z :=
  let resolved := default (jint DEFAULT_PAGE_LIMIT) pageLimit in
  match as_integer resolved with
  | Some n =>
      _ ← reject_if ((n <? MIN_PAGE_LIMIT) || (MAX_PAGE_LIMIT <? n))%Z (PageLimitOutOfRange resolved);
      Ok n
  | None => Err (PageLimitOutOfRange resolved)
  end.

Definition non_negative_integer {E} (x : jsnum) (e : E) : result E Z :=
  match as_integer x with
  | Some n => _ ← reject_if (n <? 0)%Z e; Ok n
  | None => Err e
  end.

(** The numbers the constructor checks, in its order; the page limit, the
    lookback and the first ledger are what it keeps. *)
Definition check_options (pageLimit pageSize pollIntervalMs lookback startLedger : option jsnum)
    : result SubscriberError (Z * Z * option Z) :=
  limit ← resolveSorobanPageLimit (match pageLimit with Some _ => pageLimit | None => pageSize end);
  let interval := default (jint 2000) pollIntervalMs in
  _ ← reject_if (negb (js_isFinite interval) || negb (js_gtZ interval 0)) PollIntervalNotPositive;
  back ← non_negative_integer (default (jint 0) lookback) BadStartLedgerLookback;
  match startLedger with
  | None => Ok (limit, back, None)
  | Some x => first ← non_negative_integer x BadStartLedger; Ok (limit, back, Some first)
  end.

(** ** Filters *)

#[export] Instance ContractSubscriptionFilter_eq_dec : EqDecision ContractSubscriptionFilter.
Proof. solve_decision. Defined.

Record SorobanSubscription := {
  sub_id : string;
  sub_filters : list ContractSubscriptionFilter;
  sub_onEvent : bool;   (** it has a handler of its own *)
}.

(** [sort()] of strings. *)
Fixpoint insert_string (s : string) (l : list string) : list string :=
  match l with
  | [] => [s]
  | x :: l' => if String.leb s x then s :: l else x :: insert_string s l'
  end.

Definition sort_strings (l : list string) : list string := foldr insert_string [] l.

(** The identity of a filter.  [JSON.stringify] is injective on these objects,
    so the text is represented by the object. *)
Definition FilterKey : Type :=
  option string * option (list string) * option (list (option string)).

Definition filterKey (f : ContractSubscriptionFilter) : FilterKey :=
  (f_type f, sort_strings <$> f_contractIds f, f_topicFilters f).

Definition coalesce_step (byKey : jsmap FilterKey ContractSubscriptionFilter)
    (f : ContractSubscriptionFilter) : jsmap FilterKey ContractSubscriptionFilter :=
  if mhas (filterKey f) byKey then byKey else mset (filterKey f) f byKey.

Definition coalesceFilters (fs : list ContractSubscriptionFilter) : list ContractSubscriptionFilter :=
  mvals (foldl coalesce_step [] fs).

(** [for (i = 0; i < l.length; i += size) l.slice(i, i + size)] *)
Definition slices {A} (size : nat) (l : list A) : list (list A) :=
  (λ i, take size (drop (size * i) l)) <$> seq 0 ((length l + (size - 1)) / size).

Definition match_all (s : SorobanSubscription) : bool :=
  match sub_filters s with [] => true | _ => false end.

Definition legacy : SorobanSubscription :=
  {| sub_id := "__legacy__"; sub_filters := []; sub_onEvent := false |}.

Definition active_subs (subs : list SorobanSubscription) : list SorobanSubscription :=
  match subs with [] => [legacy] | _ => subs end.

(** The filters of each [getEvents] call of a poll. *)
Definition rpcCalls (subs : list SorobanSubscription) : list (list ContractSubscriptionFilter) :=
  let activeSubs := active_subs subs in
  if existsb match_all activeSubs then [[]]
  else
    match coalesceFilters (activeSubs ≫= sub_filters) with
    | [] => [[]]
    | uniqueFilters => slices 5 uniqueFilters
    end.

(** ** Who an event is for *)

Definition eventMatchesFilter (contractId : option string) (f : ContractSubscriptionFilter) : bool :=
  match f_contractIds f with
  | None | Some [] => true
  | Some ids => match contractId with Some c => existsb (String.eqb c) ids | None => false end
  end.

Definition eventMatchesSubscription (contractId : option string) (s : SorobanSubscription) : bool :=
  match_all s || existsb (eventMatchesFilter contractId) (sub_filters s).

(** ** The calls cover the subscriptions *)

Lemma insert_string_elem s x l : x ∈ insert_string s l ↔ x = s ∨ x ∈ l.
Proof.
  induction l as [|y l IH]; cbn; [set_solver|]. case_match; rewrite ?elem_of_cons, ?IH; set_solver.
Qed.

Lemma sort_strings_elem x l : x ∈ sort_strings l ↔ x ∈ l.
Proof.
  unfold sort_strings. induction l as [|y l IH]; cbn; [done|].
  rewrite insert_string_elem, IH. set_solver.
Qed.

Lemma eventMatchesFilter_key c f g :
  filterKey f = filterKey g → eventMatchesFilter c f = eventMatchesFilter c g.
Proof.
  unfold filterKey, eventMatchesFilter. intros Hk. injection Hk as _ Hids _.
  assert (∀ l l', sort_strings l = sort_strings l' → ∀ x, x ∈ l ↔ x ∈ l') as Hs.
  { intros l l' Hl x. by rewrite <-(sort_strings_elem x l), <-(sort_strings_elem x l'), Hl. }
  destruct (f_contractIds f) as [l|], (f_contractIds g) as [l'|]; try done.
  injection Hids as Hl. specialize (Hs l l' Hl).
  assert (existsb (String.eqb (default "" c)) l = existsb (String.eqb (default "" c)) l') as Hx.
  { apply eq_true_iff_eq. rewrite !existsb_Exists.
    split; intros (x & Hin & ?); exists x; (split; [by apply Hs|done]). }
  destruct l as [|a l], l' as [|a' l']; [done| | |].
  - exfalso. assert (a' ∈ @nil string) as Hin by (apply Hs; set_solver). set_solver.
  - exfalso. assert (a ∈ @nil string) as Hin by (apply Hs; set_solver). set_solver.
  - by destruct c.
Qed.

Lemma coalesce_step_keys m f :
  mkeys (coalesce_step m f) =
    if decide (filterKey f ∈ mkeys m) then mkeys m else mkeys m ++ [filterKey f].
Proof.
  unfold coalesce_step. destruct (mhas (filterKey f) m) eqn:E.
  - apply mhas_true in E. by rewrite decide_True.
  - assert (filterKey f ∉ mkeys m) by (rewrite <-mhas_true; congruence).
    by rewrite decide_False, mkeys_mset_fresh.
Qed.

(** Every entry is filed under its own key. *)
Definition keyed_filters (m : jsmap FilterKey ContractSubscriptionFilter) : Prop :=
  mwf m ∧ Forall (λ p, p.1 = filterKey p.2) m.

Lemma coalesce_keyed fs m : keyed_filters m → keyed_filters (foldl coalesce_step m fs).
Proof.
  revert m. induction fs as [|f fs IH]; intros m; [done|]. intros [Hw Hk]. cbn. apply IH.
  unfold coalesce_step. destruct (mhas (filterKey f) m) eqn:E; [done|].
  assert (filterKey f ∉ mkeys m) by (rewrite <-mhas_true; congruence).
  split; [by apply mwf_mset|]. rewrite mset_fresh by done. apply Forall_app. by repeat constructor.
Qed.

Lemma coalesce_keys fs m k :
  k ∈ mkeys (foldl coalesce_step m fs) ↔ k ∈ mkeys m ∨ ∃ f, f ∈ fs ∧ filterKey f = k.
Proof.
  revert m. induction fs as [|f fs IH]; intros m; cbn; [set_solver|].
  rewrite IH, coalesce_step_keys.
  case_decide; rewrite ?elem_of_app, ?list_elem_of_singleton; set_solver.
Qed.

Lemma mkeys_keyed m : keyed_filters m → mkeys m = filterKey <$> mvals m.
Proof.
  intros [_ Hk]. unfold mkeys, mvals. induction Hk as [|[k f] m Hp _ IH]; [done|].
  cbn in *. by rewrite Hp, IH.
Qed.

(** Coalescing keeps one filter of each kind, and every kind. *)
Lemma coalesceFilters_spec fs :
  NoDup (filterKey <$> coalesceFilters fs) ∧
  ∀ k, k ∈ filterKey <$> coalesceFilters fs ↔ ∃ f, f ∈ fs ∧ filterKey f = k.
Proof.
  assert (keyed_filters (foldl coalesce_step [] fs)) as Hk
    by (apply coalesce_keyed; split; [apply mwf_nil|constructor]).
  unfold coalesceFilters. rewrite <-mkeys_keyed by done. split; [apply Hk|].
  intros k. rewrite coalesce_keys. unfold mkeys at 1. cbn. set_solver.
Qed.

Lemma slices_concat {A} size (l : list A) : 0 < size → mjoin (slices size l) = l.
Proof.
  intros Hs. unfold slices.
  assert (∀ n k, mjoin ((λ i, take size (drop (size * i) l)) <$> seq k n) =
                 take (size * n) (drop (size * k) l)) as Hgo.
  { induction n as [|n IH]; intros k; cbn [seq fmap list_fmap mjoin list_join].
    - by rewrite Nat.mul_0_r.
    - change (take size (drop (size * k) l) ++ mjoin ((λ i, take size (drop (size * i) l)) <$> seq (S k) n)
        = take (size * S n) (drop (size * k) l)).
      rewrite IH. replace (size * S n) with (size + size * n) by lia.
      replace (size * S k) with (size * k + size) by lia.
      rewrite <-drop_drop. rewrite <-(take_drop size (take (size + size * n) _)).
      rewrite take_take, Nat.min_l by lia. f_equal. rewrite skipn_firstn_comm. f_equal; lia. }
  rewrite Hgo, Nat.mul_0_r, drop_0. apply take_ge.
  pose proof (Nat.div_mod_eq (length l + (size - 1)) size).
  pose proof (Nat.mod_upper_bound (length l + (size - 1)) size). lia.
Qed.

Lemma slices_bounds {A} size (l : list A) s : 0 < size → s ∈ slices size l → 1 ≤ length s ≤ size.
Proof.
  intros Hs. unfold slices. rewrite list_elem_of_fmap. intros (i & -> & Hi).
  rewrite elem_of_seq in Hi. rewrite length_take, length_drop.
  pose proof (Nat.div_mod_eq (length l + (size - 1)) size).
  assert (size * S i ≤ length l + (size - 1)); [|lia].
  etrans; [|apply (Nat.Div0.mul_div_le _ size)]. apply Nat.mul_le_mono_l. lia.
Qed.

(** what a poll asks for.  The calls of a poll partition the distinct filters
    of the subscriptions, five to a call and none empty, so there are as few
    calls as five filters each allow; and whatever contract an event is of, when
    some subscription is to be handed it, some call asks for it. *)
Theorem calls_cover_subscriptions subs contractId s :
  s ∈ active_subs subs → eventMatchesSubscription contractId s = true →
  (∃ call, call ∈ rpcCalls subs ∧
     (call = [] ∨ existsb (eventMatchesFilter contractId) call = true)) ∧
  (rpcCalls subs = [[]] ∨
   mjoin (rpcCalls subs) = coalesceFilters (active_subs subs ≫= sub_filters) ∧
   Forall (λ call, 1 ≤ length call ≤ 5) (rpcCalls subs) ∧
   length (rpcCalls subs) = (length (mjoin (rpcCalls subs)) + 4) / 5).
Proof.
  intros Hs Hm. unfold rpcCalls. set (subs' := active_subs subs) in *.
  destruct (existsb match_all subs') eqn:Hall.
  { split; [|by left]. exists []. split; [set_solver|by left]. }
  assert (match_all s = false) as Hns by (rewrite existsb_false in Hall; by apply Hall).
  unfold eventMatchesSubscription in Hm. rewrite Hns in Hm. cbn in Hm.
  apply existsb_Exists in Hm as (f & Hf & Hfm).
  destruct (coalesceFilters_spec (subs' ≫= sub_filters)) as [_ Hkeys].
  assert (filterKey f ∈ filterKey <$> coalesceFilters (subs' ≫= sub_filters)) as Hin.
  { apply Hkeys. exists f. split; [|done]. apply list_elem_of_bind. by exists s. }
  destruct (coalesceFilters (subs' ≫= sub_filters)) as [|u us] eqn:Eu; [by apply not_elem_of_nil in Hin|].
  rewrite <-Eu in Hin |- *. split.
  - apply list_elem_of_fmap in Hin as (g & Hg & Hgin).
    rewrite <-(slices_concat 5 (coalesceFilters (subs' ≫= sub_filters))) in Hgin by lia.
    apply list_elem_of_join in Hgin as (call & Hgc & Hc). exists call. split; [done|]. right.
    apply existsb_Exists. exists g. split; [done|].
    by rewrite <-(eventMatchesFilter_key contractId f g).
  - right. rewrite slices_concat by lia. split_and!; [done| |].
    + apply Forall_forall. intros c. apply slices_bounds. lia.
    + unfold slices. by rewrite length_fmap, length_seq.
Qed.

Definition on_contract (c topic : string) : ContractSubscriptionFilter :=
  {| f_type := None; f_contractIds := Some [c]; f_topicFilters := Some [Some topic] |}.

Lemma calls_cover_subscriptions_witness :
  let a := {| sub_id := "a"; sub_filters := [on_contract "C1" "mint"]; sub_onEvent := true |} in
  let b := {| sub_id := "b"; sub_filters := [on_contract "C1" "mint"; on_contract "C2" "burn"];
              sub_onEvent := true |} in
  rpcCalls [a; b] = [[on_contract "C1" "mint"; on_contract "C2" "burn"]] ∧
  ∃ call, call ∈ rpcCalls [a; b] ∧
     (call = [] ∨ existsb (eventMatchesFilter (Some "C2")) call = true).
Proof.
  intros a b. split; [vm_compute; reflexivity|].
  apply (calls_cover_subscriptions [a; b] (Some "C2") b); [set_solver|vm_compute; reflexivity].
Defined.

(** Only the contract is checked again when an event is handed out: a
    subscription to one topic of a contract is handed the events another
    subscription asked for. *)
Lemma topics_not_rechecked :
  let a := {| sub_id := "a"; sub_filters := [on_contract "C1" "mint"]; sub_onEvent := true |} in
  let b := {| sub_id := "b"; sub_filters := [on_contract "C1" "burn"]; sub_onEvent := true |} in
  eventMatchesSubscription (Some "C1") a = true ∧ eventMatchesSubscription (Some "C1") b = true.
Proof. done. Qed.
