(* ===== verification/Soroban.v ===== *)
(** * The Soroban subscriber (packages/pulse-core/src/SorobanSubscriber.ts)

    The state of a subscriber and its polls.  A poll runs between its awaits
    without interruption; each await is a phase of [Poll] and each resumption a
    step, so [stop], [start], timers and other polls may come in between.  The
    RPC, the cursor store and the handlers answer through the steps' labels. *)

From S2P Require Import Prelude.
From S2P Require Import JsMap.
From S2P Require Import JsValue.
From S2P Require Import Decimal.
From S2P Require Import Route.
From S2P Require Import Stream.
From S2P Require Import SorobanCalls.

(** An event of a page: what the engine reads of it, and its paging token. *)
Record PageEvent := { pagingToken : string; body : SorobanEvent }.

Record Page := {
  page_events : list PageEvent;
  page_latestLedger : option Z;
  page_cursor : option string;
}.

Record SorobanRpcError := {
  rpc_code : string;
  rpc_message : string;
  rpc_retryable : bool;
  rpc_retryAfterMs : option Z;
}.

(** What an RPC call rejects with. *)
Inductive RpcFailure :=
  | AbortFailure
  | RpcFailed (e : SorobanRpcError)
  | OtherFailure.

(** What the subscriber was constructed with; [None] retries are unlimited. *)
Record SubscriberConfig := {
  cfg_endLedger : option Z;
  cfg_json : bool;
  cfg_dedupCacheSize : Z;
  cfg_startLedgerLookback : Z;
  cfg_retryDelayMs : Z;
  cfg_initialDelayMs : Z;
  cfg_maxDelayMs : Z;
  cfg_maxRetries : option Z;
  cfg_getLatestLedger : bool;    (** the RPC has the method *)
  cfg_onEvent : bool;
  cfg_onTerminalError : bool;
}.

(** Whose handler is called. *)
Inductive Handler := OwnHandler (subscription : string) | DefaultHandler.

(** What the outside sees (a hook or handler that is not there sees nothing).
    [Dispatched], [Handled] and [Suppressed] mark where the dispatch of an event
    starts, where it has been recorded, and a repeat that is passed over. *)
Inductive Output :=
  | Dispatched (id : string)
  | Delivered (h : Handler) (e : SorobanEvent)
  | Handled (id : string)
  | Suppressed (id : string)
  | CursorExpired (lostCursor : string)
  | OnRetryableError (e : SorobanRpcError)
  | OnTerminalError (e : SorobanRpcError)
  | EngineRateLimited (attempt delayMs : Z)
  | EngineReconnecting (attempt delayMs : Z) (cursor : option string)
  | EngineReconnected (attempt : Z)
  | OnDone.

Record Subscriber := {
  isStopped : bool;
  isRunning : bool;
  isPolling : bool;
  subscriptions : list SorobanSubscription;
  seen : list string;              (** least recently used first *)
  reconnectAttempt : Z;
  retryTimer : option nat;
  timers : list (nat * Z);         (** scheduled timeouts and their delays *)
  nextTimer : nat;
  startLedger : option Z;
  replayCursor : option string;
  replayDone : bool;
  lastEventAt : option Z;
  stored : option string;          (** what the cursor store holds *)
}.

(** A dispatch under way: the page's events, the cursor to save after them, the
    event, the handlers still to call after the current one, the events left. *)
Record Delivery := {
  d_page : list PageEvent;
  d_nextCursor : option string;
  d_event : PageEvent;
  d_handlers : list Handler;
  d_rest : list PageEvent;
}.

(** The await a poll is at. *)
Inductive Poll :=
  | WaitCursor (calls : list (list ContractSubscriptionFilter))
  | WaitLedger (cursor : option string) (calls : list (list ContractSubscriptionFilter))
  | WaitPages (cursor : option string) (calls : list (list ContractSubscriptionFilter))
  | WaitFallback (cursor : option string) (e : SorobanRpcError)
  | WaitFallbackSave (cursor : option string) (e : SorobanRpcError) (ledger : Z)
  | WaitHandler (d : Delivery)
  | WaitSave (page : list PageEvent) (cursor : string)
  | Settled (ok : bool).

(** *** Field updates *)

Definition with_flags (stopped running polling : bool) (s : Subscriber) : Subscriber :=
  {| isStopped := stopped; isRunning := running; isPolling := polling;
     subscriptions := subscriptions s; seen := seen s; reconnectAttempt := reconnectAttempt s;
     retryTimer := retryTimer s; timers := timers s; nextTimer := nextTimer s;
     startLedger := startLedger s; replayCursor := replayCursor s; replayDone := replayDone s;
     lastEventAt := lastEventAt s; stored := stored s |}.

Definition with_polling (b : bool) (s : Subscriber) : Subscriber :=
  with_flags (isStopped s) (isRunning s) b s.

Definition with_seen (l : list string) (at_ : option Z) (s : Subscriber) : Subscriber :=
  {| isStopped := isStopped s; isRunning := isRunning s; isPolling := isPolling s;
     subscriptions := subscriptions s; seen := l; reconnectAttempt := reconnectAttempt s;
     retryTimer := retryTimer s; timers := timers s; nextTimer := nextTimer s;
     startLedger := startLedger s; replayCursor := replayCursor s; replayDone := replayDone s;
     lastEventAt := at_; stored := stored s |}.

Definition with_retry (attempt : Z) (t : option nat) (ts : list (nat * Z)) (next : nat)
    (s : Subscriber) : Subscriber :=
  {| isStopped := isStopped s; isRunning := isRunning s; isPolling := isPolling s;
     subscriptions := subscriptions s; seen := seen s; reconnectAttempt := attempt;
     retryTimer := t; timers := ts; nextTimer := next;
     startLedger := startLedger s; replayCursor := replayCursor s; replayDone := replayDone s;
     lastEventAt := lastEventAt s; stored := stored s |}.

Definition with_position (l : option Z) (replay : option string) (done_ : bool)
    (store : option string) (s : Subscriber) : Subscriber :=
  {| isStopped := isStopped s; isRunning := isRunning s; isPolling := isPolling s;
     subscriptions := subscriptions s; seen := seen s; reconnectAttempt := reconnectAttempt s;
     retryTimer := retryTimer s; timers := timers s; nextTimer := nextTimer s;
     startLedger := l; replayCursor := replay; replayDone := done_;
     lastEventAt := lastEventAt s; stored := store |}.

(** ** The window of delivered ids *)

(** [Set.delete] then [Set.add]: the id moves to the recent end. *)
Definition touch (id : string) (l : list string) : list string :=
  base.filter (λ x, x ≠ id) l ++ [id].

(** [while (seen.size > cap) delete the oldest]. *)
Definition recordSeen (cap : Z) (id : string) (l : list string) : list string :=
  let l' := touch id l in drop (Z.to_nat (Z.of_nat (length l') - cap)) l'.

Definition touchSeen (id : string) (l : list string) : list string :=
  if bool_decide (id ∈ l) then touch id l else l.

(** [/^(\d+)-/] on the id. *)
Definition ledger_of_id (id : string) : option Z :=
  match str_split "-"%char id with
  | d :: _ :: _ =>
      if negb (String.eqb d "") && all_digits d then Some (Z.of_N (digits_value d)) else None
  | _ => None
  end.

Definition extractLedger (e : SorobanEvent) : option jsnum :=
  match so_ledger e with
  | Some n => Some n
  | None => jint <$> ledger_of_id (so_id e)
  end.

(** [ledger >= end]. *)
Definition reaches (ledger : jsnum) (end_ : Z) : bool :=
  match ledger with
  | JNaN => false
  | JInf neg => negb neg
  | JFin m k => (end_ * 2 ^ Z.of_nat k <=? m)%Z
  end.

Section subscriber.
Context (cfg : SubscriberConfig).

Definition isReplayMode : bool := bool_decide (is_Some (cfg_endLedger cfg)).

(** ** Dispatch *)

Definition normalized_type (t : option string) : option string :=
  match t with
  | Some "contract" => Some "contract.emitted"
  | Some "system" | Some "diagnostic" => Some "contract.invoked"
  | _ => t
  end.

Definition eventToEmit (e : SorobanEvent) : SorobanEvent :=
  {| so_id := so_id e; so_topic := so_topic e; so_value := so_value e;
     so_contractId := so_contractId e; so_type := normalized_type (so_type e);
     so_decodedData := if cfg_json cfg then so_value e else so_decodedData e;
     so_ledger := so_ledger e; so_ledgerClosedAt := so_ledgerClosedAt e; so_txHash := so_txHash e;
     so_inSuccessfulContractCall := so_inSuccessfulContractCall e;
     so_function := so_function e; so_args := so_args e; so_raw := so_raw e |}.

Definition default_handlers : list Handler := if cfg_onEvent cfg then [DefaultHandler] else [].

(** The handlers [dispatch] calls, one after the other. *)
Definition dispatch (subs : list SorobanSubscription) (e : SorobanEvent) : list Handler :=
  match subs with
  | [] => default_handlers
  | _ =>
      subs ≫= λ s,
        if eventMatchesSubscription (so_contractId e) s then
          if sub_onEvent s then [OwnHandler (sub_id s)] else default_handlers
        else []
  end.

(** ** Scheduling a retry *)

Definition scheduleRetry (delayMs : option Z) (s : Subscriber) : Subscriber :=
  if isStopped s then s
  else
    with_retry (reconnectAttempt s) (Some (nextTimer s))
      (timers s ++ [(nextTimer s, default (cfg_retryDelayMs cfg) delayMs)]) (S (nextTimer s)) s.

Definition finishReplay (s : Subscriber) : list Output * Subscriber :=
  if replayDone s then ([], s)
  else ([OnDone], with_position (startLedger s) (replayCursor s) true (stored s) s).

(** ** The delivery loop, up to its next await *)

Definition finish_page (page : list PageEvent) (next : option string) (s : Subscriber)
    : Poll * Subscriber :=
  match next with
  | None => (Settled true, with_polling false s)
  | Some c =>
      if isReplayMode then
        (Settled true,
         with_polling false (with_position (startLedger s) (Some c) (replayDone s) (stored s) s))
      else (WaitSave page c, s)
  end.

(** Call the next handler of an event, or wait for [dispatch] to return. *)
Definition call_handler (e : SorobanEvent) (hs : list Handler) : list Output * list Handler :=
  match hs with
  | [] => ([], [])
  | h :: hs' => ([Delivered h (eventToEmit e)], hs')
  end.

Fixpoint deliver (page : list PageEvent) (next : option string) (rest : list PageEvent)
    (s : Subscriber) : list Output * Poll * Subscriber :=
  match rest with
  | [] => let '(p, s') := finish_page page next s in ([], p, s')
  | e :: rest' =>
      if isStopped s then ([], Settled true, with_polling false s)
      else if match cfg_endLedger cfg, extractLedger (body e) with
              | Some end_, Some ledger => reaches ledger end_
              | _, _ => false
              end then
        let '(out, s') := finishReplay s in (out, Settled true, with_polling false s')
      else if bool_decide (so_id (body e) ∈ seen s) then
        let id := so_id (body e) in
        let '(out, p, s') :=
          deliver page next rest' (with_seen (touchSeen id (seen s)) (lastEventAt s) s) in
        (Suppressed id :: out, p, s')
      else
        let '(out, hs) := call_handler (body e) (dispatch (subscriptions s) (body e)) in
        (Dispatched (so_id (body e)) :: out,
         WaitHandler {| d_page := page; d_nextCursor := next; d_event := e; d_handlers := hs;
                        d_rest := rest' |}, s)
  end.

(** ** The page *)

(** [new Map] by id: a later copy replaces the value in place. *)
Definition unique_events (results : list Page) : list PageEvent :=
  mvals (foldl (λ m e, mset (so_id (body e)) e m) [] (results ≫= page_events)).

Fixpoint insert_event (le : string → string → bool) (e : PageEvent) (l : list PageEvent)
    : list PageEvent :=
  match l with
  | [] => [e]
  | x :: l' => if le (pagingToken x) (pagingToken e) then x :: insert_event le e l' else e :: l
  end.

(** A stable sort by [localeCompare] of the paging tokens. *)
Definition sort_events (le : string → string → bool) (l : list PageEvent) : list PageEvent :=
  foldl (λ acc e, insert_event le e acc) [] l.

Definition next_cursor (results : list Page) (events : list PageEvent) : option string :=
  match List.find (λ r, bool_decide (is_Some (page_cursor r))) results with
  | Some r => page_cursor r
  | None => pagingToken <$> last events
  end.

(** [a.localeCompare(b) <= 0]; the collation is the platform's. *)
Context (localeLe : string → string → bool).

Definition after_pages (calls : list (list ContractSubscriptionFilter)) (results : list Page)
    (s0 : Subscriber) : list Output * Poll * Subscriber :=
  let '(out0, s) :=
    if (0 <? reconnectAttempt s0)%Z then
      ([EngineReconnected (reconnectAttempt s0)],
       with_retry 0 (retryTimer s0) (timers s0) (nextTimer s0) s0)
    else ([], s0) in
  let unique := unique_events results in
  let events := if 1 <? length calls then sort_events localeLe unique else unique in
  if isReplayMode && bool_decide (events = []) then
    let '(out, s') := finishReplay s in (out0 ++ out, Settled true, s')
  else
    let '(out, p, s') := deliver events (next_cursor results events) events (with_polling true s) in
    (out0 ++ out, p, s').

(** ** When a fetch fails *)

Definition exceeds (attempt : Z) : bool :=
  match cfg_maxRetries cfg with Some n => (n <? attempt)%Z | None => false end.

(** The retryable and terminal branches; [random] is [Math.random()]. *)
Definition classify (random : Z) (cursor : option string) (e : SorobanRpcError) (s : Subscriber)
    : list Output * Poll * Subscriber :=
  if rpc_retryable e then
    let attempt := (reconnectAttempt s + 1)%Z in
    let s1 := with_retry attempt (retryTimer s) (timers s) (nextTimer s) s in
    if exceeds attempt then
      (OnRetryableError e :: (if cfg_onTerminalError cfg then [OnTerminalError e] else []),
       Settled true, s1)
    else if String.eqb (rpc_code e) "rate_limit" then
      let delayMs := default 60000%Z (rpc_retryAfterMs e) in
      ([OnRetryableError e; EngineRateLimited attempt delayMs], Settled true,
       scheduleRetry (Some delayMs) s1)
    else
      let delayMs :=
        fullJitterBackoffMs random attempt (cfg_initialDelayMs cfg) (cfg_maxDelayMs cfg) in
      ([OnRetryableError e; EngineReconnecting attempt delayMs cursor], Settled true,
       scheduleRetry (Some delayMs) s1)
  else if cfg_onTerminalError cfg then ([OnTerminalError e], Settled true, s)
  else ([], Settled false, s).

Definition cursor_expired (e : SorobanRpcError) : bool :=
  String.eqb (rpc_code e) "invalid_request" &&
  (str_includes (rpc_message e) "startCursor" || str_includes (rpc_message e) "oldest ledger").

Definition lost_cursor (cursor : option string) : string :=
  match cursor with None | Some "" => "unknown" | Some c => c end.

Definition fetch_failed (random : Z) (cursor : option string) (f : RpcFailure) (s : Subscriber)
    : list Output * Poll * Subscriber :=
  match f with
  | AbortFailure => ([], Settled true, s)
  | OtherFailure => ([], Settled false, s)
  | RpcFailed e =>
      if cursor_expired e then ([CursorExpired (lost_cursor cursor)], WaitFallback cursor e, s)
      else classify random cursor e s
  end.

(** The latest ledger of the fallback page is saved as a cursor. *)
Definition after_fallback (random : Z) (cursor : option string) (e : SorobanRpcError)
    (page : option Page) (s : Subscriber) : list Output * Poll * Subscriber :=
  match page ≫= page_latestLedger with
  | None => classify random cursor e s
  | Some ledger =>
      if isReplayMode then
        ([], Settled true,
         scheduleRetry None
           (with_position (startLedger s) (Some (pretty ledger)) (replayDone s) (stored s) s))
      else ([], WaitFallbackSave cursor e ledger, s)
  end.

(** ** Starting a poll *)

Definition after_cursor (cursor : option string) (calls : list (list ContractSubscriptionFilter))
    (s : Subscriber) : Poll :=
  match cursor, startLedger s with
  | None, None => if cfg_getLatestLedger cfg then WaitLedger cursor calls else WaitPages cursor calls
  | _, _ => WaitPages cursor calls
  end.

(** [pollOnce] up to its first await. *)
Definition pollOnce (s : Subscriber) : Poll :=
  if isStopped s then Settled true
  else if isReplayMode && replayDone s then Settled true
  else
    let calls := rpcCalls (subscriptions s) in
    if isReplayMode then after_cursor (replayCursor s) calls s else WaitCursor calls.

(** The parameters of one [getEvents] call: its cursor, or its first ledger. *)
Definition fetch_position (cursor : option string) (s : Subscriber) : option (string + Z) :=
  match cursor with
  | Some c => Some (inl c)
  | None => if cfg_getLatestLedger cfg then inr <$> startLedger s else None
  end.

(** ** What an await is answered with *)

Inductive Answer :=
  | CursorRead (ok : bool)
  | LedgerRead (random : Z) (r : Z + RpcFailure)
  | PagesRead (random : Z) (r : list Page + RpcFailure)
  | FallbackRead (random : Z) (page : option Page)
  | Saved (random : Z) (ok : bool)
  | HandlerReturned (now : Z) (ok : bool).

(** Resume a poll with the answer to its await; other answers do not occur. *)
Definition resume (a : Answer) (p : Poll) (s : Subscriber) : list Output * Poll * Subscriber :=
  match p, a with
  | WaitCursor calls, CursorRead true => ([], after_cursor (stored s) calls s, s)
  | WaitCursor _, CursorRead false => ([], Settled false, s)
  | WaitLedger cursor calls, LedgerRead _ (inl latest) =>
      let s' := with_position (Some (Z.max 0 (latest - cfg_startLedgerLookback cfg)))
                  (replayCursor s) (replayDone s) (stored s) s in
      ([], WaitPages cursor calls, s')
  | WaitLedger cursor _, LedgerRead random (inr f) => fetch_failed random cursor f s
  | WaitPages _ calls, PagesRead _ (inl results) => after_pages calls results s
  | WaitPages cursor _, PagesRead random (inr f) => fetch_failed random cursor f s
  | WaitFallback cursor e, FallbackRead random page => after_fallback random cursor e page s
  | WaitFallbackSave _ _ ledger, Saved _ true =>
      ([], Settled true,
       scheduleRetry None
         (with_position (startLedger s) (replayCursor s) (replayDone s) (Some (pretty ledger)) s))
  | WaitFallbackSave cursor e _, Saved random false => classify random cursor e s
  | WaitHandler d, HandlerReturned now true =>
      match d_handlers d with
      | h :: hs =>
          ([Delivered h (eventToEmit (body (d_event d)))],
           WaitHandler {| d_page := d_page d; d_nextCursor := d_nextCursor d;
                          d_event := d_event d; d_handlers := hs; d_rest := d_rest d |}, s)
      | [] =>
          let id := so_id (body (d_event d)) in
          let s1 := with_seen (recordSeen (cfg_dedupCacheSize cfg) id (seen s)) (Some now) s in
          let '(out, p', s2) := deliver (d_page d) (d_nextCursor d) (d_rest d) s1 in
          (Handled id :: out, p', s2)
      end
  | WaitHandler _, HandlerReturned _ false => ([], Settled false, with_polling false s)
  | WaitSave _ c, Saved _ true =>
      ([], Settled true,
       with_polling false
         (with_position (startLedger s) (replayCursor s) (replayDone s) (Some c) s))
  | WaitSave _ _, Saved _ false => ([], Settled false, with_polling false s)
  | _, _ => ([], p, s)
  end.

(** ** The system *)

Record System := {
  subscriber : Subscriber;
  polls : gmap nat Poll;
  log : list Output;
}.

Inductive Label :=
  | PollStart (i : nat)
  | Resume (i : nat) (a : Answer)
  | Start
  | Stop
  | TimerFires (t : nat)
  | Subscribe (subs : list SorobanSubscription).

(** [start]: the flags; its polls are [PollStart]s of the timer. *)
Definition start (s : Subscriber) : Subscriber :=
  if isRunning s then s else with_flags false true (isPolling s) s.

(** [stop]: the flags and the one timer it knows of. *)
Definition stop (s : Subscriber) : Subscriber :=
  let ts := match retryTimer s with
            | Some t => base.filter (λ p, p.1 ≠ t) (timers s)
            | None => timers s
            end in
  with_flags true false (isPolling s) (with_retry (reconnectAttempt s) None ts (nextTimer s) s).

(** The timeout's callback, up to the poll it chains. *)
Definition timer_fires (t : nat) (s : Subscriber) : Subscriber :=
  if bool_decide (t ∈ (timers s).*1) then
    with_retry (reconnectAttempt s) None (base.filter (λ p, p.1 ≠ t) (timers s)) (nextTimer s) s
  else s.

Definition with_subscriptions (subs : list SorobanSubscription) (s : Subscriber) : Subscriber :=
  {| isStopped := isStopped s; isRunning := isRunning s; isPolling := isPolling s;
     subscriptions := subs; seen := seen s; reconnectAttempt := reconnectAttempt s;
     retryTimer := retryTimer s; timers := timers s; nextTimer := nextTimer s;
     startLedger := startLedger s; replayCursor := replayCursor s; replayDone := replayDone s;
     lastEventAt := lastEventAt s; stored := stored s |}.

Definition over_subscriber (f : Subscriber → Subscriber) (y : System) : System :=
  {| subscriber := f (subscriber y); polls := polls y; log := log y |}.

Definition step (l : Label) (y : System) : System :=
  match l with
  | PollStart i =>
      match polls y !! i with
      | Some _ => y
      | None => {| subscriber := subscriber y; polls := <[i := pollOnce (subscriber y)]> (polls y);
                   log := log y |}
      end
  | Resume i a =>
      match polls y !! i with
      | Some p =>
          let '(out, p', s') := resume a p (subscriber y) in
          {| subscriber := s'; polls := <[i := p']> (polls y); log := log y ++ out |}
      | None => y
      end
  | Start => over_subscriber start y
  | Stop => over_subscriber stop y
  | TimerFires t => over_subscriber (timer_fires t) y
  | Subscribe subs => over_subscriber (with_subscriptions subs) y
  end.

Definition run (ls : list Label) (y : System) : System := foldl (λ y l, step l y) y ls.

(** A new subscriber over a store. *)
Definition fresh (store : option string) (first : option Z) : System :=
  {| subscriber :=
       {| isStopped := false; isRunning := false; isPolling := false; subscriptions := [];
          seen := []; reconnectAttempt := 0; retryTimer := None; timers := []; nextTimer := 0;
          startLedger := first; replayCursor := None; replayDone := false; lastEventAt := None;
          stored := store |};
     polls := ∅; log := [] |}.
End subscriber.

(** ** Steps and the subscriber's flags *)

Section facts.
Context (cfg : SubscriberConfig) (localeLe : string → string → bool).

Notation resume := (resume cfg localeLe).
Notation step := (step cfg localeLe).
Notation run := (run cfg localeLe).

(** The log only grows. *)
Lemma step_log l y : ∃ new, log (step l y) = log y ++ new.
Proof.
  destruct l; cbn; try (exists []; by rewrite app_nil_r).
  - destruct (polls y !! i); exists []; by rewrite app_nil_r.
  - destruct (polls y !! i) as [p|]; [|exists []; by rewrite app_nil_r].
    destruct (resume a p (subscriber y)) as [[out p'] s']. by exists out.
Qed.

Lemma run_snoc ls l y : run (ls ++ [l]) y = step l (run ls y).
Proof. unfold Soroban.run. by rewrite foldl_app. Qed.

Lemma run_cons l ls y : run (l :: ls) y = run ls (step l y).
Proof. done. Qed.

(** What the failing branches touch: neither the flags, nor the window, nor the
    store, and they dispatch nothing. *)
Definition quiet_output (o : Output) : bool :=
  match o with Dispatched _ | Delivered _ _ | Handled _ | Suppressed _ => false | _ => true end.

Definition same_window (s s' : Subscriber) : Prop :=
  isStopped s' = isStopped s ∧ seen s' = seen s ∧ stored s' = stored s.

Definition quiet_result (s : Subscriber) (r : list Output * Poll * Subscriber) : Prop :=
  forallb quiet_output r.1.1 = true ∧ same_window s r.2 ∧
  match r.1.2 with WaitHandler _ | WaitSave _ _ => False | _ => True end.

Lemma same_window_retry d s : same_window s (scheduleRetry cfg d s).
Proof. unfold scheduleRetry, same_window. by destruct (isStopped s) eqn:E; cbn; rewrite ?E. Qed.

Lemma classify_quiet random c e s : quiet_result s (classify cfg random c e s).
Proof.
  assert (∀ d a, same_window s (scheduleRetry cfg d
    (with_retry a (retryTimer s) (timers s) (nextTimer s) s))) as Hs
    by (intros d a; apply (same_window_retry d (with_retry a _ _ _ s))).
  unfold classify, quiet_result.
  repeat case_match; (split; [done|]; split; [done || apply Hs|done]).
Qed.

Lemma fetch_failed_quiet random c f s : quiet_result s (fetch_failed cfg random c f s).
Proof.
  unfold fetch_failed. destruct f as [|e|]; [done| |done].
  destruct (cursor_expired e); [done|apply classify_quiet].
Qed.

Lemma after_fallback_quiet random c e page s :
  quiet_result s (after_fallback cfg random c e page s).
Proof.
  unfold after_fallback. destruct (page ≫= page_latestLedger) as [n|]; [|apply classify_quiet].
  destruct (isReplayMode cfg); [|done]. split; [done|]. split; [|done].
  apply (same_window_retry None (with_position _ _ _ _ s)).
Qed.

(** The events of a page are those of the results, once per id. *)
Definition ids (l : list PageEvent) : list string := (λ e, so_id (body e)) <$> l.

Definition page_of (results : list Page) (page : list PageEvent) : Prop :=
  ∀ id, id ∈ ids page ↔ id ∈ ids (results ≫= page_events).

Lemma insert_event_perm le e l : insert_event le e l ≡ₚ e :: l.
Proof.
  induction l as [|x l IH]; cbn; [done|]. case_match; [|done].
  rewrite IH. by rewrite Permutation_swap.
Qed.

Lemma sort_events_perm le l : sort_events le l ≡ₚ l.
Proof.
  unfold sort_events. change l with ([] ++ l) at 2. generalize (@nil PageEvent).
  induction l as [|e l IH]; intros acc; cbn [foldl]; [by rewrite app_nil_r|].
  rewrite IH, insert_event_perm. by rewrite <-Permutation_middle.
Qed.

(** The map of the unique events is keyed by their ids. *)
Lemma ids_mset (e : PageEvent) m :
  ids (mvals m) = mkeys m → ids (mvals (mset (so_id (body e)) e m)) = mkeys (mset (so_id (body e)) e m).
Proof.
  unfold ids, mvals, mkeys. induction m as [|[k x] m IH]; cbn [mset fmap list_fmap]; [done|].
  intros [= H1 H2]. case_decide as Hk; cbn [fmap list_fmap fst snd]; [by f_equal|].
  f_equal; [done|]. by apply IH.
Qed.

Lemma elem_of_mkeys_mset (k id : string) (e : PageEvent) m :
  id ∈ mkeys (mset k e m) ↔ id = k ∨ id ∈ mkeys m.
Proof.
  destruct (decide (k ∈ mkeys m)) as [Hk|Hk].
  - rewrite mkeys_mset_present by done. split; [by right|by intros [->|]].
  - rewrite mkeys_mset_fresh by done. rewrite elem_of_app, list_elem_of_singleton. tauto.
Qed.

Lemma unique_events_page results : page_of results (unique_events results).
Proof.
  unfold page_of, unique_events. generalize (results ≫= page_events) as l. intros l id.
  assert (∀ m : jsmap string PageEvent, ids (mvals m) = mkeys m →
    let m' := foldl (λ m e, mset (so_id (body e)) e m) m l in
    ids (mvals m') = mkeys m' ∧ (id ∈ mkeys m' ↔ id ∈ mkeys m ∨ id ∈ ids l)) as Hl.
  { induction l as [|e l IH]; intros m Hm m'; subst m'; cbn [foldl].
    - split; [done|]. cbn. rewrite elem_of_nil. tauto.
    - destruct (IH _ (ids_mset e m Hm)) as [H1 H2]. split; [done|].
      rewrite H2, elem_of_mkeys_mset. cbn [ids fmap list_fmap]. rewrite elem_of_cons. tauto. }
  destruct (Hl [] eq_refl) as [H1 H2]. rewrite H1, H2. cbn. rewrite elem_of_nil. tauto.
Qed.

Lemma page_of_events (sorted : bool) le results :
  page_of results (if sorted then sort_events le (unique_events results) else unique_events results).
Proof.
  destruct sorted; [|apply unique_events_page].
  intros id. rewrite <-(unique_events_page results id). unfold ids.
  by rewrite (sort_events_perm le (unique_events results)).
Qed.

(** The kinds of resumption. *)
Inductive resumption (p : Poll) (a : Answer) (s : Subscriber)
    : list Output → Poll → Subscriber → Prop :=
  | ResumeQuiet out p' s' :
      forallb quiet_output out = true → same_window s s' →
      match p' with WaitHandler _ | WaitSave _ _ => p' = p ∧ s' = s | _ => True end →
      resumption p a s out p' s'
  | ResumePage out0 c calls random results page out p' s1 s' :
      p = WaitPages c calls → a = PagesRead random (inl results) → page_of results page →
      forallb quiet_output out0 = true → same_window s s1 →
      deliver cfg page (next_cursor results page) page s1 = (out, p', s') →
      resumption p a s (out0 ++ out) p' s'
  | ResumeHandler d h hs :
      p = WaitHandler d → d_handlers d = h :: hs →
      resumption p a s [Delivered h (eventToEmit cfg (body (d_event d)))]
        (WaitHandler {| d_page := d_page d; d_nextCursor := d_nextCursor d;
                        d_event := d_event d; d_handlers := hs; d_rest := d_rest d |}) s
  | ResumeHandled d now out p' s' :
      p = WaitHandler d → d_handlers d = [] →
      deliver cfg (d_page d) (d_nextCursor d) (d_rest d)
        (with_seen (recordSeen (cfg_dedupCacheSize cfg) (so_id (body (d_event d))) (seen s))
           (Some now) s) = (out, p', s') →
      resumption p a s (Handled (so_id (body (d_event d))) :: out) p' s'
  | ResumeSaved page c s' :
      p = WaitSave page c → isStopped s' = isStopped s → seen s' = seen s → stored s' = Some c →
      resumption p a s [] (Settled true) s'
  | ResumeFallbackSaved c e ledger s' :
      p = WaitFallbackSave c e ledger → isStopped s' = isStopped s → seen s' = seen s →
      stored s' = Some (pretty ledger) →
      resumption p a s [] (Settled true) s'.

Lemma quiet_resumption p a s r :
  quiet_result s r → resumption p a s r.1.1 r.1.2 r.2.
Proof. intros (H1 & H2 & H3). apply ResumeQuiet; [done..|]. by destruct r.1.2. Qed.

Lemma finishReplay_quiet s :
  forallb quiet_output (finishReplay s).1 = true ∧ same_window s (finishReplay s).2.
Proof. unfold finishReplay. by destruct (replayDone s). Qed.

Lemma after_pages_cases c calls random results s :
  resumption (WaitPages c calls) (PagesRead random (inl results)) s (after_pages cfg localeLe calls results s).1.1
    (after_pages cfg localeLe calls results s).1.2 (after_pages cfg localeLe calls results s).2.
Proof.
  unfold after_pages.
  set (r0 := if (0 <? reconnectAttempt s)%Z then _ else _).
  assert (forallb quiet_output r0.1 = true ∧ same_window s r0.2) as [H1 H2]
    by (subst r0; by destruct (0 <? reconnectAttempt s)%Z).
  destruct r0 as [out0 s0]. cbn in H1, H2. set (events := if 1 <? length calls then _ else _).
  destruct (isReplayMode cfg && bool_decide (events = [])).
  - destruct (finishReplay_quiet s0) as [H3 H4]. destruct (finishReplay s0) as [out s']. cbn in *.
    apply ResumeQuiet; [by rewrite forallb_app, H1, H3| |done].
    destruct H2 as (? & ? & ?), H4 as (? & ? & ?). split_and!; congruence.
  - destruct (deliver cfg events _ events (with_polling true s0)) as [[out p'] s'] eqn:E. cbn.
    by eapply ResumePage; [done|done|apply (page_of_events (1 <? length calls) localeLe)|done| |exact E].
Qed.

Lemma resume_cases p a s :
  resumption p a s (resume a p s).1.1 (resume a p s).1.2 (resume a p s).2.
Proof.
  assert (resumption p a s [] p s) as Hsame
    by (apply ResumeQuiet; [done|done|by destruct p]).
  destruct p as [calls|c calls|c calls|c e|c e n|d|page c|ok];
    destruct a as [ok'|random [latest|f]|random [results|f]|random pg|random [|]|now [|]];
    cbn [Soroban.resume]; try exact Hsame;
    try (apply quiet_resumption; (apply fetch_failed_quiet || apply after_fallback_quiet
                                  || apply classify_quiet)).
  - destruct ok'; apply ResumeQuiet; try done. unfold after_cursor. by repeat case_match.
  - by apply ResumeQuiet.
  - apply after_pages_cases.
  - eapply ResumeFallbackSaved; [done|..];
      unfold scheduleRetry; cbn; by destruct (isStopped s) eqn:E; cbn.
  - destruct (d_handlers d) as [|h hs] eqn:Eh.
    + destruct (deliver cfg _ _ _ _) as [[out p'] s'] eqn:E. cbn. by eapply ResumeHandled.
    + by eapply ResumeHandler.
  - by apply ResumeQuiet.
  - by eapply ResumeSaved.
  - by apply ResumeQuiet.
Qed.

(** ** The window *)

(** The ids the window was touched with. *)
Definition touched (o : Output) : list string :=
  match o with Handled id | Suppressed id => [id] | _ => [] end.

Definition touches (out : list Output) : list string := out ≫= touched.

(** The window after [out], if every dispatch started outside of it and every
    repeat was passed over inside of it. *)
Fixpoint scan (cap : Z) (w : list string) (out : list Output) : option (list string) :=
  match out with
  | [] => Some w
  | Dispatched id :: out' => if bool_decide (id ∈ w) then None else scan cap w out'
  | Handled id :: out' => scan cap (recordSeen cap id w) out'
  | Suppressed id :: out' => if bool_decide (id ∈ w) then scan cap (touch id w) out' else None
  | _ :: out' => scan cap w out'
  end.

Lemma scan_app cap w out out' : scan cap w (out ++ out') = scan cap w out ≫= λ w', scan cap w' out'.
Proof.
  revert w. induction out as [|o out IH]; intros w; [done|].
  destruct o; cbn [app scan]; try apply IH; case_bool_decide; done || apply IH.
Qed.

Lemma scan_quiet cap w out : forallb quiet_output out = true → scan cap w out = Some w.
Proof. induction out as [|o out IH]; [done|]. destruct o; cbn; done || apply IH. Qed.

Lemma deliver_scan page next rest s :
  let r := deliver cfg page next rest s in
  scan (cfg_dedupCacheSize cfg) (seen s) r.1.1 = Some (seen r.2).
Proof.
  revert s. induction rest as [|e rest IH]; intros s r; subst r; cbn [deliver].
  - unfold finish_page. repeat case_match; by simplify_eq.
  - destruct (isStopped s); [done|]. case_match.
    + destruct (finishReplay_quiet s) as [H1 (_ & H2 & _)].
      destruct (finishReplay s) as [out s']. cbn in *. rewrite scan_quiet by done. by rewrite H2.
    + case_bool_decide as Hs.
      * specialize (IH (with_seen (touchSeen (so_id (body e)) (seen s)) (lastEventAt s) s)).
        destruct (deliver _ _ _ _ _) as [[out p'] s']. cbn in *. unfold touchSeen in IH.
        rewrite bool_decide_true in IH by done. by rewrite bool_decide_true.
      * destruct (dispatch cfg _ (body e)); cbn; by rewrite bool_decide_false.
Qed.

Lemma resume_scan p a s :
  scan (cfg_dedupCacheSize cfg) (seen s) (resume a p s).1.1 = Some (seen (resume a p s).2).
Proof.
  destruct (resume_cases p a s) as
    [out p' s' H1 (_ & H2 & _) _|out0 c calls rnd rs page out p' s1 s' _ _ _ H1 (_ & H2 & _) H3
    |d h hs _ _|d now out p' s' _ _ H|page c s' _ _ H _|c e n s' _ _ H _].
  - rewrite scan_quiet by done. by rewrite H2.
  - rewrite scan_app, scan_quiet by done. cbn. rewrite <-H2.
    pose proof (deliver_scan page (next_cursor rs page) page s1) as Hd. by rewrite H3 in Hd.
  - done.
  - cbn [scan].
    pose proof (deliver_scan (d_page d) (d_nextCursor d) (d_rest d)
      (with_seen (recordSeen (cfg_dedupCacheSize cfg) (so_id (body (d_event d))) (seen s))
         (Some now) s)) as Hd. by rewrite H in Hd.
  - cbn. by rewrite H.
  - cbn. by rewrite H.
Qed.

(** Induction over a run: what holds of a new subscriber and is kept by every
    step holds throughout. *)
Lemma step_window l y w :
  scan (cfg_dedupCacheSize cfg) w (log y) = Some (seen (subscriber y)) →
  scan (cfg_dedupCacheSize cfg) w (log (step l y)) = Some (seen (subscriber (step l y))).
Proof.
  intros H. destruct l as [i|i a| | |t|subs]; cbn.
  - by destruct (polls y !! i).
  - destruct (polls y !! i) as [p|]; [|done].
    pose proof (resume_scan p a (subscriber y)) as Hr.
    destruct (resume a p (subscriber y)) as [[out p'] s']. cbn in *.
    by rewrite scan_app, H.
  - unfold start. by case_match.
  - done.
  - unfold timer_fires. by case_match.
  - done.
Qed.

Lemma run_window store first ls :
  let y := run ls (fresh store first) in
  scan (cfg_dedupCacheSize cfg) [] (log y) = Some (seen (subscriber y)).
Proof.
  induction ls as [|l ls IH] using rev_ind; [done|].
  rewrite run_snoc. by apply step_window.
Qed.

(** [id] is in the window with only ids touched since behind it, or enough other
    ids were touched to push it out. *)
Definition kept (cap : Z) (id : string) (ts w : list string) : Prop :=
  NoDup w ∧
  ((∃ l1 l2, w = l1 ++ id :: l2 ∧ ∀ x, x ∈ l2 → x ∈ ts)
   ∨ (cap ≤ Z.of_nat (size (list_to_set ts ∖ {[id]} : gset string)))%Z).

Lemma elem_of_touch x id w : x ∈ touch id w ↔ x = id ∨ x ∈ w.
Proof.
  unfold touch. rewrite elem_of_app, list_elem_of_filter, list_elem_of_singleton.
  destruct (decide (x = id)); tauto.
Qed.

Lemma elem_of_recordSeen cap x id w : x ∈ recordSeen cap id w → x = id ∨ x ∈ w.
Proof.
  intros Hx. apply elem_of_touch. unfold recordSeen in Hx.
  rewrite <-(take_drop (Z.to_nat (Z.of_nat (length (touch id w)) - cap)) (touch id w)).
  apply elem_of_app. by right.
Qed.

Lemma touch_NoDup id w : NoDup w → NoDup (touch id w).
Proof.
  intros Hw. unfold touch. apply NoDup_app. split_and!.
  - by apply NoDup_filter.
  - intros x Hx%list_elem_of_filter. rewrite list_elem_of_singleton. tauto.
  - apply NoDup_singleton.
Qed.

Lemma kept_grow cap id ts ts' w : kept cap id ts w → kept cap id (ts ++ ts') w.
Proof.
  intros [Hw [(l1 & l2 & -> & H)|H]]; (split; [done|]).
  - left. exists l1, l2. split; [done|]. intros x Hx. apply elem_of_app. left. by apply H.
  - right. etrans; [exact H|]. apply inj_le, subseteq_size. set_solver.
Qed.

Lemma kept_touch_self cap id ts w : NoDup w → kept cap id ts (touch id w).
Proof.
  intros Hw. split; [by apply touch_NoDup|]. left.
  exists (base.filter (λ x, x ≠ id) w), []. split; [done|]. intros x []%elem_of_nil.
Qed.

Lemma kept_touch cap id x ts w : kept cap id ts w → kept cap id (ts ++ [x]) (touch x w).
Proof.
  intros Hk. destruct (decide (x = id)) as [->|Hx]; [apply kept_touch_self, Hk|].
  apply (kept_grow _ _ _ [x]) in Hk as [Hw [(l1 & l2 & -> & H)|H]];
    (split; [by apply touch_NoDup|]); [left|by right].
  exists (base.filter (λ y, y ≠ x) l1), (base.filter (λ y, y ≠ x) l2 ++ [x]). split.
  - unfold touch. rewrite filter_app, filter_cons_True by done. by rewrite <-app_assoc.
  - intros y [[_ Hy]%list_elem_of_filter| ->%list_elem_of_singleton]%elem_of_app; [by apply H|].
    apply elem_of_app. right. by apply list_elem_of_singleton.
Qed.

Lemma kept_drop cap id ts w :
  kept cap id ts w → kept cap id ts (drop (Z.to_nat (Z.of_nat (length w) - cap)) w).
Proof.
  intros [Hw [(l1 & l2 & -> & H)|H]];
    (split; [eapply sublist_NoDup; [exact Hw|apply sublist_drop]|]); [|by right].
  set (k := Z.to_nat _). destruct (decide (k ≤ length l1)) as [Hk|Hk].
  - left. exists (drop k l1), l2. by rewrite drop_app_le.
  - right. apply NoDup_app in Hw as (_ & _ & [Hid Hl2]%NoDup_cons).
    assert (cap ≤ Z.of_nat (length l2))%Z as Hl by (subst k; rewrite length_app in Hk; cbn in Hk; lia).
    etrans; [exact Hl|]. rewrite <-(size_list_to_set (C:=gset string) l2 Hl2).
    apply inj_le, subseteq_size. intros x Hx%elem_of_list_to_set. set_solver.
Qed.

Lemma scan_NoDup cap w out w' : NoDup w → scan cap w out = Some w' → NoDup w'.
Proof.
  revert w. induction out as [|o out IH]; intros w Hw; [by intros [= <-]|].
  destruct o; cbn; try (by apply IH); try case_bool_decide; try done; apply IH; try done.
  - eapply sublist_NoDup; [by apply touch_NoDup|apply sublist_drop].
  - by apply touch_NoDup.
Qed.

Lemma scan_kept cap id ts w out w' :
  scan cap w out = Some w' → kept cap id ts w → kept cap id (ts ++ touches out) w'.
Proof.
  revert ts w. induction out as [|o out IH]; intros ts w H Hk.
  { cbn in *. simplify_eq. by apply kept_grow. }
  destruct o; cbn in H; try (by apply (IH _ _ H)); try case_bool_decide; try done; try (by apply (IH _ _ H)).
  - change (touches (Handled id0 :: out)) with ([id0] ++ touches out). rewrite (assoc_L (++)).
    apply (IH _ _ H). by apply kept_drop, kept_touch.
  - change (touches (Suppressed id0 :: out)) with ([id0] ++ touches out). rewrite (assoc_L (++)).
    apply (IH _ _ H). by apply kept_touch.
Qed.

(** C3: However polls, stops and timers interleave, an event that was handled is
    not dispatched again before as many other ids as the window holds have been
    handled or passed over since. *)
Theorem redelivery_needs_eviction store first ls l1 id l2 l3 :
  log (run ls (fresh store first)) = l1 ++ Handled id :: l2 ++ Dispatched id :: l3 →
  (cfg_dedupCacheSize cfg
   ≤ Z.of_nat (size (list_to_set (touches l2) ∖ {[id]} : gset string)))%Z.
Proof.
  intros H. pose proof (run_window store first ls) as Hs. cbn in Hs. rewrite H in Hs.
  rewrite scan_app in Hs. destruct (scan _ [] l1) as [w|] eqn:E1; [|done]. cbn in Hs.
  rewrite scan_app in Hs. destruct (scan _ _ l2) as [w'|] eqn:E2; [|done]. cbn in Hs.
  case_bool_decide as Hin; [done|].
  apply (scan_kept _ id []) in E2 as [_ [(? & ? & -> & _)|?]]; [set_solver|done|].
  apply kept_drop, kept_touch_self. eapply scan_NoDup; [|exact E1]. by apply NoDup_nil.
Qed.

(** ** Stopping *)

(** What a dispatch in progress still gives. *)
Definition continues (d d0 : Delivery) : Prop :=
  d_event d = d_event d0 ∧ ∀ h, h ∈ d_handlers d → h ∈ d_handlers d0.

(** An output after a stop: no dispatch starts, and a handler is only called for
    a dispatch in progress at the stop. *)
Definition after_stop (ps : gmap nat Poll) (o : Output) : Prop :=
  match o with
  | Dispatched _ | Suppressed _ => False
  | Delivered h e =>
      ∃ i d, ps !! i = Some (WaitHandler d) ∧ h ∈ d_handlers d ∧ e = eventToEmit cfg (body (d_event d))
  | _ => True
  end.

Lemma quiet_after_stop ps out : forallb quiet_output out = true → Forall (after_stop ps) out.
Proof.
  intros H. apply Forall_forall. intros o Ho. rewrite forallb_forall in H.
  apply list_elem_of_In, H in Ho. by destruct o.
Qed.

Lemma deliver_stopped page next rest s :
  isStopped s = true →
  let r := deliver cfg page next rest s in
  r.1.1 = [] ∧ isStopped r.2 = true ∧ (∀ d, r.1.2 ≠ WaitHandler d).
Proof.
  intros Hs r. subst r. destruct rest as [|e rest]; cbn [deliver].
  - unfold finish_page. by destruct next; [destruct (isReplayMode cfg)|].
  - by rewrite Hs.
Qed.

Lemma resume_stopped ps i p a s :
  isStopped s = true → (∀ d, p = WaitHandler d → ∃ d0, ps !! i = Some (WaitHandler d0) ∧ continues d d0) →
  let r := resume a p s in
  Forall (after_stop ps) r.1.1 ∧ isStopped r.2 = true ∧
  (∀ d, r.1.2 = WaitHandler d → ∃ d0, ps !! i = Some (WaitHandler d0) ∧ continues d d0).
Proof.
  intros Hs Hp r. subst r.
  destruct (resume_cases p a s) as
    [out p' s' H1 (H2 & _) H3|out0 c calls rnd rs page out p' s1 s' _ _ _ H1 (H2 & _) H3
    |d h hs Ep Eh|d now out p' s' Ep Eh H|page c s' _ H _ _|c e n s' _ H _ _].
  - split_and!; [by apply quiet_after_stop|congruence|].
    intros d ->. destruct H3 as [<- _]. by apply Hp.
  - destruct (deliver_stopped page (next_cursor rs page) page s1) as (Ho & Hst & Hd); [congruence|].
    rewrite H3 in *. cbn in *. subst out. rewrite app_nil_r.
    split_and!; [by apply quiet_after_stop|done|]. intros d ->. by destruct (Hd d).
  - destruct (Hp d Ep) as (d0 & Hd0 & He & Hh). rewrite Eh in Hh. split_and!; [|done|].
    + apply Forall_singleton. exists i, d0. rewrite He. split_and!; [done|apply Hh; left|done].
    + intros ? [= <-]. exists d0. split; [done|]. split; [done|]. cbn. intros h' Hh'.
      apply Hh. by right.
  - edestruct (deliver_stopped (d_page d) (d_nextCursor d) (d_rest d)) as (Ho & Hst & Hd);
      [|rewrite H in *; cbn in *; subst out].
    + exact Hs.
    + split_and!; [by apply Forall_singleton|done|]. intros d' ->. by destruct (Hd d').
  - split_and!; [done|congruence|done].
  - split_and!; [done|congruence|done].
Qed.

(** What has happened in a run since [y] was stopped. *)
Definition silent_since (y y' : System) : Prop :=
  isStopped (subscriber y') = true ∧
  (∀ i d, polls y' !! i = Some (WaitHandler d) →
    ∃ d0, polls y !! i = Some (WaitHandler d0) ∧ continues d d0) ∧
  ∃ new, log y' = log y ++ new ∧ Forall (after_stop (polls y)) new.

Lemma step_silent y y' l : l ≠ Start → silent_since y y' → silent_since y (step l y').
Proof.
  intros Hl (Hs & Hp & new & Hn & Ho). destruct l as [i|i a| | |t|subs]; cbn.
  - destruct (polls y' !! i) eqn:Ei; [by split_and!; eauto|].
    split_and!; cbn; [done| |by eauto]. intros j d. rewrite lookup_insert_Some.
    intros [[<- H]|[_ H]]; [|by apply Hp]. unfold pollOnce in H. by rewrite Hs in H.
  - destruct (polls y' !! i) as [p|] eqn:Ei; [|by split_and!; eauto].
    destruct (resume_stopped (polls y) i p a (subscriber y') Hs) as (H1 & H2 & H3).
    { intros d ->. by apply Hp. }
    destruct (resume a p (subscriber y')) as [[out p'] s']. cbn in *. split_and!; cbn; [done| |].
    + intros j d. rewrite lookup_insert_Some. intros [[<- H]|[_ H]]; [by apply H3|by apply Hp].
    + exists (new ++ out). rewrite Hn, <-(assoc_L (++)). split; [done|]. by apply Forall_app.
  - done.
  - by split_and!; eauto.
  - unfold silent_since, over_subscriber, timer_fires. cbn. case_bool_decide; by split_and!; eauto.
  - by split_and!; eauto.
Qed.

(** After [stop], and until [start] is called again, no dispatch starts and no
    event is passed over: whatever the awaits are answered, the only handlers
    called are those left of a dispatch in progress at the stop. *)
Theorem stop_silences y ls :
  Forall (λ l, l ≠ Start) ls →
  ∃ new, log (run ls (step Stop y)) = log y ++ new ∧ Forall (after_stop (polls y)) new.
Proof.
  intros Hls. assert (silent_since y (run ls (step Stop y))) as (_ & _ & H); [|exact H].
  assert (silent_since y (step Stop y)) as H0.
  { split_and!; [done| |exists []; by rewrite app_nil_r].
    intros i d Hd. exists d. by split; [|split]. }
  revert H0. generalize (step Stop y) as y'. clear -Hls.
  induction Hls as [|l ls Hl _ IH]; intros y' Hy'; [done|]. rewrite run_cons. by apply IH, step_silent.
Qed.

(** ** The saved cursor *)

(** The ids whose dispatch has completed. *)
Definition handled (out : list Output) (id : string) : Prop := Handled id ∈ out.

(** The poll [i] was answered with pages that give these events and this cursor. *)
Definition fetched (ls : list Label) (i : nat) (page : list PageEvent) (next : option string) : Prop :=
  ∃ random results, Resume i (PagesRead random (inl results)) ∈ ls ∧ page_of results page ∧
    next_cursor results page = next.

(** Where a poll stands: every event before the one being dispatched is handled. *)
Definition progress (ls : list Label) (out : list Output) (i : nat) (p : Poll) : Prop :=
  match p with
  | WaitHandler d =>
      fetched ls i (d_page d) (d_nextCursor d) ∧
      ∃ pre, d_page d = pre ++ d_event d :: d_rest d ∧ Forall (handled out) (ids pre)
  | WaitSave page c => fetched ls i page (Some c) ∧ Forall (handled out) (ids page)
  | _ => True
  end.

Lemma progress_mono ls ls' out out' i p :
  progress ls out i p → progress (ls ++ ls') (out ++ out') i p.
Proof.
  assert (∀ l, Forall (handled out) l → Forall (handled (out ++ out')) l) as Ho.
  { intros l Hl. eapply Forall_impl; [exact Hl|]. intros x Hx. apply elem_of_app. by left. }
  assert (∀ page c, fetched ls i page c → fetched (ls ++ ls') i page c) as Hf.
  { intros page c (r & rs & H & H'). exists r, rs. split; [|done]. apply elem_of_app. by left. }
  destruct p; try done.
  - intros [H1 (pre & H2 & H3)]. split; [by apply Hf|]. exists pre. by split; [|apply Ho].
  - intros [H1 H2]. split; [by apply Hf|by apply Ho].
Qed.

(** The delivery loop: what it passes over was handled before. *)
Lemma deliver_progress ls out i page next pre rest s :
  fetched ls i page next → page = pre ++ rest → Forall (handled out) (ids pre) →
  Forall (handled out) (seen s) →
  let r := deliver cfg page next rest s in
  progress ls out i r.1.2 ∧ Forall (handled out) (seen r.2) ∧ stored r.2 = stored s.
Proof.
  intros Hf. revert pre s. induction rest as [|e rest IH];
    intros pre s Hpage Hpre Hseen r; subst r; cbn [deliver].
  - rewrite app_nil_r in Hpage. subst pre. unfold finish_page.
    by destruct next; [destruct (isReplayMode cfg)|].
  - destruct (isStopped s); [done|]. case_match.
    { destruct (finishReplay_quiet s) as [_ (_ & H2 & H3)].
      destruct (finishReplay s) as [o s']. cbn in *. by rewrite H2, H3. }
    case_bool_decide as Hs.
    + specialize (IH (pre ++ [e]) (with_seen (touchSeen (so_id (body e)) (seen s)) (lastEventAt s) s)).
      destruct IH as (H1 & H2 & H3).
      * by rewrite <-(assoc_L (++)).
      * unfold ids. rewrite fmap_app. apply Forall_app. split; [done|]. apply Forall_singleton.
        by apply (Forall_forall (handled out) (seen s)).
      * cbn. unfold touchSeen. rewrite bool_decide_true by done. apply Forall_forall.
        intros x [->|Hx]%elem_of_touch; by apply (Forall_forall (handled out) (seen s)).
      * by destruct (deliver cfg _ _ rest _) as [[o p'] s'].
    + destruct (dispatch cfg _ (body e)); cbn; (split_and!; [done| |done|done]); by exists pre.
Qed.

Lemma resume_progress ls out i p a s :
  progress ls out i p → Forall (handled out) (seen s) →
  let r := resume a p s in
  let ls' := ls ++ [Resume i a] in
  progress ls' (out ++ r.1.1) i r.1.2 ∧ Forall (handled (out ++ r.1.1)) (seen r.2) ∧
  (stored r.2 = stored s
   ∨ (∃ page c, p = WaitSave page c ∧ stored r.2 = Some c)
   ∨ (∃ c e n, p = WaitFallbackSave c e n ∧ stored r.2 = Some (pretty n))).
Proof.
  intros Hp Hs r ls'. subst r ls'.
  assert (∀ new id, Forall (handled out) id → Forall (handled (out ++ new)) id) as Hgrow.
  { intros new l Hl. eapply Forall_impl; [exact Hl|]. intros x Hx. apply elem_of_app. by left. }
  destruct (resume_cases p a s) as
    [out' p' s' H1 (_ & H2 & H2') H3|out0 c calls rnd rs page out' p' s1 s' Ep Ea Hpg H1 (_ & H2 & H2') H3
    |d h hs Ep Eh|d now out' p' s' Ep Eh H|page c s' Ep _ H Hst|c e n s' Ep _ H Hst].
  - split_and!; [|by rewrite H2; apply Hgrow|by left].
    destruct p'; try done; destruct H3 as [<- _]; by apply progress_mono.
  - pose proof (deliver_progress (ls ++ [Resume i a]) out i page (next_cursor rs page) [] page s1)
      as Hd. rewrite H3 in Hd. cbn in Hd. destruct Hd as (Hd1 & Hd2 & Hd3);
      [|done|by apply Forall_nil|by rewrite H2|].
    { exists rnd, rs. rewrite Ea. split; [apply elem_of_app; right; by left|done]. }
    split_and!; [|by apply Hgrow|left; congruence].
    rewrite <-(app_nil_r (ls ++ _)). by apply progress_mono.
  - subst p. destruct Hp as [Hf (pre & Hpre & Hh)]. split_and!; [|by apply Hgrow|by left].
    destruct (progress_mono ls [Resume i a] out [Delivered h (eventToEmit cfg (body (d_event d)))] i
      (WaitHandler d)) as [H1 H2]; [by split; eauto|]. by split.
  - subst p. destruct Hp as [Hf (pre & Hpre & Hh)].
    set (id := so_id (body (d_event d))) in *.
    pose proof (deliver_progress (ls ++ [Resume i a]) (out ++ [Handled id]) i (d_page d)
      (d_nextCursor d) (pre ++ [d_event d]) (d_rest d)
      (with_seen (recordSeen (cfg_dedupCacheSize cfg) id (seen s)) (Some now) s)) as Hd.
    rewrite H in Hd. cbn in Hd. destruct Hd as (Hd1 & Hd2 & Hd3).
    + destruct Hf as (r & rs & Hin & Hr). exists r, rs. split; [|done]. apply elem_of_app. by left.
    + by rewrite Hpre, <-(assoc_L (++)).
    + unfold ids. rewrite fmap_app. apply Forall_app. split; [by apply Hgrow|].
      apply Forall_singleton, elem_of_app. right. by left.
    + apply Forall_forall. intros x Hx. unfold recordSeen in Hx.
      apply elem_of_app. apply elem_of_recordSeen in Hx as [->|Hx]; [right; by left|left].
      by apply (Forall_forall (handled out) (seen s)).
    + split_and!; [| |by left].
      * change (out ++ Handled id :: out') with (out ++ [Handled id] ++ out').
        rewrite (assoc_L (++)), <-(app_nil_r (ls ++ _)). by apply progress_mono.
      * change (out ++ Handled id :: out') with (out ++ [Handled id] ++ out').
        rewrite (assoc_L (++)). eapply Forall_impl; [exact Hd2|]. intros x Hx.
        apply elem_of_app. by left.
  - split_and!; [done|by rewrite H; apply Hgrow|]. right; left. by exists page, c.
  - split_and!; [done|by rewrite H; apply Hgrow|]. right; right. by exists c, e, n.
Qed.

(** Every poll of a run is at a place the run brought it to. *)
Definition tracked (ls : list Label) (y : System) : Prop :=
  Forall (handled (log y)) (seen (subscriber y)) ∧
  ∀ i p, polls y !! i = Some p → progress ls (log y) i p.

Lemma step_tracked ls l y : tracked ls y → tracked (ls ++ [l]) (step l y).
Proof.
  intros [Hs Hp].
  assert (∀ i p, polls y !! i = Some p → progress (ls ++ [l]) (log y) i p) as Hp'.
  { intros i p Hi. rewrite <-(app_nil_r (log y)). by apply progress_mono, Hp. }
  destruct l as [i|i a| | |t|subs]; cbn.
  - destruct (polls y !! i); [done|]. split; [done|]. cbn. intros j p.
    rewrite lookup_insert_Some. intros [[<- <-]|[_ H]]; [|by apply Hp'].
    unfold pollOnce, after_cursor. by repeat case_match.
  - destruct (polls y !! i) as [p|] eqn:Ei; [|done].
    destruct (resume_progress ls (log y) i p a (subscriber y) (Hp i p Ei) Hs) as (H1 & H2 & _).
    destruct (resume a p (subscriber y)) as [[out p'] s']. cbn in *. split; [done|]. cbn.
    intros j q. rewrite lookup_insert_Some. intros [[<- <-]|[_ H]]; [done|].
    by apply progress_mono, Hp.
  - unfold over_subscriber, start. split; [by destruct (isRunning (subscriber y))|done].
  - done.
  - unfold over_subscriber, timer_fires. split; [cbn; by case_bool_decide|done].
  - done.
Qed.

Lemma run_tracked store first ls : tracked ls (run ls (fresh store first)).
Proof.
  induction ls as [|l ls IH] using rev_ind.
  - split; [by apply Forall_nil|]. intros i p H. cbn in H. by apply lookup_empty_Some in H.
  - rewrite run_snoc. by apply step_tracked.
Qed.

(** C16: The stored cursor only moves when a poll has handled, or had handled
    before, every event of the pages it fetched, and then to the cursor of those
    pages; or when the fallback for an expired cursor saves its ledger. *)
Theorem cursor_after_delivery store first ls l :
  let y := run ls (fresh store first) in
  stored (subscriber (step l y)) = stored (subscriber y)
  ∨ (∃ i page c, polls y !! i = Some (WaitSave page c) ∧ fetched ls i page (Some c) ∧
      Forall (handled (log y)) (ids page) ∧ stored (subscriber (step l y)) = Some c)
  ∨ (∃ i c e ledger, polls y !! i = Some (WaitFallbackSave c e ledger) ∧
      stored (subscriber (step l y)) = Some (pretty ledger)).
Proof.
  intros y. destruct (run_tracked store first ls) as [Hs Hp]. fold y in Hs, Hp.
  destruct l as [i|i a| | |t|subs]; cbn.
  - left. by destruct (polls y !! i).
  - destruct (polls y !! i) as [p|] eqn:Ei; [|by left].
    destruct (resume_progress ls (log y) i p a (subscriber y) (Hp i p Ei) Hs)
      as (_ & _ & [H|[(page & c & -> & H)|(c & e & n & -> & H)]]);
      destruct (resume a _ (subscriber y)) as [[out p'] s']; cbn in *; [by left| |].
    + right; left. destruct (Hp i _ Ei) as [Hf Hh]. by exists i, page, c.
    + right; right. by exists i, c, e, n.
  - left. unfold start. by destruct (isRunning (subscriber y)).
  - by left.
  - left. unfold timer_fires. by case_bool_decide.
  - by left.
Qed.
End facts.

(** ** Concrete runs *)

Definition plain_event (id contract : string) : PageEvent :=
  {| pagingToken := id;
     body := {| so_id := id; so_topic := []; so_value := JUndef; so_contractId := Some contract;
                so_type := None; so_decodedData := JUndef; so_ledger := None;
                so_ledgerClosedAt := None; so_txHash := None; so_inSuccessfulContractCall := None;
                so_function := None; so_args := None; so_raw := JUndef |} |}.

Definition page_with (es : list PageEvent) (c : option string) : Page :=
  {| page_events := es; page_latestLedger := None; page_cursor := c |}.

(** A live subscriber with one handler, and a window of [cap] ids. *)
Definition plain_config (cap : Z) : SubscriberConfig :=
  {| cfg_endLedger := None; cfg_json := false; cfg_dedupCacheSize := cap;
     cfg_startLedgerLookback := 0; cfg_retryDelayMs := 1000; cfg_initialDelayMs := 1000;
     cfg_maxDelayMs := 30000; cfg_maxRetries := None; cfg_getLatestLedger := false;
     cfg_onEvent := true; cfg_onTerminalError := false |}.

(** One poll that reads [es], calls the handler for each of [n] and saves. *)
Definition poll_labels (i : nat) (es : list PageEvent) (n : nat) : list Label :=
  [PollStart i; Resume i (CursorRead true); Resume i (PagesRead 0 (inl [page_with es None]))]
  ++ replicate n (Resume i (HandlerReturned 0 true)) ++ [Resume i (Saved 0 true)].

Definition marks (out : list Output) : list Output :=
  List.filter (λ o, match o with Dispatched _ | Handled _ | Suppressed _ => true | _ => false end) out.

Lemma redelivery_needs_eviction_witness :
  let y := run (plain_config 1) (λ _ _, true)
             (poll_labels 0 [plain_event "a" "C"; plain_event "b" "C"] 2
              ++ poll_labels 1 [plain_event "a" "C"] 1) (fresh None None) in
  log y = [Dispatched "a"; Delivered DefaultHandler (body (plain_event "a" "C"))]
          ++ Handled "a" :: [Dispatched "b"; Delivered DefaultHandler (body (plain_event "b" "C"));
                             Handled "b"]
          ++ Dispatched "a" :: [Delivered DefaultHandler (body (plain_event "a" "C")); Handled "a"] ∧
  (1 ≤ Z.of_nat (size (list_to_set (touches [Dispatched "b";
     Delivered DefaultHandler (body (plain_event "b" "C")); Handled "b"]) ∖ {["a"]} : gset string)))%Z.
Proof.
  split; [vm_compute; reflexivity|].
  apply (redelivery_needs_eviction (plain_config 1) (λ _ _, true) None None
    (poll_labels 0 [plain_event "a" "C"; plain_event "b" "C"] 2
     ++ poll_labels 1 [plain_event "a" "C"] 1)
    [Dispatched "a"; Delivered DefaultHandler (body (plain_event "a" "C"))] "a"
    [Dispatched "b"; Delivered DefaultHandler (body (plain_event "b" "C")); Handled "b"]
    [Delivered DefaultHandler (body (plain_event "a" "C")); Handled "a"]).
  vm_compute. reflexivity.
Defined.

(** A dispatch to two handlers, stopped while the first one runs: the second is
    still called, and nothing after it. *)
Definition two_handlers : list SorobanSubscription :=
  [{| sub_id := "s1"; sub_filters := []; sub_onEvent := true |};
   {| sub_id := "s2"; sub_filters := []; sub_onEvent := true |}].

Definition mid_dispatch : System :=
  run (plain_config 10) (λ _ _, true)
    [Subscribe two_handlers; PollStart 0; Resume 0 (CursorRead true);
     Resume 0 (PagesRead 0 (inl [page_with [plain_event "a" "C"; plain_event "b" "C"] None]))]
    (fresh None None).

Lemma stop_silences_witness :
  let ls := replicate 3 (Resume 0 (HandlerReturned 0 true)) in
  Forall (λ l, l ≠ Start) ls ∧
  ∃ new, log (run (plain_config 10) (λ _ _, true) ls (step (plain_config 10) (λ _ _, true) Stop mid_dispatch))
    = log mid_dispatch ++ new ∧ Forall (after_stop (plain_config 10) (polls mid_dispatch)) new.
Proof.
  intros ls. assert (Forall (λ l, l ≠ Start) ls) as H by (repeat constructor; done).
  split; [exact H|]. by apply (stop_silences (plain_config 10) (λ _ _, true) mid_dispatch ls).
Defined.

(** [stop] does not wait for a dispatch another caller finds in progress: the
    next handler is called after it. *)
Lemma handler_called_after_stop :
  log (run (plain_config 10) (λ _ _, true) (replicate 3 (Resume 0 (HandlerReturned 0 true)))
         (step (plain_config 10) (λ _ _, true) Stop mid_dispatch))
  = log mid_dispatch ++ [Delivered (OwnHandler "s2") (body (plain_event "a" "C")); Handled "a"].
Proof. vm_compute. reflexivity. Qed.

(** Two polls at once deliver an event twice. *)
Lemma overlapping_polls_repeat :
  marks (log (run (plain_config 10) (λ _ _, true)
    [PollStart 0; PollStart 1; Resume 0 (CursorRead true); Resume 1 (CursorRead true);
     Resume 0 (PagesRead 0 (inl [page_with [plain_event "a" "C"] None]));
     Resume 1 (PagesRead 0 (inl [page_with [plain_event "a" "C"] None]));
     Resume 0 (HandlerReturned 0 true); Resume 1 (HandlerReturned 0 true)] (fresh None None)))
  = [Dispatched "a"; Dispatched "a"; Handled "a"; Handled "a"].
Proof. vm_compute. reflexivity. Qed.

(** A second retry scheduled while one is pending hides the first from [stop]. *)
Lemma stop_misses_a_timer s :
  isStopped s = false → timers s = [] →
  ∀ cfg d d',
  timers (stop (scheduleRetry cfg (Some d') (scheduleRetry cfg (Some d) s))) = [(nextTimer s, d)].
Proof.
  intros Hs Ht cfg d d'. unfold scheduleRetry at 2. rewrite Hs. unfold scheduleRetry. cbn.
  rewrite Hs. unfold stop. cbn. rewrite Ht. cbn. by repeat case_decide; try lia.
Qed.

(** With several calls the cursor is the first call's, whatever the others read. *)
Lemma cursor_of_first_call es1 es2 c1 c2 events :
  next_cursor [page_with es1 (Some c1); page_with es2 (Some c2)] events = Some c1.
Proof. done. Qed.

(** The fallback stores the latest ledger where a cursor is read back. *)
Lemma fallback_saves_a_ledger :
  let e := {| rpc_code := "invalid_request"; rpc_message := "startCursor is too old";
              rpc_retryable := false; rpc_retryAfterMs := None |} in
  let page := {| page_events := []; page_latestLedger := Some 500%Z; page_cursor := None |} in
  stored (subscriber (run (plain_config 10) (λ _ _, true)
    [PollStart 0; Resume 0 (CursorRead true); Resume 0 (PagesRead 0 (inr (RpcFailed e)));
     Resume 0 (FallbackRead 0 (Some page)); Resume 0 (Saved 0 true)] (fresh (Some "12-0") None)))
  = Some "500".
Proof. vm_compute. reflexivity. Qed.
