(* ===== verification/PrivateIp.v ===== *)
(** * Addresses a webhook must not reach (packages/pulse-webhooks/src/private-ip.ts,
    url-validator.ts and validateUrl of index.ts)

    [isIP] is Node's: its IPv4 half is a dotted quad without leading zeros, its
    IPv6 half is a parameter, and so is the URL parser. *)

From S2P Require Import Prelude.
From S2P Require Import JsValue.
From S2P Require Import Decimal.

(** ** Text *)

Fixpoint strip_prefix (p s : string) : option string :=
  match p, s with
  | EmptyString, _ => Some s
  | String a p', String b s' => if Ascii.eqb a b then strip_prefix p' s' else None
  | _, _ => None
  end.

Definition hex_val (c : ascii) : option Z :=
  let n := Z.of_N (N_of_ascii c) in
  if (48 <=? n)%Z && (n <=? 57)%Z then Some (n - 48)%Z
  else if (97 <=? n)%Z && (n <=? 102)%Z then Some (n - 87)%Z
  else if (65 <=? n)%Z && (n <=? 70)%Z then Some (n - 55)%Z
  else None.

(** [Number.parseInt(s, 16)] of text with no space, sign or [0x]: the value of the
    longest run of digits it starts with; [None] is [NaN]. *)
Fixpoint hex_from (acc : option Z) (s : string) : option Z :=
  match s with
  | EmptyString => acc
  | String c s' =>
      match hex_val c with
      | Some d => hex_from (Some (16 * default 0 acc + d)%Z) s'
      | None => acc
      end
  end.

Definition parse_hex (s : string) : option Z := hex_from None s.

(** A segment of [net.isIPv4]: 0 to 255, no leading zero. *)
Definition octet (s : string) : option Z :=
  match s with
  | "" => None
  | String c t =>
      let v := Z.of_N (digits_value s) in
      if all_digits s && (v <=? 255)%Z && (bool_decide (t = "") || negb (Ascii.eqb c "0"))
      then Some v else None
  end.

Definition isIPv4 (s : string) : bool :=
  match str_split "."%char s with
  | [a; b; c; d] =>
      bool_decide (is_Some (octet a) ∧ is_Some (octet b) ∧ is_Some (octet c) ∧ is_Some (octet d))
  | _ => false
  end.

(** [ToInt32], the operand of [>>] and [&]. *)
Definition int32 (z : Z) : Z := ((z + 2 ^ 31) mod 2 ^ 32 - 2 ^ 31)%Z.

Definition dotted (l : list Z) : string := join "." (pretty <$> l).

(** The last character dropped where it is [']'], the first where it is ['[']. *)
Definition strip_open (s : string) : string := default s (strip_prefix "[" s).

Fixpoint strip_close (s : string) : string :=
  match s with
  | EmptyString => ""
  | String c EmptyString => if Ascii.eqb c "]" then "" else s
  | String c s' => String c (strip_close s')
  end.

Definition normalizeHostname (hostname : string) : string :=
  to_lower (strip_close (strip_open hostname)).

(** [s.endsWith(p)] *)
Fixpoint ends_with (s p : string) : bool :=
  String.eqb s p || match s with EmptyString => false | String _ s' => ends_with s' p end.

Definition isLoopbackHostname (hostname : string) : bool :=
  String.eqb hostname "localhost" || ends_with hostname ".localhost".

(** [/^[0-9a-f.:]+$/] *)
Definition mapped_char (c : ascii) : bool :=
  bool_decide (is_Some (digit_val c)) || Ascii.eqb c "." || Ascii.eqb c ":" ||
  str_includes "abcdef" (String c "").

Fixpoint mapped_chars (s : string) : bool :=
  match s with EmptyString => true | String c s' => mapped_char c && mapped_chars s' end.

Definition mapped_text (s : string) : bool := negb (String.eqb s "") && mapped_chars s.

(** The group of [/^::(?:ffff:)?([0-9a-f.:]+)$/]. *)
Definition mapped_tail (hostname : string) : option string :=
  match strip_prefix "::" hostname with
  | None => None
  | Some t =>
      match strip_prefix "ffff:" t with
      | Some u => if mapped_text u then Some u else if mapped_text t then Some t else None
      | None => if mapped_text t then Some t else None
      end
  end.

Section addresses.
Context (isIPv6 : string → bool).

Definition isIP (s : string) : Z := if isIPv4 s then 4 else if isIPv6 s then 6 else 0.

Definition isIpLiteral (hostname : string) : bool := negb (isIP hostname =? 0)%Z.

Definition embeddedIpv4 (tail : string) : option string :=
  if (isIP tail =? 4)%Z then Some tail
  else
    match base.filter (λ g, g ≠ "") (str_split ":"%char tail) with
    | [g; h] =>
        match parse_hex g, parse_hex h with
        | Some high, Some low =>
            Some (dotted [Z.shiftr (int32 high) 8; Z.land (int32 high) 255;
                          Z.shiftr (int32 low) 8; Z.land (int32 low) 255])
        | _, _ => None
        end
    | _ => None
    end.

(** The ranges of a dotted quad, from its first two numbers. *)
Definition private_quad (a b : Z) : bool :=
  ((a =? 0) || (a =? 10) || (a =? 127) || ((a =? 169) && (b =? 254))
   || ((a =? 172) && (16 <=? b) && (b <=? 31)) || ((a =? 192) && (b =? 168))
   || ((a =? 192) && (b =? 0)) || ((a =? 100) && (64 <=? b) && (b <=? 127)) || (224 <=? a))%Z.

(** The address embedded in an IPv6 literal is checked by the function itself. *)
Fixpoint private_ip (fuel : nat) (hostname : string) : bool :=
  match fuel with
  | O => false
  | S fuel' =>
      if isIPv4 hostname then
        match str_split "."%char hostname with
        | a :: b :: _ => private_quad (Z.of_N (digits_value a)) (Z.of_N (digits_value b))
        | _ => false
        end
      else if isIPv6 hostname then
        String.eqb hostname "::" || String.eqb hostname "::1"
        || starts_with "fc" hostname || starts_with "fd" hostname
        || starts_with "fe8" hostname || starts_with "fe9" hostname
        || starts_with "fea" hostname || starts_with "feb" hostname
        || match mapped_tail hostname ≫= embeddedIpv4 with
           | Some embedded => negb (String.eqb embedded "") && private_ip fuel' embedded
           | None => false
           end
      else false
  end.

Definition isPrivateIpLiteral (hostname : string) : bool := private_ip 2 hostname.

(** ** URLs *)

(** What [new URL] gives; it throws on [None]. *)
Record ParsedUrl := {
  url_protocol : string;
  url_username : string;
  url_password : string;
  url_hostname : string;
}.

Context (parse_url : string → option ParsedUrl).

Definition BLOCKED_ADDRESS_ERROR : string := "Webhook URL points to a blocked private address".

(** [WebhookDelivery.validateUrl]; [None] is no error. *)
Definition validateUrl (url : string) : option string :=
  match parse_url url with
  | None => Some "Invalid webhook URL"
  | Some u =>
      let hostname := normalizeHostname (url_hostname u) in
      if isLoopbackHostname hostname then Some BLOCKED_ADDRESS_ERROR
      else if isPrivateIpLiteral hostname then Some BLOCKED_ADDRESS_ERROR
      else None
  end.

(** [UrlValidator.validate]. *)
Definition validate (url : string) : option string :=
  match parse_url url with
  | None => Some "Invalid URL format"
  | Some u =>
      if negb (String.eqb (url_protocol u) "http:") && negb (String.eqb (url_protocol u) "https:") then
        Some ("URL scheme " +:+ url_protocol u +:+ " is not allowed")
      else if negb (String.eqb (url_username u) "") || negb (String.eqb (url_password u) "") then
        Some "URL must not contain credentials"
      else
        let hostname := normalizeHostname (url_hostname u) in
        if isLoopbackHostname hostname then Some "URL points to a loopback address"
        else if isPrivateIpLiteral hostname then Some "URL points to a private IP address"
        else None
  end.
End addresses.

(** ** Dotted quads *)

(** The address of a quad, and the blocks of the comments: base and length. *)
Definition ipv4 (a b c d : Z) : Z := (a * 2 ^ 24 + b * 2 ^ 16 + c * 2 ^ 8 + d)%Z.

Definition in_block (addr : Z) (block : Z * Z) : bool :=
  (Z.shiftr addr (32 - block.2) =? Z.shiftr block.1 (32 - block.2))%Z.

Definition blocked_ranges : list (Z * Z) :=
  [(ipv4 0 0 0 0, 8); (ipv4 10 0 0 0, 8); (ipv4 127 0 0 0, 8); (ipv4 169 254 0 0, 16);
   (ipv4 172 16 0 0, 12); (ipv4 192 168 0 0, 16); (ipv4 192 0 0 0, 16); (ipv4 100 64 0 0, 10);
   (ipv4 224 0 0 0, 3)]%Z.

Definition byte (z : Z) : Prop := (0 ≤ z < 256)%Z.

(** A property of all numbers below a bound, by checking each. *)
Lemma forall_below (n : Z) (P : Z → bool) :
  forallb P (seqZ 0 n) = true → ∀ z, (0 ≤ z < n)%Z → P z = true.
Proof.
  rewrite forallb_forall. intros H z Hz. apply H, list_elem_of_In, elem_of_seqZ. lia.
Qed.

(** The text of a byte: no dot, and read back as it is. *)
Definition octet_ok (z : Z) : bool :=
  char_free "."%char (pretty z) && mapped_chars (pretty z)
  && bool_decide (octet (pretty z) = Some z)
  && (Z.of_N (digits_value (pretty z)) =? z)%Z.

Lemma octet_pretty z :
  byte z → char_free "."%char (pretty z) = true ∧ octet (pretty z) = Some z ∧
    Z.of_N (digits_value (pretty z)) = z.
Proof.
  intros Hz. assert (octet_ok z = true) as H.
  { apply (forall_below 256); [vm_compute; reflexivity|exact Hz]. }
  unfold octet_ok in H. bool_to_prop. split_and!; try done; lia.
Qed.

Lemma mapped_pretty z : byte z → mapped_chars (pretty z) = true.
Proof.
  intros Hz. assert (octet_ok z = true) as H.
  { apply (forall_below 256); [vm_compute; reflexivity|exact Hz]. }
  unfold octet_ok in H. by bool_to_prop.
Qed.

Lemma dotted_quad a b c d :
  dotted [a; b; c; d] = pretty a +:+ String "."%char (pretty b +:+ String "."%char
    (pretty c +:+ String "."%char (pretty d))).
Proof. done. Qed.

Lemma split_quad a b c d :
  byte a → byte b → byte c → byte d →
  str_split "."%char (dotted [a; b; c; d]) = [pretty a; pretty b; pretty c; pretty d].
Proof.
  intros Ha Hb Hc Hd. rewrite dotted_quad.
  rewrite !str_split_app, str_split_free; [done|by apply octet_pretty..].
Qed.

Lemma isIPv4_dotted a b c d :
  byte a → byte b → byte c → byte d → isIPv4 (dotted [a; b; c; d]) = true.
Proof.
  intros Ha Hb Hc Hd. unfold isIPv4. rewrite split_quad by done.
  apply bool_decide_eq_true. split_and!; eexists; by apply octet_pretty.
Qed.

(** A block of an aligned base is a range of addresses. *)
Lemma in_block_range addr q len :
  (0 ≤ len ≤ 32)%Z →
  in_block addr (q * 2 ^ (32 - len), len)%Z
  = ((q * 2 ^ (32 - len) <=? addr) && (addr <? (q + 1) * 2 ^ (32 - len)))%Z.
Proof.
  intros Hl. unfold in_block. cbn [fst snd]. rewrite !Z.shiftr_div_pow2 by lia.
  assert (0 < 2 ^ (32 - len))%Z as Hp by lia. set (k := (2 ^ (32 - len))%Z) in *.
  rewrite Z.div_mul by lia. apply eq_true_iff_eq.
  rewrite andb_true_iff, Z.eqb_eq, Z.leb_le, Z.ltb_lt.
  pose proof (Z.div_mod addr k ltac:(lia)). pose proof (Z.mod_pos_bound addr k Hp). split; [nia|].
  intros [H1 H2]. symmetry. apply (Z.div_unique _ _ _ (addr - q * k)); lia.
Qed.

(** The tests on the first two numbers are the blocks. *)
Lemma private_quad_blocks a b c d :
  byte a → byte b → byte c → byte d →
  private_quad a b = existsb (in_block (ipv4 a b c d)) blocked_ranges.
Proof.
  intros Ha Hb Hc Hd. unfold private_quad, blocked_ranges, existsb.
  change (ipv4 0 0 0 0) with (0 * 2 ^ (32 - 8))%Z.
  change (ipv4 10 0 0 0) with (10 * 2 ^ (32 - 8))%Z.
  change (ipv4 127 0 0 0) with (127 * 2 ^ (32 - 8))%Z.
  change (ipv4 169 254 0 0) with (43518 * 2 ^ (32 - 16))%Z.
  change (ipv4 172 16 0 0) with (2753 * 2 ^ (32 - 12))%Z.
  change (ipv4 192 168 0 0) with (49320 * 2 ^ (32 - 16))%Z.
  change (ipv4 192 0 0 0) with (49152 * 2 ^ (32 - 16))%Z.
  change (ipv4 100 64 0 0) with (401 * 2 ^ (32 - 10))%Z.
  change (ipv4 224 0 0 0) with (7 * 2 ^ (32 - 3))%Z.
  rewrite !in_block_range by lia. unfold ipv4, byte in *. rewrite <-!orb_assoc, orb_false_r.
  repeat (f_equal; [lia|]). lia.
Qed.

Section theorems.
Context (isIPv6 : string → bool).

Lemma private_ip_quad fuel a b c d :
  byte a → byte b → byte c → byte d →
  private_ip isIPv6 (S fuel) (dotted [a; b; c; d])
  = existsb (in_block (ipv4 a b c d)) blocked_ranges.
Proof.
  intros Ha Hb Hc Hd. rewrite <-private_quad_blocks by done. cbn [private_ip].
  rewrite isIPv4_dotted, split_quad by done.
  by destruct (octet_pretty a Ha) as (_ & _ & ->), (octet_pretty b Hb) as (_ & _ & ->).
Qed.

(** A dotted quad is blocked exactly when its 32-bit address is in one of the
    blocks. *)
Theorem quad_blocked_iff_in_range a b c d :
  byte a → byte b → byte c → byte d →
  isPrivateIpLiteral isIPv6 (dotted [a; b; c; d])
  = existsb (in_block (ipv4 a b c d)) blocked_ranges.
Proof.
  apply private_ip_quad.
Qed.

(** ** IPv4-mapped addresses *)

Definition hex_digit (z : Z) : string :=
  match String.get (Z.to_nat z) "0123456789abcdef" with Some c => String c "" | None => "" end.

(** A 16-bit group as [new URL] prints it: lower case, no leading zeros. *)
Definition hex_group (z : Z) : string :=
  (if (4096 <=? z)%Z then hex_digit (z / 4096) else "") +:+
  (if (256 <=? z)%Z then hex_digit (z / 256 mod 16) else "") +:+
  (if (16 <=? z)%Z then hex_digit (z / 16 mod 16) else "") +:+ hex_digit (z mod 16).

Definition digit_ok (z : Z) : bool :=
  match hex_digit z with
  | String c "" => bool_decide (hex_val c = Some z) && mapped_char c
                   && negb (Ascii.eqb c ":") && negb (Ascii.eqb c ".")
  | _ => false
  end.

Lemma hex_digit_ok z :
  (0 ≤ z < 16)%Z → ∃ c, hex_digit z = String c "" ∧ hex_val c = Some z ∧ mapped_char c = true ∧
    Ascii.eqb c ":" = false ∧ Ascii.eqb c "." = false.
Proof.
  intros Hz. assert (digit_ok z = true) as H
    by (apply (forall_below 16); [vm_compute; reflexivity|exact Hz]).
  unfold digit_ok in H. destruct (hex_digit z) as [|c [|]]; [done| |done]. exists c.
  bool_to_prop. split_and!; try done; by apply negb_true_iff.
Qed.

(** A run of digits: their number, and what the text of one is made of. *)
Definition digits_run (ds : list Z) : string := foldr (λ d s, hex_digit d +:+ s) "" ds.

Lemma digits_run_facts ds acc :
  Forall (λ d, 0 ≤ d < 16)%Z ds →
  hex_from acc (digits_run ds) = foldl (λ v d, Some (16 * default 0 v + d)%Z) acc ds ∧
  mapped_chars (digits_run ds) = true ∧ char_free ":"%char (digits_run ds) = true ∧
  char_free "."%char (digits_run ds) = true ∧ (ds ≠ [] → digits_run ds ≠ "").
Proof.
  intros Hds. revert acc. induction Hds as [|d ds Hd _ IH]; intros acc; [done|].
  destruct (hex_digit_ok d Hd) as (c & Hc & Hv & Hm & H1 & H2).
  destruct (IH (Some (16 * default 0 acc + d)%Z)) as (I1 & I2 & I3 & I4 & _).
  unfold digits_run. cbn [foldr foldl]. fold (digits_run ds). rewrite Hc. cbn.
  by rewrite Hv, Hm, H1, H2, I1, I2, I3, I4.
Qed.

Lemma append_empty s : s +:+ "" = s.
Proof. induction s as [|c s IH]; cbn; [done|]. by rewrite IH. Qed.

(** The digits of a group. *)
Lemma hex_group_run z :
  (0 ≤ z < 65536)%Z →
  ∃ ds, hex_group z = digits_run ds ∧ ds ≠ [] ∧ Forall (λ d, 0 ≤ d < 16)%Z ds ∧
    foldl (λ v d, Some (16 * default 0 v + d)%Z) None ds = Some z.
Proof.
  intros Hz. unfold hex_group.
  replace (z / 4096)%Z with (z / 16 / 16 / 16)%Z by (rewrite !Z.div_div by lia; done).
  replace (z / 256)%Z with (z / 16 / 16)%Z by (rewrite !Z.div_div by lia; done).
  pose proof (Z.div_mod z 16 ltac:(lia)). pose proof (Z.mod_pos_bound z 16 ltac:(lia)).
  set (q := (z / 16)%Z) in *.
  pose proof (Z.div_mod q 16 ltac:(lia)). pose proof (Z.mod_pos_bound q 16 ltac:(lia)).
  set (q2 := (q / 16)%Z) in *.
  pose proof (Z.div_mod q2 16 ltac:(lia)). pose proof (Z.mod_pos_bound q2 16 ltac:(lia)).
  set (q3 := (q2 / 16)%Z) in *.
  destruct (Z.leb_spec 4096 z); [|destruct (Z.leb_spec 256 z); [|destruct (Z.leb_spec 16 z)]];
    repeat (rewrite (proj2 (Z.leb_le _ _)) by lia); repeat (rewrite (proj2 (Z.leb_gt _ _)) by lia);
    rewrite <-(append_empty (hex_digit (z mod 16))).
  - exists [q3; q2 mod 16; q mod 16; z mod 16]%Z. split_and!; [done|done| |cbn; f_equal; lia].
    repeat (constructor; [lia|]). constructor.
  - exists [q2 mod 16; q mod 16; z mod 16]%Z. split_and!; [done|done| |cbn; f_equal; lia].
    repeat (constructor; [lia|]). constructor.
  - exists [q mod 16; z mod 16]%Z. split_and!; [done|done| |cbn; f_equal; lia].
    repeat (constructor; [lia|]). constructor.
  - exists [z mod 16]%Z. split_and!; [done|done| |cbn; f_equal; lia].
    repeat (constructor; [lia|]). constructor.
Qed.

(** [::ffff:h:l], and the quad of the two groups. *)
Definition mapped (h l : Z) : string := "::ffff:" +:+ hex_group h +:+ ":" +:+ hex_group l.

Definition quad_of (h l : Z) : string := dotted [h / 256; h mod 256; l / 256; l mod 256]%Z.

Lemma mapped_chars_app s t : mapped_chars (s +:+ t) = mapped_chars s && mapped_chars t.
Proof. induction s as [|c s IH]; cbn; [done|]. by rewrite IH, andb_assoc. Qed.

Lemma group_facts z :
  (0 ≤ z < 65536)%Z →
  parse_hex (hex_group z) = Some z ∧ hex_group z ≠ "" ∧ mapped_chars (hex_group z) = true ∧
  char_free ":"%char (hex_group z) = true ∧ char_free "."%char (hex_group z) = true.
Proof.
  intros Hz. destruct (hex_group_run z Hz) as (ds & -> & Hn & Hf & Hv).
  destruct (digits_run_facts ds None Hf) as (H1 & H2 & H3 & H4 & H5).
  split_and!; try done; [by rewrite <-Hv|by apply H5].
Qed.

Lemma group_bytes z :
  (0 ≤ z < 65536)%Z → Z.shiftr (int32 z) 8 = (z / 256)%Z ∧ Z.land (int32 z) 255 = (z mod 256)%Z.
Proof.
  intros Hz. assert (int32 z = z) as -> by (unfold int32; rewrite Z.mod_small; lia).
  split; [by rewrite Z.shiftr_div_pow2|]. by apply (Z.land_ones z 8).
Qed.

Lemma bytes_of_group z : (0 ≤ z < 65536)%Z → byte (z / 256) ∧ byte (z mod 256).
Proof.
  intros Hz. unfold byte. pose proof (Z.mod_pos_bound z 256 ltac:(lia)).
  pose proof (Z.div_pos z 256 ltac:(lia) ltac:(lia)).
  pose proof (Z.div_lt_upper_bound z 256 256 ltac:(lia) ltac:(lia)). lia.
Qed.

(** The tail of a mapped address gives back the quad. *)
Lemma embedded_mapped h l :
  (0 ≤ h < 65536)%Z → (0 ≤ l < 65536)%Z →
  isIPv6 (hex_group h +:+ String ":" (hex_group l)) = false →
  mapped_tail (mapped h l) ≫= embeddedIpv4 isIPv6 = Some (quad_of h l).
Proof.
  intros Hh Hl H6. destruct (group_facts h Hh) as (Hp & Hn & Hm & Hc & Hd).
  destruct (group_facts l Hl) as (Hp' & Hn' & Hm' & Hc' & Hd').
  assert (mapped_text (hex_group h +:+ String ":" (hex_group l)) = true) as Ht.
  { unfold mapped_text. rewrite mapped_chars_app, Hm. cbn. rewrite Hm'. by destruct (hex_group h). }
  unfold mapped_tail, mapped. cbn [strip_prefix String.append Ascii.eqb Bool.eqb]. rewrite Ht. cbn.
  unfold embeddedIpv4, isIP, isIPv4. rewrite str_split_free
    by (rewrite char_free_app, Hd; cbn; by rewrite Hd').
  rewrite H6. cbn [Z.eqb]. rewrite str_split_app, str_split_free by done.
  rewrite !filter_cons_True by done. rewrite filter_nil, Hp, Hp'.
  destruct (group_bytes h Hh) as [-> ->], (group_bytes l Hl) as [-> ->]. done.
Qed.

Lemma private_ip_mapped fuel t :
  let s := "::ffff:" +:+ t in
  isIPv4 s = false → isIPv6 s = true →
  private_ip isIPv6 (S fuel) s
  = match mapped_tail s ≫= embeddedIpv4 isIPv6 with
    | Some embedded => negb (String.eqb embedded "") && private_ip isIPv6 fuel embedded
    | None => false
    end.
Proof. intros s H4 H6. cbn [private_ip]. by rewrite H4, H6. Qed.

Lemma mapped_quad_not_ipv4 a b c d :
  byte a → byte b → byte c → byte d → isIPv4 ("::ffff:" +:+ dotted [a; b; c; d]) = false.
Proof.
  intros Ha Hb Hc Hd. unfold isIPv4. rewrite dotted_quad.
  set (s := String "."%char (pretty b +:+ _)).
  change ("::ffff:" +:+ (pretty a +:+ s)) with (("::ffff:" +:+ pretty a) +:+ s).
  assert (char_free "."%char ("::ffff:" +:+ pretty a) = true) as Hf by (by cbn; apply octet_pretty).
  subst s. rewrite !str_split_app, str_split_free; [|by apply octet_pretty..|exact Hf].
  apply bool_decide_eq_false. by intros ([] & _).
Qed.

Lemma mapped_tail_quad a b c d :
  byte a → byte b → byte c → byte d →
  mapped_tail ("::ffff:" +:+ dotted [a; b; c; d]) ≫= embeddedIpv4 isIPv6 = Some (dotted [a; b; c; d]).
Proof.
  intros Ha Hb Hc Hd. unfold mapped_tail. cbn [strip_prefix String.append Ascii.eqb Bool.eqb].
  assert (mapped_text (dotted [a; b; c; d]) = true) as ->.
  { unfold mapped_text. rewrite dotted_quad, !mapped_chars_app. cbn. rewrite !mapped_chars_app. cbn.
    rewrite !mapped_chars_app. cbn. rewrite !mapped_pretty by done. rewrite andb_true_r.
    by destruct (pretty a). }
  cbn [mbind option_bind]. unfold embeddedIpv4, isIP. by rewrite isIPv4_dotted.
Qed.

(** An IPv4-mapped address, with the groups as the URL parser prints them or
    with its tail as a dotted quad, is blocked exactly when the address it embeds
    is; [isIPv6] is only asked to know the address, and that text without two
    colons or with dots alone is not one. *)
Theorem mapped_address_blocked h l :
  (0 ≤ h < 65536)%Z → (0 ≤ l < 65536)%Z →
  isIPv6 (mapped h l) = true → isIPv6 ("::ffff:" +:+ quad_of h l) = true →
  isIPv6 (hex_group h +:+ String ":" (hex_group l)) = false →
  let blocked := existsb (in_block (ipv4 (h / 256) (h mod 256) (l / 256) (l mod 256))) blocked_ranges in
  isPrivateIpLiteral isIPv6 (mapped h l) = blocked ∧
  isPrivateIpLiteral isIPv6 ("::ffff:" +:+ quad_of h l) = blocked.
Proof.
  intros Hh Hl H6 H6' Hg blocked. subst blocked.
  destruct (bytes_of_group h Hh) as [Ha Hb], (bytes_of_group l Hl) as [Hc Hd].
  assert (∀ fuel, private_ip isIPv6 (S fuel) (quad_of h l) = existsb (in_block
    (ipv4 (h / 256) (h mod 256) (l / 256) (l mod 256))) blocked_ranges) as Hq
    by (intros fuel; by apply private_ip_quad).
  assert (String.eqb (quad_of h l) "" = false) as Hne.
  { apply String.eqb_neq. intros He. specialize (isIPv4_dotted _ _ _ _ Ha Hb Hc Hd).
    fold (quad_of h l). by rewrite He. }
  split; unfold isPrivateIpLiteral.
  - assert (isIPv4 (mapped h l) = false) as H4.
    { unfold isIPv4. rewrite str_split_free; [done|].
      destruct (group_facts h Hh) as (_ & _ & _ & _ & Hdh), (group_facts l Hl) as (_ & _ & _ & _ & Hdl).
      unfold mapped. cbn. by rewrite char_free_app, Hdh. }
    unfold mapped. rewrite private_ip_mapped by done. fold (mapped h l).
    by rewrite embedded_mapped, Hne, Hq.
  - rewrite private_ip_mapped by (done || by apply mapped_quad_not_ipv4).
    unfold quad_of at 1. rewrite mapped_tail_quad by done. fold (quad_of h l). by rewrite Hne, Hq.
Qed.

(** ** Termination: the embedded address is not an IPv6 literal *)

Lemma char_free_pretty (z : Z) : char_free ":"%char (pretty z) = true.
Proof.
  assert (∀ n : N, char_free ":"%char (pretty n) = true) as Hn.
  { intros n. apply all_digits_free; [done|apply all_digits_pretty]. }
  destruct z; [done|apply Hn|]. change (pretty (Z.neg p)) with ("-" +:+ pretty (N.pos p)).
  cbn. apply Hn.
Qed.

(** More fuel than two changes nothing: the recursion stops at the embedded
    address, given that an IPv6 address has a colon. *)
Lemma private_ip_fuel fuel hostname :
  (∀ s, isIPv6 s = true → char_free ":"%char s = false) →
  2 ≤ fuel → private_ip isIPv6 fuel hostname = isPrivateIpLiteral isIPv6 hostname.
Proof.
  intros H6 Hf. destruct fuel as [|[|fuel]]; [lia|lia|]. unfold isPrivateIpLiteral.
  cbn [private_ip]. destruct (isIPv4 hostname); [done|]. destruct (isIPv6 hostname); [|done].
  destruct (mapped_tail hostname) as [tail|]; [|done]. cbn [mbind option_bind].
  unfold embeddedIpv4, isIP. destruct (isIPv4 tail) eqn:E4; cbn [Z.eqb Pos.eqb]; [by rewrite E4|].
  assert (∀ b c d e, isIPv6 (dotted [b; c; d; e]) = false) as Hd.
  { intros b c d e. apply not_true_iff_false. intros Ht%H6. rewrite dotted_quad in Ht.
    rewrite char_free_app in Ht. cbn in Ht. rewrite char_free_app in Ht. cbn in Ht.
    rewrite char_free_app in Ht. cbn in Ht. by rewrite !char_free_pretty in Ht. }
  destruct (isIPv6 tail); cbn [Z.eqb Pos.eqb];
    (destruct (base.filter _ _) as [|g [|h [|]]]; try done;
     destruct (parse_hex g), (parse_hex h); try done; by rewrite Hd).
Qed.

(** ** The two validators *)

(** What the pluggable validator lets through, delivery lets through too, and
    it is then http(s) without credentials; what delivery lets through is neither
    a loopback name nor a blocked literal. *)
Theorem validators_agree parse_url url u :
  parse_url url = Some u →
  let host := normalizeHostname (url_hostname u) in
  (validateUrl isIPv6 parse_url url = None
    ↔ isLoopbackHostname host = false ∧ isPrivateIpLiteral isIPv6 host = false) ∧
  (validate isIPv6 parse_url url = None
    ↔ validateUrl isIPv6 parse_url url = None ∧ (url_protocol u = "http:" ∨ url_protocol u = "https:")
      ∧ url_username u = "" ∧ url_password u = "").
Proof.
  intros Hu host. unfold validateUrl, validate. rewrite Hu. fold host.
  destruct (isLoopbackHostname host), (isPrivateIpLiteral isIPv6 host);
    destruct (String.eqb_spec (url_protocol u) "http:"), (String.eqb_spec (url_protocol u) "https:"),
      (String.eqb_spec (url_username u) ""), (String.eqb_spec (url_password u) ""); cbn;
    (split; [intuition congruence|]; intuition congruence).
Qed.
End theorems.

(** ** Witnesses *)

(** An [isIPv6] that knows two addresses. *)
Definition two_literals (s : string) : bool :=
  String.eqb s "::ffff:a00:1" || String.eqb s "::ffff:10.0.0.1".

Lemma quad_blocked_iff_in_range_witness :
  isPrivateIpLiteral two_literals "172.31.255.255" = true ∧
  isPrivateIpLiteral two_literals "172.32.0.1" = false.
Proof.
  split.
  - etrans; [apply (quad_blocked_iff_in_range two_literals 172 31 255 255)|vm_compute; reflexivity];
      split; vm_compute; congruence.
  - etrans; [apply (quad_blocked_iff_in_range two_literals 172 32 0 1)|vm_compute; reflexivity];
      split; vm_compute; congruence.
Defined.

Lemma mapped_address_blocked_witness :
  isPrivateIpLiteral two_literals "::ffff:a00:1" = true ∧
  isPrivateIpLiteral two_literals "::ffff:10.0.0.1" = true.
Proof.
  apply (mapped_address_blocked two_literals 2560 1); try (vm_compute; reflexivity);
    split; vm_compute; congruence.
Defined.

Definition plain_url (hostname : string) : ParsedUrl :=
  {| url_protocol := "https:"; url_username := ""; url_password := ""; url_hostname := hostname |}.

Lemma validators_agree_witness :
  validateUrl two_literals (λ s, Some (plain_url s)) "example.com" = None ↔
  isLoopbackHostname "example.com" = false ∧ isPrivateIpLiteral two_literals "example.com" = false.
Proof.
  apply (validators_agree two_literals (λ s, Some (plain_url s)) "example.com"
    (plain_url "example.com") eq_refl).
Defined.

(** The comment names [192.0.0.0/24]; the whole [192.0.0.0/16] is blocked. *)
Lemma blocks_more_than_documented :
  isPrivateIpLiteral two_literals "192.0.66.2" = true ∧
  in_block (ipv4 192 0 66 2) (ipv4 192 0 0 0, 24)%Z = false.
Proof. by vm_compute. Qed.
