(* ===== verification/Webhooks.v ===== *)
(** * Webhook delivery (WebhookDelivery of packages/pulse-webhooks/src/index.ts)

    A delivery instance over one watcher, without a durable queue: retries wait on
    timers.  Each await of an attempt is a phase, and each label of a step is what
    the outside does next: the validator, the resolver and [fetch] answer, a timer
    fires, the watcher emits, somebody stops it. *)

From Stdlib Require Import Sorted.
From stdpp Require Import gmultiset.
From S2P Require Import Prelude.
From S2P Require Import JsMap.
From S2P Require Import PrivateIp.

(** ** Configuration *)

Record UrlEntry := { entry_url : string; entry_timeoutMs : option Z }.

Inductive UrlConfig := OneUrl (url : string) | ManyUrls (urls : list string) | Entries (l : list UrlEntry).

Definition normalizeUrlConfig (url : UrlConfig) : list string * jsmap string Z :=
  match url with
  | OneUrl u => ([u], [])
  | ManyUrls l => (l, [])
  | Entries l =>
      (entry_url <$> l,
       foldl (λ m e, match entry_timeoutMs e with Some t => mset (entry_url e) t m | None => m end) [] l)
  end.

Record WebhookConfig := {
  wc_url : UrlConfig;
  wc_retries : option Z;
  wc_deliveryTimeoutMs : option Z;
  wc_maxConcurrentRetries : option Z;
  wc_maxConcurrentDeliveries : option Z;
  wc_urlValidator : bool;
  wc_backoff : Z → Z → Z;   (** of the attempt and the random number *)
}.

Record ResolvedWebhookConfig := {
  urls : list string;
  urlTimeouts : jsmap string Z;
  retries : Z;
  deliveryTimeoutMs : Z;
  maxConcurrentRetries : Z;
  maxConcurrentDeliveries : Z;
  urlValidator : bool;
  backoff : Z → Z → Z;
}.

(** The constructor's defaults; the caps are at least one. *)
Definition resolve_config (c : WebhookConfig) : ResolvedWebhookConfig :=
  let '(us, ts) := normalizeUrlConfig (wc_url c) in
  {| urls := us; urlTimeouts := ts;
     retries := default 3%Z (wc_retries c);
     deliveryTimeoutMs := default 10000%Z (wc_deliveryTimeoutMs c);
     maxConcurrentRetries := Z.max 1 (default 100%Z (wc_maxConcurrentRetries c));
     maxConcurrentDeliveries := Z.max 1 (default 100%Z (wc_maxConcurrentDeliveries c));
     urlValidator := wc_urlValidator c;
     backoff := wc_backoff c |}.

(** ** Attempts *)

(** An event for a url.  [key] tells apart what enters delivery: every pair the
    watcher's events give, and every replay, has its own. *)
Record Job := { key : nat; event : nat; url : string; attempt : Z }.

Inductive AttemptResult := Sent | NotSent (error : string) (terminal : bool).

(** Where an attempt stands: at the validator, the resolver, [fetch], or done. *)
Inductive Phase := Validating | Resolving | Fetching | Answered (r : AttemptResult).

(** [slot]: it holds one of the concurrent deliveries. *)
Record Attempt := { job : Job; slot : bool; phase : Phase }.

Definition in_phase (p : Phase) (a : Attempt) : Attempt :=
  {| job := job a; slot := slot a; phase := p |}.

(** [fetch] gives a status, or throws: an abort, an error or something else. *)
Inductive FetchResult := Status (s : Z) | Aborted | FetchError (message : string) | FetchThrew.

Inductive Answer :=
  | ValidatorSays (r : result string (option string))   (** [Err]: it threw *)
  | ResolverSays (r : option (list string)) (uuid : string)
  | FetchSays (r : FetchResult)
  | Continue (random : Z).

(** ** What the outside sees

    [Attempted], [Settled] and the like mark the course of a job. *)
Inductive Output :=
  | Attempted (j : Job) (slot : bool)
  | Posted (j : Job) (deliveryId : string) (address : option string)
  | Delivered (j : Job)
  | RetryScheduled (j : Job) (delay : Z)
  | DeadLettered (j : Job) (error : string) (attempts : Z)
  | Abandoned (j : Job)
  | EmitBackpressure (event : nat) (url : string) (pendingCount : Z)
  | EmitFailed (j : Job) (error : string) (attempts : Z)
  | EmitDropped (j : Job).

(** A notification waiting for the dead-letter store's id. *)
Inductive Notice := NoticeFailed (j : Job) (error : string) (attempts : Z) | NoticeDropped (j : Job).

Record Delivery := {
  watcherStopped : bool;
  stopped : bool;
  activeDeliveries : Z;
  overflowQueue : list Job;
  running : list Attempt;             (** the calls of [deliverToUrl] under way *)
  returned : nat;                     (** slots whose call is over, before its [finally] *)
  retryTimers : jsmap nat Job;
  nextTimer : nat;
  nextKey : nat;
  deliveryIds : gmap (nat * string) string;
  recording : list Notice;
  log : list Output;
}.

(** *** Field updates *)

Definition with_work (active : Z) (over : list Job) (run : list Attempt) (ret : nat)
    (s : Delivery) : Delivery :=
  {| watcherStopped := watcherStopped s; stopped := stopped s; activeDeliveries := active;
     overflowQueue := over; running := run; returned := ret; retryTimers := retryTimers s;
     nextTimer := nextTimer s; nextKey := nextKey s; deliveryIds := deliveryIds s;
     recording := recording s; log := log s |}.

Definition with_timers (ts : list (nat * Job)) (next : nat) (s : Delivery) : Delivery :=
  {| watcherStopped := watcherStopped s; stopped := stopped s;
     activeDeliveries := activeDeliveries s; overflowQueue := overflowQueue s;
     running := running s; returned := returned s; retryTimers := ts;
     nextTimer := next; nextKey := nextKey s; deliveryIds := deliveryIds s;
     recording := recording s; log := log s |}.

Definition with_ids (n : nat) (ids : gmap (nat * string) string) (s : Delivery) : Delivery :=
  {| watcherStopped := watcherStopped s; stopped := stopped s;
     activeDeliveries := activeDeliveries s; overflowQueue := overflowQueue s;
     running := running s; returned := returned s; retryTimers := retryTimers s;
     nextTimer := nextTimer s; nextKey := n; deliveryIds := ids;
     recording := recording s; log := log s |}.

Definition with_notices (l : list Notice) (s : Delivery) : Delivery :=
  {| watcherStopped := watcherStopped s; stopped := stopped s;
     activeDeliveries := activeDeliveries s; overflowQueue := overflowQueue s;
     running := running s; returned := returned s; retryTimers := retryTimers s;
     nextTimer := nextTimer s; nextKey := nextKey s; deliveryIds := deliveryIds s;
     recording := l; log := log s |}.

Definition with_stopped (w d : bool) (s : Delivery) : Delivery :=
  {| watcherStopped := w; stopped := d;
     activeDeliveries := activeDeliveries s; overflowQueue := overflowQueue s;
     running := running s; returned := returned s; retryTimers := retryTimers s;
     nextTimer := nextTimer s; nextKey := nextKey s; deliveryIds := deliveryIds s;
     recording := recording s; log := log s |}.

Definition logged (out : list Output) (s : Delivery) : Delivery :=
  {| watcherStopped := watcherStopped s; stopped := stopped s;
     activeDeliveries := activeDeliveries s; overflowQueue := overflowQueue s;
     running := running s; returned := returned s; retryTimers := retryTimers s;
     nextTimer := nextTimer s; nextKey := nextKey s; deliveryIds := deliveryIds s;
     recording := recording s; log := log s ++ out |}.

(** Before the constructor returns. *)
Definition initial : Delivery :=
  {| watcherStopped := false; stopped := false; activeDeliveries := 0; overflowQueue := [];
     running := []; returned := 0; retryTimers := []; nextTimer := 0; nextKey := 0;
     deliveryIds := ∅; recording := []; log := [] |}.

Section delivery.
Context (isIPv6 : string → bool) (parse_url : string → option ParsedUrl).
Context (cfg : ResolvedWebhookConfig).

(** [getErrorMessage] of what [fetch] throws, and of a status that is not ok. *)
Definition getErrorMessage (timeoutMs : Z) (r : FetchResult) : string :=
  match r with
  | Status n => "HTTP " +:+ pretty n
  | Aborted => "Delivery timed out after " +:+ pretty timeoutMs +:+ "ms"
  | FetchError m => m
  | FetchThrew => "Unknown error"
  end.

(** [response.ok] *)
Definition ok_status (r : FetchResult) : bool :=
  match r with Status n => (200 <=? n)%Z && (n <=? 299)%Z | _ => false end.

Definition STOPPED : AttemptResult := NotSent "stopped" true.

(** [doAttempt] up to its first await. *)
Definition doAttempt (s : Delivery) (j : Job) : Phase :=
  if watcherStopped s then Answered STOPPED
  else
    match validateUrl isIPv6 parse_url (url j) with
    | Some e => Answered (NotSent e true)
    | None => if urlValidator cfg then Validating else Resolving
    end.

(** The answer of the custom validator. *)
Definition after_validator (r : result string (option string)) (s : Delivery) : Phase :=
  match r with
  | Err m => if watcherStopped s then Answered STOPPED else Answered (NotSent m true)
  | Ok e =>
      if watcherStopped s then Answered STOPPED
      else match e with
           | None | Some "" => Resolving
           | Some m => Answered (NotSent m true)
           end
  end.

(** [validateResolvedHostname]: an error, or the address to pin. *)
Definition validateResolvedHostname (u : string) (rows : option (list string))
    : result string (option string) :=
  match parse_url u with
  | None => Err "Invalid URL"
  | Some p =>
      if isIpLiteral isIPv6 (normalizeHostname (url_hostname p)) then Ok None
      else
        match rows with
        | None => Err "Webhook hostname could not be resolved"
        | Some [] => Err "Webhook hostname did not resolve to an IP address"
        | Some ((a :: _) as addresses) =>
            if existsb (isPrivateIpLiteral isIPv6) addresses then Err BLOCKED_ADDRESS_ERROR
            else Ok (Some a)
        end
  end.

(** The resolver's answer: [fetch] is called, with the id of the event and url. *)
Definition after_resolver (rows : option (list string)) (uuid : string) (j : Job) (s : Delivery)
    : Phase * Delivery :=
  if watcherStopped s then (Answered STOPPED, s)
  else
    match validateResolvedHostname (url j) rows with
    | Err e => (Answered (NotSent e (String.eqb e BLOCKED_ADDRESS_ERROR)), s)
    | Ok address =>
        let id := default uuid (deliveryIds s !! (event j, url j)) in
        (Fetching,
         logged [Posted j id address]
           (with_ids (nextKey s) (<[(event j, url j) := id]> (deliveryIds s)) s))
    end.

(** The outcome of [fetch]. *)
Definition after_fetch (r : FetchResult) (j : Job) (s : Delivery) : AttemptResult :=
  if ok_status r then Sent
  else if watcherStopped s then NotSent "stopped" false
  else NotSent (getErrorMessage (default (deliveryTimeoutMs cfg) (mget (url j) (urlTimeouts cfg))) r) false.

(** ** Deliveries *)

(** Call [deliverToUrl]. *)
Definition deliverToUrl (j : Job) (sl : bool) (s : Delivery) : Delivery :=
  logged [Attempted j sl]
    (with_work (activeDeliveries s) (overflowQueue s)
       (running s ++ [{| job := j; slot := sl; phase := doAttempt s j |}]) (returned s) s).

Definition emitFailure (j : Job) (error : string) (attempts : Z) (s : Delivery) : Delivery :=
  logged [DeadLettered j error attempts]
    (with_notices (recording s ++ [NoticeFailed j error attempts]) s).

Definition emitDropped (j : Job) (s : Delivery) : Delivery :=
  logged [DeadLettered j "retry_cap_exceeded" 0]
    (with_notices (recording s ++ [NoticeDropped j]) s).

(** Make room among the retry timers: the last inserted goes. *)
Definition evict_newest (s : Delivery) : Delivery :=
  if (maxConcurrentRetries cfg <=? Z.of_nat (length (retryTimers s)))%Z then
    match last (retryTimers s) with
    | Some (t, j) => emitDropped j (with_timers (removelast (retryTimers s)) (nextTimer s) s)
    | None => s
    end
  else s.

Definition next_attempt (j : Job) : Job :=
  {| key := key j; event := event j; url := url j; attempt := attempt j + 1 |}.

Definition schedule_retry (random : Z) (j : Job) (s : Delivery) : Delivery :=
  logged [RetryScheduled (next_attempt j) (backoff cfg (attempt j) random)]
    (with_timers (retryTimers s ++ [(nextTimer s, next_attempt j)]) (S (nextTimer s)) s).

(** [deliverToUrl] from the result of its attempt on. *)
Definition after_attempt (random : Z) (j : Job) (r : AttemptResult) (s : Delivery) : Delivery :=
  match r with
  | Sent => logged [Delivered j] s
  | NotSent error terminal =>
      if watcherStopped s then logged [Abandoned j] s
      else if negb terminal && (attempt j <? retries cfg)%Z then
        schedule_retry random j (evict_newest s)
      else emitFailure j error (attempt j) s
  end.

(** ** The concurrency cap *)

Fixpoint drain (fuel : nat) (s : Delivery) : Delivery :=
  match fuel, overflowQueue s with
  | S fuel', j :: rest =>
      if (activeDeliveries s <? maxConcurrentDeliveries cfg)%Z then
        drain fuel'
          (deliverToUrl j true
             (with_work (activeDeliveries s + 1) rest (running s) (returned s) s))
      else s
  | _, _ => s
  end.

(** Each turn of the loop takes one off the queue. *)
Definition drainOverflowQueue (s : Delivery) : Delivery := drain (length (overflowQueue s)) s.

Definition dispatchDelivery (e : nat) (s : Delivery) (u : string) : Delivery :=
  if stopped s then s
  else
    let j := {| key := nextKey s; event := e; url := u; attempt := 1 |} in
    let s := with_ids (S (nextKey s)) (deliveryIds s) s in
    if (maxConcurrentDeliveries cfg <=? activeDeliveries s)%Z then
      let over := overflowQueue s ++ [j] in
      logged (if watcherStopped s then [] else [EmitBackpressure e u (Z.of_nat (length over))])
        (with_work (activeDeliveries s) over (running s) (returned s) s)
    else
      deliverToUrl j true
        (with_work (activeDeliveries s + 1) (overflowQueue s) (running s) (returned s) s).

(** An event with a [raw] field. *)
Definition handleWatcherEvent (e : nat) (s : Delivery) : Delivery :=
  if stopped s then s else foldl (dispatchDelivery e) s (urls cfg).

Definition clearRetryTimers (s : Delivery) : Delivery :=
  logged (Abandoned ∘ snd <$> retryTimers s) (with_timers [] (nextTimer s) s).

Definition stop (s : Delivery) : Delivery :=
  if stopped s then s else clearRetryTimers (with_stopped (watcherStopped s) true s).

(** ** The system *)

Inductive Label :=
  | WatcherEmits (e : nat)
  | Answer_ (n : nat) (a : Answer)        (** to the [n]-th call under way *)
  | Finally
  | TimerFires (t : nat)
  | StoreAnswers (n : nat) (ok : bool)
  | StopDelivery
  | StopWatcher
  | Replay (e : nat) (u : string).

(** The [n]-th call goes on; other answers do not occur. *)
Definition proceed (n : nat) (a : Attempt) (ans : Answer) (s : Delivery) : Delivery :=
  let set p s := with_work (activeDeliveries s) (overflowQueue s) (<[n := in_phase p a]> (running s))
                   (returned s) s in
  match phase a, ans with
  | Validating, ValidatorSays r => set (after_validator r s) s
  | Resolving, ResolverSays rows uuid =>
      let '(p, s') := after_resolver rows uuid (job a) s in set p s'
  | Fetching, FetchSays r => set (Answered (after_fetch r (job a) s)) s
  | Answered r, Continue random =>
      after_attempt random (job a) r
        (with_work (activeDeliveries s) (overflowQueue s) (delete n (running s))
           (if slot a then S (returned s) else returned s) s)
  | _, _ => s
  end.

Definition step (l : Label) (s : Delivery) : Delivery :=
  match l with
  | WatcherEmits e => if watcherStopped s then s else handleWatcherEvent e s
  | Answer_ n a =>
      match running s !! n with Some r => proceed n r a s | None => s end
  | Finally =>
      match returned s with
      | S r =>
          drainOverflowQueue (with_work (activeDeliveries s - 1) (overflowQueue s) (running s) r s)
      | O => s
      end
  | TimerFires t =>
      match mget t (retryTimers s) with
      | Some j => deliverToUrl j false (with_timers (mdel t (retryTimers s)) (nextTimer s) s)
      | None => s
      end
  | StoreAnswers n ok =>
      match recording s !! n with
      | Some notice =>
          let s' := with_notices (delete n (recording s)) s in
          if ok && negb (watcherStopped s) then
            logged [match notice with
                    | NoticeFailed j e a => EmitFailed j e a
                    | NoticeDropped j => EmitDropped j
                    end] s'
          else s'
      | None => s
      end
  | StopDelivery => stop s
  | StopWatcher => if watcherStopped s then s else stop (with_stopped true (stopped s) s)
  | Replay e u =>
      deliverToUrl {| key := nextKey s; event := e; url := u; attempt := 1 |} false
        (with_ids (S (nextKey s)) (deliveryIds s) s)
  end.

Definition run (ls : list Label) : Delivery := foldl (λ s l, step l s) initial ls.
End delivery.

(** ** No delivery is lost *)

(** The job an output ends. *)
Definition settles (o : Output) : list nat :=
  match o with Delivered j | DeadLettered j _ _ | Abandoned j => [key j] | _ => [] end.

(** Where the keys are: waiting for a slot, under way, on a timer, or ended. *)
Definition custody (s : Delivery) : gmultiset nat :=
  list_to_set_disj (key <$> overflowQueue s) ⊎ list_to_set_disj (key ∘ job <$> running s)
  ⊎ list_to_set_disj (key ∘ snd <$> retryTimers s) ⊎ list_to_set_disj (log s ≫= settles).

#[local] Arguments list_to_set_disj : simpl never.
#[local] Arguments disj_union : simpl never.
#[local] Arguments singletonMS : simpl never.

Ltac custody_tac :=
  unfold custody; cbn;
  rewrite ?fmap_app, ?bind_app, ?list_to_set_disj_app; cbn;
  rewrite ?list_to_set_disj_cons, ?list_to_set_disj_nil; cbn; multiset_solver.

Lemma logged_nil s : logged [] s = s.
Proof. destruct s. unfold logged. cbn. by rewrite app_nil_r. Qed.

Section facts.
Context (isIPv6 : string → bool) (parse_url : string → option ParsedUrl).
Context (cfg : ResolvedWebhookConfig).

Notation deliverToUrl := (deliverToUrl isIPv6 parse_url cfg).
Notation drain := (drain isIPv6 parse_url cfg).
Notation dispatchDelivery := (dispatchDelivery isIPv6 parse_url cfg).
Notation proceed := (proceed isIPv6 parse_url cfg).
Notation step := (step isIPv6 parse_url cfg).
Notation run := (run isIPv6 parse_url cfg).

Lemma custody_deliverToUrl j sl s : custody (deliverToUrl j sl s) = {[+ key j +]} ⊎ custody s.
Proof. custody_tac. Qed.

Lemma custody_with_ids n ids s : custody (with_ids n ids s) = custody s.
Proof. done. Qed.

Lemma custody_emitFailure j e a s : custody (emitFailure j e a s) = {[+ key j +]} ⊎ custody s.
Proof. custody_tac. Qed.

Lemma custody_emitDropped j s : custody (emitDropped j s) = {[+ key j +]} ⊎ custody s.
Proof. custody_tac. Qed.

Lemma last_removelast {A} (l : list A) x : last l = Some x → l = removelast l ++ [x].
Proof.
  intros H. destruct l as [|y l'] using rev_ind; [done|].
  rewrite last_snoc in H. injection H as ->. by rewrite removelast_last.
Qed.

Lemma custody_evict s : custody (evict_newest cfg s) = custody s.
Proof.
  unfold evict_newest. case_match; [|done]. destruct (last (retryTimers s)) as [[t j]|] eqn:E; [|done].
  apply last_removelast in E. rewrite custody_emitDropped. unfold custody. cbn. rewrite E at 2.
  rewrite fmap_app, list_to_set_disj_app. cbn. multiset_solver.
Qed.

Lemma keys_insert n p a (l : list Attempt) :
  l !! n = Some a → key ∘ job <$> <[n := in_phase p a]> l = key ∘ job <$> l.
Proof.
  intros H. rewrite list_fmap_insert. apply list_insert_id. by rewrite list_lookup_fmap, H.
Qed.

(** The keys from [n] on are new. *)
Definition new_keys (s s' : Delivery) : Prop :=
  nextKey s ≤ nextKey s' ∧
  custody s' = list_to_set_disj (seq (nextKey s) (nextKey s' - nextKey s)) ⊎ custody s.

Lemma new_keys_same s s' : nextKey s' = nextKey s → custody s' = custody s → new_keys s s'.
Proof. intros H1 H2. split; [lia|]. rewrite H1, H2, Nat.sub_diag. cbn. multiset_solver. Qed.

Lemma new_keys_one s s' :
  nextKey s' = S (nextKey s) → custody s' = {[+ nextKey s +]} ⊎ custody s → new_keys s s'.
Proof.
  intros H1 H2. split; [lia|]. rewrite H1, H2. replace (S (nextKey s) - nextKey s) with 1 by lia.
  cbn [seq]. rewrite list_to_set_disj_cons, list_to_set_disj_nil. multiset_solver.
Qed.

Lemma new_keys_trans s1 s2 s3 : new_keys s1 s2 → new_keys s2 s3 → new_keys s1 s3.
Proof.
  intros [H1 E1] [H2 E2]. split; [lia|]. rewrite E2, E1.
  replace (nextKey s3 - nextKey s1) with ((nextKey s2 - nextKey s1) + (nextKey s3 - nextKey s2)) by lia.
  rewrite seq_app, list_to_set_disj_app. replace (nextKey s1 + (nextKey s2 - nextKey s1)) with (nextKey s2) by lia.
  multiset_solver.
Qed.

Lemma custody_clear w s : custody (clearRetryTimers (with_stopped w true s)) = custody s.
Proof.
  unfold custody, clearRetryTimers. cbn. rewrite bind_app, list_to_set_disj_app.
  assert ((Abandoned ∘ snd <$> retryTimers s) ≫= settles = key ∘ snd <$> retryTimers s) as ->.
  { induction (retryTimers s) as [|[t j] l IH]; [done|]. cbn. by rewrite <-IH. }
  rewrite list_to_set_disj_nil. multiset_solver.
Qed.

Lemma mdel_Permutation {V} t (m : jsmap nat V) v : mget t m = Some v → m ≡ₚ (t, v) :: mdel t m.
Proof.
  induction m as [|[t' v'] m IH]; cbn; [done|]. case_decide as Ht.
  - intros [= ->]. by subst.
  - intros H%IH. rewrite H at 1. by rewrite Permutation_swap.
Qed.

Lemma deliveries_snoc ls l : run (ls ++ [l]) = step l (run ls).
Proof. unfold Webhooks.run. by rewrite foldl_app. Qed.

(** ** A step as a sequence of moves

    Each invariant below is checked against the moves a job and the instance can
    make, once a step is known to be a sequence of them. *)

(** The call of an attempt leaves the list; its slot waits for its [finally]. *)
Definition removed (n : nat) (a : Attempt) (s : Delivery) : Delivery :=
  with_work (activeDeliveries s) (overflowQueue s) (delete n (running s))
    (if slot a then S (returned s) else returned s) s.

Definition new_job (e : nat) (u : string) (s : Delivery) : Job :=
  {| key := nextKey s; event := e; url := u; attempt := 1 |}.

Definition with_key (s : Delivery) : Delivery := with_ids (S (nextKey s)) (deliveryIds s) s.

Definition take_slot (over : list Job) (s : Delivery) : Delivery :=
  with_work (activeDeliveries s + 1) over (running s) (returned s) s.

Definition at_phase (n : nat) (a : Attempt) (p : Phase) (s : Delivery) : Delivery :=
  with_work (activeDeliveries s) (overflowQueue s) (<[n := in_phase p a]> (running s)) (returned s) s.

(** Phases only go on. *)
Definition rank (p : Phase) : nat :=
  match p with Validating => 3 | Resolving => 2 | Fetching => 1 | Answered _ => 0 end.

Inductive move (s : Delivery) : Delivery → Prop :=
  | MoveWait e u out :
      stopped s = false → (maxConcurrentDeliveries cfg ≤ activeDeliveries s)%Z →
      out = [] ∨ (∃ n, out = [EmitBackpressure e u n]) →
      move s (logged out (with_work (activeDeliveries s) (overflowQueue s ++ [new_job e u s])
                            (running s) (returned s) (with_key s)))
  | MoveStart e u :
      stopped s = false → (activeDeliveries s < maxConcurrentDeliveries cfg)%Z →
      overflowQueue s = [] →
      move s (deliverToUrl (new_job e u s) true (take_slot (overflowQueue s) (with_key s)))
  | MoveReplay e u : move s (deliverToUrl (new_job e u s) false (with_key s))
  | MoveResume j rest :
      overflowQueue s = j :: rest → (activeDeliveries s < maxConcurrentDeliveries cfg)%Z →
      move s (deliverToUrl j true (take_slot rest s))
  | MoveFire t j :
      mget t (retryTimers s) = Some j →
      move s (deliverToUrl j false (with_timers (mdel t (retryTimers s)) (nextTimer s) s))
  | MovePhase n a p :
      running s !! n = Some a → p ≠ Fetching → rank p < rank (phase a) → move s (at_phase n a p s)
  | MovePost n a rows address id :
      running s !! n = Some a → phase a = Resolving → watcherStopped s = false →
      validateResolvedHostname isIPv6 parse_url (url (job a)) rows = Ok address →
      (∀ id', deliveryIds s !! (event (job a), url (job a)) = Some id' → id = id') →
      move s (at_phase n a Fetching
                (logged [Posted (job a) id address]
                   (with_ids (nextKey s) (<[(event (job a), url (job a)) := id]> (deliveryIds s)) s)))
  | MoveSent n a :
      running s !! n = Some a → phase a = Answered Sent →
      move s (logged [Delivered (job a)] (removed n a s))
  | MoveAbandon n a e t :
      running s !! n = Some a → phase a = Answered (NotSent e t) → watcherStopped s = true →
      move s (logged [Abandoned (job a)] (removed n a s))
  | MoveRetry n a e random :
      running s !! n = Some a → phase a = Answered (NotSent e false) → watcherStopped s = false →
      (attempt (job a) < retries cfg)%Z →
      move s (schedule_retry cfg random (job a) (evict_newest cfg (removed n a s)))
  | MoveFail n a e t :
      running s !! n = Some a → phase a = Answered (NotSent e t) → watcherStopped s = false →
      t = true ∨ (retries cfg ≤ attempt (job a))%Z →
      move s (emitFailure (job a) e (attempt (job a)) (removed n a s))
  | MoveFinally r :
      returned s = S r →
      move s (with_work (activeDeliveries s - 1) (overflowQueue s) (running s) r s)
  | MoveStop w :
      stopped s = false → (watcherStopped s = true → w = true) →
      move s (clearRetryTimers (with_stopped w true s))
  | MoveStopWatcher : stopped s = true → move s (with_stopped true true s)
  | MoveNotice l out :
      Forall (λ o, match o with EmitFailed _ _ _ | EmitDropped _ => watcherStopped s = false
                   | _ => False end) out →
      move s (logged out (with_notices l s)).

(** A queue is only left waiting while every slot is taken. *)
Definition saturated (s : Delivery) : Prop :=
  overflowQueue s = [] ∨ (maxConcurrentDeliveries cfg ≤ activeDeliveries s)%Z.

Lemma drain_moves fuel s : rtc move s (drain fuel s).
Proof.
  revert s. induction fuel as [|fuel IH]; intros s; cbn [Webhooks.drain]; [done|].
  destruct (overflowQueue s) as [|j rest] eqn:E; [done|].
  destruct (Z.ltb_spec (activeDeliveries s) (maxConcurrentDeliveries cfg)); [|done].
  eapply rtc_l; [by apply (MoveResume s j rest)|apply IH].
Qed.

Lemma drain_saturated fuel s : length (overflowQueue s) ≤ fuel → saturated (drain fuel s).
Proof.
  revert s. induction fuel as [|fuel IH]; intros s; cbn [Webhooks.drain]; unfold saturated.
  - destruct (overflowQueue s); cbn; [by left|lia].
  - intros Hf. destruct (overflowQueue s) as [|j rest] eqn:E; [by left|].
    destruct (Z.ltb_spec (activeDeliveries s) (maxConcurrentDeliveries cfg)); [|by right].
    apply IH. cbn in *. lia.
Qed.

Lemma proceed_moves n a ans s : running s !! n = Some a → rtc move s (proceed n a ans s).
Proof.
  intros H. unfold Webhooks.proceed. destruct (phase a) as [| | |r] eqn:Ep, ans; try done.
  - apply rtc_once. apply MovePhase; [done|unfold after_validator; by repeat case_match|].
    rewrite Ep. unfold after_validator. cbn. repeat case_match; cbn; lia.
  - apply rtc_once. unfold after_resolver. destruct (watcherStopped s) eqn:Ew.
    { apply MovePhase; [done..|]. rewrite Ep. cbn. lia. }
    destruct (validateResolvedHostname _ _ _ _) as [address|e] eqn:Ev.
    + eapply MovePost; try done. intros id' Hid. by rewrite Hid.
    + apply MovePhase; [done..|]. rewrite Ep. cbn. lia.
  - apply rtc_once, MovePhase; [done..|]. rewrite Ep. cbn. lia.
  - apply rtc_once. unfold after_attempt. destruct r as [|e t]; [by apply MoveSent|].
    cbn [watcherStopped with_work]. destruct (watcherStopped s) eqn:Ew; [by eapply MoveAbandon|].
    destruct t; cbn [negb andb]; [by eapply MoveFail; eauto|].
    destruct (Z.ltb_spec (attempt (job a)) (retries cfg)); [by eapply MoveRetry|].
    eapply MoveFail; eauto.
Qed.

Lemma proceed_saturated n a ans s : saturated s → saturated (proceed n a ans s).
Proof.
  unfold Webhooks.proceed, saturated. destruct (phase a) as [| | |[|e t]], ans; try done.
  - unfold after_resolver. destruct (watcherStopped s); [done|].
    by destruct (validateResolvedHostname _ _ _ _).
  - unfold after_attempt, evict_newest. cbn. destruct (watcherStopped s); [done|].
    destruct (negb t && _); [|done]. cbn. case_match; [|done]. by destruct (last _) as [[??]|].
Qed.

Lemma dispatch_moves e us s :
  saturated s →
  rtc move s (foldl (dispatchDelivery e) s us) ∧ saturated (foldl (dispatchDelivery e) s us).
Proof.
  revert s. induction us as [|u us IH]; intros s Hs; cbn [foldl]; [done|].
  assert (rtc move s (dispatchDelivery e s u) ∧ saturated (dispatchDelivery e s u)) as [H1 H2].
  { unfold Webhooks.dispatchDelivery. destruct (stopped s) eqn:Es; [done|]. cbn [activeDeliveries with_ids].
    destruct (Z.leb_spec (maxConcurrentDeliveries cfg) (activeDeliveries s)).
    - split; [|by right]. apply rtc_once. apply (MoveWait s e u); [done..|].
      cbn. destruct (watcherStopped s); [by left|right; by eexists].
    - destruct Hs as [Hs|]; [|lia]. split; [by apply rtc_once, (MoveStart s e u)|by left]. }
  destruct (IH _ H2) as [H3 H4]. split; [by etrans|done].
Qed.

Lemma step_moves l s : saturated s → rtc move s (step l s) ∧ saturated (step l s).
Proof.
  intros Hs. destruct l as [e|n a| |t|n ok| | |e u]; cbn [Webhooks.step].
  - destruct (watcherStopped s); [done|]. unfold handleWatcherEvent.
    destruct (stopped s); [done|by apply dispatch_moves].
  - destruct (running s !! n) as [r|] eqn:E; [|done].
    split; [by apply proceed_moves|by apply proceed_saturated].
  - destruct (returned s) as [|r] eqn:E; [done|]. split; [|by apply drain_saturated].
    eapply rtc_l; [by apply (MoveFinally s r)|apply drain_moves].
  - destruct (mget t (retryTimers s)) as [j|] eqn:E; [|done].
    split; [by apply rtc_once, MoveFire|done].
  - destruct (recording s !! n) as [x|]; [|done].
    destruct (ok && negb (watcherStopped s)) eqn:Eok; (split; [|done]); apply rtc_once.
    + apply andb_true_iff in Eok as [_ Ew%negb_true_iff]. apply MoveNotice.
      destruct x; by repeat constructor.
    + rewrite <-(logged_nil (with_notices (delete n (recording s)) s)). by apply MoveNotice.
  - unfold stop. destruct (stopped s) eqn:Es; [done|]. split; [|done].
    apply rtc_once. by apply MoveStop.
  - destruct (watcherStopped s) eqn:Ew; [done|]. unfold stop. cbn.
    destruct (stopped s) eqn:Es; (split; [|done]); apply rtc_once.
    + by apply MoveStopWatcher.
    + by apply (MoveStop s true).
  - split; [by apply rtc_once, (MoveReplay s e u)|done].
Qed.

(** What every move keeps holds throughout a run. *)
Lemma run_invariant (P : Delivery → Prop) :
  P initial → (∀ s s', P s → move s s' → P s') → ∀ ls, P (run ls).
Proof.
  intros H0 Hm ls. assert (P (run ls) ∧ saturated (run ls)) as [H _]; [|done].
  induction ls as [|l ls [IH Hsat]] using rev_ind; [split; [done|by left]|].
  rewrite deliveries_snoc. destruct (step_moves l _ Hsat) as [Hs Hsat']. split; [|done].
  clear -Hm Hs IH. induction Hs as [|s1 s2 s3 H12 _ IH']; [done|]. apply IH'. by eapply Hm.
Qed.

(** ** Conservation *)

Lemma custody_at_phase n p a s :
  running s !! n = Some a → custody (at_phase n a p s) = custody s.
Proof. intros H. unfold custody. cbn. by rewrite keys_insert. Qed.

Lemma custody_removed n a s :
  running s !! n = Some a → custody s = {[+ key (job a) +]} ⊎ custody (removed n a s).
Proof.
  intros H. unfold custody. cbn.
  assert (list_to_set_disj (key ∘ job <$> running s)
    = {[+ key (job a) +]} ⊎ list_to_set_disj (key ∘ job <$> delete n (running s)) :> gmultiset nat)
    as ->; [|multiset_solver].
  apply delete_Permutation in H. by rewrite H at 1.
Qed.

Lemma nextKey_evict s : nextKey (evict_newest cfg s) = nextKey s.
Proof. unfold evict_newest. case_match; [|done]. by destruct (last _) as [[??]|]. Qed.

Lemma custody_schedule random j s :
  custody (schedule_retry cfg random j s) = {[+ key j +]} ⊎ custody s.
Proof. custody_tac. Qed.

Lemma move_new_keys s s' : move s s' → new_keys s s'.
Proof.
  intros Hm. destruct Hm as [e u out _ _ Ho|e u _ _ _|e u|j rest Ho _|t j Hj|n a p Hn _ _
    |n a rows address id Hn _ _ _ _|n a Hn _|n a e t Hn _ _|n a e random Hn _ _ _|n a e t Hn _ _ _
    |r Hr|w Hst _|_|l out Ho];
    try (pose proof (custody_removed n a s Hn) as Hr).
  - apply new_keys_one; [done|]. destruct Ho as [->|[n ->]]; custody_tac.
  - apply new_keys_one; [done|]. by rewrite custody_deliverToUrl.
  - apply new_keys_one; [done|]. by rewrite custody_deliverToUrl.
  - apply new_keys_same; [done|]. rewrite custody_deliverToUrl. unfold custody. cbn. rewrite Ho. cbn.
    multiset_solver.
  - apply new_keys_same; [done|]. rewrite custody_deliverToUrl. unfold custody. cbn.
    apply mdel_Permutation in Hj.
    assert (list_to_set_disj (key ∘ snd <$> retryTimers s)
      = {[+ key j +]} ⊎ list_to_set_disj (key ∘ snd <$> mdel t (retryTimers s)) :> gmultiset nat)
      as ->; [|multiset_solver].
    by rewrite Hj at 1.
  - apply new_keys_same; [done|]. by apply custody_at_phase.
  - apply new_keys_same; [done|]. rewrite custody_at_phase by exact Hn. custody_tac.
  - apply new_keys_same; [done|]. rewrite Hr. custody_tac.
  - apply new_keys_same; [done|]. rewrite Hr. custody_tac.
  - apply new_keys_same; [cbn; by rewrite nextKey_evict|].
    by rewrite custody_schedule, custody_evict, Hr.
  - apply new_keys_same; [done|]. by rewrite custody_emitFailure, Hr.
  - by apply new_keys_same.
  - apply new_keys_same; [done|]. by apply custody_clear.
  - by apply new_keys_same.
  - apply new_keys_same; [done|]. unfold custody. cbn. rewrite bind_app, list_to_set_disj_app.
    assert (out ≫= settles = []) as ->; [|rewrite list_to_set_disj_nil; multiset_solver].
    induction Ho as [|o out Ho _ IH]; [done|]. cbn. rewrite IH. by destruct o.
Qed.

(** ** The caps *)

Definition slots (l : list Attempt) : nat := length (base.filter (λ a, slot a = true) l).

Definition within_caps (s : Delivery) : Prop :=
  activeDeliveries s = Z.of_nat (slots (running s) + returned s) ∧
  (activeDeliveries s ≤ Z.max 1 (maxConcurrentDeliveries cfg))%Z ∧
  (Z.of_nat (length (retryTimers s)) ≤ Z.max 1 (maxConcurrentRetries cfg))%Z.

#[local] Arguments slots : simpl never.

Lemma slots_cons a l : slots (a :: l) = (if slot a then 1 else 0) + slots l.
Proof. unfold slots. rewrite filter_cons. by destruct (slot a). Qed.

#[local] Instance slots_Permutation : Proper ((≡ₚ) ==> (=)) slots.
Proof. intros l l' H. unfold slots. by rewrite H. Qed.

Lemma slots_snoc l a : slots (l ++ [a]) = slots l + (if slot a then 1 else 0).
Proof.
  rewrite Permutation_app_comm. change ([a] ++ l) with (a :: l). rewrite slots_cons. lia.
Qed.

Lemma delete_insert_same {A} (l : list A) n x : delete n (<[n := x]> l) = delete n l.
Proof.
  revert n. induction l as [|y l IH]; intros [|n]; [done..|].
  change (y :: delete n (<[n := x]> l) = y :: delete n l). by rewrite IH.
Qed.

Lemma slots_delete l n a :
  l !! n = Some a → slots l = slots (delete n l) + (if slot a then 1 else 0).
Proof. intros H. rewrite (delete_Permutation _ _ _ H) at 1. rewrite slots_cons. lia. Qed.

Lemma slots_set l n a p : l !! n = Some a → slots (<[n := in_phase p a]> l) = slots l.
Proof.
  intros H. rewrite (slots_delete l n a H).
  assert (<[n := in_phase p a]> l !! n = Some (in_phase p a)) as H'
    by (apply list_lookup_insert_eq; by eapply lookup_lt_Some).
  rewrite (slots_delete _ n _ H'). by rewrite delete_insert_same.
Qed.

Lemma evict_length s :
  (Z.of_nat (length (retryTimers s)) ≤ Z.max 1 (maxConcurrentRetries cfg))%Z →
  (1 ≤ maxConcurrentRetries cfg)%Z →
  (Z.of_nat (length (retryTimers (evict_newest cfg s))) < maxConcurrentRetries cfg)%Z.
Proof.
  intros H H1. unfold evict_newest.
  destruct (Z.leb_spec (maxConcurrentRetries cfg) (Z.of_nat (length (retryTimers s)))); [|done].
  destruct (last (retryTimers s)) as [[t j]|] eqn:E.
  - apply last_removelast in E. cbn. rewrite E, length_app in H. cbn in H. lia.
  - apply last_None in E. rewrite E in *. cbn in *. lia.
Qed.

Lemma evict_fields s :
  running (evict_newest cfg s) = running s ∧ returned (evict_newest cfg s) = returned s ∧
  activeDeliveries (evict_newest cfg s) = activeDeliveries s ∧
  watcherStopped (evict_newest cfg s) = watcherStopped s ∧
  overflowQueue (evict_newest cfg s) = overflowQueue s ∧
  deliveryIds (evict_newest cfg s) = deliveryIds s ∧ stopped (evict_newest cfg s) = stopped s.
Proof. unfold evict_newest. case_match; [|done]. by destruct (last _) as [[??]|]. Qed.

Lemma length_mdel {V} t (m : jsmap nat V) : length (mdel t m) ≤ length m.
Proof. induction m as [|[t' v] m IH]; cbn; [done|]. case_decide; cbn; lia. Qed.

Lemma removed_slots n a s :
  running s !! n = Some a →
  slots (running (removed n a s)) + returned (removed n a s) = slots (running s) + returned s.
Proof. intros H. rewrite (slots_delete _ _ _ H). cbn. destruct (slot a); lia. Qed.

Lemma move_within_caps s s' :
  (1 ≤ maxConcurrentRetries cfg)%Z → (1 ≤ maxConcurrentDeliveries cfg)%Z →
  within_caps s → move s s' → within_caps s'.
Proof.
  intros H1 H2 (Ha & Hc & Ht) Hm. unfold within_caps.
  destruct Hm as [e u out _ _ _|e u _ Hlt _|e u|j rest _ Hlt|t j Hj|n a p Hn _ _
    |n a rows address id Hn _ _ _ _|n a Hn _|n a e t Hn _ _|n a e random Hn _ _ _|n a e t Hn _ _ _
    |r Hr|w _ _|_|l out _];
    try (pose proof (removed_slots n a s Hn)).
  - done.
  - cbn. rewrite slots_snoc. cbn. lia.
  - cbn. rewrite slots_snoc. cbn. lia.
  - cbn. rewrite slots_snoc. cbn. lia.
  - cbn. rewrite slots_snoc. cbn. pose proof (length_mdel t (retryTimers s)). lia.
  - cbn. by rewrite (slots_set _ _ _ _ Hn).
  - cbn. by rewrite (slots_set _ _ _ _ Hn).
  - split_and!; [|done|done]. by cbn in *; rewrite H.
  - split_and!; [|done|done]. by cbn in *; rewrite H.
  - destruct (evict_fields (removed n a s)) as (Er & Eret & Eact & _).
    unfold schedule_retry. cbn. rewrite Er, Eret, Eact, H. split_and!; [done|done|].
    pose proof (evict_length (removed n a s) Ht H1). rewrite length_app. cbn in *. lia.
  - split_and!; [|done|done]. by cbn in *; rewrite H.
  - cbn. lia.
  - cbn. split_and!; [done|done|lia].
  - done.
  - done.
Qed.

(** ** Attempts *)

(** The attempt numbers a key has been called with. *)
Definition attempt_of (k : nat) (o : Output) : list Z :=
  match o with Attempted j _ => if decide (key j = k) then [attempt j] else [] | _ => [] end.

Definition attempts_of (k : nat) (out : list Output) : list Z := out ≫= attempt_of k.

(** The jobs that may go on, with the number of attempts made so far. *)
Definition live (s : Delivery) : list (nat * Z) :=
  ((λ j, (key j, attempt j - 1)%Z) <$> overflowQueue s)
  ++ ((λ a, (key (job a), attempt (job a))) <$> running s)
  ++ ((λ p : nat * Job, (key p.2, attempt p.2 - 1)%Z) <$> retryTimers s).

Definition most : Z := Z.max 1 (retries cfg).

Definition counted (s : Delivery) : Prop :=
  NoDup (live s).*1 ∧
  (∀ k n, (k, n) ∈ live s → k < nextKey s ∧ (0 ≤ n)%Z ∧ attempts_of k (log s) = seqZ 1 n) ∧
  (∀ k, nextKey s ≤ k → attempts_of k (log s) = []) ∧
  (∀ k, ∃ n, (0 ≤ n ≤ most)%Z ∧ attempts_of k (log s) = seqZ 1 n) ∧
  Forall (λ j, attempt j = 1%Z) (overflowQueue s) ∧
  Forall (λ p : nat * Job, attempt p.2 ≤ retries cfg)%Z (retryTimers s).

(** How a move changes what is live. *)
Lemma counted_fewer s s' :
  live s' ⊆+ live s → (∀ k, attempts_of k (log s') = attempts_of k (log s)) →
  nextKey s' = nextKey s →
  (∀ j, j ∈ overflowQueue s' → j ∈ overflowQueue s) →
  Forall (λ p : nat * Job, attempt p.2 ≤ retries cfg)%Z (retryTimers s') →
  counted s → counted s'.
Proof.
  intros Hl Ha Hk Ho Ht (H1 & H2 & H3 & H4 & H5 & H6). split_and!.
  - apply submseteq_Permutation in Hl as [k Hl]. rewrite Hl, fmap_app in H1. by apply NoDup_app in H1 as [? _].
  - intros k n Hin. rewrite Ha, Hk. apply H2. by eapply elem_of_submseteq.
  - intros k. rewrite Ha, Hk. apply H3.
  - intros k. rewrite Ha. apply H4.
  - apply Forall_forall. intros j Hj%Ho. rewrite Forall_forall in H5. by apply H5.
  - done.
Qed.

Lemma seqZ_snoc n : (0 ≤ n)%Z → seqZ 1 n ++ [n + 1]%Z = seqZ 1 (n + 1).
Proof.
  intros Hn. rewrite <-(Z2Nat.id n Hn). generalize (Z.to_nat n) as i. intros i.
  replace (Z.of_nat i + 1)%Z with (Z.of_nat (S i)) by lia. rewrite seqZ_S. do 2 f_equal. lia.
Qed.

(** An attempt starts: of a job that was waiting, or of a new one. *)
Lemma counted_attempt s s' j sl rest :
  live s' ≡ₚ (key j, attempt j) :: rest →
  live s ≡ₚ (key j, attempt j - 1)%Z :: rest ∧ nextKey s' = nextKey s
  ∨ live s ≡ₚ rest ∧ key j = nextKey s ∧ attempt j = 1%Z ∧ nextKey s' = S (nextKey s) →
  log s' = log s ++ [Attempted j sl] →
  (attempt j ≤ most)%Z →
  (∀ j, j ∈ overflowQueue s' → j ∈ overflowQueue s) →
  (∀ p, p ∈ retryTimers s' → p ∈ retryTimers s) →
  counted s → counted s'.
Proof.
  intros Hl' Hl Hlog Hmost Ho Ht (H1 & H2 & H3 & H4 & H5 & H6).
  assert (NoDup (key j :: rest.*1) ∧ (∀ k n, (k, n) ∈ rest → (k, n) ∈ live s) ∧
    (0 ≤ attempt j - 1)%Z ∧ attempts_of (key j) (log s) = seqZ 1 (attempt j - 1) ∧
    key j < nextKey s' ∧ nextKey s ≤ nextKey s') as (Hnd & Hrest & Hpos & Hj & Hkey & Hnext).
  { destruct Hl as [[Hl Hk]|(Hl & Hk & Hat & Hk')].
    - destruct (H2 (key j) (attempt j - 1)%Z) as (? & ? & ?); [rewrite Hl; by left|].
      split_and!; try lia; try done.
      + by rewrite Hl in H1.
      + intros k n Hin. rewrite Hl. by right.
    - split_and!; try lia.
      + apply NoDup_cons. rewrite Hl in H1. split; [|done].
        intros [[k n] [Hk1 Hin]]%list_elem_of_fmap. cbn in Hk1. subst k.
        destruct (H2 (key j) n) as [? _]; [by rewrite Hl|lia].
      + intros k n Hin. by rewrite Hl.
      + rewrite Hat. cbn. apply H3. lia. }
  assert (∀ k, k ≠ key j → attempts_of k (log s') = attempts_of k (log s)) as Hother.
  { intros k Hne. rewrite Hlog. unfold attempts_of. rewrite bind_app. cbn.
    rewrite decide_False by done. by rewrite app_nil_r. }
  assert (attempts_of (key j) (log s') = seqZ 1 (attempt j)) as Hself.
  { rewrite Hlog. unfold attempts_of in *. rewrite bind_app, Hj. cbn. rewrite decide_True by done.
    rewrite app_nil_r. replace (attempt j) with (attempt j - 1 + 1)%Z at 2 3 by lia.
    by apply seqZ_snoc. }
  split_and!.
  - by rewrite Hl'.
  - intros k n. rewrite Hl', elem_of_cons. intros [[= -> ->]|Hin]; [split_and!; [done|lia|done]|].
    destruct (H2 k n) as (? & ? & ?); [by apply Hrest|]. split_and!; [lia|done|].
    rewrite Hother; [done|]. intros ->. apply NoDup_cons in Hnd as [Hnd _]. apply Hnd.
    apply list_elem_of_fmap. by exists (key j, n).
  - intros k Hk. rewrite Hother by lia. apply H3. lia.
  - intros k. destruct (decide (k = key j)) as [->|Hne].
    + exists (attempt j). split; [lia|done].
    + rewrite Hother by done. apply H4.
  - apply Forall_forall. intros x Hx%Ho. rewrite Forall_forall in H5. by apply H5.
  - apply Forall_forall. intros x Hx%Ht. rewrite Forall_forall in H6. by apply H6.
Qed.

#[local] Arguments attempts_of : simpl never.

Lemma attempts_of_app k out out' : attempts_of k (out ++ out') = attempts_of k out ++ attempts_of k out'.
Proof. apply bind_app. Qed.

Lemma live_at_phase n p a s : running s !! n = Some a → live (at_phase n a p s) = live s.
Proof.
  intros H. unfold live. cbn. f_equal. f_equal. rewrite list_fmap_insert.
  apply list_insert_id. by rewrite list_lookup_fmap, H.
Qed.

Lemma live_removed n a s :
  running s !! n = Some a → live s ≡ₚ (key (job a), attempt (job a)) :: live (removed n a s).
Proof.
  intros H. unfold live. cbn. rewrite (delete_Permutation _ _ _ H) at 1. cbn.
  by rewrite <-Permutation_middle.
Qed.

Lemma live_evict s : live (evict_newest cfg s) ⊆+ live s.
Proof.
  unfold evict_newest. case_match; [|done]. destruct (last (retryTimers s)) as [[t j]|] eqn:E; [|done].
  apply last_removelast in E. unfold live. cbn. rewrite E at 2.
  apply submseteq_app; [done|]. apply submseteq_app; [done|]. rewrite fmap_app.
  by apply submseteq_inserts_r.
Qed.

Lemma evict_timers_Forall (P : nat * Job → Prop) s :
  Forall P (retryTimers s) → Forall P (retryTimers (evict_newest cfg s)).
Proof.
  intros H. unfold evict_newest. case_match; [|done].
  destruct (last (retryTimers s)) as [[t j]|] eqn:E; [|done]. cbn.
  apply last_removelast in E. rewrite E in H. by apply Forall_app in H as [? _].
Qed.

Lemma evict_attempts k s : attempts_of k (log (evict_newest cfg s)) = attempts_of k (log s).
Proof.
  unfold evict_newest. case_match; [|done]. destruct (last _) as [[t j]|]; [|done].
  cbn. rewrite attempts_of_app. cbn. by rewrite app_nil_r.
Qed.

Lemma counted_wait s s' :
  live s' ≡ₚ (nextKey s, 0%Z) :: live s → (∀ k, attempts_of k (log s') = attempts_of k (log s)) →
  nextKey s' = S (nextKey s) →
  Forall (λ j, attempt j = 1%Z) (overflowQueue s') → retryTimers s' = retryTimers s →
  counted s → counted s'.
Proof.
  intros Hl Ha Hk Ho Ht (H1 & H2 & H3 & H4 & H5 & H6). split_and!; [| | | |done|by rewrite Ht].
  - rewrite Hl. cbn. apply NoDup_cons. split; [|done].
    intros [[k n] [Hk1 Hin]]%list_elem_of_fmap. cbn in Hk1. subst k. apply H2 in Hin as [? _]. lia.
  - intros k n. rewrite Hl, Hk, Ha, elem_of_cons. intros [[= -> ->]|Hin].
    + split_and!; [lia|done|]. by apply H3.
    + destruct (H2 k n Hin) as (? & ? & ?). split_and!; [lia|done|done].
  - intros k Hk'. rewrite Ha. apply H3. lia.
  - intros k. rewrite Ha. apply H4.
Qed.

Lemma counted_removed out n a s :
  running s !! n = Some a → (∀ k, attempts_of k out = []) →
  counted s → counted (logged out (removed n a s)).
Proof.
  intros Hn Hout Hs. eapply counted_fewer; [| | | | |exact Hs]; try done.
  - change (live (logged out (removed n a s))) with (live (removed n a s)).
    rewrite (live_removed n a s Hn). by apply submseteq_cons.
  - intros k. cbn. by rewrite attempts_of_app, Hout, app_nil_r.
  - by destruct Hs as (_ & _ & _ & _ & _ & ?).
Qed.

Lemma live_deliver j sl s : live (deliverToUrl j sl s) ≡ₚ (key j, attempt j) :: live s.
Proof. unfold live. cbn. rewrite fmap_app. cbn. rewrite <-!app_assoc. cbn [app]. by rewrite <-!Permutation_middle. Qed.

Lemma most_bounds : (1 ≤ most ∧ retries cfg ≤ most)%Z.
Proof. unfold most. lia. Qed.

Lemma move_counted s s' : counted s → move s s' → counted s'.
Proof.
  intros Hs Hm. pose proof most_bounds as [M1 M2]. pose proof Hs as (_ & _ & _ & _ & H5 & H6).
  destruct Hm as [e u out _ _ Ho|e u _ _ _|e u|j rest Ho _|t j Hj|n a p Hn _ _
    |n a rows address id Hn _ _ _ _|n a Hn _|n a e t Hn _ _|n a e random Hn _ _ Hlt|n a e t Hn _ _ _
    |r Hr|w _ _|_|l out Ho].
  - apply (counted_wait s); [| |done| |done|done].
    + unfold live. cbn. rewrite fmap_app, <-app_assoc. cbn. by rewrite <-Permutation_middle.
    + intros k. cbn. destruct Ho as [->|[n ->]]; rewrite attempts_of_app; apply app_nil_r.
    + cbn. apply Forall_app. split; [done|]. by apply Forall_singleton.
  - eapply (counted_attempt s); [apply live_deliver|right|done|done|by intros ?|by intros ?|done].
    by split_and!.
  - eapply (counted_attempt s); [apply live_deliver|right|done|done|by intros ?|by intros ?|done].
    by split_and!.
  - rewrite Ho in H5. apply Forall_cons in H5 as [Hj H5].
    eapply (counted_attempt s); [apply live_deliver|left|done|by rewrite Hj| |by intros ?|done].
    + split; [|done]. unfold live. cbn. by rewrite Ho.
    + cbn. rewrite Ho. intros ? ?. by right.
  - pose proof (mget_Some_elem _ _ _ Hj) as Hin. rewrite Forall_forall in H6.
    specialize (H6 _ Hin). cbn in H6. apply mdel_Permutation in Hj.
    eapply (counted_attempt s); [apply live_deliver|left|done|lia|by intros ?| |done].
    + split; [|done]. unfold live. cbn. rewrite Hj at 1. cbn. by rewrite <-!Permutation_middle.
    + cbn. intros p Hp. rewrite Hj. by right.
  - by eapply counted_fewer; [by rewrite live_at_phase|..].
  - eapply counted_fewer; [rewrite live_at_phase by exact Hn| |..| |exact Hs]; try done.
    intros k. cbn. rewrite attempts_of_app. apply app_nil_r.
  - by apply counted_removed.
  - by apply counted_removed.
  - eapply counted_fewer; [| | | | |exact Hs].
    + rewrite (live_removed n a s Hn). unfold schedule_retry.
      destruct (evict_fields (removed n a s)) as (Er & _ & _ & _ & Eo & _).
      pose proof (live_evict (removed n a s)) as He.
      etrans; [|by apply submseteq_skip, He]. unfold live. cbn. rewrite fmap_app. cbn.
      replace (attempt (job a) + 1 - 1)%Z with (attempt (job a)) by lia.
      by rewrite !(assoc_L (++)), <-Permutation_cons_append.
    + intros k. cbn. rewrite attempts_of_app. cbn. rewrite app_nil_r. apply (evict_attempts k (removed n a s)).
    + cbn. by rewrite nextKey_evict.
    + cbn. destruct (evict_fields (removed n a s)) as (_ & _ & _ & _ & Eo & _). by rewrite Eo.
    + cbn. apply Forall_app. split; [by apply evict_timers_Forall|].
      apply Forall_singleton. cbn. lia.
  - by apply (counted_removed [DeadLettered _ _ _]).
  - by eapply counted_fewer.
  - eapply counted_fewer; [| | | | |exact Hs]; try done.
    + unfold live. cbn. apply submseteq_app; [done|]. apply submseteq_app; [done|apply submseteq_nil_l].
    + intros k. cbn. rewrite attempts_of_app. assert (attempts_of k (Abandoned ∘ snd <$> retryTimers s) = [])
        as ->; [|apply app_nil_r]. clear. by induction (retryTimers s).
  - by eapply counted_fewer.
  - eapply counted_fewer; [| | | | |exact Hs]; try done.
    intros k. cbn. rewrite attempts_of_app. assert (attempts_of k out = []) as ->; [|apply app_nil_r].
    induction Ho as [|o out Ho _ IH]; [done|]. unfold attempts_of in *. cbn. rewrite IH. by destruct o.
Qed.

(** The attempts of a job are numbered 1, 2, 3 ... without a gap or a repeat,
    and there are at most [retries] of them (one, where [retries] is less). *)
Theorem attempts_numbered ls k :
  ∃ n, (0 ≤ n ≤ Z.max 1 (retries cfg))%Z ∧ attempts_of k (log (run ls)) = seqZ 1 n.
Proof.
  assert (counted (run ls)) as (_ & _ & _ & H & _); [|exact (H k)].
  apply run_invariant; [|exact move_counted]. pose proof most_bounds.
  split_and!; try done; [by apply NoDup_nil|by intros k' n []%elem_of_nil| ].
  intros k'. exists 0%Z. split; [lia|done].
Qed.

(** ** Where a delivery may go *)

(** The url passed the checks, and the address is one the resolver gave for its
    host, none of whose addresses is private; a literal host is not looked up. *)
Definition validated (u : string) (address : option string) : Prop :=
  ∃ p, parse_url u = Some p ∧
    let host := normalizeHostname (url_hostname p) in
    isLoopbackHostname host = false ∧ isPrivateIpLiteral isIPv6 host = false ∧
    match address with
    | None => isIpLiteral isIPv6 host = true
    | Some a => isIpLiteral isIPv6 host = false ∧ isPrivateIpLiteral isIPv6 a = false
    end.

Definition posted_ok (o : Output) : Prop :=
  match o with Posted j _ address => validated (url j) address | _ => True end.

Definition past_validation (a : Attempt) : Prop :=
  match phase a with Answered _ => True | _ => validateUrl isIPv6 parse_url (url (job a)) = None end.

Lemma validated_resolved u rows address :
  validateUrl isIPv6 parse_url u = None →
  validateResolvedHostname isIPv6 parse_url u rows = Ok address → validated u address.
Proof.
  unfold validateUrl, validateResolvedHostname, validated.
  destruct (parse_url u) as [p|]; [|done]. cbv zeta. set (host := normalizeHostname (url_hostname p)).
  intros Hv Hr. exists p. split; [done|]. fold host.
  destruct (isLoopbackHostname host); [done|]. destruct (isPrivateIpLiteral isIPv6 host); [done|].
  split_and!; [done..|]. destruct (isIpLiteral isIPv6 host) eqn:Eh; [by simplify_eq|].
  destruct rows as [[|a rows]|]; try done.
  destruct (existsb (isPrivateIpLiteral isIPv6) (a :: rows)) eqn:Ee; [done|]. injection Hr as <-.
  by apply orb_false_iff in Ee as [Ee _].
Qed.

Definition guarded (s : Delivery) : Prop :=
  Forall posted_ok (log s) ∧ Forall past_validation (running s).

Lemma doAttempt_past j sl s : past_validation {| job := j; slot := sl; phase := doAttempt isIPv6 parse_url cfg s j |}.
Proof.
  unfold past_validation, doAttempt. cbn. destruct (watcherStopped s); [done|].
  destruct (validateUrl _ _ _) eqn:E; [done|]. by destruct (urlValidator cfg).
Qed.

Lemma guarded_deliver j sl s s' :
  log s' = log s → running s' = running s → guarded s → guarded (deliverToUrl j sl s').
Proof.
  intros Hl Hr [H1 H2]. split; cbn; rewrite ?Hl, ?Hr; (apply Forall_app; split; [done|]);
    apply Forall_singleton; [done|apply doAttempt_past].
Qed.

Lemma guarded_log out s s' :
  log s' = log s ++ out → Forall posted_ok out → (∀ a, a ∈ running s' → a ∈ running s) →
  guarded s → guarded s'.
Proof.
  intros Hl Ho Hr [H1 H2]. split.
  - rewrite Hl. by apply Forall_app.
  - apply Forall_forall. intros a Ha%Hr. rewrite Forall_forall in H2. by apply H2.
Qed.

Lemma elem_of_delete {A} (l : list A) n x : x ∈ delete n l → x ∈ l.
Proof.
  rewrite delete_take_drop. intros [H|H]%elem_of_app; rewrite <-(take_drop n l), elem_of_app;
    [by left|right]. rewrite <-(take_drop 1 (drop n l)), elem_of_app, drop_drop.
  right. by rewrite Nat.add_comm in H || (replace (n + 1) with (S n) by lia).
Qed.

Lemma evict_log s :
  ∃ out, log (evict_newest cfg s) = log s ++ out ∧
    Forall (λ o, match o with DeadLettered _ _ _ => True | _ => False end) out.
Proof.
  unfold evict_newest. case_match; [|by exists []; rewrite app_nil_r].
  destruct (last _) as [[t j]|]; [|by exists []; rewrite app_nil_r].
  exists [DeadLettered j "retry_cap_exceeded" 0]. split; [done|by repeat constructor].
Qed.

Lemma Forall_quiet (P Q : Output → Prop) out : (∀ o, P o → Q o) → Forall P out → Forall Q out.
Proof. intros H1 H2. eapply Forall_impl; [exact H2|exact H1]. Qed.

Lemma guarded_at_phase n a p s :
  running s !! n = Some a → (past_validation a → past_validation (in_phase p a)) →
  guarded s → guarded (at_phase n a p s).
Proof.
  intros Hn Hp [H1 H2]. split; [done|]. cbn. apply Forall_insert; [done|]. apply Hp.
  by eapply Forall_lookup_1.
Qed.

Lemma move_guarded s s' : guarded s → move s s' → guarded s'.
Proof.
  intros Hs Hm.
  destruct Hm as [e u out _ _ Ho|e u _ _ _|e u|j rest _ _|t j _|n a p Hn Hp Hrank
    |n a rows address id Hn Hph _ Hv _|n a Hn _|n a e t Hn _ _|n a e random Hn _ _ _|n a e t Hn _ _ _
    |r Hr|w _ _|_|l out Ho].
  - eapply (guarded_log out); [done| |done|done]. by destruct Ho as [->|[n ->]]; repeat constructor.
  - by apply (guarded_deliver _ _ s).
  - by apply (guarded_deliver _ _ s).
  - by apply (guarded_deliver _ _ s).
  - by apply (guarded_deliver _ _ s).
  - apply guarded_at_phase; [done| |done]. unfold past_validation. cbn.
    destruct (phase a), p; cbn in *; try done; lia.
  - apply guarded_at_phase; [done| |].
    + unfold past_validation. cbn. by rewrite Hph.
    + eapply guarded_log; [done| |done|exact Hs]. apply Forall_singleton.
      cbn. apply (validated_resolved _ rows); [|done]. destruct Hs as [_ H2].
      pose proof (Forall_lookup_1 _ _ _ _ H2 Hn) as Ha. unfold past_validation in Ha. by rewrite Hph in Ha.
  - by eapply (guarded_log _ s); [|apply Forall_singleton|intros b; apply elem_of_delete|].
  - by eapply (guarded_log _ s); [|apply Forall_singleton|intros b; apply elem_of_delete|].
  - destruct (evict_log (removed n a s)) as (out & Hl & Ho).
    destruct (evict_fields (removed n a s)) as (Er & _).
    eapply (guarded_log (out ++ [_]) s); [cbn; by rewrite Hl, <-app_assoc| | |exact Hs].
    + apply Forall_app. split; [|by apply Forall_singleton].
      eapply Forall_quiet; [|exact Ho]. by intros [].
    + cbn. rewrite Er. intros b. apply elem_of_delete.
  - by eapply (guarded_log _ s); [|apply Forall_singleton|intros b; apply elem_of_delete|].
  - done.
  - eapply guarded_log; [done| |done|exact Hs]. apply Forall_forall.
    by intros o [p [-> _]]%list_elem_of_fmap.
  - done.
  - eapply guarded_log; [done| |done|exact Hs]. eapply Forall_quiet; [|exact Ho]. by intros [].
Qed.

(** C20: Every request that is sent goes to a url that parses, whose host is not a
    loopback name nor a blocked literal, and is pinned to an address outside the
    blocked ranges, unless the host is itself a literal. *)
Theorem posts_validated ls j id address :
  Posted j id address ∈ log (run ls) → validated (url j) address.
Proof.
  intros Hin. assert (guarded (run ls)) as [H _].
  { apply run_invariant; [by split|exact move_guarded]. }
  rewrite Forall_forall in H. exact (H _ Hin).
Qed.

(** ** The order of first attempts *)

Definition slot_start (o : Output) : list nat :=
  match o with Attempted j true => [key j] | _ => [] end.

Definition slot_starts (out : list Output) : list nat := out ≫= slot_start.

#[local] Arguments slot_starts : simpl never.

(** The keys that took a slot, then those that wait for one. *)
Definition line (s : Delivery) : list nat := slot_starts (log s) ++ (key <$> overflowQueue s).

Definition in_line (s : Delivery) : Prop :=
  StronglySorted lt (line s) ∧ Forall (λ k, k < nextKey s) (line s).

Lemma slot_starts_app out out' : slot_starts (out ++ out') = slot_starts out ++ slot_starts out'.
Proof. apply bind_app. Qed.

Lemma slot_starts_none out :
  Forall (λ o, match o with Attempted _ true => False | _ => True end) out → slot_starts out = [].
Proof.
  intros H. induction H as [|o out Ho _ IH]; [done|]. unfold slot_starts in *. cbn. rewrite IH.
  destruct o as [j [|]| | | | | | | |]; done.
Qed.

Lemma in_line_new s s' :
  line s' = line s ++ [nextKey s] → nextKey s' = S (nextKey s) → in_line s → in_line s'.
Proof.
  intros Hl Hk [H1 H2]. unfold in_line. rewrite Hl, Hk. split; [by apply StronglySorted_snoc|].
  apply Forall_app. split; [|apply Forall_singleton; lia].
  eapply Forall_impl; [exact H2|]. cbn. lia.
Qed.

Lemma in_line_same s s' : line s' = line s → nextKey s ≤ nextKey s' → in_line s → in_line s'.
Proof.
  intros Hl Hk [H1 H2]. unfold in_line. rewrite Hl. split; [done|].
  eapply Forall_impl; [exact H2|]. cbn. lia.
Qed.

Lemma line_log out s s' :
  log s' = log s ++ out → overflowQueue s' = overflowQueue s →
  Forall (λ o, match o with Attempted _ true => False | _ => True end) out → line s' = line s.
Proof.
  intros Hl Ho Hout. unfold line. by rewrite Hl, Ho, slot_starts_app, (slot_starts_none out), app_nil_r.
Qed.

Lemma move_in_line s s' : in_line s → move s s' → in_line s'.
Proof.
  intros Hs Hm.
  destruct Hm as [e u out _ _ Ho|e u _ _ Ho|e u|j rest Ho _|t j _|n a p _ _ _
    |n a rows address id _ _ _ _ _|n a _ _|n a e t _ _ _|n a e random _ _ _ _|n a e t _ _ _ _
    |r Hr|w _ _|_|l out Ho].
  - apply (in_line_new s); [|done|done]. unfold line. cbn. rewrite slot_starts_app, fmap_app. cbn.
    rewrite (slot_starts_none out), app_nil_r, (assoc_L (++)); [done|].
    destruct Ho as [->|[n ->]]; by repeat constructor.
  - apply (in_line_new s); [|done|done]. unfold line. cbn. rewrite slot_starts_app, Ho. cbn.
    by rewrite !app_nil_r.
  - apply (in_line_same s); [|cbn; lia|done]. by apply (line_log [Attempted (new_job e u s) false]); [..|constructor].
  - apply (in_line_same s); [|done|done]. unfold line. cbn. rewrite slot_starts_app, Ho. cbn.
    by rewrite <-(assoc_L (++)).
  - apply (in_line_same s); [|done|done]. by apply (line_log [Attempted j false]); [..|constructor].
  - by apply (in_line_same s).
  - apply (in_line_same s); [|done|done]. by eapply line_log; [..|apply Forall_singleton].
  - apply (in_line_same s); [|done|done]. by eapply line_log; [..|apply Forall_singleton].
  - apply (in_line_same s); [|done|done]. by eapply line_log; [..|apply Forall_singleton].
  - destruct (evict_log (removed n a s)) as (out & Hl & Ho).
    destruct (evict_fields (removed n a s)) as (_ & _ & _ & _ & Eo & _).
    apply (in_line_same s); [|cbn; by rewrite nextKey_evict|done].
    eapply (line_log (out ++ [_])); [cbn; by rewrite Hl, <-app_assoc|done|].
    apply Forall_app. split; [|by apply Forall_singleton]. eapply Forall_quiet; [|exact Ho]. by intros [].
  - apply (in_line_same s); [|done|done]. by eapply line_log; [..|apply Forall_singleton].
  - by apply (in_line_same s).
  - apply (in_line_same s); [|done|done]. eapply line_log; [done|done|].
    apply Forall_forall. by intros o [p [-> _]]%list_elem_of_fmap.
  - by apply (in_line_same s).
  - apply (in_line_same s); [|done|done]. eapply line_log; [done|done|].
    eapply Forall_quiet; [|exact Ho]. by intros [].
Qed.

(** Backpressure keeps the order: the deliveries that take a slot take it in
    the order in which their events arrived, whether they waited or not. *)
Theorem first_attempts_in_order ls :
  StronglySorted lt (slot_starts (log (run ls)) ++ (key <$> overflowQueue (run ls))).
Proof.
  assert (in_line (run ls)) as [H _]; [|exact H].
  apply run_invariant; [split; [by constructor|done]|exact move_in_line].
Qed.

(** ** One delivery id per event and url *)

Definition same_ids (s : Delivery) : Prop :=
  ∀ j id address, Posted j id address ∈ log s → deliveryIds s !! (event j, url j) = Some id.

Lemma same_ids_log out s s' :
  log s' = log s ++ out → deliveryIds s' = deliveryIds s →
  Forall (λ o, match o with Posted _ _ _ => False | _ => True end) out → same_ids s → same_ids s'.
Proof.
  intros Hl Hi Ho Hs j id address. rewrite Hl, Hi. intros [H|H]%elem_of_app; [by apply (Hs j id address)|].
  rewrite Forall_forall in Ho. by specialize (Ho _ H).
Qed.

Lemma move_same_ids s s' : same_ids s → move s s' → same_ids s'.
Proof.
  intros Hs Hm.
  destruct Hm as [e u out _ _ Ho|e u _ _ Ho|e u|j rest Ho _|t j _|n a p _ _ _
    |n a rows address id _ _ _ _ Hid|n a _ _|n a e t _ _ _|n a e random _ _ _ _|n a e t _ _ _ _
    |r Hr|w _ _|_|l out Ho]; try done;
    try (by eapply (same_ids_log [_] s); [..|apply Forall_singleton|]).
  - eapply (same_ids_log out s); [done|done| |done]. destruct Ho as [->|[n ->]]; by repeat constructor.
  - intros j id' address' [Hin|Heq%list_elem_of_singleton]%elem_of_app.
    + specialize (Hs j id' address' Hin). cbn.
      destruct (decide ((event (job a), url (job a)) = (event j, url j))) as [Heq|Hne].
      * rewrite Heq, lookup_insert_eq. f_equal. apply Hid. by rewrite Heq.
      * by rewrite lookup_insert_ne.
    + injection Heq as -> -> ->.
      cbn. by rewrite lookup_insert_eq.
  - destruct (evict_log (removed n a s)) as (out & Hl & Ho).
    destruct (evict_fields (removed n a s)) as (_ & _ & _ & _ & _ & Ei & _).
    eapply (same_ids_log (out ++ [_]) s); [cbn; by rewrite Hl, <-app_assoc|done| |done].
    apply Forall_app. split; [|by apply Forall_singleton].
    eapply Forall_quiet; [|exact Ho]. by intros [].
  - eapply (same_ids_log _ s); [done|done| |done].
    apply Forall_forall. by intros o [p [-> _]]%list_elem_of_fmap.
  - eapply (same_ids_log out s); [done|done| |done]. eapply Forall_quiet; [|exact Ho]. by intros [].
Qed.

(** Every request for the same event and url carries the same delivery id,
    the retries and the replays included. *)
Theorem delivery_id_stable ls j j' id id' address address' :
  Posted j id address ∈ log (run ls) → Posted j' id' address' ∈ log (run ls) →
  event j = event j' → url j = url j' → id = id'.
Proof.
  intros H H' He Hu. assert (same_ids (run ls)) as Hs.
  { apply run_invariant; [|exact move_same_ids]. by intros ? ? ? ?%elem_of_nil. }
  apply Hs in H, H'. rewrite He, Hu in H. congruence.
Qed.

(** ** After the watcher stops *)

Definition stops_imply (s : Delivery) : Prop :=
  (watcherStopped s = true → stopped s = true) ∧
  (stopped s = false → Forall (λ o, match o with Abandoned _ => False | _ => True end) (log s)).

(** The outputs that remain possible once the watcher has stopped. *)
Definition after_watcher_stop (o : Output) : Prop :=
  match o with Attempted _ _ | Delivered _ | Abandoned _ => True | _ => False end.

Definition quiet_since (s0 s : Delivery) : Prop :=
  watcherStopped s = true ∧ stopped s = true ∧
  ∃ new, log s = log s0 ++ new ∧ Forall after_watcher_stop new.

Lemma quiet_since_log out s0 s s' :
  log s' = log s ++ out → watcherStopped s' = watcherStopped s → stopped s' = stopped s →
  Forall after_watcher_stop out → quiet_since s0 s → quiet_since s0 s'.
Proof.
  intros Hl Hw Hd Ho (H1 & H2 & new & H3 & H4). rewrite <-Hw in H1. rewrite <-Hd in H2.
  split_and!; [done|done|]. exists (new ++ out). rewrite Hl, H3. split; [by rewrite app_assoc|].
  by apply Forall_app.
Qed.

Lemma move_quiet s0 s s' : quiet_since s0 s → move s s' → quiet_since s0 s'.
Proof.
  intros Hs Hm. pose proof Hs as (Hw & Hd & _).
  destruct Hm as [e u out Hd' _ Ho|e u Hd' _ Ho|e u|j rest Ho _|t j _|n a p _ _ _
    |n a rows address id _ _ Hw' _ Hid|n a _ _|n a e t _ _ _|n a e random _ _ Hw' _|n a e t _ _ Hw' _
    |r Hr|w Hd' _|_|l out Ho]; try congruence;
    try (by eapply (quiet_since_log [_] s0 s); [..|apply Forall_singleton|]); try done.
  - destruct Hs as (H1 & H2 & H3). by split_and!.
  - assert (out = []) as ->.
    { destruct Ho as [|o out Ho _]; [done|]. destruct o; congruence || done. }
    eapply (quiet_since_log [] s0 s); [done|done|done|by apply Forall_nil|done].
Qed.

Lemma stops_imply_log out s s' :
  log s' = log s ++ out → watcherStopped s' = watcherStopped s → stopped s' = stopped s →
  (stopped s = false → Forall (λ o, match o with Abandoned _ => False | _ => True end) out) →
  stops_imply s → stops_imply s'.
Proof.
  intros Hl Hw Hd Ho [H1 H2]. unfold stops_imply. rewrite Hw, Hd, Hl. split; [done|].
  intros Hs. apply Forall_app. by split; [apply H2|apply Ho].
Qed.

Lemma move_stops s s' : stops_imply s → move s s' → stops_imply s'.
Proof.
  intros Hs Hm. pose proof Hs as [Hi _].
  destruct Hm as [e u out Hd' _ Ho|e u Hd' _ Ho|e u|j rest Ho _|t j _|n a p _ _ _
    |n a rows address id _ _ Hw' _ Hid|n a _ _|n a e t _ _ Hw|n a e random _ _ Hw' _|n a e t _ _ Hw' _
    |r Hr|w Hd' Hw|Hd|l out Ho]; try done;
    try (by eapply (stops_imply_log [_] s); [..|intros _; apply Forall_singleton|]).
  - eapply (stops_imply_log out s); [done..| |done]. intros _.
    destruct Ho as [->|[n ->]]; by repeat constructor.
  - eapply (stops_imply_log [_] s); [done..| |done]. intros Hd. by rewrite Hi in Hd.
  - destruct (evict_log (removed n a s)) as (out & Hl & Ho).
    destruct (evict_fields (removed n a s)) as (_ & _ & _ & Ew & _ & _ & Ed).
    eapply (stops_imply_log (out ++ [_]) s); [cbn; by rewrite Hl, <-app_assoc|done|done| |done].
    intros _. apply Forall_app. split; [|by apply Forall_singleton].
    eapply Forall_quiet; [|exact Ho]. by intros [].
  - eapply (stops_imply_log out s); [done..| |done]. intros _.
    eapply Forall_quiet; [|exact Ho]. by intros [].
Qed.

Lemma run_saturated ls : saturated (run ls).
Proof.
  induction ls as [|l ls IH] using rev_ind; [by left|]. rewrite deliveries_snoc. by apply step_moves.
Qed.

(** Once the watcher has stopped, nothing more is sent, retried, dead-lettered
    or announced: only the answers of requests already sent still count. *)
Theorem watcher_stop_silences ls ls' :
  ∃ new, log (run (ls ++ StopWatcher :: ls')) = log (step StopWatcher (run ls)) ++ new ∧
    Forall after_watcher_stop new.
Proof.
  assert (stops_imply (run ls) ∧ saturated (run ls)) as [Hst Hsat].
  { split; [|apply run_saturated]. apply run_invariant; [|exact move_stops]. by split. }
  set (s0 := step StopWatcher (run ls)).
  assert (quiet_since s0 s0 ∧ saturated s0) as [H0 Hsat0].
  { split; [|by apply step_moves]. subst s0. cbn. split_and!; [| |by exists []; rewrite app_nil_r].
    - destruct (watcherStopped (run ls)) eqn:E; [done|]. unfold stop. cbn.
      by destruct (stopped (run ls)).
    - destruct (watcherStopped (run ls)) eqn:E; [by apply Hst|]. unfold stop. cbn.
      by destruct (stopped (run ls)) eqn:Ed; cbn. }
  assert (∀ s, quiet_since s0 s → saturated s →
    quiet_since s0 (foldl (λ s l, step l s) s ls')) as Hls.
  { induction ls' as [|l ls' IH]; intros s H1 H2; [done|]. cbn [foldl].
    destruct (step_moves l s H2) as [H3 H4]. apply IH; [|done].
    clear -H1 H3. induction H3 as [|x y z Hxy _ IH]; [done|]. apply IH. by eapply move_quiet. }
  destruct (Hls s0 H0 Hsat0) as (_ & _ & H). unfold Webhooks.run. rewrite foldl_app. exact H.
Qed.
(** C2: Whatever is answered, fires or stops, every pair of an event and a url
    that entered delivery, and every replay, is at each moment exactly once among:
    waiting for a slot, under way, waiting for its retry, delivered, dead-lettered,
    or given up; and nothing is given up before delivery is stopped. *)
Theorem deliveries_conserved ls :
  let s := run ls in
  list_to_set_disj (seq 0 (nextKey s))
  = list_to_set_disj (key <$> overflowQueue s) ⊎ list_to_set_disj (key ∘ job <$> running s)
    ⊎ list_to_set_disj (key ∘ snd <$> retryTimers s)
    ⊎ list_to_set_disj (log s ≫= settles) :> gmultiset nat ∧
  (stopped s = false → ∀ j, Abandoned j ∉ log s).
Proof.
  intros s. split.
  - fold (custody s). assert (new_keys initial s) as [_ H].
    { apply run_invariant; [by apply new_keys_same|]. intros s1 s2 H1 H2.
      eapply new_keys_trans; [exact H1|by apply move_new_keys]. }
    rewrite H. cbn. rewrite Nat.sub_0_r. unfold custody. cbn. multiset_solver.
  - intros Hs j Hj. assert (stops_imply s) as [_ H].
    { apply run_invariant; [|exact move_stops]. by split. }
    specialize (H Hs). rewrite Forall_forall in H. by apply (H _ Hj).
Qed.

(** ** Every delivery ends *)

(** The attempts a job may still be given, each worth more than its phases. *)
Definition left_over (j : Job) : nat := 10 * Z.to_nat (retries cfg - attempt j).

Definition work_waiting (j : Job) : nat := left_over j + 6.

Definition work_running (a : Attempt) : nat :=
  left_over (job a) + rank (phase a) + 1 + (if slot a then 1 else 0).

Definition work (s : Delivery) : nat :=
  sum_list_with work_waiting (overflowQueue s) + sum_list_with work_running (running s)
  + sum_list_with (work_waiting ∘ snd) (retryTimers s) + returned s.

(** The labels that only carry on what is there: an answer an attempt waits for, a
    [finally], a timer. *)
Definition productive (s : Delivery) (l : Label) : Prop :=
  match l with
  | Answer_ n a =>
      match phase <$> running s !! n, a with
      | Some Validating, ValidatorSays _ | Some Resolving, ResolverSays _ _
      | Some Fetching, FetchSays _ | Some (Answered _), Continue _ => True
      | _, _ => False
      end
  | Finally => returned s ≠ 0
  | TimerFires t => is_Some (mget t (retryTimers s))
  | _ => False
  end.

Lemma sum_perm {A} (f : A → nat) l l' : l ≡ₚ l' → sum_list_with f l = sum_list_with f l'.
Proof. intros H. induction H; cbn; lia. Qed.

Lemma work_running_eq a :
  work_running a = left_over (job a) + rank (phase a) + 1 + (if slot a then 1 else 0).
Proof. done. Qed.

Lemma work_waiting_eq j : work_waiting j = left_over j + 6.
Proof. done. Qed.

Lemma sum_cons {A} (f : A → nat) x l : sum_list_with f (x :: l) = f x + sum_list_with f l.
Proof. done. Qed.

#[local] Arguments sum_list_with : simpl never.
#[local] Arguments work_running : simpl never.
#[local] Arguments left_over : simpl never.

Lemma work_deliver j sl s :
  work (deliverToUrl j sl s) ≤ work s + left_over j + 4 + (if sl then 1 else 0).
Proof.
  unfold work. cbn. rewrite sum_list_with_app, sum_cons, work_running_eq. cbn.
  change (sum_list_with work_running []) with 0.
  assert (rank (doAttempt isIPv6 parse_url cfg s j) ≤ 3); [|lia].
  by destruct (doAttempt _ _ _ _ _); cbn; lia.
Qed.

Lemma work_removed n a s :
  running s !! n = Some a → work s = work (removed n a s) + left_over (job a) + rank (phase a) + 1.
Proof.
  intros H. unfold work.
  rewrite (sum_perm work_running _ _ (delete_Permutation _ _ _ H)), sum_cons, work_running_eq.
  cbn. destruct (slot a); lia.
Qed.

Lemma work_at_phase n a p s :
  running s !! n = Some a → rank p < rank (phase a) → work (at_phase n a p s) < work s.
Proof.
  intros H Hp. unfold work. cbn. rewrite (sum_perm work_running _ _ (delete_Permutation _ _ _ H)).
  assert (<[n := in_phase p a]> (running s) !! n = Some (in_phase p a)) as H'
    by (apply list_lookup_insert_eq; by eapply lookup_lt_Some).
  rewrite (sum_perm work_running _ _ (delete_Permutation _ _ _ H')), delete_insert_same.
  rewrite !sum_cons, !work_running_eq. cbn. lia.
Qed.

Lemma work_evict s : work (evict_newest cfg s) ≤ work s.
Proof.
  unfold evict_newest. case_match; [|done]. destruct (last (retryTimers s)) as [[t j]|] eqn:E; [|done].
  apply last_removelast in E. unfold work. cbn. rewrite E at 2. rewrite sum_list_with_app. lia.
Qed.

Lemma work_drain fuel s : work (drain fuel s) ≤ work s.
Proof.
  revert s. induction fuel as [|fuel IH]; intros s; cbn [Webhooks.drain]; [done|].
  destruct (overflowQueue s) as [|j rest] eqn:E; [done|]. case_match; [|done].
  etrans; [apply IH|]. etrans; [apply work_deliver|]. unfold work. cbn. rewrite E, sum_cons, (work_waiting_eq j). lia.
Qed.

Lemma work_decreases l s : productive s l → work (step l s) < work s.
Proof.
  destruct l as [|n a| |t| | | |]; cbn [productive]; try done; cbn [Webhooks.step].
  - destruct (running s !! n) as [r|] eqn:E; [|done]. cbn [fmap option_fmap option_map].
    unfold Webhooks.proceed. destruct (phase r) as [| | |res] eqn:Ep, a; try done; intros _.
    + apply work_at_phase; [done|]. rewrite Ep. unfold after_validator. repeat case_match; cbn; lia.
    + assert (∀ p, rank p < 2 → work (at_phase n r p s) < work s) as Hw
        by (intros p Hp; apply work_at_phase; [done|by rewrite Ep]).
      unfold after_resolver. destruct (watcherStopped s); [apply (Hw (Answered STOPPED)); cbn; lia|].
      destruct (validateResolvedHostname _ _ _ _) as [address|e].
      * apply (Hw Fetching). cbn. lia.
      * apply (Hw (Answered _)). cbn. lia.
    + apply work_at_phase; [done|]. rewrite Ep. cbn. lia.
    + change (with_work _ _ _ _ s) with (removed n r s).
      pose proof (work_removed n r s E) as Hr. unfold after_attempt. destruct res as [|e t].
      { change (work (removed n r s) < work s). lia. }
      destruct (watcherStopped _); [change (work (removed n r s) < work s); lia|].
      destruct (negb t && _) eqn:Et; [|change (work (removed n r s) < work s); lia].
      apply andb_true_iff in Et as [_ Et%Z.ltb_lt].
      pose proof (work_evict (removed n r s)) as He. revert He.
      generalize (evict_newest cfg (removed n r s)) as s1. intros s1 He.
      unfold schedule_retry. unfold work in He at 1. unfold work at 1. cbn.
      rewrite sum_list_with_app, sum_cons. change (sum_list_with _ []) with 0. cbn.
      rewrite Ep in Hr. cbn in Hr. rewrite work_waiting_eq.
      assert (left_over (next_attempt (job r)) + 10 = left_over (job r)); [|lia].
      unfold left_over. cbn. lia.
  - intros Hr. destruct (returned s) as [|r] eqn:E; [done|]. unfold drainOverflowQueue.
    eapply Nat.le_lt_trans; [apply work_drain|]. unfold work. cbn. lia.
  - intros [j Hj]. rewrite Hj. eapply Nat.le_lt_trans; [apply work_deliver|].
    unfold work. cbn. rewrite (sum_perm _ (retryTimers s) _ (mdel_Permutation _ _ _ Hj)), sum_cons. cbn.
    rewrite (work_waiting_eq j). lia.
Qed.

(** While a job has not ended, something can go on. *)
Lemma productive_exists ls :
  (1 ≤ maxConcurrentDeliveries cfg)%Z → (1 ≤ maxConcurrentRetries cfg)%Z →
  (∀ l, ¬ productive (run ls) l) →
  overflowQueue (run ls) = [] ∧ running (run ls) = [] ∧ retryTimers (run ls) = [].
Proof.
  intros H1 H2 Hno. set (s := run ls) in *.
  assert (running s = []) as Hr.
  { destruct (running s) as [|a l] eqn:E; [done|]. exfalso.
    destruct (phase a) as [| | |r] eqn:Ep.
    - by apply (Hno (Answer_ 0 (ValidatorSays (Ok None)))); cbn; rewrite E; cbn; rewrite Ep.
    - by apply (Hno (Answer_ 0 (ResolverSays None ""))); cbn; rewrite E; cbn; rewrite Ep.
    - by apply (Hno (Answer_ 0 (FetchSays Aborted))); cbn; rewrite E; cbn; rewrite Ep.
    - by apply (Hno (Answer_ 0 (Continue 0))); cbn; rewrite E; cbn; rewrite Ep. }
  assert (returned s = 0) as Hret.
  { destruct (returned s) eqn:E; [done|]. exfalso. apply (Hno Finally). cbn. by rewrite E. }
  split_and!; [|done|].
  - destruct (run_saturated ls) as [H|H]; [done|]. fold s in H.
    assert (within_caps s) as (Ha & _).
    { apply run_invariant; [|intros; by eapply move_within_caps].
      split_and!; cbn; [done|lia|lia]. }
    rewrite Hr, Hret in Ha. unfold slots in Ha. cbn in Ha. lia.
  - destruct (retryTimers s) as [|[t j] l] eqn:E; [done|]. exfalso. apply (Hno (TimerFires t)).
    cbn. rewrite E. cbn. by rewrite decide_True.
Qed.

Fixpoint productive_run (s : Delivery) (ls : list Label) : Prop :=
  match ls with
  | [] => True
  | l :: ls' => productive s l ∧ productive_run (step l s) ls'
  end.

Lemma productive_run_bound ls s : productive_run s ls → length ls + work (foldl (λ s l, step l s) s ls) ≤ work s.
Proof.
  revert s. induction ls as [|l ls IH]; intros s; cbn; [done|]. intros [H1 H2].
  pose proof (work_decreases l s H1). specialize (IH _ H2). lia.
Qed.
End facts.

(** ** Properties of an instance as it is constructed *)

Section instance.
Context (isIPv6 : string → bool) (parse_url : string → option ParsedUrl) (wc : WebhookConfig).

Notation run := (run isIPv6 parse_url (resolve_config wc)).

Lemma resolved_caps :
  (1 ≤ maxConcurrentDeliveries (resolve_config wc))%Z ∧
  (1 ≤ maxConcurrentRetries (resolve_config wc))%Z.
Proof. unfold resolve_config. destruct (normalizeUrlConfig _). cbn. lia. Qed.

(** At most [maxConcurrentDeliveries] first attempts hold a slot and at most
    [maxConcurrentRetries] retries wait on a timer, and a delivery only waits while
    every slot is taken. *)
Theorem deliveries_bounded ls :
  let s := run ls in
  (Z.of_nat (slots (running s) + returned s) ≤ maxConcurrentDeliveries (resolve_config wc))%Z ∧
  (Z.of_nat (length (retryTimers s)) ≤ maxConcurrentRetries (resolve_config wc))%Z ∧
  (overflowQueue s = []
   ∨ Z.of_nat (slots (running s) + returned s) = maxConcurrentDeliveries (resolve_config wc)).
Proof.
  intros s. pose proof resolved_caps as [H1 H2].
  assert (within_caps (resolve_config wc) s) as (Ha & Hc & Ht).
  { apply run_invariant; [|intros; by eapply move_within_caps].
    split_and!; cbn; [done|lia|lia]. }
  split_and!; [lia|lia|]. destruct (run_saturated isIPv6 parse_url (resolve_config wc) ls) as [H|H];
    [by left|right]. fold s in H. lia.
Qed.

(** Every delivery ends: with no new event, the answers, timers and [finally]s
    that carry on what is there are bounded in number, in whatever order they
    come, and when none is left every delivery that entered has been delivered,
    dead-lettered or given up, exactly once. *)
Theorem deliveries_end ls ls' :
  productive_run isIPv6 parse_url (resolve_config wc) (run ls) ls' →
  length ls' ≤ work (resolve_config wc) (run ls) ∧
  ((∀ l, ¬ productive (run (ls ++ ls')) l) →
   list_to_set_disj (seq 0 (nextKey (run (ls ++ ls'))))
   = list_to_set_disj (log (run (ls ++ ls')) ≫= settles) :> gmultiset nat).
Proof.
  intros Hp. pose proof resolved_caps as [H1 H2]. split.
  - pose proof (productive_run_bound _ _ _ _ _ Hp). lia.
  - intros Hno. destruct (productive_exists isIPv6 parse_url _ _ H1 H2 Hno) as (Ho & Hr & Ht).
    set (s := run (ls ++ ls')) in *.
    assert (new_keys initial s) as [_ H].
    { apply run_invariant; [by apply new_keys_same|]. intros s1 s2 H3 H4.
      eapply new_keys_trans; [exact H3|by eapply move_new_keys]. }
    unfold custody in H. rewrite Ho, Hr, Ht in H. cbn in H. rewrite Nat.sub_0_r in H.
    multiset_solver.
Qed.
End instance.

(** ** Concrete runs *)

(** One url, [cap] slots, [n] attempts, no custom validator. *)
Definition plain_webhook (cap n : Z) : WebhookConfig :=
  {| wc_url := OneUrl "https://hooks.example/in"; wc_retries := Some n; wc_deliveryTimeoutMs := None;
     wc_maxConcurrentRetries := Some 1%Z; wc_maxConcurrentDeliveries := Some cap;
     wc_urlValidator := false; wc_backoff := λ _ _, 1000%Z |}.

Definition hooks_example (u : string) : option ParsedUrl := Some (plain_url "hooks.example").

#[local] Notation run_plain cap n :=
  (run two_literals hooks_example (resolve_config (plain_webhook cap n))).

(** The first call under way is answered with a status. *)
Definition answered_with (status : Z) (uuid : string) : list Label :=
  [Answer_ 0 (ResolverSays (Some ["8.8.8.8"]) uuid); Answer_ 0 (FetchSays (Status status));
   Answer_ 0 (Continue 0)].

Definition plain_job (k e : nat) (a : Z) : Job :=
  {| key := k; event := e; url := "https://hooks.example/in"; attempt := a |}.

Lemma posts_validated_witness :
  Posted (plain_job 0 7 1) "u1" (Some "8.8.8.8")
    ∈ log (run_plain 1 3 (WatcherEmits 7 :: answered_with 200 "u1")) ∧
  validated two_literals hooks_example "https://hooks.example/in" (Some "8.8.8.8").
Proof.
  assert (Posted (plain_job 0 7 1) "u1" (Some "8.8.8.8")
    ∈ log (run_plain 1 3 (WatcherEmits 7 :: answered_with 200 "u1"))) as H.
  { apply list_elem_of_In. vm_compute. tauto. }
  split; [exact H|].
  exact (posts_validated two_literals hooks_example (resolve_config (plain_webhook 1 3)) _ _ _ _ H).
Defined.

(** A failed attempt and its retry: the resolver's new id is not used. *)
Definition retried_run : list Label :=
  WatcherEmits 7 :: answered_with 503 "u1" ++ [Finally; TimerFires 0] ++ answered_with 200 "u2".

Lemma delivery_id_stable_witness :
  Posted (plain_job 0 7 1) "u1" (Some "8.8.8.8") ∈ log (run_plain 1 3 retried_run) ∧
  Posted (plain_job 0 7 2) "u1" (Some "8.8.8.8") ∈ log (run_plain 1 3 retried_run) ∧ "u1" = "u1".
Proof.
  assert (Posted (plain_job 0 7 1) "u1" (Some "8.8.8.8") ∈ log (run_plain 1 3 retried_run)) as H1.
  { apply list_elem_of_In. vm_compute. tauto. }
  assert (Posted (plain_job 0 7 2) "u1" (Some "8.8.8.8") ∈ log (run_plain 1 3 retried_run)) as H2.
  { apply list_elem_of_In. vm_compute. tauto. }
  split_and!; [exact H1|exact H2|].
  exact (delivery_id_stable two_literals hooks_example (resolve_config (plain_webhook 1 3)) retried_run
    _ _ _ _ _ _ H1 H2 eq_refl eq_refl).
Defined.

(** A delivery that fails twice and is dead-lettered. *)
Lemma deliveries_end_witness :
  let ls' := answered_with 503 "u1" ++ [Finally; TimerFires 0] ++ answered_with 503 "u2" in
  productive_run two_literals hooks_example (resolve_config (plain_webhook 1 2))
    (run_plain 1 2 [WatcherEmits 7]) ls' ∧
  length ls' ≤ work (resolve_config (plain_webhook 1 2)) (run_plain 1 2 [WatcherEmits 7]).
Proof.
  intros ls'.
  assert (productive_run two_literals hooks_example (resolve_config (plain_webhook 1 2))
    (run_plain 1 2 [WatcherEmits 7]) ls') as H.
  { vm_compute. repeat split; try congruence; eexists; reflexivity. }
  split; [exact H|].
  exact (proj1 (deliveries_end two_literals hooks_example (plain_webhook 1 2) [WatcherEmits 7] ls' H)).
Defined.

(** [stop] of the instance, with the watcher still running: the attempt under way
    schedules a retry, and the delivery that waited is attempted. *)
Lemma delivers_after_stop :
  let s := run_plain 1 3 [WatcherEmits 7; WatcherEmits 8; StopDelivery] in
  let s' := run_plain 1 3 ([WatcherEmits 7; WatcherEmits 8; StopDelivery] ++ answered_with 503 "u1"
                           ++ [Finally; TimerFires 0]) in
  stopped s = true ∧
  log s' = log s ++ [Posted (plain_job 0 7 1) "u1" (Some "8.8.8.8");
                     RetryScheduled (plain_job 0 7 2) 1000; Attempted (plain_job 1 8 1) true;
                     Attempted (plain_job 0 7 2) false].
Proof. split; vm_compute; reflexivity. Qed.
