(* ===== verification/WebhookQueue.v ===== *)
(** * The durable retry queue of webhook delivery (packages/pulse-webhooks/src/
    MemoryRetryQueue.ts, and persistRetry, drainDueRetries and
    processQueueRecord of index.ts)

    The in-memory reference queue, and the two ways a delivery instance redelivers
    from it: the drain a timer starts, and the poller. *)

From S2P Require Import Prelude.
From S2P Require Import JsMap.
From S2P Require Import Webhooks.

(** Times and delays are whole milliseconds; [None] as a delay is one that is not
    finite. *)
Record RetryRecord := {
  id : string;
  rec_event : nat;
  rec_url : string;
  rec_attempt : Z;
  nextRetryAt : Z;
  lastError : option string;
  createdAt : option Z;
}.

Record Entry := { entry_record : RetryRecord; entry_seq : nat }.

Record InFlight := { flight_record : RetryRecord; expiresAt : Z }.

Record MemoryRetryQueue := {
  queued : jsmap string Entry;
  inFlight : jsmap string InFlight;
  visibilityTimeoutMs : Z;
  seq : nat;
}.

Inductive QueueError := RecordIdRequired.

Definition DEFAULT_VISIBILITY_TIMEOUT_MS : Z := 30000.

Definition new_queue (visibility : option Z) : MemoryRetryQueue :=
  {| queued := []; inFlight := [];
     visibilityTimeoutMs := Z.max 1 (default DEFAULT_VISIBILITY_TIMEOUT_MS visibility); seq := 0 |}.

Definition with_maps (q f : jsmap string _) (n : nat) (s : MemoryRetryQueue) : MemoryRetryQueue :=
  {| queued := q; inFlight := f; visibilityTimeoutMs := visibilityTimeoutMs s; seq := n |}.

Definition due_at (t : Z) (r : RetryRecord) : RetryRecord :=
  {| id := id r; rec_event := rec_event r; rec_url := rec_url r; rec_attempt := rec_attempt r;
     nextRetryAt := t; lastError := lastError r; createdAt := createdAt r |}.

(** [queued.set(id, { record, seq: this.seq++ })] *)
Definition put (k : string) (r : RetryRecord) (s : MemoryRetryQueue) : MemoryRetryQueue :=
  with_maps (mset k {| entry_record := r; entry_seq := seq s |} (queued s)) (inFlight s) (S (seq s)) s.

Definition enqueue (r : RetryRecord) (s : MemoryRetryQueue) : result QueueError MemoryRetryQueue :=
  if String.eqb (id r) "" then Err RecordIdRequired else Ok (put (id r) r s).

(** One turn of the loop over the in-flight records; deleting the current key of a
    map does not disturb its iteration. *)
Definition reclaim_one (now : Z) (s : MemoryRetryQueue) (p : string * InFlight) : MemoryRetryQueue :=
  if (expiresAt p.2 <=? now)%Z then
    put p.1 (due_at now (flight_record p.2)) (with_maps (queued s) (mdel p.1 (inFlight s)) (seq s) s)
  else s.

Definition reclaimExpiredInFlight (now : Z) (s : MemoryRetryQueue) : MemoryRetryQueue :=
  foldl (reclaim_one now) s (inFlight s).

(** [e] comes before [e']: by its time, then by its insertion. *)
Definition before (e e' : Entry) : bool :=
  (nextRetryAt (entry_record e) <? nextRetryAt (entry_record e'))%Z
  || ((nextRetryAt (entry_record e) =? nextRetryAt (entry_record e'))%Z
      && (entry_seq e <? entry_seq e')).

Definition best_step (now : Z) (best : option Entry) (e : Entry) : option Entry :=
  if (now <? nextRetryAt (entry_record e))%Z then best
  else match best with
       | None => Some e
       | Some b => if before e b then Some e else best
       end.

Definition dequeue (now : Z) (s0 : MemoryRetryQueue) : option RetryRecord * MemoryRetryQueue :=
  let s := reclaimExpiredInFlight now s0 in
  match foldl (best_step now) None (mvals (queued s)) with
  | None => (None, s)
  | Some best =>
      let r := entry_record best in
      (Some r,
       with_maps (mdel (id r) (queued s))
         (mset (id r) {| flight_record := r; expiresAt := now + visibilityTimeoutMs s |} (inFlight s))
         (seq s) s)
  end.

Definition ack (k : string) (s : MemoryRetryQueue) : MemoryRetryQueue :=
  with_maps (queued s) (mdel k (inFlight s)) (seq s) s.

Definition nack (now : Z) (k : string) (delay : option Z) (s : MemoryRetryQueue)
    : result QueueError MemoryRetryQueue :=
  match mget k (inFlight s) with
  | None => Ok s
  | Some f =>
      enqueue (due_at (now + match delay with Some d => Z.max 0 d | None => 0 end) (flight_record f))
        (with_maps (queued s) (mdel k (inFlight s)) (seq s) s)
  end.

Definition newest_step (newest : option Entry) (e : Entry) : option Entry :=
  match newest with
  | None => Some e
  | Some n => if before n e then Some e else newest
  end.

Definition evictNewest (s : MemoryRetryQueue) : option RetryRecord * MemoryRetryQueue :=
  match foldl newest_step None (mvals (queued s)) with
  | None => (None, s)
  | Some newest =>
      (Some (entry_record newest),
       with_maps (mdel (id (entry_record newest)) (queued s)) (inFlight s) (seq s) s)
  end.

Definition size (s : MemoryRetryQueue) : nat := msize (queued s).

(** ** The instance over a durable queue *)

(** What the instance does with a record. *)
Inductive QueueOutput :=
  | RecordAttempted (r : RetryRecord)
  | RecordDelivered (r : RetryRecord)
  | RecordFailed (r : RetryRecord) (error : string)
  | RecordDropped (r : RetryRecord).

(** The instance: the queue and the counter of its record ids. *)
Record Durable := { queue : MemoryRetryQueue; retrySeq : nat }.

Definition with_queue (q : MemoryRetryQueue) (d : Durable) : Durable :=
  {| queue := q; retrySeq := retrySeq d |}.

(** The outcome of one attempt, as the outside gives it: whether the watcher has
    stopped by then, the clock and the random number. *)
Record Outcome := { out_result : AttemptResult; out_stopped : bool; out_now : Z; out_random : Z }.

Section durable.
Context (cfg : ResolvedWebhookConfig).

(** Shed the newest record when the queue is at the cap, then store the retry.
    The new id is never empty, so [enqueue] does not throw. *)
Definition persistRetry (r : RetryRecord) (error : string) (o : Outcome) (d : Durable)
    : list QueueOutput * Durable :=
  let '(out, q) :=
    if (maxConcurrentRetries cfg <=? Z.of_nat (size (queue d)))%Z then
      let '(evicted, q) := evictNewest (queue d) in
      (match evicted with Some e => [RecordDropped e] | None => [] end, q)
    else ([], queue d) in
  let record :=
    {| id := "retry-" +:+ pretty (out_now o) +:+ "-" +:+ pretty (retrySeq d);
       rec_event := rec_event r; rec_url := rec_url r; rec_attempt := rec_attempt r + 1;
       nextRetryAt := out_now o + backoff cfg (rec_attempt r) (out_random o);
       lastError := Some error; createdAt := Some (out_now o) |} in
  (out, {| queue := put (id record) record q; retrySeq := S (retrySeq d) |}).

(** [deliverToUrl] of a record: the outcome of its attempt decides. *)
Definition deliver_record (r : RetryRecord) (o : Outcome) (d : Durable)
    : list QueueOutput * Durable :=
  match out_result o with
  | Sent => ([RecordDelivered r], d)
  | NotSent error terminal =>
      if out_stopped o then ([], d)
      else if negb terminal && (rec_attempt r <? retries cfg)%Z then persistRetry r error o d
      else ([RecordFailed r error], d)
  end.

(** [drainDueRetries(nowMs)], as far as the outcomes of its attempts are known. *)
Fixpoint drainDueRetries (now : Z) (outcomes : list Outcome) (d : Durable)
    : list QueueOutput * Durable :=
  match dequeue now (queue d), outcomes with
  | (None, q), _ => ([], with_queue q d)
  | (Some r, q), [] => ([RecordAttempted r], with_queue q d)
  | (Some r, q), o :: os =>
      let '(out, d1) := deliver_record r o (with_queue q d) in
      let d2 := with_queue (ack (id r) (queue d1)) d1 in
      let '(out', d3) := if out_stopped o then ([], d2) else drainDueRetries now os d2 in
      (RecordAttempted r :: out ++ out', d3)
  end.

(** The record a tick of the poller dequeued; [stopped0]: the watcher had stopped by
    then. *)
Definition processQueueRecord (stopped0 : bool) (r : RetryRecord) (o : Outcome)
    (q : MemoryRetryQueue) : list QueueOutput * result QueueError MemoryRetryQueue :=
  if stopped0 then ([], Ok q)
  else if out_stopped o then ([RecordAttempted r], Ok q)
  else
    match out_result o with
    | Sent => ([RecordAttempted r; RecordDelivered r], Ok (ack (id r) q))
    | NotSent error terminal =>
        if negb terminal && (rec_attempt r <? retries cfg)%Z then
          ([RecordAttempted r],
           nack (out_now o) (id r) (Some (backoff cfg (rec_attempt r) (out_random o))) q)
        else ([RecordAttempted r; RecordFailed r error], Ok (ack (id r) q))
    end.

(** A tick of the poller. *)
Definition poll (now : Z) (stopped0 : bool) (o : Outcome) (q : MemoryRetryQueue)
    : list QueueOutput * result QueueError MemoryRetryQueue :=
  match dequeue now q with
  | (None, q') => ([], Ok q')
  | (Some r, q') => processQueueRecord stopped0 r o q'
  end.
End durable.

(** ** The order of the queue *)

Definition due (now : Z) (e : Entry) : Prop := (nextRetryAt (entry_record e) ≤ now)%Z.

(** [e] is not after [e']. *)
Definition not_after (e e' : Entry) : Prop := before e' e = false.

Lemma not_after_iff e e' :
  not_after e e' ↔
  (nextRetryAt (entry_record e) < nextRetryAt (entry_record e'))%Z
  ∨ nextRetryAt (entry_record e) = nextRetryAt (entry_record e') ∧ entry_seq e ≤ entry_seq e'.
Proof.
  unfold not_after, before. rewrite orb_false_iff, andb_false_iff, Z.ltb_ge, Z.eqb_neq, Nat.ltb_ge. lia.
Qed.

Lemma not_after_trans a b c : not_after a b → not_after b c → not_after a c.
Proof. rewrite !not_after_iff. lia. Qed.

Lemma not_after_refl a : not_after a a.
Proof. rewrite not_after_iff. lia. Qed.

(** The scans keep the first and the last entry. *)
Lemma best_scan now es best :
  match foldl (best_step now) best es with
  | Some e => (best = Some e ∨ e ∈ es ∧ due now e) ∧
      (∀ b, best = Some b → not_after e b) ∧ ∀ e', e' ∈ es → due now e' → not_after e e'
  | None => best = None ∧ ∀ e, e ∈ es → ¬ due now e
  end.
Proof.
  revert best. induction es as [|x es IH]; intros best; cbn [foldl].
  - destruct best as [b|]; [|split; [done|by intros ? ?%elem_of_nil]].
    split_and!; [by left|intros ? [= ->]; apply not_after_refl|by intros ? ?%elem_of_nil].
  - specialize (IH (best_step now best x)). unfold best_step in *.
    destruct (Z.ltb_spec now (nextRetryAt (entry_record x))) as [Hx|Hx].
    + assert (¬ due now x) as Hnd by (unfold due; lia).
      destruct (foldl _ best es) as [e|].
      * destruct IH as (H1 & H2 & H3). split_and!; [set_solver|done|].
        intros e' [->|He']%elem_of_cons Hd; [done|by apply H3].
      * destruct IH as (H1 & H2). split; [done|]. intros e [->|He]%elem_of_cons; [done|by apply H2].
    + assert (due now x) as Hd by done. destruct best as [b|].
      * destruct (before x b) eqn:Hb.
        -- destruct (foldl _ (Some x) es) as [e|]; [|by destruct IH].
           destruct IH as (H1 & H2 & H3). pose proof (H2 x eq_refl) as Hex. split_and!.
           ++ destruct H1 as [[= <-]|[? ?]]; right; split; [by left|done|by right|done].
           ++ intros b' [= <-]. eapply not_after_trans; [exact Hex|]. apply not_after_iff.
              apply orb_true_iff in Hb as [Hb%Z.ltb_lt|Hb]; [lia|].
              apply andb_true_iff in Hb as [?%Z.eqb_eq ?%Nat.ltb_lt]. lia.
           ++ intros e' [->|He']%elem_of_cons ?; [done|by apply H3].
        -- destruct (foldl _ (Some b) es) as [e|]; [|by destruct IH].
           destruct IH as (H1 & H2 & H3). pose proof (H2 b eq_refl) as Heb. split_and!; [set_solver|done|].
           intros e' [->|He']%elem_of_cons ?; [|by apply H3]. by eapply not_after_trans.
      * destruct (foldl _ (Some x) es) as [e|]; [|by destruct IH].
        destruct IH as (H1 & H2 & H3). split_and!; [|done|].
        -- destruct H1 as [[= <-]|[? ?]]; right; split; [by left|done|by right|done].
        -- intros e' [->|He']%elem_of_cons ?; [by apply H2|by apply H3].
Qed.

Lemma newest_scan es newest :
  match foldl newest_step newest es with
  | Some e => (newest = Some e ∨ e ∈ es) ∧ (∀ n, newest = Some n → not_after n e) ∧
      ∀ e', e' ∈ es → not_after e' e
  | None => newest = None ∧ es = []
  end.
Proof.
  revert newest. induction es as [|x es IH]; intros newest; cbn [foldl].
  - destruct newest as [n|]; [|done].
    split_and!; [by left|intros ? [= ->]; apply not_after_refl|by intros ? ?%elem_of_nil].
  - specialize (IH (newest_step newest x)). unfold newest_step in *.
    destruct newest as [n|].
    + destruct (before n x) eqn:Hb.
      * destruct (foldl _ (Some x) es) as [e|]; [|by destruct IH].
        destruct IH as (H1 & H2 & H3). pose proof (H2 x eq_refl) as Hxe. split_and!.
        -- destruct H1 as [[= <-]|?]; right; [by left|by right].
        -- intros n' [= <-]. eapply not_after_trans; [|exact Hxe]. apply not_after_iff.
           apply orb_true_iff in Hb as [Hb%Z.ltb_lt|Hb]; [lia|].
           apply andb_true_iff in Hb as [?%Z.eqb_eq ?%Nat.ltb_lt]. lia.
        -- intros e' [->|He']%elem_of_cons; [done|by apply H3].
      * destruct (foldl _ (Some n) es) as [e|]; [|by destruct IH].
        destruct IH as (H1 & H2 & H3). pose proof (H2 n eq_refl) as Hne. split_and!; [set_solver|done|].
        intros e' [->|He']%elem_of_cons; [|by apply H3]. by eapply not_after_trans.
    + destruct (foldl _ (Some x) es) as [e|]; [|by destruct IH].
      destruct IH as (H1 & H2 & H3). split_and!; [|done|].
      * destruct H1 as [[= <-]|?]; right; [by left|by right].
      * intros e' [->|He']%elem_of_cons; [by apply H2|by apply H3].
Qed.

(** ** Well-formed queues *)

Definition queue_ok (s : MemoryRetryQueue) : Prop :=
  mwf (queued s) ∧ mwf (inFlight s) ∧
  (∀ k e, mget k (queued s) = Some e → id (entry_record e) = k ∧ k ≠ "") ∧
  (∀ k f, mget k (inFlight s) = Some f → id (flight_record f) = k ∧ k ≠ "").

(** The in-flight record under [k] that a reclaim at [now] takes back. *)
Definition expired (now : Z) (k : string) (m : jsmap string InFlight) : option InFlight :=
  match mget k m with
  | Some f => if (expiresAt f <=? now)%Z then Some f else None
  | None => None
  end.

(** What a reclaim of [l] leaves under [k]. *)
Definition reclaimed (now : Z) (k : string) (l : jsmap string InFlight) (s s' : MemoryRetryQueue) : Prop :=
  match expired now k l with
  | Some f =>
      mget k (inFlight s') = None ∧
      ∃ n, mget k (queued s') = Some {| entry_record := due_at now (flight_record f); entry_seq := n |}
  | None => mget k (inFlight s') = mget k (inFlight s) ∧ mget k (queued s') = mget k (queued s)
  end.

Lemma reclaim_all now l s :
  mwf l → mwf (queued s) → mwf (inFlight s) →
  let s' := foldl (reclaim_one now) s l in
  mwf (queued s') ∧ mwf (inFlight s') ∧ visibilityTimeoutMs s' = visibilityTimeoutMs s ∧
  ∀ k, reclaimed now k l s s'.
Proof.
  revert s. induction l as [|[k0 f0] l IH]; intros s Hl Hq Hf; cbn [foldl]; [done|].
  apply NoDup_cons in Hl as [Hk0 Hl]. set (s1 := reclaim_one now s (k0, f0)).
  assert (mwf (queued s1) ∧ mwf (inFlight s1) ∧ visibilityTimeoutMs s1 = visibilityTimeoutMs s)
    as (Hq1 & Hf1 & Hv1).
  { subst s1. unfold reclaim_one. destruct (_ <=? _)%Z; cbn; auto using mwf_mset, mwf_mdel. }
  destruct (IH s1 Hl Hq1 Hf1) as (H1 & H2 & H3 & H4). split_and!; [done|done|congruence|].
  intros k. specialize (H4 k). unfold reclaimed, expired in *. cbn [mget].
  destruct (decide (k0 = k)) as [->|Hne].
  - assert (mget k l = None) as Hn by (by apply mget_None). rewrite Hn in H4. destruct H4 as [-> ->].
    subst s1. unfold reclaim_one. cbn. destruct (expiresAt f0 <=? now)%Z; [|done]. cbn.
    rewrite mget_mdel_eq by done. split; [done|]. eexists. by rewrite mget_mset_eq.
  - assert (mget k (inFlight s1) = mget k (inFlight s) ∧ mget k (queued s1) = mget k (queued s)) as [E1 E2].
    { subst s1. unfold reclaim_one. cbn. destruct (expiresAt f0 <=? now)%Z; [|done]. cbn.
      by rewrite mget_mdel_ne, mget_mset_ne. }
    rewrite <-E1, <-E2. exact H4.
Qed.

Lemma reclaim_spec now s :
  queue_ok s →
  queue_ok (reclaimExpiredInFlight now s) ∧
  visibilityTimeoutMs (reclaimExpiredInFlight now s) = visibilityTimeoutMs s ∧
  ∀ k, reclaimed now k (inFlight s) s (reclaimExpiredInFlight now s).
Proof.
  intros (H1 & H2 & H3 & H4).
  destruct (reclaim_all now (inFlight s) s H2 H1 H2) as (W1 & W2 & Hv & Hk).
  split_and!; [|done|done]. split_and!; [done|done| |].
  - intros k e He. specialize (Hk k). unfold reclaimed in Hk.
    destruct (expired now k (inFlight s)) as [f|] eqn:Ef.
    + destruct Hk as [_ [n Hn]]. unfold reclaimExpiredInFlight in He. rewrite Hn in He.
      injection He as <-. cbn. unfold expired in Ef.
      destruct (mget k (inFlight s)) as [f'|] eqn:Ef'; [|done]. case_match; [|done].
      injection Ef as ->. by apply H4.
    + destruct Hk as [_ Hk]. apply H3. by rewrite <-Hk.
  - intros k f Hf. specialize (Hk k). unfold reclaimed in Hk.
    destruct (expired now k (inFlight s)) as [f'|]; [destruct Hk as [Hk _]; unfold reclaimExpiredInFlight in Hf; congruence|].
    destruct Hk as [Hk _]. apply H4. by rewrite <-Hk.
Qed.

Lemma put_ok k r s : id r = k → k ≠ "" → queue_ok s → queue_ok (put k r s).
Proof.
  intros Hk Hne (H1 & H2 & H3 & H4). split_and!; cbn; auto using mwf_mset.
  intros k' e. rewrite mget_mset. case_decide as Hd; [intros [= <-]; by subst|apply H3].
Qed.

Lemma with_inFlight_ok k s : queue_ok s → queue_ok (with_maps (queued s) (mdel k (inFlight s)) (seq s) s).
Proof.
  intros (H1 & H2 & H3 & H4). split_and!; cbn; auto using mwf_mdel.
  intros k' f. rewrite mget_mdel by done. case_decide; [done|apply H4].
Qed.

(** ** What the queue promises *)

Lemma dequeue_spec now s :
  queue_ok s →
  let s1 := reclaimExpiredInFlight now s in
  queue_ok (dequeue now s).2 ∧
  match (dequeue now s).1 with
  | Some r =>
      (∃ e, entry_record e = r ∧ mget (id r) (queued s1) = Some e ∧ due now e ∧
         ∀ k e', mget k (queued s1) = Some e' → due now e' → not_after e e') ∧
      (∀ k, mget k (queued (dequeue now s).2) = if decide (id r = k) then None else mget k (queued s1)) ∧
      (∀ k, mget k (inFlight (dequeue now s).2)
         = if decide (id r = k)
           then Some {| flight_record := r; expiresAt := now + visibilityTimeoutMs s |}
           else mget k (inFlight s1))
  | None => (∀ k e, mget k (queued s1) = Some e → ¬ due now e) ∧ (dequeue now s).2 = s1
  end.
Proof.
  intros Hok s1. destruct (reclaim_spec now s Hok) as (Hok1 & Hv & _). fold s1 in Hok1, Hv.
  pose proof Hok1 as (Hq & Hf & Hid & Hidf). unfold dequeue. fold s1.
  pose proof (best_scan now (mvals (queued s1)) None) as Hscan.
  destruct (foldl _ None (mvals (queued s1))) as [e|]; cbn [fst snd].
  - destruct Hscan as (Hin & _ & Hleast). destruct Hin as [|[Hin Hdue]]; [done|].
    apply elem_of_mvals in Hin as [k Hk]; [|done]. destruct (Hid k e Hk) as [Hke Hne]. subst k.
    split_and!.
    + split_and!; cbn; auto using mwf_mset, mwf_mdel.
      * intros k' e'. rewrite mget_mdel by done. case_decide; [done|apply Hid].
      * intros k' f. rewrite mget_mset. case_decide as Hd; [intros [= <-]; by subst|apply Hidf].
    + exists e. split_and!; [done|done|done|]. intros k e' Hk' Hd. apply Hleast; [|done].
      apply elem_of_mvals; [done|by exists k].
    + intros k. by apply mget_mdel.
    + intros k. cbn. by rewrite mget_mset, Hv.
  - destruct Hscan as [_ Hscan]. split_and!; [done| |done]. intros k e He. apply Hscan.
    apply elem_of_mvals; [done|by exists k].
Qed.

(** A record is held while it is queued or in flight. *)
Definition held (s : MemoryRetryQueue) (k : string) : Prop :=
  is_Some (mget k (queued s)) ∨ is_Some (mget k (inFlight s)).

Lemma reclaim_held now s k : queue_ok s → held (reclaimExpiredInFlight now s) k ↔ held s k.
Proof.
  intros Hok. destruct (reclaim_spec now s Hok) as (_ & _ & H). specialize (H k).
  unfold reclaimed in H. unfold held. destruct (expired now k (inFlight s)) as [f|] eqn:E.
  - destruct H as [_ [n ->]]. unfold expired in E. destruct (mget k (inFlight s)); [|done].
    split; intros _; [right|left]; by eexists.
  - by destruct H as [-> ->].
Qed.

Lemma put_held k' r s k : held (put k' r s) k ↔ k' = k ∨ held s k.
Proof.
  unfold held, put. cbn. rewrite mget_mset. destruct (decide (k' = k)) as [->|Hne].
  - split; [by left|]. intros _. left. by eexists.
  - naive_solver.
Qed.

Lemma evict_spec s :
  queue_ok s →
  match evictNewest s with
  | (Some r, s') =>
      (∃ e, entry_record e = r ∧ mget (id r) (queued s) = Some e ∧
         ∀ k e', mget k (queued s) = Some e' → not_after e' e) ∧
      s' = with_maps (mdel (id r) (queued s)) (inFlight s) (seq s) s
  | (None, s') => queued s = [] ∧ s' = s
  end.
Proof.
  intros (Hq & Hf & Hid & Hidf). unfold evictNewest.
  pose proof (newest_scan (mvals (queued s)) None) as Hscan.
  destruct (foldl newest_step None (mvals (queued s))) as [e|].
  - destruct Hscan as ([|Hin] & _ & Hlast); [done|].
    apply elem_of_mvals in Hin as [k Hk]; [|done]. destruct (Hid k e Hk) as [Hke Hne]. subst k.
    split; [|done]. exists e. split_and!; [done|done|]. intros k e' Hk'. apply Hlast.
    apply elem_of_mvals; [done|by exists k].
  - destruct Hscan as [_ Hnil]. split; [|done]. by destruct (queued s).
Qed.

(** The calls on a queue. *)
Inductive call :=
  | Enqueue (r : RetryRecord)
  | Dequeue (now : Z)
  | Ack (k : string)
  | Nack (now : Z) (k : string) (delay : option Z)
  | EvictNewest.

(** A call that throws leaves the queue as it is. *)
Definition kept (s : MemoryRetryQueue) (r : result QueueError MemoryRetryQueue) : MemoryRetryQueue :=
  match r with Ok s' => s' | Err _ => s end.

Definition call_step (s : MemoryRetryQueue) (c : call) : MemoryRetryQueue :=
  match c with
  | Enqueue r => kept s (enqueue r s)
  | Dequeue now => (dequeue now s).2
  | Ack k => ack k s
  | Nack now k delay => kept s (nack now k delay s)
  | EvictNewest => (evictNewest s).2
  end.

Definition run_calls (visibility : option Z) (cs : list call) : MemoryRetryQueue :=
  foldl call_step (new_queue visibility) cs.

Lemma nack_spec now k' delay s :
  queue_ok s → ∃ s', nack now k' delay s = Ok s' ∧ queue_ok s' ∧ ∀ k, held s' k ↔ held s k.
Proof.
  intros Hok. pose proof Hok as (_ & Hf & _ & Hidf). unfold nack.
  destruct (mget k' (inFlight s)) as [f|] eqn:E; [|by exists s].
  destruct (Hidf k' f E) as [Hid Hne]. unfold enqueue. cbn [id due_at].
  rewrite (proj2 (String.eqb_neq _ _)) by congruence. eexists. split; [done|].
  split; [apply put_ok; [done|congruence|by apply with_inFlight_ok]|].
  intros k. rewrite put_held. unfold held. cbn. rewrite mget_mdel by done. rewrite Hid.
  destruct (decide (k' = k)) as [->|Hk]; [|naive_solver].
  rewrite E. split; [intros _; right; by eexists|by left].
Qed.

Lemma dequeue_held now s k : queue_ok s → held (dequeue now s).2 k ↔ held s k.
Proof.
  intros Hok. destruct (dequeue_spec now s Hok) as [_ H]. rewrite <-(reclaim_held now s k Hok).
  destruct (dequeue now s) as [[r|] s']; cbn [fst snd] in H.
  - destruct H as ((e & _ & He & _) & Hq & Hf). unfold held. rewrite Hq, Hf.
    destruct (decide (id r = k)) as [<-|Hne]; [|done].
    rewrite He. split; intros _; [left|right]; by eexists.
  - by destruct H as [_ ->].
Qed.

Lemma call_step_ok s c : queue_ok s → queue_ok (call_step s c).
Proof.
  intros Hok. destruct c as [r|now|k'|now k' delay|]; cbn [call_step].
  - unfold enqueue. destruct (String.eqb_spec (id r) "") as [He|He]; cbn [kept]; [done|].
    by apply put_ok.
  - by apply dequeue_spec.
  - by apply with_inFlight_ok.
  - by destruct (nack_spec now k' delay s Hok) as (s' & -> & H & _).
  - pose proof (evict_spec s Hok) as He. destruct Hok as (H1 & H2 & H3 & H4).
    destruct (evictNewest s) as [[r|] s']; cbn [snd]; destruct He as [_ ->]; [|done].
    split_and!; cbn; auto using mwf_mdel. intros k e. rewrite mget_mdel by done.
    case_decide; [done|apply H3].
Qed.

Lemma run_calls_ok visibility cs : queue_ok (run_calls visibility cs).
Proof.
  unfold run_calls. induction cs as [|c cs IH] using rev_ind.
  - split_and!; [apply mwf_nil|apply mwf_nil|done|done].
  - rewrite foldl_app. by apply call_step_ok.
Qed.

(** [dequeue] hands out the record that is due first, the oldest insertion
    among equals, counting the records whose visibility timeout is over as due at
    once; it is then in flight until its own timeout.  With nothing due it hands
    out nothing. *)
Theorem dequeue_least visibility cs now :
  let s := run_calls visibility cs in
  let s1 := reclaimExpiredInFlight now s in
  match (dequeue now s).1 with
  | Some r =>
      (∃ e, entry_record e = r ∧ mget (id r) (queued s1) = Some e ∧ due now e ∧
         ∀ k e', mget k (queued s1) = Some e' → due now e' → not_after e e') ∧
      (∀ k, mget k (queued (dequeue now s).2) = if decide (id r = k) then None else mget k (queued s1)) ∧
      (∀ k, mget k (inFlight (dequeue now s).2)
         = if decide (id r = k)
           then Some {| flight_record := r; expiresAt := now + visibilityTimeoutMs s |}
           else mget k (inFlight s1))
  | None => (∀ k e, mget k (queued s1) = Some e → ¬ due now e) ∧ (dequeue now s).2 = s1
  end.
Proof. intros s. apply (dequeue_spec now s), run_calls_ok. Qed.

(** Through any calls a record stays in the queue, waiting or in flight, until
    it is acknowledged while in flight or evicted; dequeuing, rejecting and the
    visibility timeout never lose one. *)
Theorem record_held_until_settled visibility cs c k :
  let s := run_calls visibility cs in
  held (call_step s c) k ↔
  match c with
  | Enqueue r => (id r = k ∧ k ≠ "") ∨ held s k
  | Dequeue _ | Nack _ _ _ => held s k
  | Ack k' => if decide (k' = k) then is_Some (mget k (queued s)) else held s k
  | EvictNewest =>
      match (evictNewest s).1 with
      | Some r => if decide (id r = k) then is_Some (mget k (inFlight s)) else held s k
      | None => held s k
      end
  end.
Proof.
  intros s. assert (queue_ok s) as Hok by apply run_calls_ok.
  pose proof Hok as (Hq & Hf & _). destruct c as [r|now|k'|now k' delay|]; cbn [call_step].
  - unfold enqueue. destruct (String.eqb_spec (id r) "") as [He|He]; cbn [kept]; [naive_solver|].
    rewrite put_held. naive_solver.
  - by apply dequeue_held.
  - unfold held, ack. cbn. rewrite mget_mdel by done. destruct (decide (k' = k)); [|done].
    split; [intros [H|[? H]]; done|by left].
  - destruct (nack_spec now k' delay s Hok) as (s' & -> & _ & H). apply H.
  - pose proof (evict_spec s Hok) as He. destruct (evictNewest s) as [[r|] s']; cbn [fst snd].
    + destruct He as [_ ->]. unfold held. cbn. rewrite mget_mdel by done.
      destruct (decide (id r = k)); [|done]. split; [intros [[? H]|H]; done|by right].
    + by destruct He as [_ ->].
Qed.

(** ** The drain ends *)

Section drain.
Context (cfg : ResolvedWebhookConfig).

(** The attempts a record may still be given. *)
Definition attempts_left (r : RetryRecord) : nat := S (Z.to_nat (retries cfg - rec_attempt r)).

(** What a drain at [now] may still attempt: of the records that wait and are due,
    and of those in flight whose timeout is over. *)
Definition due_worth (now : Z) (r : RetryRecord) : nat := if (nextRetryAt r <=? now)%Z then attempts_left r else 0.

Definition due_work (now : Z) (l : jsmap string Entry) : nat :=
  sum_list_with (λ p, due_worth now (entry_record p.2)) l.

Definition expired_work (now : Z) (l : jsmap string InFlight) : nat :=
  sum_list_with (λ p, if (expiresAt p.2 <=? now)%Z then attempts_left (flight_record p.2) else 0) l.

Definition drain_work (now : Z) (s : MemoryRetryQueue) : nat :=
  due_work now (queued s) + expired_work now (inFlight s).

(** Sums over maps. *)
Lemma sum_mset {V} (f : string * V → nat) k v (m : jsmap string V) :
  sum_list_with f (mset k v m) ≤ sum_list_with f m + f (k, v).
Proof.
  induction m as [|[k' v'] m IH]; cbn; [lia|].
  destruct (decide (k' = k)) as [->|]; cbn; lia.
Qed.

Lemma sum_mdel {V} (f : string * V → nat) k (m : jsmap string V) :
  sum_list_with f (mdel k m) ≤ sum_list_with f m.
Proof. induction m as [|[k' v'] m IH]; cbn; [lia|]. case_decide; cbn; lia. Qed.

Lemma sum_mdel_present {V} (f : string * V → nat) k v (m : jsmap string V) :
  mget k m = Some v → sum_list_with f (mdel k m) + f (k, v) = sum_list_with f m.
Proof.
  induction m as [|[k' v'] m IH]; cbn; [done|]. destruct (decide (k' = k)) as [->|].
  - intros [= ->]. lia.
  - intros H. specialize (IH H). cbn. lia.
Qed.

Lemma due_worth_le now r : due_worth now r ≤ attempts_left r.
Proof using Type. unfold due_worth. destruct (_ <=? _)%Z; lia. Qed.

Lemma drain_work_put now k r s : drain_work now (put k r s) ≤ drain_work now s + attempts_left r.
Proof.
  unfold drain_work, due_work, expired_work, put. cbn.
  pose proof (sum_mset (λ p, due_worth now (entry_record p.2)) k
    {| entry_record := r; entry_seq := seq s |} (queued s)) as H. cbn in H.
  pose proof (due_worth_le now r). lia.
Qed.

Lemma drain_work_ack now k s : drain_work now (ack k s) ≤ drain_work now s.
Proof.
  unfold drain_work, due_work, expired_work, ack. cbn.
  pose proof (sum_mdel (λ p : string * InFlight,
    if (expiresAt p.2 <=? now)%Z then attempts_left (flight_record p.2) else 0) k (inFlight s)). lia.
Qed.

Lemma drain_work_reclaim now s :
  queue_ok s → drain_work now (reclaimExpiredInFlight now s) ≤ drain_work now s.
Proof.
  intros (_ & Hf & _). unfold reclaimExpiredInFlight.
  assert (∀ l s, mwf l → (∀ k f, mget k l = Some f → mget k (inFlight s) = Some f) →
    drain_work now (foldl (reclaim_one now) s l) ≤ drain_work now s) as Hl; [|by apply Hl].
  clear s Hf. induction l as [|[k f] l IH]; intros s Hl Hin; cbn [foldl]; [done|].
  apply NoDup_cons in Hl as [Hk Hl]. etrans; [apply IH; [done|]|].
  - intros k' f' Hk'. assert (k ≠ k') as Hne.
    { intros ->. by apply Hk, (mget_Some_key _ _ _ Hk'). }
    unfold reclaim_one. cbn. destruct (expiresAt f <=? now)%Z; cbn; [rewrite mget_mdel_ne by done|];
      apply Hin; cbn; by rewrite decide_False.
  - unfold reclaim_one. cbn. destruct (expiresAt f <=? now)%Z eqn:Ee; [|done].
    etrans; [apply drain_work_put|]. unfold drain_work, due_work, expired_work. cbn.
    pose proof (sum_mdel_present (λ p : string * InFlight,
      if (expiresAt p.2 <=? now)%Z then attempts_left (flight_record p.2) else 0) k f (inFlight s)) as Hs.
    cbn in Hs. rewrite Ee in Hs. specialize (Hin k f). cbn in Hin. rewrite decide_True in Hin by done.
    specialize (Hs (Hin eq_refl)). change (attempts_left (due_at now (flight_record f)))
      with (attempts_left (flight_record f)). lia.
Qed.

Lemma drain_work_evict now s : queue_ok s → drain_work now (evictNewest s).2 ≤ drain_work now s.
Proof.
  intros Hok. pose proof (evict_spec s Hok) as H. destruct (evictNewest s) as [[r|] s']; cbn.
  - destruct H as [_ ->]. unfold drain_work, due_work, expired_work. cbn.
    pose proof (sum_mdel (λ p : string * Entry, due_worth now (entry_record p.2)) (id r) (queued s)). lia.
  - by destruct H as [_ ->].
Qed.

(** A record handed out leaves the work by its own attempts: it is in flight until
    after [now]. *)
Lemma drain_work_dequeue now s r s' :
  queue_ok s → (1 ≤ visibilityTimeoutMs s)%Z → dequeue now s = (Some r, s') →
  drain_work now s' + attempts_left r ≤ drain_work now s.
Proof.
  intros Hok Hv Hd. destruct (reclaim_spec now s Hok) as (_ & Hv1 & _).
  pose proof (drain_work_reclaim now s Hok) as Hr. destruct (dequeue_spec now s Hok) as [_ H].
  revert H Hd. unfold dequeue.
  destruct (foldl _ None _) as [e|]; [|done]. cbn. intros ((e' & He' & Hin & Hdue & _) & _) [= <- <-].
  set (s1 := reclaimExpiredInFlight now s) in *. unfold drain_work, due_work, expired_work in *. cbn.
  pose proof (sum_mdel_present (λ p : string * Entry, due_worth now (entry_record p.2)) _ _ _ Hin) as H1.
  cbn in H1. rewrite He' in H1. unfold due in Hdue. rewrite He' in Hdue.
  replace (due_worth now (entry_record e)) with (attempts_left (entry_record e)) in H1
    by (unfold due_worth; by rewrite (proj2 (Z.leb_le _ _))).
  pose proof (sum_mset (λ p : string * InFlight,
      if (expiresAt p.2 <=? now)%Z then attempts_left (flight_record p.2) else 0)
      (id (entry_record e)) {| flight_record := entry_record e; expiresAt := now + visibilityTimeoutMs s1 |}
      (inFlight s1)) as H2.
  cbn in H2. rewrite (proj2 (Z.leb_gt (now + visibilityTimeoutMs s1) now)) in H2 by lia. lia.
Qed.

Definition attempted (out : list QueueOutput) : list RetryRecord :=
  out ≫= λ o, match o with RecordAttempted r => [r] | _ => [] end.

Lemma attempted_app out out' : attempted (out ++ out') = attempted out ++ attempted out'.
Proof. apply bind_app. Qed.

(** A retry is worth one attempt less than the record it replaces. *)
Lemma persist_work now r error o d :
  queue_ok (queue d) → (rec_attempt r < retries cfg)%Z →
  let p := persistRetry cfg r error o d in
  queue_ok (queue p.2) ∧ visibilityTimeoutMs (queue p.2) = visibilityTimeoutMs (queue d) ∧
  drain_work now (queue p.2) + 1 ≤ drain_work now (queue d) + attempts_left r ∧ attempted p.1 = [].
Proof.
  intros Hok Hlt p. subst p. unfold persistRetry.
  assert (∀ out q, queue_ok q → visibilityTimeoutMs q = visibilityTimeoutMs (queue d) →
    drain_work now q ≤ drain_work now (queue d) → attempted out = [] →
    let r' := {| id := "retry-" +:+ pretty (out_now o) +:+ "-" +:+ pretty (retrySeq d);
       rec_event := rec_event r; rec_url := rec_url r; rec_attempt := rec_attempt r + 1;
       nextRetryAt := out_now o + backoff cfg (rec_attempt r) (out_random o);
       lastError := Some error; createdAt := Some (out_now o) |} in
    queue_ok (put (id r') r' q) ∧ visibilityTimeoutMs (put (id r') r' q) = visibilityTimeoutMs (queue d) ∧
    drain_work now (put (id r') r' q) + 1 ≤ drain_work now (queue d) + attempts_left r ∧
    attempted out = []) as Hput.
  { intros out q Hq Hv Hw Ho r'. split_and!; [by apply put_ok|done| |done].
    pose proof (drain_work_put now (id r') r' q) as Hp.
    assert (attempts_left r' + 1 = attempts_left r) by (unfold attempts_left; cbn; lia). lia. }
  destruct (_ <=? _)%Z; [|by apply Hput].
  pose proof (evict_spec (queue d) Hok) as He. pose proof (drain_work_evict now (queue d) Hok) as Hw.
  pose proof (call_step_ok (queue d) EvictNewest Hok) as Hq. cbn [call_step] in Hq.
  destruct (evictNewest (queue d)) as [[e|] q]; cbn [fst snd] in *; (apply Hput; [done| |done|done]);
    by destruct He as [_ ->].
Qed.

Lemma deliver_work now r o d :
  queue_ok (queue d) →
  let p := deliver_record cfg r o d in
  queue_ok (queue p.2) ∧ visibilityTimeoutMs (queue p.2) = visibilityTimeoutMs (queue d) ∧
  drain_work now (queue p.2) + 1 ≤ drain_work now (queue d) + attempts_left r ∧ attempted p.1 = [].
Proof.
  intros Hok p. subst p. unfold deliver_record.
  assert (1 ≤ attempts_left r) by (unfold attempts_left; lia).
  destruct (out_result o) as [|error terminal]; [split_and!; [done|done|cbn; lia|done]|].
  destruct (out_stopped o); [split_and!; [done|done|cbn; lia|done]|].
  destruct (negb terminal && _) eqn:E; [|split_and!; [done|done|cbn; lia|done]].
  apply andb_true_iff in E as [_ E%Z.ltb_lt]. by apply persist_work.
Qed.

(** One round of a drain: what it hands out was due, and the work left after it
    is less by at least one attempt. *)
Lemma drain_round now r q o d :
  queue_ok (queue d) → (1 ≤ visibilityTimeoutMs (queue d))%Z → dequeue now (queue d) = (Some r, q) →
  let p := deliver_record cfg r o (with_queue q d) in
  let q' := ack (id r) (queue p.2) in
  attempted p.1 = [] ∧ (nextRetryAt r ≤ now)%Z ∧ queue_ok q' ∧ (1 ≤ visibilityTimeoutMs q')%Z ∧
  drain_work now q' + 1 ≤ drain_work now (queue d).
Proof.
  intros Hok Hv E p q'. subst p q'. pose proof (drain_work_dequeue now _ _ _ Hok Hv E) as Hd.
  assert (queue_ok q ∧ visibilityTimeoutMs q = visibilityTimeoutMs (queue d) ∧ (nextRetryAt r ≤ now)%Z) as (Hq & Hvq & Hr).
  { pose proof (dequeue_spec now _ Hok) as [H H']. rewrite E in H, H'. cbn [fst snd] in *.
    split; [done|]. destruct H' as ((e & <- & Hin & Hdue & _) & _). split; [|exact Hdue].
    destruct (reclaim_spec now _ Hok) as (_ & Hvr & _). unfold dequeue in E.
    destruct (foldl _ None _); by simplify_eq. }
  destruct (deliver_work now r o (with_queue q d) Hq) as (H1 & H2 & H3 & H4).
  destruct (deliver_record cfg r o (with_queue q d)) as [out d1]. cbn [fst snd queue with_queue] in *.
  pose proof (drain_work_ack now (id r) (queue d1)) as Ha.
  split_and!; [done|done|by apply with_inFlight_ok|cbn [visibilityTimeoutMs ack with_maps]; lia|lia].
Qed.

Lemma drain_attempts now outcomes d :
  queue_ok (queue d) → (1 ≤ visibilityTimeoutMs (queue d))%Z →
  let p := drainDueRetries cfg now outcomes d in
  length (attempted p.1) ≤ drain_work now (queue d) ∧
  Forall (λ r, (nextRetryAt r ≤ now)%Z) (attempted p.1) ∧
  (drain_work now (queue d) ≤ length outcomes → Forall (λ o, out_stopped o = false) outcomes →
   ∀ k e, mget k (queued (queue p.2)) = Some e → ¬ due now e).
Proof.
  revert d. induction outcomes as [|o os IH]; intros d Hok Hv p; subst p; cbn [drainDueRetries].
  all: destruct (dequeue now (queue d)) as [[r|] q] eqn:E.
  2, 4: split_and!; [cbn; lia|constructor|]; intros _ _ k e; pose proof (dequeue_spec now _ Hok) as [_ H]; rewrite E in H;
    cbn [fst snd queue with_queue] in *; destruct H as [H ->]; apply H.
  - pose proof (drain_work_dequeue now _ _ _ Hok Hv E) as Hd. destruct (dequeue_spec now _ Hok) as [_ H]. rewrite E in H.
    cbn [fst snd] in *. destruct H as ((e & <- & _ & Hdue & _) & _). unfold attempts_left in Hd.
    cbn [fst snd length]. change (attempted [RecordAttempted (entry_record e)]) with [entry_record e]. cbn [length].
    split_and!; [lia|by repeat constructor|lia].
  - destruct (drain_round now r q o d Hok Hv E) as (H4 & Hr & Hq & Hvq & Hw).
    destruct (deliver_record cfg r o (with_queue q d)) as [out d1]. cbn [fst snd queue with_queue] in *.
    destruct (out_stopped o) eqn:Hs.
    + cbn [fst snd]. change (RecordAttempted r :: out ++ []) with ([RecordAttempted r] ++ out ++ []).
      rewrite !attempted_app, H4. cbn. split_and!; [lia|by repeat constructor|]. intros _ [Ho _]%Forall_cons. congruence.
    + specialize (IH (with_queue (ack (id r) (queue d1)) d1) Hq Hvq). cbn zeta in IH.
      destruct (drainDueRetries cfg now os _) as [out' d3]. cbn [fst snd queue with_queue] in *.
      destruct IH as (IH1 & IH2 & IH3). change (RecordAttempted r :: out ++ out') with ([RecordAttempted r] ++ out ++ out').
      rewrite !attempted_app, H4. change (attempted [RecordAttempted r]) with [r]. cbn [length app].
      split_and!; [lia|by constructor|]. intros Hlen [_ Hos]%Forall_cons. apply IH3; [lia|done].
Qed.
End drain.

Lemma run_calls_visibility visibility cs : (1 ≤ visibilityTimeoutMs (run_calls visibility cs))%Z.
Proof.
  unfold run_calls. induction cs as [|c cs IH] using rev_ind; [cbn; lia|].
  rewrite foldl_app. cbn [foldl]. pose proof (run_calls_ok visibility cs) as Hok. unfold run_calls in Hok.
  set (s := foldl _ _ cs) in *. destruct c as [r|now|k|now k delay|]; cbn [call_step].
  - unfold enqueue. by destruct (String.eqb (id r) "").
  - destruct (reclaim_spec now s Hok) as (_ & Hv & _). unfold dequeue.
    destruct (foldl _ None _); cbn; by rewrite Hv.
  - done.
  - unfold nack, enqueue. destruct (mget k (inFlight s)); [|done]. by destruct (String.eqb _ "").
  - unfold evictNewest. by destruct (foldl _ None _).
Qed.

(** C21: A drain of the due retries ends, and with nothing due: whatever the
    attempts' outcomes, it makes at most the attempts that are left, up to [retries],
    to the records that were due or whose visibility timeout was over when it began,
    even when each failure stores a retry that is due at once; every record it
    attempts is due; and unless the watcher stops, once so many outcomes have come
    no record that is due waits any more. *)
Theorem drain_ends cfg visibility cs n now outcomes :
  let d := {| queue := run_calls visibility cs; retrySeq := n |} in
  let p := drainDueRetries cfg now outcomes d in
  length (attempted p.1) ≤ drain_work cfg now (queue d) ∧
  Forall (λ r, (nextRetryAt r ≤ now)%Z) (attempted p.1) ∧
  (drain_work cfg now (queue d) ≤ length outcomes → Forall (λ o, out_stopped o = false) outcomes →
   ∀ k e, mget k (queued (queue p.2)) = Some e → ¬ due now e).
Proof. intros d. apply drain_attempts; [apply run_calls_ok|apply run_calls_visibility]. Qed.

(** ** The poller does not count *)

Section poller.
Context (cfg : ResolvedWebhookConfig).

Definition failing (now : Z) : Outcome :=
  {| out_result := NotSent "HTTP 500" false; out_stopped := false; out_now := now; out_random := 0 |}.

(** [n] ticks, each when the record is due again, each attempt failing. *)
Fixpoint poll_failing (n : nat) (now delay : Z) (q : MemoryRetryQueue)
    : list QueueOutput * MemoryRetryQueue :=
  match n with
  | O => ([], q)
  | S n' =>
      match poll cfg now false (failing now) q with
      | (out, Ok q') =>
          let '(out', q'') := poll_failing n' (now + delay) delay q' in (out ++ out', q'')
      | (out, Err _) => (out, q)
      end
  end.

Definition one_record (q : MemoryRetryQueue) (r : RetryRecord) : Prop :=
  (∃ n, queued q = [(id r, {| entry_record := r; entry_seq := n |})]) ∧ inFlight q = [].

Lemma poll_one q r now :
  one_record q r → id r ≠ "" → (nextRetryAt r ≤ now)%Z → (rec_attempt r < retries cfg)%Z →
  ∃ q', poll cfg now false (failing now) q = ([RecordAttempted r], Ok q') ∧
    one_record q' (due_at (now + Z.max 0 (backoff cfg (rec_attempt r) 0)) r).
Proof.
  intros [[n Hq] Hf] Hid Hdue Hlt. unfold poll, dequeue, reclaimExpiredInFlight. rewrite Hf. cbn [foldl].
  rewrite Hq. cbn [mvals fmap list_fmap snd foldl]. unfold best_step. cbn [entry_record].
  rewrite (proj2 (Z.ltb_ge _ _)) by done. cbn [entry_record mdel]. rewrite decide_True by done.
  unfold processQueueRecord. cbn [failing out_stopped out_result negb andb].
  rewrite (proj2 (Z.ltb_lt _ _)) by done. unfold nack. cbn [inFlight with_maps]. rewrite Hf.
  rewrite mget_mset_eq. unfold enqueue. cbn [id due_at flight_record].
  rewrite (proj2 (String.eqb_neq _ _)) by done. eexists. split; [done|]. split.
  - eexists. done.
  - cbn. by rewrite decide_True.
Qed.

(** However often the poller attempts a record that keeps failing, its attempt
    number stays and the record stays queued. *)
Lemma poller_never_gives_up n q r now :
  one_record q r → id r ≠ "" → (nextRetryAt r ≤ now)%Z → (rec_attempt r < retries cfg)%Z →
  let p := poll_failing n now (Z.max 0 (backoff cfg (rec_attempt r) 0)) q in
  rec_attempt <$> attempted p.1 = replicate n (rec_attempt r) ∧
  ∃ t, one_record p.2 (due_at t r).
Proof.
  revert q r now. induction n as [|n IH]; intros q r now Hq Hid Hdue Hlt; cbn [poll_failing].
  - split; [done|]. exists (nextRetryAt r). by destruct r.
  - destruct (poll_one q r now Hq Hid Hdue Hlt) as (q' & -> & Hq').
    set (d := Z.max 0 _) in *. specialize (IH q' (due_at (now + d) r) (now + d)%Z Hq' Hid ltac:(done) Hlt).
    cbn [rec_attempt due_at] in IH. fold d in IH. destruct (poll_failing n (now + d) d q') as [out' q''].
    cbn [fst snd] in *. destruct IH as [H1 [t H2]]. rewrite attempted_app. cbn. split; [by rewrite H1|].
    by exists t.
Qed.
End poller.

(** ** Witness

    Of two waiting records one is due; its attempts fail, and each stores a retry
    that is due at once. *)

Definition demo_config : ResolvedWebhookConfig :=
  {| urls := ["https://a"]; urlTimeouts := []; retries := 3; deliveryTimeoutMs := 10000; maxConcurrentRetries := 100;
     maxConcurrentDeliveries := 100; urlValidator := true; backoff := λ _ _, 1000%Z |}.
Definition waiting_record (k : string) (due : Z) : RetryRecord :=
  {| id := k; rec_event := 0; rec_url := "https://a"; rec_attempt := 2; nextRetryAt := due; lastError := None; createdAt := None |}.
Definition two_waiting : list call := [Enqueue (waiting_record "now" 10); Enqueue (waiting_record "later" 99999)].

Lemma drain_ends_witness :
  let d := {| queue := run_calls None two_waiting; retrySeq := 0 |} in
  let p := drainDueRetries demo_config 5000 [failing 0; failing 0; failing 0] d in
  drain_work demo_config 5000 (queue d) = 2 ∧ rec_attempt <$> attempted p.1 = [2; 3]%Z ∧
  mkeys (queued (queue p.2)) = ["later"] ∧
  (∀ k e, mget k (queued (queue p.2)) = Some e → ¬ due 5000 e).
Proof.
  intros d p. split; [reflexivity|]. split; [reflexivity|]. split; [reflexivity|].
  apply (drain_ends demo_config None two_waiting 0 5000 [failing 0; failing 0; failing 0]).
  - apply Nat.leb_le. reflexivity.
  - by repeat constructor.
Defined.
