(* ===== verification/WebhookVerify.v ===== *)
(** * Verifying a webhook (packages/pulse-webhooks/src/signing.ts, verifyWebhook and
    verifyWebhookRaw of index.ts, edge.ts)

    The HMAC is a parameter: the digest, as bytes, of a secret and a message.  Texts
    are the bytes of their UTF-8 encoding, whose number is what both sides count. *)

From S2P Require Import Prelude.
From S2P Require Import JsValue.
From S2P Require Import Decimal.
From S2P Require Import PrivateIp.

(** ** Options *)

(** What is left out is [None]; times are whole milliseconds. *)
Record VerifyWebhookOptions := {
  maxAgeMs : option Z;
  clockSkewMs : option Z;
  nowMs : option Z;
  maxBodyBytes : option Z;
}.

Definition DEFAULT_MAX_AGE_MS : Z := 300000.
Definition DEFAULT_CLOCK_SKEW_MS : Z := 30000.
Definition DEFAULT_MAX_BODY_BYTES : Z := 100000.

(** [Number(s)] of decimal digits is finite below this. *)
Definition number_bound : Z := 2 ^ 1024 - 2 ^ 970.

(** ** Hexadecimal *)

Definition hex_byte (b : Z) : string := hex_digit (b / 16) +:+ hex_digit (b mod 16).

(** [digest("hex")] *)
Definition hex_encode (l : list Z) : string := foldr (λ b s, hex_byte b +:+ s) "" l.

(** [Buffer.from(s, "hex")]: the bytes before the first pair that is not two
    digits. *)
Fixpoint hex_prefix (s : string) : list Z :=
  match s with
  | String a (String b s') =>
      match hex_val a, hex_val b with
      | Some x, Some y => (16 * x + y)%Z :: hex_prefix s'
      | _, _ => []
      end
  | _ => []
  end.

(** [/^[0-9a-fA-F]+$/], for texts that are not empty. *)
Fixpoint hex_chars (s : string) : bool :=
  match s with
  | EmptyString => true
  | String c s' => bool_decide (is_Some (hex_val c)) && hex_chars s'
  end.

(** [parseSignatureHex]; the pairs of hexadecimal digits parse to bytes. *)
Definition parseSignatureHex (signature : string) : option (list Z) :=
  if (String.length signature =? 0) || negb (Nat.even (String.length signature))
     || negb (hex_chars signature)
  then None
  else Some (hex_prefix signature).

Section verify.
Context (hmac : string → string → list Z).
Context (date_now : Z).

Definition signed_message (payload timestamp : string) : string := timestamp +:+ "." +:+ payload.

Definition signWebhookPayload (payload timestamp secret : string) : string :=
  hex_encode (hmac secret (signed_message payload timestamp)).

(** The checks on the body and the timestamp; they are the same lines on both
    sides. *)
Definition fresh (payload timestamp : string) (o : VerifyWebhookOptions) : bool :=
  if (default DEFAULT_MAX_BODY_BYTES (maxBodyBytes o) <? Z.of_nat (String.length payload))%Z then false
  else if negb (all_digits timestamp && negb (String.eqb timestamp "")) then false
  else
    let timestampMs := Z.of_N (digits_value timestamp) in
    if (number_bound <=? timestampMs)%Z then false
    else
      let age := default DEFAULT_MAX_AGE_MS (maxAgeMs o) in
      let skew := default DEFAULT_CLOCK_SKEW_MS (clockSkewMs o) in
      let now := default date_now (nowMs o) in
      if (now + skew <? timestampMs)%Z then false
      else if (timestampMs <? now - age - skew)%Z then false
      else true.

(** [timingSafeEqual] of buffers of one length. *)
Definition verifyWebhookRaw (payload signature secret timestamp : string) (o : VerifyWebhookOptions)
    : bool :=
  fresh payload timestamp o &&
  let expected := hex_prefix (signWebhookPayload payload timestamp secret) in
  let received := hex_prefix signature in
  if negb (length expected =? length received) then false else bool_decide (expected = received).

(** The loop [result |= (expected[i] || 0) ^ (signature[i] || 0)]. *)
Fixpoint difference (acc : Z) (l l' : list Z) : Z :=
  match l, l' with
  | x :: l, y :: l' => difference (Z.lor acc (Z.lxor x y)) l l'
  | _, _ => acc
  end.

Definition verifyWebhookEdgeRaw (payload signature secret timestamp : string)
    (o : VerifyWebhookOptions) : bool :=
  fresh payload timestamp o &&
  match parseSignatureHex signature with
  | None => false
  | Some signatureBytes =>
      let expected := hmac secret (signed_message payload timestamp) in
      if negb (length expected =? length signatureBytes) then false
      else (difference 0 expected signatureBytes =? 0)%Z
  end.

(** ** With the payload parsed *)

Context {E : Type} (json_parse : string → option E).

(** The schema hook: [None] is a hook that throws. *)
Definition schema_ok (schema : option (E → option bool)) (e : E) : bool :=
  match schema with None => true | Some f => match f e with Some b => b | None => false end end.

Definition parse_checked (schema : option (E → option bool)) (payload : string) : option E :=
  match json_parse payload with
  | Some e => if schema_ok schema e then Some e else None
  | None => None
  end.

Definition verifyWebhook (payload signature secret timestamp : string) (o : VerifyWebhookOptions)
    (schema : option (E → option bool)) : option E :=
  if (default DEFAULT_MAX_BODY_BYTES (maxBodyBytes o) <? Z.of_nat (String.length payload))%Z then None
  else if verifyWebhookRaw payload signature secret timestamp o then parse_checked schema payload
  else None.

Definition verifyWebhookEdge (payload signature secret timestamp : string) (o : VerifyWebhookOptions)
    (schema : option (E → option bool)) : option E :=
  if (default DEFAULT_MAX_BODY_BYTES (maxBodyBytes o) <? Z.of_nat (String.length payload))%Z then None
  else if verifyWebhookEdgeRaw payload signature secret timestamp o then parse_checked schema payload
  else None.
End verify.

(** ** Hexadecimal round trip *)

Lemma hex_byte_val b :
  byte b → ∃ c d x y, hex_byte b = String c (String d "") ∧ hex_val c = Some x ∧ hex_val d = Some y ∧
    (16 * x + y)%Z = b.
Proof.
  intros Hb. unfold byte in Hb. pose proof (Z.div_mod b 16 ltac:(lia)) as Hdm.
  pose proof (Z.mod_pos_bound b 16 ltac:(lia)). pose proof (Z.div_pos b 16 ltac:(lia) ltac:(lia)).
  pose proof (Z.div_lt_upper_bound b 16 16 ltac:(lia) ltac:(lia)).
  destruct (hex_digit_ok (b / 16)) as (c & Hc & Hx & _); [lia|].
  destruct (hex_digit_ok (b mod 16)) as (d & Hd & Hy & _); [lia|].
  exists c, d, (b / 16)%Z, (b mod 16)%Z. unfold hex_byte. rewrite Hc, Hd. by split_and!.
Qed.

Lemma hex_encode_cons b l c d :
  hex_byte b = String c (String d "") → hex_encode (b :: l) = String c (String d (hex_encode l)).
Proof. intros H. unfold hex_encode. cbn. by rewrite H. Qed.

Lemma hex_roundtrip l : Forall byte l → hex_prefix (hex_encode l) = l.
Proof.
  intros H. induction H as [|b l Hb _ IH]; [done|].
  destruct (hex_byte_val b Hb) as (c & d & x & y & He & Hx & Hy & Hv).
  rewrite (hex_encode_cons b l c d He). cbn [hex_prefix]. by rewrite Hx, Hy, IH, Hv.
Qed.

(** Text of digest bytes is what the edge parser wants, unless it is empty. *)
Lemma hex_encode_shape l :
  Forall byte l → hex_chars (hex_encode l) = true ∧ String.length (hex_encode l) = 2 * length l.
Proof.
  intros H. induction H as [|b l Hb _ [IH1 IH2]]; [done|].
  destruct (hex_byte_val b Hb) as (c & d & x & y & He & Hx & Hy & _).
  rewrite (hex_encode_cons b l c d He). cbn [hex_chars String.length length].
  rewrite IH1, Hx, Hy, IH2. split; [|lia]. by rewrite !bool_decide_true by (by eexists).
Qed.

Lemma parse_encode l : Forall byte l → l ≠ [] → parseSignatureHex (hex_encode l) = Some l.
Proof.
  intros H Hne. destruct (hex_encode_shape l H) as [H1 H2]. unfold parseSignatureHex.
  rewrite H1, H2. destruct l as [|b l]; [done|]. cbn [length].
  rewrite (proj2 (Nat.eqb_neq _ _)) by lia. cbn [orb negb].
  replace (Nat.even (2 * S (length l))) with true by (symmetry; apply Nat.even_spec; by eexists).
  cbn [negb orb]. by rewrite hex_roundtrip.
Qed.

(** Bytes a text of hexadecimal digits stands for are bytes. *)
Lemma hex_val_range c x : hex_val c = Some x → (0 ≤ x < 16)%Z.
Proof.
  unfold hex_val. intros H. repeat case_match; simplify_eq; bool_to_prop; lia.
Qed.

Lemma hex_prefix_bytes n s : String.length s ≤ n → Forall byte (hex_prefix s).
Proof.
  revert s. induction n as [|n IH]; intros s Hn; [by destruct s; [|cbn in Hn; lia]|].
  destruct s as [|a [|b s]]; cbn [hex_prefix]; [constructor..|].
  destruct (hex_val a) as [x|] eqn:Ha; [|constructor]. destruct (hex_val b) as [y|] eqn:Hb; [|constructor].
  apply hex_val_range in Ha, Hb. constructor; [unfold byte; lia|]. apply IH. cbn in Hn. lia.
Qed.

(** ** The constant-time comparison *)

Lemma difference_zero acc l l' :
  length l = length l' → (difference acc l l' = 0 ↔ acc = 0 ∧ l = l')%Z.
Proof.
  revert acc l'. induction l as [|x l IH]; intros acc [|y l'] Hl; cbn;
    [naive_solver|done|done|].
  rewrite IH by (cbn in Hl; lia). rewrite Z.lor_eq_0_iff, Z.lxor_eq_0_iff. naive_solver.
Qed.

Section theorems.
Context (hmac : string → string → list Z) (date_now : Z).

(** HMAC-SHA256 gives 32 bytes. *)
Definition digest_bytes : Prop := ∀ secret m, Forall byte (hmac secret m) ∧ length (hmac secret m) = 32.

Notation sign := (signWebhookPayload hmac).
Notation node := (verifyWebhookRaw hmac date_now).
Notation edge := (verifyWebhookEdgeRaw hmac date_now).

Lemma edge_compare expected received :
  (if negb (length expected =? length received) then false else (difference 0 expected received =? 0)%Z)
  = bool_decide (expected = received).
Proof.
  destruct (Nat.eqb_spec (length expected) (length received)) as [Hl|Hl]; cbn.
  - apply eq_true_iff_eq. rewrite bool_decide_eq_true, Z.eqb_eq, difference_zero by done. naive_solver.
  - symmetry. apply bool_decide_eq_false. congruence.
Qed.

Lemma node_compare (expected received : list Z) :
  (if negb (length expected =? length received) then false else bool_decide (expected = received))
  = bool_decide (expected = received).
Proof.
  destruct (Nat.eqb_spec (length expected) (length received)) as [Hl|Hl]; [done|].
  symmetry. apply bool_decide_eq_false. congruence.
Qed.

Lemma hex_prefix_length n s :
  String.length s ≤ n → hex_chars s = true → Nat.even (String.length s) = true →
  String.length s = 2 * length (hex_prefix s).
Proof.
  revert s. induction n as [|n IH]; intros s Hn; [by destruct s; [|cbn in Hn; lia]|].
  destruct s as [|a [|b s]]; cbn [hex_prefix hex_chars String.length]; [done|done|].
  intros [Ha [Hb Hs]%andb_true_iff]%andb_true_iff He.
  apply bool_decide_eq_true in Ha as [x Ha], Hb as [y Hb]. rewrite Ha, Hb. cbn [length].
  cbn in Hn. rewrite (IH s) by (done || lia). lia.
Qed.

Lemma parse_signature_Some s bytes :
  parseSignatureHex s = Some bytes →
  bytes = hex_prefix s ∧ hex_chars s = true ∧ String.length s = 2 * length bytes ∧ String.length s ≠ 0.
Proof.
  unfold parseSignatureHex. destruct (Nat.eqb_spec (String.length s) 0); [done|].
  destruct (Nat.even (String.length s)) eqn:He; [|done]. destruct (hex_chars s) eqn:Hc; [|done].
  intros [= <-]. split_and!; try done. by apply (hex_prefix_length (String.length s)).
Qed.

(** What the sender signs both verifiers accept, inside the time window and the
    size limit; a verifier accepts only such a fresh payload with the digest of
    this payload, timestamp and secret: the edge verifier exactly its hexadecimal
    text in either case, Node's also with text after it. *)
Theorem verification_exact payload signature secret timestamp o :
  digest_bytes →
  let digest := hmac secret (signed_message payload timestamp) in
  (node payload (sign payload timestamp secret) secret timestamp o = fresh date_now payload timestamp o) ∧
  (edge payload (sign payload timestamp secret) secret timestamp o = fresh date_now payload timestamp o) ∧
  (node payload signature secret timestamp o = true
    ↔ fresh date_now payload timestamp o = true ∧ hex_prefix signature = digest) ∧
  (edge payload signature secret timestamp o = true
    ↔ fresh date_now payload timestamp o = true ∧ hex_prefix signature = digest ∧
      hex_chars signature = true ∧ String.length signature = 64).
Proof.
  intros Hd digest. destruct (Hd secret (signed_message payload timestamp)) as [Hb Hlen].
  fold digest in Hb, Hlen.
  assert (∀ sg, node payload sg secret timestamp o
    = fresh date_now payload timestamp o && bool_decide (digest = hex_prefix sg)) as Hnode.
  { intros sg. unfold verifyWebhookRaw, signWebhookPayload. fold digest. cbv zeta.
    by rewrite node_compare, hex_roundtrip. }
  assert (∀ sg, edge payload sg secret timestamp o = fresh date_now payload timestamp o &&
    match parseSignatureHex sg with Some bytes => bool_decide (digest = bytes) | None => false end)
    as Hedge.
  { intros sg. unfold verifyWebhookEdgeRaw. fold digest. cbv zeta.
    destruct (parseSignatureHex sg); [|done]. by rewrite edge_compare. }
  assert (digest ≠ []) as Hne by (intros E; by rewrite E in Hlen).
  split_and!.
  - rewrite Hnode. unfold signWebhookPayload. fold digest. rewrite hex_roundtrip by done.
    by rewrite bool_decide_true, andb_true_r.
  - rewrite Hedge. unfold signWebhookPayload. fold digest. rewrite parse_encode by done.
    by rewrite bool_decide_true, andb_true_r.
  - rewrite Hnode, andb_true_iff, bool_decide_eq_true. naive_solver.
  - rewrite Hedge, andb_true_iff. destruct (parseSignatureHex signature) as [bytes|] eqn:Ep.
    + apply parse_signature_Some in Ep as (-> & Hc & He & Hl). rewrite bool_decide_eq_true.
      split; [|naive_solver]. intros [H1 H2]. split_and!; [done|done|done|].
      rewrite <-H2, Hlen in He. lia.
    + split; [by intros [_ ?]|]. intros (_ & _ & Hc & Hl). unfold parseSignatureHex in Ep.
      by rewrite Hc, Hl in Ep.
Qed.

(** Edge and Node agree on the parsed webhook for every signature that is an
    even number of hexadecimal digits; whatever the edge verifier returns Node's
    returns too. *)
Theorem verifiers_agree {E} (json_parse : string → option E) payload signature secret timestamp o schema :
  digest_bytes →
  let node := verifyWebhook hmac date_now json_parse payload signature secret timestamp o schema in
  let edge := verifyWebhookEdge hmac date_now json_parse payload signature secret timestamp o schema in
  (parseSignatureHex signature ≠ None → node = edge) ∧ (edge ≠ None → node = edge).
Proof.
  intros Hd nd ed. subst nd ed. unfold verifyWebhook, verifyWebhookEdge.
  destruct (_ <? _)%Z; [done|].
  assert (parseSignatureHex signature ≠ None →
    node payload signature secret timestamp o = edge payload signature secret timestamp o) as Hs.
  { intros Hp. unfold verifyWebhookRaw, verifyWebhookEdgeRaw, signWebhookPayload. cbv zeta.
    destruct (parseSignatureHex signature) as [bytes|] eqn:Ep; [|done].
    apply parse_signature_Some in Ep as [-> _]. destruct (Hd secret (signed_message payload timestamp)).
    by rewrite hex_roundtrip, node_compare, edge_compare. }
  split; [intros Hp; by rewrite Hs|]. intros He. destruct (parseSignatureHex signature) eqn:Ep.
  - by rewrite Hs.
  - unfold verifyWebhookEdgeRaw in *. rewrite Ep in *. by rewrite andb_false_r in *.
Qed.
End theorems.

(** ** Witnesses *)

(** A digest that depends on nothing. *)
Definition constant_digest (secret m : string) : list Z := replicate 32 171%Z.

Lemma constant_digest_bytes : digest_bytes constant_digest.
Proof. intros secret m. split; [|done]. by repeat constructor. Qed.

Definition at_noon : VerifyWebhookOptions :=
  {| maxAgeMs := None; clockSkewMs := None; nowMs := Some 1700000000000%Z; maxBodyBytes := None |}.

Definition signature_ab : string := hex_encode (replicate 32 171%Z).

Lemma verification_exact_witness :
  verifyWebhookEdgeRaw constant_digest 0 "{}" signature_ab "k" "1700000000000" at_noon = true ∧
  (hex_prefix signature_ab = replicate 32 171%Z ∧ String.length signature_ab = 64).
Proof.
  assert (verifyWebhookEdgeRaw constant_digest 0 "{}" signature_ab "k" "1700000000000" at_noon = true)
    as H by (vm_compute; reflexivity).
  split; [exact H|].
  apply (verification_exact constant_digest 0 "{}" signature_ab "k" "1700000000000" at_noon
    constant_digest_bytes) in H as (_ & H1 & _ & H2). by split.
Defined.

Lemma verifiers_agree_witness :
  verifyWebhook constant_digest 0 Some "{}" signature_ab "k" "1700000000000" at_noon None
  = verifyWebhookEdge constant_digest 0 Some "{}" signature_ab "k" "1700000000000" at_noon None.
Proof.
  apply (verifiers_agree constant_digest 0 Some "{}" signature_ab "k" "1700000000000" at_noon None
    constant_digest_bytes). by vm_compute.
Defined.

(** Node reads the digits before the first pair that is not hexadecimal: text after
    a genuine signature is let through, and the edge verifier refuses it. *)
Lemma node_accepts_trailing_text :
  verifyWebhookRaw constant_digest 0 "{}" (signature_ab +:+ "zz") "k" "1700000000000" at_noon = true ∧
  verifyWebhookEdgeRaw constant_digest 0 "{}" (signature_ab +:+ "zz") "k" "1700000000000" at_noon = false.
Proof. by vm_compute. Qed.
