(* ===== verification/TriggerPredicate.v ===== *)
(** * Conditions of event triggers
    (packages/worker-core/src/triggers/predicate.ts and
    packages/pulse-core/src/contractFilters.ts, eventTypeGuard.ts)

    A declarative condition is checked once, at registration, and compiled to a
    predicate over normalised events.  Anchor events, which no condition can
    name, are not in the model's event type. *)

From S2P Require Import Prelude.
From S2P Require Import JsValue.
From S2P Require Import EventTypes.

(** ** Validation of contract filters (contractFilters.ts) *)

Definition VALID_FILTER_TYPES : list string :=
  ["contract.invoked"; "contract.emitted"; "system"; "contract"; "diagnostic"].

(** Membership of a string array. *)
Definition includes (l : list string) (s : string) : bool := existsb (String.eqb s) l.

Definition base64_char (c : ascii) : bool :=
  let n := nat_of_ascii c in
  ((65 <=? n) && (n <=? 90)) || ((97 <=? n) && (n <=? 122)) || ((48 <=? n) && (n <=? 57))
  || Ascii.eqb c "+" || Ascii.eqb c "/".

(** [={0,2}$]: at most [k] padding characters and nothing else. *)
Fixpoint only_padding (k : nat) (s : string) : bool :=
  match s, k with
  | EmptyString, _ => true
  | String c s', S k' => Ascii.eqb c "=" && only_padding k' s'
  | String _ _, O => false
  end.

(** [/^[A-Za-z0-9+/]*={0,2}$/.test(s)] *)
Fixpoint base64Regex (s : string) : bool :=
  match s with
  | EmptyString => true
  | String c s' => if base64_char c then base64Regex s' else only_padding 2 s
  end.

(** From the first padding character on there is nothing but padding. *)
Fixpoint padding_at_end (s : string) : bool :=
  match s with
  | EmptyString => true
  | String c s' =>
      if Ascii.eqb c "=" then only_padding (String.length s) s else padding_at_end s'
  end.

Definition isValidBase64XdrScval (s : string) : bool :=
  negb (String.eqb s "") && base64Regex s && padding_at_end s.

(** A segment or a positional topic filter. *)
Definition valid_segment (s : string) : bool :=
  String.eqb s "*" || String.eqb s "**" || isValidBase64XdrScval s.

Inductive FilterError :=
  | FiltersNotArray
  | TooManyFilters (n : nat)
  | FilterNotObject (i : nat)
  | UnknownFilterType (i : nat)
  | ContractIdsNotArray (i : nat)
  | TooManyContractIds (i n : nat)
  | ContractIdNotString (i j : nat)
  | TopicFiltersNotArray (i : nat)
  | TopicFilterNotString (i j : nat)
  | TopicFilterNotScval (i j : nat)
  | TopicsNotArray (i : nat)
  | PatternNotArray (i j : nat)
  | SegmentNotString (i j k : nat)
  | SegmentNotScval (i j k : nat).

#[export] Instance FilterError_eq_dec : EqDecision FilterError.
Proof. solve_decision. Defined.

(** The errors of an array's elements, in order. *)
Definition each {A E} (f : nat → A → list E) (l : list A) : list E := concat (imap f l).

(** [if (c) errors.push(e)] *)
Definition push_if {E} (c : bool) (e : E) : list E := if c then [e] else [].

Definition check_type (i : nat) (v : jsval) : list FilterError :=
  match v with
  | JUndef => []
  | JStr s => push_if (negb (includes VALID_FILTER_TYPES s)) (UnknownFilterType i)
  | _ => [UnknownFilterType i]
  end.

Definition check_contractIds (i : nat) (v : jsval) : list FilterError :=
  match v with
  | JUndef => []
  | JArr ids =>
      push_if (5 <? length ids) (TooManyContractIds i (length ids)) ++
      each (λ j id, match id with JStr _ => [] | _ => [ContractIdNotString i j] end) ids
  | _ => [ContractIdsNotArray i]
  end.

Definition check_topicFilters (i : nat) (v : jsval) : list FilterError :=
  match v with
  | JUndef => []
  | JArr topics =>
      each (λ j topic,
        match topic with
        | JNull => []
        | JStr s => push_if (negb (valid_segment s)) (TopicFilterNotScval i j)
        | _ => [TopicFilterNotString i j]
        end) topics
  | _ => [TopicFiltersNotArray i]
  end.

Definition check_pattern (i j : nat) (pattern : jsval) : list FilterError :=
  match pattern with
  | JArr segments =>
      each (λ k segment,
        match segment with
        | JStr s => push_if (negb (valid_segment s)) (SegmentNotScval i j k)
        | _ => [SegmentNotString i j k]
        end) segments
  | _ => [PatternNotArray i j]
  end.

Definition check_topics (i : nat) (v : jsval) : list FilterError :=
  match v with
  | JUndef => []
  | JArr patterns => each (check_pattern i) patterns
  | _ => [TopicsNotArray i]
  end.

Definition check_filter (i : nat) (filter : jsval) : list FilterError :=
  if is_object filter then
    check_type i (prop filter "type") ++
    check_contractIds i (prop filter "contractIds") ++
    check_topicFilters i (prop filter "topicFilters") ++
    check_topics i (prop filter "topics")
  else [FilterNotObject i].

(** [null] when there is nothing to report. *)
Definition validateContractFilters (filters : jsval) : option (list FilterError) :=
  match filters with
  | JArr fs =>
      match push_if (5 <? length fs) (TooManyFilters (length fs)) ++ each check_filter fs with
      | [] => None
      | errors => Some errors
      end
  | _ => Some [FiltersNotArray]
  end.

(** ** Conditions (predicate.ts) *)

Record ContractFilter := {
  cf_type : option string;
  cf_contractIds : option (list string);
  cf_topics : option (list (list string));
}.

(** The filter as the object the validator receives. *)
Definition filter_value (f : ContractFilter) : jsval :=
  JObj (option_list ((λ t, ("type", JStr t)) <$> cf_type f) ++
        option_list ((λ l, ("contractIds", JArr (JStr <$> l))) <$> cf_contractIds f) ++
        option_list ((λ l, ("topics", JArr ((λ p, JArr (JStr <$> p)) <$> l))) <$> cf_topics f)).

Record EventConditionSpec := {
  eventTypes : list string;
  contract : option ContractFilter;
  addresses : option (list string);
  requireSuccessfulContractCall : option bool;
}.

Definition TRADE_SIGNAL_EVENT_TYPES : list string :=
  ["offer.created"; "offer.updated"; "offer.deleted"; "lp.deposited"; "lp.withdrawn"].

Definition KNOWN_EVENT_TYPES : list string :=
  ["payment.received"; "payment.sent"; "payment.self"; "account.created"; "account.merged";
   "account.options_changed"; "account.bump_sequence"; "trustline.added"; "trustline.removed";
   "trustline.updated"; "trustline.authorized"; "trustline.deauthorized"; "offer.created";
   "offer.updated"; "offer.deleted"; "data.set"; "data.cleared"; "claimable.created";
   "claimable.claimed"; "lp.deposited"; "lp.withdrawn"; "asset.clawback"; "fee.incurred";
   "contract.invoked"; "contract.emitted"].

Definition CONTRACT_EVENT_TYPES : list string := ["contract.invoked"; "contract.emitted"].

Inductive CompileError :=
  | NoEventTypes
  | UnknownEventType (type : string)
  | TradeSignal (types : list string)
  | InvalidContractFilter (e : FilterError)
  | ContractFilterWithoutContractEvent
  | NoAddresses.

Section predicate.
Context {Semantic : Type}.
Notation Event := (Event Semantic).

(** [isEventType(event, ...types)] *)
Definition isEventType (e : Event) (types : list string) : bool := includes types (type_of e).

(** The properties of an event that name a participant, under the names they
    have in the source.  The fields the normaliser has checked are strings. *)
Definition participants (e : Event) : list (string * jsval) :=
  match e with
  | PendingPayment p | Payment _ p => [("to", JStr (pay_to p)); ("from", JStr (pay_from p))]
  | AccountOptions e => [("source", ao_source e)]
  | AccountCreated e => [("funder", JStr (ac_funder e)); ("account", JStr (ac_account e))]
  | Trustline e => [("account", JStr (tl_account e))]
  | AccountMerge e => [("source", am_source e); ("destination", am_destination e)]
  | Offer e => [("source", JStr (of_source e))]
  | BumpSequence e => [("source", JStr (bs_source e))]
  | Data e => [("source", JStr (da_source e))]
  | ClaimableCreated e => [("sponsor", JStr (cc_sponsor e))]
  | ClaimableClaimed e => [("claimant", JStr (cd_claimant e))]
  | LiquidityPoolDeposit e => [("source", JStr (ld_source e))]
  | LiquidityPoolWithdraw e => [("source", JStr (lw_source e))]
  | TrustAuth e => [("trustor", JStr (ta_trustor e)); ("issuer", JStr (ta_issuer e))]
  | AssetClawback e => [("from", JStr (cb_from e))]
  | FeeIncurred e => [("from", JStr (fe_from e))]
  | ContractInvoked e => [("contractId", JStr (ci_contractId e))]
  | ContractEmitted e => [("contractId", JStr (ce_contractId e))]
  end.

(** The names [addressesOf] looks at. *)
Definition address_fields : list string :=
  ["from"; "to"; "account"; "contractId"; "sourceAccount"; "destination"; "trustor"].

Definition addressesOf (e : Event) : list string :=
  omap (λ name, as_nonempty (prop (JObj (participants e)) name)) address_fields.

(** One topic pattern against the topics of an event. *)
Definition pattern_matches (topics : list jsval) (wanted : list string) : bool :=
  forallb (λ p : nat * string,
    String.eqb p.2 "*" || match topics !! p.1 with Some t => is_str t p.2 | None => false end)
  (imap pair wanted).

Definition matchesContractFilter (e : Event) (filter : ContractFilter) : bool :=
  let ids_match (id : string) :=
    match cf_contractIds filter with
    | Some ((_ :: _) as ids) => includes ids id
    | _ => true
    end in
  match e with
  | ContractInvoked c =>
      ids_match (ci_contractId c) &&
      match cf_topics filter with Some (_ :: _) => false | _ => true end
  | ContractEmitted c =>
      ids_match (ce_contractId c) &&
      match cf_topics filter with
      | Some ((_ :: _) as patterns) => existsb (pattern_matches (ce_topics c)) patterns
      | _ => true
      end
  | _ => false
  end.

(** [event.inSuccessfulContractCall === false] *)
Definition call_failed (e : Event) : bool :=
  match e with
  | ContractInvoked c => bool_decide (ci_inSuccessfulContractCall c = Some false)
  | ContractEmitted c => negb (ce_inSuccessfulContractCall c)
  | _ => false
  end.

(** The compiled predicate of a condition. *)
Definition condition_matches (spec : EventConditionSpec) (e : Event) : bool :=
  isEventType e (eventTypes spec) &&
  negb (default true (requireSuccessfulContractCall spec) &&
        includes CONTRACT_EVENT_TYPES (type_of e) && call_failed e) &&
  match contract spec with Some f => matchesContractFilter e f | None => true end &&
  match addresses spec with
  | Some wanted => existsb (includes wanted) (addressesOf e)
  | None => true
  end.

Definition condition_errors (spec : EventConditionSpec) : list CompileError :=
  match eventTypes spec with
  | [] => [NoEventTypes]
  | types =>
      (type ← types; push_if (negb (includes KNOWN_EVENT_TYPES type)) (UnknownEventType type)) ++
      match base.filter (λ t, includes TRADE_SIGNAL_EVENT_TYPES t = true) types with
      | [] => []
      | tradeSignals => [TradeSignal tradeSignals]
      end
  end ++
  match contract spec with
  | Some f =>
      (InvalidContractFilter <$> default [] (validateContractFilters (JArr [filter_value f]))) ++
      push_if (negb (existsb (includes CONTRACT_EVENT_TYPES) (eventTypes spec)))
        ContractFilterWithoutContractEvent
  | None => []
  end ++
  match addresses spec with Some [] => [NoAddresses] | _ => [] end.

Definition compileEventCondition (spec : EventConditionSpec)
    : result (list CompileError) (Event → bool) :=
  match condition_errors spec with
  | [] => Ok (condition_matches spec)
  | errors => Err errors
  end.

(** ** What registration guarantees *)

(** An accepted condition takes only events of types it names, all of them
    known and none of them market data. *)
Lemma compiled_types spec p e :
  compileEventCondition spec = Ok p → p e = true →
  type_of e ∈ eventTypes spec ∧ includes KNOWN_EVENT_TYPES (type_of e) = true ∧
  includes TRADE_SIGNAL_EVENT_TYPES (type_of e) = false.
Proof.
  unfold compileEventCondition. destruct (condition_errors spec) eqn:Herr; [|done].
  intros [= <-] Hp. unfold condition_matches in Hp. bool_to_prop.
  unfold condition_errors in Herr. apply app_eq_nil in Herr as [Htypes _].
  match goal with H : isEventType _ _ = true |- _ => rename H into Hin end.
  apply existsb_Exists in Hin as (t & Hin & Ht%String.eqb_eq). rewrite Ht in *.
  destruct (eventTypes spec) as [|t0 types] eqn:Hts; [done|].
  apply app_eq_nil in Htypes as [Hknown Htrade]. split_and!; [done| |].
  - apply not_false_iff_true. intros Hno.
    assert (UnknownEventType t ∈ @nil CompileError) as Hbad%not_elem_of_nil; [|done].
    rewrite <-Hknown. apply list_elem_of_bind. exists t. rewrite Hno. cbn. set_solver.
  - apply not_true_iff_false. intros Hyes.
    assert (t ∈ base.filter (λ t, includes TRADE_SIGNAL_EVENT_TYPES t = true) (t0 :: types)) as Hf
      by (by apply list_elem_of_filter).
    destruct (base.filter _ _); [by apply not_elem_of_nil in Hf|done].
Qed.

(** The participant of these events is in a field [addressesOf] does not read. *)
Definition role_unread (e : Event) : bool :=
  match e with
  | AccountOptions _ | BumpSequence _ | Data _ | ClaimableCreated _ | ClaimableClaimed _
  | Offer _ | LiquidityPoolDeposit _ | LiquidityPoolWithdraw _ => true
  | _ => false
  end.

(** A condition narrowed to addresses never takes an event whose participant is
    its source, sponsor or claimant. *)
Lemma unread_role_never_matches spec l e :
  addresses spec = Some l → role_unread e = true → condition_matches spec e = false.
Proof.
  intros Hl He. unfold condition_matches. rewrite Hl.
  assert (addressesOf e = []) as -> by (by destruct e).
  cbn. by rewrite andb_false_r.
Qed.

(** Of a merge only the destination narrows. *)
Lemma merged_account_unread e :
  addressesOf (AccountMerge e) = option_list (as_nonempty (am_destination e)).
Proof. unfold addressesOf. cbn. by destruct (as_nonempty _). Qed.

(** The class of events a filter names is not looked at. *)
Lemma filter_type_unread e f t :
  matchesContractFilter e f =
  matchesContractFilter e
    {| cf_type := t; cf_contractIds := cf_contractIds f; cf_topics := cf_topics f |}.
Proof. by destruct e. Qed.

(** ["**"] is accepted by the validator and then compared as a text. *)
Lemma double_star_is_literal ids c :
  Forall (λ t, t ≠ JStr "**") (ce_topics c) →
  matchesContractFilter (ContractEmitted c)
    {| cf_type := None; cf_contractIds := ids; cf_topics := Some [["**"]] |} = false.
Proof.
  intros Hall. cbn [matchesContractFilter cf_topics cf_contractIds].
  apply andb_false_iff. right. cbn. rewrite andb_true_r, orb_false_r.
  destruct (ce_topics c) as [|t ts]; [done|]. apply Forall_cons in Hall as [Ht _]. cbn.
  destruct (is_str t "**") eqn:H; [|done]. apply is_str_true in H. done.
Qed.

Lemma double_star_accepted :
  validateContractFilters (JArr [filter_value
    {| cf_type := None; cf_contractIds := None; cf_topics := Some [["**"]] |}]) = None.
Proof. reflexivity. Qed.
End predicate.

(** The validator accepts a text no base64 encoder produces. *)
Lemma one_character_is_scval : isValidBase64XdrScval "A" = true.
Proof. reflexivity. Qed.

(** A typed filter is accepted exactly within the limits of the RPC server. *)
Lemma each_nil {A E} (f : nat → A → list E) l :
  each f l = [] ↔ ∀ i x, l !! i = Some x → f i x = [].
Proof.
  unfold each. revert f. induction l as [|x l IH]; intros f; [done|].
  rewrite imap_cons. cbn [concat]. rewrite app_nil, IH. split.
  - intros [H0 Hs] [|i] y Hy; cbn in Hy; [by simplify_eq|by apply (Hs i)].
  - intros H. split; [by apply (H 0)|]. intros i y Hy. by apply (H (S i)).
Qed.

Lemma push_if_nil {E} c (e : E) : push_if c e = [] ↔ c = false.
Proof. by destruct c. Qed.

Lemma each_strings {E} (g : nat → string → list E) (bad : nat → E) l :
  each (λ j v, match v with JStr s => g j s | _ => [bad j] end) (JStr <$> l) = [] ↔
  ∀ j s, l !! j = Some s → g j s = [].
Proof.
  rewrite each_nil. split.
  - intros H j s Hs. apply (H j (JStr s)). by rewrite list_lookup_fmap, Hs.
  - intros H j v Hv. rewrite list_lookup_fmap in Hv.
    apply fmap_Some in Hv as (s & Hs & ->). by apply H.
Qed.

(** What the RPC server takes of one filter. *)
Definition filter_ok (f : ContractFilter) : Prop :=
  match cf_type f with Some t => includes VALID_FILTER_TYPES t = true | None => True end ∧
  match cf_contractIds f with Some ids => length ids ≤ 5 | None => True end ∧
  match cf_topics f with Some ps => Forall (Forall (λ s, valid_segment s = true)) ps | None => True end.

Lemma filter_value_props f :
  prop (filter_value f) "type" = default JUndef (JStr <$> cf_type f) ∧
  prop (filter_value f) "contractIds" = default JUndef ((λ l, JArr (JStr <$> l)) <$> cf_contractIds f) ∧
  prop (filter_value f) "topicFilters" = JUndef ∧
  prop (filter_value f) "topics" =
    default JUndef ((λ l, JArr ((λ p, JArr (JStr <$> p)) <$> l)) <$> cf_topics f).
Proof. by destruct f as [[t|] [ids|] [ps|]]. Qed.

Lemma check_pattern_nil i j p :
  check_pattern i j (JArr (JStr <$> p)) = [] ↔ Forall (λ s, valid_segment s = true) p.
Proof.
  unfold check_pattern.
  rewrite (each_strings (λ k s, push_if (negb (valid_segment s)) (SegmentNotScval i j k))).
  setoid_rewrite push_if_nil. rewrite Forall_lookup. setoid_rewrite negb_false_iff. done.
Qed.

Lemma check_filter_nil i f : check_filter i (filter_value f) = [] ↔ filter_ok f.
Proof.
  destruct (filter_value_props f) as (Ht & Hc & Hp & Hs).
  unfold check_filter. cbn [is_object filter_value]. fold (filter_value f).
  rewrite Ht, Hc, Hp, Hs. rewrite !app_nil. unfold filter_ok.
  assert (check_type i (default JUndef (JStr <$> cf_type f)) = [] ↔
    match cf_type f with Some t => includes VALID_FILTER_TYPES t = true | None => True end) as ->.
  { destruct (cf_type f) as [t|]; cbn [fmap option_fmap option_map default check_type id]; [|done].
    rewrite push_if_nil, negb_false_iff. done. }
  assert (check_contractIds i (default JUndef ((λ l, JArr (JStr <$> l)) <$> cf_contractIds f)) = [] ↔
    match cf_contractIds f with Some ids => length ids ≤ 5 | None => True end) as ->.
  { destruct (cf_contractIds f) as [l|]; cbn [fmap option_fmap option_map default check_contractIds id]; [|done].
    rewrite app_nil, (each_strings (λ _ _, [])), push_if_nil, length_fmap, Nat.ltb_ge. naive_solver. }
  assert (check_topics i (default JUndef ((λ l, JArr ((λ p, JArr (JStr <$> p)) <$> l)) <$> cf_topics f)) = [] ↔
    match cf_topics f with Some ps => Forall (Forall (λ s, valid_segment s = true)) ps | None => True end) as ->.
  { destruct (cf_topics f) as [l|]; cbn [fmap option_fmap option_map default check_topics id]; [|done].
    rewrite each_nil, Forall_lookup. split.
    - intros H j p Hj. apply (check_pattern_nil i j). apply H. by rewrite list_lookup_fmap, Hj.
    - intros H j v Hv. rewrite list_lookup_fmap in Hv. apply fmap_Some in Hv as (p & Hj & ->).
      apply check_pattern_nil. by apply (H j). }
  cbn [check_topicFilters]. tauto.
Qed.

(** The validator accepts a list of typed filters exactly within the limits. *)
Lemma filters_accepted fs :
  validateContractFilters (JArr (filter_value <$> fs)) = None ↔
  length fs ≤ 5 ∧ Forall filter_ok fs.
Proof.
  unfold validateContractFilters.
  transitivity (push_if (5 <? length (filter_value <$> fs)) (TooManyFilters (length (filter_value <$> fs)))
    ++ each check_filter (filter_value <$> fs) = []).
  { destruct (_ ++ _); naive_solver. }
  rewrite app_nil, push_if_nil, each_nil, length_fmap, Nat.ltb_ge, Forall_lookup.
  apply and_iff_compat_l. split.
  - intros H i f Hf. apply (check_filter_nil i). apply H. by rewrite list_lookup_fmap, Hf.
  - intros H i v Hv. rewrite list_lookup_fmap in Hv. apply fmap_Some in Hv as (f & Hf & ->).
    apply check_filter_nil. by apply (H i).
Qed.
