(* ===== verification/Triggers.v ===== *)
(** * Event triggers (packages/worker-core/src/triggers/eventTrigger.ts)

    Planning: which windows a batch of events opens.  Claiming the windows is in
    Backstop.v, where the planner meets its backstop.  Ledger numbers are
    integers; a number that is none counts as a missing ledger. *)

From Stdlib Require Import Sorted.
From S2P Require Import Prelude.
From S2P Require Import JsValue.
From S2P Require Import Decimal.
From S2P Require Import EventTypes.
From S2P Require Import Claims.
From S2P Require Import TriggerPredicate.

(** ** Data *)

Record EventTriggerDefinition := {
  workerId : string;
  condition : EventConditionSpec;
  latencyBoundLedgers : jsnum;
  activationLedger : jsnum;
}.

Record FireDecision := {
  windowId : string;
  decisionWorkerId : string;
  conditionEventId : string;
  conditionLedger : Z;
  deadlineLedger : Z;
}.

Inductive SkipReason :=
  | skip_duplicate | skip_window_already_open | skip_before_activation
  | skip_missing_ledger | skip_missing_event_id.

Record SkippedEvent := {
  reason : SkipReason;
  skippedEventId : option string;
  skippedLedger : option Z;
}.

#[export] Instance FireDecision_eq_dec : EqDecision FireDecision.
Proof. solve_decision. Defined.

Inductive RegisterError :=
  | WorkerIdRequired
  | LatencyBoundNotPositive
  | ActivationLedgerInvalid
  | ConditionRejected (e : CompileError).

(** [!x || x.trim().length === 0] *)
Definition blank (s : string) : bool := String.eqb (trim_start s) "".

Section triggers.
Context {Semantic : Type}.
(** How a fractional number prints in a template literal. *)
Context (fraction_to_string : Z → nat → string).
Notation Event := (Event Semantic).

(** ** Identity and ledger of a source event *)

Definition event_identity_fields (e : Event) : option string * option string * option jsnum :=
  let classic i := (None, id_txHash i, id_ledger i) in
  match e with
  | PendingPayment p | Payment _ p => classic (pay_identity p)
  | AccountOptions e => classic (ao_identity e)
  | AccountCreated e => classic (ac_identity e)
  | Trustline e => classic (tl_identity e)
  | AccountMerge e => classic (am_identity e)
  | Offer e => classic (of_identity e)
  | BumpSequence e => classic (bs_identity e)
  | Data e => classic (da_identity e)
  | ClaimableCreated e => classic (cc_identity e)
  | ClaimableClaimed e => classic (cd_identity e)
  | LiquidityPoolDeposit e => classic (ld_identity e)
  | LiquidityPoolWithdraw e => classic (lw_identity e)
  | TrustAuth e => classic (ta_identity e)
  | AssetClawback _ | FeeIncurred _ => (None, None, None)
  | ContractInvoked e => (None, ci_txHash e, ci_ledger e)
  | ContractEmitted e => (ce_eventId e, ce_txHash e, ce_ledger e)
  end.

(** A number in a template literal. *)
Definition jsnum_to_string (n : jsnum) : string :=
  match n with
  | JNaN => "NaN"
  | JInf neg => if neg then "-Infinity" else "Infinity"
  | JFin m k =>
      match as_integer n with
      | Some z => number_to_string z
      | None => fraction_to_string m k
      end
  end.

Definition eventIdentity (e : Event) : option string :=
  let '(eventId, txHash, ledger) := event_identity_fields e in
  match eventId, txHash, ledger with
  | Some (String _ _ as id), _, _ => Some id
  | _, Some (String _ _ as h), Some n => Some (h +:+ ":" +:+ jsnum_to_string n)
  | _, _, _ => None
  end.

Definition ledgerOf (e : Event) : option Z :=
  n ← (event_identity_fields e).2;
  if js_isFinite n then as_integer n else None.

(** ** The planner *)

Record EventTriggerPlanner := {
  planner_workerId : string;
  predicate : Event → bool;
  latencyBound : Z;
  activation : Z;
}.

Definition registerEventTrigger (d : EventTriggerDefinition)
    : result (list RegisterError) EventTriggerPlanner :=
  let compiled := compileEventCondition (condition d) in
  match
    push_if (blank (workerId d)) WorkerIdRequired ++
    push_if (match as_integer (latencyBoundLedgers d) with Some n => n <=? 0 | None => true end)%Z
      LatencyBoundNotPositive ++
    push_if (match as_integer (activationLedger d) with Some n => n <? 0 | None => true end)%Z
      ActivationLedgerInvalid ++
    match compiled with Ok _ => [] | Err errors => ConditionRejected <$> errors end,
    compiled, as_integer (latencyBoundLedgers d), as_integer (activationLedger d)
  with
  | [], Ok p, Some bound, Some from =>
      Ok {| planner_workerId := workerId d; predicate := p; latencyBound := bound;
            activation := from |}
  | errors, _, _, _ => Err errors
  end.

(** The loop's variables. *)
Record Plan := {
  decisions : list FireDecision;
  skipped : list SkippedEvent;
  seen : gset string;
  openUntilLedger : option Z;
}.

Definition skip (r : SkipReason) (id : option string) (ledger : option Z) (s : Plan) : Plan :=
  {| decisions := decisions s;
     skipped := skipped s ++ [{| reason := r; skippedEventId := id; skippedLedger := ledger |}];
     seen := seen s; openUntilLedger := openUntilLedger s |}.

Definition mark_seen (id : string) (s : Plan) : Plan :=
  {| decisions := decisions s; skipped := skipped s; seen := {[id]} ∪ seen s;
     openUntilLedger := openUntilLedger s |}.

Section planner.
Context (p : EventTriggerPlanner).

Definition decide_window (identity : string) (ledger : Z) : FireDecision :=
  {| windowId := planner_workerId p +:+ ":" +:+ identity;
     decisionWorkerId := planner_workerId p;
     conditionEventId := identity;
     conditionLedger := ledger;
     deadlineLedger := ledger + latencyBound p |}.

Definition open_window (d : FireDecision) (s : Plan) : Plan :=
  {| decisions := decisions s ++ [d]; skipped := skipped s; seen := seen s;
     openUntilLedger := Some (deadlineLedger d) |}.

(** One pass of the loop. *)
Definition plan_event (s : Plan) (e : Event) : Plan :=
  if negb (predicate p e) then s
  else match ledgerOf e, eventIdentity e with
  | None, id => skip skip_missing_ledger id None s
  | Some ledger, None => skip skip_missing_event_id None (Some ledger) s
  | Some ledger, Some identity =>
      if (ledger <? activation p)%Z then skip skip_before_activation (Some identity) (Some ledger) s
      else if bool_decide (identity ∈ seen s) then
        skip skip_duplicate (Some identity) (Some ledger) s
      else
        let s := mark_seen identity s in
        if match openUntilLedger s with Some u => ledger <=? u | None => false end%Z then
          skip skip_window_already_open (Some identity) (Some ledger) s
        else open_window (decide_window identity ledger) s
  end.

Definition empty_plan : Plan :=
  {| decisions := []; skipped := []; seen := ∅; openUntilLedger := None |}.

(** [ledgerOf(event) ?? 0], the key of the sort. *)
Definition sort_key (e : Event) : Z := default 0%Z (ledgerOf e).

Definition plan (events : list Event) : Plan :=
  foldl plan_event empty_plan (sort_by sort_key events).
End planner.

(** ** What a plan is *)

(** An event that is owed a window: it meets the condition, is in effect and can
    be told apart. *)
Definition due (p : EventTriggerPlanner) (e : Event) (l : Z) (id : string) : Prop :=
  predicate p e = true ∧ ledgerOf e = Some l ∧ eventIdentity e = Some id ∧ (activation p ≤ l)%Z.

(** [l] lies in the window. *)
Definition covers (w : FireDecision) (l : Z) : Prop := (conditionLedger w ≤ l ≤ deadlineLedger w)%Z.

(** The first window closes before the second opens. *)
Definition before (w w' : FireDecision) : Prop := (deadlineLedger w < conditionLedger w')%Z.

(** What one pass changes, besides the skipped events. *)
Definition passed (p : EventTriggerPlanner) (e : Event) (s s' : Plan) : Prop :=
  let same_windows := decisions s' = decisions s ∧ openUntilLedger s' = openUntilLedger s in
  (∀ l id, ¬ due p e l id) ∧ seen s' = seen s ∧ same_windows ∨
  ∃ l id, due p e l id ∧
    (id ∈ seen s ∧ seen s' = seen s ∧ same_windows ∨
     id ∉ seen s ∧ seen s' = {[id]} ∪ seen s ∧
     ((∃ u, openUntilLedger s = Some u ∧ l ≤ u)%Z ∧ same_windows ∨
      (∀ u, openUntilLedger s = Some u → u < l)%Z ∧
      decisions s' = decisions s ++ [decide_window p id l] ∧
      openUntilLedger s' = Some (l + latencyBound p)%Z)).

Lemma plan_event_passed p e s : passed p e s (plan_event p s e).
Proof.
  unfold passed, plan_event. destruct (predicate p e) eqn:Hp; cbn [negb].
  2:{ left. split; [|done]. intros l id (H & _). congruence. }
  destruct (ledgerOf e) as [l|] eqn:Hl.
  2:{ left. split; [|done]. intros l id (_ & H & _). congruence. }
  destruct (eventIdentity e) as [id|] eqn:Hid.
  2:{ left. split; [|done]. intros l' id (_ & _ & H & _). congruence. }
  destruct (Z.ltb_spec l (activation p)) as [Ha|Ha].
  { left. split; [|done]. intros l' id' (_ & H & _ & ?). simplify_eq. lia. }
  right. exists l, id. split; [done|].
  case_bool_decide as Hs; [by left|right]. split; [done|].
  cbn [openUntilLedger mark_seen]. destruct (openUntilLedger s) as [u|] eqn:Hu.
  - destruct (Z.leb_spec l u) as [Hle|Hgt]; cbn.
    + split; [done|]. left. naive_solver.
    + split; [done|]. right. split_and!; [|done..]. intros u' [= <-]. lia.
  - cbn. split; [done|]. right. split_and!; [|done..]. intros u' [=].
Qed.

Lemma plan_event_counts p e s :
  length (decisions (plan_event p s e)) + length (skipped (plan_event p s e)) =
  length (decisions s) + length (skipped s) + (if predicate p e then 1 else 0).
Proof.
  unfold plan_event. destruct (predicate p e); cbn [negb]; [|lia].
  destruct (ledgerOf e), (eventIdentity e);
    repeat case_match; cbn; rewrite ?length_app; cbn; lia.
Qed.

(** Of the events handled so far, [es], the plan [s] is a plan. *)
Definition plan_of (p : EventTriggerPlanner) (es : list Event) (s : Plan) : Prop :=
  (∀ w, w ∈ decisions s → ∃ e, e ∈ es ∧ due p e (conditionLedger w) (conditionEventId w) ∧
     w = decide_window p (conditionEventId w) (conditionLedger w)) ∧
  StronglySorted before (decisions s) ∧
  NoDup (conditionEventId <$> decisions s) ∧
  (∀ e l id, e ∈ es → due p e l id →
     ∃ e' l' w, e' ∈ es ∧ due p e' l' id ∧ (l' ≤ l)%Z ∧ w ∈ decisions s ∧ covers w l') ∧
  length (decisions s) + length (skipped s) = length (base.filter (λ e, predicate p e = true) es).

(** With what the loop remembers. *)
Definition plan_inv (p : EventTriggerPlanner) (es : list Event) (s : Plan) : Prop :=
  plan_of p es s ∧
  openUntilLedger s = deadlineLedger <$> last (decisions s) ∧
  (∀ id, id ∈ seen s ↔ ∃ e l, e ∈ es ∧ due p e l id).

Lemma before_last p ws w u :
  (0 ≤ latencyBound p)%Z →
  (∀ w, w ∈ ws → w = decide_window p (conditionEventId w) (conditionLedger w)) →
  StronglySorted before ws → last ws = Some u → w ∈ ws → (deadlineLedger w ≤ deadlineLedger u)%Z.
Proof.
  intros Hb Hw Hs. induction Hs as [|x ws Hs IH Hf]; intros Hlast Hin; [done|].
  assert (conditionLedger u ≤ deadlineLedger u)%Z as Hu.
  { rewrite (Hw u) by (by apply last_Some_elem_of). cbn. lia. }
  destruct ws as [|y ws'].
  - cbn in Hlast. simplify_eq. apply list_elem_of_singleton in Hin. by subst.
  - apply elem_of_cons in Hin as [->|Hin].
    + rewrite Forall_forall in Hf. assert (u ∈ y :: ws') as Hu' by (by apply last_Some_elem_of).
      specialize (Hf u Hu'). unfold before in Hf. lia.
    + apply IH; [|done..]. intros z Hz. apply Hw. by right.
Qed.

Lemma due_unique p e l id l' id' : due p e l id → due p e l' id' → l' = l ∧ id' = id.
Proof. intros (_ & ? & ? & _) (_ & ? & ? & _). naive_solver congruence. Qed.

Section pass.
Context (p : EventTriggerPlanner) (es : list Event) (e : Event) (s s' : Plan).
Hypothesis Hinv : plan_inv p es s.
Hypothesis Hcount : length (decisions s') + length (skipped s') =
  length (base.filter (λ e, predicate p e = true) (es ++ [e])).
Hypothesis Hseen : ∀ id, id ∈ seen s' ↔ ∃ e' l, e' ∈ es ++ [e] ∧ due p e' l id.

Lemma from_more w :
  w ∈ decisions s → ∃ e', e' ∈ es ++ [e] ∧ due p e' (conditionLedger w) (conditionEventId w) ∧
    w = decide_window p (conditionEventId w) (conditionLedger w).
Proof using Hinv.
  destruct Hinv as ((Hfrom & _) & _). intros Hw.
  destruct (Hfrom w Hw) as (e' & He' & Hd). exists e'.
  split; [apply elem_of_app; by left|done].
Qed.

(** The pass opens no window, and [e] is covered when it is due. *)
Lemma pass_keeps :
  decisions s' = decisions s → openUntilLedger s' = openUntilLedger s →
  (∀ l id, due p e l id → ∃ e' l' w, e' ∈ es ++ [e] ∧ due p e' l' id ∧ (l' ≤ l)%Z ∧
     w ∈ decisions s ∧ covers w l') →
  plan_inv p (es ++ [e]) s'.
Proof.
  intros Hd Ho He. destruct Hinv as ((_ & Hsort & Hnd & Hcov & _) & Hopen & _).
  split; [|by rewrite Ho, Hd]. unfold plan_of. rewrite Hd in Hcount |- *.
  split_and!; [apply from_more|done..| |done].
  intros e1 l id [He1|He1]%elem_of_app Hdue.
  - destruct (Hcov e1 l id He1 Hdue) as (e' & l' & w & ? & ?). exists e', l', w. set_solver.
  - apply list_elem_of_singleton in He1 as ->. by apply He.
Qed.

(** The pass opens a window for [e]. *)
Lemma pass_opens l id :
  (0 ≤ latencyBound p)%Z → due p e l id → id ∉ seen s →
  (∀ w, w ∈ decisions s → (deadlineLedger w < l)%Z) →
  decisions s' = decisions s ++ [decide_window p id l] →
  openUntilLedger s' = Some (l + latencyBound p)%Z →
  plan_inv p (es ++ [e]) s'.
Proof.
  intros Hb Hdue Hid Hbefore Hd Ho.
  destruct Hinv as ((Hfrom & Hsort & Hnd & Hcov & _) & _ & Hseen0).
  split; [|by rewrite Ho, Hd, last_snoc]. unfold plan_of. rewrite Hd in Hcount |- *.
  split_and!; [| | | |done].
  - intros w [Hw|Hw]%elem_of_app; [by apply from_more|].
    apply list_elem_of_singleton in Hw as ->. exists e. set_solver.
  - apply StronglySorted_snoc; [done|]. apply Forall_forall. apply Hbefore.
  - rewrite fmap_app. apply NoDup_snoc. split; [done|]. cbn.
    intros (w & -> & Hw)%list_elem_of_fmap. apply Hid, Hseen0.
    destruct (Hfrom w Hw) as (e' & ? & ? & _). by exists e', (conditionLedger w).
  - intros e1 l1 id1 [He1|He1]%elem_of_app Hdue1.
    + destruct (Hcov e1 l1 id1 He1 Hdue1) as (e' & l' & w & ? & ?). exists e', l', w. set_solver.
    + apply list_elem_of_singleton in He1 as ->.
      destruct (due_unique _ _ _ _ _ _ Hdue Hdue1) as [-> ->].
      exists e, l, (decide_window p id l). split_and!; [set_solver|done|lia|set_solver|].
      unfold covers. cbn. lia.
Qed.
End pass.

Lemma plan_step p es e s :
  (0 ≤ latencyBound p)%Z → Forall (λ e', key_le sort_key e' e) es →
  plan_inv p es s → plan_inv p (es ++ [e]) (plan_event p s e).
Proof.
  intros Hb Hkeys Hinv.
  assert (length (decisions (plan_event p s e)) + length (skipped (plan_event p s e)) =
    length (base.filter (λ e, predicate p e = true) (es ++ [e]))) as Hcount.
  { destruct Hinv as ((_ & _ & _ & _ & Hcount) & _).
    rewrite plan_event_counts, Hcount, filter_app, length_app, filter_cons, filter_nil.
    destruct (predicate p e); case_decide; cbn; try done; lia. }
  pose proof (plan_event_passed p e s) as Hpass. revert Hpass Hcount.
  generalize (plan_event p s e). intros s' Hpass Hcount.
  destruct Hinv as (Hplan & Hopen & Hseen). pose proof Hplan as (Hfrom & Hsort & _ & Hcov & _).
  assert (∀ id', (∃ e' l', e' ∈ es ++ [e] ∧ due p e' l' id') ↔
    id' ∈ seen s ∨ ∃ l', due p e l' id') as Hsplit.
  { intros id'. rewrite Hseen. split.
    - intros (e' & l' & [He'|He']%elem_of_app & Hd); [left; eauto|].
      apply list_elem_of_singleton in He' as ->. right. eauto.
    - intros [(e' & l' & ? & ?)|(l' & ?)]; [exists e', l'|exists e, l']; set_solver. }
  destruct Hpass as [(Hno & Hs' & Hd & Ho)|(l & id & Hdue & Hcase)].
  - eapply pass_keeps; try done.
    + intros id'. rewrite Hsplit, Hs'. naive_solver.
    + intros l id Hdue. by destruct (Hno l id).
  - assert (∀ id', (∃ l', due p e l' id') ↔ id' = id) as Hone.
    { intros id'. split; [|intros ->; eauto]. intros (l' & Hd'). by apply (due_unique p e l id l'). }
    destruct Hcase as [(Hid & Hs' & Hd & Ho)|(Hid & Hs' & Hcase)].
    + eapply pass_keeps; try done.
      * intros id'. rewrite Hsplit, Hone, Hs'. naive_solver.
      * intros l1 id1 Hd1. destruct (due_unique _ _ _ _ _ _ Hdue Hd1) as [-> ->].
        apply Hseen in Hid as (e' & l' & He' & Hd').
        destruct (Hcov e' l' id He' Hd') as (e2 & l2 & w & ? & Hd2 & ? & ? & ?).
        exists e2, l2, w. split_and!; [set_solver|done| |done..].
        rewrite Forall_forall in Hkeys. specialize (Hkeys e' He'). unfold key_le, sort_key in Hkeys.
        destruct Hdue as (_ & Hl & _), Hd' as (_ & Hl' & _). rewrite Hl, Hl' in Hkeys. cbn in Hkeys. lia.
    + assert (∀ id', id' ∈ seen s' ↔ ∃ e' l, e' ∈ es ++ [e] ∧ due p e' l id') as Hseen'.
      { intros id'. rewrite Hsplit, Hone, Hs'. set_solver. }
      destruct Hcase as [((u & Hu & Hlu) & Hd & Ho)|(Hnone & Hd & Ho)].
      * eapply pass_keeps; try done. intros l1 id1 Hd1.
        destruct (due_unique _ _ _ _ _ _ Hdue Hd1) as [-> ->].
        rewrite Hopen in Hu. apply fmap_Some in Hu as (w & Hw & ->). apply last_Some_elem_of in Hw.
        exists e, l, w. split_and!; [set_solver|done|lia|done|]. split; [|done].
        destruct (Hfrom w Hw) as (e' & He' & (_ & Hl' & _) & _). destruct Hdue as (_ & Hl & _).
        rewrite Forall_forall in Hkeys. specialize (Hkeys e' He'). unfold key_le, sort_key in Hkeys.
        rewrite Hl, Hl' in Hkeys. done.
      * eapply pass_opens; try done. intros w Hw.
        destruct (last (decisions s)) as [u|] eqn:Hlast.
        -- specialize (Hnone (deadlineLedger u)). rewrite Hopen in Hnone. specialize (Hnone eq_refl).
           assert (deadlineLedger w ≤ deadlineLedger u)%Z; [|lia].
           eapply before_last; try done. intros z Hz. by destruct (Hfrom z Hz) as (_ & _ & _ & ?).
        -- apply last_None in Hlast. rewrite Hlast in Hw. by apply not_elem_of_nil in Hw.
Qed.

Lemma sorted_prefix {A} (R : A → A → Prop) l x l' :
  StronglySorted R (l ++ x :: l') → Forall (λ y, R y x) l.
Proof.
  induction l as [|y l IH]; cbn; [done|]. intros [Hs Hf]%StronglySorted_inv.
  constructor; [|by apply IH]. rewrite Forall_forall in Hf. apply Hf. set_solver.
Qed.

Lemma plan_loop p es rest s :
  (0 ≤ latencyBound p)%Z → StronglySorted (key_le sort_key) (es ++ rest) →
  plan_inv p es s → plan_inv p (es ++ rest) (foldl (plan_event p) s rest).
Proof.
  intros Hb. revert es s. induction rest as [|e rest IH]; intros es s Hs Hinv; cbn.
  - by rewrite app_nil_r.
  - change (e :: rest) with ([e] ++ rest). rewrite app_assoc. apply IH.
    + by rewrite <-app_assoc.
    + apply plan_step; [done| |done]. by eapply sorted_prefix.
Qed.

Lemma plan_of_perm p es es' s : es ≡ₚ es' → plan_of p es s → plan_of p es' s.
Proof.
  intros Hperm (Hfrom & Hsort & Hnd & Hcov & Hcount).
  assert (∀ e, e ∈ es ↔ e ∈ es') as Hin by (intros e; by rewrite Hperm).
  split_and!; [|done..| |].
  - intros w Hw. destruct (Hfrom w Hw) as (e & He & ?). exists e. by rewrite <-Hin.
  - intros e l id He Hd. apply Hin in He.
    destruct (Hcov e l id He Hd) as (e' & l' & w & He' & ?). exists e', l', w. by rewrite <-Hin.
  - rewrite Hcount. by rewrite Hperm.
Qed.

Lemma plan_is_plan p es : (0 ≤ latencyBound p)%Z → plan_of p es (plan p es).
Proof.
  intros Hb. apply (plan_of_perm _ (sort_by sort_key es)); [apply sort_by_perm|].
  unfold plan.
  apply (plan_loop p [] (sort_by sort_key es) empty_plan Hb (sort_by_sorted sort_key es)).
  split; [split_and!|split]; cbn; try done.
  - intros w Hw. by apply not_elem_of_nil in Hw.
  - constructor.
  - constructor.
  - intros e l id He. by apply not_elem_of_nil in He.
  - intros id. split; [set_solver|]. intros (e & l & He & _). by apply not_elem_of_nil in He.
Qed.

Lemma register_spec d p :
  registerEventTrigger d = Ok p →
  ∃ bound from, compileEventCondition (condition d) = Ok (predicate p) ∧
    as_integer (latencyBoundLedgers d) = Some bound ∧ (0 < bound)%Z ∧
    as_integer (activationLedger d) = Some from ∧ (0 ≤ from)%Z ∧
    blank (workerId d) = false ∧
    p = {| planner_workerId := workerId d; predicate := predicate p; latencyBound := bound;
           activation := from |}.
Proof.
  unfold registerEventTrigger.
  destruct (compileEventCondition (condition d)) as [q|errs] eqn:Hc;
    destruct (as_integer (latencyBoundLedgers d)) as [bound|] eqn:Hb;
    destruct (as_integer (activationLedger d)) as [from|] eqn:Ha;
    destruct (_ ++ _) eqn:Herr; try done.
  intros [= <-]. apply app_eq_nil in Herr as [H1 Herr]. apply app_eq_nil in Herr as [H2 Herr].
  apply app_eq_nil in Herr as [H3 _]. rewrite push_if_nil in *. bool_to_prop.
  exists bound, from. done.
Qed.

Lemma window_ids_distinct p ws :
  (∀ w, w ∈ ws → w = decide_window p (conditionEventId w) (conditionLedger w)) →
  NoDup (conditionEventId <$> ws) → NoDup (windowId <$> ws).
Proof.
  intros Hw Hnd.
  assert (windowId <$> ws = (λ id, planner_workerId p +:+ ":" +:+ id) <$> (conditionEventId <$> ws)) as ->.
  { rewrite <-list_fmap_compose. apply list_fmap_ext. intros i w Hi.
    apply list_elem_of_lookup_2 in Hi. rewrite (Hw w Hi) at 1. done. }
  apply NoDup_fmap_2; [|done]. intros x y Heq.
  by apply (inj (String.append _)), (inj (String.append _)) in Heq.
Qed.

(** C10: A registered trigger plans, for any batch of events, windows that are
    disjoint in ledger order and have distinct ids; each was opened by an event
    of the batch that is owed one, of a type the condition names that is no
    market data, and closes the declared bound later; the first sighting of
    every event that is owed a window lies in one of them; and every matching
    event is either a window or in the list of the skipped. *)
Theorem planned_windows d p es :
  registerEventTrigger d = Ok p →
  let s := plan p es in
  (∀ w, w ∈ decisions s → ∃ e, e ∈ es ∧ due p e (conditionLedger w) (conditionEventId w) ∧
     type_of e ∈ eventTypes (condition d) ∧
     includes TRADE_SIGNAL_EVENT_TYPES (type_of e) = false ∧
     deadlineLedger w = (conditionLedger w + latencyBound p)%Z) ∧
  StronglySorted before (decisions s) ∧
  NoDup (windowId <$> decisions s) ∧
  (∀ e l id, e ∈ es → due p e l id →
     ∃ e' l' w, e' ∈ es ∧ due p e' l' id ∧ (l' ≤ l)%Z ∧ w ∈ decisions s ∧ covers w l') ∧
  length (decisions s) + length (skipped s) = length (base.filter (λ e, predicate p e = true) es).
Proof.
  intros (bound & from & Hc & _ & Hb & _ & _ & _ & Hp)%register_spec s.
  assert (0 ≤ latencyBound p)%Z as Hb' by (rewrite Hp; cbn; lia).
  destruct (plan_is_plan p es Hb') as (Hfrom & Hsort & Hnd & Hcov & Hcount).
  split_and!; [|done| |done..].
  - intros w Hw. destruct (Hfrom w Hw) as (e & He & Hdue & Heq).
    destruct (compiled_types _ _ e Hc (proj1 Hdue)) as (Htype & _ & Htrade).
    exists e. split_and!; [done..|]. by rewrite Heq at 1.
  - apply (window_ids_distinct p); [|done]. intros w Hw. by destruct (Hfrom w Hw) as (? & _ & _ & ?).
Qed.

(** The plan does not depend on the order in which ledgers were delivered:
    two batches with the same events of each ledger, in the same order within
    the ledger, have the same plan. *)
Theorem plan_ledger_order p es es' :
  (∀ n, base.filter (λ e, sort_key e = n) es = base.filter (λ e, sort_key e = n) es') →
  plan p es = plan p es'.
Proof. intros H. unfold plan. f_equal. by apply sort_by_ext. Qed.
End triggers.

(** ** Examples *)

Definition sample_event (id : string) (ledger : Z) : Event unit :=
  ContractEmitted
    {| ce_contractId := "C1"; ce_topics := []; ce_data := JNull; ce_decodedData := JUndef;
       ce_semantic := None; ce_ledger := Some (jint ledger); ce_eventId := Some id;
       ce_txHash := None; ce_inSuccessfulContractCall := true; ce_timestamp := ""; ce_raw := JNull |}.

Definition sample_condition : EventConditionSpec :=
  {| eventTypes := ["contract.emitted"]; contract := None; addresses := Some ["C1"];
     requireSuccessfulContractCall := None |}.

Definition sample_trigger : EventTriggerDefinition :=
  {| workerId := "w"; condition := sample_condition; latencyBoundLedgers := jint 10;
     activationLedger := jint 100 |}.

Definition sample_planner : EventTriggerPlanner (Semantic := unit) :=
  {| planner_workerId := "w"; predicate := condition_matches sample_condition; latencyBound := 10;
     activation := 100 |}.

Definition no_fraction (m : Z) (k : nat) : string := "".

Definition sample_batch : list (Event unit) :=
  [sample_event "d" 150; sample_event "a" 120; sample_event "z" 90; sample_event "b" 125;
   sample_event "a" 120].

Example sample_plan :
  (λ w, (windowId w, deadlineLedger w)) <$> decisions (plan no_fraction sample_planner sample_batch)
  = [("w:a", 130%Z); ("w:d", 160%Z)].
Proof. reflexivity. Qed.

Lemma planned_windows_witness :
  registerEventTrigger sample_trigger = Ok sample_planner ∧
  NoDup (windowId <$> decisions (plan no_fraction sample_planner sample_batch)) ∧
  length (decisions (plan no_fraction sample_planner sample_batch)) +
  length (skipped (plan no_fraction sample_planner sample_batch)) = 5.
Proof.
  split; [reflexivity|].
  pose proof (planned_windows no_fraction sample_trigger sample_planner sample_batch eq_refl)
    as (_ & _ & H1 & _ & H2).
  split; [exact H1|]. rewrite H2. reflexivity.
Defined.

Lemma plan_ledger_order_witness :
  plan no_fraction sample_planner [sample_event "d" 150; sample_event "a" 120] =
  plan no_fraction sample_planner [sample_event "a" 120; sample_event "d" 150].
Proof.
  apply plan_ledger_order. intros n.
  rewrite !filter_cons, !filter_nil. repeat case_decide; try reflexivity.
  exfalso. repeat match goal with H : sort_key _ = _ |- _ => vm_compute in H end. lia.
Defined.

(** The order of two events of one ledger decides which of them names the
    window. *)
Lemma same_ledger_order_decides :
  let es := [sample_event "a" 120; sample_event "b" 120] in
  windowId <$> decisions (plan no_fraction sample_planner es) = ["w:a"] ∧
  windowId <$> decisions (plan no_fraction sample_planner (reverse es)) = ["w:b"].
Proof. split; reflexivity. Qed.

(** Planned one ledger range after the other, a condition that recurs inside an
    open window opens a second one. *)
Lemma ranges_forget_open_windows :
  let windows es := windowId <$> decisions (plan no_fraction sample_planner es) in
  windows [sample_event "a" 120; sample_event "b" 125] = ["w:a"] ∧
  windows [sample_event "a" 120] ++ windows [sample_event "b" 125] = ["w:a"; "w:b"].
Proof. split; reflexivity. Qed.
