(* ===== verification/Backstop.v ===== *)
(** * The backstop watcher
    (packages/worker-core/src/backstop/BackstopWatcher.ts, intervention.ts,
    windowVerdict.ts, and the claiming half of triggers/eventTrigger.ts)

    One watcher, any number of its evaluate calls under way, and any number of
    other claimants: the primaries' planners and other watchers.  Each stretch
    between two awaits is a step; the theorems hold for every sequence of
    steps. *)

From Stdlib Require Import Sorted.
From S2P Require Import Prelude.
From S2P Require Import Claims.
From S2P Require Import TriggerPredicate.
From S2P Require Import Triggers.

(** ** Verdicts (windowVerdict.ts) *)

Inductive WindowOutcome := not_due | fired | late | missed | unverifiable | pending.

#[export] Instance WindowOutcome_eq_dec : EqDecision WindowOutcome.
Proof. solve_decision. Defined.

Inductive WindowOutcomeReason :=
  | rejected_early_call | precondition_satisfied | before_activation
  | condition_recurred_in_window | missing_ledger | decode_unavailable
  | spec_not_ledger_versioned | no_attestation | attestation_invalid.

Record WindowVerdict := {
  v_windowId : string;
  v_workerId : string;
  verdict : WindowOutcome;
  v_conditionLedger : Z;
  v_deadlineLedger : Z;
  firedLedger : option Z;
  latencyLedgers : option Z;
  v_reason : option WindowOutcomeReason;
}.

Definition isFailure (v : WindowOutcome) : bool := bool_decide (v = missed).

Definition isExcludedFromScoring (v : WindowOutcome) : bool :=
  bool_decide (v = unverifiable) || bool_decide (v = pending).

(** ** Claiming a window (eventTrigger.ts)

    The interface, with the time and the claimant as arguments: a claimant is
    an adapter object of its own.  [lease] is how long a claim of a claimant is
    honoured, [None] being for ever. *)

Record FireClaimStore (S : Type) := {
  fire_claim : Z → nat → string → S → bool * S;
  isClaimed : Z → string → S → bool;
  lease : nat → option Z;
}.
Arguments fire_claim {S} f now who key s : rename.
Arguments isClaimed {S} f now key s : rename.
Arguments lease {S} f who : rename.

(** The claim made at [at_] by [who] is over at [now]. *)
Definition lapsed {S} (F : FireClaimStore S) (who : nat) (at_ now : Z) : Prop :=
  ∃ l, lease F who = Some l ∧ (at_ + l ≤ now)%Z.

(** What the claimants rely on. *)
Class LawfulFireClaims {S} (F : FireClaimStore S) := {
  win_free now who k s : (fire_claim F now who k s).1 = true → isClaimed F now k s = false;
  win_holds now who k s now' : (fire_claim F now who k s).1 = true → (now ≤ now')%Z →
    lapsed F who now now' ∨ isClaimed F now' k (fire_claim F now who k s).2 = true;
  win_frame now who k s now' k' : (fire_claim F now who k s).1 = true → k' ≠ k →
    isClaimed F now' k' (fire_claim F now who k s).2 = isClaimed F now' k' s;
  lost_same now who k s :
    (fire_claim F now who k s).1 = false → (fire_claim F now who k s).2 = s;
}.

Definition InMemoryFireClaimStore : FireClaimStore (gset string) :=
  {| fire_claim _ _ k claimed := if bool_decide (k ∈ claimed) then (false, claimed)
                                 else (true, {[k]} ∪ claimed);
     isClaimed _ k claimed := bool_decide (k ∈ claimed);
     lease _ := None |}.

#[export] Instance InMemoryFireClaimStore_lawful : LawfulFireClaims InMemoryFireClaimStore.
Proof.
  split; cbn; intros; case_bool_decide; try done.
  - right. apply bool_decide_eq_true. set_solver.
  - apply bool_decide_ext. set_solver.
Qed.

Inductive AdapterError := ClaimTtlNotPositive | OwnerIdRequired.

(** The constructor's checks. *)
Definition new_ClaimStoreFireClaims (ownerId : string) (claimTtlMs : jsnum)
    : result AdapterError unit :=
  reject_if (negb (js_isFinite claimTtlMs) || negb (js_gtZ claimTtlMs 0)) ClaimTtlNotPositive ≫= λ _,
  reject_if (String.eqb ownerId "") OwnerIdRequired.

(** The adapters of several owners over one claim store. *)
Definition ClaimStoreFireClaims {S} `{ClaimStore S} (ownerId : nat → string) (claimTtlMs : Z)
    : FireClaimStore S :=
  {| fire_claim now who k s := claim now k (ownerId who) claimTtlMs s;
     isClaimed now k s := bool_decide (is_Some (get now k s));
     lease _ := Some claimTtlMs |}.

#[export] Instance ClaimStoreFireClaims_lawful {S} `{LawfulClaimStore S} ownerId claimTtlMs :
  LawfulFireClaims (ClaimStoreFireClaims (S := S) ownerId claimTtlMs).
Proof.
  split; cbn [fire_claim isClaimed lease ClaimStoreFireClaims].
  - intros now who k s Hw. apply claim_wins in Hw. by rewrite Hw.
  - intros now who k s now' Hw Hle. rewrite get_claim, decide_True by done.
    destruct (Z.leb_spec (now + claimTtlMs) now'); [left; by exists claimTtlMs|by right].
  - intros now who k s now' k' Hw Hk. by rewrite get_claim, decide_False by done.
  - intros now who k s. apply claim_lost.
Qed.

(** ** Registration *)

Inductive LatencyTier := time_insensitive | latency_sensitive.

Record WatchedSubscription := {
  subscriptionId : string;
  watchedWorkerId : string;
  tier : LatencyTier;
  graceLedgers : jsnum;
}.

Inductive BackstopError :=
  | SubscriptionIdRequired | BackstopWorkerIdRequired | LATENCY_SENSITIVE_REJECTION
  | GraceLedgersInvalid.

Definition registerBackstop (sub : WatchedSubscription)
    : result (list BackstopError) WatchedSubscription :=
  match
    push_if (blank (subscriptionId sub)) SubscriptionIdRequired ++
    push_if (blank (watchedWorkerId sub)) BackstopWorkerIdRequired ++
    match tier sub with latency_sensitive => [LATENCY_SENSITIVE_REJECTION] | time_insensitive => [] end ++
    push_if (match as_integer (graceLedgers sub) with Some g => g <? 0 | None => true end)%Z
      GraceLedgersInvalid
  with
  | [] => Ok sub
  | errors => Err errors
  end.

(** ** The watcher *)

Record Intervention := {
  iv_windowId : string;
  iv_workerId : string;
  iv_subscriptionId : string;
  iv_verdict : WindowVerdict;
  decidedAtLedger : Z;
  primaryDeadlineLedger : Z;
  iv_graceLedgers : Z;
}.

Inductive BackstopOutcome :=
  | Waiting (windowId : string) (firesAtLedger : Z)
  | NoIntervention (windowId : string) (v : WindowVerdict)
  | PrimaryWon (windowId : string)
  | Intervened (windowId : string) (iv : Intervention)
  | SubmissionFailed (windowId : string).

Record BackstopStats := {
  windowsWatched : nat;
  windowsWaiting : nat;
  windowsNoIntervention : nat;
  windowsPrimaryWon : nat;
  interventions : nat;
  submissionFailures : nat;
}.

Definition no_stats : BackstopStats :=
  {| windowsWatched := 0; windowsWaiting := 0; windowsNoIntervention := 0; windowsPrimaryWon := 0;
     interventions := 0; submissionFailures := 0 |}.

(** Where an evaluate call of the watcher is. *)
Inductive Await :=
  | BetweenWindows
  | AwaitVerdict (d : FireDecision)
  | AwaitClaim (d : FireDecision) (v : WindowVerdict)
  | AwaitSubmit (d : FireDecision) (iv : Intervention)
  | AwaitRecord (d : FireDecision) (iv : Intervention) (submitted : bool)
  | AwaitNotify (d : FireDecision) (iv : Intervention)
  | Resolved
  | Rejected (uncounted : bool).   (** a dependency threw; is the window in no counter? *)

(** One [evaluateAll], with the windows it has left; [evaluate] is the one of a
    single window. *)
Record Call := {
  rest : list FireDecision;
  currentLedger : Z;
  outcomes : list BackstopOutcome;
  await : Await;
}.

(** A planner in [claimDecisions]: what it has left to claim and what it won. *)
Record Claimant := { unclaimed : list FireDecision; won : list FireDecision }.

(** A claim that succeeded; claimant 0 is the watcher. *)
Record Win := { win_who : nat; win_window : string; win_at : Z }.

Section watcher.
Context {S : Type} (F : FireClaimStore S) (subscription : WatchedSubscription) (grace : Z).

Record System := {
  clock : Z;
  store : S;
  stats : BackstopStats;
  calls : list Call;
  claimants : list Claimant;          (** claimant number j + 1 at place j *)
  submissions : list FireDecision;    (** the calls of [submitter.submit] *)
  recorded : list Intervention;       (** the calls of [recorder.record] *)
  wins : list Win;
}.

Definition with_stats (f : BackstopStats → BackstopStats) (s : System) : System :=
  {| clock := clock s; store := store s; stats := f (stats s); calls := calls s;
     claimants := claimants s; submissions := submissions s; recorded := recorded s;
     wins := wins s |}.

Definition with_call (i : nat) (c : Call) (s : System) : System :=
  {| clock := clock s; store := store s; stats := stats s; calls := <[i := c]> (calls s);
     claimants := claimants s; submissions := submissions s; recorded := recorded s;
     wins := wins s |}.

Definition record_call (iv : Intervention) (s : System) : System :=
  {| clock := clock s; store := store s; stats := stats s; calls := calls s;
     claimants := claimants s; submissions := submissions s; recorded := recorded s ++ [iv];
     wins := wins s |}.

Definition submit_call (d : FireDecision) (s : System) : System :=
  {| clock := clock s; store := store s; stats := stats s; calls := calls s;
     claimants := claimants s; submissions := submissions s ++ [d]; recorded := recorded s;
     wins := wins s |}.

(** [claims.claim(windowId)] by a claimant. *)
Definition claim_window (who : nat) (w : string) (s : System) : bool * System :=
  let '(b, st) := fire_claim F (clock s) who w (store s) in
  (b, {| clock := clock s; store := st; stats := stats s; calls := calls s;
         claimants := claimants s; submissions := submissions s; recorded := recorded s;
         wins := wins s ++ if b then [{| win_who := who; win_window := w; win_at := clock s |}] else [] |}).

Definition count_watched (st : BackstopStats) : BackstopStats :=
  {| windowsWatched := windowsWatched st + 1; windowsWaiting := windowsWaiting st;
     windowsNoIntervention := windowsNoIntervention st; windowsPrimaryWon := windowsPrimaryWon st;
     interventions := interventions st; submissionFailures := submissionFailures st |}.
Definition count_waiting (st : BackstopStats) : BackstopStats :=
  {| windowsWatched := windowsWatched st; windowsWaiting := windowsWaiting st + 1;
     windowsNoIntervention := windowsNoIntervention st; windowsPrimaryWon := windowsPrimaryWon st;
     interventions := interventions st; submissionFailures := submissionFailures st |}.
Definition count_no_intervention (st : BackstopStats) : BackstopStats :=
  {| windowsWatched := windowsWatched st; windowsWaiting := windowsWaiting st;
     windowsNoIntervention := windowsNoIntervention st + 1; windowsPrimaryWon := windowsPrimaryWon st;
     interventions := interventions st; submissionFailures := submissionFailures st |}.
Definition count_primary_won (st : BackstopStats) : BackstopStats :=
  {| windowsWatched := windowsWatched st; windowsWaiting := windowsWaiting st;
     windowsNoIntervention := windowsNoIntervention st; windowsPrimaryWon := windowsPrimaryWon st + 1;
     interventions := interventions st; submissionFailures := submissionFailures st |}.
Definition count_intervention (st : BackstopStats) : BackstopStats :=
  {| windowsWatched := windowsWatched st; windowsWaiting := windowsWaiting st;
     windowsNoIntervention := windowsNoIntervention st; windowsPrimaryWon := windowsPrimaryWon st;
     interventions := interventions st + 1; submissionFailures := submissionFailures st |}.
Definition count_submission_failure (st : BackstopStats) : BackstopStats :=
  {| windowsWatched := windowsWatched st; windowsWaiting := windowsWaiting st;
     windowsNoIntervention := windowsNoIntervention st; windowsPrimaryWon := windowsPrimaryWon st;
     interventions := interventions st; submissionFailures := submissionFailures st + 1 |}.

Definition at_await (a : Await) (c : Call) : Call :=
  {| rest := rest c; currentLedger := currentLedger c; outcomes := outcomes c; await := a |}.

(** [return outcome] of [evaluate], pushed by [evaluateAll]. *)
Definition finish (o : BackstopOutcome) (c : Call) : Call :=
  {| rest := rest c; currentLedger := currentLedger c; outcomes := outcomes c ++ [o];
     await := BetweenWindows |}.

(** The next turn of the loop of [evaluateAll], up to the first await of
    [evaluate]. *)
Definition next_window (i : nat) (c : Call) (s : System) : System :=
  match rest c with
  | [] => with_call i (at_await Resolved c) s
  | d :: ds =>
      let c := {| rest := ds; currentLedger := currentLedger c; outcomes := outcomes c;
                  await := AwaitVerdict d |} in
      let s := with_stats count_watched s in
      let firesAtLedger := (deadlineLedger d + grace)%Z in
      if (currentLedger c <=? firesAtLedger)%Z then
        with_call i (finish (Waiting (windowId d) firesAtLedger) c) (with_stats count_waiting s)
      else with_call i c s
  end.

(** What [verdictFor] answered; [Err] is a rejection. *)
Definition verdict_answered (i : nat) (c : Call) (d : FireDecision)
    (answer : result unit (option WindowVerdict)) (s : System) : System :=
  let stand_down v :=
    with_call i (finish (NoIntervention (windowId d) v) c) (with_stats count_no_intervention s) in
  match answer with
  | Err _ => with_call i (at_await (Rejected true) c) s
  | Ok None =>
      stand_down {| v_windowId := windowId d; v_workerId := decisionWorkerId d;
                    verdict := unverifiable; v_conditionLedger := conditionLedger d;
                    v_deadlineLedger := deadlineLedger d; firedLedger := None;
                    latencyLedgers := None; v_reason := None |}
  | Ok (Some v) =>
      if decide (verdict v = missed) then with_call i (at_await (AwaitClaim d v) c) s
      else stand_down v
  end.

Definition intervention_of (c : Call) (d : FireDecision) (v : WindowVerdict) : Intervention :=
  {| iv_windowId := windowId d; iv_workerId := decisionWorkerId d;
     iv_subscriptionId := subscriptionId subscription; iv_verdict := v;
     decidedAtLedger := currentLedger c; primaryDeadlineLedger := deadlineLedger d;
     iv_graceLedgers := grace |}.

(** The claim, decided by the store or rejected. *)
Definition claim_answered (i : nat) (c : Call) (d : FireDecision) (v : WindowVerdict)
    (reaches : bool) (s : System) : System :=
  if reaches then
    let '(b, s) := claim_window 0 (windowId d) s in
    if b then with_call i (at_await (AwaitSubmit d (intervention_of c d v)) c) (submit_call d s)
    else with_call i (finish (PrimaryWon (windowId d)) c) (with_stats count_primary_won s)
  else with_call i (at_await (Rejected true) c) s.

Definition submit_answered (i : nat) (c : Call) (d : FireDecision) (iv : Intervention)
    (ok : bool) (s : System) : System :=
  let s := if ok then s else with_stats count_submission_failure s in
  with_call i (at_await (AwaitRecord d iv ok) c) (record_call iv s).

Definition record_answered (i : nat) (c : Call) (d : FireDecision) (iv : Intervention)
    (submitted ok : bool) (hasNotifier : bool) (s : System) : System :=
  if negb ok then with_call i (at_await (Rejected submitted) c) s
  else if negb submitted then with_call i (finish (SubmissionFailed (windowId d)) c) s
  else
    let s := with_stats count_intervention s in
    if hasNotifier then with_call i (at_await (AwaitNotify d iv) c) s
    else with_call i (finish (Intervened (windowId d) iv) c) s.

(** A failed notification is swallowed. *)
Definition notify_answered (i : nat) (c : Call) (d : FireDecision) (iv : Intervention)
    (s : System) : System :=
  with_call i (finish (Intervened (windowId d) iv) c) s.

(** One turn of the loop of [claimDecisions]. *)
Definition claim_next (j : nat) (p : Claimant) (s : System) : System :=
  match unclaimed p with
  | [] => s
  | d :: ds =>
      let '(b, s) := claim_window (j + 1) (windowId d) s in
      {| clock := clock s; store := store s; stats := stats s; calls := calls s;
         claimants := <[j := {| unclaimed := ds; won := won p ++ if b then [d] else [] |}]> (claimants s);
         submissions := submissions s; recorded := recorded s; wins := wins s |}
  end.

Inductive label :=
  | Tick (now : Z)
  | EvaluateAll (ds : list FireDecision) (ledger : Z)
  | Proceed (i : nat)
  | Verdict (i : nat) (answer : result unit (option WindowVerdict))
  | ClaimReply (i : nat) (reaches : bool)
  | SubmitReply (i : nat) (ok : bool)
  | RecordReply (i : nat) (ok hasNotifier : bool)
  | NotifyReply (i : nat)
  | ClaimDecisions (ds : list FireDecision)
  | ClaimTurn (j : nat).

(** A reply nobody waits for changes nothing. *)
Definition step (l : label) (s : System) : System :=
  let at_call i (f : Call → System) :=
    match calls s !! i with Some c => f c | None => s end in
  match l with
  | Tick now =>
      {| clock := Z.max (clock s) now; store := store s; stats := stats s; calls := calls s;
         claimants := claimants s; submissions := submissions s; recorded := recorded s;
         wins := wins s |}
  | EvaluateAll ds ledger =>
      {| clock := clock s; store := store s; stats := stats s;
         calls := calls s ++ [{| rest := ds; currentLedger := ledger; outcomes := [];
                                 await := BetweenWindows |}];
         claimants := claimants s; submissions := submissions s; recorded := recorded s;
         wins := wins s |}
  | Proceed i => at_call i (λ c,
      match await c with BetweenWindows => next_window i c s | _ => s end)
  | Verdict i answer => at_call i (λ c,
      match await c with AwaitVerdict d => verdict_answered i c d answer s | _ => s end)
  | ClaimReply i reaches => at_call i (λ c,
      match await c with AwaitClaim d v => claim_answered i c d v reaches s | _ => s end)
  | SubmitReply i ok => at_call i (λ c,
      match await c with AwaitSubmit d iv => submit_answered i c d iv ok s | _ => s end)
  | RecordReply i ok hasNotifier => at_call i (λ c,
      match await c with
      | AwaitRecord d iv sub => record_answered i c d iv sub ok hasNotifier s
      | _ => s
      end)
  | NotifyReply i => at_call i (λ c,
      match await c with AwaitNotify d iv => notify_answered i c d iv s | _ => s end)
  | ClaimDecisions ds =>
      {| clock := clock s; store := store s; stats := stats s; calls := calls s;
         claimants := claimants s ++ [{| unclaimed := ds; won := [] |}];
         submissions := submissions s; recorded := recorded s; wins := wins s |}
  | ClaimTurn j =>
      match claimants s !! j with Some p => claim_next j p s | None => s end
  end.

Definition start (now : Z) (st : S) : System :=
  {| clock := now; store := st; stats := no_stats; calls := []; claimants := [];
     submissions := []; recorded := []; wins := [] |}.

Definition run (ls : list label) (s : System) : System := foldl (λ s l, step l s) s ls.

(** ** Invariants *)

(** The grounds of an intervention: a verdict of a miss, asked for after the
    primary's deadline and the subscription's grace were over. *)
Definition justified (iv : Intervention) : Prop :=
  verdict (iv_verdict iv) = missed ∧
  (primaryDeadlineLedger iv + iv_graceLedgers iv < decidedAtLedger iv)%Z ∧
  iv_graceLedgers iv = grace ∧ iv_subscriptionId iv = subscriptionId subscription.

Definition overdue (d : FireDecision) (c : Call) : Prop :=
  (deadlineLedger d + grace < currentLedger c)%Z.

Definition call_ok (c : Call) : Prop :=
  match await c with
  | AwaitVerdict d => overdue d c
  | AwaitClaim d v => overdue d c ∧ verdict v = missed
  | AwaitSubmit d iv => justified iv ∧ iv_windowId iv = windowId d
  | _ => True
  end.

(** The window a call is submitting, and the windows it has counted as watched
    and as nothing else. *)
Definition submitting (c : Call) : list string :=
  match await c with AwaitSubmit d _ => [windowId d] | _ => [] end.

Definition uncounted (c : Call) : nat :=
  match await c with
  | AwaitVerdict _ | AwaitClaim _ _ | AwaitSubmit _ _ | AwaitRecord _ _ true | Rejected true => 1
  | _ => 0
  end.

Definition justified_inv (s : System) : Prop :=
  Forall call_ok (calls s) ∧ Forall justified (recorded s).

Ltac open_step :=
  cbn [step]; repeat (case_match; try done);
  unfold next_window, verdict_answered, claim_answered, submit_answered, record_answered,
    notify_answered, claim_next, claim_window in *;
  repeat (case_match; simplify_eq; try done);
  cbn [with_call with_stats record_call submit_call calls recorded submissions wins claimants stats
    store clock].

(** The call a reply is for is as its invariant says. *)
Ltac at_call :=
  match goal with
  | Hc : Forall call_ok (calls _), Hl : calls _ !! _ = Some ?c |- _ =>
      let H := fresh "Hcall" in pose proof (Forall_lookup_1 _ _ _ _ Hc Hl) as H;
      unfold call_ok in H;
      match goal with Ha : await c = _ |- _ => rewrite Ha in H end
  end.

Lemma justified_step l s : justified_inv s → justified_inv (step l s).
Proof.
  intros [Hc Hr]. unfold justified_inv. destruct l; open_step; try at_call.
  all: split; try done.
  all: try (apply Forall_insert; [done|]).
  all: try (apply Forall_app; split; [done|]; apply Forall_singleton).
  all: unfold call_ok, finish, at_await, justified, overdue, intervention_of in *; cbn [await] in *; try done.
  all: try naive_solver.
  all: bool_to_prop; cbn in *; lia.
Qed.

(** Every submission is recorded once, when it settles; every claim that was
    won is a submission or in the hands of its claimant. *)
Definition recorded_inv (s : System) : Prop :=
  (iv_windowId <$> recorded s) ++ (calls s ≫= submitting) ≡ₚ windowId <$> submissions s.

Definition wins_inv (s : System) : Prop :=
  (windowId <$> submissions s) ++ (claimants s ≫= λ p, windowId <$> won p) ≡ₚ win_window <$> wins s.

Lemma submitting_await c a :
  await c = a → submitting c = match a with AwaitSubmit d _ => [windowId d] | _ => [] end.
Proof. by intros <-. Qed.

Lemma recorded_step l s : justified_inv s → recorded_inv s → recorded_inv (step l s).
Proof.
  intros [Hc _] Hr. unfold recorded_inv in *. destruct l; open_step; try at_call.
  all: try match goal with H : await _ = _ |- _ => apply submitting_await in H end.
  all: try (erewrite bind_insert_same; [done..|]; by rewrite H0).
  all: try done.
  3,4: rewrite fmap_app, <-app_assoc, <-Hr; apply Permutation_app_head; cbn;
    rewrite (proj2 Hcall), Permutation_cons_append, <-H0, (bind_insert _ _ _ _ _ H);
    by rewrite app_nil_r.
  - by rewrite bind_app, app_nil_r.
  - rewrite fmap_app, <-Hr, <-app_assoc. apply Permutation_app_head.
    rewrite <-(app_nil_r (<[_:=_]> _ ≫= _)). rewrite <-H0. by rewrite (bind_insert _ _ _ _ _ H).
Qed.

Lemma wins_step l s : wins_inv s → wins_inv (step l s).
Proof.
  unfold wins_inv. intros Hw. destruct l; open_step; rewrite ?app_nil_r; try done.
  - rewrite fmap_app, (fmap_app win_window), <-Hw, <-!app_assoc. apply Permutation_app_head.
    apply Permutation_app_comm.
  - rewrite bind_app. cbn. by rewrite app_nil_r.
  - rewrite (fmap_app win_window), <-Hw, <-app_assoc. apply Permutation_app_head.
    match goal with H : claimants s !! j = Some ?p |- context [<[j := ?p']> _] =>
      pose proof (bind_insert (λ p, windowId <$> won p) _ j p p' H) as E end.
    cbn [won] in E. rewrite fmap_app in E.
    rewrite (Permutation_app_comm _ (windowId <$> won c)) in E.
    rewrite (Permutation_app_comm (_ <$> won c) (_ <$> _)), app_assoc in E.
    rewrite (Permutation_app_comm _ (windowId <$> won c)) in E.
    by apply Permutation_app_inv_l in E.
  - rewrite <-Hw. apply Permutation_app_head. by erewrite bind_insert_same.
Qed.

(** Every watched window is counted once more, unless its call is under way or
    was rejected. *)
Definition stats_inv (s : System) : Prop :=
  let st := stats s in
  windowsWatched st = windowsWaiting st + windowsNoIntervention st + windowsPrimaryWon st +
    interventions st + submissionFailures st + sum_list_with uncounted (calls s).

Lemma stats_step l s : stats_inv s → stats_inv (step l s).
Proof.
  unfold stats_inv. intros Hs. destruct l; open_step; try done.
  all: try match goal with H : calls _ !! ?i = Some ?c |- context [<[?i := ?c']> _] =>
      pose proof (sum_insert uncounted _ i c c' H) as E; unfold uncounted at 2 4 in E end.
  all: try match goal with H : await _ = _ |- _ => rewrite H in E end.
  all: unfold finish, at_await in *; cbn in *; try lia.
  - rewrite sum_list_with_app. cbn. lia.
  - destruct submitted; [done|]. lia.
  - destruct submitted; [|done]. lia.
  - destruct submitted; [|done]. lia.
Qed.

(** ** No window is won twice while a claim holds *)

Definition spaced (a b : Win) : Prop :=
  win_window a = win_window b → lapsed F (win_who a) (win_at a) (win_at b).

Definition claims_hold (now : Z) (st : S) (ws : list Win) : Prop :=
  StronglySorted spaced ws ∧
  ∀ w, w ∈ ws → (win_at w ≤ now)%Z ∧ ∀ now', (now ≤ now')%Z →
    lapsed F (win_who w) (win_at w) now' ∨ isClaimed F now' (win_window w) st = true.

Definition claims_inv (s : System) : Prop := claims_hold (clock s) (store s) (wins s).

Lemma claims_later now now' st ws :
  (now ≤ now')%Z → claims_hold now st ws → claims_hold now' st ws.
Proof.
  intros Hle [Hs Hw]. split; [done|]. intros w Hin. destruct (Hw w Hin) as [? Hc].
  split; [lia|]. intros now'' ?. apply Hc. lia.
Qed.

Lemma claims_win `{!LawfulFireClaims F} now who k st ws :
  (fire_claim F now who k st).1 = true → claims_hold now st ws →
  claims_hold now (fire_claim F now who k st).2
    (ws ++ [{| win_who := who; win_window := k; win_at := now |}]).
Proof.
  intros Hwin [Hs Hw]. split.
  - apply StronglySorted_snoc; [done|]. apply Forall_forall. intros w Hin Heq.
    destruct (Hw w Hin) as [_ Hc]. cbn in Heq |- *.
    destruct (Hc now ltac:(lia)) as [?|Hcl]; [done|].
    rewrite Heq, (win_free _ _ _ _ Hwin) in Hcl. done.
  - intros w [Hin| ->%list_elem_of_singleton]%elem_of_app; cbn.
    + destruct (Hw w Hin) as [Hat Hc]. split; [done|]. intros now' Hle.
      destruct (decide (win_window w = k)) as [Heq|Hne].
      * left. destruct (Hc now ltac:(lia)) as [(l & Hl & ?)|Hcl].
        -- exists l. split; [done|lia].
        -- rewrite Heq, (win_free _ _ _ _ Hwin) in Hcl. done.
      * rewrite (win_frame _ _ _ _ now' _ Hwin Hne). by apply Hc.
    + split; [lia|]. intros now' Hle. by apply win_holds.
Qed.

Lemma claims_step `{!LawfulFireClaims F} l s : claims_inv s → claims_inv (step l s).
Proof.
  unfold claims_inv. intros Hc. destruct l; open_step; rewrite ?app_nil_r; try done.
  all: try (eapply claims_later; [|exact Hc]; lia).
  all: match goal with H : fire_claim F ?now ?who ?k ?st = (?b, ?st') |- _ =>
    replace st' with (fire_claim F now who k st).2 by (by rewrite H);
    match b with
    | true => apply claims_win; [by rewrite H|done]
    | false => rewrite lost_same by (by rewrite H); done
    end end.
Qed.

Definition watcher_inv (s : System) : Prop :=
  justified_inv s ∧ recorded_inv s ∧ wins_inv s ∧ stats_inv s.

Lemma run_watcher_inv ls now st : watcher_inv (run ls (start now st)).
Proof.
  unfold run. induction ls as [|l ls IH] using rev_ind.
  - split; [split; constructor|]. unfold recorded_inv, wins_inv, stats_inv. cbn. auto.
  - rewrite foldl_app. destruct IH as (H1 & H2 & H3 & H4). cbn. split_and!.
    + by apply justified_step.
    + by apply recorded_step.
    + by apply wins_step.
    + by apply stats_step.
Qed.

Lemma run_claims_inv `{!LawfulFireClaims F} ls now st : claims_inv (run ls (start now st)).
Proof.
  unfold run. induction ls as [|l ls IH] using rev_ind.
  - split; [constructor|]. intros w Hw. by apply not_elem_of_nil in Hw.
  - rewrite foldl_app. by apply claims_step.
Qed.
End watcher.

Section theorems.
Context (subscription : WatchedSubscription) (grace : Z).

Lemma spaced_never ws :
  StronglySorted (spaced InMemoryFireClaimStore) ws → NoDup (win_window <$> ws).
Proof.
  induction 1 as [|w ws Hs IH Hf]; cbn; [constructor|]. constructor; [|done].
  intros (w' & Heq & Hw')%list_elem_of_fmap. rewrite Forall_forall in Hf.
  destruct (Hf w' Hw' Heq) as (l & Hl & _). done.
Qed.

(** C4: With claims that last, whatever the calls of the watcher and the claims
    of the primaries do in between, every window is fired at most once: the
    windows whose fallback was submitted and the windows the claimants won are
    all different. *)
Theorem window_fired_once ls now claimed :
  let s := run InMemoryFireClaimStore subscription grace ls (start now claimed) in
  NoDup ((windowId <$> submissions s) ++ (claimants s ≫= λ p, windowId <$> won p)).
Proof.
  intros s.
  destruct (run_watcher_inv InMemoryFireClaimStore subscription grace ls now claimed)
    as (_ & _ & Hw & _).
  unfold wins_inv in Hw. subst s. rewrite Hw. apply spaced_never.
  apply (run_claims_inv InMemoryFireClaimStore subscription grace ls now claimed).
Qed.

(** Over a claim store with leases two firings of one window, by whomever,
    are at least a lease apart; every firing is a claim that was won. *)
Theorem firings_a_lease_apart {S} `{LawfulClaimStore S} owner_of ttl ls now (st : S) :
  let s := run (ClaimStoreFireClaims owner_of ttl) subscription grace ls (start now st) in
  StronglySorted (λ a b, win_window a = win_window b → (win_at a + ttl ≤ win_at b)%Z) (wins s) ∧
  (windowId <$> submissions s) ++ (claimants s ≫= λ p, windowId <$> won p) ≡ₚ
    win_window <$> wins s.
Proof.
  intros s. split.
  - destruct (run_claims_inv (ClaimStoreFireClaims owner_of ttl) subscription grace ls now st)
      as [Hs _]. fold s in Hs.
    revert Hs. generalize (wins s). intros ws. induction 1 as [|w ws Hs IH Hf]; constructor; [done|].
    eapply Forall_impl; [exact Hf|]. intros w' Hsp Heq. by destruct (Hsp Heq) as (l & [= <-] & ?).
  - apply run_watcher_inv.
Qed.

(** The watcher submits a fallback only for a window verification calls
    missed, later than the primary's deadline and the subscription's grace;
    every submission is recorded exactly once, as soon as it has settled; and
    every window it watched is in exactly one of its counters unless its call
    is under way or was rejected. *)
Theorem interventions_justified {S} (F : FireClaimStore S) ls now st :
  let s := run F subscription grace ls (start now st) in
  Forall (justified subscription grace) (recorded s) ∧
  (iv_windowId <$> recorded s) ++ (calls s ≫= submitting) ≡ₚ windowId <$> submissions s ∧
  windowsWatched (stats s) =
    windowsWaiting (stats s) + windowsNoIntervention (stats s) + windowsPrimaryWon (stats s) +
    interventions (stats s) + submissionFailures (stats s) + sum_list_with uncounted (calls s).
Proof.
  intros s. destruct (run_watcher_inv F subscription grace ls now st) as ([_ H1] & H2 & _ & H3).
  done.
Qed.
End theorems.

(** ** Examples *)

Definition sample_subscription : WatchedSubscription :=
  {| subscriptionId := "s"; watchedWorkerId := "w"; tier := time_insensitive;
     graceLedgers := jint 5 |}.

Definition sample_decision : FireDecision :=
  {| windowId := "w:a"; decisionWorkerId := "w"; conditionEventId := "a"; conditionLedger := 120;
     deadlineLedger := 130 |}.

Definition sample_missed : WindowVerdict :=
  {| v_windowId := "w:a"; v_workerId := "w"; verdict := missed; v_conditionLedger := 120;
     v_deadlineLedger := 130; firedLedger := None; latencyLedgers := None; v_reason := None |}.

(** One window evaluated by call [i], up to the settling of its submission. *)
Definition evaluation (i : nat) (ok : bool) : list label :=
  [EvaluateAll [sample_decision] 136; Proceed i; Verdict i (Ok (Some sample_missed));
   ClaimReply i true; SubmitReply i ok; RecordReply i true false].

Definition adapters : FireClaimStore InMemoryClaimStore :=
  ClaimStoreFireClaims (λ who, "owner" +:+ pretty who) 300000.

Notation sample_run F ls st := (run F sample_subscription 5 ls (start 0 st)).

Example intervenes :
  let s := sample_run InMemoryFireClaimStore (evaluation 0 true) ∅ in
  outcomes <$> calls s =
    [[Intervened "w:a" (intervention_of sample_subscription 5
        {| rest := []; currentLedger := 136; outcomes := []; await := Resolved |}
        sample_decision sample_missed)]].
Proof. reflexivity. Qed.

(** A window whose submission failed is not closed for good when claims have a
    lease: five minutes later the watcher fires it again. *)
Lemma failed_window_fired_again :
  windowId <$> submissions (sample_run adapters
    (evaluation 0 false ++ [Tick 300000] ++ evaluation 1 true) {| map := ∅ |}) = ["w:a"; "w:a"].
Proof. vm_compute. reflexivity. Qed.

(** So is a window whose primary claimed it and is still at work. *)
Lemma slow_primary_fired_twice :
  let s := sample_run adapters
    ([ClaimDecisions [sample_decision]; ClaimTurn 0; Tick 300000] ++ evaluation 0 true)
    {| map := ∅ |} in
  windowId <$> submissions s = ["w:a"] ∧ (won <$> claimants s) = [[sample_decision]].
Proof. vm_compute. done. Qed.

(** A recorder that rejects loses the rest of the batch and leaves a submitted
    fallback in no counter. *)
Lemma rejected_record_uncounted :
  let s := sample_run InMemoryFireClaimStore
    [EvaluateAll [sample_decision; sample_decision] 136; Proceed 0;
     Verdict 0 (Ok (Some sample_missed)); ClaimReply 0 true; SubmitReply 0 true;
     RecordReply 0 false false; Proceed 0] ∅ in
  windowId <$> submissions s = ["w:a"] ∧ interventions (stats s) = 0 ∧
  submissionFailures (stats s) = 0 ∧ windowsWatched (stats s) = 1 ∧
  await <$> calls s = [Rejected true].
Proof. vm_compute. done. Qed.

Lemma firings_a_lease_apart_witness :
  StronglySorted (λ a b, win_window a = win_window b → (win_at a + 300000 ≤ win_at b)%Z)
    (wins (sample_run adapters (evaluation 0 false ++ [Tick 300000] ++ evaluation 1 true)
      {| map := ∅ |})).
Proof.
  apply (firings_a_lease_apart sample_subscription 5 (S := InMemoryClaimStore)).
Defined.
