(* ===== verification/SubscriptionService.v ===== *)
(** * Subscriptions to offerings
    (packages/worker-core/src/subscription/SubscriptionService.ts, store.ts,
    types.ts and packages/worker-core/src/backstop/tiers.ts)

    Each operation reads its record, awaits, and writes the record back; calls
    under way at the same time interleave at the awaits.  [now()], [newId()] and
    [currentWindow()] are arguments, read once per stretch. *)

From Stdlib Require Import Sorted.
From S2P Require Import Prelude.
From S2P Require Import JsMap.
From S2P Require Import Decimal.

(** ** Tiers (tiers.ts) *)

Inductive TierId := time_insensitive | latency_sensitive.

#[export] Instance TierId_eq_dec : EqDecision TierId.
Proof. solve_decision. Defined.

Record CostMeasurement := {
  measuredAt : string;
  sampleCount : jsnum;
  medianLatencyMs : jsnum;
  p99LatencyMs : jsnum;
  measurementSource : string;
}.

Record TierEnableDecision := {
  enabled : bool;
  decidedBy : string;
  decidedAt : string;
  costMeasurement : option CostMeasurement;
}.

Definition LATENCY_SENSITIVE_TIER_DEFAULT : TierEnableDecision :=
  {| enabled := false; decidedBy := "unset"; decidedAt := "1970-01-01T00:00:00.000Z";
     costMeasurement := None |}.

Inductive TierError := TierEnableWithoutMeasurement.

Definition assertTierEnableDecisionIsValid (d : TierEnableDecision) : result TierError unit :=
  reject_if (enabled d && negb (bool_decide (is_Some (costMeasurement d)))) TierEnableWithoutMeasurement.

Record GuaranteeBounds := {
  latencyBoundMs : Z;
  gracePeriodMs : Z;
  maxFeeMultiplier : Z;
}.

Record TierDefinition := {
  bounds : GuaranteeBounds;
  pricePerWindowStroops : Z;
  registrable : bool;
  enabledBy : string;
}.

Definition MINUTE : Z := 60000.
Definition HOUR : Z := 60 * MINUTE.

Definition latencySensitiveIsRegistrable (d : TierEnableDecision) : result TierError bool :=
  assertTierEnableDecisionIsValid d ≫= λ _, Ok (enabled d).

(** The table a decision gives when the module is loaded, or the error that
    loading it throws. *)
Definition tier_table (d : TierEnableDecision) : result TierError (TierId → TierDefinition) :=
  latencySensitiveIsRegistrable d ≫= λ b, Ok (λ id,
    match id with
    | time_insensitive =>
        {| bounds := {| latencyBoundMs := 6 * HOUR; gracePeriodMs := 1 * HOUR;
                        maxFeeMultiplier := 10 |};
           pricePerWindowStroops := 10000000; registrable := true; enabledBy := "21.3" |}
    | latency_sensitive =>
        {| bounds := {| latencyBoundMs := 2 * MINUTE; gracePeriodMs := 30000;
                        maxFeeMultiplier := 100 |};
           pricePerWindowStroops := 500000000; registrable := b; enabledBy := "22.4" |}
    end).

Definition TIER_IDS : list TierId := [time_insensitive; latency_sensitive].

Section tiers.
Context (TIERS : TierId → TierDefinition).

Definition registrableTiers : list TierId :=
  base.filter (λ id, registrable (TIERS id) = true) TIER_IDS.

Definition withinGuarantee (id : TierId) (dueAt firedAt : Z) : bool :=
  (firedAt - dueAt <=? latencyBoundMs (bounds (TIERS id)) + gracePeriodMs (bounds (TIERS id)))%Z.

Definition guaranteeDeadline (id : TierId) (dueAt : Z) : Z :=
  dueAt + latencyBoundMs (bounds (TIERS id)) + gracePeriodMs (bounds (TIERS id)).

Lemma within_deadline id dueAt firedAt :
  withinGuarantee id dueAt firedAt = true ↔ (firedAt ≤ guaranteeDeadline id dueAt)%Z.
Proof. unfold withinGuarantee, guaranteeDeadline. rewrite Z.leb_le. lia. Qed.
End tiers.

(** ** Records (types.ts) *)

Inductive SubscriptionStatus := active | paused | cancelled.

Inductive SubscriptionAction := act_create | act_pause | act_resume | act_cancel | act_change_tier.

#[export] Instance SubscriptionStatus_eq_dec : EqDecision SubscriptionStatus.
Proof. solve_decision. Defined.
#[export] Instance SubscriptionAction_eq_dec : EqDecision SubscriptionAction.
Proof. solve_decision. Defined.

Record SubscriptionAuditEntry := {
  action : SubscriptionAction;
  a_version : Z;
  a_tier : TierId;
  at_ : Z;
  from : option SubscriptionStatus;
  to : SubscriptionStatus;
  window : Z;
  reason : option string;
}.

Record SubscriptionRecord := {
  id : string;
  version : Z;
  subscriber : string;
  offering : string;
  webhookTarget : string;
  tier : TierId;
  status : SubscriptionStatus;
  createdAt : Z;
  updatedAt : Z;
  cancelEffectiveWindow : option Z;
  audit : list SubscriptionAuditEntry;
}.

Inductive SubscriptionErrorCode :=
  | INVALID_WEBHOOK_TARGET | NOT_FOUND | ALREADY_CANCELLED | INVALID_TRANSITION
  | TIER_NOT_REGISTRABLE | INVALID_FIELD (field : string).

#[export] Instance SubscriptionErrorCode_eq_dec : EqDecision SubscriptionErrorCode.
Proof. solve_decision. Defined.

(** ** The in-memory store (store.ts) *)

Definition MemorySubscriptionStore : Type := jsmap string SubscriptionRecord.

Definition put (r : SubscriptionRecord) (m : MemorySubscriptionStore) : MemorySubscriptionStore :=
  mset (id r) r m.

(** Newest first; the sort is stable. *)
Definition store_listBySubscriber (who : string) (m : MemorySubscriptionStore)
    : list SubscriptionRecord :=
  sort_by (λ r, - createdAt r)%Z (base.filter (λ r, subscriber r = who) (mvals m)).

(** ** The service *)

Record CreateSubscriptionInput := {
  in_subscriber : string;
  in_offering : string;
  in_webhookTarget : string;
  in_tier : TierId;
}.

Section service.
Context (TIERS : TierId → TierDefinition).

Definition assertRegistrable (t : TierId) : result SubscriptionErrorCode unit :=
  reject_if (negb (bool_decide (t ∈ registrableTiers TIERS))) TIER_NOT_REGISTRABLE.

Definition requireNonEmpty (value field : string) : result SubscriptionErrorCode string :=
  let trimmed := trim value in
  if String.eqb trimmed "" then Err (INVALID_FIELD field) else Ok trimmed.

(** [create] up to the validation of the target: the input it will store. *)
Definition create_begin (input : CreateSubscriptionInput)
    : result SubscriptionErrorCode CreateSubscriptionInput :=
  s ← requireNonEmpty (in_subscriber input) "subscriber";
  o ← requireNonEmpty (in_offering input) "offering";
  w ← requireNonEmpty (in_webhookTarget input) "webhookTarget";
  _ ← assertRegistrable (in_tier input);
  mret {| in_subscriber := s; in_offering := o; in_webhookTarget := w; in_tier := in_tier input |}.

(** [...(reason ? { reason } : {})] *)
Definition given_reason (reason : option string) : option string :=
  match reason with Some "" => None | r => r end.

Definition entry (a : SubscriptionAction) (from : option SubscriptionStatus) (to : SubscriptionStatus)
    (now version : Z) (t : TierId) (window : Z) (reason : option string) : SubscriptionAuditEntry :=
  {| action := a; a_version := version; a_tier := t; at_ := now; from := from; to := to;
     window := window; reason := given_reason reason |}.

(** [create] after the validator answered. *)
Definition created (input : CreateSubscriptionInput) (newId : string) (now window : Z)
    : SubscriptionRecord :=
  {| id := newId; version := 1; subscriber := in_subscriber input; offering := in_offering input;
     webhookTarget := in_webhookTarget input; tier := in_tier input; status := active;
     createdAt := now; updatedAt := now; cancelEffectiveWindow := None;
     audit := [entry act_create None active now 1 (in_tier input) window None] |}.

(** [transition] after the record was read. *)
Definition transition (a : SubscriptionAction) (to : SubscriptionStatus)
    (allowedFrom : list SubscriptionStatus) (reason : option string) (now window : Z)
    (loaded : option SubscriptionRecord) : result SubscriptionErrorCode SubscriptionRecord :=
  match loaded with
  | None => Err NOT_FOUND
  | Some current =>
      if decide (status current = cancelled) then Err ALREADY_CANCELLED
      else if negb (bool_decide (status current ∈ allowedFrom)) then Err INVALID_TRANSITION
      else Ok
        {| id := id current; version := version current; subscriber := subscriber current;
           offering := offering current; webhookTarget := webhookTarget current;
           tier := tier current; status := to; createdAt := createdAt current; updatedAt := now;
           cancelEffectiveWindow :=
             if decide (to = cancelled) then Some (window + 1)%Z else cancelEffectiveWindow current;
           audit := audit current ++
             [entry a (Some (status current)) to now (version current) (tier current) window reason] |}
  end.

Definition pause := transition act_pause paused [active].
Definition resume := transition act_resume active [paused].
Definition cancel := transition act_cancel cancelled [active; paused].

Definition changeTier (t : TierId) (reason : option string) (now window : Z)
    (loaded : option SubscriptionRecord) : result SubscriptionErrorCode SubscriptionRecord :=
  match loaded with
  | None => Err NOT_FOUND
  | Some current =>
      if decide (status current = cancelled) then Err ALREADY_CANCELLED
      else
        _ ← assertRegistrable t;
        if decide (t = tier current) then Err INVALID_TRANSITION
        else Ok
          {| id := id current; version := version current + 1; subscriber := subscriber current;
             offering := offering current; webhookTarget := webhookTarget current; tier := t;
             status := status current; createdAt := createdAt current; updatedAt := now;
             cancelEffectiveWindow := cancelEffectiveWindow current;
             audit := audit current ++
               [entry act_change_tier (Some (status current)) (status current) now
                  (version current + 1) t window reason] |}
  end.

Definition listBySubscriber (who : string) (m : MemorySubscriptionStore)
    : result SubscriptionErrorCode (list SubscriptionRecord) :=
  w ← requireNonEmpty who "subscriber"; mret (store_listBySubscriber w m).

(** ** Calls under way *)

Inductive Request :=
  | Pause (reason : option string)
  | Resume (reason : option string)
  | Cancel (reason : option string)
  | ChangeTier (t : TierId) (reason : option string).

(** What a call that has read [loaded] does. *)
Definition request_outcome (req : Request) (now window : Z) (loaded : option SubscriptionRecord)
    : result SubscriptionErrorCode SubscriptionRecord :=
  match req with
  | Pause r => pause r now window loaded
  | Resume r => resume r now window loaded
  | Cancel r => cancel r now window loaded
  | ChangeTier t r => changeTier t r now window loaded
  end.

Inductive Pending :=
  | Validating (input : CreateSubscriptionInput)
  | Loaded (sid : string) (req : Request) (r : option SubscriptionRecord)
  | Done (outcome : result SubscriptionErrorCode SubscriptionRecord).

Record Service := { records : MemorySubscriptionStore; calls : list Pending }.

Inductive label :=
  | Create (input : CreateSubscriptionInput)
  | Validated (i : nat) (rejected : bool) (newId : string) (now window : Z)
  | Issue (sid : string) (req : Request)
  | Continue (i : nat) (now window : Z).

Definition begin_call (p : Pending) (s : Service) : Service :=
  {| records := records s; calls := calls s ++ [p] |}.

(** The call settles, with a write when it succeeds. *)
Definition settle (i : nat) (o : result SubscriptionErrorCode SubscriptionRecord) (s : Service)
    : Service :=
  {| records := match o with Ok r => put r (records s) | Err _ => records s end;
     calls := <[i := Done o]> (calls s) |}.

Definition step (l : label) (s : Service) : Service :=
  match l with
  | Create input =>
      begin_call (match create_begin input with
                  | Ok input => Validating input
                  | Err e => Done (Err e)
                  end) s
  | Validated i rejected newId now window =>
      match calls s !! i with
      | Some (Validating input) =>
          settle i (if rejected then Err INVALID_WEBHOOK_TARGET
                    else Ok (created input newId now window)) s
      | _ => s
      end
  | Issue sid req => begin_call (Loaded sid req (mget sid (records s))) s
  | Continue i now window =>
      match calls s !! i with
      | Some (Loaded _ req r) => settle i (request_outcome req now window r) s
      | _ => s
      end
  end.

Definition run (ls : list label) : Service :=
  foldl (λ s l, step l s) {| records := []; calls := [] |} ls.
End service.

(** ** The audit trail *)

(** What the trail promises: state, tier in force, version, the window a
    cancellation takes effect in, and the time of the last change. *)
Definition Terms : Type := SubscriptionStatus * TierId * Z * option Z * Z.

Definition terms (r : SubscriptionRecord) : Terms :=
  (status r, tier r, version r, cancelEffectiveWindow r, updatedAt r).

Definition first_terms (e : SubscriptionAuditEntry) : option Terms :=
  if decide (action e = act_create ∧ from e = None ∧ to e = active ∧ a_version e = 1%Z)
  then Some (active, a_tier e, 1%Z, None, at_ e) else None.

(** The terms after an entry, [None] when the entry does not fit. *)
Definition next_terms (t : Terms) (e : SubscriptionAuditEntry) : option Terms :=
  let '(st, ti, v, c, _) := t in
  let lifecycle (ok : bool) next c' :=
    if decide (ok = true ∧ from e = Some st ∧ to e = next ∧ a_version e = v ∧ a_tier e = ti)
    then Some (next, ti, v, c', at_ e) else None in
  match action e with
  | act_create => None
  | act_pause => lifecycle (bool_decide (st = active)) paused c
  | act_resume => lifecycle (bool_decide (st = paused)) active c
  | act_cancel => lifecycle (bool_decide (st ≠ cancelled)) cancelled (Some (window e + 1)%Z)
  | act_change_tier =>
      if decide (st ≠ cancelled ∧ from e = Some st ∧ to e = st ∧ a_version e = (v + 1)%Z ∧
                 a_tier e ≠ ti)
      then Some (st, a_tier e, (v + 1)%Z, c, at_ e) else None
  end.

Definition replay (l : list SubscriptionAuditEntry) : option Terms :=
  match l with
  | [] => None
  | e :: es => foldl (λ t e, t ≫= λ t, next_terms t e) (first_terms e) es
  end.

Lemma replay_snoc l e t : replay l = Some t → replay (l ++ [e]) = next_terms t e.
Proof. destruct l as [|e0 l]; [done|]. cbn. intros H. by rewrite foldl_app, H. Qed.

(** A record agrees with its trail. *)
Definition agrees (r : SubscriptionRecord) : Prop := replay (audit r) = Some (terms r).

Section audit.
Context (TIERS : TierId → TierDefinition).
Notation request_outcome := (request_outcome TIERS).
Notation step := (step TIERS).
Notation run := (run TIERS).

Lemma created_agrees input newId now window : agrees (created input newId now window).
Proof. unfold agrees, created. cbn. unfold first_terms. by rewrite decide_True. Qed.

(** A request that is granted appends one entry to a trail that was not
    closed. *)
Lemma granted req now w r r' :
  request_outcome req now w (Some r) = Ok r' →
  id r' = id r ∧ status r ≠ cancelled ∧ createdAt r' = createdAt r ∧
  ∃ e, audit r' = audit r ++ [e] ∧ next_terms (terms r) e = Some (terms r').
Proof.
  destruct req; cbn; unfold pause, resume, cancel, transition, changeTier; intros H;
    repeat (case_decide; [done|]).
  1,2,3: destruct (bool_decide _) eqn:Hb in H; cbn [negb] in H; [|done]; apply bool_decide_eq_true in Hb;
    injection H as <-; cbn [id createdAt audit]; split_and!; [done..|];
    eexists; split; [reflexivity|]; unfold next_terms, terms, entry; cbn [action from to a_version a_tier
      window at_ status tier version cancelEffectiveWindow updatedAt].
  - rewrite decide_True; [done|]. rewrite bool_decide_eq_true. set_solver.
  - rewrite decide_True; [done|]. rewrite bool_decide_eq_true. set_solver.
  - rewrite decide_True; [done|]. by rewrite bool_decide_eq_true.
  - apply result_bind_Ok in H as (? & _ & H). case_decide; [done|]. injection H as <-.
    cbn [id createdAt audit]. split_and!; [done..|]. eexists. split; [reflexivity|].
    unfold next_terms, terms, entry. cbn. by rewrite decide_True.
Qed.

Lemma granted_agrees req now w r r' :
  agrees r → request_outcome req now w (Some r) = Ok r' → agrees r'.
Proof.
  unfold agrees. intros Ha (_ & _ & _ & e & -> & He)%granted. by rewrite (replay_snoc _ _ _ Ha).
Qed.

(** What is stored, and what the calls under way have read. *)
Definition service_inv (s : Service) : Prop :=
  (∀ sid r, mget sid (records s) = Some r → id r = sid ∧ agrees r) ∧
  (∀ i sid req r, calls s !! i = Some (Loaded sid req (Some r)) → id r = sid ∧ agrees r).

Lemma put_agrees r m :
  agrees r → (∀ sid r, mget sid m = Some r → id r = sid ∧ agrees r) →
  ∀ sid r', mget sid (put r m) = Some r' → id r' = sid ∧ agrees r'.
Proof.
  intros Hr Hm sid r'. unfold put. rewrite mget_mset. case_decide as Heq.
  - by intros [= <-].
  - apply Hm.
Qed.

Lemma settle_inv i o s :
  (∀ r, o = Ok r → agrees r) → service_inv s → service_inv (settle i o s).
Proof.
  intros Ho [Hr Hc]. split; cbn [records calls settle].
  - destruct o as [r|e]; [|done]. apply put_agrees; [by apply Ho|done].
  - intros j sid req r [(_ & [=] & _)|[_ Hj]]%list_lookup_insert_Some. by apply (Hc j sid req r).
Qed.

Lemma begin_inv p s :
  (∀ sid req r, p = Loaded sid req (Some r) → id r = sid ∧ agrees r) →
  service_inv s → service_inv (begin_call p s).
Proof.
  intros Hp [Hr Hc]. split; cbn [records calls begin_call]; [done|].
  intros i sid req r [Hi|[_ Hi]]%lookup_app_Some; [by apply (Hc i sid req r)|].
  apply list_lookup_singleton_Some in Hi as [_ Hi]. by apply (Hp sid req r).
Qed.

Lemma step_inv l s : service_inv s → service_inv (step l s).
Proof.
  intros Hs. pose proof Hs as [Hr Hc]. destruct l as [input|i rejected newId now window|sid req|i now window];
    cbn [step].
  - apply begin_inv; [|done]. by destruct (create_begin TIERS input).
  - destruct (calls s !! i) as [[input|sid req r|o]|]; [|done..].
    apply settle_inv; [|done]. destruct rejected; [done|]. intros r [= <-]. apply created_agrees.
  - apply begin_inv; [|done]. intros sid' req' r [= -> -> Hg]. by apply Hr.
  - destruct (calls s !! i) as [[input|sid req r|o]|] eqn:Hi; [done| |done..].
    apply settle_inv; [|done]. intros r' Hr'. destruct r as [r|].
    + eapply granted_agrees; [|exact Hr']. by apply (Hc i sid req r).
    + by destruct req.
Qed.

Lemma run_inv ls : service_inv (run ls).
Proof.
  induction ls as [|l ls IH] using rev_ind.
  - split; [done|]. intros i sid req r Hi. done.
  - unfold run. rewrite foldl_app. by apply step_inv.
Qed.

(** However calls interleave, a stored record agrees with its own audit
    trail: replaying the trail gives its status, tier, version, time of change
    and the window its cancellation takes effect in, and every entry fits the
    one before it. *)
Theorem audit_replays ls sid r :
  mget sid (records (run ls)) = Some r → id r = sid ∧ replay (audit r) = Some (terms r).
Proof. apply run_inv. Qed.

(** ** Calls that do not overlap *)

(** A call writes back over the record it read, and a new id is new. *)
Definition undisturbed (l : label) (s : Service) : Prop :=
  match l with
  | Validated _ _ newId _ _ => mget newId (records s) = None
  | Continue i _ _ =>
      ∀ sid req r, calls s !! i = Some (Loaded sid req r) → r = mget sid (records s)
  | _ => True
  end.

(** [r'] is [r] or a later state of it; a cancelled record has none. *)
Definition later (r r' : SubscriptionRecord) : Prop :=
  audit r `prefix_of` audit r' ∧ createdAt r' = createdAt r ∧ (status r = cancelled → r' = r).

Lemma later_refl r : later r r.
Proof. by split_and!. Qed.

Lemma later_trans r1 r2 r3 : later r1 r2 → later r2 r3 → later r1 r3.
Proof.
  intros (Hp & Hc & Hf) (Hp' & Hc' & Hf'). split_and!.
  - by etrans.
  - congruence.
  - intros Hx. specialize (Hf Hx). subst r2. auto.
Qed.

Lemma step_later l s sid r :
  service_inv s → undisturbed l s → mget sid (records s) = Some r →
  ∃ r', mget sid (records (step l s)) = Some r' ∧ later r r'.
Proof.
  intros [Hr _] Hu Hg.
  destruct l as [input|i rejected newId now window|sid' req|i now window]; cbn [step undisturbed] in *.
  - exists r. split; [done|apply later_refl].
  - destruct (calls s !! i) as [[input|? ? ?|o]|]; try (exists r; split; [done|apply later_refl]).
    exists r. split; [|apply later_refl]. destruct rejected; [done|]. cbn [settle records]. unfold put.
    rewrite mget_mset, decide_False; [done|]. cbn. congruence.
  - exists r. split; [done|apply later_refl].
  - destruct (calls s !! i) as [[input|sid' req r0|o]|];
      try (exists r; split; [done|apply later_refl]).
    specialize (Hu _ _ _ eq_refl). cbn [settle records].
    destruct (request_outcome req now window r0) as [r'|e] eqn:Ho;
      [|exists r; split; [done|apply later_refl]].
    destruct r0 as [r0|]; [|by destruct req]. symmetry in Hu.
    destruct (Hr _ _ Hu) as [Hid0 _]. apply granted in Ho as (Hid & Hst & Hcr & e & Hau & _).
    unfold put. rewrite mget_mset. case_decide as Heq.
    + exists r'. split; [done|]. assert (r0 = r) as -> by congruence.
      split_and!; [|done|done]. rewrite Hau. by apply prefix_app_r.
    + exists r. split; [done|apply later_refl].
Qed.

(** While no two calls on a subscription overlap, its audit trail is only
    appended to, and a cancelled subscription never changes again. *)
Theorem trail_append_only ls1 ls2 sid r :
  (∀ pre l post, ls2 = pre ++ l :: post → undisturbed l (run (ls1 ++ pre))) →
  mget sid (records (run ls1)) = Some r →
  ∃ r', mget sid (records (run (ls1 ++ ls2))) = Some r' ∧
    audit r `prefix_of` audit r' ∧ createdAt r' = createdAt r ∧
    (status r = cancelled → r' = r).
Proof.
  intros Hu Hg. change (∃ r', mget sid (records (run (ls1 ++ ls2))) = Some r' ∧ later r r').
  induction ls2 as [|l ls2 IH] using rev_ind.
  - rewrite app_nil_r. exists r. split; [done|apply later_refl].
  - destruct IH as (r1 & Hr1 & Hl1).
    { intros pre l' post ->. apply (Hu pre l' (post ++ [l])). by rewrite <-app_assoc. }
    destruct (step_later l (run (ls1 ++ ls2)) sid r1) as (r2 & Hr2 & Hl2).
    + apply run_inv.
    + by apply (Hu ls2 l []).
    + done.
    + exists r2. split; [|by eapply later_trans].
      rewrite app_assoc. unfold run. rewrite foldl_app. exact Hr2.
Qed.
End audit.

(** ** Listing *)

(** A subscriber's list holds exactly its stored records, newest first. *)
Lemma list_newest_first who m :
  store_listBySubscriber who m ≡ₚ base.filter (λ r, subscriber r = who) (mvals m) ∧
  StronglySorted (λ r r', (createdAt r' ≤ createdAt r)%Z) (store_listBySubscriber who m).
Proof.
  split; [apply sort_by_perm|]. unfold store_listBySubscriber.
  induction (sort_by_sorted (λ r, - createdAt r)%Z
    (base.filter (λ r, subscriber r = who) (mvals m))) as [|r l Hs IH Hf]; constructor; [done|].
  eapply Forall_impl; [exact Hf|]. unfold key_le. intros r' Hle. cbn in Hle. lia.
Qed.

(** ** Examples *)

Definition TIERS_today : TierId → TierDefinition :=
  match tier_table LATENCY_SENSITIVE_TIER_DEFAULT with
  | Ok t => t
  | Err _ => λ _, {| bounds := {| latencyBoundMs := 0; gracePeriodMs := 0; maxFeeMultiplier := 0 |};
                     pricePerWindowStroops := 0; registrable := false; enabledBy := "" |}
  end.

Example only_cheap_tier : registrableTiers TIERS_today = [time_insensitive].
Proof. reflexivity. Qed.

Definition sample_input : CreateSubscriptionInput :=
  {| in_subscriber := " acme "; in_offering := "payroll"; in_webhookTarget := "https://a.example/h";
     in_tier := time_insensitive |}.

Definition opened : list label :=
  [Create sample_input; Validated 0 false "s1" 1000 7].

Definition status_of (ls : list label) : option (SubscriptionStatus * list SubscriptionAction) :=
  (λ r, (status r, action <$> audit r)) <$> mget "s1" (records (run TIERS_today ls)).

Example one_after_the_other :
  status_of (opened ++ [Issue "s1" (Cancel None); Continue 1 2000 8;
                        Issue "s1" (Pause None); Continue 2 2001 8])
  = Some (cancelled, [act_create; act_cancel]).
Proof. reflexivity. Qed.

(** A pause that read its record before a cancellation was written undoes the
    cancellation, and the trail loses it. *)
Lemma cancellation_undone :
  status_of (opened ++ [Issue "s1" (Cancel None); Issue "s1" (Pause None);
                        Continue 1 2000 8; Continue 2 2001 8])
  = Some (paused, [act_create; act_pause]).
Proof. reflexivity. Qed.

(** With one tier for sale, no change of tier is granted. *)
Lemma change_tier_refused t reason now w loaded :
  tier <$> loaded = Some time_insensitive →
  is_ok (changeTier TIERS_today t reason now w loaded) = false.
Proof.
  destruct loaded as [r|]; [|done]. intros [= Ht]. cbn. case_decide; [done|].
  destruct t; cbn; [|done]. by rewrite decide_True.
Qed.

Lemma audit_replays_witness :
  ∃ r, mget "s1" (records (run TIERS_today (opened ++ [Issue "s1" (Cancel None); Continue 1 2000 8])))
       = Some r ∧
    replay (audit r) = Some (cancelled, time_insensitive, 1%Z, Some 9%Z, 2000%Z).
Proof.
  eexists. split; [reflexivity|].
  apply (audit_replays TIERS_today (opened ++ [Issue "s1" (Cancel None); Continue 1 2000 8]) "s1").
  reflexivity.
Defined.

Definition sample_record : SubscriptionRecord :=
  created {| in_subscriber := "acme"; in_offering := "payroll";
             in_webhookTarget := "https://a.example/h"; in_tier := time_insensitive |} "s1" 1000 7.

Lemma trail_append_only_witness :
  mget "s1" (records (run TIERS_today opened)) = Some sample_record ∧
  ∃ r', mget "s1" (records (run TIERS_today (opened ++ [Issue "s1" (Cancel None); Continue 1 2000 8])))
    = Some r' ∧ audit sample_record `prefix_of` audit r'.
Proof.
  split; [reflexivity|].
  destruct (trail_append_only TIERS_today opened
    [Issue "s1" (Cancel None); Continue 1 2000 8] "s1" sample_record) as (r' & Hr' & Hp & _).
  - intros [|l1 [|l2 [|l3 pre]]] l post Heq; simplify_eq/=; [done|]. by intros ? ? ? [= <- <- <-].
  - reflexivity.
  - exists r'. split; [exact Hr'|exact Hp].
Defined.
