(* ===== verification/Sponsorship.v ===== *)
(** * Sponsored fee bumps
    (packages/worker-core/src/sponsorshipPolicy.ts and Paymaster.ts)

    The spend controls, and the paymaster's [bump], which checks, builds and
    records without an await in between.  Parsing an envelope and building the
    fee bump belong to the Stellar SDK: what they answer is an argument. *)

From Stdlib Require Import Sorted.
From S2P Require Import Prelude.
From S2P Require Import Decimal.

(** ** Division of binary64 numbers

    The correctly rounded quotient of a natural number and a positive one,
    within the range of the format: [quotient_exponent] scales it so that its
    integer part has 53 bits. *)

Definition scaled (x e : Z) : Z := x * 2 ^ Z.max e 0.

Definition quotient_exponent (a b : Z) : Z :=
  let e := (52 - Z.log2 a + Z.log2 b)%Z in
  if (scaled a e / scaled b (- e) <? 2 ^ 52)%Z then (e + 1)%Z else e.

(** Round half to even. *)
Definition round_even (num den : Z) : Z :=
  let q := (num / den)%Z in
  let r := (num mod den)%Z in
  if (den <? 2 * r)%Z || ((2 * r =? den)%Z && Z.odd q) then (q + 1)%Z else q.

Definition rounded_quotient (a b : Z) : jsnum :=
  if (a =? 0)%Z then JFin 0 0
  else
    let e := quotient_exponent a b in
    JFin (scaled (round_even (scaled a e) (scaled b (- e))) (- e)) (Z.to_nat e).

(** [Number(z)] of a non-negative bigint. *)
Definition bigint_to_number (z : Z) : jsnum := rounded_quotient z 1.

(** [x / b] for a number and a positive integer literal. *)
Definition js_div (x : jsnum) (b : Z) : jsnum :=
  match x with JFin m k => rounded_quotient m (b * 2 ^ Z.of_nat k) | _ => x end.

(** [y >= x], false on [NaN]. *)
Definition js_ge (y x : jsnum) : bool :=
  match y, x with
  | JNaN, _ | _, JNaN => false
  | JInf true, JInf true => true
  | JInf true, _ => false
  | JInf false, _ => true
  | JFin _ _, JInf neg => neg
  | JFin m k, JFin m' k' => (m' * 2 ^ Z.of_nat k <=? m * 2 ^ Z.of_nat k')%Z
  end.

Example one_tenth : rounded_quotient 1 10 = JFin 7205759403792794 56.
Proof. reflexivity. Qed.

(** A numerator with at most 53 significant bits, as every double has. *)
Definition is_double (m : Z) : Prop :=
  ∃ m' j, m = (m' * 2 ^ j)%Z ∧ (0 ≤ j)%Z ∧ (Z.abs m' < 2 ^ 53)%Z.

Lemma pow_pos (e : Z) : (0 < 2 ^ Z.max e 0)%Z.
Proof. apply Z.pow_pos_nonneg; lia. Qed.

Lemma scaled_log a b :
  (0 < a)%Z → (0 < b)%Z →
  let e := (52 - Z.log2 a + Z.log2 b)%Z in
  (2 ^ 51 * scaled b (- e) < scaled a e)%Z.
Proof.
  intros Ha Hb e. unfold scaled.
  destruct (Z.log2_spec a Ha) as [Hla _]. destruct (Z.log2_spec b Hb) as [_ Hlb].
  pose proof (Z.log2_nonneg a). pose proof (Z.log2_nonneg b).
  pose proof (pow_pos e). pose proof (pow_pos (- e)).
  apply Z.lt_le_trans with (2 ^ 51 * (2 ^ Z.succ (Z.log2 b) * 2 ^ Z.max (- e) 0))%Z.
  - apply Z.mul_lt_mono_pos_l; [done|]. by apply Z.mul_lt_mono_pos_r.
  - apply Z.le_trans with (2 ^ Z.log2 a * 2 ^ Z.max e 0)%Z; [|by apply Z.mul_le_mono_pos_r].
    rewrite <-!Z.pow_add_r by lia. apply Z.pow_le_mono_r; lia.
Qed.

(** The integer part of the scaled quotient has its 53 bits. *)
Lemma quotient_bits a b :
  (0 < a)%Z → (0 < b)%Z →
  let e := quotient_exponent a b in (2 ^ 52 ≤ scaled a e / scaled b (- e))%Z.
Proof.
  intros Ha Hb. unfold quotient_exponent.
  pose proof (scaled_log a b Ha Hb) as Hlog. cbv zeta in Hlog |- *.
  set (e := (52 - Z.log2 a + Z.log2 b)%Z) in *.
  destruct (Z.ltb_spec (scaled a e / scaled b (- e)) (2 ^ 52)) as [_|Hge]; [|done].
  unfold scaled in *. pose proof (pow_pos e). pose proof (pow_pos (- e)).
  pose proof (pow_pos (e + 1)). pose proof (pow_pos (- (e + 1))).
  assert (2 ^ Z.max (e + 1) 0 * 2 ^ Z.max (- e) 0 =
          2 * (2 ^ Z.max e 0 * 2 ^ Z.max (- (e + 1)) 0))%Z as Hshift.
  { rewrite <-!Z.pow_add_r, <-Z.pow_succ_r by lia. f_equal. lia. }
  apply Z.div_le_lower_bound; [nia|].
  assert (2 ^ 51 * b * 2 ^ Z.max (- e) 0 < a * 2 ^ Z.max e 0)%Z as Hlog' by lia.
  revert Hshift Hlog' H H0 H1 H2. change (2 ^ 52)%Z with (2 * 2 ^ 51)%Z.
  generalize (2 ^ Z.max (e + 1) 0)%Z (2 ^ Z.max (- e) 0)%Z (2 ^ Z.max e 0)%Z
    (2 ^ Z.max (- (e + 1)) 0)%Z (2 ^ 51)%Z.
  intros x y z w c Hshift Hlog' Hz Hy Hx Hw.
  apply Z.lt_le_incl, (Z.mul_lt_mono_pos_r y); [done|].
  assert (a * x * y = 2 * w * (a * z))%Z as ->.
  { transitivity (a * (x * y))%Z; [ring|]. rewrite Hshift. ring. }
  replace (b * w * (2 * c) * y)%Z with (2 * w * (c * b * y))%Z by ring.
  apply Z.mul_lt_mono_pos_l; lia.
Qed.

Lemma round_even_ge num den : (0 < den)%Z → (num / den ≤ round_even num den)%Z.
Proof. unfold round_even. intros Hd. destruct (_ || _); lia. Qed.

(** Rounding does not cross a double from above. *)
Lemma rounded_ge a b m k :
  (0 ≤ a)%Z → (0 < b)%Z → is_double m → (m * b ≤ a * 2 ^ Z.of_nat k)%Z →
  js_ge (rounded_quotient a b) (JFin m k) = true.
Proof.
  intros Ha Hb (m' & j & Hm & Hj & Hbits) Hle. unfold rounded_quotient.
  assert (0 < 2 ^ Z.of_nat k)%Z as Hk by (apply Z.pow_pos_nonneg; lia).
  destruct (Z.eqb_spec a 0) as [->|Hne]; cbn [js_ge]; apply Z.leb_le; [cbn; nia|].
  pose proof (quotient_bits a b ltac:(lia) Hb) as Hq. cbv zeta in Hq.
  set (e := quotient_exponent a b) in *.
  assert (0 < scaled b (- e))%Z as HB by (unfold scaled; pose proof (pow_pos (- e)); nia).
  pose proof (round_even_ge (scaled a e) (scaled b (- e)) HB) as Hr.
  set (q := (scaled a e / scaled b (- e))%Z) in *.
  set (E := Z.max e 0) in *. set (E' := Z.max (- e) 0) in *.
  assert (2 ^ Z.of_nat (Z.to_nat e) = 2 ^ E)%Z as -> by (f_equal; lia).
  assert (0 < 2 ^ E)%Z as HE by apply pow_pos. assert (0 < 2 ^ E')%Z as HE' by apply pow_pos.
  unfold scaled at 1. fold E'.
  apply Z.le_trans with (q * (2 ^ Z.of_nat k * 2 ^ E'))%Z; [|nia].
  destruct (Z.le_gt_cases (Z.of_nat k + E') (j + E)) as [Hdiv|Hlt].
  - set (u := (m' * 2 ^ (j + E - (Z.of_nat k + E')))%Z).
    assert (m * 2 ^ E = u * (2 ^ Z.of_nat k * 2 ^ E'))%Z as Hu.
    { unfold u. rewrite Hm, <-!Z.mul_assoc, <-!Z.pow_add_r by lia. f_equal. f_equal. lia. }
    rewrite Hu. apply Z.mul_le_mono_nonneg_r; [nia|]. apply Z.div_le_lower_bound; [done|].
    apply (Z.mul_le_mono_pos_r _ _ (2 ^ Z.of_nat k * 2 ^ E')); [nia|].
    replace (scaled b (- e) * u * (2 ^ Z.of_nat k * 2 ^ E'))%Z
      with (scaled b (- e) * (m * 2 ^ E))%Z by (rewrite Hu; ring).
    unfold scaled. fold E E'.
    replace (b * 2 ^ E' * (m * 2 ^ E))%Z with (m * b * (2 ^ E * 2 ^ E'))%Z by ring.
    replace (a * 2 ^ E * (2 ^ Z.of_nat k * 2 ^ E'))%Z
      with (a * 2 ^ Z.of_nat k * (2 ^ E * 2 ^ E'))%Z by ring.
    apply Z.mul_le_mono_nonneg_r; [nia|done].
  - apply Z.le_trans with (2 ^ 52 * (2 ^ Z.of_nat k * 2 ^ E'))%Z; [|apply Z.mul_le_mono_nonneg_r; nia].
    rewrite Hm, <-Z.mul_assoc, <-!Z.pow_add_r by lia.
    apply Z.le_trans with (2 ^ 53 * 2 ^ (j + E))%Z.
    + apply Z.mul_le_mono_nonneg_r; [apply Z.pow_nonneg; lia|lia].
    + rewrite <-!Z.pow_add_r by lia. apply Z.pow_le_mono_r; lia.
Qed.

(** ** The policy (sponsorshipPolicy.ts) *)

Record SponsorshipPolicyConfig := {
  cfg_maxBumps : option Z;
  cfg_windowMs : option Z;
  cfg_maxFeePerBump : option Z;
  cfg_dailyXlmCeiling : option jsnum;
}.

Record ResolvedPolicy := {
  maxBumpsPerUserPerWindow : Z;
  windowMs : Z;
  maxFeePerBump : Z;
  dailyXlmCeiling : jsnum;
}.

Definition STROOP_PER_XLM : Z := 10000000.

Definition resolvePolicy (cfg : SponsorshipPolicyConfig) : ResolvedPolicy :=
  {| maxBumpsPerUserPerWindow := default 10%Z (cfg_maxBumps cfg);
     windowMs := default 60000%Z (cfg_windowMs cfg);
     maxFeePerBump := default 10000%Z (cfg_maxFeePerBump cfg);
     dailyXlmCeiling := default (jint 10) (cfg_dailyXlmCeiling cfg) |}.

(** Year, month and day of a number of days since 1970-01-01. *)
Definition civil (days : Z) : Z * Z * Z :=
  (let z := days + 719468 in
   let era := z / 146097 in
   let doe := z - era * 146097 in
   let yoe := (doe - doe / 1460 + doe / 36524 - doe / 146096) / 365 in
   let doy := doe - (365 * yoe + yoe / 4 - yoe / 100) in
   let mp := (5 * doy + 2) / 153 in
   let d := doy - (153 * mp + 2) / 5 + 1 in
   let m := if mp <? 10 then mp + 3 else mp - 9 in
   (yoe + era * 400 + (if m <=? 2 then 1 else 0), m, d))%Z.

Definition padded (width : nat) (z : Z) : string := pad_start width (pretty (Z.to_N z)).

(** The year of an ISO text: four digits, or a sign and six. *)
Definition iso_year (y : Z) : string :=
  if ((0 <=? y) && (y <=? 9999))%Z then padded 4 y
  else (if (y <? 0)%Z then "-" else "+") +:+ padded 6 (Z.abs y).

(** [new Date(nowMs).toISOString().slice(0, 10)] *)
Definition utcDateString (nowMs : Z) : string :=
  let '(y, m, d) := civil (nowMs / 86400000) in
  String.substring 0 10 (iso_year y +:+ "-" +:+ padded 2 m +:+ "-" +:+ padded 2 d).

Example epoch_date : utcDateString 0 = "1970-01-01".
Proof. reflexivity. Qed.
Example leap_day : utcDateString 951868799999 = "2000-02-29".
Proof. reflexivity. Qed.

Record DailySpend := { date : string; stroops : Z }.

Record SponsorshipPolicy := {
  buckets : gmap string (list Z);   (** the [timestamps] of each user *)
  daily : DailySpend;
}.

Definition new_policy : SponsorshipPolicy :=
  {| buckets := ∅; daily := {| date := ""; stroops := 0 |} |}.

Inductive PaymasterError :=
  | RateLimited (userId : string) (retryAfterMs : option Z)   (** [None] is NaN *)
  | FeeTooHigh (requestedFee maxFee : Z)
  | FloatExhausted (dailySpentXlm ceilingXlm : jsnum)
  | InvalidInnerTransaction
  | SelfWrap (operatorAddress : string)
  | BuildFailed.

Section policy.
Context (policy : ResolvedPolicy).

Definition recent (nowMs : Z) (timestamps : list Z) : list Z :=
  base.filter (λ t, nowMs - windowMs policy < t)%Z timestamps.

Definition checkRateLimit (userId : string) (nowMs : Z) (p : SponsorshipPolicy)
    : result PaymasterError unit :=
  match buckets p !! userId with
  | None => Ok tt
  | Some timestamps =>
      let r := recent nowMs timestamps in
      if (maxBumpsPerUserPerWindow policy <=? Z.of_nat (length r))%Z then
        match r with
        | oldest :: _ => Err (RateLimited userId (Some (Z.max 0 (oldest + windowMs policy - nowMs))))
        | [] => Err (RateLimited userId None)
        end
      else Ok tt
  end.

Definition checkFeeCap (requestedBaseFee : Z) : result PaymasterError unit :=
  reject_if (maxFeePerBump policy <? requestedBaseFee)%Z
    (FeeTooHigh requestedBaseFee (maxFeePerBump policy)).

Definition spent_xlm (stroops : Z) : jsnum := js_div (bigint_to_number stroops) STROOP_PER_XLM.

Definition spent_today (nowMs : Z) (p : SponsorshipPolicy) : Z :=
  if String.eqb (date (daily p)) (utcDateString nowMs) then stroops (daily p) else 0%Z.

Definition checkDailyFloat (nowMs : Z) (p : SponsorshipPolicy) : result PaymasterError unit :=
  let spentXlm := spent_xlm (spent_today nowMs p) in
  reject_if (js_ge spentXlm (dailyXlmCeiling policy)) (FloatExhausted spentXlm (dailyXlmCeiling policy)).

Definition check (userId : string) (requestedBaseFee nowMs : Z) (p : SponsorshipPolicy)
    : result PaymasterError unit :=
  _ ← checkRateLimit userId nowMs p;
  _ ← checkFeeCap requestedBaseFee;
  checkDailyFloat nowMs p.

Definition recordRateLimit (userId : string) (nowMs : Z) (p : SponsorshipPolicy)
    : SponsorshipPolicy :=
  {| buckets := <[userId := recent nowMs (default [] (buckets p !! userId)) ++ [nowMs]]> (buckets p);
     daily := daily p |}.

Definition recordDailySpend (totalFeeStroops nowMs : Z) (p : SponsorshipPolicy)
    : SponsorshipPolicy :=
  {| buckets := buckets p;
     daily := {| date := utcDateString nowMs;
                 stroops := spent_today nowMs p + totalFeeStroops |} |}.

Definition record (userId : string) (totalFeeStroops nowMs : Z) (p : SponsorshipPolicy)
    : SponsorshipPolicy :=
  recordDailySpend totalFeeStroops nowMs (recordRateLimit userId nowMs p).

(** ** The paymaster (Paymaster.ts) *)

(** What [TransactionBuilder.fromXDR] makes of an envelope. *)
Record InnerTx := {
  source : string;
  isFeeBump : bool;
  operations : nat;
  signatures : nat;
}.

Record BumpInput := {
  inner : option InnerTx;          (** [None] when parsing throws *)
  baseFee : Z;
}.

(** [#parseInner]. *)
Definition parseInner (input : BumpInput) : result PaymasterError InnerTx :=
  match inner input with
  | None => Err InvalidInnerTransaction
  | Some tx =>
      _ ← reject_if (isFeeBump tx) InvalidInnerTransaction;
      _ ← reject_if (operations tx =? 0) InvalidInnerTransaction;
      _ ← reject_if (signatures tx =? 0) InvalidInnerTransaction;
      mret tx
  end.

(** [buildFee] is what building the fee bump does: the fee of the envelope, or
    [None] when the SDK throws.  The result is the fee and the user charged. *)
Definition bump (operatorAddress : string) (input : BumpInput) (buildFee : option Z) (nowMs : Z)
    : method SponsorshipPolicy PaymasterError (Z * string) :=
  innerTx ← lift_result (parseInner input);
  _ ← throw_if (String.eqb (source innerTx) operatorAddress) (SelfWrap operatorAddress);
  p ← gets (λ p, p);
  _ ← lift_result (check (source innerTx) (baseFee input) nowMs p);
  totalFeeStroops ← lift_result (match buildFee with Some f => Ok f | None => Err BuildFailed end);
  _ ← modify (record (source innerTx) totalFeeStroops nowMs);
  mret (totalFeeStroops, source innerTx).

(** ** Requests in the order they arrive *)

Record Attempt := { input : BumpInput; buildFee : option Z; at_ : Z }.
Record Grant := { user : string; granted_at : Z; fee : Z }.

Definition attempt (operator : string) (st : SponsorshipPolicy * list Grant) (a : Attempt)
    : SponsorshipPolicy * list Grant :=
  let '(r, p) := bump operator (input a) (buildFee a) (at_ a) st.1 in
  (p, st.2 ++ match r with
              | Ok (f, u) => [{| user := u; granted_at := at_ a; fee := f |}]
              | Err _ => []
              end).

Definition run (operator : string) (l : list Attempt) : SponsorshipPolicy * list Grant :=
  foldl (attempt operator) (new_policy, []) l.

Lemma bump_spec operator i f now p :
  match bump operator i f now p with
  | (Ok (total, u), p') =>
      p' = record u total now p ∧ check u (baseFee i) now p = Ok tt ∧ u ≠ operator ∧ f = Some total
  | (Err _, p') => p' = p
  end.
Proof.
  unfold bump, throw_if, mbind, method_bind, lift_result, gets, modify, mret, method_ret.
  destruct (parseInner i) as [tx|e]; [|done].
  destruct (String.eqb_spec (source tx) operator) as [|Hne]; cbn [reject_if]; [done|].
  destruct (check (source tx) (baseFee i) now p) as [[]|e] eqn:Hc; [|done].
  by destruct f.
Qed.

(** *** The rate limit *)

Definition times (u : string) (gs : list Grant) : list Z :=
  granted_at <$> base.filter (λ g, user g = u) gs.

(** The bucket of a user holds the grants of the window, as of any later time. *)
Definition buckets_inv (now : Z) (p : SponsorshipPolicy) (gs : list Grant) : Prop :=
  ∀ u now', (now ≤ now')%Z →
    recent now' (default [] (buckets p !! u)) = recent now' (times u gs).

Lemma recent_recent now now' l :
  (now ≤ now')%Z → recent now' (recent now l) = recent now' l.
Proof.
  intros Hle. unfold recent. rewrite list_filter_filter. apply list_filter_iff.
  intros t. lia.
Qed.

Lemma times_snoc u gs g :
  times u (gs ++ [g]) = times u gs ++ (if decide (user g = u) then [granted_at g] else []).
Proof.
  unfold times. rewrite filter_app, fmap_app. f_equal. rewrite filter_cons, filter_nil.
  by case_decide.
Qed.

Lemma recent_app now l l' : recent now (l ++ l') = recent now l ++ recent now l'.
Proof. apply filter_app. Qed.

Lemma buckets_record now p gs u f at0 :
  (now ≤ at0)%Z → buckets_inv now p gs →
  buckets_inv at0 (record u f at0 p) (gs ++ [{| user := u; granted_at := at0; fee := f |}]).
Proof.
  intros Hle Hinv v now' Hle'. cbn [buckets record recordDailySpend recordRateLimit].
  rewrite times_snoc. cbn [user granted_at]. case_decide as Heq.
  - subst v. rewrite lookup_insert_eq. unfold default at 1. cbn [id].
    rewrite !recent_app, recent_recent by done. f_equal. apply Hinv. lia.
  - rewrite lookup_insert_ne by done. rewrite app_nil_r. apply Hinv. lia.
Qed.

(** The grants of a user in the window that ends at [t]. *)
Definition in_window (u : string) (t : Z) (gs : list Grant) : list Z :=
  base.filter (λ s, t - windowMs policy < s ∧ s ≤ t)%Z (times u gs).

Definition limited (gs : list Grant) : Prop :=
  ∀ u t, (Z.of_nat (length (in_window u t gs)) ≤ Z.max 1 (maxBumpsPerUserPerWindow policy))%Z.

Lemma length_filter_impl {A} (P Q : A → Prop) `{∀ x, Decision (P x), ∀ x, Decision (Q x)} l :
  (∀ x, x ∈ l → P x → Q x) → length (base.filter P l) ≤ length (base.filter Q l).
Proof.
  induction l as [|x l IH]; intros HPQ; [done|]. rewrite !filter_cons.
  assert (length (base.filter P l) ≤ length (base.filter Q l)) by (apply IH; set_solver).
  case_decide as HP; case_decide as HQ; cbn; try lia. destruct HQ. apply HPQ; [left|done].
Qed.

Definition rate_inv (now : Z) (st : SponsorshipPolicy * list Grant) : Prop :=
  buckets_inv now st.1 st.2 ∧
  (∀ u, buckets st.1 !! u = None → times u st.2 = []) ∧
  (∀ g, g ∈ st.2 → (granted_at g ≤ now)%Z) ∧
  limited st.2.

(** A grant that passed the check keeps its user within the limit. *)
Lemma limited_grant now p gs u f at0 :
  (now ≤ at0)%Z → rate_inv now (p, gs) → checkRateLimit u at0 p = Ok tt →
  limited (gs ++ [{| user := u; granted_at := at0; fee := f |}]).
Proof.
  intros Hle (Hb & Hnone & Htimes & Hlim) Hcheck v t. cbn [fst snd] in *.
  unfold in_window. rewrite times_snoc, filter_app, length_app. cbn [user granted_at].
  case_decide as Heq; [|rewrite filter_nil; cbn; rewrite Nat.add_0_r; apply Hlim]. subst v.
  rewrite filter_cons, filter_nil. case_decide as Hin; cbn [length];
    [|rewrite Nat.add_0_r; apply Hlim].
  assert (length (base.filter (λ s, t - windowMs policy < s ∧ s ≤ t)%Z (times u gs)) ≤
          length (recent at0 (times u gs))) as Hcount.
  { apply length_filter_impl. intros s _ [Hs _]. lia. }
  unfold checkRateLimit in Hcheck. destruct (buckets p !! u) as [ts|] eqn:Hts.
  - specialize (Hb u at0 Hle). rewrite Hts in Hb. cbn [default id] in Hb. unfold default in Hb.
    cbn [id] in Hb. rewrite Hb in Hcheck.
    destruct (Z.leb_spec (maxBumpsPerUserPerWindow policy)
      (Z.of_nat (length (recent at0 (times u gs))))) as [_|Hlt].
    + by destruct (recent at0 (times u gs)).
    + lia.
  - rewrite (Hnone u Hts) in *. cbn in *. lia.
Qed.

Lemma rate_step operator now st a :
  (now ≤ at_ a)%Z → rate_inv now st → rate_inv (at_ a) (attempt operator st a).
Proof.
  intros Hle Hinv. destruct st as [p gs]. unfold attempt. cbn [fst snd].
  pose proof (bump_spec operator (input a) (buildFee a) (at_ a) p) as Hspec.
  destruct (bump operator (input a) (buildFee a) (at_ a) p) as [[[f u]|e] p'].
  - destruct Hspec as (-> & Hcheck & _). unfold check in Hcheck.
    apply result_bind_Ok in Hcheck as ([] & Hrate & _).
    pose proof Hinv as (Hb & Hnone & Htimes & Hlim). cbn [fst snd] in *. split_and!; cbn [fst snd].
    + by eapply buckets_record.
    + intros v. cbn [buckets record recordDailySpend recordRateLimit]. rewrite times_snoc. cbn [user].
      case_decide as Heq; [subst v; by rewrite lookup_insert_eq|].
      rewrite lookup_insert_ne by done. rewrite app_nil_r. apply Hnone.
    + intros g [Hg| ->%list_elem_of_singleton]%elem_of_app; [|done]. specialize (Htimes g Hg). lia.
    + by eapply limited_grant.
  - subst p'. rewrite app_nil_r. destruct Hinv as (Hb & Hnone & Htimes & Hlim). cbn [fst snd] in *.
    split_and!; cbn [fst snd]; [|done| |done].
    + intros u now' Hle'. apply Hb. lia.
    + intros g Hg. specialize (Htimes g Hg). lia.
Qed.

(** *** The daily float *)

Definition day (t : Z) : Z := (t / 86400000)%Z.

(** What was granted on a day. *)
Definition day_total (d : Z) (gs : list Grant) : Z :=
  foldr Z.add 0%Z (fee <$> base.filter (λ g, day (granted_at g) = d) gs).

Lemma day_total_snoc d gs g :
  day_total d (gs ++ [g]) = (day_total d gs + if decide (day (granted_at g) = d) then fee g else 0)%Z.
Proof.
  unfold day_total. rewrite filter_app, fmap_app, foldr_app, filter_cons, filter_nil.
  assert (∀ l z, foldr Z.add z l = foldr Z.add 0 l + z)%Z as Hz.
  { intros l z. induction l as [|x l IH]; cbn; lia. }
  case_decide; cbn; rewrite Hz; lia.
Qed.

Lemma spent_same_day now now' p : day now = day now' → spent_today now p = spent_today now' p.
Proof. unfold spent_today, utcDateString, day. by intros ->. Qed.

Lemma rounded_nonneg a b : (0 ≤ a)%Z → (0 < b)%Z →
  ∃ m k, rounded_quotient a b = JFin m k ∧ (0 ≤ m)%Z.
Proof.
  intros Ha Hb. unfold rounded_quotient. destruct (Z.eqb_spec a 0) as [|Hne]; [by exists 0%Z, 0|].
  eexists _, _. split; [done|]. unfold scaled at 1.
  pose proof (pow_pos (- - quotient_exponent a b)).
  pose proof (pow_pos (- quotient_exponent a b)).
  assert (0 < scaled b (- quotient_exponent a b))%Z as HB by (unfold scaled; nia).
  pose proof (round_even_ge (scaled a (quotient_exponent a b)) _ HB) as Hr.
  pose proof (quotient_bits a b ltac:(lia) Hb) as Hq. cbv zeta in Hq.
  apply Z.mul_nonneg_nonneg; [|lia]. lia.
Qed.

(** The float is reported as exhausted once the ceiling is spent. *)
Lemma exhausted s m k :
  (0 ≤ s)%Z → is_double m → (m * STROOP_PER_XLM ≤ 2 ^ 53 * 2 ^ Z.of_nat k)%Z →
  (m * STROOP_PER_XLM ≤ s * 2 ^ Z.of_nat k)%Z →
  js_ge (spent_xlm s) (JFin m k) = true.
Proof.
  intros Hs Hm Hmax Hle. unfold spent_xlm, bigint_to_number.
  set (c := Z.min s (2 ^ 53)).
  assert (is_double c) as Hc.
  { unfold c. destruct (Z.le_gt_cases (2 ^ 53) s).
    - exists (2 ^ 52)%Z, 1%Z. rewrite Z.min_r by done. split_and!; [done|lia|].
      change (Z.abs (2 ^ 52)) with (2 ^ 52)%Z. apply Z.pow_lt_mono_r; lia.
    - exists s, 0%Z. rewrite Z.min_l by lia. split_and!; lia. }
  pose proof (rounded_ge s 1 c 0 Hs ltac:(lia) Hc) as H1.
  destruct (rounded_nonneg s 1 Hs ltac:(lia)) as (n & j & Hn & Hn0). rewrite Hn in *.
  cbn [js_ge js_div] in *. change (2 ^ Z.of_nat 0)%Z with 1%Z in H1.
  specialize (H1 ltac:(lia)). apply Z.leb_le in H1.
  assert (0 < 2 ^ Z.of_nat j)%Z by (apply Z.pow_pos_nonneg; lia).
  assert (0 < 2 ^ Z.of_nat k)%Z by (apply Z.pow_pos_nonneg; lia).
  apply rounded_ge; [done|unfold STROOP_PER_XLM; nia|done|].
  assert (m * STROOP_PER_XLM ≤ c * 2 ^ Z.of_nat k)%Z as Hmc.
  { unfold c. destruct (Z.min_spec s (2 ^ 53)) as [[_ ->]|[_ ->]]; done. }
  rewrite Z.mul_assoc.
  apply Z.le_trans with (c * 2 ^ Z.of_nat k * 2 ^ Z.of_nat j)%Z; nia.
Qed.

(** Before each grant of a day the day's total was below [m / 2^k] XLM. *)
Definition below (m : Z) (k : nat) (gs : list Grant) : Prop :=
  ∀ i g, gs !! i = Some g →
    (day_total (day (granted_at g)) (take i gs) * 2 ^ Z.of_nat k < m * STROOP_PER_XLM)%Z.

Definition float_inv (m : Z) (k : nat) (now : Z) (st : SponsorshipPolicy * list Grant) : Prop :=
  (0 ≤ stroops (daily st.1))%Z ∧
  (∀ now', now ≤ now' → day_total (day now') st.2 ≤ spent_today now' st.1)%Z ∧
  (∀ g, g ∈ st.2 → (granted_at g ≤ now)%Z) ∧
  below m k st.2.

Lemma spent_nonneg now p : (0 ≤ stroops (daily p))%Z → (0 ≤ spent_today now p)%Z.
Proof. unfold spent_today. by case_match. Qed.

Lemma spent_record u f at0 p now' :
  spent_today now' (record u f at0 p) =
  if String.eqb (utcDateString at0) (utcDateString now') then (spent_today at0 p + f)%Z else 0%Z.
Proof. done. Qed.

Lemma day_total_none d gs : (∀ g, g ∈ gs → day (granted_at g) ≠ d) → day_total d gs = 0%Z.
Proof.
  intros Hno. unfold day_total.
  destruct (base.filter (λ g, day (granted_at g) = d) gs) as [|g l] eqn:Hl; [done|].
  assert (g ∈ base.filter (λ g, day (granted_at g) = d) gs) as [Hg Hin]%list_elem_of_filter
    by (rewrite Hl; left).
  by destruct (Hno g).
Qed.

Lemma below_snoc m k gs g :
  below m k gs → (day_total (day (granted_at g)) gs * 2 ^ Z.of_nat k < m * STROOP_PER_XLM)%Z →
  below m k (gs ++ [g]).
Proof.
  intros Hb Hg i g' [Hi|[Hlen Hi]]%lookup_app_Some.
  - rewrite take_app_le; [by apply Hb|]. apply lookup_lt_Some in Hi. lia.
  - apply list_lookup_singleton_Some in Hi as [Hi ->].
    replace i with (length gs) by lia. by rewrite take_app_length.
Qed.

Lemma float_step m k operator now st a :
  dailyXlmCeiling policy = JFin m k → is_double m →
  (m * STROOP_PER_XLM ≤ 2 ^ 53 * 2 ^ Z.of_nat k)%Z →
  (now ≤ at_ a)%Z → (∀ f, buildFee a = Some f → (0 ≤ f)%Z) →
  float_inv m k now st → float_inv m k (at_ a) (attempt operator st a).
Proof.
  intros Hceil Hm Hmax Hle Hfee (Hpos & Hspent & Htimes & Hbelow). destruct st as [p gs].
  unfold attempt. cbn [fst snd] in *.
  pose proof (bump_spec operator (input a) (buildFee a) (at_ a) p) as Hspec.
  destruct (bump operator (input a) (buildFee a) (at_ a) p) as [[[f u]|e] p'].
  2:{ subst p'. rewrite app_nil_r. split_and!; cbn [fst snd]; [done| | |done].
      - intros now' ?. apply Hspent. lia.
      - intros g Hg. specialize (Htimes g Hg). lia. }
  destruct Hspec as (-> & Hcheck & _ & Hf). specialize (Hfee f Hf).
  unfold check in Hcheck. apply result_bind_Ok in Hcheck as ([] & _ & Hcheck).
  apply result_bind_Ok in Hcheck as ([] & _ & Hfloat). unfold checkDailyFloat in Hfloat.
  apply reject_if_Ok in Hfloat. rewrite Hceil in Hfloat.
  pose proof (spent_nonneg (at_ a) p Hpos) as Hsp.
  assert (spent_today (at_ a) p * 2 ^ Z.of_nat k < m * STROOP_PER_XLM)%Z as Hlt.
  { apply Z.lt_nge. intros Hge. by rewrite (exhausted _ m k Hsp Hm Hmax Hge) in Hfloat. }
  split_and!; cbn [fst snd].
  - change (0 ≤ spent_today (at_ a) p + f)%Z. lia.
  - intros now' Hle'. rewrite day_total_snoc, spent_record. cbn [granted_at fee].
    case_decide as Hd.
    + assert (utcDateString (at_ a) = utcDateString now') as ->.
      { unfold utcDateString. unfold day in Hd. by rewrite Hd. }
      rewrite String.eqb_refl. rewrite (spent_same_day (at_ a) now' p Hd).
      specialize (Hspent now' ltac:(lia)). lia.
    + rewrite day_total_none.
      * case_match; lia.
      * intros g Hg. specialize (Htimes g Hg). unfold day in *.
        assert (granted_at g / 86400000 ≤ at_ a / 86400000)%Z by (apply Z.div_le_mono; lia).
        assert (at_ a / 86400000 ≤ now' / 86400000)%Z by (apply Z.div_le_mono; lia). lia.
  - intros g [Hg| ->%list_elem_of_singleton]%elem_of_app; [|done]. specialize (Htimes g Hg). lia.
  - apply below_snoc; [done|]. cbn [granted_at]. specialize (Hspent (at_ a) Hle).
    assert (0 < 2 ^ Z.of_nat k)%Z by (apply Z.pow_pos_nonneg; lia). nia.
Qed.

(** An invariant that each attempt carries to its own time holds in the end. *)
Lemma run_induct (I : Z → SponsorshipPolicy * list Grant → Prop) operator now l st :
  (∀ now st a, a ∈ l → (now ≤ at_ a)%Z → I now st → I (at_ a) (attempt operator st a)) →
  Forall (λ a, now ≤ at_ a)%Z l → StronglySorted (λ a b, at_ a ≤ at_ b)%Z l →
  I now st → ∃ now', I now' (foldl (attempt operator) st l).
Proof.
  intros Hstep Hnow Hs. revert now st Hstep Hnow. induction Hs as [|a l Hs IH Hf];
    intros now st Hstep Hnow HI; cbn; [by exists now|].
  apply Forall_cons in Hnow as [Ha _]. apply (IH (at_ a)); [|done|].
  - intros now' st' a' Ha'. apply Hstep. by right.
  - apply (Hstep now); [left|done|done].
Qed.
End policy.

Lemma earliest (l : list Attempt) : ∃ now, Forall (λ a, now ≤ at_ a)%Z l.
Proof.
  induction l as [|a l [now IH]]; [by exists 0%Z|]. exists (Z.min now (at_ a)).
  constructor; [lia|]. eapply Forall_impl; [exact IH|]. intros b Hb. cbn in Hb. lia.
Qed.

(** However many bumps are asked for, in the order of their times, a user is
    granted at most [maxBumpsPerUserPerWindow] of them (or one, where that is
    less) within any window of [windowMs]. *)
Theorem bumps_rate_limited cfg operator l u t :
  StronglySorted (λ a b, at_ a ≤ at_ b)%Z l →
  let policy := resolvePolicy cfg in
  (Z.of_nat (length (in_window policy u t (run policy operator l).2)) ≤
   Z.max 1 (maxBumpsPerUserPerWindow policy))%Z.
Proof.
  intros Hs policy. destruct (earliest l) as [now Hnow].
  destruct (run_induct policy (rate_inv policy) operator now l (new_policy, [])) as (now' & Hinv);
    [|done|done| |].
  - intros ??? _. apply rate_step.
  - split_and!; cbn; [done|done| |].
    + intros g Hg. by apply not_elem_of_nil in Hg.
    + intros u' t'. cbn. lia.
  - apply Hinv.
Qed.

(** Before each bump that is granted, what was granted earlier on the same
    UTC day is below the daily ceiling, although the comparison is made on
    rounded numbers: for any ceiling that is a double of at most nine hundred
    million XLM. *)
Theorem daily_float_kept cfg operator l m k i g :
  StronglySorted (λ a b, at_ a ≤ at_ b)%Z l →
  Forall (λ a, ∀ f, buildFee a = Some f → (0 ≤ f)%Z) l →
  let policy := resolvePolicy cfg in
  dailyXlmCeiling policy = JFin m k → is_double m →
  (m * STROOP_PER_XLM ≤ 2 ^ 53 * 2 ^ Z.of_nat k)%Z →
  (run policy operator l).2 !! i = Some g →
  (day_total (day (granted_at g)) (take i (run policy operator l).2) * 2 ^ Z.of_nat k <
   m * STROOP_PER_XLM)%Z.
Proof.
  intros Hs Hfees policy Hceil Hm Hmax Hi. destruct (earliest l) as [now Hnow].
  destruct (run_induct policy (float_inv m k) operator now l (new_policy, []))
    as (now' & _ & _ & _ & Hbelow); [|done|done| |by apply Hbelow].
  - intros now' st a Ha Hle. apply float_step; try done. rewrite Forall_forall in Hfees. by apply Hfees.
  - split_and!; cbn; [done| | |done].
    + intros now' _. unfold spent_today. cbn. case_match; done.
    + intros g' Hg. by apply not_elem_of_nil in Hg.
Qed.

(** ** Examples *)

Definition sample_bump (u : string) (fee now : Z) : Attempt :=
  {| input := {| inner := Some {| source := u; isFeeBump := false; operations := 1; signatures := 1 |};
                 baseFee := fee |};
     buildFee := Some (2 * fee)%Z; at_ := now |}.

Definition sample_config : SponsorshipPolicyConfig :=
  {| cfg_maxBumps := Some 2%Z; cfg_windowMs := None; cfg_maxFeePerBump := Some 60000000%Z;
     cfg_dailyXlmCeiling := None |}.

Definition sample_bumps : list Attempt :=
  [sample_bump "G1" 100 1000; sample_bump "G1" 100 2000; sample_bump "G1" 100 3000;
   sample_bump "G2" 50000000 4000; sample_bump "G2" 100 5000]%Z.

(** The third bump of G1 is over the rate; the bump of ten XLM is granted with
    four hundred stroops spent, and the last one meets an exhausted float. *)
Example sample_grants :
  granted_at <$> (run (resolvePolicy sample_config) "GOP" sample_bumps).2 = [1000; 2000; 4000]%Z.
Proof. vm_compute. reflexivity. Qed.

(** One bump can take the day's total past the ceiling. *)
Lemma ceiling_overshot :
  day_total 0 (run (resolvePolicy sample_config) "GOP" sample_bumps).2 = 100000400%Z ∧
  (10 * STROOP_PER_XLM < 100000400)%Z.
Proof. split; [vm_compute; reflexivity|done]. Qed.

(** A ceiling that is not a number never stops a bump. *)
Lemma nan_ceiling_unbounded cfg now p :
  cfg_dailyXlmCeiling cfg = Some JNaN → checkDailyFloat (resolvePolicy cfg) now p = Ok tt.
Proof.
  intros Hcfg. unfold checkDailyFloat, resolvePolicy. rewrite Hcfg. cbn [dailyXlmCeiling default id].
  unfold default. cbn [id]. by destruct (spent_xlm _) as [|[]|].
Qed.

(** A limit of no bumps lets a user's first one through. *)
Lemma first_bump_unlimited pol now u p :
  buckets p !! u = None → checkRateLimit pol u now p = Ok tt.
Proof. unfold checkRateLimit. by intros ->. Qed.

Lemma bumps_rate_limited_witness :
  StronglySorted (λ a b, at_ a ≤ at_ b)%Z sample_bumps ∧
  (Z.of_nat (length (in_window (resolvePolicy sample_config) "G1" 3000%Z
     (run (resolvePolicy sample_config) "GOP" sample_bumps).2)) ≤ 2)%Z.
Proof.
  assert (StronglySorted (λ a b, at_ a ≤ at_ b)%Z sample_bumps) as Hs
    by (repeat (constructor; [|repeat constructor; cbn; lia]); constructor).
  split; [exact Hs|].
  exact (bumps_rate_limited sample_config "GOP" sample_bumps "G1" 3000%Z Hs).
Defined.

Lemma daily_float_kept_witness :
  ∃ g, (run (resolvePolicy sample_config) "GOP" sample_bumps).2 !! 2 = Some g ∧
    (day_total (day (granted_at g))
       (take 2 (run (resolvePolicy sample_config) "GOP" sample_bumps).2) * 2 ^ Z.of_nat 0 <
     10 * STROOP_PER_XLM)%Z.
Proof.
  exists {| user := "G2"; granted_at := 4000%Z; fee := 100000000%Z |}.
  split; [vm_compute; reflexivity|].
  apply (daily_float_kept sample_config "GOP" sample_bumps 10 0 2).
  - repeat (constructor; [|repeat constructor; cbn; lia]). constructor.
  - repeat (constructor; [intros f [= <-]; done|]). constructor.
  - reflexivity.
  - exists 10%Z, 0%Z. split_and!; done.
  - unfold STROOP_PER_XLM. cbn. lia.
  - vm_compute. reflexivity.
Defined.
