(* ===== verification/Anchor.v ===== *)
(** * Anchor transactions
    (packages/anchor-sdk/src/sep24StatusMachine.ts, statusMachine.ts and
    normalizeAnchorEvent.ts)

    The SEP-24 and SEP-31 status machines and the events their statuses become.
    The current time and the cached date of an event are left to the caller. *)

From Stdlib Require Import Sorted.
From S2P Require Import Prelude.

(** ** SEP-24 *)

Inductive Sep24Status :=
  | incomplete | pending_user_transfer_start | pending_user_transfer_complete | pending_external
  | pending_anchor | pending_stellar | pending_trust | pending_user | completed | refunded
  | expired | no_market | too_small | too_large | error.

#[export] Instance Sep24Status_eq_dec : EqDecision Sep24Status.
Proof. solve_decision. Defined.

Definition SEP24_TERMINAL_STATUSES : list Sep24Status :=
  [completed; refunded; expired; no_market; too_small; too_large; error].

Definition TRANSITIONS (s : Sep24Status) : list Sep24Status :=
  match s with
  | incomplete =>
      [pending_user_transfer_start; pending_anchor; pending_user; pending_trust; expired; too_small;
       too_large; no_market; error]
  | pending_user_transfer_start =>
      [pending_user_transfer_complete; pending_anchor; pending_external; pending_stellar;
       pending_trust; pending_user; completed; refunded; expired; error]
  | pending_user_transfer_complete =>
      [pending_anchor; pending_external; pending_stellar; completed; refunded; error]
  | pending_external => [pending_anchor; pending_stellar; completed; refunded; error]
  | pending_anchor =>
      [pending_stellar; pending_trust; pending_user; pending_external; completed; refunded; error]
  | pending_stellar => [pending_trust; pending_anchor; completed; refunded; error]
  | pending_trust => [pending_stellar; pending_anchor; completed; refunded; error]
  | pending_user => [pending_anchor; pending_stellar; completed; refunded; expired; error]
  | completed | refunded | expired | no_market | too_small | too_large | error => []
  end.

Record Sep24StatusMachine := { status : Sep24Status; seen : list Sep24Status }.

Inductive Sep24Error := InvalidSep24Transition (from to : Sep24Status).

Definition new_machine (initialStatus : Sep24Status) : Sep24StatusMachine :=
  {| status := initialStatus; seen := [initialStatus] |}.

Definition isTerminal (m : Sep24StatusMachine) : bool :=
  bool_decide (status m ∈ SEP24_TERMINAL_STATUSES).

Definition canTransitionTo (next : Sep24Status) (m : Sep24StatusMachine) : bool :=
  bool_decide (next = status m) || bool_decide (next ∈ TRANSITIONS (status m)).

Definition transitionTo (next : Sep24Status) : method Sep24StatusMachine Sep24Error bool :=
  m ← gets (λ m, m);
  if bool_decide (next = status m) then mret false
  else
    _ ← throw_if (negb (canTransitionTo next m)) (InvalidSep24Transition (status m) next);
    _ ← modify (λ m, {| status := next; seen := seen m ++ [next] |});
    mret true.

(** The statuses an anchor reports, one call after the other; a call that
    throws leaves the machine as it was. *)
Definition follow (reports : list Sep24Status) (m : Sep24StatusMachine) : Sep24StatusMachine :=
  foldl (λ m next, (transitionTo next m).2) m reports.

(** ** SEP-31 *)

Inductive Sep31Status :=
  | p31_sender | p31_stellar | p31_transaction_info_update | p31_receiver | p31_external
  | s31_completed | s31_error.

#[export] Instance Sep31Status_eq_dec : EqDecision Sep31Status.
Proof. solve_decision. Defined.

Definition SEP31_TRANSITIONS (s : Sep31Status) : list Sep31Status :=
  match s with
  | p31_sender => [p31_stellar; p31_transaction_info_update; s31_error]
  | p31_transaction_info_update => [p31_sender; p31_stellar; s31_error]
  | p31_stellar => [p31_receiver; p31_external; s31_completed; s31_error]
  | p31_receiver => [p31_external; s31_completed; s31_error]
  | p31_external => [s31_completed; s31_error]
  | s31_completed | s31_error => []
  end.

Inductive Sep31Error := InvalidStatusTransition (from to : Sep31Status).

(** The machine of SEP-31 is its status. *)
Definition sep31_transitionTo (nextStatus : Sep31Status) : method Sep31Status Sep31Error unit :=
  s ← gets (λ s, s);
  if bool_decide (s = nextStatus) then mret tt
  else
    _ ← throw_if (negb (bool_decide (nextStatus ∈ SEP31_TRANSITIONS s)))
          (InvalidStatusTransition s nextStatus);
    modify (λ _, nextStatus).

(** ** Events *)

Inductive AnchorFlowStage := initiated | pending | stage_completed | stage_refunded | failed.

#[export] Instance AnchorFlowStage_eq_dec : EqDecision AnchorFlowStage.
Proof. solve_decision. Defined.

Definition sep24Stage (s : Sep24Status) : AnchorFlowStage :=
  match s with
  | incomplete => initiated
  | pending_user_transfer_start | pending_user_transfer_complete | pending_external
  | pending_anchor | pending_stellar | pending_trust | pending_user => pending
  | completed => stage_completed
  | refunded => stage_refunded
  | expired | no_market | too_small | too_large | error => failed
  end.

Definition sep31Stage (s : Sep31Status) : AnchorFlowStage :=
  match s with
  | p31_sender => initiated
  | p31_transaction_info_update | p31_stellar | p31_receiver | p31_external => pending
  | s31_completed => stage_completed
  | s31_error => failed
  end.

Definition stage_name (s : AnchorFlowStage) : string :=
  match s with
  | initiated => "initiated"
  | pending => "pending"
  | stage_completed => "completed"
  | stage_refunded => "refunded"
  | failed => "failed"
  end.

(** [`anchor.${flow}.${stage}`] *)
Definition eventType (flow : string) (stage : AnchorFlowStage) : string :=
  "anchor." +:+ flow +:+ "." +:+ stage_name stage.

Record AnchorFlowEvent := {
  type : string;
  stage : AnchorFlowStage;
  transactionId : string;
  protocolStatus : Sep24Status + Sep31Status;
  anchorUrl : string;
  settlementTxHash : option string;   (** [None] is [null] *)
  amountIn : option string;
  amountOut : option string;
  amountFee : option string;
  message : option string;
  timestamp : string;
}.

(** What the anchor returned; a field it left out is [None]. *)
Record Sep24Transaction := {
  tx_id : string;
  tx_kind : string;
  tx_status : Sep24Status;
  stellar_transaction_id : option string;
  amount_in : option string;
  amount_out : option string;
  amount_fee : option string;
  tx_message : option string;
  started_at : option string;
  updated_at : option string;
  completed_at : option string;
}.

Definition first_of (l : list (option string)) (d : string) : string :=
  default d (head (omap (λ x, x) l)).

Definition normalizeSep24Transaction (tx : Sep24Transaction) (url isoNow : string)
    : AnchorFlowEvent :=
  let s := sep24Stage (tx_status tx) in
  {| type := eventType (if String.eqb (tx_kind tx) "deposit" then "deposit" else "withdrawal") s;
     stage := s; transactionId := tx_id tx; protocolStatus := inl (tx_status tx);
     anchorUrl := url; settlementTxHash := stellar_transaction_id tx;
     amountIn := amount_in tx; amountOut := amount_out tx; amountFee := amount_fee tx;
     message := tx_message tx;
     timestamp := first_of [completed_at tx; updated_at tx; started_at tx] isoNow |}.

Record NormalizeSep31Options := {
  o_anchorUrl : string;
  o_transactionId : string;
  o_stellarTransactionId : option string;
  o_amountIn : option string;
  o_amountOut : option string;
  o_amountFee : option string;
  o_message : option string;
  o_timestamp : option string;
}.

Definition normalizeSep31Status (s : Sep31Status) (o : NormalizeSep31Options) (isoNow : string)
    : AnchorFlowEvent :=
  {| type := eventType "payment" (sep31Stage s); stage := sep31Stage s;
     transactionId := o_transactionId o; protocolStatus := inr s; anchorUrl := o_anchorUrl o;
     settlementTxHash := o_stellarTransactionId o; amountIn := o_amountIn o;
     amountOut := o_amountOut o; amountFee := o_amountFee o; message := o_message o;
     timestamp := default isoNow (o_timestamp o) |}.

(** ** What the machines guarantee *)

Lemma transitionTo_spec next m :
  (transitionTo next m).2 =
    if bool_decide (next ∈ TRANSITIONS (status m)) && negb (bool_decide (next = status m))
    then {| status := next; seen := seen m ++ [next] |} else m.
Proof.
  unfold transitionTo, throw_if, canTransitionTo, mbind, method_bind, gets, lift_result, reject_if,
    modify, mret, method_ret.
  destruct (bool_decide (next = status m)) eqn:He; cbn [negb orb andb].
  - by rewrite andb_false_r.
  - by destruct (bool_decide (next ∈ _)).
Qed.

(** [b] may follow [a]. *)
Definition follows (a b : Sep24Status) : Prop := b ∈ TRANSITIONS a.

(** The statuses of [l], in order, are steps of the graph that start at [s]. *)
Fixpoint path (s : Sep24Status) (l : list Sep24Status) : Prop :=
  match l with
  | [] => True
  | t :: l' => follows s t ∧ path t l'
  end.

Lemma path_snoc s l t :
  path s l → follows (default s (last l)) t → path s (l ++ [t]).
Proof.
  revert s. induction l as [|u l IH]; intros s; cbn [path app].
  - cbn. intros _ H. done.
  - intros [Hu Hl] Ht. split; [done|]. apply IH; [done|].
    destruct l as [|z l]; [done|]. change (last (u :: z :: l)) with (last (z :: l)) in Ht.
    destruct (last (z :: l)) eqn:E; [done|]. by apply last_None in E.
Qed.

(** No status that may follow another is [incomplete]; a terminal one has none
    that follows. *)
Lemma follows_spec a b :
  follows a b → b ≠ incomplete ∧ a ∉ SEP24_TERMINAL_STATUSES ∧ b ≠ a.
Proof.
  intros H.
  assert (∀ a, forallb (λ b, negb (bool_decide (b = incomplete)) && negb (bool_decide (b = a)) &&
    negb (bool_decide (a ∈ SEP24_TERMINAL_STATUSES))) (TRANSITIONS a) = true) as Hall
    by (intros []; reflexivity).
  specialize (Hall a). rewrite forallb_forall in Hall.
  specialize (Hall b (proj1 (list_elem_of_In _ _) H)). bool_to_prop. done.
Qed.

(** How far a status is from being settled. *)
Definition rank (s : Sep24Status) : nat :=
  match sep24Stage s with initiated => 0 | pending => 1 | _ => 2 end.

Lemma path_ranks s l : path s l → StronglySorted (λ a b, rank a ≤ rank b) (s :: l).
Proof.
  assert (∀ a, forallb (λ b, rank a <=? rank b) (TRANSITIONS a) = true) as Hall
    by (intros []; reflexivity).
  assert (∀ a b, follows a b → rank a ≤ rank b) as Hf.
  { intros a b H. specialize (Hall a). rewrite forallb_forall in Hall.
    apply Nat.leb_le, Hall. by apply list_elem_of_In. }
  revert s. induction l as [|t l IH]; intros s Hp; [by repeat constructor|].
  destruct Hp as [Hst Hp]. specialize (IH t Hp). constructor; [done|].
  apply StronglySorted_inv in IH as [_ Hl]. constructor; [by apply Hf|].
  eapply Forall_impl; [exact Hl|]. intros u Hu. cbn in Hu. specialize (Hf s t Hst). lia.
Qed.

Definition machine_inv (s0 : Sep24Status) (m : Sep24StatusMachine) : Prop :=
  ∃ l, seen m = s0 :: l ∧ path s0 l ∧ status m = default s0 (last l).

Lemma follow_inv s0 reports m : machine_inv s0 m → machine_inv s0 (follow reports m).
Proof.
  revert m. induction reports as [|next reports IH]; intros m Hm; [done|]. cbn. apply IH.
  rewrite transitionTo_spec. destruct (_ && _) eqn:Hok; [|done]. bool_to_prop.
  destruct Hm as (l & Hs & Hp & Hst). exists (l ++ [next]). cbn. rewrite Hs, last_snoc. split_and!; try done.
  apply path_snoc; [done|]. by rewrite <-Hst.
Qed.

Lemma follow_terminal reports m :
  isTerminal m = true → follow reports m = m.
Proof.
  intros Hm. induction reports as [|next reports IH]; [done|]. cbn. rewrite transitionTo_spec.
  destruct (bool_decide (next ∈ _)) eqn:Hn; [|done]. apply bool_decide_eq_true in Hn, Hm.
  apply follows_spec in Hn as (_ & Hn & _). done.
Qed.

(** Whatever statuses an anchor reports and in whatever order, the history
    of a SEP-24 machine is a path of the transition graph from its first status
    to its current one, its stages never go back, [incomplete] is not entered
    again, and once the status is terminal no report changes anything. *)
Theorem history_is_path s0 reports reports' :
  let m := follow reports (new_machine s0) in
  (∃ l, seen m = s0 :: l ∧ path s0 l ∧ status m = default s0 (last l) ∧ incomplete ∉ l) ∧
  StronglySorted (λ a b, rank a ≤ rank b) (seen m) ∧
  (isTerminal m = true → follow reports' m = m).
Proof.
  intros m. assert (machine_inv s0 m) as (l & Hs & Hp & Hst).
  { apply follow_inv. by exists []. }
  split_and!.
  - exists l. split_and!; try done. clear Hs Hst. clearbody m. clear m. revert s0 Hp.
    induction l as [|t l IH]; intros s0 Hp; [set_solver|]. destruct Hp as [Ht Hp].
    apply follows_spec in Ht as (Ht & _). specialize (IH t Hp). set_solver.
  - rewrite Hs. by apply path_ranks.
  - apply follow_terminal.
Qed.

(** Every status that is not terminal can still be completed, within three
    reports. *)
Lemma completion_reachable s :
  s ∉ SEP24_TERMINAL_STATUSES →
  ∃ reports, length reports ≤ 3 ∧ status (follow reports (new_machine s)) = completed.
Proof.
  intros Hs. destruct (decide (s = incomplete)) as [->|Hi].
  - exists [pending_anchor; completed]. split; [cbn; lia|reflexivity].
  - exists [completed]. split; [cbn; lia|]. destruct s; try done; by destruct Hs; set_solver.
Qed.

(** The stage of a SEP-31 payment can go back from pending to initiated. *)
Lemma sep31_stage_regresses :
  (sep31_transitionTo p31_sender p31_transaction_info_update).2 = p31_sender ∧
  sep31Stage p31_transaction_info_update = pending ∧ sep31Stage p31_sender = initiated.
Proof. done. Qed.

(** A settled SEP-31 payment stays as it is. *)
Lemma sep31_terminal s next :
  s = s31_completed ∨ s = s31_error → (sep31_transitionTo next s).2 = s.
Proof. intros [-> | ->]; by destruct next. Qed.

(** The type of an event tells its flow and stage apart. *)
Lemma event_types_distinct s s' :
  stage_name s = stage_name s' → s = s'.
Proof. by destruct s, s'. Qed.
