(* ===== verification/RpcClient.v ===== *)
(** * The Soroban RPC client (packages/pulse-core/src/SorobanRpcClient.ts)

    What a request answers, for everything [fetch] may do; the arguments of
    [getEvents]; waiting for a transaction; the cached closing time of the latest
    ledger.  The poll of the unified transport is in UnifiedPoller.v.  [fetch],
    the parsing of dates and of JSON are arguments, as their answers. *)

From S2P Require Import Prelude.
From S2P Require Import JsMap.
From S2P Require Import JsValue.
From S2P Require Import Decimal.
From S2P Require Import Soroban.

(** ** Constants *)

Definition DEFAULT_TIMEOUT_MS : Z := 10000.
Definition MIN_LEDGER_CLOSE_TIME_POLL_INTERVAL_MS : Z := 1000.

Definition CAP_67_EVENT_TOPICS : list string :=
  ["transfer"; "mint"; "burn"; "clawback"; "set_authorized"].

Definition topic_filter (symbol : string) : jsval :=
  JObj [("type", JStr "contract"); ("topics", JArr [JArr [JStr symbol]])].

Definition CAP_67_TOPIC_FILTERS : list jsval :=
  topic_filter <$>
    ["AAAADwAAAAh0cmFuc2Zlcg=="; "AAAADwAAAARtaW50"; "AAAADwAAAARidXJu";
     "AAAADwAAAAhjbGF3YmFjaw=="; "AAAADwAAAA5zZXRfYXV0aG9yaXplZAAA"].

Definition CAP_67_MIN_PROTOCOL_VERSION : Z := 23.

Record SorobanNetworkInfo := {
  friendbotUrl : option string;
  passphrase : string;
  protocolVersion : option Z;
}.

Definition rpcSupportsUnifiedEvents (info : option SorobanNetworkInfo) : bool :=
  match info ≫= protocolVersion with
  | Some v => (CAP_67_MIN_PROTOCOL_VERSION <=? v)%Z
  | None => false
  end.

(** ** Classification *)

Definition rpc_error (code : string) (retryable : bool) : SorobanRpcError :=
  {| rpc_code := code; rpc_message := ""; rpc_retryable := retryable; rpc_retryAfterMs := None |}.

Definition classifyHttpStatus (status : Z) : string * bool :=
  if (status =? 429)%Z then ("rate_limit", true)
  else if (status =? 401)%Z || (status =? 403)%Z then ("auth", false)
  else if (500 <=? status)%Z then ("server", true)
  else if (400 <=? status)%Z then ("invalid_request", false)
  else ("unknown", false).

(** [x <= z] and [x >= z] *)
Definition js_leZ (x : jsnum) (z : Z) : bool :=
  match x with JNaN => false | _ => negb (js_gtZ x z) end.
Definition js_geZ (x : jsnum) (z : Z) : bool :=
  match x with JNaN => false | _ => negb (js_ltZ x z) end.

Definition classifyJsonRpcCode (code : jsnum) : string * bool :=
  if js_leZ code (-32000) && js_geZ code (-32099) then ("server", true)
  else ("invalid_request", false).

Definition classified (c : string * bool) (retryAfterMs : option Z) : SorobanRpcError :=
  {| rpc_code := c.1; rpc_message := ""; rpc_retryable := c.2; rpc_retryAfterMs := retryAfterMs |}.

(** ** request *)

(** What [fetch] and [response.json()] do.  The body is [None] where it is no
    JSON. *)
Inductive FetchAnswer :=
  | Thrown (e : RpcFailure)
  | Response (status : Z) (retryAfter : option string) (body : option jsval).

(** [k in v] for an object *)
Definition has_field (k : string) (v : jsval) : bool :=
  match v with JObj fs => existsb (λ f, String.eqb f.1 k) fs | _ => false end.

Section client.
(** [new Date(s).getTime()], [None] where it is [NaN]; and [Number(v)] for a
    value that is not a number. *)
Context (date_ms : string → option Z).
Context (to_number : jsval → jsnum).

Definition parseRetryAfterHeader (now : Z) (header : option string) : option Z :=
  match header with
  | None | Some EmptyString => None
  | Some h =>
      match parse_int h with
      | Some seconds => Some (seconds * 1000)%Z
      | None => (λ date, Z.max (date - now) 0) <$> date_ms h
      end
  end.

(** [response.ok] *)
Definition response_ok (status : Z) : bool := (200 <=? status)%Z && (status <=? 299)%Z.

Definition http_error (now status : Z) (retryAfter : option string) : SorobanRpcError :=
  classified (classifyHttpStatus status)
    (if (status =? 429)%Z then parseRetryAfterHeader now retryAfter else None).

(** [rpcError.code ?? 0], compared as a number. *)
Definition error_code (rpcError : jsval) : jsnum :=
  match prop rpcError "code" with
  | JNum n => n
  | JUndef | JNull => jint 0
  | v => to_number v
  end.

Definition request (aborted : bool) (now : Z) (answer : FetchAnswer) : result RpcFailure jsval :=
  if aborted then Err AbortFailure
  else match answer with
  | Thrown (RpcFailed e) => Err (RpcFailed e)
  | Thrown AbortFailure => Err AbortFailure
  | Thrown OtherFailure => Err (RpcFailed (rpc_error "network" true))
  | Response status retryAfter body =>
      if negb (response_ok status) then Err (RpcFailed (http_error now status retryAfter))
      else match body with
      | None => Err (RpcFailed (rpc_error "invalid_request" false))
      | Some parsed =>
          if truthy (prop parsed "error") then
            Err (RpcFailed (classified (classifyJsonRpcCode (error_code (prop parsed "error"))) None))
          else Ok parsed
      end
  end.

Definition requestResult (aborted : bool) (now : Z) (answer : FetchAnswer)
    : result RpcFailure jsval :=
  body ← request aborted now answer;
  if has_field "result" body then Ok (prop body "result")
  else Err (RpcFailed (rpc_error "invalid_request" false)).

(** ** getEvents *)

(** The two call forms; an [AbortSignal] is a number. *)
Inductive EventsFirst :=
  | ByParams (params : jsmap string jsval) (signal : option nat)
  | ByCursor (startCursor : option string) (limit : option jsnum) (filters : list jsval).

Inductive EventsOption :=
  | SignalOption (signal : nat)
  | CallOptions (xdrFormat : option string) (signal : option nat).

(** The parameters sent and the signal in force; the client's own format is the
    default. *)
Definition events_params (format : string) (first : EventsFirst) (options : list EventsOption)
    : jsmap string jsval * option nat :=
  let '(params, signal) :=
    match first with
    | ByParams params signal => (params, signal)
    | ByCursor startCursor limit filters =>
        let p := match startCursor with Some c => mset "startCursor" (JStr c) [] | None => [] end in
        let p := match limit with Some n => mset "limit" (JNum n) p | None => p end in
        (match filters with [] => p | _ => mset "filters" (JArr filters) p end, None)
    end in
  let xdrFormat := default format (mget "xdrFormat" params ≫= as_string) in
  let '(xdrFormat, signal) := foldl (λ '(x, s) o,
    match o with
    | SignalOption s' => (x, Some s')
    | CallOptions x' s' => (default x x', match s' with Some _ => s' | None => s end)
    end) (xdrFormat, signal) options in
  (mset "xdrFormat" (JStr xdrFormat) params, signal).

(** [{ events: [], ...result }]: the events field of the answer. *)
Definition events_of (res : jsval) : jsval :=
  if has_field "events" res then prop res "events" else JArr [].

(** ** pollTransaction *)

Inductive TransactionStatus := NOT_FOUND | SUCCESS | FAILED.

#[export] Instance TransactionStatus_eq_dec : EqDecision TransactionStatus.
Proof. solve_decision. Defined.

(** One answer of [getTransaction] and the time it came; the loop with the
    answers there are ([None]: it is still waiting). *)
Fixpoint poll_loop (intervalMs deadline : Z)
    (answers : list (result RpcFailure TransactionStatus * Z))
    : option (result RpcFailure TransactionStatus) :=
  match answers with
  | [] => None
  | (Err e, _) :: _ => Some (Err e)
  | (Ok status, now) :: rest =>
      if bool_decide (status ≠ NOT_FOUND) then Some (Ok status)
      else if (deadline <? now + intervalMs)%Z then Some (Err (RpcFailed (rpc_error "server" true)))
      else poll_loop intervalMs deadline rest
  end.

Definition pollTransaction (intervalMs timeoutMs : option Z) (now : Z)
    (answers : list (result RpcFailure TransactionStatus * Z))
    : option (result RpcFailure TransactionStatus) :=
  let intervalMs := Z.max 1 (default 1000%Z intervalMs) in
  let timeoutMs := Z.max 1 (default 60000%Z timeoutMs) in
  poll_loop intervalMs (now + timeoutMs) answers.

(** ** getLatestLedgerCloseTime *)

Record CloseTimeCache := {
  latestLedgerCloseTime : option jsnum;
  lastLedgerCloseTimeFetchMs : Z;
}.

Definition no_close_time : CloseTimeCache :=
  {| latestLedgerCloseTime := None; lastLedgerCloseTimeFetchMs := 0 |}.

(** What a call at [nowMs] answers from the cache; [None]: it asks the server. *)
Definition cached_close_time (minInterval nowMs : Z) (c : CloseTimeCache) : option jsnum :=
  t ← latestLedgerCloseTime c;
  if (nowMs - lastLedgerCloseTimeFetchMs c <? minInterval)%Z then Some t else None.

(** The answer of the server, at [nowMs]. *)
Definition close_time_answered (nowMs : Z) (answer : result RpcFailure jsval) (c : CloseTimeCache)
    : result RpcFailure jsnum * CloseTimeCache :=
  match answer with
  | Err e => (Err e, c)
  | Ok res =>
      match as_number (prop res "ledgerCloseTime") with
      | None => (Err (RpcFailed (rpc_error "invalid_request" false)), c)
      | Some t =>
          (Ok t, {| latestLedgerCloseTime := Some t; lastLedgerCloseTimeFetchMs := nowMs |})
      end
  end.

(** ** What a request answers *)

(** Conditions under which trying again may help. *)
Definition transient (answer : FetchAnswer) : Prop :=
  match answer with
  | Thrown OtherFailure => True
  | Thrown (RpcFailed e) => rpc_retryable e = true
  | Thrown AbortFailure => False
  | Response status _ body =>
      status = 429%Z ∨ (500 ≤ status)%Z ∨
      ((200 ≤ status ≤ 299)%Z ∧ ∃ b, body = Some b ∧ truthy (prop b "error") = true ∧
        js_geZ (error_code (prop b "error")) (-32099) = true ∧
        js_leZ (error_code (prop b "error")) (-32000) = true)
  end.

Lemma classifyHttpStatus_retryable status :
  (classifyHttpStatus status).2 = true ↔ status = 429%Z ∨ (500 ≤ status)%Z.
Proof.
  unfold classifyHttpStatus.
  destruct (Z.eqb_spec status 429) as [->|]; [by split; [left|]|].
  destruct (Z.eqb_spec status 401) as [->|]; [by split; [|lia]|].
  destruct (Z.eqb_spec status 403) as [->|]; [by split; [|lia]|]. cbn.
  destruct (Z.leb_spec 500 status); [split; [by right|done]|].
  destruct (400 <=? status)%Z; cbn; (split; [done|lia]).
Qed.

Lemma classifyJsonRpcCode_retryable code :
  (classifyJsonRpcCode code).2 = true ↔
  js_geZ code (-32099) = true ∧ js_leZ code (-32000) = true.
Proof.
  unfold classifyJsonRpcCode. destruct (js_leZ code _), (js_geZ code _); naive_solver.
Qed.

(** C23: A request that was not aborted returns exactly the JSON of a successful
    response that reports no error, and otherwise rejects; the rejection says
    that trying again may help exactly where it may (the network failed, the
    server is busy or failing, or it reports one of its own errors), and carries
    a delay only for status 429. *)
Theorem request_classified now answer :
  (∀ v, request false now answer = Ok v ↔
     ∃ status retryAfter, answer = Response status retryAfter (Some v) ∧
       (200 ≤ status ≤ 299)%Z ∧ truthy (prop v "error") = false) ∧
  (∀ e, request false now answer = Err (RpcFailed e) → (rpc_retryable e = true ↔ transient answer) ∧
     (∀ status retryAfter body d, answer = Response status retryAfter body →
        rpc_retryAfterMs e = Some d →
        status = 429%Z ∧ rpc_code e = "rate_limit" ∧
        parseRetryAfterHeader now retryAfter = Some d)) ∧
  (request false now answer = Err AbortFailure ↔ answer = Thrown AbortFailure) ∧
  request false now answer ≠ Err OtherFailure.
Proof.
  destruct answer as [[|e|]|status retryAfter body]; cbn.
  - split_and!; [split; [done|by intros (? & ? & ? & _)]|done|done|done].
  - split_and!; [split; [done|by intros (? & ? & ? & _)]|by intros ? [= <-]|done|done].
  - split_and!; [split; [done|by intros (? & ? & ? & _)]|by intros ? [= <-]|done|done].
  - unfold response_ok. destruct ((200 <=? status) && (status <=? 299))%Z eqn:Hok; cbn.
    + apply andb_true_iff in Hok as [H1%Z.leb_le H2%Z.leb_le].
      destruct body as [b|]; [destruct (truthy (prop b "error")) eqn:Ht|].
      * split_and!; [|intros e [= <-]; split; [|done]|done|done].
        { intros v. split; [done|]. intros (? & ? & [= <- <- <-] & _ & ?). congruence. }
        cbn. rewrite classifyJsonRpcCode_retryable. split.
        { intros [? ?]. right. right. split; [done|]. by exists b. }
        intros [->|[?|(_ & b' & [= <-] & _ & ?)]]; [lia|lia|done].
      * split_and!; [|done|done|done]. intros v. split; [|by intros (? & ? & [= <- <- <-] & _)].
        intros [= <-]. exists status, retryAfter. done.
      * split_and!; [|intros e [= <-]; split; [|done]|done|done].
        { intros v. split; [done|]. by intros (? & ? & [=] & _). }
        split; [done|]. intros [->|[?|(_ & b' & [=] & _)]]; lia.
    + assert (¬ (200 ≤ status ≤ 299)%Z) as Hno.
      { apply andb_false_iff in Hok as [?%Z.leb_gt|?%Z.leb_gt]; lia. }
      split_and!; [|intros e [= <-]; cbn; rewrite classifyHttpStatus_retryable; split|done|done].
      * intros v. split; [done|]. by intros (? & ? & [= -> -> ->] & ? & _).
      * split; [intros [?|?]; auto|]. intros [?|[?|[? _]]]; auto. done.
      * intros ? ? ? d [= <- <- <-]. unfold classifyHttpStatus.
        destruct (Z.eqb_spec status 429) as [->|]; done.
Qed.

(** ** Waiting for a transaction ends *)

(** What an outcome rests on: an answer, or a look at the clock past the
    deadline. *)
Definition grounded (intervalMs deadline : Z) (f : nat → result RpcFailure TransactionStatus * Z)
    (out : result RpcFailure TransactionStatus) : Prop :=
  ∃ i, (∀ j, j < i → (f j).1 = Ok NOT_FOUND) ∧
    match (f i).1 with
    | Err e => out = Err e
    | Ok NOT_FOUND => out = Err (RpcFailed (rpc_error "server" true)) ∧
        (deadline < (f i).2 + intervalMs)%Z
    | Ok status => out = Ok status
    end.

Lemma poll_loop_ends intervalMs deadline f k i :
  (∀ n, ((f n).2 + intervalMs ≤ (f (S n)).2)%Z) →
  (∀ j, j < i → (f j).1 = Ok NOT_FOUND) →
  (deadline < (f i).2 + Z.of_nat (S k) * intervalMs)%Z →
  ∃ out, poll_loop intervalMs deadline (f <$> seq i (S k)) = Some out ∧
    grounded intervalMs deadline f out.
Proof.
  intros Hf. revert i. induction k as [|k IH]; intros i Hi Hd; cbn [seq fmap list_fmap poll_loop].
  all: destruct (f i) as [[status|e] now] eqn:Hfi; cbn [snd] in Hd;
    [|exists (Err e); split; [done|]; exists i; by rewrite Hfi].
  all: case_bool_decide as Hs;
    [exists (Ok status); split; [done|]; exists i; rewrite Hfi; split; [done|by destruct status]|].
  all: subst status.
  all: destruct (Z.ltb_spec deadline (now + intervalMs));
    [eexists; split; [done|]; exists i; by rewrite Hfi|].
  - lia.
  - apply IH.
    + intros j Hj. destruct (decide (j = i)) as [->|]; [by rewrite Hfi|]. apply Hi. lia.
    + specialize (Hf i). rewrite Hfi in Hf. cbn in Hf. lia.
Qed.

(** Waiting for a transaction ends: when answers do not come before they were
    asked for, [timeoutMs / intervalMs + 1] of them decide the outcome, which is
    the first answer that is not [NOT_FOUND], or a retryable failure given only
    when another wait would pass the deadline. *)
Theorem pollTransaction_ends interval timeout now (f : nat → result RpcFailure TransactionStatus * Z) :
  let intervalMs := Z.max 1 (default 1000%Z interval) in
  let timeoutMs := Z.max 1 (default 60000%Z timeout) in
  (now ≤ (f 0%nat).2)%Z → (∀ n, ((f n).2 + intervalMs ≤ (f (S n)).2)%Z) →
  ∃ out, pollTransaction interval timeout now
           (f <$> seq 0 (S (Z.to_nat (timeoutMs / intervalMs)))) = Some out ∧
    grounded intervalMs (now + timeoutMs) f out.
Proof.
  intros intervalMs timeoutMs H0 Hf. unfold pollTransaction. fold intervalMs timeoutMs.
  apply poll_loop_ends; [done|lia|].
  assert (0 < intervalMs)%Z as Hpos by (unfold intervalMs; lia).
  assert (0 ≤ timeoutMs)%Z as Ht by (unfold timeoutMs; lia).
  pose proof (Z.div_mod timeoutMs intervalMs ltac:(lia)).
  pose proof (Z.mod_pos_bound timeoutMs intervalMs Hpos).
  assert (0 ≤ timeoutMs / intervalMs)%Z by by apply Z.div_pos.
  rewrite Nat2Z.inj_succ, Z2Nat.id by done. lia.
Qed.

(** ** The closing time is asked for at most once in an interval *)

Lemma close_time_cached minInterval now now' res c t c' :
  close_time_answered now (Ok res) c = (Ok t, c') → (now' < now + minInterval)%Z →
  cached_close_time minInterval now' c' = Some t.
Proof.
  unfold close_time_answered, cached_close_time. intros H Hlt.
  destruct (as_number _); simplify_eq. cbn.
  by destruct (Z.ltb_spec (now' - now) minInterval); [|lia].
Qed.

(** A failed answer leaves the cache as it was, so the next call asks again. *)
Lemma close_time_failure now e c : close_time_answered now (Err e) c = (Err e, c).
Proof. done. Qed.
End client.

(** ** Examples *)

Definition no_date (s : string) : option Z := None.
Definition not_a_number (v : jsval) : jsnum := JNaN.

Example rate_limited :
  request no_date not_a_number false 0 (Response 429 (Some "3") None)
    = Err (RpcFailed {| rpc_code := "rate_limit"; rpc_message := ""; rpc_retryable := true;
        rpc_retryAfterMs := Some 3000%Z |}).
Proof. reflexivity. Qed.

Example server_error :
  request no_date not_a_number false 0
    (Response 200 None (Some (JObj [("error", JObj [("code", JNum (jint (-32001)))])])))
    = Err (RpcFailed (rpc_error "server" true)).
Proof. reflexivity. Qed.

(** Found at the second look. *)
Definition sample_answers (n : nat) : result RpcFailure TransactionStatus * Z :=
  (Ok (if bool_decide (n = 1) then SUCCESS else NOT_FOUND), (5 * Z.of_nat n)%Z).

Lemma pollTransaction_ends_witness :
  ∃ out, pollTransaction (Some 5%Z) (Some 10%Z) 0 (sample_answers <$> seq 0 3) = Some out.
Proof.
  destruct (pollTransaction_ends (Some 5%Z) (Some 10%Z) 0 sample_answers) as (out & H & _).
  - reflexivity.
  - intros n. unfold sample_answers. cbn [snd]. change (Z.max 1 (default 1000 (Some 5)))%Z with 5%Z. lia.
  - exists out. exact H.
Defined.
