(* ===== verification/Cap67.v ===== *)
(** * The events of the unified transport
    (packages/pulse-core/src/cap67/, [dispatchUnifiedEvent] and
     [peekUnifiedEventSymbol] of EventEngine.ts, address.ts)

    Decoding a raw CAP-67 event, turning it into an event of the taxonomy and
    routing it.  The Stellar SDK's part (XDR, [scValToNative], addresses and the
    checksums of StrKey) is the class [StellarSdk]; nothing is assumed of it.
    The addresses are texts: the casts of address.ts do nothing at run time. *)

From S2P Require Import Prelude.
From S2P Require Import JsMap.
From S2P Require Import JsValue.
From S2P Require Import Decimal.
From S2P Require Import Amount.
From S2P Require Import EventTypes.
From S2P Require Import Normalize.
From S2P Require Import Dedupe.
From S2P Require Import Route.
From S2P Require Import Ingest.
From S2P Require Import Triggers.

(** ** What the code asks of the SDK *)

(** The result of [scValToNative], as far as [typeof] and [===] tell. *)
Inductive native :=
  | NString (s : string)
  | NBigint (z : Z)
  | NBoolean (b : bool)
  | NOther.

Inductive ScValType := scvBool | scvI128 | scvMap | scvOther.

#[export] Instance ScValType_eq_dec : EqDecision ScValType.
Proof. solve_decision. Defined.

(** [None] stands for a throw, and for [null] in [map_entries]. *)
Class StellarSdk := {
  ScVal : Type;
  fromXDR : string → option ScVal;
  scValToNative : ScVal → option native;
  switch : ScVal → ScValType;
  map_entries : ScVal → option (list (ScVal * ScVal));
  address_string : ScVal → option string;
  isAccountAddress : string → bool;
  isMuxedAddress : string → bool;
  isContractAddress : string → bool;
}.

(** ** Errors *)

Inductive Cap67Error :=
  | WrongTopicCount (got : nat)
  | MalformedTopic (index : nat)
  | MalformedTopicNative (index : nat)
  | UnexpectedSymbol (index : nat)
  | NotAnAddress (index : nat)
  | UnrecognizedAddress (address : string)
  | TopicNotString (index : nat)
  | ValueNotString
  | MalformedValue
  | ValueNotI128
  | ValueNotBool
  | NativeThrew
  | NotBigint
  | NotBoolean
  | NullMap
  | MalformedKey
  | MalformedMemo
  | MemoNotString
  | MissingAmount
  | UnsupportedValue
  | NotCodeIssuer (asset : string)
  | ContractCounterparty (address : string)
  | NotPlainAccount (address : string).

(** [try { o } catch { throw e }] *)
Definition or_throw {A} (o : option A) (e : Cap67Error) : result Cap67Error A :=
  match o with Some a => Ok a | None => Err e end.

Section cap67.
Context {sdk : StellarSdk}.

(** ** scval.ts *)

Definition decodeTopicScVal (topic : string) (index : nat) : result Cap67Error ScVal :=
  or_throw (fromXDR topic) (MalformedTopic index).

Definition decodeAddressTopic (v : ScVal) (index : nat) : result Cap67Error string :=
  address ← or_throw (address_string v) (NotAnAddress index);
  if isAccountAddress address then Ok address
  else if isMuxedAddress address then Ok address
  else if isContractAddress address then Ok address
  else Err (UnrecognizedAddress address).

Definition decodeI128 (v : ScVal) : result Cap67Error Z :=
  _ ← reject_if (negb (bool_decide (switch v = scvI128))) ValueNotI128;
  n ← or_throw (scValToNative v) NativeThrew;
  match n with NBigint z => Ok z | _ => Err NotBigint end.

Definition is_symbol (n : native) (expected : string) : bool :=
  match n with NString s => String.eqb s expected | _ => false end.

Definition decodeSymbolTopic (topic : string) (index : nat) (expected : string)
    : result Cap67Error unit :=
  v ← decodeTopicScVal topic index;
  n ← or_throw (scValToNative v) (MalformedTopicNative index);
  reject_if (negb (is_symbol n expected)) (UnexpectedSymbol index).

Definition decodeStringTopic (topic : string) (index : nat) : result Cap67Error string :=
  v ← decodeTopicScVal topic index;
  n ← or_throw (scValToNative v) (MalformedTopicNative index);
  match n with NString s => Ok s | _ => Err (TopicNotString index) end.

Definition decodeEventValueScVal (value : jsval) : result Cap67Error ScVal :=
  s ← or_throw (as_string value) ValueNotString;
  or_throw (fromXDR s) MalformedValue.

Definition decodeBool (v : ScVal) : result Cap67Error bool :=
  _ ← reject_if (negb (bool_decide (switch v = scvBool))) ValueNotBool;
  n ← or_throw (scValToNative v) NativeThrew;
  match n with NBoolean b => Ok b | _ => Err NotBoolean end.

Record SingleAddressAssetEvent := { sa_address : string; sa_asset : string; sa_amount : Z }.

Definition decodeSingleAddressAssetEvent (topics : list string) (value : jsval)
    (expected : string) : result Cap67Error SingleAddressAssetEvent :=
  match topics with
  | [symbolTopic; addressTopic; assetTopic] =>
      _ ← decodeSymbolTopic symbolTopic 0 expected;
      v ← decodeTopicScVal addressTopic 1;
      address ← decodeAddressTopic v 1;
      asset ← decodeStringTopic assetTopic 2;
      v ← decodeEventValueScVal value;
      amount ← decodeI128 v;
      Ok {| sa_address := address; sa_asset := asset; sa_amount := amount |}
  | _ => Err (WrongTopicCount (length topics))
  end.

(** ** The decoders *)

Record UnifiedTransfer := {
  ut_from : string;
  ut_to : string;
  ut_asset : string;
  ut_amount : Z;
  ut_memo : option string;
}.
Record UnifiedMint := { um_to : string; um_asset : string; um_amount : Z }.
Record UnifiedBurn := { ub_from : string; ub_asset : string; ub_amount : Z }.
Record UnifiedClawback := { uc_from : string; uc_asset : string; uc_amount : Z }.
Record UnifiedFee := { uf_from : string; uf_amount : Z }.
Record UnifiedSetAuthorized := { us_id : string; us_asset : string; us_authorize : bool }.

(** One pass of the loop over the entries of the map form, over the amount and
    the memo found so far. *)
Definition decode_entry (entry : ScVal * ScVal) (found : option Z * option string)
    : result Cap67Error (option Z * option string) :=
  key ← or_throw (scValToNative entry.1) MalformedKey;
  if is_symbol key "amount" then
    z ← decodeI128 entry.2;
    Ok (Some z, found.2)
  else if is_symbol key "to_muxed_id" then
    n ← or_throw (scValToNative entry.2) MalformedMemo;
    match n with NString s => Ok (found.1, Some s) | _ => Err MemoNotString end
  else Ok found.

Fixpoint decode_entries (entries : list (ScVal * ScVal)) (found : option Z * option string)
    : result Cap67Error (option Z * option string) :=
  match entries with
  | [] => Ok found
  | entry :: rest => found ← decode_entry entry found; decode_entries rest found
  end.

Definition decodeTransferValue (v : ScVal) : result Cap67Error (Z * option string) :=
  match switch v with
  | scvI128 => z ← decodeI128 v; Ok (z, None)
  | scvMap =>
      entries ← or_throw (map_entries v) NullMap;
      found ← decode_entries entries (None, None);
      amount ← or_throw found.1 MissingAmount;
      Ok (amount, found.2)
  | _ => Err UnsupportedValue
  end.

Definition decodeUnifiedTransfer (topics : list string) (value : jsval)
    : result Cap67Error UnifiedTransfer :=
  match topics with
  | [symbolTopic; fromTopic; toTopic; assetTopic] =>
      _ ← decodeSymbolTopic symbolTopic 0 "transfer";
      v ← decodeTopicScVal fromTopic 1;
      from ← decodeAddressTopic v 1;
      v ← decodeTopicScVal toTopic 2;
      to ← decodeAddressTopic v 2;
      asset ← decodeStringTopic assetTopic 3;
      v ← decodeEventValueScVal value;
      am ← decodeTransferValue v;
      Ok {| ut_from := from; ut_to := to; ut_asset := asset; ut_amount := am.1;
            ut_memo := am.2 |}
  | _ => Err (WrongTopicCount (length topics))
  end.

Definition decodeUnifiedMint (topics : list string) (value : jsval)
    : result Cap67Error UnifiedMint :=
  e ← decodeSingleAddressAssetEvent topics value "mint";
  Ok {| um_to := sa_address e; um_asset := sa_asset e; um_amount := sa_amount e |}.

Definition decodeUnifiedBurn (topics : list string) (value : jsval)
    : result Cap67Error UnifiedBurn :=
  e ← decodeSingleAddressAssetEvent topics value "burn";
  Ok {| ub_from := sa_address e; ub_asset := sa_asset e; ub_amount := sa_amount e |}.

Definition decodeUnifiedClawback (topics : list string) (value : jsval)
    : result Cap67Error UnifiedClawback :=
  e ← decodeSingleAddressAssetEvent topics value "clawback";
  Ok {| uc_from := sa_address e; uc_asset := sa_asset e; uc_amount := sa_amount e |}.

Definition decodeUnifiedFee (topics : list string) (value : jsval)
    : result Cap67Error UnifiedFee :=
  match topics with
  | [symbolTopic; fromTopic] =>
      _ ← decodeSymbolTopic symbolTopic 0 "fee";
      v ← decodeTopicScVal fromTopic 1;
      from ← decodeAddressTopic v 1;
      v ← decodeEventValueScVal value;
      amount ← decodeI128 v;
      Ok {| uf_from := from; uf_amount := amount |}
  | _ => Err (WrongTopicCount (length topics))
  end.

Definition decodeUnifiedSetAuthorized (topics : list string) (value : jsval)
    : result Cap67Error UnifiedSetAuthorized :=
  match topics with
  | [symbolTopic; idTopic; assetTopic] =>
      _ ← decodeSymbolTopic symbolTopic 0 "set_authorized";
      v ← decodeTopicScVal idTopic 1;
      id ← decodeAddressTopic v 1;
      asset ← decodeStringTopic assetTopic 2;
      v ← decodeEventValueScVal value;
      authorize ← decodeBool v;
      Ok {| us_id := id; us_asset := asset; us_authorize := authorize |}
  | _ => Err (WrongTopicCount (length topics))
  end.

(** ** normalizeAssetEvent.ts *)

(** The text after the first colon; [None] when there is none. *)
Fixpoint after_colon (s : string) : option string :=
  match s with
  | EmptyString => None
  | String c s' => if Ascii.eqb c ":"%char then Some s' else after_colon s'
  end.

Definition issuerFromAsset (asset : string) : result Cap67Error string :=
  match after_colon asset with
  | None | Some EmptyString => Err (NotCodeIssuer asset)
  | Some issuer => Ok issuer
  end.

Definition toPaymentAddress (address : string) : result Cap67Error string :=
  if isContractAddress address then Err (ContractCounterparty address) else Ok address.

Definition toAccountOnlyAddress (address : string) : result Cap67Error string :=
  if isAccountAddress address then Ok address else Err (NotPlainAccount address).

(** ** The normalisers *)

(** None of these events names its transaction. *)
Definition no_identity : ClassicEventIdentity :=
  {| id_txHash := None; id_ledger := None; id_memo := None |}.

Definition memo_only (memo : option string) : ClassicEventIdentity :=
  {| id_txHash := None; id_ledger := None; id_memo := memo |}.

Definition native_name (asset : string) : string :=
  if String.eqb asset "native" then "XLM" else asset.

Definition normalizeUnifiedTransfer (t : UnifiedTransfer) (ledgerClosedAt : string)
    : result Cap67Error (PaymentEventType * PaymentFields) :=
  to ← toPaymentAddress (ut_to t);
  from ← toPaymentAddress (ut_from t);
  Ok (if String.eqb from to then payment_self else payment_sent,
      {| pay_to := to; pay_from := from; pay_amount := fromBigInt (ut_amount t);
         pay_asset := native_name (ut_asset t); pay_timestamp := ledgerClosedAt;
         pay_identity := memo_only (ut_memo t); pay_raw := JUndef |}).

Definition normalizeUnifiedMint (m : UnifiedMint) (ledgerClosedAt : string)
    : result Cap67Error (PaymentEventType * PaymentFields) :=
  to ← toPaymentAddress (um_to m);
  from ← issuerFromAsset (um_asset m);
  Ok (payment_received,
      {| pay_to := to; pay_from := from; pay_amount := fromBigInt (um_amount m);
         pay_asset := um_asset m; pay_timestamp := ledgerClosedAt;
         pay_identity := no_identity; pay_raw := JUndef |}).

Definition normalizeUnifiedBurn (b : UnifiedBurn) (ledgerClosedAt : string)
    : result Cap67Error (PaymentEventType * PaymentFields) :=
  to ← issuerFromAsset (ub_asset b);
  from ← toPaymentAddress (ub_from b);
  Ok (payment_sent,
      {| pay_to := to; pay_from := from; pay_amount := fromBigInt (ub_amount b);
         pay_asset := ub_asset b; pay_timestamp := ledgerClosedAt;
         pay_identity := no_identity; pay_raw := JUndef |}).

Definition normalizeUnifiedClawback (c : UnifiedClawback) (ledgerClosedAt : string)
    : result Cap67Error AssetClawbackEvent :=
  from ← toPaymentAddress (uc_from c);
  Ok {| cb_from := from; cb_asset := uc_asset c; cb_amount := fromBigInt (uc_amount c);
        cb_timestamp := ledgerClosedAt; cb_raw := JUndef |}.

Definition normalizeUnifiedFee (f : UnifiedFee) (ledgerClosedAt : string)
    : result Cap67Error FeeIncurredEvent :=
  from ← toPaymentAddress (uf_from f);
  Ok {| fe_from := from; fe_amount := fromBigInt (uf_amount f);
        fe_timestamp := ledgerClosedAt; fe_raw := JUndef |}.

Definition normalizeUnifiedSetAuthorized (s : UnifiedSetAuthorized) (ledgerClosedAt : string)
    : result Cap67Error TrustAuthEvent :=
  trustor ← toAccountOnlyAddress (us_id s);
  issuer ← issuerFromAsset (us_asset s);
  Ok {| ta_type := if us_authorize s then trustline_authorized else trustline_deauthorized;
        ta_trustor := trustor; ta_issuer := issuer; ta_asset := us_asset s;
        ta_timestamp := ledgerClosedAt; ta_operation := "set_authorized";
        ta_identity := no_identity; ta_raw := JUndef |}.

(** ** dispatchUnifiedEvent *)

(** An event of the RPC server, of which no field is checked; [None] where a
    text is missing or is something else. *)
Record SorobanRpcEvent := {
  rpc_topic : jsval;
  rpc_topics : jsval;
  rpc_value : jsval;
  rpc_id : option string;
  rpc_txHash : option string;
  rpc_ledgerClosedAt : option string;
}.

(** [topic.every((t) => typeof t === "string")] *)
Definition all_strings (l : list jsval) : option (list string) := mapM as_string l.

Definition peekUnifiedEventSymbol (topic0 : option string) : option string :=
  t ← topic0;
  v ← fromXDR t;
  n ← scValToNative v;
  match n with NString s => Some s | _ => None end.

(** [raw.id.split] throws where there is no text. *)
Definition unified_dedupe (raw : SorobanRpcEvent)
    : result js_error (option (string * DedupeTransport)) :=
  match rpc_txHash raw with
  | None => Ok None
  | Some h =>
      match rpc_id raw with
      | None => Err TypeError
      | Some id =>
          Ok ((λ ref, (deriveDedupeKey ref, unified)) <$>
                deriveUnifiedDedupeRef {| u_txHash := Some h; u_id := id |})
      end
  end.

Definition pending_transfer (topics : list string) (value : jsval) (ledgerClosedAt : string)
    : result Cap67Error PaymentFields :=
  t ← decodeUnifiedTransfer topics value;
  to ← toPaymentAddress (ut_to t);
  from ← toPaymentAddress (ut_from t);
  Ok {| pay_to := to; pay_from := from; pay_amount := fromBigInt (ut_amount t);
        pay_asset := native_name (ut_asset t); pay_timestamp := ledgerClosedAt;
        pay_identity := memo_only (ut_memo t); pay_raw := JUndef |}.

Definition pending_mint (topics : list string) (value : jsval) (ledgerClosedAt : string)
    : result Cap67Error PaymentFields :=
  m ← decodeUnifiedMint topics value;
  to ← toPaymentAddress (um_to m);
  from ← issuerFromAsset (um_asset m);
  Ok {| pay_to := to; pay_from := from; pay_amount := fromBigInt (um_amount m);
        pay_asset := um_asset m; pay_timestamp := ledgerClosedAt;
        pay_identity := no_identity; pay_raw := JUndef |}.

Definition pending_burn (topics : list string) (value : jsval) (ledgerClosedAt : string)
    : result Cap67Error PaymentFields :=
  b ← decodeUnifiedBurn topics value;
  to ← issuerFromAsset (ub_asset b);
  from ← toPaymentAddress (ub_from b);
  Ok {| pay_to := to; pay_from := from; pay_amount := fromBigInt (ub_amount b);
        pay_asset := ub_asset b; pay_timestamp := ledgerClosedAt;
        pay_identity := no_identity; pay_raw := JUndef |}.

Section dispatch.
Context {Semantic Spec : Type}.

(** What becomes of a raw event before it is routed. *)
Inductive unified_outcome :=
  | MalformedTopics
  | UndecodableSymbol
  | Unhandled (symbol : string)
  | Failed (symbol : string) (error : Cap67Error)
  | ToRoute (e : Event Semantic) (dedupe : option (string * DedupeTransport)).

(** The [switch] inside the [try]: [None] for a symbol without a case. *)
Definition unified_case (symbol : string) (topics : list string) (value : jsval)
    (ledgerClosedAt : string) : option (result Cap67Error (Event Semantic)) :=
  if String.eqb symbol "transfer" then
    Some (PendingPayment <$> pending_transfer topics value ledgerClosedAt)
  else if String.eqb symbol "mint" then
    Some (PendingPayment <$> pending_mint topics value ledgerClosedAt)
  else if String.eqb symbol "burn" then
    Some (PendingPayment <$> pending_burn topics value ledgerClosedAt)
  else if String.eqb symbol "set_authorized" then
    Some (s ← decodeUnifiedSetAuthorized topics value;
          TrustAuth <$> normalizeUnifiedSetAuthorized s ledgerClosedAt)
  else None.

(** [now] is the time, read where the ledger's closing time is missing. *)
Definition unified_outcome_of (now : string) (raw : SorobanRpcEvent)
    : result js_error unified_outcome :=
  match as_array (coalesce (rpc_topic raw) (rpc_topics raw)) ≫= all_strings with
  | None => Ok MalformedTopics
  | Some topics =>
      let ledgerClosedAt := default now (rpc_ledgerClosedAt raw) in
      match peekUnifiedEventSymbol (head topics) with
      | None => Ok UndecodableSymbol
      | Some symbol =>
          dedupe ← unified_dedupe raw;
          Ok match unified_case symbol topics (rpc_value raw) ledgerClosedAt with
             | None => Unhandled symbol
             | Some (Err error) => Failed symbol error
             | Some (Ok e) => ToRoute e dedupe
             end
      end
  end.

Definition dispatchUnifiedEvent (hasAbiRegistry : bool) (now : string) (raw : SorobanRpcEvent)
    (r : Router (Semantic := Semantic))
    : result js_error (list (Emission (Semantic := Semantic)) * Router (Semantic := Semantic)) :=
  o ← unified_outcome_of now raw;
  Ok match o with
     | ToRoute e dedupe =>
         match route hasAbiRegistry dedupe e r with
         | (inl out, r') => (out, r')
         | (inr _, r') => ([], r')
         end
     | _ => ([], r)
     end.
End dispatch.

(** ** What a well-formed event says *)

Definition text_topic (topic s : string) : Prop :=
  ∃ v, fromXDR topic = Some v ∧ scValToNative v = Some (NString s).

Definition address_topic (topic a : string) : Prop :=
  ∃ v, fromXDR topic = Some v ∧ address_string v = Some a ∧
    isAccountAddress a || isMuxedAddress a || isContractAddress a = true.

Definition xdr_value (value : jsval) (v : ScVal) : Prop :=
  ∃ s, value = JStr s ∧ fromXDR s = Some v.

Definition i128 (v : ScVal) (z : Z) : Prop :=
  switch v = scvI128 ∧ scValToNative v = Some (NBigint z).

(** An entry of the map form; entries of other keys are passed over. *)
Definition amount_of (entry : ScVal * ScVal) : option Z :=
  k ← scValToNative entry.1;
  n ← scValToNative entry.2;
  match n with NBigint z => if is_symbol k "amount" then Some z else None | _ => None end.

Definition memo_of (entry : ScVal * ScVal) : option string :=
  k ← scValToNative entry.1;
  n ← scValToNative entry.2;
  match n with NString s => if is_symbol k "to_muxed_id" then Some s else None | _ => None end.

(** The value of the last entry that has one. *)
Definition latest {A B} (f : A → option B) : option B → list A → option B :=
  foldl (λ found entry, match f entry with Some x => Some x | None => found end).

Definition entry_ok (entry : ScVal * ScVal) : Prop :=
  ∃ k, scValToNative entry.1 = Some k ∧
    (is_symbol k "amount" = true → ∃ z, i128 entry.2 z) ∧
    (is_symbol k "to_muxed_id" = true → ∃ s, scValToNative entry.2 = Some (NString s)).

Definition transfer_value (v : ScVal) (amount : Z) (memo : option string) : Prop :=
  (i128 v amount ∧ memo = None) ∨
  (switch v = scvMap ∧ ∃ entries, map_entries v = Some entries ∧ Forall entry_ok entries ∧
     latest amount_of None entries = Some amount ∧ memo = latest memo_of None entries).

Definition transfer_shape (topics : list string) (value : jsval) (t : UnifiedTransfer) : Prop :=
  ∃ s f o a v, topics = [s; f; o; a] ∧ text_topic s "transfer" ∧
    address_topic f (ut_from t) ∧ address_topic o (ut_to t) ∧ text_topic a (ut_asset t) ∧
    xdr_value value v ∧ transfer_value v (ut_amount t) (ut_memo t).

Definition single_shape (symbol : string) (topics : list string) (value : jsval)
    (e : SingleAddressAssetEvent) : Prop :=
  ∃ s f a v, topics = [s; f; a] ∧ text_topic s symbol ∧ address_topic f (sa_address e) ∧
    text_topic a (sa_asset e) ∧ xdr_value value v ∧ i128 v (sa_amount e).

Definition authorized_shape (topics : list string) (value : jsval) (u : UnifiedSetAuthorized)
    : Prop :=
  ∃ s f a v, topics = [s; f; a] ∧ text_topic s "set_authorized" ∧
    address_topic f (us_id u) ∧ text_topic a (us_asset u) ∧ xdr_value value v ∧
    switch v = scvBool ∧ scValToNative v = Some (NBoolean (us_authorize u)).

(** ** The decoders accept exactly the well-formed events *)

Lemma or_throw_Ok {A} (o : option A) e a : or_throw o e = Ok a ↔ o = Some a.
Proof. destruct o; cbn; naive_solver. Qed.

Lemma is_symbol_true n s : is_symbol n s = true ↔ n = NString s.
Proof. destruct n; cbn; rewrite ?String.eqb_eq; naive_solver. Qed.

Lemma decodeSymbolTopic_Ok topic i s : decodeSymbolTopic topic i s = Ok tt ↔ text_topic topic s.
Proof.
  unfold decodeSymbolTopic, decodeTopicScVal, text_topic.
  setoid_rewrite result_bind_Ok. setoid_rewrite result_bind_Ok. setoid_rewrite or_throw_Ok.
  setoid_rewrite reject_if_Ok_any. setoid_rewrite negb_false_iff. setoid_rewrite is_symbol_true.
  naive_solver.
Qed.

Lemma decodeStringTopic_Ok topic i s : decodeStringTopic topic i = Ok s ↔ text_topic topic s.
Proof.
  unfold decodeStringTopic, decodeTopicScVal, text_topic.
  setoid_rewrite result_bind_Ok. setoid_rewrite result_bind_Ok. setoid_rewrite or_throw_Ok.
  split; [|naive_solver]. intros (v & Hv & n & Hn & H). destruct n; naive_solver.
Qed.

Lemma decodeAddressTopic_Ok topic i a :
  (∃ v, decodeTopicScVal topic i = Ok v ∧ decodeAddressTopic v i = Ok a) ↔ address_topic topic a.
Proof.
  unfold decodeAddressTopic, decodeTopicScVal, address_topic.
  setoid_rewrite result_bind_Ok. setoid_rewrite or_throw_Ok. split.
  - intros (v & Hv & a' & Ha & H). exists v.
    destruct (isAccountAddress a') eqn:?, (isMuxedAddress a') eqn:?, (isContractAddress a') eqn:?;
      simplify_eq; split_and!; try done; by apply orb_true_iff; auto using orb_true_intro.
  - intros (v & Hv & Ha & H). exists v. split; [done|]. exists a. split; [done|].
    by destruct (isAccountAddress a), (isMuxedAddress a), (isContractAddress a).
Qed.

Lemma decodeEventValueScVal_Ok value v : decodeEventValueScVal value = Ok v ↔ xdr_value value v.
Proof.
  unfold decodeEventValueScVal, xdr_value. rewrite result_bind_Ok. setoid_rewrite or_throw_Ok.
  by setoid_rewrite as_string_Some.
Qed.

Lemma decodeI128_Ok v z : decodeI128 v = Ok z ↔ i128 v z.
Proof.
  unfold decodeI128, i128. case_bool_decide as Hs; cbn; [|naive_solver].
  rewrite result_bind_Ok. setoid_rewrite or_throw_Ok. split.
  - intros (n & Hn & H). destruct n; naive_solver.
  - intros [_ Hn]. by eexists.
Qed.

Lemma decodeBool_Ok v b :
  decodeBool v = Ok b ↔ switch v = scvBool ∧ scValToNative v = Some (NBoolean b).
Proof.
  unfold decodeBool. case_bool_decide as Hs; cbn; [|naive_solver].
  rewrite result_bind_Ok. setoid_rewrite or_throw_Ok. split.
  - intros (n & Hn & H). destruct n; naive_solver.
  - intros [_ Hn]. by eexists.
Qed.

Lemma decode_entry_Ok entry found found' :
  decode_entry entry found = Ok found' ↔
  entry_ok entry ∧ found' = (latest amount_of found.1 [entry], latest memo_of found.2 [entry]).
Proof.
  destruct entry as [key val], found as [amount memo].
  unfold decode_entry, entry_ok, latest, amount_of, memo_of. cbn [fst snd foldl].
  destruct (scValToNative key) as [k|]; cbn; [|naive_solver].
  destruct (is_symbol k "amount") eqn:Ha.
  - apply is_symbol_true in Ha as ->. cbn. rewrite result_bind_Ok. setoid_rewrite decodeI128_Ok.
    unfold i128. destruct (scValToNative val) as [[]|]; cbn; naive_solver.
  - destruct (is_symbol k "to_muxed_id") eqn:Hm.
    + apply is_symbol_true in Hm as ->. destruct (scValToNative val) as [[]|]; cbn; naive_solver.
    + transitivity (found' = (amount, memo)); [naive_solver|].
      destruct (scValToNative val) as [[]|]; cbn; (split; [intros ->|by intros [_ ->]]);
        (split; [|done]); exists k; (split; [done|]); split; congruence.
Qed.

Lemma decode_entries_Ok entries found found' :
  decode_entries entries found = Ok found' ↔
  Forall entry_ok entries ∧
  found' = (latest amount_of found.1 entries, latest memo_of found.2 entries).
Proof.
  revert found. induction entries as [|entry rest IH]; intros found; cbn [decode_entries].
  { destruct found. split; [|naive_solver]. intros [= <-]. by split; [constructor|]. }
  rewrite Forall_cons, result_bind_Ok. setoid_rewrite decode_entry_Ok. setoid_rewrite IH.
  split; [naive_solver|]. intros [[He Hr] ->]. eexists. split; [by split|]. by split.
Qed.

Lemma decodeTransferValue_Ok v amount memo :
  decodeTransferValue v = Ok (amount, memo) ↔ transfer_value v amount memo.
Proof.
  unfold decodeTransferValue, transfer_value.
  destruct (switch v) eqn:Hs.
  - split; [done|]. intros [[[? _] _]|[? _]]; congruence.
  - rewrite result_bind_Ok. setoid_rewrite decodeI128_Ok. split.
    + intros (z & Hz & [= -> ->]). by left.
    + intros [[Hz ->]|[? _]]; [by exists amount|congruence].
  - rewrite result_bind_Ok. setoid_rewrite or_throw_Ok. setoid_rewrite result_bind_Ok.
    setoid_rewrite decode_entries_Ok. setoid_rewrite result_bind_Ok. setoid_rewrite or_throw_Ok.
    unfold i128. split.
    + intros (es & He & found & [Hf ->] & z & Hz & [= <- <-]). right. split; [done|]. eauto.
    + intros [[[? _] _]|(_ & es & He & Hf & Hz & ->)]; [congruence|].
      exists es. split; [done|]. eexists. split; [by split|]. by exists amount.
  - split; [done|]. intros [[[? _] _]|[? _]]; congruence.
Qed.

(** A monadic chain that returned, taken apart and put together. *)
Local Ltac unchain H :=
  repeat match type of H with
  | _ ≫= _ = Ok _ => apply result_bind_Ok in H as (? & ? & H)
  end;
  repeat match goal with x : unit |- _ => destruct x end.
Local Ltac chain :=
  repeat (apply result_bind_Ok; eexists; split; [solve [eauto with cap67_run]|]).
Local Hint Resolve <- decodeSymbolTopic_Ok decodeStringTopic_Ok decodeEventValueScVal_Ok
  decodeI128_Ok decodeBool_Ok : cap67_run.
Local Hint Resolve -> decodeSymbolTopic_Ok decodeStringTopic_Ok decodeAddressTopic_Ok
  decodeEventValueScVal_Ok decodeI128_Ok decodeBool_Ok : cap67.

Lemma decodeUnifiedTransfer_Ok topics value t :
  decodeUnifiedTransfer topics value = Ok t ↔ transfer_shape topics value t.
Proof.
  split.
  - destruct topics as [|s [|f [|o [|a [|? ?]]]]]; try done. cbn [decodeUnifiedTransfer].
    intros H. unchain H. injection H as <-. do 5 eexists. split_and!; cbn; eauto with cap67.
    apply decodeTransferValue_Ok. by destruct x6.
  - intros (s & f & o & a & v & -> & Hs & Hf & Ho & Ha & Hv & Hm).
    apply (decodeAddressTopic_Ok f 1) in Hf as (? & ? & ?).
    apply (decodeAddressTopic_Ok o 2) in Ho as (? & ? & ?).
    apply decodeTransferValue_Ok in Hm. cbn. chain. by destruct t.
Qed.

Lemma decodeSingle_Ok symbol topics value e :
  decodeSingleAddressAssetEvent topics value symbol = Ok e ↔ single_shape symbol topics value e.
Proof.
  split.
  - destruct topics as [|s [|f [|a [|? ?]]]]; try done. cbn [decodeSingleAddressAssetEvent].
    intros H. unchain H. injection H as <-. do 4 eexists. split_and!; cbn; eauto with cap67.
  - intros (s & f & a & v & -> & Hs & Hf & Ha & Hv & Hm).
    apply (decodeAddressTopic_Ok f 1) in Hf as (? & ? & ?). cbn. chain. by destruct e.
Qed.

Lemma decodeUnifiedSetAuthorized_Ok topics value u :
  decodeUnifiedSetAuthorized topics value = Ok u ↔ authorized_shape topics value u.
Proof.
  split.
  - destruct topics as [|s [|f [|a [|? ?]]]]; try done. cbn [decodeUnifiedSetAuthorized].
    intros H. unchain H. injection H as <-. do 4 eexists. split_and!; cbn; eauto with cap67.
    all: by eapply decodeBool_Ok.
  - intros (s & f & a & v & -> & Hs & Hf & Ha & Hv & Hb).
    apply (decodeAddressTopic_Ok f 1) in Hf as (? & ? & ?). cbn. chain. by destruct u.
Qed.

(** ** What is routed *)

Lemma all_strings_Some l topics : all_strings l = Some topics ↔ l = JStr <$> topics.
Proof.
  unfold all_strings. rewrite mapM_Some. split.
  - induction 1 as [|v s l topics Hv _ IH]; [done|]. cbn. apply as_string_Some in Hv as ->. by f_equal.
  - intros ->. induction topics; by constructor.
Qed.

Lemma peek_Some topic s : peekUnifiedEventSymbol (Some topic) = Some s ↔ text_topic topic s.
Proof.
  unfold peekUnifiedEventSymbol, text_topic. cbn. destruct (fromXDR topic) as [v|]; cbn; [|naive_solver].
  destruct (scValToNative v) as [[]|] eqn:E; cbn; split; try done; try (by intros (? & [= <-] & ?); congruence).
  intros [= <-]. eauto.
Qed.

Lemma toPaymentAddress_Ok a b : toPaymentAddress a = Ok b ↔ isContractAddress a = false ∧ b = a.
Proof. unfold toPaymentAddress. destruct (isContractAddress a); naive_solver. Qed.

Lemma issuerFromAsset_Ok asset issuer :
  issuerFromAsset asset = Ok issuer ↔ after_colon asset = Some issuer ∧ issuer ≠ "".
Proof. unfold issuerFromAsset. destruct (after_colon asset) as [[]|]; naive_solver. Qed.

Section routed.
Context {Semantic : Type}.

(** The event a well-formed raw event becomes. *)
Inductive routed (topics : list string) (value : jsval) (ts : string) : Event Semantic → Prop :=
  | routed_transfer t :
      transfer_shape topics value t →
      isContractAddress (ut_from t) = false → isContractAddress (ut_to t) = false →
      routed topics value ts (PendingPayment
        {| pay_to := ut_to t; pay_from := ut_from t; pay_amount := fromBigInt (ut_amount t);
           pay_asset := native_name (ut_asset t); pay_timestamp := ts;
           pay_identity := memo_only (ut_memo t); pay_raw := JUndef |})
  | routed_mint e issuer :
      single_shape "mint" topics value e → isContractAddress (sa_address e) = false →
      after_colon (sa_asset e) = Some issuer → issuer ≠ "" →
      routed topics value ts (PendingPayment
        {| pay_to := sa_address e; pay_from := issuer; pay_amount := fromBigInt (sa_amount e);
           pay_asset := sa_asset e; pay_timestamp := ts; pay_identity := no_identity;
           pay_raw := JUndef |})
  | routed_burn e issuer :
      single_shape "burn" topics value e → isContractAddress (sa_address e) = false →
      after_colon (sa_asset e) = Some issuer → issuer ≠ "" →
      routed topics value ts (PendingPayment
        {| pay_to := issuer; pay_from := sa_address e; pay_amount := fromBigInt (sa_amount e);
           pay_asset := sa_asset e; pay_timestamp := ts; pay_identity := no_identity;
           pay_raw := JUndef |})
  | routed_authorized u issuer :
      authorized_shape topics value u → isAccountAddress (us_id u) = true →
      after_colon (us_asset u) = Some issuer → issuer ≠ "" →
      routed topics value ts (TrustAuth
        {| ta_type := if us_authorize u then trustline_authorized else trustline_deauthorized;
           ta_trustor := us_id u; ta_issuer := issuer; ta_asset := us_asset u;
           ta_timestamp := ts; ta_operation := "set_authorized"; ta_identity := no_identity;
           ta_raw := JUndef |}).

Lemma pending_transfer_Ok topics value ts p :
  pending_transfer topics value ts = Ok p ↔
  ∃ t, transfer_shape topics value t ∧ isContractAddress (ut_from t) = false ∧
    isContractAddress (ut_to t) = false ∧
    p = {| pay_to := ut_to t; pay_from := ut_from t; pay_amount := fromBigInt (ut_amount t);
           pay_asset := native_name (ut_asset t); pay_timestamp := ts;
           pay_identity := memo_only (ut_memo t); pay_raw := JUndef |}.
Proof.
  unfold pending_transfer. rewrite result_bind_Ok. setoid_rewrite decodeUnifiedTransfer_Ok.
  setoid_rewrite result_bind_Ok. setoid_rewrite result_bind_Ok. setoid_rewrite toPaymentAddress_Ok.
  split.
  - intros (t & Ht & to & [Hto ->] & from & [Hf ->] & [= <-]). by exists t.
  - intros (t & Ht & Hf & Hto & ->). by do 3 (eexists; split; [done|]).
Qed.

Lemma pending_mint_Ok topics value ts p :
  pending_mint topics value ts = Ok p ↔
  ∃ e issuer, single_shape "mint" topics value e ∧ isContractAddress (sa_address e) = false ∧
    after_colon (sa_asset e) = Some issuer ∧ issuer ≠ "" ∧
    p = {| pay_to := sa_address e; pay_from := issuer; pay_amount := fromBigInt (sa_amount e);
           pay_asset := sa_asset e; pay_timestamp := ts; pay_identity := no_identity;
           pay_raw := JUndef |}.
Proof.
  unfold pending_mint, decodeUnifiedMint. split.
  - intros H. unchain H. apply result_bind_Ok in H0 as (e & He & [= <-]). cbn in *.
    apply toPaymentAddress_Ok in H1 as [Hc ->]. apply issuerFromAsset_Ok in H2 as [Ha Hi].
    injection H as <-. exists e. eexists. split_and!; try done. by apply decodeSingle_Ok.
  - intros (e & issuer & He%decodeSingle_Ok & Hc & Ha & Hi & ->). rewrite He. cbn.
    rewrite (proj2 (toPaymentAddress_Ok _ _) (conj Hc eq_refl)). cbn.
    by rewrite (proj2 (issuerFromAsset_Ok _ _) (conj Ha Hi)).
Qed.

Lemma pending_burn_Ok topics value ts p :
  pending_burn topics value ts = Ok p ↔
  ∃ e issuer, single_shape "burn" topics value e ∧ isContractAddress (sa_address e) = false ∧
    after_colon (sa_asset e) = Some issuer ∧ issuer ≠ "" ∧
    p = {| pay_to := issuer; pay_from := sa_address e; pay_amount := fromBigInt (sa_amount e);
           pay_asset := sa_asset e; pay_timestamp := ts; pay_identity := no_identity;
           pay_raw := JUndef |}.
Proof.
  unfold pending_burn, decodeUnifiedBurn. split.
  - intros H. unchain H. apply result_bind_Ok in H0 as (e & He & [= <-]). cbn in *.
    apply issuerFromAsset_Ok in H1 as [Ha Hi]. apply toPaymentAddress_Ok in H2 as [Hc ->].
    injection H as <-. exists e. eexists. split_and!; try done. by apply decodeSingle_Ok.
  - intros (e & issuer & He%decodeSingle_Ok & Hc & Ha & Hi & ->). rewrite He. cbn.
    rewrite (proj2 (issuerFromAsset_Ok _ _) (conj Ha Hi)). cbn.
    by rewrite (proj2 (toPaymentAddress_Ok _ _) (conj Hc eq_refl)).
Qed.

Lemma authorized_Ok topics value ts a :
  (u ← decodeUnifiedSetAuthorized topics value; normalizeUnifiedSetAuthorized u ts) = Ok a ↔
  ∃ u issuer, authorized_shape topics value u ∧ isAccountAddress (us_id u) = true ∧
    after_colon (us_asset u) = Some issuer ∧ issuer ≠ "" ∧
    a = {| ta_type := if us_authorize u then trustline_authorized else trustline_deauthorized;
           ta_trustor := us_id u; ta_issuer := issuer; ta_asset := us_asset u;
           ta_timestamp := ts; ta_operation := "set_authorized"; ta_identity := no_identity;
           ta_raw := JUndef |}.
Proof.
  rewrite result_bind_Ok. setoid_rewrite decodeUnifiedSetAuthorized_Ok.
  unfold normalizeUnifiedSetAuthorized, toAccountOnlyAddress. split.
  - intros (u & Hu & H). destruct (isAccountAddress (us_id u)) eqn:Hacc; [|done]. cbn in H.
    apply result_bind_Ok in H as (issuer & [Ha Hi]%issuerFromAsset_Ok & [= <-]).
    by exists u, issuer.
  - intros (u & issuer & Hu & Hacc & Ha & Hi & ->). exists u. split; [done|]. rewrite Hacc. cbn.
    by rewrite (proj2 (issuerFromAsset_Ok _ _) (conj Ha Hi)).
Qed.

Lemma fmap_Ok {A B} (f : A → B) (r : result Cap67Error A) b :
  f <$> r = Ok b ↔ ∃ a, r = Ok a ∧ b = f a.
Proof. destruct r; cbn; naive_solver. Qed.

Lemma case_routed symbol topics value ts e :
  unified_case symbol topics value ts = Some (Ok e) → routed topics value ts e.
Proof.
  unfold unified_case.
  destruct (String.eqb symbol "transfer"); [|destruct (String.eqb symbol "mint");
    [|destruct (String.eqb symbol "burn"); [|destruct (String.eqb symbol "set_authorized");
      [|done]]]]; intros [= H].
  - apply fmap_Ok in H as (p & (t & Ht & Hf & Hto & ->)%pending_transfer_Ok & ->). by constructor.
  - apply fmap_Ok in H as (p & (x & i & Hx & Hc & Ha & Hi & ->)%pending_mint_Ok & ->).
    by constructor 2.
  - apply fmap_Ok in H as (p & (x & i & Hx & Hc & Ha & Hi & ->)%pending_burn_Ok & ->).
    by constructor 3.
  - apply result_bind_Ok in H as (u & Hu & (a & Ha & ->)%fmap_Ok).
    assert (∃ u, decodeUnifiedSetAuthorized topics value = Ok u ∧
              normalizeUnifiedSetAuthorized u ts = Ok a) as H by eauto.
    apply result_bind_Ok in H.
    apply authorized_Ok in H as (u' & i & Hu' & Hacc & Hi & Hne & ->). by constructor.
Qed.

Lemma routed_case topics value ts e :
  routed topics value ts e →
  ∃ symbol, peekUnifiedEventSymbol (head topics) = Some symbol ∧
    unified_case symbol topics value ts = Some (Ok e).
Proof.
  intros [t Ht Hf Ho|x i Hx Hc Ha Hi|x i Hx Hc Ha Hi|u i Hu Hacc Ha Hi].
  - exists "transfer". split.
    + destruct Ht as (? & ? & ? & ? & ? & -> & ? & _). by apply peek_Some.
    + unfold unified_case. cbn [String.eqb Ascii.eqb Bool.eqb]. f_equal. apply fmap_Ok.
      eexists. split; [|done]. apply pending_transfer_Ok. by exists t.
  - exists "mint". split.
    + destruct Hx as (? & ? & ? & ? & -> & ? & _). by apply peek_Some.
    + unfold unified_case. cbn [String.eqb Ascii.eqb Bool.eqb]. f_equal. apply fmap_Ok.
      eexists. split; [|done]. apply pending_mint_Ok. by exists x, i.
  - exists "burn". split.
    + destruct Hx as (? & ? & ? & ? & -> & ? & _). by apply peek_Some.
    + unfold unified_case. cbn [String.eqb Ascii.eqb Bool.eqb]. f_equal. apply fmap_Ok.
      eexists. split; [|done]. apply pending_burn_Ok. by exists x, i.
  - exists "set_authorized". split.
    + destruct Hu as (? & ? & ? & ? & -> & ? & _). by apply peek_Some.
    + unfold unified_case. cbn [String.eqb Ascii.eqb Bool.eqb]. f_equal.
      epose proof (proj2 (authorized_Ok topics value ts _)
        (ex_intro _ u (ex_intro _ i (conj Hu (conj Hacc (conj Ha (conj Hi eq_refl))))))) as H.
      apply result_bind_Ok in H as (u' & Hu' & Hn). apply result_bind_Ok. exists u'.
      split; [done|]. by rewrite Hn.
Qed.

(** A raw event of the unified transport is routed exactly when its topics
    and its value are those of a transfer, a mint, a burn or a change of
    authorization between accounts, as the event [routed] says, under the dedupe
    key of its operation; nothing a server sends makes the dispatch throw but an
    event that names a transaction and has no id. *)
Theorem unified_routes_exactly now raw :
  (∀ (e : Event Semantic) dedupe, unified_outcome_of now raw = Ok (ToRoute e dedupe) ↔
     ∃ topics, coalesce (rpc_topic raw) (rpc_topics raw) = JArr (JStr <$> topics) ∧
       unified_dedupe raw = Ok dedupe ∧
       routed topics (rpc_value raw) (default now (rpc_ledgerClosedAt raw)) e) ∧
  (∀ err, unified_outcome_of (Semantic := Semantic) now raw = Err err →
     is_Some (rpc_txHash raw) ∧ rpc_id raw = None).
Proof.
  unfold unified_outcome_of. split.
  - intros e dedupe. split.
    + destruct (as_array _ ≫= all_strings) as [topics|] eqn:Ht; [|done].
      apply bind_Some in Ht as (l & Hl & ->%all_strings_Some). intros H.
      destruct (peekUnifiedEventSymbol _) as [symbol|]; [|done].
      apply result_bind_Ok in H as (dd & Hdd & H).
      destruct (unified_case _ _ _ _) as [[e'|]|] eqn:Hc; [|done|done]. simplify_eq.
      exists topics. split_and!; [by destruct (coalesce _ _); simplify_eq/=|done|].
      by eapply case_routed.
    + intros (topics & -> & Hdd & (symbol & Hs & Hc)%routed_case). cbn [as_array mbind option_bind].
      rewrite (proj2 (all_strings_Some _ _) eq_refl), Hs, Hdd. cbn. by rewrite Hc.
  - intros err. destruct (as_array _ ≫= all_strings) as [topics|]; [|done].
    destruct (peekUnifiedEventSymbol _) as [symbol|]; [|done].
    unfold unified_dedupe. destruct (rpc_txHash raw), (rpc_id raw); cbn; try done; by eauto.
Qed.
End routed.
End cap67.

(** ** A payment arrives alike through both transports *)










Section transports.
Context {sdk : StellarSdk} {Semantic : Type}.
Context (fts : Z → nat → string) (b64 : string → list Z).
Context (sem : string → list jsval → jsval → option Semantic).








End transports.

(** ** What tells the transports apart *)

(** The comment of [dispatchUnifiedEvent] calls the two indistinguishable, but no
    unified event names its transaction or its ledger: a trigger skips all of
    them, where it takes Horizon's record of the same payment. *)
Lemma unified_never_triggers `{StellarSdk} {Semantic} topics value ts (e : Event Semantic) fts :
  routed topics value ts e → ledgerOf e = None ∧ eventIdentity fts e = None.
Proof. by destruct 1. Qed.

(** Nor does a change of authorization name the operation it came from, although
    the normaliser's comment says consumers see an identical event. *)
Lemma unified_operation `{StellarSdk} {Semantic} topics value ts a :
  routed (Semantic := Semantic) topics value ts (TrustAuth a) →
  ta_operation a = "set_authorized" ∧ id_txHash (ta_identity a) = None.
Proof. by inversion 1. Qed.

(** The exported normaliser of transfers gives the event the dispatch gives the
    sender's watcher. *)
Lemma normalizer_is_senders_view `{StellarSdk} {Semantic} topics value ts t type p :
  decodeUnifiedTransfer topics value = Ok t →
  normalizeUnifiedTransfer t ts = Ok (type, p) →
  pending_transfer topics value ts = Ok p ∧
  ∀ (r : Router (Semantic := Semantic)) w,
    mget (pay_from p) (registry r) = Some w →
    passesFilter r (pay_from p) (Payment type p) = true →
    EmitEvent w (payment_name type) (Payment type p) ∈ route_payment r p.
Proof.
  intros Ht Hn. unfold pending_transfer. rewrite Ht. cbn. unfold normalizeUnifiedTransfer in Hn.
  apply result_bind_Ok in Hn as (to & Hto & Hn). rewrite Hto. cbn.
  apply result_bind_Ok in Hn as (from & Hfrom & Hn). rewrite Hfrom. cbn. simplify_eq.
  split; [done|]. intros r w Hw Hp. unfold route_payment, notify, withResolvedType. cbn in *.
  destruct (String.eqb_spec from to) as [->|]; cbn.
  - rewrite Hw, Hp. left.
  - apply elem_of_app. right. rewrite Hw, Hp. left.
Qed.

(** ** Examples *)

(** A toy of the SDK: the first character of a text is the kind of its value. *)
Inductive toy :=
  | TSymbol (s : string)
  | TString (s : string)
  | TAddress (s : string)
  | TI128 (z : Z)
  | TU64 (z : Z)
  | TBool (b : bool)
  | TMap (l : list (toy * toy)).

Definition toy_of (s : string) : option toy :=
  match s with
  | String "y" r => Some (TSymbol r)
  | String "s" r => Some (TString r)
  | String "a" r => Some (TAddress r)
  | String "b" r => Some (TBool (String.eqb r "true"))
  | String "i" r => TI128 <$> bigint_of_string r
  | String "m" r => z ← bigint_of_string r;
      Some (TMap [(TSymbol "to_muxed_id", TU64 z); (TSymbol "amount", TI128 10000000)])
  | _ => None
  end.

Definition toy_sdk : StellarSdk :=
  {| ScVal := toy; fromXDR := toy_of;
     scValToNative v := Some
       match v with
       | TSymbol s | TString s => NString s
       | TI128 z | TU64 z => NBigint z
       | TBool b => NBoolean b
       | _ => NOther
       end;
     switch v :=
       match v with TI128 _ => scvI128 | TBool _ => scvBool | TMap _ => scvMap | _ => scvOther end;
     map_entries v := match v with TMap l => Some l | _ => None end;
     address_string v := match v with TAddress a => Some a | _ => None end;
     isAccountAddress := starts_with "G"; isMuxedAddress := starts_with "M";
     isContractAddress := starts_with "C" |}.


Definition sample_raw (value : string) (id : option string) : SorobanRpcEvent :=
  {| rpc_topic := JArr [JStr "ytransfer"; JStr "aGA"; JStr "aGB"; JStr "snative"];
     rpc_topics := JUndef; rpc_value := JStr value; rpc_id := id; rpc_txHash := Some "ab";
     rpc_ledgerClosedAt := Some "2026-01-01T00:00:00Z" |}.


(** CAP-67 carries the number of a muxed destination in [to_muxed_id]; a value
    that is no text makes the whole payment undecodable. *)
Lemma muxed_number_drops_payment :
  unified_outcome_of (sdk := toy_sdk) (Semantic := unit) "" (sample_raw "m7" (Some "4096-1"))
    = Ok (Failed "transfer" MemoNotString).
Proof. reflexivity. Qed.

(** An event without an id escapes the [try] of the dispatch. *)
Lemma missing_id_throws :
  unified_outcome_of (sdk := toy_sdk) (Semantic := unit) "" (sample_raw "i1" None)
    = Err TypeError.
Proof. reflexivity. Qed.
