(* ===== verification/UnifiedPoller.v ===== *)
(** * The poller of the unified transport
    (packages/pulse-core/src/EventEngine.ts, [startUnifiedPoller],
     [resolveUnifiedCursor], [enqueueUnifiedCursorWrite], [persistUnifiedCursor],
     [runAfterNetworkVerified] and the unified part of [start] and [stop];
     packages/pulse-core/src/SorobanRpcClient.ts, [pollUnifiedEvents])

    A poll of the client is a loop with awaits; each await is a point of
    [Poller] and each resumption a step, and so are the writes of the cursor and
    the stretches of [stop].  Whatever comes in between is another label: other
    pollers, other calls of start and stop, the other writers of the cursor
    store.  What a step does is written to an output list. *)

From S2P Require Import Prelude.
From S2P Require Import JsMap.
From S2P Require Import JsValue.
From S2P Require Import EventTypes.
From S2P Require Import Dedupe.
From S2P Require Import Route.
From S2P Require Import Stream.
From S2P Require Import Soroban.
From S2P Require Import RpcClient.
From S2P Require Import Cap67.

(** ** The state *)

(** What a poll rejects with: what [getEvents] rejected with, an abort, or what
    the handler of a page threw. *)
Inductive Rejection :=
  | RejectedBy (e : RpcFailure)
  | Threw (e : js_error).

Inductive Point :=
  | WaitCursor
  | WaitEvents
  | WaitSleep
  | WaitBackoff
  | Returned
  | Rejected (why : Rejection).

#[export] Instance point_waits_dec (pt : Point) : Decision (pt = WaitCursor).
Proof. refine (match pt with WaitCursor => left eq_refl | _ => right _ end); discriminate. Defined.

(** One [unifiedPollPromise], the signal of its controller included. *)
Record Poller := {
  cursor : option string;
  attempt : Z;
  point : Point;
  aborted : bool;
}.

Definition at_point (pt : Point) (p : Poller) : Poller :=
  {| cursor := cursor p; attempt := attempt p; point := pt; aborted := aborted p |}.
Definition with_cursor (c : option string) (p : Poller) : Poller :=
  {| cursor := c; attempt := attempt p; point := point p; aborted := aborted p |}.
Definition with_attempt (n : Z) (p : Poller) : Poller :=
  {| cursor := cursor p; attempt := n; point := point p; aborted := aborted p |}.
Definition abort (p : Poller) : Poller :=
  {| cursor := cursor p; attempt := attempt p; point := point p; aborted := true |}.

Definition finished (p : Poller) : bool :=
  match point p with Returned | Rejected _ => true | _ => false end.

(** The answer of [getEvents] *)
Record UnifiedPage := { up_events : list SorobanRpcEvent; up_cursor : option string }.

(** Where a call of [stop] is: before its first await has settled, waiting for a
    poll, or for the writes up to a number. *)
Inductive Stopping :=
  | WaitSubscriber
  | WaitPoll (i : nat)
  | WaitWrites (upto : nat).

Section poller.
Context {sdk : StellarSdk} {Semantic : Type}.
Notation Router := (Router (Semantic := Semantic)).
Notation Emission := (Emission (Semantic := Semantic)).

Record Engine := {
  router : Router;
  effectiveIngestion : Transport;
  horizonRunning : bool;               (** [isRunning], the Horizon stream's *)
  stopGeneration : nat;
  deferred : list nat;                 (** starts that wait for the network probe *)
  pollers : list Poller;
  unifiedController : option nat;
  unifiedPollPromise : option nat;
  unifiedRunning : bool;
  unifiedLastEventAt : option string;
  queued : list string;                (** cursor writes that have not begun *)
  writing : option string;
  settled : nat;                       (** cursor writes that have settled *)
  stored : option string;              (** the value of the cursor store *)
  consecutiveCursorFailures : Z;
  isCursorStoreUnhealthy : bool;
  stops : list Stopping;
}.

(** What the outside sees: a page asked for, an event handed to the dispatch, an
    emission to a watcher, a page done with and the transport payments came from
    then, a lifecycle notification, a call of
    [cursorStore.set], the end of a [stop]. *)
Inductive Output :=
  | Asked (i : nat) (cursor : option string)
  | Dispatched (raw : SorobanRpcEvent)
  | Emitted (e : Emission)
  | Paged (i : nat) (mode : Transport) (events : list SorobanRpcEvent) (cursor : option string)
  | Notified (n : Notice)
  | SetCalled (cursor : string)
  | StopDone.

Definition with_pollers (ps : list Poller) (s : Engine) : Engine :=
  {| router := router s; effectiveIngestion := effectiveIngestion s;
     horizonRunning := horizonRunning s; stopGeneration := stopGeneration s;
     deferred := deferred s; pollers := ps; unifiedController := unifiedController s;
     unifiedPollPromise := unifiedPollPromise s; unifiedRunning := unifiedRunning s;
     unifiedLastEventAt := unifiedLastEventAt s; queued := queued s; writing := writing s;
     settled := settled s; stored := stored s;
     consecutiveCursorFailures := consecutiveCursorFailures s;
     isCursorStoreUnhealthy := isCursorStoreUnhealthy s; stops := stops s |}.
Definition with_running (b : bool) (s : Engine) : Engine :=
  {| router := router s; effectiveIngestion := effectiveIngestion s;
     horizonRunning := horizonRunning s; stopGeneration := stopGeneration s;
     deferred := deferred s; pollers := pollers s; unifiedController := unifiedController s;
     unifiedPollPromise := unifiedPollPromise s; unifiedRunning := b;
     unifiedLastEventAt := unifiedLastEventAt s; queued := queued s; writing := writing s;
     settled := settled s; stored := stored s;
     consecutiveCursorFailures := consecutiveCursorFailures s;
     isCursorStoreUnhealthy := isCursorStoreUnhealthy s; stops := stops s |}.
Definition with_page (r : Router) (at_ : option string) (s : Engine) : Engine :=
  {| router := r; effectiveIngestion := effectiveIngestion s; horizonRunning := horizonRunning s;
     stopGeneration := stopGeneration s; deferred := deferred s; pollers := pollers s;
     unifiedController := unifiedController s; unifiedPollPromise := unifiedPollPromise s;
     unifiedRunning := unifiedRunning s; unifiedLastEventAt := at_; queued := queued s;
     writing := writing s; settled := settled s; stored := stored s;
     consecutiveCursorFailures := consecutiveCursorFailures s;
     isCursorStoreUnhealthy := isCursorStoreUnhealthy s; stops := stops s |}.
Definition with_writes (q : list string) (w : option string) (n : nat) (s : Engine) : Engine :=
  {| router := router s; effectiveIngestion := effectiveIngestion s;
     horizonRunning := horizonRunning s; stopGeneration := stopGeneration s;
     deferred := deferred s; pollers := pollers s; unifiedController := unifiedController s;
     unifiedPollPromise := unifiedPollPromise s; unifiedRunning := unifiedRunning s;
     unifiedLastEventAt := unifiedLastEventAt s; queued := q; writing := w; settled := n;
     stored := stored s; consecutiveCursorFailures := consecutiveCursorFailures s;
     isCursorStoreUnhealthy := isCursorStoreUnhealthy s; stops := stops s |}.
Definition with_store (v : option string) (failures : Z) (unhealthy : bool) (s : Engine) : Engine :=
  {| router := router s; effectiveIngestion := effectiveIngestion s;
     horizonRunning := horizonRunning s; stopGeneration := stopGeneration s;
     deferred := deferred s; pollers := pollers s; unifiedController := unifiedController s;
     unifiedPollPromise := unifiedPollPromise s; unifiedRunning := unifiedRunning s;
     unifiedLastEventAt := unifiedLastEventAt s; queued := queued s; writing := writing s;
     settled := settled s; stored := v; consecutiveCursorFailures := failures;
     isCursorStoreUnhealthy := unhealthy; stops := stops s |}.
Definition with_stops (l : list Stopping) (s : Engine) : Engine :=
  {| router := router s; effectiveIngestion := effectiveIngestion s;
     horizonRunning := horizonRunning s; stopGeneration := stopGeneration s;
     deferred := deferred s; pollers := pollers s; unifiedController := unifiedController s;
     unifiedPollPromise := unifiedPollPromise s; unifiedRunning := unifiedRunning s;
     unifiedLastEventAt := unifiedLastEventAt s; queued := queued s; writing := writing s;
     settled := settled s; stored := stored s;
     consecutiveCursorFailures := consecutiveCursorFailures s;
     isCursorStoreUnhealthy := isCursorStoreUnhealthy s; stops := l |}.
Definition with_control (c p : option nat) (s : Engine) : Engine :=
  {| router := router s; effectiveIngestion := effectiveIngestion s;
     horizonRunning := horizonRunning s; stopGeneration := stopGeneration s;
     deferred := deferred s; pollers := pollers s; unifiedController := c;
     unifiedPollPromise := p; unifiedRunning := unifiedRunning s;
     unifiedLastEventAt := unifiedLastEventAt s; queued := queued s; writing := writing s;
     settled := settled s; stored := stored s;
     consecutiveCursorFailures := consecutiveCursorFailures s;
     isCursorStoreUnhealthy := isCursorStoreUnhealthy s; stops := stops s |}.
Definition with_start (mode : Transport) (d : list nat) (s : Engine) : Engine :=
  {| router := router s; effectiveIngestion := mode; horizonRunning := horizonRunning s;
     stopGeneration := stopGeneration s; deferred := d; pollers := pollers s;
     unifiedController := unifiedController s; unifiedPollPromise := unifiedPollPromise s;
     unifiedRunning := unifiedRunning s; unifiedLastEventAt := unifiedLastEventAt s;
     queued := queued s; writing := writing s; settled := settled s; stored := stored s;
     consecutiveCursorFailures := consecutiveCursorFailures s;
     isCursorStoreUnhealthy := isCursorStoreUnhealthy s; stops := stops s |}.
Definition with_horizon (b : bool) (g : nat) (d : list nat) (s : Engine) : Engine :=
  {| router := router s; effectiveIngestion := effectiveIngestion s; horizonRunning := b;
     stopGeneration := g; deferred := d; pollers := pollers s;
     unifiedController := unifiedController s; unifiedPollPromise := unifiedPollPromise s;
     unifiedRunning := unifiedRunning s; unifiedLastEventAt := unifiedLastEventAt s;
     queued := queued s; writing := writing s; settled := settled s; stored := stored s;
     consecutiveCursorFailures := consecutiveCursorFailures s;
     isCursorStoreUnhealthy := isCursorStoreUnhealthy s; stops := stops s |}.

(** The settings of the engine, and those of a poll ([None]: no limit). *)
Context (hasCursorStore : bool) (cursorFailureThreshold : Z).
Context (pageLimit : nat) (maxRetries : option Z) (initialBackoffMs maxBackoffMs : Z).

(** ** pollUnifiedEvents *)

(** A poll goes on; when it has settled, its [finally] has run. *)
Definition resumed (i : nat) (p : Poller) (s : Engine) : Engine :=
  let s := with_pollers (<[i := p]> (pollers s)) s in
  if finished p then with_running false s else s.

(** The head of the loop. *)
Definition loop_top (i : nat) (p : Poller) : list Output * Poller :=
  if aborted p then ([], at_point Returned p)
  else ([Asked i (cursor p)], at_point WaitEvents p).

Definition goes_on (i : nat) (p : Poller) (s : Engine) : list Output * Engine :=
  let '(out, p) := loop_top i p in (out, resumed i p s).

(** [sleep]: a signal that was aborted rejects at once. *)
Definition sleeps (i : nat) (pt : Point) (if_aborted : Point) (p : Poller) (s : Engine) : Engine :=
  resumed i (at_point (if aborted p then if_aborted else pt) p) s.

(** The events of a page, one after the other, until one throws. *)
Fixpoint dispatch_all (now : string) (events : list SorobanRpcEvent) (r : Router)
    : list Output * Router * option js_error :=
  match events with
  | [] => ([], r, None)
  | raw :: rest =>
      match dispatchUnifiedEvent false now raw r with
      | Err e => ([Dispatched raw], r, Some e)
      | Ok (emissions, r) =>
          let '(out, r, threw) := dispatch_all now rest r in
          (Dispatched raw :: (Emitted <$> emissions) ++ out, r, threw)
      end
  end.

(** [onEvents] *)
Definition on_events (now : string) (events : list SorobanRpcEvent) (s : Engine)
    : list Output * Engine * option js_error :=
  match effectiveIngestion s with
  | via_horizon => ([], with_page (router s) (Some now) s, None)
  | via_unified =>
      let '(out, r, threw) := dispatch_all now events (router s) in
      (out, with_page r (Some now) s, threw)
  end.

Definition enqueueUnifiedCursorWrite (c : string) (s : Engine) : Engine :=
  with_writes (queued s ++ [c]) (writing s) (settled s) s.

(** An empty page is not handed over. *)
Definition handle_page (now : string) (events : list SorobanRpcEvent) (s : Engine)
    : list Output * Engine * option js_error :=
  match events with [] => ([], s, None) | _ => on_events now events s end.

Definition page_answered (i : nat) (p : Poller) (now : string) (page : UnifiedPage) (s : Engine)
    : list Output * Engine :=
  let recovered := if (0 <? attempt p)%Z then [Notified (Reconnected (attempt p))] else [] in
  let p := with_attempt 0 p in
  let '(out, s, threw) := handle_page now (up_events page) s in
  match threw with
  | Some e => (recovered ++ out, resumed i (at_point (Rejected (Threw e)) p) s)
  | None =>
      let '(p, s) :=
        match up_cursor page with
        | Some c => (with_cursor (Some c) p, enqueueUnifiedCursorWrite c s)
        | None => (p, s)
        end in
      let paged := recovered ++ out ++ [Paged i (effectiveIngestion s) (up_events page) (up_cursor page)] in
      if length (up_events page) <? pageLimit then (paged, sleeps i WaitSleep Returned p s)
      else let '(asked, s) := goes_on i p s in (paged ++ asked, s)
  end.

(** The [catch] of the loop; [random] is [Math.random()]. *)
Definition events_failed (i : nat) (p : Poller) (random : Z) (e : RpcFailure) (s : Engine)
    : list Output * Engine :=
  match e with
  | AbortFailure => ([], resumed i (at_point Returned p) s)
  | OtherFailure => ([], resumed i (at_point (Rejected (RejectedBy e)) p) s)
  | RpcFailed err =>
      if negb (rpc_retryable err) then
        ([], resumed i (at_point (Rejected (RejectedBy e)) p) s)
      else
        let p := with_attempt (attempt p + 1) p in
        if match maxRetries with Some n => n <? attempt p | None => false end%Z then
          ([], resumed i (at_point (Rejected (RejectedBy e)) p) s)
        else
          let rateLimited := String.eqb (rpc_code err) "rate_limit" in
          let delayMs :=
            match rpc_retryAfterMs err with
            | Some d => if rateLimited then d
                        else fullJitterBackoffMs random (attempt p) initialBackoffMs maxBackoffMs
            | None => fullJitterBackoffMs random (attempt p) initialBackoffMs maxBackoffMs
            end in
          ([Notified (if rateLimited then RateLimited (attempt p) delayMs
                      else Reconnecting (attempt p) delayMs)],
           sleeps i WaitBackoff (Rejected (RejectedBy AbortFailure)) p s)
  end.

(** What an await of a poll gets; [Woken] is the end of a sleep, by its timer or
    by the abort. *)
Inductive Answer :=
  | CursorResolved (value : result unit (option string))
  | EventsAnswered (now : string) (random : Z) (answer : result RpcFailure UnifiedPage)
  | Woken.

Definition resolveUnifiedCursor (value : result unit (option string)) : option string :=
  if hasCursorStore then match value with Ok c => c | Err _ => None end else None.

(** An answer nobody waits for changes nothing. *)
Definition resume (i : nat) (a : Answer) (s : Engine) : list Output * Engine :=
  match pollers s !! i with
  | None => ([], s)
  | Some p =>
      match point p, a with
      | WaitCursor, CursorResolved v => goes_on i (with_cursor (resolveUnifiedCursor v) p) s
      | WaitEvents, EventsAnswered now _ (Ok page) => page_answered i p now page s
      | WaitEvents, EventsAnswered _ random (Err e) => events_failed i p random e s
      | WaitSleep, Woken =>
          if aborted p then ([], resumed i (at_point Returned p) s) else goes_on i p s
      | WaitBackoff, Woken =>
          if aborted p then ([], resumed i (at_point (Rejected (RejectedBy AbortFailure)) p) s)
          else goes_on i p s
      | _, _ => ([], s)
      end
  end.

(** ** The cursor's writes *)

(** [persistUnifiedCursor] up to its await. *)
Definition write_begins (s : Engine) : list Output * Engine :=
  match writing s, queued s with
  | None, c :: rest =>
      if negb hasCursorStore || isCursorStoreUnhealthy s then
        ([], with_writes rest None (S (settled s)) s)
      else ([SetCalled c], with_writes rest (Some c) (settled s) s)
  | _, _ => ([], s)
  end.

(** [handleCursorFailure] *)
Definition handleCursorFailure (s : Engine) : list Output * Engine :=
  let failures := (consecutiveCursorFailures s + 1)%Z in
  if (cursorFailureThreshold <=? failures)%Z then
    ([Notified CursorStoreUnhealthy], with_store (stored s) failures true s)
  else ([], with_store (stored s) failures (isCursorStoreUnhealthy s) s).

(** A write that was rejected may have taken effect all the same. *)
Definition write_settles (ok landed : bool) (s : Engine) : list Output * Engine :=
  match writing s with
  | None => ([], s)
  | Some c =>
      let s := with_writes (queued s) None (S (settled s)) s in
      if ok then ([], with_store (Some c) 0 false s)
      else
        handleCursorFailure
          (if landed then
             with_store (Some c) (consecutiveCursorFailures s) (isCursorStoreUnhealthy s) s
           else s)
  end.

(** ** start and stop *)

Definition new_poller : Poller :=
  {| cursor := None; attempt := 0; point := WaitCursor; aborted := false |}.

Definition startUnifiedPoller (s : Engine) : Engine :=
  if unifiedRunning s then s
  else
    let i := length (pollers s) in
    with_running true
      (with_control (Some i) (Some i) (with_pollers (pollers s ++ [new_poller]) s)).

(** The end of [runAfterNetworkVerified]: the mode is resolved, the poller
    started. *)
Definition network_verified (mode : Transport) (s : Engine) : Engine :=
  startUnifiedPoller (with_start mode (deferred s) s).

(** [start]; with [None] the network is still being probed. *)
Definition start (verified : option Transport) (s : Engine) : Engine :=
  if horizonRunning s then s
  else
    match verified with
    | Some mode => network_verified mode (with_horizon true (stopGeneration s) (deferred s) s)
    | None => with_horizon true (stopGeneration s) (deferred s ++ [stopGeneration s]) s
    end.

(** [stop] up to its first await. *)
Definition stop (s : Engine) : Engine :=
  with_stops (stops s ++ [WaitSubscriber])
    (with_page (with_pausedSources ∅ (router s)) (unifiedLastEventAt s)
      (with_horizon false (S (stopGeneration s)) (deferred s) s)).

(** The probe settles for the start that waited longest; [None] is a mismatch of
    the networks, which stops the engine. *)
Definition probe_settles (verified : option Transport) (s : Engine) : Engine :=
  match deferred s with
  | [] => s
  | g :: rest =>
      let s := with_horizon (horizonRunning s) (stopGeneration s) rest s in
      if negb (stopGeneration s =? g) then s
      else match verified with
      | Some mode => network_verified mode s
      | None => stop s
      end
  end.

(** The writes that were ever queued. *)
Definition writes_queued (s : Engine) : nat :=
  settled s + length (queued s) + (match writing s with Some _ => 1 | None => 0 end).

Definition stop_ends (k : nat) (s : Engine) : list Output * Engine :=
  ([Notified Stopped; StopDone], with_stops (delete k (stops s)) (with_running false s)).

(** [flushUnifiedCursorWrites]: without a write ever queued there is nothing to
    wait for. *)
Definition stop_flushes (k : nat) (s : Engine) : list Output * Engine :=
  if writes_queued s =? 0 then stop_ends k s
  else ([], with_stops (<[k := WaitWrites (writes_queued s)]> (stops s)) s).

Definition abort_controller (s : Engine) : Engine :=
  match unifiedController s with
  | None => s
  | Some i => with_control None (unifiedPollPromise s) (with_pollers (alter abort i (pollers s)) s)
  end.

(** A stretch of the call [k] of [stop], when what it waits for has settled. *)
Definition stop_resumes (k : nat) (s : Engine) : list Output * Engine :=
  match stops s !! k with
  | Some WaitSubscriber =>
      let s := abort_controller s in
      match unifiedPollPromise s with
      | Some i => ([], with_stops (<[k := WaitPoll i]> (stops s)) s)
      | None => stop_flushes k s
      end
  | Some (WaitPoll i) =>
      match pollers s !! i with
      | Some p =>
          if finished p then stop_flushes k (with_control (unifiedController s) None s)
          else ([], s)
      | None => ([], s)
      end
  | Some (WaitWrites upto) => if upto <=? settled s then stop_ends k s else ([], s)
  | None => ([], s)
  end.

(** ** Steps *)

Inductive label :=
  | Start (verified : option Transport)
  | ProbeSettles (verified : option Transport)
  | HorizonLost
  | Stop
  | StopResumes (k : nat)
  | Resume (i : nat) (a : Answer)
  | WriteBegins
  | WriteSettles (ok landed : bool)
  | OtherWrites (failures : Z) (unhealthy : bool)
  | RouterChanges (r : Router).

(** [HorizonLost]: the stream gave up.  [OtherWrites]: the Horizon or the Soroban
    cursor was written.  [RouterChanges]: a subscription, a pause, an event of
    another transport. *)
Definition step (l : label) (s : Engine) : list Output * Engine :=
  match l with
  | Start v => ([], start v s)
  | ProbeSettles v => ([], probe_settles v s)
  | HorizonLost => ([], with_horizon false (stopGeneration s) (deferred s) s)
  | Stop => ([], stop s)
  | StopResumes k => stop_resumes k s
  | Resume i a => resume i a s
  | WriteBegins => write_begins s
  | WriteSettles ok landed => write_settles ok landed s
  | OtherWrites failures unhealthy => ([], with_store (stored s) failures unhealthy s)
  | RouterChanges r => ([], with_page r (unifiedLastEventAt s) s)
  end.

Fixpoint run (ls : list label) (s : Engine) : list Output * Engine :=
  match ls with
  | [] => ([], s)
  | l :: ls => let '(out, s) := step l s in let '(out', s) := run ls s in (out ++ out', s)
  end.

Definition fresh (r : Router) (value : option string) : Engine :=
  {| router := r; effectiveIngestion := via_horizon; horizonRunning := false; stopGeneration := 0;
     deferred := []; pollers := []; unifiedController := None; unifiedPollPromise := None;
     unifiedRunning := false; unifiedLastEventAt := None; queued := []; writing := None;
     settled := 0; stored := value; consecutiveCursorFailures := 0;
     isCursorStoreUnhealthy := false; stops := [] |}.

(** ** Runs *)

Lemma run_induction_on (P : label → Prop) (I : list Output → Engine → Prop) ls s :
  Forall P ls → I [] s →
  (∀ out s l, P l → I out s → I (out ++ (step l s).1) (step l s).2) →
  I (run ls s).1 (run ls s).2.
Proof.
  intros Hls H0 Hstep.
  cut (∀ out s, I out s → I (out ++ (run ls s).1) (run ls s).2); [by intros Hg; apply (Hg [])|].
  clear H0 s. induction Hls as [|l ls Hl _ IH]; intros out s Hi; cbn; [by rewrite app_nil_r|].
  specialize (Hstep out s l Hl Hi). destruct (step l s) as [o s']. cbn in Hstep.
  specialize (IH _ _ Hstep). destruct (run ls s') as [o' s'']. cbn in *. by rewrite app_assoc.
Qed.

(** ** Pages, dispatches and cursors *)

Definition set_calls (out : list Output) : list string :=
  omap (λ o, match o with SetCalled c => Some c | _ => None end) out.
Definition page_cursors (out : list Output) : list string :=
  omap (λ o, match o with Paged _ _ _ (Some c) => Some c | _ => None end) out.
Definition dispatched (out : list Output) : list SorobanRpcEvent :=
  omap (λ o, match o with Dispatched raw => Some raw | _ => None end) out.
(** The events of the pages done with while payments came from the server. *)
Definition unified_events (out : list Output) : list SorobanRpcEvent :=
  out ≫= λ o, match o with Paged _ via_unified events _ => events | _ => [] end.

(** The cursor the poll [i] last asked with or was given. *)
Definition position_step (i : nat) (pos : option (option string)) (o : Output)
    : option (option string) :=
  match o with
  | Asked j c => if decide (j = i) then Some c else pos
  | Paged j _ _ (Some c) => if decide (j = i) then Some (Some c) else pos
  | _ => pos
  end.
Definition position (i : nat) (out : list Output) : option (option string) :=
  foldl (position_step i) None out.

(** What a stretch of poll [i] may output: nothing of the other polls' pages. *)
Definition quiet (o : Output) : Prop :=
  match o with Emitted _ | Notified _ | Dispatched _ => True | _ => False end.

Lemma dispatch_all_spec now events r :
  let '(out, _, threw) := dispatch_all now events r in
  Forall quiet out ∧ (threw = None → dispatched out = events).
Proof.
  revert r. induction events as [|raw rest IH]; intros r; cbn; [by split; [constructor|]|].
  destruct (dispatchUnifiedEvent false now raw r) as [[em r']|e]; [|split; [by repeat constructor|done]].
  specialize (IH r'). destruct (dispatch_all now rest r') as [[out r''] threw].
  destruct IH as [Hq Hd]. split.
  - constructor; [done|]. apply Forall_app. split; [|done]. induction em; by constructor.
  - intros Ht. unfold dispatched. cbn. f_equal. rewrite omap_app.
    replace (omap _ (Emitted <$> em)) with (@nil SorobanRpcEvent); [by apply Hd|].
    clear. by induction em.
Qed.

(** What a resumption leaves alone. *)
Definition frame (s : Engine) :=
  (unifiedController s, unifiedPollPromise s, stops s, deferred s, stopGeneration s,
   effectiveIngestion s, (writing s, settled s, stored s)).

Definition paged_out (i : nat) (mode : Transport) (paged : option (list SorobanRpcEvent * option string))
    : list Output :=
  match paged with Some (events, c) => [Paged i mode events c] | None => [] end.
Definition asked_out (i : nat) (p : Poller) : list Output :=
  match point p with WaitEvents => [Asked i (cursor p)] | _ => [] end.
Definition new_cursor (paged : option (list SorobanRpcEvent * option string)) : option string :=
  match paged with Some (_, c) => c | None => None end.

(** A resumption either finds nobody waiting, or takes one poll from an await to
    the next: at most one page is finished, then at most one asked for. *)
Inductive resumption (i : nat) (s : Engine) : list Output → Engine → Prop :=
  | nobody : resumption i s [] s
  | went p pre paged p' out s' :
      out = pre ++ paged_out i (effectiveIngestion s) paged ++ asked_out i p' →
      pollers s !! i = Some p → finished p = false →
      Forall quiet pre →
      (∀ events c, paged = Some (events, c) → effectiveIngestion s = via_unified →
         dispatched pre = events) →
      frame s' = frame s → pollers s' = <[i := p']> (pollers s) →
      queued s' = queued s ++ option_list (new_cursor paged) →
      unifiedRunning s' = (if finished p' then false else unifiedRunning s) →
      aborted p' = aborted p → (aborted p = true → finished p' = true) →
      (point p = WaitCursor → paged = None ∧ (finished p' = true ∨ point p' = WaitEvents)) →
      point p' ≠ WaitCursor →
      (point p ≠ WaitCursor →
         cursor p' = match new_cursor paged with Some c => Some c | None => cursor p end) →
      resumption i s out s'.

Lemma went_resumed i s s2 p pre paged p2 out :
  out = pre ++ paged_out i (effectiveIngestion s) paged ++ asked_out i p2 →
  pollers s !! i = Some p → finished p = false → Forall quiet pre →
  (∀ events c, paged = Some (events, c) → effectiveIngestion s = via_unified →
     dispatched pre = events) →
  frame s2 = frame s ∧ pollers s2 = pollers s ∧
    queued s2 = queued s ++ option_list (new_cursor paged) ∧
    unifiedRunning s2 = unifiedRunning s →
  aborted p2 = aborted p → (aborted p = true → finished p2 = true) →
  (point p = WaitCursor → paged = None ∧ (finished p2 = true ∨ point p2 = WaitEvents)) →
  point p2 ≠ WaitCursor →
  (point p ≠ WaitCursor →
     cursor p2 = match new_cursor paged with Some c => Some c | None => cursor p end) →
  resumption i s out (resumed i p2 s2).
Proof.
  intros Hout Hi Hf Hq Hd (Hfr & Hps & Hqu & Hr) ?????.
  apply (went i s p pre paged p2); try done; unfold resumed.
  - by destruct (finished p2).
  - rewrite <-Hps. by destruct (finished p2).
  - rewrite <-Hqu. by destruct (finished p2).
  - rewrite <-Hr. by destruct (finished p2).
Qed.

Lemma went_plain i s p p' pre :
  pollers s !! i = Some p → finished p = false → Forall quiet pre → aborted p' = aborted p →
  (aborted p = true → finished p' = true) →
  (point p = WaitCursor → finished p' = true ∨ point p' = WaitEvents) → point p' ≠ WaitCursor →
  (point p ≠ WaitCursor → cursor p' = cursor p) →
  resumption i s (pre ++ asked_out i p') (resumed i p' s).
Proof.
  intros. apply (went_resumed i s s p pre None p'); try done.
  - cbn. by rewrite app_nil_r.
  - auto.
Qed.

Lemma goes_on_spec i p p0 s :
  pollers s !! i = Some p0 → finished p0 = false → aborted p = aborted p0 →
  (point p0 ≠ WaitCursor → cursor p = cursor p0) →
  resumption i s (goes_on i p s).1 (goes_on i p s).2.
Proof.
  intros Hi Hf Ha Hc. unfold goes_on, loop_top. destruct (aborted p) eqn:E; cbn.
  - apply (went_plain i s p0 (at_point Returned p) []); try done; [by rewrite <-Ha|by left].
  - apply (went_plain i s p0 (at_point WaitEvents p) []); try done; cbn; [by rewrite <-Ha|congruence|by right].
Qed.

Lemma handle_page_spec now events s :
  let '(out, s', threw) := handle_page now events s in
  Forall quiet out ∧
  (threw = None → effectiveIngestion s = via_unified → dispatched out = events) ∧
  frame s' = frame s ∧ pollers s' = pollers s ∧ queued s' = queued s ∧
  unifiedRunning s' = unifiedRunning s.
Proof.
  unfold handle_page. destruct events as [|raw rest]; [by split_and!|].
  unfold on_events. destruct (effectiveIngestion s) eqn:Hm.
  - pose proof (dispatch_all_spec now (raw :: rest) (router s)) as Hd.
    destruct (dispatch_all _ _ _) as [[out r] threw]. destruct Hd as [Hq Hd].
    split_and!; [done|by auto|done..].
  - by split_and!.
Qed.

Lemma dispatched_app x y : dispatched (x ++ y) = dispatched x ++ dispatched y.
Proof. unfold dispatched. by rewrite omap_app. Qed.

Lemma page_answered_spec i p now page s :
  pollers s !! i = Some p → point p = WaitEvents →
  resumption i s (page_answered i p now page s).1 (page_answered i p now page s).2.
Proof.
  intros Hi Hp. unfold page_answered.
  pose proof (handle_page_spec now (up_events page) s) as Hh.
  destruct (handle_page _ _ s) as [[out s1] threw]. destruct Hh as (Hq & Hd & Hf & Hps & Hqu & Hr).
  set (recovered := if (0 <? attempt p)%Z then [Notified (Reconnected (attempt p))] else []).
  assert (Forall quiet recovered ∧ dispatched recovered = []) as [Hq0 Hrec].
  { unfold recovered. destruct (0 <? attempt p)%Z; (split; [repeat constructor|done]). }
  assert (Forall quiet (recovered ++ out)) as Hq' by by apply Forall_app.
  assert (finished p = false) as Hfin by (unfold finished; by rewrite Hp).
  destruct threw as [e|].
  { apply (went_resumed i s s1 p (recovered ++ out) None); try done; cbn.
    - by rewrite app_nil_r.
    - by rewrite app_nil_r.
    - congruence. }
  assert (∀ events c, Some (up_events page, up_cursor page) = Some (events, c) →
    effectiveIngestion s = via_unified → dispatched (recovered ++ out) = events) as Hd'.
  { intros events c [= <- <-] Hm. rewrite dispatched_app, Hrec. by apply Hd. }
  set (p1 := match up_cursor page with Some c => with_cursor (Some c) (with_attempt 0 p)
             | None => with_attempt 0 p end).
  set (s2 := match up_cursor page with Some c => enqueueUnifiedCursorWrite c s1 | None => s1 end).
  replace (match up_cursor page with Some c => _ | None => _ end) with (p1, s2)
    by (unfold p1, s2; by destruct (up_cursor page)).
  assert (frame s2 = frame s ∧ pollers s2 = pollers s ∧
    queued s2 = queued s ++ option_list (up_cursor page) ∧
    unifiedRunning s2 = unifiedRunning s) as Hs2.
  { unfold s2. destruct (up_cursor page); cbn; rewrite ?app_nil_r; [|done].
    rewrite <-Hqu. by split_and!. }
  assert (aborted p1 = aborted p ∧ cursor p1 = match up_cursor page with Some c => Some c
    | None => cursor p end) as [Ha Hc] by (unfold p1; by destruct (up_cursor page)).
  assert (effectiveIngestion s2 = effectiveIngestion s) as Hmode
    by (destruct Hs2 as [Hs2 _]; unfold frame in Hs2; congruence).
  lazy beta iota zeta. rewrite Hmode.
  destruct (_ <? pageLimit).
  - unfold sleeps. rewrite Ha.
    apply (went_resumed i s s2 p (recovered ++ out) (Some (up_events page, up_cursor page)));
      try done; cbn; try congruence.
    + destruct (aborted p); cbn; by rewrite <-app_assoc.
    + by intros ->.
    + by destruct (aborted p).
  - unfold goes_on, loop_top. rewrite Ha. destruct (aborted p) eqn:Hab.
    + apply (went_resumed i s s2 p (recovered ++ out) (Some (up_events page, up_cursor page)));
        try done; cbn; try congruence. by rewrite app_nil_r, <-app_assoc.
    + apply (went_resumed i s s2 p (recovered ++ out) (Some (up_events page, up_cursor page)));
        try done; cbn; try congruence. by rewrite <-!app_assoc.
Qed.

(** To a point that asks for nothing. *)
Lemma went_quiet i s p p' pre :
  pollers s !! i = Some p → finished p = false → point p ≠ WaitCursor → Forall quiet pre →
  aborted p' = aborted p → (aborted p = true → finished p' = true) →
  point p' ≠ WaitCursor → point p' ≠ WaitEvents → cursor p' = cursor p →
  resumption i s pre (resumed i p' s).
Proof.
  intros ???????? Hc. replace pre with (pre ++ asked_out i p') at 1.
  - by apply (went_plain i s p).
  - unfold asked_out. destruct (point p'); by rewrite ?app_nil_r.
Qed.

Lemma resume_spec i a s : resumption i s (resume i a s).1 (resume i a s).2.
Proof.
  unfold resume. destruct (pollers s !! i) as [p|] eqn:Hi; [|constructor].
  destruct (finished p) eqn:Hf.
  { unfold finished in Hf. destruct (point p), a; try done; apply nobody. }
  destruct (point p) eqn:Hp, a as [v|now random [page|e]|]; try apply nobody; try done.
  - by apply (goes_on_spec i _ p).
  - by apply page_answered_spec.
  - unfold events_failed. destruct e as [|err|]; [|destruct (negb _)|]; cbn [fst snd].
    1-2, 4: by apply (went_quiet i s p); rewrite ?Hp.
    cbn zeta. destruct (match maxRetries with Some n => _ | None => _ end); cbn [fst snd].
    + by apply (went_quiet i s p); rewrite ?Hp.
    + unfold sleeps. apply (went_quiet i s p); rewrite ?Hp; try done; cbn.
      * by repeat constructor.
      * by intros ->.
      * by destruct (aborted p).
      * by destruct (aborted p).
  - destruct (aborted p) eqn:Hab; cbn [fst snd]; [|by apply (goes_on_spec i _ p)].
    by apply (went_quiet i s p); rewrite ?Hp.
  - destruct (aborted p) eqn:Hab; cbn [fst snd]; [|by apply (goes_on_spec i _ p)].
    by apply (went_quiet i s p); rewrite ?Hp.
Qed.

(** ** Each poll asks for what follows the last page it was given *)

(** Neither a request nor a page. *)
Definition inert (o : Output) : Prop :=
  match o with Asked _ _ | Paged _ _ _ _ => False | _ => True end.
Definition not_asked (o : Output) : Prop := match o with Asked _ _ => False | _ => True end.

Lemma quiet_inert out : Forall quiet out → Forall inert out.
Proof. intros H. eapply Forall_impl; [exact H|]. by intros []. Qed.
Lemma inert_not_asked out : Forall inert out → Forall not_asked out.
Proof. intros H. eapply Forall_impl; [exact H|]. by intros []. Qed.

Lemma position_app i out out' :
  position i (out ++ out') = foldl (position_step i) (position i out) out'.
Proof. unfold position. by rewrite foldl_app. Qed.

Lemma position_inert i pos out : Forall inert out → foldl (position_step i) pos out = pos.
Proof. induction 1 as [|o out Ho _ IH]; [done|]. cbn. by destruct o. Qed.

Lemma asked_after out rest o1 i c o2 :
  Forall not_asked out → out ++ rest = o1 ++ Asked i c :: o2 →
  ∃ k, o1 = out ++ k ∧ rest = k ++ Asked i c :: o2.
Proof.
  intros Hn H. apply app_eq_inv in H as [(k & -> & H)|(k & -> & ->)]; [|by exists k].
  destruct k as [|o k]; [exists []; by rewrite !app_nil_r|]. exfalso. cbn in H. injection H as <- _.
  apply Forall_app in Hn as [_ Hn]. by inversion Hn.
Qed.

Lemma app_cons_inv {A} (l1 l2 k1 k2 : list A) x :
  l1 ++ l2 = k1 ++ x :: k2 →
  (∃ k, l1 = k1 ++ x :: k) ∨ (∃ k, k1 = l1 ++ k ∧ l2 = k ++ x :: k2).
Proof.
  intros H. apply app_eq_inv in H as [(k & -> & H)|(k & -> & ->)]; [|right; by exists k].
  destruct k as [|y k]; cbn in H.
  - right. exists []. by rewrite !app_nil_r.
  - injection H as <- _. left. by exists k.
Qed.

Definition positions (out : list Output) (s : Engine) : Prop :=
  (∀ i p, pollers s !! i = Some p →
     match point p with
     | WaitCursor => position i out = None
     | Returned | Rejected _ => True
     | _ => position i out = Some (cursor p)
     end) ∧
  (∀ i, length (pollers s) ≤ i → position i out = None) ∧
  (∀ o1 i c o2, out = o1 ++ Asked i c :: o2 → position i o1 = None ∨ position i o1 = Some c).

Lemma positions_inert out o s s' :
  positions out s → Forall inert o →
  (pollers s' = pollers s ∨ pollers s' = pollers s ++ [new_poller] ∨
   ∃ j, pollers s' = alter abort j (pollers s)) →
  positions (out ++ o) s'.
Proof.
  intros (H1 & H2 & H3) Ho Hps.
  assert (∀ i, position i (out ++ o) = position i out) as Hpos.
  { intros i. rewrite position_app. by apply position_inert. }
  split_and!.
  - intros i p Hi. rewrite Hpos. destruct Hps as [Heq|[Heq|[j Heq]]]; rewrite Heq in Hi.
    + by apply H1.
    + apply lookup_app_Some in Hi as [Hi|[Hle [_ <-]%list_lookup_singleton_Some]]; [by apply H1|].
      by apply H2.
    + destruct (decide (i = j)) as [->|Hne].
      * rewrite list_lookup_alter_eq in Hi. destruct (pollers s !! j) as [p0|] eqn:Hj; [|done].
        cbn in Hi. injection Hi as <-. exact (H1 j p0 Hj).
      * rewrite list_lookup_alter_ne in Hi by done. by apply H1.
  - intros i Hle. rewrite Hpos. apply H2. destruct Hps as [Heq|[Heq|[j Heq]]]; rewrite Heq in Hle;
      [done|rewrite length_app in Hle; lia|by rewrite length_alter in Hle].
  - intros o1 i c o2 H. apply app_eq_inv in H as [(k & -> & H)|(k & -> & ->)].
    + destruct k as [|x k]; [|injection H as <- _; by eapply H3]. cbn in H. subst o.
      by inversion Ho.
    + apply Forall_app in Ho as [_ Ho]. by inversion Ho.
Qed.

Lemma positions_resume i s out o s' :
  positions out s → resumption i s o s' → positions (out ++ o) s'.
Proof.
  intros Hinv [|p pre paged p' o' s1 -> Hi Hf Hq _ Hfr Hps _ _ _ _ Hwc Hnwc Hc].
  { by apply (positions_inert out [] s); [|constructor|left]. }
  destruct Hinv as (H1 & H2 & H3).
  assert (∀ j, position j (out ++ pre ++ paged_out i (effectiveIngestion s) paged) =
    if decide (j = i) then match new_cursor paged with Some c => Some (Some c) | None => position j out end
    else position j out) as Hpos.
  { intros j. rewrite position_app, foldl_app.
    rewrite (position_inert j _ pre) by (by apply quiet_inert).
    destruct paged as [[evs [c|]]|]; cbn; repeat case_decide; congruence. }
  pose proof (H1 i p Hi) as Hpi.
  split_and!.
  - intros j q Hj. rewrite Hps in Hj. rewrite !app_assoc, position_app, <-app_assoc, Hpos.
    apply list_lookup_insert_Some in Hj as [(-> & -> & _)|[Hne Hj]].
    + rewrite decide_True by done. destruct (point q) eqn:Hq'; try done.
      { unfold asked_out. rewrite Hq'. cbn. by rewrite decide_True. }
      all: unfold asked_out; rewrite Hq'; cbn [foldl].
      all: assert (point p ≠ WaitCursor) as Hp
        by (intros Hp; destruct (Hwc Hp) as [_ [Hfin|?]]; [|congruence];
            unfold finished in Hfin; by rewrite Hq' in Hfin).
      all: rewrite (Hc Hp); destruct (new_cursor paged); [done|].
      all: unfold finished in Hf; by destruct (point p).
    + rewrite decide_False by done. specialize (H1 j q Hj).
      replace (foldl (position_step j) (position j out) (asked_out i p')) with (position j out); [done|].
      unfold asked_out. destruct (point p'); try done. cbn. by rewrite decide_False.
  - intros j Hle. rewrite Hps, length_insert in Hle.
    rewrite !app_assoc, position_app, <-app_assoc, Hpos.
    assert (j ≠ i) as Hne by (intros ->; apply lookup_lt_Some in Hi; lia).
    rewrite decide_False by done. rewrite H2 by done.
    unfold asked_out. destruct (point p'); try done. cbn. by rewrite decide_False.
  - intros o1 j c o2 H. apply app_cons_inv in H as [(k & ->)|(k & -> & H)]; [by eapply H3|].
    rewrite app_assoc in H. apply asked_after in H as (k' & -> & H).
    + unfold asked_out in H. destruct (point p') eqn:Hp'; try by destruct k'.
      destruct k' as [|x k']; [|by destruct k']. injection H as <- <- _.
      rewrite app_nil_r, Hpos, decide_True by done.
      destruct (decide (point p = WaitCursor)) as [Hp|Hp].
      * left. rewrite Hp in Hpi. destruct (Hwc Hp) as [-> _]. done.
      * right. rewrite (Hc Hp). destruct (new_cursor paged); [done|].
        unfold finished in Hf. by destruct (point p).
    + apply Forall_app. split; [by apply inert_not_asked, quiet_inert|].
      destruct paged as [[]|]; by repeat constructor.
Qed.

(** ** What the other labels leave alone *)

Definition lifecycle (o : Output) : Prop :=
  match o with Notified _ | StopDone => True | _ => False end.

Definition is_control (l : label) : Prop :=
  match l with Resume _ _ | WriteBegins | WriteSettles _ _ => False | _ => True end.

Definition write_state (s : Engine) := (queued s, writing s, settled s, stored s).

(** No poll goes on, and none is forgotten. *)
Definition polls_kept (s s' : Engine) : Prop :=
  pollers s' = pollers s ∨ pollers s' = pollers s ++ [new_poller] ∨
  ∃ j, pollers s' = alter abort j (pollers s).

Lemma network_verified_kept mode s :
  write_state (network_verified mode s) = write_state s ∧ polls_kept s (network_verified mode s).
Proof.
  unfold network_verified, startUnifiedPoller, polls_kept. destruct (unifiedRunning _); cbn; auto.
Qed.

Lemma stop_flushes_kept k s :
  Forall lifecycle (stop_flushes k s).1 ∧ write_state (stop_flushes k s).2 = write_state s ∧
  pollers (stop_flushes k s).2 = pollers s.
Proof. unfold stop_flushes. destruct (_ =? 0); (split; [by repeat constructor|done]). Qed.

Lemma stop_resumes_kept k s :
  Forall lifecycle (stop_resumes k s).1 ∧ write_state (stop_resumes k s).2 = write_state s ∧
  polls_kept s (stop_resumes k s).2.
Proof.
  unfold stop_resumes, polls_kept. destruct (stops s !! k) as [[|i|upto]|].
  - assert (write_state (abort_controller s) = write_state s ∧ polls_kept s (abort_controller s))
      as [Hw Hp].
    { unfold abort_controller, polls_kept. destruct (unifiedController s); cbn; eauto. }
    destruct (unifiedPollPromise _).
    + split; [constructor|]. done.
    + destruct (stop_flushes_kept k (abort_controller s)) as (H1 & H2 & H3).
      split; [done|]. by rewrite H2, H3.
  - destruct (pollers s !! i) as [p|]; [|by auto]. destruct (finished p); [|by auto].
    destruct (stop_flushes_kept k (with_control (unifiedController s) None s)) as (H1 & H2 & H3). auto.
  - destruct (_ <=? _); [|by auto]. split; [by repeat constructor|]. auto.
  - by auto.
Qed.

Lemma control_kept l s :
  is_control l →
  Forall lifecycle (step l s).1 ∧ write_state (step l s).2 = write_state s ∧
  polls_kept s (step l s).2 ∨
  (∃ failures unhealthy, step l s = ([], with_store (stored s) failures unhealthy s)).
Proof.
  intros Hl. destruct l as [v|v| | |k|i a| |ok landed|f u|r]; try done; cbn.
  - left. split; [constructor|]. unfold start. destruct (horizonRunning s); [by split; [|left]|].
    destruct v as [mode|]; [|by split; [|left]]. by apply (network_verified_kept mode (with_horizon _ _ _ s)).
  - left. split; [constructor|]. unfold probe_settles. destruct (deferred s); [by split; [|left]|].
    destruct (negb _); [by split; [|left]|]. destruct v as [mode|]; [|by split; [|left]].
    by apply (network_verified_kept mode (with_horizon _ _ _ s)).
  - left. split; [constructor|]. by split; [|left].
  - left. split; [constructor|]. by split; [|left].
  - left. apply stop_resumes_kept.
  - right. eauto.
  - left. split; [constructor|]. by split; [|left].
Qed.

(** ** Pages are dispatched before their cursor is written *)

(** What was finished or written so far had come before. *)
Definition backed (out : list Output) : Prop :=
  unified_events out `sublist_of` dispatched out ∧ set_calls out `sublist_of` page_cursors out.
Definition in_order (out : list Output) : Prop := ∀ o, o `prefix_of` out → backed o.

(** Neither the end of a page nor a write. *)
Definition neutral (o : Output) : Prop :=
  match o with Paged _ _ _ _ | SetCalled _ => False | _ => True end.

Lemma quiet_neutral out : Forall quiet out → Forall neutral out.
Proof. intros H. eapply Forall_impl; [exact H|]. by intros []. Qed.
Lemma lifecycle_neutral out : Forall lifecycle out → Forall neutral out.
Proof. intros H. eapply Forall_impl; [exact H|]. by intros []. Qed.
Lemma lifecycle_inert out : Forall lifecycle out → Forall inert out.
Proof. intros H. eapply Forall_impl; [exact H|]. by intros []. Qed.

Lemma unified_events_app x y : unified_events (x ++ y) = unified_events x ++ unified_events y.
Proof. apply bind_app. Qed.
Lemma set_calls_app x y : set_calls (x ++ y) = set_calls x ++ set_calls y.
Proof. apply omap_app. Qed.
Lemma page_cursors_app x y : page_cursors (x ++ y) = page_cursors x ++ page_cursors y.
Proof. apply omap_app. Qed.

Lemma neutral_nothing out :
  Forall neutral out → unified_events out = [] ∧ set_calls out = [] ∧ page_cursors out = [].
Proof.
  induction 1 as [|o out Ho _ (H1 & H2 & H3)]; [done|].
  unfold unified_events, set_calls, page_cursors in *. cbn. rewrite H1, H2, H3. by destruct o.
Qed.

Lemma in_order_neutral out o : in_order out → Forall neutral o → in_order (out ++ o).
Proof.
  intros Hin Ho k [z Hz]. apply app_eq_inv in Hz as [(x & -> & ->)|(x & -> & ->)].
  - apply Hin. by exists x.
  - apply Forall_app in Ho as [Ho _]. apply neutral_nothing in Ho as (H1 & H2 & _).
    destruct (Hin out) as [Hp Hs]; [done|]. unfold backed.
    rewrite unified_events_app, set_calls_app, dispatched_app, page_cursors_app, H1, H2, !app_nil_r.
    split; by apply sublist_inserts_r.
Qed.

Lemma in_order_snoc out o : in_order out → backed (out ++ [o]) → in_order (out ++ [o]).
Proof.
  intros Hin Hb k [z Hz]. destruct z as [|x z] using rev_ind.
  - rewrite app_nil_r in Hz. by rewrite <-Hz.
  - rewrite app_assoc in Hz. apply app_inj_tail in Hz as [-> _]. apply Hin. by exists z.
Qed.

(** With the cursors the pages queued. *)
Definition writes (value : option string) (out : list Output) (s : Engine) : Prop :=
  (∃ consumed, page_cursors out = consumed ++ queued s ∧ set_calls out `sublist_of` consumed) ∧
  (∀ c, writing s = Some c → c ∈ set_calls out) ∧
  (stored s = value ∨ ∃ c, stored s = Some c ∧ c ∈ set_calls out).

Lemma writes_frame value out o s s' :
  writes value out s → set_calls o = [] →
  queued s' = queued s ++ page_cursors o → writing s' = writing s → stored s' = stored s →
  writes value (out ++ o) s'.
Proof.
  intros ((consumed & Hp & Hs) & Hw & Hst) Ho Hq Hwr Hstored. unfold writes.
  rewrite page_cursors_app, set_calls_app, Ho, app_nil_r, Hq, Hwr, Hstored. split_and!; [|done..].
  exists consumed. by rewrite Hp, app_assoc.
Qed.

Lemma resumption_outputs i s out o s' :
  resumption i s o s' → in_order out →
  set_calls o = [] ∧ queued s' = queued s ++ page_cursors o ∧
  frame s' = frame s ∧ length (pollers s') = length (pollers s) ∧
  in_order (out ++ o).
Proof.
  intros [|p pre paged p' o' s1 -> Hi Hf Hq Hd Hfr Hps Hqu _ _ _ _ _ _] Hin.
  { rewrite !app_nil_r. by split_and!. }
  destruct (neutral_nothing pre) as (H1 & H2 & H3); [by apply quiet_neutral|].
  assert (Forall neutral (asked_out i p')) as Ha
    by (unfold asked_out; destruct (point p'); by repeat constructor).
  destruct (neutral_nothing _ Ha) as (A1 & A2 & A3).
  rewrite !set_calls_app, !page_cursors_app, H2, H3, A2, A3, Hqu, Hps, length_insert. cbn.
  split_and!; [by destruct paged as [[]|]| |done|done|].
  { f_equal. by destruct paged as [[evs [c|]]|]. }
  rewrite !app_assoc. apply in_order_neutral; [|done].
  assert (in_order (out ++ pre)) as Hin' by (apply in_order_neutral; [done|by apply quiet_neutral]).
  destruct paged as [[evs c]|]; cbn [paged_out]; [|by rewrite app_nil_r].
  apply in_order_snoc; [done|]. destruct (Hin out) as [Hb1 Hb2]; [done|]. unfold backed.
  rewrite !unified_events_app, !dispatched_app, !set_calls_app, !page_cursors_app, H1, H2, H3.
  cbn. rewrite !app_nil_r. split; [|by apply sublist_inserts_r].
  destruct (effectiveIngestion s) eqn:Hm; cbn; rewrite ?app_nil_r; [|by apply sublist_inserts_r].
  rewrite (Hd evs c) by done. by apply sublist_app.
Qed.

Lemma write_begins_kept s :
  pollers (write_begins s).2 = pollers s ∧
  effectiveIngestion (write_begins s).2 = effectiveIngestion s.
Proof. unfold write_begins. by repeat case_match. Qed.

Lemma write_settles_kept ok landed s :
  Forall lifecycle (write_settles ok landed s).1 ∧
  pollers (write_settles ok landed s).2 = pollers s ∧
  effectiveIngestion (write_settles ok landed s).2 = effectiveIngestion s.
Proof.
  unfold write_settles. destruct (writing s); [|by split; [constructor|]].
  destruct ok; [by split; [constructor|]|]. unfold handleCursorFailure.
  destruct landed; cbn; destruct (_ <=? _)%Z; (split; [by repeat constructor|done]).
Qed.

Lemma in_order_write out s :
  (∃ consumed, page_cursors out = consumed ++ queued s ∧ set_calls out `sublist_of` consumed) →
  in_order out → in_order (out ++ (write_begins s).1).
Proof.
  intros (consumed & Hp & Hs) Hin. unfold write_begins.
  assert (in_order (out ++ [])) as Hnil by by rewrite app_nil_r.
  destruct (writing s); [done|]. destruct (queued s) as [|c rest]; [done|].
  destruct (_ || _); [done|]. apply in_order_snoc; [done|]. destruct (Hin out) as [H1 _]; [done|].
  unfold backed. rewrite unified_events_app, dispatched_app, set_calls_app, page_cursors_app, Hp.
  cbn. rewrite !app_nil_r. split; [done|]. apply sublist_app; [done|].
  apply sublist_skip, sublist_nil_l.
Qed.

Lemma writes_write value out s :
  writes value out s → writes value (out ++ (write_begins s).1) (write_begins s).2.
Proof.
  intros Hinv. pose proof Hinv as ((consumed & Hp & Hs) & Hw & Hst). unfold write_begins.
  destruct (writing s) eqn:Hwr; [by rewrite app_nil_r|].
  destruct (queued s) as [|c rest] eqn:Hq; [by rewrite app_nil_r|].
  destruct (_ || _); unfold writes; cbn [fst snd queued writing stored with_writes];
    rewrite page_cursors_app, set_calls_app, Hp; cbn; rewrite !app_nil_r.
  - split_and!; [|done|done]. exists (consumed ++ [c]). rewrite <-app_assoc. split; [done|].
    by apply sublist_inserts_r.
  - split_and!.
    + exists (consumed ++ [c]). rewrite <-app_assoc. split; [done|]. by apply sublist_app.
    + intros c' [= ->]. set_solver.
    + destruct Hst as [|(c' & ? & ?)]; [by left|right]. exists c'. set_solver.
Qed.

Lemma writes_settle value out ok landed s :
  writes value out s →
  writes value (out ++ (write_settles ok landed s).1) (write_settles ok landed s).2.
Proof.
  intros Hinv. pose proof Hinv as (Hc & Hw & Hst). unfold write_settles.
  destruct (writing s) as [c|] eqn:Hwr; [|by rewrite app_nil_r].
  specialize (Hw c eq_refl).
  assert (∀ s' o, Forall lifecycle o → queued s' = queued s → writing s' = None →
    stored s' = stored s ∨ stored s' = Some c → writes value (out ++ o) s') as Hdone.
  { intros s' o Ho Hq Hw' Hs'. apply lifecycle_neutral in Ho.
    apply neutral_nothing in Ho as (_ & H1 & H2).
    unfold writes. rewrite page_cursors_app, set_calls_app, H1, H2, !app_nil_r, Hq, Hw'.
    split_and!; [done|done|]. destruct Hs' as [->| ->]; [done|]. right. by exists c. }
  destruct ok; [apply Hdone; by auto|]. unfold handleCursorFailure.
  destruct landed; cbn; destruct (_ <=? _)%Z; apply Hdone; cbn; auto; by repeat constructor.
Qed.

Definition paging (value : option string) (out : list Output) (s : Engine) : Prop :=
  positions out s ∧ writes value out s ∧ in_order out.

Lemma paging_neutral value out o s s' :
  paging value out s → Forall lifecycle o → write_state s' = write_state s → polls_kept s s' →
  paging value (out ++ o) s'.
Proof.
  intros (Hp & Hw & Hin) Ho Hws Hps. unfold write_state in Hws. injection Hws as Hq Hwr _ Hst.
  pose proof (lifecycle_neutral o Ho) as Hn.
  destruct (neutral_nothing o Hn) as (_ & H1 & H2). split_and!.
  - apply (positions_inert out o s); [done|by apply lifecycle_inert|exact Hps].
  - apply (writes_frame value out o s); try done. rewrite H2, app_nil_r. done.
  - by apply in_order_neutral.
Qed.

Lemma paging_control value out s l :
  is_control l → paging value out s → paging value (out ++ (step l s).1) (step l s).2.
Proof.
  intros Hc Hinv.
  destruct (control_kept l s Hc) as [(H1 & H2 & H3)|(f & u & H)].
  - by apply (paging_neutral value out _ s).
  - rewrite H. cbn. by rewrite app_nil_r.
Qed.

Lemma paging_step value out s l :
  paging value out s → paging value (out ++ (step l s).1) (step l s).2.
Proof.
  intros Hinv. pose proof Hinv as (Hp & Hw & Hin).
  destruct l as [v|v| | |k|i a| |ok landed|f u|r]; try by apply paging_control.
  - pose proof (resume_spec i a s) as Hr. cbn [step] in *.
    destruct (resumption_outputs _ _ out _ _ Hr Hin) as (H1 & H2 & H3 & H4 & H5).
    unfold frame in H3. injection H3 as _ _ _ _ _ Hm Hwr _ Hst. split_and!.
    + by eapply positions_resume.
    + by apply (writes_frame value out _ s).
    + done.
  - destruct (write_begins_kept s) as [H1 H2]. cbn [step] in *. split_and!; [|by apply writes_write|
      apply in_order_write; [apply Hw|done]].
    apply (positions_inert out _ s); [done| |by left].
    unfold write_begins. repeat case_match; by repeat constructor.
  - destruct (write_settles_kept ok landed s) as (H1 & H2 & H3). cbn [step] in *.
    split_and!; [|by apply writes_settle|].
    + apply (positions_inert out _ s); [done|by apply lifecycle_inert|by left].
    + apply in_order_neutral; [done|by apply lifecycle_neutral].
Qed.

(** While payments come from Horizon no event of the server is dispatched. *)
Lemma resume_silent i a s : effectiveIngestion s = via_horizon → dispatched (resume i a s).1 = [].
Proof.
  intros Hm. unfold resume. destruct (pollers s !! i) as [p|]; [|done].
  assert (∀ p s, dispatched (goes_on i p s).1 = []) as Hgo
    by (intros p0 s0; unfold goes_on, loop_top; by destruct (aborted p0)).
  assert (∀ now page, dispatched (page_answered i p now page s).1 = []) as Hpage.
  { intros now page. unfold page_answered, handle_page, on_events. rewrite Hm.
    destruct (up_events page), (up_cursor page), (0 <? attempt p)%Z; lazy beta iota zeta; destruct (_ <? pageLimit); try done;
      match goal with |- context [goes_on i ?q ?s0] => specialize (Hgo q s0) end;
      destruct (goes_on _ _ _) as [asked s']; cbn [fst] in *; by rewrite dispatched_app, Hgo. }
  destruct (point p), a as [[v|e]|now random [page|e]|]; try done; try (by destruct (aborted p)); try apply Hgo.
  unfold events_failed. by repeat case_match.
Qed.

Lemma horizon_silent l s : effectiveIngestion s = via_horizon → dispatched (step l s).1 = [].
Proof.
  intros Hm. assert (is_control l → dispatched (step l s).1 = []) as Hc.
  { intros Hc. destruct (control_kept l s Hc) as [(Ho & _ & _)|(f & u & ->)]; [|done].
    induction Ho as [|o out Ho _ IH]; [done|]. unfold dispatched in *. by destruct o. }
  destruct l; try (by apply Hc); cbn [step]; [by apply resume_silent|..];
    unfold write_begins, write_settles, handleCursorFailure; by repeat case_match.
Qed.

(** C14: A poll of the server asks first for what follows the stored cursor and
    then each time for what follows the last page it was given, whatever stops,
    failures, other polls and changes of the transport come in between; the cursor
    is written only for pages that are done with, in their order, and the store holds
    the value it had or one of these.  The events of a page that comes while payments
    are taken from the server reach the dispatch before the page is done with; while
    they are taken from Horizon, no event of the server is dispatched, though the
    cursor goes on. *)
Theorem unified_pages_in_order ls r value :
  let out := (run ls (fresh r value)).1 in
  let s := (run ls (fresh r value)).2 in
  (∀ o1 i c o2, out = o1 ++ Asked i c :: o2 → position i o1 = None ∨ position i o1 = Some c) ∧
  (∀ o, o `prefix_of` out →
     unified_events o `sublist_of` dispatched o ∧ set_calls o `sublist_of` page_cursors o) ∧
  (effectiveIngestion s = via_horizon → ∀ l, dispatched (step l s).1 = []) ∧
  (stored s = value ∨ ∃ c, stored s = Some c ∧ c ∈ set_calls out).
Proof.
  enough (paging value (run ls (fresh r value)).1 (run ls (fresh r value)).2) as Hinv.
  { destruct Hinv as ((_ & _ & H1) & (_ & _ & H2) & H3). split_and!; try done. intros Hm l. by apply horizon_silent. }
  apply (run_induction_on (λ _, True) (paging value)); [by apply Forall_true| |].
  - split_and!; [|by split_and!; [exists []|done|left]|].
    + split_and!; [done|done|]. intros [|??] * H; discriminate H.
    + intros o [z Hz]. destruct o; [|done]. split; apply sublist_nil_l.
  - intros out s l _. by apply paging_step.
Qed.

(** ** One poll at a time *)

Definition live (s : Engine) (i : nat) (p : Poller) : Prop :=
  pollers s !! i = Some p ∧ finished p = false.
Definition idle (s : Engine) : Prop := ∀ i p, ¬ live s i p.

(** [start] is not called before the calls of [stop] have returned. *)
Fixpoint sensible (ls : list label) (s : Engine) : Prop :=
  match ls with
  | [] => True
  | l :: ls => match l with Start _ => stops s = [] | _ => True end ∧ sensible ls (step l s).2
  end.

Definition sole_poller (s : Engine) (i : nat) (p : Poller) : Prop :=
  S i = length (pollers s) ∧ unifiedRunning s = true ∧ unifiedPollPromise s = Some i ∧
  if aborted p then WaitPoll i ∈ stops s else unifiedController s = Some i.

(** What the calls of [stop] wait for; the starts deferred before them are
    forgotten. *)
Definition stops_ok (s : Engine) : Prop :=
  (∀ i, WaitPoll i ∈ stops s ∨ unifiedPollPromise s = Some i → S i = length (pollers s)) ∧
  (∀ n, WaitWrites n ∈ stops s → idle s) ∧
  (∀ g, g ∈ deferred s → g ≤ stopGeneration s ∧ (stops s ≠ [] → g < stopGeneration s)).

Definition one (s : Engine) : Prop :=
  (∀ i p, live s i p → sole_poller s i p) ∧
  (unifiedRunning s = true → ∃ i p, live s i p) ∧
  stops_ok s.

Lemma elem_of_insert_list {A} (l : list A) k x y : x ∈ <[k := y]> l → x = y ∨ x ∈ l.
Proof.
  intros [j Hj]%list_elem_of_lookup. apply list_lookup_insert_Some in Hj as [(_ & -> & _)|[_ Hj]];
    [by left|right; by eapply list_elem_of_lookup_2].
Qed.

Lemma elem_of_delete_list {A} (l : list A) k x : x ∈ delete k l → x ∈ l.
Proof. intros H. eapply elem_of_submseteq; [exact H|]. apply sublist_submseteq, sublist_delete. Qed.

(** The fields that matter here. *)
Definition poll_frame (s : Engine) :=
  (pollers s, unifiedRunning s, unifiedPollPromise s, unifiedController s, stops s,
   deferred s, stopGeneration s).

Lemma one_frame s s' : poll_frame s' = poll_frame s → one s → one s'.
Proof.
  unfold poll_frame, one, stops_ok, sole_poller, idle, live. intros [= -> -> -> -> -> -> ->]. done.
Qed.

Lemma idle_one s : idle s → unifiedRunning s = false → stops_ok s → one s.
Proof.
  intros Hi Hr Hs. split_and!; [intros i p Hl; by destruct (Hi i p)|by rewrite Hr|done].
Qed.

Lemma idle_not_running s : one s → idle s → unifiedRunning s = false.
Proof.
  intros (_ & Hr & _) Hi. destruct (unifiedRunning s); [|done].
  destruct Hr as (i & p & Hl); [done|]. by destruct (Hi i p).
Qed.

Lemma startUnifiedPoller_one s : one s → stops s = [] → one (startUnifiedPoller s).
Proof.
  intros Hone Hs. unfold startUnifiedPoller. destruct (unifiedRunning s) eqn:Hr; [done|].
  destruct Hone as (Hl & _ & Hp & _ & Hd). unfold one, stops_ok, idle, live. cbn. rewrite Hs.
  assert (∀ i p, pollers s !! i = Some p → finished p = true) as Hfin.
  { intros i p Hi. destruct (finished p) eqn:Hf; [done|].
    destruct (Hl i p) as (_ & Hr' & _); [done|]. congruence. }
  split_and!.
  - intros i p [Hi Hf]. apply lookup_app_Some in Hi as [Hi|[Hle [Hz <-]%list_lookup_singleton_Some]].
    + rewrite (Hfin i p Hi) in Hf. done.
    + assert (i = length (pollers s)) as -> by lia. unfold sole_poller. cbn.
      rewrite length_app. cbn. split_and!; [lia|done..].
  - intros _. exists (length (pollers s)), new_poller. by rewrite list_lookup_middle.
  - intros i [Hi|[= <-]]; [set_solver|]. rewrite length_app. cbn. lia.
  - set_solver.
  - intros g Hg. split; [by apply Hd|done].
Qed.

Lemma network_verified_one mode s : one s → stops s = [] → one (network_verified mode s).
Proof. intros H Hs. apply startUnifiedPoller_one; [|done]. by apply (one_frame s). Qed.

(** The end of a stretch of [stop]. *)
Lemma stop_flushes_one k s : idle s → unifiedRunning s = false → stops_ok s → one (stop_flushes k s).2.
Proof.
  intros Hi Hr (Hp & _ & Hd). unfold stop_flushes.
  destruct (writes_queued s =? 0); (apply idle_one; [done|done|]); unfold stops_ok; cbn.
  - split_and!; [|done|].
    + intros i [H|H]; apply Hp; [left; by eapply elem_of_delete_list|by right].
    + intros g Hg. split; [by apply Hd|]. intros Hne. apply Hd; [done|].
      intros Hs. rewrite Hs in Hne. done.
  - split_and!; [|done|].
    + intros i [H|H]; apply Hp; [left|by right]. by apply elem_of_insert_list in H as [|].
    + intros g Hg. split; [by apply Hd|]. intros Hne. apply Hd; [done|].
      intros Hs. rewrite Hs in Hne. done.
Qed.

Lemma stop_ends_one k n s : stops s !! k = Some (WaitWrites n) → one s → one (stop_ends k s).2.
Proof.
  intros Hk Hone. pose proof Hone as (_ & _ & Hp & Hw & Hd).
  assert (idle s) as Hi by (eapply Hw; by eapply list_elem_of_lookup_2).
  apply idle_one; [done|done|]. unfold stops_ok. cbn. split_and!; [|done|].
  - intros i [H|H]; apply Hp; [left; by eapply elem_of_delete_list|by right].
  - intros g Hg. split; [by apply Hd|]. intros Hne. apply Hd; [done|].
    intros Hs. by rewrite Hs in Hk.
Qed.

(** What the first stretch of [stop] leaves. *)
Lemma abort_controller_spec s :
  let s' := abort_controller s in
  length (pollers s') = length (pollers s) ∧ unifiedRunning s' = unifiedRunning s ∧
  unifiedPollPromise s' = unifiedPollPromise s ∧ stops s' = stops s ∧
  (deferred s', stopGeneration s') = (deferred s, stopGeneration s) ∧
  (∀ i p', live s' i p' → ∃ p, live s i p ∧
     (aborted p = true ∨ unifiedController s = Some i → aborted p' = true)) ∧
  (∀ i p, live s i p → ∃ p', live s' i p').
Proof.
  unfold abort_controller. destruct (unifiedController s) as [j|] eqn:Hc; cbn.
  - rewrite length_alter. split_and!; try done; unfold live; cbn.
    + intros i p' [Hi Hf]. destruct (decide (i = j)) as [->|Hne].
      * rewrite list_lookup_alter_eq in Hi. destruct (pollers s !! j) as [p|] eqn:Hj; [|done].
        injection Hi as <-. by exists p.
      * rewrite list_lookup_alter_ne in Hi by done. exists p'. split; [done|]. intros [?|[= ?]]; done.
    + intros i p [Hi Hf]. destruct (decide (i = j)) as [->|Hne].
      * exists (abort p). by rewrite list_lookup_alter_eq, Hi.
      * exists p. by rewrite list_lookup_alter_ne.
  - split_and!; try done; [|by eauto]. intros i p Hl. exists p. split; [done|]. by intros [?|?].
Qed.

Lemma stop_first_one k s : stops s !! k = Some WaitSubscriber → one s → one (stop_resumes k s).2.
Proof.
  intros Hk Hone. unfold stop_resumes. rewrite Hk. pose proof Hone as (Hl & Hr & Hp & Hw & Hd).
  destruct (abort_controller_spec s) as (H1 & H2 & H3 & H4 & [= H5 H6] & H7 & H8).
  set (s' := abort_controller s) in *.
  assert (idle s → idle s') as Hidle.
  { intros Hi i p Hlp. destruct (H7 i p Hlp) as (p0 & Hl0 & _). by destruct (Hi i p0). }
  assert (∀ g, g ∈ deferred s' → g < stopGeneration s') as Hd'.
  { rewrite H5, H6. intros g Hg. apply Hd; [done|]. intros Hs. by rewrite Hs in Hk. }
  destruct (unifiedPollPromise s') as [j|] eqn:Hpr.
  - assert (∀ x, x ∈ <[k := WaitPoll j]> (stops s') → x = WaitPoll j ∨ x ∈ stops s) as Hin.
    { intros x Hx. rewrite <-H4. exact (elem_of_insert_list _ k _ _ Hx). }
    unfold one, stops_ok, sole_poller. cbn [fst snd with_stops stops unifiedPollPromise pollers
      unifiedRunning unifiedController deferred stopGeneration]. split_and!.
    + intros i p' Hlp. destruct (H7 i p' Hlp) as (p & Hlp0 & Ha).
      destruct (Hl i p Hlp0) as (L1 & L2 & L3 & L4). rewrite H1, H2, Hpr, H3. split_and!; [done..|].
      rewrite Ha by (destruct (aborted p); by auto).
      assert (j = i) as -> by congruence. rewrite H4. apply (list_elem_of_lookup_2 _ k).
      rewrite list_lookup_insert_eq; [done|by eapply lookup_lt_Some].
    + rewrite H2. intros Hr'. destruct (Hr Hr') as (i & p & Hlp).
      destruct (H8 i p Hlp) as [p' Hlp']. by exists i, p'.
    + intros i Hi. rewrite H1. apply Hp. destruct Hi as [Hi|Hi]; [|right; congruence].
      apply Hin in Hi as [[= ->]|]; [right; congruence|by left].
    + intros n Hn. apply Hin in Hn as [|Hn]; [done|]. apply Hidle. by eapply Hw.
    + intros g Hg. specialize (Hd' g Hg). split; [lia|done].
  - assert (idle s) as Hi.
    { intros i p Hlp. destruct (Hl i p Hlp) as (_ & _ & L3 & _). congruence. }
    apply stop_flushes_one; [by apply Hidle|rewrite H2; by apply idle_not_running|].
    unfold stops_ok. rewrite H1, H4, H5, H6. split_and!; [|by auto|done].
    intros i [H|H]; apply Hp; [by left|right; congruence].
Qed.

Lemma stop_resumes_one k s : one s → one (stop_resumes k s).2.
Proof.
  intros Hone. destruct (stops s !! k) as [[|i|n]|] eqn:Hk; [by apply stop_first_one| | |];
    unfold stop_resumes; rewrite Hk; [| |done].
  - destruct (pollers s !! i) as [p|] eqn:Hi; [|done]. destruct (finished p) eqn:Hf; [|done].
    pose proof Hone as (Hl & _ & Hp & Hw & Hd).
    assert (idle s) as Hidle.
    { intros j q Hlq. destruct (Hl j q Hlq) as (Hj & _). destruct Hlq as [Hj' Hf'].
      assert (S i = length (pollers s)) as Hi'
        by (apply Hp; left; by eapply list_elem_of_lookup_2).
      assert (i = j) as -> by lia. congruence. }
    apply stop_flushes_one; [done|cbn; by apply idle_not_running|].
    unfold stops_ok. cbn. split_and!; [|done|done]. intros j [H|H]; [|done]. apply Hp. by left.
  - destruct (n <=? settled s); [|done]. by eapply stop_ends_one.
Qed.

Lemma stop_one s : one s → one (stop s).
Proof.
  intros (Hl & Hr & Hp & Hw & Hd). unfold one, stops_ok, sole_poller, idle, live. cbn.
  split_and!; [|done| | |].
  - intros i p Hlp. destruct (Hl i p Hlp) as (L1 & L2 & L3 & L4). split_and!; [done..|].
    destruct (aborted p); [set_solver|done].
  - intros i [H|H]; apply Hp; [left; set_solver|by right].
  - intros n H. apply (Hw n). set_solver.
  - intros g Hg. destruct (Hd g Hg) as [H _]. split; [|intros _]; lia.
Qed.

Lemma resume_one i a s : one s → one (resume i a s).2.
Proof.
  intros Hone. pose proof (resume_spec i a s) as Hr. revert Hr.
  generalize (resume i a s).1 as out, (resume i a s).2 as s'. intros out s' Hr.
  destruct Hr as [|p pre paged p' o' s1 _ Hi Hf _ _ Hfr Hps _ Hrun Hab _ _ _ _]; [done|].
  unfold frame in Hfr. injection Hfr as Hc Hpr Hst Hde Hg _ _ _ _.
  pose proof Hone as (Hl & Hr & Hp & Hw & Hd).
  destruct (Hl i p) as (L1 & L2 & L3 & L4); [done|].
  assert (∀ j q, live s1 j q → j = i ∧ q = p' ∧ finished p' = false) as Hlive.
  { intros j q [Hj Hq]. rewrite Hps in Hj.
    apply list_lookup_insert_Some in Hj as [(-> & -> & _)|[Hne Hj]]; [done|].
    destruct (Hl j q) as [Hj' _]; [done|]. lia. }
  unfold one, stops_ok, sole_poller. rewrite Hc, Hpr, Hst, Hde, Hg, Hrun, Hps, length_insert.
  split_and!; [| |done| |done].
  - intros j q Hlq. destruct (Hlive j q Hlq) as (-> & -> & Hf'). rewrite Hf', Hab. done.
  - destruct (finished p') eqn:Hf'; [done|]. intros _. exists i, p'. split; [|done].
    rewrite Hps. rewrite list_lookup_insert_eq; [done|by eapply lookup_lt_Some].
  - intros n Hn. by destruct (Hw n Hn i p).
Qed.

Lemma one_step l s :
  match l with Start _ => stops s = [] | _ => True end → one s → one (step l s).2.
Proof.
  intros Hs Hone. destruct l as [v|v| | |k|i a| |ok landed|f u|r]; cbn.
  - unfold start. destruct (horizonRunning s); [done|]. destruct v as [mode|].
    + apply network_verified_one; [by apply (one_frame s)|done].
    + destruct Hone as (Hl & Hr & Hp & Hw & Hd). do 4 (split; [done|]).
      intros g [Hg|Hg]%elem_of_app; [by apply Hd|]. apply list_elem_of_singleton in Hg as ->.
      cbn. split; [done|]. by rewrite Hs.
  - unfold probe_settles. destruct (deferred s) as [|g rest] eqn:Hde; [done|].
    set (s' := with_horizon _ _ rest s).
    assert (one s') as Hone'.
    { destruct Hone as (Hl & Hr & Hp & Hw & Hd). do 4 (split; [done|]). intros g' Hg'.
      apply Hd. rewrite Hde. by right. }
    destruct (stopGeneration s' =? g) eqn:Hg; cbn; [|done]. apply Nat.eqb_eq in Hg. cbn in Hg.
    destruct v as [mode|]; [|by apply stop_one]. apply network_verified_one; [done|].
    destruct Hone as (_ & _ & _ & _ & Hd). destruct (Hd g) as [_ Hlt]; [rewrite Hde; by left|].
    destruct (stops s) eqn:Hst; [done|]. specialize (Hlt ltac:(done)). lia.
  - by apply (one_frame s).
  - by apply stop_one.
  - by apply stop_resumes_one.
  - by apply resume_one.
  - apply (one_frame s); [|done]. unfold write_begins. by repeat case_match.
  - apply (one_frame s); [|done]. unfold write_settles, handleCursorFailure.
    destruct (writing s); [|done]. destruct ok; [done|].
    destruct landed; cbn; by destruct (_ <=? _)%Z.
  - by apply (one_frame s).
  - by apply (one_frame s).
Qed.

Lemma one_run ls s : sensible ls s → one s → one (run ls s).2.
Proof.
  revert s. induction ls as [|l ls IH]; intros s; cbn; [done|]. intros [Hl Hls] Hone.
  pose proof (one_step l s Hl Hone) as Hone'. destruct (step l s) as [o s'].
  specialize (IH s' Hls Hone'). by destruct (run ls s').
Qed.

Lemma one_fresh r value : one (fresh r value).
Proof.
  split; [by intros i p []|]. split; [done|]. split; [|split].
  - by intros i [Hin%elem_of_nil|].
  - by intros n Hin%elem_of_nil.
  - by intros g Hin%elem_of_nil.
Qed.

(** A call of [stop] ends with no poll left. *)
Lemma stop_done_idle l s : one s → StopDone ∈ (step l s).1 → idle (step l s).2.
Proof.
  intros Hone Hin.
  assert (unifiedRunning (step l s).2 = false → one (step l s).2 → idle (step l s).2) as Hidle.
  { intros Hr (Hl & _) i p Hlp. destruct (Hl i p Hlp) as (_ & Hr' & _). congruence. }
  destruct l as [v|v| | |k|i a| |ok landed|f u|r]; cbn in Hin; try by apply not_elem_of_nil in Hin.
  - apply Hidle; [|by apply stop_resumes_one]. clear Hidle. cbn. unfold stop_resumes in *.
    assert (∀ s0, StopDone ∈ (stop_flushes k s0).1 → unifiedRunning (stop_flushes k s0).2 = false) as Hf.
    { intros s0. unfold stop_flushes. destruct (_ =? 0); cbn; [done|]. set_solver. }
    destruct (stops s !! k) as [[|i|n]|]; [| | |set_solver].
    + destruct (unifiedPollPromise _); [set_solver|by apply Hf].
    + destruct (pollers s !! i) as [p|]; [|set_solver]. destruct (finished p); [by apply Hf|set_solver].
    + destruct (n <=? settled s); [done|set_solver].
  - exfalso. pose proof (resume_spec i a s) as Hr. revert Hr Hin.
    generalize (resume i a s).1, (resume i a s).2. intros out s' Hr Hin.
    destruct Hr as [|p pre paged p' o' s1 -> _ _ Hq _ _ _ _ _ _ _ _ _ _]; [set_solver|].
    apply elem_of_app in Hin as [Hin|Hin].
    { by apply (proj1 (Forall_forall _ _) Hq) in Hin. }
    unfold paged_out, asked_out in Hin. destruct paged as [[]|], (point p'); set_solver.
  - exfalso. unfold write_begins in Hin. repeat case_match; set_solver.
  - exfalso. unfold write_settles, handleCursorFailure in Hin.
    destruct (writing s); [|set_solver]. destruct ok; [set_solver|].
    destruct landed; cbn in Hin; destruct (_ <=? _)%Z; set_solver.
Qed.

(** C13: Whatever the answers of the server and of the stores, as long as start is
    not called before the calls of stop have returned at most one poll is running;
    the engine believes in a poll exactly when there is one, and can abort it
    unless a call of stop already did; and a call of stop returns only when no
    poll is left. *)
Theorem one_poller ls r value l :
  sensible ls (fresh r value) →
  let s := (run ls (fresh r value)).2 in
  (∀ i j p q, live s i p → live s j q → i = j) ∧
  (unifiedRunning s = true ↔ ∃ i p, live s i p) ∧
  (stops s = [] → ∀ i p, live s i p → aborted p = false ∧ unifiedController s = Some i) ∧
  (StopDone ∈ (step l s).1 → idle (step l s).2).
Proof.
  intros Hls s. assert (one s) as Hone by (apply one_run; [done|apply one_fresh]).
  pose proof Hone as (Hl & Hr & _). split_and!.
  - intros i j p q Hi Hj. destruct (Hl i p Hi), (Hl j q Hj). lia.
  - split; [done|]. intros (i & p & Hlp). by destruct (Hl i p Hlp) as (_ & ? & _).
  - intros Hs i p Hlp. destruct (Hl i p Hlp) as (_ & _ & _ & Ha). rewrite Hs in Ha.
    destruct (aborted p); [set_solver|done].
  - by apply stop_done_idle.
Qed.

(** ** A call of stop settles *)

(** Something that was waited for settles. *)
Definition awaited (l : label) : Prop :=
  match l with StopResumes _ | Resume _ _ | WriteBegins | WriteSettles _ _ => True | _ => False end.

Fixpoint moving (ls : list label) (s : Engine) : Prop :=
  match ls with
  | [] => True
  | l :: ls => awaited l ∧ step l s ≠ ([], s) ∧ moving ls (step l s).2
  end.

Definition poll_left (p : Poller) : nat := if finished p then 0 else 3.
Definition stop_left (st : Stopping) : nat :=
  match st with WaitSubscriber => 3 | WaitPoll _ => 2 | WaitWrites _ => 1 end.
Definition unsettled (s : Engine) : nat :=
  sum_list_with poll_left (pollers s) + 2 * length (queued s) +
  (match writing s with Some _ => 1 | None => 0 end) + sum_list_with stop_left (stops s).

Definition writes_bounded (s : Engine) : Prop :=
  ∀ n, WaitWrites n ∈ stops s → n ≤ writes_queued s.
Definition all_aborted (s : Engine) : Prop := ∀ i p, live s i p → aborted p = true.

Lemma sum_delete {A} (f : A → nat) l k x :
  l !! k = Some x → sum_list_with f (delete k l) + f x = sum_list_with f l.
Proof.
  revert k. induction l as [|y l IH]; intros [|k] Hk; try done; cbn in Hk |- *.
  - simplify_eq. lia.
  - specialize (IH k Hk). unfold delete in *. lia.
Qed.

Lemma writes_queued_state s s' : write_state s' = write_state s → writes_queued s' = writes_queued s.
Proof. unfold write_state, writes_queued. by intros [= -> -> -> _]. Qed.

Lemma write_begins_counts s :
  writes_queued (write_begins s).2 = writes_queued s ∧ stops (write_begins s).2 = stops s.
Proof.
  unfold write_begins. destruct (writing s) eqn:Hw; [done|]. destruct (queued s) eqn:Hq; [done|].
  destruct (_ || _); (split; [|done]); unfold writes_queued; cbn; rewrite Hw, Hq; cbn; lia.
Qed.

Lemma write_settles_counts ok landed s :
  writes_queued (write_settles ok landed s).2 = writes_queued s ∧
  stops (write_settles ok landed s).2 = stops s.
Proof.
  unfold write_settles, handleCursorFailure. destruct (writing s) eqn:Hw; [|done].
  destruct ok; [|destruct landed; cbn; destruct (_ <=? _)%Z]; (split; [|done]);
    unfold writes_queued; cbn; rewrite Hw; lia.
Qed.

Lemma resume_counts i a s :
  writes_queued s ≤ writes_queued (resume i a s).2 ∧ stops (resume i a s).2 = stops s.
Proof.
  destruct (resume_spec i a s) as [|p pre paged p' out s' _ _ _ _ _ Hfr _ Hq _ _ _ _ _ _]; [done|].
  unfold frame in Hfr. injection Hfr as _ _ Hst _ _ _ Hw Hs _.
  unfold writes_queued. rewrite Hw, Hs, Hq, length_app. split; [lia|done].
Qed.

Lemma writes_bounded_kept s s' :
  writes_bounded s → writes_queued s ≤ writes_queued s' →
  (∀ n, WaitWrites n ∈ stops s' → WaitWrites n ∈ stops s) → writes_bounded s'.
Proof. intros Hb Hle Hst n Hn. apply Hst, Hb in Hn. lia. Qed.

Lemma stop_flushes_bounded k s : writes_bounded s → writes_bounded (stop_flushes k s).2.
Proof.
  intros Hb. unfold stop_flushes. destruct (writes_queued s =? 0); intros n; cbn.
  - intros Hn. apply elem_of_delete_list in Hn. by apply Hb.
  - intros [[= ->]|Hn]%elem_of_insert_list; [done|by apply Hb].
Qed.

Lemma stop_resumes_bounded k s : writes_bounded s → writes_bounded (stop_resumes k s).2.
Proof.
  intros Hb. unfold stop_resumes. destruct (stops s !! k) as [[|i|upto]|]; [| | |done].
  - assert (writes_bounded (abort_controller s)) as Hb'
      by (unfold abort_controller; by destruct (unifiedController s)).
    destruct (unifiedPollPromise _) as [i|]; [|by apply stop_flushes_bounded].
    intros n. cbn. intros [|Hn]%elem_of_insert_list; [done|by apply Hb'].
  - destruct (pollers s !! i) as [p|]; [|done]. destruct (finished p); [|done].
    by apply stop_flushes_bounded.
  - destruct (upto <=? settled s); [|done]. intros n Hn. apply elem_of_delete_list in Hn. by apply Hb.
Qed.

Lemma writes_bounded_step l s : writes_bounded s → writes_bounded (step l s).2.
Proof.
  intros Hb. assert (writes_bounded (stop s)) as Hstop.
  { apply (writes_bounded_kept s); [done|done|]. cbn. set_solver. }
  assert (∀ mode s', stops s' = stops s → write_state s' = write_state s →
    writes_bounded (network_verified mode s')) as Hv.
  { intros mode s' Hst Hws. apply (writes_bounded_kept s); [done| |].
    - rewrite (writes_queued_state s (network_verified mode s')); [done|].
      rewrite <-Hws. apply network_verified_kept.
    - unfold network_verified, startUnifiedPoller. rewrite <-Hst. by destruct (unifiedRunning _). }
  destruct l as [v|v| | |k|i a| |ok landed|f u|r]; cbn; try done.
  - unfold start. destruct (horizonRunning s); [done|]. destruct v; [by apply Hv|done].
  - unfold probe_settles. destruct (deferred s); [done|]. destruct (negb _); [done|].
    destruct v as [mode|]; [by apply Hv|done].
  - by apply stop_resumes_bounded.
  - destruct (resume_counts i a s) as [Hle Hst]. apply (writes_bounded_kept s); [done|done|].
    by rewrite Hst.
  - destruct (write_begins_counts s) as [Hle Hst]. apply (writes_bounded_kept s); [done|lia|].
    by rewrite Hst.
  - destruct (write_settles_counts ok landed s) as [Hle Hst].
    apply (writes_bounded_kept s); [done|lia|]. by rewrite Hst.
Qed.

Lemma writes_bounded_run ls s : writes_bounded s → writes_bounded (run ls s).2.
Proof.
  revert s. induction ls as [|l ls IH]; intros s Hb; cbn; [done|].
  pose proof (writes_bounded_step l s Hb) as Hb'. destruct (step l s) as [o s'].
  specialize (IH s' Hb'). by destruct (run ls s').
Qed.

(** *** Everything that settles is one thing less to wait for *)

Lemma abort_controller_left s : unsettled (abort_controller s) = unsettled s.
Proof.
  unfold abort_controller. destruct (unifiedController s) as [i|]; [|done]. unfold unsettled. cbn.
  do 3 f_equal. generalize (pollers s). clear. intros l. revert i.
  induction l as [|p l IH]; intros [|i]; try done; cbn. by f_equal.
Qed.

Lemma stop_flushes_left k st s :
  stops s !! k = Some st → 1 < stop_left st → unsettled (stop_flushes k s).2 < unsettled s.
Proof.
  intros Hk Hst. unfold stop_flushes, unsettled. destruct (writes_queued s =? 0); cbn.
  - pose proof (sum_delete stop_left _ _ _ Hk). lia.
  - pose proof (sum_insert stop_left _ _ _ (WaitWrites (writes_queued s)) Hk) as H. cbn in H. lia.
Qed.

Lemma stop_resumes_left k s :
  stop_resumes k s = ([], s) ∨ unsettled (stop_resumes k s).2 < unsettled s.
Proof.
  unfold stop_resumes. destruct (stops s !! k) as [[|i|upto]|] eqn:Hk; [| | |by left].
  - right. rewrite <-(abort_controller_left s).
    assert (stops (abort_controller s) !! k = Some WaitSubscriber) as Hk'
      by (unfold abort_controller; by destruct (unifiedController s)).
    destruct (unifiedPollPromise _) as [i|]; [|by eapply (stop_flushes_left _ WaitSubscriber); cbn; [|lia]].
    unfold unsettled. cbn. pose proof (sum_insert stop_left _ _ _ (WaitPoll i) Hk') as H. cbn in H. lia.
  - destruct (pollers s !! i) as [p|]; [|by left]. destruct (finished p); [right|by left].
    apply (stop_flushes_left k (WaitPoll i) (with_control (unifiedController s) None s)); [done|cbn; lia].
  - destruct (upto <=? settled s); [right|by left]. unfold stop_ends, unsettled. cbn.
    pose proof (sum_delete stop_left _ _ _ Hk) as H. cbn in H. lia.
Qed.

Lemma awaited_left l s :
  awaited l → all_aborted s → step l s = ([], s) ∨ unsettled (step l s).2 < unsettled s.
Proof.
  intros Hl Hab. destruct l as [v|v| | |k|i a| |ok landed|f u|r]; try done; cbn.
  - apply stop_resumes_left.
  - pose proof (resume_spec i a s) as Hr. revert Hr. destruct (resume i a s) as [out s']. cbn.
    intros [|p pre paged p' o' s1 _ Hi Hf _ _ Hfr Hps Hq _ _ Hfin _ _ _]; [by left|right].
    unfold frame in Hfr. injection Hfr as _ _ Hst _ _ _ Hw _ _.
    pose proof (sum_insert poll_left _ _ _ p' Hi) as Hsum. unfold poll_left in Hsum.
    rewrite Hf, (Hfin (Hab i p (conj Hi Hf))) in Hsum. fold poll_left in Hsum.
    unfold unsettled. rewrite Hps, Hq, Hst, Hw, length_app.
    assert (length (option_list (new_cursor paged)) ≤ 1) by (by destruct (new_cursor paged); cbn; lia).
    unfold poll_left in *. lia.
  - unfold write_begins. destruct (writing s) eqn:Hw; [by left|].
    destruct (queued s) eqn:Hq; [by left|right].
    destruct (_ || _); unfold unsettled; cbn; rewrite Hw, Hq; cbn; lia.
  - unfold write_settles. destruct (writing s) eqn:Hw; [right|by left].
    destruct ok; [|unfold handleCursorFailure; destruct landed; cbn; destruct (_ <=? _)%Z];
      unfold unsettled; cbn; rewrite Hw; lia.
Qed.

Lemma stop_flushes_pollers k s : pollers (stop_flushes k s).2 = pollers s.
Proof. apply stop_flushes_kept. Qed.

Lemma all_aborted_pollers s s' : pollers s' = pollers s → all_aborted s → all_aborted s'.
Proof. unfold all_aborted, live. by intros ->. Qed.

Lemma abort_all_aborted s : all_aborted s → all_aborted (abort_controller s).
Proof.
  intros Hab i p' Hl. destruct (abort_controller_spec s) as (_ & _ & _ & _ & _ & H & _).
  destruct (H i p' Hl) as (p & Hlp & Ha). apply Ha. left. by apply (Hab i).
Qed.

Lemma awaited_aborted l s : awaited l → all_aborted s → all_aborted (step l s).2.
Proof.
  intros Hl Hab. destruct l as [v|v| | |k|i a| |ok landed|f u|r]; try done; cbn.
  - unfold stop_resumes. destruct (stops s !! k) as [[|i|upto]|]; [| | |done].
    + apply abort_all_aborted in Hab. destruct (unifiedPollPromise _); [done|].
      by apply (all_aborted_pollers (abort_controller s)); [apply stop_flushes_pollers|].
    + destruct (pollers s !! i) as [p|]; [|done]. destruct (finished p); [|done].
      apply (all_aborted_pollers s); [|done].
      by rewrite (stop_flushes_pollers k (with_control (unifiedController s) None s)).
    + by destruct (upto <=? settled s).
  - destruct (resume_spec i a s) as [|p pre paged p' o' s1 _ Hi Hf _ _ _ Hps _ _ Ha _ _ _ _]; [done|].
    intros j q [Hj Hq]. rewrite Hps in Hj.
    apply list_lookup_insert_Some in Hj as [(-> & -> & _)|[_ Hj]]; [|by apply (Hab j)].
    rewrite Ha. by apply (Hab j).
  - apply (all_aborted_pollers s); [|done]. apply write_begins_kept.
  - apply (all_aborted_pollers s); [|done]. apply write_settles_kept.
Qed.

(** *** As long as a call of stop waits, something can settle *)

Lemma aborted_settles i p s :
  live s i p → aborted p = true → ∃ a, step (Resume i a) s ≠ ([], s).
Proof.
  intros [Hi Hf] Hab.
  assert (∀ p', finished p' = true → resumed i p' s ≠ s) as Hne.
  { intros p' Hf' H. assert (pollers (resumed i p' s) !! i = Some p') as H'.
    { unfold resumed. rewrite Hf'. cbn. rewrite list_lookup_insert_eq; [done|by eapply lookup_lt_Some]. }
    rewrite H, Hi in H'. injection H' as ->. congruence. }
  assert (∀ p' (o : list Output), finished p' = true → (o, resumed i p' s) ≠ ([], s)) as Hne'
    by (intros p' o Hf' [= _ H]; by apply (Hne p' Hf')).
  cbn [step]. unfold resume. rewrite Hi.
  destruct (point p) eqn:Hp; [| | | |by unfold finished in Hf; rewrite Hp in Hf..].
  - exists (CursorResolved (Err tt)). unfold goes_on, loop_top. cbn [aborted with_cursor].
    rewrite Hab. by apply Hne'.
  - exists (EventsAnswered "" 0 (Err AbortFailure)). by apply Hne'.
  - exists Woken. rewrite Hab. by apply Hne'.
  - exists Woken. rewrite Hab. by apply Hne'.
Qed.

Lemma stop_flushes_moves k st s s' :
  stops s !! k = Some st → stops s' = stops s → 1 < stop_left st → stop_flushes k s' ≠ ([], s).
Proof.
  intros Hk Hs Hst H. assert (stops (stop_flushes k s').2 = stops s) as Hst' by by rewrite H.
  revert Hst'. unfold stop_flushes. destruct (_ =? 0); cbn; rewrite Hs; intros Hst'.
  - pose proof (sum_delete stop_left _ _ _ Hk) as Hsum. rewrite Hst' in Hsum. lia.
  - pose proof (sum_insert stop_left _ _ _ (WaitWrites (writes_queued s')) Hk) as Hsum.
    rewrite Hst' in Hsum. cbn in Hsum. lia.
Qed.

Lemma waiting_moves s :
  one s → all_aborted s → writes_bounded s → stops s ≠ [] →
  ∃ l, awaited l ∧ step l s ≠ ([], s).
Proof.
  intros Hone Hab Hwb Hne. destruct (stops s) as [|st rest] eqn:Hst; [done|].
  assert (stops s !! 0 = Some st) as Hk by by rewrite Hst.
  destruct st as [|i|n].
  - exists (StopResumes 0). split; [done|]. intros H.
    destruct (stop_resumes_left 0 s) as [H'|H']; [|cbn in H; rewrite H in H'; cbn in H'; lia].
    cbn in H. clear H'. unfold stop_resumes in H. rewrite Hk in H.
    assert (stops (abort_controller s) = stops s) as Hs by apply abort_controller_spec.
    destruct (unifiedPollPromise _).
    + apply (f_equal (λ x, stops x.2)) in H. cbn in H. rewrite Hs, Hst in H. by injection H.
    + revert H. apply (stop_flushes_moves 0 WaitSubscriber); [done|done|cbn; lia].
  - assert (i < length (pollers s)) as [p Hi]%lookup_lt_is_Some.
    { destruct Hone as (_ & _ & Hp & _). specialize (Hp i). rewrite Hst in Hp.
      rewrite <-Hp by (left; left). lia. }
    destruct (finished p) eqn:Hf.
    + exists (StopResumes 0). split; [done|]. cbn. unfold stop_resumes. rewrite Hk, Hi, Hf.
      apply (stop_flushes_moves 0 (WaitPoll i)); [done|done|cbn; lia].
    + destruct (aborted_settles i p s) as [a Ha]; [done|by apply (Hab i)|]. by exists (Resume i a).
  - destruct (writing s) as [c|] eqn:Hw; [|destruct (queued s) as [|c q] eqn:Hq].
    + exists (WriteSettles true true). split; [done|]. cbn. unfold write_settles. rewrite Hw.
      intros [= H]. apply (f_equal writing) in H. cbn in H. congruence.
    + exists (StopResumes 0). split; [done|]. cbn. unfold stop_resumes. rewrite Hk.
      assert (n ≤ settled s) as ->%Nat.leb_le; [|by intros [=]].
      specialize (Hwb n). unfold writes_queued in Hwb. rewrite Hst, Hq, Hw in Hwb.
      specialize (Hwb ltac:(left)). cbn in Hwb. lia.
    + exists WriteBegins. split; [done|]. cbn. unfold write_begins. rewrite Hw, Hq.
      destruct (_ || _); [|done]. intros [= H]. apply (f_equal queued) in H. cbn in H.
      rewrite Hq in H. by apply (f_equal length) in H; cbn in H; lia.
Qed.

Definition draining (s : Engine) : Prop := one s ∧ all_aborted s ∧ writes_bounded s.

Lemma draining_step l s : awaited l → draining s → draining (step l s).2.
Proof.
  intros Hl (H1 & H2 & H3). split_and!.
  - apply one_step; [by destruct l|done].
  - by apply awaited_aborted.
  - by apply writes_bounded_step.
Qed.

Lemma draining_run ls s :
  draining s → moving ls s →
  draining (run ls s).2 ∧ length ls + unsettled (run ls s).2 ≤ unsettled s.
Proof.
  revert s. induction ls as [|l ls IH]; intros s Hd; cbn; [done|]. intros (Hl & Hm & Hls).
  pose proof (draining_step l s Hl Hd) as Hd'.
  destruct (awaited_left l s Hl) as [|Hlt]; [by apply Hd|done|].
  destruct (step l s) as [o s']. destruct (IH s' Hd' Hls) as [H1 H2].
  destruct (run ls s') as [o' s'']. cbn in *. split; [done|lia].
Qed.

(** The first stretch of [stop] aborts the poll. *)
Lemma stop_first_aborts k s :
  one s → stops s !! k = Some WaitSubscriber → all_aborted (stop_resumes k s).2.
Proof.
  intros (Hl & _) Hk. assert (all_aborted (abort_controller s)) as Hab.
  { intros i p' Hl'. destruct (abort_controller_spec s) as (_ & _ & _ & _ & _ & H & _).
    destruct (H i p' Hl') as (p & Hlp & Ha). apply Ha.
    destruct (Hl i p Hlp) as (_ & _ & _ & H'). destruct (aborted p); by auto. }
  unfold stop_resumes. rewrite Hk. destruct (unifiedPollPromise _); [done|].
  by apply (all_aborted_pollers (abort_controller s)); [apply stop_flushes_pollers|].
Qed.

(** Once a call of stop has got past its first await, only boundedly many more
    answers, timers and writes can settle before nothing is left to wait for, and
    as long as a call of stop has not returned something still can: so every call
    of stop returns, if everything that is waited for settles. *)
Theorem stop_settles ls r value k ls' :
  let s := (run ls (fresh r value)).2 in
  let s' := (step (StopResumes k) s).2 in
  let s'' := (run ls' s').2 in
  sensible ls (fresh r value) → stops s !! k = Some WaitSubscriber → moving ls' s' →
  length ls' ≤ unsettled s' ∧
  (stops s'' = [] ∨ ∃ l, awaited l ∧ step l s'' ≠ ([], s'')).
Proof.
  intros s s' s'' Hls Hk Hmoving.
  assert (one s) as Hone by (apply one_run; [done|apply one_fresh]).
  assert (writes_bounded s) as Hwb by (apply writes_bounded_run; by intros n Hn%elem_of_nil).
  assert (draining s') as Hd.
  { split_and!; [by apply one_step|by apply stop_first_aborts|by apply writes_bounded_step]. }
  destruct (draining_run ls' s' Hd Hmoving) as [(H1 & H2 & H3) Hle]. fold s'' in H1, H2, H3, Hle.
  split; [lia|]. destruct (stops s'') as [|st rest] eqn:Hst; [by left|right].
  apply waiting_moves; [done..|]. by rewrite Hst.
Qed.
End poller.

(** ** Runs

    The engine with a cursor store that holds [c0] and the settings it polls
    with. *)

#[local] Notation demo_step := (@step toy_sdk unit true 3 100 None 1000 30000).
#[local] Notation demo_moving := (@moving toy_sdk unit true 3 100 None 1000 30000).
#[local] Notation demo_run := (@run toy_sdk unit true 3 100 None 1000 30000).
#[local] Notation demo := (fresh sample_router (Some "c0")).

Definition payment_page (c : string) : UnifiedPage :=
  {| up_events := [sample_raw "i10000000" (Some "0004096-0000000001")]; up_cursor := Some c |}.

(** A poll that has delivered a page and sleeps. *)
Definition polling : list (label (Semantic := unit)) :=
  [Start (Some via_unified); Resume 0 (CursorResolved (Ok (Some "c0")));
   Resume 0 (EventsAnswered "now" 0 (Ok (payment_page "c1")))].

Definition delivering := polling ++ [WriteBegins; WriteSettles true true; Resume 0 Woken].

Lemma unified_pages_in_order_witness :
  omap (λ o, match o with Asked i c => Some (i, c) | _ => None end) (demo_run delivering demo).1
    = [(0, Some "c0"); (0, Some "c1")] ∧
  set_calls (demo_run delivering demo).1 = ["c1"] ∧
  (stored (demo_run delivering demo).2 = Some "c0" ∨
   ∃ c, stored (demo_run delivering demo).2 = Some c ∧ c ∈ set_calls (demo_run delivering demo).1).
Proof.
  split_and!; [vm_compute; reflexivity|vm_compute; reflexivity|].
  apply (unified_pages_in_order (sdk := toy_sdk) (Semantic := unit) true 3 100 None 1000 30000
    delivering sample_router (Some "c0")).
Defined.

(** A stop during the sleep. *)
Definition stopping : list (label (Semantic := unit)) := polling ++ [Stop].

Lemma one_poller_witness :
  let s := (demo_run (stopping ++ [StopResumes 0; Resume 0 Woken; WriteBegins; WriteSettles true true;
    StopResumes 0]) demo).2 in
  (demo_step (StopResumes 0) s).1 = [Notified Stopped; StopDone] ∧
  idle (demo_step (StopResumes 0) s).2.
Proof.
  split; [vm_compute; reflexivity|].
  apply (one_poller (sdk := toy_sdk) (Semantic := unit) true 3 100 None 1000 30000
    (stopping ++ [StopResumes 0; Resume 0 Woken; WriteBegins; WriteSettles true true; StopResumes 0])
    sample_router (Some "c0") (StopResumes 0)).
  - vm_compute. by repeat split.
  - vm_compute. right. by left.
Defined.

Lemma stop_settles_witness :
  let s := (demo_run stopping demo).2 in
  let s' := (demo_step (StopResumes 0) s).2 in
  stops s !! 0 = Some WaitSubscriber ∧ unsettled s' = 7 ∧
  ∀ ls', demo_moving ls' s' → length ls' ≤ unsettled s'.
Proof.
  split; [vm_compute; reflexivity|]. split; [vm_compute; reflexivity|]. intros ls' Hm.
  refine (proj1 (stop_settles (sdk := toy_sdk) (Semantic := unit) true 3 100 None 1000 30000 stopping
    sample_router (Some "c0") 0 ls' _ _ Hm)).
  - vm_compute. by repeat split.
  - vm_compute. reflexivity.
Defined.

(** *** What ends a poll without a word *)

(** A request that timed out rejects with the error of an abort, which a poll
    takes for a stop: it returns, its source is no longer connected, and the
    engine still leaves the payments to it. *)
Lemma timeout_ends_poller :
  let r := demo_run (polling ++ [Resume 0 Woken;
    Resume 0 (EventsAnswered "now" 0 (Err AbortFailure))]) demo in
  let s := r.2 in
  (point <$> pollers s !! 0) = Some Returned ∧ effectiveIngestion s = via_unified ∧
  horizonRunning s = true ∧ unifiedRunning s = false ∧
  Forall (λ o, match o with Notified _ => False | _ => True end) r.1.
Proof. vm_compute. split_and!; try reflexivity. by repeat constructor. Qed.

(** So does an event that has no id: the dispatch throws, nothing is notified,
    the cursor stays where it was. *)
Lemma idless_event_ends_poller :
  let r := demo_run [Start (Some via_unified); Resume 0 (CursorResolved (Ok (Some "c0")));
    Resume 0 (EventsAnswered "now" 0
      (Ok {| up_events := [sample_raw "i1" None]; up_cursor := Some "c1" |}))] demo in
  let s := r.2 in
  (point <$> pollers s !! 0) = Some (Rejected (Threw TypeError)) ∧
  effectiveIngestion s = via_unified ∧ horizonRunning s = true ∧ queued s = [] ∧
  Forall (λ o, match o with Notified _ => False | _ => True end) r.1.
Proof. vm_compute. split_and!; try reflexivity. by repeat constructor. Qed.

(** *** Stops and starts that overlap *)

(** A [start] while [stop] waits keeps the poll that is being aborted: after both
    the engine runs without one. *)
Lemma restart_during_stop :
  let r := demo_run (stopping ++ [StopResumes 0; Start (Some via_unified); Resume 0 Woken;
    WriteBegins; WriteSettles true true; StopResumes 0; StopResumes 0]) demo in
  let s := r.2 in
  horizonRunning s = true ∧ effectiveIngestion s = via_unified ∧ stops s = [] ∧
  unifiedRunning s = false ∧ Forall (λ p, finished p = true) (pollers s).
Proof. vm_compute. split_and!; try reflexivity. by repeat constructor. Qed.

(** A [start] after the poll ended and before [stop] returned has its poll, but
    the [stop] marks it as not running; the next [start] adds a second one. *)
Lemma late_stop_hides_poller :
  let r := demo_run (stopping ++ [StopResumes 0; Resume 0 Woken; StopResumes 0;
    Start (Some via_unified); WriteBegins; WriteSettles true true; StopResumes 0;
    HorizonLost; Start (Some via_unified)]) demo in
  let s := r.2 in
  stops s = [] ∧ unifiedRunning s = true ∧ unifiedController s = Some 2 ∧
  (finished <$> pollers s) = [true; false; false].
Proof. vm_compute. by split_and!. Qed.

(** *** What a stop does to a poll *)

(** In a backoff the abort makes the poll reject, which the engine logs as a poll
    that did not shut down cleanly. *)
Lemma abort_in_backoff_rejects :
  let s := (demo_run ([Start (Some via_unified); Resume 0 (CursorResolved (Ok (Some "c0")));
    Resume 0 (EventsAnswered "now" 0
      (Err (RpcFailed (classified ("network", true) None))));
    Stop; StopResumes 0; Resume 0 Woken]) demo).2 in
  (point <$> pollers s !! 0) = Some (Rejected (RejectedBy AbortFailure)).
Proof. reflexivity. Qed.

(** The request has no signal: a page that is on its way when the engine stops is
    dispatched all the same. *)
Lemma page_dispatched_after_abort :
  let s := (demo_run [Start (Some via_unified); Resume 0 (CursorResolved (Ok (Some "c0"))); Stop;
    StopResumes 0] demo).2 in
  dispatched (demo_step (Resume 0 (EventsAnswered "now" 0 (Ok (payment_page "c1")))) s).1
    = up_events (payment_page "c1").
Proof. reflexivity. Qed.
