(* ===== verification/CanonicalJson.v ===== *)
(** * Canonical JSON (packages/abi-registry/src/canonicalJson.ts)

    The text a signature covers.  Texts are ASCII, so no string holds a lone
    surrogate, and every object is a plain one; paths of error messages are left
    out.  The text of a number that is no integer below 10^21 is the language's
    own, [fraction_to_string]; what is used of it is [NumberText]. *)

From Stdlib Require Import Sorted.
From stdpp Require Import sorting.
From S2P Require Import Prelude.
From S2P Require Import JsValue.
From S2P Require Import Decimal.

(** ** Sorting by a text key ([Object.keys(obj).sort()]) *)

Section members.
Context {A : Type}.

Fixpoint insert_member (x : string * A) (l : list (string * A)) : list (string * A) :=
  match l with
  | [] => [x]
  | y :: l' => if String.leb x.1 y.1 then x :: l else y :: insert_member x l'
  end.

Definition sort_members (l : list (string * A)) : list (string * A) := foldr insert_member [] l.

Definition member_le (x y : string * A) : Prop := String.le x.1 y.1.

Lemma insert_member_perm x l : insert_member x l ≡ₚ x :: l.
Proof.
  induction l as [|y l IH]; cbn; [done|]. destruct (String.leb _ _); [done|].
  rewrite IH. apply Permutation_swap.
Qed.

Lemma sort_members_perm l : sort_members l ≡ₚ l.
Proof. induction l as [|x l IH]; cbn; [done|]. by rewrite insert_member_perm, IH. Qed.

Lemma insert_member_sorted x l :
  StronglySorted member_le l → StronglySorted member_le (insert_member x l).
Proof.
  unfold member_le. induction 1 as [|y l Hs IH Hf]; cbn; [by repeat constructor|].
  destruct (String.leb x.1 y.1) eqn:Hle.
  - assert (String.le x.1 y.1) as Hxy by (unfold String.le; by rewrite Hle).
    constructor; [by constructor|]. constructor; [done|].
    eapply Forall_impl; [exact Hf|]. intros z Hz. by trans y.1.
  - constructor; [done|]. rewrite insert_member_perm. constructor; [|done].
    destruct (String.leb_total x.1 y.1) as [H|H]; [congruence|]. unfold String.le. by rewrite H.
Qed.

Lemma sort_members_sorted l : StronglySorted member_le (sort_members l).
Proof. induction l; cbn; [constructor|by apply insert_member_sorted]. Qed.

Lemma sort_members_id l : StronglySorted member_le l → sort_members l = l.
Proof.
  induction 1 as [|x l Hs IH Hf]; cbn; [done|]. fold (sort_members l). rewrite IH.
  destruct l as [|y l]; [done|]. cbn. apply Forall_cons in Hf as [Hxy _].
  unfold member_le, String.le in Hxy. by destruct (String.leb x.1 y.1).
Qed.

(** Members of different names have one order. *)
Lemma sort_members_unique l l' : NoDup l.*1 → l ≡ₚ l' → sort_members l = sort_members l'.
Proof.
  intros Hnd Hp.
  apply (StronglySorted_unique_strong member_le);
    [|apply sort_members_sorted..|by rewrite !sort_members_perm].
  intros x y Hx Hy Hxy Hyx. rewrite sort_members_perm in Hx. rewrite sort_members_perm, <-Hp in Hy.
  assert (x.1 = y.1) as Hk by (unfold member_le in *; by apply (anti_symm String.le)).
  apply list_elem_of_lookup in Hx as [i Hi]. apply list_elem_of_lookup in Hy as [j Hj].
  assert (i = j) as ->; [|congruence].
  apply (NoDup_lookup _ i j x.1 Hnd); rewrite list_lookup_fmap; [by rewrite Hi|by rewrite Hj, Hk].
Qed.
End members.

Lemma insert_member_map {A B} (g : A → B) x l :
  insert_member (prod_map id g x) (prod_map id g <$> l) = prod_map id g <$> insert_member x l.
Proof. induction l as [|y l IH]; cbn; [done|]. destruct (String.leb _ _); cbn; [done|]. by rewrite IH. Qed.

Lemma sort_members_map {A B} (g : A → B) l :
  sort_members (prod_map id g <$> l) = prod_map id g <$> sort_members l.
Proof.
  induction l as [|x l IH]; cbn; [done|]. fold (sort_members (prod_map id g <$> l)).
  fold (sort_members l). by rewrite IH, insert_member_map.
Qed.

(** ** Texts *)

Definition quote : ascii := "034".
Definition backslash : ascii := "092".

(** What follows the backslash of an escaped character; [None] for the characters
    that stand for themselves. *)
Definition hex_digit (n : nat) : ascii :=
  ascii_of_nat (if n <? 10 then 48 + n else 87 + n).

Definition escape (c : ascii) : option string :=
  let n := nat_of_ascii c in
  if n =? 34 then Some (String quote "")
  else if n =? 92 then Some (String backslash "")
  else if n =? 8 then Some "b"
  else if n =? 9 then Some "t"
  else if n =? 10 then Some "n"
  else if n =? 12 then Some "f"
  else if n =? 13 then Some "r"
  else if n <? 32 then Some ("u00" +:+ String (hex_digit (n / 16)) (String (hex_digit (n mod 16)) ""))
  else None.

Fixpoint escape_string (s : string) : string :=
  match s with
  | EmptyString => EmptyString
  | String c s' =>
      match escape c with
      | Some e => String backslash (e +:+ escape_string s')
      | None => String c (escape_string s')
      end
  end.

(** [JSON.stringify] of a string *)
Definition json_string (s : string) : string :=
  String quote (escape_string s +:+ String quote "").

(** ** serialize *)

Inductive CanonicalJsonError := TooDeep | NotFinite | NotJson.

Definition MAX_DEPTH : nat := 64.

Section canonical.
Context (fraction_to_string : Z → nat → string).

(** The members in order; one whose value is [undefined] is absent. *)
Definition serialize_members
    (l : list (string * option (result CanonicalJsonError string)))
    : result CanonicalJsonError (list string) :=
  mapM (λ p : string * result CanonicalJsonError string,
          text ← p.2; Ok (json_string p.1 +:+ ":" +:+ text))
    (omap (λ p, pair p.1 <$> p.2) l).

Fixpoint serialize (v : jsval) (depth : nat) : result CanonicalJsonError string :=
  if MAX_DEPTH <? depth then Err TooDeep
  else match v with
  | JUndef => Err NotJson
  | JNull => Ok "null"
  | JBool b => Ok (if b then "true" else "false")
  | JStr s => Ok (json_string s)
  | JNum n => if js_isFinite n then Ok (num_to_string fraction_to_string n) else Err NotFinite
  | JArr items =>
      parts ← mapM (λ w, serialize w (S depth)) items;
      Ok ("[" +:+ join "," parts +:+ "]")
  | JObj fields =>
      parts ← serialize_members (sort_members
        (map (λ p : string * jsval,
                match p with
                | (k, w) => (k, if is_undef w then None else Some (serialize w (S depth)))
                end) fields));
      Ok ("{" +:+ join "," parts +:+ "}")
  end.

Definition canonicalizeJson (v : jsval) : result CanonicalJsonError string := serialize v 0.
End canonical.

(** ** The document a value stands for *)

(** One form for each number. *)
Fixpoint lowest_terms (k : nat) (m : Z) : jsnum :=
  match k with
  | O => JFin m 0
  | S k' => if Z.even m then lowest_terms k' (m / 2) else JFin m k
  end.

Definition canonical_num (n : jsnum) : jsnum :=
  match n with JFin m k => lowest_terms k m | _ => n end.

Definition defined (p : string * jsval) : bool := negb (is_undef p.2).

(** Members in order, without the absent ones. *)
Fixpoint document (v : jsval) : jsval :=
  match v with
  | JNum n => JNum (canonical_num n)
  | JArr l => JArr (map document l)
  | JObj fs =>
      JObj (List.filter defined
        (sort_members (map (λ p : string * jsval, match p with (k, w) => (k, document w) end) fs)))
  | _ => v
  end.

(** What has a canonical text. *)
Fixpoint in_model (v : jsval) (depth : nat) : bool :=
  (depth <=? MAX_DEPTH) &&
  match v with
  | JUndef => false
  | JNum n => js_isFinite n
  | JArr l => forallb (λ w, in_model w (S depth)) l
  | JObj fs =>
      forallb (λ p : string * jsval, match p with (_, w) => is_undef w || in_model w (S depth) end) fs
  | _ => true
  end.

(** ** Number texts *)

Definition numeral_char (c : ascii) : bool :=
  bool_decide (is_Some (digit_val c)) ||
  existsb (Ascii.eqb c) ["-"%char; "+"%char; "."%char; "e"%char].

Fixpoint all_numeral (s : string) : bool :=
  match s with EmptyString => true | String c s' => numeral_char c && all_numeral s' end.

Definition is_numeral (s : string) : bool :=
  match s with
  | EmptyString => false
  | String c _ => (bool_decide (is_Some (digit_val c)) || Ascii.eqb c "-") && all_numeral s
  end.

(** ECMAScript's [Number::toString]: finite numbers have a numeral each. *)
Class NumberText (fraction_to_string : Z → nat → string) : Prop := {
  text_of_number x y :
    js_isFinite x = true → js_isFinite y = true →
    (num_to_string fraction_to_string x = num_to_string fraction_to_string y ↔
     canonical_num x = canonical_num y);
  text_is_numeral x :
    js_isFinite x = true → is_numeral (num_to_string fraction_to_string x) = true;
}.

(** ** Induction over documents *)

Section jsval_ind.
Context (P : jsval → Prop).
Context (Hleaf : ∀ v, match v with JArr _ | JObj _ => True | _ => P v end).
Context (Harr : ∀ l, Forall P l → P (JArr l)).
Context (Hobj : ∀ fs, Forall (λ p : string * jsval, P p.2) fs → P (JObj fs)).

Fixpoint jsval_nested_ind (v : jsval) : P v :=
  match v return P v with
  | JArr l => Harr l ((fix go l : Forall P l :=
      match l with
      | [] => Forall_nil_2 P
      | w :: l' => Forall_cons_2 P w l' (jsval_nested_ind w) (go l')
      end) l)
  | JObj fs => Hobj fs ((fix go fs : Forall (λ p : string * jsval, P p.2) fs :=
      match fs with
      | [] => Forall_nil_2 _
      | (k, w) :: fs' => Forall_cons_2 _ (k, w) fs' (jsval_nested_ind w) (go fs')
      end) fs)
  | JUndef => Hleaf JUndef
  | JNull => Hleaf JNull
  | JBool b => Hleaf (JBool b)
  | JNum n => Hleaf (JNum n)
  | JStr s => Hleaf (JStr s)
  end.
End jsval_ind.

(** ** Reading texts back *)

Definition head_is (P : ascii → bool) (s : string) : bool :=
  match s with EmptyString => false | String c _ => P c end.

(** A numeral ends before [s]. *)
Definition stops (s : string) : Prop := head_is numeral_char s = false.

Lemma app_assoc_s (s t r : string) : (s +:+ t) +:+ r = s +:+ t +:+ r.
Proof. induction s as [|c s IH]; cbn; [done|]. by rewrite IH. Qed.

Lemma numeral_split s t r r' :
  all_numeral s = true → all_numeral t = true → stops r → stops r' →
  s +:+ r = t +:+ r' → s = t ∧ r = r'.
Proof.
  revert t. induction s as [|c s IH]; intros [|c' t]; cbn; intros Hs Ht Hr Hr' H; [done|..].
  - exfalso. apply andb_true_iff in Ht as [Hc _]. subst r. unfold stops in Hr. cbn in Hr. congruence.
  - exfalso. apply andb_true_iff in Hs as [Hc _]. subst r'. unfold stops in Hr'. cbn in Hr'. congruence.
  - apply andb_true_iff in Hs as [_ Hs]. apply andb_true_iff in Ht as [_ Ht]. injection H as <- H.
    destruct (IH t Hs Ht Hr Hr' H) as [-> ->]. done.
Qed.

(** What an escape says. *)
Definition unescape (s : string) : option (ascii * string) :=
  match s with
  | String "b" r => Some ("008"%char, r)
  | String "t" r => Some ("009"%char, r)
  | String "n" r => Some ("010"%char, r)
  | String "f" r => Some ("012"%char, r)
  | String "r" r => Some ("013"%char, r)
  | String "u" (String _ (String _ (String a (String b r)))) =>
      let digit c := let n := nat_of_ascii c in if n <? 58 then n - 48 else n - 87 in
      Some (ascii_of_nat (16 * digit a + digit b), r)
  | String c r => Some (c, r)
  | EmptyString => None
  end.

Lemma unescape_escape c e r : escape c = Some e → unescape (e +:+ r) = Some (c, r).
Proof.
  destruct c as [[] [] [] [] [] [] [] []]; intros H; cbv in H; try discriminate H;
    injection H as <-; reflexivity.
Qed.

Lemma plain_not_special c : escape c = None → c ≠ quote ∧ c ≠ backslash.
Proof. intros H. split; intros ->; discriminate H. Qed.

Lemma escape_string_inj s t r r' :
  escape_string s +:+ String quote r = escape_string t +:+ String quote r' → s = t ∧ r = r'.
Proof.
  revert t. induction s as [|c s IH]; intros [|c' t]; cbn.
  - by intros [= ->].
  - destruct (escape c') eqn:He; cbn; [done|]. intros [= <- _].
    by apply plain_not_special in He as [? _].
  - destruct (escape c) eqn:He; cbn; [done|]. intros [= -> _].
    by apply plain_not_special in He as [? _].
  - destruct (escape c) as [e|] eqn:He, (escape c') as [e'|] eqn:He'; cbn.
    + intros [= H]. apply (f_equal unescape) in H. rewrite !app_assoc_s in H.
      rewrite (unescape_escape c), (unescape_escape c') in H by done. injection H as -> H.
      destruct (IH t H) as [-> ->]. done.
    + intros [= H _]. apply plain_not_special in He' as [_ Hne]. by rewrite <-H in Hne.
    + intros [= H _]. apply plain_not_special in He as [_ Hne]. by rewrite H in Hne.
    + intros [= -> H]. destruct (IH t H) as [-> ->]. done.
Qed.

Lemma json_string_inj s t r r' : json_string s +:+ r = json_string t +:+ r' → s = t ∧ r = r'.
Proof.
  unfold json_string. cbn. rewrite !app_assoc_s. cbn. intros [= H]. by apply escape_string_inj in H.
Qed.

(** [s] is a text of [a] and cannot be read otherwise, [close] does not begin
    one. *)
Section sequences.
Context {B : Type} (close : ascii).
Context (Hclose : numeral_char close = false) (Hcomma : close ≠ ","%char).

Definition reads (x y : string * B) : Prop :=
  ∀ r r', stops r → stops r' → x.1 +:+ r = y.1 +:+ r' → x.2 = y.2 ∧ r = r'.

Definition opens (x : string * B) : Prop := head_is (λ c, negb (Ascii.eqb c close)) x.1 = true.

Lemma opens_not_close x r r' : opens x → x.1 +:+ r ≠ String close r'.
Proof.
  unfold opens. destruct x as [[|c s] b]; cbn; [done|]. intros Hc [= -> _].
  by rewrite Ascii.eqb_refl in Hc.
Qed.

Lemma join_cons x l r :
  join "," (x :: l) +:+ String close r =
  x +:+ match l with [] => String close r | _ => String "," (join "," l +:+ String close r) end.
Proof. destruct l as [|y l]; [done|]. cbn [join]. rewrite app_assoc_s. cbn. done. Qed.

Lemma join_reads xs ys r r' :
  Forall opens xs → Forall opens ys → (∀ x y, x ∈ xs → y ∈ ys → reads x y) →
  join "," xs.*1 +:+ String close r = join "," ys.*1 +:+ String close r' →
  xs.*2 = ys.*2 ∧ r = r'.
Proof.
  intros Hxs. revert ys. induction Hxs as [|x xs Hx _ IH]; intros ys Hys Hread H;
    destruct Hys as [|y ys Hy Hys].
  - injection H as ->. done.
  - exfalso. symmetry in H. rewrite fmap_cons, join_cons in H. cbn [fmap list_fmap join] in H.
    by apply opens_not_close in H.
  - exfalso. rewrite fmap_cons, join_cons in H. cbn [fmap list_fmap join] in H.
    by apply opens_not_close in H.
  - rewrite !fmap_cons, !join_cons in H.
    apply (Hread x y) in H as [Hxy H]; [|by left|by left|by destruct xs|by destruct ys].
    destruct xs as [|x' xs], ys as [|y' ys]; cbn [fmap list_fmap] in H.
    + injection H as ->. cbn. by rewrite Hxy.
    + injection H as H _. done.
    + injection H as H _. by symmetry in H.
    + injection H as H. apply (IH (y' :: ys)) in H as [H1 H2]; [|done|].
      * rewrite !fmap_cons in H1 |- *. cbn in *. by rewrite Hxy, H1.
      * intros a b Ha Hb. apply Hread; by right.
Qed.
End sequences.

(** ** The texts of a value *)

Lemma result_mapM_Ok {E A B} (f : A → result E B) l k :
  mapM f l = Ok k ↔ Forall2 (λ x y, f x = Ok y) l k.
Proof.
  revert k. induction l as [|x l IH]; intros k; cbn.
  - split; [by intros [= <-]|]. by inversion 1.
  - split.
    + intros (y & Hy & H)%result_bind_Ok. apply result_bind_Ok in H as (k' & Hk & [= <-]).
      constructor; [done|by apply IH].
    + inversion 1 as [|? y ? k' Hy Hk]; subst. rewrite Hy. cbn. apply IH in Hk. by rewrite Hk.
Qed.

Section texts.
Context (fraction_to_string : Z → nat → string).
Notation serialize := (serialize fraction_to_string).
Notation canonicalizeJson := (canonicalizeJson fraction_to_string).

Definition member_text (depth : nat) (w : jsval) : option (result CanonicalJsonError string) :=
  if is_undef w then None else Some (serialize w depth).

Lemma serialize_unfold v depth :
  serialize v depth =
  if MAX_DEPTH <? depth then Err TooDeep
  else match v with
  | JUndef => Err NotJson
  | JNull => Ok "null"
  | JBool b => Ok (if b then "true" else "false")
  | JStr s => Ok (json_string s)
  | JNum n => if js_isFinite n then Ok (num_to_string fraction_to_string n) else Err NotFinite
  | JArr items =>
      parts ← mapM (λ w, serialize w (S depth)) items;
      Ok ("[" +:+ join "," parts +:+ "]")
  | JObj fields =>
      parts ← serialize_members (prod_map id (member_text (S depth)) <$> sort_members fields);
      Ok ("{" +:+ join "," parts +:+ "}")
  end.
Proof.
  destruct v as [| | | | | |fields]; try done. rewrite <-sort_members_map.
  assert (prod_map id (member_text (S depth)) <$> fields =
    map (λ p : string * jsval, let (k, w) := p in
      (k, if is_undef w then None else Some (serialize w (S depth)))) fields) as ->
    by (by apply list_fmap_ext; intros ? [] _).
  done.
Qed.

Lemma document_obj fs :
  document (JObj fs) = JObj (List.filter defined (prod_map id document <$> sort_members fs)).
Proof.
  cbn. rewrite <-sort_members_map.
  assert (prod_map id document <$> fs =
    map (λ p : string * jsval, let (k, w) := p in (k, document w)) fs) as ->
    by (by apply list_fmap_ext; intros ? [] _).
  done.
Qed.

(** The first character tells the kind of a value. *)
Definition kind_char (v : jsval) (c : ascii) : bool :=
  match v with
  | JUndef => false
  | JNull => Ascii.eqb c "n"
  | JBool b => Ascii.eqb c (if b then "t" else "f")
  | JStr _ => Ascii.eqb c quote
  | JNum _ => bool_decide (is_Some (digit_val c)) || Ascii.eqb c "-"
  | JArr _ => Ascii.eqb c "["
  | JObj _ => Ascii.eqb c "{"
  end.

Definition kind (v : jsval) : nat :=
  match v with
  | JUndef => 0 | JNull => 1 | JBool true => 2 | JBool false => 3
  | JStr _ => 4 | JNum _ => 5 | JArr _ => 6 | JObj _ => 7
  end.

Lemma kind_char_kind v w c : kind_char v c = true → kind_char w c = true → kind v = kind w.
Proof.
  destruct v as [| |[]| | | |], w as [| |[]| | | |]; try done; cbn; intros H1 H2;
    repeat match goal with
    | H : Ascii.eqb _ _ = true |- _ => apply Ascii.eqb_eq in H; subst
    end; try done; discriminate.
Qed.

Lemma kind_char_opens v s :
  head_is (kind_char v) s = true → head_is (λ c, negb (Ascii.eqb c "]")) s = true.
Proof.
  destruct s as [|c s]; [done|]. cbn. intros H. apply negb_true_iff, Ascii.eqb_neq. intros ->.
  by destruct v as [| |[]| | | |].
Qed.

Context `{HN : !NumberText fraction_to_string}.

Lemma serialize_head v depth s : serialize v depth = Ok s → head_is (kind_char v) s = true.
Proof.
  rewrite serialize_unfold. destruct (MAX_DEPTH <? depth); [done|].
  destruct v as [| |[]|n|s'|l|fs]; try (by intros [= <-]).
  - destruct (js_isFinite n) eqn:Hn; [|done]. intros [= <-].
    pose proof (text_is_numeral n Hn) as H. destruct (num_to_string _ n) as [|c s]; [done|].
    cbn in H |- *. by apply andb_true_iff in H as [-> _].
  - intros (parts & _ & [= <-])%result_bind_Ok. done.
  - intros (parts & _ & [= <-])%result_bind_Ok. done.
Qed.

Lemma number_inj n n' r r' :
  js_isFinite n = true → js_isFinite n' = true → stops r → stops r' →
  num_to_string fraction_to_string n +:+ r = num_to_string fraction_to_string n' +:+ r' →
  canonical_num n = canonical_num n' ∧ r = r'.
Proof.
  intros Hn Hn' Hr Hr' H.
  assert (∀ x, js_isFinite x = true → all_numeral (num_to_string fraction_to_string x) = true) as Hall.
  { intros x Hx. pose proof (text_is_numeral x Hx) as Hnum. unfold is_numeral in Hnum.
    destruct (num_to_string _ x); [done|]. by apply andb_true_iff in Hnum as [_ Hnum]. }
  apply numeral_split in H as [H ->]; [|by auto..]. split; [|done]. by apply text_of_number.
Qed.

(** The elements' texts with what they stand for. *)
Lemma items_read depth items parts :
  Forall2 (λ w s, serialize w depth = Ok s) items parts →
  ∃ xs : list (string * jsval), parts = xs.*1 ∧ document <$> items = xs.*2 ∧
    ∀ x, x ∈ xs → ∃ w, w ∈ items ∧ serialize w depth = Ok x.1 ∧ x.2 = document w.
Proof.
  induction 1 as [|w s items parts Hw _ (xs & -> & Hd & Hx)]; [by exists []; set_solver|].
  exists ((s, document w) :: xs). cbn. rewrite Hd. split_and!; [done|done|].
  intros x [->|Hin]%elem_of_cons; [exists w; cbn; split; [left|done]|].
  destruct (Hx x Hin) as (w' & Hin' & H). exists w'. split; [by right|done].
Qed.

Lemma members_read depth fs parts :
  serialize_members (prod_map id (member_text depth) <$> fs) = Ok parts →
  ∃ xs : list (string * (string * jsval)), parts = xs.*1 ∧
    List.filter defined (prod_map id document <$> fs) = xs.*2 ∧
    ∀ x, x ∈ xs → ∃ k w text, (k, w) ∈ fs ∧ serialize w depth = Ok text ∧
      x = (json_string k +:+ ":" +:+ text, (k, document w)).
Proof.
  unfold serialize_members. rewrite result_mapM_Ok. revert parts.
  induction fs as [|[k w] fs IH]; intros parts H.
  { cbn in H. inversion H. by exists []; set_solver. }
  assert (is_undef (document w) = is_undef w) as Hu by by destruct w.
  cbn in H |- *. unfold member_text in H at 1. unfold defined at 1. cbn. rewrite Hu.
  destruct (is_undef w); cbn in H |- *.
  - destruct (IH parts H) as (xs & -> & Hd & Hx). exists xs. split_and!; [done|done|].
    intros x Hin. destruct (Hx x Hin) as (k' & w' & text & Hin' & H'). exists k', w', text.
    split; [by right|done].
  - inversion H as [|? s ? parts' Hs Hparts]; subst.
    apply result_bind_Ok in Hs as (text & Ht & [= <-]). cbn in Ht.
    destruct (IH parts' Hparts) as (xs & -> & Hd & Hx).
    exists ((json_string k +:+ ":" +:+ text, (k, document w)) :: xs). cbn [fmap list_fmap fst snd].
    split_and!; [done|by rewrite <-Hd|].
    intros x [->|Hin]%elem_of_cons; [by exists k, w, text; split; [left|]|].
    destruct (Hx x Hin) as (k' & w' & text' & Hin' & H'). exists k', w', text'.
    split; [by right|done].
Qed.

Definition readable_back (v : jsval) : Prop :=
  ∀ w d d' s t r r',
    serialize v d = Ok s → serialize w d' = Ok t → stops r → stops r' → s +:+ r = t +:+ r' →
    document v = document w ∧ r = r'.

Lemma same_kind v w d d' s t r r' :
  serialize v d = Ok s → serialize w d' = Ok t → s +:+ r = t +:+ r' → kind v = kind w.
Proof.
  intros Hs%serialize_head Ht%serialize_head H.
  destruct s as [|c s], t as [|c' t]; try done. injection H as <- _.
  by apply (kind_char_kind v w c).
Qed.

Lemma array_readable l : Forall readable_back l → readable_back (JArr l).
Proof.
  intros Hl w d d' s t r r' Hs Ht Hr Hr' H. pose proof (same_kind _ _ _ _ _ _ _ _ Hs Ht H) as Hk.
  destruct w as [| |[]| | |l'|]; try done. rewrite serialize_unfold in Hs, Ht.
  destruct (MAX_DEPTH <? d); [done|]. destruct (MAX_DEPTH <? d'); [done|].
  apply result_bind_Ok in Hs as (parts & Hs & [= <-]).
  apply result_bind_Ok in Ht as (parts' & Ht & [= <-]).
  apply result_mapM_Ok, items_read in Hs as (xs & -> & Hd & Hx).
  apply result_mapM_Ok, items_read in Ht as (ys & -> & Hd' & Hy).
  cbn in H. rewrite !app_assoc_s in H. injection H as H.
  assert (∀ n (zs : list (string * jsval)) (items : list jsval), (∀ x, x ∈ zs → ∃ w, w ∈ items ∧ serialize w n = Ok x.1 ∧ x.2 = document w) →
    Forall (opens "]") zs) as Hopens.
  { intros n zs items Hz. apply Forall_forall. intros x Hin.
    destruct (Hz x Hin) as (w & _ & Hw & _). by eapply kind_char_opens, serialize_head. }
  apply join_reads in H as [H ->]; [|done..| | |].
  - split; [|done]. change (document (JArr l)) with (JArr (document <$> l)).
    change (document (JArr l')) with (JArr (document <$> l')). by rewrite Hd, Hd', H.
  - by eapply Hopens.
  - by eapply Hopens.
  - intros x y Hin Hin' q q' Hq Hq' Heq.
    destruct (Hx x Hin) as (w & Hw & Hsx & ->). destruct (Hy y Hin') as (w' & _ & Hsy & ->).
    rewrite Forall_forall in Hl. by eapply (Hl w Hw).
Qed.

Lemma object_readable fs :
  Forall (λ p : string * jsval, readable_back p.2) fs → readable_back (JObj fs).
Proof.
  intros Hl w d d' s t r r' Hs Ht Hr Hr' H. pose proof (same_kind _ _ _ _ _ _ _ _ Hs Ht H) as Hk.
  destruct w as [| |[]| | | |fs']; try done. rewrite serialize_unfold in Hs, Ht.
  destruct (MAX_DEPTH <? d); [done|]. destruct (MAX_DEPTH <? d'); [done|].
  apply result_bind_Ok in Hs as (parts & Hs & [= <-]).
  apply result_bind_Ok in Ht as (parts' & Ht & [= <-]).
  apply members_read in Hs as (xs & -> & Hd & Hx). apply members_read in Ht as (ys & -> & Hd' & Hy).
  cbn in H. rewrite !app_assoc_s in H. injection H as H. rewrite !document_obj, Hd, Hd'.
  apply join_reads in H as [H ->]; [by rewrite H|done|done| | |].
  - apply Forall_forall. intros x Hin. by destruct (Hx x Hin) as (? & ? & ? & _ & _ & ->).
  - apply Forall_forall. intros x Hin. by destruct (Hy x Hin) as (? & ? & ? & _ & _ & ->).
  - intros x y Hin Hin' q q' Hq Hq' Heq.
    destruct (Hx x Hin) as (k & w & text & Hw & Hsx & ->).
    destruct (Hy y Hin') as (k' & w' & text' & _ & Hsy & ->).
    cbn [fst snd] in Heq |- *.
    rewrite (app_assoc_s (json_string k)), (app_assoc_s (json_string k')) in Heq.
    apply json_string_inj in Heq as [-> Heq]. cbn in Heq.
    injection Heq as Heq. rewrite Forall_forall in Hl. rewrite sort_members_perm in Hw.
    pose proof (Hl _ Hw w' (S d) (S d') text text' q q' Hsx Hsy Hq Hq' Heq) as [Hdoc ->].
    cbn in Hdoc. by rewrite Hdoc.
Qed.

(** What follows a text does not change how it is read. *)
Lemma serialize_readable v : readable_back v.
Proof.
  revert v. apply jsval_nested_ind; [|by apply array_readable|by apply object_readable].
  intros [| |b|n|s'|l|fs]; [| | | | |done..];
    intros w d d' s t r r' Hs Ht Hr Hr' H; pose proof (same_kind _ _ _ _ _ _ _ _ Hs Ht H) as Hk;
    rewrite serialize_unfold in Hs, Ht;
    destruct (MAX_DEPTH <? d); try done; destruct (MAX_DEPTH <? d'); try done.
  - destruct w as [| |[]| | | |]; try done. by simplify_eq/=.
  - destruct b, w as [| |[]| | | |]; try done; by simplify_eq/=.
  - destruct w as [| |[]|n'| | |]; try done.
    destruct (js_isFinite n) eqn:Hn, (js_isFinite n') eqn:Hn'; try done. simplify_eq.
    apply number_inj in H as [H ->]; [|done..]. cbn. by rewrite H.
  - destruct w as [| |[]| |s''| |]; try done. simplify_eq.
    rewrite !app_assoc_s in H. by apply escape_string_inj in H as [-> ->].
Qed.

(** ** Which values have a text *)

Lemma serialize_total v depth : is_ok (serialize v depth) = in_model v depth.
Proof.
  revert v depth. apply (jsval_nested_ind (λ v, ∀ depth, is_ok (serialize v depth) = in_model v depth)).
  - intros [| |b|n|s|l|fs]; try done; intros depth; rewrite serialize_unfold; cbn [in_model];
      rewrite Nat.leb_antisym; destruct (MAX_DEPTH <? depth); cbn; try done.
    by destruct (js_isFinite n).
  - intros l Hl depth. rewrite serialize_unfold. cbn [in_model]. rewrite Nat.leb_antisym.
    destruct (MAX_DEPTH <? depth); cbn; [done|].
    assert (is_ok (mapM (λ w, serialize w (S depth)) l) = forallb (λ w, in_model w (S depth)) l) as <-.
    { induction Hl as [|w l Hw _ IH]; cbn; [done|]. rewrite <-Hw, <-IH.
      destruct (serialize w (S depth)); cbn; [|done].
      by destruct (mapM (λ w, serialize w (S depth)) l). }
    by destruct (mapM _ l).
  - intros fs Hfs depth. rewrite serialize_unfold. cbn [in_model]. rewrite Nat.leb_antisym.
    destruct (MAX_DEPTH <? depth); cbn; [done|].
    set (ok := λ p : string * jsval, match p with (_, w) => is_undef w || in_model w (S depth) end).
    assert (∀ l l', l ≡ₚ l' → forallb ok l = forallb ok l') as Hperm.
    { induction 1 as [|x l l' _ IH|x y l|l l' l'' _ IH1 _ IH2]; cbn; [done|by rewrite IH| |congruence].
      by rewrite !andb_assoc, (andb_comm (ok x)). }
    rewrite <-(Hperm _ _ (sort_members_perm fs)).
    rewrite <-(sort_members_perm fs) in Hfs. revert Hfs. generalize (sort_members fs).
    intros l Hl.
    assert (is_ok (serialize_members (prod_map id (member_text (S depth)) <$> l)) = forallb ok l) as <-.
    { unfold serialize_members. match goal with |- context [mapM ?g _] => set (f := g) end.
      assert (∀ k r, is_ok (f (k, r)) = is_ok r) as Hf by by intros k [].
      clearbody f. induction Hl as [|[k w] l Hw _ IH]; cbn; [done|].
      unfold member_text at 1. cbn. destruct (is_undef w); cbn; [exact IH|].
      rewrite <-Hw, <-IH, <-(Hf k). destruct (f (k, _)); cbn; [|done].
      match goal with |- context [mapM f ?l] => by destruct (mapM f l) end. }
    by destruct (serialize_members _).
Qed.

(** ** The text is that of the document *)

Lemma canonical_num_idem n : canonical_num (canonical_num n) = canonical_num n.
Proof.
  destruct n as [| |m k]; try done. cbn. revert m. induction k as [|k IH]; intros m; cbn; [done|].
  destruct (Z.even m) eqn:Hm; [apply IH|]. cbn. by rewrite Hm.
Qed.

Lemma canonical_num_finite n : js_isFinite (canonical_num n) = js_isFinite n.
Proof.
  destruct n as [| |m k]; try done. cbn. revert m. induction k as [|k IH]; intros m; cbn; [done|].
  destruct (Z.even m); [apply IH|done].
Qed.

Lemma document_undef v : is_undef (document v) = is_undef v.
Proof. by destruct v. Qed.

Lemma filter_sorted {A} (R : A → A → Prop) (f : A → bool) l :
  StronglySorted R l → StronglySorted R (List.filter f l).
Proof.
  induction 1 as [|x l _ IH Hf]; cbn; [constructor|]. destruct (f x); [|done].
  constructor; [done|]. apply Forall_forall. intros y Hy. rewrite Forall_forall in Hf.
  apply Hf. apply list_elem_of_In. apply list_elem_of_In in Hy. by apply filter_In in Hy as [Hy _].
Qed.

Lemma sorted_map_values {A B} (g : A → B) (l : list (string * A)) :
  StronglySorted member_le l → StronglySorted member_le (prod_map id g <$> l).
Proof.
  induction 1 as [|x l _ IH Hf]; cbn; [constructor|]. constructor; [done|].
  apply Forall_fmap. eapply Forall_impl; [exact Hf|]. done.
Qed.

Lemma serialize_members_document depth l :
  Forall (λ p : string * jsval, serialize (document p.2) depth = serialize p.2 depth) l →
  serialize_members (prod_map id (member_text depth) <$> List.filter defined (prod_map id document <$> l))
  = serialize_members (prod_map id (member_text depth) <$> l).
Proof.
  intros Hl. unfold serialize_members. f_equal.
  induction Hl as [|[k w] l Hw _ IH]; cbn; [done|]. cbn in Hw. unfold defined at 1. cbn.
  assert (member_text depth (document w) = member_text depth w) as Ht
    by (unfold member_text; by rewrite document_undef, Hw).
  rewrite document_undef. destruct (is_undef w) eqn:Hu; cbn.
  - assert (member_text depth w = None) as -> by (unfold member_text; by rewrite Hu). exact IH.
  - rewrite Ht.
    assert (member_text depth w = Some (serialize w depth)) as -> by (unfold member_text; by rewrite Hu).
    cbn. f_equal. exact IH.
Qed.

Lemma serialize_document v depth : serialize (document v) depth = serialize v depth.
Proof.
  revert v depth. apply (jsval_nested_ind (λ v, ∀ depth, serialize (document v) depth = serialize v depth)).
  - intros [| |b|n|s|l|fs]; try done. intros depth. cbn [document]. rewrite !serialize_unfold.
    destruct (MAX_DEPTH <? depth); [done|]. rewrite canonical_num_finite.
    destruct (js_isFinite n) eqn:Hn; [|done]. f_equal.
    apply text_of_number; [by rewrite canonical_num_finite|done|apply canonical_num_idem].
  - intros l Hl depth. change (document (JArr l)) with (JArr (document <$> l)).
    rewrite !serialize_unfold. destruct (MAX_DEPTH <? depth); [done|]. f_equal.
    induction Hl as [|w l Hw _ IH]; cbn; [done|]. rewrite Hw.
    destruct (serialize w (S depth)); cbn; [|done]. f_equal. exact IH.
  - intros fs Hfs depth. rewrite document_obj, !serialize_unfold.
    destruct (MAX_DEPTH <? depth); [done|]. f_equal.
    rewrite sort_members_id.
    + apply serialize_members_document. rewrite sort_members_perm.
      eapply Forall_impl; [exact Hfs|]. cbn. auto.
    + apply filter_sorted, sorted_map_values, sort_members_sorted.
Qed.

(** C17: Values of the JSON data model, of at most 64 levels, have a canonical
    text, others are refused; two values have the same text exactly when they are
    the same document, up to the order of members, members that are undefined and
    the way a number was written. *)
Theorem canonical_text_exact v w :
  is_ok (canonicalizeJson v) = in_model v 0 ∧
  (is_ok (canonicalizeJson v) = true →
   (canonicalizeJson v = canonicalizeJson w ↔ document v = document w)).
Proof.
  split; [apply serialize_total|]. intros Hok. unfold CanonicalJson.canonicalizeJson in *. split.
  - intros Heq. destruct (serialize v 0) as [s|] eqn:Hs; [|done]. symmetry in Heq.
    by destruct (serialize_readable v w 0 0 s s "" "" Hs Heq).
  - intros Heq. by rewrite <-(serialize_document v), <-(serialize_document w), Heq.
Qed.

(** The order in which an object's members were written does not matter. *)
Lemma member_order_irrelevant fs fs' :
  NoDup fs.*1 → fs ≡ₚ fs' → document (JObj fs) = document (JObj fs').
Proof. intros Hnd Hp. rewrite !document_obj. by rewrite (sort_members_unique fs fs'). Qed.
End texts.

(** ** A text for every number

    Numbers that are no integers below 10^21 print as numerator and exponent of
    two: a function that keeps what [NumberText] asks for. *)

Definition dyadic_text (m : Z) (k : nat) : string :=
  match lowest_terms k m with
  | JFin m' k' => pretty m' +:+ String "e" (pretty (Z.of_nat k'))
  | _ => ""
  end.

Definition canonical_number_text (n : jsnum) : string :=
  match n with
  | JFin m k =>
      if (k =? 0) && (Z.abs m <? 10 ^ 21)%Z then pretty m
      else pretty m +:+ String "e" (pretty (Z.of_nat k))
  | _ => ""
  end.

Lemma lowest_terms_JFin k m : ∃ m' k', lowest_terms k m = JFin m' k'.
Proof.
  revert m. induction k as [|k IH]; intros m; cbn; [by eauto|]. destruct (Z.even m); [apply IH|by eauto].
Qed.

Lemma lowest_terms_integer k m :
  as_integer (JFin m k) = match lowest_terms k m with JFin m' 0 => Some m' | _ => None end.
Proof.
  revert m. induction k as [|k IH]; intros m; [exact (as_integer_jint m)|].
  cbn [lowest_terms].
  assert (2 ^ Z.of_nat (S k) = 2 * 2 ^ Z.of_nat k)%Z as Hp by (rewrite Nat2Z.inj_succ, Z.pow_succ_r; lia).
  assert (0 < 2 ^ Z.of_nat k)%Z as Hpos by lia.
  destruct (Z.even m) eqn:Hm; [rewrite <-IH|]; unfold as_integer; rewrite Hp.
  - apply Z.even_spec in Hm as [q ->]. rewrite (Z.mul_comm 2 q), Z.div_mul by lia.
    rewrite (Z.mul_comm q 2), Z.mul_mod_distr_l by lia. rewrite Z.div_mul_cancel_l by lia.
    by destruct (Z.eqb_spec (2 * (q mod 2 ^ Z.of_nat k))%Z 0%Z),
      (Z.eqb_spec (q mod 2 ^ Z.of_nat k)%Z 0%Z); try lia.
  - destruct (Z.eqb_spec (m mod (2 * 2 ^ Z.of_nat k))%Z 0%Z) as [H|H]; [|done].
    exfalso. apply Z.mod_divide in H as [q Hq]; [|lia]. rewrite Hq in Hm.
    replace (q * (2 * 2 ^ Z.of_nat k))%Z with (2 * (q * 2 ^ Z.of_nat k))%Z in Hm by ring.
    by rewrite Z.even_mul in Hm.
Qed.

Lemma number_text_canonical n :
  js_isFinite n = true → num_to_string dyadic_text n = canonical_number_text (canonical_num n).
Proof.
  destruct n as [| |m k]; try done. intros _. unfold num_to_string. rewrite lowest_terms_integer.
  unfold dyadic_text, canonical_num. destruct (lowest_terms_JFin k m) as (m' & k' & ->).
  destruct k'; cbn; [|done]. by destruct (_ <? _)%Z.
Qed.

Lemma pretty_Z_cases (z : Z) : ∃ n : N, pretty z = pretty n ∨ pretty z = String "-" (pretty n).
Proof.
  destruct z as [|p|p]; [exists 0%N; by left|exists (Npos p); by left|exists (Npos p); by right].
Qed.

Lemma pretty_Z_free c (z : Z) :
  digit_val c = None → c ≠ "-"%char → char_free c (pretty z) = true.
Proof.
  intros Hc Hd. destruct (pretty_Z_cases z) as (n & [->| ->]); cbn [char_free];
    rewrite all_digits_free by (done || apply all_digits_pretty); [done|].
  rewrite andb_true_r. apply negb_true_iff, Ascii.eqb_neq. by intros <-.
Qed.

Lemma canonical_number_text_inj x y :
  js_isFinite x = true → js_isFinite y = true →
  canonical_number_text x = canonical_number_text y → x = y.
Proof.
  assert (∀ z, char_free "e" (pretty (z : Z)) = true) as He by (intros z; by apply pretty_Z_free).
  destruct x as [| |m k], y as [| |m' k']; try done. intros _ _. cbn [canonical_number_text].
  assert (∀ (a b c : Z), pretty a ≠ pretty b +:+ String "e" (pretty c)) as Hne.
  { intros a b c H. pose proof (He a) as Ha. rewrite H, char_free_app in Ha. cbn in Ha.
    by rewrite andb_false_r in Ha. }
  destruct ((k =? 0) && _) eqn:Hk, ((k' =? 0) && _) eqn:Hk'; intros H; try by apply Hne in H.
  - apply (inj pretty) in H as ->. apply andb_true_iff in Hk as [->%Nat.eqb_eq _].
    by apply andb_true_iff in Hk' as [->%Nat.eqb_eq _].
  - symmetry in H. by apply Hne in H.
  - apply (f_equal (str_split "e")) in H. rewrite !str_split_app in H by apply He.
    injection H as H1 H2. apply (inj pretty) in H1 as ->.
    rewrite !str_split_free in H2 by apply He. injection H2 as H2. apply (inj pretty) in H2.
    f_equal. lia.
Qed.

Lemma all_digits_numeral s : all_digits s = true → all_numeral s = true.
Proof.
  induction s as [|c s IH]; cbn; [done|]. intros [Hc Hs]%andb_true_iff. unfold numeral_char.
  by rewrite Hc, IH.
Qed.

Lemma pretty_Z_numeral (z : Z) : is_numeral (pretty z) = true ∧ all_numeral (pretty z) = true.
Proof.
  destruct (pretty_Z_cases z) as (n & H). pose proof (all_digits_pretty n) as Hd.
  pose proof (all_digits_numeral _ Hd) as Hn. destruct H as [->| ->]; [|by split].
  split; [|done]. pose proof (pretty_nonempty n) as Hne. unfold is_numeral.
  destruct (pretty n) as [|c s]; [done|]. cbn in Hd. apply andb_true_iff in Hd as [Hc _].
  by rewrite Hc, Hn.
Qed.

Lemma all_numeral_app s t : all_numeral (s +:+ t) = all_numeral s && all_numeral t.
Proof. induction s as [|c s IH]; cbn; [done|]. by rewrite IH, andb_assoc. Qed.

#[export] Instance dyadic_text_numbers : NumberText dyadic_text.
Proof.
  split.
  - intros x y Hx Hy. rewrite !number_text_canonical by done. split; [|by intros ->].
    apply canonical_number_text_inj; by rewrite canonical_num_finite.
  - intros x Hx. rewrite number_text_canonical by done.
    destruct x as [| |m k]; try done. cbn [canonical_num].
    destruct (lowest_terms_JFin k m) as (m' & k' & ->). cbn [canonical_number_text].
    destruct (pretty_Z_numeral m') as [Hn Ha]. destruct (_ && _); [done|].
    unfold is_numeral in *. destruct (pretty m') as [|c s] eqn:Hp; [done|].
    cbn [String.append]. apply andb_true_iff in Hn as [-> _].
    change (String c (s +:+ ?t)) with (String c s +:+ t). rewrite all_numeral_app, Ha. cbn.
    apply pretty_Z_numeral.
Qed.

(** ** Examples *)

Example sample_text :
  canonicalizeJson dyadic_text
    (JObj [("b", JArr [JNum (jint 1); JNull]); ("z", JUndef); ("a", JStr (String quote "x"))])
  = Ok ("{" +:+ json_string "a" +:+ ":" +:+ json_string (String quote "x") +:+ "," +:+
        json_string "b" +:+ ":[1,null]}").
Proof. reflexivity. Qed.

Lemma canonical_text_exact_witness :
  let v := JObj [("b", JNum (JFin 2 1)); ("a", JBool true); ("c", JUndef)] in
  let w := JObj [("a", JBool true); ("b", JNum (jint 1))] in
  canonicalizeJson dyadic_text v = canonicalizeJson dyadic_text w.
Proof.
  cbn zeta. apply (canonical_text_exact dyadic_text (HN := dyadic_text_numbers)); vm_compute; reflexivity.
Defined.
