(* ===== verification/Attestation.v ===== *)
(** * Attestations (packages/abi-registry/src/attestation.ts, attestationPolicy.ts)

    Signing and checking an envelope, and which of a contract's attestations to
    believe.  A payload is a JSON value, read the way the code reads it; SHA-256,
    the Stellar SDK's keys and [Date.parse] are parameters.  A digest and a
    signature are texts. *)

From Stdlib Require Import Sorted.
From S2P Require Import Prelude.
From S2P Require Import JsValue.
From S2P Require Import Decimal.
From S2P Require Import CanonicalJson.

(** ** The envelope *)

Definition ATTESTATION_ENVELOPE_VERSION : Z := 1.
Definition ATTESTATION_DOMAIN : string := "orbital-attestation-v1".
Definition newline : ascii := "010".
Definition SEP53_MESSAGE_PREFIX : string := "Stellar Signed Message:" +:+ String newline "".

Record AttestationEnvelope := {
  env_v : jsval;
  payload : jsval;
  publicKey : string;
  signature : string;
}.

(** The Stellar SDK's [Keypair] and [StrKey]; a signature is in base64, and a
    [verify] that throws is [false]. *)
Class StellarKeys := {
  isValidEd25519PublicKey : string → bool;
  fromSecret : string → option string;        (** the public key of a secret *)
  sign : string → string → string;
  verify : string → string → string → bool;
}.

(** ** Texts the code tests *)

Definition lower_letter (c : ascii) : bool :=
  let n := nat_of_ascii c in (97 <=? n) && (n <=? 122).
Definition is_digit (c : ascii) : bool := bool_decide (is_Some (digit_val c)).

(** [[1-9][0-9]*] to the end *)
Definition version_number (s : string) : bool :=
  match s with
  | String c s' => is_digit c && negb (Ascii.eqb c "0") && all_digits s'
  | EmptyString => false
  end.

(** [[a-z0-9-]*-v[1-9][0-9]*$] *)
Fixpoint domain_rest (s : string) : bool :=
  (match s with
   | String a (String b n) => Ascii.eqb a "-" && Ascii.eqb b "v" && version_number n
   | _ => false
   end) ||
  match s with
  | String c s' => (lower_letter c || is_digit c || Ascii.eqb c "-") && domain_rest s'
  | EmptyString => false
  end.

(** [DOMAIN_RE] *)
Definition well_formed_domain (s : string) : bool :=
  match s with String c s' => lower_letter c && domain_rest s' | EmptyString => false end.

Fixpoint skip_digits (n : nat) (s : string) : option string :=
  match n with
  | O => Some s
  | S n' => match s with String c s' => if is_digit c then skip_digits n' s' else None | _ => None end
  end.

Definition skip_char (c : ascii) (s : string) : option string :=
  match s with String a s' => if Ascii.eqb a c then Some s' else None | _ => None end.

Fixpoint skip_all_digits (s : string) : string :=
  match s with String c s' => if is_digit c then skip_all_digits s' else s | _ => s end.

Definition skip_fraction (s : string) : option string :=
  match s with
  | String "." s' => s'' ← skip_digits 1 s'; Some (skip_all_digits s'')
  | _ => Some s
  end.

(** One after the other. *)
Definition skips (l : list (string → option string)) (s : string) : option string :=
  foldl (λ (rest : option string) skip, rest ≫= skip) (Some s) l.

Definition zone (s : string) : bool :=
  match s with
  | String c s' =>
      if Ascii.eqb c "Z" then String.eqb s' ""
      else (Ascii.eqb c "+" || Ascii.eqb c "-") &&
           bool_decide (skips [skip_digits 2; skip_char ":"; skip_digits 2] s' = Some "")
  | EmptyString => false
  end.

(** [TIMESTAMP_RE] *)
Definition is_timestamp (s : string) : bool :=
  match skips [skip_digits 4; skip_char "-"; skip_digits 2; skip_char "-"; skip_digits 2;
               skip_char "T"; skip_digits 2; skip_char ":"; skip_digits 2; skip_char ":";
               skip_digits 2; skip_fraction] s with
  | Some rest => zone rest
  | None => false
  end.

Example timestamps :
  map is_timestamp ["2026-07-04T00:00:00Z"; "2026-07-04T00:00:00.25+01:00"; "2026-07-04";
                    "2026-07-04T00:00:00"; "2026-07-04T00:00:00.Z"] = [true; true; false; false; false].
Proof. reflexivity. Qed.

Example domains :
  map well_formed_domain ["orbital-attestation-v1"; "a-v1-v20"; "a-v0"; "v1"; "A-v1"; "a-v1 "]
  = [true; true; false; false; false; false].
Proof. reflexivity. Qed.

Inductive AttestationSigningError :=
  | InvalidSecret
  | Unreadable (e : js_error)
  | AttesterNotSigner
  | MalformedDomain
  | Uncanonical (e : CanonicalJsonError).

Inductive AttestationInvalidCode :=
  | unsupported_version | bad_public_key | attester_mismatch | bad_signature
  | malformed_expiry | expired | not_a_wasm_attestation | wasm_hash_mismatch.

#[export] Instance AttestationInvalidCode_eq_dec : EqDecision AttestationInvalidCode.
Proof. solve_decision. Defined.

Inductive AttestationVerdict := Valid | Invalid (code : AttestationInvalidCode).

Record VerifyAttestationOptions := {
  expectedWasmHash : option string;
  domain : string;
  now : Z;
  checkExpiry : bool;
}.

Section attestation.
Context (fraction_to_string : Z → nat → string).
Context (sha256 : string → string).
Context {keys : StellarKeys}.
(** [Date.parse], [None] where it is [NaN]. *)
Context (date_parse : string → option Z).

Definition canonicalizeAttestation : jsval → result CanonicalJsonError string :=
  canonicalizeJson fraction_to_string.

Definition assertAttestationDomain (d : string) : result AttestationSigningError unit :=
  reject_if (negb (well_formed_domain d)) MalformedDomain.

Definition attestationSigningMessage (document : jsval) (d : string)
    : result AttestationSigningError string :=
  _ ← assertAttestationDomain d;
  match canonicalizeAttestation document with
  | Err e => Err (Uncanonical e)
  | Ok text => Ok (d +:+ String newline text)
  end.

Definition attestationSigningDigest (document : jsval) (d : string)
    : result AttestationSigningError string :=
  message ← attestationSigningMessage document d;
  Ok (sha256 (SEP53_MESSAGE_PREFIX +:+ message)).

Definition signAttestation (document : jsval) (attesterSecret : string) (d : string)
    : result AttestationSigningError AttestationEnvelope :=
  match fromSecret attesterSecret with
  | None => Err InvalidSecret
  | Some pk =>
      _ ← readable Unreadable document;
      if negb (is_str (prop document "attester") pk) then Err AttesterNotSigner
      else
        digest ← attestationSigningDigest document d;
        Ok {| env_v := JNum (jint ATTESTATION_ENVELOPE_VERSION); payload := document;
              publicKey := pk; signature := sign attesterSecret digest |}
  end.

(** ** Expiry *)

Definition attestationExpiryProblem (p : jsval) (at_ : Z) : option AttestationInvalidCode :=
  match prop p "expiresAt" with
  | JUndef => None
  | v =>
      match (s ← as_string v; if is_timestamp s then date_parse s else None) with
      | None => Some malformed_expiry
      | Some expiresAt => if (expiresAt <=? at_)%Z then Some expired else None
      end
  end.

(** ** verifyAttestation *)

(** [v === 1] *)
Definition is_version (v : jsval) : bool :=
  match v with JNum n => bool_decide (as_integer n = Some ATTESTATION_ENVELOPE_VERSION) | _ => false end.

Definition wasm_problem (p : jsval) (expected : string)
    : result js_error (option AttestationInvalidCode) :=
  if negb (is_str (prop p "executableKind") "wasm") || is_undef (prop p "wasmHash") then
    Ok (Some not_a_wasm_attestation)
  else match prop p "wasmHash" with
  | JStr h => Ok (if String.eqb (to_lower expected) (to_lower h) then None else Some wasm_hash_mismatch)
  | _ => Err TypeError
  end.

Definition verifyAttestation (e : AttestationEnvelope) (o : VerifyAttestationOptions)
    : result js_error AttestationVerdict :=
  if negb (is_version (env_v e)) then Ok (Invalid unsupported_version)
  else if negb (isValidEd25519PublicKey (publicKey e)) then Ok (Invalid bad_public_key)
  else
    _ ← readable id (payload e);
    if negb (is_str (prop (payload e) "attester") (publicKey e)) then Ok (Invalid attester_mismatch)
    else match attestationSigningDigest (payload e) (domain o) with
    | Err _ => Ok (Invalid bad_signature)
    | Ok digest =>
        if negb (verify (publicKey e) digest (signature e)) then Ok (Invalid bad_signature)
        else match (if checkExpiry o then attestationExpiryProblem (payload e) (now o) else None) with
        | Some code => Ok (Invalid code)
        | None =>
            match expectedWasmHash o with
            | None => Ok Valid
            | Some h =>
                problem ← wasm_problem (payload e) h;
                Ok (match problem with Some code => Invalid code | None => Valid end)
            end
        end
    end.
End attestation.

(** ** What a valid verdict says *)

(** The conditions of the checks, in the order of the code. *)
Definition unexpired (date_parse : string → option Z) (p : jsval) (at_ : Z) : Prop :=
  attestationExpiryProblem date_parse p at_ = None.

Definition wasm_matches (p : jsval) (expected : string) : Prop :=
  prop p "executableKind" = JStr "wasm" ∧
  ∃ h, prop p "wasmHash" = JStr h ∧ to_lower expected = to_lower h.

(** An expiry is in force exactly from the instant it names. *)
Lemma unexpired_spec date_parse p at_ :
  unexpired date_parse p at_ ↔
  prop p "expiresAt" = JUndef ∨
  ∃ s t, prop p "expiresAt" = JStr s ∧ is_timestamp s = true ∧ date_parse s = Some t ∧ (at_ < t)%Z.
Proof.
  unfold unexpired, attestationExpiryProblem.
  destruct (prop p "expiresAt") as [| | | |s| |] eqn:Hp; cbn;
    try (split; [intros _|intros _]; try done; by left);
    try (split; [done|]; by intros [|(? & ? & ? & _)]).
  destruct (is_timestamp s) eqn:Hs.
  2:{ split; [done|]. intros [|(? & ? & [= <-] & ? & _)]; congruence. }
  destruct (date_parse s) as [t|] eqn:Ht.
  - destruct (t <=? at_)%Z eqn:Hle; bool_to_prop; split; try done.
    + intros [?|(s' & t' & [= <-] & _ & ? & ?)]; [done|]. simplify_eq. lia.
    + intros _. right. by exists s, t.
  - split; [done|]. intros [|(? & ? & [= <-] & _ & ? & _)]; congruence.
Qed.

Lemma unexpired_earlier date_parse p t t' :
  (t ≤ t')%Z → unexpired date_parse p t' → unexpired date_parse p t.
Proof. intros Hle. rewrite !unexpired_spec. naive_solver lia. Qed.

Lemma wasm_problem_None p h : wasm_problem p h = Ok None ↔ wasm_matches p h.
Proof.
  unfold wasm_problem, wasm_matches. rewrite <-is_str_true.
  destruct (is_str (prop p "executableKind") "wasm"); cbn; [|by split; [|intros []]].
  destruct (prop p "wasmHash") as [| | | |s| |]; cbn;
    try (split; [done|]; by intros (_ & ? & ? & _)).
  destruct (String.eqb _ _) eqn:He; [apply String.eqb_eq in He|apply String.eqb_neq in He]; split; try done.
  - intros _. eauto.
  - by intros (_ & ? & [= <-] & ?).
Qed.

(** A verdict that is not [Valid], on a condition that does not hold. *)
Ltac refuse :=
  split; [done|]; intros; repeat match goal with
  | H : _ ∧ _ |- _ => destruct H
  | H : ∃ _, _ |- _ => destruct H
  end; congruence.

Section verdicts.
Context (fraction_to_string : Z → nat → string).
Context (sha256 : string → string).
Context {keys : StellarKeys}.
Context (date_parse : string → option Z).
Notation digest_of := (attestationSigningDigest fraction_to_string sha256).
Notation verifies := (verifyAttestation fraction_to_string sha256 date_parse).

(** Who signed what, under which domain. *)
Definition well_signed (e : AttestationEnvelope) (d : string) : Prop :=
  is_version (env_v e) = true ∧ isValidEd25519PublicKey (publicKey e) = true ∧
  prop (payload e) "attester" = JStr (publicKey e) ∧
  ∃ digest, digest_of (payload e) d = Ok digest ∧ verify (publicKey e) digest (signature e) = true.

Lemma verify_Valid e o :
  verifies e o = Ok Valid ↔
  well_signed e (domain o) ∧ (checkExpiry o = true → unexpired date_parse (payload e) (now o)) ∧
  (∀ h, expectedWasmHash o = Some h → wasm_matches (payload e) h).
Proof.
  unfold verifyAttestation, well_signed. setoid_rewrite <-wasm_problem_None. unfold unexpired.
  rewrite <-is_str_true.
  destruct (is_version (env_v e)); cbn; [|refuse].
  destruct (isValidEd25519PublicKey (publicKey e)); cbn; [|refuse].
  unfold readable, reject_if.
  destruct (nullish (payload e)) eqn:Hn; cbn.
  { split; [done|]. intros [(_ & _ & H & _) _]. by destruct (payload e). }
  destruct (is_str (prop (payload e) "attester") (publicKey e)); cbn; [|refuse].
  destruct (digest_of (payload e) (domain o)) as [digest|]; [|refuse].
  destruct (verify (publicKey e) digest (signature e)) eqn:Hv; cbn; [|refuse].
  assert ((if checkExpiry o then attestationExpiryProblem date_parse (payload e) (now o) else None) = None ↔
    (checkExpiry o = true → attestationExpiryProblem date_parse (payload e) (now o) = None)) as <-
    by (destruct (checkExpiry o); split; intros; [done|auto|done|done]).
  destruct (if checkExpiry o then _ else None); [refuse|].
  destruct (expectedWasmHash o) as [h|].
  - destruct (wasm_problem (payload e) h) as [[|]|] eqn:Hw; cbn; split; try done.
    + intros (_ & _ & H). specialize (H h eq_refl). congruence.
    + intros _. split_and!; [by eauto 10..|]. by intros ? [= <-].
    + intros (_ & _ & H). specialize (H h eq_refl). congruence.
  - split; [|done]. intros _. split_and!; eauto 10. done.
Qed.

(** ** Signing *)

(** A secret signs for the public key it gives. *)
Class StellarKeysLaws : Prop := {
  fromSecret_valid sk pk : fromSecret sk = Some pk → isValidEd25519PublicKey pk = true;
  verify_sign sk pk digest : fromSecret sk = Some pk → verify pk digest (sign sk digest) = true;
  public_key_chars pk : isValidEd25519PublicKey pk = true → char_free ":" pk = true;
}.

Lemma sign_well_signed `{HK : !StellarKeysLaws} document sk d e :
  signAttestation fraction_to_string sha256 document sk d = Ok e →
  payload e = document ∧ well_signed e d.
Proof.
  unfold signAttestation, well_signed. destruct (fromSecret sk) as [pk|] eqn:Hsk; [|done].
  intros ([] & _ & H)%result_bind_Ok.
  destruct (is_str (prop document "attester") pk) eqn:Ha; [|done]. cbn [negb] in H.
  apply result_bind_Ok in H as (digest & Hd & [= <-]). cbn.
  split_and!; [done|done|by eapply fromSecret_valid|by apply is_str_true|].
  exists digest. split; [done|]. by eapply verify_sign.
Qed.

(** What is refused a signature. *)
Lemma sign_total document sk d :
  is_ok (signAttestation fraction_to_string sha256 document sk d) = true ↔
  ∃ pk, fromSecret sk = Some pk ∧ prop document "attester" = JStr pk ∧
    well_formed_domain d = true ∧ in_model document 0 = true.
Proof.
  unfold signAttestation. destruct (fromSecret sk) as [pk|]; [|cbn; naive_solver].
  unfold readable, reject_if.
  destruct (nullish document) eqn:Hn; cbn.
  { split; [done|]. intros (? & _ & H & _). by destruct document. }
  destruct (is_str (prop document "attester") pk) eqn:Ha; cbn.
  2:{ split; [done|]. intros (? & [= <-] & H & _). apply is_str_true in H. congruence. }
  apply is_str_true in Ha.
  unfold attestationSigningDigest, attestationSigningMessage, assertAttestationDomain, reject_if,
    canonicalizeAttestation, canonicalizeJson.
  rewrite <-(serialize_total fraction_to_string).
  destruct (well_formed_domain d); cbn; [|split; [done|by intros (? & ? & ? & ? & ?)]].
  destruct (serialize _ _ _); cbn; split; try done; [eauto|by intros (? & ? & ? & ? & ?)].
Qed.

(** ** What is signed *)

Lemma domain_chars d : well_formed_domain d = true → char_free newline d = true.
Proof.
  assert (∀ s, all_digits s = true → char_free newline s = true) as Hdigits
    by (intros s Hs; by apply all_digits_free).
  assert (∀ s, domain_rest s = true → char_free newline s = true) as Hrest.
  { induction s as [|c s IH]; [done|]. cbn [domain_rest]. rewrite orb_true_iff, andb_true_iff.
    intros [H|[Hc H]].
    - destruct s as [|b n]; [done|]. apply andb_true_iff in H as [[Ha Hb]%andb_true_iff Hn].
      apply Ascii.eqb_eq in Ha as ->. apply Ascii.eqb_eq in Hb as ->. cbn.
      destruct n as [|c n]; [done|]. cbn in Hn. apply andb_true_iff in Hn as [Hn Hs].
      apply andb_true_iff in Hn as [Hc _]. cbn. rewrite (Hdigits n Hs), andb_true_r.
      apply negb_true_iff, Ascii.eqb_neq. by intros ->.
    - cbn. rewrite (IH H), andb_true_r. apply negb_true_iff, Ascii.eqb_neq. by intros ->. }
  destruct d as [|c d]; [done|]. cbn. intros [Hc Hd]%andb_true_iff.
  rewrite (Hrest d Hd), andb_true_r. apply negb_true_iff, Ascii.eqb_neq. by intros ->.
Qed.

Lemma before_char c s t r r' :
  char_free c s = true → char_free c t = true → s +:+ String c r = t +:+ String c r' → s = t ∧ r = r'.
Proof.
  revert t. induction s as [|a s IH]; intros [|b t]; cbn; intros Hs Ht H.
  - by injection H as ->.
  - injection H as <- _. by rewrite Ascii.eqb_refl in Ht.
  - injection H as -> _. by rewrite Ascii.eqb_refl in Hs.
  - apply andb_true_iff in Hs as [_ Hs]. apply andb_true_iff in Ht as [_ Ht].
    injection H as -> H. destruct (IH t Hs Ht H) as [-> ->]. done.
Qed.

(** The message tells the domain and the document. *)
Lemma message_says `{HN : !NumberText fraction_to_string} doc d doc' d' m :
  attestationSigningMessage fraction_to_string doc d = Ok m →
  attestationSigningMessage fraction_to_string doc' d' = Ok m →
  d = d' ∧ document doc = document doc'.
Proof.
  unfold attestationSigningMessage, assertAttestationDomain, canonicalizeAttestation, canonicalizeJson.
  intros (u & Hd & H)%result_bind_Ok (u' & Hd' & H')%result_bind_Ok.
  apply reject_if_Ok_any, negb_false_iff in Hd. apply reject_if_Ok_any, negb_false_iff in Hd'.
  destruct (serialize _ doc 0) as [s|] eqn:Hs; [|done]. destruct (serialize _ doc' 0) as [s'|] eqn:Hs'; [|done].
  injection H as <-. injection H' as H'.
  apply before_char in H' as [-> ->]; [|by apply domain_chars..]. split; [done|].
  by destruct (serialize_readable fraction_to_string doc doc' 0 0 _ _ "" "" Hs Hs' eq_refl eq_refl eq_refl).
Qed.

(** The messages signed so far, each with its key. *)
Definition signing_log := list (string * (jsval * string)).

(** A signature that verifies is one of those made (unforgeability). *)
Definition unforged (log : signing_log) : Prop :=
  ∀ pk digest sig, verify pk digest sig = true →
  ∃ doc d, (pk, (doc, d)) ∈ log ∧ digest_of doc d = Ok digest.

(** The hash tells the message at hand from those signed (no collision). *)
Definition collision_free (log : signing_log) (message : string) : Prop :=
  ∀ pk doc d message', (pk, (doc, d)) ∈ log →
  attestationSigningMessage fraction_to_string doc d = Ok message' →
  sha256 (SEP53_MESSAGE_PREFIX +:+ message) = sha256 (SEP53_MESSAGE_PREFIX +:+ message') →
  message = message'.

(** C18: An attestation the verifier accepts was signed by the account it names as
    its attester, for the same document and under the domain the verifier
    expects: no signature carries over to another document or another domain. *)
Theorem valid_attestation_was_signed `{HN : !NumberText fraction_to_string} log e o :
  unforged log →
  (∀ m, attestationSigningMessage fraction_to_string (payload e) (domain o) = Ok m → collision_free log m) →
  verifies e o = Ok Valid →
  ∃ doc, (publicKey e, (doc, domain o)) ∈ log ∧ document doc = document (payload e) ∧
    prop (payload e) "attester" = JStr (publicKey e).
Proof.
  intros Hlog Hsha ((_ & _ & Ha & digest & Hd & Hv) & _ & _)%verify_Valid.
  apply Hlog in Hv as (doc & d & Hin & Hd').
  apply result_bind_Ok in Hd as (m & Hm & [= <-]). apply result_bind_Ok in Hd' as (m' & Hm' & [= Heq]).
  pose proof (Hsha m Hm _ _ _ _ Hin Hm' (eq_sym Heq)) as <-.
  destruct (message_says _ _ _ _ _ Hm Hm') as [<- Hdoc]. by exists doc.
Qed.

(** What an account signs verifies, exactly until the expiry the document
    names and for the contract code it names; a domain other than the one it was
    signed under is refused. *)
Theorem signed_attestation_verifies `{HK : !StellarKeysLaws} document sk d e o :
  signAttestation fraction_to_string sha256 document sk d = Ok e → domain o = d →
  verifies e o = Ok Valid ↔
  (checkExpiry o = true → unexpired date_parse document (now o)) ∧
  (∀ h, expectedWasmHash o = Some h → wasm_matches document h).
Proof.
  intros (<- & Hsig)%sign_well_signed <-. rewrite verify_Valid. naive_solver.
Qed.
End verdicts.

(** ** Concrete runs *)

(** One account, "GA" with the secret "SA", whose signature of a digest is the
    digest, for the digests that [known] lets it sign. *)
Definition demo_keys (known : string → bool) : StellarKeys := {|
  isValidEd25519PublicKey := String.eqb "GA";
  fromSecret := λ sk, if String.eqb sk "SA" then Some "GA" else None;
  sign := λ _ digest, digest;
  verify := λ pk digest sig, String.eqb "GA" pk && String.eqb digest sig && known digest;
|}.

Definition demo_document : jsval :=
  JObj [("attester", JStr "GA"); ("contractId", JStr "CA"); ("events", JArr []);
        ("executableKind", JStr "wasm"); ("wasmHash", JStr "ab"); ("expiresAt", JStr "2026-07-04T00:00:00Z")].

Definition demo_dates (s : string) : option Z :=
  if String.eqb s "2026-07-04T00:00:00Z" then Some 1783123200000%Z else None.

Definition demo_message : string :=
  match attestationSigningMessage dyadic_text demo_document ATTESTATION_DOMAIN with
  | Ok m => m | Err _ => "" end.

Definition demo_envelope (payload : jsval) : AttestationEnvelope := {|
  env_v := JNum (jint 1); payload := payload; publicKey := "GA";
  signature := SEP53_MESSAGE_PREFIX +:+ demo_message |}.

Definition demo_options : VerifyAttestationOptions :=
  {| expectedWasmHash := Some "AB"; domain := ATTESTATION_DOMAIN; now := 0; checkExpiry := true |}.

Definition demo_verdict (e : AttestationEnvelope) (o : VerifyAttestationOptions) :=
  @verifyAttestation dyadic_text id (demo_keys (λ _, true)) demo_dates e o.

Example verdicts_in_order :
  demo_verdict (demo_envelope demo_document) demo_options = Ok Valid ∧
  demo_verdict (demo_envelope demo_document)
    {| expectedWasmHash := Some "cd"; domain := ATTESTATION_DOMAIN; now := 0; checkExpiry := true |}
    = Ok (Invalid wasm_hash_mismatch) ∧
  demo_verdict (demo_envelope demo_document)
    {| expectedWasmHash := None; domain := ATTESTATION_DOMAIN; now := 1783123200000; checkExpiry := true |}
    = Ok (Invalid expired) ∧
  demo_verdict (demo_envelope demo_document)
    {| expectedWasmHash := None; domain := "other-v1"; now := 0; checkExpiry := true |}
    = Ok (Invalid bad_signature) ∧
  demo_verdict (demo_envelope (JObj [("attester", JStr "GB")])) demo_options
    = Ok (Invalid attester_mismatch).
Proof. split_and!; vm_compute; reflexivity. Qed.

(** [expectedWasmHash] refuses a document without a code hash; the comment beside
    the check says it is a no-op for one. *)
Lemma wasm_hash_is_no_noop :
  demo_verdict
    {| env_v := JNum (jint 1); payload := JObj [("attester", JStr "GA")]; publicKey := "GA";
       signature := SEP53_MESSAGE_PREFIX +:+ "orbital-attestation-v1" +:+ String newline
         ("{" +:+ json_string "attester" +:+ ":" +:+ json_string "GA" +:+ "}") |}
    demo_options = Ok (Invalid not_a_wasm_attestation).
Proof. vm_compute. reflexivity. Qed.

Lemma valid_attestation_was_signed_witness :
  ∃ doc, ("GA", (doc, ATTESTATION_DOMAIN)) ∈ [("GA", (demo_document, ATTESTATION_DOMAIN))] ∧
    document doc = document demo_document ∧ prop demo_document "attester" = JStr "GA".
Proof.
  apply (@valid_attestation_was_signed dyadic_text id
    (demo_keys (String.eqb (SEP53_MESSAGE_PREFIX +:+ demo_message))) demo_dates dyadic_text_numbers
    [("GA", (demo_document, ATTESTATION_DOMAIN))] (demo_envelope demo_document) demo_options).
  - intros pk digest sig H. cbn [verify demo_keys] in H. apply andb_true_iff in H as [H Hd].
    apply andb_true_iff in H as [Hpk _]. apply String.eqb_eq in Hpk as <-. apply String.eqb_eq in Hd as <-.
    exists demo_document, ATTESTATION_DOMAIN. split; [by left|]. vm_compute. reflexivity.
  - intros m _ pk doc d m' _ _ H. unfold id in H. by simplify_eq.
  - vm_compute. reflexivity.
Defined.

#[local] Instance demo_keys_laws : @StellarKeysLaws (demo_keys (λ _, true)).
Proof.
  split; cbn [fromSecret isValidEd25519PublicKey verify sign demo_keys].
  - intros sk pk. destruct (String.eqb sk "SA"); [|done]. by intros [= <-].
  - intros sk pk digest. destruct (String.eqb sk "SA"); [|done]. intros [= <-].
    by rewrite !String.eqb_refl.
  - intros pk <-%String.eqb_eq. done.
Qed.

Lemma signed_attestation_verifies_witness :
  demo_verdict (demo_envelope demo_document) demo_options = Ok Valid.
Proof.
  apply (@signed_attestation_verifies dyadic_text id (demo_keys (λ _, true)) demo_dates demo_keys_laws
    demo_document "SA" ATTESTATION_DOMAIN (demo_envelope demo_document) demo_options).
  - vm_compute. reflexivity.
  - reflexivity.
  - split.
    + intros _. vm_compute. reflexivity.
    + intros h [= <-]. split; [reflexivity|]. exists "ab". split; reflexivity.
Defined.
