(* ===== verification/AttestationPolicy.v ===== *)
(** * Which attestations to believe (packages/abi-registry/src/attestationPolicy.ts)

    Candidates are told apart by their position in the list, as the code tells
    objects apart.  The deployer's look-up of resolveAttestationsWithDeployer is
    its answer; hashes are texts. *)

From Stdlib Require Import Sorted.
From S2P Require Import Prelude.
From S2P Require Import JsValue.
From S2P Require Import Decimal.
From S2P Require Import CanonicalJson.
From S2P Require Import Attestation.

(** ** Data *)

Inductive AttestationTrust := deployer_tier | third_party | unbound.

Definition TRUST_RANK (t : AttestationTrust) : Z :=
  match t with deployer_tier => 2 | third_party => 1 | unbound => 0 end.

Definition classifyAttester (attester : jsval) (deployer : option string) : AttestationTrust :=
  match deployer with
  | None => unbound
  | Some d => if is_str attester d then deployer_tier else third_party
  end.

Definition meetsMinimumTrust (trust minimum : AttestationTrust) : bool :=
  (TRUST_RANK minimum <=? TRUST_RANK trust)%Z.

Record ResolveAttestationsOptions := {
  contractId : string;
  deployer : option string;
  minimumTrust : option AttestationTrust;
  wanted_wasm : option string;       (** [expectedWasmHash] *)
  wanted_domain : string;            (** [domain] *)
  at_time : Z;                       (** [now] *)
}.

Record ResolvedAttestation := {
  envelope : AttestationEnvelope;
  hash : string;
  trust : AttestationTrust;
}.

Inductive RejectionCode :=
  | invalid (code : AttestationInvalidCode)
  | wrong_contract
  | below_minimum_trust.

Definition RejectedAttestation := (AttestationEnvelope * RejectionCode)%type.

Record ResolveAttestationsResult := {
  effective : list ResolvedAttestation;
  superseded : list ResolvedAttestation;
  rejected : list RejectedAttestation;
  preferred : option ResolvedAttestation;
  conflicting : bool;
}.

(** What the code throws. *)
Inductive ResolveError := Native (e : js_error) | NotCanonical (e : CanonicalJsonError).

Definition or_native {A} (r : result js_error A) : result ResolveError A :=
  match r with Ok a => Ok a | Err e => Err (Native e) end.
Definition or_uncanonical {A} (r : result CanonicalJsonError A) : result ResolveError A :=
  match r with Ok a => Ok a | Err e => Err (NotCanonical e) end.

(** [a === b] on texts *)
Definition same_text (a b : jsval) : bool :=
  match a with JStr s => is_str b s | _ => false end.

Section policy.
Context (fraction_to_string : Z → nat → string).
Context (sha256 sha256_hex : string → string).
Context {keys : StellarKeys}.
Context (date_parse : string → option Z).
Notation canonicalize := (canonicalizeJson fraction_to_string).
Notation verifies := (verifyAttestation fraction_to_string sha256 date_parse).

Definition attestationHash (document : jsval) : result CanonicalJsonError string :=
  text ← canonicalize document; Ok (sha256_hex text).

Definition attester (c : ResolvedAttestation) : jsval := prop (payload (envelope c)) "attester".

(** ** Step 1: the candidates *)

Record Triage := {
  turned_away : list RejectedAttestation;
  candidates : list ResolvedAttestation;
  seen : list string;
}.

Definition no_candidates : Triage := {| turned_away := []; candidates := []; seen := [] |}.

Definition signature_options (o : ResolveAttestationsOptions) : VerifyAttestationOptions :=
  {| expectedWasmHash := wanted_wasm o; domain := wanted_domain o; now := at_time o;
     checkExpiry := false |}.

Definition turn_away (t : Triage) (e : AttestationEnvelope) (code : RejectionCode) : Triage :=
  {| turned_away := turned_away t ++ [(e, code)]; candidates := candidates t; seen := seen t |}.

Definition candidate_key (e : AttestationEnvelope) (h : string) : string := publicKey e +:+ ":" +:+ h.

Definition consider (o : ResolveAttestationsOptions) (t : Triage) (e : AttestationEnvelope)
    : result ResolveError Triage :=
  verdict ← or_native (verifies e (signature_options o));
  match verdict with
  | Invalid code => Ok (turn_away t e (invalid code))
  | Valid =>
      if negb (is_str (prop (payload e) "contractId") (contractId o)) then
        Ok (turn_away t e wrong_contract)
      else
        h ← or_uncanonical (attestationHash (payload e));
        if bool_decide (candidate_key e h ∈ seen t) then Ok t
        else Ok {|
          turned_away := turned_away t;
          candidates := candidates t ++
            [{| envelope := e; hash := h;
                trust := classifyAttester (prop (payload e) "attester") (deployer o) |}];
          seen := candidate_key e h :: seen t
        |}
  end.

Fixpoint consider_all (o : ResolveAttestationsOptions) (t : Triage) (es : list AttestationEnvelope)
    : result ResolveError Triage :=
  match es with
  | [] => Ok t
  | e :: es' => t' ← consider o t e; consider_all o t' es'
  end.

(** ** Step 2: who is retired, by position *)

(** [payload.supersedes?.toLowerCase()] *)
Definition supersedes_target (c : ResolvedAttestation) : result js_error (option string) :=
  match prop (payload (envelope c)) "supersedes" with
  | JUndef | JNull => Ok None
  | JStr s => Ok (Some (to_lower s))
  | _ => Err TypeError
  end.

Definition retired_by (cs : list ResolvedAttestation) (j : nat) (replacement : ResolvedAttestation)
    : result js_error (list nat) :=
  target ← supersedes_target replacement;
  Ok (match target with
      | None => []
      | Some h =>
          omap (λ p : nat * ResolvedAttestation,
            if negb (p.1 =? j) && String.eqb (hash p.2) h && same_text (attester p.2) (attester replacement)
            then Some p.1 else None) (imap pair cs)
      end).

Definition retired (cs : list ResolvedAttestation) : result js_error (list nat) :=
  gone ← mapM (λ p : nat * ResolvedAttestation, retired_by cs p.1 p.2) (imap pair cs);
  Ok (concat gone).

(** ** Step 3: expiry and trust *)

Definition fate (o : ResolveAttestationsOptions) (c : ResolvedAttestation) : option RejectionCode :=
  match attestationExpiryProblem date_parse (payload (envelope c)) (at_time o) with
  | Some code => Some (invalid code)
  | None =>
      if negb (meetsMinimumTrust (trust c) (default unbound (minimumTrust o)))
      then Some below_minimum_trust else None
  end.

(** ** Step 4: ranking *)

Definition createdAtMs (c : ResolvedAttestation) : Z :=
  default 0%Z (date_parse (to_string fraction_to_string (prop (payload (envelope c)) "createdAt"))).

Definition compareResolved (a b : ResolvedAttestation) : Z :=
  let byTrust := (TRUST_RANK (trust b) - TRUST_RANK (trust a))%Z in
  if negb (byTrust =? 0)%Z then byTrust
  else
    let byTime := (createdAtMs b - createdAtMs a)%Z in
    if negb (byTime =? 0)%Z then byTime
    else if String.ltb (hash a) (hash b) then (-1)%Z
    else if String.ltb (hash b) (hash a) then 1%Z else 0%Z.

Definition ranked (a b : ResolvedAttestation) : bool := (compareResolved a b <=? 0)%Z.

Definition resolveAttestations (es : list AttestationEnvelope) (o : ResolveAttestationsOptions)
    : result ResolveError ResolveAttestationsResult :=
  t ← consider_all o no_candidates es;
  let cs := imap pair (candidates t) in
  gone ← or_native (retired (candidates t));
  let kept := (List.filter (λ p : nat * ResolvedAttestation, negb (bool_decide (p.1 ∈ gone))) cs).*2 in
  let best := sort_with ranked (List.filter (λ c, match fate o c with None => true | _ => false end) kept) in
  texts ← or_uncanonical (mapM (λ c, canonicalize (prop (payload (envelope c)) "events")) best);
  Ok {|
    effective := best;
    superseded := (List.filter (λ p : nat * ResolvedAttestation, bool_decide (p.1 ∈ gone)) cs).*2;
    rejected := turned_away t ++ omap (λ c, pair (envelope c) <$> fate o c) kept;
    preferred := head best;
    conflicting := 1 <? length (remove_dups texts)
  |}.

(** A resolver that rejects, or answers nothing, leaves the deployer unknown. *)
Definition resolveAttestationsWithDeployer {E} (es : list AttestationEnvelope)
    (resolver : string → result E (option string)) (o : ResolveAttestationsOptions) :=
  let found := match resolver (contractId o) with Ok d => d | Err _ => None end in
  resolveAttestations es
    {| contractId := contractId o; deployer := found; minimumTrust := minimumTrust o;
       wanted_wasm := wanted_wasm o; wanted_domain := wanted_domain o; at_time := at_time o |}.

(** ** What is promised *)

(** An envelope that counts for the contract: well signed, about it, and for its
    code. *)
Definition accepted (o : ResolveAttestationsOptions) (e : AttestationEnvelope)
    : option ResolvedAttestation :=
  match verifies e (signature_options o) with
  | Ok Valid =>
      if is_str (prop (payload e) "contractId") (contractId o) then
        match attestationHash (payload e) with
        | Ok h => Some {| envelope := e; hash := h;
                          trust := classifyAttester (prop (payload e) "attester") (deployer o) |}
        | Err _ => None
        end
      else None
  | _ => None
  end.

Definition refused (o : ResolveAttestationsOptions) (e : AttestationEnvelope)
    : option RejectedAttestation :=
  match verifies e (signature_options o) with
  | Ok (Invalid code) => Some (e, invalid code)
  | Ok Valid =>
      if is_str (prop (payload e) "contractId") (contractId o) then None else Some (e, wrong_contract)
  | Err _ => None
  end.

Definition key (c : ResolvedAttestation) : string := candidate_key (envelope c) (hash c).

(** The first of each key. *)
Fixpoint fresh (known : list string) (l : list ResolvedAttestation) : list ResolvedAttestation :=
  match l with
  | [] => []
  | c :: l' =>
      if bool_decide (key c ∈ known) then fresh known l' else c :: fresh (key c :: known) l'
  end.

Definition accepted_all (o : ResolveAttestationsOptions) (es : list AttestationEnvelope) :=
  fresh [] (omap (accepted o) es).

(** Another attestation of the same attester names its hash. *)
Definition supersedes (r c : ResolvedAttestation) : bool :=
  negb (String.eqb (key r) (key c)) && same_text (attester c) (attester r) &&
  match supersedes_target r with Ok (Some h) => String.eqb (hash c) h | _ => false end.

Definition withdrawn (cs : list ResolvedAttestation) (c : ResolvedAttestation) : bool :=
  existsb (λ r, supersedes r c) cs.

Definition stands (o : ResolveAttestationsOptions) (cs : list ResolvedAttestation)
    (c : ResolvedAttestation) : bool :=
  negb (withdrawn cs c) && match fate o c with None => true | Some _ => false end.

(** ** The loops *)

Lemma fresh_elem known l c : c ∈ fresh known l → c ∈ l ∧ key c ∉ known.
Proof.
  revert known. induction l as [|x l IH]; intros known; cbn; [by intros ?%not_elem_of_nil|].
  case_bool_decide as Hx.
  - intros [Hin Hk]%IH. split; [by right|done].
  - intros [->|[Hin Hk]%IH]%elem_of_cons; [split; [by left|done]|].
    split; [by right|]. intros H. apply Hk. by right.
Qed.

Lemma fresh_NoDup known l : NoDup (key <$> fresh known l).
Proof.
  revert known. induction l as [|x l IH]; intros known; cbn; [constructor|].
  case_bool_decide as Hx; [apply IH|]. cbn. constructor; [|apply IH].
  intros (c & Hk & [_ Hc]%fresh_elem)%list_elem_of_fmap. apply Hc. rewrite <-Hk. by left.
Qed.

(** One of each key is there. *)
Lemma fresh_complete known l c :
  c ∈ l → key c ∉ known → ∃ c', c' ∈ fresh known l ∧ key c' = key c.
Proof.
  revert known. induction l as [|x l IH]; intros known; cbn; [by intros ?%not_elem_of_nil|].
  intros [->|Hin]%elem_of_cons Hk.
  - rewrite bool_decide_eq_false_2 by done. exists x. split; [by left|done].
  - case_bool_decide as Hx; [by apply IH|].
    destruct (decide (key c = key x)) as [Heq|Hne]; [exists x; split; [by left|done]|].
    destruct (IH (key x :: known) Hin) as (c' & Hin' & Hk').
    + by intros [?|?]%elem_of_cons.
    + exists c'. split; [by right|done].
Qed.

Lemma consider_all_Ok o t es t' :
  consider_all o t es = Ok t' →
  candidates t' = candidates t ++ fresh (seen t) (omap (accepted o) es) ∧
  turned_away t' = turned_away t ++ omap (refused o) es.
Proof.
  revert t. induction es as [|e es IH]; intros t; cbn [consider_all].
  { intros [= <-]. cbn. by rewrite !app_nil_r. }
  intros (t1 & H & Hrest)%result_bind_Ok. apply IH in Hrest as [Hc Hr]. rewrite Hc, Hr. clear Hc Hr IH.
  unfold consider in H. apply result_bind_Ok in H as (verdict & Hv & H).
  cbn [omap list_omap]. unfold accepted at 2, refused at 2.
  destruct (verifies e (signature_options o)) as [v|]; [|done]. injection Hv as <-.
  destruct v as [|code]; [|injection H as <-; cbn; by rewrite <-app_assoc].
  destruct (is_str _ (contractId o)); cbn [negb] in H; [|injection H as <-; cbn; by rewrite <-app_assoc].
  apply result_bind_Ok in H as (h & Hh & H).
  destruct (attestationHash (payload e)) as [h'|]; [|done]. injection Hh as ->.
  cbn [fresh]. unfold key at 1. cbn [envelope hash].
  destruct (bool_decide (candidate_key e h ∈ seen t)); injection H as <-; [done|].
  cbn. by rewrite <-app_assoc.
Qed.

Lemma filter_positions {A} (f : nat * A → bool) (g : A → bool) l :
  (∀ i x, l !! i = Some x → f (i, x) = g x) → (List.filter f (imap pair l)).*2 = List.filter g l.
Proof.
  assert (∀ k, (∀ i x, l !! i = Some x → f (k + i, x) = g x) →
    (List.filter f (imap (λ i, pair (k + i)) l)).*2 = List.filter g l) as H; [|intros Hf; by apply (H 0)].
  induction l as [|x l IH]; intros k Hf; [done|]. rewrite imap_cons. cbn [List.filter].
  rewrite (Hf 0 x eq_refl). specialize (IH (S k)).
  assert (imap ((λ i, pair (k + i)) ∘ S) l = imap (λ i, pair (S k + i)) l) as ->
    by (apply imap_ext; intros; cbn; f_equal; lia).
  destruct (g x); cbn [fmap list_fmap]; rewrite IH; try done;
    intros i y Hi; rewrite <-(Hf (S i) y Hi); f_equal; f_equal; lia.
Qed.

Lemma retired_withdrawn cs gone i c :
  NoDup (key <$> cs) → retired cs = Ok gone → cs !! i = Some c →
  bool_decide (i ∈ gone) = withdrawn cs c.
Proof.
  intros Hnd (ls & Hls & [= <-])%result_bind_Ok Hi. apply result_mapM_Ok in Hls.
  assert (∀ j r, cs !! j = Some r → ∃ l, ls !! j = Some l ∧ retired_by cs j r = Ok l) as Hfor.
  { intros j r Hj. apply (Forall2_lookup_l _ _ _ j (j, r)) in Hls; [done|].
    by rewrite list_lookup_imap, Hj. }
  assert (∀ j r l, cs !! j = Some r → retired_by cs j r = Ok l → i ∈ l ↔ supersedes r c = true) as Hby.
  { intros j r l Hj (target & Ht & [= <-])%result_bind_Ok.
    assert (String.eqb (key r) (key c) = (i =? j)) as Hkey.
    { destruct (i =? j) eqn:Hij; [apply Nat.eqb_eq in Hij as ->|apply Nat.eqb_neq in Hij].
      - apply String.eqb_eq. by simplify_eq.
      - apply String.eqb_neq. intros Heq. apply Hij.
        apply (NoDup_lookup _ i j (key c) Hnd); rewrite list_lookup_fmap; [by rewrite Hi|by rewrite Hj, <-Heq]. }
    unfold supersedes. rewrite Ht, Hkey. destruct target as [h|].
    2:{ rewrite andb_false_r. split; [by intros ?%not_elem_of_nil|done]. }
    rewrite list_elem_of_omap. split.
    - intros ([i' c'] & (i'' & c'' & [= -> ->] & Hi')%elem_of_lookup_imap & Hc). cbn [fst snd] in Hc.
      destruct (_ && _) eqn:Hb in Hc; [|done]. injection Hc as ->. simplify_eq.
      apply andb_true_iff in Hb as [[-> ->]%andb_true_iff ->]. done.
    - intros [[H1 H2]%andb_true_iff H3]%andb_true_iff. exists (i, c).
      split; [by apply elem_of_lookup_imap_2 with (f := pair)|]. cbn [fst snd]. by rewrite H1, H2, H3. }
  apply eq_true_iff_eq. unfold withdrawn. rewrite bool_decide_eq_true, existsb_Exists.
  rewrite list_elem_of_In, in_concat. split.
  - intros (l & (j & Hj)%list_elem_of_In%list_elem_of_lookup & Hin%list_elem_of_In).
    pose proof (Forall2_lookup_r _ _ _ j l Hls Hj) as ([j' r] & Hr & Hret).
    rewrite list_lookup_imap in Hr. destruct (cs !! j) as [r'|] eqn:Hr'; [|done].
    injection Hr as <- <-. exists r'. split; [by eapply list_elem_of_lookup_2|]. by eapply Hby.
  - intros (r & (j & Hj)%list_elem_of_lookup & Hs). destruct (Hfor j r Hj) as (l & Hl & Hret).
    exists l. split; apply list_elem_of_In; [by eapply list_elem_of_lookup_2|]. by eapply Hby.
Qed.

(** ** The ranking *)

Lemma ranked_spec a b :
  ranked a b = true ↔
  (TRUST_RANK (trust b) < TRUST_RANK (trust a))%Z ∨
  TRUST_RANK (trust a) = TRUST_RANK (trust b) ∧
  ((createdAtMs b < createdAtMs a)%Z ∨
   createdAtMs a = createdAtMs b ∧ String.leb (hash a) (hash b) = true).
Proof.
  unfold ranked, compareResolved. rewrite Z.leb_le, !string_ltb_leb.
  destruct (_ =? 0)%Z eqn:Hr; bool_to_prop; cbn [negb]; [|lia].
  destruct (createdAtMs b - createdAtMs a =? 0)%Z eqn:Ht; bool_to_prop; cbn [negb]; [|lia].
  pose proof (String.leb_total (hash a) (hash b)) as Htot.
  destruct (String.leb (hash b) (hash a)) eqn:Hba, (String.leb (hash a) (hash b)) eqn:Hab; cbn [negb];
    intuition (try lia; try congruence).
Qed.

Lemma ranked_total a b : ranked a b = true ∨ ranked b a = true.
Proof.
  rewrite !ranked_spec. pose proof (String.leb_total (hash a) (hash b)).
  destruct (Z.lt_trichotomy (TRUST_RANK (trust a)) (TRUST_RANK (trust b))) as [|[|]];
    destruct (Z.lt_trichotomy (createdAtMs a) (createdAtMs b)) as [|[|]]; intuition.
Qed.

Lemma ranked_trans a b c : ranked a b = true → ranked b c = true → ranked a c = true.
Proof.
  rewrite !ranked_spec. intros Hab Hbc.
  assert (String.leb (hash a) (hash b) = true → String.leb (hash b) (hash c) = true →
    String.leb (hash a) (hash c) = true) as Htrans.
  { intros H1 H2. assert (String.le (hash a) (hash c)) as H.
    - trans (hash b); unfold String.le; by rewrite ?H1, ?H2.
    - by apply Is_true_eq_true in H. }
  destruct Hab as [H1|(H1 & [H2|[H2 H3]])], Hbc as [H4|(H4 & [H5|[H5 H6]])]; try (left; lia);
    right; (split; [lia|]); try (left; lia); right; split; [lia|auto].
Qed.

(** ** When the resolution throws *)

Lemma accepted_hash e o : verifies e o = Ok Valid → is_ok (attestationHash (payload e)) = true.
Proof.
  intros ((_ & _ & _ & digest & Hd & _) & _)%verify_Valid.
  apply result_bind_Ok in Hd as (m & Hm & _).
  apply result_bind_Ok in Hm as (u & _ & Hm). unfold canonicalizeAttestation in Hm.
  unfold attestationHash. by destruct (canonicalize (payload e)).
Qed.

Lemma consider_total o t e :
  is_ok (consider o t e) = is_ok (verifies e (signature_options o)).
Proof.
  unfold consider. destruct (verifies e (signature_options o)) as [[|code]|] eqn:Hv; [|done..].
  cbn. destruct (is_str _ _); [|done]. cbn. apply accepted_hash in Hv.
  destruct (attestationHash (payload e)); [|done]. cbn. by case_bool_decide.
Qed.

Lemma consider_all_total o t es :
  is_ok (consider_all o t es) = forallb (λ e, is_ok (verifies e (signature_options o))) es.
Proof.
  revert t. induction es as [|e es IH]; intros t; [done|]. cbn. rewrite <-(consider_total o t).
  destruct (consider o t e); [apply IH|done].
Qed.

Lemma mapM_total {E A B} (f : A → result E B) l :
  is_ok (mapM f l) = forallb (λ x, is_ok (f x)) l.
Proof.
  induction l as [|x l IH]; [done|]. cbn. rewrite <-IH. destruct (f x); [|done]. cbn.
  by destruct (mapM f l).
Qed.

Lemma retired_total cs : is_ok (retired cs) = forallb (λ c, is_ok (supersedes_target c)) cs.
Proof.
  unfold retired. match goal with |- context [mapM ?f ?l] => assert (is_ok (mapM f l) =
    forallb (λ c, is_ok (supersedes_target c)) cs) as <-; [|by destruct (mapM f l)] end.
  rewrite mapM_total.
  assert (∀ all (f : nat → nat), forallb (λ x : nat * ResolvedAttestation, is_ok (retired_by all x.1 x.2))
    (imap (λ i, pair (f i)) cs) = forallb (λ c, is_ok (supersedes_target c)) cs) as H;
    [|exact (H cs id)].
  intros all. induction cs as [|c cs IH]; intros f; [done|]. rewrite imap_cons. cbn [forallb fst snd].
  f_equal; [|apply (IH (f ∘ S))]. unfold retired_by. by destruct (supersedes_target c).
Qed.

Definition events (c : ResolvedAttestation) : jsval := prop (payload (envelope c)) "events".

(** The resolution that the code computes, when it throws nothing. *)
Lemma resolve_Ok o es r :
  resolveAttestations es o = Ok r ↔
  forallb (λ e, is_ok (verifies e (signature_options o))) es = true ∧
  let cs := accepted_all o es in
  forallb (λ c, is_ok (supersedes_target c)) cs = true ∧
  let best := sort_with ranked (List.filter (stands o cs) cs) in
  ∃ texts, mapM (λ c, canonicalize (events c)) best = Ok texts ∧
  r = {|
    effective := best;
    superseded := List.filter (withdrawn cs) cs;
    rejected := omap (refused o) es ++
      omap (λ c, pair (envelope c) <$> fate o c) (List.filter (λ c, negb (withdrawn cs c)) cs);
    preferred := head best;
    conflicting := 1 <? length (remove_dups texts) |}.
Proof.
  unfold resolveAttestations. rewrite <-(consider_all_total o no_candidates es).
  destruct (consider_all o no_candidates es) as [t|] eqn:Hc; cbn [is_ok]; [|by split; [|intros []]].
  pose proof (consider_all_Ok _ _ _ _ Hc) as [Hcs Hr]. cbn in Hcs, Hr.
  fold (accepted_all o es) in Hcs. cbn [mbind result_bind]. rewrite Hcs, Hr. cbn zeta.
  rewrite <-retired_total.
  destruct (retired (accepted_all o es)) as [gone|] eqn:Hgone; cbn [is_ok or_native mbind result_bind];
    [|by split; [|intros (_ & [])]].
  assert (∀ i c, accepted_all o es !! i = Some c →
    bool_decide (i ∈ gone) = withdrawn (accepted_all o es) c) as Hw
    by (intros i c Hi; apply (retired_withdrawn _ _ _ _ (fresh_NoDup _ _) Hgone Hi)).
  rewrite (filter_positions _ (λ c, negb (withdrawn (accepted_all o es) c)))
    by (intros i c Hi; cbn [fst snd]; by rewrite (Hw i c Hi)).
  rewrite (filter_positions _ (withdrawn (accepted_all o es)))
    by (intros i c Hi; cbn [fst snd]; by rewrite (Hw i c Hi)).
  assert (∀ (f g : ResolvedAttestation → bool) l,
    List.filter f (List.filter g l) = List.filter (λ c, g c && f c) l) as Hff.
  { intros f g l. induction l as [|x l IH]; cbn; [done|].
    destruct (g x); cbn; [destruct (f x)|]; by rewrite IH. }
  rewrite Hff. fold (stands o (accepted_all o es)).
  destruct (mapM _ _) as [texts|] eqn:Htexts; cbn.
  - split; [intros [= <-]; eauto 10|]. intros (_ & _ & texts' & [= <-] & ->). done.
  - split; [done|]. by intros (_ & _ & ? & ? & _).
Qed.

(** ** The properties *)

Lemma elem_of_filterb {A} (f : A → bool) l x : x ∈ List.filter f l ↔ x ∈ l ∧ f x = true.
Proof. rewrite !list_elem_of_In. apply filter_In. Qed.

Lemma stands_spec o cs c :
  stands o cs c = true ↔ withdrawn cs c = false ∧
  unexpired date_parse (payload (envelope c)) (at_time o) ∧
  meetsMinimumTrust (trust c) (default unbound (minimumTrust o)) = true.
Proof.
  unfold stands, fate, unexpired. destruct (withdrawn cs c); cbn; [by split; [|intros []]|].
  destruct (attestationExpiryProblem _ _ _); [by split; [|intros (_ & ? & _)]|].
  destruct (meetsMinimumTrust _ _); cbn; [done|]. by split; [|intros (_ & _ & ?)].
Qed.

Lemma accepted_spec o e c :
  accepted o e = Some c →
  envelope c = e ∧ well_signed fraction_to_string sha256 e (wanted_domain o) ∧
  prop (payload e) "contractId" = JStr (contractId o) ∧
  attestationHash (payload e) = Ok (hash c) ∧
  trust c = classifyAttester (JStr (publicKey e)) (deployer o).
Proof.
  unfold accepted. destruct (verifies e (signature_options o)) as [[|]|] eqn:Hv; try done.
  apply verify_Valid in Hv as (Hsig & _). destruct Hsig as (H1 & H2 & Ha & H3).
  destruct (is_str (prop (payload e) "contractId") (contractId o)) eqn:Hid; [|done].
  apply is_str_true in Hid. destruct (attestationHash (payload e)); [|done]. intros [= <-]. cbn.
  by rewrite Ha.
Qed.

Lemma accepted_all_elem o es c :
  c ∈ accepted_all o es → envelope c ∈ es ∧ accepted o (envelope c) = Some c.
Proof.
  intros [(e & He & Hc)%list_elem_of_omap _]%fresh_elem.
  pose proof (accepted_spec _ _ _ Hc) as (<- & _). done.
Qed.

Lemma accepted_attester o es c :
  c ∈ accepted_all o es → attester c = JStr (publicKey (envelope c)) ∧
  isValidEd25519PublicKey (publicKey (envelope c)) = true.
Proof. by intros [_ (_ & (_ & ? & ? & _) & _)%accepted_spec]%accepted_all_elem. Qed.

(** Two texts at least. *)
Lemma several_texts (l : list string) :
  (1 <? length (remove_dups l)) = true ↔ ∃ s t, s ∈ l ∧ t ∈ l ∧ s ≠ t.
Proof.
  rewrite Nat.ltb_lt. setoid_rewrite <-(elem_of_remove_dups l). pose proof (NoDup_remove_dups l) as Hnd.
  destruct (remove_dups l) as [|x [|y k]]; cbn.
  - split; [lia|]. by intros (? & ? & ?%not_elem_of_nil & _).
  - split; [lia|]. intros (s & t & ->%list_elem_of_singleton & ->%list_elem_of_singleton & ?). done.
  - split; [|lia]. intros _. exists x, y. apply NoDup_cons in Hnd as [Hnd _].
    split_and!; [by left|by right; left|]. intros ->. apply Hnd. by left.
Qed.

(** C19: The attestations a resolution holds for effective are exactly those well
    signed by their attester, for the contract and its code, that no other
    attestation of the same attester replaces, not expired and of the trust asked
    for, one per document, best first (tier, then time, then hash); the preferred
    one is the best; a conflict is reported exactly when two of them state
    different events. *)
Theorem resolution_exact `{HN : !NumberText fraction_to_string} es o r :
  resolveAttestations es o = Ok r →
  let cs := accepted_all o es in
  (∀ c, c ∈ effective r ↔
    c ∈ cs ∧ (¬ ∃ c', c' ∈ cs ∧ supersedes c' c = true) ∧
    unexpired date_parse (payload (envelope c)) (at_time o) ∧
    meetsMinimumTrust (trust c) (default unbound (minimumTrust o)) = true) ∧
  NoDup (key <$> effective r) ∧
  StronglySorted (λ a b, ranked a b = true) (effective r) ∧
  preferred r = head (effective r) ∧
  (conflicting r = true ↔
    ∃ a b, a ∈ effective r ∧ b ∈ effective r ∧ document (events a) ≠ document (events b)).
Proof.
  intros (_ & _ & texts & Htexts & ->)%resolve_Ok cs. fold cs in Htexts |- *.
  cbn [effective preferred conflicting]. split_and!.
  - intros c. rewrite sort_with_perm, elem_of_filterb, stands_spec.
    assert (withdrawn cs c = false ↔ ¬ ∃ c', c' ∈ cs ∧ supersedes c' c = true) as ->; [|done].
    unfold withdrawn. rewrite <-existsb_Exists. by destruct (existsb _ _).
  - rewrite sort_with_perm. unfold cs, accepted_all. generalize (stands o (fresh [] (omap (accepted o) es))).
    pose proof (fresh_NoDup [] (omap (accepted o) es)) as Hnd. revert Hnd.
    induction (fresh _ _) as [|c l IH]; intros Hnd f; cbn; [constructor|].
    cbn in Hnd. apply NoDup_cons in Hnd as [Hc Hnd]. destruct (f c); [|by apply IH].
    cbn. constructor; [|by apply IH]. contradict Hc.
    apply list_elem_of_fmap in Hc as (d & Hk & [Hd _]%elem_of_filterb).
    rewrite Hk. by apply list_elem_of_fmap_2.
  - apply sort_with_sorted; [apply ranked_total|apply ranked_trans].
  - done.
  - rewrite several_texts. apply result_mapM_Ok in Htexts.
    assert (∀ a b s t, canonicalize (events a) = Ok s → canonicalize (events b) = Ok t →
      (s ≠ t ↔ document (events a) ≠ document (events b))) as Hne.
    { intros a b s t Ha Hb. split; intros H Heq; apply H.
      - unfold canonicalizeJson in *.
        rewrite <-(serialize_document fraction_to_string (events a)) in Ha.
        rewrite <-(serialize_document fraction_to_string (events b)) in Hb. congruence.
      - subst t. by destruct (serialize_readable fraction_to_string _ _ 0 0 _ _ "" "" Ha Hb eq_refl eq_refl eq_refl). }
    split.
    + intros (s & t & [i Hi]%list_elem_of_lookup & [j Hj]%list_elem_of_lookup & Hst).
      destruct (Forall2_lookup_r _ _ _ _ _ Htexts Hi) as (a & Ha & Hsa).
      destruct (Forall2_lookup_r _ _ _ _ _ Htexts Hj) as (b & Hb & Hsb).
      exists a, b. split_and!; [by eapply list_elem_of_lookup_2|by eapply list_elem_of_lookup_2|by eapply Hne].
    + intros (a & b & [i Ha]%list_elem_of_lookup & [j Hb]%list_elem_of_lookup & Hab).
      destruct (Forall2_lookup_l _ _ _ _ _ Htexts Ha) as (s & Hs & Hsa).
      destruct (Forall2_lookup_l _ _ _ _ _ Htexts Hb) as (t & Ht & Hsb).
      exists s, t. split_and!; [by eapply list_elem_of_lookup_2|by eapply list_elem_of_lookup_2|by eapply Hne].
Qed.

(** ** Attesters are independent *)

Definition own (a : string) (c : ResolvedAttestation) : bool := String.eqb (publicKey (envelope c)) a.

(** Only the known keys that occur matter. *)
Lemma fresh_ext known known' l :
  (∀ c, c ∈ l → key c ∈ known ↔ key c ∈ known') → fresh known l = fresh known' l.
Proof.
  revert known known'. induction l as [|c l IH]; intros known known' Hk; [done|]. cbn.
  rewrite (bool_decide_ext (key c ∈ known) (key c ∈ known')) by (apply Hk; by left).
  case_bool_decide; [apply IH; intros d Hd; apply Hk; by right|]. f_equal. apply IH. intros d Hd.
  rewrite !elem_of_cons, (Hk d) by (by right). done.
Qed.

Lemma fresh_own `{HK : !StellarKeysLaws} a known l :
  (∀ c, c ∈ l → isValidEd25519PublicKey (publicKey (envelope c)) = true) →
  List.filter (own a) (fresh known l) = fresh known (List.filter (own a) l).
Proof.
  revert known. induction l as [|c l IH]; intros known Hl; [done|]. cbn [fresh List.filter].
  assert (∀ d, d ∈ l → isValidEd25519PublicKey (publicKey (envelope d)) = true) as Hl'
    by (intros; apply Hl; by right).
  destruct (own a c) eqn:Hc.
  - cbn [fresh]. case_bool_decide; [by apply IH|]. cbn [List.filter]. by rewrite Hc, IH.
  - case_bool_decide; [by apply IH|]. cbn [List.filter]. rewrite Hc, IH by done.
    apply fresh_ext. intros d [Hd Hown]%elem_of_filterb. rewrite elem_of_cons.
    split; [|by right]. intros [Hk|]; [exfalso|done]. unfold key, candidate_key in Hk.
    apply before_char in Hk as [Hpk _].
    + unfold own in *. congruence.
    + by apply public_key_chars, Hl'.
    + apply public_key_chars, Hl. by left.
Qed.

Definition signed_by (a : string) (e : AttestationEnvelope) : bool := String.eqb (publicKey e) a.

Lemma accepted_own `{HK : !StellarKeysLaws} a o es :
  accepted_all o (List.filter (signed_by a) es) = List.filter (own a) (accepted_all o es).
Proof.
  unfold accepted_all. rewrite fresh_own.
  - f_equal. induction es as [|e es IH]; [done|]. cbn [omap list_omap List.filter].
    destruct (signed_by a e) eqn:Ha; cbn [omap list_omap].
    + destruct (accepted o e) as [c|] eqn:Hc; [|exact IH].
      pose proof (accepted_spec _ _ _ Hc) as [He _]. cbn [List.filter]. unfold own at 1. rewrite He.
      unfold signed_by in Ha. rewrite Ha. f_equal. exact IH.
    + destruct (accepted o e) as [c|] eqn:Hc; [|exact IH].
      pose proof (accepted_spec _ _ _ Hc) as [He _]. cbn [List.filter]. unfold own at 1. rewrite He.
      unfold signed_by in Ha. rewrite Ha. exact IH.
  - intros c (e & _ & Hc)%list_elem_of_omap. apply accepted_spec in Hc as (<- & (_ & ? & _) & _). done.
Qed.

Lemma withdrawn_own a o es c :
  c ∈ accepted_all o es → own a c = true →
  withdrawn (List.filter (own a) (accepted_all o es)) c = withdrawn (accepted_all o es) c.
Proof.
  intros Hc Ha. unfold withdrawn. apply eq_true_iff_eq. rewrite !existsb_Exists.
  split; intros (r & Hr & Hs); exists r; (split; [|done]).
  - by apply elem_of_filterb in Hr as [? _].
  - apply elem_of_filterb. split; [done|]. unfold supersedes in Hs.
    apply andb_true_iff in Hs as [[_ Hs]%andb_true_iff _].
    rewrite (proj1 (accepted_attester _ _ _ Hc)), (proj1 (accepted_attester _ _ _ Hr)) in Hs.
    cbn in Hs. apply String.eqb_eq in Hs. unfold own in *. by rewrite Hs.
Qed.

Lemma forallb_incl {A} (f : A → bool) l l' :
  (∀ x, x ∈ l' → x ∈ l) → forallb f l = true → forallb f l' = true.
Proof. rewrite !forallb_Forall, !Forall_forall. auto. Qed.

Lemma texts_exist (cs : list ResolvedAttestation) :
  (∃ texts, mapM (λ c, canonicalize (events c)) cs = Ok texts) ↔
  ∀ c, c ∈ cs → is_ok (canonicalize (events c)) = true.
Proof.
  rewrite <-Forall_forall, <-(forallb_Forall (λ c, is_ok (canonicalize (events c)))),
    <-(mapM_total (λ c, canonicalize (events c))).
  destruct (mapM _ cs) as [texts|]; split; try done; [by exists texts|by intros []].
Qed.

(** What the attestations of others say never decides about an attester's own:
    resolved alone, they have the same effective and the same superseded
    attestations. *)
Theorem others_cannot_interfere `{HK : !StellarKeysLaws} es o a r :
  resolveAttestations es o = Ok r →
  ∃ r', resolveAttestations (List.filter (signed_by a) es) o = Ok r' ∧
    ∀ c, publicKey (envelope c) = a →
      (c ∈ effective r ↔ c ∈ effective r') ∧ (c ∈ superseded r ↔ c ∈ superseded r').
Proof.
  intros (Hv & Ht & texts & Htexts & ->)%resolve_Ok.
  pose proof (withdrawn_own a o es) as Hwo. set (cs := accepted_all o es) in *.
  assert (∀ c, c ∈ List.filter (stands o (List.filter (own a) cs)) (List.filter (own a) cs) ↔
    c ∈ List.filter (stands o cs) cs ∧ own a c = true) as Hstands.
  { intros c. rewrite !elem_of_filterb. split.
    - intros [[Hc Ha] Hs]. unfold stands in *. rewrite (Hwo c Hc Ha) in Hs. done.
    - intros [[Hc Hs] Ha]. unfold stands in *. by rewrite (Hwo c Hc Ha). }
  assert (∃ texts', mapM (λ c, canonicalize (events c))
    (sort_with ranked (List.filter (stands o (List.filter (own a) cs)) (List.filter (own a) cs))) = Ok texts')
    as [texts' Htexts'].
  { apply texts_exist. intros c. rewrite sort_with_perm, Hstands. intros [Hc _].
    pose proof (proj1 (texts_exist (sort_with ranked (List.filter (stands o cs) cs)))
      (ex_intro _ _ Htexts)) as H. apply H. by rewrite sort_with_perm. }
  eexists. split.
  - apply resolve_Ok. split; [|cbn zeta; rewrite (accepted_own a o es); fold cs; split; [|by exists texts']].
    + eapply forallb_incl; [|exact Hv]. by intros e [? _]%elem_of_filterb.
    + eapply forallb_incl; [|exact Ht]. by intros e [? _]%elem_of_filterb.
  - intros c Ha. assert (own a c = true) as Hown by by apply String.eqb_eq.
    cbn [effective superseded]. rewrite !sort_with_perm, Hstands. split; [naive_solver|].
    rewrite !elem_of_filterb. split.
    + intros [Hc Hw]. by rewrite (Hwo c Hc Hown).
    + intros [[Hc _] Hw]. by rewrite (Hwo c Hc Hown) in Hw.
Qed.

(** ** Time *)

Definition same_question (o o' : ResolveAttestationsOptions) : Prop :=
  contractId o = contractId o' ∧ deployer o = deployer o' ∧
  minimumTrust o = minimumTrust o' ∧ wanted_wasm o = wanted_wasm o' ∧
  wanted_domain o = wanted_domain o'.

(** The time plays no part before the expiry check. *)
Lemma accepted_timeless o o' e : same_question o o' → accepted o e = accepted o' e.
Proof.
  intros (Hid & Hd & _ & Hw & Hdom). unfold accepted.
  assert (verifies e (signature_options o) = Ok Valid ↔ verifies e (signature_options o') = Ok Valid) as Hv.
  { rewrite !verify_Valid. cbn. rewrite Hw, Hdom. naive_solver. }
  rewrite Hid, Hd. destruct (verifies e (signature_options o)) as [[]|], (verifies e (signature_options o')) as [[]|];
    try done; destruct Hv as [H1 H2]; try (by specialize (H1 eq_refl)); by specialize (H2 eq_refl).
Qed.

Lemma fresh_prefix known l l' : fresh known l `prefix_of` fresh known (l ++ l').
Proof.
  revert known. induction l as [|c l IH]; intros known; cbn; [apply prefix_nil|].
  case_bool_decide; [apply IH|]. apply prefix_cons, IH.
Qed.

(** A withdrawal is final: an attestation that its attester has replaced is
    not effective in any later resolution that knows the same attestations and
    possibly more, even after the replacement has expired; and as time passes,
    nothing expired comes back. *)
Theorem withdrawal_is_final es more o o' r r' :
  same_question o o' → (at_time o ≤ at_time o')%Z →
  resolveAttestations es o = Ok r → resolveAttestations (es ++ more) o' = Ok r' →
  (∀ c, c ∈ superseded r → c ∈ superseded r' ∧ c ∉ effective r') ∧
  (∀ c, c ∈ accepted_all o es → c ∈ effective r' → c ∈ effective r).
Proof.
  intros Hq Hle (_ & _ & ? & _ & ->)%resolve_Ok (_ & _ & ? & _ & ->)%resolve_Ok.
  cbn [superseded effective]. set (cs := accepted_all o es). set (cs' := accepted_all o' (es ++ more)).
  assert (∀ c, c ∈ cs → c ∈ cs') as Hincl.
  { intros c Hc. unfold cs', accepted_all. rewrite omap_app.
    assert (omap (accepted o') es = omap (accepted o) es) as ->.
    { apply list_omap_ext, Forall_Forall2_diag, Forall_forall. intros e _. symmetry. by apply accepted_timeless. }
    eapply elem_of_prefix; [exact Hc|apply fresh_prefix]. }
  assert (∀ c, withdrawn cs c = true → withdrawn cs' c = true) as Hw.
  { intros c. unfold withdrawn. rewrite !existsb_Exists. intros (y & Hy & Hs). eauto. }
  split.
  - intros c [Hc Hwd]%elem_of_filterb. rewrite sort_with_perm, !elem_of_filterb, stands_spec.
    rewrite (Hw c Hwd). split; [by auto|]. by intros (_ & ? & _).
  - intros c Hc. rewrite !sort_with_perm, !elem_of_filterb, !stands_spec.
    intros (_ & Hnw & Hexp & Htrust). split; [done|]. split_and!.
    + destruct (withdrawn cs c) eqn:H; [|done]. by rewrite (Hw c H) in Hnw.
    + by eapply unexpired_earlier.
    + destruct Hq as (_ & _ & Hmin & _). by rewrite Hmin.
Qed.
End policy.

(** ** Concrete runs *)

(** Two accounts whose signature of a digest is the digest. *)
#[local] Instance two_keys : StellarKeys := {|
  isValidEd25519PublicKey := λ pk, existsb (String.eqb pk) ["GA"; "GB"];
  fromSecret := λ sk, if String.eqb sk "SA" then Some "GA" else if String.eqb sk "SB" then Some "GB" else None;
  sign := λ _ digest, digest;
  verify := λ pk digest sig, existsb (String.eqb pk) ["GA"; "GB"] && String.eqb digest sig;
|}.

#[local] Instance two_keys_laws : StellarKeysLaws.
Proof.
  split; cbn [fromSecret isValidEd25519PublicKey verify sign two_keys].
  - intros sk pk. destruct (String.eqb sk "SA"); [by intros [= <-]|].
    destruct (String.eqb sk "SB"); [by intros [= <-]|done].
  - intros sk pk digest. rewrite String.eqb_refl. destruct (String.eqb sk "SA"); [by intros [= <-]|].
    destruct (String.eqb sk "SB"); [by intros [= <-]|done].
  - intros pk. cbn [existsb]. rewrite orb_false_r, orb_true_iff, !String.eqb_eq. by intros [->| ->].
Qed.

Definition demo_hex (s : string) : string := pretty (N.of_nat (String.length s)).

Definition sealed (document : jsval) (pk : string) : AttestationEnvelope := {|
  env_v := JNum (jint 1); payload := document; publicKey := pk;
  signature := match attestationSigningDigest dyadic_text id document ATTESTATION_DOMAIN with
               | Ok d => d | Err _ => "" end |}.

Definition statement (pk : string) (more : list (string * jsval)) : jsval :=
  JObj (("attester", JStr pk) :: ("contractId", JStr "CA") :: more).

Definition original : jsval := statement "GA" [("events", JArr [])].
Definition replacement : jsval :=
  statement "GA" [("events", JArr []); ("expiresAt", JStr "2026-07-04T00:00:00Z");
                  ("supersedes", JStr (match attestationHash dyadic_text demo_hex original with
                                       | Ok h => h | Err _ => "" end))].
Definition other_events : jsval := statement "GB" [("events", JArr [JNum (jint 1)])].
Definition without_events : jsval := statement "GB" [].

Definition demo_question (at_ : Z) : ResolveAttestationsOptions :=
  {| contractId := "CA"; deployer := Some "GA"; minimumTrust := None; wanted_wasm := None;
     wanted_domain := ATTESTATION_DOMAIN; at_time := at_ |}.

#[local] Notation demo_resolve := (resolveAttestations dyadic_text id demo_hex demo_dates).

Definition who (l : list ResolvedAttestation) : list string := map (λ c, publicKey (envelope c)) l.
Definition summary (r : result ResolveError ResolveAttestationsResult) :=
  match r with
  | Ok r => Ok (who (effective r), who (superseded r), map snd (rejected r), conflicting r)
  | Err e => Err e
  end.

(** Two attesters in conflict, the deployer first; the copy counts once. *)
Example conflict_reported :
  summary (demo_resolve [sealed other_events "GB"; sealed original "GA"; sealed original "GA"] (demo_question 0))
  = Ok (["GA"; "GB"], [], [], true).
Proof. vm_compute. reflexivity. Qed.

(** The replacement has expired, and what it replaced stays withdrawn. *)
Example expired_replacement_withdraws :
  summary (demo_resolve [sealed original "GA"; sealed replacement "GA"] (demo_question 1783123200000))
  = Ok ([], ["GA"], [invalid expired], false).
Proof. vm_compute. reflexivity. Qed.

(** One well-signed attestation without events, from anyone, and the whole
    resolution throws. *)
Lemma eventless_attestation_throws :
  summary (demo_resolve [sealed original "GA"; sealed without_events "GB"] (demo_question 0))
  = Err (NotCanonical NotJson).
Proof. vm_compute. reflexivity. Qed.

(** Deployer unknown, nobody is anybody. *)
Example resolver_failure_unbinds :
  match resolveAttestationsWithDeployer (E := unit) dyadic_text id demo_hex demo_dates
          [sealed original "GA"] (λ _, Err tt) (demo_question 0) with
  | Ok r => map trust (effective r)
  | Err _ => []
  end = [unbound].
Proof. vm_compute. reflexivity. Qed.

Definition demo_result (es : list AttestationEnvelope) (at_ : Z) : ResolveAttestationsResult :=
  match demo_resolve es (demo_question at_) with
  | Ok r => r
  | Err _ => {| effective := []; superseded := []; rejected := []; preferred := None; conflicting := false |}
  end.

Lemma resolution_exact_witness :
  preferred (demo_result [sealed other_events "GB"; sealed original "GA"] 0)
  = head (effective (demo_result [sealed other_events "GB"; sealed original "GA"] 0)).
Proof.
  apply (resolution_exact dyadic_text id demo_hex demo_dates (HN := dyadic_text_numbers)
    [sealed other_events "GB"; sealed original "GA"] (demo_question 0)).
  vm_compute. reflexivity.
Defined.

Lemma others_cannot_interfere_witness :
  ∃ r', demo_resolve (List.filter (signed_by "GA") [sealed other_events "GB"; sealed original "GA"])
    (demo_question 0) = Ok r' ∧
    ∀ c, publicKey (envelope c) = "GA" →
      (c ∈ effective (demo_result [sealed other_events "GB"; sealed original "GA"] 0) ↔ c ∈ effective r') ∧
      (c ∈ superseded (demo_result [sealed other_events "GB"; sealed original "GA"] 0) ↔ c ∈ superseded r').
Proof.
  apply (others_cannot_interfere dyadic_text id demo_hex demo_dates (HK := two_keys_laws)
    [sealed other_events "GB"; sealed original "GA"] (demo_question 0) "GA").
  vm_compute. reflexivity.
Defined.

Lemma withdrawal_is_final_witness :
  let r := demo_result [sealed original "GA"; sealed replacement "GA"] 0 in
  let r' := demo_result ([sealed original "GA"; sealed replacement "GA"] ++ [sealed other_events "GB"])
              1783123200000 in
  ∀ c, c ∈ superseded r → c ∈ superseded r' ∧ c ∉ effective r'.
Proof.
  cbn zeta. apply (withdrawal_is_final dyadic_text id demo_hex demo_dates
    [sealed original "GA"; sealed replacement "GA"] [sealed other_events "GB"]
    (demo_question 0) (demo_question 1783123200000)).
  - split_and!; reflexivity.
  - done.
  - vm_compute. reflexivity.
  - vm_compute. reflexivity.
Defined.
