(* ===== verification/Schedule.v ===== *)
(** * Schedules (packages/worker-core/src/schedule.ts, TriggerEvaluator.ts)

    Which times a worker is due between two moments, and what a poll decides to
    fire.  A Date is its milliseconds.  cron-parser's iterator is a type class: a
    parsed expression and its next date. *)

From Stdlib Require Import Sorted.
From S2P Require Import Prelude.

(** ** Data *)

Inductive Schedule :=
  | interval (intervalMs : Z)
  | cron (expression : string) (timezone : option string).

(** What the library throws: an expression it cannot read, no further date. *)
Inductive CronError := BadExpression | NoFurtherDate.

Class CronParser := {
  iterator : Type;
  parse : string → option string → Z → option iterator;
  next : iterator → option (Z * iterator);
}.

(** [schedule.timezone ? { tz: schedule.timezone } : {}] *)
Definition given_timezone (tz : option string) : option string :=
  match tz with Some "" => None | _ => tz end.

Section schedule.
Context {cron_parser : CronParser}.

Definition parsed (expression : string) (tz : option string) (after : Z) : result CronError iterator :=
  match parse expression (given_timezone tz) after with Some it => Ok it | None => Err BadExpression end.

Definition next_date (it : iterator) : result CronError (Z * iterator) :=
  match next it with Some x => Ok x | None => Err NoFurtherDate end.

(** [nextLedgerCloseTime ? nextLedgerCloseTime(t) : t] *)
Definition aligned (nextLedgerCloseTime : option (Z → Z)) (t : Z) : Z :=
  match nextLedgerCloseTime with Some f => f t | None => t end.

Definition nextDue (s : Schedule) (after : Z) (nextLedgerCloseTime : option (Z → Z)) : result CronError Z :=
  due ← match s with
        | interval ms => Ok (after + ms)%Z
        | cron e tz => it ← parsed e tz after; x ← next_date it; Ok x.1
        end;
  Ok (aligned nextLedgerCloseTime due).

(** ** dueTimesBetween

    Both loops of the code: [advance] gives the time after the current one.
    [None] is a loop that has not ended within the fuel. *)

Section loop.
Context {S : Type} (advance : S → result CronError (Z * S)).
Context (align : Z → Z) (to : Z).

Fixpoint due_loop (fuel : nat) (current : Z) (st : S) (seen : list Z) (found : list Z)
    : option (result CronError (list Z)) :=
  match fuel with
  | O => None
  | Datatypes.S fuel' =>
      if negb (current <=? to)%Z then Some (Ok found)
      else
        let due := align current in
        if (to <? due)%Z then Some (Ok found)
        else
          let '(found, seen) :=
            if bool_decide (due ∈ seen) then (found, seen) else (found ++ [due], due :: seen) in
          match advance st with
          | Err e => Some (Err e)
          | Ok (current', st') => due_loop fuel' current' st' seen found
          end
  end.
End loop.

(** The state of the interval loop is its current time. *)
Definition after_interval (ms : Z) (current : Z) : result CronError (Z * Z) :=
  Ok ((current + ms)%Z, (current + ms)%Z).

Definition dueTimesBetween (fuel : nat) (s : Schedule) (after to : Z)
    (nextLedgerCloseTime : option (Z → Z)) : option (result CronError (list Z)) :=
  if (to <=? after)%Z then Some (Ok [])
  else match s with
  | interval ms =>
      due_loop (after_interval ms) (aligned nextLedgerCloseTime) to fuel
        (after + ms)%Z (after + ms)%Z [] []
  | cron e tz =>
      match (it ← parsed e tz after; next_date it) with
      | Err err => Some (Err err)
      | Ok (current, it) => due_loop next_date (aligned nextLedgerCloseTime) to fuel current it [] []
      end
  end.

(** ** TriggerEvaluator *)

Inductive CatchUpPolicy := fire_once | fire_all.

Record WorkerState := {
  id : string;
  worker_schedule : Schedule;      (** [schedule] *)
  anchorAt : Z;
  lastFiredAt : option Z;
  catchUpPolicy : option CatchUpPolicy;
}.

Record FireDecision := { workerId : string; fireTimes : list Z }.

Definition due_from (w : WorkerState) : Z := default (anchorAt w) (lastFiredAt w).

Definition evaluate (fuel : nat) (w : WorkerState) (ledgerCloseTime : Z)
    : option (result CronError (option FireDecision)) :=
  answer ← dueTimesBetween fuel (worker_schedule w) (due_from w) ledgerCloseTime None;
  Some (dueTimes ← answer;
        Ok (match dueTimes with
            | [] => None
            | _ =>
                Some {| workerId := id w;
                        fireTimes := match default fire_once (catchUpPolicy w) with
                                     | fire_once => [ledgerCloseTime]
                                     | fire_all => dueTimes
                                     end |}
            end)).

(** The loop over the workers; the first throw ends it. *)
Fixpoint evaluate_all (fuel : nat) (ws : list WorkerState) (ledgerCloseTime : Z)
    : option (result CronError (list FireDecision)) :=
  match ws with
  | [] => Some (Ok [])
  | w :: ws' =>
      answer ← evaluate fuel w ledgerCloseTime;
      match answer with
      | Err e => Some (Err e)
      | Ok decision =>
          rest ← evaluate_all fuel ws' ledgerCloseTime;
          Some (ds ← rest; Ok (match decision with Some d => d :: ds | None => ds end))
      end
  end.

Record TriggerEvaluator := { minPollIntervalMs : Z; lastPollAt : option Z }.

Definition new_evaluator (minPollIntervalMs : option Z) : TriggerEvaluator :=
  {| minPollIntervalMs := default 5000%Z minPollIntervalMs; lastPollAt := None |}.

(** poll up to the await of the ledger source: [false] when it returns []. *)
Definition poll_begins (now : Z) (v : TriggerEvaluator) : bool * TriggerEvaluator :=
  match lastPollAt v with
  | Some last =>
      if (now - last <? minPollIntervalMs v)%Z then (false, v)
      else (true, {| minPollIntervalMs := minPollIntervalMs v; lastPollAt := Some now |})
  | None => (true, {| minPollIntervalMs := minPollIntervalMs v; lastPollAt := Some now |})
  end.

(** The whole of poll; [ledger] is the answer of the source, [None] where it
    rejects. *)
Inductive PollError := LedgerSourceFailed | ScheduleFailed (e : CronError).

Definition poll (fuel : nat) (now : Z) (ledger : option Z) (ws : list WorkerState) (v : TriggerEvaluator)
    : option (result PollError (list FireDecision)) * TriggerEvaluator :=
  let '(goes_on, v) := poll_begins now v in
  if negb goes_on then (Some (Ok []), v)
  else match ledger with
  | None => (Some (Err LedgerSourceFailed), v)
  | Some t =>
      (answer ← evaluate_all fuel ws t;
       Some (match answer with Ok ds => Ok ds | Err e => Err (ScheduleFailed e) end), v)
  end.
End schedule.

(** ** What the loop finds *)

(** An alignment is a later moment, and keeps the order. *)
Definition lawful_alignment (align : Z → Z) : Prop :=
  (∀ t, t ≤ align t)%Z ∧ (∀ t u, t ≤ u → align t ≤ align u)%Z.

Section loop_exact.
Context {S : Type} (advance : S → result CronError (Z * S)).
Context (align : Z → Z) (to : Z).
(** The times the loop goes through, and its states. *)
Context (times : nat → Z) (states : nat → S).
Context (Hadvance : ∀ k, advance (states k) = Ok (times (Datatypes.S k), states (Datatypes.S k))).
Context (Hgrow : ∀ k, (times k < times (Datatypes.S k))%Z).
Context (Halign : lawful_alignment align).

Lemma times_grow j k : j < k → (times j < times k)%Z.
Proof using Hgrow.
  induction 1 as [|k _ IH]; [apply Hgrow|]. specialize (Hgrow k). lia.
Qed.

Lemma times_bound k : (times 0 + Z.of_nat k ≤ times k)%Z.
Proof using Hgrow. induction k as [|k IH]; [lia|]. specialize (Hgrow k). lia. Qed.

(** Before the [k]-th time. *)
Definition found_before (k : nat) (found : list Z) : Prop :=
  (∀ d, d ∈ found ↔ ∃ j, j < k ∧ d = align (times j)) ∧ StronglySorted Z.lt found.

Definition found_all (found : list Z) : Prop :=
  (∀ d, d ∈ found ↔ ∃ j, d = align (times j) ∧ (d ≤ to)%Z) ∧ StronglySorted Z.lt found.

Lemma found_snoc k found :
  found_before k found → align (times k) ∉ found → found_before (Datatypes.S k) (found ++ [align (times k)]).
Proof using Halign Hgrow.
  intros [Hf Hs] Hnew. split.
  - intros d. rewrite elem_of_app, list_elem_of_singleton, Hf. split.
    + intros [(j & Hj & ->)| ->]; [exists j|exists k]; (split; [lia|done]).
    + intros (j & Hj & ->). destruct (decide (j = k)) as [->|]; [by right|]. left. exists j. split; [lia|done].
  - apply StronglySorted_snoc; [done|]. apply Forall_forall. intros d (j & Hj & ->)%Hf.
    pose proof (times_grow j k Hj). destruct Halign as [_ Hmono].
    assert (align (times j) ≤ align (times k))%Z by (apply Hmono; lia).
    assert (align (times j) ≠ align (times k)); [|lia].
    intros Heq. apply Hnew. rewrite <-Heq. apply Hf. eauto.
Qed.

Lemma found_again k found :
  found_before k found → align (times k) ∈ found → found_before (Datatypes.S k) found.
Proof.
  intros [Hf Hs] Hin. split; [|done]. intros d. rewrite Hf. split.
  - intros (j & Hj & ->). exists j. split; [lia|done].
  - intros (j & Hj & ->). destruct (decide (j = k)) as [->|]; [by apply Hf|]. exists j. split; [lia|done].
Qed.

Lemma due_loop_from fuel k seen found :
  (Z.to_nat (to - times k + 1) < fuel) →
  found_before k found → (∀ d, d ∈ found → d ≤ to)%Z → (∀ d, d ∈ seen ↔ d ∈ found) →
  ∃ l, due_loop advance align to fuel (times k) (states k) seen found = Some (Ok l) ∧ found_all l.
Proof using Hadvance Halign Hgrow.
  revert k seen found. induction fuel as [|fuel IH]; intros k seen found Hfuel Hfound Hto Hseen; [lia|].
  cbn [due_loop].
  assert ((to < align (times k))%Z → found_all found) as Hend.
  { intros Hlt. destruct Hfound as [Hf Hs]. split; [|done]. intros d. rewrite Hf. split.
    - intros (j & Hj & ->). exists j. split; [done|]. apply Hto, Hf. eauto.
    - intros (j & -> & Hle). exists j. split; [|done]. destruct (decide (j < k)); [done|].
      destruct Halign as [_ Hmono]. assert (times k ≤ times j)%Z.
      { destruct (decide (j = k)) as [->|]; [done|]. assert (times k < times j)%Z by (apply times_grow; lia). lia. }
      specialize (Hmono (times k) (times j)). lia. }
  destruct (times k <=? to)%Z eqn:Hk; cbn [negb]; bool_to_prop.
  2:{ exists found. split; [done|]. apply Hend. destruct Halign as [Hle _]. specialize (Hle (times k)). lia. }
  destruct (to <? align (times k))%Z eqn:Hd; bool_to_prop; [exists found; auto|].
  rewrite Hadvance.
  assert (Z.to_nat (to - times (Datatypes.S k) + 1) < fuel) as Hless by (specialize (Hgrow k); lia).
  case_bool_decide as Hin.
  - apply IH; [done| |done|done]. apply found_again; [done|]. by apply Hseen.
  - apply IH; [done| | |].
    + apply found_snoc; [done|]. by rewrite <-Hseen.
    + intros d. rewrite elem_of_app, list_elem_of_singleton. intros [?| ->]; [by apply Hto|done].
    + intros d. rewrite elem_of_cons, elem_of_app, list_elem_of_singleton, Hseen. naive_solver.
Qed.

Lemma due_loop_exact fuel :
  Z.to_nat (to - times 0 + 1) < fuel →
  ∃ l, due_loop advance align to fuel (times 0) (states 0) [] [] = Some (Ok l) ∧ found_all l.
Proof using Hadvance Halign Hgrow.
  intros Hfuel. apply due_loop_from; [done| | |done].
  - split; [|constructor]. intros d. split; [by intros ?%not_elem_of_nil|]. intros (j & ? & _). lia.
  - by intros d ?%not_elem_of_nil.
Qed.
End loop_exact.

Lemma aligned_lawful f : (∀ g, f = Some g → lawful_alignment g) → lawful_alignment (aligned f).
Proof. destruct f as [g|]; [cbn; auto|]. intros _. split; intros; cbn; lia. Qed.

Lemma strictly_sorted_unique (l k : list Z) :
  StronglySorted Z.lt l → StronglySorted Z.lt k → (∀ d, d ∈ l ↔ d ∈ k) → l = k.
Proof.
  intros Hl. revert k. induction Hl as [|x l Hl IH Hx]; intros [|y k] Hk Heq.
  - done.
  - exfalso. apply (not_elem_of_nil y), Heq. by left.
  - exfalso. apply (not_elem_of_nil x), Heq. by left.
  - apply StronglySorted_inv in Hk as [Hk Hy]. rewrite Forall_forall in Hx, Hy.
    assert (x = y) as ->.
    { assert (x ∈ y :: k) as [->|H1]%elem_of_cons by (apply Heq; by left); [done|].
      assert (y ∈ x :: l) as [->|H2]%elem_of_cons by (apply Heq; by left); [done|].
      specialize (Hx y H2). specialize (Hy x H1). lia. }
    f_equal. apply IH; [done|]. intros d. split; intros Hd.
    + assert (d ∈ y :: k) as [->|H]%elem_of_cons by (apply Heq; by right); [|done]. specialize (Hx y Hd). lia.
    + assert (d ∈ y :: l) as [->|H]%elem_of_cons by (apply Heq; by right); [|done]. specialize (Hy y Hd). lia.
Qed.

Section due_times.
Context {cron_parser : CronParser}.

Lemma interval_due_list ms after to f :
  (0 < ms)%Z → (∀ g, f = Some g → lawful_alignment g) →
  ∃ l, (∀ fuel, Z.to_nat (to - after) < fuel → dueTimesBetween fuel (interval ms) after to f = Some (Ok l)) ∧
    (∀ d, d ∈ l ↔ ∃ k : nat, d = aligned f (after + (1 + Z.of_nat k) * ms)%Z ∧ (d ≤ to)%Z) ∧
    StronglySorted Z.lt l.
Proof.
  intros Hms Hf%aligned_lawful. unfold dueTimesBetween.
  destruct (to <=? after)%Z eqn:Hto; bool_to_prop.
  { exists []. split_and!; [done| |constructor]. intros d. split; [by intros ?%not_elem_of_nil|].
    intros (k & -> & Hle). destruct Hf as [Hf _]. specialize (Hf (after + (1 + Z.of_nat k) * ms)%Z). nia. }
  set (times := λ k : nat, (after + (1 + Z.of_nat k) * ms)%Z).
  assert (∀ fuel, Z.to_nat (to - after) < fuel →
    ∃ l, due_loop (after_interval ms) (aligned f) to fuel (times 0) (times 0) [] [] = Some (Ok l) ∧
      found_all (aligned f) to times l) as Hloop.
  { intros fuel Hfuel. apply (due_loop_exact _ _ _ times times); [..|unfold times; lia].
    - intros k. unfold after_interval, times. do 2 f_equal; lia.
    - intros k. unfold times. lia.
    - done. }
  replace (after + ms)%Z with (times 0) by (unfold times; lia).
  destruct (Hloop (Datatypes.S (Z.to_nat (to - after)))) as (l & _ & Hl & Hs); [lia|].
  exists l. split_and!; [|done|done]. intros fuel Hfuel. destruct (Hloop fuel Hfuel) as (l' & -> & Hl' & Hs').
  do 2 f_equal. apply strictly_sorted_unique; [done|done|]. intros d. by rewrite Hl, Hl'.
Qed.

(** An expression's dates, and where the iterator stands after each. *)
Definition cron_dates (e : string) (tz : option string) (after : Z) (times : nat → Z) : Prop :=
  ∃ (it : iterator) (states : nat → iterator),
    parse e (given_timezone tz) after = Some it ∧ next it = Some (times 0, states 0) ∧
    (∀ k, next (states k) = Some (times (S k), states (S k))) ∧ (∀ k, (times k < times (S k))%Z).

Lemma cron_due_times e tz after to f times fuel :
  cron_dates e tz after times → (∀ g, f = Some g → lawful_alignment g) → (after < to)%Z →
  Z.to_nat (to - times 0 + 1) < fuel →
  ∃ l, dueTimesBetween fuel (cron e tz) after to f = Some (Ok l) ∧ found_all (aligned f) to times l.
Proof.
  intros (it & states & Hparse & Hfirst & Hnext & Hgrow) Hf%aligned_lawful Hto Hfuel.
  unfold dueTimesBetween. destruct (to <=? after)%Z eqn:H; bool_to_prop; [lia|].
  unfold parsed, next_date at 1. rewrite Hparse. cbn. rewrite Hfirst.
  apply (due_loop_exact _ _ _ times states); [|done..].
  intros k. unfold next_date. by rewrite Hnext.
Qed.

(** The next due time is the first of them. *)
Lemma nextDue_interval ms after f :
  nextDue (interval ms) after f = Ok (aligned f (after + ms)%Z).
Proof. done. Qed.

(** An interval that is not positive never ends once something is due. *)
Lemma due_loop_stays ms to fuel current seen found :
  (ms ≤ 0)%Z → (current ≤ to)%Z →
  due_loop (after_interval ms) (aligned None) to fuel current current seen found = None.
Proof.
  intros Hms. revert current seen found. induction fuel as [|fuel IH]; intros current seen found Hc; [done|].
  cbn [due_loop aligned]. replace (current <=? to)%Z with true by (symmetry; by apply Z.leb_le).
  replace (to <? current)%Z with false by (symmetry; apply Z.ltb_ge; lia). cbn [negb after_interval].
  case_bool_decide; apply IH; lia.
Qed.

(** The loop over an interval schedule ends exactly when the interval is
    positive. *)
Theorem interval_loop_ends ms after to :
  (after < to)%Z →
  (∃ fuel r, dueTimesBetween fuel (interval ms) after to None = Some r) ↔ (0 < ms)%Z.
Proof.
  intros Hto. split.
  - intros (fuel & r & H). destruct (Z.lt_ge_cases 0 ms) as [|Hms]; [done|exfalso].
    unfold dueTimesBetween in H. destruct (to <=? after)%Z eqn:Hle; bool_to_prop; [lia|].
    rewrite due_loop_stays in H by lia. done.
  - intros Hms. destruct (interval_due_list ms after to None Hms) as (l & Hl & _); [done|].
    exists (S (Z.to_nat (to - after))), (Ok l). apply Hl. lia.
Qed.
(** The due times of an interval schedule are exactly the moments a whole
    number of intervals (at least one) after the start, each moved to the ledger
    close it falls on, that do not lie after the end: in order, each once, and
    found after at most one round per millisecond of the range. *)
Theorem interval_due_times ms after to f :
  (0 < ms)%Z → (∀ g, f = Some g → lawful_alignment g) →
  ∃ l, (∀ fuel, Z.to_nat (to - after) < fuel → dueTimesBetween fuel (interval ms) after to f = Some (Ok l)) ∧
    (∀ d, d ∈ l ↔ ∃ k : nat, d = aligned f (after + (1 + Z.of_nat k) * ms)%Z ∧ (d ≤ to)%Z) ∧
    StronglySorted Z.lt l.
Proof. apply interval_due_list. Qed.

(** ** Polls *)

(** The due times of an interval without alignment. *)
Definition grid (ms a t : Z) : list Z := (λ k, a + k * ms)%Z <$> seqZ 1 ((t - a) / ms).

Lemma grid_sorted ms a t : (0 < ms)%Z → StronglySorted Z.lt (grid ms a t).
Proof.
  intros Hms. unfold grid, seqZ. rewrite <-list_fmap_compose.
  assert (∀ i n, StronglySorted Z.lt (((λ k, a + k * ms)%Z ∘ λ j : nat, (Z.of_nat j + 1)%Z) <$> seq i n)) as H;
    [|apply H].
  intros i n. revert i. induction n as [|n IH]; intros i; cbn; [constructor|]. constructor; [apply IH|].
  apply Forall_fmap, Forall_forall. intros j [Hj _]%elem_of_seq. cbn. nia.
Qed.

Lemma elem_of_grid ms a t d :
  (0 < ms)%Z → d ∈ grid ms a t ↔ ∃ k : nat, d = (a + (1 + Z.of_nat k) * ms)%Z ∧ (d ≤ t)%Z.
Proof.
  intros Hms. unfold grid. rewrite list_elem_of_fmap. setoid_rewrite elem_of_seqZ.
  assert (∀ k, (k < 1 + (t - a) / ms ↔ a + k * ms ≤ t)%Z) as Hk.
  { intros k. split; intros H.
    - assert (k ≤ (t - a) / ms)%Z as Hle by lia.
      pose proof (Z.mul_div_le (t - a) ms Hms). nia.
    - assert (k ≤ (t - a) / ms)%Z; [|lia]. apply Z.div_le_lower_bound; lia. }
  split.
  - intros (k & -> & H1 & H2). apply Hk in H2. exists (Z.to_nat (k - 1)). rewrite Z2Nat.id by lia. split; [f_equal; lia|].
    done.
  - intros (k & -> & Hle). exists (1 + Z.of_nat k)%Z. split_and!; [done|lia|]. by apply Hk.
Qed.

Lemma interval_due_grid ms a t fuel :
  (0 < ms)%Z → Z.to_nat (t - a) < fuel → dueTimesBetween fuel (interval ms) a t None = Some (Ok (grid ms a t)).
Proof.
  intros Hms Hfuel. destruct (interval_due_list ms a t None Hms) as (l & Hl & Hd & Hs); [done|].
  rewrite (Hl fuel Hfuel). do 2 f_equal. apply strictly_sorted_unique; [done|by apply grid_sorted|].
  intros d. rewrite Hd, elem_of_grid by done. cbn. naive_solver.
Qed.

(** From the last due time on, the times are the same ones. *)
Lemma grid_split ms a t t' d :
  (0 < ms)%Z → (t ≤ t')%Z → last (grid ms a t) = Some d → grid ms a t' = grid ms a t ++ grid ms d t'.
Proof.
  intros Hms Ht Hlast. set (n := ((t - a) / ms)%Z).
  assert (0 < n)%Z as Hn.
  { destruct (Z.lt_ge_cases 0 n) as [|Hn]; [done|exfalso].
    unfold grid in Hlast. fold n in Hlast. by rewrite (seqZ_nil 1 n) in Hlast by lia. }
  assert (d = a + n * ms)%Z as ->.
  { unfold grid in Hlast. fold n in Hlast.
    replace n with (Z.pred n + 1)%Z in Hlast by lia. rewrite seqZ_app in Hlast by lia.
    replace (1 + Z.pred n)%Z with n in Hlast by lia.
    assert (seqZ n 1 = [n]) as Hone by done.
    rewrite Hone, fmap_app in Hlast. change ((λ k : Z, (a + k * ms)%Z) <$> [n]) with [(a + n * ms)%Z] in Hlast.
    rewrite last_snoc in Hlast. by injection Hlast as <-. }
  apply strictly_sorted_unique; [by apply grid_sorted| |].
  - assert (∀ l k : list Z, StronglySorted Z.lt l → StronglySorted Z.lt k →
      (∀ x y, x ∈ l → y ∈ k → (x < y)%Z) → StronglySorted Z.lt (l ++ k)) as Happ.
    { induction 1 as [|x l Hl IH Hx]; intros Hk Hlt; [done|]. cbn. constructor.
      - apply IH; [done|]. intros y z Hy Hz. apply Hlt; [by right|done].
      - apply Forall_app. split; [done|]. apply Forall_forall. intros y Hy. apply Hlt; [by left|done]. }
    apply Happ; [by apply grid_sorted..|].
    intros x y (k & -> & Hx)%elem_of_grid (j & -> & Hy)%elem_of_grid; [|done..].
    assert (1 + Z.of_nat k ≤ n)%Z; [|nia]. apply Z.div_le_lower_bound; lia.
  - intros x. rewrite elem_of_app, !elem_of_grid by done. pose proof (Z.mul_div_le (t - a) ms Hms) as Hmul. fold n in Hmul.
    split.
    + intros (k & -> & Hx). destruct (Z.lt_ge_cases n (1 + Z.of_nat k)) as [Hk|Hk].
      * right. exists (Z.to_nat (Z.of_nat k - n)). rewrite Z2Nat.id by lia. split; [lia|done].
      * left. exists k. split; [done|]. nia.
    + intros [(k & -> & Hx)|(k & -> & Hx)].
      * exists k. split; [done|lia].
      * exists (Z.to_nat (n + Z.of_nat k)). rewrite Z2Nat.id by lia. split; [lia|done].
Qed.

(** The caller keeps the last time fired. *)
Definition after_firing (w : WorkerState) (d : FireDecision) : WorkerState :=
  {| id := id w; worker_schedule := worker_schedule w; anchorAt := anchorAt w;
     lastFiredAt := match last (fireTimes d) with Some t => Some t | None => lastFiredAt w end;
     catchUpPolicy := catchUpPolicy w |}.

(** What one worker fires over a sequence of ledger closes. *)
Fixpoint fired_over (fuel : nat) (w : WorkerState) (closes : list Z) : option (result CronError (list Z)) :=
  match closes with
  | [] => Some (Ok [])
  | t :: closes' =>
      answer ← evaluate fuel w t;
      match answer with
      | Err e => Some (Err e)
      | Ok None => fired_over fuel w closes'
      | Ok (Some d) =>
          rest ← fired_over fuel (after_firing w d) closes';
          Some (later ← rest; Ok (fireTimes d ++ later))
      end
  end.

Lemma last_None_nil {A} (l : list A) : last l = None → l = [].
Proof. by apply last_None. Qed.

Lemma fired_over_grid ms fuel w closes :
  (0 < ms)%Z → worker_schedule w = interval ms → catchUpPolicy w = Some fire_all →
  StronglySorted Z.le closes → (∀ t, t ∈ closes → Z.to_nat (t - due_from w) < fuel) →
  fired_over fuel w closes = Some (Ok (match last closes with Some t => grid ms (due_from w) t | None => [] end)).
Proof.
  intros Hms Hsch Hpol Hsort. revert w Hsch Hpol. induction Hsort as [|t closes Hs IH Ht]; intros w Hsch Hpol Hfuel; [done|].
  cbn [fired_over]. unfold evaluate. rewrite Hsch.
  rewrite interval_due_grid by (done || apply Hfuel; by left). cbn [mbind option_bind result_bind].
  rewrite Hpol. change (default fire_once (Some fire_all)) with fire_all. cbv iota.
  assert (∀ t', t' ∈ closes → (t ≤ t')%Z) as Hle by (rewrite Forall_forall in Ht; auto).
  assert (last (t :: closes) = Some (default t (last closes))) as -> by (rewrite last_cons; by destruct (last closes)).
  destruct (grid ms (due_from w) t) as [|d0 g] eqn:Hg.
  - rewrite IH by (try done; intros t' Hin; apply Hfuel; by right).
    destruct (last closes); [done|]. simpl. by rewrite Hg.
  - cbn [mbind result_bind option_bind].
    destruct (last (d0 :: g)) as [d|] eqn:Hd; [|by apply last_None_nil in Hd].
    match goal with |- context [fired_over fuel ?w'] => assert (due_from w' = d) as Hfrom
      by (unfold due_from, after_firing; cbn [lastFiredAt fireTimes id]; by rewrite Hd) end.
    assert (due_from w ≤ d)%Z as Hge.
    { apply last_Some_elem_of in Hd. rewrite <-Hg in Hd. apply elem_of_grid in Hd as (k & -> & _); [nia|done]. }
    rewrite IH; [|done|done|].
    + cbn [mbind result_bind option_bind fireTimes]. rewrite Hfrom. do 2 f_equal.
      destruct (last closes) as [t'|] eqn:Hlast.
      * change (default t (Some t')) with t'. rewrite (grid_split ms (due_from w) t t' d), Hg; [done|done| |by rewrite Hg].
        apply Hle. by apply last_Some_elem_of.
      * change (default t None) with t. by rewrite Hg, app_nil_r.
    + intros t' Hin. rewrite Hfrom. assert (Z.to_nat (t' - due_from w) < fuel) by (apply Hfuel; by right). lia.
Qed.

(** A worker that fires all it is due, whose caller keeps the last time
    fired, fires every due time exactly once over successive polls, however the
    ledger closes fall between them: together they are the due times up to the
    last close. *)
Theorem catch_up_exact ms fuel w closes last_close :
  (0 < ms)%Z → worker_schedule w = interval ms → catchUpPolicy w = Some fire_all →
  StronglySorted Z.le (closes ++ [last_close]) →
  (∀ t, t ∈ closes ++ [last_close] → Z.to_nat (t - due_from w) < fuel) →
  ∃ fires, fired_over fuel w (closes ++ [last_close]) = Some (Ok fires) ∧ NoDup fires ∧
    ∀ d, d ∈ fires ↔ ∃ k : nat, d = (due_from w + (1 + Z.of_nat k) * ms)%Z ∧ (d ≤ last_close)%Z.
Proof.
  intros Hms Hsch Hpol Hsort Hfuel. exists (grid ms (due_from w) last_close). split_and!.
  - rewrite (fired_over_grid ms) by done. by rewrite last_snoc.
  - pose proof (grid_sorted ms (due_from w) last_close Hms) as Hg. revert Hg.
    generalize (grid ms (due_from w) last_close). induction 1 as [|x l _ IH Hx]; constructor; [|done].
    rewrite Forall_forall in Hx. intros Hin. specialize (Hx x Hin). lia.
  - intros d. by apply elem_of_grid.
Qed.

(** ** Throttling *)

(** The times of the polls that went on. *)
Fixpoint polls (nows : list Z) (v : TriggerEvaluator) : list Z :=
  match nows with
  | [] => []
  | now :: nows' =>
      let '(goes_on, v') := poll_begins now v in
      if goes_on then now :: polls nows' v' else polls nows' v'
  end.

(** Two polls that ask the ledger are the minimum apart. *)
Lemma polls_apart nows v :
  match polls nows v with
  | [] => True
  | t :: l => (∀ t0, lastPollAt v = Some t0 → minPollIntervalMs v ≤ t - t0)%Z ∧
      Sorted (λ x y, minPollIntervalMs v ≤ y - x)%Z (t :: l)
  end.
Proof.
  revert v. induction nows as [|now nows IH]; intros v; cbn; [done|].
  unfold poll_begins. set (v' := {| minPollIntervalMs := minPollIntervalMs v; lastPollAt := Some now |}).
  assert (∀ l, polls nows v' = l → Sorted (λ x y, minPollIntervalMs v ≤ y - x)%Z (now :: l)) as Hnext.
  { intros l <-. specialize (IH v'). destruct (polls nows v') as [|t l]; [by repeat constructor|].
    destruct IH as [Hfirst Hsorted]. constructor; [done|]. constructor. by apply Hfirst. }
  destruct (lastPollAt v) as [t0|] eqn:Hlast.
  - destruct (now - t0 <? minPollIntervalMs v)%Z eqn:Hlt; bool_to_prop.
    + specialize (IH v). rewrite Hlast in IH. exact IH.
    + split; [|by apply Hnext]. intros t [= <-]. lia.
  - split; [done|by apply Hnext].
Qed.
End due_times.

(** ** Concrete runs *)

(** A parser that reads no expression. *)
#[local] Instance no_cron : CronParser := {| iterator := unit; parse := λ _ _ _, None; next := λ _, None |}.

Definition demo_worker (policy : CatchUpPolicy) : WorkerState :=
  {| id := "w"; worker_schedule := interval 10; anchorAt := 0; lastFiredAt := None;
     catchUpPolicy := Some policy |}.

Example fire_all_run : fired_over 100 (demo_worker fire_all) [5; 13; 37]%Z = Some (Ok [10; 20; 30]%Z).
Proof. reflexivity. Qed.

(** Under fire-once the close that was fired on is the next start: the later due
    times move with it, here from 20 and 30 to 23 and 33, and fewer fall due. *)
Lemma fire_once_moves_the_grid :
  fired_over 100 (demo_worker fire_once) [13; 22; 37]%Z = Some (Ok [13; 37]%Z) ∧
  fired_over 100 (demo_worker fire_all) [13; 22; 37]%Z = Some (Ok [10; 20; 30]%Z).
Proof. split; reflexivity. Qed.

(** A poll whose ledger source fails counts as one: the next poll within the
    minimum interval answers nothing. *)
Lemma failed_poll_counts :
  let '(first, v) := poll 100 1000 None [demo_worker fire_all] (new_evaluator None) in
  first = Some (Err LedgerSourceFailed) ∧
  (poll 100 2000 (Some 50%Z) [demo_worker fire_all] v).1 = Some (Ok []).
Proof. split; reflexivity. Qed.

(** Aligned to closes every 5: several times that share a close count once. *)
Definition next_close (t : Z) : Z := (5 * ((t + 4) / 5))%Z.

Lemma next_close_lawful : lawful_alignment next_close.
Proof.
  unfold next_close. split.
  - intros t. pose proof (Z.div_mod (t + 4) 5). pose proof (Z.mod_pos_bound (t + 4) 5). lia.
  - intros t u Hle. assert ((t + 4) / 5 ≤ (u + 4) / 5)%Z by (apply Z.div_le_mono; lia). lia.
Qed.

Example aligned_run :
  dueTimesBetween 100 (interval 2) 0 17 (Some next_close) = Some (Ok [5; 10; 15]%Z).
Proof. reflexivity. Qed.

Lemma interval_due_times_witness :
  ∃ l, (∀ fuel, 17 < fuel → dueTimesBetween fuel (interval 2) 0 17 (Some next_close) = Some (Ok l)) ∧
    (∀ d, d ∈ l ↔ ∃ k : nat, d = next_close (0 + (1 + Z.of_nat k) * 2)%Z ∧ (d ≤ 17)%Z) ∧
    StronglySorted Z.lt l.
Proof.
  apply (interval_due_times 2 0 17 (Some next_close)); [lia|].
  intros g [= <-]. apply next_close_lawful.
Defined.

Lemma interval_loop_ends_witness :
  (∃ fuel r, dueTimesBetween fuel (interval 0) 0 10 None = Some r) ↔ (0 < 0)%Z.
Proof. apply (interval_loop_ends 0 0 10). lia. Defined.

Lemma catch_up_exact_witness :
  ∃ fires, fired_over 100 (demo_worker fire_all) ([5; 13] ++ [37])%Z = Some (Ok fires) ∧ NoDup fires ∧
    ∀ d, d ∈ fires ↔ ∃ k : nat, d = (0 + (1 + Z.of_nat k) * 10)%Z ∧ (d ≤ 37)%Z.
Proof.
  apply (catch_up_exact 10 100 (demo_worker fire_all) [5; 13]%Z 37); [lia|reflexivity..| |].
  - repeat constructor; lia.
  - intros t Ht. repeat (apply elem_of_cons in Ht as [->|Ht]; [vm_compute; lia|]).
    by apply not_elem_of_nil in Ht.
Defined.
