(* ===== verification/ComputationTrigger.v ===== *)
(** * Computation triggers (packages/worker-core/src/triggers/attestation.ts,
    computationTrigger.ts)

    Which attested occurrences open a window, and which are called unverifiable.
    The window and the reasons of verification/workerFireVerdict.ts are here.
    Collation ([localeCompare]) is an argument; the date used for expiry is read
    once per call. *)

From Stdlib Require Import Sorted.
From S2P Require Import Prelude.
From S2P Require Import JsValue.
From S2P Require Import Decimal.
From S2P Require Import CanonicalJson.
From S2P Require Import Attestation.

(** ** Windows and reasons *)

Record WorkerVerdictWindow := {
  windowId : string;
  workerId : string;
  conditionLedger : Z;
  deadlineLedger : Z;
}.

Inductive WorkerVerdictReason :=
  | rejected_early_call | before_activation | window_already_open
  | missing_ledger | no_attestation | attestation_invalid | attestation_window_mismatch
  | attestation_unretrievable.

#[export] Instance WorkerVerdictWindow_eq_dec : EqDecision WorkerVerdictWindow.
Proof. solve_decision. Defined.
#[export] Instance WorkerVerdictReason_eq_dec : EqDecision WorkerVerdictReason.
Proof. solve_decision. Defined.

(** ** Verifying one attestation *)

Definition COMPUTATION_ATTESTATION_DOMAIN : string := "orbital-computation-attestation-v1".

Inductive ComputationAttestationInvalidReason :=
  | comp_bad_signature | signer_not_declared | window_mismatch | condition_mismatch | comp_expired.

#[export] Instance InvalidReason_eq_dec : EqDecision ComputationAttestationInvalidReason.
Proof. solve_decision. Defined.

Record VerifyComputationAttestationOptions := {
  declaredSources : list string;
  expectedWindowId : string;
  expectedConditionId : string;
  verify_now : Z;
}.

Section verification.
Context (fraction_to_string : Z → nat → string).
Context (sha256 : string → string).
Context {keys : StellarKeys}.
Context (date_parse : string → option Z).
Context (localeCompare : string → string → Z).

Definition signComputationAttestation (document : jsval) (attesterSecret : string)
    : result AttestationSigningError AttestationEnvelope :=
  signAttestation fraction_to_string sha256 document attesterSecret COMPUTATION_ATTESTATION_DOMAIN.

(** [None] is valid. *)
Definition verifyComputationAttestation (e : AttestationEnvelope) (o : VerifyComputationAttestationOptions)
    : result js_error (option ComputationAttestationInvalidReason) :=
  verdict ← verifyAttestation fraction_to_string sha256 date_parse e
    {| expectedWasmHash := None; domain := COMPUTATION_ATTESTATION_DOMAIN; now := verify_now o;
       checkExpiry := false |};
  Ok (match verdict with
      | Invalid _ => Some comp_bad_signature
      | Valid =>
          if negb (existsb (String.eqb (publicKey e)) (declaredSources o)) then Some signer_not_declared
          else if negb (is_str (prop (payload e) "windowId") (expectedWindowId o)) then Some window_mismatch
          else if negb (is_str (prop (payload e) "conditionId") (expectedConditionId o))
          then Some condition_mismatch
          else match attestationExpiryProblem date_parse (payload e) (verify_now o) with
               | Some _ => Some comp_expired
               | None => None
               end
      end).

(** ** The planner *)

Record ComputationTriggerDefinition := {
  def_workerId : string;
  conditionId : string;
  def_declaredSources : list string;
  latencyBoundLedgers : jsnum;
  activationLedger : jsnum;
}.

Record ComputationConditionOccurrence := {
  attestation : option AttestationEnvelope;
  ledger : Z;
  occurrenceId : string;
}.

(** The definition after the registration's checks. *)
Record ComputationTriggerPlanner := {
  planner_workerId : string;
  planner_conditionId : string;
  planner_sources : list string;
  planner_latency : Z;
  planner_activation : Z;
}.

Definition ComputationUnverifiableResult := (WorkerVerdictWindow * WorkerVerdictReason)%type.

Record ComputationPlanResult := {
  windows : list WorkerVerdictWindow;
  unverifiable : list ComputationUnverifiableResult;
}.

(** [a.ledger - b.ledger || a.occurrenceId.localeCompare(b.occurrenceId)] *)
Definition earlier (a b : ComputationConditionOccurrence) : bool :=
  let byLedger := (ledger a - ledger b)%Z in
  if (byLedger =? 0)%Z then (localeCompare (occurrenceId a) (occurrenceId b) <=? 0)%Z
  else (byLedger <=? 0)%Z.

Definition window_of (p : ComputationTriggerPlanner) (c : ComputationConditionOccurrence)
    : WorkerVerdictWindow := {|
  windowId := planner_workerId p +:+ ":c:" +:+ occurrenceId c;
  workerId := planner_workerId p;
  conditionLedger := ledger c;
  deadlineLedger := ledger c + planner_latency p
|}.

Definition add_window (w : WorkerVerdictWindow) (r : ComputationPlanResult) : ComputationPlanResult :=
  {| windows := windows r ++ [w]; unverifiable := unverifiable r |}.
Definition add_unverifiable (u : ComputationUnverifiableResult) (r : ComputationPlanResult)
    : ComputationPlanResult :=
  {| windows := windows r; unverifiable := unverifiable r ++ [u] |}.

(** One occurrence of the loop, after the checks that skip it. *)
Definition resolve_occurrence (p : ComputationTriggerPlanner) (now : Z)
    (c : ComputationConditionOccurrence) (r : ComputationPlanResult)
    : result js_error ComputationPlanResult :=
  let w := window_of p c in
  match attestation c with
  | None => Ok (add_unverifiable (w, attestation_unretrievable) r)
  | Some e =>
      verdict ← verifyComputationAttestation e
        {| declaredSources := planner_sources p; expectedWindowId := windowId w;
           expectedConditionId := planner_conditionId p; verify_now := now |};
      Ok (match verdict with
          | Some window_mismatch => add_unverifiable (w, attestation_window_mismatch) r
          | Some _ => add_unverifiable (w, attestation_invalid) r
          | None => add_window w r
          end)
  end.

Fixpoint plan_ordered (p : ComputationTriggerPlanner) (now : Z) (seen : list string)
    (ordered : list ComputationConditionOccurrence) (r : ComputationPlanResult)
    : result js_error ComputationPlanResult :=
  match ordered with
  | [] => Ok r
  | c :: rest =>
      if bool_decide (occurrenceId c ∈ seen) then plan_ordered p now seen rest r
      else if (ledger c <? planner_activation p)%Z then plan_ordered p now (occurrenceId c :: seen) rest r
      else
        r' ← resolve_occurrence p now c r;
        plan_ordered p now (occurrenceId c :: seen) rest r'
  end.

Definition plan (p : ComputationTriggerPlanner) (occurrences : list ComputationConditionOccurrence) (now : Z)
    : result js_error ComputationPlanResult :=
  plan_ordered p now [] (sort_with earlier occurrences) {| windows := []; unverifiable := [] |}.

(** ** Registration *)

Inductive RegisterError :=
  | WorkerIdRequired | ConditionIdRequired | NoDeclaredSource
  | LatencyBoundNotPositive | ActivationLedgerInvalid.

(** [!s || s.trim().length === 0] *)
Definition blank_text (s : string) : bool := String.eqb (trim s) "".

Definition error_if {A} (c : bool) (e : A) : list A := if c then [e] else [].

Definition registerComputationTrigger (d : ComputationTriggerDefinition)
    : result (list RegisterError) ComputationTriggerPlanner :=
  let latency := as_integer (latencyBoundLedgers d) in
  let activation := as_integer (activationLedger d) in
  let errors :=
    error_if (blank_text (def_workerId d)) WorkerIdRequired ++
    error_if (blank_text (conditionId d)) ConditionIdRequired ++
    error_if (bool_decide (def_declaredSources d = [])) NoDeclaredSource ++
    error_if (match latency with Some n => (n <=? 0)%Z | None => true end) LatencyBoundNotPositive ++
    error_if (match activation with Some n => (n <? 0)%Z | None => true end) ActivationLedgerInvalid in
  match errors, latency, activation with
  | [], Some n, Some m =>
      Ok {| planner_workerId := def_workerId d; planner_conditionId := conditionId d;
            planner_sources := def_declaredSources d; planner_latency := n; planner_activation := m |}
  | _, _, _ => Err errors
  end.

(** ** What is promised *)

(** Evidence for the occurrence: signed in the domain of computations by a
    declared source, for this window and this condition, not expired. *)
Definition signed_by_source (p : ComputationTriggerPlanner) (e : AttestationEnvelope) : Prop :=
  well_signed fraction_to_string sha256 e COMPUTATION_ATTESTATION_DOMAIN ∧
  publicKey e ∈ planner_sources p.

Definition attested (p : ComputationTriggerPlanner) (now : Z) (c : ComputationConditionOccurrence)
    : Prop :=
  ∃ e, attestation c = Some e ∧ signed_by_source p e ∧
    prop (payload e) "windowId" = JStr (windowId (window_of p c)) ∧
    prop (payload e) "conditionId" = JStr (planner_conditionId p) ∧
    unexpired date_parse (payload e) now.

(** Why an occurrence opens no window. *)
Definition defect (p : ComputationTriggerPlanner) (now : Z) (c : ComputationConditionOccurrence)
    (reason : WorkerVerdictReason) : Prop :=
  match attestation c with
  | None => reason = attestation_unretrievable
  | Some e =>
      let elsewhere := prop (payload e) "windowId" ≠ JStr (windowId (window_of p c)) in
      (reason = attestation_window_mismatch ∧ signed_by_source p e ∧ elsewhere) ∨
      (reason = attestation_invalid ∧ ¬ (signed_by_source p e ∧ elsewhere) ∧ ¬ attested p now c)
  end.

(** The occurrences that count: the first sighting of each identity, from the
    activation on. *)
Fixpoint first_sightings (seen : list string) (l : list ComputationConditionOccurrence)
    : list ComputationConditionOccurrence :=
  match l with
  | [] => []
  | c :: l' =>
      if bool_decide (occurrenceId c ∈ seen) then first_sightings seen l'
      else c :: first_sightings (occurrenceId c :: seen) l'
  end.

Definition considered (p : ComputationTriggerPlanner) (occurrences : list ComputationConditionOccurrence) :=
  List.filter (λ c, (planner_activation p <=? ledger c)%Z)
    (first_sightings [] (sort_with earlier occurrences)).

Lemma existsb_eqb_elem (s : string) l : existsb (String.eqb s) l = true ↔ s ∈ l.
Proof.
  rewrite existsb_Exists. setoid_rewrite String.eqb_eq. split; [by intros (? & ? & ->)|eauto].
Qed.

Lemma verify_computation_spec e o v :
  verifyComputationAttestation e o = Ok v →
  let sig := well_signed fraction_to_string sha256 e COMPUTATION_ATTESTATION_DOMAIN in
  (v = None ↔ sig ∧ publicKey e ∈ declaredSources o ∧
    prop (payload e) "windowId" = JStr (expectedWindowId o) ∧
    prop (payload e) "conditionId" = JStr (expectedConditionId o) ∧
    unexpired date_parse (payload e) (verify_now o)) ∧
  (v = Some window_mismatch ↔ sig ∧ publicKey e ∈ declaredSources o ∧
    prop (payload e) "windowId" ≠ JStr (expectedWindowId o)).
Proof.
  intros (verdict & Hv & Hres)%result_bind_Ok sig. injection Hres as <-.
  assert (verdict = Valid ↔ sig) as Hsig.
  { unfold sig. destruct verdict.
    - apply verify_Valid in Hv as (Hs & _). done.
    - split; [done|]. intros Hs. exfalso.
      match type of Hv with verifyAttestation _ _ _ _ ?o = _ =>
        assert (verifyAttestation fraction_to_string sha256 date_parse e o = Ok Valid) as H;
        [apply verify_Valid; split; [done|]; by split|congruence] end. }
  rewrite <-existsb_eqb_elem, <-!is_str_true.
  destruct verdict; [|split; (split; [done|]); intros [H _]; by apply Hsig in H].
  destruct Hsig as [Hsig _]. specialize (Hsig eq_refl).
  destruct (existsb _ _); cbn [negb]; [|intuition congruence].
  destruct (is_str (prop (payload e) "windowId") _); cbn [negb]; [|intuition congruence].
  destruct (is_str (prop (payload e) "conditionId") _); cbn [negb]; [|intuition congruence].
  unfold unexpired. destruct (attestationExpiryProblem _ _ _); intuition congruence.
Qed.

Lemma resolve_occurrence_spec p now c r r' :
  resolve_occurrence p now c r = Ok r' →
  (r' = add_window (window_of p c) r ∧ attested p now c) ∨
  (∃ reason, r' = add_unverifiable (window_of p c, reason) r ∧ ¬ attested p now c ∧ defect p now c reason).
Proof.
  unfold resolve_occurrence, defect. destruct (attestation c) as [e|] eqn:Hc.
  2:{ intros [= <-]. right. exists attestation_unretrievable. split_and!; [done| |done].
      intros (e & He & _). congruence. }
  intros (v & Hv%verify_computation_spec & [= <-])%result_bind_Ok. cbn in Hv.
  destruct Hv as [Hok Hmis].
  assert (v = None ↔ attested p now c) as Hatt.
  { rewrite Hok. unfold attested, signed_by_source. split.
    - intros (? & ? & ? & ? & ?). by exists e.
    - intros (e' & He & [? ?] & ? & ? & ?). rewrite Hc in He. by injection He as <-. }
  assert (v = Some window_mismatch ↔ signed_by_source p e ∧
    prop (payload e) "windowId" ≠ JStr (windowId (window_of p c))) as Hmis'
    by (rewrite Hmis; unfold signed_by_source; split; [by intros (? & ? & ?)|by intros [[? ?] ?]]).
  destruct v as [why|]; [right|left; split; [done|by apply Hatt]].
  destruct (decide (why = window_mismatch)) as [->|Hwhy].
  - exists attestation_window_mismatch. split_and!; [done|by rewrite <-Hatt|].
    left. split; [done|]. by apply Hmis'.
  - exists attestation_invalid. split_and!; [by destruct why|by rewrite <-Hatt|].
    right. split_and!; [done| |by rewrite <-Hatt]. rewrite <-Hmis'. by intros [= ->].
Qed.

Lemma defect_unique p now c r r' : defect p now c r → defect p now c r' → r = r'.
Proof.
  unfold defect. destruct (attestation c); [|by intros -> ->].
  intros [(-> & ? & ?)|(-> & ? & ?)] [(-> & ? & ?)|(-> & ? & ?)]; tauto.
Qed.

(** The plan of the occurrences [cs], added to [r]. *)
Definition planned (p : ComputationTriggerPlanner) (now : Z) (cs : list ComputationConditionOccurrence)
    (r r' : ComputationPlanResult) : Prop :=
  (∀ w, w ∈ windows r' ↔ w ∈ windows r ∨ ∃ c, c ∈ cs ∧ w = window_of p c ∧ attested p now c) ∧
  (∀ w reason, (w, reason) ∈ unverifiable r' ↔ (w, reason) ∈ unverifiable r ∨
    ∃ c, c ∈ cs ∧ w = window_of p c ∧ ¬ attested p now c ∧ defect p now c reason) ∧
  windows r' ++ (unverifiable r').*1 ≡ₚ windows r ++ (unverifiable r).*1 ++ (window_of p <$> cs).

Lemma planned_nil p now r : planned p now [] r r.
Proof.
  unfold planned. cbn. rewrite app_nil_r. split_and!; [| |done].
  - intros w. split; [by left|]. intros [|(c & ?%not_elem_of_nil & _)]; done.
  - intros w reason. split; [by left|]. intros [|(c & ?%not_elem_of_nil & _)]; done.
Qed.

Lemma planned_cons p now c cs r r1 r' :
  resolve_occurrence p now c r = Ok r1 → planned p now cs r1 r' → planned p now (c :: cs) r r'.
Proof.
  intros H (Hw & Hu & Hp). apply resolve_occurrence_spec in H as [[-> Ha]|(reason & -> & Ha & Hd)];
    cbn [add_window add_unverifiable windows unverifiable] in Hw, Hu, Hp; unfold planned; split_and!.
  - intros w. rewrite Hw, elem_of_app, list_elem_of_singleton. setoid_rewrite elem_of_cons. naive_solver.
  - intros w reason. rewrite Hu. setoid_rewrite elem_of_cons. naive_solver.
  - rewrite Hp. cbn. rewrite <-!app_assoc. apply Permutation_app_head. cbn. apply Permutation_middle.
  - intros w. rewrite Hw. setoid_rewrite elem_of_cons. naive_solver.
  - intros w reason'. rewrite Hu, elem_of_app, list_elem_of_singleton. setoid_rewrite elem_of_cons. split.
    + intros [[?|[= -> ->]]|(d & ? & ? & ? & ?)]; [by left| |].
      * right. exists c. auto.
      * right. exists d. auto.
    + intros [?|(d & [->|?] & -> & ? & Hd')]; [by left; left| |].
      * left. right. f_equal. by eapply defect_unique.
      * right. exists d. auto.
  - rewrite Hp, fmap_app. cbn. rewrite <-!app_assoc. done.
Qed.

Lemma plan_ordered_spec p now seen l r r' :
  plan_ordered p now seen l r = Ok r' →
  planned p now (List.filter (λ c, (planner_activation p <=? ledger c)%Z) (first_sightings seen l)) r r'.
Proof.
  revert seen r. induction l as [|c l IH]; intros seen r; cbn [plan_ordered first_sightings].
  { intros [= <-]. apply planned_nil. }
  case_bool_decide as Hc; [apply IH|]. cbn [List.filter]. rewrite Z.leb_antisym.
  destruct (ledger c <? planner_activation p)%Z; cbn [negb]; [apply IH|].
  intros (r1 & Hr1 & H)%result_bind_Ok. eapply planned_cons; [exact Hr1|by apply IH].
Qed.

(** ** Sightings *)

Lemma first_sightings_elem seen l c : c ∈ first_sightings seen l → c ∈ l ∧ occurrenceId c ∉ seen.
Proof.
  revert seen. induction l as [|d l IH]; intros seen; cbn; [by intros ?%not_elem_of_nil|].
  case_bool_decide as Hd.
  - intros [? ?]%IH. split; [by right|done].
  - intros [->|[Hin Hk]%IH]%elem_of_cons; [split; [by left|done]|].
    split; [by right|]. intros H. apply Hk. by right.
Qed.

Lemma first_sightings_NoDup seen l : NoDup (occurrenceId <$> first_sightings seen l).
Proof.
  revert seen. induction l as [|d l IH]; intros seen; cbn; [constructor|].
  case_bool_decide; [apply IH|]. cbn. constructor; [|apply IH].
  intros (c & Hk & [_ Hc]%first_sightings_elem)%list_elem_of_fmap. apply Hc. rewrite <-Hk. by left.
Qed.

Lemma first_sightings_complete seen l c :
  c ∈ l → occurrenceId c ∉ seen → ∃ d, d ∈ first_sightings seen l ∧ occurrenceId d = occurrenceId c.
Proof.
  revert seen. induction l as [|d l IH]; intros seen; cbn; [by intros ?%not_elem_of_nil|].
  intros [->|Hin]%elem_of_cons Hk.
  - rewrite bool_decide_eq_false_2 by done. exists d. split; [by left|done].
  - case_bool_decide as Hd; [by apply IH|].
    destruct (decide (occurrenceId c = occurrenceId d)) as [Heq|Hne]; [exists d; split; [by left|done]|].
    destruct (IH (occurrenceId d :: seen) Hin) as (x & Hx & Hxk).
    + by intros [?|?]%elem_of_cons.
    + exists x. split; [by right|done].
Qed.

(** In a sorted list the first sighting is the least. *)
Lemma first_sightings_least seen l c d :
  StronglySorted (λ x y, earlier x y = true) l → c ∈ first_sightings seen l → d ∈ l →
  occurrenceId d = occurrenceId c → c = d ∨ earlier c d = true.
Proof.
  intros Hs. revert seen. induction Hs as [|x l Hs IH Hx]; intros seen; cbn; [by intros ?%not_elem_of_nil|].
  rewrite Forall_forall in Hx. case_bool_decide as Hseen.
  - intros Hc [->|Hd]%elem_of_cons Heq; [|by apply (IH seen)].
    exfalso. apply first_sightings_elem in Hc as [_ Hc]. apply Hc. by rewrite <-Heq.
  - intros [->|Hc]%elem_of_cons [->|Hd]%elem_of_cons Heq; [by left|right; by apply Hx| |by apply (IH (occurrenceId x :: seen))].
    exfalso. apply first_sightings_elem in Hc as [_ Hc]. apply Hc. rewrite Heq. by left.
Qed.

Class Collation : Prop := {
  collate_total s t : (localeCompare s t ≤ 0)%Z ∨ (localeCompare t s ≤ 0)%Z;
  collate_trans s t u : (localeCompare s t ≤ 0)%Z → (localeCompare t u ≤ 0)%Z → (localeCompare s u ≤ 0)%Z;
}.

Lemma earlier_occurrence a b :
  earlier a b = true ↔ (ledger a < ledger b)%Z ∨
    ledger a = ledger b ∧ (localeCompare (occurrenceId a) (occurrenceId b) ≤ 0)%Z.
Proof.
  unfold earlier. destruct (ledger a - ledger b =? 0)%Z eqn:H; bool_to_prop; rewrite Z.leb_le; lia.
Qed.

Lemma considered_spec `{HC : !Collation} p occs c :
  c ∈ considered p occs →
  c ∈ occs ∧ (planner_activation p ≤ ledger c)%Z ∧
  ∀ d, d ∈ occs → occurrenceId d = occurrenceId c → (ledger c ≤ ledger d)%Z.
Proof.
  unfold considered. rewrite list_elem_of_In, filter_In, <-list_elem_of_In, Z.leb_le. intros [Hc Hact].
  pose proof (first_sightings_elem _ _ _ Hc) as [Hin _]. rewrite sort_with_perm in Hin.
  split_and!; [done..|]. intros d Hd Heq.
  assert (c = d ∨ earlier c d = true) as [->|H]; [|done|apply earlier_occurrence in H; lia].
  eapply first_sightings_least; [|exact Hc|by rewrite sort_with_perm|done].
  apply sort_with_sorted.
  - intros x y. rewrite !earlier_occurrence. destruct (collate_total (occurrenceId x) (occurrenceId y)); lia.
  - intros x y z. rewrite !earlier_occurrence. intros [?|[? ?]] [?|[? ?]]; try (left; lia).
    right. split; [lia|]. by eapply collate_trans.
Qed.

(** Every occurrence at or after the activation, counted at its first
    sighting, is planned exactly once: it opens a window exactly when it carries
    an attestation signed for computations by a declared source, bound to this
    very window and condition and not expired; otherwise it is called unverifiable
    with the reason that applies. *)
Theorem computation_windows_attested `{HC : !Collation} p occs now r :
  plan p occs now = Ok r →
  let cs := considered p occs in
  (∀ w, w ∈ windows r ↔ ∃ c, c ∈ cs ∧ w = window_of p c ∧ attested p now c) ∧
  (∀ w reason, (w, reason) ∈ unverifiable r ↔
    ∃ c, c ∈ cs ∧ w = window_of p c ∧ ¬ attested p now c ∧ defect p now c reason) ∧
  NoDup (windowId <$> (windows r ++ (unverifiable r).*1)) ∧
  (∀ c, c ∈ cs → c ∈ occs ∧ (planner_activation p ≤ ledger c)%Z ∧
    ∀ d, d ∈ occs → occurrenceId d = occurrenceId c → (ledger c ≤ ledger d)%Z) ∧
  (∀ c, c ∈ occs → ∃ d, occurrenceId d = occurrenceId c ∧
    (d ∈ cs ∨ d ∈ occs ∧ (ledger d < planner_activation p)%Z)).
Proof.
  intros Hplan cs. apply plan_ordered_spec in Hplan as (Hw & Hu & Hp). cbn in Hw, Hu, Hp.
  fold (considered p occs) in Hw, Hu, Hp. fold cs in Hw, Hu, Hp. split_and!.
  - intros w. rewrite Hw. split; [by intros [?%not_elem_of_nil|]|by right].
  - intros w reason. rewrite Hu. split; [by intros [?%not_elem_of_nil|]|by right].
  - rewrite Hp, <-list_fmap_compose.
    assert (windowId ∘ window_of p = (λ id, planner_workerId p +:+ ":c:" +:+ id) ∘ occurrenceId) as -> by done.
    rewrite list_fmap_compose. apply NoDup_fmap_2.
    + intros x y Heq. apply (inj (String.append (planner_workerId p))) in Heq. by injection Heq.
    + unfold cs, considered. pose proof (first_sightings_NoDup [] (sort_with earlier occs)) as Hnd. revert Hnd.
      generalize (λ c, (planner_activation p <=? ledger c)%Z).
      induction (first_sightings _ _) as [|c l IH]; intros f Hnd; cbn; [constructor|].
      cbn in Hnd. apply NoDup_cons in Hnd as [Hc Hnd]. destruct (f c); [|by apply IH].
      cbn. constructor; [|by apply IH]. contradict Hc.
      apply list_elem_of_fmap in Hc as (d & Hk & Hd). rewrite Hk. apply list_elem_of_fmap_2.
      apply list_elem_of_In in Hd. apply filter_In in Hd as [Hd _]. by apply list_elem_of_In.
  - intros c Hc. by apply considered_spec.
  - intros c Hc. destruct (first_sightings_complete [] (sort_with earlier occs) c) as (d & Hd & Hk);
      [by rewrite sort_with_perm|by apply not_elem_of_nil|].
    exists d. split; [done|]. unfold cs, considered.
    destruct (planner_activation p <=? ledger d)%Z eqn:Hact.
    + left. apply list_elem_of_In, filter_In. split; [by apply list_elem_of_In|done].
    + right. bool_to_prop. apply first_sightings_elem in Hd as [Hd _]. by rewrite sort_with_perm in Hd.
Qed.
End verification.

(** ** Registration *)

(** What is refused, and why. *)
Lemma registered_exactly d :
  (∃ p, registerComputationTrigger d = Ok p) ↔
  blank_text (def_workerId d) = false ∧ blank_text (conditionId d) = false ∧
  def_declaredSources d ≠ [] ∧
  (∃ n, as_integer (latencyBoundLedgers d) = Some n ∧ (0 < n)%Z) ∧
  (∃ m, as_integer (activationLedger d) = Some m ∧ (0 ≤ m)%Z).
Proof.
  unfold registerComputationTrigger, error_if. split.
  - intros [p H]. destruct (blank_text (def_workerId d)); [done|]. destruct (blank_text (conditionId d)); [done|].
    case_bool_decide; [done|].
    destruct (as_integer (latencyBoundLedgers d)) as [n|]; [|done]. destruct (n <=? 0)%Z eqn:Hn; [done|].
    destruct (as_integer (activationLedger d)) as [m|]; [|done]. destruct (m <? 0)%Z eqn:Hm; [done|].
    bool_to_prop. split_and!; [done..|exists n|exists m]; (split; [done|lia]).
  - intros (-> & -> & Hs & (n & -> & Hn) & (m & -> & Hm)).
    rewrite bool_decide_eq_false_2 by done.
    replace (n <=? 0)%Z with false by (symmetry; apply Z.leb_gt; lia).
    replace (m <? 0)%Z with false by (symmetry; apply Z.ltb_ge; lia). cbn. eauto.
Qed.

(** ** Concrete runs *)

Definition code_order (s t : string) : Z :=
  match (s ?= t)%string with Lt => -1 | Eq => 0 | Gt => 1 end.

Lemma code_order_leb s t : (code_order s t ≤ 0)%Z ↔ String.le s t.
Proof. unfold code_order, String.le, String.leb. by destruct (s ?= t)%string. Qed.

#[export] Instance code_order_collation : Collation code_order.
Proof.
  split.
  - intros s t. rewrite !code_order_leb. destruct (String.leb_total s t) as [H|H]; unfold String.le; rewrite H; auto.
  - intros s t u. rewrite !code_order_leb. intros ? ?. by trans t.
Qed.

Definition demo_planner : ComputationTriggerPlanner :=
  {| planner_workerId := "w"; planner_conditionId := "price"; planner_sources := ["GA"];
     planner_latency := 5; planner_activation := 100 |}.

Definition demo_attestation (window : string) (more : list (string * jsval)) : AttestationEnvelope :=
  let document := JObj ([("attester", JStr "GA"); ("windowId", JStr window); ("conditionId", JStr "price")] ++ more) in
  {| env_v := JNum (jint 1); payload := document; publicKey := "GA";
     signature := match attestationSigningDigest dyadic_text id document COMPUTATION_ATTESTATION_DOMAIN with
                  | Ok d => d | Err _ => "" end |}.

Definition sighting (l : Z) (oid : string) (e : option AttestationEnvelope) : ComputationConditionOccurrence :=
  {| attestation := e; ledger := l; occurrenceId := oid |}.

Definition demo_occurrences : list ComputationConditionOccurrence :=
  [sighting 120 "b" (Some (demo_attestation "w:c:a" []));
   sighting 110 "a" (Some (demo_attestation "w:c:a" []));
   sighting 115 "a" None;
   sighting 130 "c" None;
   sighting 90 "d" (Some (demo_attestation "w:c:d" []))].

#[local] Notation demo_plan := (@plan dyadic_text id (demo_keys (λ _, true)) demo_dates code_order).

(** The copy for another window is misbound, the occurrence before the activation
    and the second sighting are passed over. *)
Example demo_plan_run :
  match demo_plan demo_planner demo_occurrences 0 with
  | Ok r => Some (windowId <$> windows r, (λ u, (windowId u.1, u.2)) <$> unverifiable r)
  | Err _ => None
  end = Some (["w:c:a"], [("w:c:b", attestation_window_mismatch); ("w:c:c", attestation_unretrievable)]).
Proof. vm_compute. reflexivity. Qed.

(** The worker an attestation names is never read: only the window's identity binds
    it. *)
Lemma attested_worker_unread :
  match demo_plan demo_planner
          [sighting 110 "a" (Some (demo_attestation "w:c:a" [("workerId", JStr "another worker")]))] 0 with
  | Ok r => windowId <$> windows r
  | Err _ => []
  end = ["w:c:a"].
Proof. vm_compute. reflexivity. Qed.

(** The same occurrences are planned differently once the attestation has expired
    on the clock, which is what [plan] reads when no date is given. *)
Lemma clock_decides :
  let es := [sighting 110 "a" (Some (demo_attestation "w:c:a" [("expiresAt", JStr "2026-07-04T00:00:00Z")]))] in
  match demo_plan demo_planner es 1783123199999, demo_plan demo_planner es 1783123200000 with
  | Ok r, Ok r' => (length (windows r), snd <$> unverifiable r, length (windows r'), snd <$> unverifiable r')
  | _, _ => (0, [], 0, [])
  end = (1, [], 0, [attestation_invalid]).
Proof. vm_compute. reflexivity. Qed.

(** Two workers can name one window. *)
Lemma window_ids_collide :
  windowId (window_of demo_planner (sighting 0 "x:c:y" None)) =
  windowId (window_of {| planner_workerId := "w:c:x"; planner_conditionId := "price"; planner_sources := [];
                         planner_latency := 5; planner_activation := 0 |} (sighting 0 "y" None)).
Proof. reflexivity. Qed.

Lemma computation_windows_attested_witness :
  ∃ r, demo_plan demo_planner demo_occurrences 0 = Ok r ∧
    NoDup (windowId <$> (windows r ++ (unverifiable r).*1)).
Proof.
  destruct (demo_plan demo_planner demo_occurrences 0) as [r|] eqn:H; [|vm_compute in H; discriminate H].
  exists r. split; [reflexivity|].
  apply (@computation_windows_attested dyadic_text id (demo_keys (λ _, true)) demo_dates code_order
    code_order_collation demo_planner demo_occurrences 0 r H).
Defined.
