(* ===== verification/WorkerVerdicts.v ===== *)
(** * Worker verdicts (packages/worker-core/src/verification/workerFireVerdict.ts,
    WorkerVerificationEngine.ts)

    Did the worker's invocation follow in the window it was owed.  The windows are
    those of a schedule ([Schedule]), of an event trigger ([Triggers]) or of a
    computation trigger ([ComputationTrigger]).  Close times are milliseconds. *)

From Stdlib Require Import Sorted.
From S2P Require Import Prelude.
From S2P Require Import JsValue.
From S2P Require Import EventTypes.
From S2P Require Import Normalize.
From S2P Require Import Route.
From S2P Require Import Claims.
From S2P Require Import Triggers.
From S2P Require Import Schedule.
From S2P Require Import Attestation.
From S2P Require Import ComputationTrigger.

(** ** Data *)

Inductive WorkerFireVerdictStatus := pending | not_due | fired | late | missed | unverifiable_status.

#[export] Instance WorkerFireVerdictStatus_eq_dec : EqDecision WorkerFireVerdictStatus.
Proof. solve_decision. Defined.

Definition EXCLUDED_FROM_SCORING : list WorkerFireVerdictStatus := [pending; unverifiable_status].

Record WorkerFireVerdict := {
  window : WorkerVerdictWindow;
  status : WorkerFireVerdictStatus;
  reason : option WorkerVerdictReason;
  invocationLedger : option Z;
  invocationTxHash : option string;
  latencyLedgers : option Z;
}.

#[export] Instance WorkerFireVerdict_eq_dec : EqDecision WorkerFireVerdict.
Proof. solve_decision. Defined.

(** The manifest's schedule: a timezone is always there. *)
Inductive ManifestSchedule :=
  | m_interval (timezone : string) (everyMs : Z)
  | m_cron (timezone expression : string).

Inductive Trigger :=
  | TimeTrigger (schedule : ManifestSchedule)
  | EventTrigger (contractId eventTopic : string)
  | ComputationTrigger (description : string).

Record WorkerDefinition := {
  worker_id : string;             (** [id] *)
  targetContractId : string;
  functionName : string;
  trigger : Trigger;
}.

Inductive VerificationError :=
  | WrongTrigger
  | RangeNotCovered
  | ScheduleError (e : CronError)
  | NativeError (e : js_error).

Definition toSchedulerSchedule (s : ManifestSchedule) : Schedule :=
  match s with
  | m_interval _ everyMs => interval everyMs
  | m_cron timezone expression => cron expression (Some timezone)
  end.

(** ** Ledgers and close times *)

Record LedgerCloseTimeIndex := {
  closeTimeOfLedger : Z → option Z;
  firstLedgerAtOrAfter : Z → option Z;
}.

(** Entries [(ledger, closeTime)]. *)
Definition ArrayLedgerCloseTimeIndex (entries : list (Z * Z)) : LedgerCloseTimeIndex :=
  let sorted := sort_by fst entries in {|
    closeTimeOfLedger := λ ledger, snd <$> List.find (λ e : Z * Z, (e.1 =? ledger)%Z) sorted;
    firstLedgerAtOrAfter := λ at_, fst <$> List.find (λ e : Z * Z, (at_ <=? e.2)%Z) sorted
  |}.

(** ** One window *)

Section verdicts.
Context {Semantic : Type}.
Notation Event := (Event Semantic).

(** An event of the worker's function, with its ledger if it carries one. *)
Definition isInvocationOf (e : Event) (contractId functionName : string) : option ContractInvokedEvent :=
  match e with
  | ContractInvoked c =>
      if String.eqb (ci_contractId c) contractId && String.eqb (ci_function c) functionName
      then Some c else None
  | _ => None
  end.

(** The loop's variables: the best match, and whether a rejected attempt was seen. *)
Definition Search := (option (Z * option string) * bool)%type.

Definition consider_event (w : WorkerVerdictWindow) (target fn : string) (s : Search) (e : Event) : Search :=
  match isInvocationOf e target fn with
  | None => s
  | Some c =>
      match ledgerOf e with
      | None => s
      | Some ledger =>
          if (ledger <? conditionLedger w)%Z then s
          else if bool_decide (ci_inSuccessfulContractCall c = Some false) then (s.1, true)
          else match s.1 with
          | Some (best, _) => if (ledger <? best)%Z then (Some (ledger, ci_txHash c), s.2) else s
          | None => (Some (ledger, ci_txHash c), s.2)
          end
      end
  end.

Definition bare (w : WorkerVerdictWindow) (st : WorkerFireVerdictStatus)
    (r : option WorkerVerdictReason) : WorkerFireVerdict :=
  {| window := w; status := st; reason := r; invocationLedger := None; invocationTxHash := None;
     latencyLedgers := None |}.

Definition resolveWindow (w : WorkerVerdictWindow) (target fn : string) (events : list Event)
    (toLedger horizon : Z) : WorkerFireVerdict :=
  if (toLedger - deadlineLedger w <? horizon)%Z then bare w pending None
  else
    let '(best, sawRejectedAttempt) := foldl (consider_event w target fn) (None, false) events in
    match best with
    | Some (ledger, txHash) =>
        let on_time := (ledger <=? deadlineLedger w)%Z in
        {| window := w; status := if on_time then fired else late; reason := None;
           invocationLedger := Some ledger; invocationTxHash := txHash;
           latencyLedgers := if on_time then None else Some (ledger - deadlineLedger w)%Z |}
    | None =>
        if sawRejectedAttempt then bare w not_due (Some rejected_early_call) else bare w missed None
    end.

(** ** What a verdict says *)

(** An invocation that succeeded, and one that was rejected, from the condition
    on. *)
Definition answer (w : WorkerVerdictWindow) (target fn : string) (e : Event) : option (Z * option string) :=
  c ← isInvocationOf e target fn;
  ledger ← ledgerOf e;
  if (ledger <? conditionLedger w)%Z || bool_decide (ci_inSuccessfulContractCall c = Some false)
  then None else Some (ledger, ci_txHash c).

Definition rejected_attempt (w : WorkerVerdictWindow) (target fn : string) (e : Event) : bool :=
  match isInvocationOf e target fn, ledgerOf e with
  | Some c, Some ledger =>
      negb (ledger <? conditionLedger w)%Z && bool_decide (ci_inSuccessfulContractCall c = Some false)
  | _, _ => false
  end.

(** The first of the least ledger. *)
Fixpoint earliest_answer (l : list (Z * option string)) : option (Z * option string) :=
  match l with
  | [] => None
  | a :: l' =>
      match earliest_answer l' with
      | Some b => Some (if (a.1 <=? b.1)%Z then a else b)
      | None => Some a
      end
  end.

Definition sooner (a b : option (Z * option string)) : option (Z * option string) :=
  match a, b with
  | Some x, Some y => Some (if (x.1 <=? y.1)%Z then x else y)
  | Some x, None => Some x
  | None, b => b
  end.

Lemma earliest_sooner a l : earliest_answer (a :: l) = sooner (Some a) (earliest_answer l).
Proof. done. Qed.

Lemma sooner_assoc a b c : sooner (sooner a b) c = sooner a (sooner b c).
Proof.
  destruct a as [[x p]|], b as [[y q]|], c as [[z r]|]; try done; cbn.
  destruct (Z.leb_spec x y); cbn; repeat (case_match; bool_to_prop; cbn in *); try done; try lia.
Qed.

Lemma search_spec w target fn es s :
  foldl (consider_event w target fn) s es =
  (sooner s.1 (earliest_answer (omap (answer w target fn) es)),
   s.2 || existsb (rejected_attempt w target fn) es).
Proof.
  revert s. induction es as [|e es IH]; intros [best rej].
  { cbn. rewrite orb_false_r. by destruct best as [[]|]. }
  cbn [foldl existsb omap list_omap]. rewrite IH. unfold consider_event, answer at 2, rejected_attempt at 2. cbn [fst snd].
  destruct (isInvocationOf e target fn) as [c|]; cbn [mbind option_bind]; [|done].
  destruct (ledgerOf e) as [ledger|]; cbn [mbind option_bind]; [|done].
  destruct (ledger <? conditionLedger w)%Z; cbn [orb negb andb]; [done|].
  case_bool_decide; cbn [fst snd orb andb]; [by rewrite orb_true_r|].
  rewrite earliest_sooner, <-sooner_assoc. destruct best as [[b tx]|]; cbn [sooner fst]; [|done].
  rewrite Z.leb_antisym. by destruct (ledger <? b)%Z.
Qed.

Lemma earliest_answer_Some l a :
  earliest_answer l = Some a → a ∈ l ∧ ∀ b, b ∈ l → (a.1 ≤ b.1)%Z.
Proof.
  revert a. induction l as [|x l IH]; intros a; [done|]. cbn.
  destruct (earliest_answer l) as [b|] eqn:Hb.
  - destruct (IH b eq_refl) as [Hin Hle]. intros [= <-]. destruct (x.1 <=? b.1)%Z eqn:Hx; bool_to_prop.
    + split; [by left|]. intros c [->|Hc]%elem_of_cons; [done|]. specialize (Hle c Hc). lia.
    + split; [by right|]. intros c [->|Hc]%elem_of_cons; [lia|]. by apply Hle.
  - intros [= <-]. assert (l = []) as ->.
    { destruct l as [|y l]; [done|]. cbn in Hb. by destruct (earliest_answer l). }
    split; [by left|]. by intros c ->%list_elem_of_singleton.
Qed.

Lemma earliest_answer_None l : earliest_answer l = None ↔ l = [].
Proof. destruct l as [|x l]; [done|]. cbn. by destruct (earliest_answer l). Qed.

Lemma earliest_answer_app l k : earliest_answer (l ++ k) = sooner (earliest_answer l) (earliest_answer k).
Proof.
  induction l as [|a l IH]; [done|]. rewrite <-app_comm_cons, !earliest_sooner, IH. by rewrite sooner_assoc.
Qed.

Definition answers (w : WorkerVerdictWindow) (target fn : string) (es : list Event) :=
  omap (answer w target fn) es.

(** The least ledger of an invocation that counts. *)
Definition first_answer (w : WorkerVerdictWindow) (target fn : string) (es : list Event) (l : Z)
    (tx : option string) : Prop :=
  (l, tx) ∈ answers w target fn es ∧ ∀ a, a ∈ answers w target fn es → (l ≤ a.1)%Z.

(** The verdict of a window is exactly what the chain shows.  It is pending
    just as long as the deadline is within the horizon of the last ledger
    observed; then fired or late by the earliest invocation of the worker's
    function that succeeded from the condition on, with its ledger and, when late,
    by how much; not due if there is none but one was rejected; and missed
    otherwise. *)
Theorem verdict_exact w target fn es toLedger horizon :
  let v := resolveWindow w target fn es toLedger horizon in
  window v = w ∧
  (status v = pending ↔ (toLedger < deadlineLedger w + horizon)%Z) ∧
  match status v with
  | pending => v = bare w pending None
  | fired => ∃ l tx, first_answer w target fn es l tx ∧ (l ≤ deadlineLedger w)%Z ∧
      invocationLedger v = Some l ∧ invocationTxHash v = tx ∧ latencyLedgers v = None
  | late => ∃ l tx, first_answer w target fn es l tx ∧ (deadlineLedger w < l)%Z ∧
      invocationLedger v = Some l ∧ invocationTxHash v = tx ∧
      latencyLedgers v = Some (l - deadlineLedger w)%Z
  | not_due => answers w target fn es = [] ∧ (∃ e, e ∈ es ∧ rejected_attempt w target fn e = true) ∧
      v = bare w not_due (Some rejected_early_call)
  | missed => answers w target fn es = [] ∧ (∀ e, e ∈ es → rejected_attempt w target fn e = false) ∧
      v = bare w missed None
  | unverifiable_status => False
  end.
Proof.
  cbn zeta. unfold resolveWindow. rewrite search_spec. cbn [fst snd sooner orb].
  fold (answers w target fn es).
  destruct (Z.ltb_spec (toLedger - deadlineLedger w) horizon) as [Hh|Hh].
  { cbn. split_and!; [done| |done]. split; [lia|done]. }
  destruct (earliest_answer (answers w target fn es)) as [[l tx]|] eqn:Hbest.
  - apply earliest_answer_Some in Hbest. cbn.
    destruct (Z.leb_spec l (deadlineLedger w)) as [Hl|Hl]; cbn;
      (split_and!; [done|split; [done|lia]|]); by exists l, tx.
  - apply earliest_answer_None in Hbest.
    destruct (existsb _ _) eqn:Hrej; cbn; (split_and!; [done|split; [done|lia]|done| |done]).
    + by apply existsb_Exists in Hrej.
    + by apply existsb_false.
Qed.

(** ** Settled verdicts *)

(** Later ledgers than those observed. *)
Definition later_events (toLedger : Z) (more : list Event) : Prop :=
  ∀ e l, e ∈ more → ledgerOf e = Some l → (toLedger < l)%Z.

Definition observed (toLedger : Z) (es : list Event) : Prop :=
  ∀ e l, e ∈ es → ledgerOf e = Some l → (l ≤ toLedger)%Z.

Lemma answers_ledger w target fn es a :
  a ∈ answers w target fn es → ∃ e, e ∈ es ∧ ledgerOf e = Some a.1.
Proof.
  intros (e & He & Ha)%list_elem_of_omap. unfold answer in Ha.
  destruct (isInvocationOf e target fn) as [c|]; [|done]. cbn in Ha.
  destruct (ledgerOf e) as [l|] eqn:Hl; [|done]. cbn in Ha.
  destruct (_ || _); [done|]. injection Ha as <-. eauto.
Qed.

Lemma later_answers w target fn toLedger more a :
  later_events toLedger more → a ∈ answers w target fn more → (toLedger < a.1)%Z.
Proof.
  intros Hmore (e & He & Hl)%answers_ledger. by apply (Hmore e).
Qed.

Lemma answers_app w target fn es more :
  answers w target fn (es ++ more) = answers w target fn es ++ answers w target fn more.
Proof. apply omap_app. Qed.

(** Once settled, a verdict changes at most from missed or not due to late, and
    from missed to not due, as the chain goes on: fired and late are final, with
    ledger, transaction and latency, and nothing turns into fired or back into
    pending. *)
Theorem settled_verdicts_keep w target fn es more toLedger toLedger' horizon :
  (0 ≤ horizon)%Z → (toLedger ≤ toLedger')%Z → observed toLedger es → later_events toLedger more →
  let v := resolveWindow w target fn es toLedger horizon in
  let v' := resolveWindow w target fn (es ++ more) toLedger' horizon in
  match status v with
  | pending => True
  | fired | late => v' = v
  | not_due => v' = v ∨ status v' = late
  | missed => v' = v ∨ status v' = late ∨ status v' = not_due
  | unverifiable_status => False
  end.
Proof.
  intros Hh Hle Hobs Hmore. cbn zeta. unfold resolveWindow. rewrite !search_spec. cbn [fst snd sooner orb].
  fold (answers w target fn es) (answers w target fn (es ++ more)). rewrite answers_app, earliest_answer_app.
  destruct (Z.ltb_spec (toLedger - deadlineLedger w) horizon) as [|Hs]; [done|].
  destruct (Z.ltb_spec (toLedger' - deadlineLedger w) horizon) as [|_]; [lia|].
  assert (∀ b, earliest_answer (answers w target fn more) = Some b → (toLedger < b.1)%Z) as Hlater.
  { intros b [Hb _]%earliest_answer_Some. by eapply later_answers. }
  assert (∀ a, earliest_answer (answers w target fn es) = Some a → (a.1 ≤ toLedger)%Z) as Hseen.
  { intros a [(e & He & Hl)%answers_ledger _]%earliest_answer_Some. by apply (Hobs e). }
  rewrite existsb_app.
  destruct (earliest_answer (answers w target fn es)) as [[l tx]|] eqn:Hbest.
  - specialize (Hseen _ eq_refl). cbn in Hseen |- *.
    destruct (earliest_answer (answers w target fn more)) as [b|] eqn:Hb.
    + specialize (Hlater b eq_refl). destruct (Z.leb_spec l b.1) as [Hlb|Hlb]; destruct (l <=? deadlineLedger w)%Z eqn:Hd;
        cbn; try done; bool_to_prop; lia.
    + by destruct (l <=? deadlineLedger w)%Z eqn:Hd.
  - cbn. destruct (earliest_answer (answers w target fn more)) as [[l tx]|] eqn:Hb.
    + specialize (Hlater _ eq_refl). cbn in Hlater.
      assert ((l <=? deadlineLedger w)%Z = false) as -> by (apply Z.leb_gt; lia).
      destruct (existsb _ es); cbn; tauto.
    + destruct (existsb (rejected_attempt w target fn) es); cbn; [by left|].
      destruct (existsb _ more); cbn; tauto.
Qed.

(** ** The engine *)

Section time.
Context {cron_parser : CronParser}.

(** One due time of the loop; [None] is skipped. *)
Definition time_window (d : WorkerDefinition) (index : LedgerCloseTimeIndex) (latency toLedger due : Z)
    : option WorkerVerdictWindow :=
  ledger ← firstLedgerAtOrAfter index due;
  if (toLedger <? ledger)%Z then None
  else Some {| windowId := worker_id d +:+ ":t:" +:+ number_to_string ledger; workerId := worker_id d;
               conditionLedger := ledger; deadlineLedger := (ledger + latency)%Z |}.

Definition verifyTimeTrigger (fuel : nat) (d : WorkerDefinition) (events : list Event)
    (fromLedger toLedger latency : Z) (index : LedgerCloseTimeIndex) (horizon : option Z)
    : option (result VerificationError (list WorkerFireVerdict)) :=
  match trigger d with
  | TimeTrigger schedule =>
      match closeTimeOfLedger index fromLedger, closeTimeOfLedger index toLedger with
      | Some fromClose, Some toClose =>
          answer ← dueTimesBetween fuel (toSchedulerSchedule schedule) fromClose toClose None;
          Some (match answer with
          | Err e => Err (ScheduleError e)
          | Ok dueTimes =>
              Ok (List.map (λ w, resolveWindow w (targetContractId d) (functionName d) events toLedger (default 0%Z horizon))
                    (omap (time_window d index latency toLedger) (dueTimes : list Z)))
          end)
      | _, _ => Some (Err RangeNotCovered)
      end
  | _ => Some (Err WrongTrigger)
  end.
End time.

(** A decision of an event trigger as a window. *)
Definition decision_window (d : Triggers.FireDecision) : WorkerVerdictWindow :=
  {| windowId := Triggers.windowId d; workerId := decisionWorkerId d;
     conditionLedger := Triggers.conditionLedger d; deadlineLedger := Triggers.deadlineLedger d |}.

Definition verifyEventTrigger (fraction_to_string : Z → nat → string) (d : WorkerDefinition) (planner : EventTriggerPlanner)
    (conditionEvents invocationEvents : list Event) (toLedger horizon : Z)
    : result VerificationError (list WorkerFireVerdict) :=
  match trigger d with
  | EventTrigger _ _ =>
      Ok (List.map (λ w, resolveWindow (decision_window w) (targetContractId d) (functionName d) invocationEvents toLedger horizon)
            (decisions (Triggers.plan fraction_to_string planner conditionEvents)))
  | _ => Err WrongTrigger
  end.

Section computation.
Context (fraction_to_string : Z → nat → string).
Context (sha256 : string → string).
Context {keys : StellarKeys}.
Context (date_parse : string → option Z).
Context (localeCompare : string → string → Z).

Definition verifyComputationTrigger (d : WorkerDefinition) (planner : ComputationTriggerPlanner)
    (occurrences : list ComputationConditionOccurrence) (invocationEvents : list Event)
    (toLedger horizon now : Z) : result VerificationError (list WorkerFireVerdict) :=
  match trigger d with
  | ComputationTrigger _ =>
      match plan fraction_to_string sha256 date_parse localeCompare planner occurrences now with
      | Err e => Err (NativeError e)
      | Ok r =>
          Ok (List.map (λ w, resolveWindow w (targetContractId d) (functionName d) invocationEvents toLedger horizon)
                (windows r) ++
              List.map (λ u : ComputationUnverifiableResult, bare u.1 unverifiable_status (Some u.2)) (unverifiable r))
      end
  | _ => Err WrongTrigger
  end.
End computation.

(** ** The windows of a schedule *)

Lemma find_first_sorted (f : Z * Z → bool) entries e :
  List.find f (sort_by fst entries) = Some e →
  e ∈ entries ∧ f e = true ∧ ∀ e', e' ∈ entries → (e'.1 < e.1)%Z → f e' = false.
Proof.
  assert (∀ l, StronglySorted (key_le fst) l → List.find f l = Some e →
    e ∈ l ∧ f e = true ∧ ∀ e', e' ∈ l → (e'.1 < e.1)%Z → f e' = false) as Hfind.
  { induction 1 as [|x l Hs IH Hx]; [done|]. cbn [List.find]. destruct (f x) eqn:Hf.
    - intros [= <-]. split_and!; [by left|done|]. rewrite Forall_forall in Hx. unfold key_le in Hx.
      intros e' [->|He']%elem_of_cons Hlt; [lia|]. specialize (Hx e' He'). lia.
    - intros (Hin & Hfe & Hmin)%IH. split_and!; [by right|done|].
      intros e' [->|He']%elem_of_cons Hlt; [done|by apply Hmin]. }
  intros (Hin & Hfe & Hmin)%(Hfind _ (sort_by_sorted fst entries)).
  rewrite sort_by_perm in Hin. split_and!; [done..|]. intros e' He'. apply Hmin. by rewrite sort_by_perm.
Qed.

(** The index finds the first ledger that closed at or after a time. *)
Lemma index_first entries at_ l :
  firstLedgerAtOrAfter (ArrayLedgerCloseTimeIndex entries) at_ = Some l →
  ∃ t, (l, t) ∈ entries ∧ (at_ ≤ t)%Z ∧ ∀ l' t', (l', t') ∈ entries → (l' < l)%Z → (t' < at_)%Z.
Proof.
  cbn. destruct (List.find _ _) as [[l0 t]|] eqn:Hfind; [|done]. intros [= <-].
  apply find_first_sorted in Hfind as (Hin & Hle & Hmin). cbn in *. bool_to_prop.
  exists t. split_and!; [done..|]. intros l' t' Hin' Hlt. specialize (Hmin (l', t') Hin' Hlt). cbn in Hmin.
  by bool_to_prop.
Qed.

Lemma index_close entries l t :
  closeTimeOfLedger (ArrayLedgerCloseTimeIndex entries) l = Some t → (l, t) ∈ entries.
Proof.
  cbn. destruct (List.find _ _) as [[l0 t0]|] eqn:Hfind; [|done]. intros [= <-].
  apply find_first_sorted in Hfind as (Hin & Heq & _). cbn in Heq. bool_to_prop. by subst.
Qed.

Lemma time_trigger_verdicts `{CronParser} fuel d tz ms events fromLedger toLedger a b latency index horizon :
  trigger d = TimeTrigger (m_interval tz ms) → (0 < ms)%Z →
  closeTimeOfLedger index fromLedger = Some a → closeTimeOfLedger index toLedger = Some b →
  Z.to_nat (b - a) < fuel →
  ∃ vs, verifyTimeTrigger fuel d events fromLedger toLedger latency index horizon = Some (Ok vs) ∧
    ∀ v, v ∈ vs ↔ ∃ (k : nat) w,
      (a + (1 + Z.of_nat k) * ms ≤ b)%Z ∧
      time_window d index latency toLedger (a + (1 + Z.of_nat k) * ms)%Z = Some w ∧
      v = resolveWindow w (targetContractId d) (functionName d) events toLedger (default 0%Z horizon).
Proof.
  intros Ht Hms Ha Hb Hfuel. unfold verifyTimeTrigger. rewrite Ht, Ha, Hb. cbn [toSchedulerSchedule].
  rewrite interval_due_grid by done. cbn. eexists. split; [done|]. intros v.
  change (@List.map WorkerVerdictWindow WorkerFireVerdict) with (@fmap list _ WorkerVerdictWindow WorkerFireVerdict).
  rewrite list_elem_of_fmap. setoid_rewrite list_elem_of_omap. setoid_rewrite elem_of_grid; [|done]. split.
  - intros (w & -> & t & (k & -> & Hle) & Hw). exists k, w. done.
  - intros (k & w & Hle & Hw & ->). exists w. split; [done|]. eauto.
Qed.

(** ** What the engine's events hide *)

(** The engine's own invocation events never say that a call was rejected, so that
    no verdict on them is not due. *)
Lemma engine_hides_rejections w target fn (es : list Event) toLedger horizon :
  (∀ e c, e ∈ es → e = ContractInvoked c → ci_inSuccessfulContractCall c = None) →
  status (resolveWindow w target fn es toLedger horizon) ≠ not_due.
Proof.
  intros Hes. unfold resolveWindow. rewrite search_spec. cbn [fst snd sooner orb].
  assert (existsb (rejected_attempt w target fn) es = false) as ->.
  { apply existsb_false. intros e He. unfold rejected_attempt, isInvocationOf.
    destruct e; try done. destruct (_ && _); [|done]. rewrite (Hes _ _ He eq_refl).
    by destruct (ledgerOf _); rewrite ?andb_false_r. }
  destruct (_ <? _)%Z; [done|]. destruct (earliest_answer _) as [[l tx]|]; cbn; [|done]. by destruct (l <=? _)%Z.
Qed.

(** Both sources of the engine's invocation events leave the mark out. *)
Lemma polled_invocation_unmarked resolveSemantic at_ s c :
  handleSorobanEvent (Semantic := Semantic) resolveSemantic at_ s = Some (ContractInvoked c) →
  ci_inSuccessfulContractCall c = None.
Proof.
  unfold handleSorobanEvent. destruct (so_contractId s) as [id|]; [|done]. cbn.
  destruct (String.eqb id ""); [done|].
  case_bool_decide; [intros [= <-]; done|]. by case_bool_decide.
Qed.

Lemma normalized_invocation_unmarked r c :
  normalizeContractInvoked (Semantic := Semantic) r = Normalized (ContractInvoked c) →
  ci_inSuccessfulContractCall c = None.
Proof. unfold normalizeContractInvoked. repeat case_match; try done; intros [= <-]; done. Qed.
End verdicts.

(** ** Concrete runs *)

Definition call_at (l : option Z) (tx : string) (ok : option bool) : Event unit := ContractInvoked
  {| ci_contractId := "C"; ci_function := "pay"; ci_args := []; ci_ledger := jint <$> l;
     ci_txHash := Some tx; ci_timestamp := ""; ci_inSuccessfulContractCall := ok; ci_raw := JUndef |}.

Definition call (l : Z) : string → option bool → Event unit := call_at (Some l).

Definition demo_window (from until : Z) : WorkerVerdictWindow :=
  {| windowId := "w:t:10"; workerId := "w"; conditionLedger := from; deadlineLedger := until |}.

#[local] Notation verdict w es toLedger horizon := (resolveWindow (Semantic := unit) w "C" "pay" es toLedger horizon).

Example verdicts :
  status (verdict (demo_window 10 15) [call 12 "a" None] 20 6) = pending ∧
  status (verdict (demo_window 10 15) [call 9 "a" None; call 12 "b" (Some true)] 20 5) = fired ∧
  latencyLedgers (verdict (demo_window 10 15) [call 19 "a" None; call 17 "b" None] 20 0) = Some 2%Z ∧
  status (verdict (demo_window 10 15) [call 12 "a" (Some false)] 20 0) = not_due ∧
  status (verdict (demo_window 10 15) [] 20 0) = missed.
Proof. split_and!; reflexivity. Qed.

(** A missed window becomes late when the worker calls after all, whatever the
    horizon was. *)
Lemma missed_becomes_late :
  status (verdict (demo_window 10 15) [] 1000 100) = missed ∧
  status (verdict (demo_window 10 15) ([] ++ [call 1001 "a" None]) 1001 100) = late.
Proof. split; reflexivity. Qed.

(** A rejected call long after the deadline makes a missed window not due. *)
Lemma late_rejection_excuses :
  status (verdict (demo_window 10 15) [call 900 "a" (Some false)] 1000 0) = not_due.
Proof. reflexivity. Qed.

(** One call answers every window that is open. *)
Lemma one_call_answers_two_windows :
  let es := [call 14 "a" None] in
  status (verdict (demo_window 10 15) es 20 0) = fired ∧
  status (verdict (demo_window 12 17) es 20 0) = fired ∧
  invocationTxHash (verdict (demo_window 10 15) es 20 0) = invocationTxHash (verdict (demo_window 12 17) es 20 0).
Proof. split_and!; reflexivity. Qed.

(** A call whose ledger is not known is passed over: missed, not unverifiable. *)
Lemma ledgerless_call_is_missed :
  verdict (demo_window 10 15) [call_at None "a" None] 20 0 = bare (demo_window 10 15) missed None.
Proof. reflexivity. Qed.

#[local] Instance unused_cron : CronParser := {| iterator := unit; parse := λ _ _ _, None; next := λ _, None |}.

Definition timed (everyMs : Z) : WorkerDefinition :=
  {| worker_id := "w"; targetContractId := "C"; functionName := "pay";
     trigger := TimeTrigger (m_interval "UTC" everyMs) |}.

(** A ledger every 5 ms, from ledger 1. *)
Definition closes : LedgerCloseTimeIndex :=
  ArrayLedgerCloseTimeIndex ((λ k, (k, 5 * k)%Z) <$> seqZ 1 12).

Definition named (r : option (result VerificationError (list WorkerFireVerdict))) : list (string * Z) :=
  match r with
  | Some (Ok vs) => List.map (λ v, (windowId (window v), conditionLedger (window v))) vs
  | _ => []
  end.

(** Due times of one ledger make windows with one identity. *)
Lemma short_intervals_share_ids :
  named (verifyTimeTrigger (Semantic := unit) 100 (timed 2) [] 1 2 3 closes None) = [("w:t:2", 2%Z); ("w:t:2", 2%Z)].
Proof. vm_compute. reflexivity. Qed.

(** The start of the range decides where the windows of an interval lie, so that
    overlapping ranges name different windows. *)
Lemma range_start_shifts_windows :
  named (verifyTimeTrigger (Semantic := unit) 100 (timed 15) [] 1 12 3 closes None)
    = [("w:t:4", 4); ("w:t:7", 7); ("w:t:10", 10)]%Z ∧
  named (verifyTimeTrigger (Semantic := unit) 100 (timed 15) [] 2 12 3 closes None)
    = [("w:t:5", 5); ("w:t:8", 8); ("w:t:11", 11)]%Z.
Proof. split; vm_compute; reflexivity. Qed.

Lemma settled_verdicts_keep_witness :
  verdict (demo_window 10 15) ([call 12 "a" None] ++ [call 21 "b" None]) 30 0
  = verdict (demo_window 10 15) [call 12 "a" None] 20 0.
Proof.
  apply (settled_verdicts_keep (demo_window 10 15) "C" "pay" [call 12 "a" None]
    [call 21 "b" None] 20 30 0); [lia|lia| |].
  - intros e l ->%list_elem_of_singleton [= <-]. done.
  - intros e l ->%list_elem_of_singleton [= <-]. done.
Defined.
