(* ===== verification/VerdictStore.v ===== *)
(** * The verdict store
    (packages/worker-core/src/verification/WorkerFireVerdictStore.ts,
    MemoryWorkerVerdictStore.ts, backstopVerdictStoreAdapter.ts, and the
    collapsing queries of PostgresWorkerVerdictStore.ts)

    Append-only records with corrections.  Each call is one stretch: nothing is
    awaited inside.  Collation is an argument, an ISO timestamp is its text. *)

From Stdlib Require Import Sorted.
From S2P Require Import Prelude.
From S2P Require Import JsMap.
From S2P Require Import ComputationTrigger.
From S2P Require Import WorkerVerdicts.

(** ** Records *)

Definition WORKER_VERDICT_SCHEMA_VERSION : Z := 1.

Record WorkerVerdictRecord := {
  r_verdict : WorkerFireVerdict;
  schemaVersion : Z;
  recordId : string;
  operator : string;
  engineVersion : string;
  recordedAt : string;
  supersedes : option string;
  correctionReason : option string;
}.

#[export] Instance WorkerVerdictRecord_eq_dec : EqDecision WorkerVerdictRecord.
Proof. solve_decision. Defined.

Definition r_windowId (r : WorkerVerdictRecord) : string := windowId (window (r_verdict r)).
Definition r_workerId (r : WorkerVerdictRecord) : string := workerId (window (r_verdict r)).
Definition r_conditionLedger (r : WorkerVerdictRecord) : Z := conditionLedger (window (r_verdict r)).
Definition r_deadlineLedger (r : WorkerVerdictRecord) : Z := deadlineLedger (window (r_verdict r)).

Record RecordVerdictInput := {
  i_verdict : WorkerFireVerdict;
  i_recordId : string;
  i_operator : string;
  i_engineVersion : string;
  i_recordedAt : option string;
  i_supersedes : option string;
  i_correctionReason : option string;
}.

Record WorkerVerdictQueryOptions := {
  q_fromLedger : option Z;
  q_toLedger : option Z;
  latestOnly : option bool;
}.

Inductive VerdictStoreError := DuplicateVerdictRecord | MissingCorrectionReason.

(** ** MemoryWorkerVerdictStore *)

Record MemoryWorkerVerdictStore := {
  byRecordId : jsmap string WorkerVerdictRecord;
  byWindowId : jsmap string (list WorkerVerdictRecord);
}.

Definition empty_verdict_store : MemoryWorkerVerdictStore := {| byRecordId := []; byWindowId := [] |}.

Definition for_window (w : string) (s : MemoryWorkerVerdictStore) : list WorkerVerdictRecord :=
  default [] (mget w (byWindowId s)).

Definition write (r : WorkerVerdictRecord) : method MemoryWorkerVerdictStore VerdictStoreError unit :=
  λ s,
    if mhas (recordId r) (byRecordId s) then (Err DuplicateVerdictRecord, s)
    else (Ok tt, {| byRecordId := mset (recordId r) r (byRecordId s);
                    byWindowId := mset (r_windowId r) (for_window (r_windowId r) s ++ [r]) (byWindowId s) |}).

(** [now] is [new Date().toISOString()]. *)
Definition record_of (now : string) (input : RecordVerdictInput) : WorkerVerdictRecord := {|
  r_verdict := i_verdict input;
  schemaVersion := WORKER_VERDICT_SCHEMA_VERSION;
  recordId := i_recordId input;
  operator := i_operator input;
  engineVersion := i_engineVersion input;
  recordedAt := default now (i_recordedAt input);
  supersedes := i_supersedes input;
  correctionReason := i_correctionReason input
|}.

(** [input.supersedes !== undefined && !input.correctionReason] *)
Definition reasonless (input : RecordVerdictInput) : bool :=
  match i_supersedes input, i_correctionReason input with
  | Some _, None | Some _, Some "" => true
  | _, _ => false
  end.

Definition record_verdict (now : string) (input : RecordVerdictInput)
    : method MemoryWorkerVerdictStore VerdictStoreError WorkerVerdictRecord :=
  throw_if (reasonless input) MissingCorrectionReason ≫= λ _,
  write (record_of now input) ≫= λ _,
  mret (record_of now input).

Section queries.
Context (localeCompare : string → string → Z).

(** [r.supersedes] where it is a text that counts. *)
Definition corrects (r : WorkerVerdictRecord) : option string :=
  match supersedes r with Some "" => None | s => s end.

Definition not_newer (a b : WorkerVerdictRecord) : bool :=
  let byTime := localeCompare (recordedAt a) (recordedAt b) in
  if negb (byTime =? 0)%Z then (byTime <=? 0)%Z
  else (localeCompare (recordId a) (recordId b) <=? 0)%Z.

Definition notSuperseded (history : list WorkerVerdictRecord) : list WorkerVerdictRecord :=
  let superseded := omap corrects history in
  List.filter (λ r, negb (bool_decide (recordId r ∈ superseded))) history.

Definition latestOf (history : list WorkerVerdictRecord) : option WorkerVerdictRecord :=
  match history with
  | [] => None
  | _ => last (sort_with not_newer (notSuperseded history))
  end.

Definition getLatestForWindow (w : string) (s : MemoryWorkerVerdictStore) : option WorkerVerdictRecord :=
  latestOf (for_window w s).

Definition getHistoryForWindow (w : string) (s : MemoryWorkerVerdictStore) : list WorkerVerdictRecord :=
  for_window w s.

Definition in_range (o : WorkerVerdictQueryOptions) (r : WorkerVerdictRecord) : bool :=
  negb (match q_fromLedger o with Some l => (r_deadlineLedger r <? l)%Z | None => false end) &&
  negb (match q_toLedger o with Some l => (l <? r_conditionLedger r)%Z | None => false end).

(** A Set keeps the first of each. *)
Fixpoint first_of_each (seen : list string) (l : list string) : list string :=
  match l with
  | [] => []
  | x :: l' => if bool_decide (x ∈ seen) then first_of_each seen l' else x :: first_of_each (x :: seen) l'
  end.

Definition query (matches : WorkerVerdictRecord → bool) (o : WorkerVerdictQueryOptions)
    (s : MemoryWorkerVerdictStore) : list WorkerVerdictRecord :=
  let found := List.filter (λ r, matches r && in_range o r) (mvals (byRecordId s)) in
  if default true (latestOnly o) then
    List.filter matches
      (omap (λ w, getLatestForWindow w s) (first_of_each [] (r_windowId <$> found)))
  else found.

Definition queryByWorker (w : string) := query (λ r, String.eqb (r_workerId r) w).
Definition queryByOperator (o : string) := query (λ r, String.eqb (operator r) o).
Definition queryByLedgerRange (fromLedger toLedger : Z) (latest : option bool) :=
  query (λ r, (r_conditionLedger r <=? toLedger)%Z && (fromLedger <=? r_deadlineLedger r)%Z)
    {| q_fromLedger := None; q_toLedger := None; latestOnly := latest |}.

(** ** PostgresWorkerVerdictStore

    The rows are those of the table in insertion order; [where_] is the condition of
    the statement. *)

Definition runLatestOnlyAwareQuery (where_ : WorkerVerdictRecord → bool) (latest : bool)
    (rows : list WorkerVerdictRecord) : list WorkerVerdictRecord :=
  let records := List.filter where_ rows in
  if latest then
    omap (λ w, latestOf (List.filter (λ r, String.eqb (r_windowId r) w) rows))
      (first_of_each [] (r_windowId <$> records))
  else records.

Definition queryBy (matches : WorkerVerdictRecord → bool) (o : WorkerVerdictQueryOptions)
    (rows : list WorkerVerdictRecord) : list WorkerVerdictRecord :=
  runLatestOnlyAwareQuery (λ r, matches r && in_range o r) (default true (latestOnly o)) rows.
End queries.

(** ** The adapter for the backstop *)

Inductive WorkerWindowStatus := w_fired | w_missed | w_late | w_not_due.

#[export] Instance WorkerWindowStatus_eq_dec : EqDecision WorkerWindowStatus.
Proof. solve_decision. Defined.

Record WorkerWindowVerdict := {
  wv_workerId : string;
  operatorId : string;
  wv_windowId : string;
  wv_status : WorkerWindowStatus;
  ledgerStart : Z;
  ledgerEnd : Z;
}.

Definition scoreable (st : WorkerFireVerdictStatus) : option WorkerWindowStatus :=
  match st with
  | fired => Some w_fired
  | missed => Some w_missed
  | late => Some w_late
  | not_due => Some w_not_due
  | pending | unverifiable_status => None
  end.

Definition toWindowVerdict (r : WorkerVerdictRecord) : option WorkerWindowVerdict :=
  st ← scoreable (status (r_verdict r));
  Some {| wv_workerId := r_workerId r; operatorId := operator r; wv_windowId := r_windowId r;
          wv_status := st; ledgerStart := r_conditionLedger r; ledgerEnd := r_deadlineLedger r |}.

Definition full_status (st : WorkerWindowStatus) : WorkerFireVerdictStatus :=
  match st with w_fired => fired | w_missed => missed | w_late => late | w_not_due => not_due end.

Definition adapter_input (recordDefaults : WorkerWindowVerdict → string * string) (v : WorkerWindowVerdict)
    : RecordVerdictInput :=
  let '(id, version) := recordDefaults v in {|
    i_verdict := bare {| windowId := wv_windowId v; workerId := wv_workerId v;
                         conditionLedger := ledgerStart v; deadlineLedger := ledgerEnd v |}
                      (full_status (wv_status v)) None;
    i_recordId := id; i_operator := operatorId v; i_engineVersion := version;
    i_recordedAt := None; i_supersedes := None; i_correctionReason := None
  |}.

Definition adapter_record (recordDefaults : WorkerWindowVerdict → string * string) (now : string)
    (v : WorkerWindowVerdict) : method MemoryWorkerVerdictStore VerdictStoreError unit :=
  record_verdict now (adapter_input recordDefaults v) ≫= λ _, mret tt.

Definition adapter_getByOperator (localeCompare : string → string → Z) (o : string)
    (s : MemoryWorkerVerdictStore) : list WorkerWindowVerdict :=
  omap toWindowVerdict
    (queryByOperator localeCompare o {| q_fromLedger := None; q_toLedger := None; latestOnly := None |} s).

(** ** The store's contents *)

(** What was written, in order. *)
Definition rows (s : MemoryWorkerVerdictStore) : list WorkerVerdictRecord := mvals (byRecordId s).

Definition of_window (w : string) (l : list WorkerVerdictRecord) : list WorkerVerdictRecord :=
  List.filter (λ r, String.eqb (r_windowId r) w) l.

(** The two maps say the same, and an identity is used once. *)
Record consistent (s : MemoryWorkerVerdictStore) : Prop := {
  ids_distinct : NoDup (recordId <$> rows s);
  ids_keys : mkeys (byRecordId s) = recordId <$> rows s;
  windows_agree : ∀ w, for_window w s = of_window w (rows s);
}.

Lemma consistent_empty : consistent empty_verdict_store.
Proof. split; [constructor|done|done]. Qed.

Lemma of_window_app w l k : of_window w (l ++ k) = of_window w l ++ of_window w k.
Proof. apply List.filter_app. Qed.

Lemma write_cases r s :
  consistent s →
  (recordId r ∈ recordId <$> rows s ∧ write r s = (Err DuplicateVerdictRecord, s)) ∨
  (recordId r ∉ recordId <$> rows s ∧ ∃ s', write r s = (Ok tt, s') ∧ rows s' = rows s ++ [r] ∧ consistent s').
Proof.
  intros [Hnd Hkeys Hw]. unfold write. destruct (mhas (recordId r) (byRecordId s)) eqn:Hhas.
  - left. apply mhas_true in Hhas. rewrite Hkeys in Hhas. done.
  - right. assert (recordId r ∉ mkeys (byRecordId s)) as Hnew by (rewrite <-mhas_true; by rewrite Hhas).
    rewrite Hkeys in Hnew. split; [done|]. eexists. split; [done|].
    assert (∀ s', byRecordId s' = mset (recordId r) r (byRecordId s) → rows s' = rows s ++ [r]) as Hrows.
    { intros s' Hs'. unfold rows, mvals. rewrite Hs', mset_fresh by (by rewrite Hkeys). by rewrite fmap_app. }
    split; [by apply Hrows|].
    match goal with |- consistent ?s' => set (s1 := s') end. split.
    + rewrite (Hrows s1 eq_refl), fmap_app. apply NoDup_snoc. done.
    + rewrite (Hrows s1 eq_refl), fmap_app. cbn [byRecordId s1]. rewrite mkeys_mset_fresh by (by rewrite Hkeys).
      by rewrite Hkeys.
    + intros w. rewrite (Hrows s1 eq_refl), of_window_app, <-Hw. unfold for_window at 1. cbn [byWindowId s1].
      rewrite mget_mset. unfold of_window. cbn [List.filter].
      destruct (decide (r_windowId r = w)) as [->|Hne].
      * by rewrite String.eqb_refl.
      * apply String.eqb_neq in Hne. by rewrite Hne, app_nil_r.
Qed.

(** Calls, with their times. *)
Definition verdict_call := (string * RecordVerdictInput)%type.

Fixpoint records (cs : list verdict_call) (s : MemoryWorkerVerdictStore) : MemoryWorkerVerdictStore :=
  match cs with [] => s | (now, input) :: cs' => records cs' (record_verdict now input s).2 end.

Lemma record_cases now input s :
  consistent s →
  (∃ e, record_verdict now input s = (Err e, s) ∧
     (e = MissingCorrectionReason ∧ reasonless input = true ∨
      e = DuplicateVerdictRecord ∧ reasonless input = false ∧ i_recordId input ∈ recordId <$> rows s)) ∨
  (∃ s', record_verdict now input s = (Ok (record_of now input), s') ∧ reasonless input = false ∧
     i_recordId input ∉ recordId <$> rows s ∧
     rows s' = rows s ++ [record_of now input] ∧ consistent s').
Proof.
  intros Hs. unfold record_verdict, throw_if, lift_result, mbind, method_bind, mret, method_ret.
  destruct (reasonless input); cbn; [left; eexists; split; [done|]; by left|].
  destruct (write_cases (record_of now input) s Hs) as [[Hin Hw]|(Hnew & s' & Hw & Hrows & Hs')]; rewrite Hw.
  - left. eexists. split; [done|]. by right.
  - right. exists s'. done.
Qed.

Lemma record_grows now input s :
  consistent s → consistent (record_verdict now input s).2 ∧ rows s `prefix_of` rows (record_verdict now input s).2.
Proof.
  intros Hs. destruct (record_cases now input s Hs) as [(e & -> & _)|(s' & -> & _ & _ & Hrows & Hs')]; cbn; [done|].
  rewrite Hrows. split; [done|]. by eexists.
Qed.

Lemma records_grow cs s :
  consistent s → consistent (records cs s) ∧ rows s `prefix_of` rows (records cs s).
Proof.
  revert s. induction cs as [|[now input] cs IH]; intros s Hs; cbn; [done|].
  destruct (record_grows now input s Hs) as [Hs' Hp]. destruct (IH _ Hs') as [Hs'' Hp'].
  split; [done|]. by etrans.
Qed.

Lemma of_window_prefix w l k : l `prefix_of` k → of_window w l `prefix_of` of_window w k.
Proof. intros [m ->]. rewrite of_window_app. by eexists. Qed.

(** Verdict records are immutable: through any further calls, the history of
    every window only grows at its end, an identity is never used twice, and the
    histories hold exactly what was accepted; a call is refused exactly for a
    correction without a reason or an identity in use, and changes nothing then. *)
Theorem verdict_history_append_only cs more w :
  let s := records cs empty_verdict_store in
  let s' := records more s in
  getHistoryForWindow w s `prefix_of` getHistoryForWindow w s' ∧
  NoDup (recordId <$> rows s') ∧
  (∀ w', getHistoryForWindow w' s' = of_window w' (rows s')) ∧
  ∀ now input,
    let '(out, s'') := record_verdict now input s' in
    match out with
    | Ok r => r = record_of now input ∧ reasonless input = false ∧ rows s'' = rows s' ++ [r]
    | Err e => s'' = s' ∧
        (e = MissingCorrectionReason ∧ reasonless input = true ∨
         e = DuplicateVerdictRecord ∧ i_recordId input ∈ recordId <$> rows s')
    end.
Proof.
  cbn zeta. destruct (records_grow cs _ consistent_empty) as [Hs _].
  set (s := records cs empty_verdict_store) in *.
  destruct (records_grow more s Hs) as [Hs' Hp]. set (s' := records more s) in *. split_and!.
  - unfold getHistoryForWindow. rewrite (windows_agree _ Hs), (windows_agree _ Hs'). by apply of_window_prefix.
  - apply (ids_distinct _ Hs').
  - apply (windows_agree _ Hs').
  - intros now input. destruct (record_cases now input s' Hs') as [(e & -> & He)|(s'' & -> & Hr & _ & Hrows & _)].
    + split; [done|]. naive_solver.
    + done.
Qed.

(** ** The latest record *)

Section latest.
Context (localeCompare : string → string → Z).
Context `{HC : !Collation localeCompare}.
(** Comparing the other way gives the other sign. *)
Context (Hanti : ∀ s t, Z.sgn (localeCompare s t) = (- Z.sgn (localeCompare t s))%Z).

Notation not_newer := (not_newer localeCompare).
Notation latestOf := (latestOf localeCompare).

Lemma not_newer_total a b : not_newer a b = true ∨ not_newer b a = true.
Proof using Hanti HC.
  unfold VerdictStore.not_newer. pose proof (Hanti (recordedAt a) (recordedAt b)) as H.
  pose proof (collate_total localeCompare (recordId a) (recordId b)) as H2.
  destruct (localeCompare (recordedAt a) (recordedAt b) =? 0)%Z eqn:E1;
    destruct (localeCompare (recordedAt b) (recordedAt a) =? 0)%Z eqn:E2; cbn [negb]; bool_to_prop;
    rewrite ?Z.leb_le; lia.
Qed.

Lemma collate_eq_trans s t u :
  (localeCompare s t = 0)%Z → (localeCompare t u = 0)%Z → (localeCompare s u = 0)%Z.
Proof using Hanti HC.
  intros H1 H2. pose proof (collate_trans localeCompare s t u).
  pose proof (collate_trans localeCompare u t s). pose proof (Hanti s t). pose proof (Hanti t u).
  pose proof (Hanti s u). lia.
Qed.

Lemma collate_lt_trans s t u :
  (localeCompare s t ≤ 0)%Z → (localeCompare t u ≤ 0)%Z →
  (localeCompare s t ≠ 0)%Z ∨ (localeCompare t u ≠ 0)%Z → (localeCompare s u < 0)%Z.
Proof using Hanti HC.
  intros H1 H2 H3. pose proof (collate_trans localeCompare s t u H1 H2).
  destruct (Z.eq_dec (localeCompare s u) 0%Z) as [Heq|]; [exfalso|lia].
  pose proof (Hanti s u). pose proof (Hanti s t). pose proof (Hanti t u).
  pose proof (collate_trans localeCompare t u s). pose proof (collate_trans localeCompare u s t). lia.
Qed.

Lemma not_newer_spec a b :
  not_newer a b = true ↔
  (localeCompare (recordedAt a) (recordedAt b) < 0)%Z ∨
  localeCompare (recordedAt a) (recordedAt b) = 0%Z ∧ (localeCompare (recordId a) (recordId b) ≤ 0)%Z.
Proof.
  unfold VerdictStore.not_newer. destruct (_ =? 0)%Z eqn:E; cbn [negb]; bool_to_prop; rewrite Z.leb_le; lia.
Qed.

Lemma not_newer_trans a b c : not_newer a b = true → not_newer b c = true → not_newer a c = true.
Proof using Hanti HC.
  rewrite !not_newer_spec. intros [H1|[H1 H1']] [H2|[H2 H2']].
  - left. apply (collate_lt_trans _ (recordedAt b)); lia.
  - left. apply (collate_lt_trans _ (recordedAt b)); lia.
  - left. apply (collate_lt_trans _ (recordedAt b)); lia.
  - right. split; [by eapply collate_eq_trans|]. by eapply (collate_trans localeCompare).
Qed.

Lemma sorted_last_max {A} (R : A → A → Prop) l x :
  StronglySorted R l → last l = Some x → x ∈ l ∧ ∀ y, y ∈ l → y = x ∨ R y x.
Proof.
  induction 1 as [|z l Hs IH Hz]; [done|]. rewrite last_cons. destruct (last l) as [x'|] eqn:Hl.
  - intros [= ->]. destruct (IH eq_refl) as [Hin Hmax]. split; [by right|].
    intros y [->|Hy]%elem_of_cons; [|by apply Hmax]. right. rewrite Forall_forall in Hz. by apply Hz.
  - intros [= ->]. apply last_None in Hl as ->. split; [by left|]. intros y ->%list_elem_of_singleton. by left.
Qed.

Definition superseded_in (history : list WorkerVerdictRecord) (r : WorkerVerdictRecord) : Prop :=
  ∃ r', r' ∈ history ∧ corrects r' = Some (recordId r).

Lemma notSuperseded_elem history r :
  r ∈ notSuperseded history ↔ r ∈ history ∧ ¬ superseded_in history r.
Proof.
  unfold notSuperseded, superseded_in. rewrite list_elem_of_In, filter_In, <-list_elem_of_In.
  rewrite negb_true_iff, bool_decide_eq_false, list_elem_of_omap. naive_solver.
Qed.

Lemma latestOf_Some history r :
  latestOf history = Some r →
  r ∈ history ∧ ¬ superseded_in history r ∧
  ∀ r', r' ∈ history → ¬ superseded_in history r' → r' = r ∨ not_newer r' r = true.
Proof using Hanti HC.
  unfold VerdictStore.latestOf. destruct history as [|h0 history]; [done|]. set (h := h0 :: history).
  intros Hlast. eapply sorted_last_max in Hlast as [Hin Hmax].
  2:{ apply sort_with_sorted; [apply not_newer_total|apply not_newer_trans]. }
  rewrite sort_with_perm, notSuperseded_elem in Hin. destruct Hin as [Hin Hns].
  split_and!; [done..|]. intros r' Hr' Hns'. apply Hmax. rewrite sort_with_perm, notSuperseded_elem. done.
Qed.

Lemma latestOf_None history :
  latestOf history = None ↔ ∀ r, r ∈ history → superseded_in history r.
Proof.
  unfold VerdictStore.latestOf. destruct history as [|h0 history]; [split; [by intros _ r ?%not_elem_of_nil|done]|].
  set (h := h0 :: history). rewrite last_None. split.
  - intros Hnil r Hr. destruct (decide (recordId r ∈ omap corrects h)) as [Hs|Hs].
    + by apply list_elem_of_omap in Hs as (r' & Hr' & Hc); exists r'.
    + exfalso. assert (r ∈ sort_with not_newer (notSuperseded h)) as Hin.
      { rewrite sort_with_perm. apply notSuperseded_elem. split; [done|]. intros (r' & Hr' & Hc).
        apply Hs, list_elem_of_omap. eauto. }
      rewrite Hnil in Hin. by apply not_elem_of_nil in Hin.
  - intros Hall. destruct (sort_with not_newer (notSuperseded h)) as [|r l] eqn:Hl; [done|exfalso].
    assert (r ∈ notSuperseded h) as Hin by (rewrite <-(sort_with_perm not_newer), Hl; by left).
    apply notSuperseded_elem in Hin as [Hin Hns]. by apply Hns, Hall.
Qed.

(** Corrections that name records written before them. *)
Definition corrections_backward (history : list WorkerVerdictRecord) : Prop :=
  ∀ i j r r', history !! i = Some r → history !! j = Some r' → corrects r' = Some (recordId r) → i < j.

Lemma newest_not_superseded history r :
  corrections_backward history → last history = Some r → ¬ superseded_in history r.
Proof.
  intros Hback Hlast (r' & [j Hj]%list_elem_of_lookup & Hc). rewrite last_lookup in Hlast.
  pose proof (Hback _ _ _ _ Hlast Hj Hc). apply lookup_lt_Some in Hj. lia.
Qed.

(** The latest record of a window, where corrections name earlier records, exists
    as soon as the window has a record; it is one no correction names, and of
    those the newest by time of recording and identity.  A window whose every
    record corrects the one before has its last record as the latest, whatever the
    times say. *)
Theorem latest_follows_corrections w s :
  let history := getHistoryForWindow w s in
  corrections_backward history → history ≠ [] →
  ∃ r, getLatestForWindow localeCompare w s = Some r ∧ r ∈ history ∧ ¬ superseded_in history r ∧
    (∀ r', r' ∈ history → ¬ superseded_in history r' → r' = r ∨ not_newer r' r = true) ∧
    ((∀ i r1 r2, history !! i = Some r1 → history !! S i = Some r2 → corrects r2 = Some (recordId r1)) →
     last history = Some r).
Proof using Hanti HC.
  intros history Hback Hne. unfold getLatestForWindow. fold (getHistoryForWindow w s). fold history.
  destruct (last history) as [r0|] eqn:Hlast; [|by apply last_None in Hlast].
  pose proof (newest_not_superseded history r0 Hback Hlast) as Hns0.
  assert (r0 ∈ history) as Hin0 by (rewrite last_lookup in Hlast; by eapply list_elem_of_lookup_2).
  destruct (latestOf history) as [r|] eqn:Hr.
  2:{ exfalso. apply Hns0. by apply (proj1 (latestOf_None history) Hr). }
  pose proof (latestOf_Some _ _ Hr) as (Hin & Hns & Hmax).
  exists r. split_and!; [done..|]. intros Hchain. f_equal.
  apply list_elem_of_lookup in Hin as [i Hi]. rewrite last_lookup in Hlast.
  destruct (decide (i = pred (length history))) as [->|Hi']; [congruence|exfalso].
  pose proof (lookup_lt_Some _ _ _ Hi) as Hlt.
  destruct (history !! S i) as [r2|] eqn:H2; [|apply lookup_ge_None in H2; lia].
  apply Hns. exists r2. split; [by eapply list_elem_of_lookup_2|]. by eapply Hchain.
Qed.

(** ** Queries *)

Lemma first_of_each_elem seen l x : x ∈ first_of_each seen l ↔ x ∈ l ∧ x ∉ seen.
Proof.
  revert seen. induction l as [|y l IH]; intros seen; cbn; [set_solver|].
  case_bool_decide as Hy; rewrite ?elem_of_cons, IH; [|rewrite elem_of_cons]; split.
  - intros [? ?]. split; [by right|done].
  - intros [[->|?] ?]; done.
  - intros [->|[? ?]]; [split; [by left|done]|]. split; [by right|]. intros ?. by destruct H0; right.
  - intros [[->|Hx] Hs]; [by left|]. destruct (decide (x = y)) as [->|Hne]; [by left|].
    right. split; [done|]. by intros [?|?].
Qed.

Lemma first_of_each_NoDup seen l : NoDup (first_of_each seen l).
Proof.
  revert seen. induction l as [|y l IH]; intros seen; cbn; [constructor|].
  case_bool_decide; [apply IH|]. constructor; [|apply IH]. rewrite first_of_each_elem. set_solver.
Qed.

Lemma latest_window w s r :
  consistent s → getLatestForWindow localeCompare w s = Some r → r ∈ rows s ∧ r_windowId r = w.
Proof using Hanti HC.
  intros Hs (Hin & _)%latestOf_Some. rewrite (windows_agree _ Hs) in Hin.
  apply list_elem_of_In, filter_In in Hin as [Hin Hw]. apply String.eqb_eq in Hw.
  by apply list_elem_of_In in Hin.
Qed.

(** What a query without superseded records returns: the latest records of the
    windows with a match, as far as they match; once each. *)
Lemma query_latest matches o s r :
  consistent s → default true (latestOnly o) = true →
  r ∈ query localeCompare matches o s ↔
  matches r = true ∧ getLatestForWindow localeCompare (r_windowId r) s = Some r ∧
  ∃ r0, r0 ∈ rows s ∧ r_windowId r0 = r_windowId r ∧ matches r0 = true ∧ in_range o r0 = true.
Proof using Hanti HC.
  intros Hs Hlatest. unfold query. rewrite Hlatest.
  set (found := List.filter (λ r, matches r && in_range o r) (mvals (byRecordId s))).
  assert (∀ r0, r0 ∈ found ↔ r0 ∈ rows s ∧ matches r0 = true ∧ in_range o r0 = true) as Hfound.
  { intros r0. unfold found. by rewrite list_elem_of_In, filter_In, <-list_elem_of_In, andb_true_iff. }
  rewrite list_elem_of_In, filter_In, <-list_elem_of_In, list_elem_of_omap.
  setoid_rewrite first_of_each_elem. setoid_rewrite (list_elem_of_fmap r_windowId). split.
  - intros [(w & [(r0 & -> & Hin) _] & Hl) Hmatch]. apply Hfound in Hin as (Hin & Hm & Hr).
    destruct (latest_window _ _ _ Hs Hl) as [_ Hw]. rewrite Hw. split_and!; [done|done|].
    by exists r0.
  - intros (Hm & Hl & r0 & Hin & Hw & Hm0 & Hr0). split; [|done]. exists (r_windowId r). split; [|done].
    split; [|apply not_elem_of_nil]. exists r0. rewrite Hw. split; [done|]. by apply Hfound.
Qed.

(** The two backends answer alike as long as corrections stay with their worker and
    operator. *)
Lemma backends_agree matches o s :
  consistent s →
  (∀ r r', r ∈ rows s → r' ∈ rows s → r_windowId r = r_windowId r' → matches r = matches r') →
  query localeCompare matches o s = queryBy localeCompare matches o (rows s).
Proof using Hanti HC.
  intros Hs Hsame. unfold query, queryBy, runLatestOnlyAwareQuery.
  destruct (default true (latestOnly o)); [|done]. fold (rows s).
  set (found := List.filter (λ r, matches r && in_range o r) (rows s)).
  assert (∀ w, w ∈ first_of_each [] (r_windowId <$> found) →
    ∃ r0, r0 ∈ rows s ∧ r_windowId r0 = w ∧ matches r0 = true) as Hws.
  { intros w [(r0 & -> & Hin)%list_elem_of_fmap _]%first_of_each_elem. exists r0.
    apply list_elem_of_In, filter_In in Hin as [Hin Hm]. apply andb_true_iff in Hm as [Hm _].
    by apply list_elem_of_In in Hin. }
  clearbody found. revert Hws. induction (first_of_each [] (r_windowId <$> found)) as [|w ws IH]; intros Hws; [done|].
  cbn [omap list_omap]. unfold getLatestForWindow at 1. rewrite (windows_agree _ Hs). unfold of_window.
  destruct (latestOf _) as [r|] eqn:Hr; [|apply IH; intros; apply Hws; by right].
  assert (getLatestForWindow localeCompare w s = Some r) as Hl
    by (unfold getLatestForWindow; by rewrite (windows_agree _ Hs)).
  destruct (latest_window _ _ _ Hs Hl) as [Hin Hw]. destruct (Hws w) as (r0 & Hin0 & Hw0 & Hm0); [by left|].
  cbn [List.filter]. rewrite (Hsame r r0 Hin Hin0), Hm0 by congruence. f_equal.
  apply IH. intros; apply Hws; by right.
Qed.
End latest.

(** ** The adapter *)

(** What the backstop records it reads back, and nothing unscored. *)
Lemma adapter_round_trip recordDefaults now v :
  toWindowVerdict (record_of now (adapter_input recordDefaults v)) = Some v.
Proof.
  unfold adapter_input, record_of, toWindowVerdict. destruct (recordDefaults v) as [id version].
  destruct v as [worker op w st l1 l2]. by destruct st.
Qed.

Lemma unscored_hidden r :
  toWindowVerdict r = None ↔ status (r_verdict r) ∈ EXCLUDED_FROM_SCORING.
Proof.
  unfold toWindowVerdict, EXCLUDED_FROM_SCORING. rewrite !elem_of_cons, elem_of_nil.
  destruct (status (r_verdict r)); cbn; intuition congruence.
Qed.

(** ** Concrete runs *)

Definition demo_input (id op : string) (st : WorkerFireVerdictStatus) (sup : option string) : RecordVerdictInput :=
  {| i_verdict := bare {| windowId := "w:t:10"; workerId := "w"; conditionLedger := 10; deadlineLedger := 15 |} st None;
     i_recordId := id; i_operator := op; i_engineVersion := "1"; i_recordedAt := None;
     i_supersedes := sup; i_correctionReason := (λ _, "engine changed") <$> sup |}.

Definition demo_store (cs : list verdict_call) : MemoryWorkerVerdictStore := records cs empty_verdict_store.

Definition latest_id (cs : list verdict_call) : option string :=
  recordId <$> getLatestForWindow code_order "w:t:10" (demo_store cs).

Example corrected_run :
  latest_id [("t1", demo_input "a" "op" missed None); ("t0", demo_input "b" "op" late (Some "a"))] = Some "b" ∧
  (record_verdict "t2" (demo_input "a" "op" fired None)
     (demo_store [("t1", demo_input "a" "op" missed None)])).1 = Err DuplicateVerdictRecord.
Proof. split; reflexivity. Qed.

(** A record that names itself, or two that name each other, leave the window
    without a latest record. *)
Lemma circular_correction_hides :
  latest_id [("t1", demo_input "a" "op" missed None); ("t2", demo_input "b" "op" late (Some "b"))] = Some "a" ∧
  latest_id [("t1", demo_input "a" "op" missed (Some "b")); ("t2", demo_input "b" "op" late (Some "a"))] = None.
Proof. split; reflexivity. Qed.

(** A correction that moves a window to another operator disappears from a query
    for the old one in memory, and is returned by PostgreSQL. *)
Lemma moved_correction_splits_backends :
  let s := demo_store [("t1", demo_input "a" "op" missed None); ("t2", demo_input "b" "other" late (Some "a"))] in
  let o := {| q_fromLedger := None; q_toLedger := None; latestOnly := None |} in
  recordId <$> queryByOperator code_order "op" o s = [] ∧
  recordId <$> queryBy code_order (λ r, String.eqb (operator r) "op") o (rows s) = ["b"].
Proof. split; reflexivity. Qed.

Lemma code_order_anti s t : Z.sgn (code_order s t) = (- Z.sgn (code_order t s))%Z.
Proof. unfold code_order. rewrite (String.compare_antisym t s). by destruct (s ?= t)%string. Qed.

Lemma latest_follows_corrections_witness :
  let s := demo_store [("t1", demo_input "a" "op" missed None); ("t0", demo_input "b" "op" late (Some "a"))] in
  ∃ r, getLatestForWindow code_order "w:t:10" s = Some r ∧
    last (getHistoryForWindow "w:t:10" s) = Some r.
Proof.
  cbn zeta.
  destruct (latest_follows_corrections code_order code_order_anti "w:t:10"
    (demo_store [("t1", demo_input "a" "op" missed None); ("t0", demo_input "b" "op" late (Some "a"))]))
    as (r & Hr & _ & _ & _ & Hchain).
  - intros i j r r' Hi Hj. destruct i as [|[|i]]; destruct j as [|[|j]];
      vm_compute in Hi, Hj; try discriminate Hi; try discriminate Hj;
      injection Hi as <-; injection Hj as <-; vm_compute; intros H; try discriminate H; lia.
  - done.
  - exists r. split; [exact Hr|]. apply Hchain. intros i r1 r2 H1 H2.
    destruct i as [|i]; vm_compute in H1, H2; [|discriminate H2].
    injection H1 as <-. injection H2 as <-. vm_compute. reflexivity.
Defined.
