(* ===== verification/Slo.v ===== *)
(** * The service level of the backstop (packages/worker-core/src/backstop/slo.ts,
    abi-registry/src/verdictStore.ts)

    The window store and the scorer are ports: a state with its operations.  The
    store of the verdicts is the in-memory one; an alert is a call that may
    reject, by an argument.  Window ledgers are integers, the dependencies are
    there and statuses are of the type. *)

From S2P Require Import Prelude.
From S2P Require Import JsMap.
From S2P Require Import VerdictStore.

(** ** The verdict store of abi-registry *)

Inductive VerdictStatus := verified | mismatch | abi_unverifiable.

#[export] Instance VerdictStatus_eq_dec : EqDecision VerdictStatus.
Proof. solve_decision. Defined.

(** What the service level writes of a record. *)
Record VerdictRecord := {
  contractId : string;
  abi_status : VerdictStatus;
  verifiedAt : string;
  previousStatus : option VerdictStatus;
}.

Record InMemoryVerdictStore := { verdict_records : jsmap string (list VerdictRecord) }.

Definition getHistory (c : string) (s : InMemoryVerdictStore) : list VerdictRecord :=
  default [] (mget c (verdict_records s)).

Definition record (v : VerdictRecord) (s : InMemoryVerdictStore) : InMemoryVerdictStore :=
  {| verdict_records := mset (contractId v) (getHistory (contractId v) s ++ [v]) (verdict_records s) |}.

Definition getLatest (c : string) (s : InMemoryVerdictStore) : option VerdictRecord :=
  match mget c (verdict_records s) with Some l => last l | None => None end.

Definition getAll (s : InMemoryVerdictStore) : list VerdictRecord := omap last (mvals (verdict_records s)).

(** ** Input and result *)

Definition ORBITAL_BACKSTOP_OPERATOR_ID : string := "orbital".
Definition MAX_LEDGER : Z := 1000000.
Definition MAX_STROOPS : Z := 9223372036854775807.

Record BackstopSloBounds := {
  latencyBoundLedgers : jsnum;
  gracePeriodLedgers : jsnum;
  xlmFloatMinStroops : Z;
  monitoringLagGraceLedgers : jsnum;
}.

Inductive SloStatus := meeting | breached | slo_unverifiable.

Record OperatorScore := { os_operatorId : string; formulaVersion : string; scored : bool }.

Record EvaluateBackstopSloInput := {
  windows : list WorkerWindowVerdict;
  bounds : BackstopSloBounds;
  xlmFloatStroops : Z;
  chainHeadLedger : jsnum;
  lastProcessedLedger : jsnum;
}.

Record BackstopSloResult := {
  slo_status : SloStatus;
  operatorScore : OperatorScore;
  abiRecord : VerdictRecord;
}.

Inductive BackstopSloErrorCode :=
  | INVALID_OPERATOR | LEDGER_OUT_OF_RANGE | STROOPS_OUT_OF_RANGE | BOUNDS_OUT_OF_RANGE.

(** What a call rejects with: its own error, or that of a port. *)
Inductive SloError :=
  | BackstopSloError (code : BackstopSloErrorCode)
  | StoreRejected | ScorerRejected | AlertRejected.

(** ** Checks *)

Definition assertLedger (n : jsnum) : result SloError Z :=
  match as_integer n with
  | Some z => if (z <? 0)%Z || (MAX_LEDGER <? z)%Z then Err (BackstopSloError LEDGER_OUT_OF_RANGE) else Ok z
  | None => Err (BackstopSloError LEDGER_OUT_OF_RANGE)
  end.

Definition assertBoundLedger (n : jsnum) : result SloError Z :=
  match as_integer n with
  | Some z => if (z <? 1)%Z || (MAX_LEDGER <? z)%Z then Err (BackstopSloError BOUNDS_OUT_OF_RANGE) else Ok z
  | None => Err (BackstopSloError BOUNDS_OUT_OF_RANGE)
  end.

Definition sloToAbi (s : SloStatus) : VerdictStatus :=
  match s with meeting => verified | breached => mismatch | slo_unverifiable => abi_unverifiable end.

Definition assertOperatorId (id : string) : result SloError unit :=
  reject_if ((String.length id =? 0) || (128 <? String.length id)) (BackstopSloError INVALID_OPERATOR).

Definition stroops_out (z : Z) : bool := (z <? 0)%Z || (MAX_STROOPS <? z)%Z.

(** The checks before the loop; what they leave is the lag and its grace. *)
Definition check_input (i : EvaluateBackstopSloInput) : result SloError (Z * Z) :=
  _ ← assertBoundLedger (latencyBoundLedgers (bounds i));
  _ ← assertBoundLedger (gracePeriodLedgers (bounds i));
  grace ← assertBoundLedger (monitoringLagGraceLedgers (bounds i));
  _ ← reject_if (stroops_out (xlmFloatMinStroops (bounds i))) (BackstopSloError BOUNDS_OUT_OF_RANGE);
  head ← assertLedger (chainHeadLedger i);
  processed ← assertLedger (lastProcessedLedger i);
  _ ← reject_if (head <? processed)%Z (BackstopSloError LEDGER_OUT_OF_RANGE);
  _ ← reject_if (stroops_out (xlmFloatStroops i)) (BackstopSloError STROOPS_OUT_OF_RANGE);
  Ok ((head - processed)%Z, grace).

Definition check_window (w : WorkerWindowVerdict) : result SloError unit :=
  _ ← assertOperatorId (operatorId w);
  _ ← reject_if (negb (String.eqb (operatorId w) ORBITAL_BACKSTOP_OPERATOR_ID)) (BackstopSloError INVALID_OPERATOR);
  _ ← assertLedger (jint (ledgerStart w));
  _ ← assertLedger (jint (ledgerEnd w));
  Ok tt.

(** ** evaluateBackstopSlo *)

(** The window store and the scorer. *)
Class SloPorts (St : Type) := {
  port_record : WorkerWindowVerdict → St → result unit unit * St;
  port_getByOperator : string → St → list WorkerWindowVerdict;
  port_score : string → St → result unit OperatorScore;
}.

Record SloWorld (St : Type) := {
  store : St;
  slo_store : InMemoryVerdictStore;
  alerts : list (VerdictRecord * VerdictRecord);
}.
Arguments store {St} s.
Arguments slo_store {St} s.
Arguments alerts {St} s.
Arguments Build_SloWorld {St}.

Section slo.
Context {St : Type} `{SloPorts St}.
Notation world := (SloWorld St).

(** The loop over the windows: each is recorded before the next is checked. *)
Fixpoint record_windows (ws : list WorkerWindowVerdict) : method world SloError unit :=
  match ws with
  | [] => mret tt
  | w :: ws' =>
      lift_result (check_window w) ≫= λ _,
      (λ s, match port_record w (store s) with
            | (Ok _, st) => (Ok tt, Build_SloWorld st (slo_store s) (alerts s))
            | (Err _, st) => (Err StoreRejected, Build_SloWorld st (slo_store s) (alerts s))
            end) ≫= λ _,
      record_windows ws'
  end.

Definition is_missed (w : WorkerWindowVerdict) : bool := bool_decide (wv_status w = w_missed).

Definition status_of (i : EvaluateBackstopSloInput) (lag grace : Z) : SloStatus :=
  if existsb is_missed (windows i) || (xlmFloatStroops i <? xlmFloatMinStroops (bounds i))%Z || (grace <? lag)%Z
  then breached
  else match windows i with [] => slo_unverifiable | _ => meeting end.

Definition score_of (s : world) : result SloError OperatorScore :=
  match port_score ORBITAL_BACKSTOP_OPERATOR_ID (store s) with
  | Err _ => Err ScorerRejected
  | Ok score =>
      Ok (match port_getByOperator ORBITAL_BACKSTOP_OPERATOR_ID (store s) with
          | [] => {| os_operatorId := ORBITAL_BACKSTOP_OPERATOR_ID; formulaVersion := formulaVersion score;
                     scored := false |}
          | _ => score
          end)
  end.

Definition slo_contract : string := "backstop:" +:+ ORBITAL_BACKSTOP_OPERATOR_ID.

(** The previous record an alert names, when there is something to alert. *)
Definition alert_due (previous : option VerdictRecord) (abi : VerdictStatus) : option VerdictRecord :=
  let isRepeat := bool_decide (abi_status <$> previous = Some abi) in
  let isFirstNonBreach := bool_decide (previous = None) && negb (bool_decide (abi = mismatch)) in
  if negb isRepeat && negb isFirstNonBreach then
    Some (default {| contractId := slo_contract; abi_status := verified; verifiedAt := "";
                     previousStatus := None |} previous)
  else None.

(** [now] is the time written, [alert_ok] whether the alert is taken. *)
Definition publish (now : string) (alert_ok : bool) (status : SloStatus) : method world SloError VerdictRecord :=
  λ s,
    let previous := getLatest slo_contract (slo_store s) in
    let r := {| contractId := slo_contract; abi_status := sloToAbi status; verifiedAt := now;
                previousStatus := abi_status <$> previous |} in
    let s1 := Build_SloWorld (store s) (record r (slo_store s)) (alerts s) in
    match alert_due previous (sloToAbi status) with
    | None => (Ok r, s1)
    | Some prev =>
        if alert_ok then (Ok r, Build_SloWorld (store s1) (slo_store s1) (alerts s1 ++ [(prev, r)]))
        else (Err AlertRejected, s1)
    end.

Definition evaluateBackstopSlo (now : string) (alert_ok : bool) (i : EvaluateBackstopSloInput)
    : method world SloError BackstopSloResult :=
  lift_result (check_input i) ≫= λ lg,
  record_windows (windows i) ≫= λ _,
  (λ s, (score_of s, s)) ≫= λ score,
  publish now alert_ok (status_of i lg.1 lg.2) ≫= λ r,
  mret {| slo_status := status_of i lg.1 lg.2; operatorScore := score; abiRecord := r |}.
End slo.

(** ** What is promised *)

(** The alerts a sequence of statuses calls for; the first is compared with
    verified, and only a breach is told of then. *)
Definition turn (previous : option VerdictStatus) (x : VerdictStatus) : list (VerdictStatus * VerdictStatus) :=
  match previous with
  | None => if bool_decide (x = mismatch) then [(verified, x)] else []
  | Some p => if bool_decide (p = x) then [] else [(p, x)]
  end.

Fixpoint turns (previous : option VerdictStatus) (l : list VerdictStatus) : list (VerdictStatus * VerdictStatus) :=
  match l with [] => [] | x :: l' => turn previous x ++ turns (Some x) l' end.

Lemma turns_snoc p l x :
  turns p (l ++ [x]) = turns p l ++ turn (match last l with Some y => Some y | None => p end) x.
Proof.
  revert p. induction l as [|y l IH]; intros p; cbn [turns app]; [by rewrite app_nil_r|].
  rewrite IH, app_assoc, last_cons. by destruct (last l).
Qed.

Section properties.
Context {St : Type} `{SloPorts St}.
Notation world := (SloWorld St).

(** The published statuses, oldest first. *)
Definition history (s : world) : list VerdictStatus := abi_status <$> getHistory slo_contract (slo_store s).

Definition told (s : world) : list (VerdictStatus * VerdictStatus) :=
  prod_map abi_status abi_status <$> alerts s.

Lemma getLatest_history s : abi_status <$> getLatest slo_contract (slo_store s) = last (history s).
Proof.
  unfold getLatest, history, getHistory. destruct (mget slo_contract (verdict_records (slo_store s))); cbn; [|done].
  by rewrite fmap_last.
Qed.

Lemma getHistory_record v st : getHistory (contractId v) (record v st) = getHistory (contractId v) st ++ [v].
Proof. unfold getHistory at 1, record. cbn. by rewrite mget_mset_eq. Qed.

Lemma record_windows_same ws s out s' :
  record_windows ws s = (out, s') → slo_store s' = slo_store s ∧ alerts s' = alerts s.
Proof.
  revert s. induction ws as [|w ws IH]; intros s; cbn; [by intros [= <- <-]|].
  unfold mbind, method_bind, lift_result. destruct (check_window w); [|by intros [= <- <-]].
  destruct (port_record w (store s)) as [[u|] st]; [|by intros [= <- <-]].
  intros [? ?]%IH. done.
Qed.

Lemma alert_due_turn (previous : option VerdictRecord) (x : VerdictStatus) (r : VerdictRecord) :
  abi_status r = x →
  match alert_due previous x with Some prev => [(abi_status prev, abi_status r)] | None => [] end =
  turn (abi_status <$> previous) x.
Proof.
  intros ->. unfold alert_due, turn. destruct previous as [p|]; cbn [fmap option_fmap option_map default].
  - rewrite (bool_decide_eq_false_2 (Some p = None)) by done. cbn [negb andb].
    rewrite (bool_decide_ext (Some (abi_status p) = Some x) (abi_status p = x)) by (split; [by intros [= ?]|by intros ->]).
    by destruct (bool_decide (abi_status p = x)).
  - rewrite (bool_decide_eq_false_2 (None = Some x)) by done.
    rewrite (bool_decide_eq_true_2 (None = None)) by done. cbn [negb andb].
    by destruct (bool_decide (x = mismatch)).
Qed.

(** One publication: the history gets the status, and the alerts what it calls for. *)
Lemma publish_spec now ok status s out s' :
  publish now ok status s = (out, s') →
  history s' = history s ++ [sloToAbi status] ∧ store s' = store s ∧
  (ok = true → told s' = told s ++ turn (last (history s)) (sloToAbi status)) ∧
  (∃ r, getLatest slo_contract (slo_store s') = Some r ∧ abi_status r = sloToAbi status ∧
     previousStatus r = last (history s) ∧ ∀ r', out = Ok r' → r' = r).
Proof.
  unfold publish. set (r := {| contractId := slo_contract |}).
  assert (∀ s1 : world, slo_store s1 = record r (slo_store s) →
    history s1 = history s ++ [sloToAbi status] ∧ getLatest slo_contract (slo_store s1) = Some r) as Hrec.
  { intros s1 Hs1. unfold history. rewrite Hs1. change slo_contract with (contractId r).
    rewrite getHistory_record, fmap_app. split; [done|]. unfold getLatest, record. cbn [verdict_records].
    by rewrite mget_mset_eq, last_snoc. }
  pose proof (alert_due_turn (getLatest slo_contract (slo_store s)) (sloToAbi status) r eq_refl) as Hturn.
  rewrite getLatest_history in Hturn.
  destruct (alert_due _ _) as [prev|]; [destruct ok|]; intros [= <- <-];
    match goal with |- context [history ?s1] => destruct (Hrec s1 eq_refl) as [-> ->] end;
    (split_and!; [done|done| |exists r; split_and!; [done|done|apply getLatest_history|by intros ? [= <-]]]).
  - intros _. unfold told. cbn [alerts]. rewrite fmap_app, <-Hturn. done.
  - done.
  - intros _. rewrite <-Hturn, app_nil_r. done.
Qed.

Lemma evaluate_cases now ok i s out s' :
  evaluateBackstopSlo now ok i s = (out, s') →
  (history s' = history s ∧ told s' = told s ∧ ∀ res, out ≠ Ok res) ∨
  (∃ lag grace, check_input i = Ok (lag, grace) ∧
     let x := sloToAbi (status_of i lag grace) in
     history s' = history s ++ [x] ∧
     (ok = true → told s' = told s ++ turn (last (history s)) x) ∧
     ∀ res, out = Ok res → slo_status res = status_of i lag grace ∧
       getLatest slo_contract (slo_store s') = Some (abiRecord res) ∧
       abi_status (abiRecord res) = x ∧ previousStatus (abiRecord res) = last (history s)).
Proof.
  unfold evaluateBackstopSlo, mbind, method_bind, lift_result.
  destruct (check_input i) as [[lag grace]|]; [|intros [= <- <-]; by left].
  destruct (record_windows (windows i) s) as [[u|] s1] eqn:Hw; apply record_windows_same in Hw as [Hslo Hal].
  2:{ intros [= <- <-]. left. unfold history, told. by rewrite Hslo, Hal. }
  assert (history s1 = history s) as Hh by (unfold history; by rewrite Hslo).
  assert (told s1 = told s) as Ht by (unfold told; by rewrite Hal).
  destruct (score_of s1); [|intros [= <- <-]; left; by rewrite Hh, Ht].
  cbn [fst snd]. destruct (publish now ok (status_of i lag grace) s1) as [o s2] eqn:Hp.
  apply publish_spec in Hp as (Hhist & _ & Htold & r & Hlatest & Hr & Hprev & Hout).
  intros Hres. right. exists lag, grace. split; [done|]. cbn zeta. rewrite <-Hh, <-Ht.
  destruct o as [r'|e]; injection Hres as <- <-.
  - split_and!; [done|done|]. intros res [= <-]. cbn. by rewrite (Hout r' eq_refl).
  - done.
Qed.

Lemma existsb_missed ws : existsb is_missed ws = true ↔ ∃ w, w ∈ ws ∧ wv_status w = w_missed.
Proof. rewrite existsb_Exists. unfold is_missed. by setoid_rewrite bool_decide_eq_true. Qed.

(** An evaluation that succeeds publishes a breach exactly when a window was
    missed, the float is below its minimum or the ledgers lag by more than the
    grace; otherwise that nothing is known when there was no window, and that the
    level is met when there was.  What it published is the latest record, and
    names the status before. *)
Theorem slo_status_exact now ok i s res s' :
  evaluateBackstopSlo now ok i s = (Ok res, s') →
  (∃ lag grace, check_input i = Ok (lag, grace) ∧
    let breach := (∃ w, w ∈ windows i ∧ wv_status w = w_missed) ∨
      (xlmFloatStroops i < xlmFloatMinStroops (bounds i))%Z ∨ (grace < lag)%Z in
    (slo_status res = breached ↔ breach) ∧
    (slo_status res = slo_unverifiable ↔ ¬ breach ∧ windows i = []) ∧
    (slo_status res = meeting ↔ ¬ breach ∧ windows i ≠ [])) ∧
  getLatest slo_contract (slo_store s') = Some (abiRecord res) ∧
  abi_status (abiRecord res) = sloToAbi (slo_status res) ∧
  previousStatus (abiRecord res) = last (history s).
Proof.
  intros [(_ & _ & Hno)|(lag & grace & Hcheck & _ & _ & Hres)]%evaluate_cases; [by destruct (Hno res)|].
  destruct (Hres res eq_refl) as (Hs & Hl & Hx & Hp). rewrite <-Hs in Hx. split; [|done].
  exists lag, grace. split; [done|]. cbn zeta. rewrite Hs. unfold status_of. rewrite <-existsb_missed.
  destruct (existsb is_missed (windows i)); cbn [orb]; [intuition congruence|].
  destruct (Z.ltb_spec (xlmFloatStroops i) (xlmFloatMinStroops (bounds i))); cbn [orb]; [intuition congruence|].
  destruct (Z.ltb_spec grace lag); [intuition congruence|].
  destruct (windows i); intuition (congruence || lia).
Qed.

(** Evaluations, one after the other. *)
Fixpoint evaluations (l : list (string * bool * EvaluateBackstopSloInput)) (s : world) : world :=
  match l with
  | [] => s
  | (now, ok, i) :: l' => evaluations l' (evaluateBackstopSlo now ok i s).2
  end.

(** While alerts are taken, the alerts sent are exactly the turns of the
    published statuses, in order: one for every change, a first breach included,
    and none for a repetition. *)
Theorem alerts_are_turns l st :
  Forall (λ x, x.1.2 = true) l →
  let s := evaluations l (Build_SloWorld st {| verdict_records := [] |} []) in
  told s = turns None (history s).
Proof.
  set (s0 := Build_SloWorld st {| verdict_records := [] |} []). intros Hl. cbn zeta.
  assert (told s0 = turns None (history s0)) as Hinv by done. revert Hinv.
  generalize s0 as s. clear s0. induction Hl as [|[[now ok] i] l Hok _ IH]; intros s Hinv; [done|].
  cbn [evaluations]. apply IH. cbn in Hok.
  destruct (evaluateBackstopSlo now ok i s) as [out s'] eqn:He. cbn [snd].
  apply evaluate_cases in He as [(Hh & Ht & _)|(lag & grace & _ & Hh & Ht & _)].
  - by rewrite Hh, Ht.
  - rewrite Hh, (Ht Hok), turns_snoc, Hinv. by destruct (last (history s)).
Qed.
End properties.

(** ** Concrete runs *)

(** A window store that keeps everything, a scorer that always scores. *)
#[local] Instance demo_ports : SloPorts (list WorkerWindowVerdict) := {|
  port_record := λ w st, (Ok tt, st ++ [w]);
  port_getByOperator := λ o st, List.filter (λ w, String.eqb (operatorId w) o) st;
  port_score := λ o st, Ok {| os_operatorId := o; formulaVersion := "1"; scored := true |};
|}.

Definition demo_slo_window (st : WorkerWindowStatus) : WorkerWindowVerdict :=
  {| wv_workerId := "w"; operatorId := "orbital"; wv_windowId := "w:1"; wv_status := st;
     ledgerStart := 10; ledgerEnd := 15 |}.

Definition demo_slo_input (ws : list WorkerWindowVerdict) (head : Z) : EvaluateBackstopSloInput :=
  {| windows := ws;
     bounds := {| latencyBoundLedgers := jint 5; gracePeriodLedgers := jint 5; xlmFloatMinStroops := 100;
                  monitoringLagGraceLedgers := jint 10 |};
     xlmFloatStroops := 100; chainHeadLedger := jint head; lastProcessedLedger := jint head |}.

Definition slo_start : SloWorld (list WorkerWindowVerdict) := Build_SloWorld [] {| verdict_records := [] |} [].

Definition good := demo_slo_input [demo_slo_window w_fired] 20.
Definition bad := demo_slo_input [demo_slo_window w_missed] 20.
Definition idle := demo_slo_input [] 20.

Example slo_run :
  told (evaluations [("1", true, idle); ("2", true, good); ("3", true, bad); ("4", true, bad); ("5", true, good)] slo_start)
  = [(abi_unverifiable, verified); (verified, mismatch); (mismatch, verified)].
Proof. vm_compute. reflexivity. Qed.

(** An alert that is not taken is lost: the status is stored first, so that the next
    evaluation takes it for a repetition. *)
Lemma rejected_alert_is_lost :
  let s := evaluations [("1", false, bad); ("2", true, bad)] slo_start in
  history s = [mismatch; mismatch] ∧ told s = [].
Proof. vm_compute. split; reflexivity. Qed.

(** The ledgers of the public network, above fifty million, are refused. *)
Lemma present_ledgers_refused :
  (evaluateBackstopSlo "1" true (demo_slo_input [] 50000000) slo_start).1
  = Err (BackstopSloError LEDGER_OUT_OF_RANGE).
Proof. vm_compute. reflexivity. Qed.

(** A window that is refused leaves the windows before it recorded. *)
Lemma refused_input_half_recorded :
  let foreign := {| wv_workerId := "w"; operatorId := "other"; wv_windowId := "w:2"; wv_status := w_fired;
                    ledgerStart := 10; ledgerEnd := 15 |} in
  let '(out, s) := evaluateBackstopSlo "1" true (demo_slo_input [demo_slo_window w_fired; foreign] 20) slo_start in
  out = Err (BackstopSloError INVALID_OPERATOR) ∧ length (store s) = 1.
Proof. vm_compute. split; reflexivity. Qed.

Lemma slo_status_exact_witness :
  ∃ res s', evaluateBackstopSlo "1" true bad slo_start = (Ok res, s') ∧
    getLatest slo_contract (slo_store s') = Some (abiRecord res).
Proof.
  destruct (evaluateBackstopSlo "1" true bad slo_start) as [[res|] s'] eqn:H.
  - exists res, s'. split; [reflexivity|]. apply (slo_status_exact "1" true bad slo_start res s' H).
  - vm_compute in H. discriminate H.
Defined.

Lemma alerts_are_turns_witness :
  told (evaluations [("1", true, idle); ("2", true, bad)] slo_start)
  = turns None (history (evaluations [("1", true, idle); ("2", true, bad)] slo_start)).
Proof. apply (alerts_are_turns [("1", true, idle); ("2", true, bad)] []). repeat constructor. Defined.
