(* ===== verification/Exports.v ===== *)
(** * Ledger exports (packages/worker-core/src/exports)

    The parsers of the two formats, the sources and the reader.  A parser casts
    without checking, so that its records hold JSON values; [typed] is the cast
    to what the types say.  JSON.parse is an argument.  A stream is the ledgers it
    yields and whether it then throws. *)

From Stdlib Require Import Sorted.
From S2P Require Import Prelude.
From S2P Require Import JsValue.
From S2P Require Import Decimal.

(** ** types.ts

    [F] is what the unchecked fields hold, [N] the ledger number. *)

Record LedgerRange := { startLedger : Z; endLedger : Z }.

Inductive ExportOperation (F : Type) :=
  | op_payment (from to : F) (amount asset : string)
  | op_mint (to : F) (amount asset : string)
  | op_burn (from : F) (amount asset : string)
  | op_clawback (from : F) (amount asset : string)
  | op_fee (from : F) (amount : string)
  | op_set_authorized (trustor : F) (asset : string) (authorized : bool).
Arguments op_payment {F} from to amount asset.
Arguments op_mint {F} to amount asset.
Arguments op_burn {F} from amount asset.
Arguments op_clawback {F} from amount asset.
Arguments op_fee {F} from amount.
Arguments op_set_authorized {F} trustor asset authorized.

Record ExportTransaction (F : Type) := { transactionId : F; operations : list (ExportOperation F) }.
Arguments transactionId {F} e.
Arguments operations {F} e.
Arguments Build_ExportTransaction {F}.

Record ExportLedger (F N : Type) := {
  ledgerSequence : N;
  closeTime : F;
  network : F;
  transactions : list (ExportTransaction F);
}.
Arguments ledgerSequence {F N} e.
Arguments closeTime {F N} e.
Arguments network {F N} e.
Arguments transactions {F N} e.
Arguments Build_ExportLedger {F N}.

Inductive ExportFormat := galexie | cdp.

(** ** parsers.ts *)

Section parsers.
Context (fraction_to_string : Z → nat → string).

Definition assetString (asset : jsval) : result js_error string :=
  _ ← readable (λ e, e) asset;
  let asset_type := prop asset "asset_type" in
  if is_str asset_type "native" || is_undef asset_type then Ok "XLM"
  else
    let code := coalesce (prop asset "asset_code") (JStr "UNKNOWN") in
    let issuer := coalesce (prop asset "asset_issuer") (JStr "UNKNOWN") in
    Ok (to_string fraction_to_string code +:+ ":" +:+ to_string fraction_to_string issuer).

(** [typeof op.amount === "string" ? op.amount : undefined], then [?? "0"] *)
Definition amount_of (op : jsval) : string := default "0" (as_string (prop op "amount")).

Definition one_of (v : jsval) (l : list string) : bool := existsb (is_str v) l.

(** The operation of a record, with the names of its fields in the format;
    [asset] is how the format reads the asset. *)
Definition operation_of (type source dest : string) (asset : jsval → jsval) (op : jsval)
    : result js_error (option (ExportOperation jsval)) :=
  _ ← readable (λ e, e) op;
  let t := prop op type in
  let with_asset (f : string → ExportOperation jsval) : result js_error (option (ExportOperation jsval)) :=
    a ← assetString (asset op); Ok (Some (f a)) in
  if is_str t "payment" then with_asset (op_payment (prop op source) (prop op dest) (amount_of op))
  else if one_of t ["mint"; "create_asset"] then with_asset (op_mint (prop op dest) (amount_of op))
  else if is_str t "burn" then with_asset (op_burn (prop op source) (amount_of op))
  else if is_str t "clawback" then with_asset (op_clawback (prop op source) (amount_of op))
  else if is_str t "fee" then Ok (Some (op_fee (prop op source) (amount_of op)))
  else if one_of t ["set_authorized"; "allow_trust"; "set_trust_line_flags"] then
    with_asset (λ a, op_set_authorized (prop op "trustor") a (truthy (prop op "authorized")))
  else Ok None.

Definition galexieOperation : jsval → result js_error (option (ExportOperation jsval)) :=
  operation_of "type" "source_account" "destination" (λ op, prop op "asset").

Definition cdpOperation : jsval → result js_error (option (ExportOperation jsval)) :=
  operation_of "op_type" "source" "dest"
    (λ op, coalesce (prop op "asset") (JObj [("asset_type", JStr "native")])).

(** [v ?? []] as an array to map over *)
Definition array_or_none (v : jsval) : result js_error (list jsval) :=
  match coalesce v (JArr []) with JArr l => Ok l | _ => Err TypeError end.

(** The characters of a text, as [for ... of] gives them. *)
Fixpoint characters (s : string) : list jsval :=
  match s with EmptyString => [] | String c s' => JStr (String c "") :: characters s' end.

(** [for (const x of v ?? [])] *)
Definition iterated (v : jsval) : result js_error (list jsval) :=
  match coalesce v (JArr []) with
  | JArr l => Ok l
  | JStr s => Ok (characters s)
  | _ => Err TypeError
  end.

Definition parse_transaction (id ops : string) (operation : jsval → result js_error (option (ExportOperation jsval)))
    (tx : jsval) : result js_error (ExportTransaction jsval) :=
  _ ← readable (λ e, e) tx;
  raw ← iterated (prop tx ops);
  mapped ← mapM operation raw;
  Ok (Build_ExportTransaction (prop tx id) (omap (λ o, o) mapped)).

Definition parse_ledger (txs id ops seq time : string)
    (operation : jsval → result js_error (option (ExportOperation jsval))) (json : jsval)
    : result js_error (ExportLedger jsval jsval) :=
  _ ← readable (λ e, e) json;
  raw ← array_or_none (prop json txs);
  transactions ← mapM (parse_transaction id ops operation) raw;
  Ok (Build_ExportLedger (prop json seq) (prop json time)
        (coalesce (prop json "network") (JStr "mainnet")) transactions).

Definition parseGalexieLedger : jsval → result js_error (ExportLedger jsval jsval) :=
  parse_ledger "transactions" "transaction_id" "operations" "ledger_sequence" "close_time" galexieOperation.

Definition parseCdpLedger : jsval → result js_error (ExportLedger jsval jsval) :=
  parse_ledger "txs" "hash" "ops" "ledger" "closed_at" cdpOperation.
End parsers.

(** ** What the casts assume *)

Definition typed_operation (o : ExportOperation jsval) : option (ExportOperation string) :=
  match o with
  | op_payment f t a s => f' ← as_string f; t' ← as_string t; Some (op_payment f' t' a s)
  | op_mint t a s => t' ← as_string t; Some (op_mint t' a s)
  | op_burn f a s => f' ← as_string f; Some (op_burn f' a s)
  | op_clawback f a s => f' ← as_string f; Some (op_clawback f' a s)
  | op_fee f a => f' ← as_string f; Some (op_fee f' a)
  | op_set_authorized t s b => t' ← as_string t; Some (op_set_authorized t' s b)
  end.

Definition typed_transaction (t : ExportTransaction jsval) : option (ExportTransaction string) :=
  id ← as_string (transactionId t);
  ops ← mapM typed_operation (operations t);
  Some (Build_ExportTransaction id ops).

Definition typed (l : ExportLedger jsval jsval) : option (ExportLedger string Z) :=
  n ← as_number (ledgerSequence l);
  seq ← as_integer n;
  time ← as_string (closeTime l);
  net ← as_string (network l);
  txs ← mapM typed_transaction (transactions l);
  Some (Build_ExportLedger seq time net txs).

(** ** sources.ts and the reader *)

Notation Ledger := (ExportLedger string Z).

(** What a stream throws with; [OutsideTypes] is a record that is not what the casts
    say, about which nothing is claimed. *)
Inductive ExportError := BadJson | NotAnObject | OutsideTypes.

Definition ledger_stream := (list Ledger * option ExportError)%type.

Definition in_ledger_range (r : LedgerRange) (l : Ledger) : bool :=
  negb (ledgerSequence l <? startLedger r)%Z && negb (endLedger r <=? ledgerSequence l)%Z.

Definition in_range_stream (r : LedgerRange) (s : ledger_stream) : ledger_stream :=
  (List.filter (in_ledger_range r) s.1, s.2).

Section sources.
Context (fraction_to_string : Z → nat → string).
Context (JSON_parse : string → option jsval).

Definition parse_line (format : ExportFormat) (line : string) : result ExportError Ledger :=
  match JSON_parse line with
  | None => Err BadJson
  | Some json =>
      match (match format with
             | galexie => parseGalexieLedger fraction_to_string json
             | cdp => parseCdpLedger fraction_to_string json
             end) with
      | Err _ => Err NotAnObject
      | Ok raw => match typed raw with Some l => Ok l | None => Err OutsideTypes end
      end
  end.

Definition newline : ascii := "010".

(** The lines of one file, then of the next. *)
Fixpoint read_lines (format : ExportFormat) (lines : list string) : ledger_stream :=
  match lines with
  | [] => ([], None)
  | line :: rest =>
      let trimmed := trim line in
      if String.eqb trimmed "" then read_lines format rest
      else match parse_line format trimmed with
      | Err e => ([], Some e)
      | Ok l => let '(ls, e) := read_lines format rest in (l :: ls, e)
      end
  end.

(** [name.endsWith(".jsonl")] *)
Definition is_jsonl (name : string) : bool :=
  let n := String.length name in
  (6 <=? n) && String.eqb (String.substring (n - 6) 6 name) ".jsonl".

(** The directory: its files' names and texts. *)
Definition FileExportSource_read (format : ExportFormat) (files : list (string * string)) (r : LedgerRange)
    : ledger_stream :=
  let chosen := sort_with (λ a b : string * string, String.leb a.1 b.1)
                  (List.filter (λ f : string * string, is_jsonl f.1) files) in
  in_range_stream r (read_lines format (chosen ≫= λ f, str_split newline f.2)).
End sources.

Definition MemoryExportSource_read (ledgers : list Ledger) (r : LedgerRange) : ledger_stream :=
  in_range_stream r (sort_by ledgerSequence ledgers, None).

Fixpoint dedupe (seen : list Z) (l : list Ledger) : list Ledger :=
  match l with
  | [] => []
  | x :: l' =>
      if bool_decide (ledgerSequence x ∈ seen) then dedupe seen l'
      else x :: dedupe (ledgerSequence x :: seen) l'
  end.

(** ExportReader.read *)
Definition reader_read (source : LedgerRange → ledger_stream) (r : LedgerRange) : ledger_stream :=
  let '(ls, e) := source r in (dedupe [] (List.filter (in_ledger_range r) ls), e).

(** ** What the reader promises *)

Lemma dedupe_elem seen l x : x ∈ dedupe seen l → x ∈ l ∧ ledgerSequence x ∉ seen.
Proof.
  revert seen. induction l as [|y l IH]; intros seen; cbn; [by intros ?%not_elem_of_nil|].
  case_bool_decide as Hy.
  - intros [? ?]%IH. split; [by right|done].
  - intros [->|[Hin Hk]%IH]%elem_of_cons; [split; [by left|done]|].
    split; [by right|]. intros H. apply Hk. by right.
Qed.

Lemma dedupe_NoDup seen l : NoDup (ledgerSequence <$> dedupe seen l).
Proof.
  revert seen. induction l as [|y l IH]; intros seen; cbn; [constructor|].
  case_bool_decide; [apply IH|]. cbn. constructor; [|apply IH].
  intros (c & Hk & [_ Hc]%dedupe_elem)%list_elem_of_fmap. apply Hc. rewrite <-Hk. by left.
Qed.

Lemma dedupe_complete seen l x :
  x ∈ l → ledgerSequence x ∉ seen → ∃ y, y ∈ dedupe seen l ∧ ledgerSequence y = ledgerSequence x.
Proof.
  revert seen. induction l as [|y l IH]; intros seen; cbn; [by intros ?%not_elem_of_nil|].
  intros [->|Hin]%elem_of_cons Hk.
  - rewrite bool_decide_eq_false_2 by done. exists y. split; [by left|done].
  - case_bool_decide as Hy; [by apply IH|].
    destruct (decide (ledgerSequence x = ledgerSequence y)) as [Heq|Hne]; [exists y; split; [by left|done]|].
    destruct (IH (ledgerSequence y :: seen) Hin) as (z & Hz & Hzk).
    + by intros [?|?]%elem_of_cons.
    + exists z. split; [by right|done].
Qed.

Lemma dedupe_sorted (R : Ledger → Ledger → Prop) seen l :
  StronglySorted R l → StronglySorted R (dedupe seen l).
Proof.
  intros Hs. revert seen. induction Hs as [|y l Hs IH Hy]; intros seen; cbn; [constructor|].
  case_bool_decide; [apply IH|]. constructor; [apply IH|]. apply Forall_forall.
  intros z [Hz _]%dedupe_elem. rewrite Forall_forall in Hy. by apply Hy.
Qed.

Lemma filter_keeps_sorted {A} (R : A → A → Prop) (f : A → bool) l :
  StronglySorted R l → StronglySorted R (List.filter f l).
Proof.
  induction 1 as [|x l _ IH Hf]; cbn; [constructor|]. destruct (f x); [|done].
  constructor; [done|]. apply Forall_forall. intros y Hy. rewrite Forall_forall in Hf.
  apply Hf. apply list_elem_of_In. apply list_elem_of_In in Hy. by apply filter_In in Hy as [Hy _].
Qed.

(** Ledgers in ascending order, each once. *)
Definition ascending (l : list Ledger) : Prop :=
  StronglySorted (λ x y, (ledgerSequence x < ledgerSequence y)%Z) l.

Lemma sorted_distinct_ascending l :
  StronglySorted (key_le ledgerSequence) l → NoDup (ledgerSequence <$> l) → ascending l.
Proof.
  unfold ascending. induction 1 as [|x l Hs IH Hx]; intros Hnd; cbn in *; [constructor|].
  apply NoDup_cons in Hnd as [Hnew Hnd]. constructor; [by apply IH|].
  apply Forall_forall. intros y Hy. rewrite Forall_forall in Hx. specialize (Hx y Hy). unfold key_le in Hx.
  assert (ledgerSequence x ≠ ledgerSequence y); [|lia]. intros Heq. apply Hnew. rewrite Heq.
  by apply list_elem_of_fmap_2.
Qed.

(** The reader over the in-memory source: the ledgers of the range, ascending, each
    sequence once. *)
Lemma memory_reader_ascending ledgers r ls e :
  reader_read (MemoryExportSource_read ledgers) r = (ls, e) →
  e = None ∧ ascending ls ∧
  (∀ l, l ∈ ls → l ∈ ledgers ∧ in_ledger_range r l = true) ∧
  (∀ l, l ∈ ledgers → in_ledger_range r l = true → ∃ l', l' ∈ ls ∧ ledgerSequence l' = ledgerSequence l).
Proof.
  unfold reader_read, MemoryExportSource_read, in_range_stream. cbn [fst snd]. intros [= <- <-].
  assert (∀ l, l ∈ List.filter (in_ledger_range r) (List.filter (in_ledger_range r) (sort_by ledgerSequence ledgers)) ↔
    l ∈ ledgers ∧ in_ledger_range r l = true) as Hin.
  { intros l. rewrite !list_elem_of_In, !filter_In, <-list_elem_of_In, sort_by_perm. rewrite list_elem_of_In. tauto. }
  split_and!; [done| | |].
  - apply sorted_distinct_ascending; [|apply dedupe_NoDup].
    apply dedupe_sorted, filter_keeps_sorted, filter_keeps_sorted, sort_by_sorted.
  - intros l [Hl _]%dedupe_elem. by apply Hin.
  - intros l Hl Hr. apply dedupe_complete; [by apply Hin|apply not_elem_of_nil].
Qed.

(** ** The two formats say the same *)

(** An asset of an export. *)
Inductive ExportAsset := native_asset | issued_asset (type code issuer : string).

Definition asset_text (a : ExportAsset) : string :=
  match a with native_asset => "XLM" | issued_asset _ code issuer => code +:+ ":" +:+ issuer end.

Definition asset_json (a : ExportAsset) : jsval :=
  match a with
  | native_asset => JObj [("asset_type", JStr "native")]
  | issued_asset t code issuer =>
      JObj [("asset_type", JStr t); ("asset_code", JStr code); ("asset_issuer", JStr issuer)]
  end.

(** The operations of an export with their assets; how each format writes them. *)
Definition Written := (ExportOperation string * ExportAsset)%type.

Definition written_json (type source dest : string) (w : Written) : jsval :=
  let asset := asset_json w.2 in
  match w.1 with
  | op_payment f t a _ =>
      JObj [(type, JStr "payment"); (source, JStr f); (dest, JStr t); ("amount", JStr a); ("asset", asset)]
  | op_mint t a _ => JObj [(type, JStr "mint"); (dest, JStr t); ("amount", JStr a); ("asset", asset)]
  | op_burn f a _ => JObj [(type, JStr "burn"); (source, JStr f); ("amount", JStr a); ("asset", asset)]
  | op_clawback f a _ => JObj [(type, JStr "clawback"); (source, JStr f); ("amount", JStr a); ("asset", asset)]
  | op_fee f a => JObj [(type, JStr "fee"); (source, JStr f); ("amount", JStr a)]
  | op_set_authorized t _ b =>
      JObj [(type, JStr "set_authorized"); ("trustor", JStr t); ("asset", asset); ("authorized", JBool b)]
  end.

(** The operation that is meant. *)
Definition meant (w : Written) : ExportOperation string :=
  let asset := asset_text w.2 in
  match w.1 with
  | op_payment f t a _ => op_payment f t a asset
  | op_mint t a _ => op_mint t a asset
  | op_burn f a _ => op_burn f a asset
  | op_clawback f a _ => op_clawback f a asset
  | op_fee f a => op_fee f a
  | op_set_authorized t _ b => op_set_authorized t asset b
  end.

Definition proper_asset (a : ExportAsset) : Prop :=
  match a with native_asset => True | issued_asset t _ _ => t ≠ "native" end.

Record WrittenLedger := {
  w_sequence : Z;
  w_closeTime : string;
  w_network : string;
  w_transactions : list (string * list Written);
}.

Definition ledger_json (txs id ops seq time type source dest : string) (l : WrittenLedger) : jsval :=
  JObj [(seq, JNum (jint (w_sequence l))); (time, JStr (w_closeTime l)); ("network", JStr (w_network l));
        (txs, JArr (List.map (λ t : string * list Written,
           JObj [(id, JStr t.1); (ops, JArr (List.map (written_json type source dest) t.2))])
           (w_transactions l)))].

Definition galexie_json : WrittenLedger → jsval :=
  ledger_json "transactions" "transaction_id" "operations" "ledger_sequence" "close_time"
    "type" "source_account" "destination".
Definition cdp_json : WrittenLedger → jsval :=
  ledger_json "txs" "hash" "ops" "ledger" "closed_at" "op_type" "source" "dest".

Definition meant_ledger (l : WrittenLedger) : Ledger :=
  Build_ExportLedger (w_sequence l) (w_closeTime l) (w_network l)
    (List.map (λ t : string * list Written, Build_ExportTransaction t.1 (List.map meant t.2)) (w_transactions l)).

Definition proper_ledger (l : WrittenLedger) : Prop :=
  Forall (λ t : string * list Written, Forall (λ w, proper_asset w.2) t.2) (w_transactions l).

Section agree.
Context (fraction_to_string : Z → nat → string).

Lemma assetString_json a : proper_asset a → assetString fraction_to_string (asset_json a) = Ok (asset_text a).
Proof.
  destruct a as [|t code issuer]; [done|]. intros Ht. unfold assetString.
  change (prop (asset_json (issued_asset t code issuer)) "asset_type") with (JStr t).
  cbn [is_str is_undef]. apply String.eqb_neq in Ht. rewrite Ht. done.
Qed.

Lemma galexie_operation_meant w :
  proper_asset w.2 →
  ∃ o, galexieOperation fraction_to_string (written_json "type" "source_account" "destination" w) = Ok (Some o) ∧
    typed_operation o = Some (meant w).
Proof.
  intros Ha%assetString_json. destruct w as [o a]. cbn [snd] in Ha.
  unfold galexieOperation, operation_of. destruct o; cbn -[assetString asset_json]; rewrite ?Ha; eauto.
Qed.

Lemma cdp_operation_meant w :
  proper_asset w.2 →
  ∃ o, cdpOperation fraction_to_string (written_json "op_type" "source" "dest" w) = Ok (Some o) ∧
    typed_operation o = Some (meant w).
Proof.
  intros Ha%assetString_json. destruct w as [o a]. cbn [snd] in Ha.
  assert (coalesce (asset_json a) (JObj [("asset_type", JStr "native")]) = asset_json a) as Hc by by destruct a.
  unfold cdpOperation, operation_of. destruct o; cbn -[assetString asset_json coalesce]; rewrite ?Hc, ?Ha; eauto.
Qed.

(** A list whose elements each give what is meant gives the list that is meant. *)
Lemma all_meant {A B C} (f : A → result js_error B) (g : B → option C) (m : A → C) l :
  Forall (λ x, ∃ y, f x = Ok y ∧ g y = Some (m x)) l →
  ∃ ys, mapM f l = Ok ys ∧ mapM g ys = Some (List.map m l).
Proof.
  induction 1 as [|x l (y & Hf & Hg) _ (ys & Hfs & Hgs)]; [by exists []|].
  exists (y :: ys). cbn. rewrite Hf. cbn. rewrite Hfs. cbn. rewrite Hg. cbn. by rewrite Hgs.
Qed.

Lemma operations_meant (operation : jsval → result js_error (option (ExportOperation jsval))) f ws :
  Forall (λ w, ∃ o, operation (f w) = Ok (Some o) ∧ typed_operation o = Some (meant w)) ws →
  ∃ os, mapM operation (List.map f ws) = Ok os ∧ mapM typed_operation (omap (λ o, o) os) = Some (List.map meant ws).
Proof.
  induction 1 as [|w ws (o & Ho & Ht) _ (os & Hos & Hts)]; [by exists []|].
  exists (Some o :: os). cbn. rewrite Ho. cbn. rewrite Hos. cbn. rewrite Ht. cbn. by rewrite Hts.
Qed.

Lemma transactions_meant id ops operation f (ts : list (string * list Written)) :
  String.eqb id ops = false →
  Forall (λ t : string * list Written,
    Forall (λ w, ∃ o, operation (f w) = Ok (Some o) ∧ typed_operation o = Some (meant w)) t.2) ts →
  ∃ txs, mapM (parse_transaction id ops operation)
      (List.map (λ t : string * list Written, JObj [(id, JStr t.1); (ops, JArr (List.map f t.2))]) ts) = Ok txs ∧
    mapM typed_transaction txs =
      Some (List.map (λ t : string * list Written, Build_ExportTransaction t.1 (List.map meant t.2)) ts).
Proof.
  intros Hne Hts.
  induction Hts as [|[i ws] ts Hws _ (txs & Htxs & Htyped)]; [by exists []|].
  destruct (operations_meant operation f ws Hws) as (os & Hos & Hmeant).
  exists (Build_ExportTransaction (JStr i) (omap (λ o, o) os) :: txs). cbn [List.map mapM mbind fst snd].
  assert (parse_transaction id ops operation (JObj [(id, JStr i); (ops, JArr (List.map f ws))])
    = Ok (Build_ExportTransaction (JStr i) (omap (λ o, o) os))) as ->.
  { unfold parse_transaction. cbn. rewrite Hne, !String.eqb_refl. cbn. by rewrite Hos. }
  rewrite Htxs. split; [reflexivity|].
  assert (typed_transaction (Build_ExportTransaction (JStr i) (omap (λ o, o) os))
    = Some (Build_ExportTransaction i (List.map meant ws))) as ->.
  { unfold typed_transaction. cbn [transactionId operations as_string mbind option_bind]. by rewrite Hmeant. }
  cbn [mbind option_bind]. by rewrite Htyped.
Qed.

(** Both parsers read the same ledger from what their formats write of it, up to
    the native asset and the issued ones: what is computed from an export does not
    depend on its format. *)
Theorem formats_agree l :
  proper_ledger l →
  (raw ← (match parseGalexieLedger fraction_to_string (galexie_json l) with Ok r => Some r | Err _ => None end);
   typed raw) = Some (meant_ledger l) ∧
  (raw ← (match parseCdpLedger fraction_to_string (cdp_json l) with Ok r => Some r | Err _ => None end);
   typed raw) = Some (meant_ledger l).
Proof.
  intros Hl. unfold proper_ledger in Hl. destruct l as [seq time net ts]. cbn [w_transactions] in Hl.
  destruct (transactions_meant "transaction_id" "operations" (galexieOperation fraction_to_string)
    (written_json "type" "source_account" "destination") ts) as (gs & Hgs & Htg); [done| |].
  { eapply Forall_impl; [exact Hl|]. intros t Ht. eapply Forall_impl; [exact Ht|]. apply galexie_operation_meant. }
  destruct (transactions_meant "hash" "ops" (cdpOperation fraction_to_string)
    (written_json "op_type" "source" "dest") ts) as (cs & Hcs & Htc); [done| |].
  { eapply Forall_impl; [exact Hl|]. intros t Ht. eapply Forall_impl; [exact Ht|]. apply cdp_operation_meant. }
  split.
  - unfold parseGalexieLedger, parse_ledger, galexie_json, ledger_json. cbn -[parse_transaction typed].
    rewrite Hgs. cbn -[typed]. unfold typed. cbn -[mapM as_integer jint]. rewrite as_integer_jint. cbn -[mapM]. by rewrite Htg.
  - unfold parseCdpLedger, parse_ledger, cdp_json, ledger_json. cbn -[parse_transaction typed].
    rewrite Hcs. cbn -[typed]. unfold typed. cbn -[mapM as_integer jint]. rewrite as_integer_jint. cbn -[mapM]. by rewrite Htc.
Qed.
End agree.

(** ** Concrete runs *)

(** An operation without an asset ends the Galexie parser, while the CDP parser
    takes the asset for the native one. *)
Lemma assetless_operation_throws :
  let op type source dest := JObj [(type, JStr "payment"); (source, JStr "GA"); (dest, JStr "GB"); ("amount", JStr "1")] in
  galexieOperation (λ _ _, "") (op "type" "source_account" "destination") = Err TypeError ∧
  cdpOperation (λ _ _, "") (op "op_type" "source" "dest") = Ok (Some (op_payment (JStr "GA") (JStr "GB") "1" "XLM")).
Proof. split; reflexivity. Qed.

Definition bare_ledger (n : Z) : Ledger := Build_ExportLedger n "t" "mainnet" [].

(** The file source goes by the names of the files, and the reader keeps its order:
    ten before nine. *)
Lemma file_names_order_ledgers :
  let parse line := if String.eqb line "nine" then
                      Some (JObj [("ledger", JNum (jint 9)); ("closed_at", JStr "t")])
                    else Some (JObj [("ledger", JNum (jint 10)); ("closed_at", JStr "t")]) in
  reader_read (FileExportSource_read (λ _ _, "") parse cdp [("9.jsonl", "nine"); ("10.jsonl", "ten"); ("x.txt", "?")])
    {| startLedger := 0; endLedger := 100 |}
  = ([bare_ledger 10; bare_ledger 9], None).
Proof. vm_compute. reflexivity. Qed.

Definition demo_written : WrittenLedger :=
  {| w_sequence := 7; w_closeTime := "t"; w_network := "testnet";
     w_transactions := [("h", [(op_payment "GA" "GB" "1.5" "", native_asset);
                               (op_set_authorized "GC" "" true, issued_asset "credit_alphanum4" "USD" "GI")])] |}.

Lemma formats_agree_witness :
  (raw ← (match parseGalexieLedger (λ _ _, "") (galexie_json demo_written) with Ok r => Some r | Err _ => None end);
   typed raw) = Some (meant_ledger demo_written).
Proof.
  apply (formats_agree (λ _ _, "") demo_written). repeat constructor. cbn. done.
Defined.
