(* ===== verification/Evidence.v ===== *)
(** * Evidence of a subject (packages/worker-core/src/verification/canonical.ts,
    verdict.ts)

    The one canonical form both the export and the live path bring operations
    into, and the verdict scored from it.  Texts are ASCII; an asset is XLM or
    code:issuer, so no key of an object is an array index; numbers printed are
    below 10^21. *)

From Stdlib Require Import Sorted.
From stdpp Require Import sorting.
From S2P Require Import Prelude.
From S2P Require Import JsMap.
From S2P Require Import JsValue.
From S2P Require Import Decimal.
From S2P Require Import Amount.
From S2P Require Import CanonicalJson.
From S2P Require Import ComputationTrigger.
From S2P Require Import Exports.

(** ** canonical.ts *)

Inductive VerificationEventType :=
  | payment_sent | payment_received | payment_self | mint | burn | clawback | fee | set_authorized.

#[export] Instance verification_event_type_eq_dec : EqDecision VerificationEventType.
Proof. solve_decision. Defined.

Record VerificationEvent := {
  ledger : Z;
  ev_closeTime : string;          (** [closeTime] *)
  kind : VerificationEventType;
  subject : string;
  counterparty : option string;
  asset : string;
  amount : string;
  authorized : option bool;
  txHash : option string;
}.

(** [s.slice(1)] *)
Definition slice1 (s : string) : string := match s with String _ s' => s' | "" => "" end.

Definition canonicalAmount (amount : string) : string :=
  let s := trim amount in
  let negative := starts_with "-" s in
  let abs := if negative then slice1 s else s in
  let parts := str_split "."%char abs in
  let p0 := default "" (parts !! 0) in
  let whole := if String.eqb p0 "" then "0" else p0 in
  let frac := String.substring 0 7 (default "" (parts !! 1) +:+ "0000000") in
  (if negative then "-" else "") +:+ whole +:+ "." +:+ frac.

Definition canonicalAsset (asset : string) : string :=
  let a := trim asset in
  if String.eqb a "native" || String.eqb a "XLM" then "XLM" else a.

Definition upper_char (c : ascii) : ascii :=
  let n := nat_of_ascii c in
  if (97 <=? n) && (n <=? 122) then ascii_of_nat (n - 32) else c.

(** [s.toUpperCase()] *)
Fixpoint to_upper (s : string) : string :=
  match s with EmptyString => "" | String c s' => String (upper_char c) (to_upper s') end.

Definition canonicalAddress (addr : string) : string := to_upper (trim addr).

Definition inferSubjectType (subject : string) : string :=
  if starts_with "C" (canonicalAddress subject) then "contract" else "account".

(** [make] of the code; the operation's asset and amount, or the defaults. *)
Definition make (led : Z) (time : string) (tx : option string) (amt ast : string)
    (subj : string) (k : VerificationEventType) (other : option string) (auth : option bool)
    : VerificationEvent := {|
  ledger := led;
  ev_closeTime := time;
  kind := k;
  subject := canonicalAddress subj;
  counterparty := canonicalAddress <$> other;
  asset := ast;
  amount := amt;
  authorized := auth;
  txHash := tx;
|}.

Definition mapOperationToVerificationEvents (op : ExportOperation string) (led : Z) (time : string)
    (tx : option string) : list VerificationEvent :=
  match op with
  | op_payment from to amt ast =>
      let mk := make led time tx (canonicalAmount amt) (canonicalAsset ast) in
      if String.eqb (canonicalAddress from) (canonicalAddress to) then [mk from payment_self None None]
      else [mk from payment_sent (Some to) None; mk to payment_received (Some from) None]
  | op_mint to amt ast => [make led time tx (canonicalAmount amt) (canonicalAsset ast) to mint None None]
  | op_burn from amt ast => [make led time tx (canonicalAmount amt) (canonicalAsset ast) from burn None None]
  | op_clawback from amt ast =>
      [make led time tx (canonicalAmount amt) (canonicalAsset ast) from clawback None None]
  | op_fee from amt => [make led time tx (canonicalAmount amt) (canonicalAsset "XLM") from fee None None]
  | op_set_authorized trustor ast auth =>
      [make led time tx "0" (canonicalAsset ast) trustor set_authorized None (Some auth)]
  end.

Definition fromTransactions (txs : list (ExportTransaction string)) (led : Z) (time : string)
    : list VerificationEvent :=
  txs ≫= λ tx, operations tx ≫= λ op, mapOperationToVerificationEvents op led time (Some (transactionId tx)).

Definition fromExportLedger (l : ExportLedger string Z) : list VerificationEvent :=
  fromTransactions (transactions l) (ledgerSequence l) (closeTime l).

Record LiveLedger := {
  live_ledger : Z;                (** [ledger] *)
  live_closeTime : string;        (** [closeTime] *)
  live_transactions : list (ExportTransaction string);   (** [transactions] *)
}.

Definition fromLiveLedger (l : LiveLedger) : list VerificationEvent :=
  fromTransactions (live_transactions l) (live_ledger l) (live_closeTime l).

(** ** [BigInt] of a text *)

(** The value of a digit in bases up to sixteen. *)
Definition any_digit (c : ascii) : option N :=
  let n := N_of_ascii c in
  if ((48 <=? n) && (n <=? 57))%N then Some (n - 48)%N
  else if ((97 <=? n) && (n <=? 102))%N then Some (n - 87)%N
  else if ((65 <=? n) && (n <=? 70))%N then Some (n - 55)%N
  else None.

Fixpoint radix_from (base acc : N) (s : string) : option N :=
  match s with
  | EmptyString => Some acc
  | String c s' =>
      match any_digit c with
      | Some d => if (d <? base)%N then radix_from base (acc * base + d) s' else None
      | None => None
      end
  end.

Definition radix_text (base : N) (s : string) : option N :=
  if String.eqb s "" then None else radix_from base 0 s.

Definition unsigned_text (s : string) : option Z := Z.of_N <$> radix_text 10 s.

(** [BigInt(s)]; [None] is its SyntaxError. *)
Definition BigInt_text (s : string) : option Z :=
  let t := trim s in
  match t with
  | EmptyString => Some 0%Z
  | String a (String b r) =>
      if Ascii.eqb a "0" && (Ascii.eqb b "x" || Ascii.eqb b "X") then Z.of_N <$> radix_text 16 r
      else if Ascii.eqb a "0" && (Ascii.eqb b "o" || Ascii.eqb b "O") then Z.of_N <$> radix_text 8 r
      else if Ascii.eqb a "0" && (Ascii.eqb b "b" || Ascii.eqb b "B") then Z.of_N <$> radix_text 2 r
      else if Ascii.eqb a "-" then Z.opp <$> unsigned_text (String b r)
      else if Ascii.eqb a "+" then unsigned_text (String b r)
      else unsigned_text t
  | _ => unsigned_text t
  end.

(** ** verdict.ts *)

Definition VERDICT_SCHEMA_VERSION : Z := 1.

Record VerdictWindow := {
  startLedger : Z;
  endLedger : Z;
  startCloseTime : option string;
  endCloseTime : option string;
}.

(** [Record<VerificationEventType, number>] in the order of EMPTY_COUNTS. *)
Record Counts := {
  n_payment_sent : Z; n_payment_received : Z; n_payment_self : Z; n_mint : Z;
  n_burn : Z; n_clawback : Z; n_fee : Z; n_set_authorized : Z;
}.

Record VerdictMetrics := {
  eventCount : Z;
  firstLedger : option Z;
  lastLedger : option Z;
  counts : Counts;
  volumeByAsset : jsmap string string;
  distinctCounterparties : Z;
  setAuthorizedTrue : Z;
  setAuthorizedFalse : Z;
}.

Inductive VerdictSource := live | backfill.

Record Verdict := {
  v_subject : string;             (** [subject] *)
  subjectType : string;
  v_window : VerdictWindow;       (** [window] *)
  metrics : VerdictMetrics;
  fingerprint : string;
  source : VerdictSource;
  computedAt : string;
}.

Definition EMPTY_COUNTS : Counts := {|
  n_payment_sent := 0; n_payment_received := 0; n_payment_self := 0; n_mint := 0;
  n_burn := 0; n_clawback := 0; n_fee := 0; n_set_authorized := 0;
|}.

(** [counts[kind] += 1] *)
Definition bump_count (k : VerificationEventType) (c : Counts) : Counts :=
  let one t := if decide (k = t) then 1%Z else 0%Z in {|
  n_payment_sent := n_payment_sent c + one payment_sent;
  n_payment_received := n_payment_received c + one payment_received;
  n_payment_self := n_payment_self c + one payment_self;
  n_mint := n_mint c + one mint;
  n_burn := n_burn c + one burn;
  n_clawback := n_clawback c + one clawback;
  n_fee := n_fee c + one fee;
  n_set_authorized := n_set_authorized c + one set_authorized;
|}.

(** A text that BigInt does not read ends the scoring with a SyntaxError. *)
Inductive EvidenceError := NotABigInt.

Definition BigInt_or_throw (s : string) : result EvidenceError Z :=
  match BigInt_text s with Some z => Ok z | None => Err NotABigInt end.

(** The sign a kind of event gives its amount. *)
Definition direction (k : VerificationEventType) : Z :=
  match k with
  | payment_sent | burn | clawback | fee => -1
  | payment_received | mint => 1
  | payment_self | set_authorized => 0
  end.

Definition signedStroops (ev : VerificationEvent) : result EvidenceError Z :=
  let negative := starts_with "-" (amount ev) in
  let abs := if negative then slice1 (amount ev) else amount ev in
  let parts := str_split "."%char abs in
  let or_zero s := if String.eqb s "" then "0" else s in
  w ← BigInt_or_throw (or_zero (default "" (parts !! 0)));
  f ← BigInt_or_throw (or_zero (default "" (parts !! 1)));
  Ok (direction (kind ev) * ((if negative then -1 else 1) * (w * 10000000 + f)))%Z.

Definition formatStroops (stroops : Z) : string :=
  let negative := (stroops <? 0)%Z in
  let abs := if negative then (- stroops)%Z else stroops in
  let whole := (abs / 10000000)%Z in
  let frac := (abs mod 10000000)%Z in
  (if negative then "-" else "") +:+ pretty (Z.to_N whole) +:+ "." +:+ pad_start 7 (pretty (Z.to_N frac)).

(** The variables of the loop of computeVerdict. *)
Record Tally := {
  t_counts : Counts;
  volume : jsmap string Z;
  counterparties : gset string;
  t_setAuthorizedTrue : Z;
  t_setAuthorizedFalse : Z;
  t_firstLedger : option Z;
  t_lastLedger : option Z;
  t_startCloseTime : option string;
  t_endCloseTime : option string;
}.

Definition empty_tally : Tally := {|
  t_counts := EMPTY_COUNTS; volume := []; counterparties := ∅;
  t_setAuthorizedTrue := 0; t_setAuthorizedFalse := 0;
  t_firstLedger := None; t_lastLedger := None; t_startCloseTime := None; t_endCloseTime := None;
|}.

(** [if (best === null || x better than best) best = x] *)
Definition keep_best {A} (better : A → A → bool) (x : A) (best : option A) : option A :=
  match best with Some b => if better x b then Some x else best | None => Some x end.

Definition add_volume (ast : string) (s : Z) (m : jsmap string Z) : jsmap string Z :=
  if (s =? 0)%Z then m else mset ast (default 0 (mget ast m) + s)%Z m.

Definition tally_event (t : Tally) (ev : VerificationEvent) : result EvidenceError Tally :=
  let ast := canonicalAsset (asset ev) in
  s ← signedStroops ev;
  let is_set := bool_decide (kind ev = set_authorized) in
  let is_true := bool_decide (authorized ev = Some true) in
  Ok {|
    t_counts := bump_count (kind ev) (t_counts t);
    volume := add_volume ast s (volume t);
    counterparties := match counterparty ev with
                      | None | Some "" => counterparties t
                      | Some c => {[ canonicalAddress c ]} ∪ counterparties t
                      end;
    t_setAuthorizedTrue := t_setAuthorizedTrue t + (if is_set && is_true then 1 else 0);
    t_setAuthorizedFalse := t_setAuthorizedFalse t + (if is_set && negb is_true then 1 else 0);
    t_firstLedger := keep_best Z.ltb (ledger ev) (t_firstLedger t);
    t_lastLedger := keep_best (λ x y, (y <? x)%Z) (ledger ev) (t_lastLedger t);
    t_startCloseTime := keep_best String.ltb (ev_closeTime ev) (t_startCloseTime t);
    t_endCloseTime := keep_best (λ x y, String.ltb y x) (ev_closeTime ev) (t_endCloseTime t);
  |}.

Fixpoint tally (evs : list VerificationEvent) (t : Tally) : result EvidenceError Tally :=
  match evs with
  | [] => Ok t
  | ev :: evs' => t' ← tally_event t ev; tally evs' t'
  end.

(** [JSON.stringify] of a value without undefined in it. *)
Section json.
Context (fraction_to_string : Z → nat → string).

Fixpoint stringify (v : jsval) : string :=
  match v with
  | JUndef | JNull => "null"
  | JBool true => "true"
  | JBool false => "false"
  | JNum n => if js_isFinite n then num_to_string fraction_to_string n else "null"
  | JStr s => json_string s
  | JArr l => "[" +:+ join "," (List.map stringify l) +:+ "]"
  | JObj fs =>
      "{" +:+ join "," (List.map (λ f : string * jsval, let (k, w) := f in json_string k +:+ ":" +:+ stringify w) fs)
      +:+ "}"
  end.
End json.

Definition or_null {A} (f : A → jsval) (x : option A) : jsval := match x with Some a => f a | None => JNull end.
Definition number (z : Z) : jsval := JNum (jint z).

Definition counts_json (c : Counts) : jsval := JObj [
  ("payment_sent", number (n_payment_sent c)); ("payment_received", number (n_payment_received c));
  ("payment_self", number (n_payment_self c)); ("mint", number (n_mint c)); ("burn", number (n_burn c));
  ("clawback", number (n_clawback c)); ("fee", number (n_fee c)); ("set_authorized", number (n_set_authorized c))].

Definition metrics_json (m : VerdictMetrics) : jsval := JObj [
  ("eventCount", number (eventCount m)); ("firstLedger", or_null number (firstLedger m));
  ("lastLedger", or_null number (lastLedger m)); ("counts", counts_json (counts m));
  ("volumeByAsset", JObj (prod_map (λ a, a) JStr <$> volumeByAsset m));
  ("distinctCounterparties", number (distinctCounterparties m));
  ("setAuthorizedTrue", number (setAuthorizedTrue m)); ("setAuthorizedFalse", number (setAuthorizedFalse m))].

(** The object verdictCore hands to JSON.stringify. *)
Definition core_json (subj : string) (win : Z * Z) (m : VerdictMetrics) : jsval := JObj [
  ("v", number VERDICT_SCHEMA_VERSION); ("subject", JStr (canonicalAddress subj));
  ("subjectType", JStr (inferSubjectType subj));
  ("window", JObj [("startLedger", number win.1); ("endLedger", number win.2)]);
  ("metrics", metrics_json m)].

(** No number of it is a fraction. *)
Definition verdictCore (subj : string) (win : Z * Z) (m : VerdictMetrics) : string :=
  stringify (λ _ _, "") (core_json subj win m).

Definition verdictCoreBytes (v : Verdict) : string :=
  verdictCore (v_subject v) (startLedger (v_window v), endLedger (v_window v)) (metrics v).

(** [sha256] is the digest in hexadecimal, [now] the clock where no time is given. *)
Section scoring.
Context (localeCompare : string → string → Z).
Context (sha256 : string → string).

Definition by_asset (a b : string * Z) : bool := (localeCompare a.1 b.1 <=? 0)%Z.

Definition metrics_of (n : nat) (t : Tally) : VerdictMetrics := {|
  eventCount := Z.of_nat n;
  firstLedger := t_firstLedger t;
  lastLedger := t_lastLedger t;
  counts := t_counts t;
  volumeByAsset := prod_map (λ a, a) formatStroops <$> sort_with by_asset (volume t);
  distinctCounterparties := Z.of_nat (size (counterparties t));
  setAuthorizedTrue := t_setAuthorizedTrue t;
  setAuthorizedFalse := t_setAuthorizedFalse t;
|}.

Definition computeVerdict (now : string) (subj : string) (win : Z * Z) (events : list VerificationEvent)
    (src : option VerdictSource) (at_ : option string) : result EvidenceError Verdict :=
  t ← tally events empty_tally;
  let m := metrics_of (length events) t in
  let canonicalSubject := canonicalAddress subj in
  Ok {|
    v_subject := canonicalSubject;
    subjectType := inferSubjectType subj;
    v_window := {| startLedger := win.1; endLedger := win.2;
                   startCloseTime := t_startCloseTime t; endCloseTime := t_endCloseTime t |};
    metrics := m;
    fingerprint := sha256 (verdictCore canonicalSubject win m);
    source := default backfill src;
    computedAt := default now at_;
  |}.
End scoring.

(** ** The loop, field by field *)

Definition contribution (ev : VerificationEvent) : Z :=
  match signedStroops ev with Ok z => z | Err _ => 0%Z end.

Definition readable_event (ev : VerificationEvent) : Prop := is_ok (signedStroops ev) = true.

Definition known_counterparty (ev : VerificationEvent) : gset string :=
  match counterparty ev with None | Some "" => ∅ | Some c => {[ canonicalAddress c ]} end.

Definition authorizes (b : bool) (ev : VerificationEvent) : bool :=
  bool_decide (kind ev = set_authorized) && Bool.eqb (bool_decide (authorized ev = Some true)) b.

Definition count_if {A} (f : A → bool) (l : list A) : Z := Z.of_nat (length (List.filter f l)).

(** What the loop leaves of readable events, one fold for each variable. *)
Definition tally_of (evs : list VerificationEvent) (t : Tally) : Tally := {|
  t_counts := foldl (λ c ev, bump_count (kind ev) c) (t_counts t) evs;
  volume := foldl (λ m ev, add_volume (canonicalAsset (asset ev)) (contribution ev) m) (volume t) evs;
  counterparties := foldl (λ s ev, known_counterparty ev ∪ s) (counterparties t) evs;
  t_setAuthorizedTrue := t_setAuthorizedTrue t + count_if (authorizes true) evs;
  t_setAuthorizedFalse := t_setAuthorizedFalse t + count_if (authorizes false) evs;
  t_firstLedger := foldl (λ b ev, keep_best Z.ltb (ledger ev) b) (t_firstLedger t) evs;
  t_lastLedger := foldl (λ b ev, keep_best (λ x y, (y <? x)%Z) (ledger ev) b) (t_lastLedger t) evs;
  t_startCloseTime := foldl (λ b ev, keep_best String.ltb (ev_closeTime ev) b) (t_startCloseTime t) evs;
  t_endCloseTime := foldl (λ b ev, keep_best (λ x y, String.ltb y x) (ev_closeTime ev) b) (t_endCloseTime t) evs;
|}.

Lemma count_if_cons {A} (f : A → bool) x l : count_if f (x :: l) = ((if f x then 1 else 0) + count_if f l)%Z.
Proof. unfold count_if. cbn. destruct (f x); cbn [length]; lia. Qed.

Lemma count_if_perm {A} (f : A → bool) l l' : l ≡ₚ l' → count_if f l = count_if f l'.
Proof. induction 1; rewrite ?count_if_cons; lia. Qed.

Lemma tally_spec evs t :
  tally evs t = if forallb (λ ev, is_ok (signedStroops ev)) evs then Ok (tally_of evs t) else Err NotABigInt.
Proof.
  revert t. induction evs as [|ev evs IH]; intros t.
  - destruct t. unfold tally_of. cbn. by rewrite !Z.add_0_r.
  - cbn [tally forallb]. unfold tally_event.
    destruct (signedStroops ev) as [s|[]] eqn:Hs; cbn [is_ok andb mbind result_bind]; [|done].
    rewrite IH. destruct (forallb _ _); [|done]. f_equal. unfold tally_of. cbn [foldl t_counts volume counterparties
      t_setAuthorizedTrue t_setAuthorizedFalse t_firstLedger t_lastLedger t_startCloseTime t_endCloseTime].
    rewrite !count_if_cons. unfold contribution, known_counterparty, authorizes. rewrite Hs. f_equal.
    + destruct (counterparty ev) as [[|c s']|]; by rewrite ?(left_id_L ∅ (∪)).
    + destruct (bool_decide (kind ev = _)), (bool_decide (authorized ev = _)); cbn; lia.
    + destruct (bool_decide (kind ev = _)), (bool_decide (authorized ev = _)); cbn; lia.
Qed.

Lemma readable_all evs : forallb (λ ev, is_ok (signedStroops ev)) evs = true ↔ Forall readable_event evs.
Proof. apply forallb_Forall. Qed.

(** ** Volumes *)

(** The net of an asset, and whether anything moved. *)
Definition net (a : string) (evs : list VerificationEvent) : Z :=
  foldr (λ ev n, ((if decide (canonicalAsset (asset ev) = a) then contribution ev else 0) + n)%Z) 0%Z evs.

Definition moved (a : string) (evs : list VerificationEvent) : bool :=
  existsb (λ ev, bool_decide (canonicalAsset (asset ev) = a) && negb (contribution ev =? 0)%Z) evs.

Definition volumes (evs : list VerificationEvent) (m : jsmap string Z) : jsmap string Z :=
  foldl (λ m ev, add_volume (canonicalAsset (asset ev)) (contribution ev) m) m evs.

Lemma net_app a l k : net a (l ++ k) = (net a l + net a k)%Z.
Proof. unfold net. induction l as [|x l IH]; cbn; [done|]. rewrite IH. lia. Qed.

Lemma net_perm a l l' : l ≡ₚ l' → net a l = net a l'.
Proof. unfold net. induction 1; cbn; lia. Qed.

Lemma moved_perm a l l' : l ≡ₚ l' → moved a l = moved a l'.
Proof.
  intros Hl. apply eq_true_iff_eq. unfold moved. rewrite !existsb_Exists. by setoid_rewrite Hl.
Qed.

Lemma volumes_wf evs m : mwf m → mwf (volumes evs m).
Proof.
  revert m. induction evs as [|ev evs IH]; intros m Hm; [done|]. apply IH. unfold add_volume.
  destruct (_ =? _)%Z; [done|by apply mwf_mset].
Qed.

Lemma volumes_lookup a evs m :
  mget a (volumes evs m) =
    if moved a evs then Some (default 0 (mget a m) + net a evs)%Z else mget a m.
Proof.
  assert (∀ l, moved a l = false → net a l = 0%Z) as Hstill.
  { intros l. unfold moved. rewrite existsb_false. induction l as [|ev l IH]; intros H; [done|].
    change (net a (ev :: l)) with ((if decide (canonicalAsset (asset ev) = a) then contribution ev else 0) + net a l)%Z.
    rewrite IH by (intros; apply H; by right). specialize (H ev ltac:(by left)).
    case_decide as Ha; [|done]. rewrite bool_decide_true in H by done. cbn in H.
    apply negb_false_iff, Z.eqb_eq in H. by rewrite H. }
  revert m. induction evs as [|ev evs IH]; intros m; [done|]. cbn. change (foldl _ ?m evs) with (volumes evs m).
  rewrite IH. unfold add_volume. fold (moved a evs) (net a evs).
  destruct (Z.eqb_spec (contribution ev) 0) as [->|Hne]; cbn [negb].
  - rewrite andb_false_r. cbn [orb]. case_decide; by rewrite Z.add_0_l.
  - rewrite andb_true_r, mget_mset. destruct (decide (canonicalAsset (asset ev) = a)) as [Ha|Ha].
    + rewrite bool_decide_true by done. cbn [orb default]. rewrite Ha.
      destruct (moved _ evs) eqn:Hm; [f_equal; unfold id; lia|]. rewrite (Hstill _ Hm). f_equal. lia.
    + by rewrite bool_decide_false by done.
Qed.

(** ** Best of a list *)

(** A comparison by which the better of two is always the same. *)
Class StrictBool {A} (better : A → A → bool) : Prop := {
  strict_asym x y : better x y = true → better y x = false;
  strict_trans x y z : better x y = true → better y z = true → better x z = true;
  strict_tri x y : better x y = false → better y x = false → x = y;
}.

#[export] Instance strict_flip {A} (better : A → A → bool) :
  StrictBool better → StrictBool (λ x y, better y x).
Proof.
  intros H. split; intros x y *; [apply strict_asym| |].
  - intros Hxy Hyz. by eapply strict_trans.
  - intros Hxy Hyx. symmetry. by apply strict_tri.
Qed.

#[export] Instance strict_ltb : StrictBool Z.ltb.
Proof. split; intros *; rewrite ?Z.ltb_lt, ?Z.ltb_ge; lia. Qed.

#[export] Instance strict_string : StrictBool String.ltb.
Proof.
  assert (∀ s t, String.ltb s t = true ↔ ¬ String.le t s) as Hlt.
  { intros s t. rewrite string_ltb_leb. unfold String.le. destruct (String.leb t s); cbn; intuition congruence. }
  assert (∀ s t, String.ltb s t = false ↔ String.le t s) as Hge.
  { intros s t. rewrite string_ltb_leb. unfold String.le. destruct (String.leb t s); cbn; intuition congruence. }
  assert (∀ s t, String.le s t ∨ String.le t s) as Htot.
  { intros s t. destruct (String.leb_total s t) as [H|H]; unfold String.le; rewrite H; auto. }
  split; intros *; rewrite ?Hlt, ?Hge.
  - intros H. destruct (Htot x y); tauto.
  - intros Hxy Hyz Hzx. apply Hxy. destruct (Htot y z); [by trans z|tauto].
  - intros. by apply (anti_symm String.le).
Qed.

Section best.
Context {A : Type} (better : A → A → bool) `{Hstrict : !StrictBool better}.
Notation Hasym := (strict_asym (better := better)).
Notation Htrans := (strict_trans (better := better)).
Notation Htri := (strict_tri (better := better)).

Lemma keep_best_comm x y b : keep_best better x (keep_best better y b) = keep_best better y (keep_best better x b).
Proof using Hstrict.
  assert (keep_best better x (Some y) = keep_best better y (Some x)) as Hxy.
  { cbn. destruct (better x y) eqn:Hxy; [by rewrite (Hasym _ _ Hxy)|].
    destruct (better y x) eqn:Hyx; [done|]. by rewrite (Htri x y). }
  destruct b as [b|]; [|done]. unfold keep_best at 2 4.
  destruct (better y b) eqn:Hy, (better x b) eqn:Hx; [done| | |cbn; by rewrite Hx, Hy].
  - cbn. rewrite Hy. destruct (better x y) eqn:He; [|done]. by rewrite (Htrans _ _ _ He Hy) in Hx.
  - cbn. rewrite Hx. destruct (better y x) eqn:He; [|done]. by rewrite (Htrans _ _ _ He Hx) in Hy.
Qed.

(** The best of the list and [b]. *)
Lemma keep_best_spec {B} (f : B → A) l b :
  let r := foldl (λ b x, keep_best better (f x) b) b l in
  (r = None ↔ b = None ∧ l = []) ∧
  ∀ m, r = Some m → (b = Some m ∨ ∃ x, x ∈ l ∧ f x = m) ∧
    (∀ x, x ∈ l → better (f x) m = false) ∧ (∀ c, b = Some c → better c m = false).
Proof using Hstrict.
  assert (∀ x, better x x = false) as Hirr.
  { intros x. destruct (better x x) eqn:H; [|done]. pose proof (Hasym _ _ H). congruence. }
  assert (∀ x y z, better x y = false → better z y = true → better x z = false) as Hlow.
  { intros x y z Hxy Hzy. destruct (better x z) eqn:H; [|done]. by rewrite (Htrans _ _ _ H Hzy) in Hxy. }
  revert b. induction l as [|x l IH]; intros b; cbn zeta.
  - cbn. split; [naive_solver|]. intros m ->. split_and!; [by left|by intros ? ?%not_elem_of_nil|by intros c [= ->]].
  - cbn [foldl]. specialize (IH (keep_best better (f x) b)). cbn zeta in IH. destruct IH as [IHn IHs].
    split.
    + rewrite IHn. split; [intros [H _]; destruct b; cbn in H; [by destruct (better _ _)|done]|by intros [_ ?]].
    + intros m Hm. destruct (IHs m Hm) as (Hin & Hall & Hb). clear IHn IHs.
      assert (better (f x) m = false ∧ ∀ c, b = Some c → better c m = false) as [Hx Hc].
      { destruct b as [c|]; cbn [keep_best] in Hin, Hb.
        - destruct (better (f x) c) eqn:Hxc; [pose proof (Hb _ eq_refl) as Hx|pose proof (Hb _ eq_refl) as Hc].
          + split; [done|]. intros ? [= <-]. destruct (better c m) eqn:H; [|done].
            by rewrite (Htrans _ _ _ Hxc H) in Hx.
          + split; [|by intros ? [= <-]]. destruct (better (f x) m) eqn:H; [|done].
            destruct (better m c) eqn:Hmc; [by rewrite (Htrans _ _ _ H Hmc) in Hxc|].
            by rewrite (Htri c m Hc Hmc), H in Hxc.
        - by split; [apply Hb|]. }
      split_and!; [|intros y [->|Hy]%elem_of_cons; [done|by apply Hall]|done].
      destruct Hin as [Hin|(y & Hy & <-)]; [|right; exists y; by split; [right|]].
      destruct b as [c|]; cbn [keep_best] in Hin; [destruct (better (f x) c)|];
        (injection Hin as <-; (by left) || (right; exists x; by split; [left|])).
Qed.
End best.

(** ** What a verdict says *)

Definition count_of (k : VerificationEventType) (c : Counts) : Z :=
  match k with
  | payment_sent => n_payment_sent c | payment_received => n_payment_received c
  | payment_self => n_payment_self c | mint => n_mint c | burn => n_burn c
  | clawback => n_clawback c | fee => n_fee c | set_authorized => n_set_authorized c
  end.

Lemma counts_spec k evs c :
  count_of k (foldl (λ c ev, bump_count (kind ev) c) c evs) =
    (count_of k c + count_if (λ ev, bool_decide (kind ev = k)) evs)%Z.
Proof.
  revert c. induction evs as [|ev evs IH]; intros c; [unfold count_if; cbn; lia|].
  cbn [foldl]. rewrite IH, count_if_cons.
  assert (count_of k (bump_count (kind ev) c) =
    (count_of k c + if bool_decide (kind ev = k) then 1 else 0)%Z) as ->; [|lia].
  destruct k; cbn; unfold bool_decide; repeat case_decide; congruence || lia.
Qed.

Lemma counterparties_spec c evs s :
  c ∈ foldl (λ s ev, known_counterparty ev ∪ s) s evs ↔
    c ∈ s ∨ ∃ ev x, ev ∈ evs ∧ counterparty ev = Some x ∧ x ≠ "" ∧ c = canonicalAddress x.
Proof.
  revert s. induction evs as [|ev evs IH]; intros s; cbn [foldl]; [set_solver|].
  rewrite IH, elem_of_union.
  assert (c ∈ known_counterparty ev ↔ ∃ x, counterparty ev = Some x ∧ x ≠ "" ∧ c = canonicalAddress x) as ->.
  { unfold known_counterparty. destruct (counterparty ev) as [[|a x]|]; [set_solver| |set_solver].
    rewrite elem_of_singleton. split; [intros ->; eauto|]. by intros (? & [= <-] & _ & ->). }
  setoid_rewrite elem_of_cons. naive_solver.
Qed.

Lemma mget_values {A B} (f : A → B) k (m : jsmap string A) :
  mget k (prod_map (λ a, a) f <$> m) = f <$> mget k m.
Proof. induction m as [|[k' a] m IH]; [done|]. cbn. by case_decide. Qed.

Lemma mget_perm {A} k (m m' : jsmap string A) : mwf m → m ≡ₚ m' → mget k m = mget k m'.
Proof.
  intros Hm Hp. assert (mwf m') as Hm' by (unfold mwf, mkeys; by rewrite <-Hp).
  apply option_eq. intros v. split; intros H%mget_Some_elem; apply elem_of_mget; [done|by rewrite <-Hp|done|by rewrite Hp].
Qed.

Section spec.
Context (localeCompare : string → string → Z) (sha256 : string → string).
Notation computeVerdict := (computeVerdict localeCompare sha256).

Lemma computeVerdict_cases now subj win events src at_ :
  computeVerdict now subj win events src at_ =
    if forallb (λ ev, is_ok (signedStroops ev)) events then
      let t := tally_of events empty_tally in
      let m := metrics_of localeCompare (length events) t in
      Ok {| v_subject := canonicalAddress subj; subjectType := inferSubjectType subj;
            v_window := Build_VerdictWindow win.1 win.2 (t_startCloseTime t) (t_endCloseTime t);
            metrics := m; fingerprint := sha256 (verdictCore (canonicalAddress subj) win m);
            source := default backfill src; computedAt := default now at_ |}
    else Err NotABigInt.
Proof. unfold Evidence.computeVerdict. rewrite tally_spec. by destruct (forallb _ _). Qed.

(** C9: A verdict counts every event by its kind, nets for every asset that moved
    what came in against what went out, counts the counterparties and the grants
    and withdrawals of authorization, and spans the first to the last ledger. *)
Theorem metrics_exact now subj win events src at_ v :
  computeVerdict now subj win events src at_ = Ok v →
  let m := metrics v in
  eventCount m = Z.of_nat (length events) ∧
  (∀ k, count_of k (counts m) = count_if (λ ev, bool_decide (kind ev = k)) events) ∧
  (∀ a, mget a (volumeByAsset m) = if moved a events then Some (formatStroops (net a events)) else None) ∧
  (∃ cs : gset string, distinctCounterparties m = Z.of_nat (size cs) ∧
    ∀ c, c ∈ cs ↔ ∃ ev x, ev ∈ events ∧ counterparty ev = Some x ∧ x ≠ "" ∧ c = canonicalAddress x) ∧
  setAuthorizedTrue m = count_if (authorizes true) events ∧
  setAuthorizedFalse m = count_if (authorizes false) events ∧
  ((firstLedger m = None ↔ events = []) ∧ ∀ l, firstLedger m = Some l →
    (∃ ev, ev ∈ events ∧ ledger ev = l) ∧ ∀ ev, ev ∈ events → (l ≤ ledger ev)%Z) ∧
  ((lastLedger m = None ↔ events = []) ∧ ∀ l, lastLedger m = Some l →
    (∃ ev, ev ∈ events ∧ ledger ev = l) ∧ ∀ ev, ev ∈ events → (ledger ev ≤ l)%Z).
Proof.
  rewrite computeVerdict_cases. destruct (forallb _ _); [|done]. intros [= <-]. cbn [metrics].
  unfold metrics_of, tally_of, empty_tally. cbn.
  pose proof (keep_best_spec Z.ltb ledger events None) as [Hfn Hfs].
  pose proof (keep_best_spec (λ x y, (y <? x)%Z) ledger events None) as [Hln Hls].
  split_and!; [done| | | |done|done|rewrite Hfn; naive_solver| |rewrite Hln; naive_solver|].
  - intros k. by rewrite counts_spec; destruct k.
  - intros a. change (foldl _ [] events) with (volumes events []). rewrite mget_values.
    rewrite <-(mget_perm a (volumes events [])); [|by apply volumes_wf, mwf_nil|symmetry; apply sort_with_perm].
    rewrite volumes_lookup. destruct (moved a events); [|done]. cbn. by rewrite Z.add_0_l.
  - eexists. split; [done|]. intros c. rewrite counterparties_spec. set_solver.
  - intros l Hl. destruct (Hfs l Hl) as ([?|?] & Hall & _); [done|].
    split; [done|]. intros ev Hev. specialize (Hall ev Hev). cbn in Hall. bool_to_prop. lia.
  - intros l Hl. destruct (Hls l Hl) as ([?|?] & Hall & _); [done|].
    split; [done|]. intros ev Hev. specialize (Hall ev Hev). cbn in Hall. bool_to_prop. lia.
Qed.

(** A comparison of texts under which no two different ones are equal. *)
Context `{HC : !Collation localeCompare}.
Context (Hseparates : ∀ s t, (localeCompare s t ≤ 0)%Z → (localeCompare t s ≤ 0)%Z → s = t).

Lemma sorted_by_asset (m : jsmap string Z) :
  StronglySorted (λ x y, by_asset localeCompare x y = true) (sort_with (by_asset localeCompare) m).
Proof using HC.
  apply sort_with_sorted; unfold by_asset.
  - intros x y. rewrite !Z.leb_le. by apply collate_total.
  - intros x y z. rewrite !Z.leb_le. by apply collate_trans.
Qed.

Lemma sorted_volumes_perm (m m' : jsmap string Z) :
  mwf m → m ≡ₚ m' → sort_with (by_asset localeCompare) m = sort_with (by_asset localeCompare) m'.
Proof using HC Hseparates.
  intros Hm Hp.
  apply (StronglySorted_unique_strong (λ x y, by_asset localeCompare x y = true)).
  - intros [a x] [b y] Ha Hb H1 H2. rewrite sort_with_perm in Ha, Hb. unfold by_asset in H1, H2. bool_to_prop.
    pose proof (Hseparates a b H1 H2) as <-. f_equal. rewrite <-Hp in Hb.
    apply (elem_of_mget _ _ _ Hm) in Ha. apply (elem_of_mget _ _ _ Hm) in Hb. congruence.
  - by apply sorted_by_asset.
  - by apply sorted_by_asset.
  - by rewrite !sort_with_perm.
Qed.

Lemma tally_perm evs evs' :
  evs ≡ₚ evs' →
  let t := tally_of evs empty_tally in let t' := tally_of evs' empty_tally in
  metrics_of localeCompare (length evs) t = metrics_of localeCompare (length evs') t' ∧
  t_startCloseTime t = t_startCloseTime t' ∧ t_endCloseTime t = t_endCloseTime t'.
Proof using HC Hseparates.
  intros Hp. cbn. split_and!; cycle 1.
  - apply foldl_permutation; [|done]. intros. by apply (keep_best_comm _).
  - apply foldl_permutation; [|done]. intros. by apply (keep_best_comm (λ x y, String.ltb y x)).
  - unfold metrics_of, tally_of. cbn. f_equal.
    + by rewrite Hp.
    + apply foldl_permutation; [|done]. intros. by apply (keep_best_comm _).
    + apply foldl_permutation; [|done]. intros. by apply (keep_best_comm (λ x y, (y <? x)%Z)).
    + apply foldl_permutation; [|done]. intros c x y. unfold bump_count. cbn. f_equal; lia.
    + f_equal. apply sorted_volumes_perm; [apply volumes_wf, mwf_nil|].
      apply mget_permutation; [apply volumes_wf, mwf_nil..|].
      intros a. change (foldl _ [] evs) with (volumes evs []). change (foldl _ [] evs') with (volumes evs' []).
      by rewrite !volumes_lookup, (net_perm a _ _ Hp), (moved_perm a _ _ Hp).
    + do 2 f_equal. apply foldl_permutation; [|done]. clear. set_solver.
    + by rewrite (count_if_perm _ _ _ Hp).
    + by rewrite (count_if_perm _ _ _ Hp).
Qed.

Lemma order_free now subj win events events' src at_ :
  events ≡ₚ events' →
  computeVerdict now subj win events src at_ = computeVerdict now subj win events' src at_.
Proof using HC Hseparates sha256.
  intros Hp. rewrite !computeVerdict_cases. cbn zeta.
  pose proof (tally_perm _ _ Hp) as Ht. cbn zeta in Ht. destruct Ht as (-> & -> & ->).
  assert (forallb (λ ev, is_ok (signedStroops ev)) events = forallb (λ ev, is_ok (signedStroops ev)) events') as ->; [|done].
  apply eq_true_iff_eq. by rewrite !readable_all, Hp.
Qed.
End spec.

(** ** The core names the verdict *)

Fixpoint plain (v : jsval) : bool :=
  match v with
  | JNull | JBool _ | JStr _ => true
  | JNum (JFin z O) => (Z.abs z <? 10 ^ 21)%Z
  | JArr l => forallb plain l
  | JObj fs => forallb (λ f : string * jsval, let (_, w) := f in plain w) fs
  | _ => false
  end.

Notation text := (stringify (λ _ _, "")).

Definition shape (v : jsval) (c : ascii) : bool :=
  match v with
  | JNull => Ascii.eqb c "n"
  | JBool b => Ascii.eqb c (if b then "t" else "f")
  | JStr _ => Ascii.eqb c quote
  | JNum _ => numeral_char c
  | JArr _ => Ascii.eqb c "["
  | JObj _ => Ascii.eqb c "{"
  | _ => false
  end.

Lemma plain_number n : plain (JNum n) = true → ∃ z, n = jint z ∧ text (JNum n) = pretty z.
Proof.
  destruct n as [| |z []]; try done. cbn [plain]. intros Hz. exists z. split; [done|].
  cbn [stringify js_isFinite num_to_string]. change (JFin z 0) with (jint z). rewrite as_integer_jint. by rewrite Hz.
Qed.

Lemma stringify_head v : plain v = true → head_is (shape v) (text v) = true.
Proof.
  destruct v as [| |[]|n|s|l|fs]; try done. intros Hn. destruct (plain_number n Hn) as (z & -> & ->).
  pose proof (pretty_Z_numeral z) as [Hz _]. unfold is_numeral in Hz. destruct (pretty z); [done|].
  apply andb_true_iff in Hz as [_ Hz]. cbn [all_numeral] in Hz. by apply andb_true_iff in Hz as [Hz _].
Qed.

Lemma shapes_differ v w c :
  plain v = true → plain w = true → shape v c = true → shape w c = true →
  match v, w with JNull, JNull | JBool _, JBool _ | JStr _, JStr _ | JNum _, JNum _ | JArr _, JArr _ | JObj _, JObj _ => True | _, _ => False end.
Proof.
  intros Hv Hw. destruct v as [| |[]| | | |]; try discriminate Hv; destruct w as [| |[]| | | |]; try discriminate Hw; try done; cbn [shape]; intros H1 H2.
  all: try apply Ascii.eqb_eq in H1; try apply Ascii.eqb_eq in H2; subst; discriminate.
Qed.

Lemma plain_opens v : plain v = true → head_is (λ c, negb (Ascii.eqb c "]")) (text v) = true.
Proof.
  intros Hv. pose proof (stringify_head v Hv) as Hh. destruct (text v) as [|c s]; [done|]. cbn in Hh |- *.
  destruct (Ascii.eqb_spec c "]") as [->|]; [|done]. by destruct v as [| |[]| | | |].
Qed.

Definition text_names (v : jsval) : Prop := plain v = true → ∀ w r r',
  plain w = true → stops r → stops r' → text v +:+ r = text w +:+ r' → v = w ∧ r = r'.

Lemma stringify_reads v : text_names v.
Proof.
  revert v. apply (jsval_nested_ind text_names); [intros v; destruct v as [| |b|n|s|l|fs]; try done|intros l IH|intros fs IH].
  all: intros Hv w r r' Hw Hr Hr' H; pose proof (stringify_head _ Hv) as Hhv; pose proof (stringify_head _ Hw) as Hhw.
  all: match type of H with ?a +:+ _ = ?b +:+ _ =>
    destruct a as [|ca ta] eqn:Ha; [done|]; destruct b as [|cb tb] eqn:Hb; [done|] end.
  all: cbn [head_is] in Hhv, Hhw; assert (ca = cb) as <- by (by injection H).
  all: pose proof (shapes_differ _ _ _ Hv Hw Hhv Hhw) as Hk; destruct w as [| |b'|n'|s'|l'|fs']; try done.
  all: rewrite <-Ha, <-Hb in H; clear Ha Hb Hhv Hhw Hk.
  - cbn in H. by injection H.
  - destruct b, b'; cbn in H; by injection H.
  - destruct (plain_number n Hv) as (z & -> & Hz), (plain_number n' Hw) as (z' & -> & Hz').
    rewrite Hz, Hz' in H. apply numeral_split in H as [H ->]; [|apply pretty_Z_numeral..|done|done].
    apply (inj pretty) in H as ->. done.
  - cbn [stringify] in H. apply json_string_inj in H as [-> ->]. done.
  - cbn [stringify] in H. rewrite !app_assoc_s in H. injection H as H.
    set (entry := λ w : jsval, (text w, w)).
    assert (∀ l, List.map text l = (entry <$> l).*1) as Htexts.
    { intros k. rewrite <-list_fmap_compose. by apply list_fmap_ext. }
    assert (∀ l, (entry <$> l).*2 = l) as Hentries.
    { intros k. rewrite <-list_fmap_compose. apply list_fmap_id. }
    rewrite !Htexts in H. cbn [plain] in Hv, Hw. rewrite forallb_Forall in Hv, Hw.
    apply (join_reads "]"%char) in H as [H ->].
    + rewrite !Hentries in H. by subst.
    + done.
    + done.
    + apply Forall_fmap. eapply Forall_impl; [exact Hv|]. intros x. apply plain_opens.
    + apply Forall_fmap. eapply Forall_impl; [exact Hw|]. intros x. apply plain_opens.
    + intros x y (f & -> & Hf)%list_elem_of_fmap (g & -> & Hg)%list_elem_of_fmap. intros q q' Hq Hq' Heq.
      rewrite Forall_forall in IH, Hv, Hw. by apply (IH _ Hf (Hv _ Hf) g q q' (Hw _ Hg) Hq Hq').
  - cbn [stringify] in H. rewrite !app_assoc_s in H. injection H as H.
    set (entry := λ f : string * jsval, (json_string f.1 +:+ ":" +:+ text f.2, f)).
    assert (∀ l, List.map (λ f : string * jsval, let (k, w) := f in json_string k +:+ ":" +:+ text w) l = (entry <$> l).*1) as Htexts.
    { intros l. rewrite <-list_fmap_compose. by apply list_fmap_ext; intros ? [] _. }
    assert (∀ l, (entry <$> l).*2 = l) as Hentries.
    { intros l. rewrite <-list_fmap_compose. apply list_fmap_id. }
    rewrite !Htexts in H. cbn [plain] in Hv, Hw. rewrite forallb_Forall in Hv, Hw.
    apply (join_reads "}"%char) in H as [H ->].
    + rewrite !Hentries in H. by subst.
    + done.
    + done.
    + apply Forall_fmap, Forall_true. done.
    + apply Forall_fmap, Forall_true. done.
    + intros x y (f & -> & Hf)%list_elem_of_fmap (g & -> & Hg)%list_elem_of_fmap. intros q q' Hq Hq'. cbn [fst snd entry].
      rewrite !app_assoc_s. intros [Hk Heq]%json_string_inj. cbn in Heq. injection Heq as Heq.
      rewrite Forall_forall in IH, Hv, Hw. destruct f as [k v], g as [k' w]. cbn [fst snd] in *.
      specialize (IH _ Hf). cbn [snd] in IH.
      destruct (IH (Hv _ Hf) w q q' (Hw _ Hg) Hq Hq' Heq) as [-> ->]. by subst.
Qed.

(** The numbers a core prints. *)
Definition core_numbers (win : Z * Z) (m : VerdictMetrics) : list Z :=
  let c := counts m in
  [win.1; win.2; eventCount m; distinctCounterparties m; setAuthorizedTrue m; setAuthorizedFalse m;
   n_payment_sent c; n_payment_received c; n_payment_self c; n_mint c; n_burn c; n_clawback c; n_fee c;
   n_set_authorized c] ++ omap (λ x, x) [firstLedger m; lastLedger m].

Definition printable (win : Z * Z) (m : VerdictMetrics) : Prop :=
  Forall (λ z, (Z.abs z < 10 ^ 21)%Z) (core_numbers win m).

Lemma core_plain subj win m : printable win m → plain (core_json subj win m) = true.
Proof.
  unfold printable, core_numbers. intros H. apply Forall_app in H as [H Hl].
  repeat (apply Forall_cons in H as [? H]).
  assert (∀ z, (Z.abs z < 10 ^ 21)%Z → (Z.abs z <? 10 ^ 21)%Z = true) as Hz by (intros; by apply Z.ltb_lt).
  assert (forallb (λ f : string * jsval, let (_, w) := f in plain w) (prod_map (λ a, a) JStr <$> volumeByAsset m) = true) as Hv.
  { apply forallb_Forall, Forall_fmap, Forall_true. by intros []. }
  assert (plain (or_null number (firstLedger m)) = true ∧ plain (or_null number (lastLedger m)) = true) as [Hf Hla].
  { destruct (firstLedger m), (lastLedger m); cbn [omap list_omap] in Hl; rewrite ?Forall_cons in Hl;
      split; try done; apply Hz; tauto. }
  unfold core_json, metrics_json, counts_json. cbn -[Z.pow or_null]. rewrite Hf, Hla, Hv, !Hz by done. done.
Qed.

Lemma volumes_json_inj (m m' : jsmap string string) :
  prod_map (λ a, a) JStr <$> m = prod_map (λ a, a) JStr <$> m' → m = m'.
Proof. apply list_fmap_eq_inj. by intros [] [] [= -> ->]. Qed.

(** C8: The core bytes of two verdicts agree exactly when they score the same
    subject over the same window with the same metrics: neither where the verdict
    came from nor when it was computed is part of them, and nothing that is scored
    is left out. *)
Theorem core_exact v v' :
  let win v := (startLedger (v_window v), endLedger (v_window v)) in
  printable (win v) (metrics v) → printable (win v') (metrics v') →
  verdictCoreBytes v = verdictCoreBytes v' ↔
    canonicalAddress (v_subject v) = canonicalAddress (v_subject v') ∧ win v = win v' ∧ metrics v = metrics v'.
Proof.
  intros win Hp Hp'. split.
  - intros H. unfold verdictCoreBytes, verdictCore in H. fold (win v) (win v') in H.
    destruct (stringify_reads _ (core_plain (v_subject v) _ _ Hp) (core_json (v_subject v') (win v') (metrics v'))
      "" "" (core_plain _ _ _ Hp') eq_refl eq_refl) as [Hc _]; [by rewrite H|].
    unfold core_json, metrics_json, counts_json, number, jint in Hc.
    destruct (metrics v) as [ec f l [] vol dc st sf], (metrics v') as [ec' f' l' [] vol' dc' st' sf']. cbn in Hc.
    injection Hc as Hs _ H1 H2 -> Hf Hl -> -> -> -> -> -> -> -> Hvol -> -> ->.
    split_and!; [done|by apply pair_equal_spec|]. f_equal.
    + destruct f, f'; try done. by injection Hf as ->.
    + destruct l, l'; try done. by injection Hl as ->.
    + by apply volumes_json_inj.
  - intros (Hs & Hw & Hm). unfold verdictCoreBytes, verdictCore, core_json, inferSubjectType.
    fold (win v) (win v'). by rewrite Hs, Hw, Hm.
Qed.

(** ** Amounts *)

Fixpoint space_free (s : string) : bool :=
  match s with EmptyString => true | String c s' => negb (is_space c) && space_free s' end.

Lemma trim_space_free s : space_free s = true → trim s = s.
Proof.
  intros H. unfold trim. assert (trim_start s = s) as ->.
  { destruct s as [|c s]; [done|]. cbn [trim_start space_free] in *. apply andb_true_iff in H as [Hc _]. apply negb_true_iff in Hc. by rewrite Hc. }
  induction s as [|c s IH]; [done|]. cbn [space_free] in H. apply andb_true_iff in H as [Hc H].
  cbn [trim_end]. rewrite (IH H). destruct s; [|done]. apply negb_true_iff in Hc. by rewrite Hc.
Qed.

Lemma digit_no_space c : is_Some (digit_val c) → is_space c = false.
Proof.
  unfold digit_val, is_space, nat_of_ascii. generalize (N_of_ascii c). intros n.
  destruct (_ && _)%N eqn:Hc; [intros _|by intros []].
  apply andb_true_iff in Hc as [H1 H2]. apply N.leb_le in H1, H2.
  apply orb_false_iff. rewrite andb_false_iff, Nat.eqb_neq, !Nat.leb_gt. lia.
Qed.

Lemma split_space_free s ps :
  str_split "."%char s = ps → Forall (λ p, all_digits p = true) ps → space_free s = true.
Proof.
  revert ps. induction s as [|c s IH]; intros ps Hs Hps; [done|]. cbn in Hs |- *.
  destruct (Ascii.eqb_spec c ".") as [->|Hc].
  - subst ps. apply Forall_cons in Hps as [_ Hps]. by apply (IH _ eq_refl).
  - destruct (str_split "." s) as [|p ps'] eqn:He; [by apply str_split_nonempty in He|]. subst ps.
    apply Forall_cons in Hps as [Hp Hps]. cbn in Hp. apply andb_true_iff in Hp as [Hd Hp].
    apply bool_decide_eq_true in Hd. rewrite (digit_no_space c Hd). apply (IH _ eq_refl). by constructor.
Qed.

Lemma unsigned_digits s : s ≠ "" → all_digits s = true → unsigned_text s = Some (Z.of_N (digits_value s)).
Proof.
  assert (∀ s acc, all_digits s = true → radix_from 10 acc s = Some (digits_from acc s)) as Hradix.
  { clear s. induction s as [|c s IH]; intros acc H; [done|]. cbn in H |- *. apply andb_true_iff in H as [Hc H].
    apply bool_decide_eq_true in Hc as [d Hd]. unfold any_digit. unfold digit_val in *.
    destruct (_ && _)%N eqn:Hr; [|done]. apply andb_true_iff in Hr as [H1 H2]. apply N.leb_le in H1, H2.
    rewrite (proj2 (N.ltb_lt _ _)) by lia. cbn [default]. rewrite IH by done. do 2 f_equal. unfold id. lia. }
  intros Hne Hd. unfold unsigned_text, radix_text. apply String.eqb_neq in Hne. rewrite Hne. by rewrite Hradix.
Qed.

Lemma digits_space_free s : all_digits s = true → space_free s = true.
Proof.
  intros Hd. apply (split_space_free s [s]); [|by constructor]. apply str_split_free. by apply all_digits_free.
Qed.

Lemma BigInt_digits s : s ≠ "" → all_digits s = true → BigInt_text s = Some (Z.of_N (digits_value s)).
Proof.
  intros Hne Hd. pose proof (unsigned_digits s Hne Hd) as Hu. unfold BigInt_text.
  rewrite (trim_space_free s (digits_space_free s Hd)).
  destruct s as [|a [|b r]]; [done|done|]. cbn in Hd. apply andb_true_iff in Hd as [Ha Hd].
  apply andb_true_iff in Hd as [Hb _]. apply bool_decide_eq_true in Ha, Hb.
  assert (∀ c d, is_Some (digit_val c) → digit_val d = None → Ascii.eqb c d = false) as Hother.
  { intros c d Hc Hnone. apply Ascii.eqb_neq. intros ->. rewrite Hnone in Hc. by destruct Hc. }
  rewrite !(Hother b) by done. rewrite !(Hother a "-"%char), !(Hother a "+"%char) by done.
  by rewrite !andb_false_r.
Qed.

(** What a bigint prints is read back. *)
Lemma BigInt_pretty (z : Z) : BigInt_text (pretty z) = Some z.
Proof.
  assert (∀ n : N, pretty n ≠ "" ∧ all_digits (pretty n) = true) as Hp.
  { intros n. split; [apply pretty_nonempty|apply all_digits_pretty]. }
  assert (∀ n : N, BigInt_text (pretty n) = Some (Z.of_N n)) as Hn.
  { intros n. rewrite BigInt_digits by apply Hp. by rewrite digits_value_pretty. }
  destruct z as [|p|p]; [apply (Hn 0%N)|apply (Hn (N.pos p))|].
  change (pretty (Z.neg p)) with (String "-" (pretty (N.pos p))). destruct (Hp (N.pos p)) as [Hne Hd].
  unfold BigInt_text. rewrite trim_space_free by (cbn; by apply digits_space_free).
  destruct (pretty (N.pos p)) as [|b r] eqn:Hs; [done|]. cbn [Ascii.eqb]. rewrite <-Hs in *.
  cbn -[unsigned_text pretty]. rewrite unsigned_digits by done. by rewrite digits_value_pretty.
Qed.

Lemma sliced s : match s with String "-"%char r => r | _ => s end = if starts_with "-" s then slice1 s else s.
Proof. destruct s as [|[[] [] [] [] [] [] [] []] s]; done. Qed.

Lemma signed_text t : starts_with "-" ("-" +:+ t) = true.
Proof. by destruct t. Qed.

Lemma digits_no_sign w t : w ≠ "" → all_digits w = true → starts_with "-" (w +:+ t) = false.
Proof. intros Hne Hd. by apply digits_no_minus. Qed.

Lemma or_zero_digits w :
  all_digits w = true → (if String.eqb w "" then "0" else w) ≠ "" ∧ all_digits (if String.eqb w "" then "0" else w) = true.
Proof. destruct (String.eqb_spec w ""); by split. Qed.

Lemma substring_digits n s : all_digits s = true → all_digits (String.substring 0 n s) = true.
Proof.
  revert n. induction s as [|c s IH]; intros [|n] H; try done. cbn in H |- *.
  apply andb_true_iff in H as [-> H]. by apply IH.
Qed.

(** What the canonical form of digits and at most one point is worth. *)
Lemma signed_parts ev (neg : bool) w f :
  w ≠ "" → all_digits w = true → f ≠ "" → all_digits f = true →
  amount ev = (if neg then "-" else "") +:+ w +:+ "." +:+ f →
  signedStroops ev = Ok (direction (kind ev) *
    ((if neg then -1 else 1) * (Z.of_N (digits_value w) * 10000000 + Z.of_N (digits_value f))))%Z.
Proof.
  intros Hw Dw Hf Df Ha. unfold signedStroops. rewrite Ha.
  assert (starts_with "-" ((if neg then "-" else "") +:+ w +:+ "." +:+ f) = neg) as ->.
  { destruct neg; [apply signed_text|]. by apply (digits_no_sign w). }
  assert ((if neg then slice1 ((if neg then "-" else "") +:+ w +:+ "." +:+ f)
    else (if neg then "-" else "") +:+ w +:+ "." +:+ f) = w +:+ String "." f) as -> by by destruct neg.
  rewrite str_split_app, str_split_free by (by apply all_digits_free). cbn [lookup list_lookup default].
  apply String.eqb_neq in Hw as Ew, Hf as Ef. cbn. unfold id. rewrite Ew, Ef. unfold BigInt_or_throw.
  by rewrite !BigInt_digits by done.
Qed.

(** What toBigInt has checked where it returns. *)
Lemma toBigInt_inv s n :
  toBigInt s = Ok n →
  let neg := starts_with "-" s in
  let parts := str_split "."%char (if neg then slice1 s else s) in
  let p0 := default "" (parts !! 0) in
  let whole := if String.eqb p0 "" then "0" else p0 in
  let frac := default "" (parts !! 1) in
  Forall (λ p, all_digits p = true) parts ∧ all_digits frac = true ∧
  n = ((if neg then -1 else 1) * (Z.of_N (digits_value whole) * 10000000
        + Z.of_N (digits_value (String.substring 0 7 (frac +:+ "0000000")))))%Z.
Proof.
  unfold toBigInt. rewrite sliced. cbn zeta. generalize (if starts_with "-" s then slice1 s else s) as abs.
  generalize (starts_with "-" s) as neg. intros neg abs.
  intros (_ & _ & H)%result_bind_Ok. apply result_bind_Ok in H as ([] & H2%reject_if_Ok & H).
  apply result_bind_Ok in H as ([] & H3%reject_if_Ok & [= <-]). apply Nat.ltb_ge in H2.
  apply orb_false_iff in H3 as [Hw Hf]. apply negb_false_iff in Hw. revert Hw Hf. unfold STROOPS_PER_UNIT.
  generalize (digits_value (String.substring 0 7 (default "" (str_split "." abs !! 1) +:+ "0000000"))) as y.
  destruct (str_split "." abs) as [|p0 [|p1 [|]]] eqn:Hs; cbn [length] in H2; [by apply str_split_nonempty in Hs| | |lia].
  all: cbn [lookup list_lookup default from_option]; unfold id;
    generalize (digits_value (if String.eqb p0 "" then "0" else p0)) as x; intros x y Hw Hf.
  - split_and!; [|done|destruct neg; lia].
    repeat constructor. by destruct (String.eqb_spec p0 "") as [->|].
  - assert (all_digits p1 = true) as Hp1.
    { destruct (String.eqb_spec p1 "") as [->|]; [done|]. cbn [negb andb] in Hf. by apply negb_false_iff in Hf. }
    split_and!; [|done|destruct neg; lia].
    repeat constructor; [|done]. by destruct (String.eqb_spec p0 "") as [->|].
Qed.

Lemma canonicalAmount_digits s :
  let neg := starts_with "-" s in
  let parts := str_split "."%char (if neg then slice1 s else s) in
  let p0 := default "" (parts !! 0) in
  Forall (λ p, all_digits p = true) parts →
  canonicalAmount s = (if neg then "-" else "") +:+ (if String.eqb p0 "" then "0" else p0) +:+ "." +:+
    String.substring 0 7 (default "" (parts !! 1) +:+ "0000000").
Proof.
  intros neg parts p0 Hparts. unfold canonicalAmount.
  assert (space_free s = true) as Hsp.
  { pose proof (split_space_free _ _ eq_refl Hparts) as H. subst neg.
    destruct (starts_with "-" s) eqn:Hn; [|done]. destruct s as [|c s]; [done|]. cbn [starts_with] in Hn.
    apply andb_true_iff in Hn as [Hc _]. apply Ascii.eqb_eq in Hc as <-. exact H. }
  by rewrite trim_space_free.
Qed.

Lemma substring_seven f : String.length (String.substring 0 7 (f +:+ "0000000")) = 7.
Proof.
  assert (∀ k s, k ≤ String.length s → String.length (String.substring 0 k s) = k) as H.
  { induction k as [|k IH]; intros [|c s]; cbn; try lia. intros. rewrite IH; lia. }
  apply H. rewrite string_length_app. cbn. lia.
Qed.

Lemma canonical_format n : canonicalAmount (formatStroops n) = formatStroops n.
Proof.
  unfold formatStroops. set (a := if (n <? 0)%Z then (- n)%Z else n).
  set (w := pretty (Z.to_N (a / 10000000))). set (f := pad_start 7 (pretty (Z.to_N (a mod 10000000)))).
  assert (0 ≤ a)%Z as Hz by (subst a; destruct (n <? 0)%Z eqn:E; bool_to_prop; lia).
  assert (String.length f = 7) as Hl.
  { apply length_pad_start, length_pretty; [lia|]. pose proof (Z.mod_pos_bound a 10000000). lia. }
  assert (w ≠ "" ∧ all_digits w = true ∧ all_digits f = true) as (Hw & Dw & Df).
  { split_and!; [apply pretty_nonempty|apply all_digits_pretty|subst f; rewrite all_digits_pad; apply all_digits_pretty]. }
  set (s := (if (n <? 0)%Z then "-" else "") +:+ w +:+ "." +:+ f).
  assert (starts_with "-" s = (n <? 0)%Z) as Hneg.
  { subst s. destruct (n <? 0)%Z; [apply signed_text|]. by apply (digits_no_sign w). }
  assert ((if starts_with "-" s then slice1 s else s) = w +:+ String "." f) as Habs.
  { rewrite Hneg. subst s. by destruct (n <? 0)%Z. }
  assert (str_split "." (if starts_with "-" s then slice1 s else s) = [w; f]) as Hsplit.
  { rewrite Habs, str_split_app, str_split_free; [done|by apply all_digits_free..]. }
  rewrite canonicalAmount_digits; rewrite Hsplit; [|by repeat constructor]. cbn [lookup list_lookup default from_option]. unfold id. rewrite Hneg.
  apply String.eqb_neq in Hw as ->. by rewrite <-Hl, substring_app_l.
Qed.

(** A text that is an amount to the rest of the library is worth the same number
    of stroops to the scoring, with the sign its kind of event gives it; and what
    a verdict prints for a volume is what the rest of the library reads as that
    volume, and already canonical. *)
Theorem amounts_agree s n ev :
  toBigInt s = Ok n → amount ev = canonicalAmount s →
  signedStroops ev = Ok (direction (kind ev) * n)%Z ∧
  toBigInt (formatStroops n) = Ok n ∧ canonicalAmount (formatStroops n) = formatStroops n.
Proof.
  intros Hn Ha. pose proof (toBigInt_inv s n Hn) as (Hparts & Hf & ->).
  rewrite (canonicalAmount_digits s Hparts) in Ha.
  assert (all_digits (default "" (str_split "." (if starts_with "-" s then slice1 s else s) !! 0)) = true) as Hw.
  { destruct (str_split _ _) as [|p ps]; [done|]. by apply Forall_cons in Hparts as [? _]. }
  destruct (or_zero_digits _ Hw) as [Hne Hd].
  split; [|split; [apply toBigInt_fromBigInt|apply canonical_format]].
  eapply signed_parts; [exact Hne|exact Hd| | |exact Ha].
  - intros H. pose proof (substring_seven (default "" (str_split "." (if starts_with "-" s then slice1 s else s) !! 1))) as Hl.
    by rewrite H in Hl.
  - apply substring_digits. by rewrite all_digits_app, Hf.
Qed.

(** ** Canonical addresses stay as they are *)

Lemma upper_space c : is_space (upper_char c) = is_space c.
Proof. destruct c as [[] [] [] [] [] [] [] []]; reflexivity. Qed.

Lemma upper_upper c : upper_char (upper_char c) = upper_char c.
Proof. destruct c as [[] [] [] [] [] [] [] []]; reflexivity. Qed.

Lemma trim_end_upper s : trim_end (to_upper s) = to_upper (trim_end s).
Proof.
  induction s as [|c s IH]; [done|]. cbn [to_upper trim_end]. rewrite IH, upper_space.
  destruct (trim_end s); [|done]. cbn [to_upper]. by destruct (is_space c).
Qed.

Lemma trim_start_upper s : trim_start (to_upper s) = to_upper (trim_start s).
Proof. induction s as [|c s IH]; [done|]. cbn [to_upper trim_start]. rewrite upper_space. by destruct (is_space c). Qed.

Lemma trim_end_idem s : trim_end (trim_end s) = trim_end s.
Proof.
  induction s as [|c s IH]; [done|]. cbn [trim_end]. destruct (trim_end s) as [|a t] eqn:Ht.
  - destruct (is_space c) eqn:Hc; [done|]. cbn [trim_end]. by rewrite Hc.
  - change (trim_end (String c (String a t))) with
      (match trim_end (String a t) with "" => if is_space c then "" else String c "" | t => String c t end).
    by rewrite IH.
Qed.

Lemma trim_end_head c s : is_space c = false → trim_end (String c s) = String c (trim_end s).
Proof. intros Hc. cbn [trim_end]. rewrite Hc. by destruct (trim_end s). Qed.

Lemma trim_start_head s : match trim_start s with String c _ => is_space c = false | "" => True end.
Proof. induction s as [|c s IH]; [done|]. cbn [trim_start]. by destruct (is_space c) eqn:Hc. Qed.

Lemma trim_idem s : trim (trim s) = trim s.
Proof.
  unfold trim. pose proof (trim_start_head s) as H. destruct (trim_start s) as [|c t]; [done|].
  rewrite (trim_end_head c t H). cbn [trim_start]. rewrite H. rewrite (trim_end_head c _ H). by rewrite trim_end_idem.
Qed.

Lemma canonicalAddress_idem s : canonicalAddress (canonicalAddress s) = canonicalAddress s.
Proof.
  assert (∀ s, to_upper (to_upper s) = to_upper s) as Hup.
  { clear. induction s as [|c s IH]; [done|]. cbn [to_upper]. by rewrite upper_upper, IH. }
  unfold canonicalAddress. unfold trim at 1. rewrite trim_start_upper, trim_end_upper. fold (trim (trim s)).
  by rewrite trim_idem, Hup.
Qed.

(** ** Payments move, they do not make *)

Lemma net_bind {B} a (l : list B) f : Forall (λ x, net a (f x) = 0%Z) l → net a (l ≫= f) = 0%Z.
Proof. induction 1 as [|x l Hx _ IH]; [done|]. cbn [mbind list_bind]. rewrite net_app, Hx. exact IH. Qed.

Lemma contribution_direction ev : ∃ x, ∀ k s c b, contribution {| ledger := ledger ev; ev_closeTime := ev_closeTime ev;
    kind := k; subject := s; counterparty := c; asset := asset ev; amount := amount ev; authorized := b;
    txHash := txHash ev |} = (direction k * x)%Z.
Proof.
  unfold contribution, signedStroops. cbn [amount kind].
  repeat destruct (BigInt_or_throw _); cbn [mbind result_bind].
  all: first [by eexists|exists 0%Z; intros; by rewrite Z.mul_0_r].
Qed.

(** Whatever payments do, over all subjects together no asset is gained or lost. *)
Lemma payments_cancel txs led time a :
  Forall (λ tx : ExportTransaction string,
    Forall (λ op, match op with op_payment _ _ _ _ => True | _ => False end) (operations tx)) txs →
  net a (fromTransactions txs led time) = 0%Z.
Proof.
  intros Htxs. apply net_bind. eapply Forall_impl; [exact Htxs|]. intros tx Hops.
  apply net_bind. eapply Forall_impl; [exact Hops|]. intros op Hop.
  destruct op as [from to amt ast| | | | |]; try done. unfold mapOperationToVerificationEvents.
  set (mk := make led time (Some (transactionId tx)) (canonicalAmount amt) (canonicalAsset ast)).
  destruct (contribution_direction (mk from payment_self None None)) as [x Hx].
  assert (∀ s k c, contribution (mk s k c None) = direction k * x)%Z as Hc by (intros; apply Hx).
  destruct (String.eqb _ _); cbn [net foldr]; rewrite !Hc; cbn [direction]; [by case_decide|].
  change (asset (mk to payment_received (Some from) None)) with (asset (mk from payment_sent (Some to) None)).
  case_decide; lia.
Qed.

(** The verdict of a subject does not depend on where its events came from: in
    whatever order they are read, from an export or live, by whichever run and at
    whatever time, the metrics, the window with its close times, the core bytes
    and the fingerprint are the same, and if scoring one throws so does scoring
    the other. *)
Theorem fingerprint_source_free localeCompare sha256 `{HC : !Collation localeCompare}
    now now' subj subj' win events events' src src' at_ at_' :
  (∀ s t, (localeCompare s t ≤ 0)%Z → (localeCompare t s ≤ 0)%Z → s = t) →
  events ≡ₚ events' → canonicalAddress subj = canonicalAddress subj' →
  match computeVerdict localeCompare sha256 now subj win events src at_,
        computeVerdict localeCompare sha256 now' subj' win events' src' at_' with
  | Ok v, Ok v' => v_subject v = v_subject v' ∧ subjectType v = subjectType v' ∧ v_window v = v_window v' ∧
      metrics v = metrics v' ∧ verdictCoreBytes v = verdictCoreBytes v' ∧ fingerprint v = fingerprint v' ∧
      fingerprint v = sha256 (verdictCore (v_subject v) win (metrics v))
  | Err _, Err _ => True
  | _, _ => False
  end.
Proof.
  intros Hsep Hp Hs. rewrite (order_free _ _ Hsep now' subj' win _ _ src' at_' (symmetry Hp)).
  rewrite !computeVerdict_cases. destruct (forallb _ _); [|done]. cbn zeta.
  unfold verdictCoreBytes, inferSubjectType. cbn [v_subject subjectType v_window metrics fingerprint startLedger endLedger].
  by rewrite Hs.
Qed.

(** ** Concrete runs *)

Definition demo_ledger : ExportLedger string Z :=
  Build_ExportLedger 7%Z "2024-01-01T00:00:00Z" "testnet"
    [Build_ExportTransaction "h" [op_payment "ga" "GB" "1.5" "native"; op_payment "GB" "GA " "0.5" "XLM";
                                  op_set_authorized "GA" "USD:GI" true]].

Definition demo_events : list VerificationEvent := fromExportLedger demo_ledger.
Definition events_of (s : string) (evs : list VerificationEvent) : list VerificationEvent :=
  List.filter (λ ev, String.eqb (subject ev) s) evs.

(** The digest of the examples is the text itself. *)
Definition demo_verdict (evs : list VerificationEvent) : result EvidenceError Verdict :=
  computeVerdict code_order (λ s, s) "now" "ga" (0, 1000)%Z (events_of "GA" evs) None None.

Example demo_volume :
  (v ← demo_verdict demo_events; Ok (volumeByAsset (metrics v), n_payment_sent (counts (metrics v))))
  = Ok ([("XLM", "-1.0000000")], 1%Z).
Proof. vm_compute. reflexivity. Qed.

(** A negative amount keeps its sign, and turns a payment round. *)
Lemma negative_amount_kept :
  canonicalAmount " -5" = "-5.0000000" ∧
  contribution (make 1 "t" None (canonicalAmount "-5") "XLM" "GA" payment_sent None None) = 50000000%Z.
Proof. split; reflexivity. Qed.

(** A text BigInt does not read throws out of the scoring of the whole window. *)
Lemma unreadable_amount_throws :
  is_ok (demo_verdict (mapOperationToVerificationEvents (op_mint "GA" "1e3" "XLM") 1 "t" None ++ demo_events)) = false.
Proof. vm_compute. reflexivity. Qed.

Lemma code_order_separates s t : (code_order s t ≤ 0)%Z → (code_order t s ≤ 0)%Z → s = t.
Proof. rewrite !code_order_leb. intros. by apply (anti_symm String.le). Qed.

Lemma metrics_exact_witness : ∃ v, demo_verdict demo_events = Ok v ∧
  mget "XLM" (volumeByAsset (metrics v)) = Some "-1.0000000".
Proof.
  destruct (demo_verdict demo_events) as [v|] eqn:Hv; [|vm_compute in Hv; discriminate].
  exists v. split; [done|].
  destruct (metrics_exact code_order (λ s, s) "now" "ga" (0, 1000)%Z (events_of "GA" demo_events) None None v Hv)
    as (_ & _ & Hvol & _).
  rewrite Hvol. vm_compute. reflexivity.
Defined.

Lemma fingerprint_source_free_witness :
  match computeVerdict code_order (λ s, s) "now" "GA" (0, 1000)%Z (events_of "GA" demo_events) (Some backfill) None,
        computeVerdict code_order (λ s, s) "later" " ga" (0, 1000)%Z (rev (events_of "GA" demo_events)) (Some live) None with
  | Ok v, Ok v' => fingerprint v = fingerprint v'
  | _, _ => False
  end.
Proof.
  assert (events_of "GA" demo_events ≡ₚ rev (events_of "GA" demo_events)) as Hp by (by rewrite <-Permutation_rev).
  pose proof (fingerprint_source_free code_order (λ s, s) "now" "later" "GA" " ga" (0, 1000)%Z _ _ (Some backfill)
    (Some live) None None code_order_separates Hp eq_refl) as H.
  destruct (computeVerdict _ _ "now" _ _ _ _ _) as [v|] eqn:H1; [|vm_compute in H1; discriminate].
  destruct (computeVerdict _ _ "later" _ _ _ _ _) as [v'|] eqn:H2; [|vm_compute in H2; discriminate].
  destruct H as (_ & _ & _ & _ & _ & H & _). exact H.
Defined.

Lemma core_exact_witness : ∃ v, demo_verdict demo_events = Ok v ∧ verdictCoreBytes v = verdictCoreBytes v.
Proof.
  destruct (demo_verdict demo_events) as [v|] eqn:Hv; [|vm_compute in Hv; discriminate].
  exists v. split; [done|]. vm_compute in Hv. injection Hv as <-.
  apply core_exact; [repeat constructor|repeat constructor|split_and!; reflexivity].
Defined.

Lemma amounts_agree_witness :
  signedStroops (make 1 "t" None (canonicalAmount "1.5") "XLM" "GA" payment_sent None None) = Ok (-15000000)%Z.
Proof.
  apply (amounts_agree "1.5" 15000000 (make 1 "t" None (canonicalAmount "1.5") "XLM" "GA" payment_sent None None));
    [reflexivity|reflexivity].
Defined.
