(* ===== verification/Backfill.v ===== *)
(** * Backfilled and live verdicts (packages/worker-core/src/verification/stores.ts,
    backfill.ts, liveVerifier.ts)

    A run reads an export ledger by ledger, groups the events into aligned windows,
    and writes a verdict for each subject of a window and then a checkpoint.  What
    it writes is a list of effects, one for each await: a crash leaves a prefix of
    them done.  Ledgers and window sizes are integers; a window is the pair that
    the code prints into its key and reads back. *)

From Stdlib Require Import Sorted.
From S2P Require Import Prelude.
From S2P Require Import JsMap.
From S2P Require Import Decimal.
From S2P Require Import CanonicalJson.
From S2P Require Import ComputationTrigger.
From S2P Require Import Exports.
From S2P Require Import Evidence.

(** ** stores.ts *)

Definition verdictKey (subj : string) (windowStart windowEnd : Z) : string :=
  subj +:+ "|" +:+ pretty windowStart +:+ "-" +:+ pretty windowEnd.

Definition key_of (v : Verdict) : string :=
  verdictKey (v_subject v) (startLedger (v_window v)) (endLedger (v_window v)).

(** InMemoryVerdictSink *)
Notation VerdictSink := (jsmap string Verdict).

Definition upsert (v : Verdict) (s : VerdictSink) : VerdictSink := mset (key_of v) v s.
Definition sink_get (subj : string) (windowStart windowEnd : Z) (s : VerdictSink) : option Verdict :=
  mget (verdictKey subj windowStart windowEnd) s.
Definition sink_all (s : VerdictSink) : list Verdict := mvals s.

Record BackfillCheckpoint := { lastProcessedLedger : Z; updatedAt : string }.

(** InMemoryCheckpointStore: [save] overwrites. *)
Notation CheckpointStore := (option BackfillCheckpoint).

(** ** Windows and buckets *)

Definition windowStartFor (led windowSize : Z) : Z := (led / windowSize * windowSize)%Z.

Notation bucket := (jsmap string (list VerificationEvent)).
Notation bucket_map := (jsmap (Z * Z) bucket).

(** The bucket of an event gets it at its end. *)
Definition bucket_event (size : Z) (bs : bucket_map) (ev : VerificationEvent) : bucket_map :=
  let ws := windowStartFor (ledger ev) size in
  let key := (ws, ws + size)%Z in
  let bySubject := default [] (mget key bs) in
  let arr := default [] (mget (subject ev) bySubject) in
  mset key (mset (subject ev) (arr ++ [ev]) bySubject) bs.

(** ** backfill.ts *)

Record BackfillOptions := {
  range : LedgerRange;
  windowSize : option Z;
  subjects : option (list string);
  onVerdict : bool;              (** whether the callback is given *)
}.

Record BackfillResult := {
  ledgersRead : Z;
  windowsEmitted : Z;
  verdictsWritten : Z;
  resumed : bool;
}.

(** What a run does to the world, in order. *)
Inductive effect :=
  | Upsert (v : Verdict)
  | Told (v : Verdict)
  | Save (c : BackfillCheckpoint).

Inductive BackfillError :=
  | Reading (e : ExportError)
  | Scoring (e : EvidenceError).

(** The variables of [run], with what it has done. *)
Record RunState := {
  buckets : bucket_map;
  r_ledgersRead : Z;
  r_windowsEmitted : Z;
  r_verdictsWritten : Z;
  highestLedger : Z;
  done_effects : list effect;
}.

Definition effective_size (o : BackfillOptions) : Z := default 1000%Z (windowSize o).

Definition effective_range (o : BackfillOptions) (prior : CheckpointStore) : LedgerRange := {|
  Exports.startLedger :=
    Z.max (match prior with
           | Some c => windowStartFor (lastProcessedLedger c + 1) (effective_size o)
           | None => Exports.startLedger (range o)
           end) (Exports.startLedger (range o));
  Exports.endLedger := Exports.endLedger (range o);
|}.

Definition chosen (o : BackfillOptions) (subj : string) : bool :=
  match subjects o with Some l => bool_decide (subj ∈ l) | None => true end.

Section run.
Context (localeCompare : string → string → Z) (sha256 : string → string).
(** The clock, by what the run has done so far. *)
Context (clock : list effect → string).
Context (o : BackfillOptions).
Notation size := (effective_size o).
Notation run_step := (method RunState BackfillError unit).

Definition flush_subject (win : Z * Z) (entry : string * list VerificationEvent) : run_step := λ s,
  if negb (chosen o entry.1) then (Ok tt, s)
  else match computeVerdict localeCompare sha256 (clock (done_effects s)) entry.1 win entry.2 (Some backfill) None with
  | Err e => (Err (Scoring e), s)
  | Ok v => (Ok tt, {|
      buckets := buckets s; r_ledgersRead := r_ledgersRead s; r_windowsEmitted := r_windowsEmitted s;
      r_verdictsWritten := r_verdictsWritten s + 1; highestLedger := highestLedger s;
      done_effects := done_effects s ++ Upsert v :: (if onVerdict o then [Told v] else []) |})
  end.

Fixpoint flush_subjects (win : Z * Z) (entries : bucket) : run_step :=
  match entries with
  | [] => mret tt
  | e :: entries' => flush_subject win e ≫= λ _, flush_subjects win entries'
  end.

Definition window_done (win : Z * Z) : run_step := modify (λ s, {|
  buckets := mdel win (buckets s); r_ledgersRead := r_ledgersRead s;
  r_windowsEmitted := r_windowsEmitted s + 1; r_verdictsWritten := r_verdictsWritten s;
  highestLedger := highestLedger s;
  done_effects := done_effects s ++
    [Save {| lastProcessedLedger := win.2 - 1; updatedAt := clock (done_effects s) |}] |}).

Definition flushWindow (win : Z * Z) : run_step := λ s,
  match mget win (buckets s) with
  | None => (Ok tt, s)
  | Some bySubject => (flush_subjects win bySubject ≫= λ _, window_done win) s
  end.

Fixpoint flush_windows (wins : list (Z * Z)) : run_step :=
  match wins with
  | [] => mret tt
  | w :: wins' => flushWindow w ≫= λ _, flush_windows wins'
  end.

(** The events of one ledger go into their buckets. *)
Definition take_ledger (l : Ledger) : run_step := modify (λ s, {|
  buckets := foldl (bucket_event size) (buckets s)
               (List.filter (λ ev, chosen o (subject ev)) (fromExportLedger l));
  r_ledgersRead := r_ledgersRead s + 1; r_windowsEmitted := r_windowsEmitted s;
  r_verdictsWritten := r_verdictsWritten s;
  highestLedger := Z.max (highestLedger s) (ledgerSequence l);
  done_effects := done_effects s |}).

(** The windows that [reached] says are read. *)
Definition flush_reached (reached : Z * Z → bool) : run_step :=
  λ s, flush_windows (List.filter reached (mkeys (buckets s))) s.

Definition read_ledger (l : Ledger) : run_step :=
  take_ledger l ≫= λ _, flush_reached (λ w, (w.2 <=? ledgerSequence l)%Z).

Fixpoint read_ledgers (ls : list Ledger) : run_step :=
  match ls with
  | [] => mret tt
  | l :: ls' => read_ledger l ≫= λ _, read_ledgers ls'
  end.

Definition start_state (prior : CheckpointStore) : RunState := {|
  buckets := []; r_ledgersRead := 0; r_windowsEmitted := 0; r_verdictsWritten := 0;
  highestLedger := match prior with Some c => lastProcessedLedger c | None => Exports.startLedger (range o) - 1 end;
  done_effects := [];
|}.

(** The whole of [run] over what the reader yields, and what it has done. *)
Definition run_body (stream : ledger_stream) : run_step :=
  read_ledgers stream.1 ≫= λ _,
  match stream.2 with
  | Some e => throw (Reading e)
  | None => flush_reached (λ _, true)
  end.

Definition run (source : LedgerRange → ledger_stream) (prior : CheckpointStore)
    : result BackfillError BackfillResult * list effect :=
  let '(out, s) := run_body (reader_read source (effective_range o prior)) (start_state prior) in
  (_ ← out;
   Ok {| ledgersRead := r_ledgersRead s; windowsEmitted := r_windowsEmitted s;
         verdictsWritten := r_verdictsWritten s; resumed := bool_decide (is_Some prior) |},
   done_effects s).
End run.

(** What an effect leaves in the two stores. *)
Definition apply_effect (st : VerdictSink * CheckpointStore) (e : effect) : VerdictSink * CheckpointStore :=
  match e with
  | Upsert v => (upsert v st.1, st.2)
  | Told _ => st
  | Save c => (st.1, Some c)
  end.

Definition apply_effects : list effect → VerdictSink * CheckpointStore → VerdictSink * CheckpointStore :=
  λ es st, foldl apply_effect st es.

(** ** liveVerifier.ts *)





Section live.
Context (localeCompare : string → string → Z) (sha256 : string → string) (now : string).



End live.

(** ** Buckets *)

Definition window_of_event (size : Z) (ev : VerificationEvent) : Z * Z :=
  (windowStartFor (ledger ev) size, windowStartFor (ledger ev) size + size)%Z.

Section buckets.
Context (size : Z).
Notation win_of := (window_of_event size).

Definition content (bs : bucket_map) (win : Z * Z) (subj : string) : list VerificationEvent :=
  default [] (mget win bs ≫= mget subj).

(** The events of a window and a subject. *)
Definition of_key (win : Z * Z) (subj : string) (evs : list VerificationEvent) : list VerificationEvent :=
  List.filter (λ ev, bool_decide (win_of ev = win) && String.eqb (subject ev) subj) evs.

Record bucket_wf (bs : bucket_map) : Prop := {
  wf_windows : mwf bs;
  wf_bucket win b : mget win bs = Some b → mwf b ∧ b ≠ [];
  wf_events win b subj evs : mget win bs = Some b → mget subj b = Some evs → evs ≠ [];
}.

Lemma wf_nil : bucket_wf [].
Proof. split; try done. apply mwf_nil. Qed.

Lemma mset_nonempty {K V} `{EqDecision K} k (v : V) (m : jsmap K V) : mset k v m ≠ [].
Proof. destruct m as [|[k' v'] m]; cbn; [done|]. by case_decide. Qed.

Lemma bucket_event_wf bs ev : bucket_wf bs → bucket_wf (bucket_event size bs ev).
Proof.
  intros [Hw Hb He]. unfold bucket_event. fold (win_of ev).
  set (old := default [] (mget (win_of ev) bs)).
  assert (mwf old) as Hold.
  { subst old. destruct (mget _ bs) eqn:Hg; [by eapply Hb|apply mwf_nil]. }
  split; [by apply mwf_mset| |].
  - intros win b. rewrite mget_mset. case_decide; [|apply Hb]. intros [= <-].
    split; [by apply mwf_mset|apply mset_nonempty].
  - intros win b subj evs. rewrite mget_mset. case_decide; [|apply He]. intros [= <-].
    rewrite mget_mset. case_decide; [intros [= <-] [_ ?]%app_nil; done|].
    subst old. destruct (mget _ bs) eqn:Hg; [by eapply He|done].
Qed.

Lemma content_bucket_event bs ev win subj :
  content (bucket_event size bs ev) win subj = content bs win subj ++ of_key win subj [ev].
Proof.
  unfold content, bucket_event, of_key. cbn [List.filter]. fold (win_of ev). rewrite mget_mset.
  case_decide as Hw; [|rewrite bool_decide_false by done; cbn; by rewrite app_nil_r].
  rewrite bool_decide_true by done. cbn [mbind option_bind andb]. rewrite mget_mset.
  destruct (String.eqb_spec (subject ev) subj) as [<-|Hne].
  - rewrite decide_True by done. subst win. by destruct (mget _ bs).
  - rewrite decide_False by done. subst win. rewrite app_nil_r. by destruct (mget _ bs).
Qed.

Lemma mkeys_bucket_event bs ev win :
  win ∈ mkeys (bucket_event size bs ev) ↔ win ∈ mkeys bs ∨ win = win_of ev.
Proof.
  unfold bucket_event. fold (win_of ev). destruct (decide (win_of ev ∈ mkeys bs)) as [Hin|Hin].
  - rewrite mkeys_mset_present by done. split; [by left|]. by intros [?| ->].
  - rewrite mkeys_mset_fresh by done. rewrite elem_of_app, list_elem_of_singleton. done.
Qed.

Lemma of_key_app win subj l k : of_key win subj (l ++ k) = of_key win subj l ++ of_key win subj k.
Proof. apply List.filter_app. Qed.

Lemma elem_of_key win subj evs ev :
  ev ∈ of_key win subj evs ↔ ev ∈ evs ∧ win_of ev = win ∧ subject ev = subj.
Proof.
  unfold of_key. rewrite !list_elem_of_In, filter_In, andb_true_iff, bool_decide_eq_true, String.eqb_eq. tauto.
Qed.

Lemma buckets_of bs evs :
  bucket_wf bs →
  let bs' := foldl (bucket_event size) bs evs in
  bucket_wf bs' ∧ (∀ win subj, content bs' win subj = content bs win subj ++ of_key win subj evs) ∧
  (∀ win, win ∈ mkeys bs' ↔ win ∈ mkeys bs ∨ ∃ ev, ev ∈ evs ∧ win_of ev = win).
Proof.
  revert bs. induction evs as [|ev evs IH]; intros bs Hwf; cbn zeta.
  - split_and!; [done|intros; by rewrite app_nil_r|set_solver].
  - cbn [foldl]. destruct (IH _ (bucket_event_wf bs ev Hwf)) as (H1 & H2 & H3). split_and!; [done| |].
    + intros win subj. rewrite H2, content_bucket_event, <-app_assoc.
      change (ev :: evs) with ([ev] ++ evs). by rewrite of_key_app.
    + intros win. rewrite H3, mkeys_bucket_event. set_solver.
Qed.

(** A bucket's entries are the contents that are not empty. *)
Lemma bucket_entries bs win b subj evs :
  bucket_wf bs → mget win bs = Some b → (subj, evs) ∈ b ↔ content bs win subj = evs ∧ evs ≠ [].
Proof.
  intros Hwf Hg. destruct (wf_bucket _ Hwf _ _ Hg) as [Hb _]. unfold content. rewrite Hg. cbn. split.
  - intros H%elem_of_mget; [|done]. rewrite H. split; [done|]. by eapply (wf_events _ Hwf).
  - intros [<- Hne]. destruct (mget subj b) eqn:Hs; [|done]. by apply mget_Some_elem.
Qed.

Lemma keys_content bs win : bucket_wf bs → win ∈ mkeys bs ↔ ∃ subj, content bs win subj ≠ [].
Proof.
  intros Hwf. rewrite <-mhas_true. unfold mhas. rewrite bool_decide_eq_true. split.
  - intros [b Hb]. destruct (wf_bucket _ Hwf _ _ Hb) as [Hwfb Hne]. destruct b as [|[subj evs] b']; [done|].
    exists subj. destruct (bucket_entries bs win _ subj evs Hwf Hb) as [H _]. destruct H as [-> ?]; [by left|done].
  - intros [subj Hc]. unfold content in Hc. destruct (mget win bs); [by eexists|done].
Qed.

Lemma mdel_wf bs win : bucket_wf bs → bucket_wf (mdel win bs).
Proof.
  intros [Hw Hb He]. split; [by apply mwf_mdel| |]; intros win'.
  - intros b. rewrite mget_mdel by done. case_decide; [done|apply Hb].
  - intros b subj evs. rewrite mget_mdel by done. case_decide; [done|apply He].
Qed.

Lemma content_mdel bs win win' subj :
  bucket_wf bs → content (mdel win bs) win' subj = if decide (win = win') then [] else content bs win' subj.
Proof. intros [Hw _ _]. unfold content. rewrite mget_mdel by done. by case_decide. Qed.
End buckets.

(** ** What a run writes *)

Section writes.
Context (localeCompare : string → string → Z) (sha256 : string → string).
Context (o : BackfillOptions).
Notation size := (effective_size o).
Context (Hsize : (0 < size)%Z).
Notation win_of := (window_of_event size).
Notation of_key := (of_key size).

(** The events of ledgers that are scored. *)
Definition scored_events (ls : list Ledger) : list VerificationEvent :=
  List.filter (λ ev, chosen o (subject ev)) (ls ≫= fromExportLedger).

Definition scored (win : Z * Z) (subj : string) (evs : list VerificationEvent) (v : Verdict) : Prop :=
  ∃ t, computeVerdict localeCompare sha256 t subj win evs (Some backfill) None = Ok v.

(** All the events there are to score. *)
Context (all : list VerificationEvent).
Context (Hreadable : Forall readable_event all).
Context (Hchosen : ∀ ev, ev ∈ all → chosen o (subject ev) = true).

Definition verdict_for (win : Z * Z) (subj : string) (v : Verdict) : Prop :=
  of_key win subj all ≠ [] ∧ scored win subj (of_key win subj all) v.

Lemma window_bounds ev : ((win_of ev).1 ≤ ledger ev < (win_of ev).2 ∧ (win_of ev).2 = (win_of ev).1 + size)%Z.
Proof using Hsize.
  unfold window_of_event, windowStartFor. cbn [fst snd].
  pose proof (Z.div_mod (ledger ev) size). pose proof (Z.mod_pos_bound (ledger ev) size Hsize). nia.
Qed.

Lemma window_aligned ev : ((win_of ev).1 mod size = 0)%Z.
Proof using Hsize. unfold window_of_event, windowStartFor. cbn [fst]. by rewrite Z.mod_mul by lia. Qed.

(** Aligned windows that share a ledger are the same. *)
Lemma same_window l ev ev' :
  ((win_of ev).1 ≤ l < (win_of ev).2)%Z → ((win_of ev').1 ≤ l < (win_of ev').2)%Z → win_of ev = win_of ev'.
Proof using Hsize.
  unfold window_of_event, windowStartFor. cbn [fst snd]. intros H H'.
  assert (ledger ev / size = ledger ev' / size)%Z as ->; [|done].
  assert (ledger ev / size = l / size)%Z as -> by (apply Z.div_unique_pos with (l - ledger ev / size * size)%Z; nia).
  symmetry. apply Z.div_unique_pos with (l - ledger ev' / size * size)%Z; nia.
Qed.

Lemma scored_exists t win subj evs : Forall readable_event evs →
  ∃ v, computeVerdict localeCompare sha256 t subj win evs (Some backfill) None = Ok v.
Proof. intros H. rewrite computeVerdict_cases. apply readable_all in H. rewrite H. cbn zeta. eauto. Qed.

Section clocked.
Context (clock : list effect → string).
Notation flush_subjects := (flush_subjects localeCompare sha256 clock o).
Notation flushWindow := (flushWindow localeCompare sha256 clock o).
Notation flush_windows := (flush_windows localeCompare sha256 clock o).

(** Effects that write verdicts of the events, and nothing else. *)
Definition verdicts_only (es : list effect) : Prop :=
  Forall (λ e, match e with Upsert v => ∃ win subj, verdict_for win subj v | Told _ => True | Save _ => False end) es.

Lemma flush_subjects_spec win entries s :
  Forall (λ e : string * list VerificationEvent,
    chosen o e.1 = true ∧ e.2 = of_key win e.1 all ∧ e.2 ≠ []) entries →
  ∃ es s', flush_subjects win entries s = (Ok tt, s') ∧ buckets s' = buckets s ∧
    done_effects s' = done_effects s ++ es ∧ verdicts_only es ∧
    ∀ e, e ∈ entries → ∃ v, Upsert v ∈ es ∧ verdict_for win e.1 v.
Proof using Hreadable.
  intros H. revert s. induction H as [|[subj evs] entries (Hch & Hevs & Hne) _ IH]; intros s.
  - exists [], s. cbn. split_and!; [done|done|by rewrite app_nil_r|constructor|by intros ? ?%not_elem_of_nil].
  - cbn [fst snd] in Hch, Hevs, Hne. cbn [Backfill.flush_subjects]. unfold mbind, method_bind, flush_subject.
    cbn [fst snd]. rewrite Hch. cbn [negb].
    destruct (scored_exists (clock (done_effects s)) win subj evs) as [v Hv].
    { apply Forall_forall. intros ev Hev. subst evs. apply elem_of_key in Hev as [Hev _].
      by apply (proj1 (Forall_forall _ _) Hreadable). }
    rewrite Hv. assert (verdict_for win subj v) as Hvf by (subst evs; split; [done|by eexists]).
    match goal with |- context [Backfill.flush_subjects _ _ _ _ win entries ?s1] => destruct (IH s1) as (es & s' & -> & Hb & He & Hes & Hall) end.
    cbn [done_effects buckets] in Hb, He.
    exists (Upsert v :: (if onVerdict o then [Told v] else []) ++ es), s'. split_and!; [done|done| | |].
    + rewrite He, <-app_assoc. done.
    + constructor; [by eexists _, _|]. apply Forall_app. split; [|done]. destruct (onVerdict o); by repeat constructor.
    + intros e [->|He']%elem_of_cons; [exists v; split; [by left|done]|].
      destruct (Hall e He') as (v' & Hin & Hv'). exists v'. split; [|done].
      right. apply elem_of_app. by right.
Qed.

(** A bucket that holds all there is of its window. *)
Definition complete_bucket (s : RunState) (win : Z * Z) : Prop :=
  ∀ subj, content (buckets s) win subj = of_key win subj all.

Lemma flushWindow_spec win s :
  bucket_wf (buckets s) → win ∈ mkeys (buckets s) → complete_bucket s win →
  ∃ es c s', flushWindow win s = (Ok tt, s') ∧ buckets s' = mdel win (buckets s) ∧
    done_effects s' = done_effects s ++ es ++ [Save c] ∧ lastProcessedLedger c = (win.2 - 1)%Z ∧
    verdicts_only es ∧ ∀ ev, ev ∈ all → win_of ev = win → ∃ v, Upsert v ∈ es ∧ verdict_for win (subject ev) v.
Proof using Hreadable Hchosen.
  intros Hwf Hkey Hcomplete. unfold Backfill.flushWindow.
  apply mhas_true in Hkey. unfold mhas in Hkey. apply bool_decide_eq_true in Hkey as [b Hb]. rewrite Hb.
  destruct (flush_subjects_spec win b s) as (es & s1 & Hs & Hb1 & He1 & Hes & Hall).
  { apply Forall_forall. intros [subj evs] Hin. cbn. apply (bucket_entries _ win b subj evs Hwf Hb) in Hin as [Hc Hne].
    rewrite (Hcomplete subj) in Hc. split_and!; [|done|done].
    destruct evs as [|ev evs]; [done|]. assert (ev ∈ of_key win subj all) as Hev by (rewrite Hc; by left).
    apply elem_of_key in Hev as (Hev & _ & <-). by apply Hchosen. }
  unfold mbind, method_bind. rewrite Hs. unfold window_done, modify. eexists es, _, _. split; [done|].
  cbn. rewrite Hb1, He1, <-app_assoc. split_and!; [done|done|done|done|].
  intros ev Hev Hw. apply (Hall (subject ev, of_key win (subject ev) all)).
  apply (bucket_entries _ win b _ _ Hwf Hb). split; [apply Hcomplete|].
  intros Hnil. assert (ev ∈ of_key win (subject ev) all) as Hin by by apply elem_of_key.
  rewrite Hnil in Hin. by apply not_elem_of_nil in Hin.
Qed.

Definition written (es : list effect) (ev : VerificationEvent) : Prop :=
  ∃ v, Upsert v ∈ es ∧ verdict_for (win_of ev) (subject ev) v.

Lemma written_app es es' ev : written es ev → written (es ++ es') ev.
Proof. intros (v & Hv & ?). exists v. split; [|done]. apply elem_of_app. by left. Qed.

Definition sound_effects (es : list effect) : Prop :=
  ∀ v, Upsert v ∈ es → ∃ win subj, verdict_for win subj v.

(** [evs] are the events the run will read: a checkpoint names the end of a
    window, and before it everything up to there was written. *)
Definition honest_saves (evs : list VerificationEvent) (es : list effect) : Prop :=
  ∀ i c, es !! i = Some (Save c) →
    ((lastProcessedLedger c + 1) mod size = 0)%Z ∧
    ∀ ev, ev ∈ evs → ((win_of ev).2 ≤ lastProcessedLedger c + 1)%Z → written (take i es) ev.

(** The state after the ledgers [pre], with every window up to [b] written. *)
Record progress (evs : list VerificationEvent) (b : Z) (pre : list Ledger) (s : RunState) : Prop := {
  pr_wf : bucket_wf (buckets s);
  pr_content win subj : content (buckets s) win subj =
    if (win.2 <=? b)%Z then [] else of_key win subj (scored_events pre);
  pr_sound : sound_effects (done_effects s);
  pr_done ev : ev ∈ scored_events pre → ((win_of ev).2 ≤ b)%Z → written (done_effects s) ev;
  pr_saves : honest_saves evs (done_effects s);
}.

Lemma progress_keys evs b pre s win :
  progress evs b pre s → win ∈ mkeys (buckets s) →
  ∃ ev, ev ∈ scored_events pre ∧ win_of ev = win ∧ (b < win.2)%Z.
Proof.
  intros Hp [subj Hc]%keys_content; [|by eapply pr_wf]. rewrite (pr_content _ _ _ _ Hp) in Hc.
  destruct (win.2 <=? b)%Z eqn:Hw; [done|]. bool_to_prop.
  destruct (of_key win subj (scored_events pre)) as [|ev l] eqn:Hk; [done|].
  assert (ev ∈ of_key win subj (scored_events pre)) as (Hev & Hwin & _)%elem_of_key by (rewrite Hk; by left).
  by exists ev.
Qed.

(** No event lies between the bounds: only one window can end there. *)
Definition gap (b b' : Z) (pre : list Ledger) : Prop :=
  ∀ ev, ev ∈ scored_events pre → (ledger ev ≤ b ∨ b' ≤ ledger ev)%Z.

Lemma gap_window b b' pre ev ev' :
  gap b b' pre → ev ∈ scored_events pre → ev' ∈ scored_events pre →
  (b < (win_of ev).2 ≤ b')%Z → (b < (win_of ev').2 ≤ b')%Z → win_of ev = win_of ev'.
Proof using Hsize.
  intros Hg Hev Hev' Hb Hb'. pose proof (Hg _ Hev). pose proof (Hg _ Hev').
  pose proof (window_bounds ev). pose proof (window_bounds ev'). apply (same_window b); lia.
Qed.

Lemma progress_key evs b pre s ev :
  progress evs b pre s → ev ∈ scored_events pre → (b < (win_of ev).2)%Z → win_of ev ∈ mkeys (buckets s).
Proof.
  intros Hp Hev Hb. apply keys_content; [by eapply pr_wf|]. exists (subject ev).
  rewrite (pr_content _ _ _ _ Hp), (proj2 (Z.leb_gt _ _) Hb). intros Hnil.
  assert (ev ∈ of_key (win_of ev) (subject ev) (scored_events pre)) as H by by apply elem_of_key.
  rewrite Hnil in H. by apply not_elem_of_nil in H.
Qed.

Lemma all_equal_short {A} (l : list A) w : NoDup l → (∀ x, x ∈ l → x = w) → l = [] ∨ l = [w].
Proof.
  destruct l as [|x [|y l]]; intros Hnd Hall; [by left|right; by rewrite (Hall x) by left|exfalso].
  apply NoDup_cons in Hnd as [Hx _]. apply Hx. rewrite (Hall x), (Hall y) by set_solver. by left.
Qed.

Lemma saves_snoc evs es es' c :
  honest_saves evs es → verdicts_only es' → ((lastProcessedLedger c + 1) mod size = 0)%Z →
  (∀ ev, ev ∈ evs → ((win_of ev).2 ≤ lastProcessedLedger c + 1)%Z → written (es ++ es') ev) →
  honest_saves evs (es ++ es' ++ [Save c]).
Proof.
  intros Hes Hes' Hal Hw i c' Hi. rewrite app_assoc in Hi |- *.
  destruct (decide (i < length (es ++ es'))) as [Hlt|Hge].
  - rewrite lookup_app_l in Hi by done. rewrite take_app_le by lia.
    destruct (decide (i < length es)) as [Hlt'|Hge'].
    + rewrite lookup_app_l in Hi by done. rewrite take_app_le by lia. by apply Hes.
    + rewrite lookup_app_r in Hi by lia. apply list_elem_of_lookup_2 in Hi.
      by apply (proj1 (Forall_forall _ _) Hes') in Hi.
  - rewrite lookup_app_r in Hi by lia. destruct (i - length (es ++ es')) as [|k] eqn:Hk; [|by destruct k].
    injection Hi as <-. split; [done|]. intros ev Hev Hle. rewrite take_app_ge by lia. rewrite Hk. cbn [take].
    rewrite app_nil_r. by apply Hw.
Qed.

Lemma sound_app es es' c : sound_effects es → verdicts_only es' → sound_effects (es ++ es' ++ [Save c]).
Proof.
  intros Hs Hes' v. rewrite !elem_of_app. intros [H|[H|H]]; [by apply Hs| |].
  - by apply (proj1 (Forall_forall _ _) Hes') in H.
  - by apply list_elem_of_singleton in H.
Qed.

(** Nothing ends between the two bounds. *)
Lemma progress_skip evs b b' pre s :
  progress evs b pre s → (b ≤ b')%Z →
  (∀ ev, ev ∈ scored_events pre → (b < (win_of ev).2)%Z → (b' < (win_of ev).2)%Z) →
  progress evs b' pre s.
Proof.
  intros Hp Hb Hskip. split; try apply Hp.
  - intros win subj. rewrite (pr_content _ _ _ _ Hp). destruct (Z.leb_spec win.2 b), (Z.leb_spec win.2 b'); try done; [lia|].
    destruct (of_key win subj (scored_events pre)) as [|ev l] eqn:Hk; [done|]. exfalso.
    assert (ev ∈ of_key win subj (scored_events pre)) as (Hev & Hw & _)%elem_of_key by (rewrite Hk; by left). subst win.
    specialize (Hskip ev Hev). lia.
  - intros ev Hev Hw. apply (pr_done _ _ _ _ Hp); [done|]. specialize (Hskip ev Hev). lia.
Qed.

(** [b'] is a bound up to which everything has been read. *)
Definition read_up_to (evs : list VerificationEvent) (b' : Z) (pre : list Ledger) : Prop :=
  (∀ ev subj, ev ∈ scored_events pre → ((win_of ev).2 ≤ b')%Z →
    of_key (win_of ev) subj (scored_events pre) = of_key (win_of ev) subj all) ∧
  (∀ ev, ev ∈ evs → ((win_of ev).2 ≤ b')%Z → ev ∈ scored_events pre).

(** The open window ends before the bound and is written. *)
Lemma progress_window evs b b' pre s ev0 :
  progress evs b pre s → (b ≤ b')%Z → gap b b' pre → read_up_to evs b' pre →
  (∀ ev, ev ∈ scored_events pre → ev ∈ all) →
  ev0 ∈ scored_events pre → (b < (win_of ev0).2 ≤ b')%Z →
  ∃ s', flushWindow (win_of ev0) s = (Ok tt, s') ∧ progress evs b' pre s'.
Proof using Hsize Hreadable Hchosen.
  intros Hp Hb Hgap [Hcomplete Hearly] Hall Hev0 [Hw0 Hw'].
  destruct (flushWindow_spec (win_of ev0) s (pr_wf _ _ _ _ Hp)) as (es & c & s' & Hf & Hbs & He & Hc & Hes & Hwr).
  { by eapply progress_key. }
  { intros subj. rewrite (pr_content _ _ _ _ Hp), (proj2 (Z.leb_gt _ _) Hw0). by apply Hcomplete. }
  exists s'. split; [done|].
  assert (∀ ev, ev ∈ scored_events pre → ((win_of ev).2 ≤ b')%Z → written (done_effects s ++ es) ev) as Hwritten.
  { intros ev Hev Hle. destruct (decide ((win_of ev).2 ≤ b)%Z).
    - by apply written_app, (pr_done _ _ _ _ Hp).
    - assert (win_of ev = win_of ev0) as Heq by (eapply gap_window; [done..|lia|done]).
      destruct (Hwr ev (Hall ev Hev) Heq) as (v & Hv & Hvf). exists v. rewrite Heq. split; [|done].
      apply elem_of_app. by right. }
  split.
  - rewrite Hbs. apply mdel_wf, (pr_wf _ _ _ _ Hp).
  - intros win subj. rewrite Hbs, content_mdel by apply (pr_wf _ _ _ _ Hp). case_decide as Hd.
    { subst win. by rewrite (proj2 (Z.leb_le _ _) Hw'). }
    rewrite (pr_content _ _ _ _ Hp). destruct (Z.leb_spec win.2 b), (Z.leb_spec win.2 b'); try done; [lia|].
    destruct (of_key win subj (scored_events pre)) as [|ev l] eqn:Hk; [done|]. exfalso. apply Hd.
    assert (ev ∈ of_key win subj (scored_events pre)) as (Hev & Hw & _)%elem_of_key by (rewrite Hk; by left). subst win.
    by eapply gap_window.
  - rewrite He. apply sound_app; [apply Hp|done].
  - intros ev Hev Hle. rewrite He, app_assoc. by apply written_app, Hwritten.
  - rewrite He. apply saves_snoc; [apply Hp|done| |].
    + pose proof (window_bounds ev0). pose proof (window_aligned ev0) as Hal.
      replace (lastProcessedLedger c + 1)%Z with ((win_of ev0).1 + 1 * size)%Z by lia. by rewrite Z_mod_plus_full.
    + intros ev Hev Hle. apply Hwritten; [apply Hearly; [done|lia]|lia].
Qed.

Lemma flush_progress evs b b' pre s reached :
  progress evs b pre s → (b ≤ b')%Z → gap b b' pre → read_up_to evs b' pre →
  (∀ ev, ev ∈ scored_events pre → ev ∈ all) →
  (∀ ev, ev ∈ scored_events pre → (b < (win_of ev).2)%Z → reached (win_of ev) = ((win_of ev).2 <=? b')%Z) →
  ∃ s', flush_reached localeCompare sha256 clock o reached s = (Ok tt, s') ∧ progress evs b' pre s'.
Proof using Hsize Hreadable Hchosen.
  intros Hp Hb Hgap Hread Hall Hreached. unfold flush_reached.
  set (F := List.filter reached (mkeys (buckets s))).
  assert (∀ win, win ∈ F ↔ win ∈ mkeys (buckets s) ∧ (win.2 ≤ b')%Z) as HF.
  { intros win. unfold F. rewrite list_elem_of_In, filter_In, <-list_elem_of_In. split; intros [Hk H]; (split; [done|]);
      destruct (progress_keys _ _ _ _ _ Hp Hk) as (ev & Hev & <- & Hw); rewrite (Hreached ev Hev Hw) in *; bool_to_prop; [done|].
    by apply Z.leb_le. }
  assert (NoDup F) as HndF.
  { subst F. apply NoDup_ListNoDup, List.NoDup_filter, NoDup_ListNoDup, (wf_windows _ (pr_wf _ _ _ _ Hp)). }
  clearbody F. destruct F as [|w F'].
  - exists s. split; [done|]. apply (progress_skip _ b); [done..|]. intros ev Hev Hw.
    apply Z.nle_gt. intros Hle. apply (not_elem_of_nil (win_of ev)), HF. split; [by eapply progress_key|done].
  - pose proof (proj1 (HF w) ltac:(by left)) as [Hkey Hw'].
    destruct (progress_keys _ _ _ _ _ Hp Hkey) as (ev0 & Hev0 & <- & Hw0).
    destruct (all_equal_short (win_of ev0 :: F') (win_of ev0) HndF) as [?|Hshort]; [|done|].
    { intros win [Hk Hle]%HF. destruct (progress_keys _ _ _ _ _ Hp Hk) as (ev & Hev & <- & Hw). by eapply gap_window. }
    injection Hshort as ->. destruct (progress_window _ _ b' _ _ ev0 Hp Hb Hgap Hread Hall Hev0) as (s' & Hf & Hp'); [done|].
    exists s'. split; [cbn; unfold mbind, method_bind; by rewrite Hf|done].
Qed.

Lemma scored_snoc pre l : scored_events (pre ++ [l]) = scored_events pre ++ scored_events [l].
Proof. unfold scored_events. by rewrite bind_app, List.filter_app. Qed.

Lemma ledger_of_event l ev : ev ∈ fromExportLedger l → ledger ev = ledgerSequence l.
Proof.
  unfold fromExportLedger, fromTransactions. intros (tx & H & _)%list_elem_of_bind.
  apply list_elem_of_bind in H as (op & Hev & _). unfold mapOperationToVerificationEvents in Hev.
  destruct op; [destruct (String.eqb _ _)|..]; cbn in Hev;
    repeat (apply elem_of_cons in Hev as [->|Hev]; [done|]); by apply not_elem_of_nil in Hev.
Qed.

Lemma scored_ledger ls ev : ev ∈ scored_events ls → ∃ l, l ∈ ls ∧ ledger ev = ledgerSequence l.
Proof.
  unfold scored_events. rewrite list_elem_of_In, filter_In, <-list_elem_of_In.
  intros [(l & Hev & Hl)%list_elem_of_bind _]. exists l. by split; [|apply ledger_of_event].
Qed.

Lemma take_progress evs b pre l s :
  progress evs b pre s → (b < ledgerSequence l)%Z →
  ∃ s', take_ledger o l s = (Ok tt, s') ∧ progress evs b (pre ++ [l]) s'.
Proof using Hsize.
  intros Hp Hl. eexists. split; [done|].
  assert (scored_events [l] = List.filter (λ ev, chosen o (subject ev)) (fromExportLedger l)) as Hone.
  { unfold scored_events. cbn. by rewrite app_nil_r. }
  assert (∀ ev, ev ∈ scored_events [l] → (b < (win_of ev).2)%Z) as Hlater.
  { intros ev (l' & ->%list_elem_of_singleton & Hev)%scored_ledger. pose proof (window_bounds ev). lia. }
  rewrite <-Hone. destruct (buckets_of size (buckets s) (scored_events [l]) (pr_wf _ _ _ _ Hp)) as (Hwf & Hcontent & _).
  split; cbn [buckets done_effects]; [done| |apply Hp| |apply Hp].
  - intros win subj. rewrite Hcontent, (pr_content _ _ _ _ Hp), scored_snoc, of_key_app.
    destruct (Z.leb_spec win.2 b); [|done]. cbn [app].
    destruct (of_key win subj (scored_events [l])) as [|ev k] eqn:Hk; [done|]. exfalso.
    assert (ev ∈ of_key win subj (scored_events [l])) as (Hev & <- & _)%elem_of_key by (rewrite Hk; by left).
    specialize (Hlater ev Hev). lia.
  - intros ev. rewrite scored_snoc, elem_of_app. intros [Hev|Hev] Hle; [by apply (pr_done _ _ _ _ Hp)|].
    specialize (Hlater ev Hev). lia.
Qed.

(** ** A whole run *)

Section whole.
Context (L : list Ledger).
Notation evs := (scored_events L).
Context (Hcover : ∀ ev subj, ev ∈ evs → of_key (win_of ev) subj evs = of_key (win_of ev) subj all).
Context (Hsub : ∀ ev, ev ∈ evs → ev ∈ all).

Lemma scored_app l k : scored_events (l ++ k) = scored_events l ++ scored_events k.
Proof. unfold scored_events. by rewrite bind_app, List.filter_app. Qed.

Lemma read_so_far pre rest q :
  L = pre ++ rest → (∀ l, l ∈ rest → (q < ledgerSequence l)%Z) → read_up_to evs q pre.
Proof using Hcover Hsize.
  intros HL Hrest. assert (∀ ev, ev ∈ scored_events rest → (q < ledger ev)%Z) as Hlater.
  { intros ev (l & Hl & ->)%scored_ledger. by apply Hrest. }
  split.
  - intros ev subj Hev Hle. rewrite <-Hcover by (rewrite HL, scored_app; apply elem_of_app; by left).
    rewrite HL, scored_app, of_key_app.
    destruct (of_key (win_of ev) subj (scored_events rest)) as [|ev' k] eqn:Hk; [by rewrite app_nil_r|]. exfalso.
    assert (ev' ∈ of_key (win_of ev) subj (scored_events rest)) as (Hev' & Hw & _)%elem_of_key by (rewrite Hk; by left).
    specialize (Hlater ev' Hev'). pose proof (window_bounds ev'). rewrite Hw in *. lia.
  - intros ev. rewrite HL, scored_app, elem_of_app. intros [Hev|Hev] Hle; [done|].
    specialize (Hlater ev Hev). pose proof (window_bounds ev). lia.
Qed.

Lemma read_progress rest : ∀ pre b s,
  progress evs b pre s → L = pre ++ rest → (∀ ev, ev ∈ scored_events pre → (ledger ev ≤ b)%Z) →
  ascending rest → (∀ l, l ∈ rest → (b < ledgerSequence l)%Z) →
  ∃ b' s', read_ledgers localeCompare sha256 clock o rest s = (Ok tt, s') ∧ progress evs b' L s' ∧
    ∀ ev, ev ∈ evs → (ledger ev ≤ b')%Z.
Proof using Hsize Hreadable Hchosen Hcover Hsub.
  induction rest as [|l rest IH]; intros pre b s Hp HL Hbound Hasc Hb.
  - rewrite app_nil_r in HL. subst pre. by exists b, s.
  - apply StronglySorted_inv in Hasc as [Hasc Hl]. rewrite Forall_forall in Hl.
    assert (L = (pre ++ [l]) ++ rest) as HL' by by rewrite <-app_assoc.
    assert (∀ ev, ev ∈ scored_events (pre ++ [l]) → (ledger ev ≤ b ∨ ledger ev = ledgerSequence l)%Z) as Hle.
    { intros ev. rewrite scored_snoc, elem_of_app. intros [Hev|Hev]; [left; by apply Hbound|right].
      apply scored_ledger in Hev as (l' & ->%list_elem_of_singleton & ->). done. }
    assert (b < ledgerSequence l)%Z as Hbl by (apply Hb; by left).
    destruct (take_progress evs b pre l s Hp Hbl) as (s1 & Ht & Hp1).
    destruct (flush_progress evs b (ledgerSequence l) (pre ++ [l]) s1 (λ w, (w.2 <=? ledgerSequence l)%Z) Hp1) as (s2 & Hf & Hp2).
    + lia.
    + intros ev Hev. destruct (Hle ev Hev); [by left|right; lia].
    + by eapply read_so_far.
    + intros ev Hev. apply Hsub. rewrite HL', scored_app. apply elem_of_app. by left.
    + done.
    + destruct (IH (pre ++ [l]) (ledgerSequence l) s2 Hp2 HL') as (b' & s' & Hr & Hp' & Hb').
      * intros ev Hev. destruct (Hle ev Hev); lia.
      * done.
      * intros l' Hl'. by apply Hl.
      * exists b', s'. split; [|done]. cbn [read_ledgers]. unfold read_ledger, mbind, method_bind. by rewrite Ht, Hf.
Qed.

(** A run over ledgers in order ends, writes only verdicts of whole windows, names
    in a checkpoint only what is written, and leaves nothing out. *)
Lemma run_body_spec prior :
  ascending L →
  ∃ s', run_body localeCompare sha256 clock o (L, None) (start_state o prior) = (Ok tt, s') ∧
    sound_effects (done_effects s') ∧ honest_saves evs (done_effects s') ∧
    ∀ ev, ev ∈ evs → written (done_effects s') ev.
Proof using Hsize Hreadable Hchosen Hcover Hsub.
  intros Hasc. set (b := match L with l :: _ => (ledgerSequence l - 1)%Z | [] => 0%Z end).
  assert (progress evs b [] (start_state o prior)) as H0.
  { split; cbn; [apply wf_nil| | | |]; try done.
    - intros win subj. by destruct (_ <=? _)%Z.
    - by intros v ?%not_elem_of_nil.
    - by intros ev ?%not_elem_of_nil. }
  destruct (read_progress L [] b _ H0) as (b' & s1 & Hr & Hp & Hb); [done|by intros ev ?%not_elem_of_nil|done| |].
  { intros l Hl. subst b. destruct L as [|l0 L']; [by apply not_elem_of_nil in Hl|].
    apply StronglySorted_inv in Hasc as [_ H]. rewrite Forall_forall in H.
    apply elem_of_cons in Hl as [->|Hl]; [lia|]. specialize (H l Hl). cbn in H. lia. }
  destruct (flush_progress evs b' (b' + size) L s1 (λ _, true) Hp) as (s' & Hf & Hp').
  - lia.
  - intros ev Hev. left. by apply Hb.
  - split; [intros ev subj Hev _; by apply Hcover|done].
  - done.
  - intros ev Hev _. symmetry. apply Z.leb_le. pose proof (window_bounds ev). specialize (Hb ev Hev). lia.
  - exists s'. split_and!; [|apply Hp'|apply Hp'|].
    + unfold run_body, mbind, method_bind. cbn [fst snd]. by rewrite Hr.
    + intros ev Hev. apply (pr_done _ _ _ _ Hp'); [done|]. pose proof (window_bounds ev). specialize (Hb ev Hev). lia.
Qed.
End whole.
End clocked.
End writes.

(** ** Keys name verdicts *)

Lemma split_last c s s' d d' :
  char_free c d = true → char_free c d' = true →
  s +:+ String c d = s' +:+ String c d' → s = s' ∧ d = d'.
Proof.
  intros Hd Hd'. revert s'. induction s as [|a s IH]; intros [|a' s'] H; cbn in H.
  - by injection H.
  - injection H as <- ->. rewrite char_free_app in Hd. cbn in Hd. by rewrite Ascii.eqb_refl, andb_false_r in Hd.
  - injection H as -> <-. rewrite char_free_app in Hd'. cbn in Hd'. by rewrite Ascii.eqb_refl, andb_false_r in Hd'.
  - injection H as -> H. by destruct (IH s' H) as [-> ->].
Qed.

Lemma pretty_nonneg_free c (z : Z) : (0 ≤ z)%Z → digit_val c = None → char_free c (pretty z) = true.
Proof.
  intros Hz Hc. apply all_digits_free; [done|]. destruct z as [|p|p]; [done| |lia].
  change (all_digits (pretty (N.pos p)) = true). apply all_digits_pretty.
Qed.

Lemma verdictKey_inj subj subj' ws ws' we we' :
  (0 ≤ ws)%Z → (0 ≤ ws')%Z → (0 ≤ we)%Z → (0 ≤ we')%Z →
  verdictKey subj ws we = verdictKey subj' ws' we' → subj = subj' ∧ ws = ws' ∧ we = we'.
Proof.
  intros H1 H2 H3 H4 H. unfold verdictKey in H.
  change ("-" +:+ ?x) with (String "-" x) in H. rewrite <-!app_assoc_s in H.
  apply split_last in H as [H Hwe]; [|by apply pretty_nonneg_free..]. apply (inj pretty) in Hwe.
  rewrite !app_assoc_s in H. change ("|" +:+ ?x) with (String "|" x) in H.
  apply split_last in H as [-> Hws]; [|by apply pretty_nonneg_free..]. by apply (inj pretty) in Hws.
Qed.

(** ** Crashes *)

Section crashes.
Context (localeCompare : string → string → Z) (sha256 : string → string).
Context (o : BackfillOptions) (source : LedgerRange → ledger_stream) (ledgers : list Ledger).
Notation size := (effective_size o).
Notation win_of := (window_of_event size).

(** The reader gives the ledgers of a range in order, each once. *)
Definition lawful_reader : Prop :=
  ascending ledgers ∧ ∀ r, reader_read source r = (List.filter (in_ledger_range r) ledgers, None).

(** The events of the range that are asked for. *)
Definition wanted : list VerificationEvent := scored_events o (List.filter (in_ledger_range (range o)) ledgers).

Context (Hreader : lawful_reader) (Hsize : (0 < size)%Z) (Hstart : (0 ≤ Exports.startLedger (range o))%Z).
Context (Hreadable : Forall readable_event wanted).
Notation run := (run localeCompare sha256).
Notation verdict_for := (verdict_for localeCompare sha256 o wanted).
Notation stores := (VerdictSink * CheckpointStore)%type.

Lemma elem_wanted ls ev : ev ∈ scored_events o ls → chosen o (subject ev) = true.
Proof. unfold scored_events. rewrite list_elem_of_In, filter_In. by intros [_ ?]. Qed.

Lemma wanted_ledger ev : ev ∈ wanted → (0 ≤ ledger ev)%Z.
Proof using Hstart.
  intros (l & Hl & ->)%scored_ledger. apply list_elem_of_In, filter_In in Hl as [_ Hl].
  unfold in_ledger_range in Hl. bool_to_prop. lia.
Qed.

Lemma window_nonneg ev : ev ∈ wanted → (0 ≤ (win_of ev).1)%Z.
Proof using Hstart Hsize.
  intros Hev%wanted_ledger. unfold window_of_event, windowStartFor. cbn [fst].
  pose proof (Z.div_pos (ledger ev) size Hev Hsize). nia.
Qed.

Definition event_key (ev : VerificationEvent) : string :=
  verdictKey (canonicalAddress (subject ev)) (win_of ev).1 (win_of ev).2.

Lemma verdict_for_key win subj v : verdict_for win subj v → key_of v = verdictKey (canonicalAddress subj) win.1 win.2.
Proof.
  intros [_ [t Hv]]. rewrite computeVerdict_cases in Hv. destruct (forallb _ _); [|done]. by injection Hv as <-.
Qed.

Record stores_ok (st : stores) : Prop := {
  ok_sink k v : mget k st.1 = Some v → k = key_of v ∧ ∃ win subj, verdict_for win subj v;
  ok_checkpoint c : st.2 = Some c → ((lastProcessedLedger c + 1) mod size = 0)%Z ∧
    ∀ ev, ev ∈ wanted → ((win_of ev).2 ≤ lastProcessedLedger c + 1)%Z → is_Some (mget (event_key ev) st.1);
}.

Lemma upsert_keeps k v s : is_Some (mget k s) → is_Some (mget k (upsert v s)).
Proof. unfold upsert. rewrite mget_mset. by case_decide. Qed.

Lemma apply_app es es' st : apply_effects (es ++ es') st = apply_effects es' (apply_effects es st).
Proof. apply foldl_app. Qed.

Lemma effects_keep k es st : is_Some (mget k st.1) → is_Some (mget k (apply_effects es st).1).
Proof.
  revert st. induction es as [|e es IH]; intros st H; [done|]. apply (IH (apply_effect st e)).
  destruct e; cbn; [by apply upsert_keeps|done..].
Qed.

Lemma effects_write v es st : Upsert v ∈ es → is_Some (mget (key_of v) (apply_effects es st).1).
Proof.
  intros (i & Hi)%list_elem_of_lookup. rewrite <-(take_drop_middle _ _ _ Hi), apply_app.
  apply (effects_keep _ (drop (S i) es) (apply_effect _ (Upsert v))). cbn. unfold upsert. rewrite mget_mset_eq. by eexists.
Qed.

Lemma written_stored es st ev : written localeCompare sha256 o wanted es ev → is_Some (mget (event_key ev) (apply_effects es st).1).
Proof. intros (v & Hv & Hvf). unfold event_key. rewrite <-(verdict_for_key _ _ _ Hvf). by apply effects_write. Qed.

(** The stores after any part of what a run does. *)
Lemma prefix_ok evs es es' st :
  stores_ok st → sound_effects localeCompare sha256 o wanted es → honest_saves localeCompare sha256 o wanted evs es →
  (∀ ev, ev ∈ wanted → ev ∈ evs ∨ is_Some (mget (event_key ev) st.1)) →
  es' `prefix_of` es → stores_ok (apply_effects es' st).
Proof.
  intros Hok Hsound Hsaves Hrest. induction es' as [|e es' IH] using rev_ind; intros Hpre; [done|].
  assert (es' `prefix_of` es) as Hpre' by (etrans; [|exact Hpre]; by apply prefix_app_r).
  specialize (IH Hpre'). rewrite apply_app. cbn [apply_effects foldl].
  assert (es !! length es' = Some e) as He.
  { eapply prefix_lookup_Some; [|exact Hpre]. by rewrite lookup_app_r, Nat.sub_diag by lia. }
  destruct e as [v|v|c]; cbn [apply_effect]; [|exact IH|].
  - split; cbn [fst snd].
    + intros k v'. unfold upsert. rewrite mget_mset. case_decide as Hk; [|by apply (ok_sink _ IH)].
      intros [= <-]. split; [done|]. apply Hsound. by eapply list_elem_of_lookup_2.
    + intros c Hc. destruct (ok_checkpoint _ IH c Hc) as [Hal Hall]. split; [done|].
      intros ev Hev Hle. apply upsert_keeps. by apply Hall.
  - split; cbn [fst snd]; [apply (ok_sink _ IH)|]. intros c' [= <-].
    destruct (Hsaves _ _ He) as [Hal Hw]. split; [done|]. intros ev Hev Hle.
    assert (take (length es') es = es') as Htake by (destruct Hpre' as [k ->]; by rewrite take_app_length).
    rewrite Htake in Hw. destruct (Hrest ev Hev) as [Hin|Hst]; [by apply written_stored, Hw|by apply effects_keep].
Qed.

Lemma scored_filter (p : Z → bool) ls :
  scored_events o (List.filter (λ l, p (ledgerSequence l)) ls) = List.filter (λ ev, p (ledger ev)) (scored_events o ls).
Proof.
  induction ls as [|l ls IH]; [done|]. cbn [List.filter].
  change (l :: ls) with ([l] ++ ls). rewrite scored_app, List.filter_app, <-IH.
  assert (List.filter (λ ev, p (ledger ev)) (scored_events o [l]) = if p (ledgerSequence l) then scored_events o [l] else []) as ->.
  { assert (∀ ev, ev ∈ scored_events o [l] → ledger ev = ledgerSequence l) as H.
    { by intros ev (l' & ->%list_elem_of_singleton & ->)%scored_ledger. }
    revert H. generalize (scored_events o [l]). induction l0 as [|ev evs IHe]; intros H; cbn [List.filter]; [by destruct (p _)|].
    rewrite (H ev) by by left. rewrite IHe by (intros; apply H; by right). by destruct (p _). }
  destruct (p (ledgerSequence l)); [by rewrite <-scored_app|done].
Qed.

Definition read_events (prior : CheckpointStore) : list VerificationEvent :=
  scored_events o (List.filter (in_ledger_range (effective_range o prior)) ledgers).

Lemma read_events_spec prior :
  read_events prior =
    List.filter (λ ev, (Exports.startLedger (effective_range o prior) <=? ledger ev)%Z) wanted.
Proof.
  unfold read_events, wanted. rewrite <-scored_filter. f_equal.
  induction ledgers as [|l ls IH]; [done|]. cbn [List.filter]. rewrite IH.
  set (s := Exports.startLedger (effective_range o prior)).
  assert (in_ledger_range (effective_range o prior) l = in_ledger_range (range o) l && (s <=? ledgerSequence l)%Z) as ->.
  { unfold in_ledger_range. change (Exports.endLedger (effective_range o prior)) with (Exports.endLedger (range o)). fold s.
    assert (Exports.startLedger (range o) ≤ s)%Z as Hs by (subst s; cbn; lia).
    destruct (Z.ltb_spec (ledgerSequence l) s), (Z.ltb_spec (ledgerSequence l) (Exports.startLedger (range o))), (Z.leb_spec s (ledgerSequence l));
      cbn; try lia; by rewrite ?andb_true_r, ?andb_false_r. }
  destruct (in_ledger_range (range o) l); cbn [andb List.filter]; [|done]. by destruct (_ <=? _)%Z.
Qed.

(** A run goes on where a window begins, or reads the whole range. *)
Lemma start_cases (st : stores) :
  stores_ok st →
  (Exports.startLedger (effective_range o st.2) = Exports.startLedger (range o)) ∨
  ∃ c, st.2 = Some c ∧ (Exports.startLedger (effective_range o st.2) = lastProcessedLedger c + 1)%Z ∧
    ((lastProcessedLedger c + 1) mod size = 0)%Z.
Proof using Hsize.
  intros Hok. unfold effective_range. cbn. destruct st.2 as [c|] eqn:Hc; [|left; lia].
  destruct (ok_checkpoint _ Hok c Hc) as [Hal _]. unfold windowStartFor.
  pose proof (Z.div_mod (lastProcessedLedger c + 1) size ltac:(lia)).
  destruct (Z.max_spec ((lastProcessedLedger c + 1) / size * size) (Exports.startLedger (range o))) as [[_ ->]|[_ ->]]; [by left|].
  right. exists c. split_and!; [done|nia|done].
Qed.

Lemma of_key_filter win subj (g : VerificationEvent → bool) evs :
  (∀ ev, win_of ev = win → g ev = true) → of_key size win subj (List.filter g evs) = of_key size win subj evs.
Proof.
  intros Hg. induction evs as [|ev evs IH]; [done|]. unfold of_key in *. cbn [List.filter].
  destruct (decide (win_of ev = win)) as [Hw|Hw].
  - rewrite Hg by done. cbn [List.filter]. by rewrite IH.
  - rewrite bool_decide_false by done. cbn [andb]. destruct (g ev); [|exact IH]. cbn [List.filter].
    rewrite bool_decide_false by done. exact IH.
Qed.

Lemma read_covers (st : stores) ev subj :
  stores_ok st → ev ∈ read_events st.2 → of_key size (win_of ev) subj (read_events st.2) = of_key size (win_of ev) subj wanted.
Proof using Hsize.
  intros Hok Hev. rewrite read_events_spec in Hev |- *. apply list_elem_of_In, filter_In in Hev as [Hin%list_elem_of_In Hev].
  destruct (start_cases st Hok) as [Hs|(c & _ & Hs & Hal)].
  - f_equal. rewrite Hs. apply forallb_filter_id, forallb_forall. intros ev' Hev'%list_elem_of_In.
    apply scored_ledger in Hev' as (l & Hl & ->). apply list_elem_of_In, filter_In in Hl as [_ Hl].
    unfold in_ledger_range in Hl. bool_to_prop. by apply Z.leb_le.
  - apply of_key_filter. intros ev' Hw. rewrite Hs in Hev |- *. bool_to_prop. apply Z.leb_le.
    pose proof (window_bounds o Hsize ev') as Hb'. pose proof (window_bounds o Hsize ev) as Hb. rewrite Hw in Hb'.
    pose proof (window_aligned o Hsize ev) as Ha.
    pose proof (Z.div_mod (lastProcessedLedger c + 1) size ltac:(lia)). pose proof (Z.div_mod (win_of ev).1 size ltac:(lia)).
    assert ((lastProcessedLedger c + 1) / size ≤ (win_of ev).1 / size)%Z; [|nia].
    assert (size * ((lastProcessedLedger c + 1) / size) < size * ((win_of ev).1 / size) + size)%Z by lia. nia.
Qed.

Lemma backfill_run_spec clock (st : stores) :
  stores_ok st → ∃ res es, run clock o source st.2 = (Ok res, es) ∧
    sound_effects localeCompare sha256 o wanted es ∧
    honest_saves localeCompare sha256 o wanted (read_events st.2) es ∧
    (∀ ev, ev ∈ wanted → ev ∈ read_events st.2 ∨ is_Some (mget (event_key ev) st.1)) ∧
    ∀ ev, ev ∈ read_events st.2 → written localeCompare sha256 o wanted es ev.
Proof using Hreader Hsize Hreadable.
  intros Hok. destruct Hreader as [Hasc Hread].
  destruct (run_body_spec localeCompare sha256 o Hsize wanted Hreadable (λ ev, elem_wanted _ ev) clock
    (List.filter (in_ledger_range (effective_range o st.2)) ledgers)) with (prior := st.2) as (s' & Hrun & Hs & Hh & Hw).
  - intros ev subj Hev. by apply (read_covers st).
  - intros ev Hev. fold (read_events st.2) in Hev. rewrite read_events_spec in Hev.
    by apply list_elem_of_In, filter_In in Hev as [?%list_elem_of_In _].
  - by apply filter_keeps_sorted.
  - unfold Backfill.run. rewrite Hread, Hrun. cbn [mbind result_bind]. eexists _, _. split_and!; [done..| |done].
    intros ev Hev. destruct (Z.leb_spec (Exports.startLedger (effective_range o st.2)) (ledger ev)) as [Hle|Hlt].
    + left. rewrite read_events_spec. apply list_elem_of_In, filter_In. split; [by apply list_elem_of_In|by apply Z.leb_le].
    + right. destruct (start_cases st Hok) as [Hst|(c & Hc & Hst & Hal)].
      * exfalso. apply scored_ledger in Hev as (l & Hl & Hl'). apply list_elem_of_In, filter_In in Hl as [_ Hl].
        unfold in_ledger_range in Hl. bool_to_prop. lia.
      * destruct (ok_checkpoint _ Hok c Hc) as [_ Hdone]. apply Hdone; [done|].
        pose proof (window_bounds o Hsize ev) as Hb. pose proof (window_aligned o Hsize ev) as Ha.
        pose proof (Z.div_mod (lastProcessedLedger c + 1) size ltac:(lia)). pose proof (Z.div_mod (win_of ev).1 size ltac:(lia)).
        assert (size * ((win_of ev).1 / size) < size * ((lastProcessedLedger c + 1) / size))%Z by lia.
        assert ((win_of ev).1 / size < (lastProcessedLedger c + 1) / size)%Z; nia.
Qed.

(** Any number of runs, each broken off after some of its effects. *)
Inductive crashed : stores → Prop :=
  | never_run : crashed ([], None)
  | broken_off st clock es : crashed st → es `prefix_of` (run clock o source st.2).2 → crashed (apply_effects es st).

Lemma crashed_ok st : crashed st → stores_ok st.
Proof using Hreader Hsize Hreadable.
  induction 1 as [|st clock es _ IH Hes]; [by split|].
  destruct (backfill_run_spec clock st IH) as (res & out & Hrun & Hs & Hh & Hrest & _). rewrite Hrun in Hes. cbn in Hes.
  by eapply prefix_ok.
Qed.

(** What the sink holds when every verdict is written. *)
Definition all_written (sink : VerdictSink) : Prop :=
  (∀ subj win, of_key size win subj wanted ≠ [] → ∃ v, sink_get subj win.1 win.2 sink = Some v ∧ verdict_for win subj v) ∧
  ∀ v, v ∈ sink_all sink → ∃ win subj, verdict_for win subj v.

Lemma subject_canonical ev : ev ∈ wanted → canonicalAddress (subject ev) = subject ev.
Proof.
  unfold wanted, scored_events. intros [Hev _]%list_elem_of_In%filter_In. apply list_elem_of_In in Hev.
  apply list_elem_of_bind in Hev as (l & Hev & _). unfold fromExportLedger, fromTransactions in Hev.
  apply list_elem_of_bind in Hev as (tx & Hev & _). apply list_elem_of_bind in Hev as (op & Hev & _).
  unfold mapOperationToVerificationEvents in Hev.
  destruct op; [destruct (String.eqb _ _)|..]; cbn -[canonicalAddress] in Hev;
    repeat (apply elem_of_cons in Hev as [->|Hev]; [apply canonicalAddress_idem|]); by apply not_elem_of_nil in Hev.
Qed.

Lemma stored_all (st : stores) :
  stores_ok st → mwf st.1 → (∀ ev, ev ∈ wanted → is_Some (mget (event_key ev) st.1)) → all_written st.1.
Proof using Hsize Hstart.
  intros Hok Hwf Hall. split.
  - intros subj win Hne. destruct (of_key size win subj wanted) as [|ev l] eqn:Hk; [done|].
    assert (ev ∈ of_key size win subj wanted) as (Hev & <- & <-)%elem_of_key by (rewrite Hk; by left).
    destruct (Hall ev Hev) as [v Hv]. destruct (ok_sink _ Hok _ _ Hv) as [Hkey (win & subj & Hvf)].
    exists v. unfold sink_get. pose proof Hv as Hv'. unfold event_key in Hv'. rewrite (subject_canonical ev Hev) in Hv'.
    split; [done|]. rewrite (verdict_for_key _ _ _ Hvf) in Hkey. unfold event_key in Hkey.
    pose proof Hvf as [Hne' _]. destruct (of_key size win subj wanted) as [|ev' l'] eqn:Hk'; [done|].
    assert (ev' ∈ of_key size win subj wanted) as (Hev' & <- & <-)%elem_of_key by (rewrite Hk'; by left).
    rewrite (subject_canonical ev Hev), (subject_canonical ev' Hev') in Hkey.
    pose proof (window_nonneg ev Hev). pose proof (window_nonneg ev' Hev').
    pose proof (window_bounds o Hsize ev). pose proof (window_bounds o Hsize ev').
    apply verdictKey_inj in Hkey as (-> & Hws & Hwe); [|lia..].
    assert (win_of ev = win_of ev') as -> by (destruct (win_of ev), (win_of ev'); by f_equal). done.
  - intros v (k & Hk)%elem_of_mvals; [|done]. by apply (ok_sink _ Hok k).
Qed.

Lemma effects_wf es (st : stores) : mwf st.1 → mwf (apply_effects es st).1.
Proof.
  revert st. induction es as [|e es IH]; intros st H; [done|]. apply (IH (apply_effect st e)).
  destruct e; cbn; [by apply mwf_mset|done..].
Qed.

Lemma crashed_wf st : crashed st → mwf st.1.
Proof. induction 1 as [|st clock es _ IH _]; [apply mwf_nil|by apply effects_wf]. Qed.

Lemma survives clock st :
  crashed st → ∃ res es, run clock o source st.2 = (Ok res, es) ∧ all_written (apply_effects es st).1.
Proof using Hreader Hsize Hstart Hreadable.
  intros Hcr. pose proof (crashed_ok st Hcr) as Hok.
  destruct (backfill_run_spec clock st Hok) as (res & es & Hrun & Hs & Hh & Hrest & Hw). exists res, es. split; [done|].
  apply stored_all.
  - by eapply prefix_ok.
  - by apply effects_wf, crashed_wf.
  - intros ev Hev. destruct (Hrest ev Hev) as [Hin|Hst]; [by apply written_stored, Hw|by apply effects_keep].
Qed.
End crashes.

(** C6: However often a backfill is broken off, at whatever point between two of its
    writes, the run after it ends and leaves exactly one verdict for each subject
    and window with events in the range, scored from all of the window's events:
    what a run that never stopped leaves, apart from the times written.  The reader
    keeps its contract, and the amounts of the events can be read. *)
Theorem backfill_survives_crashes localeCompare sha256 o source ledgers clock st :
  lawful_reader source ledgers → (0 < effective_size o)%Z → (0 ≤ Exports.startLedger (range o))%Z →
  Forall readable_event (wanted o ledgers) →
  crashed localeCompare sha256 o source st →
  ∃ res es, run localeCompare sha256 clock o source st.2 = (Ok res, es) ∧
    all_written localeCompare sha256 o ledgers (apply_effects es st).1.
Proof. intros ? ? ? ? ?. by apply survives. Qed.

(** ** Live *)

Section live_spec.
Context (localeCompare : string → string → Z) (sha256 : string → string) (now : string).
Notation live_verdict win subj evs v :=
  (computeVerdict localeCompare sha256 now subj win evs (Some live) None = Ok v).



End live_spec.

#[export] Instance filter_permutation {A} (f : A → bool) : Proper (Permutation ==> Permutation) (List.filter f).
Proof.
  induction 1 as [|x l l' _ IH|x y l|l l' l'' _ IH _ IH']; cbn; [done| | |by etrans].
  - destruct (f x); by rewrite IH.
  - destruct (f x), (f y); done || apply Permutation_swap.
Qed.



(** ** Concrete runs *)

Definition mint_ledger (seq : Z) (to amount : string) : Ledger :=
  Build_ExportLedger seq "t" "testnet" [Build_ExportTransaction "h" [op_mint to amount "XLM"]].

Definition demo_options (from to : Z) (subjs : option (list string)) : BackfillOptions :=
  {| range := {| Exports.startLedger := from; Exports.endLedger := to |}; windowSize := Some 10%Z;
     subjects := subjs; onVerdict := false |}.

(** A source that gives its ledgers as they are, and the in-memory one. *)
Definition listed (ls : list Ledger) (r : LedgerRange) : ledger_stream := in_range_stream r (ls, None).

Definition demo_run (o : BackfillOptions) (ls : list Ledger) (st : VerdictSink * CheckpointStore) :=
  apply_effects (run code_order (λ s, s) (λ _, "now") o (listed ls) st.2).2 st.

(** The windows of the sink with the amounts that came in. *)
Definition summary (st : VerdictSink * CheckpointStore) : list (string * list (string * string)) * option Z :=
  ((λ v, (key_of v, volumeByAsset (metrics v))) <$> sink_all st.1, lastProcessedLedger <$> st.2).

Definition demo_ledgers : list Ledger := [mint_ledger 3 "GA" "1"; mint_ledger 7 "GA" "2"; mint_ledger 12 "GA" "4"].

Example demo_backfill :
  summary (demo_run (demo_options 0 20 None) demo_ledgers ([], None))
  = ([("GA|0-10", [("XLM", "3.0000000")]); ("GA|10-20", [("XLM", "4.0000000")])], Some 19%Z).
Proof. vm_compute. reflexivity. Qed.

(** The checkpoint of a window the range cut off names its end: a longer range
    resumes behind it, and ledger 7 is never scored. *)
Lemma trailing_checkpoint_skips :
  let st := demo_run (demo_options 0 5 None) demo_ledgers ([], None) in
  summary (demo_run (demo_options 0 20 None) demo_ledgers st)
  = ([("GA|0-10", [("XLM", "1.0000000")]); ("GA|10-20", [("XLM", "4.0000000")])], Some 19%Z).
Proof. vm_compute. reflexivity. Qed.

(** An export that is not in order splits a window, the later part overwrites the
    verdict of the first, and the checkpoint goes back. *)
Lemma unordered_export_overwrites :
  summary (demo_run (demo_options 0 20 None) [mint_ledger 3 "GA" "1"; mint_ledger 12 "GA" "4"; mint_ledger 7 "GA" "2"] ([], None))
  = ([("GA|0-10", [("XLM", "2.0000000")]); ("GA|10-20", [("XLM", "4.0000000")])], Some 9%Z).
Proof. vm_compute. reflexivity. Qed.

(** The subjects asked for are compared as they are written with the canonical
    ones of the events. *)
Lemma subjects_uncanonical :
  summary (demo_run (demo_options 0 20 (Some ["ga"])) demo_ledgers ([], None)) = ([], None).
Proof. vm_compute. reflexivity. Qed.

Lemma demo_lawful : lawful_reader (listed demo_ledgers) demo_ledgers.
Proof.
  split; [by repeat constructor|]. intros r. unfold reader_read, listed, in_range_stream. cbn [fst snd].
  assert (∀ ls, NoDup (ledgerSequence <$> ls) → ∀ seen, (∀ l, l ∈ ls → ledgerSequence l ∉ seen) → dedupe seen ls = ls) as Hd.
  { clear. induction ls as [|l ls IH]; intros Hnd seen Hs; [done|]. apply NoDup_cons in Hnd as [Hl Hnd]. cbn [dedupe].
    rewrite bool_decide_false by (apply Hs; by left). f_equal. apply IH; [done|]. intros l' Hl'.
    rewrite not_elem_of_cons. split; [|apply Hs; by right]. intros Heq. apply Hl. rewrite <-Heq. by apply list_elem_of_fmap_2. }
  assert (∀ l, List.filter (in_ledger_range r) (List.filter (in_ledger_range r) l) = List.filter (in_ledger_range r) l) as ->.
  { clear. induction l as [|x l IH]; [done|]. cbn [List.filter]. destruct (in_ledger_range r x) eqn:Hx; [|done].
    cbn [List.filter]. rewrite Hx. by f_equal. }
  rewrite Hd; [done| |by intros ? _ ?%not_elem_of_nil].
  cbn [List.filter demo_ledgers]. destruct (in_ledger_range r _), (in_ledger_range r _), (in_ledger_range r _); cbn;
    repeat constructor; set_solver by lia.
Qed.

Lemma demo_readable : Forall readable_event (wanted (demo_options 0 20 None) demo_ledgers).
Proof. repeat constructor. Qed.

(** A first run that broke off after its first write. *)
Definition demo_crashed : VerdictSink * CheckpointStore :=
  apply_effects (take 1 (run code_order (λ s, s) (λ _, "now") (demo_options 0 20 None) (listed demo_ledgers) None).2) ([], None).

Lemma demo_broken_off : crashed code_order (λ s, s) (demo_options 0 20 None) (listed demo_ledgers) demo_crashed.
Proof. apply (broken_off _ _ _ _ ([], None) (λ _, "now")); [constructor|]. apply prefix_take. Qed.

Lemma backfill_survives_crashes_witness :
  ∃ res es, run code_order (λ s, s) (λ _, "later") (demo_options 0 20 None) (listed demo_ledgers) demo_crashed.2 = (Ok res, es) ∧
    all_written code_order (λ s, s) (demo_options 0 20 None) demo_ledgers (apply_effects es demo_crashed).1.
Proof.
  apply (backfill_survives_crashes code_order (λ s, s) (demo_options 0 20 None) (listed demo_ledgers) demo_ledgers (λ _, "later") demo_crashed).
  - exact demo_lawful.
  - reflexivity.
  - cbn. lia.
  - exact demo_readable.
  - exact demo_broken_off.
Defined.

