(* ===== verification/RegistryCache.v ===== *)
(** * The caches of the registry clients

    abi-registry/src/LruCache.ts and TtlLruCache.ts: a Map whose insertion order
    is the order of use, the least recently used entry first, and on top of it
    entries that expire.  [lru_holds_the_recent] says what such a cache still
    holds after any use of it. *)

From stdpp Require Import gmap.
From S2P Require Import Prelude JsMap.

(** ** LruCache.ts *)

Section lru.
Context {K V : Type} `{EqDecision K}.
Implicit Types (k : K) (v : V) (m : jsmap K V).

Record LruCache := {
  lru_map : jsmap K V;
  lru_maxSize : jsnum;
}.

Definition new_LruCache (maxSize : jsnum) : LruCache := {| lru_map := []; lru_maxSize := maxSize |}.

Definition with_lru_map (m : jsmap K V) (c : LruCache) : LruCache :=
  {| lru_map := m; lru_maxSize := lru_maxSize c |}.

(** A hit deletes the entry and sets it again, which makes it the last one. *)
Definition lru_get (key : K) (c : LruCache) : option V * LruCache :=
  match mget key (lru_map c) with
  | None => (None, c)
  | Some value => (Some value, with_lru_map (mset key value (mdel key (lru_map c))) c)
  end.

(** [this.map.delete(this.map.keys().next().value)] *)
Definition evict_oldest (m : jsmap K V) : jsmap K V :=
  match mkeys m with [] => m | k :: _ => mdel k m end.

Definition lru_set (key : K) (value : V) (c : LruCache) : LruCache :=
  let m := if mhas key (lru_map c) then mdel key (lru_map c) else lru_map c in
  let m := mset key value m in
  with_lru_map (if js_ltZ (lru_maxSize c) (Z.of_nat (msize m)) then evict_oldest m else m) c.

Definition lru_delete (key : K) (c : LruCache) : bool * LruCache :=
  (mhas key (lru_map c), with_lru_map (mdel key (lru_map c)) c).
Definition lru_has (key : K) (c : LruCache) : bool := mhas key (lru_map c).
Definition lru_clear (c : LruCache) : LruCache := with_lru_map [] c.
Definition lru_size (c : LruCache) : nat := msize (lru_map c).

(** The calls a client makes, one after another. *)
Inductive lru_call :=
  | LGet (key : K)
  | LSet (key : K) (value : V)
  | LDelete (key : K)
  | LClear.

Definition lru_step (c : LruCache) (o : lru_call) : LruCache :=
  match o with
  | LGet k => (lru_get k c).2
  | LSet k v => lru_set k v c
  | LDelete k => (lru_delete k c).2
  | LClear => lru_clear c
  end.

Definition lru_run (ops : list lru_call) (c : LruCache) : LruCache := foldl lru_step c ops.

(** *** What a run does *)

Lemma lru_run_app ops ops' c : lru_run (ops ++ ops') c = lru_run ops' (lru_run ops c).
Proof. apply foldl_app. Qed.

Lemma lru_run_cons o ops c : lru_run (o :: ops) c = lru_run ops (lru_step c o).
Proof. done. Qed.

Lemma lru_step_maxSize c o : lru_maxSize (lru_step c o) = lru_maxSize c.
Proof. destruct o; cbn; unfold lru_get; by repeat case_match. Qed.

Lemma lru_run_maxSize ops c : lru_maxSize (lru_run ops c) = lru_maxSize c.
Proof.
  revert c. induction ops as [|o ops IH]; intros c; [done|].
  rewrite lru_run_cons, IH. apply lru_step_maxSize.
Qed.

Lemma evict_oldest_tail (m : jsmap K V) : evict_oldest m = tail m.
Proof. destruct m as [|[k v] m]; [done|]. unfold evict_oldest, mkeys. cbn. by rewrite decide_True. Qed.

Lemma mset_mdel_snoc k (v : V) m : mwf m → mset k v (mdel k m) = mdel k m ++ [(k, v)].
Proof. intros Hm. apply mset_fresh. apply mget_None. by apply mget_mdel_eq. Qed.

Lemma has_then_mdel k (m : jsmap K V) : (if mhas k m then mdel k m else m) = mdel k m.
Proof.
  destruct (mhas k m) eqn:Hk; [done|]. symmetry. apply mdel_absent.
  rewrite <-mhas_true. by rewrite Hk.
Qed.

Lemma lru_set_map k v c : mwf (lru_map c) →
  lru_map (lru_set k v c) =
    let m := mdel k (lru_map c) ++ [(k, v)] in
    if js_ltZ (lru_maxSize c) (Z.of_nat (length m)) then tail m else m.
Proof.
  intros Hm. unfold lru_set. cbn [lru_map with_lru_map].
  rewrite has_then_mdel, mset_mdel_snoc by done. cbn. by rewrite evict_oldest_tail.
Qed.

Lemma lru_get_map k c : mwf (lru_map c) →
  lru_map (lru_get k c).2 =
    match mget k (lru_map c) with Some v => mdel k (lru_map c) ++ [(k, v)] | None => lru_map c end.
Proof.
  intros Hm. unfold lru_get. destruct (mget k (lru_map c)); [|done]. cbn. by apply mset_mdel_snoc.
Qed.

Lemma mwf_snoc_mdel k (v : V) m : mwf m → mwf (mdel k m ++ [(k, v)]).
Proof. intros Hm. rewrite <-mset_mdel_snoc by done. auto with orbital. Qed.

Lemma mwf_tail (m : jsmap K V) : mwf m → mwf (tail m).
Proof. destruct m as [|[k v] m]; [done|]. unfold mwf, mkeys. cbn. by intros [_ ?]%NoDup_cons. Qed.

Lemma lru_step_wf c o : mwf (lru_map c) → mwf (lru_map (lru_step c o)).
Proof.
  intros Hm. destruct o as [k|k v|k|]; cbn [lru_step].
  - rewrite lru_get_map by done. case_match; [by apply mwf_snoc_mdel|done].
  - rewrite lru_set_map by done. cbn. case_match; [apply mwf_tail|]; by apply mwf_snoc_mdel.
  - cbn. auto with orbital.
  - cbn. auto with orbital.
Qed.

Lemma lru_run_wf ops c : mwf (lru_map c) → mwf (lru_map (lru_run ops c)).
Proof.
  revert c. induction ops as [|o ops IH]; intros c Hm; [done|].
  rewrite lru_run_cons. by apply IH, lru_step_wf.
Qed.

Lemma length_mdel_snoc k (v : V) m :
  length (mdel k m ++ [(k, v)]) = if mhas k m then length m else S (length m).
Proof.
  rewrite length_app. cbn. destruct (mhas k m) eqn:Hk.
  - apply mhas_true in Hk. pose proof (msize_mdel_present k m Hk). unfold msize in *. lia.
  - rewrite mdel_absent; [lia|]. rewrite <-mhas_true. by rewrite Hk.
Qed.

Lemma lru_step_size n c o :
  mwf (lru_map c) → lru_maxSize c = jint (Z.of_nat n) → length (lru_map c) ≤ n →
  length (lru_map (lru_step c o)) ≤ n.
Proof.
  intros Hm Hn Hle. destruct o as [k|k v|k|]; cbn [lru_step].
  - rewrite lru_get_map by done. destruct (mget k _) eqn:Hk; [|done].
    rewrite length_mdel_snoc. apply mget_Some_key, mhas_true in Hk. by rewrite Hk.
  - rewrite lru_set_map by done. cbn zeta. rewrite Hn. cbn [js_ltZ jint].
    rewrite length_mdel_snoc. destruct (Z.ltb_spec (Z.of_nat n) (Z.of_nat (if mhas k (lru_map c) then length (lru_map c) else S (length (lru_map c))) * 2 ^ Z.of_nat 0)) as [Hlt|Hge].
    + pose proof (length_mdel_snoc k v (lru_map c)) as Hl.
      destruct (mdel k (lru_map c) ++ [(k, v)]) as [|x m]; cbn in Hl |- *; destruct (mhas k _); lia.
    + rewrite length_mdel_snoc. destruct (mhas k _); lia.
  - cbn. pose proof (sublist_length _ _ (mkeys_mdel_sublist k (lru_map c))) as Hs.
    unfold mkeys in Hs. rewrite !length_fmap in Hs. lia.
  - cbn. lia.
Qed.

Lemma lru_run_size n ops c :
  mwf (lru_map c) → lru_maxSize c = jint (Z.of_nat n) → length (lru_map c) ≤ n →
  length (lru_map (lru_run ops c)) ≤ n.
Proof.
  revert c. induction ops as [|o ops IH]; intros c Hm Hn Hle; [done|].
  rewrite lru_run_cons. apply IH.
  - by apply lru_step_wf.
  - by rewrite lru_step_maxSize.
  - by apply lru_step_size.
Qed.

(** *** The most recently used entries are the ones kept *)

Section recency.
Context `{!Countable K}.

(** The keys other than [k] the calls name, and those they store. *)
Definition mentions k (o : lru_call) : gset K :=
  match o with
  | LGet j | LSet j _ | LDelete j => {[j]} ∖ {[k]}
  | LClear => ∅
  end.
Definition stores k (o : lru_call) : gset K :=
  match o with LSet j _ => {[j]} ∖ {[k]} | _ => ∅ end.

Definition mentioned k (ops : list lru_call) : gset K := ⋃ (mentions k <$> ops).
Definition stored k (ops : list lru_call) : gset K := ⋃ (stores k <$> ops).

(** Calls that neither replace nor remove [k]; calls that use it. *)
Definition spares k (o : lru_call) : bool :=
  match o with
  | LGet _ => true
  | LSet j _ | LDelete j => negb (bool_decide (j = k))
  | LClear => false
  end.
Definition only_stores_others k (o : lru_call) : bool :=
  match o with
  | LGet j | LSet j _ => negb (bool_decide (j = k))
  | LDelete _ | LClear => false
  end.

(** [k] is held with [v], and the keys used after it satisfy [P]. *)
Definition holds k v (P : list K → Prop) (m : jsmap K V) : Prop :=
  ∃ l l', m = l ++ (k, v) :: l' ∧ P (mkeys l').

Lemma mdel_app_absent k m m' : k ∉ mkeys m → mdel k (m ++ m') = m ++ mdel k m'.
Proof.
  induction m as [|[j w] m IH]; intros Hk; [done|]. unfold mkeys in *. cbn in *.
  rewrite decide_False by set_solver. f_equal. apply IH. set_solver.
Qed.

Lemma mdel_app_present k m m' : k ∈ mkeys m → mdel k (m ++ m') = mdel k m ++ m'.
Proof.
  induction m as [|[j w] m IH]; intros Hk; unfold mkeys in *; cbn in *; [set_solver|].
  case_decide; [done|]. cbn. f_equal. apply IH. set_solver.
Qed.

Lemma elem_of_mkeys_mdel j k m : mwf m → k ∈ mkeys (mdel j m) ↔ k ∈ mkeys m ∧ k ≠ j.
Proof.
  intros Hm. destruct (decide (k = j)) as [->|Hne].
  - assert (j ∉ mkeys (mdel j m)) by (rewrite <-mget_None; by apply mget_mdel_eq). naive_solver.
  - rewrite <-!mhas_true. unfold mhas. rewrite mget_mdel_ne by done. naive_solver.
Qed.

(** The place of [k] after another key was deleted. *)
Lemma holds_mdel_other j k v (P Q : list K → Prop) m :
  mwf m → j ≠ k → (∀ l l', (∀ x, x ∈ l' ↔ x ∈ l ∧ x ≠ j) → P l → Q l') →
  holds k v P m → holds k v Q (mdel j m).
Proof.
  intros Hm Hjk HPQ (l & l' & -> & HP). unfold mwf, mkeys in Hm.
  rewrite fmap_app in Hm. apply NoDup_app in Hm as (Hl & Hd & Hl').
  apply NoDup_cons in Hl' as [Hk Hl'].
  destruct (decide (j ∈ mkeys l)) as [Hj|Hj].
  - rewrite mdel_app_present by done. exists (mdel j l), l'. split; [done|].
    eapply HPQ; [|exact HP]. unfold mkeys in *. set_solver.
  - rewrite mdel_app_absent by done. cbn. rewrite decide_False by done.
    exists l, (mdel j l'). split; [done|]. eapply HPQ; [|exact HP].
    intros x. by apply elem_of_mkeys_mdel.
Qed.

Lemma holds_snoc j w k v (P Q : list K → Prop) m :
  (∀ l, P l → Q (l ++ [j])) → holds k v P m → holds k v Q (m ++ [(j, w)]).
Proof.
  intros HPQ (l & l' & -> & HP). exists l, (l' ++ [(j, w)]). split; [by rewrite <-app_assoc|].
  unfold mkeys in *. rewrite fmap_app. by apply HPQ.
Qed.

(** Another key moved, or put, to the end. *)
Lemma holds_moved j w k v (P Q : list K → Prop) m :
  mwf m → j ≠ k → (∀ l l', (∀ x, x ∈ l' ↔ x ∈ l ∨ x = j) → P l → Q l') →
  holds k v P m → holds k v Q (mdel j m ++ [(j, w)]).
Proof.
  intros Hm Hjk HPQ Hh.
  apply (holds_snoc j w k v (λ l, ∃ l0, P l0 ∧ ∀ x, x ∈ l ↔ x ∈ l0 ∧ x ≠ j)).
  - intros l (l0 & HP & Hl). eapply HPQ; [|exact HP]. intros x.
    rewrite elem_of_app, list_elem_of_singleton, Hl. destruct (decide (x = j)); naive_solver.
  - eapply holds_mdel_other; [done..| |exact Hh]. eauto.
Qed.

Lemma holds_mget k v P m : mwf m → holds k v P m → mget k m = Some v.
Proof. intros Hm (l & l' & -> & _). apply elem_of_mget; [done|]. set_solver. Qed.

Lemma holds_last k v (P : list K → Prop) m : P [] → holds k v P (m ++ [(k, v)]).
Proof. intros HP. by exists m, []. Qed.

(** What an eviction does to [k]: it stays, or it was the oldest. *)
Lemma holds_tail k v P m : mwf m → holds k v P m →
  holds k v P (tail m) ∨ mget k (tail m) = None ∧ ∃ l, m = (k, v) :: l ∧ P (mkeys l).
Proof.
  intros Hm (l & l' & -> & HP). destruct l as [|x l]; cbn.
  - right. unfold mwf, mkeys in Hm. cbn in Hm. apply NoDup_cons in Hm as [Hk _].
    split; [by apply mget_None|]. eauto.
  - left. by exists l, l'.
Qed.

Lemma distinct_size (l : list K) (X : gset K) : NoDup l → list_to_set l ⊆ X → length l ≤ size X.
Proof. intros Hl Hs. rewrite <-(size_list_to_set (C:=gset K) l Hl). by apply subseteq_size. Qed.

Lemma distinct_size_ge (l : list K) (X : gset K) : X ⊆ list_to_set l → size X ≤ length l.
Proof.
  intros Hs. etrans; [by apply subseteq_size|]. clear. induction l as [|x l IH]; cbn.
  - by rewrite size_empty.
  - rewrite size_union_alt. pose proof (size_singleton (C:=gset K) x). 
    assert (size (list_to_set l ∖ {[x]} : gset K) ≤ size (list_to_set l : gset K)) by (apply subseteq_size; set_solver).
    lia.
Qed.

(** A step that spares [k] keeps it, and adds at most the key it names to those
    used after [k], as long as these are fewer than the capacity. *)
Lemma lru_step_spares n k v X c o :
  mwf (lru_map c) → lru_maxSize c = jint (Z.of_nat n) → length (lru_map c) ≤ n →
  spares k o = true → size (X ∪ mentions k o) < n →
  holds k v (λ l, list_to_set l ⊆ X) (lru_map c) →
  holds k v (λ l, list_to_set l ⊆ X ∪ mentions k o) (lru_map (lru_step c o)).
Proof.
  intros Hm Hn Hle Ho HX Hh. pose proof (holds_mget _ _ _ _ Hm Hh) as Hk.
  assert (∀ j w, j ≠ k → holds k v (λ l, list_to_set l ⊆ X ∪ {[j]} ∖ {[k]}) (mdel j (lru_map c) ++ [(j, w)])) as Hmove.
  { intros j w Hj. eapply holds_moved; [done..| |exact Hh]. set_solver. }
  destruct o as [j|j w|j|]; cbn [lru_step mentions spares] in *; [| | |done].
  - rewrite lru_get_map by done. destruct (decide (j = k)) as [->|Hj].
    + rewrite Hk. by apply holds_last.
    + destruct (mget j (lru_map c)); [by apply Hmove|].
      destruct Hh as (l & l' & -> & Hs). exists l, l'. set_solver.
  - bool_to_prop. rewrite lru_set_map by done. cbn zeta. specialize (Hmove j w Ho).
    destruct (js_ltZ _ _) eqn:Hfull; [|done].
    apply holds_tail in Hmove as [Hmove|(_ & l & Hl & Hs)]; [done| |by apply mwf_snoc_mdel].
    exfalso. rewrite Hn in Hfull. cbn in Hfull. apply Z.ltb_lt in Hfull. rewrite Hl in Hfull. cbn in Hfull.
    assert (mwf ((k, v) :: l)) as Hwf by (rewrite <-Hl; by apply mwf_snoc_mdel).
    apply NoDup_cons in Hwf as [_ Hwf]. change (NoDup (mkeys l)) in Hwf.
    pose proof (distinct_size _ _ Hwf Hs) as Hd.
    unfold mkeys in Hd. rewrite length_fmap in Hd. lia.
  - bool_to_prop. cbn. eapply holds_mdel_other; [done..| |exact Hh]. set_solver.
Qed.

(** A step that only stores other keys leaves [k] where it is, with what was
    stored after it, or evicts it. *)
Lemma lru_step_crowds k v T c o :
  mwf (lru_map c) → only_stores_others k o = true →
  mget k (lru_map c) = None ∨ holds k v (λ l, T ⊆ list_to_set l) (lru_map c) →
  mget k (lru_map (lru_step c o)) = None ∨
  holds k v (λ l, T ∪ stores k o ⊆ list_to_set l) (lru_map (lru_step c o)).
Proof.
  intros Hm Ho Hk.
  assert (∀ j w, j ≠ k → mget k (mdel j (lru_map c) ++ [(j, w)]) = None ∨
    holds k v (λ l, T ∪ {[j]} ∖ {[k]} ⊆ list_to_set l) (mdel j (lru_map c) ++ [(j, w)])) as Hmove.
  { intros j w Hj. destruct Hk as [Hk|Hh].
    - left. rewrite <-mset_mdel_snoc, mget_mset_ne by done. by rewrite mget_mdel_ne.
    - right. eapply holds_moved; [done..| |exact Hh]. set_solver. }
  destruct o as [j|j w|j|]; cbn [lru_step stores only_stores_others] in *; [| |done..]; bool_to_prop.
  - rewrite lru_get_map by done. rewrite (right_id_L ∅ (∪)).
    destruct (mget j (lru_map c)) as [w|]; [|done].
    destruct (Hmove j w Ho) as [?|(l & l' & -> & Hs)]; [by left|]. right. exists l, l'. set_solver.
  - rewrite lru_set_map by done. cbn zeta. specialize (Hmove j w Ho).
    destruct (js_ltZ _ _); [|done]. destruct Hmove as [Hmove|Hmove].
    + left. rewrite mget_None in *. intros Hin. apply Hmove. revert Hin. unfold mkeys.
      destruct (_ ++ _); cbn; set_solver.
    + apply holds_tail in Hmove as [Hmove|[Hmove _]]; [by right|by left|by apply mwf_snoc_mdel].
Qed.

Lemma lru_set_holds n k v c :
  mwf (lru_map c) → lru_maxSize c = jint (Z.of_nat n) → length (lru_map c) ≤ n → 0 < n →
  ∀ P : list K → Prop, P [] → holds k v P (lru_map (lru_set k v c)).
Proof.
  intros Hm Hn Hle Hpos P HP. rewrite lru_set_map by done. cbn zeta.
  destruct (js_ltZ _ _) eqn:Hfull; [|by apply holds_last].
  rewrite Hn in Hfull. cbn in Hfull. apply Z.ltb_lt in Hfull. rewrite length_app in Hfull. cbn in Hfull.
  destruct (mdel k (lru_map c)) as [|x m]; cbn in *; [lia|]. by apply holds_last.
Qed.

Lemma lru_run_spares n k v ops X c :
  mwf (lru_map c) → lru_maxSize c = jint (Z.of_nat n) → length (lru_map c) ≤ n →
  forallb (spares k) ops = true → size (X ∪ mentioned k ops) < n →
  holds k v (λ l, list_to_set l ⊆ X) (lru_map c) →
  mget k (lru_map (lru_run ops c)) = Some v.
Proof.
  revert X c. induction ops as [|o ops IH]; intros X c Hm Hn Hle Ho HX Hh.
  - by eapply holds_mget.
  - cbn in Ho. apply andb_true_iff in Ho as [Ho Hos]. unfold mentioned in HX. cbn in HX.
    rewrite (assoc_L (∪)) in HX. rewrite lru_run_cons. apply (IH (X ∪ mentions k o)).
    + by apply lru_step_wf.
    + by rewrite lru_step_maxSize.
    + by apply lru_step_size.
    + done.
    + done.
    + eapply lru_step_spares; [done..| |done]. eapply Nat.le_lt_trans; [|exact HX].
      apply subseteq_size. set_solver.
Qed.

Lemma lru_run_crowds n k v ops T c :
  mwf (lru_map c) → lru_maxSize c = jint (Z.of_nat n) → length (lru_map c) ≤ n →
  forallb (only_stores_others k) ops = true → n ≤ size (T ∪ stored k ops) →
  mget k (lru_map c) = None ∨ holds k v (λ l, T ⊆ list_to_set l) (lru_map c) →
  mget k (lru_map (lru_run ops c)) = None.
Proof.
  revert T c. induction ops as [|o ops IH]; intros T c Hm Hn Hle Ho HT Hk.
  - destruct Hk as [|(l & l' & Heq & Hs)]; [done|]. exfalso. unfold stored in HT. cbn in HT.
    rewrite (right_id_L ∅ (∪)) in HT. apply distinct_size_ge in Hs. unfold mkeys in Hs.
    rewrite length_fmap in Hs. rewrite Heq, length_app in Hle. cbn in Hle. lia.
  - cbn in Ho. apply andb_true_iff in Ho as [Ho Hos]. unfold stored in HT. cbn in HT.
    rewrite (assoc_L (∪)) in HT. rewrite lru_run_cons. apply (IH (T ∪ stores k o)).
    + by apply lru_step_wf.
    + by rewrite lru_step_maxSize.
    + by apply lru_step_size.
    + done.
    + done.
    + by apply lru_step_crowds.
Qed.

(** Whatever spares [k] leaves it with its value, if it leaves it at all. *)
Lemma lru_run_value k v ops c :
  mwf (lru_map c) → forallb (spares k) ops = true →
  mget k (lru_map c) = Some v ∨ mget k (lru_map c) = None →
  mget k (lru_map (lru_run ops c)) = Some v ∨ mget k (lru_map (lru_run ops c)) = None.
Proof.
  revert c. induction ops as [|o ops IH]; intros c Hm Ho Hk; [done|].
  cbn in Ho. apply andb_true_iff in Ho as [Ho Hos]. rewrite lru_run_cons.
  apply IH; [by apply lru_step_wf|done|].
  assert (∀ m, mwf m → mget k m = Some v ∨ mget k m = None → mget k (tail m) = Some v ∨ mget k (tail m) = None) as Htail.
  { intros m Hwf [Hv|Hv].
    - destruct m as [|[j w] m]; [done|]. unfold mwf, mkeys in Hwf. cbn in Hv, Hwf |- *.
      apply NoDup_cons in Hwf as [Hj _]. case_decide; [|by left]. subst. right. by apply mget_None.
    - right. rewrite mget_None in *. intros Hin. apply Hv. revert Hin. unfold mkeys.
      destruct m; cbn; set_solver. }
  destruct o as [j|j w|j|]; cbn [lru_step spares] in *; [| | |done].
  - rewrite lru_get_map by done. destruct (mget j (lru_map c)) as [w|] eqn:Hj; [|done].
    rewrite <-mset_mdel_snoc, mget_mset by done. case_decide; subst.
    + rewrite Hj in Hk. naive_solver.
    + by rewrite mget_mdel_ne.
  - bool_to_prop. rewrite lru_set_map by done. cbn zeta.
    assert (mget k (mdel j (lru_map c) ++ [(j, w)]) = mget k (lru_map c)) as Heq.
    { rewrite <-mset_mdel_snoc, mget_mset_ne by done. by apply mget_mdel_ne. }
    destruct (js_ltZ _ _); [|by rewrite Heq].
    apply Htail; [by apply mwf_snoc_mdel|by rewrite Heq].
  - bool_to_prop. cbn. by rewrite mget_mdel_ne.
Qed.

(** The call sets [k] to [v], or asks for [k] and is answered [v]. *)
Definition uses k v (o : lru_call) (c : LruCache) : Prop :=
  o = LSet k v ∨ o = LGet k ∧ (lru_get k c).1 = Some v.

Lemma lru_get_value k c : (lru_get k c).1 = mget k (lru_map c).
Proof. unfold lru_get. by destruct (mget k (lru_map c)). Qed.

Lemma lru_use_holds n k v o c :
  mwf (lru_map c) → lru_maxSize c = jint (Z.of_nat n) → length (lru_map c) ≤ n → 0 < n →
  uses k v o c → ∀ P : list K → Prop, P [] → holds k v P (lru_map (lru_step c o)).
Proof.
  intros Hm Hn Hle Hpos [->|[-> Hk]] P HP; cbn [lru_step].
  - by eapply lru_set_holds.
  - rewrite lru_get_value in Hk. rewrite lru_get_map, Hk by done. by apply holds_last.
Qed.

(** A least-recently-used cache of capacity [n] never holds more than [n]
    entries; after [k] was set to [v], or answered [v], and until it is set again
    or removed, it answers [v] or nothing; it does answer [v] as long as fewer
    than [n] other keys were named since; and once [n] other keys were stored
    without [k] being asked for, or anything removed, [k] is gone. *)
Theorem lru_holds_the_recent n k v before use after :
  0 < n → uses k v use (lru_run before (new_LruCache (jint (Z.of_nat n)))) →
  forallb (spares k) after = true →
  let c := lru_run (before ++ use :: after) (new_LruCache (jint (Z.of_nat n))) in
  lru_size c ≤ n ∧
  ((lru_get k c).1 = Some v ∨ (lru_get k c).1 = None) ∧
  (size (mentioned k after) < n → (lru_get k c).1 = Some v) ∧
  (forallb (only_stores_others k) after = true → n ≤ size (stored k after) → (lru_get k c).1 = None).
Proof.
  intros Hpos Huse Hafter c. subst c. rewrite lru_run_app, lru_run_cons.
  set (c0 := new_LruCache _) in *. set (c1 := lru_run before c0) in *.
  assert (mwf (lru_map c1)) as Hm by (apply lru_run_wf; constructor).
  assert (lru_maxSize c1 = jint (Z.of_nat n)) as Hn by (unfold c1; by rewrite lru_run_maxSize).
  assert (length (lru_map c1) ≤ n) as Hle by (apply lru_run_size; [constructor|done|cbn; lia]).
  pose proof (lru_step_wf c1 use Hm) as Hm2.
  pose proof (lru_step_maxSize c1 use) as Hn2. rewrite Hn in Hn2.
  pose proof (lru_step_size n c1 use Hm Hn Hle) as Hle2.
  pose proof (lru_use_holds n k v use c1 Hm Hn Hle Hpos Huse) as Hh.
  rewrite !lru_get_value. split_and!.
  - by apply lru_run_size.
  - apply lru_run_value; [done..|]. left. eapply holds_mget; [done|]. by apply (Hh (λ _, True)).
  - intros Hsz. eapply (lru_run_spares n k v after ∅); [done..| |].
    + by rewrite (left_id_L ∅ (∪)).
    + by apply Hh.
  - intros Ho Hsz. eapply (lru_run_crowds n k v after ∅); [done..| |].
    + by rewrite (left_id_L ∅ (∪)).
    + right. apply Hh. set_solver.
Qed.
End recency.
End lru.

Arguments LruCache : clear implicits.
Arguments lru_call : clear implicits.

(** ** TtlLruCache.ts *)

Definition DEFAULT_MAX_CACHE_SIZE : Z := 512.
Definition DEFAULT_CACHE_TTL_MS : Z := 5 * 60 * 1000.

Record CacheEntry (V : Type) := {
  entry_value : V;
  expiresAt : Z;
}.
Arguments entry_value {V} c.
Arguments expiresAt {V} c.

Section ttl.
Context {V : Type}.

Record TtlLruCache := {
  ttlMs : Z;
  ttl_cache : LruCache string (CacheEntry V);
}.

Definition new_TtlLruCache (ttl : Z) (maxSize : jsnum) : TtlLruCache :=
  {| ttlMs := ttl; ttl_cache := new_LruCache maxSize |}.

Definition with_ttl_cache (l : LruCache string (CacheEntry V)) (c : TtlLruCache) : TtlLruCache :=
  {| ttlMs := ttlMs c; ttl_cache := l |}.

(** [now] is the clock; an expired entry is deleted when it is asked for. *)
Definition ttl_get (key : string) (now : Z) (c : TtlLruCache) : option V * TtlLruCache :=
  let '(entry, l) := lru_get key (ttl_cache c) in
  match entry with
  | None => (None, with_ttl_cache l c)
  | Some entry =>
      if (expiresAt entry <? now)%Z then (None, with_ttl_cache (lru_delete key l).2 c)
      else (Some (entry_value entry), with_ttl_cache l c)
  end.

Definition ttl_set (key : string) (value : V) (now : Z) (c : TtlLruCache) : TtlLruCache :=
  with_ttl_cache
    (lru_set key {| entry_value := value; expiresAt := now + ttlMs c |} (ttl_cache c)) c.

Definition ttl_clear (c : TtlLruCache) : TtlLruCache := with_ttl_cache (lru_clear (ttl_cache c)) c.

(** Every entry in the cache satisfies [P]. *)
Definition entries_all (P : string → CacheEntry V → Prop) (c : TtlLruCache) : Prop :=
  ∀ k e, (k, e) ∈ lru_map (ttl_cache c) → P k e.

Lemma elem_of_mdel (k : string) x (m : jsmap string (CacheEntry V)) : x ∈ mdel k m → x ∈ m.
Proof.
  induction m as [|[j e] m IH]; cbn; [done|]. case_decide; [by right|].
  rewrite !elem_of_cons. naive_solver.
Qed.

Lemma elem_of_mset_inv (k : string) e x (m : jsmap string (CacheEntry V)) :
  x ∈ mset k e m → x = (k, e) ∨ x ∈ m.
Proof.
  induction m as [|[j e'] m IH]; cbn; [rewrite list_elem_of_singleton; by left|].
  case_decide; rewrite !elem_of_cons; naive_solver.
Qed.

Lemma elem_of_evict_oldest x (m : jsmap string (CacheEntry V)) : x ∈ evict_oldest m → x ∈ m.
Proof. unfold evict_oldest. case_match; [done|]. apply elem_of_mdel. Qed.

Lemma ttl_get_all P key now c : entries_all P c → entries_all P (ttl_get key now c).2.
Proof.
  intros HP k e. unfold ttl_get, lru_get. pose proof (mget_Some_elem (V:=CacheEntry V) key) as He.
  destruct (mget key _) as [e'|] eqn:Hk; cbn; [|apply HP]. apply He in Hk.
  destruct (_ <? _)%Z; cbn; intros Hin.
  - apply elem_of_mdel, elem_of_mset_inv in Hin as [[= -> ->]|Hin]; [by apply HP|].
    by apply HP, (elem_of_mdel key).
  - apply elem_of_mset_inv in Hin as [[= -> ->]|Hin]; [by apply HP|].
    by apply HP, (elem_of_mdel key).
Qed.

Lemma ttl_set_all P key value now c :
  entries_all P c → P key {| entry_value := value; expiresAt := now + ttlMs c |} →
  entries_all P (ttl_set key value now c).
Proof.
  intros HP Hnew k e. unfold ttl_set, lru_set. cbn. intros Hin.
  assert ((k, e) ∈ mset key {| entry_value := value; expiresAt := now + ttlMs c |}
    (if mhas key (lru_map (ttl_cache c)) then mdel key (lru_map (ttl_cache c)) else lru_map (ttl_cache c))) as Hin'.
  { revert Hin. destruct (js_ltZ _ _); [apply elem_of_evict_oldest|done]. }
  rewrite has_then_mdel in Hin'.
  apply elem_of_mset_inv in Hin' as [[= -> ->]|Hin']; [done|]. by apply HP, (elem_of_mdel key).
Qed.

(** What the cache answers is an unexpired entry of it. *)
Lemma ttl_get_hit P key now c v :
  entries_all P c → (ttl_get key now c).1 = Some v →
  ∃ e, P key e ∧ entry_value e = v ∧ (now ≤ expiresAt e)%Z.
Proof.
  intros HP. unfold ttl_get, lru_get. pose proof (mget_Some_elem (V:=CacheEntry V) key) as He.
  destruct (mget key _) as [e|] eqn:Hk; cbn; [|done]. apply He in Hk.
  destruct (Z.ltb_spec (expiresAt e) now); cbn; [done|]. intros [= <-]. exists e.
  split_and!; [by apply HP|done|lia].
Qed.
End ttl.

Arguments TtlLruCache : clear implicits.

(** ** Behaviour to know about *)

(** A cache of capacity 0 keeps nothing, and one of capacity [NaN] everything:
    the capacity is not validated. *)
Lemma nan_capacity_keeps_all (ks : list Z) :
  NoDup ks →
  lru_size (lru_run (map (λ k, LSet k tt) ks) (new_LruCache JNaN)) = length ks.
Proof.
  intros Hks. induction ks as [|k ks IH] using rev_ind; [done|].
  apply NoDup_snoc in Hks as [Hks Hk]. specialize (IH Hks).
  assert (∀ c : LruCache Z unit, lru_maxSize c = JNaN → mwf (lru_map c) →
    lru_map (lru_set k tt c) = mdel k (lru_map c) ++ [(k, tt)]) as Hset.
  { intros c Hn Hm. rewrite lru_set_map by done. by rewrite Hn. }
  assert (∀ ks c, lru_maxSize c = JNaN → k ∉ ks → mwf (lru_map c) → k ∉ mkeys (lru_map c) →
    k ∉ mkeys (lru_map (lru_run (map (λ k, LSet k tt) ks) c))) as Hfresh.
  { clear. induction ks as [|j ks IH]; intros c Hn Hk Hm Hf; [done|]. cbn [map]. rewrite lru_run_cons.
    apply IH; [by rewrite lru_step_maxSize|set_solver|by apply lru_step_wf|].
    cbn [lru_step]. rewrite lru_set_map by done. rewrite Hn. cbn zeta. cbn [js_ltZ].
    rewrite <-mset_mdel_snoc, <-mget_None by done. rewrite mget_mset_ne, mget_mdel_ne by set_solver.
    by apply mget_None. }
  rewrite map_app, lru_run_app. cbn [map]. rewrite lru_run_cons. cbn [lru_step lru_run foldl].
  unfold lru_size, msize in *. rewrite Hset.
  - rewrite mdel_absent, !length_app, IH; [done|]. apply Hfresh; [done..|constructor|set_solver].
  - by rewrite lru_run_maxSize.
  - apply lru_run_wf. constructor.
Qed.

(** ** Witnesses *)

Lemma lru_holds_the_recent_witness :
  let c := lru_run [LSet 1 "a"; LSet 2 "b"; LGet 1; LSet 3 "c"]%Z (new_LruCache (jint 2)) in
  lru_size c = 2 ∧ (lru_get 1%Z c).1 = Some "a" ∧
  (lru_get 2%Z (lru_run [LSet 2 "b"; LSet 1 "a"; LGet 1; LSet 3 "c"]%Z (new_LruCache (jint 2)))).1 = None.
Proof.
  split_and!.
  - vm_compute. reflexivity.
  - apply (lru_holds_the_recent 2 1%Z "a" [LSet 1 "a"; LSet 2 "b"]%Z (LGet 1%Z) [LSet 3 "c"]%Z);
      [lia|right; split; reflexivity|reflexivity|vm_compute; lia].
  - apply (lru_holds_the_recent 2 2%Z "b" [] (LSet 2 "b")%Z [LSet 1 "a"; LGet 1; LSet 3 "c"]%Z);
      [lia|left; reflexivity|reflexivity|reflexivity|vm_compute; lia].
Defined.
