(* ===== verification/RegistryClients.v ===== *)
(** * The registry clients

    abi-registry/src/AbiRegistryClient.ts, LocalAbiRegistryClient.ts,
    HostedAbiRegistryClient.ts and ChainedAbiRegistryClient.ts: clients that look
    a contract's spec up behind a cache of [RegistryCache], and the chain that
    asks one after another.  An HTTP response is what the transport answers with;
    the method of a client stops at its await and goes on when the response is
    there, so that calls interleave.  A JSON body is a [jsval]; the clock is read
    once between two awaits. *)

From Stdlib Require Import Sorted.
From stdpp Require Import gmap.
From S2P Require Import Prelude JsMap JsValue Decimal CanonicalJson RegistryCache.

(** ** Urls *)

(** [encodeURIComponent] on ASCII text. *)
Definition unreserved (c : ascii) : bool :=
  let n := nat_of_ascii c in
  (48 <=? n) && (n <=? 57) || (65 <=? n) && (n <=? 90) || (97 <=? n) && (n <=? 122) ||
  existsb (Ascii.eqb c) ["-"; "_"; "."; "!"; "~"; "*"; "'"; "("; ")"]%char.

Definition upper_hex (n : nat) : ascii :=
  ascii_of_nat (if n <? 10 then 48 + n else 55 + n).

Fixpoint encodeURIComponent (s : string) : string :=
  match s with
  | "" => ""
  | String c s' =>
      (if unreserved c then String c ""
       else String "%" (String (upper_hex (nat_of_ascii c / 16)) (String (upper_hex (nat_of_ascii c mod 16)) "")))
      +:+ encodeURIComponent s'
  end.

(** [baseUrl.replace(/\/$/, "")] *)
Fixpoint strip_slash (s : string) : string :=
  match s with
  | "" => ""
  | String c "" => if Ascii.eqb c "/" then "" else s
  | String c s' => String c (strip_slash s')
  end.

(** ** HTTP *)

Inductive Verb := GET | POST.

Record Request := {
  req_verb : Verb;
  req_url : string;
  req_accept : string;
  req_contractIds : option (list string);   (** the JSON body of a batch *)
}.

(** [body] is [None] where [response.json()] rejects. *)
Record Response := {
  resp_status : Z;
  resp_body : option jsval;
}.

Definition resp_ok (r : Response) : bool := (200 <=? resp_status r)%Z && (resp_status r <=? 299)%Z.

(** What the transport settles with; [None] is a rejection. *)
Abbreviation Outcome := (option Response) (only parsing).

(** ** AbiRegistryClient.ts *)

Definition REGISTRY_SPEC_VERSION : Z := 1.

Definition accept_header : string :=
  "application/vnd.orbital.abi-registry+json; version=" +:+ pretty REGISTRY_SPEC_VERSION.

Record AbiRegistryClientConfig := {
  cfg_baseUrl : string;
  cfg_maxCacheSize : option jsnum;
  cfg_cacheTtlMs : option Z;
}.

Record AbiRegistryClient := {
  arc_baseUrl : string;
  arc_cache : TtlLruCache jsval;
}.

Definition new_AbiRegistryClient (cfg : AbiRegistryClientConfig) : AbiRegistryClient := {|
  arc_baseUrl := strip_slash (cfg_baseUrl cfg);
  arc_cache := new_TtlLruCache (default DEFAULT_CACHE_TTL_MS (cfg_cacheTtlMs cfg))
                 (default (jint DEFAULT_MAX_CACHE_SIZE) (cfg_maxCacheSize cfg));
|}.

Definition with_arc_cache (t : TtlLruCache jsval) (c : AbiRegistryClient) : AbiRegistryClient :=
  {| arc_baseUrl := arc_baseUrl c; arc_cache := t |}.

(** A call of one of the three methods. *)
Inductive RegistryCall :=
  | GetSpec (contractId : string)
  | GetSpecAt (contractId : string) (atLedger : Z)
  | GetSpecs (contractIds : list string).

Inductive Answer :=
  | OneSpec (spec : jsval)
  | ManySpecs (specs : jsmap string jsval).

Inductive RegistryError :=
  | TransportRejected
  | RespondedWith (httpStatus : Z)
  | NotJson
  | JsThrows (e : js_error).

(** A method at its first await: it has answered, or waits for its request, with
    what it needs to go on. *)
Inductive Pending :=
  | ForOne (cacheKey : string)
  | ForMany (known : jsmap string jsval) (uncached : list string).

Inductive Started :=
  | Answered (a : Answer)
  | Asked (r : Request) (p : Pending).

Definition getCached (key : string) (now : Z) (c : AbiRegistryClient) : option jsval * AbiRegistryClient :=
  let '(v, t) := ttl_get key now (arc_cache c) in (v, with_arc_cache t c).

Definition setCache (key : string) (value : jsval) (now : Z) (c : AbiRegistryClient) : AbiRegistryClient :=
  with_arc_cache (ttl_set key value now (arc_cache c)) c.

Definition get_request (url : string) : Request :=
  {| req_verb := GET; req_url := url; req_accept := accept_header; req_contractIds := None |}.

Definition specs_url (c : AbiRegistryClient) (contractId : string) : string :=
  arc_baseUrl c +:+ "/specs/" +:+ encodeURIComponent contractId.

Definition at_key (contractId : string) (atLedger : Z) : string := contractId +:+ "@" +:+ pretty atLedger.

Definition getSpec_start (contractId : string) (now : Z) (c : AbiRegistryClient) : Started * AbiRegistryClient :=
  let '(cached, c) := getCached contractId now c in
  match cached with
  | Some v => (Answered (OneSpec v), c)
  | None => (Asked (get_request (specs_url c contractId)) (ForOne contractId), c)
  end.

Definition getSpecAt_start (contractId : string) (atLedger now : Z) (c : AbiRegistryClient) : Started * AbiRegistryClient :=
  let key := at_key contractId atLedger in
  let '(cached, c) := getCached key now c in
  match cached with
  | Some v => (Answered (OneSpec v), c)
  | None =>
      (Asked (get_request (specs_url c contractId +:+ "?ledger=" +:+ encodeURIComponent (pretty atLedger))) (ForOne key), c)
  end.

(** The loop over the ids: what is cached, and what is not. *)
Fixpoint split_cached (ids : list string) (now : Z) (known : jsmap string jsval) (uncached : list string)
    (c : AbiRegistryClient) : (jsmap string jsval * list string) * AbiRegistryClient :=
  match ids with
  | [] => ((known, uncached), c)
  | id :: ids =>
      let '(cached, c) := getCached id now c in
      match cached with
      | Some v => split_cached ids now (mset id v known) uncached c
      | None => split_cached ids now known (uncached ++ [id]) c
      end
  end.

Definition batch_request (c : AbiRegistryClient) (ids : list string) : Request :=
  {| req_verb := POST; req_url := arc_baseUrl c +:+ "/specs"; req_accept := accept_header;
     req_contractIds := Some ids |}.

Definition getSpecs_start (ids : list string) (now : Z) (c : AbiRegistryClient) : Started * AbiRegistryClient :=
  let '((known, uncached), c) := split_cached ids now [] [] c in
  match uncached with
  | [] => (Answered (ManySpecs known), c)
  | _ => (Asked (batch_request c uncached) (ForMany known uncached), c)
  end.

Definition call_start (call : RegistryCall) (now : Z) (c : AbiRegistryClient) : Started * AbiRegistryClient :=
  match call with
  | GetSpec id => getSpec_start id now c
  | GetSpecAt id l => getSpecAt_start id l now c
  | GetSpecs ids => getSpecs_start ids now c
  end.

(** [getSpec] and [getSpecAt] after their await. *)
Definition getSpec_finish (key : string) (o : Outcome) (now : Z) : method AbiRegistryClient RegistryError Answer :=
  λ c, match o with
  | None => (Err TransportRejected, c)
  | Some r =>
      if (resp_status r =? 404)%Z then (Ok (OneSpec JNull), setCache key JNull now c)
      else if negb (resp_ok r) then (Err (RespondedWith (resp_status r)), c)
      else match resp_body r with
      | None => (Err NotJson, c)
      | Some spec => (Ok (OneSpec spec), setCache key spec now c)
      end
  end.

(** [fetched[id] ?? null] *)
Definition fetched_spec (fetched : jsval) (id : string) : jsval := coalesce (prop fetched id) JNull.

Fixpoint store_fetched (fetched : jsval) (ids : list string) (now : Z) (known : jsmap string jsval)
    (c : AbiRegistryClient) : jsmap string jsval * AbiRegistryClient :=
  match ids with
  | [] => (known, c)
  | id :: ids =>
      let spec := fetched_spec fetched id in
      store_fetched fetched ids now (mset id spec known) (setCache id spec now c)
  end.

Definition getSpecs_finish (known : jsmap string jsval) (uncached : list string) (o : Outcome) (now : Z) :
    method AbiRegistryClient RegistryError Answer :=
  λ c, match o with
  | None => (Err TransportRejected, c)
  | Some r =>
      if negb (resp_ok r) then (Err (RespondedWith (resp_status r)), c)
      else match resp_body r with
      | None => (Err NotJson, c)
      | Some fetched =>
          if nullish fetched then (Err (JsThrows TypeError), c)
          else let '(specs, c) := store_fetched fetched uncached now known c in (Ok (ManySpecs specs), c)
      end
  end.

Definition call_finish (p : Pending) (o : Outcome) (now : Z) : method AbiRegistryClient RegistryError Answer :=
  match p with
  | ForOne key => getSpec_finish key o now
  | ForMany known uncached => getSpecs_finish known uncached o now
  end.

(** ** Calls that interleave

    What is asked of the registry: the latest spec of a contract, or the one as
    of a ledger. *)

Inductive Subject :=
  | Latest (contractId : string)
  | AsOf (contractId : string) (atLedger : Z).

#[export] Instance Subject_eq_dec : EqDecision Subject.
Proof. solve_decision. Defined.

Definition cache_key (s : Subject) : string :=
  match s with Latest id => id | AsOf id l => at_key id l end.

Definition subject_id (s : Subject) : string := match s with Latest id | AsOf id _ => id end.

Definition subjects (call : RegistryCall) : list Subject :=
  match call with
  | GetSpec id => [Latest id]
  | GetSpecAt id l => [AsOf id l]
  | GetSpecs ids => Latest <$> ids
  end.

(** Ids in which no [@] separates anything. *)
Definition plain_id (s : Subject) : Prop := char_free "@" (subject_id s) = true.

(** What a response says about the subjects of the call it answers. *)
Definition told (call : RegistryCall) (o : Outcome) (s : Subject) : option jsval :=
  r ← o;
  match call with
  | GetSpec _ | GetSpecAt _ _ =>
      if (resp_status r =? 404)%Z then Some JNull else if resp_ok r then resp_body r else None
  | GetSpecs _ =>
      if resp_ok r then b ← resp_body r; if nullish b then None else Some (fetched_spec b (subject_id s)) else None
  end.

(** A call under way: when it was made, and what it waits for. *)
Record Flight := {
  fl_since : Z;
  fl_call : RegistryCall;
  fl_pending : Pending;
}.

(** The client with the calls under way; what the registry told it, and what it
    told its callers, with the times. *)
Record Traffic := {
  tr_client : AbiRegistryClient;
  tr_flights : list Flight;
  tr_told : list (Z * Subject * jsval);
  tr_answers : list (Z * Subject * jsval);
}.

Definition new_Traffic (cfg : AbiRegistryClientConfig) : Traffic :=
  {| tr_client := new_AbiRegistryClient cfg; tr_flights := []; tr_told := []; tr_answers := [] |}.

(** The answer about one subject. *)
Definition answer_about (a : Answer) (s : Subject) : option jsval :=
  match a with OneSpec v => Some v | ManySpecs m => mget (subject_id s) m end.

(** Each subject paired with what is known of it, and with a time. *)
Definition stamped (when : Subject → Z) (f : Subject → option jsval) (ss : list Subject) : list (Z * Subject * jsval) :=
  ss ≫= λ s, match f s with Some v => [(when s, s, v)] | None => [] end.

Inductive TrafficEvent :=
  | Call (now : Z) (call : RegistryCall)
  | Respond (now : Z) (i : nat) (o : option Response).

(** An answer taken from the cache counts at the time of the call, one from the
    response at the time of the response. *)
Definition taken_at (fl : Flight) (now : Z) (s : Subject) : Z :=
  match fl_pending fl with
  | ForOne _ => now
  | ForMany _ uncached => if bool_decide (subject_id s ∈ uncached) then now else fl_since fl
  end.

Definition traffic_step (w : Traffic) (ev : TrafficEvent) : Traffic :=
  match ev with
  | Call now call =>
      let '(started, c) := call_start call now (tr_client w) in
      match started with
      | Answered a =>
          {| tr_client := c; tr_flights := tr_flights w; tr_told := tr_told w;
             tr_answers := tr_answers w ++ stamped (λ _, now) (answer_about a) (subjects call) |}
      | Asked _ p =>
          {| tr_client := c;
             tr_flights := tr_flights w ++ [{| fl_since := now; fl_call := call; fl_pending := p |}];
             tr_told := tr_told w; tr_answers := tr_answers w |}
      end
  | Respond now i o =>
      match tr_flights w !! i with
      | None => w
      | Some fl =>
          let '(r, c) := call_finish (fl_pending fl) o now (tr_client w) in
          {| tr_client := c; tr_flights := delete i (tr_flights w);
             tr_told := tr_told w ++ stamped (λ _, now) (told (fl_call fl) o) (subjects (fl_call fl));
             tr_answers := tr_answers w ++
               match r with
               | Ok a => stamped (taken_at fl now) (answer_about a) (subjects (fl_call fl))
               | Err _ => []
               end |}
      end
  end.

Definition traffic (cfg : AbiRegistryClientConfig) (evs : list TrafficEvent) : Traffic :=
  foldl traffic_step (new_Traffic cfg) evs.

(** *** What is handed out was told *)

Lemma cache_key_inj s s' : plain_id s → plain_id s' → cache_key s = cache_key s' → s = s'.
Proof.
  unfold plain_id. destruct s as [id|id l], s' as [id'|id' l']; cbn; intros Hs Hs' Heq; simplify_eq; [done|..].
  - unfold at_key in Hs. rewrite char_free_app in Hs. cbn in Hs. by rewrite andb_false_r in Hs.
  - unfold at_key in Hs'. rewrite char_free_app in Hs'. cbn in Hs'. by rewrite andb_false_r in Hs'.
  - unfold at_key in Heq. pose proof (str_split_app "@" id (pretty l) Hs) as H1.
    pose proof (str_split_app "@" id' (pretty l') Hs') as H2. cbn in H1, H2, Heq.
    rewrite Heq, H2 in H1. injection H1 as -> Hl. apply (inj (String.append id)) in Heq.
    injection Heq as Heq. by apply (inj pretty) in Heq as ->.
Qed.

Section fresh.
Variable ttl : Z.

(** The entry of a key came from the registry, about a plain subject of that key. *)
Definition backed (ts : list (Z * Subject * jsval)) (k : string) (e : CacheEntry jsval) : Prop :=
  ∃ s, plain_id s ∧ cache_key s = k ∧ (expiresAt e - ttl, s, entry_value e)%Z ∈ ts.

(** What was answered at [now] was told at most [ttl] before, or right then. *)
Definition fresh (ts : list (Z * Subject * jsval)) (now : Z) (s : Subject) (v : jsval) : Prop :=
  ∃ t, (t, s, v) ∈ ts ∧ (now ≤ t + ttl ∨ t = now)%Z.

Lemma backed_mono ts ts' k e : ts ⊆ ts' → backed ts k e → backed ts' k e.
Proof. intros Hts (s & ? & ? & ?). exists s. auto. Qed.

Lemma fresh_mono ts ts' now s v : ts ⊆ ts' → fresh ts now s v → fresh ts' now s v.
Proof. intros Hts (t & ? & ?). exists t. auto. Qed.

(** The client's cache is backed, and keeps for [ttl]. *)
Definition cache_backed (ts : list (Z * Subject * jsval)) (c : AbiRegistryClient) : Prop :=
  entries_all (backed ts) (arc_cache c) ∧ ttlMs (arc_cache c) = ttl.

Lemma ttl_get_ttlMs {V} key now (t : TtlLruCache V) : ttlMs (ttl_get key now t).2 = ttlMs t.
Proof. unfold ttl_get. by repeat case_match. Qed.

Lemma getCached_backed ts key now c :
  cache_backed ts c → cache_backed ts (getCached key now c).2 ∧
  ∀ v s, (getCached key now c).1 = Some v → plain_id s → cache_key s = key → fresh ts now s v.
Proof.
  intros [Hall Httl]. unfold getCached. pose proof (ttl_get_ttlMs key now (arc_cache c)) as Hms.
  pose proof (ttl_get_all (backed ts) key now (arc_cache c) Hall) as Hall'.
  pose proof (λ v, ttl_get_hit (backed ts) key now (arc_cache c) v Hall) as Hhit.
  destruct (ttl_get key now (arc_cache c)) as [v t]; cbn in *. split; [split; [done|]; cbn; congruence|].
  intros v' s -> Hs <-. destruct (Hhit v' eq_refl) as (e & (s' & Hs' & Heq & Hin) & <- & Hle).
  apply cache_key_inj in Heq as ->; [|done..]. exists (expiresAt e - ttl)%Z. split; [done|]. left. lia.
Qed.

Lemma setCache_backed ts s v now c :
  plain_id s → (now, s, v) ∈ ts → cache_backed ts c → cache_backed ts (setCache (cache_key s) v now c).
Proof.
  intros Hs Hin [Hall Httl]. split; [|done]. apply ttl_set_all; [done|]. exists s.
  split_and!; [done..|]. cbn. rewrite Httl. by replace (now + ttl - ttl)%Z with now by lia.
Qed.

Lemma split_cached_backed ts ids now known uncached c :
  Forall (λ id, char_free "@" id = true) ids → cache_backed ts c →
  (∀ id v, mget id known = Some v → fresh ts now (Latest id) v) →
  let '((known', uncached'), c') := split_cached ids now known uncached c in
  cache_backed ts c' ∧ (∀ id v, mget id known' = Some v → fresh ts now (Latest id) v) ∧
  uncached ⊆ uncached' ∧ (∀ id, id ∈ uncached' → id ∈ uncached ∨ id ∈ ids) ∧
  (∀ id, id ∈ ids → id ∈ uncached' ∨ is_Some (mget id known')) ∧
  (∀ id, is_Some (mget id known) → is_Some (mget id known')).
Proof.
  revert known uncached c. induction ids as [|id ids IH]; intros known uncached c Hids Hc Hknown; cbn.
  { split_and!; set_solver. }
  apply Forall_cons in Hids as [Hid Hids].
  pose proof (getCached_backed ts id now c Hc) as [Hc' Hhit].
  destruct (getCached id now c) as [[v|] c']; cbn in *.
  - specialize (IH (mset id v known) uncached c' Hids Hc').
    destruct (split_cached ids now (mset id v known) uncached c') as [[known' uncached'] c''].
    destruct IH as (IH1 & IH2 & IH3 & IH4 & IH5 & IH6).
    { intros j w. rewrite mget_mset. case_decide; [|apply Hknown]. intros [= <-]. subst.
      by apply (Hhit v (Latest j)). }
    split_and!; [done..| | |].
    + intros j Hj. apply IH4 in Hj as [?|?]; [by left|right; set_solver].
    + intros j [->|Hj]%elem_of_cons; [|by apply IH5]. right. apply IH6. rewrite mget_mset_eq. eauto.
    + intros j Hj. apply IH6. rewrite mget_mset. case_decide; eauto.
  - specialize (IH known (uncached ++ [id]) c' Hids Hc' Hknown).
    destruct (split_cached ids now known (uncached ++ [id]) c') as [[known' uncached'] c''].
    destruct IH as (IH1 & IH2 & IH3 & IH4 & IH5 & IH6).
    split_and!; [done..|set_solver| | |done].
    + intros j Hj. apply IH4 in Hj. set_solver.
    + intros j [->|Hj]%elem_of_cons; [left; set_solver|by apply IH5].
Qed.

(** What a call under way may rely on. *)
Definition flight_ok (ts : list (Z * Subject * jsval)) (fl : Flight) : Prop :=
  Forall plain_id (subjects (fl_call fl)) ∧
  match fl_pending fl with
  | ForOne key => ∃ s, subjects (fl_call fl) = [s] ∧ key = cache_key s ∧ ∀ ids, fl_call fl ≠ GetSpecs ids
  | ForMany known uncached => ∃ ids, fl_call fl = GetSpecs ids ∧
      (∀ id v, mget id known = Some v → fresh ts (fl_since fl) (Latest id) v) ∧
      (∀ id, id ∈ uncached → id ∈ ids) ∧ (∀ id, id ∈ ids → id ∈ uncached ∨ is_Some (mget id known))
  end.

Lemma flight_ok_mono ts ts' fl : ts ⊆ ts' → flight_ok ts fl → flight_ok ts' fl.
Proof.
  intros Hts [Hp Hfl]. split; [done|]. destruct (fl_pending fl); [done|].
  destruct Hfl as (ids & Hc & Hk & Hu & Hall). exists ids. split_and!; [done| |done..].
  intros id v Hv. eapply fresh_mono; [exact Hts|]. by apply Hk.
Qed.

Lemma cache_backed_mono ts ts' c : ts ⊆ ts' → cache_backed ts c → cache_backed ts' c.
Proof. intros Hts [Hall ?]. split; [|done]. intros k e Hin. eapply backed_mono; [exact Hts|]. by apply Hall. Qed.

Lemma Latest_plain ids : Forall plain_id (Latest <$> ids) ↔ Forall (λ id, char_free "@" id = true) ids.
Proof. by rewrite Forall_fmap. Qed.

Lemma call_start_ok ts call now c :
  Forall plain_id (subjects call) → cache_backed ts c →
  let '(started, c') := call_start call now c in
  cache_backed ts c' ∧
  match started with
  | Answered a => ∀ s, s ∈ subjects call → ∃ v, answer_about a s = Some v ∧ fresh ts now s v
  | Asked _ p => flight_ok ts {| fl_since := now; fl_call := call; fl_pending := p |}
  end.
Proof.
  intros Hp Hc. destruct call as [id|id l|ids]; cbn [call_start subjects] in *.
  - rewrite Forall_singleton in Hp. unfold getSpec_start.
    pose proof (getCached_backed ts id now c Hc) as [Hc' Hhit].
    destruct (getCached id now c) as [[v|] c']; cbn in *; (split; [exact Hc'|]).
    + intros s ->%list_elem_of_singleton. exists v. split; [done|]. by apply Hhit.
    + split; [by apply Forall_singleton|]. cbn. by exists (Latest id).
  - rewrite Forall_singleton in Hp. unfold getSpecAt_start.
    pose proof (getCached_backed ts (at_key id l) now c Hc) as [Hc' Hhit].
    destruct (getCached (at_key id l) now c) as [[v|] c']; cbn in *; (split; [exact Hc'|]).
    + intros s ->%list_elem_of_singleton. exists v. split; [done|]. by apply Hhit.
    + split; [by apply Forall_singleton|]. cbn. by exists (AsOf id l).
  - rewrite Latest_plain in Hp. unfold getSpecs_start.
    pose proof (split_cached_backed ts ids now [] [] c Hp Hc ltac:(done)) as Hs.
    destruct (split_cached ids now [] [] c) as [[known uncached] c'].
    destruct Hs as (Hc' & Hk & _ & Hu & Hall & _).
    destruct uncached as [|u us]; (split; [done|]).
    + intros s (id & -> & Hid)%list_elem_of_fmap. destruct (Hall id Hid) as [|[v Hv]]; [set_solver|].
      exists v. split; [done|]. by apply Hk.
    + split; [by apply Latest_plain|]. cbn. exists ids. split_and!; [done..| |done].
      intros id Hid. destruct (Hu id Hid); [set_solver|done].
Qed.

Lemma store_fetched_ok ts fetched ids now known c :
  Forall (λ id, char_free "@" id = true) ids →
  (∀ id, id ∈ ids → (now, Latest id, fetched_spec fetched id) ∈ ts) → cache_backed ts c →
  let '(known', c') := store_fetched fetched ids now known c in
  cache_backed ts c' ∧
  ∀ id, mget id known' = if bool_decide (id ∈ ids) then Some (fetched_spec fetched id) else mget id known.
Proof.
  revert known c. induction ids as [|id ids IH]; intros known c Hp Hts Hc; cbn.
  { split; [done|]. done. }
  apply Forall_cons in Hp as [Hid Hp].
  specialize (IH (mset id (fetched_spec fetched id) known) (setCache id (fetched_spec fetched id) now c) Hp).
  destruct (store_fetched _ _ _ _ _) as [known' c'].
  destruct IH as [Hc' Hk]; [set_solver| |].
  { apply (setCache_backed ts (Latest id)); [done| |done]. apply Hts. by left. }
  split; [done|]. intros j. rewrite Hk, mget_mset. repeat case_bool_decide; repeat case_decide; set_solver.
Qed.

Lemma elem_of_stamped when f ss t s v :
  (t, s, v) ∈ stamped when f ss ↔ t = when s ∧ s ∈ ss ∧ f s = Some v.
Proof.
  unfold stamped. rewrite list_elem_of_bind. split.
  - intros (s' & Hin & Hs'). destruct (f s') eqn:Hf; [|set_solver].
    apply list_elem_of_singleton in Hin. by simplify_eq.
  - intros (-> & Hs & Hf). exists s. rewrite Hf. split; [by left|done].
Qed.

Lemma call_finish_ok ts fl o now c :
  flight_ok ts fl → cache_backed ts c →
  let ts' := ts ++ stamped (λ _, now) (told (fl_call fl) o) (subjects (fl_call fl)) in
  let '(r, c') := call_finish (fl_pending fl) o now c in
  cache_backed ts' c' ∧
  match r with
  | Ok a => ∀ s, s ∈ subjects (fl_call fl) → ∃ v, answer_about a s = Some v ∧ fresh ts' (taken_at fl now s) s v
  | Err _ => True
  end.
Proof.
  intros Hfl Hc ts'. assert (ts ⊆ ts') as Hts by (unfold ts'; set_solver).
  pose proof (cache_backed_mono ts ts' c Hts Hc) as Hc'.
  assert (∀ s v, s ∈ subjects (fl_call fl) → told (fl_call fl) o s = Some v → (now, s, v) ∈ ts') as Htold.
  { intros s v Hs Hv. unfold ts'. apply elem_of_app. right. by apply elem_of_stamped. }
  destruct Hfl as [Hp Hfl]. unfold taken_at. destruct (fl_pending fl) as [key|known uncached]; cbn [call_finish].
  - destruct Hfl as (s & Hs & -> & Hone). rewrite Hs in *. rewrite Forall_singleton in Hp.
    assert (∀ v, told (fl_call fl) o s = Some v → cache_backed ts' (setCache (cache_key s) v now c) ∧
      ∀ s', s' ∈ [s] → ∃ w, Some v = Some w ∧ fresh ts' now s' w) as Hok.
    { intros v Hv. pose proof (Htold s v ltac:(by left) Hv) as Hin. split; [by apply setCache_backed|].
      intros s' ->%list_elem_of_singleton. exists v. split; [done|]. exists now. split; [done|by right]. }
    unfold getSpec_finish. destruct o as [r|]; [|done].
    assert (told (fl_call fl) (Some r) s =
      if (resp_status r =? 404)%Z then Some JNull else if resp_ok r then resp_body r else None) as Ht.
    { destruct (fl_call fl); cbn; [done..|]. by destruct (Hone contractIds). }
    rewrite Ht in Hok. destruct (_ =? 404)%Z; [by apply Hok|]. destruct (resp_ok r); [|done].
    destruct (resp_body r) as [v|]; [|done]. by apply Hok.
  - destruct Hfl as (ids & Hcall & Hk & Hu & Hall). rewrite Hcall in *. cbn [subjects] in *.
    rewrite Latest_plain in Hp. unfold getSpecs_finish. destruct o as [r|]; [|done].
    cbn [told mbind option_bind] in Htold. destruct (resp_ok r); [|done]. cbn [negb].
    destruct (resp_body r) as [b|]; [|done]. cbn in Htold. destruct (nullish b) eqn:Hb; [done|].
    pose proof (store_fetched_ok ts' b uncached now known c) as Hst.
    destruct (store_fetched b uncached now known c) as [specs c'].
    destruct Hst as [Hc'' Hspecs]; [|intros id Hid; apply (Htold (Latest id)); [|done]|done|].
    { rewrite Forall_forall in Hp |- *. auto. }
    { apply list_elem_of_fmap_2. by apply Hu. }
    split; [done|]. intros s (id & -> & Hid)%list_elem_of_fmap. cbn. rewrite Hspecs.
    case_bool_decide as Hin.
    + eexists. split; [done|]. exists now. split; [|by right]. apply Htold; [|done]. by apply list_elem_of_fmap_2.
    + destruct (Hall id Hid) as [|[v Hv]]; [done|]. exists v. split; [done|].
      eapply fresh_mono; [exact Hts|]. by apply Hk.
Qed.

(** *** Invariant of the traffic *)

Definition traffic_ok (w : Traffic) : Prop :=
  cache_backed (tr_told w) (tr_client w) ∧ Forall (flight_ok (tr_told w)) (tr_flights w) ∧
  ∀ t s v, (t, s, v) ∈ tr_answers w → fresh (tr_told w) t s v.

Definition plain_event (ev : TrafficEvent) : Prop :=
  match ev with Call _ call => Forall plain_id (subjects call) | Respond _ _ _ => True end.

Lemma traffic_step_ok w ev : plain_event ev → traffic_ok w → traffic_ok (traffic_step w ev).
Proof.
  intros Hev (Hc & Hfls & Hans). destruct ev as [now call|now i o]; cbn in Hev |- *.
  - pose proof (call_start_ok (tr_told w) call now (tr_client w) Hev Hc) as Hs.
    destruct (call_start call now (tr_client w)) as [[a|r p] c]; destruct Hs as [Hc' Hs];
      split_and!; cbn; [done|done| |done| |done].
    + intros t s v [Hin|(-> & Hin & Hv)%elem_of_stamped]%elem_of_app; [by apply Hans|].
      destruct (Hs s Hin) as (v' & Hv' & Hf). by simplify_eq.
    + apply Forall_app. split; [done|]. by apply Forall_singleton.
  - destruct (tr_flights w !! i) as [fl|] eqn:Hi; [|done].
    pose proof (Forall_lookup_1 _ _ _ _ Hfls Hi) as Hfl.
    pose proof (call_finish_ok (tr_told w) fl o now (tr_client w) Hfl Hc) as Hs. cbn zeta in Hs.
    destruct (call_finish (fl_pending fl) o now (tr_client w)) as [r c]. destruct Hs as [Hc' Hs].
    assert (∀ l : list (Z * Subject * jsval), tr_told w ⊆ tr_told w ++ l) as Hts by set_solver.
    split_and!; cbn; [done| |].
    + eapply Forall_impl; [apply Forall_delete, Hfls|]. intros fl'. apply flight_ok_mono, Hts.
    + intros t s v [Hin|Hin]%elem_of_app; [eapply fresh_mono; [apply Hts|by apply Hans]|].
      destruct r as [a|]; [|set_solver]. apply elem_of_stamped in Hin as (-> & Hin & Hv).
      destruct (Hs s Hin) as (v' & Hv' & Hf). by simplify_eq.
Qed.
End fresh.

Lemma traffic_inv cfg evs :
  Forall plain_event evs → traffic_ok (default DEFAULT_CACHE_TTL_MS (cfg_cacheTtlMs cfg)) (traffic cfg evs).
Proof.
  intros Hevs. unfold traffic. set (ttl := default _ _).
  assert (traffic_ok ttl (new_Traffic cfg)) as Hinit.
  { split_and!; [|constructor|set_solver]. split; [|done]. intros k e Hin. cbn in Hin. set_solver. }
  revert Hinit. generalize (new_Traffic cfg). induction Hevs as [|ev evs Hev Hevs IH]; intros w Hw; [done|].
  cbn. apply IH. by apply traffic_step_ok.
Qed.

(** C24: However calls of the registry client interleave, with whatever responses
    and evictions: what a call answers about a contract is what the registry said
    of that very contract, and ledger, in the response of this call or at most the
    time to live before; and a call that returns answers about everything it was
    asked for.  The ids asked for have no '@', which strkeys of contracts never do. *)
Theorem registry_answers_fresh cfg evs :
  Forall plain_event evs →
  let w := traffic cfg evs in
  let ttl := default DEFAULT_CACHE_TTL_MS (cfg_cacheTtlMs cfg) in
  (∀ now s v, (now, s, v) ∈ tr_answers w →
    ∃ t, (t, s, v) ∈ tr_told w ∧ (now ≤ t + ttl ∨ t = now)%Z) ∧
  (∀ i fl o now a c, tr_flights w !! i = Some fl → call_finish (fl_pending fl) o now (tr_client w) = (Ok a, c) →
    ∀ s, s ∈ subjects (fl_call fl) → is_Some (answer_about a s)) ∧
  (∀ call now a c, Forall plain_id (subjects call) → call_start call now (tr_client w) = (Answered a, c) →
    ∀ s, s ∈ subjects call → is_Some (answer_about a s)).
Proof.
  intros Hevs w ttl. destruct (traffic_inv cfg evs Hevs) as (Hc & Hfls & Hans). split_and!.
  - done.
  - intros i fl o now a c Hi Hfin s Hs. pose proof (Forall_lookup_1 _ _ _ _ Hfls Hi) as Hfl.
    pose proof (call_finish_ok ttl _ fl o now _ Hfl Hc) as Hok. cbn zeta in Hok. unfold w in Hfin. rewrite Hfin in Hok.
    destruct Hok as [_ Hok]. destruct (Hok s Hs) as (v & Hv & _). eauto.
  - intros call now a c Hp Hst s Hs.
    pose proof (call_start_ok ttl _ call now _ Hp Hc) as Hok. unfold w in Hst. rewrite Hst in Hok.
    destruct Hok as [_ Hok]. destruct (Hok s Hs) as (v & Hv & _). eauto.
Qed.

(** ** LocalAbiRegistryClient.ts

    [readSpec path] is the parsed file, [None] where it is missing or is no
    JSON; a file that says [null] is a spec that says nothing. *)

Section local.
Variable readSpec : string → option jsval.

Record LocalAbiRegistryClient := {
  lrc_specsDir : string;
  lrc_cache : TtlLruCache jsval;
}.

(** [specsDir.replace(/\\\/$/, "")]: the pattern is a backslash and a slash. *)
Fixpoint strip_backslash_slash (s : string) : string :=
  match s with
  | "" => ""
  | String a (String b "") => if Ascii.eqb a "092" && Ascii.eqb b "/" then "" else s
  | String a s' => String a (strip_backslash_slash s')
  end.

Definition new_LocalAbiRegistryClient (specsDir : string) (maxSize : option jsnum) (ttl : option Z) :
    LocalAbiRegistryClient := {|
  lrc_specsDir := strip_backslash_slash specsDir;
  lrc_cache := new_TtlLruCache (default DEFAULT_CACHE_TTL_MS ttl) (default (jint DEFAULT_MAX_CACHE_SIZE) maxSize);
|}.

Definition with_lrc_cache (t : TtlLruCache jsval) (c : LocalAbiRegistryClient) : LocalAbiRegistryClient :=
  {| lrc_specsDir := lrc_specsDir c; lrc_cache := t |}.

Definition loadFromDisk (c : LocalAbiRegistryClient) (contractId : string) : jsval :=
  default JNull (readSpec (lrc_specsDir c +:+ "/" +:+ contractId +:+ ".json")).

Definition local_getSpec (contractId : string) (now later : Z) (c : LocalAbiRegistryClient) :
    jsval * LocalAbiRegistryClient :=
  let '(cached, t) := ttl_get contractId now (lrc_cache c) in
  match cached with
  | Some v => (v, with_lrc_cache t c)
  | None =>
      let spec := loadFromDisk c contractId in
      (spec, with_lrc_cache (ttl_set contractId spec later t) c)
  end.

Fixpoint local_split (ids : list string) (now : Z) (known : jsmap string jsval) (uncached : list string)
    (t : TtlLruCache jsval) : (jsmap string jsval * list string) * TtlLruCache jsval :=
  match ids with
  | [] => ((known, uncached), t)
  | id :: ids =>
      let '(cached, t) := ttl_get id now t in
      match cached with
      | Some v => local_split ids now (mset id v known) uncached t
      | None => local_split ids now known (uncached ++ [id]) t
      end
  end.

Definition local_store (c : LocalAbiRegistryClient) (later : Z) (a : jsmap string jsval * TtlLruCache jsval)
    (id : string) : jsmap string jsval * TtlLruCache jsval :=
  let spec := loadFromDisk c id in (mset id spec a.1, ttl_set id spec later a.2).

Definition local_getSpecs (ids : list string) (now later : Z) (c : LocalAbiRegistryClient) :
    jsmap string jsval * LocalAbiRegistryClient :=
  let '((known, uncached), t) := local_split ids now [] [] (lrc_cache c) in
  match uncached with
  | [] => (known, with_lrc_cache t c)
  | _ => let '(specs, t) := foldl (local_store c later) (known, t) uncached in (specs, with_lrc_cache t c)
  end.

(** With files that do not change the cache is invisible. *)

Definition mirrors_disk (c : LocalAbiRegistryClient) : Prop :=
  entries_all (λ k e, entry_value e = loadFromDisk c k) (lrc_cache c).

Lemma local_split_ok c ids now known uncached t :
  entries_all (λ k e, entry_value e = loadFromDisk c k) t →
  (∀ id v, mget id known = Some v → v = loadFromDisk c id) →
  let '((known', uncached'), t') := local_split ids now known uncached t in
  entries_all (λ k e, entry_value e = loadFromDisk c k) t' ∧
  (∀ id v, mget id known' = Some v → v = loadFromDisk c id) ∧
  (∀ id, id ∈ ids ∨ id ∈ uncached ∨ is_Some (mget id known) ↔ id ∈ uncached' ∨ is_Some (mget id known')).
Proof.
  revert known uncached t. induction ids as [|id ids IH]; intros known uncached t Ht Hk; cbn.
  { split_and!; [done..|]. set_solver. }
  pose proof (ttl_get_all _ id now t Ht) as Ht'. pose proof (λ v, ttl_get_hit _ id now t v Ht) as Hhit.
  destruct (ttl_get id now t) as [[v|] t']; cbn in *.
  - destruct (Hhit v eq_refl) as (e & He & <- & _).
    specialize (IH (mset id (entry_value e) known) uncached t' Ht').
    destruct (local_split ids now _ uncached t') as [[known' uncached'] t''].
    destruct IH as (IH1 & IH2 & IH3).
    { intros j w. rewrite mget_mset. case_decide; [|apply Hk]. by intros [= <-]; subst. }
    split_and!; [done..|]. intros j. rewrite <-IH3, mget_mset, elem_of_cons.
    case_decide; [subst; naive_solver|]. naive_solver.
  - specialize (IH known (uncached ++ [id]) t' Ht' Hk).
    destruct (local_split ids now known (uncached ++ [id]) t') as [[known' uncached'] t''].
    destruct IH as (IH1 & IH2 & IH3). split_and!; [done..|]. intros j. rewrite <-IH3. set_solver.
Qed.

Lemma local_store_ok c later ids known t :
  entries_all (λ k e, entry_value e = loadFromDisk c k) t →
  (∀ id v, mget id known = Some v → v = loadFromDisk c id) →
  let '(known', t') := foldl (local_store c later) (known, t) ids in
  entries_all (λ k e, entry_value e = loadFromDisk c k) t' ∧
  (∀ id v, mget id known' = Some v → v = loadFromDisk c id) ∧
  (∀ id, id ∈ ids ∨ is_Some (mget id known) ↔ is_Some (mget id known')).
Proof.
  revert known t. induction ids as [|id ids IH]; intros known t Ht Hk; cbn.
  { split_and!; [done..|]. set_solver. }
  specialize (IH (mset id (loadFromDisk c id) known) (ttl_set id (loadFromDisk c id) later t)).
  unfold local_store at 2. cbn [fst snd].
  destruct (foldl _ _ _) as [known' t']. destruct IH as (IH1 & IH2 & IH3).
  - by apply ttl_set_all.
  - intros j w. rewrite mget_mset. case_decide; [|apply Hk]. by intros [= <-]; subst.
  - split_and!; [done..|]. intros j. rewrite <-IH3, mget_mset, elem_of_cons.
    case_decide; [subst; naive_solver|]. naive_solver.
Qed.

(** As long as the files stay, the local client answers what is on disk for
    exactly the ids asked for, whatever was cached, expired or evicted. *)
Theorem local_specs_exact ids now later c :
  mirrors_disk c →
  (∀ id, mget id (local_getSpecs ids now later c).1 =
    if bool_decide (id ∈ ids) then Some (loadFromDisk c id) else None) ∧
  (∀ id, (local_getSpec id now later c).1 = loadFromDisk c id) ∧
  mirrors_disk (local_getSpecs ids now later c).2 ∧ ∀ id, mirrors_disk (local_getSpec id now later c).2.
Proof.
  intros Hc.
  assert (∀ (known : jsmap string jsval) (ids' : list string), (∀ id v, mget id known = Some v → v = loadFromDisk c id) →
    (∀ id, id ∈ ids' ↔ is_Some (mget id known)) →
    ∀ id, mget id known = if bool_decide (id ∈ ids') then Some (loadFromDisk c id) else None) as Hall.
  { intros known ids' Hk Hd id. case_bool_decide as Hin.
    - apply Hd in Hin as [v Hv]. rewrite Hv. f_equal. by apply Hk.
    - destruct (mget id known) eqn:Hv; [|done]. destruct Hin. apply Hd. eauto. }
  assert ((∀ id, mget id (local_getSpecs ids now later c).1 =
    if bool_decide (id ∈ ids) then Some (loadFromDisk c id) else None) ∧
    mirrors_disk (local_getSpecs ids now later c).2) as [H1 H2].
  { unfold local_getSpecs. pose proof (local_split_ok c ids now [] [] (lrc_cache c) Hc ltac:(done)) as Hs.
    destruct (local_split ids now [] [] (lrc_cache c)) as [[known uncached] t].
    destruct Hs as (Ht & Hk & Hd). assert (∀ id, is_Some (mget id ([] : jsmap string jsval)) ↔ False) as Hnil.
    { intros id. cbn. by rewrite is_Some_alt. }
    destruct uncached as [|u us].
    - split; [|exact Ht]. apply Hall; [done|]. intros id. specialize (Hd id). rewrite Hnil in Hd. set_solver.
    - pose proof (local_store_ok c later (u :: us) known t Ht Hk) as Hst.
      destruct (foldl (local_store c later) (known, t) (u :: us)) as [known' t'].
      destruct Hst as (Ht' & Hk' & Hd'). split; [|exact Ht'].
      apply Hall; [done|]. intros id. specialize (Hd id). rewrite Hnil in Hd. rewrite <-Hd'. set_solver. }
  assert (∀ id, (local_getSpec id now later c).1 = loadFromDisk c id ∧ mirrors_disk (local_getSpec id now later c).2) as H34.
  { intros id. unfold local_getSpec. pose proof (ttl_get_all _ id now (lrc_cache c) Hc) as Ht.
    pose proof (λ v, ttl_get_hit _ id now (lrc_cache c) v Hc) as Hhit.
    destruct (ttl_get id now (lrc_cache c)) as [[v|] t]; cbn in *.
    - destruct (Hhit v eq_refl) as (e & He & <- & _). done.
    - split; [done|]. by apply ttl_set_all. }
  split_and!; [done| |done|]; intros id; apply H34.
Qed.
End local.

(** ** HostedAbiRegistryClient.ts

    A spec is read at its declared type; a body may also be the JSON [null].
    [transport] is [None] where the request is rejected or runs out of time. *)

Record XdrContractSpec := {
  xs_contractId : string;
  xs_entries : option (list string);
}.

Inductive HostedError := NullSpec.

Section hosted.
Variable sha256 : string → string.

(** [JSON.stringify] of an array of strings. *)
Definition strings_json (l : list string) : string := "[" +:+ join "," (json_string <$> l) +:+ "]".

(** [specHash]: the spec is dereferenced, so [null] throws. *)
Definition specHash (spec : option XdrContractSpec) : result HostedError string :=
  match spec with
  | None => Err NullSpec
  | Some s => Ok (sha256 (strings_json (sort_with String.leb (default [] (xs_entries s)))))
  end.

Record HostedAbiRegistryClient := {
  hrc_baseUrl : string;
  hrc_sampleRate : Z;
  hrc_cache : TtlLruCache XdrContractSpec;
}.

Definition new_HostedAbiRegistryClient (baseUrl : string) (sampleRate : option Z) (maxSize : option jsnum) (ttl : option Z) :
    HostedAbiRegistryClient := {|
  hrc_baseUrl := strip_slash baseUrl;
  hrc_sampleRate := default 20%Z sampleRate;
  hrc_cache := new_TtlLruCache (default DEFAULT_CACHE_TTL_MS ttl) (default (jint DEFAULT_MAX_CACHE_SIZE) maxSize);
|}.

Definition with_hrc_cache (t : TtlLruCache XdrContractSpec) (c : HostedAbiRegistryClient) : HostedAbiRegistryClient :=
  {| hrc_baseUrl := hrc_baseUrl c; hrc_sampleRate := hrc_sampleRate c; hrc_cache := t |}.

(** What the requests of one call meet: the response, the on-chain client's
    answer ([Err] where it rejects), and [Math.random() * sampleRate]. *)
Record HostedWorld := {
  hw_transport : string → option (Z * option (option XdrContractSpec));
  hw_onChain : option (string → result unit (option XdrContractSpec));
  hw_draw : jsnum;
}.

Definition shouldSample (c : HostedAbiRegistryClient) (w : HostedWorld) : bool :=
  if (hrc_sampleRate c <=? 0)%Z || bool_decide (hw_onChain w = None) then false else js_ltZ (hw_draw w) 1.

Definition verifySampledHash (w : HostedWorld) (contractId : string) (hosted : option XdrContractSpec) :
    result HostedError bool :=
  match hw_onChain w with
  | None => Ok true
  | Some getSpec =>
      match getSpec contractId with
      | Err _ | Ok None => Ok true
      | Ok (Some chain) =>
          hostedHash ← specHash hosted;
          chainHash ← specHash (Some chain);
          Ok (String.eqb hostedHash chainHash)
      end
  end.

Definition fetchSpec (c : HostedAbiRegistryClient) (w : HostedWorld) (contractId url : string) :
    result HostedError (option XdrContractSpec) :=
  match hw_transport w url with
  | None => Ok None
  | Some (status, body) =>
      if (status =? 404)%Z then Ok None
      else if (500 <=? status)%Z && (status <? 600)%Z then Ok None
      else if negb ((200 <=? status)%Z && (status <=? 299)%Z) then Ok None
      else match body with
      | None => Ok None
      | Some spec =>
          if shouldSample c w then
            verified ← verifySampledHash w contractId spec;
            Ok (if verified : bool then spec else None)
          else Ok spec
      end
  end.

Definition hosted_lookup (key contractId url : string) (w : HostedWorld) (now later : Z) :
    method HostedAbiRegistryClient HostedError (option XdrContractSpec) :=
  λ c, let '(cached, t) := ttl_get key now (hrc_cache c) in
  let c := with_hrc_cache t c in
  match cached with
  | Some s => (Ok (Some s), c)
  | None =>
      match fetchSpec c w contractId url with
      | Err e => (Err e, c)
      | Ok None => (Ok None, c)
      | Ok (Some spec) => (Ok (Some spec), with_hrc_cache (ttl_set key spec later (hrc_cache c)) c)
      end
  end.

Definition hosted_url (c : HostedAbiRegistryClient) (contractId : string) : string :=
  hrc_baseUrl c +:+ "/v1/specs/" +:+ encodeURIComponent contractId.

Definition hosted_getSpec (contractId : string) (w : HostedWorld) (now later : Z) :
    method HostedAbiRegistryClient HostedError (option XdrContractSpec) :=
  λ c, hosted_lookup contractId contractId (hosted_url c contractId) w now later c.

Definition hosted_getSpecAt (contractId : string) (atLedger : Z) (w : HostedWorld) (now later : Z) :
    method HostedAbiRegistryClient HostedError (option XdrContractSpec) :=
  λ c, hosted_lookup (at_key contractId atLedger) contractId
    (hosted_url c contractId +:+ "?ledger=" +:+ encodeURIComponent (pretty atLedger)) w now later c.

(** *** The chain attests *)


Lemma leb_total s t : String.leb s t = true ∨ String.leb t s = true.
Proof.
  unfold String.leb. rewrite (String.compare_antisym t s). destruct (s ?= t)%string; cbn; auto.
Qed.




(** The service never throws but on a body [null] that is sampled. *)
Lemma hosted_falls_through contractId w now later c e :
  (hosted_getSpec contractId w now later c).1 = Err e →
  ∃ status, hw_transport w (hosted_url c contractId) = Some (status, Some None) ∧ shouldSample c w = true.
Proof.
  unfold hosted_getSpec, hosted_lookup. destruct (ttl_get contractId now (hrc_cache c)) as [[cached|] t]; [done|].
  destruct (fetchSpec _ w contractId _) as [[spec|]|] eqn:Hf; cbn; [done..|]. intros _.
  unfold fetchSpec in Hf. destruct (hw_transport w _) as [[st body]|] eqn:Ht; [|done].
  destruct (st =? 404)%Z; [done|]. destruct ((500 <=? st)%Z && (st <? 600)%Z); [done|].
  destruct (negb _); [done|]. destruct body as [spec|]; [|done].
  change (shouldSample (with_hrc_cache t c) w) with (shouldSample c w) in Hf.
  destruct (shouldSample c w); [|done]. exists st.
  destruct spec as [spec|]; [|done]. unfold verifySampledHash in Hf.
  destruct (hw_onChain w) as [getSpec|]; [|done]. by destruct (getSpec contractId) as [[chain|]|].
Qed.
End hosted.

(** ** ChainedAbiRegistryClient.ts

    A reader works on a shared world [W] of caches and services; a spec found is
    [Some]. *)

Inductive SpecSource := sep48 | registry | wellKnown | discovery.

#[export] Instance SpecSource_eq_dec : EqDecision SpecSource.
Proof. solve_decision. Defined.

Section chain.
Context {W E Spec : Type}.
Variable specText : Spec → string.   (** the hash of the canonical text *)

Record AbiRegistryReader := {
  rd_getSpec : string → method W E (option Spec);
  rd_getSpecAt : option (string → Z → method W E (option Spec));
  rd_specSource : option SpecSource;
  rd_clearCache : option (W → W);
}.

Implicit Types (clients : list AbiRegistryReader) (w : W).

(** Ask the clients in order; [ask] is what a client is asked. *)
Fixpoint chain_ask (ask : AbiRegistryReader → method W E (option Spec)) clients : method W E (option Spec) :=
  match clients with
  | [] => mret None
  | client :: clients =>
      ask client ≫= λ r, match r with Some s => mret (Some s) | None => chain_ask ask clients end
  end.

Definition chain_getSpec clients (contractId : string) : method W E (option Spec) :=
  chain_ask (λ client, rd_getSpec client contractId) clients.

Definition ask_at (contractId : string) (atLedger : Z) (client : AbiRegistryReader) : method W E (option Spec) :=
  match rd_getSpecAt client with
  | Some getSpecAt => getSpecAt contractId atLedger
  | None => rd_getSpec client contractId
  end.

Definition chain_getSpecAt clients (contractId : string) (atLedger : Z) : method W E (option Spec) :=
  chain_ask (ask_at contractId atLedger) clients.

Definition chain_clearCache clients : W → W :=
  λ w, foldl (λ w client, match rd_clearCache client with Some f => f w | None => w end) w clients.

(** The chain is a reader itself. *)
Definition chained clients : AbiRegistryReader := {|
  rd_getSpec := chain_getSpec clients;
  rd_getSpecAt := Some (chain_getSpecAt clients);
  rd_specSource := None;
  rd_clearCache := Some (chain_clearCache clients);
|}.

Record Disagreement := {
  dis_winner : SpecSource;
  dis_other : SpecSource;
  dis_hashes : string * string;
}.

Definition source_of (client : AbiRegistryReader) : SpecSource := default discovery (rd_specSource client).

Definition warnOnDisagreement (winner other : Spec * SpecSource) : list Disagreement :=
  let winnerHash := specText winner.1 in let otherHash := specText other.1 in
  if String.eqb winnerHash otherHash then []
  else [{| dis_winner := winner.2; dis_other := other.2; dis_hashes := (winnerHash, otherHash) |}].

Fixpoint resolve_loop clients (contractId : string) (winner : option (Spec * SpecSource)) :
    method W E (option (Spec * SpecSource) * list Disagreement) :=
  match clients with
  | [] => mret (winner, [])
  | client :: clients =>
      r ← rd_getSpec client contractId;
      match r with
      | None => resolve_loop clients contractId winner
      | Some spec =>
          match winner with
          | None => resolve_loop clients contractId (Some (spec, source_of client))
          | Some win =>
              '(res, warns) ← resolve_loop clients contractId winner;
              mret (res, warnOnDisagreement win (spec, source_of client) ++ warns)
          end
      end
  end.

Definition getResolvedSpec clients (contractId : string) :
    method W E (option (Spec * SpecSource) * list Disagreement) :=
  resolve_loop clients contractId None.

(** *** Precedence is the order of the clients *)

(** The clients asked before an answer all answer nothing. *)
Inductive all_silent (ask : AbiRegistryReader → method W E (option Spec)) : list AbiRegistryReader → W → W → Prop :=
  | silent_nil w : all_silent ask [] w w
  | silent_cons client clients w w1 w2 :
      ask client w = (Ok None, w1) → all_silent ask clients w1 w2 → all_silent ask (client :: clients) w w2.

Lemma chain_ask_cons ask client clients w :
  chain_ask ask (client :: clients) w =
    match ask client w with
    | (Ok (Some s), w') => (Ok (Some s), w')
    | (Ok None, w') => chain_ask ask clients w'
    | (Err e, w') => (Err e, w')
    end.
Proof. cbn. unfold mbind, method_bind. by destruct (ask client w) as [[[s|]|e] w']. Qed.

Lemma chain_ask_silent ask before clients w w1 :
  all_silent ask before w w1 → chain_ask ask (before ++ clients) w = chain_ask ask clients w1.
Proof.
  induction 1 as [|client before w w1 w2 Hask Hs IH]; [done|]. rewrite <-app_comm_cons, chain_ask_cons.
  by rewrite Hask.
Qed.

(** A chain of registry clients answers with the first of them that has a
    spec, and rejects with the first that rejects; the clients before it answered
    nothing and those after it are not asked; it answers nothing exactly when all
    of them do; and a chain within a chain is like its clients in its place. *)
Theorem chain_first_answer ask clients w :
  (∀ s w', chain_ask ask clients w = (Ok (Some s), w') ↔
    ∃ before client after w1, clients = before ++ client :: after ∧ all_silent ask before w w1 ∧
      ask client w1 = (Ok (Some s), w')) ∧
  (∀ e w', chain_ask ask clients w = (Err e, w') ↔
    ∃ before client after w1, clients = before ++ client :: after ∧ all_silent ask before w w1 ∧
      ask client w1 = (Err e, w')) ∧
  (∀ w', chain_ask ask clients w = (Ok None, w') ↔ all_silent ask clients w w') ∧
  (∀ before after id w, chain_getSpec (before ++ chained clients :: after) id w =
    chain_getSpec (before ++ clients ++ after) id w).
Proof.
  assert (∀ r w', chain_ask ask clients w = (r, w') → r ≠ Ok None →
    ∃ before client after w1, clients = before ++ client :: after ∧ all_silent ask before w w1 ∧
      ask client w1 = (r, w')) as Hinv.
  { revert w. induction clients as [|client clients IH]; intros w r w' H Hr.
    { by injection H as <- _. }
    rewrite chain_ask_cons in H. destruct (ask client w) as [[[s|]|e] w1] eqn:Hask.
    - injection H as <- <-. exists [], client, clients, w. split_and!; [done|constructor|done].
    - destruct (IH w1 r w' H Hr) as (before & cl & after & w2 & -> & Hs & Hcl).
      exists (client :: before), cl, after, w2. split_and!; [done| |done]. by econstructor.
    - injection H as <- <-. exists [], client, clients, w. split_and!; [done|constructor|done]. }
  assert (∀ r w' before client after w1, clients = before ++ client :: after → all_silent ask before w w1 →
    ask client w1 = (r, w') → r ≠ Ok None → chain_ask ask clients w = (r, w')) as Hback.
  { intros r w' before client after w1 -> Hs Hcl Hr. rewrite (chain_ask_silent _ _ _ _ _ Hs), chain_ask_cons, Hcl.
    destruct r as [[s|]|e]; done. }
  split_and!.
  - intros s w'. split; [intros H; by apply Hinv|]. intros (b & c & a & w1 & H1 & H2 & H3). by eapply Hback.
  - intros e w'. split; [intros H; by apply Hinv|]. intros (b & c & a & w1 & H1 & H2 & H3). by eapply Hback.
  - intros w'. clear Hinv Hback. split.
    + revert w. induction clients as [|client clients IH]; intros w H.
      { injection H as ->. constructor. }
      rewrite chain_ask_cons in H. destruct (ask client w) as [[[s|]|e] w1] eqn:Hask; [done| |done].
      econstructor; [exact Hask|by apply IH].
    + intros Hs. rewrite <-(app_nil_r clients), (chain_ask_silent _ _ _ _ _ Hs). done.
  - clear. intros before after id w. unfold chain_getSpec. revert w.
    induction before as [|c before IH]; intros w; cbn [app].
    + rewrite chain_ask_cons. cbn [chained rd_getSpec]. unfold chain_getSpec.
      revert w. induction clients as [|client clients IH]; intros w; [done|].
      cbn [app]. rewrite !chain_ask_cons. by destruct (rd_getSpec client id w) as [[[s|]|e] w1].
    + rewrite !chain_ask_cons. destruct (rd_getSpec c id w) as [[[s|]|e] w1]; auto.
Qed.

Lemma resolve_loop_keeps clients id win res warns w w' :
  resolve_loop clients id (Some win) w = (Ok (res, warns), w') → res = Some win.
Proof.
  revert res warns w w'. induction clients as [|client clients IH]; intros res warns w w' H; cbn in H.
  { by injection H. }
  apply method_bind_Ok in H as ([s|] & w1 & _ & H); [|by eapply IH].
  apply method_bind_Ok in H as ([res' warns'] & w2 & Hl & H). injection H as <- _ _. by eapply IH.
Qed.

(** The resolved spec is the one the chain answers with, under the source of its
    client; asking the rest can only add warnings, or reject. *)
Lemma resolved_is_first clients id w res warns w' :
  getResolvedSpec clients id w = (Ok (res, warns), w') →
  (chain_getSpec clients id w).1 = Ok (fst <$> res) ∧
  ∀ s src, res = Some (s, src) → ∃ client, client ∈ clients ∧ src = source_of client.
Proof.
  unfold getResolvedSpec, chain_getSpec. revert w. induction clients as [|client clients IH]; intros w H.
  { injection H as <- _ _. done. }
  cbn [resolve_loop] in H. apply method_bind_Ok in H as (r & w1 & Hr & H).
  rewrite chain_ask_cons. rewrite Hr. destruct r as [s|].
  - apply resolve_loop_keeps in H as ->. split; [done|]. intros s' src [= <- <-]. exists client.
    split; [by left|done].
  - apply IH in H as [H1 H2]. split; [done|]. intros s src Hs. destruct (H2 s src Hs) as (c & Hc & ->).
    exists c. split; [by right|done].
Qed.
End chain.

Arguments AbiRegistryReader : clear implicits.

(** ** createDefaultAbiRegistryClient.ts

    The links of the default chain; [env] is [process.env]. *)

Inductive RegistryNetwork := net_mainnet | net_testnet | net_futurenet.

Record OnChainTarget := {
  oct_contractId : string;
  oct_rpcUrl : string;
  oct_networkPassphrase : string;
  oct_publisher : string;
}.

Inductive Link :=
  | LinkSep48 (rpcUrl : string)
  | LinkBundled
  | LinkHosted (baseUrl : string) (onChain : option OnChainTarget)
  | LinkOnChain (target : OnChainTarget).

Definition ORBITAL_REGISTRY_TESTNET_CONTRACT_ID : string := "CDJGK3KJMLQK6EVGOMIOQT35IFT2BTDVWC4ICEAXR7WBFTDGOP7FGXCV".
Definition ORBITAL_REGISTRY_PUBLISHER_ADDRESS : string := "GBBHYIMKT43UAFUG2F4QHSJK25Q2AZSA3RRB6JSHUABDAXMQARGJZYHG".
Definition ORBITAL_REGISTRY_TESTNET_RPC_URL : string := "https://soroban-testnet.stellar.org".
Definition ORBITAL_REGISTRY_TESTNET_NETWORK_PASSPHRASE : string := "Test SDF Network ; September 2015".
Definition ORBITAL_REGISTRY_MAINNET_NETWORK_PASSPHRASE : string := "Public Global Stellar Network ; September 2015".

Section default_chain.
Variable env : string → option string.

Definition readEnv (name : string) : option string :=
  value ← env name; if String.eqb (trim value) "" then None else Some (trim value).

Definition resolveOnChainTarget (network : RegistryNetwork) : option OnChainTarget :=
  match network with
  | net_futurenet => None
  | net_mainnet =>
      let contractId := default "" (readEnv "ORBITAL_REGISTRY_MAINNET_CONTRACT_ID") in
      let rpcUrl := default "" (readEnv "ORBITAL_REGISTRY_MAINNET_RPC_URL") in
      let publisher := default "" (readEnv "ORBITAL_REGISTRY_MAINNET_PUBLISHER_ADDRESS") in
      if String.eqb contractId "" || String.eqb rpcUrl "" || String.eqb publisher "" then None
      else Some {| oct_contractId := contractId; oct_rpcUrl := rpcUrl;
                   oct_networkPassphrase := ORBITAL_REGISTRY_MAINNET_NETWORK_PASSPHRASE; oct_publisher := publisher |}
  | net_testnet =>
      let contractId := default ORBITAL_REGISTRY_TESTNET_CONTRACT_ID (readEnv "ORBITAL_REGISTRY_TESTNET_CONTRACT_ID") in
      if String.eqb contractId "" then None
      else Some {|
        oct_contractId := contractId;
        oct_rpcUrl := default ORBITAL_REGISTRY_TESTNET_RPC_URL (readEnv "ORBITAL_REGISTRY_TESTNET_RPC_URL");
        oct_networkPassphrase := ORBITAL_REGISTRY_TESTNET_NETWORK_PASSPHRASE;
        oct_publisher := default ORBITAL_REGISTRY_PUBLISHER_ADDRESS (readEnv "ORBITAL_REGISTRY_PUBLISHER_ADDRESS") |}
  end.

Definition createDefaultAbiRegistryClient (rpcUrl : option string) (chainOnly : option bool)
    (network : option RegistryNetwork) : list Link :=
  let hostedBaseUrl := default "" (readEnv "ORBITAL_HOSTED_REGISTRY_BASE_URL") in
  let target := resolveOnChainTarget (default net_testnet network) in
  match rpcUrl with Some url => if String.eqb url "" then [] else [LinkSep48 url] | None => [] end ++
  [LinkBundled] ++
  (if negb (default false chainOnly) && negb (String.eqb hostedBaseUrl "") then [LinkHosted hostedBaseUrl target] else []) ++
  match target with Some t => [LinkOnChain t] | None => [] end.

(** The order of precedence; the hosted link checks against the registry that
    follows it. *)
Definition link_rank (l : Link) : Z :=
  match l with LinkSep48 _ => 0 | LinkBundled => 1 | LinkHosted _ _ => 2 | LinkOnChain _ => 3 end.

Lemma default_chain_order rpcUrl chainOnly network :
  let links := createDefaultAbiRegistryClient rpcUrl chainOnly network in
  StronglySorted Z.lt (link_rank <$> links) ∧ LinkBundled ∈ links ∧
  ∀ url target, LinkHosted url target ∈ links → ∀ t, target = Some t ↔ LinkOnChain t ∈ links.
Proof.
  unfold createDefaultAbiRegistryClient. split_and!.
  - repeat case_match; cbn; repeat (constructor; try done).
  - set_solver.
  - intros url target Hin t. repeat case_match; cbn in *; set_solver.
Qed.
End default_chain.

(** ** Behaviour to know about *)

(** A client that fails after the winner was found fails the whole resolution,
    where [getSpec] of the same chain answers. *)
Lemma later_failure_loses_winner {W E Spec : Type} (specText : Spec → string) (s : Spec) (e : E) (w : W) :
  let has := {| rd_getSpec := λ _ w, (Ok (Some s), w); rd_getSpecAt := None; rd_specSource := Some sep48;
                rd_clearCache := None |} in
  let fails := {| rd_getSpec := λ _ w, (Err e, w); rd_getSpecAt := None; rd_specSource := Some registry;
                  rd_clearCache := None |} in
  (chain_getSpec [has; fails] "C" w).1 = Ok (Some s) ∧
  (getResolvedSpec specText [has; fails] "C" w).1 = Err e.
Proof. done. Qed.

(** The latest spec of a contract named [C@5] and the spec of [C] as of ledger 5
    share a cache entry. *)
Lemma at_sign_confuses : cache_key (Latest "C@5") = cache_key (AsOf "C" 5).
Proof. done. Qed.

(** The trailing slash of a directory is not what is stripped. *)
Lemma trailing_slash_stays :
  lrc_specsDir (new_LocalAbiRegistryClient "/specs/" None None) = "/specs/" ∧
  lrc_specsDir (new_LocalAbiRegistryClient "/specs\/" None None) = "/specs".
Proof. done. Qed.

(** A historical spec is compared with the latest one on the chain: after an
    upgrade the correct answer is thrown away when it is sampled. *)
Definition old_spec : XdrContractSpec := {| xs_contractId := "C"; xs_entries := Some ["AAA="] |}.
Definition new_spec : XdrContractSpec := {| xs_contractId := "C"; xs_entries := Some ["AAA="; "BBB="] |}.

Definition upgraded_world (body : option XdrContractSpec) : HostedWorld := {|
  hw_transport := λ _, Some (200%Z, Some body);
  hw_onChain := Some (λ _, Ok (Some new_spec));
  hw_draw := JFin 1 1;
|}.

Lemma historical_spec_compared_with_latest :
  let c := new_HostedAbiRegistryClient "https://abi" None None None in
  (hosted_getSpecAt id "C" 5 (upgraded_world (Some old_spec)) 0 0 c).1 = Ok None ∧
  (hosted_getSpecAt id "C" 5 (upgraded_world (Some new_spec)) 0 0 c).1 = Ok (Some new_spec).
Proof. vm_compute. done. Qed.

(** A body [null] is an answer of nothing, but throws when it is sampled. *)
Lemma null_body_throws :
  let c := new_HostedAbiRegistryClient "https://abi" None None None in
  (hosted_getSpec id "C" (upgraded_world None) 0 0 c).1 = Err NullSpec.
Proof. vm_compute. done. Qed.

(** ** Witnesses *)

Definition demo_config : AbiRegistryClientConfig :=
  {| cfg_baseUrl := "https://abi/"; cfg_maxCacheSize := Some (jint 2); cfg_cacheTtlMs := Some 10%Z |}.

Definition demo_events : list TrafficEvent := [
  Call 0 (GetSpec "CA"); Call 1 (GetSpecs ["CA"; "CB"]);
  Respond 2 0 (Some {| resp_status := 200; resp_body := Some (JStr "a") |});
  Respond 3 0 (Some {| resp_status := 200; resp_body := Some (JObj [("CB", JStr "b")]) |});
  Call 12 (GetSpec "CA"); Call 14 (GetSpec "CA"); Respond 15 0 None].

Lemma registry_answers_fresh_witness :
  tr_answers (traffic demo_config demo_events) =
    [(2%Z, Latest "CA", JStr "a"); (3%Z, Latest "CA", JNull); (3%Z, Latest "CB", JStr "b"); (12%Z, Latest "CA", JNull)] ∧
  (∃ t, (t, Latest "CA", JNull) ∈ tr_told (traffic demo_config demo_events) ∧ (12 ≤ t + 10 ∨ t = 12)%Z).
Proof.
  split; [vm_compute; reflexivity|].
  apply (registry_answers_fresh demo_config demo_events); [repeat constructor|].
  vm_compute. do 3 right. left.
Defined.

Lemma local_specs_exact_witness :
  (local_getSpecs (λ p, if String.eqb p "/specs/CA.json" then Some (JStr "a") else None) ["CA"; "CB"; "CA"] 0 1
    (new_LocalAbiRegistryClient "/specs" None None)).1 = [("CA", JStr "a"); ("CB", JNull)] ∧
  mget "CB" (local_getSpecs (λ p, if String.eqb p "/specs/CA.json" then Some (JStr "a") else None) ["CA"; "CB"; "CA"] 0 1
    (new_LocalAbiRegistryClient "/specs" None None)).1 = Some JNull.
Proof.
  split; [vm_compute; reflexivity|].
  erewrite (proj1 (local_specs_exact _ ["CA"; "CB"; "CA"] 0 1 (new_LocalAbiRegistryClient "/specs" None None) _));
    vm_compute; reflexivity.
Unshelve. intros k e Hin. apply not_elem_of_nil in Hin. destruct Hin.
Defined.

