(* ===== verification/Spec.v ===== *)
(** * Contract specs

    abi-registry/src/spec.ts: the descriptors of a contract's functions, events
    and types, the validation of a spec that comes from outside, and the
    canonical text it is hashed under.  Validation errors are kept as the paths
    they are about; their wording is left out. *)

From Stdlib Require Import Sorted.
From S2P Require Import Prelude JsMap JsValue Decimal CanonicalJson Evidence.

(** ** Descriptors *)

Inductive PrimitiveType :=
  | Pbool | Pu32 | Pi32 | Pu64 | Pi64 | Pu128 | Pi128 | Pu256 | Pi256
  | Pbytes | Pstring | Psymbol | Paddress | Pvoid | Perror | Pval.

#[export] Instance PrimitiveType_eq_dec : EqDecision PrimitiveType.
Proof. solve_decision. Defined.

Definition primitive_name (p : PrimitiveType) : string :=
  match p with
  | Pbool => "bool" | Pu32 => "u32" | Pi32 => "i32" | Pu64 => "u64" | Pi64 => "i64"
  | Pu128 => "u128" | Pi128 => "i128" | Pu256 => "u256" | Pi256 => "i256"
  | Pbytes => "bytes" | Pstring => "string" | Psymbol => "symbol" | Paddress => "address"
  | Pvoid => "void" | Perror => "error" | Pval => "val"
  end.

(** [PRIMITIVE_TYPES] *)
Definition PRIMITIVE_TYPES : list PrimitiveType :=
  [Pbool; Pu32; Pi32; Pu64; Pi64; Pu128; Pi128; Pu256; Pi256; Pbytes; Pstring; Psymbol; Paddress; Pvoid; Perror; Pval].

Definition primitive_of (s : string) : option PrimitiveType :=
  List.find (λ p, String.eqb (primitive_name p) s) PRIMITIVE_TYPES.

Inductive TypeSpec :=
  | TPrimitive (p : PrimitiveType)
  | TBytesN (size : Z)
  | TOption (inner : TypeSpec)
  | TResult (ok err : TypeSpec)
  | TVec (item : TypeSpec)
  | TMap (key value : TypeSpec)
  | TTuple (elements : list TypeSpec)
  | TNamed (name : string).

Record FieldSpec := {
  fs_name : string;
  fs_type : TypeSpec;
  fs_doc : option string;
}.

Record FunctionSpec := {
  fn_name : string;
  fn_doc : option string;
  fn_params : list FieldSpec;
  fn_returns : TypeSpec;
}.

Record EventSpec := {
  ev_name : string;
  ev_doc : option string;
  ev_topics : list FieldSpec;
  ev_data : list FieldSpec;
}.

Record EnumVariantSpec := {
  va_name : string;
  va_doc : option string;
  va_discriminant : Z;
  va_value : option TypeSpec;
}.

Record UnionCaseSpec := {
  ca_name : string;
  ca_doc : option string;
  ca_fields : list FieldSpec;
}.

Inductive UserDefinedType :=
  | UStruct (name : string) (doc : option string) (fields : list FieldSpec)
  | UEnum (name : string) (doc : option string) (variants : list EnumVariantSpec)
  | UUnion (name : string) (doc : option string) (cases : list UnionCaseSpec).

Definition udt_name (u : UserDefinedType) : string :=
  match u with UStruct n _ _ | UEnum n _ _ | UUnion n _ _ => n end.

Record ContractSpec := {
  sp_version : string;
  sp_name : string;
  sp_description : option string;
  sp_contractId : option string;
  sp_network : option string;
  sp_functions : list FunctionSpec;
  sp_events : list EventSpec;
  sp_types : jsmap string UserDefinedType;
  sp_xdrEntries : option (list string);
  sp_pointer : option string;
}.

(** Induction on types, with the elements of a tuple. *)
Section TypeSpec_ind.
Variable P : TypeSpec → Prop.
Hypothesis (Hp : ∀ p, P (TPrimitive p)) (Hb : ∀ n, P (TBytesN n)) (Ho : ∀ t, P t → P (TOption t))
  (Hr : ∀ t u, P t → P u → P (TResult t u)) (Hv : ∀ t, P t → P (TVec t))
  (Hm : ∀ t u, P t → P u → P (TMap t u)) (Ht : ∀ l, Forall P l → P (TTuple l)) (Hn : ∀ s, P (TNamed s)).

Fixpoint TypeSpec_nested_ind (t : TypeSpec) : P t :=
  match t with
  | TPrimitive p => Hp p
  | TBytesN n => Hb n
  | TOption t => Ho t (TypeSpec_nested_ind t)
  | TResult t u => Hr t u (TypeSpec_nested_ind t) (TypeSpec_nested_ind u)
  | TVec t => Hv t (TypeSpec_nested_ind t)
  | TMap t u => Hm t u (TypeSpec_nested_ind t) (TypeSpec_nested_ind u)
  | TTuple l => Ht l ((fix go l : Forall P l := match l with [] => Forall_nil_2 P | x :: l => Forall_cons_2 P x l (TypeSpec_nested_ind x) (go l) end) l)
  | TNamed s => Hn s
  end.
End TypeSpec_ind.

(** ** Validation *)

(** [/^[a-zA-Z_][a-zA-Z0-9_]*$/] *)
Definition letter_char (c : ascii) : bool :=
  let n := nat_of_ascii c in (65 <=? n) && (n <=? 90) || (97 <=? n) && (n <=? 122) || (n =? 95).
Definition digit_char (c : ascii) : bool := bool_decide (is_Some (digit_val c)).

Fixpoint all_chars (f : ascii → bool) (s : string) : bool :=
  match s with "" => true | String c s => f c && all_chars f s end.

Definition IDENTIFIER_RE (s : string) : bool :=
  match s with "" => false | String c s => letter_char c && all_chars (λ c, letter_char c || digit_char c) s end.

(** [/^\d+\.\d+\.\d+$/] *)
Definition digits (s : string) : bool := negb (String.eqb s "") && all_digits s.
Definition SEMVER_RE (s : string) : bool :=
  match str_split "." s with [a; b; c] => digits a && digits b && digits c | _ => false end.

(** [/^C[A-Z2-7]{55}$/] *)
Definition base32_char (c : ascii) : bool :=
  let n := nat_of_ascii c in (65 <=? n) && (n <=? 90) || (50 <=? n) && (n <=? 55).
Definition CONTRACT_ID_RE (s : string) : bool :=
  match s with String "C"%char s => (String.length s =? 55) && all_chars base32_char s | _ => false end.

Definition at_index (path : string) (i : nat) : string := path +:+ "[" +:+ pretty i +:+ "]".

(** [value.forEach((e, i) => f(e, `${path}[${i}]`))] *)
Definition each_element {A} (f : A → string → list string) (path : string) : nat → list A → list string :=
  fix go i l := match l with [] => [] | x :: l => f x (at_index path i) ++ go (S i) l end.

Definition is_record (v : jsval) : bool := match v with JObj _ => true | _ => false end.

Definition positive_integer (v : jsval) : bool :=
  match v with JNum n => match as_integer n with Some z => (1 <=? z)%Z | None => false end | _ => false end.

Fixpoint validateTypeSpec (t : jsval) (path : string) : list string :=
  match t with
  | JStr s => match primitive_of s with Some _ => [] | None => [path] end
  | JObj fs =>
      let sub (k : string) := field k (λ w, validateTypeSpec w (path +:+ "." +:+ k)) [path +:+ "." +:+ k] fs in
      match field "type" id JUndef fs with
      | JStr tag =>
          if String.eqb tag "bytes_n" then
            if positive_integer (field "size" id JUndef fs) then [] else [path +:+ ".size"]
          else if String.eqb tag "option" then sub "inner"
          else if String.eqb tag "result" then sub "ok" ++ sub "err"
          else if String.eqb tag "vec" then sub "item"
          else if String.eqb tag "map" then sub "key" ++ sub "value"
          else if String.eqb tag "tuple" then
            field "elements" (λ w, match w with
              | JArr l =>
                  if length l <? 2 then [path +:+ ".elements"]
                  else each_element (λ e p, validateTypeSpec e p) (path +:+ ".elements") 0 l
              | _ => [path +:+ ".elements"]
              end) [path +:+ ".elements"] fs
          else if String.eqb tag "named" then
            match as_nonempty (field "name" id JUndef fs) with Some _ => [] | None => [path +:+ ".name"] end
          else [path +:+ ".type"]
      | _ => [path +:+ ".type"]
      end
  | _ => [path]
  end.

Definition is_identifier (v : jsval) : bool := match v with JStr s => IDENTIFIER_RE s | _ => false end.
Definition check (b : bool) (path : string) : list string := if b then [] else [path].

Definition validateFieldSpec (f : jsval) (path : string) : list string :=
  if is_record f then
    check (is_identifier (prop f "name")) (path +:+ ".name") ++ validateTypeSpec (prop f "type") (path +:+ ".type")
  else [path].

(** An array each of whose elements passes. *)
Definition validate_array (f : jsval → string → list string) (v : jsval) (path : string) : list string :=
  match v with JArr l => each_element f path 0 l | _ => [path] end.

Definition validateFunctionSpec (fn : jsval) (path : string) : list string :=
  if is_record fn then
    check (is_identifier (prop fn "name")) (path +:+ ".name") ++
    validate_array validateFieldSpec (prop fn "params") (path +:+ ".params") ++
    validateTypeSpec (prop fn "returns") (path +:+ ".returns")
  else [path].

Definition validateEventSpec (ev : jsval) (path : string) : list string :=
  if is_record ev then
    check (bool_decide (is_Some (as_nonempty (prop ev "name")))) (path +:+ ".name") ++
    validate_array validateFieldSpec (prop ev "topics") (path +:+ ".topics") ++
    validate_array validateFieldSpec (prop ev "data") (path +:+ ".data")
  else [path].

Definition string_such (f : string → bool) (v : jsval) : bool := match v with JStr s => f s | _ => false end.
Definition undef_or (f : jsval → bool) (v : jsval) : bool := is_undef v || f v.

Definition NETWORKS : list string := ["mainnet"; "testnet"; "futurenet"].

Definition validateSpec (spec : jsval) : list string :=
  if is_record spec then
    check (string_such SEMVER_RE (prop spec "version")) "version" ++
    check (string_such (λ s, negb (String.eqb s "") && (String.length s <=? 100)) (prop spec "name")) "name" ++
    check (undef_or (string_such (λ _, true)) (prop spec "description")) "description" ++
    check (undef_or (string_such CONTRACT_ID_RE) (prop spec "contractId")) "contractId" ++
    check (undef_or (string_such (λ s, existsb (String.eqb s) NETWORKS)) (prop spec "network")) "network" ++
    validate_array validateFunctionSpec (prop spec "functions") "functions" ++
    validate_array validateEventSpec (prop spec "events") "events" ++
    check (is_record (prop spec "types")) "types" ++
    check (undef_or (λ v, match v with JArr l => forallb (string_such (λ _, true)) l | _ => false end)
      (prop spec "xdrEntries")) "xdrEntries" ++
    check (undef_or (string_such (λ s, negb (String.eqb s ""))) (prop spec "pointer")) "pointer"
  else ["root"].

(** ** Canonical text *)

(** The array index a member's name is, if any. *)
Definition index_of (k : string) : option N :=
  let n := digits_value k in
  if all_digits k && String.eqb (pretty n) k && (n <? 4294967295)%N then Some n else None.

Section own_keys.
Context {A : Type}.

Definition is_index (p : string * A) : bool := bool_decide (is_Some (index_of p.1)).

Fixpoint insert_index (x : string * A) (l : list (string * A)) : list (string * A) :=
  match l with
  | [] => [x]
  | y :: l' => if (digits_value x.1 <=? digits_value y.1)%N then x :: l else y :: insert_index x l'
  end.

(** The members of an object they are assigned to in this order: array indices
    come first, in numeric order, and __proto__ becomes no member at all. *)
Definition own_members (l : list (string * A)) : list (string * A) :=
  let l := List.filter (λ p, negb (String.eqb p.1 "__proto__")) l in
  foldr insert_index [] (List.filter is_index l) ++ List.filter (λ p, negb (is_index p)) l.

Definition ordinary (k : string) : bool := negb (String.eqb k "__proto__") && bool_decide (index_of k = None).

Lemma filter_all (f : string * A → bool) (b : bool) l :
  Forall (λ p, f p = b) l → List.filter f l = if b then l else [].
Proof. induction 1 as [|p l Hp _ IH]; cbn; [by destruct b|]. rewrite Hp, IH. by destruct b. Qed.

Lemma own_members_ordinary l : Forall (λ p, ordinary p.1 = true) l → own_members l = l.
Proof.
  intros Hl. unfold own_members.
  assert (Forall (λ p : string * A, negb (String.eqb p.1 "__proto__") = true ∧ is_index p = false) l) as [H1 H2]%Forall_and.
  { eapply Forall_impl; [exact Hl|]. intros p [H1 H2%bool_decide_eq_true]%andb_true_iff. split; [done|].
    unfold is_index. rewrite H2. apply bool_decide_eq_false. by intros [? ?]. }
  rewrite (filter_all _ true l H1), (filter_all _ false l H2). cbn.
  rewrite (filter_all _ true); [done|]. eapply Forall_impl; [exact H2|]. cbn. by intros p ->.
Qed.
End own_keys.

Fixpoint sortKeysDeep (v : jsval) : jsval :=
  match v with
  | JArr l => JArr (List.map sortKeysDeep l)
  | JObj fs => JObj (own_members (sort_members (List.map (λ p : string * jsval, let (k, w) := p in (k, sortKeysDeep w)) fs)))
  | _ => v
  end.

(** No member at any depth is an array index or __proto__. *)
Fixpoint ordinary_names (v : jsval) : bool :=
  match v with
  | JArr l => forallb ordinary_names l
  | JObj fs => forallb (λ p : string * jsval, let (k, w) := p in ordinary k && ordinary_names w) fs
  | _ => true
  end.

(** [JSON.stringify] leaves out the members that are undefined. *)
Fixpoint drop_undefined (v : jsval) : jsval :=
  match v with
  | JArr l => JArr (List.map drop_undefined l)
  | JObj fs => JObj (List.filter defined (List.map (λ p : string * jsval, let (k, w) := p in (k, drop_undefined w)) fs))
  | _ => v
  end.

Section canonical.
Context (fraction_to_string : Z → nat → string).

Definition canonicalizeSpec (spec : jsval) : string :=
  stringify fraction_to_string (drop_undefined (sortKeysDeep spec)).

Lemma map_members (f : jsval → jsval) (fs : list (string * jsval)) :
  List.map (λ p : string * jsval, let (k, w) := p in (k, f w)) fs = prod_map id f <$> fs.
Proof. by apply list_fmap_ext; intros ? [] _. Qed.

Lemma drop_undefined_undef v : is_undef (drop_undefined v) = is_undef v.
Proof. by destruct v. Qed.
Lemma sortKeysDeep_undef v : is_undef (sortKeysDeep v) = is_undef v.
Proof. by destruct v. Qed.

Lemma canonicalizeSpec_members fs :
  forallb (λ p : string * jsval, let (k, w) := p in ordinary k && ordinary_names w) fs = true →
  drop_undefined (sortKeysDeep (JObj fs)) =
  JObj (List.filter defined (prod_map id (λ w, drop_undefined (sortKeysDeep w)) <$> sort_members fs)).
Proof.
  intros Hfs. cbn [sortKeysDeep drop_undefined]. rewrite !map_members, sort_members_map.
  rewrite own_members_ordinary; cycle 1.
  { apply Forall_fmap. rewrite sort_members_perm, Forall_forall. intros [k w] Hin. cbn.
    rewrite forallb_forall in Hfs. specialize (Hfs _ (proj1 (list_elem_of_In _ _) Hin)). cbn in Hfs.
    by apply andb_true_iff in Hfs as [? _]. }
  do 2 f_equal.
  rewrite <-list_fmap_compose. apply list_fmap_ext. by intros ? [] _.
Qed.

Lemma canonical_spec_text v depth s :
  ordinary_names v = true → serialize fraction_to_string v depth = Ok s →
  stringify fraction_to_string (drop_undefined (sortKeysDeep v)) = s.
Proof.
  revert v depth s. apply (jsval_nested_ind (λ v, ∀ depth s, ordinary_names v = true → serialize fraction_to_string v depth = Ok s →
    stringify fraction_to_string (drop_undefined (sortKeysDeep v)) = s)).
  - intros [| |b|n|s'|l|fs]; try done; intros depth s _; rewrite serialize_unfold; destruct (MAX_DEPTH <? depth); try done; cbn.
    + by intros [= <-].
    + intros [= <-]. by destruct b.
    + destruct (js_isFinite n); [|done]. by intros [= <-].
    + by intros [= <-].
  - intros l Hl depth s Hord. rewrite serialize_unfold. destruct (MAX_DEPTH <? depth); [done|].
    intros (parts & Hp & [= <-])%result_bind_Ok. apply result_mapM_Ok in Hp. cbn in Hord |- *. do 3 f_equal.
    induction Hp as [|w p l parts Hw Hp IH]; [done|]. apply Forall_cons in Hl as [Hl1 Hl]. cbn in Hord |- *.
    apply andb_true_iff in Hord as [? ?]. f_equal; [by eapply Hl1|by apply IH].
  - intros fs Hfs depth s Hord. cbn [ordinary_names] in Hord. rewrite serialize_unfold, canonicalizeSpec_members by done.
    destruct (MAX_DEPTH <? depth); [done|].
    intros (parts & Hp & [= <-])%result_bind_Ok. unfold serialize_members in Hp. apply result_mapM_Ok in Hp.
    assert (Forall (λ p : string * jsval, ∀ depth s, serialize fraction_to_string p.2 depth = Ok s →
      stringify fraction_to_string (drop_undefined (sortKeysDeep p.2)) = s) fs) as Hall.
    { rewrite Forall_forall in Hfs |- *. intros [k w] Hin d t. apply (Hfs _ Hin). rewrite forallb_forall in Hord.
      specialize (Hord _ (proj1 (list_elem_of_In _ _) Hin)). cbn in Hord. by apply andb_true_iff in Hord as [_ ?]. }
    clear Hfs Hord. cbn [stringify]. do 3 f_equal. rewrite <-(sort_members_perm fs) in Hall. revert parts Hp.
    induction Hall as [|[k w] l Hw Hl IH]; intros parts Hp; cbn in Hp |- *.
    { by inversion Hp. }
    unfold defined at 1. cbn. rewrite drop_undefined_undef, sortKeysDeep_undef.
    unfold member_text at 1 in Hp. destruct (is_undef w); cbn in Hp |- *; [by apply IH|].
    inversion Hp as [|? p ? ps Hx Hps]; subst. f_equal; [|by apply IH].
    apply result_bind_Ok in Hx as (t & Ht & [= <-]). cbn in Hw, Ht. by rewrite (Hw _ _ Ht).
Qed.

(** The canonical text a spec is hashed under is the one canonicalizeJson
    writes, on every value that one accepts whose members are named neither by
    array indices nor __proto__. *)
Theorem spec_text_canonical v :
  in_model v 0 = true → ordinary_names v = true →
  canonicalizeJson fraction_to_string v = Ok (canonicalizeSpec v).
Proof.
  intros Hv Hord. rewrite <-(serialize_total fraction_to_string) in Hv. unfold canonicalizeJson.
  destruct (serialize fraction_to_string v 0) as [s|] eqn:Hs; [|done]. f_equal. symmetry.
  by eapply canonical_spec_text.
Qed.
End canonical.

(** ** What a spec that passes says

    The descriptors a JSON value stands for; docs that are no text are absent. *)

Fixpoint type_of (t : jsval) : option TypeSpec :=
  match t with
  | JStr s => TPrimitive <$> primitive_of s
  | JObj fs =>
      let sub (k : string) := field k type_of None fs in
      match field "type" id JUndef fs with
      | JStr tag =>
          if String.eqb tag "bytes_n" then
            match field "size" id JUndef fs with JNum n => TBytesN <$> as_integer n | _ => None end
          else if String.eqb tag "option" then TOption <$> sub "inner"
          else if String.eqb tag "result" then ok ← sub "ok"; err ← sub "err"; Some (TResult ok err)
          else if String.eqb tag "vec" then TVec <$> sub "item"
          else if String.eqb tag "map" then key ← sub "key"; value ← sub "value"; Some (TMap key value)
          else if String.eqb tag "tuple" then
            field "elements" (λ w, match w with JArr l => TTuple <$> mapM type_of l | _ => None end) None fs
          else if String.eqb tag "named" then
            match field "name" id JUndef fs with JStr s => Some (TNamed s) | _ => None end
          else None
      | _ => None
      end
  | _ => None
  end.

Definition field_of (f : jsval) : option FieldSpec :=
  name ← as_string (prop f "name"); type ← type_of (prop f "type");
  Some {| fs_name := name; fs_type := type; fs_doc := as_string (prop f "doc") |}.

Definition list_of {A} (f : jsval → option A) (v : jsval) : option (list A) := l ← as_array v; mapM f l.

Definition function_of (fn : jsval) : option FunctionSpec :=
  name ← as_string (prop fn "name"); params ← list_of field_of (prop fn "params"); returns ← type_of (prop fn "returns");
  Some {| fn_name := name; fn_doc := as_string (prop fn "doc"); fn_params := params; fn_returns := returns |}.

Definition event_of (ev : jsval) : option EventSpec :=
  name ← as_string (prop ev "name"); topics ← list_of field_of (prop ev "topics"); data ← list_of field_of (prop ev "data");
  Some {| ev_name := name; ev_doc := as_string (prop ev "doc"); ev_topics := topics; ev_data := data |}.

(** Well-formed descriptors. *)
Fixpoint wf_type (t : TypeSpec) : bool :=
  match t with
  | TPrimitive _ => true
  | TBytesN n => (1 <=? n)%Z
  | TOption t | TVec t => wf_type t
  | TResult t u | TMap t u => wf_type t && wf_type u
  | TTuple l => (2 <=? length l) && forallb wf_type l
  | TNamed s => negb (String.eqb s "")
  end.

Definition wf_field (f : FieldSpec) : bool := IDENTIFIER_RE (fs_name f) && wf_type (fs_type f).
Definition wf_function (f : FunctionSpec) : bool :=
  IDENTIFIER_RE (fn_name f) && forallb wf_field (fn_params f) && wf_type (fn_returns f).
Definition wf_event (e : EventSpec) : bool :=
  negb (String.eqb (ev_name e) "") && forallb wf_field (ev_topics e) && forallb wf_field (ev_data e).

(** [f] finds nothing wrong exactly with what [rd] reads as something well formed. *)
Definition sound_and_complete {A} (f : jsval → string → list string) (rd : jsval → option A) (wf : A → bool) (v : jsval) : Prop :=
  ∀ path, f v path = [] ↔ ∃ a, rd v = Some a ∧ wf a = true.

Lemma app_nil_both {A} (l l' : list A) : l ++ l' = [] ↔ l = [] ∧ l' = [].
Proof. split; [apply app_eq_nil|by intros [-> ->]]. Qed.

Lemma check_nil b path : check b path = [] ↔ b = true.
Proof. by destruct b. Qed.

Lemma each_element_nil {A} (f : A → string → list string) path i l :
  each_element f path i l = [] ↔ ∀ j x, l !! j = Some x → f x (at_index path (i + j)) = [].
Proof.
  revert i. induction l as [|x l IH]; intros i; cbn [each_element]; [done|].
  rewrite app_nil_both, IH. split.
  - intros [Hx Hl] [|j] y Hj; cbn in Hj.
    + simplify_eq. by rewrite Nat.add_0_r.
    + rewrite Nat.add_succ_r. by apply (Hl j).
  - intros H. split; [specialize (H 0 x eq_refl); by rewrite Nat.add_0_r in H|].
    intros j y Hj. specialize (H (S j) y Hj). by rewrite Nat.add_succ_r in H.
Qed.

Lemma elements_read {A} (f : jsval → string → list string) (rd : jsval → option A) wf path i l :
  Forall (sound_and_complete f rd wf) l →
  each_element f path i l = [] ↔ ∃ k, mapM rd l = Some k ∧ forallb wf k = true.
Proof.
  intros Hl. revert i. induction Hl as [|x l Hx _ IH]; intros i.
  { cbn. split; [by exists []|done]. }
  change (each_element f path i (x :: l)) with (f x (at_index path i) ++ each_element f path (S i) l).
  rewrite app_nil_both, IH, (Hx (at_index path i)). cbn [mapM]. split.
  - intros [(a & Ha & Hwa) (k & Hk & Hwk)]. exists (a :: k). rewrite Ha. cbn. rewrite Hk. cbn. by rewrite Hwa.
  - intros (k' & Hk' & Hw). destruct (rd x) as [a|]; [|done]. cbn in Hk'. destruct (mapM rd l) as [k|]; [|done].
    cbn in Hk'. injection Hk' as <-. cbn in Hw. apply andb_true_iff in Hw as [? ?]. eauto 10.
Qed.

Lemma positive_integer_read v : positive_integer v = true ↔
  ∃ z, match v with JNum n => TBytesN <$> as_integer n | _ => None end = Some (TBytesN z) ∧ (1 <=? z)%Z = true.
Proof.
  destruct v as [| | |n| | |]; cbn; try naive_solver. destruct (as_integer n) as [z|]; cbn; naive_solver.
Qed.

(** A member read by [type_of]; the elements of an array are read too. *)
Definition type_reads (v : jsval) : Prop :=
  sound_and_complete validateTypeSpec type_of wf_type v ∧
  match v with JArr l => Forall (sound_and_complete validateTypeSpec type_of wf_type) l | _ => True end.

Lemma no_type (A B : Prop) : (A → False) → (B → False) → A ↔ B.
Proof. tauto. Qed.

Lemma sub_read k path (fs : list (string * jsval)) :
  Forall (λ p : string * jsval, type_reads p.2) fs →
  field k (λ w, validateTypeSpec w (path +:+ "." +:+ k)) [path +:+ "." +:+ k] fs = [] ↔
  ∃ t, field k type_of None fs = Some t ∧ wf_type t = true.
Proof.
  intros Hfs. induction Hfs as [|[j w] fs [Hw _] _ IH]; cbn [field].
  - apply no_type; [done|]. by intros (t & [=] & _).
  - destruct (String.eqb j k); [apply Hw|apply IH].
Qed.

Lemma read_one {A B} (c : A → B) (wfa : A → bool) (wfb : B → bool) (r : option A) :
  (∀ a, wfb (c a) = wfa a) →
  (∃ a, r = Some a ∧ wfa a = true) ↔ ∃ b, c <$> r = Some b ∧ wfb b = true.
Proof.
  intros Hc. destruct r as [a|]; cbn.
  - split; [intros (a' & [= <-] & Ha)|intros (b & [= <-] & Hb)]; eexists; (split; [done|]); by rewrite ?Hc in *.
  - apply no_type; by intros (? & [=] & _).
Qed.

Lemma read_two {A A' B} (c : A → A' → B) (wfa : A → bool) (wfa' : A' → bool) (wfb : B → bool) r r' :
  (∀ a a', wfb (c a a') = wfa a && wfa' a') →
  (∃ a, r = Some a ∧ wfa a = true) ∧ (∃ a, r' = Some a ∧ wfa' a = true) ↔
  ∃ b, (a ← r; a' ← r'; Some (c a a')) = Some b ∧ wfb b = true.
Proof.
  intros Hc. destruct r as [a|], r' as [a'|]; cbn.
  2-4: apply no_type; [intros [(? & ? & _) (? & ? & _)]; done|by intros (? & [=] & _)].
  split.
  - intros [(? & [= <-] & Ha) (? & [= <-] & Ha')]. eexists. split; [done|]. by rewrite Hc, Ha, Ha'.
  - intros (b & [= <-] & Hb). rewrite Hc in Hb. apply andb_true_iff in Hb as [? ?].
    split; by eexists.
Qed.

Lemma read_three {A A' A'' B} (c : A → A' → A'' → B) (wfa : A → bool) (wfa' : A' → bool) (wfa'' : A'' → bool)
    (wfb : B → bool) r r' r'' :
  (∀ a a' a'', wfb (c a a' a'') = wfa a && wfa' a' && wfa'' a'') →
  (∃ a, r = Some a ∧ wfa a = true) ∧ (∃ a, r' = Some a ∧ wfa' a = true) ∧ (∃ a, r'' = Some a ∧ wfa'' a = true) ↔
  ∃ b, (a ← r; a' ← r'; a'' ← r''; Some (c a a' a'')) = Some b ∧ wfb b = true.
Proof.
  intros Hc. destruct r as [a|], r' as [a'|], r'' as [a''|]; cbn.
  2-8: apply no_type; [intros [(? & ? & _) [(? & ? & _) (? & ? & _)]]; done|by intros (? & [=] & _)].
  split.
  - intros [(? & [= <-] & Ha) [(? & [= <-] & Ha') (? & [= <-] & Ha'')]]. eexists. split; [done|].
    by rewrite Hc, Ha, Ha', Ha''.
  - intros (b & [= <-] & Hb). rewrite Hc in Hb. apply andb_true_iff in Hb as [[? ?]%andb_true_iff ?].
    split_and!; by eexists.
Qed.

Lemma size_read v :
  (if positive_integer v then [] else ["x"]) = ([] : list string) ↔
  ∃ t, match v with JNum n => TBytesN <$> as_integer n | _ => None end = Some t ∧ wf_type t = true.
Proof.
  destruct v as [| | |n| | |]; cbn; try (apply no_type; [done|by intros (? & [=] & _)]).
  destruct (as_integer n) as [z|]; cbn; [|apply no_type; [done|by intros (? & [=] & _)]].
  split; [|intros (t & [= <-] & Hz); cbn in Hz; by rewrite Hz].
  intros Hz. exists (TBytesN z). split; [done|]. cbn. by destruct (1 <=? z)%Z.
Qed.

Lemma tuple_read path (fs : list (string * jsval)) :
  Forall (λ p : string * jsval, type_reads p.2) fs →
  field "elements" (λ w, match w with
    | JArr l => if length l <? 2 then [path] else each_element (λ e p, validateTypeSpec e p) path 0 l
    | _ => [path] end) [path] fs = [] ↔
  ∃ t, field "elements" (λ w, match w with JArr l => TTuple <$> mapM type_of l | _ => None end) None fs = Some t ∧
    wf_type t = true.
Proof.
  intros Hfs. induction Hfs as [|[j w] fs [_ Hw] _ IH]; cbn [field].
  { apply no_type; [done|by intros (? & [=] & _)]. }
  destruct (String.eqb j "elements"); [|apply IH].
  destruct w as [| | | | |l|]; try (apply no_type; [done|by intros (? & [=] & _)]). cbn in Hw.
  destruct (length l <? 2) eqn:Hlen.
  - apply no_type; [done|]. intros (t & Ht & Hwf). destruct (mapM type_of l) as [k|] eqn:Hk; [|done].
    cbn in Ht. injection Ht as <-. apply length_mapM in Hk. apply Nat.ltb_lt in Hlen. cbn [wf_type] in Hwf.
    apply andb_true_iff in Hwf as [Hwf _]. apply Nat.leb_le in Hwf. lia.
  - rewrite (elements_read _ type_of wf_type) by done. split.
    + intros (k & Hk & Hwk). exists (TTuple k). rewrite Hk. split; [done|]. cbn [wf_type]. rewrite Hwk, andb_true_r.
      apply length_mapM in Hk. apply Nat.ltb_ge in Hlen. apply Nat.leb_le. lia.
    + intros (t & Ht & Hwf). destruct (mapM type_of l) as [k|]; [|done]. cbn in Ht. injection Ht as <-.
      cbn [wf_type] in Hwf. apply andb_true_iff in Hwf as [_ Hwf]. eauto.
Qed.

Lemma name_read (path : string) v :
  match as_nonempty v with Some _ => [] | None => [path] end = [] ↔
  ∃ t, match v with JStr s => Some (TNamed s) | _ => None end = Some t ∧ wf_type t = true.
Proof.
  destruct v as [| | | |[|c s]| |]; try (apply no_type; [done|by intros (? & [=] & _)]).
  - apply no_type; [done|]. by intros (t & [= <-] & Hw).
  - split; [|done]. intros _. eauto.
Qed.

Lemma type_read_all v : type_reads v.
Proof.
  revert v. apply (jsval_nested_ind type_reads).
  - intros [| |b|n|s|l|fs]; try done; split; try done; intros path; cbn [validateTypeSpec type_of];
      try (apply no_type; [done|by intros (? & [=] & _)]).
    destruct (primitive_of s); cbn; [|apply no_type; [done|by intros (? & [=] & _)]]. split; [|done]. intros _. eauto.
  - intros l Hl. split.
    + intros path. apply no_type; [done|by intros (? & [=] & _)].
    + eapply Forall_impl; [exact Hl|]. by intros w [? _].
  - intros fs Hfs. split; [|done]. intros path. cbn [validateTypeSpec type_of].
    destruct (field "type" id JUndef fs) as [| | | |tag| |]; try (apply no_type; [done|by intros (? & [=] & _)]).
    destruct (String.eqb tag "bytes_n").
    { rewrite <-size_read. by destruct (positive_integer _). }
    destruct (String.eqb tag "option"); [rewrite sub_read by done; by apply read_one|].
    destruct (String.eqb tag "result"); [rewrite app_nil_both, !sub_read by done; by apply read_two|].
    destruct (String.eqb tag "vec"); [rewrite sub_read by done; by apply read_one|].
    destruct (String.eqb tag "map"); [rewrite app_nil_both, !sub_read by done; by apply read_two|].
    destruct (String.eqb tag "tuple"); [by apply tuple_read|].
    destruct (String.eqb tag "named"); [apply name_read|].
    apply no_type; [done|by intros (? & [=] & _)].
Qed.

(** *** Fields, functions, events *)

Lemma type_read v : sound_and_complete validateTypeSpec type_of wf_type v.
Proof. apply type_read_all. Qed.

Lemma record_prop v k : is_record v = false → prop v k = JUndef.
Proof. by destruct v. Qed.

Lemma identifier_read v : is_identifier v = true ↔ ∃ s, as_string v = Some s ∧ IDENTIFIER_RE s = true.
Proof.
  destruct v as [| | | |s| |]; try (apply no_type; [done|by intros (? & [=] & _)]).
  split; [|by intros (? & [= <-] & ?)]. intros Hs. by exists s.
Qed.

Lemma field_read v : sound_and_complete validateFieldSpec field_of wf_field v.
Proof.
  intros path. unfold validateFieldSpec, field_of. destruct (is_record v) eqn:Hv.
  - rewrite app_nil_both, check_nil, identifier_read, (type_read (prop v "type") _). by apply read_two.
  - apply no_type; [done|]. rewrite !record_prop by done. by intros (? & [=] & _).
Qed.

Lemma array_read {A} (f : jsval → string → list string) (rd : jsval → option A) wf v path :
  (∀ w, sound_and_complete f rd wf w) →
  validate_array f v path = [] ↔ ∃ l, list_of rd v = Some l ∧ forallb wf l = true.
Proof.
  intros Hf. unfold list_of. destruct v as [| | | | |l|]; try (apply no_type; [done|by intros (? & [=] & _)]).
  cbn. apply elements_read. by apply Forall_true.
Qed.

Lemma function_read v : sound_and_complete validateFunctionSpec function_of wf_function v.
Proof.
  intros path. unfold validateFunctionSpec, function_of. destruct (is_record v) eqn:Hv.
  - rewrite !app_nil_both, check_nil, identifier_read, (array_read _ _ _ _ _ field_read), (type_read (prop v "returns") _).
    by apply read_three.
  - apply no_type; [done|]. rewrite !record_prop by done. by intros (? & [=] & _).
Qed.

Lemma nonempty_read v : bool_decide (is_Some (as_nonempty v)) = true ↔ ∃ s, as_string v = Some s ∧ negb (String.eqb s "") = true.
Proof.
  rewrite bool_decide_eq_true. destruct v as [| | | |[|c s]| |]; cbn;
    try (apply no_type; [by intros [? [=]]|intros (? & [= <-] & [=])]).
  split; [|done]. intros _. by eexists.
Qed.

Lemma event_read v : sound_and_complete validateEventSpec event_of wf_event v.
Proof.
  intros path. unfold validateEventSpec, event_of. destruct (is_record v) eqn:Hv.
  - rewrite !app_nil_both, check_nil, nonempty_read, !(array_read _ _ _ _ _ field_read). by apply read_three.
  - apply no_type; [done|]. rewrite !record_prop by done. by intros (? & [=] & _).
Qed.

(** *** Specs *)

Lemma string_such_read f v : string_such f v = true ↔ ∃ s, v = JStr s ∧ f s = true.
Proof. destruct v; cbn; naive_solver. Qed.

(** What the rest of a spec has to be; [types] is only an object. *)
Definition header_ok (spec : jsval) : Prop :=
  (∃ s, prop spec "version" = JStr s ∧ SEMVER_RE s = true) ∧
  (∃ s, prop spec "name" = JStr s ∧ 0 < String.length s ≤ 100) ∧
  (prop spec "description" = JUndef ∨ ∃ s, prop spec "description" = JStr s) ∧
  (prop spec "contractId" = JUndef ∨ ∃ s, prop spec "contractId" = JStr s ∧ CONTRACT_ID_RE s = true) ∧
  (prop spec "network" = JUndef ∨ ∃ s, prop spec "network" = JStr s ∧ s ∈ NETWORKS) ∧
  (∃ fs, prop spec "types" = JObj fs) ∧
  (prop spec "xdrEntries" = JUndef ∨ ∃ l, prop spec "xdrEntries" = JArr (JStr <$> l)) ∧
  (prop spec "pointer" = JUndef ∨ ∃ s, prop spec "pointer" = JStr s ∧ s ≠ "").

Lemma undef_or_true f v : undef_or f v = true ↔ v = JUndef ∨ f v = true.
Proof. unfold undef_or. rewrite orb_true_iff. destruct v; cbn; naive_solver. Qed.

Lemma strings_read l : forallb (string_such (λ _, true)) l = true ↔ ∃ k, l = JStr <$> k.
Proof.
  induction l as [|w l IH]; cbn; [split; [by exists []|done]|].
  rewrite andb_true_iff, IH, string_such_read. split.
  - intros [(s & -> & _) [k ->]]. by exists (s :: k).
  - intros [[|s k] Hk]; [done|]. cbn in Hk. injection Hk as -> ->. eauto.
Qed.

Lemma nonempty_length s : negb (String.eqb s "") = true ↔ 0 < String.length s.
Proof. destruct s; cbn; split; intros; try done; lia. Qed.

(** [validateSpec] against the readings. *)
Lemma validateSpec_read spec :
  validateSpec spec = [] ↔
  is_record spec = true ∧ header_ok spec ∧
  (∃ l, list_of function_of (prop spec "functions") = Some l ∧ forallb wf_function l = true) ∧
  (∃ l, list_of event_of (prop spec "events") = Some l ∧ forallb wf_event l = true).
Proof.
  unfold validateSpec, header_ok. destruct (is_record spec) eqn:Hr; [|by apply no_type; [|intros [? _]]].
  rewrite !app_nil_both, !check_nil, !undef_or_true, !string_such_read,
    (array_read _ _ _ _ _ function_read), (array_read _ _ _ _ _ event_read).
  assert (is_record (prop spec "types") = true ↔ ∃ fs, prop spec "types" = JObj fs) as ->.
  { destruct (prop spec "types"); naive_solver. }
  assert (∀ v, match v with JArr l => forallb (string_such (λ _, true)) l | _ => false end = true ↔
    ∃ l, v = JArr (JStr <$> l)) as Hx.
  { intros [| | | | |l|]; try (apply no_type; [done|by intros [? [=]]]). rewrite strings_read. naive_solver. }
  rewrite Hx. setoid_rewrite andb_true_iff. setoid_rewrite nonempty_length. setoid_rewrite Nat.leb_le.
  assert (∀ s, existsb (String.eqb s) NETWORKS = true ↔ s ∈ NETWORKS) as Hn.
  { intros s. rewrite existsb_exists. setoid_rewrite String.eqb_eq. setoid_rewrite <-list_elem_of_In. naive_solver. }
  setoid_rewrite Hn.
  assert (∀ v, (∃ s, v = JStr s ∧ true = true) ↔ ∃ s, v = JStr s) as -> by naive_solver.
  assert (∀ s, 0 < String.length s ↔ s ≠ "") as Hne.
  { intros s. rewrite <-nonempty_length. destruct (String.eqb_spec s ""); naive_solver. }
  setoid_rewrite Hne. tauto.
Qed.

(** C26: validateSpec finds nothing wrong exactly with a JSON object whose
    functions and events can be read as well-formed descriptors (identifiers
    for names, types within the grammar, tuples of two at least, sizes of one at
    least) and whose other members have their form. *)
Theorem valid_specs_exact spec :
  validateSpec spec = [] ↔
  is_record spec = true ∧ header_ok spec ∧
  (∃ l, list_of function_of (prop spec "functions") = Some l ∧ forallb wf_function l = true) ∧
  (∃ l, list_of event_of (prop spec "events") = Some l ∧ forallb wf_event l = true).
Proof. apply validateSpec_read. Qed.

(** Anything at all may stand in [types], and for a doc. *)
Definition odd_spec : jsval :=
  JObj [("version", JStr "1.0.0"); ("name", JStr "token"); ("events", JArr []);
    ("functions", JArr [JObj [("name", JStr "ping"); ("doc", JNum (jint 7)); ("params", JArr []); ("returns", JStr "void")]]);
    ("types", JObj [("T", JStr "anything")])].

Lemma types_unchecked : validateSpec odd_spec = [].
Proof. reflexivity. Qed.

(** Members named by array indices are ordered as numbers, unlike
    canonicalizeJson's, and a member __proto__ is not covered by the hash. *)
Lemma indices_ordered_as_numbers (f : Z → nat → string) :
  canonicalizeSpec f (JObj [("10", JNull); ("9", JNull)]) ≠ canonicalizeSpec f (JObj [("9", JStr "x"); ("10", JNull)]) ∧
  Ok (canonicalizeSpec f (JObj [("10", JNull); ("9", JNull)])) ≠ canonicalizeJson f (JObj [("10", JNull); ("9", JNull)]).
Proof. split; vm_compute; discriminate. Qed.

Lemma proto_is_not_hashed (f : Z → nat → string) v :
  canonicalizeSpec f (JObj [("__proto__", v)]) = canonicalizeSpec f (JObj []).
Proof. reflexivity. Qed.

(** ** Witnesses *)

Lemma spec_text_canonical_witness :
  canonicalizeJson (λ _ _, "") odd_spec = Ok (canonicalizeSpec (λ _ _, "") odd_spec).
Proof. apply spec_text_canonical; vm_compute; reflexivity. Defined.
