(* ===== verification/Wasm.v ===== *)
(** * Custom sections of a WASM binary

    findCustomSection of abi-registry/src/discovery/parseContractSpec.ts: a walk
    over the sections of a module with the int32 arithmetic of JavaScript.  Bytes
    are integers from 0 to 255.  A decoded name is compared with a name of ASCII
    letters, which its UTF-8 text equals exactly when the bytes are those
    letters. *)

From S2P Require Import Prelude.

Definition byte (b : Z) : Prop := (0 ≤ b < 256)%Z.

Fixpoint bytes_of (s : string) : list Z :=
  match s with "" => [] | String c s => Z.of_nat (nat_of_ascii c) :: bytes_of s end.

Inductive WasmError := BadMagic | Truncated | OutOfFuel.

#[export] Instance WasmError_eq_dec : EqDecision WasmError.
Proof. solve_decision. Defined.

(** The number of a bit pattern, [x >>> 0]. *)
Definition uint32 (x : Z) : Z := (x mod 2 ^ 32)%Z.

(** [x << n]: the count is taken modulo 32, the bits above are lost. *)
Definition shl32 (x n : Z) : Z := uint32 (Z.shiftl x (n mod 32)).

(** [buf.readUInt32LE(0)] *)
Definition readUInt32LE (buf : list Z) : Z :=
  match buf with
  | a :: b :: c :: d :: _ => (a + 256 * b + 65536 * c + 16777216 * d)%Z
  | _ => 0%Z
  end.

Definition WASM_MAGIC : Z := 0x6d736100.

(** [buf.subarray(first, last)], of offsets that are not negative. *)
Definition subarray (buf : list Z) (first last : Z) : list Z :=
  let n := Z.of_nat (length buf) in
  let first := Z.min first n in
  take (Z.to_nat (Z.min last n - first)) (drop (Z.to_nat first) buf).

(** The loop of [readVarUint32], on the bytes from the offset on: the number and
    how many bytes it took. *)
Fixpoint readVar (bytes : list Z) (value shift : Z) (taken : Z) : result WasmError (Z * Z) :=
  match bytes with
  | [] => Err Truncated
  | byte :: bytes =>
      let value := Z.lor value (shl32 (Z.land byte 127) shift) in
      if (Z.land byte 128 =? 0)%Z then Ok (uint32 value, taken + 1)%Z
      else readVar bytes value (shift + 7)%Z (taken + 1)%Z
  end.

(** [readVarUint32()] at an offset: the number and the next offset. *)
Definition readVarUint32 (buf : list Z) (offset : Z) : result WasmError (Z * Z) :=
  p ← readVar (drop (Z.to_nat (Z.min offset (Z.of_nat (length buf)))) buf) 0 0 0; Ok (p.1, offset + p.2)%Z.

Fixpoint section_loop (fuel : nat) (buf : list Z) (sectionName : string) (offset : Z) : result WasmError (option (list Z)) :=
  if (offset <? Z.of_nat (length buf))%Z then
    match fuel with
    | O => Err OutOfFuel
    | S fuel =>
        let id := default 0%Z (buf !! Z.to_nat offset) in
        size ← readVarUint32 buf (offset + 1);
        let sectionEnd := (size.2 + size.1)%Z in
        if (id =? 0)%Z then
          nameLen ← readVarUint32 buf size.2;
          let name := subarray buf nameLen.2 (nameLen.2 + nameLen.1) in
          let payloadStart := (nameLen.2 + nameLen.1)%Z in
          if bool_decide (name = bytes_of sectionName) then Ok (Some (subarray buf payloadStart sectionEnd))
          else section_loop fuel buf sectionName sectionEnd
        else section_loop fuel buf sectionName sectionEnd
    end
  else Ok None.

(** A round of the loop passes at least one byte, so that the number of bytes
    bounds the rounds. *)
Definition findCustomSection (wasm : list Z) (sectionName : string) : result WasmError (option (list Z)) :=
  if (length wasm <? 8) || negb (readUInt32LE wasm =? WASM_MAGIC)%Z then Err BadMagic
  else section_loop (length wasm) wasm sectionName 8.

(** ** The fuel is enough *)

Lemma readVar_advances bytes value shift taken n k :
  readVar bytes value shift taken = Ok (n, k) → (taken < k)%Z ∧ (0 ≤ n < 2 ^ 32)%Z.
Proof.
  revert value shift taken. induction bytes as [|b bytes IH]; intros value shift taken; cbn [readVar]; [done|].
  destruct (_ =? 0)%Z.
  - intros [= <- <-]. split; [lia|]. apply Z.mod_pos_bound. lia.
  - intros Hr. apply IH in Hr as [? ?]. split; [lia|done].
Qed.

Lemma readVarUint32_advances buf offset n k :
  readVarUint32 buf offset = Ok (n, k) → (offset < k)%Z ∧ (0 ≤ n < 2 ^ 32)%Z.
Proof.
  unfold readVarUint32. intros ([n' k'] & Hr & [= <- <-])%result_bind_Ok.
  apply readVar_advances in Hr as [? ?]. cbn. split; [lia|done].
Qed.

Lemma readVar_errors bytes value shift taken e : readVar bytes value shift taken = Err e → e = Truncated.
Proof.
  revert value shift taken. induction bytes as [|b bytes IH]; intros value shift taken; cbn [readVar]; [by intros [= <-]|].
  destruct (_ =? 0)%Z; [done|]. apply IH.
Qed.

Lemma readVarUint32_errors buf offset e : readVarUint32 buf offset = Err e → e = Truncated.
Proof. unfold readVarUint32. intros [Hr|([? ?] & _ & [=])]%result_bind_Err. by eapply readVar_errors. Qed.

Lemma section_loop_ends fuel buf name offset :
  (0 ≤ offset)%Z → (Z.of_nat (length buf) - offset ≤ Z.of_nat fuel)%Z →
  section_loop fuel buf name offset ≠ Err OutOfFuel.
Proof.
  revert offset. induction fuel as [|fuel IH]; intros offset Ho Hf; cbn [section_loop].
  { destruct (Z.ltb_spec offset (Z.of_nat (length buf))); [lia|done]. }
  destruct (_ <? _)%Z; [|done].
  destruct (readVarUint32 buf (offset + 1)) as [[size k]|e] eqn:Hs; cbn.
  2: { apply readVarUint32_errors in Hs as ->. done. }
  apply readVarUint32_advances in Hs as [? ?].
  destruct (_ =? 0)%Z; [|apply IH; lia].
  destruct (readVarUint32 buf k) as [[len k']|e] eqn:Hn; cbn.
  2: { apply readVarUint32_errors in Hn as ->. done. }
  case_bool_decide; [done|]. apply IH; lia.
Qed.

Lemma search_ends wasm name : findCustomSection wasm name ≠ Err OutOfFuel.
Proof.
  unfold findCustomSection. destruct (_ || _); [done|]. apply section_loop_ends; lia.
Qed.

(** ** The binary format

    A number of the format is a little-endian numeral of base 128, at most five
    digits, all but the last with the continuation bit; it may be padded. *)

Fixpoint uleb_value (bs : list Z) : Z :=
  match bs with [] => 0 | b :: bs => b mod 128 + 128 * uleb_value bs end%Z.

Fixpoint continued (bs : list Z) : Prop :=
  match bs with
  | [] => False
  | [b] => (0 ≤ b < 128)%Z
  | b :: bs => (128 ≤ b < 256)%Z ∧ continued bs
  end.

Definition uleb32 (bs : list Z) (n : Z) : Prop :=
  continued bs ∧ length bs ≤ 5 ∧ uleb_value bs = n ∧ (n < 2 ^ 32)%Z.

(** Sections with their length fields as they are written. *)
Inductive section :=
  | Standard (id : Z) (size content : list Z)
  | Custom (size nameLen name payload : list Z).

Definition encode_section (s : section) : list Z :=
  match s with
  | Standard id size content => id :: size ++ content
  | Custom size nameLen name payload => 0%Z :: size ++ nameLen ++ name ++ payload
  end.

Definition well_formed (s : section) : Prop :=
  match s with
  | Standard id size content => id ≠ 0%Z ∧ uleb32 size (Z.of_nat (length content))
  | Custom size nameLen name payload =>
      uleb32 nameLen (Z.of_nat (length name)) ∧ uleb32 size (Z.of_nat (length (nameLen ++ name ++ payload)))
  end.

Definition payload_of (name : string) (s : section) : option (list Z) :=
  match s with
  | Custom _ _ n payload => if bool_decide (n = bytes_of name) then Some payload else None
  | Standard _ _ _ => None
  end.

Definition module_bytes (version : list Z) (sections : list section) : list Z :=
  [0; 97; 115; 109]%Z ++ version ++ mjoin (encode_section <$> sections).

(** ** Reading a number *)

Lemma low_bits_disjoint v x s : (0 ≤ s)%Z → (0 ≤ v < 2 ^ s)%Z → Z.land v (x * 2 ^ s) = 0%Z.
Proof.
  intros Hs Hv. apply Z.bits_inj'. intros i Hi. rewrite Z.land_spec, Z.bits_0.
  destruct (Z.lt_ge_cases i s).
  - by rewrite Z.mul_pow2_bits_low, andb_false_r.
  - rewrite <-(Z.mod_small v (2 ^ s)) by done. by rewrite Z.mod_pow2_bits_high.
Qed.

Lemma digit_added v b s :
  (0 ≤ s < 32)%Z → (0 ≤ v < 2 ^ s)%Z → (v + 2 ^ s * (b mod 128) < 2 ^ 32)%Z →
  Z.lor v (shl32 (Z.land b 127) s) = (v + 2 ^ s * (b mod 128))%Z.
Proof.
  intros Hs Hv Hlt. unfold shl32, uint32. change 127%Z with (Z.ones 7). rewrite Z.land_ones by lia. change (2 ^ 7)%Z with 128%Z.
  rewrite (Z.mod_small s 32) by lia. rewrite Z.shiftl_mul_pow2 by lia.
  assert (0 ≤ b mod 128 < 128)%Z by (apply Z.mod_pos_bound; lia).
  rewrite Z.mod_small by nia. rewrite <-Z.add_nocarry_lor; [lia|]. apply low_bits_disjoint; lia.
Qed.

Lemma continuation_bit b : (0 ≤ b < 256)%Z → (Z.land b 128 =? 0)%Z = (b <? 128)%Z.
Proof.
  intros Hb. destruct (Z.ltb_spec b 128).
  - apply Z.eqb_eq. change 128%Z with (1 * 2 ^ 7)%Z. apply low_bits_disjoint; lia.
  - apply Z.eqb_neq. replace b with ((b - 128) + 1 * 2 ^ 7)%Z by lia.
    assert (Z.land (b - 128) (1 * 2 ^ 7) = 0)%Z as Hd by (apply low_bits_disjoint; lia).
    rewrite Z.add_nocarry_lor by done. change 128%Z with (1 * 2 ^ 7)%Z at 2. rewrite Z.land_lor_distr_l, Hd. done.
Qed.

Lemma uleb_value_nonneg bs : (0 ≤ uleb_value bs)%Z.
Proof.
  induction bs as [|b bs IH]; cbn [uleb_value]; [lia|].
  assert (0 ≤ b mod 128)%Z by (apply Z.mod_pos_bound; lia). lia.
Qed.

Lemma readVar_uleb bs rest v s taken :
  continued bs → (0 ≤ s)%Z → (s + 7 * (Z.of_nat (length bs) - 1) < 32)%Z → (0 ≤ v < 2 ^ s)%Z →
  (v + 2 ^ s * uleb_value bs < 2 ^ 32)%Z →
  readVar (bs ++ rest) v s taken = Ok (v + 2 ^ s * uleb_value bs, taken + Z.of_nat (length bs))%Z.
Proof.
  revert v s taken. induction bs as [|b bs IH]; intros v s taken Hc Hs Hlen Hv Hlt; [done|].
  pose proof (uleb_value_nonneg bs) as Hnn. cbn [length] in *.
  assert (0 ≤ b mod 128 < 128)%Z as Hb by (apply Z.mod_pos_bound; lia).
  assert (0 < 2 ^ s)%Z by (apply Z.pow_pos_nonneg; lia).
  cbn [app readVar]. cbn [uleb_value] in *. rewrite digit_added by nia.
  destruct bs as [|b' bs].
  - cbn in Hc. rewrite continuation_bit by lia. destruct (Z.ltb_spec b 128); [|lia]. cbn [uleb_value length] in *.
    rewrite Z.mul_0_r, Z.add_0_r in *. f_equal. f_equal. unfold uint32. by rewrite Z.mod_small by nia.
  - destruct Hc as [Hb' Hc]. rewrite continuation_bit by lia. destruct (Z.ltb_spec b 128); [lia|].
    assert (2 ^ (s + 7) = 128 * 2 ^ s)%Z as Hp by (rewrite Z.pow_add_r by lia; lia).
    rewrite (IH _ (s + 7)%Z).
    + do 2 f_equal; [rewrite Hp; nia|lia].
    + done.
    + lia.
    + cbn [length] in *. lia.
    + rewrite Hp. nia.
    + rewrite Hp. nia.
Qed.

Lemma readVarUint32_uleb pre bs rest n :
  uleb32 bs n → readVarUint32 (pre ++ bs ++ rest) (Z.of_nat (length pre)) = Ok (n, Z.of_nat (length (pre ++ bs))).
Proof.
  intros (Hc & Hlen & <- & Hlt). unfold readVarUint32. rewrite Z.min_l by (rewrite !length_app; lia).
  rewrite Nat2Z.id, drop_app_length. rewrite readVar_uleb by (try done; cbn; lia). cbn.
  rewrite length_app. do 2 f_equal; destruct (uleb_value bs); lia.
Qed.

(** ** Walking over the sections *)

Lemma subarray_middle (pre mid post : list Z) first last :
  first = Z.of_nat (length pre) → last = Z.of_nat (length (pre ++ mid)) → subarray (pre ++ mid ++ post) first last = mid.
Proof.
  intros -> ->. unfold subarray. rewrite !length_app. rewrite (Z.min_l (Z.of_nat (length pre))) by lia. rewrite Nat2Z.id, drop_app_length.
  replace (Z.to_nat _) with (length mid) by lia. apply take_app_length.
Qed.

Lemma section_step fuel pre s rest name :
  well_formed s →
  section_loop (S fuel) (pre ++ encode_section s ++ rest) name (Z.of_nat (length pre)) =
  match payload_of name s with
  | Some payload => Ok (Some payload)
  | None => section_loop fuel ((pre ++ encode_section s) ++ rest) name (Z.of_nat (length (pre ++ encode_section s)))
  end.
Proof.
  intros Hs. cbn [section_loop].
  assert (∃ id body, encode_section s = id :: body) as (id & body & Hbody) by (destruct s; cbn; eauto).
  destruct (Z.ltb_spec (Z.of_nat (length pre)) (Z.of_nat (length (pre ++ encode_section s ++ rest)))) as [_|Hge].
  2: { rewrite Hbody in Hge. rewrite length_app in Hge. cbn in Hge. lia. }
  rewrite Nat2Z.id, lookup_app_r by done. rewrite Nat.sub_diag. rewrite <-app_assoc.
  destruct s as [id' size content|size nameLen nm payload]; cbn [encode_section payload_of app lookup list_lookup default].
  - destruct Hs as [Hid Hsize].
    replace (pre ++ id' :: (size ++ content) ++ rest) with ((pre ++ [id']) ++ size ++ content ++ rest) by (by rewrite <-!app_assoc).
    replace (Z.of_nat (length pre) + 1)%Z with (Z.of_nat (length (pre ++ [id']))) by (rewrite length_app; cbn; lia).
    rewrite (readVarUint32_uleb _ _ _ _ Hsize). cbn. apply Z.eqb_neq in Hid as ->. f_equal.
    rewrite !length_app. cbn. rewrite length_app. lia.
  - destruct Hs as [Hname Hsize].
    replace (pre ++ 0%Z :: (size ++ nameLen ++ nm ++ payload) ++ rest)
      with ((pre ++ [0%Z]) ++ size ++ (nameLen ++ nm ++ payload) ++ rest) by (by rewrite <-!app_assoc).
    replace (Z.of_nat (length pre) + 1)%Z with (Z.of_nat (length (pre ++ [0%Z]))) by (rewrite length_app; cbn; lia).
    rewrite (readVarUint32_uleb _ _ _ _ Hsize). cbn [mbind result_bind fst snd Z.eqb].
    replace ((pre ++ [0%Z]) ++ size ++ (nameLen ++ nm ++ payload) ++ rest)
      with (((pre ++ [0%Z]) ++ size) ++ nameLen ++ nm ++ payload ++ rest) by (by rewrite <-!app_assoc).
    rewrite (readVarUint32_uleb _ _ _ _ Hname). cbn [mbind result_bind fst snd].
    replace (((pre ++ [0%Z]) ++ size) ++ nameLen ++ nm ++ payload ++ rest)
      with ((((pre ++ [0%Z]) ++ size) ++ nameLen) ++ nm ++ payload ++ rest) by (by rewrite <-!app_assoc).
    rewrite subarray_middle by (rewrite ?length_app; lia).
    case_bool_decide as Hnm.
    + do 2 f_equal. rewrite (app_assoc _ nm). apply subarray_middle; rewrite !length_app; cbn; lia.
    + rewrite <-!app_assoc. f_equal. rewrite !length_app. cbn. rewrite !length_app. lia.
Qed.

Lemma encode_nonempty s : 0 < length (encode_section s).
Proof. destruct s; cbn; lia. Qed.

Lemma sections_walked fuel pre sections name :
  Forall well_formed sections → length (mjoin (encode_section <$> sections)) ≤ fuel →
  section_loop fuel (pre ++ mjoin (encode_section <$> sections)) name (Z.of_nat (length pre)) =
  Ok (head (omap (payload_of name) sections)).
Proof.
  intros Hall. revert fuel pre. induction Hall as [|s sections Hs _ IH]; intros fuel pre Hf.
  - cbn. rewrite app_nil_r. destruct fuel; cbn [section_loop];
      (destruct (Z.ltb_spec (Z.of_nat (length pre)) (Z.of_nat (length pre))); [lia|done]).
  - pose proof (encode_nonempty s). rewrite fmap_cons in *.
    change (mjoin (?x :: ?l)) with (x ++ mjoin l) in *. rewrite length_app in Hf. destruct fuel as [|fuel]; [lia|].
    rewrite section_step by done. cbn [omap list_omap]. destruct (payload_of name s) as [payload|]; [done|]. apply IH. lia.
Qed.

Lemma section_of_module version sections name :
  length version = 4 → Forall well_formed sections →
  findCustomSection (module_bytes version sections) name = Ok (head (omap (payload_of name) sections)).
Proof.
  intros Hv Hs. unfold findCustomSection, module_bytes.
  destruct version as [|v0 [|v1 [|v2 [|v3 [|]]]]]; try done. cbn [app length].
  change (_ <? 8) with false. cbn [orb readUInt32LE].
  change (negb _) with false. cbn iota.
  apply (sections_walked _ [0; 97; 115; 109; v0; v1; v2; v3]%Z); [done|]. lia.
Qed.

(** C27: In a WASM module findCustomSection finds the content of the first custom
    section of the name, and nothing when there is none; length fields may be
    padded as the format allows. *)
Theorem custom_section_found version sections name :
  length version = 4 → Forall well_formed sections →
  findCustomSection (module_bytes version sections) name = Ok (head (omap (payload_of name) sections)).
Proof. apply section_of_module. Qed.

(** A sixth digit is not refused: its count is taken modulo 32. *)
Lemma overlong_length_wraps :
  readVarUint32 [128; 128; 128; 128; 128; 1]%Z 0 = Ok (8, 6)%Z.
Proof. reflexivity. Qed.

(** A name that runs past its section, and a section that runs past the end, are
    not refused either. *)
Lemma cut_section_accepted :
  findCustomSection ([0; 97; 115; 109; 1; 0; 0; 0; 0; 100; 1; 97; 7]%Z) "a" = Ok (Some [7]%Z).
Proof. reflexivity. Qed.

Definition demo_module : list section :=
  [Standard 1 [131; 0]%Z [1; 2; 3]%Z;
   Custom [3]%Z [1]%Z (bytes_of "b") [9]%Z;
   Custom [132; 128; 0]%Z [1]%Z (bytes_of "a") [7; 8]%Z].

Lemma custom_section_found_witness :
  findCustomSection (module_bytes [1; 0; 0; 0]%Z demo_module) "a" = Ok (Some [7; 8]%Z).
Proof.
  rewrite (custom_section_found [1; 0; 0; 0]%Z demo_module "a"); [reflexivity|reflexivity|].
  repeat constructor; cbn; unfold uleb32; cbn; lia.
Defined.
