(* ===== verification/Discovery.v ===== *)
(** * Discovery of a contract's spec

    abi-registry/src/discovery/: xdrToSpec.ts, which maps the entries of the
    contractspecv0 section to descriptors, parseContractSpec.ts, which reads them
    from the section, discoverContract.ts and Sep48EmbeddedClient.ts, which fetch
    the code.  The entries are the values the Stellar SDK's XDR reader gives, as
    far as the mapping looks at them; the reader itself and the network are
    arguments.  Texts are ASCII. *)

From S2P Require Import Prelude JsMap JsValue Decimal CanonicalJson Spec Wasm.

(** ** XDR entries *)

Inductive ScSpecTypeDef :=
  | scBool | scVoid | scError | scVal | scU32 | scI32 | scU64 | scI64 | scTimepoint | scDuration
  | scU128 | scI128 | scU256 | scI256 | scBytes | scString | scSymbol | scAddress | scMuxedAddress
  | scOption (valueType : ScSpecTypeDef)
  | scResult (okType errorType : ScSpecTypeDef)
  | scVec (elementType : ScSpecTypeDef)
  | scMap (keyType valueType : ScSpecTypeDef)
  | scTuple (valueTypes : list ScSpecTypeDef)
  | scBytesN (n : Z)
  | scUdt (name : string)
  | scOther (name : string).   (** an arm the switch does not name *)

Record ScField := { x_name : string; x_type : ScSpecTypeDef; x_doc : string }.

Record ScSpecFunctionV0 := {
  xf_name : string;
  xf_doc : string;
  xf_inputs : list ScField;
  xf_outputs : list ScSpecTypeDef;
}.

Record ScCase := { xc_name : string; xc_doc : string; xc_value : Z }.

Inductive ScUnionCase :=
  | VoidCase (name doc : string)
  | TupleCase (name doc : string) (types : list ScSpecTypeDef).

Inductive ParamLocation := LocationData | LocationTopicList.

Record ScEventParam := { xp_field : ScField; xp_location : ParamLocation }.

Record ScSpecEventV0 := {
  xe_name : string;
  xe_doc : string;
  xe_prefixTopics : list string;
  xe_params : list ScEventParam;
}.

Inductive ScSpecEntry :=
  | FunctionV0 (fn : ScSpecFunctionV0)
  | UdtStructV0 (name doc : string) (fields : list ScField)
  | UdtUnionV0 (name doc : string) (cases : list ScUnionCase)
  | UdtEnumV0 (name doc : string) (cases : list ScCase)
  | UdtErrorEnumV0 (name doc : string) (cases : list ScCase)
  | EventV0 (event : ScSpecEventV0).

(** ** Mapping *)

Inductive DiscoveryError :=
  | UnsupportedSpecTypeError (name : string)
  | NoEmbeddedSpecError
  | InvalidWasm (e : WasmError)
  | XdrError.

(** [doc ? { doc } : {}] *)
Definition optionalDoc (doc : string) : option string :=
  if String.eqb doc "" then None else Some doc.

Fixpoint mapTypeDef (t : ScSpecTypeDef) : result DiscoveryError TypeSpec :=
  match t with
  | scBool => Ok (TPrimitive Pbool)
  | scVoid => Ok (TPrimitive Pvoid)
  | scU32 => Ok (TPrimitive Pu32)
  | scI32 => Ok (TPrimitive Pi32)
  | scU64 => Ok (TPrimitive Pu64)
  | scI64 => Ok (TPrimitive Pi64)
  | scU128 => Ok (TPrimitive Pu128)
  | scI128 => Ok (TPrimitive Pi128)
  | scU256 => Ok (TPrimitive Pu256)
  | scI256 => Ok (TPrimitive Pi256)
  | scBytes => Ok (TPrimitive Pbytes)
  | scString => Ok (TPrimitive Pstring)
  | scSymbol => Ok (TPrimitive Psymbol)
  | scAddress => Ok (TPrimitive Paddress)
  | scTimepoint | scDuration => Ok (TPrimitive Pu64)
  | scMuxedAddress => Ok (TPrimitive Paddress)
  | scOption t => TOption <$> mapTypeDef t
  | scResult ok err => ok ← mapTypeDef ok; err ← mapTypeDef err; Ok (TResult ok err)
  | scVec t => TVec <$> mapTypeDef t
  | scMap key value => key ← mapTypeDef key; value ← mapTypeDef value; Ok (TMap key value)
  | scTuple types =>
      elements ← mapM mapTypeDef types;
      Ok (match elements with [] => TPrimitive Pvoid | _ => TTuple elements end)
  | scBytesN n => Ok (TBytesN n)
  | scUdt name => Ok (TNamed name)
  | scError => Ok (TPrimitive Perror)
  | scVal => Ok (TPrimitive Pval)
  | scOther name => Err (UnsupportedSpecTypeError name)
  end.

Definition mapField (f : ScField) : result DiscoveryError FieldSpec :=
  type ← mapTypeDef (x_type f);
  Ok {| fs_name := x_name f; fs_type := type; fs_doc := optionalDoc (x_doc f) |}.

Definition returns_of (outputs : list ScSpecTypeDef) : result DiscoveryError TypeSpec :=
  match outputs with
  | [] => Ok (TPrimitive Pvoid)
  | [t] => mapTypeDef t
  | _ => TTuple <$> mapM mapTypeDef outputs
  end.

Definition mapFunctionV0 (fn : ScSpecFunctionV0) : result DiscoveryError FunctionSpec :=
  returns ← returns_of (xf_outputs fn);
  params ← mapM mapField (xf_inputs fn);
  Ok {| fn_name := xf_name fn; fn_doc := optionalDoc (xf_doc fn); fn_params := params; fn_returns := returns |}.

Definition mapUdtStructV0 (name doc : string) (fields : list ScField) : result DiscoveryError UserDefinedType :=
  UStruct name (optionalDoc doc) <$> mapM mapField fields.

Definition variant_of (c : ScCase) : EnumVariantSpec :=
  {| va_name := xc_name c; va_doc := optionalDoc (xc_doc c); va_discriminant := xc_value c; va_value := None |}.

Definition mapUdtEnumV0 (name doc : string) (cases : list ScCase) : UserDefinedType :=
  UEnum name (optionalDoc doc) (variant_of <$> cases).

Definition mapUdtErrorEnumV0 (name doc : string) (cases : list ScCase) : UserDefinedType :=
  UEnum name (optionalDoc doc) (variant_of <$> cases).

Definition position_name (prefix : string) (i : nat) : string := prefix +:+ pretty i.

Definition positional_fields (types : list ScSpecTypeDef) : result DiscoveryError (list FieldSpec) :=
  mapM (λ p : nat * ScSpecTypeDef, type ← mapTypeDef p.2; Ok {| fs_name := position_name "_" p.1; fs_type := type; fs_doc := None |})
    (imap pair types).

Definition mapUnionCase (c : ScUnionCase) : result DiscoveryError UnionCaseSpec :=
  match c with
  | VoidCase name doc => Ok {| ca_name := name; ca_doc := optionalDoc doc; ca_fields := [] |}
  | TupleCase name doc types =>
      fields ← positional_fields types;
      Ok {| ca_name := name; ca_doc := optionalDoc doc; ca_fields := fields |}
  end.

Definition mapUdtUnionV0 (name doc : string) (cases : list ScUnionCase) : result DiscoveryError UserDefinedType :=
  UUnion name (optionalDoc doc) <$> mapM mapUnionCase cases.

Definition prefix_field (i : nat) (raw : string) : FieldSpec :=
  {| fs_name := if i =? 0 then "event_name" else position_name "prefix_topic_" i;
     fs_type := TPrimitive Psymbol;
     fs_doc := Some ("Fixed prefix topic, always " +:+ String quote (raw +:+ String quote ".")) |}.

Definition in_topics (p : ScEventParam) : bool :=
  match xp_location p with LocationTopicList => true | LocationData => false end.

Definition mapEventV0 (event : ScSpecEventV0) : result DiscoveryError EventSpec :=
  topics ← mapM (λ p, mapField (xp_field p)) (List.filter in_topics (xe_params event));
  data ← mapM (λ p, mapField (xp_field p)) (List.filter (λ p, negb (in_topics p)) (xe_params event));
  Ok {| ev_name := xe_name event; ev_doc := optionalDoc (xe_doc event);
        ev_topics := imap prefix_field (xe_prefixTopics event) ++ topics; ev_data := data |}.

Record MappedEntries := {
  m_functions : list FunctionSpec;
  m_events : list EventSpec;
  m_types : jsmap string UserDefinedType;
}.

Definition no_entries : MappedEntries := {| m_functions := []; m_events := []; m_types := [] |}.

(** [types[udt.name] = udt]; the name __proto__ sets the prototype of the object
    and makes no member. *)
Definition add_type (udt : UserDefinedType) (m : MappedEntries) : MappedEntries :=
  {| m_functions := m_functions m; m_events := m_events m;
     m_types := if String.eqb (udt_name udt) "__proto__" then m_types m else mset (udt_name udt) udt (m_types m) |}.

Definition mapSpecEntry (m : MappedEntries) (entry : ScSpecEntry) : result DiscoveryError MappedEntries :=
  match entry with
  | FunctionV0 fn =>
      fn ← mapFunctionV0 fn;
      Ok {| m_functions := m_functions m ++ [fn]; m_events := m_events m; m_types := m_types m |}
  | EventV0 event =>
      event ← mapEventV0 event;
      Ok {| m_functions := m_functions m; m_events := m_events m ++ [event]; m_types := m_types m |}
  | UdtStructV0 name doc fields => udt ← mapUdtStructV0 name doc fields; Ok (add_type udt m)
  | UdtEnumV0 name doc cases => Ok (add_type (mapUdtEnumV0 name doc cases) m)
  | UdtErrorEnumV0 name doc cases => Ok (add_type (mapUdtErrorEnumV0 name doc cases) m)
  | UdtUnionV0 name doc cases => udt ← mapUdtUnionV0 name doc cases; Ok (add_type udt m)
  end.

Fixpoint mapEntriesFrom (m : MappedEntries) (entries : list ScSpecEntry) : result DiscoveryError MappedEntries :=
  match entries with
  | [] => Ok m
  | e :: entries => m ← mapSpecEntry m e; mapEntriesFrom m entries
  end.

Definition mapSpecEntries (entries : list ScSpecEntry) : result DiscoveryError MappedEntries :=
  mapEntriesFrom no_entries entries.

(** ** Reading the section *)

(** The XDR reader of the SDK: [read_entry] takes one entry off the bytes that
    are left, [to_base64] is [entry.toXDR("base64")]. *)
Class XdrReader := {
  read_entry : list Z → option (ScSpecEntry * list Z);
  to_base64 : ScSpecEntry → string;
}.

(** What is relied on: the entries the format can express are written one after
    another, none is empty, and a read gives the one that was written. *)
Class XdrFormat (R : XdrReader) := {
  in_format : ScSpecEntry → Prop;
  entry_bytes : ScSpecEntry → list Z;
  entry_not_empty e : in_format e → 0 < length (entry_bytes e);
  entry_read e rest : in_format e → read_entry (entry_bytes e ++ rest) = Some (e, rest);
  entry_consumed bytes e rest : read_entry bytes = Some (e, rest) → length rest < length bytes;
}.

Record ParsedWasmSpec := {
  p_mapped : MappedEntries;
  p_xdrEntries : list string;
}.

Section discovery.
Context {R : XdrReader}.

(** [while (!reader.eof) entries.push(read(reader))]; a read takes a byte at
    least, so that the fuel is enough. *)
Fixpoint read_entries (fuel : nat) (bytes : list Z) : option (list ScSpecEntry) :=
  match bytes, fuel with
  | [], _ => Some []
  | _, O => None
  | _, S fuel => p ← read_entry bytes; entries ← read_entries fuel p.2; Some (p.1 :: entries)
  end.

Definition parseWasmSpec (wasm : list Z) : result DiscoveryError ParsedWasmSpec :=
  match findCustomSection wasm "contractspecv0" with
  | Err e => Err (InvalidWasm e)
  | Ok None => Err NoEmbeddedSpecError
  | Ok (Some payload) =>
      match read_entries (length payload) payload with
      | None => Err XdrError
      | Some entries =>
          mapped ← mapSpecEntries entries;
          Ok {| p_mapped := mapped; p_xdrEntries := to_base64 <$> entries |}
      end
  end.

Definition spec_found (contractId : string) (network : option string) (parsed : ParsedWasmSpec) : ContractSpec :=
  {| sp_version := "0.0.0"; sp_name := contractId; sp_description := None; sp_contractId := Some contractId;
     sp_network := network; sp_functions := m_functions (p_mapped parsed); sp_events := m_events (p_mapped parsed);
     sp_types := m_types (p_mapped parsed); sp_xdrEntries := Some (p_xdrEntries parsed); sp_pointer := None |}.

(** [fetched] is what fetchContractWasm answers, [None] when it rejects; an
    empty network is left out. *)
Definition discoverContractSpec (contractId : string) (network : option string) (fetched : option (list Z))
    : result DiscoveryError ContractSpec :=
  match fetched with
  | None => Err NoEmbeddedSpecError
  | Some wasm =>
      parsed ← parseWasmSpec wasm;
      Ok (spec_found contractId (n ← network; optionalDoc n) parsed)
  end.

(** Sep48EmbeddedClient.getSpec *)
Definition sep48_getSpec (contractId : string) (fetched : option (list Z)) : option ContractSpec :=
  wasm ← fetched;
  match parseWasmSpec wasm with
  | Ok parsed => match m_events (p_mapped parsed) with [] => None | _ => Some (spec_found contractId None parsed) end
  | Err _ => None
  end.
End discovery.

(** ** The objects the descriptors are *)

Definition doc_member (doc : option string) : list (string * jsval) :=
  match doc with Some d => [("doc", JStr d)] | None => [] end.

Fixpoint type_json (t : TypeSpec) : jsval :=
  match t with
  | TPrimitive p => JStr (primitive_name p)
  | TBytesN n => JObj [("type", JStr "bytes_n"); ("size", JNum (jint n))]
  | TOption t => JObj [("type", JStr "option"); ("inner", type_json t)]
  | TResult t u => JObj [("type", JStr "result"); ("ok", type_json t); ("err", type_json u)]
  | TVec t => JObj [("type", JStr "vec"); ("item", type_json t)]
  | TMap t u => JObj [("type", JStr "map"); ("key", type_json t); ("value", type_json u)]
  | TTuple l => JObj [("type", JStr "tuple"); ("elements", JArr (List.map type_json l))]
  | TNamed s => JObj [("type", JStr "named"); ("name", JStr s)]
  end.

Definition field_json (f : FieldSpec) : jsval :=
  JObj ([("name", JStr (fs_name f)); ("type", type_json (fs_type f))] ++ doc_member (fs_doc f)).
Definition function_json (fn : FunctionSpec) : jsval :=
  JObj ([("name", JStr (fn_name fn))] ++ doc_member (fn_doc fn) ++
    [("params", JArr (field_json <$> fn_params fn)); ("returns", type_json (fn_returns fn))]).
Definition event_json (ev : EventSpec) : jsval :=
  JObj ([("name", JStr (ev_name ev))] ++ doc_member (ev_doc ev) ++
    [("topics", JArr (field_json <$> ev_topics ev)); ("data", JArr (field_json <$> ev_data ev))]).

Definition variant_json (v : EnumVariantSpec) : jsval :=
  JObj ([("name", JStr (va_name v))] ++ doc_member (va_doc v) ++ [("discriminant", JNum (jint (va_discriminant v)))]).
Definition case_json (c : UnionCaseSpec) : jsval :=
  JObj ([("name", JStr (ca_name c))] ++ doc_member (ca_doc c) ++ [("fields", JArr (field_json <$> ca_fields c))]).
Definition udt_json (u : UserDefinedType) : jsval :=
  match u with
  | UStruct name doc fields =>
      JObj ([("kind", JStr "struct"); ("name", JStr name)] ++ doc_member doc ++ [("fields", JArr (field_json <$> fields))])
  | UEnum name doc variants =>
      JObj ([("kind", JStr "enum"); ("name", JStr name)] ++ doc_member doc ++ [("variants", JArr (variant_json <$> variants))])
  | UUnion name doc cases =>
      JObj ([("kind", JStr "union"); ("name", JStr name)] ++ doc_member doc ++ [("cases", JArr (case_json <$> cases))])
  end.

(** The literal of discoverContractSpec. *)
Definition spec_json (s : ContractSpec) : jsval :=
  JObj ([("version", JStr (sp_version s)); ("name", JStr (sp_name s))] ++
    match sp_contractId s with Some id => [("contractId", JStr id)] | None => [] end ++
    match sp_network s with Some n => [("network", JStr n)] | None => [] end ++
    [("functions", JArr (function_json <$> sp_functions s));
     ("events", JArr (event_json <$> sp_events s));
     ("types", JObj (prod_map id udt_json <$> sp_types s))] ++
    match sp_xdrEntries s with Some l => [("xdrEntries", JArr (JStr <$> l))] | None => [] end).

(** Reading them gives the descriptors back. *)
Lemma type_json_read t : type_of (type_json t) = Some t.
Proof.
  induction t as [p|n|t IH|t u IH IHu|t IH|t u IH IHu|l IH|s] using TypeSpec_nested_ind; cbn.
  - by destruct p.
  - rewrite Z.mod_1_r. cbn. by rewrite Z.div_1_r.
  - by rewrite IH.
  - by rewrite IH, IHu.
  - by rewrite IH.
  - by rewrite IH, IHu.
  - assert (mapM type_of (List.map type_json l) = Some l) as ->; [|done].
    induction IH as [|t l Ht _ IH]; [done|]. cbn. by rewrite Ht, IH.
  - done.
Qed.

Lemma list_json_read {A} (f : jsval → option A) (g : A → jsval) (l : list A) :
  (∀ x, f (g x) = Some x) → list_of f (JArr (g <$> l)) = Some l.
Proof.
  intros Hf. unfold list_of. cbn. induction l as [|x l IH]; [done|]. cbn. by rewrite Hf, IH.
Qed.

Lemma field_json_read f : field_of (field_json f) = Some f.
Proof. destruct f as [name type [doc|]]; unfold field_of; cbn; by rewrite type_json_read. Qed.

Lemma function_json_read fn : function_of (function_json fn) = Some fn.
Proof.
  destruct fn as [name [doc|] params returns]; unfold function_of, prop;
    cbn -[list_of]; by rewrite (list_json_read _ _ _ field_json_read), type_json_read.
Qed.

Lemma event_json_read ev : event_of (event_json ev) = Some ev.
Proof.
  destruct ev as [name [doc|] topics data]; unfold event_of, prop;
    cbn -[list_of]; by rewrite !(list_json_read _ _ _ field_json_read).
Qed.

(** ** Reading all entries *)

Section reading.
Context {R : XdrReader} {F : XdrFormat R}.

Lemma read_entries_all entries fuel :
  Forall in_format entries → length (mjoin (entry_bytes <$> entries)) ≤ fuel →
  read_entries fuel (mjoin (entry_bytes <$> entries)) = Some entries.
Proof.
  intros Hall. revert fuel. induction Hall as [|e entries Hin Hall IH]; intros fuel Hf; [by destruct fuel|].
  rewrite fmap_cons in *. change (mjoin (?x :: ?l)) with (x ++ mjoin l) in *.
  pose proof (entry_not_empty e Hin) as He. rewrite length_app in Hf.
  destruct fuel as [|fuel]; [lia|]. cbn [read_entries].
  destruct (entry_bytes e ++ mjoin (entry_bytes <$> entries)) eqn:Hb.
  { apply (f_equal length) in Hb. rewrite length_app in Hb. cbn in Hb. lia. }
  rewrite <-Hb, entry_read by done. cbn. rewrite IH by lia. done.
Qed.

(** The fuel of parseWasmSpec is enough: more changes nothing. *)
Lemma read_entries_fuel fuel fuel' bytes :
  length bytes ≤ fuel → length bytes ≤ fuel' → read_entries fuel bytes = read_entries fuel' bytes.
Proof.
  revert fuel' bytes. induction fuel as [|fuel IH]; intros [|fuel'] [|b bytes] Hf Hf'; cbn in Hf, Hf'; try lia; try done.
  cbn [read_entries]. destruct (read_entry (b :: bytes)) as [[e rest]|] eqn:He; [|done]. cbn.
  apply entry_consumed in He. cbn in He. rewrite (IH fuel') by lia. done.
Qed.

Lemma parse_module version sections entries :
  length version = 4 → Forall well_formed sections → Forall in_format entries →
  head (omap (payload_of "contractspecv0") sections) = Some (mjoin (entry_bytes <$> entries)) →
  parseWasmSpec (module_bytes version sections) =
  (mapped ← mapSpecEntries entries; Ok {| p_mapped := mapped; p_xdrEntries := to_base64 <$> entries |}).
Proof.
  intros Hv Hs Hin Hp. unfold parseWasmSpec. rewrite section_of_module, Hp by done. by rewrite read_entries_all.
Qed.
End reading.

(** ** What is discovered *)

(** No arm the switch does not name. *)
Fixpoint known_type (t : ScSpecTypeDef) : bool :=
  match t with
  | scOption t | scVec t => known_type t
  | scResult t u | scMap t u => known_type t && known_type u
  | scTuple l => forallb known_type l
  | scOther _ => false
  | _ => true
  end.

Definition known_field (f : ScField) : bool := known_type (x_type f).

Definition known_entry (e : ScSpecEntry) : bool :=
  match e with
  | FunctionV0 fn => forallb known_field (xf_inputs fn) && forallb known_type (xf_outputs fn)
  | UdtStructV0 _ _ fields => forallb known_field fields
  | UdtUnionV0 _ _ cases => forallb (λ c, match c with TupleCase _ _ types => forallb known_type types | VoidCase _ _ => true end) cases
  | EventV0 event => forallb (λ p, known_field (xp_field p)) (xe_params event)
  | UdtEnumV0 _ _ _ | UdtErrorEnumV0 _ _ _ => true
  end.

Definition function_in (e : ScSpecEntry) : option ScSpecFunctionV0 :=
  match e with FunctionV0 fn => Some fn | _ => None end.
Definition event_in (e : ScSpecEntry) : option ScSpecEventV0 :=
  match e with EventV0 event => Some event | _ => None end.
Definition udt_in (e : ScSpecEntry) : option (result DiscoveryError UserDefinedType) :=
  match e with
  | UdtStructV0 name doc fields => Some (mapUdtStructV0 name doc fields)
  | UdtUnionV0 name doc cases => Some (mapUdtUnionV0 name doc cases)
  | UdtEnumV0 name doc cases => Some (Ok (mapUdtEnumV0 name doc cases))
  | UdtErrorEnumV0 name doc cases => Some (Ok (mapUdtErrorEnumV0 name doc cases))
  | _ => None
  end.

(** The definition that counts: the last of its name. *)
Definition last_named (name : string) (udts : list UserDefinedType) : option UserDefinedType :=
  last (base.filter (λ u, udt_name u = name) udts).

Section ScSpecTypeDef_ind.
Context (P : ScSpecTypeDef → Prop).
Context (Hleaf : ∀ t, match t with scOption _ | scVec _ | scResult _ _ | scMap _ _ | scTuple _ => True | _ => P t end).
Context (Ho : ∀ t, P t → P (scOption t)) (Hv : ∀ t, P t → P (scVec t)).
Context (Hr : ∀ t u, P t → P u → P (scResult t u)) (Hm : ∀ t u, P t → P u → P (scMap t u)).
Context (Ht : ∀ l, Forall P l → P (scTuple l)).

Fixpoint ScSpecTypeDef_nested_ind (t : ScSpecTypeDef) : P t :=
  match t return P t with
  | scOption t => Ho t (ScSpecTypeDef_nested_ind t)
  | scVec t => Hv t (ScSpecTypeDef_nested_ind t)
  | scResult t u => Hr t u (ScSpecTypeDef_nested_ind t) (ScSpecTypeDef_nested_ind u)
  | scMap t u => Hm t u (ScSpecTypeDef_nested_ind t) (ScSpecTypeDef_nested_ind u)
  | scTuple l => Ht l ((fix go l : Forall P l := match l with
      | [] => Forall_nil_2 P | x :: l => Forall_cons_2 P x l (ScSpecTypeDef_nested_ind x) (go l) end) l)
  | t => Hleaf t
  end.
End ScSpecTypeDef_ind.

Lemma mapM_all_ok {E A B} (f : A → result E B) (ok : A → bool) (l : list A) :
  (∀ x, x ∈ l → ok x = true → is_ok (f x) = true) → forallb ok l = true → is_ok (mapM f l) = true.
Proof.
  induction l as [|x l IH]; [done|]. cbn [forallb mapM]. intros Hf [Hx Hl]%andb_true_iff.
  specialize (Hf x) as Hfx. destruct (f x) as [y|e]; cbn; [|apply Hfx; [left|done]].
  destruct (mapM f l) as [k|e]; cbn; [done|]. apply IH; [|done]. intros z Hz. apply Hf. by right.
Qed.

Lemma map_total_bind {E A B} (r : result E A) (f : A → result E B) :
  is_ok r = true → (∀ a, r = Ok a → is_ok (f a) = true) → is_ok (r ≫= f) = true.
Proof. destruct r; cbn; eauto. Qed.

Lemma is_ok_fmap {E A B} (g : A → B) (r : result E A) : is_ok (g <$> r) = is_ok r.
Proof. by destruct r. Qed.

Lemma known_type_mapped t : known_type t = true → is_ok (mapTypeDef t) = true.
Proof.
  revert t. apply (ScSpecTypeDef_nested_ind (λ t, known_type t = true → is_ok (mapTypeDef t) = true)); [by intros []|intros t IH|intros t IH|intros t u IH IHu|intros t u IH IHu|intros l IH];
    cbn [known_type mapTypeDef]; rewrite ?andb_true_iff, ?is_ok_fmap; intros.
  - by apply IH.
  - by apply IH.
  - destruct_and?. apply map_total_bind; [by apply IH|]. intros; apply map_total_bind; [by apply IHu|done].
  - destruct_and?. apply map_total_bind; [by apply IH|]. intros; apply map_total_bind; [by apply IHu|done].
  - apply map_total_bind; [|done]. apply (mapM_all_ok _ known_type); [|done].
    intros t Hin. rewrite Forall_forall in IH. by apply IH.
Qed.

Lemma known_field_mapped f : known_field f = true → is_ok (mapField f) = true.
Proof. intros Hf. apply map_total_bind; [by apply known_type_mapped|done]. Qed.

Lemma known_params_mapped l (f : ScEventParam → bool) :
  forallb (λ p, known_field (xp_field p)) l = true → is_ok (mapM (λ p, mapField (xp_field p)) (List.filter f l)) = true.
Proof.
  intros Hl. apply (mapM_all_ok _ (λ p, known_field (xp_field p))).
  - intros p _. apply known_field_mapped.
  - rewrite forallb_forall in Hl |- *. intros p [Hp _]%filter_In. by apply Hl.
Qed.

Lemma positional_total types : forallb known_type types = true → is_ok (positional_fields types) = true.
Proof.
  intros Ht. unfold positional_fields. apply (mapM_all_ok _ (λ p : nat * ScSpecTypeDef, known_type p.2)).
  - intros [i t] _ Hk. apply map_total_bind; [by apply known_type_mapped|done].
  - rewrite forallb_forall in Ht |- *. intros [i t] Hin. apply Ht. cbn. apply list_elem_of_In in Hin.
    apply elem_of_lookup_imap in Hin as (j & y & [= -> ->] & Hy). apply list_elem_of_In. by eapply list_elem_of_lookup_2.
Qed.

Lemma known_entry_mapped m e : known_entry e = true → is_ok (mapSpecEntry m e) = true.
Proof.
  destruct e as [fn|name doc fields|name doc cases|name doc cases|name doc cases|event]; cbn [known_entry mapSpecEntry]; try done.
  - intros [Hi Ho]%andb_true_iff. apply map_total_bind; [|done]. apply map_total_bind.
    + unfold returns_of. destruct (xf_outputs fn) as [|t [|t' l]]; [done| |].
      * cbn in Ho. rewrite andb_true_r in Ho. by apply known_type_mapped.
      * rewrite is_ok_fmap. apply (mapM_all_ok _ known_type); [|done]. intros ? _. apply known_type_mapped.
    + intros r _. apply map_total_bind; [|done]. apply (mapM_all_ok _ known_field); [|done]. intros ? _. apply known_field_mapped.
  - intros Hf. apply map_total_bind; [|done]. unfold mapUdtStructV0. rewrite is_ok_fmap.
    apply (mapM_all_ok _ known_field); [|done]. intros ? _. apply known_field_mapped.
  - intros Hc. apply map_total_bind; [|done]. unfold mapUdtUnionV0. rewrite is_ok_fmap.
    eapply mapM_all_ok; [|exact Hc]. intros [n d|n d types] _ Hk; [done|].
    apply map_total_bind; [by apply positional_total|done].
  - intros Hp. apply map_total_bind; [|done]. unfold mapEventV0.
    apply map_total_bind; [by apply known_params_mapped|]. intros t _.
    apply map_total_bind; [by apply known_params_mapped|done].
Qed.

Lemma entries_total m entries : forallb known_entry entries = true → is_ok (mapEntriesFrom m entries) = true.
Proof.
  revert m. induction entries as [|e entries IH]; intros m; [done|]. cbn [forallb mapEntriesFrom].
  intros [He Hl]%andb_true_iff. apply map_total_bind; [by apply known_entry_mapped|]. intros m' _. by apply IH.
Qed.

Lemma last_named_cons name u udts :
  last_named name (u :: udts) = match last_named name udts with
    | Some v => Some v
    | None => if decide (udt_name u = name) then Some u else None
    end.
Proof.
  unfold last_named. rewrite filter_cons. case_decide; [|by destruct (last _)].
  rewrite last_cons. by destruct (last _).
Qed.

Definition types_after (m : jsmap string UserDefinedType) (udts : list UserDefinedType) (name : string) : option UserDefinedType :=
  if String.eqb name "__proto__" then mget name m
  else match last_named name udts with Some u => Some u | None => mget name m end.

Lemma types_after_add m u udts name : types_after (m_types (add_type u m)) udts name = types_after (m_types m) (u :: udts) name.
Proof.
  unfold types_after, add_type. rewrite last_named_cons. cbn.
  destruct (String.eqb_spec name "__proto__") as [->|Hn].
  - destruct (String.eqb_spec (udt_name u) "__proto__") as [Hu|Hu]; [done|]. by rewrite mget_mset_ne.
  - destruct (last_named name udts); [done|]. destruct (String.eqb_spec (udt_name u) "__proto__") as [Hu|Hu].
    + by rewrite decide_False by congruence.
    + rewrite mget_mset. by case_decide.
Qed.

Definition mapped_from (m : MappedEntries) (entries : list ScSpecEntry) (m' : MappedEntries) : Prop :=
  (∃ fs, mapM mapFunctionV0 (omap function_in entries) = Ok fs ∧ m_functions m' = m_functions m ++ fs) ∧
  (∃ evs, mapM mapEventV0 (omap event_in entries) = Ok evs ∧ m_events m' = m_events m ++ evs) ∧
  (∃ udts, mapM id (omap udt_in entries) = Ok udts ∧ ∀ name, mget name (m_types m') = types_after (m_types m) udts name).

Lemma entries_mapped m entries m' : mapEntriesFrom m entries = Ok m' → mapped_from m entries m'.
Proof.
  revert m. induction entries as [|e entries IH]; intros m; cbn [mapEntriesFrom].
  - intros [= <-]. split_and!; [exists []; by rewrite app_nil_r|exists []; by rewrite app_nil_r|].
    exists []. split; [done|]. intros name. unfold types_after. by case_match.
  - intros (m1 & He & Hm)%result_bind_Ok.
    apply IH in Hm as ((fs & Hfs & Hf) & (evs & Hevs & Hev) & udts & Hudts & Ht).
    assert (∀ u, udt_in e = Some (Ok u) → m1 = add_type u m → mapped_from m (e :: entries) m') as Hudt.
    { intros u Hu ->. assert (function_in e = None ∧ event_in e = None) as [Hnf Hne] by (by destruct e).
      unfold mapped_from. cbn [omap list_omap]. rewrite Hu, Hnf, Hne. split_and!; [by exists fs|by exists evs|].
      exists (u :: udts). cbn. rewrite Hudts. split; [done|]. intros name. by rewrite Ht, types_after_add. }
    destruct e as [fn|name doc fields|name doc cases|name doc cases|name doc cases|event]; cbn [mapSpecEntry] in He;
      try (by injection He as <-; eapply Hudt);
      apply result_bind_Ok in He as (x & Hx & [= <-]); try (by eapply Hudt; [cbn; by rewrite Hx|]);
      unfold mapped_from; cbn [omap list_omap function_in event_in udt_in mapM m_functions m_events m_types] in *;
      rewrite Hx, ?Hfs, ?Hevs; split_and!; eauto;
      eexists; (split; [reflexivity|]); by rewrite ?Hf, ?Hev, <-app_assoc.
Qed.

(** C28: Of a module whose first contractspecv0 section is a sequence of entries
    with known types, discoverContractSpec answers with every function and every
    event, in order, the last definition of every type name but __proto__, and
    every entry's own text. *)
Theorem discovery_exact {R : XdrReader} {F : XdrFormat R} version sections entries contractId network :
  length version = 4 → Forall well_formed sections → Forall in_format entries →
  head (omap (payload_of "contractspecv0") sections) = Some (mjoin (entry_bytes <$> entries)) →
  forallb known_entry entries = true →
  ∃ spec, discoverContractSpec contractId network (Some (module_bytes version sections)) = Ok spec ∧
    sp_contractId spec = Some contractId ∧
    mapM mapFunctionV0 (omap function_in entries) = Ok (sp_functions spec) ∧
    mapM mapEventV0 (omap event_in entries) = Ok (sp_events spec) ∧
    (∃ udts, mapM id (omap udt_in entries) = Ok udts ∧
      ∀ name, mget name (sp_types spec) = if String.eqb name "__proto__" then None else last_named name udts) ∧
    sp_xdrEntries spec = Some (to_base64 <$> entries).
Proof.
  intros Hv Hs Hin Hp Hk. unfold discoverContractSpec. rewrite (parse_module _ _ entries) by done.
  unfold mapSpecEntries. destruct (mapEntriesFrom no_entries entries) as [m|e] eqn:Hm; cbn.
  2: { apply (entries_total no_entries) in Hk. by rewrite Hm in Hk. }
  eexists. split; [done|]. cbn.
  apply entries_mapped in Hm as ((fs & Hfs & ->) & (evs & Hevs & ->) & udts & Hudts & Ht).
  split_and!; try done. exists udts. split; [done|]. intros name. rewrite Ht. unfold types_after.
  case_match; [done|]. by destruct (last_named _ _).
Qed.

(** ** Discovered specs and validation *)

(** What Rust contracts can contain and the validation refuses: tuples of one
    element, byte arrays of no byte. *)
Fixpoint sound_type (t : ScSpecTypeDef) : bool :=
  match t with
  | scOption t | scVec t => sound_type t
  | scResult t u | scMap t u => sound_type t && sound_type u
  | scTuple l => negb (length l =? 1) && forallb sound_type l
  | scBytesN n => (1 <=? n)%Z
  | scUdt name => negb (String.eqb name "")
  | _ => true
  end.

Definition sound_field (f : ScField) : bool := IDENTIFIER_RE (x_name f) && sound_type (x_type f).

Definition sound_entry (e : ScSpecEntry) : bool :=
  match e with
  | FunctionV0 fn => IDENTIFIER_RE (xf_name fn) && forallb sound_field (xf_inputs fn) && forallb sound_type (xf_outputs fn)
  | EventV0 event => negb (String.eqb (xe_name event) "") && forallb (λ p, sound_field (xp_field p)) (xe_params event)
  | _ => true
  end.

(** [ok] of what is mapped is [ok'] of what it is mapped from. *)
Lemma mapM_forallb {E A B} (f : A → result E B) (ok : B → bool) (ok' : A → bool) l k :
  (∀ x y, x ∈ l → f x = Ok y → ok y = ok' x) → mapM f l = Ok k → forallb ok k = forallb ok' l.
Proof.
  revert k. induction l as [|x l IH]; intros k Hf; cbn [mapM].
  - by intros [= <-].
  - intros (y & Hy & (k' & Hk & [= <-])%result_bind_Ok)%result_bind_Ok. cbn [forallb].
    rewrite (Hf x y) by (try done; left). f_equal. apply IH; [|done]. intros ? ? Hin. apply Hf. by right.
Qed.

Lemma mapM_length {E A B} (f : A → result E B) l k : mapM f l = Ok k → length k = length l.
Proof.
  revert k. induction l as [|x l IH]; intros k; cbn [mapM].
  - by intros [= <-].
  - intros (y & Hy & (k' & Hk & [= <-])%result_bind_Ok)%result_bind_Ok. cbn. f_equal. by apply IH.
Qed.

Lemma fmap_inv {E A B} (g : A → B) (r : result E A) b : g <$> r = Ok b → ∃ a, r = Ok a ∧ b = g a.
Proof. destruct r; cbn; naive_solver. Qed.

Lemma tuple_sound l k :
  mapM mapTypeDef l = Ok k → Forall (λ t, ∀ u, mapTypeDef t = Ok u → wf_type u = sound_type t) l →
  forallb wf_type k = forallb sound_type l.
Proof.
  intros Hk Hl. apply (mapM_forallb mapTypeDef); [|done]. rewrite Forall_forall in Hl. intros t u Hin. by apply Hl.
Qed.

Lemma mapped_type_sound t u : mapTypeDef t = Ok u → wf_type u = sound_type t.
Proof.
  revert t u. apply (ScSpecTypeDef_nested_ind (λ t, ∀ u, mapTypeDef t = Ok u → wf_type u = sound_type t));
    [intros t|intros t IH|intros t IH|intros t t' IH IH'|intros t t' IH IH'|intros l IH].
  - destruct t; try done; cbn; by intros ? [= <-].
  - intros u. cbn [mapTypeDef]. intros (a & Ha & ->)%fmap_inv. cbn. by apply IH.
  - intros u. cbn [mapTypeDef]. intros (a & Ha & ->)%fmap_inv. cbn. by apply IH.
  - intros u. cbn. intros (a & Ha & (b & Hb & [= <-])%result_bind_Ok)%result_bind_Ok. cbn. by rewrite (IH _ Ha), (IH' _ Hb).
  - intros u. cbn. intros (a & Ha & (b & Hb & [= <-])%result_bind_Ok)%result_bind_Ok. cbn. by rewrite (IH _ Ha), (IH' _ Hb).
  - intros u. cbn [mapTypeDef sound_type]. intros (k & Hk & [= <-])%result_bind_Ok. pose proof (mapM_length _ _ _ Hk) as Hlen.
    pose proof (tuple_sound _ _ Hk IH) as Hall. destruct k as [|x [|y k]]; cbn [length] in Hlen; rewrite <-Hlen; cbn [wf_type].
    + by rewrite <-Hall.
    + done.
    + by rewrite Hall.
Qed.

Lemma mapped_field_sound f g : mapField f = Ok g → wf_field g = sound_field f.
Proof.
  unfold mapField. intros (t & Ht & [= <-])%result_bind_Ok. unfold wf_field, sound_field. cbn.
  by rewrite (mapped_type_sound _ _ Ht).
Qed.

Lemma mapped_function_sound fn g : mapFunctionV0 fn = Ok g → wf_function g = sound_entry (FunctionV0 fn).
Proof.
  unfold mapFunctionV0. intros (r & Hr & (ps & Hps & [= <-])%result_bind_Ok)%result_bind_Ok.
  unfold wf_function. cbn [fn_name fn_params fn_returns sound_entry].
  rewrite (mapM_forallb mapField _ sound_field _ _ (λ f g _, mapped_field_sound f g) Hps). f_equal.
  unfold returns_of in Hr. destruct (xf_outputs fn) as [|t [|t' l]].
  - by injection Hr as <-.
  - cbn. rewrite andb_true_r. by apply mapped_type_sound.
  - apply fmap_inv in Hr as (k & Hk & ->). pose proof (mapM_length _ _ _ Hk) as Hlen.
    cbn [wf_type]. destruct k as [|x [|y k]]; try done.
    apply (mapM_forallb mapTypeDef wf_type sound_type _ _ (λ t u _, mapped_type_sound t u) Hk).
Qed.

Lemma digits_identify s : all_digits s = true → all_chars (λ c, letter_char c || digit_char c) s = true.
Proof.
  induction s as [|c s IH]; [done|]. cbn [all_digits all_chars]. intros H.
  destruct (digit_val c) as [d|] eqn:Hd; [|done]. rewrite IH by done. unfold digit_char. rewrite Hd.
  rewrite bool_decide_true by done. by rewrite orb_true_r.
Qed.

Lemma prefix_field_sound i raw : wf_field (prefix_field i raw) = true.
Proof.
  unfold wf_field, prefix_field. cbn [fs_name fs_type wf_type]. rewrite andb_true_r.
  destruct (i =? 0); [done|]. change (all_chars (λ c, letter_char c || digit_char c) (pretty i) = true).
  apply digits_identify, (all_digits_pretty (N.of_nat i)).
Qed.

Lemma forallb_split {A} (f g : A → bool) l :
  forallb f (List.filter g l) && forallb f (List.filter (λ x, negb (g x)) l) = forallb f l.
Proof.
  induction l as [|x l IH]; [done|]. cbn [List.filter]. destruct (g x); cbn [negb forallb]; rewrite <-IH.
  - by rewrite andb_assoc.
  - by rewrite !andb_assoc, (andb_comm (f x)).
Qed.

Lemma mapped_event_sound event g : mapEventV0 event = Ok g → wf_event g = sound_entry (EventV0 event).
Proof.
  unfold mapEventV0. intros (ts & Hts & (ds & Hds & [= <-])%result_bind_Ok)%result_bind_Ok.
  unfold wf_event. cbn [ev_name ev_topics ev_data sound_entry]. rewrite forallb_app, <-andb_assoc. f_equal.
  assert (∀ n l, forallb wf_field (imap (λ i, prefix_field (n + i)) l) = true) as Hp.
  { intros n l. revert n. induction l as [|r l IH]; intros n; [done|]. cbn [imap forallb].
    rewrite prefix_field_sound. cbn. erewrite imap_ext; [apply (IH (S n))|]. intros i x _. cbn. f_equal. lia. }
  rewrite (Hp 0). cbn [andb].
  rewrite (mapM_forallb _ wf_field (λ p, sound_field (xp_field p)) _ _ (λ p g _, mapped_field_sound (xp_field p) g) Hts).
  rewrite (mapM_forallb _ wf_field (λ p, sound_field (xp_field p)) _ _ (λ p g _, mapped_field_sound (xp_field p) g) Hds).
  apply forallb_split.
Qed.

Lemma mapped_entries_sound entries m :
  mapSpecEntries entries = Ok m →
  forallb wf_function (m_functions m) && forallb wf_event (m_events m) = forallb sound_entry entries.
Proof.
  intros ((fs & Hfs & ->) & (evs & Hevs & ->) & _)%entries_mapped. cbn [no_entries m_functions m_events app].
  rewrite (mapM_forallb _ wf_function (λ fn, sound_entry (FunctionV0 fn)) _ _ (λ fn g _, mapped_function_sound fn g) Hfs).
  rewrite (mapM_forallb _ wf_event (λ ev, sound_entry (EventV0 ev)) _ _ (λ ev g _, mapped_event_sound ev g) Hevs).
  clear. induction entries as [|e entries IH]; [done|]. cbn [forallb]. rewrite <-IH.
  destruct e; cbn [omap list_omap function_in event_in forallb]; try done.
  - by rewrite <-andb_assoc.
  - by rewrite !andb_assoc, (andb_comm (sound_entry _)).
Qed.

Lemma contract_id_length s : CONTRACT_ID_RE s = true → String.length s = 56.
Proof.
  unfold CONTRACT_ID_RE. destruct s as [|c s]; [done|]. intros H.
  assert ((String.length s =? 55) = true) as Hs by (destruct c as [[] [] [] [] [] [] [] []]; try done; by apply andb_true_iff in H as [? _]).
  apply Nat.eqb_eq in Hs. cbn. lia.
Qed.

(** What discoverContractSpec answers with passes validateSpec exactly when
    the contract id has the form of one, the network is a known one, every
    function and parameter is named by an identifier, every event has a name, and
    no type in them is a tuple of one element, an array of no byte or unnamed. *)
Theorem discovered_validity {R : XdrReader} contractId network wasm spec entries :
  (∀ payload, findCustomSection wasm "contractspecv0" = Ok (Some payload) →
    read_entries (length payload) payload = Some entries) →
  discoverContractSpec contractId network (Some wasm) = Ok spec →
  validateSpec (spec_json spec) = [] ↔
  CONTRACT_ID_RE contractId = true ∧ (default "" network = "" ∨ default "" network ∈ NETWORKS) ∧
  forallb sound_entry entries = true.
Proof.
  intros Hr. cbn [discoverContractSpec]. intros (parsed & Hp & [= <-])%result_bind_Ok. unfold parseWasmSpec in Hp.
  destruct (findCustomSection wasm "contractspecv0") as [[payload|]|]; try done.
  rewrite (Hr _ eq_refl) in Hp. apply result_bind_Ok in Hp as (m & Hm & [= <-]).
  rewrite validateSpec_read, <-(mapped_entries_sound _ _ Hm), andb_true_iff.
  set (net := n ← network; optionalDoc n).
  assert ((default "" network = "" ∨ default "" network ∈ NETWORKS) ↔ (net = None ∨ ∃ n, net = Some n ∧ n ∈ NETWORKS)) as ->.
  { unfold net, optionalDoc. destruct network as [n|]; cbn; [|naive_solver].
    destruct (String.eqb_spec n ""); naive_solver. }
  unfold spec_found, header_ok. cbn [p_mapped p_xdrEntries]. generalize net. clear.
  intros net.
  set (v := spec_json _).
  assert (list_of function_of (prop v "functions") = Some (m_functions m)) as ->.
  { unfold v, spec_json. destruct net; apply (list_json_read _ _ _ function_json_read). }
  assert (list_of event_of (prop v "events") = Some (m_events m)) as ->.
  { unfold v, spec_json. destruct net; apply (list_json_read _ _ _ event_json_read). }
  assert (is_record v = true) as -> by done.
  assert (prop v "version" = JStr "0.0.0" ∧ prop v "name" = JStr contractId ∧ prop v "description" = JUndef ∧
    prop v "contractId" = JStr contractId ∧ (∃ fs, prop v "types" = JObj fs) ∧
    prop v "xdrEntries" = JArr (JStr <$> (to_base64 <$> entries)) ∧ prop v "pointer" = JUndef ∧
    prop v "network" = from_option JStr JUndef net) as (-> & -> & -> & -> & [fs ->] & -> & -> & ->).
  { destruct net; by repeat split; try (eexists; reflexivity). }
  pose proof (contract_id_length contractId) as Hlen.
  destruct net as [n|]; cbn [from_option]; naive_solver lia.
Qed.

(** ** Examples *)

(** [pub fn one(env: Env) -> (u32,)] *)
Definition one_tuple_function : ScSpecFunctionV0 :=
  {| xf_name := "one"; xf_doc := ""; xf_inputs := []; xf_outputs := [scTuple [scU32]] |}.
Definition demo_event : ScSpecEventV0 :=
  {| xe_name := "Transfer"; xe_doc := "moved"; xe_prefixTopics := ["transfer"];
     xe_params := [{| xp_field := {| x_name := "amount"; x_type := scI128; x_doc := "" |}; xp_location := LocationData |};
                   {| xp_field := {| x_name := "to"; x_type := scAddress; x_doc := "" |}; xp_location := LocationTopicList |}] |}.
Definition demo_enum (name : string) : ScSpecEntry := UdtEnumV0 name "" [{| xc_name := "A"; xc_doc := ""; xc_value := 0 |}].
Definition demo_entries : list ScSpecEntry := [EventV0 demo_event; demo_enum "E"; FunctionV0 one_tuple_function].

(** A reader of three entries. *)
#[local] Instance demo_reader : XdrReader := {|
  read_entry bytes := match bytes with
    | 1%Z :: rest => Some (EventV0 demo_event, rest)
    | 2%Z :: rest => Some (demo_enum "E", rest)
    | 3%Z :: rest => Some (FunctionV0 one_tuple_function, rest)
    | _ => None
    end;
  to_base64 e := match e with EventV0 _ => "AAAAAQ==" | UdtEnumV0 _ _ _ => "AAAAAg==" | _ => "AAAAAw==" end;
|}.

#[local] Instance demo_format : XdrFormat demo_reader.
Proof.
  refine {|
    in_format e := match e with EventV0 v => v = demo_event | UdtEnumV0 _ _ _ => e = demo_enum "E" | FunctionV0 f => f = one_tuple_function | _ => False end;
    entry_bytes e := match e with EventV0 _ => [1%Z] | UdtEnumV0 _ _ _ => [2%Z] | _ => [3%Z] end |}.
  - intros []; cbn; lia.
  - intros [fn|n d l|n d l|n d l|n d l|ev] rest; cbn; try done; [by intros ->|by intros [= -> -> ->]|by intros ->].
  - intros [|b bytes] e rest; cbn; [done|]. intros H.
    assert (rest = bytes) as -> by (destruct b as [|[[]|[]|]|]; cbn in H; naive_solver). lia.
Defined.

Definition demo_sections : list section :=
  [Custom [18]%Z [14]%Z (bytes_of "contractspecv0") [1; 2; 3]%Z].

(** A contract can have what the validation refuses. *)
Lemma one_tuple_refused :
  ∃ spec, discoverContractSpec "CAAAAAAAAAAAAAAAAAAAAAAAAAAAAAAAAAAAAAAAAAAAAAAAAAAAAAAA" (Some "testnet")
      (Some (module_bytes [1; 0; 0; 0]%Z demo_sections)) = Ok spec ∧
    validateSpec (spec_json spec) = ["functions[0].returns.elements"].
Proof. eexists. split; vm_compute; reflexivity. Qed.

(** A type named __proto__ is lost. *)
Lemma proto_type_lost m : mapSpecEntries [demo_enum "__proto__"] = Ok m → m_types m = [].
Proof. by intros [= <-]. Qed.

(** Code that is no module is not taken for code without a spec. *)
Lemma bad_module_is_no_missing_spec id n : discoverContractSpec id n (Some []) = Err (InvalidWasm BadMagic).
Proof. reflexivity. Qed.

Lemma discovery_exact_witness :
  ∃ spec, discoverContractSpec "C" None (Some (module_bytes [1; 0; 0; 0]%Z demo_sections)) = Ok spec ∧
    ev_name <$> sp_events spec = ["Transfer"].
Proof.
  destruct (discovery_exact [1; 0; 0; 0]%Z demo_sections demo_entries "C" None) as (spec & Hs & _ & _ & Hev & _).
  - reflexivity.
  - repeat constructor; cbn; unfold uleb32; cbn; lia.
  - repeat constructor.
  - reflexivity.
  - reflexivity.
  - exists spec. split; [exact Hs|].
    assert (∃ evs, mapM mapEventV0 (omap event_in demo_entries) = Ok evs ∧ ev_name <$> evs = ["Transfer"]) as (evs & He & Hn)
      by (eexists; split; vm_compute; reflexivity).
    rewrite He in Hev. injection Hev as <-. exact Hn.
Defined.

Lemma discovered_validity_witness :
  ∃ spec, discoverContractSpec "CAAAAAAAAAAAAAAAAAAAAAAAAAAAAAAAAAAAAAAAAAAAAAAAAAAAAAAA" (Some "testnet")
      (Some (module_bytes [1; 0; 0; 0]%Z demo_sections)) = Ok spec ∧
    validateSpec (spec_json spec) ≠ [].
Proof.
  eexists. split; [vm_compute; reflexivity|]. intros Hv.
  eapply (discovered_validity _ (Some "testnet") (module_bytes [1; 0; 0; 0]%Z demo_sections) _ demo_entries) in Hv.
  - destruct Hv as (_ & _ & Hv). vm_compute in Hv. discriminate Hv.
  - intros payload Hp. vm_compute in Hp. injection Hp as <-. reflexivity.
  - vm_compute. reflexivity.
Defined.
