(* ===== verification/SchemaCheck.v ===== *)
(** * Schema verification

    abi-registry/src/verifySchema.ts: a submitted spec against the one in the
    contract's code, and verificationJob.ts with specStore.ts: the job that
    checks every registered spec, keeps the verdicts in the store of [Slo] and
    reports mismatches and turns.  The network, the issue reporter and the alert
    manager are what they answer. *)

From S2P Require Import Prelude JsMap JsValue Spec Wasm Discovery Slo.

(** ** Comparing types *)

(** [a.every((x, i) => f(x, b[i]))]; past the end of [b] nothing is equal. *)
Definition every_with {A B} (f : A → B → bool) : list A → list B → bool :=
  fix go l k :=
    match l with
    | [] => true
    | x :: l => match k with y :: k => f x y && go l k | [] => false end
    end.

Fixpoint compareTypeSpecs (submitted onChain : TypeSpec) : bool :=
  match submitted, onChain with
  | TPrimitive p, TPrimitive q => bool_decide (p = q)
  | TBytesN n, TBytesN m => (n =? m)%Z
  | TOption t, TOption u => compareTypeSpecs t u
  | TResult ok err, TResult ok' err' => compareTypeSpecs ok ok' && compareTypeSpecs err err'
  | TVec t, TVec u => compareTypeSpecs t u
  | TMap key value, TMap key' value' => compareTypeSpecs key key' && compareTypeSpecs value value'
  | TTuple l, TTuple k => (length l =? length k) && every_with compareTypeSpecs l k
  | TNamed s, TNamed s' => String.eqb s s'
  | _, _ => false
  end.

Definition same_field (f g : FieldSpec) : bool :=
  String.eqb (fs_name f) (fs_name g) && compareTypeSpecs (fs_type f) (fs_type g).

Definition compareFieldSpecs (submitted onChain : list FieldSpec) : bool :=
  (length submitted =? length onChain) && every_with same_field submitted onChain.

Definition same_variant (v w : EnumVariantSpec) : bool :=
  String.eqb (va_name v) (va_name w) && (va_discriminant v =? va_discriminant w)%Z &&
  match va_value v, va_value w with
  | None, None => true
  | Some t, Some u => compareTypeSpecs t u
  | _, _ => false
  end.

Definition same_case (c d : UnionCaseSpec) : bool :=
  String.eqb (ca_name c) (ca_name d) && compareFieldSpecs (ca_fields c) (ca_fields d).

Definition compareUserDefinedTypes (submitted onChain : UserDefinedType) : bool :=
  match submitted, onChain with
  | UStruct n _ fields, UStruct n' _ fields' => String.eqb n n' && compareFieldSpecs fields fields'
  | UEnum n _ vs, UEnum n' _ vs' => String.eqb n n' && (length vs =? length vs') && every_with same_variant vs vs'
  | UUnion n _ cs, UUnion n' _ cs' => String.eqb n n' && (length cs =? length cs') && every_with same_case cs cs'
  | _, _ => false
  end.

(** ** Differences *)

(** The values of a difference. *)
Inductive DiffValue :=
  | Undefined
  | ALength (n : nat)
  | AName (s : string)
  | Fields (l : list FieldSpec)
  | AType (t : TypeSpec)
  | AUdt (u : UserDefinedType)
  | Inherited.   (** a member of Object.prototype *)

Record SchemaFieldDiff := { path : string; submitted : DiffValue; onChain : DiffValue }.

Definition difference (p : string) (s o : DiffValue) : SchemaFieldDiff := {| path := p; submitted := s; onChain := o |}.

(** [new Map(list.map((x) => [x.name, x]))] *)
Definition by_name {A} (name : A → string) (l : list A) : jsmap string A :=
  foldl (λ m x, mset (name x) x m) [] l.

Definition item_path (kind name : string) : string := kind +:+ "[" +:+ name +:+ "]".

Definition length_diff {A} (kind : string) (l k : list A) : list SchemaFieldDiff :=
  if length l =? length k then [] else [difference (kind +:+ ".length") (ALength (length l)) (ALength (length k))].

(** The names of one map that the other has not. *)
Definition missing_names {A} (m m' : jsmap string A) : list string :=
  List.filter (λ n, negb (mhas n m')) (mkeys m).

Definition name_diffs {A} (kind : string) (s o : jsmap string A) : list SchemaFieldDiff :=
  ((λ n, difference (item_path kind n) (AName n) Undefined) <$> missing_names s o) ++
  ((λ n, difference (item_path kind n) Undefined (AName n)) <$> missing_names o s).

(** What both maps have, in the order of the first. *)
Definition common_diffs {A} (f : string → A → A → list SchemaFieldDiff) (s o : jsmap string A) : list SchemaFieldDiff :=
  mjoin ((λ p : string * A, match mget p.1 o with Some y => f p.1 p.2 y | None => [] end) <$> s).

Definition fields_diff (p : string) (l k : list FieldSpec) : list SchemaFieldDiff :=
  if compareFieldSpecs l k then [] else [difference p (Fields l) (Fields k)].

Definition function_diff (name : string) (s o : FunctionSpec) : list SchemaFieldDiff :=
  fields_diff (item_path "functions" name +:+ ".params") (fn_params s) (fn_params o) ++
  (if compareTypeSpecs (fn_returns s) (fn_returns o) then []
   else [difference (item_path "functions" name +:+ ".returns") (AType (fn_returns s)) (AType (fn_returns o))]).

Definition event_diff (name : string) (s o : EventSpec) : list SchemaFieldDiff :=
  fields_diff (item_path "events" name +:+ ".topics") (ev_topics s) (ev_topics o) ++
  fields_diff (item_path "events" name +:+ ".data") (ev_data s) (ev_data o).

(** [types[name]] of a plain object: its own member, else one of
    Object.prototype. *)
Definition PROTOTYPE_NAMES : list string :=
  ["constructor"; "__defineGetter__"; "__defineSetter__"; "hasOwnProperty"; "__lookupGetter__"; "__lookupSetter__";
   "isPrototypeOf"; "propertyIsEnumerable"; "toString"; "valueOf"; "__proto__"; "toLocaleString"].

Inductive Member := Own (u : UserDefinedType) | FromPrototype | Absent.

Definition member (name : string) (types : jsmap string UserDefinedType) : Member :=
  match mget name types with
  | Some u => Own u
  | None => if existsb (String.eqb name) PROTOTYPE_NAMES then FromPrototype else Absent
  end.

Definition is_absent (m : Member) : bool := match m with Absent => true | _ => false end.

Definition type_diffs (s o : jsmap string UserDefinedType) : list SchemaFieldDiff :=
  ((λ n, difference (item_path "types" n) (AName n) Undefined) <$> List.filter (λ n, is_absent (member n o)) (mkeys s)) ++
  ((λ n, difference (item_path "types" n) Undefined (AName n)) <$> List.filter (λ n, is_absent (member n s)) (mkeys o)) ++
  mjoin ((λ p : string * UserDefinedType, match member p.1 o with
    | Own u => if compareUserDefinedTypes p.2 u then [] else [difference (item_path "types" p.1) (AUdt p.2) (AUdt u)]
    | FromPrototype => [difference (item_path "types" p.1) (AUdt p.2) Inherited]
    | Absent => []
    end) <$> s).

Definition collectDiffs (s o : ContractSpec) : list SchemaFieldDiff :=
  let fs := by_name fn_name (sp_functions s) in
  let fo := by_name fn_name (sp_functions o) in
  let es := by_name ev_name (sp_events s) in
  let eo := by_name ev_name (sp_events o) in
  length_diff "functions" (sp_functions s) (sp_functions o) ++
  name_diffs "functions" fs fo ++ common_diffs function_diff fs fo ++
  length_diff "events" (sp_events s) (sp_events o) ++
  name_diffs "events" es eo ++ common_diffs event_diff es eo ++
  type_diffs (sp_types s) (sp_types o).

(** ** What is compared: everything but the docs *)

Definition erase_field (f : FieldSpec) : string * TypeSpec := (fs_name f, fs_type f).
Definition erase_function (f : FunctionSpec) := (fn_name f, (erase_field <$> fn_params f, fn_returns f)).
Definition erase_event (e : EventSpec) := (ev_name e, (erase_field <$> ev_topics e, erase_field <$> ev_data e)).
Definition erase_variant (v : EnumVariantSpec) := (va_name v, va_discriminant v, va_value v).
Definition erase_case (c : UnionCaseSpec) := (ca_name c, erase_field <$> ca_fields c).

Inductive bare_type :=
  | BareStruct (name : string) (fields : list (string * TypeSpec))
  | BareEnum (name : string) (variants : list (string * Z * option TypeSpec))
  | BareUnion (name : string) (cases : list (string * list (string * TypeSpec))).

Definition erase_udt (u : UserDefinedType) : bare_type :=
  match u with
  | UStruct n _ fields => BareStruct n (erase_field <$> fields)
  | UEnum n _ vs => BareEnum n (erase_variant <$> vs)
  | UUnion n _ cs => BareUnion n (erase_case <$> cs)
  end.

Lemma every_with_all {A B C} (f : A → B → bool) (g : A → C) (h : B → C) l k :
  Forall (λ x, ∀ y, f x y = true ↔ g x = h y) l →
  (length l =? length k) && every_with f l k = true ↔ g <$> l = h <$> k.
Proof.
  intros Hl. revert k. induction Hl as [|x l Hx _ IH]; intros [|y k]; cbn; try done.
  specialize (IH k). rewrite andb_true_iff in IH. rewrite !andb_true_iff, Hx.
  split; [intros (? & ? & ?); f_equal; [done|by apply IH]|]. intros [= ? ?]. tauto.
Qed.

Lemma every_with_same {A C} (f : A → A → bool) (g : A → C) l k :
  (∀ x y, f x y = true ↔ g x = g y) → (length l =? length k) && every_with f l k = true ↔ g <$> l = g <$> k.
Proof. intros Hf. apply every_with_all, Forall_true. intros x y. apply Hf. Qed.

Lemma compareTypeSpecs_eq t u : compareTypeSpecs t u = true ↔ t = u.
Proof.
  revert u. induction t as [p|n|t IH|t t' IH IH'|t IH|t t' IH IH'|l IH|s] using TypeSpec_nested_ind;
    intros [q|m|u|u u'|u|u u'|k|s']; cbn [compareTypeSpecs]; try done.
  - rewrite bool_decide_eq_true. naive_solver.
  - rewrite Z.eqb_eq. naive_solver.
  - rewrite IH. naive_solver.
  - rewrite andb_true_iff, IH, IH'. naive_solver.
  - rewrite IH. naive_solver.
  - rewrite andb_true_iff, IH, IH'. naive_solver.
  - rewrite (every_with_all _ id id) by done. rewrite !list_fmap_id. naive_solver.
  - rewrite String.eqb_eq. naive_solver.
Qed.

Lemma pair_eq {A B} (a a' : A) (b b' : B) : (a, b) = (a', b') ↔ a = a' ∧ b = b'.
Proof. split; [by intros [= -> ->]|by intros [-> ->]]. Qed.

Lemma same_field_eq f g : same_field f g = true ↔ erase_field f = erase_field g.
Proof. unfold same_field, erase_field. by rewrite andb_true_iff, String.eqb_eq, compareTypeSpecs_eq, pair_eq. Qed.

Lemma compareFieldSpecs_eq l k : compareFieldSpecs l k = true ↔ erase_field <$> l = erase_field <$> k.
Proof. apply every_with_same, same_field_eq. Qed.

Lemma same_variant_eq v w : same_variant v w = true ↔ erase_variant v = erase_variant w.
Proof.
  unfold same_variant, erase_variant. rewrite !andb_true_iff, String.eqb_eq, Z.eqb_eq.
  rewrite !pair_eq. destruct (va_value v), (va_value w); rewrite ?compareTypeSpecs_eq; naive_solver.
Qed.

Lemma same_case_eq c d : same_case c d = true ↔ erase_case c = erase_case d.
Proof. unfold same_case, erase_case. by rewrite andb_true_iff, String.eqb_eq, compareFieldSpecs_eq, pair_eq. Qed.

Lemma compareUserDefinedTypes_eq u v : compareUserDefinedTypes u v = true ↔ erase_udt u = erase_udt v.
Proof.
  destruct u as [n d l|n d l|n d l], v as [n' d' k|n' d' k|n' d' k]; cbn [compareUserDefinedTypes erase_udt]; try done;
    rewrite <-?andb_assoc, andb_true_iff, String.eqb_eq.
  - rewrite compareFieldSpecs_eq. split; [by intros [-> ->]|by intros [= -> ->]].
  - rewrite (every_with_same _ _ _ _ same_variant_eq). split; [by intros [-> ->]|by intros [= -> ->]].
  - rewrite (every_with_same _ _ _ _ same_case_eq). split; [by intros [-> ->]|by intros [= -> ->]].
Qed.

(** ** Comparing by name *)

Lemma fmap_nil_iff {A B} (f : A → B) l : f <$> l = [] ↔ l = [].
Proof. by destruct l. Qed.

Lemma mjoin_nil {A} (l : list (list A)) : mjoin l = [] ↔ ∀ x, x ∈ l → x = [].
Proof.
  induction l as [|x l IH]; [set_solver|].
  change (mjoin (x :: l)) with (x ++ mjoin l). rewrite app_nil_both, IH. set_solver.
Qed.

Section by_name.
Context {A : Type} (name : A → string).

Lemma by_name_distinct l : NoDup (name <$> l) → by_name name l = (λ x, (name x, x)) <$> l.
Proof.
  unfold by_name. induction l as [|x l IH] using rev_ind; [done|]. rewrite foldl_snoc, fmap_app. cbn [fmap list_fmap].
  intros [Hl Hx]%NoDup_snoc. rewrite IH by done. rewrite mset_fresh, fmap_app; [done|].
  unfold mkeys. by rewrite <-list_fmap_compose.
Qed.

Lemma by_name_keys l : NoDup (name <$> l) → mkeys (by_name name l) = name <$> l.
Proof. intros Hl. rewrite by_name_distinct by done. unfold mkeys. by rewrite <-list_fmap_compose. Qed.

Lemma by_name_get l n x : NoDup (name <$> l) → mget n (by_name name l) = Some x ↔ x ∈ l ∧ name x = n.
Proof.
  intros Hl. pose proof (by_name_keys l Hl) as Hk. rewrite by_name_distinct in * by done. split.
  - intros Hx%mget_Some_elem. apply list_elem_of_fmap in Hx as (y & [= -> ->] & Hy). done.
  - intros [Hx <-]. apply elem_of_mget; [unfold mwf; by rewrite Hk|]. apply list_elem_of_fmap. by exists x.
Qed.

Context {B : Type} (erase : A → B) (erased_name : B → string) (f : string → A → A → list SchemaFieldDiff).
Context (Hname : ∀ x, erased_name (erase x) = name x).
Context (Hf : ∀ n x y, name x = n → name y = n → f n x y = [] ↔ erase x = erase y).

Lemma erased_distinct l : NoDup (name <$> l) → NoDup (erase <$> l).
Proof using Hname.
  intros Hl. apply (NoDup_fmap_1 erased_name). rewrite <-list_fmap_compose.
  erewrite list_fmap_ext; [exact Hl|]. intros i x _. apply Hname.
Qed.

Lemma name_diffs_nil kind (s o : jsmap string A) : name_diffs kind s o = [] ↔ ∀ n, n ∈ mkeys s ↔ n ∈ mkeys o.
Proof.
  unfold name_diffs, missing_names. rewrite app_nil_both, !fmap_nil_iff, !filter_nil_iff.
  setoid_rewrite negb_false_iff. setoid_rewrite mhas_true. naive_solver.
Qed.

Lemma common_diffs_nil l k :
  NoDup (name <$> l) → NoDup (name <$> k) →
  common_diffs f (by_name name l) (by_name name k) = [] ↔ ∀ x y, x ∈ l → y ∈ k → name x = name y → erase x = erase y.
Proof using Hf.
  intros Hl Hk. unfold common_diffs. rewrite mjoin_nil. split.
  - intros H x y Hx Hy Hn. apply (Hf (name x)); [done..|].
    assert (mget (name x) (by_name name k) = Some y) as Hget by (by apply by_name_get).
    specialize (H (match mget (name x) (by_name name k) with Some y => f (name x) x y | None => [] end)).
    rewrite Hget in H. apply H. rewrite (by_name_distinct l) by done.
    apply list_elem_of_fmap. exists (name x, x). cbn [fst snd]. rewrite Hget. split; [done|]. apply list_elem_of_fmap. by exists x.
  - intros H d ([n x] & -> & Hx)%list_elem_of_fmap. cbn [fst snd].
    rewrite (by_name_distinct l) in Hx by done. apply list_elem_of_fmap in Hx as (x' & [= -> ->] & Hx).
    destruct (mget (name x') (by_name name k)) as [y|] eqn:Hget; [|done].
    apply by_name_get in Hget as [Hy Hn]; [|done]. apply Hf; [done..|]. by apply H.
Qed.

(** Nothing differs exactly when the two lists are the same but for order. *)
Lemma named_diffs_nil kind l k :
  NoDup (name <$> l) → NoDup (name <$> k) →
  length_diff kind l k ++ name_diffs kind (by_name name l) (by_name name k) ++
    common_diffs f (by_name name l) (by_name name k) = [] ↔
  erase <$> l ≡ₚ erase <$> k.
Proof using Hname Hf.
  intros Hl Hk. rewrite !app_nil_both, name_diffs_nil, common_diffs_nil, !by_name_keys by done.
  split.
  - intros (_ & Hn & He).
    assert (∀ (l k : list A) x, (∀ n, n ∈ name <$> l → n ∈ name <$> k) → (∀ x y, x ∈ l → y ∈ k → name x = name y → erase x = erase y) →
      x ∈ erase <$> l → x ∈ erase <$> k) as Hsub.
    { clear - Hname. intros l k z Hn He (x & -> & Hx)%list_elem_of_fmap.
      assert (name x ∈ name <$> k) as (y & Hy & Hin)%list_elem_of_fmap by (apply Hn, list_elem_of_fmap; by exists x).
      apply list_elem_of_fmap. exists y. split; [by apply He|done]. }
    apply NoDup_Permutation; [by apply erased_distinct..|]. intros z. split; apply Hsub; try done; try (intros n; apply Hn).
    intros x y Hx Hy Hxy. symmetry. by apply He.
  - intros Hp. split_and!.
    + unfold length_diff. apply Permutation_length in Hp. rewrite !length_fmap in Hp. by rewrite Hp, Nat.eqb_refl.
    + intros n.
      assert (name <$> l ≡ₚ name <$> k) as Hnames; [|by rewrite Hnames].
      apply (fmap_Permutation erased_name) in Hp. rewrite <-!list_fmap_compose in Hp.
      erewrite (list_fmap_ext _ name l), (list_fmap_ext _ name k) in Hp; [done|..]; intros; apply Hname.
    + intros x y Hx Hy Hxy.
      assert (erase x ∈ erase <$> k) as (y' & He & Hy')%list_elem_of_fmap by (rewrite <-Hp; apply list_elem_of_fmap; by exists x).
      rewrite He. f_equal. assert (name y' = name y) as Hyy by (rewrite <-Hxy, <-!Hname, He; done).
      apply list_elem_of_lookup in Hy as [i Hi]. apply list_elem_of_lookup in Hy' as [j Hj].
      assert (i = j) as ->; [|congruence].
      apply (NoDup_lookup _ i j (name y) Hk); rewrite list_lookup_fmap; [by rewrite Hi|by rewrite Hj; cbn; f_equal].
Qed.
End by_name.

(** ** Types *)

Lemma member_own n (m : jsmap string UserDefinedType) u : member n m = Own u ↔ mget n m = Some u.
Proof. unfold member. destruct (mget n m); [naive_solver|]. destruct (existsb _ _); naive_solver. Qed.

Lemma type_diffs_nil (s o : jsmap string UserDefinedType) :
  mwf s → (∀ n, n ∈ mkeys o → n ∉ PROTOTYPE_NAMES) →
  type_diffs s o = [] ↔ ∀ n, erase_udt <$> mget n s = erase_udt <$> mget n o.
Proof.
  intros Hs Hproto. unfold type_diffs. rewrite !app_nil_both, !fmap_nil_iff, !filter_nil_iff, mjoin_nil. split.
  - intros (Hso & Hos & Hc) n. destruct (mget n s) as [u|] eqn:Hu; cbn.
    + assert (match member n o with
        | Own v => if compareUserDefinedTypes u v then [] else [difference (item_path "types" n) (AUdt u) (AUdt v)]
        | FromPrototype => [difference (item_path "types" n) (AUdt u) Inherited]
        | Absent => [] end = []) as Hd.
      { apply Hc, list_elem_of_fmap. exists (n, u). split; [done|]. by apply mget_Some_elem. }
      specialize (Hso n (mget_Some_key _ _ _ Hu)).
      destruct (member n o) as [v| |] eqn:Hm; try done. apply member_own in Hm as ->. cbn.
      destruct (compareUserDefinedTypes u v) eqn:Heq; [|done]. apply compareUserDefinedTypes_eq in Heq as ->. done.
    + destruct (mget n o) as [v|] eqn:Hv; [|done]. exfalso.
      pose proof (mget_Some_key _ _ _ Hv) as Hk. specialize (Hos n Hk).
      unfold member in Hos. rewrite Hu in Hos. destruct (existsb (String.eqb n) PROTOTYPE_NAMES) eqn:He; [|done].
      apply existsb_Exists in He as (n' & Hn' & ->%String.eqb_eq). by apply (Hproto n').
  - intros H. split_and!.
    + intros n Hn. destruct (mget n s) as [u|] eqn:Hu; [|by apply mget_None in Hu]. specialize (H n). rewrite Hu in H.
      destruct (mget n o) as [v|] eqn:Hv; [|done]. apply member_own in Hv. by rewrite Hv.
    + intros n Hn. destruct (mget n o) as [v|] eqn:Hv; [|by apply mget_None in Hv]. specialize (H n). rewrite Hv in H.
      destruct (mget n s) as [u|] eqn:Hu; [|done]. apply member_own in Hu. by rewrite Hu.
    + intros d ([n u] & -> & Hin)%list_elem_of_fmap. cbn [fst snd]. apply (elem_of_mget n u) in Hin; [|done].
      specialize (H n). rewrite Hin in H. destruct (mget n o) as [v|] eqn:Hv; [|done]. cbn in H. injection H as H.
      apply member_own in Hv. rewrite Hv. apply compareUserDefinedTypes_eq in H. by rewrite H.
Qed.

Lemma function_diff_nil n (s o : FunctionSpec) :
  fn_name s = n → fn_name o = n → function_diff n s o = [] ↔ erase_function s = erase_function o.
Proof.
  intros <- Hn. unfold function_diff, fields_diff, erase_function. rewrite !pair_eq, app_nil_both, <-compareFieldSpecs_eq, <-compareTypeSpecs_eq.
  destruct (compareFieldSpecs _ _), (compareTypeSpecs _ _); naive_solver.
Qed.

Lemma event_diff_nil n (s o : EventSpec) :
  ev_name s = n → ev_name o = n → event_diff n s o = [] ↔ erase_event s = erase_event o.
Proof.
  intros <- Hn. unfold event_diff, fields_diff, erase_event. rewrite !pair_eq, app_nil_both, <-!compareFieldSpecs_eq.
  destruct (compareFieldSpecs _ _), (compareFieldSpecs _ _); naive_solver.
Qed.

(** Every function, event and type of a spec has a name of its own. *)
Definition distinct_names (s : ContractSpec) : Prop :=
  NoDup (fn_name <$> sp_functions s) ∧ NoDup (ev_name <$> sp_events s) ∧ mwf (sp_types s).

(** The same surface: functions and events up to order, types by name, docs
    aside. *)
Definition same_surface (s o : ContractSpec) : Prop :=
  erase_function <$> sp_functions s ≡ₚ erase_function <$> sp_functions o ∧
  erase_event <$> sp_events s ≡ₚ erase_event <$> sp_events o ∧
  ∀ n, erase_udt <$> mget n (sp_types s) = erase_udt <$> mget n (sp_types o).

Lemma collectDiffs_nil s o :
  distinct_names s → distinct_names o → (∀ n, n ∈ mkeys (sp_types o) → n ∉ PROTOTYPE_NAMES) →
  collectDiffs s o = [] ↔ same_surface s o.
Proof.
  intros (Hfs & Hes & Hts) (Hfo & Heo & _) Hproto. unfold collectDiffs, same_surface.
  rewrite <-(named_diffs_nil fn_name erase_function fst function_diff (λ _, eq_refl) function_diff_nil "functions") by done.
  rewrite <-(named_diffs_nil ev_name erase_event fst event_diff (λ _, eq_refl) event_diff_nil "events") by done.
  rewrite <-(type_diffs_nil _ _ Hts Hproto), !app_nil_both. tauto.
Qed.

(** ** verifySchema *)

Inductive SchemaVerdict :=
  | SchemaMatch
  | SchemaMismatch (diffs : list SchemaFieldDiff)
  | SchemaUnverifiable (reason : string).

(** What fetchContractWasm answers; [message] is [None] where the value it
    rejects with is no Error. *)
Inductive Fetched := Code (wasm : list Z) | Rejected (message : option string).

Inductive VerifyError := FetchFailed (message : option string) | ParseFailed (e : DiscoveryError).

Definition NO_WASM_ERROR_PATTERNS : list string := ["not found"; "cannot destructure property 'length'"].

Definition isNoWasmFailure (message : string) : bool :=
  existsb (str_includes (to_lower message)) NO_WASM_ERROR_PATTERNS.

Definition NO_SPEC_REASON : string := "Contract has no embedded contractspec (pre-SEP-48 or non-WASM contract)".

Section verify.
Context {R : XdrReader}.

Definition verifySchema (contractId : string) (submittedSchema : ContractSpec) (network : option string) (fetched : Fetched)
    : result VerifyError SchemaVerdict :=
  match fetched with
  | Rejected message =>
      if from_option isNoWasmFailure false message then Ok (SchemaUnverifiable NO_SPEC_REASON) else Err (FetchFailed message)
  | Code wasm =>
      match parseWasmSpec wasm with
      | Err NoEmbeddedSpecError => Ok (SchemaUnverifiable NO_SPEC_REASON)
      | Err e => Err (ParseFailed e)
      | Ok parsed =>
          let onChainSpec := spec_found contractId (n ← network; optionalDoc n) parsed in
          Ok (match collectDiffs submittedSchema onChainSpec with
              | [] => SchemaMatch
              | diffs => SchemaMismatch diffs
              end)
      end
  end.

Lemma verify_match id s network wasm parsed :
  parseWasmSpec wasm = Ok parsed →
  let onChainSpec := spec_found id (n ← network; optionalDoc n) parsed in
  verifySchema id s network (Code wasm) = Ok SchemaMatch ↔ collectDiffs s onChainSpec = [].
Proof.
  intros Hp onChainSpec. cbn [verifySchema]. rewrite Hp. fold onChainSpec.
  destruct (collectDiffs s onChainSpec); naive_solver.
Qed.
End verify.

(** C29: Against the code of a contract whose first contractspecv0 section is a
    sequence of entries, verifySchema answers match exactly when the submitted
    spec has the same functions and events in any order and the same types,
    whatever the docs say.  Names are taken to be distinct, and no type of the
    contract has a name of Object.prototype. *)
Theorem match_exact {R : XdrReader} {F : XdrFormat R} version sections entries parsed contractId schema network :
  length version = 4 → Forall well_formed sections → Forall in_format entries →
  head (omap (payload_of "contractspecv0") sections) = Some (mjoin (entry_bytes <$> entries)) →
  mapSpecEntries entries = Ok parsed →
  let onChain := spec_found contractId None {| p_mapped := parsed; p_xdrEntries := [] |} in
  distinct_names schema → distinct_names onChain → (∀ n, n ∈ mkeys (m_types parsed) → n ∉ PROTOTYPE_NAMES) →
  verifySchema contractId schema network (Code (module_bytes version sections)) = Ok SchemaMatch ↔
  same_surface schema onChain.
Proof.
  intros Hv Hs Hin Hp Hm onChain Hd Hdo Hproto.
  assert (parseWasmSpec (module_bytes version sections) = Ok {| p_mapped := parsed; p_xdrEntries := to_base64 <$> entries |}) as Hparse.
  { rewrite (parse_module _ _ entries) by done. by rewrite Hm. }
  rewrite (verify_match _ _ _ _ _ Hparse). etrans; [by apply collectDiffs_nil|done].
Qed.

(** *** What the conditions are for *)

Definition bare_function (name : string) (returns : TypeSpec) : FunctionSpec :=
  {| fn_name := name; fn_doc := None; fn_params := []; fn_returns := returns |}.

Definition bare_spec (fs : list FunctionSpec) (types : jsmap string UserDefinedType) : ContractSpec :=
  {| sp_version := "1.0.0"; sp_name := "token"; sp_description := None; sp_contractId := None; sp_network := None;
     sp_functions := fs; sp_events := []; sp_types := types; sp_xdrEntries := None; sp_pointer := None |}.

(** Two functions of one name hide a third, and what the first of them is. *)
Lemma duplicate_names_hide :
  collectDiffs
    (bare_spec [bare_function "a" (TPrimitive Pbool); bare_function "a" (TPrimitive Pvoid); bare_function "b" (TPrimitive Pvoid)] [])
    (bare_spec [bare_function "a" (TPrimitive Pvoid); bare_function "b" (TPrimitive Pu32); bare_function "b" (TPrimitive Pvoid)] []) = [].
Proof. reflexivity. Qed.

(** A type of the contract that is called constructor is not missed. *)
Lemma inherited_names_not_missed :
  collectDiffs (bare_spec [] []) (bare_spec [] [("constructor", UStruct "constructor" None [])]) = [].
Proof. reflexivity. Qed.

(** Not being able to read the code is not told from a missing section by
    discovery, but is here; the text "not found" anywhere in a failure counts as a
    contract without code. *)
Lemma host_not_found_is_unverifiable {R : XdrReader} id s :
  verifySchema id s None (Rejected (Some "getaddrinfo: host not found")) = Ok (SchemaUnverifiable NO_SPEC_REASON).
Proof. reflexivity. Qed.

(** ** The verification job *)

Record RegisteredSpec := {
  rs_contractId : string;
  rs_spec : ContractSpec;
  rs_publisher : option string;
  rs_submittedAt : string;
  rs_attestedBy : option (list string);
}.

Record InMemorySpecStore := { specs : jsmap string RegisteredSpec }.

Definition register (r : RegisteredSpec) (s : InMemorySpecStore) : InMemorySpecStore :=
  {| specs := mset (rs_contractId r) r (specs s) |}.
Definition spec_get (c : string) (s : InMemorySpecStore) : option RegisteredSpec := mget c (specs s).
Definition spec_getAll (s : InMemorySpecStore) : list RegisteredSpec := mvals (specs s).
Definition spec_remove (c : string) (s : InMemorySpecStore) : InMemorySpecStore := {| specs := mdel c (specs s) |}.

(** A verdict record with what only this job fills in. *)
Record JobRecord := {
  jr_base : VerdictRecord;
  jr_diffs : option (list SchemaFieldDiff);
  jr_reason : option string;
  jr_attestedBy : option (list string);
  jr_specVersion : string;
}.

Definition jr_status (r : JobRecord) : VerdictStatus := abi_status (jr_base r).

Record MismatchReportParams := {
  mr_contractId : string;
  mr_contractName : string;
  mr_diffs : list SchemaFieldDiff;
  mr_submittedVersion : string;
  mr_previousStatus : option VerdictStatus;
}.

Record JobResult := {
  total : nat;
  n_verified : nat;
  n_mismatch : nat;
  n_unverifiable : nat;
  errors : list (string * string);
  issuesCreated : list string;
}.

(** What the ports answer: an error message, or a value. *)
Record Ports := {
  check_schema : RegisteredSpec → result string SchemaVerdict;   (** verifySchema of the submission *)
  clock_at : string → string;
  onVerdict : JobRecord → result string unit;                    (** the callback, if any *)
  issueReporter : option (MismatchReportParams → result string string);
  alertManager : option (VerdictRecord → VerdictRecord → result string unit);
}.

(** The store, what was sent to whom, and the result so far. *)
Record JobState := {
  job_store : InMemoryVerdictStore;
  job_records : list JobRecord;
  job_issues : list MismatchReportParams;
  job_alerts : list (VerdictRecord * VerdictRecord);
  job_result : JobResult;
}.

Definition empty_result (n : nat) : JobResult :=
  {| total := n; n_verified := 0; n_mismatch := 0; n_unverifiable := 0; errors := []; issuesCreated := [] |}.

Definition start_job (st : InMemoryVerdictStore) (n : nat) : JobState :=
  {| job_store := st; job_records := []; job_issues := []; job_alerts := []; job_result := empty_result n |}.

Definition with_result (f : JobResult → JobResult) (s : JobState) : JobState :=
  {| job_store := job_store s; job_records := job_records s; job_issues := job_issues s; job_alerts := job_alerts s;
     job_result := f (job_result s) |}.

Definition count (v : VerdictStatus) (r : JobResult) : JobResult :=
  {| total := total r;
     n_verified := (if decide (v = verified) then 1 else 0) + n_verified r;
     n_mismatch := (if decide (v = mismatch) then 1 else 0) + n_mismatch r;
     n_unverifiable := (if decide (v = abi_unverifiable) then 1 else 0) + n_unverifiable r;
     errors := errors r; issuesCreated := issuesCreated r |}.

Definition add_error (c m : string) (r : JobResult) : JobResult :=
  {| total := total r; n_verified := n_verified r; n_mismatch := n_mismatch r; n_unverifiable := n_unverifiable r;
     errors := errors r ++ [(c, m)]; issuesCreated := issuesCreated r |}.

Definition add_issue (url : string) (r : JobResult) : JobResult :=
  {| total := total r; n_verified := n_verified r; n_mismatch := n_mismatch r; n_unverifiable := n_unverifiable r;
     errors := errors r; issuesCreated := if String.eqb url "" then issuesCreated r else issuesCreated r ++ [url] |}.

Definition sent_issue (p : MismatchReportParams) (s : JobState) : JobState :=
  {| job_store := job_store s; job_records := job_records s; job_issues := job_issues s ++ [p]; job_alerts := job_alerts s;
     job_result := job_result s |}.

Definition sent_alert (a : VerdictRecord * VerdictRecord) (s : JobState) : JobState :=
  {| job_store := job_store s; job_records := job_records s; job_issues := job_issues s; job_alerts := job_alerts s ++ [a];
     job_result := job_result s |}.

Definition written (r : JobRecord) (s : JobState) : JobState :=
  {| job_store := record (jr_base r) (job_store s); job_records := job_records s ++ [r]; job_issues := job_issues s;
     job_alerts := job_alerts s; job_result := job_result s |}.

Definition verdictToStatus (v : SchemaVerdict) : VerdictStatus :=
  match v with SchemaMatch => verified | SchemaMismatch _ => mismatch | SchemaUnverifiable _ => abi_unverifiable end.

Definition record_for (now : string) (registered : RegisteredSpec) (previous : option VerdictRecord) (v : SchemaVerdict) : JobRecord :=
  {| jr_base := {| contractId := rs_contractId registered; abi_status := verdictToStatus v; verifiedAt := now;
                   previousStatus := abi_status <$> previous |};
     jr_diffs := match v with SchemaMismatch d => Some d | _ => None end;
     jr_reason := match v with SchemaUnverifiable r => Some r | _ => None end;
     jr_attestedBy := match v with SchemaUnverifiable _ => rs_attestedBy registered | _ => None end;
     jr_specVersion := sp_version (rs_spec registered) |}.

Section job.
Context (ports : Ports).

(** The submission with its contract id in place. *)
Definition submission (registered : RegisteredSpec) : RegisteredSpec :=
  let s := rs_spec registered in
  {| rs_contractId := rs_contractId registered;
     rs_spec := {| sp_version := sp_version s; sp_name := sp_name s; sp_description := sp_description s;
                   sp_contractId := Some (rs_contractId registered); sp_network := sp_network s; sp_functions := sp_functions s;
                   sp_events := sp_events s; sp_types := sp_types s; sp_xdrEntries := sp_xdrEntries s; sp_pointer := sp_pointer s |};
     rs_publisher := rs_publisher registered; rs_submittedAt := rs_submittedAt registered; rs_attestedBy := rs_attestedBy registered |}.

Definition verifySingleContract (registered : RegisteredSpec) : method JobState string JobRecord :=
  previous ← gets (λ s, getLatest (rs_contractId registered) (job_store s));
  verdict ← lift_result (check_schema ports (submission registered));
  let r := record_for (clock_at ports (rs_contractId registered)) registered previous verdict in
  _ ← modify (written r);
  mret r.

Definition report_of (registered : RegisteredSpec) (r : JobRecord) : MismatchReportParams :=
  {| mr_contractId := contractId (jr_base r); mr_contractName := sp_name (rs_spec registered); mr_diffs := default [] (jr_diffs r);
     mr_submittedVersion := sp_version (rs_spec registered); mr_previousStatus := previousStatus (jr_base r) |}.

Definition report_issue (registered : RegisteredSpec) (r : JobRecord) : method JobState string unit :=
  match issueReporter ports with
  | Some reportMismatch =>
      if decide (jr_status r = mismatch) then
        _ ← modify (sent_issue (report_of registered r));
        url ← lift_result (reportMismatch (report_of registered r));
        modify (with_result (add_issue url))
      else mret tt
  | None => mret tt
  end.

Definition alert_turn (r : JobRecord) : method JobState string unit :=
  match previousStatus (jr_base r), alertManager ports with
  | Some previous, Some alertTransition =>
      if decide (previous = jr_status r) then mret tt
      else
        let prevRecord := {| contractId := contractId (jr_base r); abi_status := previous; verifiedAt := ""; previousStatus := None |} in
        _ ← modify (sent_alert (prevRecord, jr_base r));
        lift_result (alertTransition prevRecord (jr_base r))
  | _, _ => mret tt
  end.

Definition verify_registered (registered : RegisteredSpec) : method JobState string unit :=
  r ← verifySingleContract registered;
  _ ← modify (with_result (count (jr_status r)));
  _ ← lift_result (onVerdict ports r);
  _ ← report_issue registered r;
  alert_turn r.

(** [try { ... } catch (error) { result.errors.push(...) }] *)
Definition process (s : JobState) (registered : RegisteredSpec) : JobState :=
  match verify_registered registered s with
  | (Ok _, s) => s
  | (Err m, s) => with_result (add_error (rs_contractId registered) m) s
  end.

Definition runVerificationJob (store : InMemorySpecStore) (verdictStore : InMemoryVerdictStore) : JobState :=
  foldl process (start_job verdictStore (length (spec_getAll store))) (spec_getAll store).
End job.

(** *** What a job does *)

Section job_spec.
Context (ports : Ports).
Implicit Types (st : InMemoryVerdictStore) (reg : RegisteredSpec) (r : JobRecord) (s : JobState).

(** The record of a submission, when it can be checked. *)
Definition record_of st reg : option JobRecord :=
  match check_schema ports (submission reg) with
  | Ok v => Some (record_for (clock_at ports (rs_contractId reg)) reg (getLatest (rs_contractId reg) st) v)
  | Err _ => None
  end.

(** The issue tracker was asked, for a mismatch, and refused. *)
Definition refused reg r : bool :=
  match issueReporter ports with
  | Some reporter => bool_decide (jr_status r = mismatch) && negb (is_ok (reporter (report_of reg r)))
  | None => false
  end.

Definition turned r : bool :=
  match previousStatus (jr_base r) with Some p => negb (bool_decide (p = jr_status r)) | None => false end.

(** An alert is sent for a turn, unless the callback threw or the issue was
    refused. *)
Definition alert_sent reg r : bool :=
  is_ok (onVerdict ports r) && negb (refused reg r) && turned r && bool_decide (is_Some (alertManager ports)).

Definition alert_about r : VerdictRecord * VerdictRecord :=
  ({| contractId := contractId (jr_base r); abi_status := default verified (previousStatus (jr_base r)); verifiedAt := ""; previousStatus := None |},
   jr_base r).

Definition alerts_of (st : InMemoryVerdictStore) reg : list (VerdictRecord * VerdictRecord) :=
  match record_of st reg with Some r => if alert_sent reg r then [alert_about r] else [] | None => [] end.

Definition with_status (v : VerdictStatus) (l : list JobRecord) : nat := length (base.filter (λ r, jr_status r = v) l).

Definition counted (s s' : JobState) (l : list JobRecord) : Prop :=
  total (job_result s') = total (job_result s) ∧
  n_verified (job_result s') = n_verified (job_result s) + with_status verified l ∧
  n_mismatch (job_result s') = n_mismatch (job_result s) + with_status mismatch l ∧
  n_unverifiable (job_result s') = n_unverifiable (job_result s) + with_status abi_unverifiable l.

(** Nothing changed but what was sent. *)
Definition same_books (s s' : JobState) : Prop :=
  job_store s' = job_store s ∧ job_records s' = job_records s ∧ total (job_result s') = total (job_result s) ∧
  n_verified (job_result s') = n_verified (job_result s) ∧ n_mismatch (job_result s') = n_mismatch (job_result s) ∧
  n_unverifiable (job_result s') = n_unverifiable (job_result s).

Lemma report_issue_spec reg r s :
  let (res, s') := report_issue ports reg r s in
  is_ok res = negb (refused reg r) ∧ same_books s s' ∧ job_alerts s' = job_alerts s.
Proof.
  unfold report_issue, refused. destruct (issueReporter ports) as [reporter|]; [|done].
  destruct (decide (jr_status r = mismatch)) as [Hm|Hm].
  - rewrite bool_decide_true by done. cbn. by destruct (reporter _).
  - rewrite bool_decide_false by done. done.
Qed.

Lemma alert_turn_spec r s :
  let (_, s') := alert_turn ports r s in
  same_books s s' ∧
  job_alerts s' = job_alerts s ++ if turned r && bool_decide (is_Some (alertManager ports)) then [alert_about r] else [].
Proof.
  unfold alert_turn, turned, alert_about. destruct (previousStatus (jr_base r)) as [p|]; cbn.
  2: { by rewrite app_nil_r. }
  destruct (alertManager ports) as [alert|]; cbn.
  2: { by rewrite andb_false_r, app_nil_r. }
  rewrite andb_true_r.
  destruct (decide (p = jr_status r)).
  - rewrite bool_decide_true by done. cbn. by rewrite app_nil_r.
  - rewrite bool_decide_false by done. cbn. by destruct (alert _ _).
Qed.

Lemma process_record s reg r :
  record_of (job_store s) reg = Some r →
  let s' := process ports s reg in
  job_store s' = record (jr_base r) (job_store s) ∧ job_records s' = job_records s ++ [r] ∧
  job_alerts s' = job_alerts s ++ (if alert_sent reg r then [alert_about r] else []) ∧ counted s s' [r].
Proof.
  unfold record_of. destruct (check_schema ports (submission reg)) as [v|m] eqn:Hv; [|done].
  set (r' := record_for _ _ _ _). intros [= <-].
  set (s1 := with_result (count (jr_status r')) (written r' s)).
  assert (process ports s reg =
    match (_ ← lift_result (onVerdict ports r'); _ ← report_issue ports reg r'; alert_turn ports r') s1 with
    | (Ok _, s) => s | (Err m, s) => with_result (add_error (rs_contractId reg) m) s end) as Hp.
  { unfold process, verify_registered, verifySingleContract. unfold mbind, method_bind, gets, lift_result, modify, mret, method_ret.
    by rewrite Hv. }
  assert (∀ s', same_books s1 s' → job_store s' = record (jr_base r') (job_store s) ∧ job_records s' = job_records s ++ [r'] ∧
    counted s s' [r']) as Hbooks.
  { intros s' Hs'. unfold same_books in Hs'. destruct Hs' as (Hst & Hrs & Ht & Hv1 & Hm1 & Hu1). rewrite Hst, Hrs.
    split_and!; [done..|]. unfold counted, with_status.
    rewrite Ht, Hv1, Hm1, Hu1, !filter_cons, filter_nil. cbn. split_and!; repeat case_decide; cbn; lia. }
  cbn zeta. rewrite Hp. unfold alert_sent. clear Hp. unfold mbind, method_bind, lift_result.
  destruct (onVerdict ports r') as [u|m]; cbn [is_ok andb].
  2: { rewrite app_nil_r. pose proof (Hbooks (with_result (add_error (rs_contractId reg) m) s1) ltac:(done)). naive_solver. }
  pose proof (report_issue_spec reg r' s1) as Hi. destruct (report_issue ports reg r' s1) as [[u'|m] s2].
  - destruct Hi as (Hok & Hb & Ha). cbn in Hok. rewrite <-Hok. cbn [andb].
    pose proof (alert_turn_spec r' s2) as Ht. destruct (alert_turn ports r' s2) as [res s3]. destruct Ht as [Hb' Ha'].
    assert (same_books s1 s3) as Hb3 by (unfold same_books in *; intuition congruence).
    destruct res as [u''|m]; [pose proof (Hbooks s3 Hb3)|pose proof (Hbooks (with_result (add_error (rs_contractId reg) m) s3) Hb3)];
      cbn [with_result job_alerts]; rewrite Ha', Ha; naive_solver.
  - destruct Hi as (Hok & Hb & Ha). cbn in Hok. rewrite <-Hok. cbn [andb]. rewrite app_nil_r.
    pose proof (Hbooks (with_result (add_error (rs_contractId reg) m) s2) Hb). cbn [with_result job_alerts]. rewrite Ha. naive_solver.
Qed.

Lemma process_error s reg :
  record_of (job_store s) reg = None →
  let s' := process ports s reg in
  job_store s' = job_store s ∧ job_records s' = job_records s ∧ job_alerts s' = job_alerts s ∧ counted s s' [].
Proof.
  unfold record_of, process, verify_registered, verifySingleContract. destruct (check_schema ports (submission reg)) as [v|m] eqn:Hv; [done|].
  intros _. unfold mbind, method_bind, gets, lift_result, counted, with_status. cbn. rewrite !Nat.add_0_r. done.
Qed.

Lemma with_status_app v l l' : with_status v (l ++ l') = with_status v l + with_status v l'.
Proof. unfold with_status. by rewrite filter_app, length_app. Qed.

Lemma counted_trans s s' s'' l l' : counted s s' l → counted s' s'' l' → counted s s'' (l ++ l').
Proof. unfold counted. rewrite !with_status_app. lia. Qed.

(** The record of a contract depends on what the store knows of it only. *)
Lemma record_of_getLatest st st' reg :
  getLatest (rs_contractId reg) st = getLatest (rs_contractId reg) st' → record_of st reg = record_of st' reg.
Proof. intros H. unfold record_of. by rewrite H. Qed.

Lemma record_of_contract st reg r : record_of st reg = Some r → contractId (jr_base r) = rs_contractId reg.
Proof. unfold record_of. destruct (check_schema _ _); [|done]. by intros [= <-]. Qed.

Lemma getLatest_record_ne c v st : contractId v ≠ c → getLatest c (record v st) = getLatest c st.
Proof. intros Hc. unfold getLatest, record. cbn. by rewrite mget_mset_ne. Qed.

Lemma getHistory_records c v st :
  getHistory c (record v st) = getHistory c st ++ if decide (contractId v = c) then [v] else [].
Proof.
  case_decide as Hc.
  - subst c. apply getHistory_record.
  - rewrite app_nil_r. unfold getHistory at 1, record. cbn. by rewrite mget_mset_ne.
Qed.

Lemma processed l s :
  NoDup (rs_contractId <$> l) →
  let s' := foldl (process ports) s l in
  let rs := omap (record_of (job_store s)) l in
  job_records s' = job_records s ++ rs ∧
  (∀ c, getHistory c (job_store s') = getHistory c (job_store s) ++ base.filter (λ v, contractId v = c) (jr_base <$> rs)) ∧
  job_alerts s' = job_alerts s ++ (l ≫= alerts_of (job_store s)) ∧ counted s s' rs.
Proof.
  revert s. induction l as [|reg l IH]; intros s Hnd; cbn zeta.
  { cbn. rewrite !app_nil_r. unfold counted, with_status. cbn. split_and!; try done; try lia. intros c. by rewrite app_nil_r. }
  cbn [fmap list_fmap] in Hnd. apply NoDup_cons in Hnd as [Hreg Hnd]. cbn [foldl omap list_omap].
  specialize (IH (process ports s reg) Hnd). cbn zeta in IH. destruct IH as (Hrs & Hh & Ha & Hc).
  assert (∀ reg', reg' ∈ l → record_of (job_store (process ports s reg)) reg' = record_of (job_store s) reg') as Hsame.
  { intros reg' Hin. apply record_of_getLatest. destruct (record_of (job_store s) reg) as [r|] eqn:Hr.
    - destruct (process_record s reg r Hr) as (-> & _). apply getLatest_record_ne. rewrite (record_of_contract _ _ _ Hr).
      intros Heq. apply Hreg. rewrite Heq. apply list_elem_of_fmap. by exists reg'.
    - destruct (process_error s reg Hr) as (-> & _). done. }
  assert (omap (record_of (job_store (process ports s reg))) l = omap (record_of (job_store s)) l) as Homap.
  { clear - Hsame. induction l as [|x l IH]; [done|]. cbn. rewrite Hsame by left. rewrite IH; [done|]. intros y Hy. apply Hsame. by right. }
  assert ((l ≫= alerts_of (job_store (process ports s reg))) = l ≫= alerts_of (job_store s)) as Hal.
  { clear - Hsame. unfold alerts_of. induction l as [|x l IH]; [done|]. cbn. rewrite Hsame by left. f_equal. apply IH. intros y Hy. apply Hsame. by right. }
  rewrite Homap in Hrs, Hh, Hc. rewrite Hal in Ha. cbn [mbind list_bind]. unfold alerts_of at 1.
  destruct (record_of (job_store s) reg) as [r|] eqn:Hr.
  - destruct (process_record s reg r Hr) as (Hst & Hrec & Hals & Hcnt). rewrite Hrs, Ha, Hrec, Hals, <-!app_assoc.
    split_and!; try done.
    + intros c. rewrite Hh, Hst, getHistory_records, fmap_cons, filter_cons, <-app_assoc. by case_decide.
    + by apply (counted_trans s (process ports s reg) _ [r]).
  - destruct (process_error s reg Hr) as (Hst & Hrec & Hals & Hcnt). rewrite Hrs, Ha, Hrec, Hals. split_and!; try done.
    + intros c. by rewrite Hh, Hst.
    + by apply (counted_trans s (process ports s reg) _ []).
Qed.
End job_spec.

(** A spec store holds each contract once, under its id; its operations keep it
    so. *)
Definition spec_store_ok (s : InMemorySpecStore) : Prop :=
  mwf (specs s) ∧ ∀ c reg, mget c (specs s) = Some reg → rs_contractId reg = c.

Lemma register_ok r s : spec_store_ok s → spec_store_ok (register r s).
Proof.
  intros [Hwf Hk]. split; [by apply mwf_mset|]. intros c reg. cbn. rewrite mget_mset. case_decide; naive_solver.
Qed.

Lemma spec_remove_ok c s : spec_store_ok s → spec_store_ok (spec_remove c s).
Proof.
  intros [Hwf Hk]. split; [by apply mwf_mdel|]. intros c' reg. cbn. rewrite mget_mdel by done. case_decide; naive_solver.
Qed.

Lemma store_contracts_distinct s : spec_store_ok s → NoDup (rs_contractId <$> spec_getAll s).
Proof.
  intros [Hwf Hk]. unfold spec_getAll, mvals.
  assert (rs_contractId <$> (specs s).*2 = mkeys (specs s)) as ->; [|done].
  unfold mkeys. rewrite <-list_fmap_compose. apply list_fmap_ext. intros i [k reg] Hi. cbn.
  apply list_elem_of_lookup_2 in Hi. by apply Hk, elem_of_mget.
Qed.

(** A verification job appends to the verdicts of every registered contract
    the outcome of its check, with the status before it, and nothing for a
    contract that could not be checked; the counts of its result are those of the
    outcomes, and an alert is sent exactly for each turn of a status, unless the
    callback threw or the issue of a mismatch was refused. *)
Theorem job_accounts (ports : Ports) (store : InMemorySpecStore) (verdicts : InMemoryVerdictStore) :
  spec_store_ok store →
  let s := runVerificationJob ports store verdicts in
  let outcomes := omap (record_of ports verdicts) (spec_getAll store) in
  (∀ c, getHistory c (job_store s) = getHistory c verdicts ++ base.filter (λ v, contractId v = c) (jr_base <$> outcomes)) ∧
  job_alerts s = (spec_getAll store ≫= alerts_of ports verdicts) ∧
  total (job_result s) = length (spec_getAll store) ∧
  n_verified (job_result s) = with_status verified outcomes ∧
  n_mismatch (job_result s) = with_status mismatch outcomes ∧
  n_unverifiable (job_result s) = with_status abi_unverifiable outcomes.
Proof.
  intros Hok s outcomes. pose proof (store_contracts_distinct store Hok) as Hnd.
  pose proof (processed ports (spec_getAll store) (start_job verdicts (length (spec_getAll store))) Hnd) as (Hr & Hh & Ha & Hc).
  unfold counted in Hc. cbn in Hc. split_and!; try apply Hc; [exact Hh|exact Ha].
Qed.

(** ** Examples *)

Definition demo_registered : RegisteredSpec :=
  {| rs_contractId := "C"; rs_spec := bare_spec [bare_function "a" (TPrimitive Pbool)] []; rs_publisher := None;
     rs_submittedAt := "2026-01-01"; rs_attestedBy := None |}.
Definition demo_store : InMemorySpecStore := register demo_registered {| specs := [] |}.
Definition demo_before : InMemoryVerdictStore :=
  record {| contractId := "C"; abi_status := verified; verifiedAt := ""; previousStatus := None |} {| verdict_records := [] |}.
Definition mismatch_ports (issue : result string string) : Ports := {|
  check_schema _ := Ok (SchemaMismatch []); clock_at _ := "2026-01-02"; onVerdict _ := Ok tt;
  issueReporter := Some (λ _, issue); alertManager := Some (λ _ _, Ok tt) |}.

(** An issue that is refused takes the alert with it: the verdict is stored, so
    the next run sees no turn, and nobody is told. *)
Lemma refused_issue_loses_alert :
  let first := runVerificationJob (mismatch_ports (Err "HTTP 500")) demo_store demo_before in
  let second := runVerificationJob (mismatch_ports (Ok "https://issue")) demo_store (job_store first) in
  job_alerts first = [] ∧ job_alerts second = [] ∧ jr_status <$> job_records second = [mismatch] ∧
  n_mismatch (job_result first) = 1 ∧ errors (job_result first) = [("C", "HTTP 500")].
Proof. repeat split. Qed.

Lemma job_accounts_witness :
  job_alerts (runVerificationJob (mismatch_ports (Ok "https://issue")) demo_store demo_before) =
    (spec_getAll demo_store ≫= alerts_of (mismatch_ports (Ok "https://issue")) demo_before) ∧
  length (job_alerts (runVerificationJob (mismatch_ports (Ok "https://issue")) demo_store demo_before)) = 1.
Proof.
  split; [|reflexivity].
  apply (job_accounts (mismatch_ports (Ok "https://issue")) demo_store demo_before).
  apply register_ok. split; [constructor|done].
Defined.

Definition demo_submission : ContractSpec :=
  let on_chain := {| ev_name := "Transfer"; ev_doc := Some "something else";
    ev_topics := [{| fs_name := "event_name"; fs_type := TPrimitive Psymbol; fs_doc := None |};
                  {| fs_name := "to"; fs_type := TPrimitive Paddress; fs_doc := None |}];
    ev_data := [{| fs_name := "amount"; fs_type := TPrimitive Pi128; fs_doc := None |}] |} in
  {| sp_version := "1.2.3"; sp_name := "demo"; sp_description := None; sp_contractId := None; sp_network := None;
     sp_functions := [bare_function "one" (TTuple [TPrimitive Pu32])]; sp_events := [on_chain];
     sp_types := [("E", UEnum "E" None [{| va_name := "A"; va_doc := None; va_discriminant := 0; va_value := None |}])];
     sp_xdrEntries := None; sp_pointer := None |}.

Lemma match_exact_witness :
  @verifySchema demo_reader "C" demo_submission None (Code (module_bytes [1; 0; 0; 0]%Z demo_sections)) = Ok SchemaMatch.
Proof.
  assert (∃ m, mapSpecEntries demo_entries = Ok m ∧
    m_functions m = [bare_function "one" (TTuple [TPrimitive Pu32])] ∧ mkeys (m_types m) = ["E"] ∧
    ev_name <$> m_events m = ["Transfer"] ∧
    same_surface demo_submission (spec_found "C" None {| p_mapped := m; p_xdrEntries := [] |}))
    as (m & Hm & Hf & Ht & He & Hs).
  { eexists. split; [vm_compute; reflexivity|]. split_and!; try reflexivity.
    split_and!; [reflexivity..|]. intros n. cbn. by case_decide. }
  apply (@match_exact demo_reader demo_format [1; 0; 0; 0]%Z demo_sections demo_entries m "C" demo_submission None).
  - reflexivity.
  - repeat constructor; cbn; unfold uleb32; cbn; lia.
  - repeat constructor.
  - reflexivity.
  - exact Hm.
  - split_and!; cbn; apply (bool_decide_unpack _); vm_compute; exact I.
  - split_and!; cbn; [rewrite Hf|rewrite He|unfold mwf; rewrite Ht]; apply (bool_decide_unpack _); vm_compute; exact I.
  - rewrite Ht. intros n ->%list_elem_of_singleton. apply (bool_decide_unpack _). vm_compute. exact I.
  - exact Hs.
Defined.
