(* ===== verification/LockFile.v ===== *)
(** * Lock files of the code generator

    abi-registry/src/lockFile.ts: the lock file that remembers the specs code was
    generated from, the hash it compares them by, the drift against the present
    specs, and the two formats it is read from.  SHA-256 is an argument, the clock
    is read once; a file is the value JSON.parse gives, and the wording of the
    report is left out. *)

From S2P Require Import Prelude JsMap JsValue Decimal CanonicalJson Evidence Spec Discovery.

(** ** JSON.stringify with a list of names

    Only the listed members of an object are written, in the order of the list,
    at every depth. *)

Fixpoint member_of (k : string) (fs : list (string * jsval)) : option jsval :=
  match fs with
  | [] => None
  | (k', v) :: fs => if String.eqb k' k then Some v else member_of k fs
  end.

Definition listed_members (names : list string) (fs : list (string * jsval)) : list (string * jsval) :=
  omap (λ k, v ← member_of k fs; if is_undef v then None else Some (k, v)) names.

Fixpoint keep_listed (names : list string) (v : jsval) : jsval :=
  match v with
  | JArr l => JArr (List.map (keep_listed names) l)
  | JObj fs => JObj (listed_members names (List.map (λ p : string * jsval, let (k, w) := p in (k, keep_listed names w)) fs))
  | _ => v
  end.

(** ** The hash of a spec *)

Definition or_undef (x : option string) : jsval := match x with Some s => JStr s | None => JUndef end.

Definition normalizedSpec (s : ContractSpec) : list (string * jsval) :=
  [("name", JStr (sp_name s)); ("contractId", or_undef (sp_contractId s)); ("network", or_undef (sp_network s));
   ("functions", JArr (function_json <$> sp_functions s)); ("events", JArr (event_json <$> sp_events s));
   ("types", JObj (prod_map id udt_json <$> sp_types s))].

(** [Object.keys(normalizedSpec).sort()] *)
Definition SPEC_KEYS : list string := ["contractId"; "events"; "functions"; "name"; "network"; "types"].

Section lock.
Context (fraction_to_string : Z → nat → string) (sha256 : string → string).

Definition specString (s : ContractSpec) : string :=
  stringify fraction_to_string (keep_listed SPEC_KEYS (JObj (normalizedSpec s))).

Definition generateSpecHash (s : ContractSpec) : string := sha256 (specString s).

(** ** Lock files *)

Inductive Source := registry | well_known | wasm.

Record ContractInput := {
  in_contractId : string;
  in_name : option string;
  in_spec : ContractSpec;
  in_source : Source;
}.

Record LockFileContract := {
  lf_contractId : string;
  lf_name : string;
  lf_specHash : string;
  lf_resolvedAt : string;
  lf_source : Source;
}.

Record LockFile := {
  lf_version : string;
  lf_configHash : string;
  lf_contracts : list LockFileContract;
  lf_generatedAt : string;
}.

(** [config.name || config.contractId] *)
Definition shown_name (c : ContractInput) : string :=
  match in_name c with Some n => if String.eqb n "" then in_contractId c else n | None => in_contractId c end.

Definition createLockFile (now configHash : string) (contracts : list ContractInput) : LockFile :=
  {| lf_version := "1.0.0"; lf_configHash := configHash;
     lf_contracts := (λ c, {| lf_contractId := in_contractId c; lf_name := shown_name c; lf_specHash := generateSpecHash (in_spec c);
                              lf_resolvedAt := now; lf_source := in_source c |}) <$> contracts;
     lf_generatedAt := now |}.

Inductive Change := added | removed | modified.

Record ContractChange := {
  ch_contractId : string;
  ch_name : string;
  ch_change : Change;
  oldHash : option string;
  newHash : option string;
}.

Record Drift := {
  hasChanges : bool;
  configChanged : bool;
  contractChanges : list ContractChange;
}.

(** [new Map(list.map((x) => [key(x), f(x)]))] *)
Definition map_by {A B} (key : A → string) (f : A → B) (l : list A) : jsmap string B :=
  foldl (λ m x, mset (key x) (f x) m) [] l.

Record Current := { cu_name : string; cu_specHash : string }.

Definition current_of (c : ContractInput) : Current :=
  {| cu_name := shown_name c; cu_specHash := generateSpecHash (in_spec c) |}.

(** The lock entry of a contract: the one of its id, else of its name.  Entries
    are told apart by their place. *)
Definition locked_entry (lock : LockFile) (contractId name : string) : option (nat * LockFileContract) :=
  let entries := imap pair (lf_contracts lock) in
  match mget contractId (map_by (λ p : nat * LockFileContract, lf_contractId p.2) id entries) with
  | Some e => Some e
  | None => mget name (map_by (λ p : nat * LockFileContract, lf_name p.2) id entries)
  end.

Definition change_of (lock : LockFile) (contractId : string) (c : Current) : option ContractChange :=
  match locked_entry lock contractId (cu_name c) with
  | None => Some {| ch_contractId := contractId; ch_name := cu_name c; ch_change := added; oldHash := None; newHash := Some (cu_specHash c) |}
  | Some (_, locked) =>
      if String.eqb (lf_specHash locked) (cu_specHash c) then None
      else Some {| ch_contractId := contractId; ch_name := cu_name c; ch_change := modified; oldHash := Some (lf_specHash locked);
                   newHash := Some (cu_specHash c) |}
  end.

(** The entries that were found and agree. *)
Definition matched_entry (lock : LockFile) (contractId : string) (c : Current) : option nat :=
  p ← locked_entry lock contractId (cu_name c);
  if String.eqb (lf_specHash p.2) (cu_specHash c) then Some p.1 else None.

Definition detectDrift (lock : LockFile) (configHash : string) (contracts : list ContractInput) : Drift :=
  let current := map_by in_contractId current_of contracts in
  let names := shown_name <$> contracts in
  let changes := omap (λ p : string * Current, change_of lock p.1 p.2) current in
  let matched := omap (λ p : string * Current, matched_entry lock p.1 p.2) current in
  let gone := omap (λ p : nat * LockFileContract,
    if negb (bool_decide (p.1 ∈ matched)) && negb (mhas (lf_contractId p.2) current) && negb (bool_decide (lf_name p.2 ∈ names))
    then Some {| ch_contractId := lf_contractId p.2; ch_name := lf_name p.2; ch_change := removed; oldHash := Some (lf_specHash p.2); newHash := None |}
    else None) (imap pair (lf_contracts lock)) in
  let changed := negb (String.eqb (lf_configHash lock) configHash) in
  {| hasChanges := changed || (0 <? length (changes ++ gone)); configChanged := changed; contractChanges := changes ++ gone |}.
End lock.

(** ** Reading lock files *)

Inductive LockFileError := InvalidFormat | FailedToRead.

Definition is_string (v : jsval) : bool := bool_decide (is_Some (as_string v)).

(** [contract.source] *)
Definition source_of (v : jsval) : option Source :=
  if is_str v "registry" then Some registry
  else if is_str v "well-known" then Some well_known
  else if is_str v "wasm" then Some wasm
  else None.

Definition isLockFileContract (v : jsval) : bool :=
  is_object v && is_string (prop v "contractId") && is_string (prop v "name") && is_string (prop v "specHash") &&
  is_string (prop v "resolvedAt") && bool_decide (is_Some (source_of (prop v "source"))).

Definition isLockFile (v : jsval) : bool :=
  is_object v && is_str (prop v "version") "1.0.0" && is_string (prop v "configHash") && is_string (prop v "generatedAt") &&
  match prop v "contracts" with JArr l => forallb isLockFileContract l | _ => false end.

Definition isLegacyLockFile (v : jsval) : bool :=
  match v with
  | JObj fs => forallb (λ p : string * jsval, is_object p.2 && is_string (prop p.2 "specHash") && is_string (prop p.2 "verifiedAt")) fs
  | _ => false
  end.

(** The typed reading of a value that passed. *)
Definition text_of (v : jsval) : string := default "" (as_string v).

Definition contract_read (v : jsval) : LockFileContract :=
  {| lf_contractId := text_of (prop v "contractId"); lf_name := text_of (prop v "name"); lf_specHash := text_of (prop v "specHash");
     lf_resolvedAt := text_of (prop v "resolvedAt"); lf_source := default registry (source_of (prop v "source")) |}.

Definition lock_read (v : jsval) : LockFile :=
  {| lf_version := text_of (prop v "version"); lf_configHash := text_of (prop v "configHash");
     lf_contracts := contract_read <$> default [] (as_array (prop v "contracts")); lf_generatedAt := text_of (prop v "generatedAt") |}.

(** The latest [verifiedAt] of the entries; an empty one counts as none. *)
Definition later (latest : option string) (entry : string * jsval) : option string :=
  let at_ := text_of (prop entry.2 "verifiedAt") in
  match latest with
  | Some t => if String.eqb t "" || String.ltb t at_ then Some at_ else latest
  | None => Some at_
  end.

Definition upgradeLegacyLockFile (now : string) (entries : list (string * jsval)) : LockFile :=
  {| lf_version := "1.0.0"; lf_configHash := "legacy";
     lf_contracts := (λ p : string * jsval,
       {| lf_contractId := p.1; lf_name := p.1; lf_specHash := text_of (prop p.2 "specHash"); lf_resolvedAt := text_of (prop p.2 "verifiedAt");
          lf_source := registry |}) <$> entries;
     lf_generatedAt := default now (foldl later None entries) |}.

(** [None] is no file; [Some None] a file that cannot be read or parsed. *)
Definition loadLockFile (now : string) (file : option (option jsval)) : result LockFileError (option LockFile) :=
  match file with
  | None => Ok None
  | Some None => Err FailedToRead
  | Some (Some v) =>
      if isLockFile v then Ok (Some (lock_read v))
      else if isLegacyLockFile v then
        Ok (Some (upgradeLegacyLockFile now (match v with JObj fs => fs | _ => [] end)))
      else Err InvalidFormat
  end.

Definition source_json (s : Source) : string :=
  match s with registry => "registry" | well_known => "well-known" | wasm => "wasm" end.

(** The object saveLockFile writes. *)
Definition saveLockFile (l : LockFile) : jsval :=
  JObj [("version", JStr (lf_version l)); ("configHash", JStr (lf_configHash l));
        ("contracts", JArr ((λ c, JObj [("contractId", JStr (lf_contractId c)); ("name", JStr (lf_name c)); ("specHash", JStr (lf_specHash c));
           ("resolvedAt", JStr (lf_resolvedAt c)); ("source", JStr (source_json (lf_source c)))]) <$> lf_contracts l));
        ("generatedAt", JStr (lf_generatedAt l))].

(** ** What the hash sees *)

(** The types a listed name happens to stand for, with their own names. *)
Definition exposed_types (types : jsmap string UserDefinedType) : list (string * string) :=
  omap (λ k, (λ u, (k, udt_name u)) <$> mget k types) SPEC_KEYS.

Definition visible (s : ContractSpec) :=
  (sp_contractId s, ev_name <$> sp_events s, fn_name <$> sp_functions s, sp_name s, sp_network s, exposed_types (sp_types s)).

Definition named_json (name : string) : jsval := JObj [("name", JStr name)].

Definition opt_member (k : string) (x : option string) : list (string * jsval) :=
  match x with Some s => [(k, JStr s)] | None => [] end.

Definition visible_json (s : ContractSpec) : jsval :=
  JObj (opt_member "contractId" (sp_contractId s) ++
    [("events", JArr (named_json <$> (ev_name <$> sp_events s))); ("functions", JArr (named_json <$> (fn_name <$> sp_functions s)));
     ("name", JStr (sp_name s))] ++ opt_member "network" (sp_network s) ++
    [("types", JObj (prod_map id named_json <$> exposed_types (sp_types s)))]).

Lemma kept_function f : keep_listed SPEC_KEYS (function_json f) = named_json (fn_name f).
Proof. destruct f as [n [d|] ps r]; reflexivity. Qed.
Lemma kept_event e : keep_listed SPEC_KEYS (event_json e) = named_json (ev_name e).
Proof. destruct e as [n [d|] ts ds]; reflexivity. Qed.
Lemma kept_udt u : keep_listed SPEC_KEYS (udt_json u) = named_json (udt_name u).
Proof. destruct u as [n [d|] l|n [d|] l|n [d|] l]; reflexivity. Qed.

Lemma kept_list {A} (f : A → jsval) (name : A → string) l :
  (∀ x, keep_listed SPEC_KEYS (f x) = named_json (name x)) →
  keep_listed SPEC_KEYS (JArr (f <$> l)) = JArr (named_json <$> (name <$> l)).
Proof.
  intros Hf. cbn [keep_listed]. f_equal. rewrite <-list_fmap_compose. induction l as [|x l IH]; [done|].
  cbn. by rewrite Hf, IH.
Qed.

Lemma member_of_types k (types : jsmap string UserDefinedType) :
  member_of k (List.map (λ p : string * jsval, let (k, w) := p in (k, keep_listed SPEC_KEYS w)) (prod_map id udt_json <$> types)) =
  (λ u, named_json (udt_name u)) <$> mget k types.
Proof.
  induction types as [|[k' u] types IH]; [done|]. cbn. destruct (String.eqb_spec k' k) as [->|Hk].
  - rewrite decide_True by done. cbn. by rewrite kept_udt.
  - rewrite decide_False by done. apply IH.
Qed.

Lemma kept_types (types : jsmap string UserDefinedType) :
  keep_listed SPEC_KEYS (JObj (prod_map id udt_json <$> types)) = JObj (prod_map id named_json <$> exposed_types types).
Proof.
  cbn [keep_listed]. f_equal. unfold listed_members, exposed_types.
  assert (∀ ks : list string, omap (λ k, v ← (λ u, named_json (udt_name u)) <$> mget k types; if is_undef v then None else Some (k, v)) ks =
    prod_map id named_json <$> omap (λ k, (λ u, (k, udt_name u)) <$> mget k types) ks) as Hks.
  { induction ks as [|k ks IH]; [done|]. cbn [omap list_omap]. rewrite IH. by destruct (mget k types). }
  rewrite <-Hks. apply list_omap_ext, Forall2_same_length_lookup_2; [done|]. intros i k k' Hi Hi'. simplify_eq.
  by rewrite member_of_types.
Qed.

Lemma kept_spec s : keep_listed SPEC_KEYS (JObj (normalizedSpec s)) = visible_json s.
Proof.
  unfold normalizedSpec, visible_json.
  rewrite <-(kept_list _ _ _ kept_event), <-(kept_list _ _ _ kept_function), <-kept_types.
  destruct s as [v n de [c|] [nw|] fs es ts x p]; reflexivity.
Qed.

Section text.
Context (fraction_to_string : Z → nat → string).

(** Texts without numbers do not depend on how numbers are written. *)
Fixpoint numberless (v : jsval) : bool :=
  match v with
  | JNum _ | JUndef | JBool _ => false
  | JArr l => forallb numberless l
  | JObj fs => forallb (λ p : string * jsval, let (_, w) := p in numberless w) fs
  | _ => true
  end.

Lemma numberless_text v : numberless v = true → stringify fraction_to_string v = stringify (λ _ _, "") v.
Proof.
  revert v. apply (jsval_nested_ind (λ v, numberless v = true → stringify fraction_to_string v = stringify (λ _ _, "") v)); [by intros []|..].
  - intros l Hl. cbn [numberless stringify]. rewrite forallb_Forall. intros Hn. do 3 f_equal.
    induction Hn as [|w l Hw _ IH]; [done|]. apply Forall_cons in Hl as [? ?]. cbn. f_equal; auto.
  - intros fs Hfs. cbn [numberless stringify]. rewrite forallb_Forall. intros Hn. do 3 f_equal.
    induction Hn as [|[k w] l Hw _ IH]; [done|]. apply Forall_cons in Hfs as [Hk ?]. cbn in Hk |- *. rewrite Hk by done. f_equal; auto.
Qed.

Lemma numberless_plain v : numberless v = true → plain v = true.
Proof.
  revert v. apply (jsval_nested_ind (λ v, numberless v = true → plain v = true)); [by intros []|..].
  - intros l Hl. cbn [numberless plain]. rewrite !forallb_Forall. intros Hn. rewrite Forall_forall in *. auto.
  - intros fs Hfs. cbn [numberless plain]. rewrite !forallb_Forall. intros Hn. rewrite Forall_forall in *.
    intros [k w] Hin. apply (Hfs _ Hin), (Hn _ Hin).
Qed.

Lemma named_numberless l : forallb numberless (named_json <$> l) = true.
Proof. apply forallb_Forall, Forall_fmap, Forall_true. done. Qed.

Lemma visible_numberless s : numberless (visible_json s) = true.
Proof.
  unfold visible_json. cbn [numberless]. rewrite !forallb_app. cbn [forallb numberless]. rewrite !named_numberless.
  assert (∀ k x, forallb (λ p : string * jsval, let (_, w) := p in numberless w) (opt_member k x) = true) as Ho by (by intros k []).
  assert (∀ l : list (string * string), forallb (λ p : string * jsval, let (_, w) := p in numberless w) (prod_map id named_json <$> l) = true) as Ht.
  { intros l. apply forallb_Forall, Forall_fmap, Forall_true. by intros []. }
  by rewrite !Ho, Ht.
Qed.

Lemma visible_json_inj s s' : visible_json s = visible_json s' → visible s = visible s'.
Proof.
  unfold visible_json, visible. intros H. injection H as H.
  assert (Inj (=) (=) named_json) as Hinj by (by intros n m [= ->]).
  assert (Inj (=) (=) (prod_map (id : string → string) named_json)) as Hinj2.
  { intros [a b] [a' b'] Hab. cbn in Hab. by injection Hab as -> ->. }
  destruct (sp_contractId s) as [c|], (sp_contractId s') as [c'|], (sp_network s) as [n|], (sp_network s') as [n'|];
    cbn [opt_member app] in H; try discriminate H; injection H; intros; subst;
    repeat match goal with
    | H : named_json <$> _ = named_json <$> _ |- _ => apply (inj (fmap named_json)) in H
    | H : prod_map id named_json <$> _ = _ |- _ => apply (inj (fmap (prod_map id named_json))) in H
    end; by repeat match goal with H : _ = _ |- _ => rewrite H; clear H end.
Qed.

Lemma specString_visible s s' :
  specString fraction_to_string s = specString fraction_to_string s' ↔ visible s = visible s'.
Proof.
  unfold specString. rewrite !kept_spec, !numberless_text by apply visible_numberless. split.
  - intros H. apply visible_json_inj.
    destruct (stringify_reads _ (numberless_plain _ (visible_numberless s)) (visible_json s') "" ""
      (numberless_plain _ (visible_numberless s')) eq_refl eq_refl) as [Hc _]; [by rewrite H|done].
  - intros H. assert (visible_json s = visible_json s') as ->; [|done].
    unfold visible in H. unfold visible_json. injection H as -> -> -> -> -> ->. done.
Qed.
End text.

(** ** Drift *)

Lemma map_by_distinct {A B} (key : A → string) (f : A → B) l :
  NoDup (key <$> l) → map_by key f l = (λ x, (key x, f x)) <$> l.
Proof.
  unfold map_by. induction l as [|x l IH] using rev_ind; [done|]. rewrite foldl_snoc, fmap_app. cbn [fmap list_fmap].
  intros [Hl Hx]%NoDup_snoc. rewrite IH by done. rewrite mset_fresh, fmap_app; [done|].
  unfold mkeys. by rewrite <-list_fmap_compose.
Qed.

Lemma map_by_get {A B} (key : A → string) (f : A → B) l i x :
  NoDup (key <$> l) → l !! i = Some x → mget (key x) (map_by key f l) = Some (f x).
Proof.
  intros Hl Hi. rewrite map_by_distinct by done. apply elem_of_mget.
  - unfold mwf, mkeys. by rewrite <-list_fmap_compose.
  - apply list_elem_of_fmap. exists x. split; [done|]. by eapply list_elem_of_lookup_2.
Qed.

(** The same contract of the configuration. *)
Definition same_config (c c' : ContractInput) : Prop := in_contractId c = in_contractId c' ∧ in_name c = in_name c'.

Section drift.
Context (fraction_to_string : Z → nat → string) (sha256 : string → string).
Notation hash := (generateSpecHash fraction_to_string sha256).

Definition modification (p : ContractInput * ContractInput) : option ContractChange :=
  if decide (visible (in_spec p.1) = visible (in_spec p.2)) then None
  else Some {| ch_contractId := in_contractId p.2; ch_name := shown_name p.2; ch_change := modified;
               oldHash := Some (hash (in_spec p.1)); newHash := Some (hash (in_spec p.2)) |}.

(** No two of the specs' texts collide. *)
Definition collision_free (cs cs' : list ContractInput) : Prop :=
  ∀ c c', c ∈ cs → c' ∈ cs' → hash (in_spec c) = hash (in_spec c') →
    specString fraction_to_string (in_spec c) = specString fraction_to_string (in_spec c').

Lemma same_config_ids cs cs' : Forall2 same_config cs cs' → in_contractId <$> cs = in_contractId <$> cs'.
Proof. induction 1 as [|c c' cs cs' [Hc _] _ IH]; [done|]. cbn. by rewrite Hc, IH. Qed.

Lemma locked_of_config now h cs i c name :
  NoDup (in_contractId <$> cs) → cs !! i = Some c →
  locked_entry (createLockFile fraction_to_string sha256 now h cs) (in_contractId c) name =
  Some (i, {| lf_contractId := in_contractId c; lf_name := shown_name c; lf_specHash := hash (in_spec c); lf_resolvedAt := now; lf_source := in_source c |}).
Proof.
  intros Hnd Hi. unfold locked_entry. cbn [createLockFile lf_contracts]. set (entry := λ c, Build_LockFileContract _ _ _ _ _).
  erewrite (map_by_get (λ p : nat * LockFileContract, lf_contractId p.2) id _ i (i, entry c)); [done| |].
  - assert ((λ p : nat * LockFileContract, lf_contractId p.2) <$> imap pair (entry <$> cs) = in_contractId <$> cs) as ->; [|done].
    apply list_eq. intros j. rewrite !list_lookup_fmap, list_lookup_imap, list_lookup_fmap. by destruct (cs !! j).
  - rewrite list_lookup_imap, list_lookup_fmap, Hi. done.
Qed.

Lemma changes_of_configs now h cs cs' l l' n :
  NoDup (in_contractId <$> cs) → collision_free cs cs' → Forall2 same_config l l' →
  (∀ i c, l !! i = Some c → cs !! (n + i) = Some c) → (∀ c', c' ∈ l' → c' ∈ cs') →
  omap (λ p : string * Current, change_of (createLockFile fraction_to_string sha256 now h cs) p.1 p.2)
    ((λ c, (in_contractId c, current_of fraction_to_string sha256 c)) <$> l') = omap modification (zip l l').
Proof.
  intros Hnd Hcf Hl. revert n. induction Hl as [|c c' l l' [Hid Hname] Hl IH]; intros n Hcs Hcs'; [done|].
  cbn [fmap list_fmap zip_with omap list_omap]. rewrite (IH (S n)); cycle 1.
  { intros i x Hi. rewrite Nat.add_succ_comm. by apply (Hcs (S i)). }
  { intros x Hx. apply Hcs'. by right. }
  specialize (Hcs 0 c eq_refl). rewrite Nat.add_0_r in Hcs.
  unfold change_of at 1. cbn [fst snd]. rewrite <-Hid, (locked_of_config _ _ _ _ _ _ Hnd Hcs). cbn [current_of cu_specHash lf_specHash cu_name].
  set (m := modification (c, c')). unfold modification in m. cbn [fst snd] in m. subst m. case_decide as Hv.
  - apply (specString_visible fraction_to_string) in Hv. unfold generateSpecHash. by rewrite Hv, String.eqb_refl.
  - destruct (String.eqb_spec (hash (in_spec c)) (hash (in_spec c'))) as [Heq|_].
    + exfalso. apply Hv, (specString_visible fraction_to_string), Hcf; [by eapply list_elem_of_lookup_2|apply Hcs'; left|done].
    + by rewrite Hid.
Qed.

Lemma drift_of_configs now h h' cs cs' :
  NoDup (in_contractId <$> cs) → Forall2 same_config cs cs' → collision_free cs cs' →
  let changes := omap modification (zip cs cs') in
  detectDrift fraction_to_string sha256 (createLockFile fraction_to_string sha256 now h cs) h' cs' =
  {| hasChanges := negb (String.eqb h h') || (0 <? length changes); configChanged := negb (String.eqb h h'); contractChanges := changes |}.
Proof.
  intros Hnd Hcs Hcf changes. unfold detectDrift. cbn zeta.
  pose proof (same_config_ids _ _ Hcs) as Hids.
  rewrite (map_by_distinct in_contractId (current_of fraction_to_string sha256) cs') by (by rewrite <-Hids).
  rewrite (changes_of_configs now h cs cs' cs cs' 0) by done. fold changes.
  match goal with |- context [changes ++ ?g] => assert (g = []) as -> end.
  { apply elem_of_nil_inv. intros x Hx. apply list_elem_of_omap in Hx as ([i e] & Hin & Hx).
    apply elem_of_lookup_imap in Hin as (j & e' & [= -> ->] & He). cbn [createLockFile lf_contracts] in He.
    rewrite list_lookup_fmap in He. destruct (cs !! j) as [c|] eqn:Hc; [|done]. injection He as <-. cbn [fst snd lf_contractId] in Hx.
    rewrite (proj2 (mhas_true _ _)), andb_false_r in Hx; [done|].
    unfold mkeys. rewrite <-list_fmap_compose. change (in_contractId c ∈ in_contractId <$> cs'). rewrite <-Hids.
    apply list_elem_of_fmap. exists c. split; [done|]. by eapply list_elem_of_lookup_2. }
  rewrite app_nil_r. done.
Qed.

(** C30: Between a lock file written for contracts and the same contracts later,
    detectDrift reports exactly the contracts whose name, id, network, function
    names or event names are others, or a type that is called like a member of a
    spec; parameters, results and all other types are not looked at.  The ids are
    distinct and the hash does not collide on the contracts. *)
Theorem drift_exact now h h' cs cs' :
  NoDup (in_contractId <$> cs) → Forall2 same_config cs cs' → collision_free cs cs' →
  let changes := omap modification (zip cs cs') in
  detectDrift fraction_to_string sha256 (createLockFile fraction_to_string sha256 now h cs) h' cs' =
  {| hasChanges := negb (String.eqb h h') || (0 <? length changes); configChanged := negb (String.eqb h h'); contractChanges := changes |}.
Proof. apply drift_of_configs. Qed.
End drift.

(** ** Reading back what was written *)

Lemma contract_round_trip c :
  let v := JObj [("contractId", JStr (lf_contractId c)); ("name", JStr (lf_name c)); ("specHash", JStr (lf_specHash c));
    ("resolvedAt", JStr (lf_resolvedAt c)); ("source", JStr (source_json (lf_source c)))] in
  isLockFileContract v = true ∧ contract_read v = c.
Proof. destruct c as [i n s r []]; split; reflexivity. Qed.

(** A lock file that is saved and loaded is the one that was saved; so is the
    one every run creates. *)
Theorem lock_round_trip now l :
  lf_version l = "1.0.0" → loadLockFile now (Some (Some (saveLockFile l))) = Ok (Some l).
Proof.
  intros Hv. destruct l as [v h cs g]. cbn in Hv. subst v. unfold loadLockFile.
  assert (isLockFile (saveLockFile {| lf_version := "1.0.0"; lf_configHash := h; lf_contracts := cs; lf_generatedAt := g |}) = true) as ->.
  { unfold isLockFile. cbn -[forallb isLockFileContract fmap]. apply forallb_Forall, Forall_fmap, Forall_true. intros c. apply contract_round_trip. }
  do 2 f_equal. unfold lock_read. cbn -[fmap contract_read]. f_equal. rewrite <-list_fmap_compose.
  rewrite <-(list_fmap_id cs) at 2. apply list_fmap_ext. intros i c _. apply contract_round_trip.
Qed.

(** Any object without entries is read as a lock file of the old format. *)
Lemma empty_object_is_lock now : is_ok (loadLockFile now (Some (Some (JObj [])))) = true.
Proof. reflexivity. Qed.

(** ** Examples *)

Definition demo_lock_spec (params : list FieldSpec) (returns : TypeSpec) : ContractSpec :=
  {| sp_version := "1.0.0"; sp_name := "token"; sp_description := None; sp_contractId := None; sp_network := None;
     sp_functions := [{| fn_name := "transfer"; fn_doc := None; fn_params := params; fn_returns := returns |}];
     sp_events := []; sp_types := []; sp_xdrEntries := None; sp_pointer := None |}.

Definition demo_input (s : ContractSpec) : ContractInput :=
  {| in_contractId := "C"; in_name := None; in_spec := s; in_source := registry |}.

(** A function may take and return something else altogether. *)
Lemma signature_change_unnoticed (f : Z → nat → string) (sha256 : string → string) now h :
  let old := demo_lock_spec [] (TPrimitive Pvoid) in
  let new := demo_lock_spec [{| fs_name := "amount"; fs_type := TPrimitive Pi128; fs_doc := None |}] (TPrimitive Pbool) in
  hasChanges (detectDrift f sha256 (createLockFile f sha256 now h [demo_input old]) h [demo_input new]) = false.
Proof.
  intros old new. rewrite (drift_of_configs f sha256 now h h [demo_input old] [demo_input new]).
  - by rewrite String.eqb_refl.
  - apply NoDup_singleton.
  - by repeat constructor.
  - intros c c' ->%list_elem_of_singleton ->%list_elem_of_singleton _. vm_compute. reflexivity.
Qed.

(** A type is looked at only when it is called like a member of a spec. *)
Lemma type_called_name_is_seen (f : Z → nat → string) :
  let with_type n := {| sp_version := "1.0.0"; sp_name := "t"; sp_description := None; sp_contractId := None; sp_network := None;
    sp_functions := []; sp_events := []; sp_types := [(n, UStruct n None [])]; sp_xdrEntries := None; sp_pointer := None |} in
  specString f (with_type "Token") = specString f (with_type "Other") ∧ specString f (with_type "name") ≠ specString f (with_type "Token").
Proof. split; [reflexivity|vm_compute; discriminate]. Qed.

Lemma drift_exact_witness :
  let f := λ (_ : Z) (_ : nat), "" in
  let old := demo_lock_spec [] (TPrimitive Pvoid) in
  let cs := [demo_input old] in
  let cs' := [demo_input {| sp_version := "1.0.0"; sp_name := "other"; sp_description := None; sp_contractId := None; sp_network := None;
    sp_functions := []; sp_events := []; sp_types := []; sp_xdrEntries := None; sp_pointer := None |}] in
  length (contractChanges (detectDrift f id (createLockFile f id "now" "h" cs) "h" cs')) = 1.
Proof.
  intros f old cs cs'. rewrite (drift_exact f id "now" "h" "h" cs cs').
  - vm_compute. reflexivity.
  - apply NoDup_singleton.
  - repeat constructor.
  - intros c c' _ _ H. exact H.
Defined.

Lemma lock_round_trip_witness :
  loadLockFile "now" (Some (Some (saveLockFile {| lf_version := "1.0.0"; lf_configHash := "h"; lf_contracts := []; lf_generatedAt := "now" |}))) =
  Ok (Some {| lf_version := "1.0.0"; lf_configHash := "h"; lf_contracts := []; lf_generatedAt := "now" |}).
Proof. apply lock_round_trip. reflexivity. Defined.
