(* ===== verification/Taxonomy.v ===== *)
(** * The semantic taxonomy

    abi-registry/src/taxonomy.ts: the entries that give raw events a name, their
    validation and the conflicts between them; taxonomyResolver.ts, which finds
    the entry an event means; wellKnownTaxonomy.ts, the entries that are built in;
    and what pulse-core/src/EventEngine.ts asks the resolver.  Validation errors
    are the paths they are about; Date.parse and the XDR reader are arguments. *)

From S2P Require Import Prelude JsMap JsValue Decimal CanonicalJson Evidence Spec.

(** ** Entries *)

Definition TAXONOMY_NAMESPACE_ROOTS : list string :=
  ["account"; "asset"; "bridge"; "claimable"; "contract"; "data"; "governance"; "loan"; "lp"; "nft"; "offer"; "oracle";
   "payment"; "stake"; "swap"; "trustline"; "vault"].

Inductive TopicMatcher :=
  | MSymbol (symbol : string)
  | MAny (type : option PrimitiveType).

Inductive DataShape := ShapeVoid | ShapeScalar | ShapeMap | ShapeVec.
Inductive TrailingTopics := Forbidden | Allowed.

#[export] Instance DataShape_eq_dec : EqDecision DataShape.
Proof. solve_decision. Defined.
#[export] Instance TopicMatcher_eq_dec : EqDecision TopicMatcher.
Proof. solve_decision. Defined.

Record TaxonomyMatch := {
  tm_topics : list TopicMatcher;
  tm_trailingTopics : option TrailingTopics;
  tm_dataShape : option DataShape;
}.

Inductive ParameterMapping :=
  | FromTopic (index : Z) (type : PrimitiveType)
  | FromData (path : option string) (type : PrimitiveType)
  | Constant (value : jsval).

Inductive ScopeKind := KContract | KWasmHash | KInterface.

#[export] Instance ScopeKind_eq_dec : EqDecision ScopeKind.
Proof. solve_decision. Defined.

Record TaxonomyScope := {
  ts_kind : ScopeKind;
  ts_names : list string;   (** contract ids, code hashes, or the one interface *)
  ts_networks : option (list string);
}.

Record TaxonomyProvenance := {
  pv_submittedBy : string;
  pv_submittedAt : string;
  pv_sources : list string;
  pv_reviewedBy : jsval;
  pv_reviewedAt : jsval;
}.

Record TaxonomyEntry := {
  te_id : string;
  te_version : string;
  te_name : string;
  te_title : option string;
  te_description : option string;
  te_match : TaxonomyMatch;
  te_parameters : list (string * ParameterMapping);
  te_scope : TaxonomyScope;
  te_provenance : TaxonomyProvenance;
  te_supersedes : option (list string);
  te_deprecated : option bool;
}.

(** ** Patterns of names *)

Definition lower_char (c : ascii) : bool := let n := nat_of_ascii c in (97 <=? n) && (n <=? 122).

(** [/^[a-z][a-z0-9_]*$/] *)
Definition PARAMETER_NAME_RE (s : string) : bool :=
  match s with
  | "" => false
  | String c s => lower_char c && all_chars (λ c, lower_char c || digit_char c || Ascii.eqb c "_") s
  end.

(** [/^[a-z0-9][a-z0-9-]*$/] *)
Definition ID_RE (s : string) : bool :=
  match s with
  | "" => false
  | String c s => (lower_char c || digit_char c) && all_chars (λ c, lower_char c || digit_char c || Ascii.eqb c "-") s
  end.

Definition TAXONOMY_NAME_RE (s : string) : bool :=
  match str_split "." s with
  | root :: rest =>
      existsb (String.eqb root) TAXONOMY_NAMESPACE_ROOTS && (1 <=? length rest) && (length rest <=? 2) && forallb PARAMETER_NAME_RE rest
  | [] => false
  end.

(** [/^[0-9a-f]{64}$/] *)
Definition WASM_HASH_RE (s : string) : bool :=
  (String.length s =? 64) && all_chars (λ c, digit_char c || (let n := nat_of_ascii c in (97 <=? n) && (n <=? 102))) s.

(** [/^SEP-\d{1,4}$/] *)
Definition INTERFACE_RE (s : string) : bool :=
  match s with
  | String "S" (String "E" (String "P" (String "-" d))) => (1 <=? String.length d) && (String.length d <=? 4) && all_digits d
  | _ => false
  end.

(** [/^https?:\/\/\S+$/] *)
Definition url_rest (s : string) : option string :=
  match s with
  | String "h" (String "t" (String "t" (String "p" (String ":" (String "/" (String "/" r)))))) => Some r
  | String "h" (String "t" (String "t" (String "p" (String "s" (String ":" (String "/" (String "/" r))))))) => Some r
  | _ => None
  end.
Definition is_url (s : string) : bool :=
  match url_rest s with Some r => negb (String.eqb r "") && all_chars (λ c, negb (is_space c)) r | None => false end.

(** ** Validation *)

Section validation.
(** [!Number.isNaN(Date.parse(v))] *)
Context (is_date : jsval → bool).

Definition is_primitive (v : jsval) : bool := string_such (λ s, bool_decide (is_Some (primitive_of s))) v.
Definition one_of (l : list string) (v : jsval) : bool := string_such (λ s, existsb (String.eqb s) l) v.

Definition validateTopicMatcher (m : jsval) (path : string) : list string :=
  if is_record m then
    if is_str (prop m "kind") "symbol" then check (string_such IDENTIFIER_RE (prop m "symbol")) (path +:+ ".symbol")
    else if is_str (prop m "kind") "any" then check (undef_or is_primitive (prop m "type")) (path +:+ ".type")
    else [path +:+ ".kind"]
  else [path].

(** A non-empty array each of whose elements passes. *)
Definition nonempty_array (f : jsval → string → list string) (v : jsval) (path : string) : list string :=
  match v with
  | JArr [] => [path]
  | JArr l => each_element f path 0 l
  | _ => [path]
  end.

Definition validateMatch (m : jsval) (path : string) : list string :=
  if is_record m then
    nonempty_array validateTopicMatcher (prop m "topics") (path +:+ ".topics") ++
    check (undef_or (one_of ["forbidden"; "allowed"]) (prop m "trailingTopics")) (path +:+ ".trailingTopics") ++
    check (undef_or (one_of ["void"; "scalar"; "map"; "vec"]) (prop m "dataShape")) (path +:+ ".dataShape")
  else [path].

Definition natural_number (v : jsval) : bool :=
  match v with JNum n => match as_integer n with Some z => (0 <=? z)%Z | None => false end | _ => false end.

Definition validateParameterMapping (p : jsval) (path : string) : list string :=
  if is_record p then
    if is_str (prop p "from") "topic" then
      check (natural_number (prop p "index")) (path +:+ ".index") ++ check (is_primitive (prop p "type")) (path +:+ ".type")
    else if is_str (prop p "from") "data" then
      check (undef_or (string_such (λ s, negb (String.eqb s ""))) (prop p "path")) (path +:+ ".path") ++
      check (is_primitive (prop p "type")) (path +:+ ".type")
    else if is_str (prop p "from") "constant" then
      check (match prop p "value" with JStr _ | JNum _ | JBool _ => true | _ => false end) (path +:+ ".value")
    else [path +:+ ".from"]
  else [path].

Definition such (f : jsval → bool) (v : jsval) (path : string) : list string := check (f v) path.

Definition validateNetworks (v : jsval) (path : string) : list string :=
  if is_undef v then [] else nonempty_array (such (one_of NETWORKS)) v path.

Definition validateScope (s : jsval) (path : string) : list string :=
  if is_record s then
    validateNetworks (prop s "networks") (path +:+ ".networks") ++
    (if is_str (prop s "kind") "contract" then
       nonempty_array (such (string_such CONTRACT_ID_RE)) (prop s "contractIds") (path +:+ ".contractIds")
     else if is_str (prop s "kind") "wasmHash" then
       nonempty_array (such (string_such WASM_HASH_RE)) (prop s "wasmHashes") (path +:+ ".wasmHashes")
     else if is_str (prop s "kind") "interface" then
       check (string_such INTERFACE_RE (prop s "interface")) (path +:+ ".interface")
     else [path +:+ ".kind"])
  else [path].

Definition validateProvenance (p : jsval) (path : string) : list string :=
  if is_record p then
    check (string_such (λ s, negb (String.eqb s "")) (prop p "submittedBy")) (path +:+ ".submittedBy") ++
    check (string_such (λ s, is_date (JStr s)) (prop p "submittedAt")) (path +:+ ".submittedAt") ++
    nonempty_array (such (string_such is_url)) (prop p "sources") (path +:+ ".sources") ++
    check (undef_or is_date (prop p "reviewedAt")) (path +:+ ".reviewedAt")
  else [path].

Definition validate_parameter (p : string * jsval) : list string :=
  check (PARAMETER_NAME_RE p.1) ("parameters." +:+ p.1) ++ validateParameterMapping p.2 ("parameters." +:+ p.1).

Definition validate_parameters (v : jsval) : list string :=
  match v with
  | JUndef => []
  | JObj fs => fs ≫= validate_parameter
  | _ => ["parameters"]
  end.

Definition validate_supersedes (v : jsval) : list string :=
  if is_undef v then [] else validate_array (such (string_such ID_RE)) v "supersedes".

Definition validateTaxonomyEntry (entry : jsval) : list string :=
  if is_record entry then
    check (string_such ID_RE (prop entry "id")) "id" ++
    check (string_such SEMVER_RE (prop entry "version")) "version" ++
    check (string_such TAXONOMY_NAME_RE (prop entry "name")) "name" ++
    check (undef_or (string_such (λ _, true)) (prop entry "title")) "title" ++
    check (undef_or (string_such (λ _, true)) (prop entry "description")) "description" ++
    validateMatch (prop entry "match") "match" ++
    validateScope (prop entry "scope") "scope" ++
    validateProvenance (prop entry "provenance") "provenance" ++
    validate_parameters (prop entry "parameters") ++
    validate_supersedes (prop entry "supersedes") ++
    check (undef_or (λ v, bool_decide (is_Some (as_bool v))) (prop entry "deprecated")) "deprecated"
  else ["root"].
End validation.

(** ** The entries a value stands for *)

Definition opt_read {A} (f : jsval → option A) (v : jsval) : option (option A) :=
  if is_undef v then Some None else Some <$> f v.

Definition primitive_read (v : jsval) : option PrimitiveType := s ← as_string v; primitive_of s.

Definition matcher_read (m : jsval) : option TopicMatcher :=
  if is_str (prop m "kind") "symbol" then MSymbol <$> as_string (prop m "symbol")
  else if is_str (prop m "kind") "any" then MAny <$> opt_read primitive_read (prop m "type")
  else None.

Definition shape_read (v : jsval) : option DataShape :=
  if is_str v "void" then Some ShapeVoid
  else if is_str v "scalar" then Some ShapeScalar
  else if is_str v "map" then Some ShapeMap
  else if is_str v "vec" then Some ShapeVec
  else None.

Definition trailing_read (v : jsval) : option TrailingTopics :=
  if is_str v "forbidden" then Some Forbidden else if is_str v "allowed" then Some Allowed else None.

Definition match_read (m : jsval) : option TaxonomyMatch :=
  topics ← list_of matcher_read (prop m "topics");
  trailing ← opt_read trailing_read (prop m "trailingTopics");
  shape ← opt_read shape_read (prop m "dataShape");
  Some {| tm_topics := topics; tm_trailingTopics := trailing; tm_dataShape := shape |}.

Definition index_read (v : jsval) : option Z := n ← as_number v; as_integer n.

Definition constant_read (v : jsval) : option jsval :=
  match v with JStr _ | JNum _ | JBool _ => Some v | _ => None end.

Definition mapping_read (p : jsval) : option ParameterMapping :=
  if is_str (prop p "from") "topic" then
    index ← index_read (prop p "index"); type ← primitive_read (prop p "type"); Some (FromTopic index type)
  else if is_str (prop p "from") "data" then
    path ← opt_read as_string (prop p "path"); type ← primitive_read (prop p "type"); Some (FromData path type)
  else if is_str (prop p "from") "constant" then Constant <$> constant_read (prop p "value")
  else None.

Definition parameters_read (v : jsval) : option (list (string * ParameterMapping)) :=
  match v with
  | JUndef => Some []
  | JObj fs => mapM (λ p : string * jsval, m ← mapping_read p.2; Some (p.1, m)) fs
  | _ => None
  end.

Definition scope_names (s : jsval) : option (ScopeKind * list string) :=
  if is_str (prop s "kind") "contract" then pair KContract <$> list_of as_string (prop s "contractIds")
  else if is_str (prop s "kind") "wasmHash" then pair KWasmHash <$> list_of as_string (prop s "wasmHashes")
  else if is_str (prop s "kind") "interface" then (λ i, (KInterface, [i])) <$> as_string (prop s "interface")
  else None.

Definition scope_read (s : jsval) : option TaxonomyScope :=
  networks ← opt_read (list_of as_string) (prop s "networks");
  names ← scope_names s;
  Some {| ts_kind := names.1; ts_names := names.2; ts_networks := networks |}.

Definition provenance_read (p : jsval) : option TaxonomyProvenance :=
  by_ ← as_string (prop p "submittedBy");
  at_ ← as_string (prop p "submittedAt");
  sources ← list_of as_string (prop p "sources");
  Some {| pv_submittedBy := by_; pv_submittedAt := at_; pv_sources := sources; pv_reviewedBy := prop p "reviewedBy"; pv_reviewedAt := prop p "reviewedAt" |}.

Definition entry_read (v : jsval) : option TaxonomyEntry :=
  id ← as_string (prop v "id");
  version ← as_string (prop v "version");
  name ← as_string (prop v "name");
  title ← opt_read as_string (prop v "title");
  description ← opt_read as_string (prop v "description");
  match_ ← match_read (prop v "match");
  scope ← scope_read (prop v "scope");
  provenance ← provenance_read (prop v "provenance");
  parameters ← parameters_read (prop v "parameters");
  supersedes ← opt_read (list_of as_string) (prop v "supersedes");
  deprecated ← opt_read as_bool (prop v "deprecated");
  Some {| te_id := id; te_version := version; te_name := name; te_title := title; te_description := description; te_match := match_;
          te_parameters := parameters; te_scope := scope; te_provenance := provenance; te_supersedes := supersedes; te_deprecated := deprecated |}.

(** Well-formed entries. *)
Definition wf_matcher (m : TopicMatcher) : bool := match m with MSymbol s => IDENTIFIER_RE s | MAny _ => true end.
Definition wf_match (m : TaxonomyMatch) : bool := (1 <=? length (tm_topics m)) && forallb wf_matcher (tm_topics m).
Definition wf_mapping (p : ParameterMapping) : bool :=
  match p with
  | FromTopic i _ => (0 <=? i)%Z
  | FromData path _ => from_option (λ s, negb (String.eqb s "")) true path
  | Constant _ => true
  end.
Definition wf_parameter (p : string * ParameterMapping) : bool := PARAMETER_NAME_RE p.1 && wf_mapping p.2.
Definition some_of (f : string → bool) (l : list string) : bool := (1 <=? length l) && forallb f l.
Definition wf_scope (s : TaxonomyScope) : bool :=
  from_option (some_of (λ n, existsb (String.eqb n) NETWORKS)) true (ts_networks s) &&
  match ts_kind s with
  | KContract => some_of CONTRACT_ID_RE (ts_names s)
  | KWasmHash => some_of WASM_HASH_RE (ts_names s)
  | KInterface => some_of INTERFACE_RE (ts_names s)
  end.

Section wf.
Context (is_date : jsval → bool).
Definition wf_provenance (p : TaxonomyProvenance) : bool :=
  negb (String.eqb (pv_submittedBy p) "") && is_date (JStr (pv_submittedAt p)) && some_of is_url (pv_sources p) && undef_or is_date (pv_reviewedAt p).
Definition wf_entry (e : TaxonomyEntry) : bool :=
  ID_RE (te_id e) && SEMVER_RE (te_version e) && TAXONOMY_NAME_RE (te_name e) && wf_match (te_match e) && wf_scope (te_scope e) &&
  wf_provenance (te_provenance e) && forallb wf_parameter (te_parameters e) && from_option (forallb ID_RE) true (te_supersedes e).
End wf.

(** *** Validation against the reading *)

Definition read_as {A} (r : option A) (wf : A → bool) : Prop := ∃ a, r = Some a ∧ wf a = true.

Lemma such_read f v : string_such f v = true ↔ read_as (as_string v) f.
Proof. unfold read_as. destruct v; cbn; naive_solver. Qed.

Lemma opt_such_read {A} (f : jsval → bool) (rd : jsval → option A) wf v :
  (∀ w, f w = true ↔ read_as (rd w) wf) → undef_or f v = true ↔ read_as (opt_read rd v) (from_option wf true).
Proof.
  intros Hf. rewrite undef_or_true, Hf. unfold read_as, opt_read. destruct v; cbn; try (split; [by exists None|by left]);
    (split; [intros [[=]|(a & -> & Ha)]; exists (Some a); done|]; intros (o & Ho & Hw); right;
     match type of Ho with _ <$> ?r = _ => destruct r as [a|] eqn:Hr; [|done]; injection Ho as <-; exists a; done end).
Qed.

Lemma primitive_such_read v : is_primitive v = true ↔ read_as (primitive_read v) (λ _, true).
Proof.
  unfold is_primitive, primitive_read, read_as. destruct v as [| | | |s| |]; cbn; try (apply no_type; [done|by intros (? & [=] & _)]).
  rewrite bool_decide_eq_true. unfold is_Some. naive_solver.
Qed.

(** A list of texts, and one that is not empty. *)
Lemma such_array_read (f : string → bool) v path :
  validate_array (such (string_such f)) v path = [] ↔ read_as (list_of as_string v) (forallb f).
Proof.
  apply (array_read (such (string_such f)) as_string f). intros w p. unfold such. rewrite check_nil. apply such_read.
Qed.

Lemma nonempty_array_read {A} (f : jsval → string → list string) (rd : jsval → option A) wf v path :
  (∀ w, sound_and_complete f rd wf w) →
  nonempty_array f v path = [] ↔ read_as (list_of rd v) (λ l, (1 <=? length l) && forallb wf l).
Proof.
  intros Hf. pose proof (array_read f rd wf v path Hf) as Hr. unfold read_as, list_of in *.
  destruct v as [| | | | |l|]; try (apply no_type; [done|by intros (? & [=] & _)]). cbn in Hr |- *.
  destruct l as [|w l].
  - apply no_type; [done|]. by intros (k & [= <-] & Hk).
  - rewrite Hr. split; intros (k & Hk & Hw); exists k; (split; [done|]).
    + apply length_mapM in Hk. by destruct k as [|a k].
    + by apply andb_true_iff in Hw as [_ ?].
Qed.

Lemma such_nonempty_read (f : string → bool) v path :
  nonempty_array (such (string_such f)) v path = [] ↔ read_as (list_of as_string v) (some_of f).
Proof.
  apply (nonempty_array_read (such (string_such f)) as_string f). intros w p. unfold such. rewrite check_nil. apply such_read.
Qed.

Lemma fmap_read {A B} (c : A → B) (wfa : A → bool) (wfb : B → bool) (r : option A) :
  (∀ a, wfb (c a) = wfa a) → read_as r wfa ↔ read_as (c <$> r) wfb.
Proof. apply read_one. Qed.

Lemma bind_read {A B} (r : option A) (wfa : A → bool) (f : A → option B) (wfb : B → bool) (Q : Prop) :
  (∀ a, r = Some a → read_as (f a) wfb ↔ wfa a = true ∧ Q) → read_as r wfa ∧ Q ↔ read_as (r ≫= f) wfb.
Proof.
  intros H. unfold read_as in *. destruct r as [a|]; cbn.
  - rewrite H by done. naive_solver.
  - naive_solver.
Qed.

Lemma matcher_sound v : sound_and_complete validateTopicMatcher matcher_read wf_matcher v.
Proof.
  intros path. unfold validateTopicMatcher, matcher_read. destruct (is_record v) eqn:Hv.
  2: { apply no_type; [done|]. rewrite !record_prop by done. by intros (? & [=] & _). }
  destruct (is_str _ "symbol"); [|destruct (is_str _ "any"); [|by apply no_type; [|intros (? & [=] & _)]]].
  - rewrite check_nil, such_read. by apply fmap_read.
  - rewrite check_nil, (opt_such_read _ _ _ _ primitive_such_read). apply fmap_read. by intros [].
Qed.

Lemma trailing_sound v : one_of ["forbidden"; "allowed"] v = true ↔ read_as (trailing_read v) (λ _, true).
Proof.
  unfold one_of, trailing_read, read_as. rewrite string_such_read. destruct v as [| | | |s| |]; try (apply no_type; [by intros (? & [=] & _)|by intros (? & [=] & _)]).
  cbn. destruct (String.eqb s "forbidden") eqn:H1, (String.eqb s "allowed") eqn:H2; cbn;
    (split; [intros (? & [= <-] & H); try (rewrite H1, H2 in H; done); eauto|intros _; exists s; by rewrite ?H1, ?H2]) || idtac.
  apply no_type; [|by intros (? & [=] & _)]. intros (? & [= <-] & H). by rewrite H1, H2 in H.
Qed.

Lemma shape_sound v : one_of ["void"; "scalar"; "map"; "vec"] v = true ↔ read_as (shape_read v) (λ _, true).
Proof.
  unfold one_of, shape_read, read_as. rewrite string_such_read. destruct v as [| | | |s| |]; try (apply no_type; [by intros (? & [=] & _)|by intros (? & [=] & _)]).
  cbn. destruct (String.eqb s "void") eqn:H1; [|destruct (String.eqb s "scalar") eqn:H2; [|destruct (String.eqb s "map") eqn:H3; [|destruct (String.eqb s "vec") eqn:H4]]].
  1-4: split; [by eexists|]; intros _; exists s; by rewrite ?H1, ?H2, ?H3, ?H4.
  apply no_type; [|by intros (? & [=] & _)]. intros (? & [= <-] & H). by rewrite H1, H2, H3, H4 in H.
Qed.

(** Both of two readings, in one. *)
Lemma and_read {A B} (ra : option A) (rb : option B) wfa wfb :
  read_as ra wfa ∧ read_as rb wfb ↔ read_as (a ← ra; b ← rb; Some (a, b)) (λ p, wfa p.1 && wfb p.2).
Proof. apply (read_two pair). done. Qed.

Lemma match_sound v : sound_and_complete validateMatch match_read wf_match v.
Proof.
  intros path. unfold validateMatch, match_read, wf_match. destruct (is_record v) eqn:Hv.
  2: { apply no_type; [done|]. rewrite !record_prop by done. by intros (? & [=] & _). }
  rewrite !app_nil_both, !check_nil, (nonempty_array_read _ _ _ _ _ matcher_sound),
    (opt_such_read _ _ _ _ trailing_sound), (opt_such_read _ _ _ _ shape_sound).
  apply read_three. intros t [] []; cbn; by rewrite !andb_true_r.
Qed.

Lemma index_sound v : natural_number v = true ↔ read_as (index_read v) (λ z, (0 <=? z)%Z).
Proof.
  unfold natural_number, index_read, read_as. destruct v as [| | |n| | |]; cbn; try (apply no_type; [done|by intros (? & [=] & _)]).
  destruct (as_integer n) as [z|]; cbn; naive_solver.
Qed.

Lemma constant_sound v : match v with JStr _ | JNum _ | JBool _ => true | _ => false end = true ↔ read_as (constant_read v) (λ _, true).
Proof. unfold read_as. destruct v; cbn; naive_solver. Qed.

Lemma mapping_sound v : sound_and_complete validateParameterMapping mapping_read wf_mapping v.
Proof.
  intros path. unfold validateParameterMapping, mapping_read. destruct (is_record v) eqn:Hv.
  2: { apply no_type; [done|]. rewrite !record_prop by done. by intros (? & [=] & _). }
  destruct (is_str _ "topic"); [|destruct (is_str _ "data"); [|destruct (is_str _ "constant"); [|by apply no_type; [|intros (? & [=] & _)]]]].
  - rewrite app_nil_both, !check_nil, index_sound, primitive_such_read. apply read_two. intros i p. by rewrite andb_true_r.
  - rewrite app_nil_both, !check_nil, (opt_such_read _ as_string (λ s, negb (String.eqb s "")) _ (such_read _)), primitive_such_read.
    apply read_two. intros o p. by rewrite andb_true_r.
  - rewrite check_nil, constant_sound. by apply fmap_read.
Qed.

Lemma parameters_sound v : validate_parameters v = [] ↔ read_as (parameters_read v) (forallb wf_parameter).
Proof.
  unfold read_as. destruct v as [| | | | | |fs]; cbn; try (apply no_type; [done|by intros (? & [=] & _)]); [by split; [exists []|]|].
  induction fs as [|[k w] fs IH]; cbn; [by split; [exists []|]|].
  rewrite app_nil_both, IH. unfold validate_parameter. rewrite app_nil_both, check_nil, (mapping_sound w _). cbn [fst snd].
  destruct (mapping_read w) as [m|]; cbn; [|by apply no_type; [intros [[_ (? & [=] & _)] _]|intros (? & [=] & _)]].
  destruct (mapM _ fs) as [l|]; cbn; [|by apply no_type; [intros [_ (? & [=] & _)]|intros (? & [=] & _)]].
  split.
  - intros [[Hk (m' & [= <-] & Hm)] (l' & [= <-] & Hl)]. eexists. split; [done|]. cbn. unfold wf_parameter at 1. cbn. by rewrite Hk, Hm, Hl.
  - intros (l' & [= <-] & Hw). cbn in Hw. unfold wf_parameter at 1 in Hw. cbn in Hw.
    apply andb_true_iff in Hw as [[? ?]%andb_true_iff ?]. naive_solver.
Qed.

Lemma networks_sound v path :
  validateNetworks v path = [] ↔ read_as (opt_read (list_of as_string) v) (from_option (some_of (λ n, existsb (String.eqb n) NETWORKS)) true).
Proof.
  unfold validateNetworks, opt_read. destruct (is_undef v); [by split; [exists None|]|].
  assert (nonempty_array (such (one_of NETWORKS)) v path = nonempty_array (such (string_such (λ n, existsb (String.eqb n) NETWORKS))) v path) as -> by done.
  rewrite such_nonempty_read. by apply fmap_read.
Qed.

Definition scope_names_ok (p : ScopeKind * list string) : bool :=
  match p.1 with KContract => some_of CONTRACT_ID_RE p.2 | KWasmHash => some_of WASM_HASH_RE p.2 | KInterface => some_of INTERFACE_RE p.2 end.

Lemma scope_sound v : sound_and_complete validateScope scope_read wf_scope v.
Proof.
  intros path. unfold validateScope, scope_read. destruct (is_record v) eqn:Hv.
  2: { unfold scope_names. apply no_type; [done|]. rewrite !record_prop by done. by intros (? & [=] & _). }
  rewrite app_nil_both, networks_sound.
  match goal with |- _ ∧ ?x = [] ↔ _ => assert (x = [] ↔ read_as (scope_names v) scope_names_ok) as -> end.
  { unfold scope_names. destruct (is_str _ "contract"); [|destruct (is_str _ "wasmHash"); [|destruct (is_str _ "interface");
      [|by apply no_type; [|intros (? & [=] & _)]]]].
    - rewrite such_nonempty_read. by apply fmap_read.
    - rewrite such_nonempty_read. by apply fmap_read.
    - rewrite check_nil, such_read. apply fmap_read. intros i. cbn. by rewrite andb_true_r. }
  apply read_two. intros o [[] l]; done.
Qed.

Section entries.
Context (is_date : jsval → bool).

Lemma provenance_sound v : sound_and_complete (validateProvenance is_date) provenance_read (wf_provenance is_date) v.
Proof.
  intros path. unfold validateProvenance, provenance_read. destruct (is_record v) eqn:Hv.
  2: { apply no_type; [done|]. rewrite !record_prop by done. by intros (? & [=] & _). }
  rewrite !app_nil_both, !check_nil, such_nonempty_read, !such_read. unfold wf_provenance.
  rewrite <-(read_three (λ b a s, {| pv_submittedBy := b; pv_submittedAt := a; pv_sources := s; pv_reviewedBy := prop v "reviewedBy"; pv_reviewedAt := prop v "reviewedAt" |})
    (λ s, negb (String.eqb s "")) (λ s, is_date (JStr s)) (λ l, some_of is_url l && undef_or is_date (prop v "reviewedAt")));
    [|intros; cbn; by rewrite !andb_assoc].
  unfold read_as. split.
  - intros (? & ? & (l & ? & Hl) & Hr). split_and!; try done. exists l. split; [done|]. by rewrite Hl, Hr.
  - intros (? & ? & (l & ? & [Hl Hr]%andb_true_iff)). split_and!; try done. by exists l.
Qed.

Lemma entry_sound v : validateTaxonomyEntry is_date v = [] ↔ read_as (entry_read v) (wf_entry is_date).
Proof.
  unfold validateTaxonomyEntry. destruct (is_record v) eqn:Hv.
  2: { unfold entry_read. apply no_type; [done|]. rewrite !record_prop by done. by intros (? & [=] & _). }
  rewrite !app_nil_both, !check_nil, !such_read, (match_sound _ _), (scope_sound _ _), (provenance_sound _ _), parameters_sound.
  assert (validate_supersedes (prop v "supersedes") = [] ↔ read_as (opt_read (list_of as_string) (prop v "supersedes")) (from_option (forallb ID_RE) true)) as ->.
  { unfold validate_supersedes, opt_read. destruct (is_undef _); [by split; [exists None|]|]. rewrite such_array_read. by apply fmap_read. }
  rewrite !(opt_such_read _ as_string (λ _, true) _ (such_read _)).
  assert (∀ w, bool_decide (is_Some (as_bool w)) = true ↔ read_as (as_bool w) (λ _, true)) as Hb.
  { intros w. rewrite bool_decide_eq_true. unfold read_as, is_Some. naive_solver. }
  rewrite (opt_such_read _ _ _ _ Hb). unfold read_as, entry_read. clear Hb. split.
  - intros ((id & -> & Hid) & (ve & -> & Hve) & (na & -> & Hna) & (ti & -> & _) & (de & -> & _) & (m & -> & Hm) & (s & -> & Hs) &
      (p & -> & Hp) & (ps & -> & Hps) & (su & -> & Hsu) & (dp & -> & _)). eexists. split; [reflexivity|].
    unfold wf_entry. cbn. by rewrite Hid, Hve, Hna, Hm, Hs, Hp, Hps, Hsu.
  - intros (e & He & Hw).
    do 11 (match type of He with (?r ≫= _) = Some _ => destruct r eqn:?; [|done]; cbn [mbind option_bind] in He end).
    injection He as <-. unfold wf_entry in Hw. cbn in Hw. bool_to_prop. split_and!; eexists; (split; [reflexivity|]); try done;
      match goal with |- from_option _ _ ?o = true => by destruct o end.
Qed.
End entries.

(** validateTaxonomyEntry finds nothing wrong exactly with a value that reads
    as a typed entry whose names, ids, hashes, networks and sources have their
    form. *)
Theorem valid_entries_typed (is_date : jsval → bool) v :
  validateTaxonomyEntry is_date v = [] ↔ ∃ e, entry_read v = Some e ∧ wf_entry is_date e = true.
Proof. apply entry_sound. Qed.

(** ** Conflicts *)

Inductive ConflictKind := DuplicateId | AmbiguousMapping | DuplicateMapping.

#[export] Instance ConflictKind_eq_dec : EqDecision ConflictKind.
Proof. solve_decision. Defined.

Record TaxonomyConflict := { cf_kind : ConflictKind; cf_entryIds : string * string }.

Definition matcher_text (m : TopicMatcher) : string :=
  match m with
  | MSymbol s => "symbol:" +:+ s
  | MAny t => "any:" +:+ from_option primitive_name "*" t
  end.

Definition trailing_text (t : TrailingTopics) : string := match t with Forbidden => "forbidden" | Allowed => "allowed" end.
Definition shape_text (s : DataShape) : string :=
  match s with ShapeVoid => "void" | ShapeScalar => "scalar" | ShapeMap => "map" | ShapeVec => "vec" end.

Definition match_json (m : TaxonomyMatch) : jsval :=
  JObj [("topics", JArr ((λ t, JStr (matcher_text t)) <$> tm_topics m));
        ("trailingTopics", JStr (trailing_text (default Forbidden (tm_trailingTopics m))));
        ("dataShape", JStr (from_option shape_text "*" (tm_dataShape m)))].

Definition normalizedMatchKey (m : TaxonomyMatch) : string := stringify (λ _ _, "") (match_json m).

(** [a.some((x) => b.includes(x))] *)
Definition shares (a b : list string) : bool := existsb (λ x, existsb (String.eqb x) b) a.

Definition networksOverlap (a b : TaxonomyScope) : bool :=
  match ts_networks a, ts_networks b with Some l, Some k => shares l k | _, _ => true end.

Definition scopesOverlap (a b : TaxonomyScope) : bool :=
  bool_decide (ts_kind a = ts_kind b) && networksOverlap a b && shares (ts_names a) (ts_names b).

(** [a.supersedes?.includes(id)] *)
Definition supersedes (a : TaxonomyEntry) (id : string) : bool := existsb (String.eqb id) (default [] (te_supersedes a)).

Definition conflict_of (a b : TaxonomyEntry) : list TaxonomyConflict :=
  if String.eqb (te_id a) (te_id b) then [{| cf_kind := DuplicateId; cf_entryIds := (te_id a, te_id b) |}]
  else if supersedes a (te_id b) || supersedes b (te_id a) then []
  else if negb (String.eqb (normalizedMatchKey (te_match a)) (normalizedMatchKey (te_match b))) then []
  else if negb (scopesOverlap (te_scope a) (te_scope b)) then []
  else [{| cf_kind := if String.eqb (te_name a) (te_name b) then DuplicateMapping else AmbiguousMapping; cf_entryIds := (te_id a, te_id b) |}].

Fixpoint findTaxonomyConflicts (entries : list TaxonomyEntry) : list TaxonomyConflict :=
  match entries with
  | [] => []
  | a :: rest => (rest ≫= conflict_of a) ++ findTaxonomyConflicts rest
  end.

(** ** The resolver *)

Inductive ResolvableTopic :=
  | TSymbol (symbol : string)
  | TValue (type : option PrimitiveType).

Record ResolvableEvent := {
  rv_contractId : string;
  rv_topics : list ResolvableTopic;
  rv_dataShape : option DataShape;
  rv_network : option string;
  rv_wasmHash : option string;
  rv_interfaces : option (list string);
}.

Record TaxonomyResolution := {
  tr_name : string;
  tr_entryId : string;
  tr_entryVersion : string;
  tr_scope : ScopeKind;
  tr_deprecated : bool;
}.

Definition SCOPE_RANK (k : ScopeKind) : nat := match k with KContract => 3 | KWasmHash => 2 | KInterface => 1 end.

Definition networkApplies (scope : TaxonomyScope) (network : option string) : bool :=
  match ts_networks scope with
  | None | Some [] => true
  | Some l => match network with Some n => negb (String.eqb n "") && existsb (String.eqb n) l | None => false end
  end.

Definition scopeApplies (scope : TaxonomyScope) (event : ResolvableEvent) : bool :=
  networkApplies scope (rv_network event) &&
  match ts_kind scope with
  | KContract => existsb (String.eqb (rv_contractId event)) (ts_names scope)
  | KWasmHash => match rv_wasmHash event with Some h => existsb (String.eqb (to_lower h)) (ts_names scope) | None => false end
  | KInterface => match rv_interfaces event with Some l => shares (ts_names scope) l | None => false end
  end.

Definition matchesTopic (matcher : TopicMatcher) (topic : ResolvableTopic) : bool :=
  match matcher, topic with
  | MSymbol s, TSymbol s' => String.eqb s' s
  | MSymbol _, TValue _ => false
  | MAny None, _ => true
  | MAny (Some p), TSymbol _ => bool_decide (p = Psymbol)
  | MAny (Some p), TValue t => bool_decide (t = Some p)
  end.

Fixpoint topics_match (matchers : list TopicMatcher) (topics : list ResolvableTopic) : bool :=
  match matchers, topics with
  | [], _ => true
  | m :: ms, t :: ts => matchesTopic m t && topics_match ms ts
  | _ :: _, [] => false
  end.

Definition matchesPattern (m : TaxonomyMatch) (event : ResolvableEvent) : bool :=
  let n := length (rv_topics event) in
  (length (tm_topics m) <=? n) &&
  match default Forbidden (tm_trailingTopics m) with Forbidden => n =? length (tm_topics m) | Allowed => true end &&
  topics_match (tm_topics m) (rv_topics event) &&
  match tm_dataShape m with Some s => bool_decide (rv_dataShape event = Some s) | None => true end.

Record TaxonomyResolver := {
  tx_entries : list TaxonomyEntry;
  tx_superseded : list string;
}.

(** What the constructor throws: the list of problems, or, for an entry that is
    no entry, whatever reading it throws. *)
Inductive TaxonomyLoadError := NotLoadable.

Definition blocking (c : TaxonomyConflict) : bool := negb (bool_decide (cf_kind c = DuplicateMapping)).

Section construct.
Context (is_date : jsval → bool).

Definition new_TaxonomyResolver (values : list jsval) : result TaxonomyLoadError TaxonomyResolver :=
  match forallb (λ v, bool_decide (validateTaxonomyEntry is_date v = [])) values, mapM entry_read values with
  | true, Some entries =>
      if existsb blocking (findTaxonomyConflicts entries) then Err NotLoadable
      else Ok {| tx_entries := entries; tx_superseded := entries ≫= λ e, default [] (te_supersedes e) |}
  | _, _ => Err NotLoadable
  end.
End construct.

Record AmbiguousTaxonomyError := { am_names : list string; am_entryIds : list string }.

(** [[...new Set(l)]] *)
Definition unique_names (l : list string) : list string :=
  foldl (λ acc x, if existsb (String.eqb x) acc then acc else acc ++ [x]) [] l.

Definition applies (event : ResolvableEvent) (e : TaxonomyEntry) : bool :=
  scopeApplies (te_scope e) event && matchesPattern (te_match e) event.

Definition is_superseded (r : TaxonomyResolver) (e : TaxonomyEntry) : bool := existsb (String.eqb (te_id e)) (tx_superseded r).

Definition rank (e : TaxonomyEntry) : nat := SCOPE_RANK (ts_kind (te_scope e)).

Definition is_deprecated (e : TaxonomyEntry) : bool := bool_decide (te_deprecated e = Some true).

(** [l.length > 0 ? l : k] *)
Definition or_else {A} (l k : list A) : list A := match l with [] => k | _ => l end.

Definition resolution (e : TaxonomyEntry) : TaxonomyResolution :=
  {| tr_name := te_name e; tr_entryId := te_id e; tr_entryVersion := te_version e; tr_scope := ts_kind (te_scope e); tr_deprecated := is_deprecated e |}.

(** The entries of the best rank among the live ones, current ones first. *)
Definition top_entries (r : TaxonomyResolver) (event : ResolvableEvent) : list TaxonomyEntry :=
  let candidates := List.filter (applies event) (tx_entries r) in
  let pool := or_else (List.filter (λ e, negb (is_superseded r e)) candidates) candidates in
  let bestRank := foldr Nat.max 0 (rank <$> pool) in
  let top := List.filter (λ e, rank e =? bestRank) pool in
  or_else (List.filter (λ e, negb (is_deprecated e)) top) top.

Definition resolve (r : TaxonomyResolver) (event : ResolvableEvent) : result AmbiguousTaxonomyError (option TaxonomyResolution) :=
  match List.filter (applies event) (tx_entries r) with
  | [] => Ok None
  | _ =>
      let top := top_entries r event in
      let names := unique_names (te_name <$> top) in
      if 1 <? length names then Err {| am_names := names; am_entryIds := te_id <$> top |}
      else Ok (resolution <$> head top)
  end.

(** ** What is built in *)

Definition SEP41_SOURCES : list string :=
  ["https://github.com/stellar/stellar-protocol/blob/master/ecosystem/sep-0041.md";
   "https://github.com/determined-001/orbital_stellar/blob/main/packages/abi-registry/specs/well-known/usdc.json"].

Definition sep41Entry (id name title description symbol : string) (addressTopics : nat) : TaxonomyEntry :=
  {| te_id := id; te_version := "1.0.0"; te_name := name; te_title := Some title; te_description := Some description;
     te_match := {| tm_topics := MSymbol symbol :: replicate addressTopics (MAny (Some Paddress)); tm_trailingTopics := Some Allowed;
                    tm_dataShape := Some ShapeScalar |};
     te_parameters := [];
     te_scope := {| ts_kind := KInterface; ts_names := ["SEP-41"]; ts_networks := None |};
     te_provenance := {| pv_submittedBy := "@determined-001"; pv_submittedAt := "2026-09-06T00:00:00Z"; pv_sources := SEP41_SOURCES;
                         pv_reviewedBy := JUndef; pv_reviewedAt := JUndef |};
     te_supersedes := None; te_deprecated := None |}.

Definition SEP41_TAXONOMY : list TaxonomyEntry :=
  [sep41Entry "sep41-transfer" "asset.transferred" "Token transferred" "A SEP-41 token moved from one holder to another." "transfer" 2;
   sep41Entry "sep41-mint" "asset.minted" "Token minted" "A SEP-41 token's admin created new supply and credited a holder." "mint" 2;
   sep41Entry "sep41-burn" "asset.burned" "Token burned" "A holder destroyed some of their own SEP-41 token balance." "burn" 1;
   sep41Entry "sep41-clawback" "asset.clawed_back" "Token clawed back"
     "A SEP-41 token's admin reclaimed balance from a holder without the holder's consent." "clawback" 2].

(** ** What the engine asks *)

(** A value the XDR reader gives, as far as the sniffing looks at it. *)
Inductive ScVal :=
  | scvSymbol (s : string)
  | scvPrimitive (p : PrimitiveType)   (** scvBool to scvVoid, without symbols *)
  | scvVec | scvMap | scvOther.

Section engine.
Context (fromXDR : string → option ScVal) (fraction_to_string : Z → nat → string).

Definition sniffed_types : list PrimitiveType :=
  [Pbool; Pu32; Pi32; Pu64; Pi64; Pu128; Pi128; Pu256; Pi256; Pbytes; Pstring; Paddress; Pvoid].

Definition resolvableTopicFromXdr (base64Topic : string) : ResolvableTopic :=
  match fromXDR base64Topic with
  | Some (scvSymbol s) => TSymbol s
  | Some (scvPrimitive p) => TValue (if bool_decide (p ∈ sniffed_types) then Some p else None)
  | _ => TValue None
  end.

Definition sniffDataShape (rawValue : jsval) : option DataShape :=
  s ← as_nonempty rawValue;
  v ← fromXDR s;
  Some (match v with
        | scvPrimitive Pvoid => ShapeVoid
        | scvVec => ShapeVec
        | scvMap => ShapeMap
        | _ => ShapeScalar
        end).

(** [taxonomy] is [None] where the configuration opts out. *)
Definition resolveSemantic (taxonomy : option TaxonomyResolver) (contractId : string) (rawTopics : list jsval) (rawData : jsval)
    : result AmbiguousTaxonomyError (option TaxonomyResolution) :=
  match taxonomy with
  | None => Ok None
  | Some r =>
      resolve r {| rv_contractId := contractId; rv_topics := (λ t, resolvableTopicFromXdr (to_string fraction_to_string t)) <$> rawTopics;
                   rv_dataShape := sniffDataShape rawData; rv_network := None; rv_wasmHash := None; rv_interfaces := None |}
  end.
End engine.

(** ** The entry an event means *)

Section resolve_spec.
Context (r : TaxonomyResolver) (event : ResolvableEvent).
Implicit Types e : TaxonomyEntry.

Definition candidate e : Prop := e ∈ tx_entries r ∧ applies event e = true.

(** A superseded entry counts only when all that apply are superseded. *)
Definition in_pool e : Prop := candidate e ∧ (is_superseded r e = true → ∀ e', candidate e' → is_superseded r e' = true).

(** Of these the ones with the strongest scope. *)
Definition strongest e : Prop := in_pool e ∧ ∀ e', in_pool e' → rank e' ≤ rank e.

(** Of these the current ones, or all when none is. *)
Definition preferred e : Prop := strongest e ∧ (is_deprecated e = true → ∀ e', strongest e' → is_deprecated e' = true).

(** Of a list the elements that pass, or all of them when none does. *)
Lemma elem_of_or_else {A} (f : A → bool) (l : list A) x :
  x ∈ or_else (List.filter f l) l ↔ x ∈ l ∧ (f x = false → ∀ y, y ∈ l → f y = false).
Proof.
  unfold or_else. destruct (List.filter f l) as [|z k] eqn:Hf.
  - rewrite filter_nil_iff in Hf. naive_solver.
  - rewrite <-Hf, elem_of_List_filter. assert (z ∈ List.filter f l) as [Hz Hfz]%elem_of_List_filter by (rewrite Hf; left).
    split; [naive_solver congruence|]. intros [Hx Hn]. split; [done|]. destruct (f x); [done|]. specialize (Hn eq_refl z Hz). congruence.
Qed.

Lemma elem_of_max_filter (l : list TaxonomyEntry) e :
  e ∈ List.filter (λ e, rank e =? foldr Nat.max 0 (rank <$> l)) l ↔ e ∈ l ∧ ∀ e', e' ∈ l → rank e' ≤ rank e.
Proof.
  rewrite elem_of_List_filter, Nat.eqb_eq.
  assert (∀ e', e' ∈ l → rank e' ≤ foldr Nat.max 0 (rank <$> l)) as Hup.
  { intros e' He'. induction l as [|x l IH]; [by apply elem_of_nil in He'|]. cbn. apply elem_of_cons in He' as [->|He']; [lia|].
    specialize (IH He'). lia. }
  split; intros [He Hr]; (split; [done|]).
  - intros e' He'. rewrite Hr. by apply Hup.
  - apply Nat.le_antisymm; [by apply Hup|]. clear Hup He. induction l as [|x l IH]; cbn; [lia|].
    apply Nat.max_lub; [apply Hr; left|]. apply IH. intros e' He'. apply Hr. by right.
Qed.

Lemma elem_of_pool e :
  e ∈ or_else (List.filter (λ e, negb (is_superseded r e)) (List.filter (applies event) (tx_entries r))) (List.filter (applies event) (tx_entries r)) ↔ in_pool e.
Proof.
  rewrite elem_of_or_else. unfold in_pool, candidate. setoid_rewrite elem_of_List_filter. setoid_rewrite negb_false_iff. done.
Qed.

Lemma elem_of_top e : e ∈ top_entries r event ↔ preferred e.
Proof.
  unfold top_entries. rewrite elem_of_or_else. unfold preferred, strongest. setoid_rewrite elem_of_max_filter.
  setoid_rewrite elem_of_pool. setoid_rewrite negb_false_iff. done.
Qed.

Lemma unique_names_spec l : (∀ x, x ∈ unique_names l ↔ x ∈ l) ∧ NoDup (unique_names l).
Proof.
  unfold unique_names. induction l as [|x l [IH Hnd]] using rev_ind; [split; [done|constructor]|].
  rewrite foldl_snoc. destruct (existsb (String.eqb x) _) eqn:Hx.
  - split; [|done]. intros y. rewrite IH. apply existsb_Exists in Hx as (z & Hz & ->%String.eqb_eq). rewrite IH in Hz. set_solver.
  - assert (x ∉ foldl (λ acc y, if existsb (String.eqb y) acc then acc else acc ++ [y]) [] l) as Hn.
    { intros Hin. rewrite existsb_false in Hx. specialize (Hx x Hin). by rewrite String.eqb_refl in Hx. }
    split; [|by apply NoDup_snoc]. intros y. rewrite !elem_of_app, IH. set_solver.
Qed.

(** Several different names. *)
Lemma unique_names_many l : (1 <? length (unique_names l)) = true ↔ ∃ x y, x ∈ l ∧ y ∈ l ∧ x ≠ y.
Proof.
  destruct (unique_names_spec l) as [Hin Hnd]. rewrite Nat.ltb_lt. split.
  - intros Hlen. destruct (unique_names l) as [|x [|y k]]; cbn in Hlen; try lia. exists x, y.
    apply NoDup_cons in Hnd as [Hx _]. split_and!; [apply Hin; set_solver..|]. intros ->. apply Hx. left.
  - intros (x & y & Hx%Hin & Hy%Hin & Hne). destruct (unique_names l) as [|a [|b k]]; cbn; try lia; set_solver.
Qed.

Lemma no_candidates : List.filter (applies event) (tx_entries r) = [] ↔ ∀ e, e ∈ tx_entries r → applies event e = false.
Proof. apply filter_nil_iff. Qed.

Lemma or_else_nonempty {A} (l k : list A) : k ≠ [] → or_else l k ≠ [].
Proof. by destruct l. Qed.

Lemma max_filter_nonempty (l : list TaxonomyEntry) :
  l ≠ [] → List.filter (λ e, rank e =? foldr Nat.max 0 (rank <$> l)) l ≠ [].
Proof.
  intros Hl.
  assert (∃ e, e ∈ l ∧ ∀ e', e' ∈ l → rank e' ≤ rank e) as (e & He).
  { induction l as [|x l IH]; [done|]. destruct l as [|y l].
    - exists x. split; [left|]. by intros e' ->%list_elem_of_singleton.
    - destruct IH as (e & He & Hmax); [done|]. destruct (Nat.le_ge_cases (rank e) (rank x)).
      + exists x. split; [left|]. intros e' [->|He']%elem_of_cons; [done|]. specialize (Hmax e' He'). lia.
      + exists e. split; [by right|]. intros e' [->|He']%elem_of_cons; [done|by apply Hmax]. }
  apply elem_of_max_filter in He. intros H. rewrite H in He. by apply elem_of_nil in He.
Qed.

Lemma top_nonempty : List.filter (applies event) (tx_entries r) ≠ [] → top_entries r event ≠ [].
Proof. intros H. unfold top_entries. by apply or_else_nonempty, max_filter_nonempty, or_else_nonempty. Qed.

Lemma resolve_cases :
  match resolve r event with
  | Ok None => ∀ e, e ∈ tx_entries r → applies event e = false
  | Ok (Some res) => (∃ e, preferred e ∧ res = resolution e) ∧ ∀ e, preferred e → te_name e = tr_name res
  | Err _ => ∃ e e', preferred e ∧ preferred e' ∧ te_name e ≠ te_name e'
  end.
Proof.
  unfold resolve. pose proof no_candidates as Hno. pose proof top_nonempty as Htop.
  destruct (List.filter (applies event) (tx_entries r)) as [|c cs]; [by apply Hno|]. clear Hno.
  specialize (Htop ltac:(done)). pose proof (unique_names_many (te_name <$> top_entries r event)) as Hmany.
  destruct (1 <? length _).
  - destruct (proj1 Hmany eq_refl) as (x & y & (e & -> & He)%list_elem_of_fmap & (e' & -> & He')%list_elem_of_fmap & Hne).
    exists e, e'. by rewrite <-!elem_of_top.
  - destruct (top_entries r event) as [|e es] eqn:Ht; [done|]. cbn [head fmap option_fmap option_map]. split.
    + exists e. rewrite <-elem_of_top, Ht. split; [left|done].
    + intros e' He'. rewrite <-elem_of_top, Ht in He'. cbn. destruct (decide (te_name e' = te_name e)) as [|Hne]; [done|].
      exfalso. assert (false = true) as [=]. apply Hmany. exists (te_name e'), (te_name e).
      split_and!; [apply list_elem_of_fmap; by exists e'|cbn; left|done].
Qed.
End resolve_spec.

(** C31: The resolver answers with nothing exactly when no entry applies; else with
    one of the preferred entries (live before superseded, the strongest scope,
    current before retired), whose name all of them share, or it throws exactly
    when two of them disagree.  The name does not depend on the order of the
    entries. *)
Theorem name_exact r event :
  (resolve r event = Ok None ↔ ∀ e, e ∈ tx_entries r → applies event e = false) ∧
  (∀ name, (∃ res, resolve r event = Ok (Some res) ∧ tr_name res = name) ↔
     (∃ e, preferred r event e) ∧ ∀ e, preferred r event e → te_name e = name) ∧
  ((∃ err, resolve r event = Err err) ↔ ∃ e e', preferred r event e ∧ preferred r event e' ∧ te_name e ≠ te_name e').
Proof.
  pose proof (resolve_cases r event) as H.
  assert (∀ e, preferred r event e → e ∈ tx_entries r ∧ applies event e = true) as Hp by (intros e [[[[? ?] _] _] _]; done).
  destruct (resolve r event) as [[res|]|err].
  - destruct H as [(e & He & ->) Hall]. split_and!.
    + split; [done|]. intros Hno. destruct (Hp e He) as [Hin Ha]. by rewrite Hno in Ha.
    + intros name. split.
      * intros (res & [= <-] & <-). split; [by exists e|]. intros e' He'. by rewrite (Hall e' He').
      * intros [_ Hn]. exists (resolution e). split; [done|]. by apply Hn.
    + split; [by intros [err [=]]|]. intros (e1 & e2 & H1 & H2 & Hne). by rewrite (Hall e1 H1), (Hall e2 H2) in Hne.
  - split_and!; [done| |].
    + intros name. split; [by intros (res & [=] & _)|]. intros [[e He] _]. destruct (Hp e He) as [Hin Ha]. by rewrite H in Ha.
    + split; [by intros [err [=]]|]. intros (e1 & _ & H1 & _). destruct (Hp e1 H1) as [Hin Ha]. by rewrite H in Ha.
  - destruct H as (e1 & e2 & H1 & H2 & Hne). split_and!.
    + split; [done|]. intros Hno. destruct (Hp e1 H1) as [Hin Ha]. by rewrite Hno in Ha.
    + intros name. split; [by intros (res & [=] & _)|]. intros [_ Hn]. by rewrite (Hn e1 H1), (Hn e2 H2) in Hne.
    + split; [by exists e1, e2|]. by exists err.
Qed.

(** ** What a loaded set is free of *)

Definition same_pattern (m m' : TaxonomyMatch) : Prop :=
  tm_topics m = tm_topics m' ∧ default Forbidden (tm_trailingTopics m) = default Forbidden (tm_trailingTopics m') ∧
  tm_dataShape m = tm_dataShape m'.

Lemma matcher_text_inj m m' : matcher_text m = matcher_text m' → m = m'.
Proof.
  destruct m as [s|[p|]], m' as [s'|[p'|]]; cbn; try done.
  - by intros [= ->].
  - destruct p, p'; done.
  - by destruct p.
  - by destruct p'.
Qed.

Lemma match_json_plain m : plain (match_json m) = true.
Proof.
  unfold match_json. cbn [plain forallb]. rewrite andb_true_r. apply forallb_Forall, Forall_fmap, Forall_true. done.
Qed.

(** Two entries have one key exactly when they have one pattern. *)
Lemma match_key_exact m m' : normalizedMatchKey m = normalizedMatchKey m' ↔ same_pattern m m'.
Proof.
  unfold normalizedMatchKey. split.
  - intros H. destruct (stringify_reads _ (match_json_plain m) (match_json m') "" "" (match_json_plain m') eq_refl eq_refl) as [Hj _]; [by rewrite H|].
    unfold match_json in Hj. injection Hj as Ht Hr Hs. unfold same_pattern. split_and!.
    + assert (Inj (=) (=) (λ t, JStr (matcher_text t))) as Hinj by (intros t t' [= ?]; by apply matcher_text_inj).
      by apply (inj (fmap (λ t, JStr (matcher_text t)))) in Ht.
    + by destruct (default Forbidden (tm_trailingTopics m)), (default Forbidden (tm_trailingTopics m')).
    + destruct (tm_dataShape m) as [[]|], (tm_dataShape m') as [[]|]; done.
  - intros (Ht & Hr & Hs). unfold match_json. by rewrite Ht, Hr, Hs.
Qed.

Lemma shares_true a b : shares a b = true ↔ ∃ x, x ∈ a ∧ x ∈ b.
Proof.
  unfold shares. rewrite existsb_Exists. setoid_rewrite existsb_Exists. setoid_rewrite String.eqb_eq. naive_solver.
Qed.

Lemma mem_true x l : existsb (String.eqb x) l = true ↔ x ∈ l.
Proof. rewrite existsb_Exists. setoid_rewrite String.eqb_eq. naive_solver. Qed.

Lemma conflict_free_pairs l a b :
  existsb blocking (findTaxonomyConflicts l) = false → a ∈ l → b ∈ l → a ≠ b →
  existsb blocking (conflict_of a b) = false ∨ existsb blocking (conflict_of b a) = false.
Proof.
  induction l as [|x l IH]; [by intros _ ?%elem_of_nil|]. cbn [findTaxonomyConflicts]. rewrite existsb_app, orb_false_iff. intros [Hx Hl].
  assert (∀ y, y ∈ l → existsb blocking (conflict_of x y) = false) as Hxy.
  { intros y Hy. apply existsb_false. intros c Hc. rewrite existsb_false in Hx. apply Hx, list_elem_of_bind. by exists y. }
  intros [->|Ha]%elem_of_cons [->|Hb]%elem_of_cons Hne; [done|left; by apply Hxy|right; by apply Hxy|by apply IH].
Qed.

Lemma loaded_entries is_date values r :
  new_TaxonomyResolver is_date values = Ok r →
  existsb blocking (findTaxonomyConflicts (tx_entries r)) = false ∧ ∀ e, e ∈ tx_entries r → wf_entry is_date e = true.
Proof.
  unfold new_TaxonomyResolver. destruct (forallb _ values) eqn:Hv; [|done]. destruct (mapM entry_read values) as [es|] eqn:He; [|done].
  destruct (existsb blocking _) eqn:Hc; [done|]. intros [= <-]. cbn. split; [done|].
  rewrite forallb_Forall in Hv. clear Hc. revert es He. induction Hv as [|v values Hv _ IH]; intros es; cbn [mapM].
  - intros [= <-] e He. by apply elem_of_nil in He.
  - apply bool_decide_eq_true, entry_sound in Hv as (a & Ha & Hw). rewrite Ha. cbn.
    destruct (mapM entry_read values) as [k|]; [|done]. intros [= <-] e [->|He]%elem_of_cons; [done|]. by apply (IH k).
Qed.

Lemma networks_shared is_date event e e' :
  wf_entry is_date e = true → wf_entry is_date e' = true → applies event e = true → applies event e' = true →
  networksOverlap (te_scope e) (te_scope e') = true.
Proof.
  intros Hw Hw'. unfold applies, scopeApplies, networkApplies, networksOverlap.
  assert (∀ e, wf_entry is_date e = true → ts_networks (te_scope e) ≠ Some []) as Hne.
  { intros x Hx Hn. unfold wf_entry, wf_scope in Hx. rewrite Hn in Hx. cbn in Hx. by rewrite !andb_false_r in Hx. }
  apply Hne in Hw, Hw'. destruct (ts_networks (te_scope e)) as [[|n l]|], (ts_networks (te_scope e')) as [[|n' l']|]; try done.
  destruct (rv_network event) as [net|]; [|done]. intros Ha Ha'. bool_to_prop. apply shares_true. exists net. by rewrite <-!mem_true.
Qed.

(** The scopes of two entries of one rank that apply to an event overlap, unless
    they name different interfaces. *)
Lemma scopes_shared is_date event e e' :
  wf_entry is_date e = true → wf_entry is_date e' = true → applies event e = true → applies event e' = true → rank e = rank e' →
  scopesOverlap (te_scope e) (te_scope e') = true ∨ ts_kind (te_scope e) = KInterface ∧ ts_kind (te_scope e') = KInterface.
Proof.
  intros Hw Hw' Ha Ha' Hr. pose proof (networks_shared _ _ _ _ Hw Hw' Ha Ha') as Hn.
  unfold applies, scopeApplies in Ha, Ha'. unfold scopesOverlap. rewrite Hn. unfold rank, SCOPE_RANK in Hr.
  destruct (ts_kind (te_scope e)), (ts_kind (te_scope e')); try discriminate Hr; [left|left|by right]; cbn;
    bool_to_prop; apply shares_true.
  - exists (rv_contractId event). by rewrite <-!mem_true.
  - destruct (rv_wasmHash event) as [h|]; [|done]. exists (to_lower h). by rewrite <-!mem_true.
Qed.

(** In a set that loads, two preferred entries that give an event different
    names have different patterns, unless one supersedes the other or both are
    scoped to interfaces. *)
Theorem ambiguity_explained is_date values r event e e' :
  new_TaxonomyResolver is_date values = Ok r → preferred r event e → preferred r event e' → te_name e ≠ te_name e' →
  ¬ same_pattern (te_match e) (te_match e') ∨ supersedes e (te_id e') = true ∨ supersedes e' (te_id e) = true ∨
  ts_kind (te_scope e) = KInterface ∧ ts_kind (te_scope e') = KInterface.
Proof.
  intros [Hfree Hwf]%loaded_entries He He' Hname.
  assert (∀ e, preferred r event e → e ∈ tx_entries r ∧ applies event e = true) as Hp by (intros x [[[[? ?] _] _] _]; done).
  destruct (Hp e He) as [Hin Ha], (Hp e' He') as [Hin' Ha'].
  assert (rank e = rank e') as Hr.
  { destruct He as [[Hpool Hmax] _], He' as [[Hpool' Hmax'] _]. apply Nat.le_antisymm; [by apply Hmax'|by apply Hmax]. }
  destruct (decide (normalizedMatchKey (te_match e) = normalizedMatchKey (te_match e'))) as [Hk|Hk].
  2: { left. by rewrite <-match_key_exact. }
  destruct (supersedes e (te_id e')) eqn:Hs; [tauto|]. destruct (supersedes e' (te_id e)) eqn:Hs'; [tauto|].
  do 3 right. destruct (scopes_shared _ _ _ _ (Hwf _ Hin) (Hwf _ Hin') Ha Ha' Hr) as [Hov|]; [|done].
  destruct (scopes_shared _ _ _ _ (Hwf _ Hin') (Hwf _ Hin) Ha' Ha (eq_sym Hr)) as [Hov'|[? ?]]; [|done].
  assert (e ≠ e') as Hne by (by intros ->). exfalso.
  assert (∀ x y, te_name x ≠ te_name y → normalizedMatchKey (te_match x) = normalizedMatchKey (te_match y) → supersedes x (te_id y) = false →
    supersedes y (te_id x) = false → scopesOverlap (te_scope x) (te_scope y) = true → existsb blocking (conflict_of x y) = true) as Hblock.
  { intros x y Hxy Hkey H1 H2 Ho. unfold conflict_of. destruct (String.eqb (te_id x) _); [done|]. rewrite H1, H2, Hkey, String.eqb_refl, Ho.
    apply String.eqb_neq in Hxy. cbn. by rewrite Hxy. }
  destruct (conflict_free_pairs _ _ _ Hfree Hin Hin' Hne) as [H|H]; rewrite Hblock in H; done.
Qed.

(** ** What the engine can name *)

(** The engine tells the resolver neither the network nor the code nor the
    interfaces of a contract, so what it answers always comes from an entry for
    that very contract id on every network. *)
Theorem engine_names_listed_contracts fromXDR f r contractId topics data res :
  resolveSemantic fromXDR f (Some r) contractId topics data = Ok (Some res) →
  tr_scope res = KContract ∧
  ∃ e, e ∈ tx_entries r ∧ res = resolution e ∧ contractId ∈ ts_names (te_scope e) ∧ default [] (ts_networks (te_scope e)) = [].
Proof.
  cbn [resolveSemantic]. set (event := Build_ResolvableEvent _ _ _ _ _ _). intros Hres.
  pose proof (resolve_cases r event) as H. rewrite Hres in H. destruct H as [(e & He & ->) _].
  destruct He as [[[[Hin Ha] _] _] _]. unfold applies, scopeApplies, networkApplies in Ha. cbn in Ha. apply andb_true_iff in Ha as [[Hn Hk]%andb_true_iff _].
  destruct (ts_kind (te_scope e)) eqn:Hkind; try done. split; [done|]. exists e. split_and!; try done.
  - by apply mem_true.
  - by destruct (ts_networks (te_scope e)) as [[]|].
Qed.

(** ** Examples *)

Definition sep41_resolver : TaxonomyResolver := {| tx_entries := SEP41_TAXONOMY; tx_superseded := [] |}.

(** The entries that are built in are well formed and do not conflict. *)
Lemma sep41_well_formed (is_date : jsval → bool) :
  is_date (JStr "2026-09-06T00:00:00Z") = true →
  forallb (wf_entry is_date) SEP41_TAXONOMY = true ∧ findTaxonomyConflicts SEP41_TAXONOMY = [].
Proof. intros Hd. split; [|reflexivity]. unfold wf_entry, wf_provenance. cbn. by rewrite Hd. Qed.

(** They are all scoped to an interface, so with the default taxonomy the engine
    names no event at all. *)
Lemma default_taxonomy_names_nothing fromXDR f contractId topics data :
  resolveSemantic fromXDR f (Some sep41_resolver) contractId topics data = Ok None.
Proof. reflexivity. Qed.

Definition token_event (symbol : string) (topics : list PrimitiveType) (shape : DataShape) : ResolvableEvent :=
  {| rv_contractId := "C"; rv_topics := TSymbol symbol :: ((λ p, TValue (Some p)) <$> topics); rv_dataShape := Some shape;
     rv_network := None; rv_wasmHash := None; rv_interfaces := Some ["SEP-41"] |}.

(** A transfer is named, with or without the asset of CAP-67; the mint of CAP-67,
    which has no admin, and a transfer to a muxed address, whose data is a map,
    are not. *)
Lemma sep41_transfer_named :
  tr_name <$> default None (match resolve sep41_resolver (token_event "transfer" [Paddress; Paddress; Pstring] ShapeScalar) with Ok o => Some o | Err _ => None end)
  = Some "asset.transferred".
Proof. reflexivity. Qed.
Lemma cap67_mint_unnamed : resolve sep41_resolver (token_event "mint" [Paddress; Pstring] ShapeScalar) = Ok None.
Proof. reflexivity. Qed.
Lemma muxed_transfer_unnamed : resolve sep41_resolver (token_event "transfer" [Paddress; Paddress; Pstring] ShapeMap) = Ok None.
Proof. reflexivity. Qed.

Definition demo_entry (id name : string) (scope : TaxonomyScope) (supersedes : list string) : TaxonomyEntry :=
  {| te_id := id; te_version := "1.0.0"; te_name := name; te_title := None; te_description := None;
     te_match := {| tm_topics := [MSymbol "transfer"]; tm_trailingTopics := Some Allowed; tm_dataShape := None |}; te_parameters := [];
     te_scope := scope;
     te_provenance := {| pv_submittedBy := "@a"; pv_submittedAt := "2026-01-01"; pv_sources := ["https://a"]; pv_reviewedBy := JUndef; pv_reviewedAt := JUndef |};
     te_supersedes := Some supersedes; te_deprecated := None |}.

Definition on_contract (networks : option (list string)) : TaxonomyScope := {| ts_kind := KContract; ts_names := ["C"]; ts_networks := networks |}.
Definition on_interface : TaxonomyScope := {| ts_kind := KInterface; ts_names := ["SEP-41"]; ts_networks := None |}.
Definition resolver_of (l : list TaxonomyEntry) : TaxonomyResolver := {| tx_entries := l; tx_superseded := l ≫= λ e, default [] (te_supersedes e) |}.

(** A superseded entry loses to any other entry, also where its replacement does
    not apply: here the replacement is for testnet only. *)
Lemma superseded_loses_without_replacement :
  let r := resolver_of [demo_entry "old" "swap.executed" (on_contract None) []; demo_entry "new" "swap.filled" (on_contract (Some ["testnet"])) ["old"];
                        demo_entry "sep" "asset.transferred" on_interface []] in
  findTaxonomyConflicts (tx_entries r) = [] ∧
  resolve r (token_event "transfer" [] ShapeVoid) = Ok (Some {| tr_name := "asset.transferred"; tr_entryId := "sep"; tr_entryVersion := "1.0.0"; tr_scope := KInterface; tr_deprecated := false |}).
Proof. split; reflexivity. Qed.

(** Entries that supersede each other load, and throw when both apply. *)
Lemma mutual_supersession_throws :
  let r := resolver_of [demo_entry "a" "swap.executed" (on_contract None) ["b"]; demo_entry "b" "swap.filled" (on_contract None) ["a"]] in
  findTaxonomyConflicts (tx_entries r) = [] ∧ is_ok (resolve r (token_event "transfer" [] ShapeVoid)) = false.
Proof. split; reflexivity. Qed.

(** ** Witnesses *)

Definition demo_value (id name : string) : jsval :=
  JObj [("id", JStr id); ("version", JStr "1.0.0"); ("name", JStr name);
    ("match", JObj [("topics", JArr [JObj [("kind", JStr "symbol"); ("symbol", JStr "transfer")]]); ("trailingTopics", JStr "allowed")]);
    ("scope", JObj [("kind", JStr "contract"); ("contractIds", JArr [JStr "CAAAAAAAAAAAAAAAAAAAAAAAAAAAAAAAAAAAAAAAAAAAAAAAAAAAAAAA"])]);
    ("provenance", JObj [("submittedBy", JStr "@a"); ("submittedAt", JStr "2026-01-01"); ("sources", JArr [JStr "https://a"])]);
    ("supersedes", JArr [JStr (if String.eqb id "a" then "b" else "a")])].

Definition demo_loaded : TaxonomyResolver :=
  match new_TaxonomyResolver (λ _, true) [demo_value "a" "swap.executed"; demo_value "b" "swap.filled"] with Ok r => r | Err _ => sep41_resolver end.

Definition demo_event : ResolvableEvent :=
  {| rv_contractId := "CAAAAAAAAAAAAAAAAAAAAAAAAAAAAAAAAAAAAAAAAAAAAAAAAAAAAAAA"; rv_topics := [TSymbol "transfer"]; rv_dataShape := None;
     rv_network := None; rv_wasmHash := None; rv_interfaces := None |}.

Lemma ambiguity_explained_witness :
  ∃ e e', te_name e ≠ te_name e' ∧ preferred demo_loaded demo_event e ∧ preferred demo_loaded demo_event e' ∧
  (¬ same_pattern (te_match e) (te_match e') ∨ supersedes e (te_id e') = true ∨ supersedes e' (te_id e) = true ∨
   ts_kind (te_scope e) = KInterface ∧ ts_kind (te_scope e') = KInterface).
Proof.
  assert (∃ e e', top_entries demo_loaded demo_event = [e; e'] ∧ te_name e ≠ te_name e') as (e & e' & Ht & Hn).
  { do 2 eexists. split; [vm_compute; reflexivity|]. vm_compute. discriminate. }
  assert (preferred demo_loaded demo_event e) as He by (apply elem_of_top; rewrite Ht; left).
  assert (preferred demo_loaded demo_event e') as He' by (apply elem_of_top; rewrite Ht; right; left).
  exists e, e'. split; [exact Hn|]. split; [exact He|]. split; [exact He'|].
  eapply (ambiguity_explained (λ _, true) [demo_value "a" "swap.executed"; demo_value "b" "swap.filled"]); [|exact He|exact He'|exact Hn].
  vm_compute. reflexivity.
Defined.

Lemma engine_names_listed_contracts_witness :
  let r := resolver_of [demo_entry "a" "swap.executed" (on_contract None) []] in
  let fromXDR := λ s, if String.eqb s "AAAADwAAAAh0cmFuc2Zlcg==" then Some (scvSymbol "transfer") else None in
  ∃ res, resolveSemantic fromXDR (λ _ _, "") (Some r) "C" [JStr "AAAADwAAAAh0cmFuc2Zlcg=="] JNull = Ok (Some res) ∧ tr_scope res = KContract.
Proof.
  intros r fromXDR.
  assert (∃ res, resolveSemantic fromXDR (λ _ _, "") (Some r) "C" [JStr "AAAADwAAAAh0cmFuc2Zlcg=="] JNull = Ok (Some res)) as [res Hres]
    by (eexists; vm_compute; reflexivity).
  exists res. split; [exact Hres|]. apply (engine_names_listed_contracts _ _ _ _ _ _ _ Hres).
Defined.
