(* ===== verification/ConnectionPool.v ===== *)
(** * Shared connections of the notification hooks

    pulse-notify/src/connectionPool.ts and wsTransport.ts: the pools that let any
    number of subscribers share one EventSource, or one WebSocket, per server,
    address and token.  A subscriber is a number, and what it is told a list of
    calls; its callbacks return and do not call the pool, but [onEvent] may throw.
    A connection's events come from outside, as steps.  JSON.parse is an argument
    of a step; the developer tools' registry is left out. *)

From S2P Require Import Prelude JsMap JsValue Decimal CanonicalJson Evidence Stream SorobanCalls RegistryClients.

(** ** What is shared: keys and addresses *)

Record ConnectionKey := {
  ck_serverUrl : string;
  ck_address : string;
  ck_token : option string;
  ck_withCredentials : option bool;
}.

Record ContractKey := {
  ct_serverUrl : string;
  ct_contractId : string;
  ct_topics : option (list string);
  ct_token : option string;
  ct_withCredentials : option bool;
}.

Record WsConnectionKey := {
  wk_serverUrl : string;
  wk_address : string;
  wk_token : option string;
}.

Definition getConnectionKey (k : ConnectionKey) : string :=
  text (JArr [JStr (ck_serverUrl k); JStr (ck_address k); JStr (default "" (ck_token k)); JBool (default false (ck_withCredentials k))]).

(** [token ? ... : ...]: the empty token counts as none. *)
Definition token_query (token : option string) : list string :=
  match token with
  | None | Some "" => []
  | Some t => ["token=" +:+ encodeURIComponent t]
  end.

Definition with_query (base : string) (query : list string) : string :=
  match query with [] => base | _ => base +:+ "?" +:+ join "&" query end.

Definition getEventSourceUrl (k : ConnectionKey) : string :=
  with_query (ck_serverUrl k +:+ "/events/" +:+ ck_address k) (token_query (ck_token k)).

Definition sortedTopics (k : ContractKey) : string :=
  match ct_topics k with Some topics => join "," (sort_strings topics) | None => "" end.

Definition getContractKey (k : ContractKey) : string :=
  text (JArr [JStr (ct_serverUrl k); JStr (ct_contractId k); JStr (sortedTopics k); JStr (default "" (ct_token k));
              JBool (default false (ct_withCredentials k))]).

Definition topics_query (topics : option (list string)) : list string :=
  match topics with
  | None | Some [] => []
  | Some l => ["topics=" +:+ encodeURIComponent (join "," l)]
  end.

Definition getContractEventSourceUrl (k : ContractKey) : string :=
  with_query (ct_serverUrl k +:+ "/contract_events/" +:+ ct_contractId k) (topics_query (ct_topics k) ++ token_query (ct_token k)).

Definition getKey (k : WsConnectionKey) : string :=
  text (JArr [JStr (wk_serverUrl k); JStr (wk_address k); JStr (default "" (wk_token k))]).

(** [serverUrl.replace(/^http/, "ws")] *)
Definition ws_scheme (url : string) : string :=
  match url with
  | String "h" (String "t" (String "t" (String "p" r))) => "ws" +:+ r
  | _ => url
  end.

Definition getWsUrl (k : WsConnectionKey) : string :=
  with_query (ws_scheme (wk_serverUrl k) +:+ "/events/" +:+ wk_address k) (token_query (wk_token k)).

(** ** What a subscriber is told *)

Inductive Call :=
  | OnOpen
  | OnEventId (id : string)
  | OnEvent (event : jsval)
  | OnParseError
  | OnError
  | OnAuthExpired.

(** The calls of [c] to all of [subs], in order. *)
Definition notifySubscribers (c : Call) (subs : list nat) : list (nat * Call) := (λ s, (s, c)) <$> subs.

Section messages.
(** Whether [onEvent] of a subscriber throws on an event. *)
Context (throws : nat → jsval → bool).

(** The id, when there is one, and the event to each subscriber, until one
    throws; and whether one did. *)
Fixpoint hand_over (id : string) (event : jsval) (subs : list nat) : list (nat * Call) * bool :=
  match subs with
  | [] => ([], false)
  | s :: rest =>
      let here := (if String.eqb id "" then [] else [(s, OnEventId id)]) ++ [(s, OnEvent event)] in
      if throws s event then (here, true)
      else let '(more, threw) := hand_over id event rest in (here ++ more, threw)
  end.

Definition auth_expired (data : jsval) : bool := is_str (prop data "type") "auth_expired".

(** The handler of a message: whether the token has expired, and the calls.
    [data] is [None] where JSON.parse throws. *)
Definition onmessage (data : option jsval) (id : string) (subs : list nat) : bool * list (nat * Call) :=
  match data with
  | None => (false, notifySubscribers OnParseError subs)
  | Some event =>
      if auth_expired event then (true, notifySubscribers OnAuthExpired subs)
      else let '(calls, threw) := hand_over id event subs in
        (false, calls ++ if threw then notifySubscribers OnParseError subs else [])
  end.
End messages.

(** [Set.prototype.add] *)
Definition set_add (x : nat) (l : list nat) : list nat := if bool_decide (x ∈ l) then l else l ++ [x].
Definition set_delete (x : nat) (l : list nat) : list nat := List.filter (λ y, negb (y =? x)) l.

(** What a caller of either pool does: acquire a connection, or call [unsubscribe]
    of the connection it acquired as the [n]-th. *)
Inductive Use (K : Type) :=
  | Acquire (key : K) (subscriber : nat)
  | Unsubscribe (connection : nat).
Arguments Acquire {K} key subscriber.
Arguments Unsubscribe {K} connection.

(** The object [acquire] answers with: what its closures refer to. *)
Record Connection := { cn_poolKey : string; cn_entry : nat; cn_subscriber : nat }.

(** ** The pool of event sources *)

Record ConnectionEntry := {
  ce_url : string;
  ce_credentials : bool;
  ce_open : bool;                 (** the source is not closed *)
  ce_subscribers : list nat;
  ce_connected : bool;
}.

(** The entries ever made (the objects), the pool of the present ones, and the
    connections handed out. *)
Record SsePool := {
  sp_entries : list ConnectionEntry;
  sp_pool : jsmap string nat;
  sp_connections : list Connection;
}.

Definition sse_empty : SsePool := {| sp_entries := []; sp_pool := []; sp_connections := [] |}.

Definition ce_with_subscribers (f : list nat → list nat) (e : ConnectionEntry) : ConnectionEntry :=
  {| ce_url := ce_url e; ce_credentials := ce_credentials e; ce_open := ce_open e; ce_subscribers := f (ce_subscribers e);
     ce_connected := ce_connected e |}.
Definition ce_set_connected (b : bool) (e : ConnectionEntry) : ConnectionEntry :=
  {| ce_url := ce_url e; ce_credentials := ce_credentials e; ce_open := ce_open e; ce_subscribers := ce_subscribers e; ce_connected := b |}.
Definition ce_close (e : ConnectionEntry) : ConnectionEntry :=
  {| ce_url := ce_url e; ce_credentials := ce_credentials e; ce_open := false; ce_subscribers := ce_subscribers e;
     ce_connected := ce_connected e |}.

Definition on_sse_entry (i : nat) (f : ConnectionEntry → ConnectionEntry) (s : SsePool) : SsePool :=
  {| sp_entries := alter f i (sp_entries s); sp_pool := sp_pool s; sp_connections := sp_connections s |}.

Definition acquireSseConnection (poolKey url : string) (withCredentials : bool) (subscriber : nat) (s : SsePool) : SsePool :=
  let '(i, s) :=
    match mget poolKey (sp_pool s) with
    | Some i => (i, s)
    | None =>
        let i := length (sp_entries s) in
        let newEntry := {| ce_url := url; ce_credentials := withCredentials; ce_open := true; ce_subscribers := []; ce_connected := false |} in
        (i, {| sp_entries := sp_entries s ++ [newEntry]; sp_pool := mset poolKey i (sp_pool s); sp_connections := sp_connections s |})
    end in
  let s := on_sse_entry i (ce_with_subscribers (set_add subscriber)) s in
  {| sp_entries := sp_entries s; sp_pool := sp_pool s;
     sp_connections := sp_connections s ++ [{| cn_poolKey := poolKey; cn_entry := i; cn_subscriber := subscriber |}] |}.

Definition sse_unsubscribe (c : Connection) (s : SsePool) : SsePool :=
  let i := cn_entry c in
  let s := on_sse_entry i (ce_with_subscribers (set_delete (cn_subscriber c))) s in
  match sp_entries s !! i with
  | Some e =>
      match ce_subscribers e with
      | [] => {| sp_entries := alter ce_close i (sp_entries s); sp_pool := mdel (cn_poolKey c) (sp_pool s); sp_connections := sp_connections s |}
      | _ => s
      end
  | None => s
  end.

Inductive SseKey := AddressKey (k : ConnectionKey) | ContractEventKey (k : ContractKey).

Definition sse_poolKey (k : SseKey) : string :=
  match k with AddressKey k => getConnectionKey k | ContractEventKey k => getContractKey k end.

Definition acquireEventConnection (k : ConnectionKey) : nat → SsePool → SsePool :=
  acquireSseConnection (getConnectionKey k) (getEventSourceUrl k) (default false (ck_withCredentials k)).

Definition acquireContractEventConnection (k : ContractKey) : nat → SsePool → SsePool :=
  acquireSseConnection (getContractKey k) (getContractEventSourceUrl k) (default false (ct_withCredentials k)).

Definition sse_acquire (k : SseKey) : nat → SsePool → SsePool :=
  match k with AddressKey k => acquireEventConnection k | ContractEventKey k => acquireContractEventConnection k end.

(** What happens next: a caller's call, or an event of the source of an entry. *)
Inductive SseLabel :=
  | SseCaller (u : Use SseKey)
  | SseOpened (entry : nat)
  | SseMessage (entry : nat) (data : option jsval) (lastEventId : string)
  | SseErrored (entry : nat).

Section sse_steps.
Context (throws : nat → jsval → bool).

(** A source that is closed fires no event. *)
Definition on_source (i : nat) (f : ConnectionEntry → list (nat * Call) * ConnectionEntry) (s : SsePool) : list (nat * Call) * SsePool :=
  match sp_entries s !! i with
  | Some e => if ce_open e then let '(calls, e') := f e in (calls, on_sse_entry i (λ _, e') s) else ([], s)
  | None => ([], s)
  end.

Definition sse_use (u : Use SseKey) (s : SsePool) : SsePool :=
  match u with
  | Acquire k subscriber => sse_acquire k subscriber s
  | Unsubscribe n => match sp_connections s !! n with Some c => sse_unsubscribe c s | None => s end
  end.

Definition sse_step (l : SseLabel) (s : SsePool) : list (nat * Call) * SsePool :=
  match l with
  | SseCaller u => ([], sse_use u s)
  | SseOpened i => on_source i (λ e, (notifySubscribers OnOpen (ce_subscribers e), ce_set_connected true e)) s
  | SseMessage i data id => on_source i (λ e,
      let '(expired, calls) := onmessage throws data id (ce_subscribers e) in
      (calls, if expired then ce_set_connected false e else e)) s
  | SseErrored i => on_source i (λ e, (notifySubscribers OnError (ce_subscribers e), ce_set_connected false e)) s
  end.

Definition sse_run (ls : list SseLabel) (s : SsePool) : SsePool := foldl (λ s l, (sse_step l s).2) s ls.
End sse_steps.

(** ** The pool of web sockets *)

Definition RECONNECT_INITIAL_DELAY_MS : Z := 1000.
Definition RECONNECT_MAX_DELAY_MS : Z := 30000.

Inductive SocketState := Connecting | Open | Closing | Closed.

#[export] Instance SocketState_eq_dec : EqDecision SocketState.
Proof. solve_decision. Defined.

(** A WebSocket whose handlers are those of the entry. *)
Record Socket := { so_url : string; so_entry : nat; so_state : SocketState }.

Record WsEntry := {
  we_key : WsConnectionKey;
  we_ws : nat;
  we_subscribers : list nat;
  we_connected : bool;
  we_reconnectAttempt : Z;
  we_reconnectTimer : bool;
  we_closedByClient : bool;
}.

Record WsPool := {
  wp_sockets : list Socket;
  wp_entries : list WsEntry;
  wp_pool : jsmap string nat;
  wp_connections : list Connection;
}.

Definition ws_empty : WsPool := {| wp_sockets := []; wp_entries := []; wp_pool := []; wp_connections := [] |}.

Definition we_with_subscribers (f : list nat → list nat) (e : WsEntry) : WsEntry :=
  {| we_key := we_key e; we_ws := we_ws e; we_subscribers := f (we_subscribers e); we_connected := we_connected e;
     we_reconnectAttempt := we_reconnectAttempt e; we_reconnectTimer := we_reconnectTimer e; we_closedByClient := we_closedByClient e |}.
Definition we_set_connected (b : bool) (e : WsEntry) : WsEntry :=
  {| we_key := we_key e; we_ws := we_ws e; we_subscribers := we_subscribers e; we_connected := b;
     we_reconnectAttempt := we_reconnectAttempt e; we_reconnectTimer := we_reconnectTimer e; we_closedByClient := we_closedByClient e |}.
Definition we_with_attempt (n : Z) (e : WsEntry) : WsEntry :=
  {| we_key := we_key e; we_ws := we_ws e; we_subscribers := we_subscribers e; we_connected := we_connected e;
     we_reconnectAttempt := n; we_reconnectTimer := we_reconnectTimer e; we_closedByClient := we_closedByClient e |}.
Definition we_with_timer (b : bool) (e : WsEntry) : WsEntry :=
  {| we_key := we_key e; we_ws := we_ws e; we_subscribers := we_subscribers e; we_connected := we_connected e;
     we_reconnectAttempt := we_reconnectAttempt e; we_reconnectTimer := b; we_closedByClient := we_closedByClient e |}.
Definition we_with_ws (n : nat) (e : WsEntry) : WsEntry :=
  {| we_key := we_key e; we_ws := n; we_subscribers := we_subscribers e; we_connected := we_connected e;
     we_reconnectAttempt := we_reconnectAttempt e; we_reconnectTimer := we_reconnectTimer e; we_closedByClient := we_closedByClient e |}.
Definition closed_by_client (e : WsEntry) : WsEntry :=
  {| we_key := we_key e; we_ws := we_ws e; we_subscribers := we_subscribers e; we_connected := we_connected e;
     we_reconnectAttempt := we_reconnectAttempt e; we_reconnectTimer := we_reconnectTimer e; we_closedByClient := true |}.
Definition with_state (st : SocketState) (w : Socket) : Socket := {| so_url := so_url w; so_entry := so_entry w; so_state := st |}.

Definition on_ws_entry (i : nat) (f : WsEntry → WsEntry) (s : WsPool) : WsPool :=
  {| wp_sockets := wp_sockets s; wp_entries := alter f i (wp_entries s); wp_pool := wp_pool s; wp_connections := wp_connections s |}.
Definition on_socket (n : nat) (f : Socket → Socket) (s : WsPool) : WsPool :=
  {| wp_sockets := alter f n (wp_sockets s); wp_entries := wp_entries s; wp_pool := wp_pool s; wp_connections := wp_connections s |}.

(** [new WebSocket(url)] with the handlers of entry [i]: its number. *)
Definition new_socket (url : string) (i : nat) (s : WsPool) : nat * WsPool :=
  (length (wp_sockets s),
   {| wp_sockets := wp_sockets s ++ [{| so_url := url; so_entry := i; so_state := Connecting |}]; wp_entries := wp_entries s; wp_pool := wp_pool s;
      wp_connections := wp_connections s |}).

(** [ws.close()] *)
Definition close_socket (w : Socket) : Socket :=
  match so_state w with Connecting | Open => with_state Closing w | _ => w end.

(** What is seen from outside: a call to a subscriber, or a timer that is set. *)
Inductive output := Told (subscriber : nat) (c : Call) | TimerSet (entry : nat) (delayMs : Z).

Definition told (l : list (nat * Call)) : list output := (λ p, Told p.1 p.2) <$> l.

Definition scheduleReconnect (random : Z) (i : nat) (s : WsPool) : list output * WsPool :=
  match wp_entries s !! i with
  | Some e =>
      if we_closedByClient e || match we_subscribers e with [] => true | _ => false end then ([], s)
      else if we_reconnectTimer e then ([], s)
      else
        let attempt := (we_reconnectAttempt e + 1)%Z in
        let delayMs := fullJitterBackoffMs random attempt RECONNECT_INITIAL_DELAY_MS RECONNECT_MAX_DELAY_MS in
        ([TimerSet i delayMs], on_ws_entry i (λ e, we_with_timer true (we_with_attempt attempt e)) s)
  | None => ([], s)
  end.

(** The timer of an entry. *)
Definition timer_fired (i : nat) (s : WsPool) : WsPool :=
  match wp_entries s !! i with
  | Some e =>
      if we_reconnectTimer e then
        let s := on_ws_entry i (we_with_timer false) s in
        if we_closedByClient e || match we_subscribers e with [] => true | _ => false end then s
        else let '(n, s) := new_socket (getWsUrl (we_key e)) i s in on_ws_entry i (we_with_ws n) s
      else s
  | None => s
  end.

Definition acquireWsConnection (key : WsConnectionKey) (subscriber : nat) (s : WsPool) : WsPool :=
  let poolKey := getKey key in
  let '(i, s) :=
    match mget poolKey (wp_pool s) with
    | Some i => (i, s)
    | None =>
        let i := length (wp_entries s) in
        let '(n, s) := new_socket (getWsUrl key) i s in
        let newEntry := {| we_key := key; we_ws := n; we_subscribers := []; we_connected := false; we_reconnectAttempt := 0;
                           we_reconnectTimer := false; we_closedByClient := false |} in
        (i, {| wp_sockets := wp_sockets s; wp_entries := wp_entries s ++ [newEntry]; wp_pool := mset poolKey i (wp_pool s); wp_connections := wp_connections s |})
    end in
  let s := on_ws_entry i (we_with_subscribers (set_add subscriber)) s in
  {| wp_sockets := wp_sockets s; wp_entries := wp_entries s; wp_pool := wp_pool s;
     wp_connections := wp_connections s ++ [{| cn_poolKey := poolKey; cn_entry := i; cn_subscriber := subscriber |}] |}.

Definition ws_unsubscribe (c : Connection) (s : WsPool) : WsPool :=
  let i := cn_entry c in
  let s := on_ws_entry i (we_with_subscribers (set_delete (cn_subscriber c))) s in
  match wp_entries s !! i with
  | Some e =>
      match we_subscribers e with
      | [] =>
          let s := on_ws_entry i (λ e, we_with_timer false (closed_by_client e)) s in
          let s := on_socket (we_ws e) close_socket s in
          {| wp_sockets := wp_sockets s; wp_entries := wp_entries s; wp_pool := mdel (cn_poolKey c) (wp_pool s); wp_connections := wp_connections s |}
      | _ => s
      end
  | None => s
  end.

(** What happens next: a caller's call, an event of a socket, or a timer. *)
Inductive WsLabel :=
  | WsCaller (u : Use WsConnectionKey)
  | WsOpened (socket : nat)
  | WsMessage (socket : nat) (data : option jsval)
  | WsErrored (socket : nat)
  | WsWasClosed (socket : nat) (random : Z)
  | WsTimerFired (entry : nat).

Section ws_steps.
Context (throws : nat → jsval → bool).

(** The handler of a socket in one of the given states, over its entry. *)
Definition on_event (ok : SocketState → bool) (n : nat) (f : nat → WsEntry → list output * WsPool) (s : WsPool) : list output * WsPool :=
  match wp_sockets s !! n with
  | Some w =>
      if ok (so_state w) then
        match wp_entries s !! so_entry w with Some e => f (so_entry w) e | None => ([], s) end
      else ([], s)
  | None => ([], s)
  end.

Definition is_connecting (st : SocketState) : bool := bool_decide (st = Connecting).
Definition is_open (st : SocketState) : bool := bool_decide (st = Open).
Definition not_closed (st : SocketState) : bool := bool_decide (st ≠ Closed).

Definition ws_use (u : Use WsConnectionKey) (s : WsPool) : WsPool :=
  match u with
  | Acquire k subscriber => acquireWsConnection k subscriber s
  | Unsubscribe n => match wp_connections s !! n with Some c => ws_unsubscribe c s | None => s end
  end.

Definition ws_step (l : WsLabel) (s : WsPool) : list output * WsPool :=
  match l with
  | WsCaller u => ([], ws_use u s)
  | WsOpened n => on_event is_connecting n (λ i e,
      (told (notifySubscribers OnOpen (we_subscribers e)),
       on_socket n (with_state Open) (on_ws_entry i (λ e, we_with_attempt 0 (we_set_connected true e)) s))) s
  | WsMessage n data => on_event is_open n (λ i e,
      let '(expired, calls) := onmessage throws data "" (we_subscribers e) in
      (told calls, if expired then on_ws_entry i (we_set_connected false) s else s)) s
  | WsErrored n => on_event not_closed n (λ i e,
      (told (notifySubscribers OnError (we_subscribers e)), on_ws_entry i (we_set_connected false) s)) s
  | WsWasClosed n random => on_event not_closed n (λ i e,
      let '(out, s) := scheduleReconnect random i (on_socket n (with_state Closed) (on_ws_entry i (we_set_connected false) s)) in
      (told (notifySubscribers OnError (we_subscribers e)) ++ out, s)) s
  | WsTimerFired i => ([], timer_fired i s)
  end.

Definition ws_run (ls : list WsLabel) (s : WsPool) : WsPool := foldl (λ s l, (ws_step l s).2) s ls.
End ws_steps.

(** ** Who holds what: the specification *)

(** The connections handed out and not yet given back, by their number: the pool
    key and the subscriber of each. *)
Record Holders := { ho_next : nat; ho_live : list (nat * (string * nat)) }.

Definition nobody : Holders := {| ho_next := 0; ho_live := [] |}.

(** The subscribers that hold a connection of key [k], in the order they came. *)
Definition subs_of (k : string) (live : list (nat * (string * nat))) : list nat :=
  omap (λ x : nat * (string * nat), if String.eqb x.2.1 k then Some x.2.2 else None) live.

Definition without (n : nat) (live : list (nat * (string * nat))) : list (nat * (string * nat)) :=
  List.filter (λ x, negb (x.1 =? n)) live.

Section holders.
Context {K : Type} (poolKey : K → string).

Definition held (H : Holders) (u : Use K) : Holders :=
  match u with
  | Acquire k sub => {| ho_next := S (ho_next H); ho_live := ho_live H ++ [(ho_next H, (poolKey k, sub))] |}
  | Unsubscribe n => {| ho_next := ho_next H; ho_live := without n (ho_live H) |}
  end.

(** A subscriber holds one connection at a time, and gives it back once. *)
Definition allowed (H : Holders) (u : Use K) : bool :=
  match u with
  | Acquire _ sub => negb (existsb (λ x, x.2.2 =? sub) (ho_live H))
  | Unsubscribe n => existsb (λ x, x.1 =? n) (ho_live H)
  end.

Fixpoint proper (H : Holders) (us : list (Use K)) : bool :=
  match us with [] => true | u :: us => allowed H u && proper (held H u) us end.
End holders.

(** What both pools keep: the pool of keys, the connections handed out, and of
    each entry that is not closed its subscribers. *)
Record shared (pool : jsmap string nat) (conns : list Connection) (view : nat → option (list nat)) (H : Holders) : Prop := {
  sh_wf : mwf pool;
  sh_inj : ∀ k k' i, mget k pool = Some i → mget k' pool = Some i → k = k';
  sh_pool : ∀ k i, mget k pool = Some i → view i = Some (subs_of k (ho_live H)) ∧ subs_of k (ho_live H) ≠ [];
  sh_view : ∀ i l, view i = Some l → ∃ k, mget k pool = Some i;
  sh_live : ∀ n k sub, (n, (k, sub)) ∈ ho_live H →
    ∃ i, mget k pool = Some i ∧ conns !! n = Some {| cn_poolKey := k; cn_entry := i; cn_subscriber := sub |};
  sh_len : length conns = ho_next H;
  sh_idx : NoDup (ho_live H).*1;
  sh_subs : NoDup (ho_live H).*2.*2;
}.

Lemma elem_of_subs k live x : x ∈ subs_of k live ↔ ∃ n, (n, (k, x)) ∈ live.
Proof.
  unfold subs_of. rewrite list_elem_of_omap. split.
  - intros ([n [k' y]] & Hin & Hy). cbn in Hy. destruct (String.eqb_spec k' k) as [->|]; [|done]. injection Hy as ->. by exists n.
  - intros [n Hin]. exists (n, (k, x)). split; [done|]. cbn. by rewrite String.eqb_refl.
Qed.

Lemma subs_of_app k live live' : subs_of k (live ++ live') = subs_of k live ++ subs_of k live'.
Proof. apply omap_app. Qed.

Lemma subs_of_one k n k' x : subs_of k [(n, (k', x))] = if String.eqb k' k then [x] else [].
Proof. cbn. by destruct (String.eqb k' k). Qed.

Lemma subs_sublist k live : subs_of k live `sublist_of` live.*2.*2.
Proof.
  induction live as [|[n [k' x]] live IH]; cbn; [done|]. destruct (String.eqb k' k); [by apply sublist_skip|by apply sublist_cons].
Qed.

Lemma elem_of_without n live x : x ∈ without n live ↔ x ∈ live ∧ x.1 ≠ n.
Proof. unfold without. rewrite elem_of_List_filter, negb_true_iff, Nat.eqb_neq. done. Qed.

Lemma without_sublist {B} (f : nat * (string * nat) → B) n live : f <$> without n live `sublist_of` f <$> live.
Proof.
  induction live as [|x live IH]; cbn; [done|]. destruct (negb _); cbn; [by apply sublist_skip|by apply sublist_cons].
Qed.

(** Taking a holder's subscriber from its entry is taking the holder away. *)
Lemma delete_holder n k k' x live :
  NoDup live.*1 → NoDup live.*2.*2 → (n, (k, x)) ∈ live →
  subs_of k' (without n live) = if String.eqb k k' then set_delete x (subs_of k' live) else subs_of k' live.
Proof.
  induction live as [|[m [kk y]] live IH]; [by intros _ _ ?%elem_of_nil|].
  cbn [fmap list_fmap fst snd]. intros [Hm Hidx]%NoDup_cons [Hy Hsubs]%NoDup_cons Hin.
  unfold without. cbn [List.filter fst]. apply elem_of_cons in Hin as [[= <- <- <-]|Hin].
  - rewrite Nat.eqb_refl. cbn [negb]. fold (without n live).
    assert (without n live = live) as ->.
    { clear -Hm. induction live as [|z live IH]; [done|]. cbn in Hm. apply not_elem_of_cons in Hm as [Hz Hm].
      unfold without. cbn [List.filter]. apply Nat.neq_sym, Nat.eqb_neq in Hz as ->. cbn. f_equal. by apply IH. }
    change (subs_of k' ((n, (k, x)) :: live)) with (subs_of k' ([(n, (k, x))] ++ live)). rewrite subs_of_app, subs_of_one.
    destruct (String.eqb k k'); [|done]. unfold set_delete. cbn [List.filter app]. rewrite Nat.eqb_refl. cbn [negb].
    assert (∀ l : list nat, x ∉ l → List.filter (λ y, negb (y =? x)) l = l) as Hf.
    { clear. induction l as [|z l IH]; [done|]. intros [Hz Hl]%not_elem_of_cons. cbn. apply Nat.neq_sym, Nat.eqb_neq in Hz as ->. cbn. f_equal. by apply IH. }
    symmetry. apply Hf. intros Hx. apply Hy. eapply elem_of_sublist; [exact Hx|]. apply subs_sublist.
  - assert (m ≠ n) as Hne by (intros ->; apply Hm, list_elem_of_fmap; by exists (n, (k, x))).
    assert (y ≠ x) as Hyx.
    { intros ->. apply Hy, list_elem_of_fmap. exists (k, x). split; [done|]. apply list_elem_of_fmap. by exists (n, (k, x)). }
    apply Nat.eqb_neq in Hne as ->. cbn [negb]. fold (without n live).
    change (subs_of k' ((m, (kk, y)) :: ?l)) with (subs_of k' ([(m, (kk, y))] ++ l)). rewrite !subs_of_app, !subs_of_one, IH by done.
    destruct (String.eqb k k'), (String.eqb kk k'); try done. unfold set_delete. cbn [app List.filter].
    apply Nat.eqb_neq in Hyx as ->. done.
Qed.

(** *** The four ways a caller changes a pool *)

Lemma set_add_fresh x l : x ∉ l → set_add x l = l ++ [x].
Proof. intros Hx. unfold set_add. by rewrite bool_decide_false. Qed.

Section shared_steps.
Context (pool : jsmap string nat) (conns : list Connection) (view view' : nat → option (list nat)) (H : Holders).
Context (Hsh : shared pool conns view H).

Definition joined (k : string) (i x : nat) : Connection := {| cn_poolKey := k; cn_entry := i; cn_subscriber := x |}.
Definition one_more (k : string) (x : nat) : Holders := {| ho_next := S (ho_next H); ho_live := ho_live H ++ [(ho_next H, (k, x))] |}.
Definition one_less (n : nat) : Holders := {| ho_next := ho_next H; ho_live := without n (ho_live H) |}.

Lemma live_bound n k x : (n, (k, x)) ∈ ho_live H → n < ho_next H.
Proof using Hsh.
  intros (i & _ & Hn)%(sh_live _ _ _ _ Hsh). apply lookup_lt_Some in Hn. by rewrite <-(sh_len _ _ _ _ Hsh).
Qed.

Lemma subs_one_more k k' x :
  subs_of k' (ho_live (one_more k x)) = subs_of k' (ho_live H) ++ if String.eqb k k' then [x] else [].
Proof. unfold one_more. cbn [ho_live]. by rewrite subs_of_app, subs_of_one. Qed.

(** The parts of [shared] that do not speak of the pool, after an acquire. *)
Lemma acquired_parts k i x pool' :
  (∀ k' j, mget k' pool = Some j → mget k' pool' = Some j) → mget k pool' = Some i → x ∉ (ho_live H).*2.*2 →
  (∀ n k' y, (n, (k', y)) ∈ ho_live (one_more k x) →
    ∃ j, mget k' pool' = Some j ∧ (conns ++ [joined k i x]) !! n = Some (joined k' j y)) ∧
  length (conns ++ [joined k i x]) = ho_next (one_more k x) ∧ NoDup (ho_live (one_more k x)).*1 ∧ NoDup (ho_live (one_more k x)).*2.*2.
Proof using Hsh.
  intros Hkeep Hk Hx. unfold one_more. cbn [ho_live ho_next]. rewrite !fmap_app, length_app. cbn [fmap list_fmap fst snd length].
  split_and!.
  - intros n k' y [Hin|Hin%list_elem_of_singleton]%elem_of_app.
    + pose proof (live_bound _ _ _ Hin) as Hlt. apply (sh_live _ _ _ _ Hsh) in Hin as (j & Hj & Hn). exists j. split; [by apply Hkeep|].
      rewrite lookup_app_l; [done|]. by rewrite (sh_len _ _ _ _ Hsh).
    + injection Hin as -> -> ->. exists i. split; [done|]. rewrite <-(sh_len _ _ _ _ Hsh). by apply list_lookup_middle.
  - rewrite (sh_len _ _ _ _ Hsh). lia.
  - apply NoDup_snoc. split; [apply Hsh|]. intros ([n [k' y]] & Hn & Hin)%list_elem_of_fmap. cbn in Hn. subst n.
    apply live_bound in Hin. lia.
  - apply NoDup_snoc. split; [apply Hsh|done].
Qed.

Lemma shared_joined k i x :
  mget k pool = Some i → x ∉ (ho_live H).*2.*2 →
  view' i = Some (subs_of k (ho_live H) ++ [x]) → (∀ j, j ≠ i → view' j = view j) →
  shared pool (conns ++ [joined k i x]) view' (one_more k x).
Proof using Hsh.
  intros Hk Hx Hi Hj. destruct (acquired_parts k i x pool) as (H1 & H2 & H3 & H4); [done..|].
  split; try done; try apply Hsh.
  - intros k' j Hk'. rewrite subs_one_more. destruct (String.eqb_spec k k') as [<-|Hne].
    + assert (j = i) as -> by congruence. split; [done|]. by destruct (subs_of k (ho_live H)).
    + rewrite app_nil_r, Hj; [by apply Hsh|]. intros ->. apply Hne. by apply (sh_inj _ _ _ _ Hsh k k' i).
  - intros j l Hl. destruct (decide (j = i)) as [->|Hne]; [by exists k|]. rewrite Hj in Hl by done. by apply (sh_view _ _ _ _ Hsh j l).
Qed.

Lemma shared_opened k i x :
  mget k pool = None → view i = None → x ∉ (ho_live H).*2.*2 →
  view' i = Some [x] → (∀ j, j ≠ i → view' j = view j) →
  shared (mset k i pool) (conns ++ [joined k i x]) view' (one_more k x).
Proof using Hsh.
  intros Hk Hnone Hx Hi Hj.
  assert (∀ k' j, mget k' pool = Some j → k' ≠ k ∧ j ≠ i) as Hother.
  { intros k' j Hk'. split; [congruence|]. intros ->. apply (sh_pool _ _ _ _ Hsh) in Hk' as [Hv _]. congruence. }
  assert (subs_of k (ho_live H) = []) as Hempty.
  { destruct (subs_of k (ho_live H)) as [|y l] eqn:Hs; [done|]. assert (y ∈ subs_of k (ho_live H)) as [n Hin]%elem_of_subs by (rewrite Hs; left).
    apply (sh_live _ _ _ _ Hsh) in Hin as (j & Hj' & _). congruence. }
  destruct (acquired_parts k i x (mset k i pool)) as (H1 & H2 & H3 & H4); [|by apply mget_mset_eq|done|].
  { intros k' j Hk'. destruct (Hother k' j Hk'). by rewrite mget_mset_ne. }
  split; try done.
  - by apply mwf_mset, Hsh.
  - intros k1 k2 j. rewrite (mget_mset k k1), (mget_mset k k2). destruct (decide (k = k1)) as [<-|], (decide (k = k2)) as [<-|]; try done.
    + intros [= <-] Hk2. by destruct (Hother _ _ Hk2).
    + intros Hk1 [= <-]. by destruct (Hother _ _ Hk1).
    + apply (sh_inj _ _ _ _ Hsh).
  - intros k' j. rewrite subs_one_more, mget_mset. destruct (decide (k = k')) as [<-|Hne].
    + intros [= <-]. rewrite String.eqb_refl, Hempty. done.
    + intros Hk'. rewrite (proj2 (String.eqb_neq k k')) by done. rewrite app_nil_r, Hj by (by apply (Hother k' j)). by apply Hsh.
  - intros j l. destruct (decide (j = i)) as [->|Hne]; [intros _; exists k; by apply mget_mset_eq|]. rewrite Hj by done.
    intros [k' Hk']%(sh_view _ _ _ _ Hsh). exists k'. rewrite mget_mset_ne; [done|]. congruence.
Qed.

(** [live] is what is held: the connection [n], of key [k] and entry [i], is given
    back. *)
Lemma given_back n k x k' :
  (n, (k, x)) ∈ ho_live H →
  subs_of k' (ho_live (one_less n)) = if String.eqb k k' then set_delete x (subs_of k' (ho_live H)) else subs_of k' (ho_live H).
Proof using Hsh. intros Hin. cbn [one_less ho_live]. apply delete_holder; [apply Hsh..|done]. Qed.

Lemma shared_left n k i x :
  (n, (k, x)) ∈ ho_live H → mget k pool = Some i → set_delete x (subs_of k (ho_live H)) ≠ [] →
  view' i = Some (set_delete x (subs_of k (ho_live H))) → (∀ j, j ≠ i → view' j = view j) →
  shared pool conns view' (one_less n).
Proof using Hsh.
  intros Hin Hk Hne Hi Hj. split; try apply Hsh.
  - intros k' j Hk'. rewrite (given_back n k x k' Hin). destruct (String.eqb_spec k k') as [<-|Hkk].
    + assert (j = i) as -> by congruence. done.
    + rewrite Hj; [by apply Hsh|]. intros ->. apply Hkk. by apply (sh_inj _ _ _ _ Hsh k k' i).
  - intros j l Hl. destruct (decide (j = i)) as [->|Hji]; [by exists k|]. rewrite Hj in Hl by done. by apply (sh_view _ _ _ _ Hsh j l).
  - intros m k' y [Hm _]%elem_of_without. by apply (sh_live _ _ _ _ Hsh).
  - eapply sublist_NoDup; [|apply without_sublist]. apply Hsh.
  - rewrite <-list_fmap_compose. eapply sublist_NoDup; [|apply without_sublist]. rewrite list_fmap_compose. apply Hsh.
Qed.

Lemma shared_ended n k i x :
  (n, (k, x)) ∈ ho_live H → mget k pool = Some i → set_delete x (subs_of k (ho_live H)) = [] →
  view' i = None → (∀ j, j ≠ i → view' j = view j) →
  shared (mdel k pool) conns view' (one_less n).
Proof using Hsh.
  intros Hin Hk Hempty Hi Hj.
  assert (∀ k' j, mget k' (mdel k pool) = Some j → k ≠ k' ∧ mget k' pool = Some j) as Hdel.
  { intros k' j. rewrite mget_mdel by apply Hsh. by destruct (decide (k = k')). }
  assert (∀ m y, (m, (k, y)) ∉ ho_live (one_less n)) as Hgone.
  { intros m y Hm. assert (y ∈ subs_of k (ho_live (one_less n))) as Hy by (apply elem_of_subs; by exists m).
    rewrite (given_back n k x k Hin), String.eqb_refl, Hempty in Hy. by apply elem_of_nil in Hy. }
  split.
  - apply mwf_mdel, Hsh.
  - intros k1 k2 j [_ H1]%Hdel [_ H2]%Hdel. by apply (sh_inj _ _ _ _ Hsh k1 k2 j).
  - intros k' j [Hkk Hk']%Hdel. rewrite (given_back n k x k' Hin). rewrite (proj2 (String.eqb_neq k k')) by done.
    rewrite Hj; [by apply Hsh|]. intros ->. apply Hkk. by apply (sh_inj _ _ _ _ Hsh k k' i).
  - intros j l Hl. destruct (decide (j = i)) as [->|Hji]; [congruence|]. rewrite Hj in Hl by done.
    destruct (sh_view _ _ _ _ Hsh j l Hl) as [k' Hk']. exists k'. rewrite mget_mdel by apply Hsh. destruct (decide (k = k')) as [<-|]; [congruence|done].
  - intros m k' y Hm. assert (k ≠ k') as Hkk by (intros <-; by apply (Hgone m y)). apply elem_of_without in Hm as [Hm _].
    destruct (sh_live _ _ _ _ Hsh _ _ _ Hm) as (j & Hj' & Hc). exists j. rewrite mget_mdel by apply Hsh. by destruct (decide (k = k')).
  - apply Hsh.
  - eapply sublist_NoDup; [|apply without_sublist]. apply Hsh.
  - rewrite <-list_fmap_compose. eapply sublist_NoDup; [|apply without_sublist]. rewrite list_fmap_compose. apply Hsh.
Qed.
End shared_steps.

(** What a caller may do: a subscriber that holds nothing, a connection held. *)
Lemma allowed_acquire {K} H (k : K) x : allowed H (Acquire k x) = true → x ∉ (ho_live H).*2.*2.
Proof.
  cbn. intros Hx%negb_true_iff. rewrite existsb_false in Hx. intros (p & -> & (q & -> & Hq)%list_elem_of_fmap)%list_elem_of_fmap.
  specialize (Hx q Hq). cbn in Hx. by rewrite Nat.eqb_refl in Hx.
Qed.

Lemma allowed_unsubscribe {K} H n : allowed H (Unsubscribe n : Use K) = true → ∃ k x, (n, (k, x)) ∈ ho_live H.
Proof. cbn. intros ([m [k x]] & Hin & Hm%Nat.eqb_eq)%existsb_Exists. cbn in Hm. subst m. by exists k, x. Qed.

Lemma shared_nobody : shared [] [] (λ _, None) nobody.
Proof. by split; try constructor; intros *; rewrite ?elem_of_nil. Qed.

Lemma shared_ext pool conns view view' H : (∀ i, view' i = view i) → shared pool conns view H → shared pool conns view' H.
Proof.
  intros Hv Hsh. split; try apply Hsh.
  - intros k i Hk. rewrite Hv. by apply Hsh.
  - intros i l. rewrite Hv. apply Hsh.
Qed.

(** ** The pool of event sources is what is held *)

Section sse.
Context (throws : nat → jsval → bool).
Implicit Types (s : SsePool) (e : ConnectionEntry).

(** The callers' calls among the steps. *)
Definition sse_uses (ls : list SseLabel) : list (Use SseKey) := omap (λ l, match l with SseCaller u => Some u | _ => None end) ls.

Definition view_of e : option (list nat) := if ce_open e then Some (ce_subscribers e) else None.
Definition sse_view s (i : nat) : option (list nat) := sp_entries s !! i ≫= view_of.

Lemma view_alter (f : ConnectionEntry → ConnectionEntry) i s j :
  sse_view (on_sse_entry i f s) j = if decide (j = i) then sp_entries s !! i ≫= λ e, view_of (f e) else sse_view s j.
Proof.
  unfold sse_view, on_sse_entry. cbn [sp_entries]. destruct (decide (j = i)) as [->|Hne].
  - rewrite list_lookup_alter_eq. by destruct (sp_entries s !! i).
  - by rewrite list_lookup_alter_ne.
Qed.

Definition sse_good s (H : Holders) : Prop := shared (sp_pool s) (sp_connections s) (sse_view s) H.

(** An event of a source leaves the pool, the connections and the subscribers. *)
Lemma source_event_good i f s H :
  (∀ e, ce_open e = true → view_of (f e).2 = view_of e) → sse_good s H → sse_good (on_source i f s).2 H.
Proof.
  intros Hf Hg. unfold on_source. destruct (sp_entries s !! i) as [e|] eqn:He; [|done]. destruct (ce_open e) eqn:Ho; [|done].
  specialize (Hf e Ho). destruct (f e) as [calls e']. cbn [snd] in Hf |- *. eapply shared_ext; [|exact Hg].
  intros j. rewrite view_alter. destruct (decide (j = i)) as [->|]; [|done]. rewrite He. cbn. rewrite Hf. unfold sse_view. by rewrite He.
Qed.

Lemma acquire_good poolKey url cred x s H :
  sse_good s H → x ∉ (ho_live H).*2.*2 → sse_good (acquireSseConnection poolKey url cred x s) (one_more H poolKey x).
Proof.
  intros Hg Hx. unfold acquireSseConnection. destruct (mget poolKey (sp_pool s)) as [i|] eqn:Hk.
  - destruct (sh_pool _ _ _ _ Hg _ _ Hk) as [Hv _]. assert (x ∉ subs_of poolKey (ho_live H)) as Hx'.
    { intros Hin. apply Hx. eapply elem_of_sublist; [exact Hin|apply subs_sublist]. }
    unfold sse_view in Hv. destruct (sp_entries s !! i) as [e|] eqn:He; [|done]. cbn in Hv. unfold view_of in Hv. destruct (ce_open e) eqn:Ho; [|done].
    injection Hv as Hv. unfold sse_good. cbn [sp_pool sp_connections on_sse_entry]. eapply (shared_joined _ _ _ _ _ Hg); [done|done|..].
    + unfold sse_view. cbn [sp_entries on_sse_entry]. rewrite list_lookup_alter_eq, He. cbn. unfold view_of. cbn. by rewrite Ho, Hv, set_add_fresh.
    + intros j Hj. unfold sse_view. cbn [sp_entries on_sse_entry]. by rewrite list_lookup_alter_ne.
  - set (i := length (sp_entries s)). unfold sse_good. cbn [sp_pool sp_connections on_sse_entry sp_entries].
    assert (∀ j, sse_view s j = if decide (j = i) then None else sse_view s j) as Hnone.
    { intros j. destruct (decide (j = i)) as [->|]; [|done]. unfold sse_view. by rewrite lookup_ge_None_2. }
    eapply (shared_opened _ _ _ _ _ Hg); [done|rewrite Hnone; by rewrite decide_True|done|..].
    + unfold sse_view. cbn [sp_entries on_sse_entry]. rewrite list_lookup_alter_eq. subst i. rewrite list_lookup_middle by done. done.
    + intros j Hj. unfold sse_view. cbn [sp_entries on_sse_entry]. rewrite list_lookup_alter_ne by done.
      destruct (decide (j < i)) as [Hlt|Hge]; [by rewrite lookup_app_l|]. by rewrite !lookup_ge_None_2 by (rewrite ?length_app; cbn; subst i; lia).
Qed.

Lemma unsubscribe_good n k x s H :
  sse_good s H → (n, (k, x)) ∈ ho_live H →
  sse_good (match sp_connections s !! n with Some c => sse_unsubscribe c s | None => s end) (one_less H n).
Proof.
  intros Hg Hin. destruct (sh_live _ _ _ _ Hg _ _ _ Hin) as (i & Hk & ->). destruct (sh_pool _ _ _ _ Hg _ _ Hk) as [Hv _].
  unfold sse_unsubscribe. cbn [cn_entry cn_subscriber cn_poolKey]. unfold sse_view in Hv.
  destruct (sp_entries s !! i) as [e|] eqn:He; [|done]. cbn in Hv. unfold view_of in Hv. destruct (ce_open e) eqn:Ho; [|done]. injection Hv as Hv.
  unfold on_sse_entry at 1. cbn [sp_entries]. rewrite list_lookup_alter_eq, He. cbn [fmap option_fmap option_map ce_with_subscribers ce_subscribers]. rewrite Hv.
  assert (∀ j, sse_view (on_sse_entry i (ce_with_subscribers (set_delete x)) s) j = if decide (j = i) then Some (set_delete x (subs_of k (ho_live H))) else sse_view s j) as Hview.
  { intros j. rewrite view_alter. destruct (decide (j = i)); [|done]. rewrite He. cbn. unfold view_of. cbn. by rewrite Ho, Hv. }
  destruct (set_delete x (subs_of k (ho_live H))) as [|y l] eqn:Hd; unfold sse_good; cbn [sp_pool sp_connections on_sse_entry sp_entries].
  - eapply (shared_ended _ _ _ _ _ Hg); [done|done|done|..].
    + unfold sse_view. cbn [sp_entries on_sse_entry]. rewrite !list_lookup_alter_eq, He. done.
    + intros j Hj. unfold sse_view. cbn [sp_entries on_sse_entry]. by rewrite !list_lookup_alter_ne.
  - eapply (shared_left _ _ _ _ _ Hg); [done|done|by rewrite Hd|..].
    + pose proof (Hview i) as Hi. rewrite decide_True in Hi by done. rewrite Hd. exact Hi.
    + intros j Hj. pose proof (Hview j) as Hi. rewrite decide_False in Hi by done. exact Hi.
Qed.

Lemma sse_use_good u s H : sse_good s H → allowed H u = true → sse_good (sse_use u s) (held sse_poolKey H u).
Proof.
  intros Hg Ha. destruct u as [[k|k] x|n].
  - apply acquire_good; [done|]. by apply (allowed_acquire H (AddressKey k)).
  - apply acquire_good; [done|]. by apply (allowed_acquire H (ContractEventKey k)).
  - apply allowed_unsubscribe in Ha as (k & x & Hin). by apply (unsubscribe_good n k x).
Qed.

Lemma sse_step_good l s H :
  sse_good s H → match l with SseCaller u => allowed H u = true | _ => True end →
  sse_good (sse_step throws l s).2 (match l with SseCaller u => held sse_poolKey H u | _ => H end).
Proof.
  intros Hg Ha. destruct l as [u|i|i data id|i]; cbn [sse_step snd].
  - by apply sse_use_good.
  - by apply source_event_good.
  - apply source_event_good; [|done]. intros e _. by destruct (onmessage _ _ _ _) as [[] calls].
  - by apply source_event_good.
Qed.

Lemma sse_run_good ls s H :
  sse_good s H → proper sse_poolKey H (sse_uses ls) = true →
  sse_good (sse_run throws ls s) (foldl (held sse_poolKey) H (sse_uses ls)).
Proof.
  revert s H. induction ls as [|l ls IH]; intros s H Hg Hp; [done|]. unfold sse_run. cbn [foldl]. change (foldl _ ?s ls) with (sse_run throws ls s).
  pose proof (sse_step_good l s H Hg) as Hs. unfold sse_uses in *. destruct l as [u| | |]; cbn [omap list_omap] in *; try by apply IH; [apply Hs|].
  cbn [proper foldl] in *. apply andb_true_iff in Hp as [Ha Hp]. apply IH; [by apply Hs|done].
Qed.
End sse.

(** ** The pool of web sockets is what is held, each on one socket *)

Lemma alter_known {A} (f : A → A) (l : list A) (i : nat) x : l !! i = Some x → alter f i l = <[i := f x]> l.
Proof.
  intros Hx. apply list_eq. intros j. destruct (decide (i = j)) as [<-|Hne].
  - rewrite list_lookup_alter_eq, Hx, list_lookup_insert_eq; [done|]. by apply lookup_lt_Some in Hx.
  - by rewrite list_lookup_alter_ne, list_lookup_insert_ne.
Qed.

Section ws.
Context (throws : nat → jsval → bool).
Implicit Types (s : WsPool) (e : WsEntry) (w : Socket).

Definition ws_uses (ls : list WsLabel) : list (Use WsConnectionKey) := omap (λ l, match l with WsCaller u => Some u | _ => None end) ls.

Definition ws_view_of e : option (list nat) := if we_closedByClient e then None else Some (we_subscribers e).
Definition ws_view (es : list WsEntry) (i : nat) : option (list nat) := es !! i ≫= ws_view_of.

(** An entry and its socket: while it is held it is on a socket that is not
    closed, or waits for the timer of the next. *)
Definition socket_fits e w : Prop :=
  so_url w = getWsUrl (we_key e) ∧
  if we_closedByClient e then we_reconnectTimer e = false ∧ we_subscribers e = [] ∧ (so_state w = Closing ∨ so_state w = Closed)
  else if we_reconnectTimer e then so_state w = Closed else so_state w = Connecting ∨ so_state w = Open.

Record wired (ss : list Socket) (es : list WsEntry) : Prop := {
  wi_entry : ∀ i e, es !! i = Some e → ∃ w, ss !! we_ws e = Some w ∧ so_entry w = i ∧ socket_fits e w;
  wi_socket : ∀ n w, ss !! n = Some w → so_state w ≠ Closed → ∃ e, es !! so_entry w = Some e ∧ we_ws e = n;
}.

Lemma wired_update ss es i e e' w w' :
  wired ss es → es !! i = Some e → ss !! we_ws e = Some w → so_entry w' = i → we_ws e' = we_ws e → socket_fits e' w' →
  wired (<[we_ws e := w']> ss) (<[i := e']> es).
Proof.
  intros Hw He Hs Hi Hn Hfit. pose proof (lookup_lt_Some _ _ _ He) as Hli. pose proof (lookup_lt_Some _ _ _ Hs) as Hls.
  assert (so_entry w = i) as Hwi by (destruct (wi_entry _ _ Hw _ _ He) as (w0 & Hw0 & <- & _); congruence).
  split.
  - intros j f. destruct (decide (i = j)) as [<-|Hne].
    + rewrite list_lookup_insert_eq by done. intros [= <-]. exists w'. rewrite Hn, list_lookup_insert_eq by done. done.
    + rewrite list_lookup_insert_ne by done. intros Hf. destruct (wi_entry _ _ Hw _ _ Hf) as (v & Hv & Hvj & Hvf).
      exists v. rewrite list_lookup_insert_ne; [done|]. intros Heq. rewrite Heq, Hv in Hs. congruence.
  - intros n v. destruct (decide (we_ws e = n)) as [<-|Hne].
    + rewrite list_lookup_insert_eq by done. intros [= <-] _. exists e'. rewrite Hi, list_lookup_insert_eq by done. done.
    + rewrite list_lookup_insert_ne by done. intros Hv Hvo. destruct (wi_socket _ _ Hw _ _ Hv Hvo) as (f & Hf & Hfn).
      exists f. rewrite list_lookup_insert_ne; [done|]. congruence.
Qed.

Lemma wired_entry ss es i e e' w :
  wired ss es → es !! i = Some e → ss !! we_ws e = Some w → we_ws e' = we_ws e → socket_fits e' w → wired ss (<[i := e']> es).
Proof.
  intros Hw He Hs Hn Hfit. rewrite <-(list_insert_id ss (we_ws e) w) by done. apply (wired_update _ _ _ _ _ w); try done.
  destruct (wi_entry _ _ Hw _ _ He) as (w0 & Hw0 & <- & _). congruence.
Qed.

(** A new socket, for an entry whose socket is closed. *)
Lemma wired_again ss es i e e' w w' :
  wired ss es → es !! i = Some e → ss !! we_ws e = Some w → so_state w = Closed → so_entry w' = i → we_ws e' = length ss →
  socket_fits e' w' → wired (ss ++ [w']) (<[i := e']> es).
Proof.
  intros Hw He Hs Hclosed Hi Hn Hfit. pose proof (lookup_lt_Some _ _ _ He) as Hli. split.
  - intros j f. destruct (decide (i = j)) as [<-|Hne].
    + rewrite list_lookup_insert_eq by done. intros [= <-]. exists w'. rewrite Hn, list_lookup_middle by done. done.
    + rewrite list_lookup_insert_ne by done. intros Hf. destruct (wi_entry _ _ Hw _ _ Hf) as (v & Hv & Hvf).
      exists v. split; [by apply lookup_app_l_Some|done].
  - intros n v [Hv|[Hge Hv]]%lookup_app_Some Hvo.
    + destruct (wi_socket _ _ Hw _ _ Hv Hvo) as (f & Hf & Hfn). exists f. rewrite list_lookup_insert_ne; [done|]. congruence.
    + apply list_lookup_singleton_Some in Hv as [Hn0 Hv]. subst v. exists e'. rewrite Hi, list_lookup_insert_eq by done. split; [done|]. lia.
Qed.

Lemma wired_opened ss es e w :
  wired ss es → we_ws e = length ss → so_entry w = length es → socket_fits e w → wired (ss ++ [w]) (es ++ [e]).
Proof.
  intros Hw Hn Hi Hfit. split.
  - intros j f [Hf|[Hge Hf]]%lookup_app_Some.
    + destruct (wi_entry _ _ Hw _ _ Hf) as (v & Hv & Hvf). exists v. split; [by apply lookup_app_l_Some|done].
    + apply list_lookup_singleton_Some in Hf as [Hj Hf]. subst f. exists w. rewrite Hn, list_lookup_middle by done. split_and!; [done|lia|done].
  - intros n v [Hv|[Hge Hv]]%lookup_app_Some Hvo.
    + destruct (wi_socket _ _ Hw _ _ Hv Hvo) as (f & Hf & Hfn). exists f. split; [by apply lookup_app_l_Some|done].
    + apply list_lookup_singleton_Some in Hv as [Hn0 Hv]. subst v. exists e. rewrite Hi, list_lookup_middle by done. split; [done|lia].
Qed.

Record ws_good s (H : Holders) : Prop := {
  wg_shared : shared (wp_pool s) (wp_connections s) (ws_view (wp_entries s)) H;
  wg_wired : wired (wp_sockets s) (wp_entries s);
  wg_keys : ∀ k i e, mget k (wp_pool s) = Some i → wp_entries s !! i = Some e → getKey (we_key e) = k;
}.

(** What an event of a socket may do to its entry and itself. *)
Lemma ws_event_good s H i e e' w w' :
  ws_good s H → wp_entries s !! i = Some e → wp_sockets s !! we_ws e = Some w → so_entry w' = i → we_ws e' = we_ws e → we_key e' = we_key e →
  ws_view_of e' = ws_view_of e → socket_fits e' w' →
  ws_good {| wp_sockets := <[we_ws e := w']> (wp_sockets s); wp_entries := <[i := e']> (wp_entries s); wp_pool := wp_pool s; wp_connections := wp_connections s |} H.
Proof.
  intros Hg He Hs Hi Hn Hk Hv Hfit. pose proof (lookup_lt_Some _ _ _ He) as Hli. split; cbn [wp_sockets wp_entries wp_pool wp_connections].
  - eapply shared_ext; [|apply Hg]. intros j. unfold ws_view. destruct (decide (i = j)) as [<-|Hne].
    + rewrite list_lookup_insert_eq, He by done. done.
    + by rewrite list_lookup_insert_ne.
  - apply (wired_update _ _ _ _ _ w); try done. apply Hg.
  - intros k j f Hj. destruct (decide (i = j)) as [<-|Hne].
    + rewrite list_lookup_insert_eq by done. intros [= <-]. rewrite Hk. by apply (wg_keys _ _ Hg _ i).
    + rewrite list_lookup_insert_ne by done. by apply Hg.
Qed.

(** The handler of a socket that is not closed is the handler of the socket of its
    entry. *)
Lemma on_event_good ok n f s H :
  ws_good s H → (∀ st, ok st = true → st ≠ Closed) →
  (∀ i e w, wp_entries s !! i = Some e → wp_sockets s !! we_ws e = Some w → we_ws e = n → so_entry w = i → ok (so_state w) = true → socket_fits e w →
     ws_good (f i e).2 H) →
  ws_good (on_event ok n f s).2 H.
Proof.
  intros Hg Hok Hf. unfold on_event. destruct (wp_sockets s !! n) as [w|] eqn:Hs; [|done]. destruct (ok (so_state w)) eqn:Ho; [|done].
  destruct (wp_entries s !! so_entry w) as [e|] eqn:He; [|done].
  destruct (wi_socket _ _ (wg_wired _ _ Hg) _ _ Hs (Hok _ Ho)) as (e0 & He0 & Hn). assert (e0 = e) as -> by congruence.
  destruct (wi_entry _ _ (wg_wired _ _ Hg) _ _ He) as (w0 & Hw0 & _ & Hfit). assert (w0 = w) as -> by congruence.
  by apply (Hf (so_entry w) e w).
Qed.

Lemma told_back s H : ws_good s H → ws_good {| wp_sockets := wp_sockets s; wp_entries := wp_entries s; wp_pool := wp_pool s; wp_connections := wp_connections s |} H.
Proof. by destruct s. Qed.

(** Only the connected flag and the like of an entry change. *)
Lemma ws_entry_good (f : WsEntry → WsEntry) s H i e w :
  ws_good s H → wp_entries s !! i = Some e → wp_sockets s !! we_ws e = Some w → so_entry w = i → socket_fits (f e) w →
  we_ws (f e) = we_ws e → we_key (f e) = we_key e → ws_view_of (f e) = ws_view_of e → ws_good (on_ws_entry i f s) H.
Proof.
  intros Hg He Hs Hi Hfit Hn Hk Hv. unfold on_ws_entry. rewrite (alter_known _ _ _ _ He).
  rewrite <-(list_insert_id (wp_sockets s) (we_ws e) w) by done. by apply (ws_event_good _ _ _ _ _ w).
Qed.

Lemma scheduled_good random i n e w s H :
  ws_good s H → wp_entries s !! i = Some e → wp_sockets s !! n = Some w → we_ws e = n → so_entry w = i → socket_fits e w → so_state w ≠ Closed →
  ws_good (scheduleReconnect random i (on_socket n (with_state Closed) (on_ws_entry i (we_set_connected false) s))).2 H.
Proof.
  intros Hg He Hs Hn Hi [Hurl Hfit] Hopen. unfold scheduleReconnect, on_socket, on_ws_entry. cbn [wp_sockets wp_entries wp_pool wp_connections].
  pose proof (lookup_lt_Some _ _ _ He) as Hli. rewrite (alter_known _ _ _ _ He), (alter_known _ _ _ _ Hs), list_lookup_insert_eq by done.
  cbn [we_set_connected we_closedByClient we_subscribers we_reconnectTimer]. subst n.
  destruct (we_closedByClient e) eqn:Hc; cbn [orb].
  - apply (ws_event_good _ _ _ _ _ w); try done. split; [done|]. cbn. rewrite Hc. destruct Hfit as (? & ? & _). auto.
  - assert (we_reconnectTimer e = false) as Ht by (destruct (we_reconnectTimer e); [by rewrite Hfit in Hopen|done]).
    assert (we_subscribers e ≠ []) as Hsubs.
    { destruct (sh_view _ _ _ _ (wg_shared _ _ Hg) i (we_subscribers e)) as [k Hk]; [unfold ws_view; rewrite He; cbn; unfold ws_view_of; by rewrite Hc|].
      destruct (sh_pool _ _ _ _ (wg_shared _ _ Hg) _ _ Hk) as [Hv Hne]. unfold ws_view in Hv. rewrite He in Hv. cbn in Hv.
      unfold ws_view_of in Hv. rewrite Hc in Hv. by injection Hv as ->. }
    destruct (we_subscribers e) as [|x l] eqn:Hl; [done|]. rewrite Ht. cbn [snd].
    rewrite (alter_known _ (<[i := _]> _) i (we_set_connected false e)), list_insert_insert_eq by by apply list_lookup_insert_eq.
    apply (ws_event_good _ _ _ _ _ w); try done. split; [done|]. cbn. by rewrite Hc.
Qed.

Lemma timer_good i s H : ws_good s H → ws_good (timer_fired i s) H.
Proof.
  intros Hg. unfold timer_fired. destruct (wp_entries s !! i) as [e|] eqn:He; [|done]. destruct (we_reconnectTimer e) eqn:Ht; [|done].
  destruct (wi_entry _ _ (wg_wired _ _ Hg) _ _ He) as (w & Hs & Hi & Hurl & Hfit). pose proof (lookup_lt_Some _ _ _ He) as Hli.
  destruct (we_closedByClient e) eqn:Hc; [destruct Hfit; congruence|]. rewrite Ht in Hfit. cbn [orb].
  destruct (sh_view _ _ _ _ (wg_shared _ _ Hg) i (we_subscribers e)) as [k Hk]; [unfold ws_view; rewrite He; cbn; unfold ws_view_of; by rewrite Hc|].
  destruct (sh_pool _ _ _ _ (wg_shared _ _ Hg) _ _ Hk) as [Hv Hne].
  assert (we_subscribers e = subs_of k (ho_live H)) as Hsubs.
  { unfold ws_view in Hv. rewrite He in Hv. cbn in Hv. unfold ws_view_of in Hv. rewrite Hc in Hv. by injection Hv as ->. }
  destruct (we_subscribers e) as [|x l] eqn:Hl; [by rewrite <-Hsubs in Hne|].
  unfold new_socket, on_ws_entry. cbn [wp_sockets wp_entries wp_pool wp_connections]. rewrite (alter_known _ _ _ _ He).
  rewrite (alter_known _ (<[i := _]> _) i (we_with_timer false e)), list_insert_insert_eq by by apply list_lookup_insert_eq.
  split; cbn [wp_sockets wp_entries wp_pool wp_connections].
  - eapply shared_ext; [|apply Hg]. intros j. unfold ws_view. destruct (decide (i = j)) as [<-|Hij].
    + rewrite list_lookup_insert_eq, He by done. cbn. unfold ws_view_of. cbn. by rewrite Hc.
    + by rewrite list_lookup_insert_ne.
  - apply (wired_again _ _ _ e _ w); try done; [apply Hg|]. split; [done|]. cbn. rewrite Hc. by left.
  - intros k' j f Hj. destruct (decide (i = j)) as [<-|Hij].
    + rewrite list_lookup_insert_eq by done. intros [= <-]. cbn. by apply (wg_keys _ _ Hg _ i).
    + rewrite list_lookup_insert_ne by done. by apply Hg.
Qed.

(** The entry of a key that is held. *)
Lemma pooled_entry s H k i :
  ws_good s H → mget k (wp_pool s) = Some i →
  ∃ e w, wp_entries s !! i = Some e ∧ we_closedByClient e = false ∧ we_subscribers e = subs_of k (ho_live H) ∧ we_subscribers e ≠ [] ∧
    wp_sockets s !! we_ws e = Some w ∧ so_entry w = i ∧ socket_fits e w ∧ getKey (we_key e) = k.
Proof.
  intros Hg Hk. destruct (sh_pool _ _ _ _ (wg_shared _ _ Hg) _ _ Hk) as [Hv Hne]. unfold ws_view in Hv.
  destruct (wp_entries s !! i) as [e|] eqn:He; [|done]. cbn in Hv. unfold ws_view_of in Hv. destruct (we_closedByClient e) eqn:Hc; [done|].
  injection Hv as Hv. destruct (wi_entry _ _ (wg_wired _ _ Hg) _ _ He) as (w & Hs & Hi & Hfit). exists e, w. split_and!; try done; [by rewrite Hv|].
  by apply (wg_keys _ _ Hg _ i).
Qed.

Lemma ws_acquire_good k x s H :
  ws_good s H → x ∉ (ho_live H).*2.*2 → ws_good (acquireWsConnection k x s) (one_more H (getKey k) x).
Proof.
  intros Hg Hx. unfold acquireWsConnection. destruct (mget (getKey k) (wp_pool s)) as [i|] eqn:Hk.
  - destruct (pooled_entry _ _ _ _ Hg Hk) as (e & w & He & Hc & Hsubs & Hne & Hs & Hi & [Hurl Hfit] & Hkey).
    pose proof (lookup_lt_Some _ _ _ He) as Hli. unfold on_ws_entry. cbn [wp_sockets wp_entries wp_pool wp_connections]. rewrite (alter_known _ _ _ _ He).
    assert (x ∉ subs_of (getKey k) (ho_live H)) as Hx'.
    { intros Hin. apply Hx. eapply elem_of_sublist; [exact Hin|apply subs_sublist]. }
    split; cbn [wp_sockets wp_entries wp_pool wp_connections].
    + eapply (shared_joined _ _ _ _ _ (wg_shared _ _ Hg)); [done|done|..].
      * unfold ws_view. rewrite list_lookup_insert_eq by done. cbn. unfold ws_view_of. cbn. by rewrite Hc, Hsubs, set_add_fresh.
      * intros j Hj. unfold ws_view. by rewrite list_lookup_insert_ne.
    + apply (wired_entry _ _ _ e _ w); try done; [apply Hg|]. split; [done|]. cbn. rewrite Hc. by rewrite Hc in Hfit.
    + intros k' j f Hj. destruct (decide (i = j)) as [<-|Hij].
      * rewrite list_lookup_insert_eq by done. intros [= <-]. cbn. by apply (wg_keys _ _ Hg _ i).
      * rewrite list_lookup_insert_ne by done. by apply Hg.
  - set (i := length (wp_entries s)). unfold new_socket, on_ws_entry. cbn [wp_sockets wp_entries wp_pool wp_connections].
    match goal with |- context [wp_entries s ++ [?e]] => set (newEntry := e) end.
    assert (alter (we_with_subscribers (set_add x)) i (wp_entries s ++ [newEntry]) = wp_entries s ++ [we_with_subscribers (set_add x) newEntry]) as ->.
    { rewrite (alter_known _ _ _ newEntry) by (subst i; by apply list_lookup_middle).
      subst i. rewrite insert_app_r_alt by lia. by rewrite Nat.sub_diag. }
    assert (∀ j f, (wp_entries s ++ [we_with_subscribers (set_add x) newEntry]) !! j = Some f →
      wp_entries s !! j = Some f ∧ j ≠ i ∨ j = i ∧ f = we_with_subscribers (set_add x) newEntry) as Hcases.
    { intros j f [Hf|[Hge Hf]]%lookup_app_Some; [left; split; [done|]; apply lookup_lt_Some in Hf; subst i; lia|].
      apply list_lookup_singleton_Some in Hf as [Hj Hf]. right. split; [subst i; lia|done]. }
    split; cbn [wp_sockets wp_entries wp_pool wp_connections].
    + eapply (shared_opened _ _ _ _ _ (wg_shared _ _ Hg)); [done| |done|..].
      * unfold ws_view. subst i. by rewrite lookup_ge_None_2.
      * unfold ws_view. subst i. rewrite list_lookup_middle by done. done.
      * intros j Hj. unfold ws_view. destruct (decide (j < i)) as [Hlt|Hge]; [by rewrite lookup_app_l|].
        by rewrite !lookup_ge_None_2 by (rewrite ?length_app; cbn; subst i; lia).
    + apply wired_opened; [apply Hg|done|done|]. split; [done|]. cbn. by left.
    + intros k' j f Hj [[Hf Hji]|[-> ->]]%Hcases.
      * apply (wg_keys _ _ Hg _ j); [|done]. destruct (decide (getKey k = k')) as [<-|Hkk]; [|by rewrite mget_mset_ne in Hj].
        rewrite mget_mset_eq in Hj. congruence.
      * cbn. destruct (decide (getKey k = k')) as [|Hkk]; [done|]. rewrite mget_mset_ne in Hj by done.
        destruct (pooled_entry _ _ _ _ Hg Hj) as (e & w & He & _). apply lookup_lt_Some in He. subst i. lia.
Qed.

Lemma ws_unsubscribe_good n k x s H :
  ws_good s H → (n, (k, x)) ∈ ho_live H →
  ws_good (match wp_connections s !! n with Some c => ws_unsubscribe c s | None => s end) (one_less H n).
Proof.
  intros Hg Hin. destruct (sh_live _ _ _ _ (wg_shared _ _ Hg) _ _ _ Hin) as (i & Hk & ->).
  destruct (pooled_entry _ _ _ _ Hg Hk) as (e & w & He & Hc & Hsubs & Hne & Hs & Hi & [Hurl Hfit] & Hkey).
  pose proof (lookup_lt_Some _ _ _ He) as Hli. rewrite Hc in Hfit.
  unfold ws_unsubscribe. cbn [cn_entry cn_subscriber cn_poolKey]. unfold on_ws_entry at 1. cbn [wp_entries]. rewrite (alter_known _ _ _ _ He).
  rewrite list_lookup_insert_eq by done. cbn [we_with_subscribers we_subscribers we_ws]. rewrite Hsubs.
  assert (∀ f, we_key f = we_key e → ∀ k' j g, mget k' (wp_pool s) = Some j → (<[i := f]> (wp_entries s)) !! j = Some g → getKey (we_key g) = k') as Hkeys.
  { intros f Hf k' j g Hj. destruct (decide (i = j)) as [<-|Hij].
    - rewrite list_lookup_insert_eq by done. intros [= <-]. rewrite Hf. by apply (wg_keys _ _ Hg _ i).
    - rewrite list_lookup_insert_ne by done. by apply Hg. }
  destruct (set_delete x (subs_of k (ho_live H))) as [|y l] eqn:Hd.
  - unfold on_ws_entry, on_socket. cbn [wp_sockets wp_entries wp_pool wp_connections]. rewrite (alter_known _ _ _ _ He), (alter_known _ _ _ _ Hs).
    rewrite (alter_known _ (<[i := _]> _) i (we_with_subscribers (set_delete x) e)), list_insert_insert_eq by by apply list_lookup_insert_eq.
    split; cbn [wp_sockets wp_entries wp_pool wp_connections].
    + eapply (shared_ended _ _ _ _ _ (wg_shared _ _ Hg)); [done|done|done|..].
      * unfold ws_view. by rewrite list_lookup_insert_eq.
      * intros j Hj. unfold ws_view. by rewrite list_lookup_insert_ne.
    + apply (wired_update _ _ _ _ _ w); try done; [apply Hg|by destruct w as [? ? []]|].
      split; [by destruct w as [? ? []]|]. cbn. rewrite Hsubs, Hd. split_and!; [done..|]. destruct w as [url j st]. cbn in *.
      destruct (we_reconnectTimer e); [subst st; by right|]. by destruct Hfit as [->| ->]; left.
    + intros k' j g Hj. apply Hkeys; [done|]. rewrite mget_mdel in Hj by apply (wg_shared _ _ Hg). by destruct (decide (k = k')).
  - unfold on_ws_entry. rewrite (alter_known _ _ _ _ He). split; cbn [wp_sockets wp_entries wp_pool wp_connections].
    + eapply (shared_left _ _ _ _ _ (wg_shared _ _ Hg)); [done|done|by rewrite Hd|..].
      * unfold ws_view. rewrite list_lookup_insert_eq by done. cbn. unfold ws_view_of. cbn. by rewrite Hc, Hsubs.
      * intros j Hj. unfold ws_view. by rewrite list_lookup_insert_ne.
    + apply (wired_entry _ _ _ e _ w); try done; [apply Hg|]. split; [done|]. cbn. by rewrite Hc.
    + by apply Hkeys.
Qed.

Lemma ws_use_good u s H : ws_good s H → allowed H u = true → ws_good (ws_use u s) (held getKey H u).
Proof.
  intros Hg Ha. destruct u as [k x|n].
  - apply ws_acquire_good; [done|]. by apply (allowed_acquire H k).
  - apply allowed_unsubscribe in Ha as (k & x & Hin). by apply (ws_unsubscribe_good n k x).
Qed.

Lemma ws_step_good l s H :
  ws_good s H → match l with WsCaller u => allowed H u = true | _ => True end →
  ws_good (ws_step throws l s).2 (match l with WsCaller u => held getKey H u | _ => H end).
Proof.
  intros Hg Ha. destruct l as [u|n|n data|n|n random|i]; cbn [ws_step snd].
  - by apply ws_use_good.
  - apply on_event_good; [done|by intros [] Hst|]. intros i e w He Hs <- Hi Hst [Hurl Hfit]. cbn [snd].
    unfold is_connecting in Hst. apply bool_decide_eq_true in Hst.
    unfold on_socket, on_ws_entry. cbn [wp_sockets wp_entries wp_pool wp_connections]. rewrite (alter_known _ _ _ _ He), (alter_known _ _ _ _ Hs).
    apply (ws_event_good _ _ _ _ _ w); try done. split; [done|]. cbn.
    destruct (we_closedByClient e); [destruct Hfit as (_ & _ & [? | ?]); congruence|].
    destruct (we_reconnectTimer e); [congruence|by right].
  - apply on_event_good; [done|by intros [] Hst|]. intros i e w He Hs <- Hi Hst [Hurl Hfit].
    destruct (onmessage _ _ _ _) as [[] calls]; cbn [snd]; [|done]. by apply (ws_entry_good _ _ _ _ e w).
  - apply on_event_good; [done|by intros [] Hst|]. intros i e w He Hs <- Hi Hst [Hurl Hfit]. cbn [snd]. by apply (ws_entry_good _ _ _ _ e w).
  - apply on_event_good; [done|by intros [] Hst|]. intros i e w He Hs Hn Hi Hst Hfit.
    unfold not_closed in Hst. apply bool_decide_eq_true in Hst.
    subst n. pose proof (scheduled_good random i _ e w s H Hg He Hs eq_refl Hi Hfit Hst) as Hgood. by destruct (scheduleReconnect _ _ _).
  - by apply timer_good.
Qed.

Lemma ws_run_good ls s H :
  ws_good s H → proper getKey H (ws_uses ls) = true →
  ws_good (ws_run throws ls s) (foldl (held getKey) H (ws_uses ls)).
Proof.
  revert s H. induction ls as [|l ls IH]; intros s H Hg Hp; [done|]. unfold ws_run. cbn [foldl]. change (foldl _ ?s ls) with (ws_run throws ls s).
  pose proof (ws_step_good l s H Hg) as Hs. unfold ws_uses in *. destruct l as [u| | | | |]; cbn [omap list_omap] in *; try by apply IH; [apply Hs|].
  cbn [proper foldl] in *. apply andb_true_iff in Hp as [Ha Hp]. apply IH; [by apply Hs|done].
Qed.

Lemma ws_empty_good : ws_good ws_empty nobody.
Proof. split; [apply shared_nobody|by split; intros []|done]. Qed.
End ws.

(** ** What holds of both pools *)

(** What a subscriber is given of a message: its id, when it has one, and the event. *)
Definition given (id : string) (event : jsval) (x : nat) : list (nat * Call) :=
  (if String.eqb id "" then [] else [(x, OnEventId id)]) ++ [(x, OnEvent event)].

(** An event handed to subscribers none of which throws, or up to the first that
    does. *)
Lemma hand_over_all throws id event subs :
  (∀ x, x ∈ subs → throws x event = false) → hand_over throws id event subs = (subs ≫= given id event, false).
Proof.
  induction subs as [|x subs IH]; [done|]. intros Ht. cbn [hand_over]. rewrite Ht by left.
  rewrite IH by (intros; apply Ht; by right). done.
Qed.

Lemma hand_over_some throws id event before x rest :
  (∀ y, y ∈ before → throws y event = false) → throws x event = true →
  hand_over throws id event (before ++ x :: rest) = ((before ++ [x]) ≫= given id event, true).
Proof.
  intros Hb Hx. induction before as [|y before IH]; cbn [hand_over app].
  - rewrite Hx. cbn. by rewrite app_nil_r.
  - rewrite Hb by left. rewrite IH by (intros; apply Hb; by right). done.
Qed.

(** C32: As long as each connection is given back once and a subscriber holds one at
    a time, however callers come and go and whatever the servers send: the pool has
    an entry for exactly the keys that are held, its subscribers are the holders in
    the order they came, and the sources that are open are those of the pool, one
    for each key.  An event reaches each holder once, in order; or, when the callback
    of one throws, the holders up to that one, and then all of them are told that it
    could not be parsed. *)
Theorem sse_pool_exact throws ls :
  proper sse_poolKey nobody (sse_uses ls) = true →
  let s := sse_run throws ls sse_empty in
  let live := ho_live (foldl (held sse_poolKey) nobody (sse_uses ls)) in
  (∀ k, is_Some (mget k (sp_pool s)) ↔ ∃ n x, (n, (k, x)) ∈ live) ∧
  (∀ k i, mget k (sp_pool s) = Some i →
     ∃ e, sp_entries s !! i = Some e ∧ ce_open e = true ∧ ce_subscribers e = subs_of k live) ∧
  (∀ i e, sp_entries s !! i = Some e → ce_open e = true →
     ∃ k, mget k (sp_pool s) = Some i ∧ ∀ k', mget k' (sp_pool s) = Some i → k' = k) ∧
  (∀ k i event id, mget k (sp_pool s) = Some i → auth_expired event = false →
     let calls := (sse_step throws (SseMessage i (Some event) id) s).1 in
     ((∀ x, x ∈ subs_of k live → throws x event = false) → calls = subs_of k live ≫= given id event) ∧
     (∀ before x rest, subs_of k live = before ++ x :: rest → (∀ y, y ∈ before → throws y event = false) → throws x event = true →
        calls = ((before ++ [x]) ≫= given id event) ++ ((λ y, (y, OnParseError)) <$> subs_of k live))).
Proof.
  intros Hp s live. assert (sse_good s (foldl (held sse_poolKey) nobody (sse_uses ls))) as Hg by (apply sse_run_good; [apply shared_nobody|done]).
  assert (∀ k i, mget k (sp_pool s) = Some i →
    ∃ e, sp_entries s !! i = Some e ∧ ce_open e = true ∧ ce_subscribers e = subs_of k live) as Hpool.
  { intros k i Hk. destruct (sh_pool _ _ _ _ Hg _ _ Hk) as [Hv _]. unfold sse_view in Hv. destruct (sp_entries s !! i) as [e|]; [|done].
    exists e. cbn in Hv. unfold view_of in Hv. destruct (ce_open e); [|done]. by injection Hv as ->. }
  split_and!; [|done| |].
  - intros k. split.
    + intros [i Hi]. destruct (sh_pool _ _ _ _ Hg _ _ Hi) as [_ Hne]. destruct (subs_of k _) as [|x l] eqn:Hs; [done|].
      assert (x ∈ subs_of k live) as [n Hn]%elem_of_subs by (unfold live; rewrite Hs; left). by exists n, x.
    + intros (n & x & Hin). apply (sh_live _ _ _ _ Hg) in Hin as (i & Hi & _). by exists i.
  - intros i e He Ho. destruct (sh_view _ _ _ _ Hg i (ce_subscribers e)) as [k Hk].
    { unfold sse_view. rewrite He. cbn. unfold view_of. by rewrite Ho. }
    exists k. split; [done|]. intros k' Hk'. by apply (sh_inj _ _ _ _ Hg k' k i).
  - intros k i event id Hk Hauth calls. destruct (Hpool k i Hk) as (e & He & Ho & Hs).
    assert (calls = (let '(calls, threw) := hand_over throws id event (subs_of k live) in
      calls ++ if threw then notifySubscribers OnParseError (subs_of k live) else [])) as ->.
    { subst calls. cbn [sse_step]. unfold on_source. rewrite He, Ho. unfold onmessage. rewrite Hauth, Hs. by destruct (hand_over _ _ _ _). }
    split; [intros Ht; rewrite hand_over_all by done; by rewrite app_nil_r|].
    intros before x rest Hsub Hb Hx. rewrite Hsub at 1. by rewrite (hand_over_some _ _ _ before x rest).
Qed.

(** C33: For web sockets, again as long as each connection is given back once and a
    subscriber holds one at a time: the keys of the pool are those held, with their
    holders; a key that is held is on exactly one socket that connects or is open,
    to the address of its key, or waits for the one timer that opens the next; and
    every socket that connects or is open is that of a key that is held. *)
Theorem ws_pool_exact throws ls :
  proper getKey nobody (ws_uses ls) = true →
  let s := ws_run throws ls ws_empty in
  let live := ho_live (foldl (held getKey) nobody (ws_uses ls)) in
  (∀ k, is_Some (mget k (wp_pool s)) ↔ ∃ n x, (n, (k, x)) ∈ live) ∧
  (∀ k i, mget k (wp_pool s) = Some i → ∃ e w,
     wp_entries s !! i = Some e ∧ getKey (we_key e) = k ∧ we_subscribers e = subs_of k live ∧
     wp_sockets s !! we_ws e = Some w ∧ so_url w = getWsUrl (we_key e) ∧
     if we_reconnectTimer e then so_state w = Closed else so_state w = Connecting ∨ so_state w = Open) ∧
  (∀ n w, wp_sockets s !! n = Some w → so_state w = Connecting ∨ so_state w = Open →
     ∃ k e, mget k (wp_pool s) = Some (so_entry w) ∧ wp_entries s !! so_entry w = Some e ∧ we_ws e = n) ∧
  (∀ i e, wp_entries s !! i = Some e → we_reconnectTimer e = true → ∃ k, mget k (wp_pool s) = Some i).
Proof.
  intros Hp s live. assert (ws_good s (foldl (held getKey) nobody (ws_uses ls))) as Hg by (apply ws_run_good; [apply ws_empty_good|done]).
  assert (∀ i e, wp_entries s !! i = Some e → we_closedByClient e = false → ∃ k, mget k (wp_pool s) = Some i) as Hopen.
  { intros i e He Hc. apply (sh_view _ _ _ _ (wg_shared _ _ Hg) i (we_subscribers e)). unfold ws_view. rewrite He. cbn. unfold ws_view_of. by rewrite Hc. }
  split_and!.
  - intros k. split.
    + intros [i Hi]. destruct (sh_pool _ _ _ _ (wg_shared _ _ Hg) _ _ Hi) as [_ Hne]. destruct (subs_of k _) as [|x l] eqn:Hs; [done|].
      assert (x ∈ subs_of k live) as [n Hn]%elem_of_subs by (unfold live; rewrite Hs; left). by exists n, x.
    + intros (n & x & Hin). apply (sh_live _ _ _ _ (wg_shared _ _ Hg)) in Hin as (i & Hi & _). by exists i.
  - intros k i Hk. destruct (pooled_entry _ _ _ _ Hg Hk) as (e & w & He & Hc & Hsubs & _ & Hs & Hi & [Hurl Hfit] & Hkey).
    exists e, w. rewrite Hc in Hfit. done.
  - intros n w Hw Hst. destruct (wi_socket _ _ (wg_wired _ _ Hg) n w Hw) as (e & He & Hn); [by destruct Hst as [->| ->]|].
    destruct (wi_entry _ _ (wg_wired _ _ Hg) _ _ He) as (w0 & Hw0 & _ & _ & Hfit). assert (w0 = w) as -> by congruence.
    destruct (we_closedByClient e) eqn:Hc; [destruct Hfit as (_ & _ & [?|?]), Hst; congruence|].
    destruct (Hopen _ _ He Hc) as [k Hk]. by exists k, e.
  - intros i e He Ht. destruct (wi_entry _ _ (wg_wired _ _ Hg) _ _ He) as (w & _ & _ & _ & Hfit).
    destruct (we_closedByClient e) eqn:Hc; [destruct Hfit; congruence|]. by apply (Hopen i e).
Qed.

(** ** Keys *)

(** The text of a list of strings and booleans names the list. *)
Lemma array_text_inj l l' :
  forallb plain l = true → forallb plain l' = true → text (JArr l) = text (JArr l') → l = l'.
Proof.
  intros Hl Hl' H. destruct (stringify_reads (JArr l) Hl (JArr l') "" "" Hl' eq_refl eq_refl) as [Heq _]; [by rewrite H|]. by injection Heq.
Qed.

Definition same_connection (k k' : ConnectionKey) : Prop :=
  ck_serverUrl k = ck_serverUrl k' ∧ ck_address k = ck_address k' ∧ default "" (ck_token k) = default "" (ck_token k') ∧
  default false (ck_withCredentials k) = default false (ck_withCredentials k').

(** Two callers share a source exactly when they name the same server and
    address, the same token and credentials (absent, empty and false alike), and
    then they would have opened the same url; an address and a contract never
    share one. *)
Theorem connection_keys_exact k k' c :
  (getConnectionKey k = getConnectionKey k' ↔ same_connection k k') ∧
  (same_connection k k' → getEventSourceUrl k = getEventSourceUrl k') ∧
  getConnectionKey k ≠ getContractKey c.
Proof.
  unfold getConnectionKey, getContractKey, same_connection. split_and!.
  - split.
    + intros H. apply array_text_inj in H; [|done..]. injection H as H1 H2 H3 H4. done.
    + intros (-> & -> & -> & ->). done.
  - intros (Hs & Ha & Ht & _). unfold getEventSourceUrl. rewrite Hs, Ha. f_equal. unfold token_query.
    destruct (ck_token k) as [[]|], (ck_token k') as [[]|]; cbn in Ht; congruence.
  - intros H. apply array_text_inj in H; done.
Qed.

(** ** Behaviour to know *)

Definition demo_key : ConnectionKey := {| ck_serverUrl := "https://s"; ck_address := "G"; ck_token := None; ck_withCredentials := None |}.
Definition never : nat → jsval → bool := λ _ _, false.
Definition demo_run (ls : list SseLabel) : SsePool := sse_run never ls sse_empty.
Definition take_on (x : nat) : SseLabel := SseCaller (Acquire (AddressKey demo_key) x).
Definition give_back (n : nat) : SseLabel := SseCaller (Unsubscribe n).
Definition open_sources (s : SsePool) : nat := length (List.filter ce_open (sp_entries s)).

(** Calling [unsubscribe] a second time takes the entry of a later caller from the
    pool: a third caller opens a second source of the same key, and the first of
    the two is closed by its holder only. *)
Lemma second_unsubscribe_doubles_source :
  let s := demo_run [take_on 1; give_back 0; take_on 2; give_back 0; take_on 3] in
  open_sources s = 2 ∧ length (sp_pool s) = 1.
Proof. split; reflexivity. Qed.

(** A subscriber that acquires the same key twice counts once: giving back one of
    its connections closes the source under the other. *)
Lemma twice_subscribed_closed_early :
  let s := demo_run [take_on 1; take_on 1; give_back 0] in open_sources s = 0 ∧ length (sp_connections s) = 2.
Proof. split; reflexivity. Qed.

(** When the callback of one subscriber throws, the subscribers after it do not
    get the event, and all of them are told that it could not be parsed. *)
Lemma throwing_callback_hides_event :
  onmessage (λ x _, x =? 1) (Some (JObj [("type", JStr "payment.received")])) "" [1; 2] =
    (false, [(1, OnEvent (JObj [("type", JStr "payment.received")])); (1, OnParseError); (2, OnParseError)]).
Proof. reflexivity. Qed.

(** A contract key without topics and one with a single empty topic share a
    source, though their urls differ. *)
Definition contract_key (topics : option (list string)) : ContractKey :=
  {| ct_serverUrl := "https://s"; ct_contractId := "C"; ct_topics := topics; ct_token := None; ct_withCredentials := None |}.
Lemma empty_topic_shares_source :
  getContractKey (contract_key None) = getContractKey (contract_key (Some [""])) ∧
  getContractEventSourceUrl (contract_key None) ≠ getContractEventSourceUrl (contract_key (Some [""])).
Proof. split; [reflexivity|discriminate]. Qed.

(** After an auth notice the source stays open and is what later callers join. *)
Lemma expired_source_is_joined :
  let s := demo_run [take_on 1; SseOpened 0; SseMessage 0 (Some (JObj [("type", JStr "auth_expired")])) ""; take_on 2] in
  open_sources s = 1 ∧ (ce_connected <$> sp_entries s) = [false].
Proof. split; reflexivity. Qed.

(** ** Witnesses *)

Lemma sse_pool_exact_witness :
  proper sse_poolKey nobody (sse_uses [take_on 1; take_on 2; take_on 3; SseOpened 0; give_back 0]) = true ∧
  ∀ event, auth_expired event = false →
    (sse_step (λ x _, x =? 2) (SseMessage 0 (Some event) "7") (sse_run (λ x _, x =? 2) [take_on 1; take_on 2; take_on 3; SseOpened 0; give_back 0] sse_empty)).1 =
      [(2, OnEventId "7"); (2, OnEvent event); (2, OnParseError); (3, OnParseError)].
Proof.
  split; [reflexivity|]. intros event Hauth.
  destruct (sse_pool_exact (λ x _, x =? 2) [take_on 1; take_on 2; take_on 3; SseOpened 0; give_back 0] eq_refl) as (_ & _ & _ & Hcalls).
  destruct (Hcalls (getConnectionKey demo_key) 0 event "7" eq_refl Hauth) as [_ Hthrew].
  apply (Hthrew [] 2 [3]); [reflexivity|set_solver|reflexivity].
Defined.

Definition demo_ws : WsConnectionKey := {| wk_serverUrl := "http://s"; wk_address := "G"; wk_token := Some "t" |}.

Lemma ws_pool_exact_witness :
  let ls := [WsCaller (Acquire demo_ws 1); WsOpened 0; WsWasClosed 0 5; WsTimerFired 0] in
  proper getKey nobody (ws_uses ls) = true ∧
  ∃ e w, wp_entries (ws_run never ls ws_empty) !! 0 = Some e ∧ wp_sockets (ws_run never ls ws_empty) !! we_ws e = Some w ∧
    so_url w = "ws://s/events/G?token=t".
Proof.
  intros ls. split; [reflexivity|]. destruct (ws_pool_exact never ls eq_refl) as (_ & Hpool & _ & _).
  destruct (Hpool (getKey demo_ws) 0 eq_refl) as (e & w & He & _ & _ & Hs & Hurl & _). exists e, w. split; [exact He|]. split; [exact Hs|].
  rewrite Hurl. vm_compute in He. injection He as <-. reflexivity.
Defined.
