(* ===== verification/EventHooks.v ===== *)
(** * The state of the notification hooks

    pulse-notify/src/index.ts: what useStellarEvent, useContractEvent,
    useStellarAddresses and useStellarHistory show of the calls a shared connection
    of [ConnectionPool] makes.  React runs the updates in order; an event is an
    object, a capacity a natural number, the caller's filter and schema are predicates, and the provider of
    fresh tokens answers with a step of its own. *)

From S2P Require Import Prelude JsMap JsValue Decimal Amount CanonicalJson Evidence Stream SorobanCalls ConnectionPool.

Record EventState := {
  es_event : jsval;
  es_connected : bool;
  es_error : option string;
  es_lastEventAt : jsval;
  es_caughtUp : bool;
}.

(** The hook's state, its [lastEventIdRef], and the token with the counter whose
    change makes it connect again. *)
Record Hook := {
  hk_state : EventState;
  hk_lastEventId : string;
  hk_currentToken : option string;
  hk_tokenRefreshKey : nat;
}.

Definition initial_state (initialEvent : jsval) : EventState :=
  {| es_event := coalesce initialEvent JNull; es_connected := false; es_error := None; es_lastEventAt := JNull; es_caughtUp := true |}.

Definition new_hook (initialEvent : jsval) (token : option string) : Hook :=
  {| hk_state := initial_state initialEvent; hk_lastEventId := ""; hk_currentToken := token; hk_tokenRefreshKey := 0 |}.

Definition set_state (f : EventState → EventState) (h : Hook) : Hook :=
  {| hk_state := f (hk_state h); hk_lastEventId := hk_lastEventId h; hk_currentToken := hk_currentToken h; hk_tokenRefreshKey := hk_tokenRefreshKey h |}.

Definition with_connected (b : bool) (error : option string) (caughtUp : bool) (p : EventState) : EventState :=
  {| es_event := es_event p; es_connected := b; es_error := error; es_lastEventAt := es_lastEventAt p; es_caughtUp := caughtUp |}.

Definition with_error (error : string) (p : EventState) : EventState :=
  {| es_event := es_event p; es_connected := es_connected p; es_error := Some error; es_lastEventAt := es_lastEventAt p; es_caughtUp := es_caughtUp p |}.

Definition with_event (incoming : jsval) (p : EventState) : EventState :=
  {| es_event := incoming; es_connected := es_connected p; es_error := es_error p;
     es_lastEventAt := coalesce (prop incoming "timestamp") JNull; es_caughtUp := true |}.

Section hook.
(** Which events reach the state, and whether there is a token provider. *)
Context (passes : jsval → bool) (provider : bool).

Definition on_call (c : Call) (h : Hook) : Hook :=
  match c with
  | OnOpen => set_state (with_connected true None (String.eqb (hk_lastEventId h) "")) h
  | OnEventId id => {| hk_state := hk_state h; hk_lastEventId := id; hk_currentToken := hk_currentToken h; hk_tokenRefreshKey := hk_tokenRefreshKey h |}
  | OnEvent incoming => if passes incoming then set_state (with_event incoming) h else h
  | OnParseError => set_state (with_error "Failed to parse event") h
  | OnError => set_state (λ p, with_connected false (Some "Connection lost - retrying...") (es_caughtUp p) p) h
  | OnAuthExpired =>
      if provider then h else set_state (λ p, with_connected false (Some "Token expired") (es_caughtUp p) p) h
  end.

Definition on_calls (cs : list Call) (h : Hook) : Hook := foldl (λ h c, on_call c h) h cs.

(** What the provider's promise does: a token, or a rejection. *)
Definition token_refreshed (newToken : option string) (h : Hook) : Hook :=
  match newToken with
  | Some t => {| hk_state := hk_state h; hk_lastEventId := hk_lastEventId h; hk_currentToken := Some t; hk_tokenRefreshKey := S (hk_tokenRefreshKey h) |}
  | None => set_state (with_error "Token refresh failed") h
  end.

(** The effect: on a connection that is already open, or when the page was hidden
    too long. *)
Definition effect_runs (isActive connected : bool) (h : Hook) : Hook :=
  let h := {| hk_state := hk_state h; hk_lastEventId := ""; hk_currentToken := hk_currentToken h; hk_tokenRefreshKey := hk_tokenRefreshKey h |} in
  if negb isActive then set_state (λ p, with_connected false (es_error p) (es_caughtUp p) p) h
  else if connected then set_state (λ p, with_connected true None (es_caughtUp p) p) h
  else h.
End hook.

(** ** Which events pass *)

(** [string | string[]] *)
Inductive EventChoice := OneType (t : string) | TypeList (l : list string).

Definition optional_filter (filter : option (jsval → bool)) (incoming : jsval) : bool :=
  match filter with Some f => f incoming | None => true end.

Definition allowed_type (choice : EventChoice) (incoming : jsval) : bool :=
  match choice with
  | OneType "*" => true
  | OneType t => is_str (prop incoming "type") t
  | TypeList l => existsb (is_str (prop incoming "type")) l
  end.

(** useStellarEvent *)
Definition event_passes (choice : EventChoice) (filter : option (jsval → bool)) (incoming : jsval) : bool :=
  allowed_type choice incoming && optional_filter filter incoming.

Definition eventKey (choice : EventChoice) : string :=
  match choice with OneType t => t | TypeList l => join "," (sort_strings l) end.

(** useStellarAddresses: the list that serialises to the star is the star. *)
Definition resolvedEventType (choice : option EventChoice) : EventChoice :=
  match choice with
  | None => OneType "*"
  | Some c => if String.eqb (eventKey c) "*" then OneType "*" else c
  end.

Definition address_passes (choice : option EventChoice) : option (jsval → bool) → jsval → bool := event_passes (resolvedEventType choice).

(** [ev.topics.includes(t)], on an array of strings *)
Definition has_topic (incoming : jsval) (t : string) : bool :=
  match prop incoming "topics" with JArr l => existsb (λ v, is_str v t) l | _ => false end.

(** useContractEvent; the schema is whether [safeParse] succeeds on the data. *)
Definition contract_passes (topics : option (list string)) (filter schema : option (jsval → bool)) (incoming : jsval) : bool :=
  let emitted := is_str (prop incoming "type") "contract.emitted" in
  (negb emitted || forallb (has_topic incoming) (default [] topics)) && optional_filter filter incoming &&
  (negb emitted || match schema with Some parse => parse (prop incoming "data") | None => true end).

(** ** History *)

Definition push_history (capacity : nat) (event : jsval) (prev : list jsval) : list jsval :=
  let next := prev ++ [event] in
  if capacity <? length next then drop (length next - capacity) next else next.

Definition history (capacity : nat) (initialEvent : jsval) (events : list jsval) : list jsval :=
  foldl (λ h e, push_history capacity e h) (if truthy initialEvent then [initialEvent] else []) events.

(** ** Amounts *)

(** [/^\d+$/] *)
Definition some_digits (s : string) : bool := negb (String.eqb s "") && all_digits s.

(** useStellarPayment *)
Definition amountToStroop (amount : string) : option Z :=
  match str_split "." amount with
  | [whole] => if some_digits whole then Some (Z.of_N (digits_value whole) * STROOPS_PER_UNIT)%Z else None
  | [whole; frac] =>
      if some_digits whole && some_digits frac then
        Some (Z.of_N (digits_value whole) * STROOPS_PER_UNIT + Z.of_N (digits_value (String.substring 0 7 (frac +:+ "0000000"))))%Z
      else None
  | _ => None
  end.

(** ** What the state shows *)

Section shown.
Context (passes : jsval → bool) (provider : bool).

(** The last of a list a function answers for, or [d]. *)
Fixpoint last_of {A B} (f : A → option B) (d : B) (l : list A) : B :=
  match l with [] => d | x :: l => last_of f (match f x with Some b => b | None => d end) l end.

Lemma last_of_snoc {A B} (f : A → option B) d l x : last_of f d (l ++ [x]) = match f x with Some b => b | None => last_of f d l end.
Proof. revert d. induction l as [|y l IH]; intros d; cbn; [done|]. apply IH. Qed.

Definition shown_event (c : Call) : option jsval := match c with OnEvent e => if passes e then Some e else None | _ => None end.
Definition shown_connected (c : Call) : option bool :=
  match c with OnOpen => Some true | OnError => Some false | OnAuthExpired => if provider then None else Some false | _ => None end.
Definition shown_error (c : Call) : option (option string) :=
  match c with
  | OnOpen => Some None
  | OnError => Some (Some "Connection lost - retrying...")
  | OnParseError => Some (Some "Failed to parse event")
  | OnAuthExpired => if provider then None else Some (Some "Token expired")
  | _ => None
  end.

(** The event shown is the last that passes, the connection is up when the last
    call about it says so, and the error is that of the last failure since the
    connection opened: no event takes it back. *)
Lemma hook_shows_last cs h :
  let st := hk_state (on_calls passes provider cs h) in
  es_event st = last_of shown_event (es_event (hk_state h)) cs ∧
  es_connected st = last_of shown_connected (es_connected (hk_state h)) cs ∧
  es_error st = last_of shown_error (es_error (hk_state h)) cs.
Proof.
  intros st. subst st. unfold on_calls. induction cs as [|c cs (IH1 & IH2 & IH3)] using rev_ind; [done|].
  rewrite foldl_snoc, !last_of_snoc. destruct c; cbn [on_call shown_event shown_connected shown_error]; try done; [by destruct (passes event)|].
  by destruct provider.
Qed.

(** A connection that comes back after events with ids is caught up when an event
    that passes arrives; one that is filtered out does not count. *)
Lemma filtered_event_keeps_waiting e h :
  passes e = false → hk_lastEventId h ≠ "" → es_caughtUp (hk_state (on_calls passes provider [OnOpen; OnEvent e] h)) = false.
Proof. intros He Hid. cbn. rewrite He. cbn. by apply String.eqb_neq. Qed.
End shown.

(** The history holds the last events, as many as the capacity. *)
Lemma history_bounded capacity initialEvent events :
  let all := (if truthy initialEvent then [initialEvent] else []) ++ events in
  length (if truthy initialEvent then [initialEvent] else []) ≤ capacity →
  history capacity initialEvent events = drop (length all - capacity) all.
Proof.
  cbn zeta. unfold history. set (first := if truthy initialEvent then _ else _). intros Hf.
  induction events as [|e events IH] using rev_ind.
  - cbn. rewrite app_nil_r. by replace (length first - capacity) with 0 by lia.
  - rewrite foldl_snoc, IH. unfold push_history. set (all := first ++ events) in *. rewrite (assoc_L app).
    fold all. rewrite !length_app, length_drop. cbn [length].
    destruct (capacity <? _) eqn:Hc.
    + apply Nat.ltb_lt in Hc. rewrite <-drop_app_le by lia. rewrite drop_drop. f_equal. lia.
    + apply Nat.ltb_ge in Hc. rewrite <-drop_app_le by lia. f_equal. lia.
Qed.

(** The hook's amount is the engine's, wherever it has one. *)
Lemma amountToStroop_agrees amount v : amountToStroop amount = Some v → toBigInt amount = Ok v.
Proof.
  unfold amountToStroop, toBigInt. intros H.
  assert (starts_with "-" amount = false ∧ match amount with String "-"%char r => r | _ => amount end = amount ∧ amount ≠ "") as (Hs & Ha & Hne).
  { destruct amount as [|c r]; [by cbn in H|]. destruct (ascii_dec c "-") as [->|Hc].
    - cbn in H. destruct (str_split "." r) as [|w l]; [done|]. destruct l as [|f [|]]; done.
    - split_and!; [by destruct c as [[] [] [] [] [] [] [] []]|by destruct c as [[] [] [] [] [] [] [] []]|done]. }
  rewrite Ha, Hs. apply String.eqb_neq in Hne as ->. cbn [reject_if mbind result_bind].
  destruct (str_split "." amount) as [|whole [|frac [|]]]; try done; cbn [length Nat.ltb Nat.leb default lookup list_lookup mbind reject_if].
  - unfold some_digits in H. destruct (String.eqb_spec whole "") as [|Hw]; [done|]. cbn [negb andb] in H.
    destruct (all_digits whole) eqn:Hd; [|done]. injection H as <-. cbn -[digits_value Z.mul]. rewrite (proj2 (String.eqb_neq _ _) Hw), Hd.
    cbn -[digits_value Z.mul]. by rewrite Z.add_0_r.
  - unfold some_digits in H. destruct (String.eqb_spec whole "") as [|Hw]; [done|]. destruct (all_digits whole) eqn:Hd; [|done].
    destruct (String.eqb_spec frac "") as [|Hf]; [done|]. destruct (all_digits frac) eqn:Hdf; [|done]. cbn [negb andb] in H. injection H as <-.
    cbn -[digits_value Z.mul String.substring]. rewrite (proj2 (String.eqb_neq _ _) Hw), Hd, Hdf. cbn -[digits_value Z.mul String.substring].
    by rewrite andb_false_r.
Qed.

(** ** Behaviour to know *)

(** A list that holds the star lets events of all types pass in
    useStellarAddresses, and none in useStellarEvent. *)
Lemma star_list_differs :
  event_passes (TypeList ["*"]) None (JObj [("type", JStr "payment.sent")]) = false ∧
  address_passes (Some (TypeList ["*"])) None (JObj [("type", JStr "payment.sent")]) = true.
Proof. split; reflexivity. Qed.

(** The message of a text that did not parse stays while events come in. *)
Lemma parse_error_sticks :
  es_error (hk_state (on_calls (λ _, true) false [OnOpen; OnParseError; OnEvent (JObj [])] (new_hook JNull None))) = Some "Failed to parse event".
Proof. reflexivity. Qed.
