(* ===== verification/ScvalCodec.v ===== *)
(** * Contract values and their JavaScript forms

    abi-registry/src/scval.ts, which turns a JavaScript value into a contract value
    by a type given in one of three notations, or by its looks; and decode.ts,
    which turns the topics and the data of a raw event into JSON values.  The
    Stellar SDK's part (XDR, strkeys, its integer and error classes) is the class
    [Sdk].  JavaScript values that scval.ts tells apart and JSON does not have are
    in [Native].  [jsToScval] recurses on values and on types: it takes fuel.
    Texts are ASCII; the paths of decoding errors are kept, their wording is not. *)

From S2P Require Import Prelude JsMap JsValue Decimal CanonicalJson Evidence PrivateIp WebhookVerify Wasm Discovery.

(** ** Values *)

Inductive ScAddress :=
  | AccountAddress (key : list Z)
  | ContractAddress (id : list Z)
  | OtherAddress.   (** muxed accounts, claimable balances and pools *)

(** A contract value; the parts of wide integers are what the XDR holds. *)
Inductive ScVal :=
  | scvBool (b : bool)
  | scvVoid
  | scvError (arm : string) (code : jsnum)
  | scvU32 (n : jsnum)
  | scvI32 (n : jsnum)
  | scvU64 (z : Z)
  | scvI64 (z : Z)
  | scvTimepoint (z : Z)
  | scvDuration (z : Z)
  | scvU128 (hi lo : Z)
  | scvI128 (hi lo : Z)
  | scvU256 (hiHi hiLo loHi loLo : Z)
  | scvI256 (hiHi hiLo loHi loLo : Z)
  | scvBytes (l : list Z)
  | scvString (s : string)
  | scvSymbol (s : string)
  | scvVec (l : option (list ScVal))
  | scvMap (l : option (list (ScVal * ScVal)))
  | scvAddress (a : ScAddress)
  | scvContractInstance (wasmHash : option (list Z)) (storage : option (list (ScVal * ScVal)))
  | scvLedgerKeyContractInstance
  | scvLedgerKeyNonce (nonce : Z).

(** A JavaScript value, as far as scval.ts tells kinds apart. *)
Inductive Native :=
  | NUndef
  | NNull
  | NBool (b : bool)
  | NNum (n : jsnum)
  | NBigInt (z : Z)
  | NStr (s : string)
  | NBytes (l : list Z)                     (** a Buffer or Uint8Array *)
  | NArr (l : list Native)
  | NObj (fields : list (string * Native))
  | NMap (l : list (Native * Native))
  | NScVal (v : ScVal)
  | NScAddress (a : ScAddress)
  | NAddress (a : ScAddress)                (** an instance of the class Address *)
  | NError.                                 (** an instance of Error *)

(** JSON values are JavaScript values. *)
Fixpoint embed (v : jsval) : Native :=
  match v with
  | JUndef => NUndef
  | JNull => NNull
  | JBool b => NBool b
  | JNum n => NNum n
  | JStr s => NStr s
  | JArr l => NArr (List.map embed l)
  | JObj fs => NObj (List.map (λ f : string * jsval, let (k, w) := f in (k, embed w)) fs)
  end.

(** What is used of the Stellar SDK.  [Uint64] and [Int64] are the constructors of
    its integer classes, [None] where they throw. *)
Class Sdk := {
  fromXDR : string → option ScVal;
  encodeEd25519PublicKey : list Z → string;
  encodeContract : list Z → string;
  address_fromString : string → option ScAddress;
  isValidEd25519PublicKey : string → bool;
  isValidContract : string → bool;
  nativeToScVal : Z → option ScVal;           (** of a bigint *)
  scValToNative : ScVal → Native;
  Uint64 : Z → option Z;
  Int64 : Z → option Z;
  error_code_named : Native → jsnum;          (** [ScErrorCode[name]?.().value ?? 0] *)
  error_code_value : jsnum → jsnum;           (** [_byValue[code] || scecArithDomain()] *)
  is_error_arm : string → bool;
}.

(** ** The type a caller names *)

Inductive SpecParam :=
  | SpNone
  | SpStr (s : string)
  | SpObj (type : option string) (element key value typeDef ok : SpecParam) (values : list SpecParam)
  | SpDef (d : ScSpecTypeDef).

(** [specObj]: the members that are read of it. *)
Record SpecObj := {
  so_element : SpecParam;
  so_key : SpecParam;
  so_value : SpecParam;
  so_typeDef : SpecParam;
  so_ok : SpecParam;
  so_values : list SpecParam;
}.

Definition no_obj : SpecObj := {| so_element := SpNone; so_key := SpNone; so_value := SpNone; so_typeDef := SpNone; so_ok := SpNone; so_values := [] |}.
Definition element_obj (p : SpecParam) : SpecObj :=
  {| so_element := p; so_key := SpNone; so_value := SpNone; so_typeDef := SpNone; so_ok := SpNone; so_values := [] |}.
Definition map_obj (k v : SpecParam) : SpecObj :=
  {| so_element := SpNone; so_key := k; so_value := v; so_typeDef := SpNone; so_ok := SpNone; so_values := [] |}.
Definition option_obj (p : SpecParam) : SpecObj :=
  {| so_element := SpNone; so_key := SpNone; so_value := SpNone; so_typeDef := p; so_ok := SpNone; so_values := [] |}.
Definition result_obj (p : SpecParam) : SpecObj :=
  {| so_element := SpNone; so_key := SpNone; so_value := SpNone; so_typeDef := SpNone; so_ok := p; so_values := [] |}.
Definition tuple_obj (l : list SpecParam) : SpecObj :=
  {| so_element := SpNone; so_key := SpNone; so_value := SpNone; so_typeDef := SpNone; so_ok := SpNone; so_values := l |}.

(** [clean.slice(4, -1)] *)
Definition type_argument (clean : string) : string := String.substring 4 (String.length clean - 5) clean.

Definition resolve_string (s : string) : string * SpecObj :=
  let clean := trim s in
  let cleanLower := to_lower clean in
  if starts_with "vec<" cleanLower && ends_with clean ">" then ("vec", element_obj (SpStr (type_argument clean)))
  else if starts_with "map<" cleanLower && ends_with clean ">" then
    let parts := str_split "," (type_argument clean) in
    ("map", map_obj (SpStr (trim (default "" (parts !! 0)))) (SpStr (trim (join "," (drop 1 parts)))))
  else (cleanLower, no_obj).

Definition resolve_def (d : ScSpecTypeDef) : string * SpecObj :=
  match d with
  | scVal => ("any", no_obj)
  | scBool => ("bool", no_obj)
  | scVoid => ("void", no_obj)
  | scError => ("error", no_obj)
  | scU32 => ("u32", no_obj)
  | scI32 => ("i32", no_obj)
  | scU64 => ("u64", no_obj)
  | scI64 => ("i64", no_obj)
  | scTimepoint => ("timepoint", no_obj)
  | scDuration => ("duration", no_obj)
  | scU128 => ("u128", no_obj)
  | scI128 => ("i128", no_obj)
  | scU256 => ("u256", no_obj)
  | scI256 => ("i256", no_obj)
  | scBytes => ("bytes", no_obj)
  | scString => ("string", no_obj)
  | scSymbol => ("symbol", no_obj)
  | scAddress | scMuxedAddress => ("address", no_obj)
  | scOption t => ("option", option_obj (SpDef t))
  | scResult t _ => ("result", result_obj (SpDef t))
  | scVec t => ("vec", element_obj (SpDef t))
  | scMap k v => ("map", map_obj (SpDef k) (SpDef v))
  | scTuple l => ("tuple", tuple_obj (SpDef <$> l))
  | scBytesN _ => ("bytes", no_obj)
  | scUdt _ => ("udt", no_obj)
  | scOther _ => ("any", no_obj)
  end.

Definition resolveSpec (spec : SpecParam) : string * SpecObj :=
  match spec with
  | SpNone | SpStr "" => ("any", no_obj)
  | SpStr s => resolve_string s
  | SpDef d => resolve_def d
  | SpObj (Some type) element key value typeDef ok values =>
      (to_lower type, {| so_element := element; so_key := key; so_value := value; so_typeDef := typeDef; so_ok := ok; so_values := values |})
  | SpObj None _ _ _ _ _ _ => ("any", no_obj)
  end.

(** ** From JavaScript to a contract value *)

Inductive ScvalError :=
  | TypeErr | RangeErr | SyntaxErr
  | NegativeUnsigned
  | UnsupportedBytes | UnsupportedAddress | UnsupportedError | UnsupportedInstance
  | BadAddress
  | NotAMapValue
  | MustBeArray | InvalidMapArray | MustBeMap
  | UnknownErrorArm.

Definition native_nullish (v : Native) : bool := match v with NUndef | NNull => true | _ => false end.

Definition native_truthy (v : Native) : bool :=
  match v with
  | NUndef | NNull => false
  | NBool b => b
  | NNum n => truthy (JNum n)
  | NBigInt z => negb (z =? 0)%Z
  | NStr s => negb (String.eqb s "")
  | _ => true
  end.

(** [value && typeof value === "object"] *)
Definition native_object (v : Native) : bool :=
  match v with NUndef | NNull | NBool _ | NNum _ | NBigInt _ | NStr _ => false | _ => true end.

Definition native_field (k : string) : list (string * Native) → option Native :=
  fix go fs := match fs with [] => None | (k', v) :: fs => if String.eqb k' k then Some v else go fs end.

(** [v[k]] and [k in v]: the members of plain objects. *)
Definition native_prop (v : Native) (k : string) : Native := match v with NObj fs => default NUndef (native_field k fs) | _ => NUndef end.
Definition native_in (v : Native) (k : string) : bool := match v with NObj fs => bool_decide (is_Some (native_field k fs)) | _ => false end.
Definition native_is (v : Native) (s : string) : bool := match v with NStr t => String.eqb t s | _ => false end.

(** [Buffer.from(s, "utf-8")] *)
Fixpoint text_bytes (s : string) : list Z := match s with "" => [] | String c s => Z.of_nat (nat_of_ascii c) :: text_bytes s end.

(** An element of [Buffer.from(array)]: ToUint8. *)
Definition byte_of (n : jsnum) : Z := match n with JFin m k => (Z.quot m (2 ^ Z.of_nat k) mod 256)%Z | _ => 0%Z end.

(** [Math.floor(n)] *)
Definition js_floor (n : jsnum) : jsnum := match n with JFin m k => jint (m / 2 ^ Z.of_nat k)%Z | _ => n end.

Definition MASK64 : Z := 18446744073709551615.

Definition ores (A : Type) : Type := option (result ScvalError A).
Definition obind {A B} (m : ores A) (f : A → ores B) : ores B :=
  match m with Some (Ok a) => f a | Some (Err e) => Some (Err e) | None => None end.

Section encode.
Context `{Sdk} (fraction_to_string : Z → nat → string).
(** [Number(v)] of texts, bigints and objects; [String(v)] and [Object.entries(v)]
    of the objects that are neither plain nor arrays. *)
Context (other_number : Native → jsnum) (other_text : Native → string) (other_entries : Native → list (Native * Native)).

Definition Number_of (v : Native) : jsnum :=
  match v with
  | NUndef => JNaN
  | NNull => jint 0
  | NBool b => jint (if b then 1 else 0)
  | NNum n => n
  | _ => other_number v
  end.

Fixpoint text_of (v : Native) : string :=
  match v with
  | NUndef => "undefined"
  | NNull => "null"
  | NBool b => if b then "true" else "false"
  | NNum n => num_to_string fraction_to_string n
  | NBigInt z => pretty z
  | NStr s => s
  | NArr l => join "," (List.map (λ w, if native_nullish w then "" else text_of w) l)
  | NObj _ => "[object Object]"
  | _ => other_text v
  end.

Definition BigInt_of (v : Native) : result ScvalError Z :=
  match v with
  | NBigInt z => Ok z
  | NBool b => Ok (if b then 1 else 0)%Z
  | NNum n => match as_integer n with Some z => Ok z | None => Err RangeErr end
  | NUndef | NNull => Err TypeErr
  | _ => match BigInt_text (text_of v) with Some z => Ok z | None => Err SyntaxErr end
  end.

Definition or_range {A} (o : option A) : result ScvalError A := match o with Some a => Ok a | None => Err RangeErr end.

Definition toU128 (val : Z) : result ScvalError ScVal :=
  if (val <? 0)%Z then Err NegativeUnsigned
  else
    let lo := Z.land val MASK64 in
    let hi := Z.shiftr val 64 in
    hi ← or_range (Uint64 hi); lo ← or_range (Uint64 lo); Ok (scvU128 hi lo).

Definition toI128 (val : Z) : result ScvalError ScVal :=
  let lo := Z.land val MASK64 in
  let hi := Z.shiftr val 64 in
  hi ← or_range (Int64 hi); lo ← or_range (Uint64 lo); Ok (scvI128 hi lo).

Definition toU256 (val : Z) : result ScvalError ScVal :=
  if (val <? 0)%Z then Err NegativeUnsigned
  else
    let loLo := Z.land val MASK64 in
    let loHi := Z.land (Z.shiftr val 64) MASK64 in
    let hiLo := Z.land (Z.shiftr val 128) MASK64 in
    let hiHi := Z.shiftr val 192 in
    hiHi ← or_range (Uint64 hiHi); hiLo ← or_range (Uint64 hiLo); loHi ← or_range (Uint64 loHi); loLo ← or_range (Uint64 loLo);
    Ok (scvU256 hiHi hiLo loHi loLo).

Definition toI256 (val : Z) : result ScvalError ScVal :=
  let loLo := Z.land val MASK64 in
  let loHi := Z.land (Z.shiftr val 64) MASK64 in
  let hiLo := Z.land (Z.shiftr val 128) MASK64 in
  let hiHi := Z.shiftr val 192 in
  hiHi ← or_range (Int64 hiHi); hiLo ← or_range (Uint64 hiLo); loHi ← or_range (Uint64 loHi); loLo ← or_range (Uint64 loLo);
  Ok (scvI256 hiHi hiLo loHi loLo).

Definition bytes_of (value : Native) : result ScvalError (list Z) :=
  match value with
  | NBytes l => Ok l
  | NStr s => if hex_chars s && Nat.even (String.length s) then Ok (hex_prefix s) else Ok (text_bytes s)
  | NArr l => Ok ((λ v, byte_of (Number_of v)) <$> l)
  | _ => Err UnsupportedBytes
  end.

Definition address_of (value : Native) : result ScvalError ScAddress :=
  match value with
  | NScAddress a | NAddress a => Ok a
  | NStr s => match address_fromString s with Some a => Ok a | None => Err BadAddress end
  | _ => Err UnsupportedAddress
  end.

Definition error_of (value : Native) : result ScvalError ScVal :=
  if native_object value then
    let errorType :=
      if native_truthy (native_prop value "errorType") then text_of (native_prop value "errorType")
      else if native_is (native_prop value "type") "contract" then "sceContract" else "sceWasmVm" in
    let errorCode := match native_prop value "code" with NNum code => code | _ => error_code_named (native_prop value "value") end in
    let innerValue := if String.eqb errorType "sceContract" then errorCode else error_code_value errorCode in
    if is_error_arm errorType then Ok (scvError errorType innerValue) else Err UnknownErrorArm
  else Err UnsupportedError.

(** The entries of a value that is to be a map. *)
Definition pair_of (v : Native) : option (Native * Native) := match v with NArr [k; w] => Some (k, w) | _ => None end.
Definition key_val_of (v : Native) : option (Native * Native) :=
  if native_in v "key" && native_in v "val" then Some (native_prop v "key", native_prop v "val") else None.

Definition map_entries (value : Native) : result ScvalError (list (Native * Native)) :=
  match value with
  | NMap l => Ok l
  | NArr l =>
      match mapM pair_of l with
      | Some entries => Ok entries
      | None => match mapM key_val_of l with Some entries => Ok entries | None => Err InvalidMapArray end
      end
  | NObj fs => Ok ((λ f : string * Native, (NStr f.1, f.2)) <$> fs)
  | v => if native_object v then Ok (other_entries v) else Err MustBeMap
  end.

Section step.
(** The recursive call. *)
Context (jsToScval : Native → SpecParam → ores ScVal).

Fixpoint each (l : list (Native * SpecParam)) : ores (list ScVal) :=
  match l with
  | [] => Some (Ok [])
  | (v, p) :: l => obind (jsToScval v p) (λ w, obind (each l) (λ ws, Some (Ok (w :: ws))))
  end.

Fixpoint each_entry (key value : SpecParam) (l : list (Native * Native)) : ores (list (ScVal * ScVal)) :=
  match l with
  | [] => Some (Ok [])
  | (k, v) :: l =>
      obind (jsToScval k key) (λ k, obind (jsToScval v value) (λ v, obind (each_entry key value l) (λ ws, Some (Ok ((k, v) :: ws)))))
  end.

(** What the looks of a value say, when no type does. *)
Definition inferred (value : Native) : ores ScVal :=
  match value with
  | NUndef | NNull => Some (Ok scvVoid)
  | NBool b => Some (Ok (scvBool b))
  | NNum n => Some (Ok (scvI32 (js_floor n)))
  | NBigInt z => Some (or_range (nativeToScVal z))
  | NStr s =>
      if (starts_with "G" s || starts_with "C" s) && (String.length s =? 56) && (isValidEd25519PublicKey s || isValidContract s) then
        Some (a ← address_of value; Ok (scvAddress a))
      else Some (Ok (scvString s))
  | NBytes l => Some (Ok (scvBytes l))
  | NArr l => obind (each ((λ v, (v, SpNone)) <$> l)) (λ ws, Some (Ok (scvVec (Some ws))))
  | NMap _ => jsToScval value (SpStr "map")
  | _ =>
      if native_in value "type" && native_in value "code" &&
         (native_is (native_prop value "type") "contract" || native_is (native_prop value "type") "system") then jsToScval value (SpStr "error")
      else if native_is (native_prop value "type") "ledgerKeyContractInstance" then jsToScval value (SpStr "ledgerkeycontractinstance")
      else if native_is (native_prop value "type") "ledgerKeyNonce" then jsToScval value (SpStr "ledgerkeynonce")
      else if native_is (native_prop value "type") "contractInstance" then jsToScval value (SpStr "contractinstance")
      else jsToScval value (SpStr "map")
  end.

Definition instance_of (value : Native) : ores ScVal :=
  if native_object value then
    obind (Some (if native_is (native_prop value "executable") "contractExecutableWasm" then
                   match native_prop value "wasmHash" with NStr s => Ok (Some (hex_prefix s)) | _ => Err TypeErr end
                 else Ok None)) (λ wasm,
    if native_truthy (native_prop value "storage") then
      obind (jsToScval (native_prop value "storage") (SpStr "map")) (λ m,
      match m with scvMap storage => Some (Ok (scvContractInstance wasm storage)) | _ => Some (Err NotAMapValue) end)
    else Some (Ok (scvContractInstance wasm None)))
  else Some (Err UnsupportedInstance).

Definition wide (f : Z → result ScvalError ScVal) (value : Native) : ores ScVal := Some (z ← BigInt_of value; f z).

Definition jsToScval_step (value : Native) (spec : SpecParam) : ores ScVal :=
  match value with
  | NScVal v => Some (Ok v)
  | _ =>
      let '(type, obj) := resolveSpec spec in
      let named s := String.eqb type s in
      if named "bool" then Some (Ok (scvBool (native_truthy value)))
      else if named "void" then Some (Ok scvVoid)
      else if named "u32" then Some (Ok (scvU32 (Number_of value)))
      else if named "i32" then Some (Ok (scvI32 (Number_of value)))
      else if named "u64" then wide (λ z, scvU64 <$> or_range (Uint64 z)) value
      else if named "i64" then wide (λ z, scvI64 <$> or_range (Int64 z)) value
      else if named "timepoint" then wide (λ z, scvTimepoint <$> or_range (Uint64 z)) value
      else if named "duration" then wide (λ z, scvDuration <$> or_range (Uint64 z)) value
      else if named "u128" then wide toU128 value
      else if named "i128" then wide toI128 value
      else if named "u256" then wide toU256 value
      else if named "i256" then wide toI256 value
      else if named "bytes" then Some (scvBytes <$> bytes_of value)
      else if named "string" then Some (Ok (scvString (text_of value)))
      else if named "symbol" then Some (Ok (scvSymbol (text_of value)))
      else if named "address" then Some (scvAddress <$> address_of value)
      else if named "error" then Some (error_of value)
      else if named "ledgerkeycontractinstance" then Some (Ok scvLedgerKeyContractInstance)
      else if named "ledgerkeynonce" then
        wide (λ z, scvLedgerKeyNonce <$> or_range (Int64 z)) (if native_object value then native_prop value "nonce" else value)
      else if named "contractinstance" then instance_of value
      else if named "vec" then
        match value with
        | NArr l => obind (each ((λ v, (v, so_element obj)) <$> l)) (λ ws, Some (Ok (scvVec (Some ws))))
        | _ => Some (Err MustBeArray)
        end
      else if named "map" then
        obind (Some (map_entries value)) (λ entries, obind (each_entry (so_key obj) (so_value obj) entries) (λ ws, Some (Ok (scvMap (Some ws)))))
      else if named "tuple" then
        match value with
        | NArr l => obind (each (imap (λ i v, (v, default SpNone (so_values obj !! i))) l)) (λ ws, Some (Ok (scvVec (Some ws))))
        | _ => Some (Err MustBeArray)
        end
      else if named "option" then
        if native_nullish value then Some (Ok scvVoid) else jsToScval value (so_typeDef obj)
      else if named "result" then
        if match value with NError => true | _ => native_object value && native_is (native_prop value "type") "error" end
        then jsToScval value (SpStr "error")
        else jsToScval value (so_ok obj)
      else inferred value
  end.
End step.

(** [None] where the fuel ends. *)
Fixpoint jsToScval (fuel : nat) : Native → SpecParam → ores ScVal :=
  match fuel with
  | 0 => λ _ _, None
  | S fuel => jsToScval_step (jsToScval fuel)
  end.

(** ** From a contract value to JavaScript *)

Definition with_member (k : string) (w : Native) (v : Native) : Native :=
  match v with NObj fs => NObj (List.filter (λ f, negb (String.eqb f.1 k)) fs ++ [(k, w)]) | _ => NObj [(k, w)] end.

Definition scvalToJs (scval : ScVal) : Native :=
  match scval with
  | scvError arm _ => let native := scValToNative scval in if native_object native then with_member "errorType" (NStr arm) native else native
  | scvLedgerKeyContractInstance => NObj [("type", NStr "ledgerKeyContractInstance")]
  | scvLedgerKeyNonce nonce => NObj [("type", NStr "ledgerKeyNonce"); ("nonce", NBigInt nonce)]
  | scvContractInstance wasmHash storage =>
      NObj [("type", NStr "contractInstance");
            ("executable", NStr (match wasmHash with Some _ => "contractExecutableWasm" | None => "contractExecutableStellarAsset" end));
            ("wasmHash", match wasmHash with Some l => NStr (hex_encode l) | None => NUndef end);
            ("storage", match storage with Some l => scValToNative (scvMap (Some l)) | None => NNull end)]
  | _ => scValToNative scval
  end.
End encode.

(** ** Decoding the events of a contract (decode.ts) *)

(** [{ error }], by where it is and what it is about. *)
Inductive DecodeError :=
  | Unsupported                       (** an XDR arm without a decoding *)
  | VecNotArray | MapNotArray
  | MapEntry (i : nat)                (** an entry that is no object *)
  | InVec (i : nat) (e : DecodeError)
  | InMapKey (i : nat) (e : DecodeError)
  | InMapValue (i : nat) (e : DecodeError)
  | InStruct (k : string) (e : DecodeError)
  | InTopic (i : nat) (e : DecodeError)
  | InData (e : DecodeError)
  | NotAnEvent | TopicsNotArray | ContractMismatch
  | Caught.                           (** the message of an exception *)

(** A decoding returns an error, or throws. *)
Inductive Stop := Failed (e : DecodeError) | Thrown.

Definition within {A} (f : DecodeError → DecodeError) (r : result Stop A) : result Stop A :=
  match r with Err (Failed e) => Err (Failed (f e)) | _ => r end.

Section decode.
Context `{Sdk} (fraction_to_string : Z → nat → string) (other_number : Native → jsnum).

Definition join128 (hi lo : Z) : Z := Z.lor (Z.shiftl hi 64) lo.
Definition join256 (hiHi hiLo loHi loLo : Z) : Z :=
  Z.lor (Z.lor (Z.lor (Z.shiftl hiHi 192) (Z.shiftl hiLo 128)) (Z.shiftl loHi 64)) loLo.

Definition entry_json (k v : jsval) : jsval := JObj [("key", k); ("value", v)].

Fixpoint decodeXdrScVal (scval : ScVal) : result Stop jsval :=
  match scval with
  | scvBool b => Ok (JBool b)
  | scvVoid => Ok JNull
  | scvU32 n | scvI32 n => Ok (JNum n)
  | scvU64 z | scvI64 z => Ok (JStr (pretty z))
  | scvU128 hi lo | scvI128 hi lo => Ok (JStr (pretty (join128 hi lo)))
  | scvU256 hiHi hiLo loHi loLo | scvI256 hiHi hiLo loHi loLo => Ok (JStr (pretty (join256 hiHi hiLo loHi loLo)))
  | scvBytes l => Ok (JStr (hex_encode l))
  | scvString s | scvSymbol s => Ok (JStr s)
  | scvAddress (AccountAddress key) => Ok (JStr (encodeEd25519PublicKey key))
  | scvAddress (ContractAddress id) => Ok (JStr (encodeContract id))
  | scvAddress OtherAddress => Err Thrown
  | scvVec None | scvMap None => Ok (JArr [])
  | scvVec (Some l) =>
      (fix go (i : nat) (l : list ScVal) (acc : list jsval) : result Stop jsval :=
         match l with
         | [] => Ok (JArr acc)
         | v :: l => match within (InVec i) (decodeXdrScVal v) with Ok w => go (S i) l (acc ++ [w]) | Err e => Err e end
         end) 0 l []
  | scvMap (Some l) =>
      (fix go (i : nat) (l : list (ScVal * ScVal)) (acc : list jsval) : result Stop jsval :=
         match l with
         | [] => Ok (JArr acc)
         | (k, v) :: l =>
             let kr := within (InMapKey i) (decodeXdrScVal k) in
             let vr := within (InMapValue i) (decodeXdrScVal v) in
             match kr, vr with
             | Err Thrown, _ | _, Err Thrown => Err Thrown
             | Err e, _ | _, Err e => Err e
             | Ok k, Ok v => go (S i) l (acc ++ [entry_json k v])
             end
         end) 0 l []
  | _ => Err (Failed Unsupported)
  end.

(** A plain string: XDR in base64 where it reads as that, else the string. *)
Definition decode_text (raw : string) : result Stop jsval :=
  match fromXDR raw with
  | Some scval => match decodeXdrScVal scval with Err Thrown => Ok (JStr raw) | r => r end
  | None => Ok (JStr raw)
  end.

Definition or_zero (v : jsval) : string := to_string fraction_to_string (coalesce v (JNum (jint 0))).

Definition decode128 (inner : jsval) : result Stop jsval :=
  match inner with
  | JUndef | JNull => Ok (JStr "0")
  | JArr _ | JObj _ =>
      match BigInt_text (or_zero (prop inner "lo")), BigInt_text (or_zero (prop inner "hi")) with
      | Some lo, Some hi => Ok (JStr (pretty (join128 hi lo)))
      | _, _ => Err Thrown
      end
  | _ => Ok (JStr (to_string fraction_to_string inner))
  end.

(** What an object of one member, named [d], is decoded to, when that is no vec
    and no map. *)
Definition decode_one (d : string) (inner : jsval) : result Stop jsval :=
  let shown := Ok (JStr (to_string fraction_to_string inner)) in
  if String.eqb d "bool" then Ok (JBool (truthy inner))
  else if String.eqb d "void" then Ok JNull
  else if String.eqb d "u32" || String.eqb d "i32" then Ok (JNum (Number_of other_number (embed inner)))
  else if String.eqb d "u128" || String.eqb d "i128" then decode128 inner
  else shown.

Fixpoint decodeScVal (raw : jsval) : result Stop jsval :=
  let decodeVec :=
    (fix go (i : nat) (l : list jsval) (acc : list jsval) : result Stop jsval :=
       match l with
       | [] => Ok (JArr acc)
       | v :: l => match within (InVec i) (decodeScVal v) with Ok w => go (S i) l (acc ++ [w]) | Err e => Err e end
       end) in
  let decodeMap :=
    (fix go (i : nat) (l : list jsval) (acc : list jsval) : result Stop jsval :=
       match l with
       | [] => Ok (JArr acc)
       | JArr _ :: l => go (S i) l (acc ++ [entry_json JNull JNull])
       | JObj e :: l =>
           let key := field "key" decodeScVal (Ok JNull) e in
           let value := field (if existsb (λ f : string * jsval, let (k, _) := f in String.eqb k "val") e then "val" else "value") decodeScVal (Ok JNull) e in
           match within (InMapKey i) key with
           | Err e => Err e
           | Ok k => match within (InMapValue i) value with Err e => Err e | Ok v => go (S i) l (acc ++ [entry_json k v]) end
           end
       | _ :: _ => Err (Failed (MapEntry i))
       end) in
  match raw with
  | JUndef | JNull => Ok JNull
  | JBool _ | JNum _ => Ok raw
  | JStr s => decode_text s
  | JArr l => decodeVec 0 l []
  | JObj [] => Ok JNull
  | JObj [(d, inner)] =>
      if String.eqb d "vec" then
        match inner with JUndef | JNull => Ok (JArr []) | JArr l => decodeVec 0 l [] | _ => Err (Failed VecNotArray) end
      else if String.eqb d "map" then
        match inner with JUndef | JNull => Ok (JArr []) | JArr l => decodeMap 0 l [] | _ => Err (Failed MapNotArray) end
      else decode_one d inner
  | JObj fs =>
      (fix go (fs : list (string * jsval)) (acc : list (string * jsval)) : result Stop jsval :=
         match fs with
         | [] => Ok (JObj acc)
         | (k, v) :: fs => match within (InStruct k) (decodeScVal v) with Ok w => go fs (acc ++ [(k, w)]) | Err e => Err e end
         end) fs []
  end.

(** *** Events *)

(** The two forms of a spec, as far as the decoder reads them. *)
Inductive AnySpec :=
  | XdrSpec (contractId : string) (entries : list string)
  | PlainSpec (contractId : option string) (xdrEntries : option (list string)).

Definition normalizeSpec (spec : AnySpec) : string * list string :=
  match spec with
  | XdrSpec contractId entries => (contractId, entries)
  | PlainSpec contractId xdrEntries => (default "" contractId, default [] xdrEntries)
  end.

Record DecodedEvent := { de_functionName : string; de_topics : list jsval; de_data : jsval }.

(** The topics in order, up to the first that fails. *)
Fixpoint decode_topics (i : nat) (l : list jsval) : result Stop (list jsval) :=
  match l with
  | [] => Ok []
  | t :: l => w ← within (InTopic i) (decodeScVal t); ws ← decode_topics (S i) l; Ok (w :: ws)
  end.

Definition _decode (spec : string * list string) (rawEvent : jsval) : result Stop DecodedEvent :=
  if negb (is_object rawEvent) then Err (Failed NotAnEvent)
  else
    match prop rawEvent "topics" with
    | JArr rawTopics =>
        if negb (String.eqb spec.1 "") && negb (is_undef (prop rawEvent "contractId")) && negb (is_str (prop rawEvent "contractId") spec.1)
        then Err (Failed ContractMismatch)
        else
          topics ← decode_topics 0 rawTopics;
          data ← within InData (decodeScVal (coalesce (prop rawEvent "data") JNull));
          Ok {| de_functionName := match topics with JStr s :: _ => s | _ => "" end; de_topics := topics; de_data := data |}
    | _ => Err (Failed TopicsNotArray)
    end.

Definition decodeContractEvent (spec : AnySpec) (rawEvent : jsval) : result DecodeError DecodedEvent :=
  match _decode (normalizeSpec spec) rawEvent with
  | Ok e => Ok e
  | Err (Failed e) => Err e
  | Err Thrown => Err Caught
  end.
End decode.

(** ** What is relied on of the Stellar SDK

    Its integer classes carry what fits in 64 bits, and what they hold fits; of a
    number that does not fit nothing is assumed, they may throw or cut it.  Strkeys
    of accounts and contracts are read back. *)

Class SdkLaws `{Sdk} : Prop := {
  Uint64_carries z : (0 ≤ z < 2 ^ 64)%Z → Uint64 z = Some z;
  Int64_carries z : (- 2 ^ 63 ≤ z < 2 ^ 63)%Z → Int64 z = Some z;
  Uint64_holds z w : Uint64 z = Some w → (0 ≤ w < 2 ^ 64)%Z;
  Int64_holds z w : Int64 z = Some w → (- 2 ^ 63 ≤ w < 2 ^ 63)%Z;
  account_strkey key : Forall byte key → length key = 32 → address_fromString (encodeEd25519PublicKey key) = Some (AccountAddress key);
  contract_strkey id : Forall byte id → length id = 32 → address_fromString (encodeContract id) = Some (ContractAddress id);
}.

(** ** Wide integers *)

Lemma land_mask z : Z.land z MASK64 = (z mod 2 ^ 64)%Z.
Proof. change MASK64 with (Z.ones 64). by rewrite Z.land_ones. Qed.

Lemma mask_range z : ((0 <=? Z.land z MASK64) && (Z.land z MASK64 <? 2 ^ 64))%Z = true.
Proof. rewrite land_mask. pose proof (Z.mod_pos_bound z (2 ^ 64) ltac:(lia)). apply andb_true_iff. rewrite Z.leb_le, Z.ltb_lt. lia. Qed.

(** Putting the low half below the high one is adding it. *)
Lemma lor_low a b n : (0 ≤ n)%Z → (0 ≤ b < 2 ^ n)%Z → Z.lor (Z.shiftl a n) b = (a * 2 ^ n + b)%Z.
Proof.
  intros Hn Hb. rewrite <-Z.shiftl_mul_pow2 by done. symmetry. apply Z.add_nocarry_lor.
  apply Z.bits_inj'. intros k Hk. rewrite Z.land_spec, Z.bits_0, Z.shiftl_spec by done.
  destruct (Z.lt_ge_cases k n); [by rewrite Z.testbit_neg_r by lia|].
  rewrite <-(Z.mod_small b (2 ^ n)) by done. by rewrite Z.mod_pow2_bits_high, andb_false_r by lia.
Qed.

(** The four parts of a 256-bit integer below its top one. *)
Lemma join256_value hiHi hiLo loHi loLo :
  (0 ≤ hiLo < 2 ^ 64)%Z → (0 ≤ loHi < 2 ^ 64)%Z → (0 ≤ loLo < 2 ^ 64)%Z →
  join256 hiHi hiLo loHi loLo = (((hiHi * 2 ^ 64 + hiLo) * 2 ^ 64 + loHi) * 2 ^ 64 + loLo)%Z.
Proof.
  intros H1 H2 H3. unfold join256.
  assert (∀ x y, Z.lor (Z.shiftl x 64) (Z.shiftl y 0) = Z.lor (Z.shiftl x 64) y) as Hs by (intros; by rewrite Z.shiftl_0_r).
  replace (Z.lor (Z.shiftl hiHi 192) (Z.shiftl hiLo 128)) with (Z.shiftl (hiHi * 2 ^ 64 + hiLo) 128).
  2: { rewrite <-lor_low by lia. by rewrite Z.shiftl_lor, Z.shiftl_shiftl by lia. }
  replace (Z.lor (Z.shiftl (hiHi * 2 ^ 64 + hiLo) 128) (Z.shiftl loHi 64)) with (Z.shiftl ((hiHi * 2 ^ 64 + hiLo) * 2 ^ 64 + loHi) 64).
  2: { rewrite <-(lor_low _ loHi) by lia. by rewrite Z.shiftl_lor, Z.shiftl_shiftl by lia. }
  by apply lor_low.
Qed.

Lemma split128 z : z = (Z.shiftr z 64 * 2 ^ 64 + Z.land z MASK64)%Z.
Proof. rewrite land_mask, Z.shiftr_div_pow2 by lia. pose proof (Z.div_mod z (2 ^ 64) ltac:(lia)). lia. Qed.

Lemma shift_more z n : (0 ≤ n)%Z → Z.shiftr z (n + 64) = Z.shiftr (Z.shiftr z n) 64.
Proof. intros Hn. by rewrite Z.shiftr_shiftr by lia. Qed.

Lemma join128_split z : join128 (Z.shiftr z 64) (Z.land z MASK64) = z.
Proof.
  unfold join128. rewrite lor_low; [symmetry; apply split128|lia|]. rewrite land_mask. apply Z.mod_pos_bound. lia.
Qed.

Lemma join256_split z :
  join256 (Z.shiftr z 192) (Z.land (Z.shiftr z 128) MASK64) (Z.land (Z.shiftr z 64) MASK64) (Z.land z MASK64) = z.
Proof.
  rewrite join256_value by (rewrite land_mask; apply Z.mod_pos_bound; lia).
  change 192%Z with (128 + 64)%Z. rewrite (shift_more z 128) by lia. rewrite <-split128.
  change 128%Z with (64 + 64)%Z. rewrite (shift_more z 64) by lia. rewrite <-split128. by rewrite <-split128.
Qed.

Inductive WideType := WU64 | WI64 | WU128 | WI128 | WU256 | WI256.

Definition wide_name (t : WideType) : string :=
  match t with WU64 => "u64" | WI64 => "i64" | WU128 => "u128" | WI128 => "i128" | WU256 => "u256" | WI256 => "i256" end.

(** The integers of a type, from the first up to but not the second. *)
Definition wide_bounds (t : WideType) : Z * Z :=
  match t with
  | WU64 => (0, 2 ^ 64)
  | WI64 => (- 2 ^ 63, 2 ^ 63)
  | WU128 => (0, 2 ^ 128)
  | WI128 => (- 2 ^ 127, 2 ^ 127)
  | WU256 => (0, 2 ^ 256)
  | WI256 => (- 2 ^ 255, 2 ^ 255)
  end%Z.

Definition in_bounds (b : Z * Z) (z : Z) : bool := (b.1 <=? z)%Z && (z <? b.2)%Z.

Lemma in_bounds_spec lo hi z : in_bounds (lo, hi) z = true ↔ (lo ≤ z < hi)%Z.
Proof. unfold in_bounds. cbn [fst snd]. rewrite andb_true_iff, Z.leb_le, Z.ltb_lt. done. Qed.

(** The bits below the part that one of the SDK's classes is given unmasked. *)
Definition low_bits (t : WideType) : Z := match t with WU64 | WI64 => 0 | WU128 | WI128 => 64 | WU256 | WI256 => 192 end.

Section wide_integers.
Context `{Laws : SdkLaws}.

Definition scv_wide (t : WideType) (z : Z) : result ScvalError ScVal :=
  match t with
  | WU64 => scvU64 <$> or_range (Uint64 z)
  | WI64 => scvI64 <$> or_range (Int64 z)
  | WU128 => toU128 z
  | WI128 => toI128 z
  | WU256 => toU256 z
  | WI256 => toI256 z
  end.

(** The top part of an integer is in range exactly when the integer is. *)
Lemma shifted_range z n lo hi : (0 ≤ n)%Z →
  in_bounds (lo, hi) (Z.shiftr z n) = in_bounds (lo * 2 ^ n, hi * 2 ^ n)%Z z.
Proof.
  intros Hn. unfold in_bounds. cbn [fst snd]. rewrite Z.shiftr_div_pow2 by done. pose proof (Z.pow_pos_nonneg 2 n ltac:(lia) Hn) as Hp.
  apply eq_true_iff_eq. rewrite !andb_true_iff, !Z.leb_le, !Z.ltb_lt. split; intros [H1 H2]; split.
  - transitivity (z / 2 ^ n * 2 ^ n)%Z; [nia|]. rewrite Z.mul_comm. by apply Z.mul_div_le.
  - apply Z.nle_gt. intros Hle. assert (hi <= z / 2 ^ n)%Z by (apply Z.div_le_lower_bound; lia). lia.
  - apply Z.div_le_lower_bound; lia.
  - apply Z.div_lt_upper_bound; lia.
Qed.

Lemma Uint64_in z : in_bounds (0, 2 ^ 64)%Z z = true → or_range (Uint64 z) = Ok z.
Proof using Laws. intros Hz%in_bounds_spec. by rewrite Uint64_carries. Qed.

Lemma Int64_in z : in_bounds (- 2 ^ 63, 2 ^ 63)%Z z = true → or_range (Int64 z) = Ok z.
Proof using Laws. intros Hz%in_bounds_spec. by rewrite Int64_carries. Qed.

Lemma Uint64_masked z : or_range (Uint64 (Z.land z MASK64)) = Ok (Z.land z MASK64).
Proof using Laws. apply Uint64_in. unfold in_bounds. cbn [fst snd]. apply mask_range. Qed.

Lemma not_negative z n : in_bounds (0%Z, n) z = true → (z <? 0)%Z = false.
Proof. intros Hz%in_bounds_spec. apply Z.ltb_ge. lia. Qed.

(** An integer of a type is carried by its parts. *)
Lemma scv_wide_exact t z :
  in_bounds (wide_bounds t) z = true → ∃ v, scv_wide t z = Ok v ∧ decodeXdrScVal v = Ok (JStr (pretty z)).
Proof using Laws.
  destruct t; cbn [scv_wide wide_bounds]; unfold toU128, toI128, toU256, toI256; cbv zeta; intros Hz.
  - rewrite Uint64_in by done. by eexists.
  - rewrite Int64_in by done. by eexists.
  - rewrite (not_negative _ _ Hz), Uint64_masked, Uint64_in by (by rewrite shifted_range).
    eexists. split; [done|]. cbn [decodeXdrScVal]. by rewrite join128_split.
  - rewrite Uint64_masked, Int64_in by (by rewrite shifted_range).
    eexists. split; [done|]. cbn [decodeXdrScVal]. by rewrite join128_split.
  - rewrite (not_negative _ _ Hz), !Uint64_masked, Uint64_in by (by rewrite shifted_range).
    eexists. split; [done|]. cbn [decodeXdrScVal]. by rewrite join256_split.
  - rewrite !Uint64_masked, Int64_in by (by rewrite shifted_range).
    eexists. split; [done|]. cbn [decodeXdrScVal]. by rewrite join256_split.
Qed.

Lemma or_range_ok (o : option Z) w : or_range o = Ok w → o = Some w.
Proof using Type. by destruct o; intros [= ->]. Qed.

(** Another top part with the same parts below. *)
Lemma top_replaced hi z n : (0 ≤ n)%Z → ((hi * 2 ^ n + z mod 2 ^ n) mod 2 ^ n = z mod 2 ^ n)%Z.
Proof using Type. intros Hn. rewrite Z.add_comm, Z_mod_plus_full. apply Z.mod_mod. pose proof (Z.pow_pos_nonneg 2 n). lia. Qed.

Lemma top_bounds hi low n lo up lo' up' :
  (0 ≤ n)%Z → (lo ≤ hi < up)%Z → (0 ≤ low < 2 ^ n)%Z → (lo * 2 ^ n)%Z = lo' → (up * 2 ^ n)%Z = up' → in_bounds (lo', up') (hi * 2 ^ n + low) = true.
Proof using Type. intros Hn Hh Hl <- <-. apply in_bounds_spec. pose proof (Z.pow_pos_nonneg 2 n ltac:(lia) Hn). nia. Qed.

Lemma low_range z n : (0 ≤ n)%Z → (0 ≤ z mod 2 ^ n < 2 ^ n)%Z.
Proof using Type. intros Hn. apply Z.mod_pos_bound. by apply Z.pow_pos_nonneg. Qed.

(** Any 256-bit value whose three lower parts are those of [z]. *)
Lemma join256_top hi z :
  join256 hi (Z.land (Z.shiftr z 128) MASK64) (Z.land (Z.shiftr z 64) MASK64) (Z.land z MASK64) = (hi * 2 ^ 192 + z mod 2 ^ 192)%Z.
Proof using Type.
  assert (∀ x, 0 ≤ Z.land x MASK64 < 2 ^ 64)%Z as Hm by (intros x; rewrite land_mask; by apply low_range).
  rewrite join256_value by done. pose proof (join256_split z) as Hz. rewrite join256_value in Hz by done.
  set (b := Z.land (Z.shiftr z 128) MASK64) in *. set (c := Z.land (Z.shiftr z 64) MASK64) in *. set (d := Z.land z MASK64) in *.
  assert (z mod 2 ^ 192 = (b * 2 ^ 64 + c) * 2 ^ 64 + d)%Z as ->; [|lia].
  symmetry. apply (Z.mod_unique z _ (Z.shiftr z 192)); [|lia]. left.
  pose proof (Hm (Z.shiftr z 128)). pose proof (Hm (Z.shiftr z 64)). pose proof (Hm z). fold b c d in H, H0, H1. lia.
Qed.

Lemma join128_top hi z : join128 hi (Z.land z MASK64) = (hi * 2 ^ 64 + z mod 2 ^ 64)%Z.
Proof using Type. rewrite land_mask. unfold join128. apply lor_low; [lia|by apply low_range]. Qed.

(** Whatever is made of a number is an integer of the type, and only its top part
    may be another. *)
Lemma scv_wide_made t z v :
  scv_wide t z = Ok v →
  ∃ z', decodeXdrScVal v = Ok (JStr (pretty z')) ∧ in_bounds (wide_bounds t) z' = true ∧
        (z' mod 2 ^ low_bits t = z mod 2 ^ low_bits t)%Z.
Proof using Laws.
  destruct t; cbn [scv_wide wide_bounds low_bits]; unfold toU128, toI128, toU256, toI256; cbv zeta; rewrite ?Uint64_masked;
    try match goal with |- context [(z <? 0)%Z] => destruct (z <? 0)%Z end; try done.
  - destruct (or_range (Uint64 z)) as [w|] eqn:Hw; intros Hv; [|discriminate Hv]; injection Hv as <-. exists w. rewrite !Z.mod_1_r.
    split_and!; [done| |done]. apply in_bounds_spec. by apply (Uint64_holds z), or_range_ok.
  - destruct (or_range (Int64 z)) as [w|] eqn:Hw; intros Hv; [|discriminate Hv]; injection Hv as <-. exists w. rewrite !Z.mod_1_r.
    split_and!; [done| |done]. apply in_bounds_spec. by apply (Int64_holds z), or_range_ok.
  - destruct (or_range (Uint64 (Z.shiftr z 64))) as [w|] eqn:Hw; intros Hv; [|discriminate Hv]; injection Hv as <-. apply or_range_ok, Uint64_holds in Hw. eexists.
    split; [reflexivity|]. rewrite join128_top. split; [apply (top_bounds _ _ 64 0 (2 ^ 64)); try done; by apply low_range|by apply top_replaced].
  - destruct (or_range (Int64 (Z.shiftr z 64))) as [w|] eqn:Hw; intros Hv; [|discriminate Hv]; injection Hv as <-. apply or_range_ok, Int64_holds in Hw. eexists.
    split; [reflexivity|]. rewrite join128_top. split; [apply (top_bounds _ _ 64 (- 2 ^ 63) (2 ^ 63)); try done; by apply low_range|by apply top_replaced].
  - destruct (or_range (Uint64 (Z.shiftr z 192))) as [w|] eqn:Hw; intros Hv; [|discriminate Hv]; injection Hv as <-. apply or_range_ok, Uint64_holds in Hw. eexists.
    split; [reflexivity|]. rewrite join256_top. split; [apply (top_bounds _ _ 192 0 (2 ^ 64)); try done; by apply low_range|by apply top_replaced].
  - destruct (or_range (Int64 (Z.shiftr z 192))) as [w|] eqn:Hw; intros Hv; [|discriminate Hv]; injection Hv as <-. apply or_range_ok, Int64_holds in Hw. eexists.
    split; [reflexivity|]. rewrite join256_top. split; [apply (top_bounds _ _ 192 (- 2 ^ 63) (2 ^ 63)); try done; by apply low_range|by apply top_replaced].
Qed.

Context (fraction_to_string : Z → nat → string) (other_number : Native → jsnum) (other_text : Native → string)
  (other_entries : Native → list (Native * Native)).
Notation encode := (jsToScval fraction_to_string other_number other_text other_entries).

Lemma encode_wide n t value :
  (∀ v, value ≠ NScVal v) →
  encode (S n) value (SpStr (wide_name t)) = Some (z ← BigInt_of fraction_to_string other_text value; scv_wide t z).
Proof using Type.
  intros Hv. destruct value; try (by destruct (Hv v)); destruct t; reflexivity.
Qed.

End wide_integers.

(** *** Values that are decoded *)

(** No part of the value is an error, a time, an instance or a ledger key, nor an
    address of another kind than accounts and contracts. *)
Fixpoint readable (v : ScVal) : bool :=
  match v with
  | scvError _ _ | scvTimepoint _ | scvDuration _ | scvAddress OtherAddress
  | scvContractInstance _ _ | scvLedgerKeyContractInstance | scvLedgerKeyNonce _ => false
  | scvVec (Some l) => forallb readable l
  | scvMap (Some l) => forallb (λ e : ScVal * ScVal, let (k, w) := e in readable k && readable w) l
  | _ => true
  end.

Lemma ScVal_nested_ind (P : ScVal → Prop) :
  (∀ v, match v with scvVec (Some _) | scvMap (Some _) => False | _ => True end → P v) →
  (∀ l, Forall P l → P (scvVec (Some l))) →
  (∀ l, Forall (λ e : ScVal * ScVal, P e.1 ∧ P e.2) l → P (scvMap (Some l))) →
  ∀ v, P v.
Proof.
  intros Hleaf Hvec Hmap. fix IH 1. intros v. destruct v as [b| |arm n|n|n|z|z|z|z|h l|h l|a b c d|a b c d|l|t|t|[l|]|[l|]|a|w m| |n];
    try (by apply Hleaf).
  - apply Hvec. induction l as [|v l IHl]; constructor; [apply IH|exact IHl].
  - apply Hmap. induction l as [|[k v] l IHl]; constructor; [split; apply IH|exact IHl].
Qed.

Lemma decode_readable `{Sdk} v : is_ok (decodeXdrScVal v) = readable v.
Proof.
  induction v as [v Hv|l Hl|l Hl] using ScVal_nested_ind.
  - destruct v as [| | | | | | | | | | | | | | | |[]|[]|[]| | |]; done.
  - cbn [decodeXdrScVal readable]. match goal with |- is_ok (?f 0 l []) = ?r => enough (∀ i acc, is_ok (f i l acc) = r) as He by apply He end.
    induction Hl as [|v l Hv _ IH]; intros i acc; [done|]. cbn [forallb].
    rewrite <-Hv. destruct (decodeXdrScVal v) as [w|[]]; cbn [within is_ok andb]; [apply IH|done..].
  - cbn [decodeXdrScVal readable]. match goal with |- is_ok (?f 0 l []) = ?r => enough (∀ i acc, is_ok (f i l acc) = r) as He by apply He end.
    induction Hl as [|[k v] l [Hk Hv] _ IH]; intros i acc; [done|]. cbn [forallb fst snd] in *.
    rewrite <-Hk, <-Hv. cbv zeta.
    destruct (decodeXdrScVal k) as [kd|[]], (decodeXdrScVal v) as [vd|[]]; cbn [within is_ok andb]; try done; apply IH.
Qed.

(** *** Values of a type *)

Fixpoint bytes_ok (l : list Z) : bool := match l with [] => true | b :: l => in_bounds (0, 256)%Z b && bytes_ok l end.

(** Whether a value is one of a type.  A map is only taken when it is empty: a map
    that is decoded is not encoded again ([decoded_map_not_encoded]). *)
Fixpoint has_type (t : ScSpecTypeDef) (v : ScVal) : bool :=
  match t with
  | scBool => match v with scvBool _ => true | _ => false end
  | scVoid => match v with scvVoid => true | _ => false end
  | scU32 => match v with scvU32 _ => true | _ => false end
  | scI32 => match v with scvI32 _ => true | _ => false end
  | scU64 => match v with scvU64 z => in_bounds (0, 2 ^ 64)%Z z | _ => false end
  | scI64 => match v with scvI64 z => in_bounds (- 2 ^ 63, 2 ^ 63)%Z z | _ => false end
  | scU128 => match v with scvU128 hi lo => in_bounds (0, 2 ^ 64)%Z hi && in_bounds (0, 2 ^ 64)%Z lo | _ => false end
  | scI128 => match v with scvI128 hi lo => in_bounds (- 2 ^ 63, 2 ^ 63)%Z hi && in_bounds (0, 2 ^ 64)%Z lo | _ => false end
  | scU256 => match v with scvU256 a b c d => in_bounds (0, 2 ^ 64)%Z a && forallb (in_bounds (0, 2 ^ 64)%Z) [b; c; d] | _ => false end
  | scI256 => match v with scvI256 a b c d => in_bounds (- 2 ^ 63, 2 ^ 63)%Z a && forallb (in_bounds (0, 2 ^ 64)%Z) [b; c; d] | _ => false end
  | scBytes => match v with scvBytes l => bytes_ok l | _ => false end
  | scBytesN n => match v with scvBytes l => bytes_ok l && (Z.of_nat (length l) =? n)%Z | _ => false end
  | scString => match v with scvString _ => true | _ => false end
  | scSymbol => match v with scvSymbol _ => true | _ => false end
  | scAddress =>
      match v with
      | scvAddress (AccountAddress l) | scvAddress (ContractAddress l) => bytes_ok l && (length l =? 32)
      | _ => false
      end
  | scOption t => match v with scvVoid => true | _ => has_type t v end
  | scResult t _ => has_type t v
  | scVec t => match v with scvVec (Some l) => forallb (has_type t) l | _ => false end
  | scMap _ _ => match v with scvMap (Some []) => true | _ => false end
  | scTuple ts =>
      match v with
      | scvVec (Some l) =>
          (fix go (ts : list ScSpecTypeDef) (l : list ScVal) : bool :=
             match ts, l with [], [] => true | t :: ts, v :: l => has_type t v && go ts l | _, _ => false end) ts l
      | _ => false
      end
  | _ => false
  end.

(** The fuel that the values of a type take. *)
Fixpoint type_depth (t : ScSpecTypeDef) : nat :=
  match t with
  | scOption t | scResult t _ | scVec t => S (type_depth t)
  | scTuple ts => S ((fix go (ts : list ScSpecTypeDef) : nat := match ts with [] => 0 | t :: ts => max (type_depth t) (go ts) end) ts)
  | _ => 1
  end.

Lemma bytes_ok_Forall l : bytes_ok l = true → Forall byte l.
Proof.
  induction l as [|b l IH]; [constructor|]. cbn [bytes_ok]. unfold in_bounds. cbn [fst snd].
  intros [[Hb1%Z.leb_le Hb2%Z.ltb_lt]%andb_true_iff Hl]%andb_true_iff. constructor; [by split|by apply IH].
Qed.

(** What the parts of a wide integer are after the integer is put together. *)
Lemma low_part a b : (0 ≤ b < 2 ^ 64)%Z → Z.land (a * 2 ^ 64 + b) MASK64 = b.
Proof. intros Hb. rewrite land_mask, Z.add_comm, Z_mod_plus_full. by apply Z.mod_small. Qed.

Lemma high_part a b : (0 ≤ b < 2 ^ 64)%Z → Z.shiftr (a * 2 ^ 64 + b) 64 = a.
Proof. intros Hb. rewrite Z.shiftr_div_pow2, Z.div_add_l, Z.div_small by lia. lia. Qed.

Section reencode.
Context `{Laws : SdkLaws}.
Context (fraction_to_string : Z → nat → string) (other_number : Native → jsnum) (other_text : Native → string)
  (other_entries : Native → list (Native * Native)).
Notation encode := (jsToScval fraction_to_string other_number other_text other_entries).

(** The parts of a wide integer are found again. *)
Lemma toU128_join hi lo : (0 ≤ hi < 2 ^ 64)%Z → (0 ≤ lo < 2 ^ 64)%Z → toU128 (join128 hi lo) = Ok (scvU128 hi lo).
Proof using Laws.
  intros Hhi Hlo. unfold toU128, join128. rewrite lor_low by lia. rewrite high_part, low_part by done. cbv zeta.
  destruct (_ <? 0)%Z eqn:Hn; [apply Z.ltb_lt in Hn; nia|]. by rewrite !Uint64_in by (by apply in_bounds_spec).
Qed.

Lemma toI128_join hi lo : (- 2 ^ 63 ≤ hi < 2 ^ 63)%Z → (0 ≤ lo < 2 ^ 64)%Z → toI128 (join128 hi lo) = Ok (scvI128 hi lo).
Proof using Laws.
  intros Hhi Hlo. unfold toI128, join128. rewrite lor_low by lia. rewrite high_part, low_part by done. cbv zeta.
  by rewrite Uint64_in, Int64_in by (by apply in_bounds_spec).
Qed.

Lemma split256 a b c d :
  (0 ≤ b < 2 ^ 64)%Z → (0 ≤ c < 2 ^ 64)%Z → (0 ≤ d < 2 ^ 64)%Z →
  let z := join256 a b c d in
  Z.land z MASK64 = d ∧ Z.land (Z.shiftr z 64) MASK64 = c ∧ Z.land (Z.shiftr z 128) MASK64 = b ∧ Z.shiftr z 192 = a.
Proof using Type.
  intros Hb Hc Hd z. subst z. rewrite join256_value by done.
  change 192%Z with (64 + 64 + 64)%Z. change 128%Z with (64 + 64)%Z. rewrite !(shift_more _ (64 + 64)) by lia. rewrite !(shift_more _ 64) by lia.
  repeat rewrite high_part by done. by rewrite !low_part by done.
Qed.

Lemma toU256_join a b c d :
  (0 ≤ a < 2 ^ 64)%Z → (0 ≤ b < 2 ^ 64)%Z → (0 ≤ c < 2 ^ 64)%Z → (0 ≤ d < 2 ^ 64)%Z → toU256 (join256 a b c d) = Ok (scvU256 a b c d).
Proof using Laws.
  intros Ha Hb Hc Hd. unfold toU256. destruct (split256 a b c d Hb Hc Hd) as (-> & -> & -> & ->). cbv zeta.
  destruct (_ <? 0)%Z eqn:Hn; [apply Z.ltb_lt in Hn; rewrite join256_value in Hn by done; nia|].
  by rewrite !Uint64_in by (by apply in_bounds_spec).
Qed.

Lemma toI256_join a b c d :
  (- 2 ^ 63 ≤ a < 2 ^ 63)%Z → (0 ≤ b < 2 ^ 64)%Z → (0 ≤ c < 2 ^ 64)%Z → (0 ≤ d < 2 ^ 64)%Z → toI256 (join256 a b c d) = Ok (scvI256 a b c d).
Proof using Laws.
  intros Ha Hb Hc Hd. unfold toI256. destruct (split256 a b c d Hb Hc Hd) as (-> & -> & -> & ->). cbv zeta.
  by rewrite !Uint64_in, Int64_in by (by apply in_bounds_spec).
Qed.

(** A decoded value: never an object, and absent only for the void value. *)
Definition decoded_as (v : ScVal) (d : jsval) : Prop :=
  decodeXdrScVal v = Ok d ∧ (v = scvVoid ∨ native_nullish (embed d) = false) ∧ match d with JObj _ => False | _ => True end.

(** What is decoded from a value is encoded to it, given the fuel. *)
Definition restores (t : ScSpecTypeDef) (v : ScVal) : Prop :=
  ∃ d, decoded_as v d ∧ ∀ fuel, type_depth t ≤ fuel → encode fuel (embed d) (SpDef t) = Some (Ok v).

Lemma decode_list l ds : Forall2 (λ v d, decodeXdrScVal v = Ok d) l ds → decodeXdrScVal (scvVec (Some l)) = Ok (JArr ds).
Proof using Type.
  intros Hl. cbn [decodeXdrScVal].
  enough (∀ i acc, (fix go (i : nat) (l : list ScVal) (acc : list jsval) : result Stop jsval :=
         match l with
         | [] => Ok (JArr acc)
         | v :: l => match within (InVec i) (decodeXdrScVal v) with Ok w => go (S i) l (acc ++ [w]) | Err e => Err e end
         end) i l acc = Ok (JArr (acc ++ ds))) as He by apply (He 0 []).
  induction Hl as [|v d l ds Hv _ IH]; intros i acc; [by rewrite app_nil_r|].
  rewrite Hv. cbn [within]. rewrite IH. by rewrite <-app_assoc.
Qed.

Lemma each_ok (f : Native → SpecParam → ores ScVal) l ws :
  Forall2 (λ x w, f x.1 x.2 = Some (Ok w)) l ws → each f l = Some (Ok ws).
Proof using Type. induction 1 as [|[v p] w l ws Hx _ IH]; [done|]. cbn [each]. cbn [fst snd] in Hx. by rewrite Hx, IH. Qed.

(** A value that is encoded without recursion. *)
Lemma restores_leaf t v d :
  decoded_as v d → type_depth t = 1 → (∀ fuel, encode (S fuel) (embed d) (SpDef t) = Some (Ok v)) → restores t v.
Proof using Type.
  intros Hd Ht He. exists d. split; [done|]. rewrite Ht. intros [|fuel] Hf; [lia|apply He].
Qed.

Lemma encode_vec fuel l t :
  encode (S fuel) (NArr l) (SpDef (scVec t)) = obind (each (encode fuel) ((λ v, (v, SpDef t)) <$> l)) (λ ws, Some (Ok (scvVec (Some ws)))).
Proof using Type. reflexivity. Qed.

Lemma encode_tuple fuel l ts :
  encode (S fuel) (NArr l) (SpDef (scTuple ts))
  = obind (each (encode fuel) (imap (λ i v, (v, default SpNone ((SpDef <$> ts) !! i))) l)) (λ ws, Some (Ok (scvVec (Some ws)))).
Proof using Type. reflexivity. Qed.

Lemma encode_option fuel v t :
  (∀ w, v ≠ NScVal w) →
  encode (S fuel) v (SpDef (scOption t)) = if native_nullish v then Some (Ok scvVoid) else encode fuel v (SpDef t).
Proof using Type. intros Hv. destruct v; try reflexivity. by destruct (Hv v). Qed.

Lemma embed_no_scval d w : embed d ≠ NScVal w.
Proof using Type. by destruct d. Qed.

Lemma encode_result fuel d t u :
  match d with JObj _ => False | _ => True end → encode (S fuel) (embed d) (SpDef (scResult t u)) = encode fuel (embed d) (SpDef t).
Proof using Type. by destruct d. Qed.

Lemma restores_wide t v z (f : Z → result ScvalError ScVal) :
  decodeXdrScVal v = Ok (JStr (pretty z)) → type_depth t = 1 → f z = Ok v →
  (∀ fuel s, encode (S fuel) (NStr s) (SpDef t) = wide fraction_to_string other_text f (NStr s)) → restores t v.
Proof using Type.
  intros Hd Ht Hf He. apply (restores_leaf t v (JStr (pretty z))); [|done|].
  - split; [done|]. split; [by right|done].
  - intros fuel. cbn [embed]. rewrite He. unfold wide. cbn [BigInt_of text_of]. rewrite BigInt_pretty. cbn. by rewrite Hf.
Qed.

Lemma restores_bytes t l : resolve_def t = ("bytes", no_obj) → type_depth t = 1 → bytes_ok l = true → restores t (scvBytes l).
Proof using Type.
  intros Hr Ht Hl%bytes_ok_Forall. apply (restores_leaf t _ (JStr (hex_encode l))); [|done|].
  - split; [done|]. split; [by right|done].
  - intros fuel. cbn [embed jsToScval]. unfold jsToScval_step. cbn [resolveSpec]. rewrite Hr. cbn [String.eqb Ascii.eqb eqb bytes_of].
    destruct (hex_encode_shape l Hl) as [Hc Hn]. unfold bytes_of. rewrite Hc, Hn.
    replace (Nat.even (2 * length l)) with true by (symmetry; apply Nat.even_spec; by exists (length l)).
    cbn [andb]. by rewrite hex_roundtrip.
Qed.

Lemma restores_address a :
  (∃ l, (a = AccountAddress l ∨ a = ContractAddress l) ∧ bytes_ok l && (length l =? 32) = true) → restores scAddress (scvAddress a).
Proof using Laws.
  intros (l & Ha & [Hl%bytes_ok_Forall Hn%Nat.eqb_eq]%andb_true_iff).
  assert (∃ s, decodeXdrScVal (scvAddress a) = Ok (JStr s) ∧ address_fromString s = Some a) as (s & Hd & Hs).
  { destruct Ha as [-> | ->]; eexists; (split; [reflexivity|]); [by apply account_strkey|by apply contract_strkey]. }
  apply (restores_leaf scAddress _ (JStr s)); [|done|].
  - split; [done|]. split; [by right|done].
  - intros fuel. unfold embed. cbn [jsToScval]. unfold jsToScval_step. cbn. by rewrite Hs.
Qed.

Lemma restores_vec t l : Forall (restores t) l → restores (scVec t) (scvVec (Some l)).
Proof using Type.
  intros Hl. assert (∃ ds, Forall2 (λ v d, decoded_as v d ∧ ∀ fuel, type_depth t ≤ fuel → encode fuel (embed d) (SpDef t) = Some (Ok v)) l ds) as [ds Hds].
  { by apply Forall_exists_Forall2_l. }
  exists (JArr ds). split.
  - split; [|split; [by right|done]]. apply decode_list. eapply Forall2_impl; [exact Hds|]. by intros v d [[Hd _] _].
  - intros [|fuel] Hf; cbn [type_depth] in Hf; [lia|]. cbn [embed]. rewrite encode_vec. rewrite (each_ok _ _ l); [done|].
    apply Forall2_fmap_l. change (List.map embed ds) with (embed <$> ds). apply Forall2_fmap_l. apply Forall2_flip.
    eapply Forall2_impl; [exact Hds|]. intros v d [_ He]. apply He. lia.
Qed.

Definition tuple_depth : list ScSpecTypeDef → nat :=
  fix go (ts : list ScSpecTypeDef) : nat := match ts with [] => 0 | t :: ts => max (type_depth t) (go ts) end.

Lemma tuple_member ts l : has_type (scTuple ts) (scvVec (Some l)) = true → Forall2 (λ t v, has_type t v = true) ts l.
Proof using Type.
  revert l. induction ts as [|t ts IH]; intros [|v l]; cbn; try done.
  intros [Ht Hl]%andb_true_iff. constructor; [done|by apply IH].
Qed.

Lemma each_tuple fuel ts l ds :
  length l = length ds →
  (∀ i v d, l !! i = Some v → ds !! i = Some d → encode fuel (embed d) (default SpNone ((SpDef <$> ts : list SpecParam) !! i)) = Some (Ok v)) →
  each (encode fuel) (imap (λ i v, (v, default SpNone ((SpDef <$> ts : list SpecParam) !! i))) (embed <$> ds)) = Some (Ok l).
Proof using Type.
  intros Hlen He. apply each_ok. apply Forall2_same_length_lookup. split; [by rewrite length_imap, length_fmap|].
  intros i x v Hx Hv. rewrite list_lookup_imap, (list_lookup_fmap embed) in Hx.
  destruct (ds !! i) as [d|] eqn:Hd; cbn in Hx; [|discriminate]. injection Hx as <-. cbn [fst snd]. by apply (He i v d).
Qed.

Lemma tuple_depth_le ts i t : ts !! i = Some t → type_depth t ≤ tuple_depth ts.
Proof using Type.
  assert (∀ t ts, tuple_depth (t :: ts) = max (type_depth t) (tuple_depth ts)) as Hc by done.
  revert i. induction ts as [|t' ts IH]; intros [|i]; [done..| |]; rewrite Hc; [intros [= ->]; lia|].
  intros Ht. specialize (IH i Ht). lia.
Qed.

Lemma restores_tuple ts l : Forall2 restores ts l → restores (scTuple ts) (scvVec (Some l)).
Proof using Type.
  intros Hl. assert (∃ ds, Forall2 (λ v d, decodeXdrScVal v = Ok d) l ds ∧
    (∀ i t v d, ts !! i = Some t → l !! i = Some v → ds !! i = Some d → ∀ fuel, type_depth t ≤ fuel → encode fuel (embed d) (SpDef t) = Some (Ok v)))
    as (ds & Hds & He).
  { induction Hl as [|t v ts l [d [[Hd _] He]] _ (ds & Hds & IH)]; [exists []; split; [constructor|by intros [|i]]|].
    exists (d :: ds). split; [by constructor|]. intros [|i] t' v' d'; cbn; [by intros [= <-] [= <-] [= <-]|apply IH]. }
  exists (JArr ds). split; [split; [by apply decode_list|split; [by right|done]]|].
  intros [|fuel] Hf; [cbn in Hf; lia|]. cbn [embed]. rewrite encode_tuple. change (List.map embed ds) with (embed <$> ds).
  rewrite (each_tuple fuel ts l ds); [done|by apply Forall2_length in Hds|].
  intros i v d Hv Hd. apply lookup_lt_Some in Hv as Hi. rewrite <-(Forall2_length _ _ _ Hl) in Hi.
  destruct (lookup_lt_is_Some_2 ts i Hi) as [t Ht]. rewrite list_lookup_fmap, Ht. cbn.
  apply (He i t v d Ht Hv Hd). pose proof (tuple_depth_le ts i t Ht). change (type_depth (scTuple ts)) with (S (tuple_depth ts)) in Hf. lia.
Qed.

Lemma restores_option t v : v = scvVoid ∨ restores t v → restores (scOption t) v.
Proof using Type.
  intros Hv. assert (v = scvVoid ∨ v ≠ scvVoid) as [->|Hn] by (destruct v; first [by left | by right]).
  - exists JNull. split; [split; [done|split; [by left|done]]|]. intros [|fuel] Hf; cbn [type_depth] in Hf; [lia|]. done.
  - destruct Hv as [|(d & (Hd & Hnull & Hobj) & He)]; [done|]. exists d. split; [done|].
    intros [|fuel] Hf; cbn [type_depth] in Hf; [lia|]. rewrite encode_option by (intros; apply embed_no_scval).
    destruct Hnull as [|Hnull]; [done|]. rewrite Hnull. apply He. lia.
Qed.

Lemma typed_restores t : ∀ v, has_type t v = true → restores t v.
Proof using Laws.
  apply (ScSpecTypeDef_nested_ind (λ t, ∀ v, has_type t v = true → restores t v)).
  - intros s. destruct s; try exact I; intros v; destruct v; try discriminate; intros Hv;
      try (eapply restores_leaf; [split; [reflexivity|split; [first [by left | by right]|exact I]]|reflexivity|reflexivity]).
    + cbn [has_type] in Hv. apply in_bounds_spec in Hv as Hz. apply (restores_wide _ _ z (λ z, scvU64 <$> or_range (Uint64 z))); try reflexivity.
      by rewrite Uint64_in.
    + cbn [has_type] in Hv. apply (restores_wide _ _ z (λ z, scvI64 <$> or_range (Int64 z))); try reflexivity. by rewrite Int64_in.
    + apply andb_true_iff in Hv as [H1%in_bounds_spec H2%in_bounds_spec]. apply (restores_wide _ _ (join128 hi lo) toU128); try reflexivity.
      by apply toU128_join.
    + apply andb_true_iff in Hv as [H1%in_bounds_spec H2%in_bounds_spec]. apply (restores_wide _ _ (join128 hi lo) toI128); try reflexivity.
      by apply toI128_join.
    + cbn [has_type forallb] in Hv. rewrite !andb_true_iff, !in_bounds_spec in Hv. destruct Hv as (H1 & H2 & H3 & H4 & _).
      apply (restores_wide _ _ (join256 hiHi hiLo loHi loLo) toU256); try reflexivity. by apply toU256_join.
    + cbn [has_type forallb] in Hv. rewrite !andb_true_iff, !in_bounds_spec in Hv. destruct Hv as (H1 & H2 & H3 & H4 & _).
      apply (restores_wide _ _ (join256 hiHi hiLo loHi loLo) toI256); try reflexivity. by apply toI256_join.
    + by apply restores_bytes.
    + apply restores_address. destruct a; [eauto..|done].
    + apply andb_true_iff in Hv as [Hv _]. by apply restores_bytes.
  - intros u IH v Hv. apply restores_option. destruct v; first [by left | right; by apply IH].
  - intros u IH v Hv. destruct v; try discriminate. destruct l as [l|]; [|discriminate]. apply restores_vec.
    apply Forall_forall. intros v Hin. apply IH. cbn [has_type] in Hv. rewrite forallb_forall in Hv. apply Hv. by apply list_elem_of_In.
  - intros u u' IH _ v Hv. destruct (IH v Hv) as (d & Hd & He). exists d. split; [done|].
    intros [|fuel] Hf; cbn [type_depth] in Hf; [lia|]. destruct Hd as (_ & _ & Hobj). rewrite encode_result by done. apply He. lia.
  - intros u u' _ _ v Hv. destruct v; try discriminate. destruct l as [[|]|]; try discriminate.
    eapply restores_leaf; [split; [reflexivity|split; [by right|exact I]]|reflexivity|reflexivity].
  - intros ts IH v Hv. destruct v; try discriminate. destruct l as [l|]; [|discriminate]. apply restores_tuple.
    apply tuple_member in Hv. revert IH. induction Hv as [|u v ts l Hu _ IHl]; [constructor|].
    intros [Hu' Hts]%Forall_cons. constructor; [by apply Hu'|by apply IHl].
Qed.
End reencode.

(** ** The theorems *)

(** C35: Whatever bigint is given for an integer type of 64, 128 or 256 bits: when
    the type has it, the contract value that is made is decoded to exactly its
    digits.  The code has no range check of its own but for the sign of u128 and u256:
    a negative number is refused there; and when the SDK's integer class makes
    anything of the top part of another number, the value is decoded to an integer of
    the type that agrees with the number below that part. *)
Theorem wide_integers_exact `{SdkLaws} fraction_to_string other_number other_text other_entries n t z :
  let made := jsToScval fraction_to_string other_number other_text other_entries (S n) (NBigInt z) (SpStr (wide_name t)) in
  (in_bounds (wide_bounds t) z = true → ∃ v, made = Some (Ok v) ∧ decodeXdrScVal v = Ok (JStr (pretty z))) ∧
  (∀ v, made = Some (Ok v) →
     ∃ z', decodeXdrScVal v = Ok (JStr (pretty z')) ∧ in_bounds (wide_bounds t) z' = true ∧
           (z' mod 2 ^ low_bits t = z mod 2 ^ low_bits t)%Z) ∧
  (t = WU128 ∨ t = WU256 → (z < 0)%Z → made = Some (Err NegativeUnsigned)).
Proof.
  cbv zeta. rewrite encode_wide by done. cbn [BigInt_of].
  change (z ← Ok z; scv_wide t z) with (scv_wide t z). split_and!.
  - intros (v & -> & Hd)%scv_wide_exact. by exists v.
  - intros v [= Hv]. by apply scv_wide_made.
  - intros Ht Hz%Z.ltb_lt. destruct Ht as [-> | ->]; cbn [scv_wide]; unfold toU128, toU256; by rewrite Hz.
Qed.

(** C34: The decoder reads exactly the values no part of which is an error, a time
    point, a duration, an instance, a ledger key or an address of another kind than
    accounts and contracts.  A value of a type made of booleans, void, integers of all
    widths, bytes, strings, symbols and such addresses by options, vectors, tuples and
    results (taken as what they are a success of), and of empty maps, however deep, is
    encoded by the type from what it is decoded to, and is the same value again; the
    recursion ends within the depth of the type. *)
Theorem typed_value_roundtrip `{SdkLaws} fraction_to_string other_number other_text other_entries v :
  ((∃ d, decodeXdrScVal v = Ok d) ↔ readable v = true) ∧
  (∀ t fuel, has_type t v = true → type_depth t ≤ fuel →
   ∃ d, decodeXdrScVal v = Ok d ∧
        jsToScval fraction_to_string other_number other_text other_entries fuel (embed d) (SpDef t) = Some (Ok v)).
Proof.
  split.
  - rewrite <-decode_readable. destruct (decodeXdrScVal v) as [d|e]; cbn; [|by split; [intros []|]]. split; [done|]. intros _. by exists d.
  - intros t fuel Hv Hf. destruct (typed_restores fraction_to_string other_number other_text other_entries t v Hv) as (d & [Hd _] & He).
    exists d. split; [done|by apply He].
Qed.

(** *** Witnesses *)

(** Keys in hexadecimal for strkeys, and two forms of the integer classes: they
    throw where a number does not fit, or cut it. *)
Definition hex_sdk_with (unsigned signed : Z → option Z) : Sdk := {|
  fromXDR _ := None;
  encodeEd25519PublicKey key := "G" +:+ hex_encode key;
  encodeContract id := "C" +:+ hex_encode id;
  address_fromString s :=
    match s with
    | String "G" key => Some (AccountAddress (hex_prefix key))
    | String "C" id => Some (ContractAddress (hex_prefix id))
    | _ => None
    end;
  isValidEd25519PublicKey _ := false;
  isValidContract _ := false;
  nativeToScVal z := Some (scvI64 z);
  scValToNative v := NScVal v;
  Uint64 := unsigned;
  Int64 := signed;
  error_code_named _ := jint 0;
  error_code_value n := n;
  is_error_arm _ := true;
|}.

Definition hex_sdk : Sdk :=
  hex_sdk_with (λ z, if in_bounds (0, 2 ^ 64)%Z z then Some z else None) (λ z, if in_bounds (- 2 ^ 63, 2 ^ 63)%Z z then Some z else None).
Definition cutting_sdk : Sdk :=
  hex_sdk_with (λ z, Some (z mod 2 ^ 64)%Z) (λ z, Some ((z + 2 ^ 63) mod 2 ^ 64 - 2 ^ 63)%Z).

Lemma hex_addresses unsigned signed :
  let sdk := hex_sdk_with unsigned signed in
  (∀ key, Forall byte key → @address_fromString sdk (@encodeEd25519PublicKey sdk key) = Some (AccountAddress key)) ∧
  (∀ id, Forall byte id → @address_fromString sdk (@encodeContract sdk id) = Some (ContractAddress id)).
Proof. split; intros l Hl; cbn; by rewrite hex_roundtrip. Qed.

#[export] Instance hex_sdk_laws : @SdkLaws hex_sdk.
Proof.
  split; cbn [hex_sdk hex_sdk_with Uint64 Int64].
  1, 2: intros z Hz%in_bounds_spec; by rewrite Hz.
  1, 2: intros z w; destruct (in_bounds _ z) eqn:Hz; [|done]; intros [= <-]; by apply in_bounds_spec.
  all: intros l Hl _; by apply hex_addresses.
Qed.

#[export] Instance cutting_sdk_laws : @SdkLaws cutting_sdk.
Proof.
  split; cbn [cutting_sdk hex_sdk_with Uint64 Int64].
  - intros z Hz. f_equal. by apply Z.mod_small.
  - intros z Hz. f_equal. rewrite Z.mod_small; lia.
  - intros z w [= <-]. by apply Z.mod_pos_bound.
  - intros z w [= <-]. pose proof (Z.mod_pos_bound (z + 2 ^ 63) (2 ^ 64) ltac:(lia)). lia.
  - intros l Hl _. by apply hex_addresses.
  - intros l Hl _. by apply hex_addresses.
Qed.

Definition no_fraction (_ : Z) (_ : nat) : string := "".
Definition no_number (_ : Native) : jsnum := JNaN.
Definition no_text (_ : Native) : string := "".
Definition no_entries (_ : Native) : list (Native * Native) := [].

(** The conversions with those. *)
Definition to_scval (value : Native) (spec : SpecParam) : ores ScVal :=
  @jsToScval hex_sdk no_fraction no_number no_text no_entries 10 value spec.

Lemma wide_integers_exact_witness :
  (∃ v, to_scval (NBigInt (2 ^ 127 - 1)) (SpStr "i128") = Some (Ok v) ∧ @decodeXdrScVal hex_sdk v = Ok (JStr "170141183460469231731687303715884105727")) ∧
  @jsToScval cutting_sdk no_fraction no_number no_text no_entries 10 (NBigInt (2 ^ 127 + 5)) (SpStr "i128") = Some (Ok (scvI128 (- 2 ^ 63) 5)) ∧
  (∃ z', @decodeXdrScVal cutting_sdk (scvI128 (- 2 ^ 63) 5) = Ok (JStr (pretty z')) ∧ in_bounds (wide_bounds WI128) z' = true ∧ (z' mod 2 ^ 64 = (2 ^ 127 + 5) mod 2 ^ 64)%Z).
Proof.
  split; [|split; [reflexivity|]].
  - apply (proj1 (@wide_integers_exact hex_sdk hex_sdk_laws no_fraction no_number no_text no_entries 9 WI128 (2 ^ 127 - 1)%Z)). reflexivity.
  - apply (proj1 (proj2 (@wide_integers_exact cutting_sdk cutting_sdk_laws no_fraction no_number no_text no_entries 9 WI128 (2 ^ 127 + 5)%Z))). reflexivity.
Defined.

Definition nested_type : ScSpecTypeDef := scVec (scTuple [scAddress; scOption scI128; scBytesN 2]).
Definition nested_value : ScVal :=
  scvVec (Some [scvVec (Some [scvAddress (AccountAddress (replicate 32 7%Z)); scvI128 (-1) 5; scvBytes [0; 255]%Z]);
                scvVec (Some [scvAddress (ContractAddress (replicate 32 255%Z)); scvVoid; scvBytes [16; 32]%Z])]).

Lemma typed_value_roundtrip_witness :
  has_type nested_type nested_value = true ∧
  ∃ d, @decodeXdrScVal hex_sdk nested_value = Ok d ∧ to_scval (embed d) (SpDef nested_type) = Some (Ok nested_value).
Proof.
  split; [vm_compute; reflexivity|].
  apply (proj2 (@typed_value_roundtrip hex_sdk hex_sdk_laws no_fraction no_number no_text no_entries nested_value) nested_type 10); [vm_compute; reflexivity|].
  cbn. lia.
Defined.

(** *** What may surprise *)

Lemma decode_entries `{Sdk} l i acc d :
  (fix go (i : nat) (l : list (ScVal * ScVal)) (acc : list jsval) : result Stop jsval :=
     match l with
     | [] => Ok (JArr acc)
     | (k, v) :: l =>
         let kr := within (InMapKey i) (decodeXdrScVal k) in
         let vr := within (InMapValue i) (decodeXdrScVal v) in
         match kr, vr with
         | Err Thrown, _ | _, Err Thrown => Err Thrown
         | Err e, _ | _, Err e => Err e
         | Ok k, Ok v => go (S i) l (acc ++ [entry_json k v])
         end
     end) i l acc = Ok d → ∃ rest, d = JArr (acc ++ ((λ e : jsval * jsval, entry_json e.1 e.2) <$> rest)) ∧ length rest = length l.
Proof.
  revert i acc. induction l as [|[k v] l IH]; intros i acc; [intros [= <-]; exists []; by rewrite app_nil_r|].
  cbv zeta. destruct (within (InMapKey i) (decodeXdrScVal k)) as [kd|[]]; destruct (within (InMapValue i) (decodeXdrScVal v)) as [vd|[]]; try discriminate.
  intros (rest & -> & Hn)%IH. exists ((kd, vd) :: rest). cbn. by rewrite <-app_assoc, Hn.
Qed.

(** What a map with entries is decoded to is refused where a map is to be encoded:
    one side names the member of an entry [value], the other [val]. *)
Lemma decoded_map_not_encoded `{Sdk} fraction_to_string other_number other_text other_entries fuel e l d k v :
  decodeXdrScVal (scvMap (Some (e :: l))) = Ok d →
  jsToScval fraction_to_string other_number other_text other_entries (S fuel) (embed d) (SpDef (scMap k v)) = Some (Err InvalidMapArray).
Proof. intros Hd. destruct (decode_entries (e :: l) 0 [] d Hd) as (rest & -> & Hn). by destruct rest as [|e' rest]. Qed.

(** What becomes of a number that the type does not have is up to the SDK: refused,
    or another number. *)
Lemma out_of_range_up_to_the_sdk :
  to_scval (NBigInt (2 ^ 64)) (SpStr "u64") = Some (Err RangeErr) ∧
  @jsToScval cutting_sdk no_fraction no_number no_text no_entries 10 (NBigInt (2 ^ 64)) (SpStr "u64") = Some (Ok (scvU64 0)).
Proof. split; reflexivity. Qed.

(** The type of the keys of a map is cut at the first comma. *)
Lemma nested_map_key :
  resolveSpec (SpStr "map<map<u32,u32>,bool>") = ("map", map_obj (SpStr "map<u32") (SpStr "u32>,bool")) ∧
  to_scval (NMap [(NMap [(NNum (jint 1), NNum (jint 2))], NBool true)]) (SpStr "map<map<u32,u32>,bool>")
  = Some (Ok (scvMap (Some [(scvMap (Some [(scvI32 (jint 1), scvI32 (jint 2))]), scvBool true)]))).
Proof. split; reflexivity. Qed.

(** A struct of one field is taken for a value named by its type, and lost. *)
Lemma one_field_struct_lost :
  @decodeScVal hex_sdk no_fraction no_number (JObj [("amount", JObj [("u32", JNum (jint 1))])]) = Ok (JStr "[object Object]") ∧
  @decodeScVal hex_sdk no_fraction no_number (JObj [("amount", JObj [("u32", JNum (jint 1))]); ("memo", JStr "m")])
  = Ok (JObj [("amount", JNum (jint 1)); ("memo", JStr "m")]).
Proof. split; reflexivity. Qed.

(** The decoder of single values throws where a part of a wide integer is no integer. *)
Lemma bad_part_throws :
  @decodeScVal hex_sdk no_fraction no_number (JObj [("i128", JObj [("lo", JStr "x"); ("hi", JStr "0")])]) = Err Thrown.
Proof. reflexivity. Qed.

(** An address that is no account and no contract is decoded to the text it came as. *)
Lemma other_address_opaque `{Sdk} fraction_to_string other_number raw :
  fromXDR raw = Some (scvAddress OtherAddress) → decodeScVal fraction_to_string other_number (JStr raw) = Ok (JStr raw).
Proof. intros Hr. cbn [decodeScVal]. unfold decode_text. by rewrite Hr. Qed.

(** A text that reads as XDR is taken for it. *)
Lemma text_read_as_xdr `{Sdk} fraction_to_string other_number raw b :
  fromXDR raw = Some (scvBool b) → decodeScVal fraction_to_string other_number (JStr raw) = Ok (JBool b).
Proof. intros Hr. cbn [decodeScVal]. unfold decode_text. by rewrite Hr. Qed.
