(* ===== verification/WorkerStores.v ===== *)
(** * The state of workers

    worker-core/src/WorkerStateStore.ts, MemoryWorkerStateStore.ts,
    FileWorkerStateStore.ts and migrateWorkerState.ts: what is kept of a worker,
    the class of stores that keep it ([WorkerStateStore], with its laws in
    [StoreLaws]), two of them, and the copy from one to another, which is proved
    against the laws.  A file of the file store is what [JSON.parse] makes of it;
    its methods read, and then replace the file, so that calls overlap ([file_begin]
    and [file_end]).  A call reads the clock once; texts of times are opaque. *)

From Stdlib Require Import Sorted.
From stdpp Require Import gmap.
From S2P Require Import Prelude JsMap JsValue Decimal RegistryCache RegistryClients.

(** ** Data *)

Definition WORKER_STATE_SCHEMA_VERSION : Z := 1.

Record WorkerFireRecord := {
  windowStart : string;
  windowEnd : string;
  firedAt : string;
  payload : jsval;
}.

Record WorkerClaimRecord := {
  windowId : string;
  claim_workerId : string;
  claimedAt : string;
  expiresAt : string;
}.

Record WorkerState := {
  schemaVersion : Z;
  workerId : string;
  registeredAt : string;
  updatedAt : string;
  lastFiredWindowStart : option string;
  lastFiredWindowEnd : option string;
  fireHistory : list WorkerFireRecord;
  activeClaims : list WorkerClaimRecord;
  metadata : jsval;
}.

Record RegisterWorkerInput := {
  in_workerId : string;
  in_registeredAt : option string;
  in_metadata : option jsval;
}.

Inductive StoreError :=
  | NotRegistered (id : string)
  | BadFileName.   (** [decodeURIComponent] throws *)

(** ** What the methods make of the state that is there *)

Definition registered (now : string) (i : RegisterWorkerInput) : WorkerState := {|
  schemaVersion := WORKER_STATE_SCHEMA_VERSION;
  workerId := in_workerId i;
  registeredAt := default now (in_registeredAt i);
  updatedAt := now;
  lastFiredWindowStart := None;
  lastFiredWindowEnd := None;
  fireHistory := [];
  activeClaims := [];
  metadata := default (JObj []) (in_metadata i);
|}.

Definition appended (now : string) (record : WorkerFireRecord) (w : WorkerState) : WorkerState := {|
  schemaVersion := schemaVersion w;
  workerId := workerId w;
  registeredAt := registeredAt w;
  updatedAt := now;
  lastFiredWindowStart := Some (windowStart record);
  lastFiredWindowEnd := Some (windowEnd record);
  fireHistory := fireHistory w ++ [record];
  activeClaims := activeClaims w;
  metadata := metadata w;
|}.

Definition with_claims (now : string) (claims : list WorkerClaimRecord) (w : WorkerState) : WorkerState := {|
  schemaVersion := schemaVersion w;
  workerId := workerId w;
  registeredAt := registeredAt w;
  updatedAt := now;
  lastFiredWindowStart := lastFiredWindowStart w;
  lastFiredWindowEnd := lastFiredWindowEnd w;
  fireHistory := fireHistory w;
  activeClaims := claims;
  metadata := metadata w;
|}.

Definition other_window (window : string) (c : WorkerClaimRecord) : bool := negb (String.eqb (windowId c) window).

Definition claimed (now : string) (claim : WorkerClaimRecord) (w : WorkerState) : WorkerState :=
  with_claims now (List.filter (other_window (windowId claim)) (activeClaims w) ++ [claim]) w.

Definition released (now : string) (window : string) (w : WorkerState) : WorkerState :=
  with_claims now (List.filter (other_window window) (activeClaims w)) w.

(** ** The class of stores *)

Class WorkerStateStore (S : Type) := {
  getWorker : S → string → option WorkerState;
  registerWorker : S → string → RegisterWorkerInput → WorkerState * S;
  appendFireRecord : S → string → string → WorkerFireRecord → result StoreError WorkerState * S;
  writeClaim : S → string → string → WorkerClaimRecord → result StoreError WorkerState * S;
  releaseClaim : S → string → string → string → result StoreError WorkerState * S;
  getAllWorkers : S → result StoreError (list WorkerState);
}.

(** What is left of a value by [JSON.parse(JSON.stringify(value))]; [None] is
    [undefined]. *)
Fixpoint json_copy (v : jsval) : option jsval :=
  match v with
  | JUndef => None
  | JNum (JFin m k) => Some (JNum (JFin m k))
  | JNum _ => Some JNull
  | JArr l => Some (JArr (List.map (λ w, match json_copy w with Some w' => w' | None => JNull end) l))
  | JObj fs =>
      Some (JObj ((fix go (fs : list (string * jsval)) : list (string * jsval) :=
         match fs with
         | [] => []
         | (k, w) :: fs => match json_copy w with Some w' => (k, w') :: go fs | None => go fs end
         end) fs))
  | v => Some v
  end.

(** Values that JSON keeps: as the metadata of a worker, and as the payload of a
    record, which may be absent. *)
Definition kept (v : jsval) : Prop := json_copy v = Some v.
Definition kept_payload (v : jsval) : Prop := v = JUndef ∨ kept v.

(** *** The laws, over the map of the states *)

Definition spec_register (now : string) (i : RegisterWorkerInput) (m : gmap string WorkerState) : WorkerState * gmap string WorkerState :=
  match m !! in_workerId i with
  | Some w => (w, m)
  | None => (registered now i, <[in_workerId i := registered now i]> m)
  end.

Definition spec_update (id : string) (f : WorkerState → WorkerState) (m : gmap string WorkerState) : result StoreError WorkerState * gmap string WorkerState :=
  match m !! id with
  | Some w => (Ok (f w), <[id := f w]> m)
  | None => (Err (NotRegistered id), m)
  end.

Class StoreLaws (S : Type) `{WorkerStateStore S} := {
  contents : S → gmap string WorkerState;
  sound : S → Prop;
  law_get s id : sound s → getWorker s id = contents s !! id;
  law_register s now i :
    sound s → kept (default (JObj []) (in_metadata i)) →
    let '(w, s') := registerWorker s now i in spec_register now i (contents s) = (w, contents s') ∧ sound s';
  law_append s now id record :
    sound s → kept_payload (payload record) →
    let '(r, s') := appendFireRecord s now id record in spec_update id (appended now record) (contents s) = (r, contents s') ∧ sound s';
  law_claim s now id claim :
    sound s →
    let '(r, s') := writeClaim s now id claim in spec_update id (claimed now claim) (contents s) = (r, contents s') ∧ sound s';
  law_release s now id window :
    sound s →
    let '(r, s') := releaseClaim s now id window in spec_update id (released now window) (contents s) = (r, contents s') ∧ sound s';
  law_all s :
    sound s → ∃ l, getAllWorkers s = Ok l ∧ l ≡ₚ (map_to_list (contents s)).*2;
}.

(** ** The store in memory *)

Definition MemoryStore : Type := jsmap string WorkerState.

(** A method that replaces the state of a worker that is registered. *)
Definition memory_update (s : MemoryStore) (id : string) (f : WorkerState → WorkerState) : result StoreError WorkerState * MemoryStore :=
  match mget id s with
  | None => (Err (NotRegistered id), s)
  | Some existing => (Ok (f existing), mset id (f existing) s)
  end.

#[export] Instance MemoryWorkerStateStore : WorkerStateStore MemoryStore := {|
  getWorker s id := mget id s;
  registerWorker s now i :=
    match mget (in_workerId i) s with
    | Some existing => (existing, s)
    | None => (registered now i, mset (in_workerId i) (registered now i) s)
    end;
  appendFireRecord s now id record := memory_update s id (appended now record);
  writeClaim s now id claim := memory_update s id (claimed now claim);
  releaseClaim s now id window := memory_update s id (released now window);
  getAllWorkers s := Ok (mvals s);
|}.

(** ** The store in files *)

(** [decodeURIComponent], of texts whose escapes are single bytes. *)
Definition hex_digit (c : ascii) : option nat :=
  let n := nat_of_ascii c in
  if (48 <=? n) && (n <=? 57) then Some (n - 48)
  else if (65 <=? n) && (n <=? 70) then Some (n - 55)
  else if (97 <=? n) && (n <=? 102) then Some (n - 87)
  else None.

Fixpoint decodeURIComponent (s : string) : option string :=
  match s with
  | "" => Some ""
  | String "%" (String a (String b s')) =>
      match hex_digit a, hex_digit b, decodeURIComponent s' with
      | Some x, Some y, Some t => Some (String (ascii_of_nat (16 * x + y)) t)
      | _, _, _ => None
      end
  | String "%" _ => None
  | String c s' => match decodeURIComponent s' with Some t => Some (String c t) | None => None end
  end.

Definition safeFilename (id : string) : string := encodeURIComponent id +:+ ".json".

(** What is in a file: the state of a worker, other JSON, or no JSON. *)
Inductive StateFile :=
  | StateJson (w : WorkerState)
  | OtherJson
  | NoJson.

Definition FileStore : Type := jsmap string StateFile.

Definition readRaw (s : FileStore) (id : string) : option WorkerState :=
  match mget (safeFilename id) s with Some (StateJson w) => Some w | _ => None end.

(** The state that is read back of the text that is written. *)
Definition copy_record (r : WorkerFireRecord) : WorkerFireRecord :=
  {| windowStart := windowStart r; windowEnd := windowEnd r; firedAt := firedAt r; payload := default JUndef (json_copy (payload r)) |}.

Definition copy_state (w : WorkerState) : WorkerState := {|
  schemaVersion := schemaVersion w;
  workerId := workerId w;
  registeredAt := registeredAt w;
  updatedAt := updatedAt w;
  lastFiredWindowStart := lastFiredWindowStart w;
  lastFiredWindowEnd := lastFiredWindowEnd w;
  fireHistory := copy_record <$> fireHistory w;
  activeClaims := activeClaims w;
  metadata := default JUndef (json_copy (metadata w));
|}.

Definition writeAtomic (s : FileStore) (id : string) (w : WorkerState) : FileStore := mset (safeFilename id) (StateJson (copy_state w)) s.

(** The rest of a method, with what it read at its beginning. *)
Definition file_register (read : option WorkerState) (s : FileStore) (now : string) (i : RegisterWorkerInput) : WorkerState * FileStore :=
  match read with
  | Some existing => (existing, s)
  | None => (registered now i, writeAtomic s (in_workerId i) (registered now i))
  end.

Definition file_update (read : option WorkerState) (s : FileStore) (id : string) (f : WorkerState → WorkerState) : result StoreError WorkerState * FileStore :=
  match read with
  | None => (Err (NotRegistered id), s)
  | Some existing => (Ok (f existing), writeAtomic s id (f existing))
  end.

(** The order in which a directory lists its files. *)
Class Readdir := {
  readdir : list string → list string;
  readdir_perm l : readdir l ≡ₚ l;
}.

(** [name.slice(0, -5)] of a name that ends in [.json]. *)
Fixpoint json_name (name : string) : option string :=
  if String.eqb name ".json" then Some ""
  else match name with "" => None | String c rest => String c <$> json_name rest end.

Fixpoint read_files (s : FileStore) (names : list string) : result StoreError (list WorkerState) :=
  match names with
  | [] => Ok []
  | name :: names =>
      match json_name name with
      | None => read_files s names
      | Some stem =>
          match decodeURIComponent stem with
          | None => Err BadFileName
          | Some id =>
              match readRaw s id with
              | Some w => (λ l, w :: l) <$> read_files s names
              | None => read_files s names
              end
          end
      end
  end.

(** The methods, each undisturbed by others. *)
#[export] Instance FileWorkerStateStore `{Readdir} : WorkerStateStore FileStore := {|
  getWorker s id := readRaw s id;
  registerWorker s now i := file_register (readRaw s (in_workerId i)) s now i;
  appendFireRecord s now id record := file_update (readRaw s id) s id (appended now record);
  writeClaim s now id claim := file_update (readRaw s id) s id (claimed now claim);
  releaseClaim s now id window := file_update (readRaw s id) s id (released now window);
  getAllWorkers s := read_files s (readdir (mkeys s));
|}.

(** *** Calls that overlap *)

Inductive StoreCall :=
  | Register (i : RegisterWorkerInput)
  | Append (id : string) (record : WorkerFireRecord)
  | Claim (id : string) (claim : WorkerClaimRecord)
  | Release (id window : string).

Definition call_worker (c : StoreCall) : string :=
  match c with Register i => in_workerId i | Append id _ | Claim id _ | Release id _ => id end.

(** The files, and the calls that have read and not written. *)
Record FileRun := { fr_files : FileStore; fr_open : list (StoreCall * option WorkerState) }.

Definition file_end (c : StoreCall) (read : option WorkerState) (now : string) (s : FileStore) : FileStore :=
  match c with
  | Register i => (file_register read s now i).2
  | Append id record => (file_update read s id (appended now record)).2
  | Claim id claim => (file_update read s id (claimed now claim)).2
  | Release id window => (file_update read s id (released now window)).2
  end.

Inductive FileLabel :=
  | Reads (c : StoreCall)
  | Writes (i : nat) (now : string).

Definition file_step (l : FileLabel) (r : FileRun) : FileRun :=
  match l with
  | Reads c => {| fr_files := fr_files r; fr_open := fr_open r ++ [(c, readRaw (fr_files r) (call_worker c))] |}
  | Writes i now =>
      match fr_open r !! i with
      | None => r
      | Some (c, read) => {| fr_files := file_end c read now (fr_files r); fr_open := base.delete i (fr_open r) |}
      end
  end.

Definition file_run (ls : list FileLabel) (r : FileRun) : FileRun := foldl (λ r l, file_step l r) r ls.

(** ** The copy from a store to another (migrateWorkerState.ts) *)

Section migrate.
Context {S T : Type} `{WorkerStateStore S, WorkerStateStore T}.
(** The clock of the target at the calls for a worker. *)
Context (clock : string → nat → string).

Fixpoint copy_records (id : string) (k : nat) (l : list WorkerFireRecord) (target : T) : result StoreError T :=
  match l with
  | [] => Ok target
  | record :: l =>
      match appendFireRecord target (clock id k) id record with
      | (Err e, _) => Err e
      | (Ok _, target) => copy_records id (1 + k) l target
      end
  end.

Fixpoint copy_claims (id : string) (k : nat) (l : list WorkerClaimRecord) (target : T) : result StoreError T :=
  match l with
  | [] => Ok target
  | claim :: l =>
      match writeClaim target (clock id k) id claim with
      | (Err e, _) => Err e
      | (Ok _, target) => copy_claims id (1 + k) l target
      end
  end.

Definition copy_worker (w : WorkerState) (target : T) : result StoreError T :=
  let id := workerId w in
  let target := (registerWorker target (clock id 0) {| in_workerId := id; in_registeredAt := Some (registeredAt w); in_metadata := Some (metadata w) |}).2 in
  target ← copy_records id 1 (fireHistory w) target;
  copy_claims id (1 + length (fireHistory w)) (activeClaims w) target.

Fixpoint copy_workers (l : list WorkerState) (target : T) : result StoreError T :=
  match l with
  | [] => Ok target
  | w :: l => target ← copy_worker w target; copy_workers l target
  end.

Definition migrateWorkerState (source : S) (target : T) : result StoreError (nat * T) :=
  workers ← getAllWorkers source;
  target ← copy_workers workers target;
  Ok (length workers, target).
End migrate.

(** ** Names of files *)

Lemma json_name_stem t : json_name (t +:+ ".json") = Some t.
Proof.
  induction t as [|c t IH]; [reflexivity|]. cbn [String.append json_name].
  destruct (String.eqb_spec (String c (t +:+ ".json")) ".json") as [He|_].
  - apply (f_equal String.length) in He. cbn in He. rewrite string_length_app in He. cbn in He. lia.
  - by rewrite IH.
Qed.

Lemma hex_pair c :
  hex_digit (upper_hex (nat_of_ascii c / 16)) = Some (nat_of_ascii c / 16) ∧
  hex_digit (upper_hex (nat_of_ascii c mod 16)) = Some (nat_of_ascii c mod 16) ∧
  ascii_of_nat (16 * (nat_of_ascii c / 16) + nat_of_ascii c mod 16) = c.
Proof. destruct c as [[] [] [] [] [] [] [] []]; by vm_compute. Qed.

Lemma decode_plain c t : unreserved c = true → decodeURIComponent (String c t) = String c <$> decodeURIComponent t.
Proof. intros Hc. destruct c as [[] [] [] [] [] [] [] []]; cbn in Hc |- *; done. Qed.

Lemma decode_escape a b t : decodeURIComponent (String "%" (String a (String b t)))
  = match hex_digit a, hex_digit b, decodeURIComponent t with Some x, Some y, Some t => Some (String (ascii_of_nat (16 * x + y)) t) | _, _, _ => None end.
Proof. reflexivity. Qed.

Lemma decode_byte c t : decodeURIComponent (encodeURIComponent (String c "") +:+ t) = String c <$> decodeURIComponent t.
Proof.
  cbn [encodeURIComponent]. destruct (unreserved c) eqn:Hc; cbn [String.append]; [by apply decode_plain|].
  destruct (hex_pair c) as (H1 & H2 & H3). rewrite decode_escape, H1, H2, H3. by destruct (decodeURIComponent t).
Qed.

Lemma decode_encode s : decodeURIComponent (encodeURIComponent s) = Some s.
Proof.
  induction s as [|c s IH]; [done|].
  assert (encodeURIComponent (String c s) = encodeURIComponent (String c "") +:+ encodeURIComponent s) as ->.
  { cbn [encodeURIComponent]. destruct (unreserved c); [done|]. cbn. done. }
  by rewrite decode_byte, IH.
Qed.

Lemma filename_stem id : json_name (safeFilename id) = Some (encodeURIComponent id).
Proof. apply json_name_stem. Qed.

#[export] Instance safeFilename_inj : Inj (=) (=) safeFilename.
Proof.
  intros x y Hxy. apply (f_equal json_name) in Hxy. rewrite !filename_stem in Hxy. injection Hxy as Hxy.
  apply (f_equal decodeURIComponent) in Hxy. rewrite !decode_encode in Hxy. congruence.
Qed.

(** ** The stores obey the laws *)

Lemma memory_update_spec (s : MemoryStore) id f :
  mwf s → let '(r, s') := memory_update s id f in spec_update id f (to_gmap s) = (r, to_gmap s') ∧ mwf s'.
Proof.
  intros Hs. unfold memory_update, spec_update. rewrite lookup_to_gmap.
  destruct (mget id s); [|done]. rewrite to_gmap_mset. split; [done|by apply mwf_mset].
Qed.

#[export, program] Instance MemoryStoreLaws : StoreLaws MemoryStore := {|
  contents s := to_gmap s;
  sound s := mwf s;
|}.
Next Obligation. intros s id _. by rewrite lookup_to_gmap. Qed.
Next Obligation.
  intros s now i Hs _. cbn [registerWorker MemoryWorkerStateStore]. unfold spec_register. rewrite lookup_to_gmap.
  destruct (mget (in_workerId i) s); [done|]. rewrite to_gmap_mset. split; [done|by apply mwf_mset].
Qed.
Next Obligation. intros s now id record Hs _. by apply memory_update_spec. Qed.
Next Obligation. intros s now id claim Hs. by apply memory_update_spec. Qed.
Next Obligation. intros s now id window Hs. by apply memory_update_spec. Qed.
Next Obligation.
  intros s Hs. exists (mvals s). split; [done|]. unfold to_gmap, mvals. apply fmap_Permutation. symmetry.
  by apply map_to_list_to_map.
Qed.

(** The worker and the state of an entry of the directory. *)
Definition entry (p : string * StateFile) : option (string * WorkerState) :=
  match json_name p.1 ≫= decodeURIComponent, p.2 with Some id, StateJson w => Some (id, w) | _, _ => None end.

Definition file_contents (s : FileStore) : gmap string WorkerState := list_to_map (omap entry s).

(** A directory in which the states are under the names of workers and hold what
    JSON keeps; other files may be there under other names. *)
Definition canonical (name : string) : Prop := json_name name = None ∨ ∃ id, name = safeFilename id.
Definition kept_file (f : StateFile) : Prop := match f with StateJson w => copy_state w = w | _ => True end.
Definition sound_files (s : FileStore) : Prop := mwf s ∧ Forall (λ p, canonical p.1 ∧ kept_file p.2) s.

Lemma entry_name p id w : canonical p.1 → entry p = Some (id, w) → p = (safeFilename id, StateJson w).
Proof.
  destruct p as [name f]. unfold entry. cbn [fst snd]. intros [Hn|[id' ->]]; [by rewrite Hn|].
  rewrite filename_stem. cbn [mbind option_bind]. rewrite decode_encode. destruct f; [|done|done]. intros [= -> ->]. done.
Qed.

Lemma entry_safe id f : entry (safeFilename id, f) = match f with StateJson w => Some (id, w) | _ => None end.
Proof. unfold entry. cbn [fst snd]. rewrite filename_stem. cbn [mbind option_bind]. rewrite decode_encode. by destruct f. Qed.

Lemma entries_keys s : Forall (λ p : string * StateFile, canonical p.1) s → (safeFilename <$> (omap entry s).*1) `sublist_of` mkeys s.
Proof.
  unfold mkeys. induction 1 as [|[name f] s Hp _ IH]; [constructor|]. cbn [omap list_omap fmap list_fmap].
  destruct (entry (name, f)) as [[id w]|] eqn:He; [|by apply sublist_cons].
  apply entry_name in He; [|done]. injection He as -> ->. by apply sublist_skip.
Qed.

Lemma entries_NoDup s : sound_files s → NoDup (omap entry s).*1.
Proof.
  intros [Hs Hf]. apply (NoDup_fmap_1 safeFilename). eapply sublist_NoDup; [exact Hs|]. apply entries_keys.
  eapply Forall_impl; [exact Hf|]. by intros p [].
Qed.

Lemma entry_listed s id w : sound_files s → (id, w) ∈ omap entry s ↔ mget (safeFilename id) s = Some (StateJson w).
Proof.
  intros [Hs Hf]. rewrite list_elem_of_omap. split.
  - intros (p & Hin & He). rewrite Forall_forall in Hf. apply entry_name in He; [|by apply Hf]. subst p. by apply elem_of_mget.
  - intros Hin%mget_Some_elem. eexists. split; [exact Hin|]. apply entry_safe.
Qed.

Lemma readRaw_Some s id w : readRaw s id = Some w ↔ mget (safeFilename id) s = Some (StateJson w).
Proof. unfold readRaw. destruct (mget _ s) as [[]|]; split; congruence. Qed.

Lemma file_contents_lookup s id : sound_files s → file_contents s !! id = readRaw s id.
Proof.
  intros Hs. apply option_eq. intros w. unfold file_contents.
  rewrite <-elem_of_list_to_map by (by apply entries_NoDup). by rewrite entry_listed, readRaw_Some.
Qed.

Lemma sound_write s id w : sound_files s → copy_state w = w → sound_files (writeAtomic s id w).
Proof.
  intros [Hs Hf] Hw. split; [by apply mwf_mset|]. unfold writeAtomic. rewrite Hw. clear Hs. induction Hf as [|[name f] s Hp Hf IH].
  - constructor; [|constructor]. split; [right; by exists id|done].
  - cbn [mset]. destruct (decide (name = safeFilename id)) as [->|Hne]; constructor; try done. split; [apply Hp|done].
Qed.

Lemma contents_write s id w : sound_files s → copy_state w = w → file_contents (writeAtomic s id w) = <[id := w]> (file_contents s).
Proof.
  intros Hs Hw. apply map_eq. intros id'. rewrite file_contents_lookup by (by apply sound_write). unfold readRaw, writeAtomic. rewrite Hw, mget_mset.
  rewrite lookup_insert. destruct (decide (id = id')) as [->|Hne]; [by rewrite decide_True|].
  rewrite decide_False by (intros ?%safeFilename_inj; done). by rewrite file_contents_lookup.
Qed.

(** A state that is kept stays so. *)
Lemma copy_record_kept r : kept_payload (payload r) → copy_record r = r.
Proof. destruct r as [a b c d]. unfold copy_record, kept_payload, kept. cbn. intros [-> | ->]; done. Qed.

Lemma copy_registered now i : kept (default (JObj []) (in_metadata i)) → copy_state (registered now i) = registered now i.
Proof. unfold copy_state, registered, kept. cbn. by intros ->. Qed.

Lemma copy_state_parts w : copy_state w = w ↔ copy_record <$> fireHistory w = fireHistory w ∧ default JUndef (json_copy (metadata w)) = metadata w.
Proof.
  destruct w. unfold copy_state. cbn [fireHistory metadata schemaVersion workerId registeredAt updatedAt lastFiredWindowStart lastFiredWindowEnd activeClaims].
  split; [by intros [= Hh Hm]|]. by intros [-> ->].
Qed.

Lemma copy_appended now record w : kept_payload (payload record) → copy_state w = w → copy_state (appended now record w) = appended now record w.
Proof.
  intros Hp%copy_record_kept [Hh Hm]%copy_state_parts. apply copy_state_parts. unfold appended. cbn [fireHistory metadata].
  split; [|done]. rewrite fmap_app, Hh. cbn. by rewrite Hp.
Qed.

Lemma copy_with_claims now l w : copy_state w = w → copy_state (with_claims now l w) = with_claims now l w.
Proof. rewrite !copy_state_parts. done. Qed.

Lemma read_kept s id w : sound_files s → readRaw s id = Some w → copy_state w = w.
Proof.
  intros [Hs Hf] Hr%readRaw_Some%mget_Some_elem. rewrite Forall_forall in Hf. apply (Hf _ Hr).
Qed.

Lemma file_update_spec s id f :
  sound_files s → (∀ w, copy_state w = w → copy_state (f w) = f w) →
  let '(r, s') := file_update (readRaw s id) s id f in spec_update id f (file_contents s) = (r, file_contents s') ∧ sound_files s'.
Proof.
  intros Hs Hf. unfold file_update, spec_update. rewrite file_contents_lookup by done.
  destruct (readRaw s id) as [w|] eqn:Hr; [|done]. apply read_kept in Hr; [|done].
  rewrite contents_write by auto. split; [done|]. apply sound_write; auto.
Qed.

(** What a listing reads, name by name. *)
Definition listed (s : FileStore) (name : string) : option WorkerState := (json_name name ≫= decodeURIComponent) ≫= readRaw s.

Lemma read_files_canonical s names : Forall canonical names → read_files s names = Ok (omap (listed s) names).
Proof.
  induction 1 as [|name names Hn _ IH]; [done|]. cbn [read_files omap list_omap]. unfold listed at 1.
  destruct Hn as [Hn|[id ->]]; [by rewrite Hn|]. rewrite filename_stem. cbn [mbind option_bind]. rewrite decode_encode. cbn [mbind option_bind].
  rewrite IH. by destruct (readRaw s id).
Qed.

Lemma listed_entries s l : sound_files s → l ⊆ s → omap (listed s) (mkeys l) = (omap entry l).*2.
Proof.
  intros Hs. unfold mkeys. induction l as [|[name f] l IH]; intros Hl; [done|]. cbn [omap list_omap fmap list_fmap fst].
  rewrite IH by (intros p Hp; apply Hl; by right).
  destruct Hs as [Hs Hf]. assert ((name, f) ∈ s) as Hin by (apply Hl; left). rewrite Forall_forall in Hf.
  destruct (proj1 (Hf _ Hin)) as [Hn|[id Hn]]; cbn [fst] in Hn; unfold listed, entry; cbn [fst snd].
  - by rewrite Hn.
  - subst name. rewrite filename_stem. cbn [mbind option_bind]. rewrite decode_encode. cbn [mbind option_bind].
    unfold readRaw. rewrite (elem_of_mget _ f s Hs Hin). by destruct f.
Qed.

#[export, program] Instance FileStoreLaws `{Readdir} : StoreLaws FileStore := {|
  contents s := file_contents s;
  sound s := sound_files s;
|}.
Next Obligation. intros R s id Hs. cbn. by rewrite file_contents_lookup. Qed.
Next Obligation.
  intros R s now i Hs Hk. cbn [registerWorker FileWorkerStateStore]. unfold file_register, spec_register. rewrite file_contents_lookup by done.
  destruct (readRaw s (in_workerId i)) as [w|] eqn:Hr; [done|]. apply (copy_registered now) in Hk.
  rewrite contents_write by done. split; [done|by apply sound_write].
Qed.
Next Obligation. intros R s now id record Hs Hk. apply file_update_spec; [done|]. intros w. by apply copy_appended. Qed.
Next Obligation. intros R s now id claim Hs. apply file_update_spec; [done|]. intros w. apply copy_with_claims. Qed.
Next Obligation. intros R s now id window Hs. apply file_update_spec; [done|]. intros w. apply copy_with_claims. Qed.
Next Obligation.
  intros R s Hs. exists (omap (listed s) (readdir (mkeys s))). split.
  - cbn [getAllWorkers FileWorkerStateStore]. apply read_files_canonical. rewrite readdir_perm. unfold mkeys. rewrite Forall_fmap.
    eapply Forall_impl; [apply (proj2 Hs)|]. by intros p [].
  - rewrite readdir_perm. rewrite (listed_entries s s) by done. apply fmap_Permutation. symmetry. apply map_to_list_to_map. by apply entries_NoDup.
Qed.

(** ** Runs of calls *)

Definition kept_call (c : StoreCall) : Prop :=
  match c with
  | Register i => kept (default (JObj []) (in_metadata i))
  | Append _ record => kept_payload (payload record)
  | Claim _ _ | Release _ _ => True
  end.

Definition call_store {S} `{WorkerStateStore S} (s : S) (now : string) (c : StoreCall) : result StoreError WorkerState * S :=
  match c with
  | Register i => let '(w, s') := registerWorker s now i in (Ok w, s')
  | Append id record => appendFireRecord s now id record
  | Claim id claim => writeClaim s now id claim
  | Release id window => releaseClaim s now id window
  end.

Fixpoint run_calls {S} `{WorkerStateStore S} (calls : list (string * StoreCall)) (s : S) : list (result StoreError WorkerState) * S :=
  match calls with
  | [] => ([], s)
  | (now, c) :: calls =>
      let '(r, s) := call_store s now c in
      let '(rs, s) := run_calls calls s in (r :: rs, s)
  end.

Definition spec_call (now : string) (c : StoreCall) (m : gmap string WorkerState) : result StoreError WorkerState * gmap string WorkerState :=
  match c with
  | Register i => let '(w, m') := spec_register now i m in (Ok w, m')
  | Append id record => spec_update id (appended now record) m
  | Claim id claim => spec_update id (claimed now claim) m
  | Release id window => spec_update id (released now window) m
  end.

Fixpoint spec_calls (calls : list (string * StoreCall)) (m : gmap string WorkerState) : list (result StoreError WorkerState) * gmap string WorkerState :=
  match calls with
  | [] => ([], m)
  | (now, c) :: calls =>
      let '(r, m) := spec_call now c m in
      let '(rs, m) := spec_calls calls m in (r :: rs, m)
  end.

Lemma call_spec {St} `{StoreLaws St} (s : St) now c :
  sound s → kept_call c → let '(r, s') := call_store s now c in spec_call now c (contents s) = (r, contents s') ∧ sound s'.
Proof.
  intros Hs Hc. destruct c as [i|id record|id claim|id window]; cbn [call_store spec_call].
  - pose proof (law_register s now i Hs Hc) as Hl. destruct (registerWorker s now i) as [w s']. destruct Hl as [-> Hs']. done.
  - by apply law_append.
  - by apply law_claim.
  - by apply law_release.
Qed.

Lemma store_run_spec {St} `{StoreLaws St} calls : ∀ s : St,
  sound s → Forall (λ p, kept_call p.2) calls →
  let '(rs, s') := run_calls calls s in spec_calls calls (contents s) = (rs, contents s') ∧ sound s'.
Proof.
  induction calls as [|[now c] calls IH]; intros s Hs Hk; [done|]. apply Forall_cons in Hk as [Hc Hk]. cbn [run_calls spec_calls].
  pose proof (call_spec s now c Hs Hc) as Hl. destruct (call_store s now c) as [r s']. destruct Hl as [-> Hs'].
  specialize (IH s' Hs' Hk). destruct (run_calls calls s') as [rs s'']. by destruct IH as [-> Hs''].
Qed.

(** What every state that calls make has. *)
Record state_ok (id : string) (w : WorkerState) : Prop := {
  ok_id : workerId w = id;
  ok_version : schemaVersion w = WORKER_STATE_SCHEMA_VERSION;
  ok_start : lastFiredWindowStart w = windowStart <$> last (fireHistory w);
  ok_end : lastFiredWindowEnd w = windowEnd <$> last (fireHistory w);
  ok_claims : NoDup (windowId <$> activeClaims w);
  ok_metadata : kept (metadata w);
  ok_payloads : Forall (λ r, kept_payload (payload r)) (fireHistory w);
}.

Lemma filter_other_window window l :
  window ∉ windowId <$> List.filter (other_window window) l.
Proof.
  intros (c & Hc & Hin)%list_elem_of_fmap. apply elem_of_List_filter in Hin as [_ Hn]. unfold other_window in Hn.
  apply negb_true_iff, String.eqb_neq in Hn. congruence.
Qed.

Lemma filter_claims_sublist (f : WorkerClaimRecord → bool) l : (windowId <$> List.filter f l) `sublist_of` (windowId <$> l).
Proof. induction l as [|c l IH]; [constructor|]. cbn. destruct (f c); cbn; [by apply sublist_skip|by apply sublist_cons]. Qed.

Lemma registered_ok now i : kept (default (JObj []) (in_metadata i)) → state_ok (in_workerId i) (registered now i).
Proof. intros Hk. split; try done; constructor. Qed.

Lemma appended_ok now id record w : kept_payload (payload record) → state_ok id w → state_ok id (appended now record w).
Proof. intros Hp []. split; cbn; rewrite ?last_snoc; try done. apply Forall_app. split; [done|by constructor]. Qed.

Lemma released_ok now id window w : state_ok id w → state_ok id (released now window w).
Proof. intros []. split; try done. eapply sublist_NoDup; [exact ok_claims0|]. apply filter_claims_sublist. Qed.

Lemma claimed_ok now id claim w : state_ok id w → state_ok id (claimed now claim w).
Proof.
  intros []. split; try done. cbn. rewrite fmap_app. apply NoDup_snoc. split; [|apply filter_other_window].
  eapply sublist_NoDup; [exact ok_claims0|]. apply filter_claims_sublist.
Qed.

Definition states_ok (m : gmap string WorkerState) : Prop := map_Forall state_ok m.

Lemma spec_update_ok id f m : (∀ w, state_ok id w → state_ok id (f w)) → states_ok m → states_ok (spec_update id f m).2.
Proof.
  intros Hf Hm. unfold spec_update. destruct (m !! id) as [w|] eqn:Hw; [|done]. apply map_Forall_insert_2; [|done]. apply Hf. by apply Hm.
Qed.

Lemma spec_call_ok now c m : kept_call c → states_ok m → states_ok (spec_call now c m).2.
Proof.
  intros Hc Hm. destruct c as [i|id record|id claim|id window]; cbn [spec_call].
  - unfold spec_register. destruct (m !! in_workerId i); [done|]. apply map_Forall_insert_2; [|done]. by apply registered_ok.
  - apply spec_update_ok; [|done]. intros w. by apply appended_ok.
  - apply spec_update_ok; [|done]. intros w. apply claimed_ok.
  - apply spec_update_ok; [|done]. intros w. apply released_ok.
Qed.

Lemma spec_calls_ok calls : ∀ m, Forall (λ p, kept_call p.2) calls → states_ok m → states_ok (spec_calls calls m).2.
Proof.
  induction calls as [|[now c] calls IH]; intros m Hk Hm; [done|]. apply Forall_cons in Hk as [Hc Hk]. cbn [spec_calls].
  pose proof (spec_call_ok now c m Hc Hm) as Hm'. destruct (spec_call now c m) as [r m'].
  specialize (IH m' Hk Hm'). by destruct (spec_calls calls m').
Qed.





(** ** The copy *)

(** A state without the time of its last change. *)
Definition undated (w : WorkerState) : WorkerState := with_claims "" (activeClaims w) w.

(** What a history makes of a state, but for the time. *)
Definition extended (w : WorkerState) (l : list WorkerFireRecord) : WorkerState := foldl (λ w r, appended "" r w) w l.
Definition claimed_all (w : WorkerState) (l : list WorkerClaimRecord) : WorkerState := foldl (λ w c, claimed "" c w) w l.

Lemma undated_appended now r w w' : undated w = undated w' → undated (appended now r w) = undated (appended "" r w').
Proof. destruct w, w'. by intros [= -> -> -> -> -> -> -> ->]. Qed.

Lemma undated_claimed now c w w' : undated w = undated w' → undated (claimed now c w) = undated (claimed "" c w').
Proof. destruct w, w'. by intros [= -> -> -> -> -> -> -> ->]. Qed.

Lemma undated_extended l : ∀ w w', undated w = undated w' → undated (extended w l) = undated (extended w' l).
Proof. induction l as [|r l IH]; [done|]. intros w w' Hw. apply IH. by apply undated_appended. Qed.

Lemma undated_claims l : ∀ w w', undated w = undated w' → undated (claimed_all w l) = undated (claimed_all w' l).
Proof. induction l as [|r l IH]; [done|]. intros w w' Hw. apply IH. by apply undated_claimed. Qed.

Section copy.
Context {St : Type} `{Laws : StoreLaws St} (clock : string → nat → string).

Lemma copy_records_spec id l : ∀ k (t : St) w,
  sound t → contents t !! id = Some w → Forall (λ r, kept_payload (payload r)) l →
  ∃ t' w', copy_records clock id k l t = Ok t' ∧ sound t' ∧ contents t' = <[id := w']> (contents t) ∧ undated w' = undated (extended w l).
Proof using Type.
  induction l as [|r l IH]; intros k t w Ht Hw Hl; [exists t, w; by rewrite insert_id|].
  apply Forall_cons in Hl as [Hr Hl]. cbn [copy_records]. pose proof (law_append t (clock id k) id r Ht Hr) as Ha.
  destruct (appendFireRecord t (clock id k) id r) as [r' t1]. unfold spec_update in Ha. rewrite Hw in Ha.
  destruct Ha as [[= <- H1] Ht1]. destruct (IH (1 + k) t1 (appended (clock id k) r w)) as (t2 & w2 & -> & H2 & H3 & H4); [done| |done|].
  { rewrite <-H1. apply lookup_insert_eq. }
  exists t2, w2. split_and!; [done|done|by rewrite H3, <-H1, insert_insert_eq|]. rewrite H4. change (extended w (r :: l)) with (extended (appended "" r w) l).
  apply undated_extended. by apply undated_appended.
Qed.

Lemma copy_claims_spec id l : ∀ k (t : St) w,
  sound t → contents t !! id = Some w →
  ∃ t' w', copy_claims clock id k l t = Ok t' ∧ sound t' ∧ contents t' = <[id := w']> (contents t) ∧ undated w' = undated (claimed_all w l).
Proof using Type.
  induction l as [|c l IH]; intros k t w Ht Hw; [exists t, w; by rewrite insert_id|].
  cbn [copy_claims]. pose proof (law_claim t (clock id k) id c Ht) as Ha.
  destruct (writeClaim t (clock id k) id c) as [r' t1]. unfold spec_update in Ha. rewrite Hw in Ha.
  destruct Ha as [[= <- H1] Ht1]. destruct (IH (1 + k) t1 (claimed (clock id k) c w)) as (t2 & w2 & -> & H2 & H3 & H4); [done| |].
  { rewrite <-H1. apply lookup_insert_eq. }
  exists t2, w2. split_and!; [done|done|by rewrite H3, <-H1, insert_insert_eq|]. rewrite H4. change (claimed_all w (c :: l)) with (claimed_all (claimed "" c w) l).
  apply undated_claims. by apply undated_claimed.
Qed.

Lemma extended_fields l : ∀ w,
  extended w l = {| schemaVersion := schemaVersion w; workerId := workerId w; registeredAt := registeredAt w;
    updatedAt := match l with [] => updatedAt w | _ => "" end;
    lastFiredWindowStart := match last l with Some r => Some (windowStart r) | None => lastFiredWindowStart w end;
    lastFiredWindowEnd := match last l with Some r => Some (windowEnd r) | None => lastFiredWindowEnd w end;
    fireHistory := fireHistory w ++ l; activeClaims := activeClaims w; metadata := metadata w |}.
Proof using Type.
  induction l as [|r l IH]; intros w; [cbn; rewrite app_nil_r; by destruct w|]. unfold extended in *. cbn [foldl]. rewrite IH.
  cbn. rewrite <-app_assoc. destruct l as [|r' l]; [done|]. cbn. by destruct (last (r' :: l)) eqn:Hl; [|apply last_None in Hl].
Qed.

Lemma filter_other_all window l : window ∉ windowId <$> l → List.filter (other_window window) l = l.
Proof using Type.
  induction l as [|c l IH]; [done|]. cbn. rewrite not_elem_of_cons. intros [Hc Hl]. unfold other_window at 1.
  destruct (String.eqb_spec (windowId c) window); [congruence|]. cbn. by rewrite IH.
Qed.

Lemma claimed_fields l : ∀ w, NoDup (windowId <$> activeClaims w ++ l) → undated (claimed_all w l) = undated (with_claims "" (activeClaims w ++ l) w).
Proof using Type.
  induction l as [|c l IH]; intros w Hnd; [by rewrite app_nil_r; destruct w|]. unfold claimed_all in *. cbn [foldl].
  assert (activeClaims (claimed "" c w) = activeClaims w ++ [c]) as Hc.
  { cbn. rewrite filter_other_all; [done|]. rewrite fmap_app, NoDup_app in Hnd. destruct Hnd as (_ & Hd & _). intros Hin. apply (Hd _ Hin). by left. }
  rewrite IH by (by rewrite Hc, <-app_assoc). rewrite Hc, <-app_assoc. done.
Qed.

(** A worker that the target does not have. *)
Lemma copy_worker_fresh (t : St) w :
  sound t → contents t !! workerId w = None → state_ok (workerId w) w →
  ∃ t' w', copy_worker clock w t = Ok t' ∧ sound t' ∧ contents t' = <[workerId w := w']> (contents t) ∧ undated w' = undated w.
Proof using Type.
  intros Ht Hn Hw. unfold copy_worker. set (i := {| in_workerId := workerId w; in_registeredAt := Some (registeredAt w); in_metadata := Some (metadata w) |}).
  pose proof (law_register t (clock (workerId w) 0) i Ht (ok_metadata _ _ Hw)) as Hr.
  destruct (registerWorker t (clock (workerId w) 0) i) as [w0 t0]. cbn [snd]. unfold spec_register in Hr. cbn [in_workerId i] in Hr.
  rewrite Hn in Hr. destruct Hr as [[= <- H0] Ht0].
  destruct (copy_records_spec (workerId w) (fireHistory w) 1 t0 (registered (clock (workerId w) 0) i)) as (t1 & w1 & Hc1 & Ht1 & H1 & Hu1);
    [done|rewrite <-H0; apply lookup_insert_eq|apply Hw|].
  rewrite Hc1. cbn [mbind result_bind].
  destruct (copy_claims_spec (workerId w) (activeClaims w) (1 + length (fireHistory w)) t1 w1) as (t2 & w2 & Hc2 & Ht2 & H2 & Hu2);
    [done|rewrite H1; apply lookup_insert_eq|].
  exists t2, w2. split_and!; [done|done|by rewrite H2, H1, <-H0, !insert_insert_eq|].
  rewrite Hu2. rewrite (undated_claims _ _ _ Hu1). rewrite extended_fields, claimed_fields by (cbn; apply Hw). cbn.
  destruct Hw as [_ Hv Hs He _ _ _]. destruct w as [a b c d e f g h m]. cbn in *. subst. by destruct (last g).
Qed.

Lemma copy_workers_fresh l : ∀ (t : St),
  sound t → (∀ w, w ∈ l → contents t !! workerId w = None ∧ state_ok (workerId w) w) → NoDup (workerId <$> l) →
  ∃ t', copy_workers clock l t = Ok t' ∧ sound t' ∧
        (∀ w, w ∈ l → undated <$> contents t' !! workerId w = Some (undated w)) ∧
        (∀ id, id ∉ workerId <$> l → contents t' !! id = contents t !! id).
Proof using Type.
  induction l as [|w l IH]; intros t Ht Hl Hnd; [exists t; by split_and!; [| |intros w Hw; inversion Hw|]|].
  cbn in Hnd. apply NoDup_cons in Hnd as [Hw Hnd]. destruct (Hl w) as [Hn Hok]; [left|].
  destruct (copy_worker_fresh t w Ht Hn Hok) as (t1 & w1 & Hc & Ht1 & H1 & Hu). cbn [copy_workers]. rewrite Hc. cbn [mbind result_bind].
  destruct (IH t1) as (t2 & Hc2 & Ht2 & Hin & Hout); [done| |done|].
  { intros w' Hw'. destruct (Hl w') as [Hn' Hok']; [by right|]. split; [|done]. rewrite H1, lookup_insert_ne; [done|].
    intros He. apply Hw. rewrite He. by apply list_elem_of_fmap_2. }
  exists t2. split_and!; [done|done| |].
  - intros w' [->|Hw']%elem_of_cons; [|by apply Hin]. rewrite Hout by done. rewrite H1, lookup_insert_eq. cbn. by rewrite Hu.
  - intros id [Hne Hid]%not_elem_of_cons. rewrite Hout by done. rewrite H1. by apply lookup_insert_ne.
Qed.
End copy.

Lemma listed_workers (m : gmap string WorkerState) : states_ok m → workerId <$> (map_to_list m).*2 = (map_to_list m).*1.
Proof.
  intros Hm. rewrite <-list_fmap_compose. apply list_fmap_ext. intros i [id w] Hi. cbn.
  apply list_elem_of_lookup_2, elem_of_map_to_list in Hi. apply (ok_id _ _ (Hm _ _ Hi)).
Qed.

Lemma migration_contents {St T} `{StoreLaws St, !WorkerStateStore T, !StoreLaws T} clock (s : St) (t : T) :
  sound s → states_ok (contents s) → sound t → contents t = ∅ →
  ∃ t', migrateWorkerState clock s t = Ok (size (contents s), t') ∧ ∀ id, undated <$> getWorker t' id = undated <$> getWorker s id.
Proof.
  intros Hs Hok Ht Hempty. destruct (law_all s Hs) as (l & Hl & Hp).
  assert (∀ w, w ∈ l ↔ contents s !! workerId w = Some w) as Hin.
  { intros w. rewrite Hp, list_elem_of_fmap. split.
    - intros ([id w'] & -> & Hw%elem_of_map_to_list). cbn. by rewrite (ok_id _ _ (Hok _ _ Hw)).
    - intros Hw. exists (workerId w, w). split; [done|by apply elem_of_map_to_list]. }
  assert (NoDup (workerId <$> l)) as Hnd.
  { rewrite Hp. rewrite listed_workers by done. apply NoDup_fst_map_to_list. }
  destruct (copy_workers_fresh clock l t) as (t' & Hc & Ht' & H1 & H2); [done| |done|].
  { intros w Hw%Hin. split; [by rewrite Hempty, lookup_empty|by apply Hok]. }
  exists t'. unfold migrateWorkerState. rewrite Hl. cbn [mbind result_bind]. rewrite Hc. cbn [mbind result_bind]. split.
  - rewrite Hp, length_fmap, length_map_to_list. done.
  - intros id. rewrite !law_get by done. destruct (contents s !! id) as [w|] eqn:Hw.
    + pose proof (ok_id _ _ (Hok _ _ Hw)) as Hid. assert (w ∈ l) as Hwl by (apply Hin; congruence).
      rewrite <-Hid. by apply H1.
    + rewrite H2, Hempty, lookup_empty; [done|]. intros (w & -> & Hwl%Hin)%list_elem_of_fmap. congruence.
Qed.

(** ** The theorems *)


(** C36: Copying a store that calls have filled to an empty one always ends well, says
    how many workers there are, and every worker is found in the target as it was in
    the source, but for the time of the last change; payloads are such as JSON keeps. *)
Theorem migration_exact {St T} `{StoreLaws St, !WorkerStateStore T, !StoreLaws T} clock (s0 : St) calls (t : T) :
  sound s0 → contents s0 = ∅ → Forall (λ p, kept_call p.2) calls → sound t → contents t = ∅ →
  let s := (run_calls calls s0).2 in
  ∃ t', migrateWorkerState clock s t = Ok (size (contents s), t') ∧ ∀ id, undated <$> getWorker t' id = undated <$> getWorker s id.
Proof.
  intros Hs0 He Hk Ht Hte. pose proof (store_run_spec calls s0 Hs0 Hk) as Hs. destruct (run_calls calls s0) as [rs s]. destruct Hs as [Hs Hss].
  apply migration_contents; [done| |done|done]. pose proof (spec_calls_ok calls (contents s0) Hk) as Hok. rewrite Hs in Hok. apply Hok.
  rewrite He. apply map_Forall_empty.
Qed.

(** *** Witnesses *)

#[export, program] Instance listing_as_made : Readdir := {| readdir l := l |}.
Next Obligation. done. Qed.

Definition sample_record (n : string) : WorkerFireRecord :=
  {| windowStart := "start" +:+ n; windowEnd := "end" +:+ n; firedAt := "at" +:+ n; payload := JUndef |}.
Definition sample_claim (window by_ : string) : WorkerClaimRecord :=
  {| windowId := window; claim_workerId := by_; claimedAt := "c"; expiresAt := "e" |}.
Definition sample_worker (id : string) : RegisterWorkerInput := {| in_workerId := id; in_registeredAt := None; in_metadata := None |}.

Definition sample_calls : list (string * StoreCall) :=
  [("t0", Register (sample_worker "org/pay roll")); ("t1", Append "org/pay roll" (sample_record "1"));
   ("t2", Claim "org/pay roll" (sample_claim "w" "a")); ("t3", Append "other" (sample_record "2"));
   ("t4", Append "org/pay roll" (sample_record "2"))].

Lemma sample_kept : Forall (λ p, kept_call p.2) sample_calls.
Proof. repeat constructor. Qed.


Lemma migration_exact_witness :
  let s := (run_calls sample_calls ([] : MemoryStore)).2 in
  ∃ t' : FileStore, migrateWorkerState (λ _ _, "later") s ([] : FileStore) = Ok (size (contents s), t') ∧
  (∀ id, undated <$> getWorker t' id = undated <$> getWorker s id).
Proof.
  apply (migration_exact (λ _ _, "later") ([] : MemoryStore) sample_calls ([] : FileStore)).
  - apply mwf_nil.
  - reflexivity.
  - exact sample_kept.
  - split; [apply mwf_nil|constructor].
  - reflexivity.
Defined.

(** *** What may surprise *)

(** Two appends that overlap: the later write is made of what the other had not yet
    written, and one record is gone. *)
Lemma overlapping_appends_lose_record :
  let s := (run_calls [("t0", Register (sample_worker "w"))] ([] : FileStore)).2 in
  let r := file_run [Reads (Append "w" (sample_record "1")); Reads (Append "w" (sample_record "2")); Writes 0 "t1"; Writes 0 "t2"]
                    {| fr_files := s; fr_open := [] |} in
  fireHistory <$> readRaw (fr_files r) "w" = Some [sample_record "2"].
Proof. reflexivity. Qed.

(** A file that is no JSON counts as none: registering the worker again replaces it,
    and with it the history it held. *)
Lemma damaged_file_is_replaced i now :
  let s := [(safeFilename (in_workerId i), NoJson)] : FileStore in
  (registerWorker s now i).2 = [(safeFilename (in_workerId i), StateJson (copy_state (registered now i)))].
Proof. cbn. unfold file_register, readRaw. cbn [mget]. rewrite decide_True by done. unfold writeAtomic. cbn [mset snd]. by rewrite decide_True. Qed.

(** Nothing keeps two workers from holding one window, nor one claim from taking the
    place of another's. *)
Lemma window_claimed_twice :
  let s := (run_calls [("t0", Register (sample_worker "a")); ("t0", Register (sample_worker "b"));
                       ("t1", Claim "a" (sample_claim "w" "a")); ("t2", Claim "b" (sample_claim "w" "b"));
                       ("t3", Claim "a" (sample_claim "w" "c"))] ([] : MemoryStore)).2 in
  (activeClaims <$> getWorker s "a", activeClaims <$> getWorker s "b") = (Some [sample_claim "w" "c"], Some [sample_claim "w" "b"]).
Proof. reflexivity. Qed.

(** One file whose name is no encoding keeps all workers from being listed. *)
Lemma foreign_name_rejects :
  getAllWorkers ([("100%.json", OtherJson); (safeFilename "w", StateJson (registered "t" (sample_worker "w")))] : FileStore) = Err BadFileName.
Proof. reflexivity. Qed.

(** A second copy doubles the histories. *)
Lemma second_copy_doubles :
  let s := (run_calls sample_calls ([] : MemoryStore)).2 in
  let copied t := match migrateWorkerState (λ _ _, "later") s t with Ok (_, t') => t' | Err _ => t end in
  (fireHistory <$> getWorker (copied (copied ([] : MemoryStore))) "org/pay roll")
  = Some ([sample_record "1"; sample_record "2"] ++ [sample_record "1"; sample_record "2"]).
Proof. reflexivity. Qed.
