(* ===== verification/DeadLetters.v ===== *)
(** * Dead letters and the health of receivers

    pulse-webhooks/src/MemoryDeadLetterStore.ts with DeadLetterStore.ts, and
    worker-core/src/WorkerDeadLetterStore.ts: what could not be delivered or
    submitted, kept up to a bound in the order it came, listed, replayed, and (for
    webhooks) the rate of failures of a url.  A replay stops while its handler runs.
    Events are JSON values, times are in milliseconds; rates are the binary64
    quotients of [Sponsorship]. *)

From Stdlib Require Import Sorted.
From S2P Require Import Prelude JsMap JsValue Decimal Sponsorship Retry.

(** ** What both stores do *)

Section entries.
Context {E : Type} (timestamp : E → Z).

(** The oldest go while there are too many. *)
Fixpoint evictOldestIfNeeded (maxEntries : Z) (entries : jsmap string E) : jsmap string E :=
  match entries with
  | [] => []
  | _ :: rest => if (maxEntries <? Z.of_nat (msize entries))%Z then evictOldestIfNeeded maxEntries rest else entries
  end.

(** [results.slice(0, limit)] *)
Definition slice_to (limit : option Z) (l : list E) : list E :=
  match limit with
  | None => l
  | Some n => if (n <? 0)%Z then take (length l - Z.to_nat (- n)) l else take (Z.to_nat n) l
  end.

Definition page (limit : option Z) (keep : E → bool) (entries : jsmap string E) : list E :=
  slice_to limit (sort_by timestamp (List.filter keep (mvals entries))).

Lemma evict_drop n entries :
  evictOldestIfNeeded n entries = drop (length entries - Z.to_nat (Z.max 0 n)) entries.
Proof using Type.
  induction entries as [|p rest IH]; [by rewrite drop_nil|]. cbn [evictOldestIfNeeded].
  unfold msize. destruct (Z.ltb_spec n (Z.of_nat (length (p :: rest)))) as [Hlt|Hge].
  - rewrite IH. cbn [length] in *. destruct (S (length rest) - Z.to_nat (Z.max 0 n)) as [|k] eqn:Hk; [lia|].
    cbn [drop]. f_equal. lia.
  - by replace (length (p :: rest) - Z.to_nat (Z.max 0 n)) with 0 by lia.
Qed.

Lemma evict_size n entries : msize (evictOldestIfNeeded n entries) = msize entries `min` Z.to_nat (Z.max 0 n).
Proof using Type. rewrite evict_drop. unfold msize. rewrite length_drop. lia. Qed.

Lemma evict_keys n entries : mkeys (evictOldestIfNeeded n entries) = drop (length entries - Z.to_nat (Z.max 0 n)) (mkeys entries).
Proof using Type. rewrite evict_drop. unfold mkeys. by rewrite fmap_drop. Qed.

(** A page is what passes, in the order of time and then of arrival, cut at the limit. *)
Lemma page_exact limit keep entries :
  ∃ all, page limit keep entries = slice_to limit all ∧ all ≡ₚ List.filter keep (mvals entries) ∧
         StronglySorted (key_le timestamp) all ∧
         (∀ t, base.filter (λ e, timestamp e = t) all = base.filter (λ e, timestamp e = t) (List.filter keep (mvals entries))).
Proof using Type.
  eexists. split; [reflexivity|]. split; [apply sort_by_perm|]. split; [apply sort_by_sorted|]. intros t. apply sort_by_stable.
Qed.
End entries.

Definition DEFAULT_MAX_ENTRIES : Z := 1000.

Definition passes {A} (o : option A) (test : A → bool) : bool := match o with None => true | Some a => test a end.

(** ** Webhooks *)

Record DeadLetterFailure := {
  df_url : string;
  df_event : jsval;
  df_error : string;
  df_attempts : Z;
  df_failedAt : option Z;
}.

Record DeadLetterEntry := {
  de_id : string;
  de_url : string;
  de_event : jsval;
  de_error : string;
  de_attempts : Z;
  de_timestamp : Z;
  de_replayedAt : option Z;
}.

Record DeadLetterFilter := {
  lf_url : option string;
  lf_since : option Z;
  lf_until : option Z;
  lf_limit : option Z;
}.

Record UrlMetrics := {
  um_lastSuccess : option Z;
  um_lastFailure : option Z;
  successCount : Z;
  failureCount : Z;
  successes : list Z;
  failures : list Z;
}.

Definition no_metrics : UrlMetrics :=
  {| um_lastSuccess := None; um_lastFailure := None; successCount := 0; failureCount := 0; successes := []; failures := [] |}.

Record DeliveryHealth := {
  healthy : bool;
  dh_lastSuccess : option Z;
  dh_lastFailure : option Z;
  dh_failureRate : jsnum;
}.

(** A store, with the counter that all stores share. *)
Record MemoryDeadLetterStore := {
  counter : N;
  ds_maxEntries : Z;
  ds_replayHandler : bool;
  ds_entries : jsmap string DeadLetterEntry;
  ds_metrics : jsmap string UrlMetrics;
}.

Definition new_store (counter : N) (maxEntries : option Z) (replay : bool) : MemoryDeadLetterStore :=
  {| counter := counter; ds_maxEntries := default DEFAULT_MAX_ENTRIES maxEntries; ds_replayHandler := replay; ds_entries := []; ds_metrics := [] |}.

Definition with_entries (n : N) (l : jsmap string DeadLetterEntry) (s : MemoryDeadLetterStore) : MemoryDeadLetterStore :=
  {| counter := n; ds_maxEntries := ds_maxEntries s; ds_replayHandler := ds_replayHandler s; ds_entries := l; ds_metrics := ds_metrics s |}.
Definition with_metrics (l : jsmap string UrlMetrics) (s : MemoryDeadLetterStore) : MemoryDeadLetterStore :=
  {| counter := counter s; ds_maxEntries := ds_maxEntries s; ds_replayHandler := ds_replayHandler s; ds_entries := ds_entries s; ds_metrics := l |}.
Definition setReplayHandler (s : MemoryDeadLetterStore) : MemoryDeadLetterStore :=
  {| counter := counter s; ds_maxEntries := ds_maxEntries s; ds_replayHandler := true; ds_entries := ds_entries s; ds_metrics := ds_metrics s |}.

(** [dlq_${++counter}_${timestamp}_${random}] *)
Definition entry_id (n : N) (timestamp : Z) (random : string) : string :=
  "dlq_" +:+ pretty n +:+ "_" +:+ pretty timestamp +:+ "_" +:+ random.

Definition record (failure : DeadLetterFailure) (now : Z) (random : string) (s : MemoryDeadLetterStore) : string * MemoryDeadLetterStore :=
  let timestamp := default now (df_failedAt failure) in
  let n := (counter s + 1)%N in
  let id := entry_id n timestamp random in
  let entry := {| de_id := id; de_url := df_url failure; de_event := df_event failure; de_error := df_error failure;
                  de_attempts := df_attempts failure; de_timestamp := timestamp; de_replayedAt := None |} in
  (id, with_entries n (evictOldestIfNeeded (ds_maxEntries s) (mset id entry (ds_entries s))) s).

(** The older method, which reads the clock twice. *)
Definition add (url : string) (event : jsval) (error : string) (attempts now now' : Z) (random : string) (s : MemoryDeadLetterStore) : string * MemoryDeadLetterStore :=
  let n := (counter s + 1)%N in
  let id := entry_id n now random in
  let entry := {| de_id := id; de_url := url; de_event := event; de_error := error; de_attempts := attempts; de_timestamp := now'; de_replayedAt := None |} in
  (id, with_entries n (evictOldestIfNeeded (ds_maxEntries s) (mset id entry (ds_entries s))) s).

Definition list_failures (f : DeadLetterFilter) (s : MemoryDeadLetterStore) : list DeadLetterEntry :=
  page de_timestamp (lf_limit f)
    (λ e, passes (lf_url f) (String.eqb (de_url e)) && passes (lf_since f) (λ t, t <=? de_timestamp e)%Z && passes (lf_until f) (λ t, de_timestamp e <=? t)%Z)
    (ds_entries s).

Inductive ReplayError := UnknownFailure | NoReplayHandler | HandlerRejected.

(** [replay] up to the call of the handler, which gets the entry, and after it. *)
Definition replay_begin (id : string) (s : MemoryDeadLetterStore) : result ReplayError DeadLetterEntry :=
  match mget id (ds_entries s) with
  | None => Err UnknownFailure
  | Some entry => if ds_replayHandler s then Ok entry else Err NoReplayHandler
  end.

Definition replayed (now : Z) (e : DeadLetterEntry) : DeadLetterEntry :=
  {| de_id := de_id e; de_url := de_url e; de_event := de_event e; de_error := de_error e; de_attempts := de_attempts e;
     de_timestamp := de_timestamp e; de_replayedAt := Some now |}.

Definition replay_end (id : string) (handled : bool) (now : Z) (s : MemoryDeadLetterStore) : result ReplayError unit * MemoryDeadLetterStore :=
  if handled then
    (Ok tt, match mget id (ds_entries s) with
            | Some e => with_entries (counter s) (mset id (replayed now e) (ds_entries s)) s
            | None => s   (** evicted or removed meanwhile: only the handler's object is marked *)
            end)
  else (Err HandlerRejected, s).

Definition get (id : string) (s : MemoryDeadLetterStore) : option DeadLetterEntry := mget id (ds_entries s).
Definition remove (id : string) (s : MemoryDeadLetterStore) : bool * MemoryDeadLetterStore :=
  (mhas id (ds_entries s), with_entries (counter s) (mdel id (ds_entries s)) s).
Definition clear (s : MemoryDeadLetterStore) : MemoryDeadLetterStore := with_metrics [] (with_entries (counter s) [] s).

(** *** Health *)

Definition HOUR : Z := 60 * 60 * 1000.
Definition QUARTER : Z := 15 * 60 * 1000.

Definition after (cutoff : Z) (l : list Z) : list Z := List.filter (λ ts, cutoff <? ts)%Z l.

Definition pruneOldEntries (now : Z) (m : UrlMetrics) : UrlMetrics :=
  {| um_lastSuccess := um_lastSuccess m; um_lastFailure := um_lastFailure m; successCount := successCount m; failureCount := failureCount m;
     successes := after (now - HOUR) (successes m); failures := after (now - HOUR) (failures m) |}.

Definition getOrCreateMetrics (url : string) (s : MemoryDeadLetterStore) : UrlMetrics := default no_metrics (mget url (ds_metrics s)).

(** [now] is the clock when the old ones are dropped. *)
Definition recordSuccess (url : string) (timestamp now : Z) (s : MemoryDeadLetterStore) : MemoryDeadLetterStore :=
  let m := getOrCreateMetrics url s in
  with_metrics (mset url (pruneOldEntries now
    {| um_lastSuccess := Some timestamp; um_lastFailure := um_lastFailure m; successCount := successCount m + 1; failureCount := failureCount m;
       successes := successes m ++ [timestamp]; failures := failures m |}) (ds_metrics s)) s.

Definition recordFailure (url : string) (timestamp now : Z) (s : MemoryDeadLetterStore) : MemoryDeadLetterStore :=
  let m := getOrCreateMetrics url s in
  with_metrics (mset url (pruneOldEntries now
    {| um_lastSuccess := um_lastSuccess m; um_lastFailure := Some timestamp; successCount := successCount m; failureCount := failureCount m + 1;
       successes := successes m; failures := failures m ++ [timestamp] |}) (ds_metrics s)) s.

(** [Math.round(x)] and [x * c] of a non-negative number. *)
Definition math_round (x : jsnum) : Z := match x with JFin m k => (2 * m + 2 ^ Z.of_nat k) / 2 ^ (Z.of_nat k + 1) | _ => 0 end%Z.
Definition js_mul (x : jsnum) (c : Z) : jsnum := match x with JFin m k => rounded_quotient (m * c) (2 ^ Z.of_nat k) | _ => x end.

(** [Math.round(rate * 10000) / 100] *)
Definition percent (rate : jsnum) : jsnum := rounded_quotient (math_round (js_mul rate 10000)) 100.

Definition ratio (failed succeeded : nat) : jsnum :=
  if failed + succeeded =? 0 then jint 0 else rounded_quotient (Z.of_nat failed) (Z.of_nat (failed + succeeded)).

Definition rate_of (cutoff : Z) (m : UrlMetrics) : jsnum := ratio (length (after cutoff (failures m))) (length (after cutoff (successes m))).

Definition failureRate (url : string) (windowMs now : Z) (s : MemoryDeadLetterStore) : jsnum :=
  match mget url (ds_metrics s) with
  | None => jint 0
  | Some m => percent (rate_of (now - windowMs) m)
  end.

(** [0.05] *)
Definition five_percent : jsnum := rounded_quotient 5 100.

Definition getHealth (url : string) (now : Z) (s : MemoryDeadLetterStore) : DeliveryHealth :=
  match mget url (ds_metrics s) with
  | None => {| healthy := false; dh_lastSuccess := None; dh_lastFailure := None; dh_failureRate := jint 0 |}
  | Some m =>
      let rate := rate_of (now - HOUR) m in
      {| healthy := negb (js_ge rate five_percent) && existsb (λ ts, now - QUARTER <? ts)%Z (after (now - HOUR) (successes m));
         dh_lastSuccess := um_lastSuccess m; dh_lastFailure := um_lastFailure m; dh_failureRate := percent rate |}
  end.

Definition getAllUrls (s : MemoryDeadLetterStore) : list string := mkeys (ds_metrics s).

(** *** The events of a watcher ([configureDeadLetterStore]) *)

Definition has_member (k : string) (v : jsval) : bool :=
  match v with JObj fs => existsb (λ f : string * jsval, String.eqb f.1 k) fs | _ => false end.

Definition of_failed (event : jsval) : option DeadLetterFailure :=
  let raw := prop event "raw" in
  if has_member "url" raw && negb (has_member "dlqId" raw) then
    Some {| df_url := match prop raw "url" with JStr u => u | _ => "" end; df_event := prop raw "originalEvent";
            df_error := match prop raw "error" with JStr e => e | _ => "" end;
            df_attempts := match prop raw "attempts" with JNum n => default 0%Z (as_integer n) | _ => 0%Z end; df_failedAt := None |}
  else None.

Definition of_dropped (event : jsval) : option DeadLetterFailure :=
  let raw := prop event "raw" in
  if has_member "url" raw then
    Some {| df_url := match prop raw "url" with JStr u => u | _ => "" end; df_event := prop raw "originalEvent";
            df_error := match prop raw "reason" with JStr e => e | _ => "" end; df_attempts := 0; df_failedAt := None |}
  else None.

Definition recorded_of (o : option DeadLetterFailure) (now : Z) (random : string) (s : MemoryDeadLetterStore) : MemoryDeadLetterStore :=
  match o with Some f => (record f now random s).2 | None => s end.

(** ** Workers *)

Inductive Outcome := terminal | window_expired | max_attempts.
#[export] Instance Outcome_eq_dec : EqDecision Outcome.
Proof. solve_decision. Defined.

Record WorkerDeadLetterInput := {
  wi_submissionId : string;
  wi_error : string;
  wi_attempts : Z;
  wi_failures : list SubmissionFailure;
  wi_outcome : Outcome;
  wi_windowDeadlineMs : Z;
  wi_miss : bool;
  wi_terminalKind : option SubmissionFailureKind;
  wi_failedAt : option Z;
  wi_metadata : jsval;
}.

Record WorkerDeadLetterEntry := {
  we_input : WorkerDeadLetterInput;
  we_id : string;
  we_timestamp : Z;
  we_replayedAt : option Z;
}.

Record WorkerDeadLetterFilter := {
  wf_submissionId : option string;
  wf_outcome : option Outcome;
  wf_terminalKind : option SubmissionFailureKind;
  wf_miss : option bool;
  wf_since : option Z;
  wf_until : option Z;
  wf_limit : option Z;
}.

Record MemoryWorkerDeadLetterStore := {
  ws_maxEntries : Z;
  ws_replayHandler : bool;
  ws_entries : jsmap string WorkerDeadLetterEntry;
}.

Definition new_worker_store (maxEntries : option Z) (replay : bool) : MemoryWorkerDeadLetterStore :=
  {| ws_maxEntries := default DEFAULT_MAX_ENTRIES maxEntries; ws_replayHandler := replay; ws_entries := [] |}.

Definition with_worker_entries (l : jsmap string WorkerDeadLetterEntry) (s : MemoryWorkerDeadLetterStore) : MemoryWorkerDeadLetterStore :=
  {| ws_maxEntries := ws_maxEntries s; ws_replayHandler := ws_replayHandler s; ws_entries := l |}.

(** [uuid] is what [randomUUID] gives. *)
Definition worker_record (input : WorkerDeadLetterInput) (now : Z) (uuid : string) (s : MemoryWorkerDeadLetterStore) : string * MemoryWorkerDeadLetterStore :=
  let id := "wdlq_" +:+ uuid in
  let entry := {| we_input := input; we_id := id; we_timestamp := default now (wi_failedAt input); we_replayedAt := None |} in
  (id, with_worker_entries (evictOldestIfNeeded (ws_maxEntries s) (mset id entry (ws_entries s))) s).

Definition worker_get (id : string) (s : MemoryWorkerDeadLetterStore) : option WorkerDeadLetterEntry := mget id (ws_entries s).

Definition worker_filter (f : WorkerDeadLetterFilter) (e : WorkerDeadLetterEntry) : bool :=
  let i := we_input e in
  passes (wf_submissionId f) (String.eqb (wi_submissionId i)) &&
  passes (wf_outcome f) (λ o, bool_decide (wi_outcome i = o)) &&
  passes (wf_terminalKind f) (λ k, bool_decide (wi_terminalKind i = Some k)) &&
  passes (wf_miss f) (Bool.eqb (wi_miss i)) &&
  passes (wf_since f) (λ t, t <=? we_timestamp e)%Z &&
  passes (wf_until f) (λ t, we_timestamp e <=? t)%Z.

Definition worker_list (f : WorkerDeadLetterFilter) (s : MemoryWorkerDeadLetterStore) : list WorkerDeadLetterEntry :=
  page we_timestamp (wf_limit f) (worker_filter f) (ws_entries s).

Definition worker_replay_begin (id : string) (s : MemoryWorkerDeadLetterStore) : result ReplayError WorkerDeadLetterEntry :=
  match mget id (ws_entries s) with
  | None => Err UnknownFailure
  | Some entry => if ws_replayHandler s then Ok entry else Err NoReplayHandler
  end.

Definition worker_replay_end (id : string) (handled : bool) (now : Z) (s : MemoryWorkerDeadLetterStore) : result ReplayError unit * MemoryWorkerDeadLetterStore :=
  if handled then
    (Ok tt, match mget id (ws_entries s) with
            | Some e => with_worker_entries (mset id {| we_input := we_input e; we_id := we_id e; we_timestamp := we_timestamp e; we_replayedAt := Some now |} (ws_entries s)) s
            | None => s
            end)
  else (Err HandlerRejected, s).

Definition worker_delete (id : string) (s : MemoryWorkerDeadLetterStore) : bool * MemoryWorkerDeadLetterStore :=
  (mhas id (ws_entries s), with_worker_entries (mdel id (ws_entries s)) s).
Definition worker_clear (s : MemoryWorkerDeadLetterStore) : MemoryWorkerDeadLetterStore := with_worker_entries [] s.

(** ** Lemmas *)

(** *** Ids *)

Fixpoint until_underscore (s : string) : string :=
  match s with
  | "" => ""
  | String c rest => if Ascii.eqb c "_" then "" else String c (until_underscore rest)
  end.

Lemma until_digits s t : all_digits s = true → until_underscore (s +:+ String "_" t) = s.
Proof.
  induction s as [|c s IH]; [done|]. cbn [all_digits String.append until_underscore]. intros [Hc Hs]%andb_true_iff.
  destruct (Ascii.eqb_spec c "_") as [->|_]; [|by rewrite IH]. by rewrite bool_decide_eq_true in Hc; destruct Hc.
Qed.

Lemma entry_id_counter n n' t t' r r' : entry_id n t r = entry_id n' t' r' → n = n'.
Proof.
  unfold entry_id. intros He. apply (f_equal (λ s, match s with String _ (String _ (String _ (String _ s))) => until_underscore s | _ => "" end)) in He.
  cbn [String.append] in He. rewrite !until_digits in He by apply all_digits_pretty. by apply (inj pretty) in He.
Qed.

(** *** What is recorded, kept and evicted *)

Record store_ok (s : MemoryDeadLetterStore) : Prop := {
  so_wf : mwf (ds_entries s);
  so_size : (Z.of_nat (msize (ds_entries s)) ≤ Z.max 0 (ds_maxEntries s))%Z;
  so_ids : ∀ id, id ∈ mkeys (ds_entries s) → ∃ n t r, id = entry_id n t r ∧ (n ≤ counter s)%N;
}.

Inductive DlCall :=
  | CallRecord (f : DeadLetterFailure) (now : Z) (random : string)
  | CallAdd (url : string) (event : jsval) (error : string) (attempts now now' : Z) (random : string)
  | CallReplayed (id : string) (handled : bool) (now : Z)
  | CallRemove (id : string)
  | CallClear
  | CallSetHandler
  | CallSuccess (url : string) (timestamp now : Z)
  | CallFailure (url : string) (timestamp now : Z).

Definition dl_call (c : DlCall) (s : MemoryDeadLetterStore) : MemoryDeadLetterStore :=
  match c with
  | CallRecord f now random => (record f now random s).2
  | CallAdd url event error attempts now now' random => (add url event error attempts now now' random s).2
  | CallReplayed id handled now => (replay_end id handled now s).2
  | CallRemove id => (remove id s).2
  | CallClear => clear s
  | CallSetHandler => setReplayHandler s
  | CallSuccess url timestamp now => recordSuccess url timestamp now s
  | CallFailure url timestamp now => recordFailure url timestamp now s
  end.

Definition dl_run (cs : list DlCall) (s : MemoryDeadLetterStore) : MemoryDeadLetterStore := foldl (λ s c, dl_call c s) s cs.

Lemma fresh_entry s t r : store_ok s → entry_id (counter s + 1) t r ∉ mkeys (ds_entries s).
Proof. intros [_ _ Hid] (n & t' & r' & He%entry_id_counter & Hn)%Hid. lia. Qed.

(** Setting a new key keeps the newest entries. *)
Lemma evict_set_ok s t r e :
  store_ok s →
  let l := evictOldestIfNeeded (ds_maxEntries s) (mset (entry_id (counter s + 1) t r) e (ds_entries s)) in
  store_ok (with_entries (counter s + 1) l s) ∧
  l = drop (S (msize (ds_entries s)) - Z.to_nat (Z.max 0 (ds_maxEntries s))) (ds_entries s ++ [(entry_id (counter s + 1) t r, e)]).
Proof.
  intros Hok l. pose proof (fresh_entry s t r Hok) as Hf. destruct Hok as [Hwf Hs Hid].
  assert (l = drop (S (msize (ds_entries s)) - Z.to_nat (Z.max 0 (ds_maxEntries s))) (ds_entries s ++ [(entry_id (counter s + 1) t r, e)])) as Hl.
  { unfold l. rewrite mset_fresh by done. rewrite evict_drop, length_app. unfold msize. f_equal. cbn [length]. lia. }
  split; [|done]. split; cbn [ds_entries ds_maxEntries counter with_entries].
  - rewrite Hl. unfold mwf, mkeys. rewrite fmap_drop. eapply sublist_NoDup; [|apply sublist_drop]. rewrite fmap_app. apply NoDup_snoc. done.
  - unfold l. rewrite evict_size. lia.
  - intros id Hin. rewrite Hl in Hin. unfold mkeys in Hin. rewrite fmap_drop in Hin. apply subseteq_drop in Hin. rewrite fmap_app in Hin.
    apply elem_of_app in Hin as [Hin|Hin%list_elem_of_singleton].
    + destruct (Hid _ Hin) as (n & t' & r' & -> & Hn). exists n, t', r'. split; [done|lia].
    + subst id. eexists _, _, _. split; [reflexivity|]. lia.
Qed.

Lemma dl_call_ok c s : store_ok s → store_ok (dl_call c s).
Proof.
  intros Hok. destruct c as [f now random|url event error attempts now now' random|id [] now|id| | |url t now|url t now]; cbn [dl_call].
  - by apply evict_set_ok.
  - by apply evict_set_ok.
  - unfold replay_end. cbn [snd]. destruct (mget id (ds_entries s)) as [e|] eqn:He; [|done]. apply mget_Some_key in He.
    destruct Hok as [Hwf Hs Hid]. split; cbn [ds_entries ds_maxEntries counter with_entries]; [by apply mwf_mset|by rewrite msize_mset_present|].
    intros id'. rewrite mkeys_mset_present by done. apply Hid.
  - done.
  - destruct Hok as [Hwf Hs Hid]. split; cbn [ds_entries ds_maxEntries counter with_entries remove snd]; [by apply mwf_mdel| |].
    + pose proof (sublist_length _ _ (mkeys_mdel_sublist id (ds_entries s))) as Hl. rewrite <-!msize_mkeys in Hl. lia.
    + intros id' Hin. apply Hid. eapply elem_of_submseteq; [exact Hin|]. apply sublist_submseteq, mkeys_mdel_sublist.
  - split; cbn; [apply mwf_nil|unfold msize; cbn; lia|]. intros id Hin. by apply not_elem_of_nil in Hin.
  - by destruct Hok.
  - by destruct Hok.
  - by destruct Hok.
Qed.

Lemma dl_run_ok cs : ∀ s, store_ok s → store_ok (dl_run cs s).
Proof. induction cs as [|c cs IH]; [done|]. intros s Hs. apply IH. by apply dl_call_ok. Qed.

Lemma new_store_ok n maxEntries replay : store_ok (new_store n maxEntries replay).
Proof. split; cbn; [apply mwf_nil|unfold msize; cbn; lia|]. intros id Hin. by apply not_elem_of_nil in Hin. Qed.

(** *** Health without forgetting *)

(** What was told of a url, and when the old was dropped. *)
Inductive Mark := Delivered (url : string) (timestamp now : Z) | Missed (url : string) (timestamp now : Z).

Definition mark (m : Mark) (s : MemoryDeadLetterStore) : MemoryDeadLetterStore :=
  match m with Delivered url timestamp now => recordSuccess url timestamp now s | Missed url timestamp now => recordFailure url timestamp now s end.
Definition marks (ms : list Mark) (s : MemoryDeadLetterStore) : MemoryDeadLetterStore := foldl (λ s m, mark m s) s ms.
Definition mark_now (m : Mark) : Z := match m with Delivered _ _ now | Missed _ _ now => now end.

Definition delivered (url : string) (ms : list Mark) : list Z :=
  omap (λ m, match m with Delivered u t _ => if String.eqb u url then Some t else None | _ => None end) ms.
Definition missed (url : string) (ms : list Mark) : list Z :=
  omap (λ m, match m with Missed u t _ => if String.eqb u url then Some t else None | _ => None end) ms.

(** The metrics that forget nothing. *)
Definition full_metrics (url : string) (ms : list Mark) : UrlMetrics :=
  {| um_lastSuccess := last (delivered url ms); um_lastFailure := last (missed url ms);
     successCount := Z.of_nat (length (delivered url ms)); failureCount := Z.of_nat (length (missed url ms));
     successes := delivered url ms; failures := missed url ms |}.

Definition told (url : string) (ms : list Mark) : bool := negb ((length (delivered url ms) =? 0) && (length (missed url ms) =? 0)).

Lemma after_app c l l' : after c (l ++ l') = after c l ++ after c l'.
Proof. unfold after. by rewrite List.filter_app. Qed.

(** Dropping what a later cut drops anyway changes nothing. *)
Lemma after_after c c' l : (c' ≤ c)%Z → after c (after c' l) = after c l.
Proof.
  intros Hc. induction l as [|t l IH]; [done|]. unfold after in *. cbn [List.filter].
  destruct (Z.ltb_spec c' t) as [H1|H1]; cbn [List.filter]; [by rewrite IH|].
  destruct (Z.ltb_spec c t); [lia|done].
Qed.

(** Metrics that agree from a time on. *)
Record agree (c : Z) (m m' : UrlMetrics) : Prop := {
  ag_lastSuccess : um_lastSuccess m = um_lastSuccess m';
  ag_lastFailure : um_lastFailure m = um_lastFailure m';
  ag_successes : after c (successes m) = after c (successes m');
  ag_failures : after c (failures m) = after c (failures m');
}.

Lemma delivered_snoc url ms m : delivered url (ms ++ [m]) = delivered url ms ++ delivered url [m].
Proof. unfold delivered. by rewrite omap_app. Qed.
Lemma missed_snoc url ms m : missed url (ms ++ [m]) = missed url ms ++ missed url [m].
Proof. unfold missed. by rewrite omap_app. Qed.

Lemma last_snoc_or {A} (l : list A) (o : list A) : last (l ++ o) = match last o with Some x => Some x | None => last l end.
Proof.
  destruct o as [|x o _] using rev_ind; [by rewrite app_nil_r|]. by rewrite app_assoc, !last_snoc.
Qed.

Definition holds (s : MemoryDeadLetterStore) (ms : list Mark) (c : Z) : Prop :=
  ∀ url, match mget url (ds_metrics s) with
         | None => told url ms = false
         | Some m => told url ms = true ∧ agree c m (full_metrics url ms)
         end.

Lemma told_snoc_other url m ms :
  delivered url [m] = [] → missed url [m] = [] → told url (ms ++ [m]) = told url ms ∧ full_metrics url (ms ++ [m]) = full_metrics url ms.
Proof. intros Hd Hm. unfold told, full_metrics. by rewrite delivered_snoc, missed_snoc, Hd, Hm, !app_nil_r. Qed.

Lemma untold url ms : told url ms = false → delivered url ms = [] ∧ missed url ms = [].
Proof.
  unfold told. intros [H1%Nat.eqb_eq H2%Nat.eqb_eq]%negb_false_iff%andb_true_iff. split; by apply nil_length_inv.
Qed.

Lemma told_snoc url m ms : delivered url [m] ≠ [] ∨ missed url [m] ≠ [] → told url (ms ++ [m]) = true.
Proof.
  intros Hm. unfold told. rewrite delivered_snoc, missed_snoc, !length_app. apply negb_true_iff, andb_false_iff.
  destruct Hm as [Hm|Hm]; [left|right]; apply Nat.eqb_neq.
  - destruct (delivered url [m]); [done|cbn; lia].
  - destruct (missed url [m]); [done|cbn; lia].
Qed.

Lemma delivered_one u url t now : delivered url [Delivered u t now] = if String.eqb u url then [t] else [].
Proof. unfold delivered. cbn. by destruct (String.eqb u url). Qed.
Lemma missed_one u url t now : missed url [Missed u t now] = if String.eqb u url then [t] else [].
Proof. unfold missed. cbn. by destruct (String.eqb u url). Qed.

Lemma holds_mark s ms m c : (mark_now m - HOUR ≤ c)%Z → holds s ms c → holds (mark m s) (ms ++ [m]) c.
Proof.
  intros Hc Hs url. specialize (Hs url) as Hu.
  assert (agree c (default no_metrics (mget url (ds_metrics s))) (full_metrics url ms)) as [H1 H2 H3 H4].
  { destruct (mget url (ds_metrics s)); [by destruct Hu|]. apply untold in Hu as [Hd Hm]. unfold full_metrics. by rewrite Hd, Hm. }
  destruct m as [u t now|u t now]; cbn [mark mark_now] in *; unfold recordSuccess, recordFailure; cbn [with_metrics ds_metrics]; rewrite mget_mset.
  - destruct (decide (u = url)) as [->|Hne].
    + split; [apply told_snoc; left; by rewrite delivered_one, String.eqb_refl|]. unfold getOrCreateMetrics, full_metrics.
      rewrite delivered_snoc, missed_snoc, delivered_one, String.eqb_refl. change (missed url [Delivered url t now]) with (@nil Z). rewrite app_nil_r.
      split; cbn [um_lastSuccess um_lastFailure successes failures pruneOldEntries]; [by rewrite last_snoc|done| |].
      * rewrite after_after by done. by rewrite !after_app, H3.
      * by rewrite after_after.
    + destruct (told_snoc_other url (Delivered u t now) ms) as [Ht Hf]; [rewrite delivered_one; destruct (String.eqb_spec u url); [congruence|done]|done|].
      rewrite Ht, Hf. done.
  - destruct (decide (u = url)) as [->|Hne].
    + split; [apply told_snoc; right; by rewrite missed_one, String.eqb_refl|]. unfold getOrCreateMetrics, full_metrics.
      rewrite delivered_snoc, missed_snoc, missed_one, String.eqb_refl. change (delivered url [Missed url t now]) with (@nil Z). rewrite app_nil_r.
      split; cbn [um_lastSuccess um_lastFailure successes failures pruneOldEntries]; [done|by rewrite last_snoc| |].
      * by rewrite after_after.
      * rewrite after_after by done. by rewrite !after_app, H4.
    + destruct (told_snoc_other url (Missed u t now) ms) as [Ht Hf]; [done|rewrite missed_one; destruct (String.eqb_spec u url); [congruence|done]|].
      rewrite Ht, Hf. done.
Qed.

Lemma holds_marks ms c : Forall (λ m, (mark_now m - HOUR ≤ c)%Z) ms → ∀ s, ds_metrics s = [] → holds (marks ms s) ms c.
Proof.
  intros Hms s Hs. induction ms as [|m ms IH] using rev_ind; [intros url; cbn; by rewrite Hs|].
  apply Forall_app in Hms as [Hms [Hm _]%Forall_cons]. unfold marks. rewrite foldl_app. cbn [foldl]. apply holds_mark; [exact Hm|by apply IH].
Qed.

(** What is asked for after a time only depends on what is after it. *)
Lemma agree_rate c c' m m' : (c ≤ c')%Z → agree c m m' → rate_of c' m = rate_of c' m' ∧ after c' (successes m) = after c' (successes m').
Proof.
  intros Hc [_ _ H3 H4]. unfold rate_of.
  rewrite <-(after_after c' c (failures m)), <-(after_after c' c (successes m)), H3, H4, !after_after by done. done.
Qed.

(** ** The theorems *)

(** A store of dead letters keeps the newest: in every state that calls lead to it
    holds at most its bound, and recording gives an id that no entry has and keeps
    exactly the newest of the entries and the new one, in the order they came. *)
Theorem newest_dead_letters_kept n maxEntries replay cs f now random :
  let s := dl_run cs (new_store n maxEntries replay) in
  let '(id, s') := record f now random s in
  let bound := Z.to_nat (Z.max 0 (ds_maxEntries s)) in
  msize (ds_entries s) ≤ bound ∧ mget id (ds_entries s) = None ∧
  (∃ e, de_id e = id ∧ de_url e = df_url f ∧ de_event e = df_event f ∧ de_timestamp e = default now (df_failedAt f) ∧
        ds_entries s' = drop (S (msize (ds_entries s)) - bound) (ds_entries s ++ [(id, e)])).
Proof.
  intros s. pose proof (dl_run_ok cs _ (new_store_ok n maxEntries replay)) as Hok. fold s in Hok.
  unfold record. split_and!.
  - destruct Hok as [_ Hs _]. lia.
  - apply mget_None. by apply fresh_entry.
  - eexists. split_and!; [| | | |apply (evict_set_ok s _ random _ Hok)]; done.
Qed.

(** C38: Forgetting what is older than an hour changes no health: after any marks, each
    made no later than now, the health of a url and its rate of failures over at most
    an hour are those of all that was ever told of it. *)
Theorem forgetting_unseen ms s url now windowMs :
  ds_metrics s = [] → Forall (λ m, (mark_now m ≤ now)%Z) ms → (windowMs ≤ HOUR)%Z →
  let full := full_metrics url ms in
  failureRate url windowMs now (marks ms s) = (if told url ms then percent (rate_of (now - windowMs) full) else jint 0) ∧
  getHealth url now (marks ms s)
  = (if told url ms then
       {| healthy := negb (js_ge (rate_of (now - HOUR) full) five_percent) && existsb (λ ts, now - QUARTER <? ts)%Z (after (now - HOUR) (delivered url ms));
          dh_lastSuccess := last (delivered url ms); dh_lastFailure := last (missed url ms); dh_failureRate := percent (rate_of (now - HOUR) full) |}
     else {| healthy := false; dh_lastSuccess := None; dh_lastFailure := None; dh_failureRate := jint 0 |}).
Proof.
  intros Hs Hms Hw full. assert (holds (marks ms s) ms (now - HOUR)) as Hh.
  { apply holds_marks; [|done]. eapply Forall_impl; [exact Hms|]. cbn. lia. }
  specialize (Hh url). unfold failureRate, getHealth. destruct (mget url (ds_metrics (marks ms s))) as [m|]; [|by rewrite Hh].
  destruct Hh as [-> Ha]. destruct (agree_rate (now - HOUR) (now - windowMs) m full) as [Hr _]; [lia|done|].
  destruct (agree_rate (now - HOUR) (now - HOUR) m full) as [Hr' Hs']; [lia|done|]. rewrite Hr, Hr', Hs'.
  destruct Ha as [-> -> _ _]. done.
Qed.

(** *** Witnesses *)

Definition sample_marks : list Mark :=
  [Delivered "u" 1000 1000; Missed "u" 2000 2000; Delivered "v" 3000 3000; Delivered "u" 4000000 4000000; Delivered "u" 4000500 4000500].

Lemma forgetting_unseen_witness :
  let s := marks sample_marks (new_store 0 None false) in
  failureRate "u" HOUR 4001000 s = jint 0 ∧ healthy (getHealth "u" 4001000 s) = true.
Proof.
  destruct (forgetting_unseen sample_marks (new_store 0 None false) "u" 4001000 HOUR) as [H1 H2];
    [reflexivity|repeat constructor; cbn; lia|reflexivity|].
  split; [rewrite H1; vm_compute; reflexivity|rewrite H2; vm_compute; reflexivity].
Defined.

(** *** What may surprise *)

(** A rate asked for over more than an hour is one over what is left of it. *)
Lemma long_window_is_cut :
  let s := marks [Missed "u" 0 0; Delivered "u" 7200000 7200000] (new_store 0 None false) in
  failureRate "u" (3 * HOUR) 7200000 s = jint 0 ∧
  rate_of (7200000 - 3 * HOUR) (full_metrics "u" [Missed "u" 0 0; Delivered "u" 7200000 7200000]) = rounded_quotient 1 2.
Proof. split; vm_compute; reflexivity. Qed.

(** A negative limit leaves out the last entries. *)
Lemma negative_limit {E} (l : list E) x : slice_to (Some (-1)%Z) (l ++ [x]) = l.
Proof. unfold slice_to. cbn. rewrite length_app. cbn [length]. replace (length l + 1 - Z.to_nat (- (-1))) with (length l) by lia. apply take_app_length. Qed.

(** A delivery that records what it drops, and a watcher that is tied to the same
    store, record it twice; what has failed is recorded once. *)
Definition dropped_event (event : jsval) (url : string) : jsval :=
  JObj [("raw", JObj [("reason", JStr "retry_cap_exceeded"); ("url", JStr url); ("maxConcurrentRetries", JNum (jint 100)); ("originalEvent", event)])].
Definition failed_event (event : jsval) (url error dlqId : string) (attempts : Z) : jsval :=
  JObj [("raw", JObj [("error", JStr error); ("url", JStr url); ("attempts", JNum (jint attempts)); ("originalEvent", event); ("dlqId", JStr dlqId)])].

Lemma dropped_recorded_twice event url now s :
  of_dropped (dropped_event event url)
  = Some {| df_url := url; df_event := event; df_error := "retry_cap_exceeded"; df_attempts := 0; df_failedAt := None |} ∧
  (∀ error dlqId attempts, of_failed (failed_event event url error dlqId attempts) = None) ∧
  counter (recorded_of (of_dropped (dropped_event event url)) now "r" s) = (counter s + 1)%N.
Proof. done. Qed.
