(* ===== verification/Receiver.v ===== *)
(** * The receiver that drops repeats, and the delays of retries

    pulse-webhooks/src/dedup.ts: a handler behind a set of seen ids.  The wrapped
    handler stops at its two awaits, so that calls overlap; each stretch between is a
    step.  pulse-webhooks/src/backoff.ts: the strategies for delays. *)

From stdpp Require Import gmap.
From S2P Require Import Prelude JsValue Sponsorship DeadLetters.

(** ** Repeats *)

Record MemoryDedupStore := { ids : gset string }.

Definition seen (id : string) (s : MemoryDedupStore) : bool := bool_decide (id ∈ ids s).
Definition mark_id (id : string) (s : MemoryDedupStore) : MemoryDedupStore := {| ids := {[id]} ∪ ids s |}.
Definition clear_ids (_ : MemoryDedupStore) : MemoryDedupStore := {| ids := ∅ |}.

(** [None] where it throws. *)
Definition DEFAULT_ID_EXTRACTOR (event : jsval) : option string := as_string (prop (prop event "raw") "id").

(** Where a call has stopped: after [seen] answered no, or after [mark]. *)
Inductive Phase := ToMark | ToHandle.

Record Receiver := {
  store : MemoryDedupStore;
  calls : list (string * jsval * Phase);
  handled : list (string * jsval);
}.

Definition new_receiver : Receiver := {| store := {| ids := ∅ |}; calls := []; handled := [] |}.

Inductive ReceiverStep :=
  | Receives (event : jsval)
  | Resumes (i : nat)
  | Clears.

Section receiver.
Context (extractId : jsval → option string).

Definition receive (event : jsval) (r : Receiver) : Receiver :=
  match extractId event with
  | None => r                                      (** the call rejects *)
  | Some id =>
      if seen id (store r) then r
      else {| store := store r; calls := calls r ++ [(id, event, ToMark)]; handled := handled r |}
  end.

Definition resume (i : nat) (r : Receiver) : Receiver :=
  match calls r !! i with
  | None => r
  | Some (id, event, ToMark) => {| store := mark_id id (store r); calls := <[i := (id, event, ToHandle)]> (calls r); handled := handled r |}
  | Some (id, event, ToHandle) => {| store := store r; calls := base.delete i (calls r); handled := handled r ++ [(id, event)] |}
  end.

Definition receiver_step (l : ReceiverStep) (r : Receiver) : Receiver :=
  match l with
  | Receives event => receive event r
  | Resumes i => resume i r
  | Clears => {| store := clear_ids (store r); calls := calls r; handled := handled r |}
  end.

Definition receiver_run (ls : list ReceiverStep) (r : Receiver) : Receiver := foldl (λ r l, receiver_step l r) r ls.

(** The calls that will still hand their event on. *)
Definition pending (id : string) (r : Receiver) : nat := length (base.filter (λ c : string * jsval * Phase, c.1.1 = id) (calls r)).
Definition times_handled (id : string) (r : Receiver) : nat := length (base.filter (λ h : string * jsval, h.1 = id) (handled r)).

Lemma filter_replace {A} (P : A → Prop) `{∀ x, Decision (P x)} (l : list A) i x y :
  l !! i = Some x → (P x ↔ P y) → length (base.filter P (<[i := y]> l)) = length (base.filter P l).
Proof using Type.
  intros Hx Hp. rewrite <-(take_drop_middle l i x Hx) at 2. rewrite insert_take_drop by (by eapply lookup_lt_Some).
  rewrite !filter_app, !length_app, !filter_cons. destruct (decide (P x)), (decide (P y)); tauto || done.
Qed.

Lemma filter_remove {A} (P : A → Prop) `{∀ x, Decision (P x)} (l : list A) i x :
  l !! i = Some x → length (base.filter P l) = (if decide (P x) then 1 else 0) + length (base.filter P (base.delete i l)).
Proof using Type.
  intros Hx. rewrite <-(take_drop_middle l i x Hx) at 1. rewrite delete_take_drop, !filter_app, !length_app, filter_cons.
  destruct (decide (P x)); cbn [length]; lia.
Qed.

(** An id that is marked: no step adds to the calls that will hand it on, or have. *)
Lemma marked_step id l r :
  id ∈ ids (store r) → l ≠ Clears →
  id ∈ ids (store (receiver_step l r)) ∧ times_handled id r ≤ times_handled id (receiver_step l r) ∧
  pending id (receiver_step l r) + times_handled id (receiver_step l r) = pending id r + times_handled id r.
Proof using Type.
  intros Hid Hl. destruct l as [event|i|]; [| |done]; cbn [receiver_step].
  - unfold receive. destruct (extractId event) as [id'|]; [|done]. unfold seen. case_bool_decide as Hs; [done|].
    unfold pending, times_handled. cbn [calls handled store]. rewrite filter_app, length_app, filter_cons_False, filter_nil; cbn; [split_and!; [done|lia|lia]|].
    intros ->. done.
  - unfold resume. destruct (calls r !! i) as [[[id' event] []]|] eqn:Hi; [| |done]; unfold pending, times_handled; cbn [store calls handled].
    + split_and!; [unfold mark_id; cbn; set_solver|done|]. f_equal. by apply (filter_replace _ _ _ _ _ Hi).
    + rewrite (filter_remove (λ c : string * jsval * Phase, c.1.1 = id) _ _ _ Hi). rewrite filter_app, length_app, filter_cons, filter_nil.
      cbn [fst]. destruct (decide (id' = id)); cbn [length]; split_and!; done || lia.
Qed.

Lemma marked_run id ls : ∀ r,
  id ∈ ids (store r) → Clears ∉ ls →
  times_handled id r ≤ times_handled id (receiver_run ls r) ∧
  pending id (receiver_run ls r) + times_handled id (receiver_run ls r) = pending id r + times_handled id r.
Proof using Type.
  induction ls as [|l ls IH]; intros r Hid Hls; [by split|]. apply not_elem_of_cons in Hls as [Hl Hls].
  destruct (marked_step id l r Hid) as (Hid' & Hle & He); [congruence|]. cbn [receiver_run foldl]. change (foldl _ ?x ls) with (receiver_run ls x).
  specialize (IH _ Hid' Hls). lia.
Qed.

(** A call that runs without another in between. *)
Definition alone (event : jsval) (r : Receiver) : Receiver := receiver_run [Receives event; Resumes 0; Resumes 0] r.

Lemma alone_exact event r :
  calls r = [] →
  alone event r = match extractId event with
                  | Some id => if seen id (store r) then r else {| store := mark_id id (store r); calls := []; handled := handled r ++ [(id, event)] |}
                  | None => r
                  end.
Proof using Type.
  intros Hc. destruct r as [s cs h]. cbn in Hc. subst cs. unfold alone, receiver_run. cbn [foldl receiver_step]. unfold receive.
  destruct (extractId event) as [id|]; [|done]. cbn [store]. destruct (seen id s); [done|]. done.
Qed.
(** Calls that do not overlap. *)
Definition one_by_one (events : list jsval) : Receiver := foldl (λ r e, alone e r) new_receiver events.

Definition names (id : string) (event : jsval) : bool := bool_decide (extractId event = Some id).

Lemma find_snoc (f : jsval → bool) l x : List.find f (l ++ [x]) = match List.find f l with Some y => Some y | None => if f x then Some x else None end.
Proof using Type. induction l as [|y l IH]; [done|]. cbn. by destruct (f y). Qed.

Lemma find_existsb (f : jsval → bool) l : existsb f l = match List.find f l with Some _ => true | None => false end.
Proof using Type. induction l as [|y l IH]; [done|]. cbn. by destruct (f y). Qed.

Lemma one_by_one_exact events :
  calls (one_by_one events) = [] ∧
  (∀ id, bool_decide (id ∈ ids (store (one_by_one events))) = existsb (names id) events) ∧
  (∀ id, base.filter (λ h : string * jsval, h.1 = id) (handled (one_by_one events))
         = match List.find (names id) events with Some e => [(id, e)] | None => [] end).
Proof using Type.
  induction events as [|e events (Hc & Hi & Hh)] using rev_ind; [done|].
  unfold one_by_one in *. rewrite foldl_app. cbn [foldl]. set (r := foldl _ new_receiver events) in *. rewrite alone_exact by done.
  assert (∀ id, names id e = bool_decide (extractId e = Some id)) as Hn by done.
  destruct (extractId e) as [id0|] eqn:He.
  - unfold seen. rewrite Hi. destruct (existsb (names id0) events) eqn:Hx.
    + split; [done|]. split; intros id.
      * rewrite Hi, existsb_app. cbn [existsb]. rewrite orb_false_r, Hn. case_bool_decide as Heq; [|by rewrite orb_false_r].
        injection Heq as <-. by rewrite Hx.
      * rewrite Hh, find_snoc, Hn. destruct (List.find (names id) events) eqn:Hf; [done|]. case_bool_decide as Heq; [|done].
        injection Heq as <-. by rewrite find_existsb, Hf in Hx.
    + split; [done|]. cbn [store handled mark_id ids]. split; intros id.
      * rewrite existsb_app, <-Hi. cbn [existsb]. rewrite orb_false_r, Hn, <-bool_decide_or. apply bool_decide_ext. set_solver.
      * rewrite filter_app, Hh, find_snoc, Hn, filter_cons, filter_nil. cbn [fst].
        destruct (decide (id0 = id)) as [<-|Hne].
        -- rewrite bool_decide_eq_true_2 by done. rewrite find_existsb in Hx. by destruct (List.find (names id0) events).
        -- rewrite bool_decide_eq_false_2 by congruence. rewrite app_nil_r. by destruct (List.find (names id) events).
  - split; [done|]. split; intros id.
    + rewrite Hi, existsb_app. cbn [existsb]. by rewrite Hn, !orb_false_r.
    + rewrite Hh, find_snoc, Hn. by destruct (List.find (names id) events).
Qed.
End receiver.

(** ** Delays (backoff.ts), for attempts from 1 *)

Definition exponential (attempt : Z) : Z := 2 ^ (attempt - 1) * 1000.
Definition exponentialJittered (attempt : Z) (random : jsnum) : Z :=
  match js_mul random (exponential attempt) with JFin m k => m / 2 ^ Z.of_nat k | _ => 0 end%Z.
Definition linear (attempt : Z) : Z := attempt * 1000.
Definition cappedExponential (attempt : Z) : Z := Z.min (exponential attempt) 30000.
Definition constant : Z := 1000.

Lemma capped_exactly attempt : (1 ≤ attempt)%Z →
  cappedExponential attempt = nth (Z.to_nat (attempt - 1)) [1000; 2000; 4000; 8000; 16000]%Z 30000%Z.
Proof.
  intros Ha. destruct (Z.le_gt_cases attempt 5) as [Hle|Hgt].
  - assert (attempt = 1 ∨ attempt = 2 ∨ attempt = 3 ∨ attempt = 4 ∨ attempt = 5)%Z as [-> | [-> | [-> | [-> | ->]]]] by lia; reflexivity.
  - rewrite nth_overflow by (cbn; lia). unfold cappedExponential, exponential.
    assert (2 ^ 5 ≤ 2 ^ (attempt - 1))%Z by (apply Z.pow_le_mono_r; lia). change (2 ^ 5)%Z with 32%Z in *. lia.
Qed.

(** ** The theorem *)

(** C39: Once an id is marked and until the store is cleared, only the calls for it
    that were then under way hand it on, each once, and no other call ever does: how
    often it was handed on and how many calls still will add up to the same.  And of
    calls that do not overlap each id is handed on exactly once, with the first
    event that has it. *)
Theorem repeats_dropped extractId :
  (∀ r id ls, id ∈ ids (store r) → Clears ∉ ls →
     let r' := receiver_run extractId ls r in
     times_handled id r ≤ times_handled id r' ∧ pending id r' + times_handled id r' = pending id r + times_handled id r) ∧
  (∀ events id,
     base.filter (λ h : string * jsval, h.1 = id) (handled (one_by_one extractId events))
     = match List.find (names extractId id) events with Some e => [(id, e)] | None => [] end).
Proof.
  split.
  - intros r id ls Hid Hls. by apply marked_run.
  - intros events id. apply one_by_one_exact.
Qed.

(** *** What may surprise *)

Definition event_of (id : string) : jsval := JObj [("raw", JObj [("id", JStr id)])].

(** Two calls for one event that overlap hand it on twice: both ask before either
    marks.  They are the calls under way of [repeats_dropped]. *)
Lemma overlapping_calls_deliver_twice :
  times_handled "a" (receiver_run DEFAULT_ID_EXTRACTOR [Receives (event_of "a"); Receives (event_of "a"); Resumes 0; Resumes 1; Resumes 0; Resumes 0] new_receiver) = 2.
Proof. reflexivity. Qed.

(** An id is marked before its event is handled: once marked, a repeat is dropped,
    whatever becomes of the handler. *)
Lemma repeat_dropped_before_handling :
  let r := receiver_run DEFAULT_ID_EXTRACTOR [Receives (event_of "a"); Resumes 0; Receives (event_of "a")] new_receiver in
  handled r = [] ∧ length (calls r) = 1.
Proof. done. Qed.

Lemma repeats_dropped_witness :
  let r := receiver_run DEFAULT_ID_EXTRACTOR [Receives (event_of "a"); Receives (event_of "a"); Resumes 0] new_receiver in
  let r' := receiver_run DEFAULT_ID_EXTRACTOR [Resumes 1; Receives (event_of "a"); Resumes 0; Resumes 0] r in
  times_handled "a" r' = 2 ∧ pending "a" r' + times_handled "a" r' = pending "a" r + times_handled "a" r.
Proof.
  intros r r'. split; [reflexivity|].
  apply (proj1 (repeats_dropped DEFAULT_ID_EXTRACTOR) r "a" [Resumes 1; Receives (event_of "a"); Resumes 0; Resumes 0]).
  - vm_compute. set_solver.
  - set_solver.
Defined.
