(* ===== verification/Historical.v ===== *)
(** * Replay beyond the retention of a node

    pulse-core/src/HistoricalSource.ts: which errors say that a ledger is no longer
    kept, and the wrapper that goes over to another source on the first of them
    ([withHistoricalFallback]).  What the two sources answer is an argument; a call
    stops at each of its awaits, so that calls overlap. *)

From S2P Require Import Prelude JsValue Decimal Sponsorship.

(** ** The range in the text of an error *)

Definition is_white (c : ascii) : bool := let n := nat_of_ascii c in (9 <=? n) && (n <=? 13) || (n =? 32).

Fixpoint skip_white (s : string) : string :=
  match s with String c rest => if is_white c then skip_white rest else s | "" => "" end.

(** [\d+], greedy. *)
Fixpoint take_digits (s : string) : string * string :=
  match s with
  | String c rest => match digit_val c with Some _ => let '(d, r) := take_digits rest in (String c d, r) | None => ("", s) end
  | "" => ("", "")
  end.

Fixpoint strip_prefix (p s : string) : option string :=
  match p, s with
  | "", _ => Some s
  | String a p, String b s => if Ascii.eqb a b then strip_prefix p s else None
  | _, "" => None
  end.

(** The pattern at the beginning of a text in lower case, with its first group. *)
Definition range_at (s : string) : option string :=
  match strip_prefix "ledger range:" s with
  | None => None
  | Some r =>
      let '(oldest, r) := take_digits (skip_white r) in
      if String.eqb oldest "" then None
      else match strip_prefix "-" (skip_white r) with
           | None => None
           | Some r => let '(newest, _) := take_digits (skip_white r) in if String.eqb newest "" then None else Some oldest
           end
  end.

Fixpoint retention_range (s : string) : option string :=
  match range_at s with
  | Some oldest => Some oldest
  | None => match s with "" => None | String _ rest => retention_range rest end
  end.

(** [RETENTION_RANGE_PATTERN.exec(message)], with the flag [i]. *)
Definition RETENTION_RANGE_PATTERN (message : string) : option string := retention_range (to_lower message).

Inductive RpcFailure :=
  | SorobanRpcError (message : string)
  | OtherFailure (message : string).

Definition isOutOfRetentionError (e : RpcFailure) : bool :=
  match e with SorobanRpcError message => bool_decide (is_Some (RETENTION_RANGE_PATTERN message)) | OtherFailure _ => false end.

(** [Number(digits)], where it is finite. *)
Definition finite_number (digits : string) : option jsnum :=
  let z := Z.of_N (digits_value digits) in
  if (2 ^ 1024 - 2 ^ 970 <=? z)%Z then None else Some (if (z <=? MAX_SAFE_INTEGER)%Z then jint z else bigint_to_number z).

Definition parseRetentionBoundary (message : string) : option jsnum :=
  match RETENTION_RANGE_PATTERN message with None => None | Some oldest => finite_number oldest end.

Record OutOfRetentionError := {
  retentionBoundaryLedger : option jsnum;
  requestedLedger : Z;
  historicalSourceConfigured : bool;
}.

(** ** Sources *)

(** [RpcHistoricalSource.covers] *)
Definition covers (earliestLedger : option Z) (ledger : Z) : bool :=
  match earliestLedger with None => true | Some e => (e <=? ledger)%Z end.

Inductive LatestError := NoGetLatestLedger.

Definition getLatestLedger {A} (rpc : option A) : result LatestError A := match rpc with None => Err NoGetLatestLedger | Some a => Ok a end.

Section fallback.
Context {page : Type}.

Inductive CallError :=
  | Rejected (e : RpcFailure)             (** what a source rejected with *)
  | TooOld (e : OutOfRetentionError).

(** Where a call of [getEvents] waits. *)
Inductive CallState :=
  | AskedPrimary
  | AskedCovers (boundary : option jsnum)
  | AskedFallback (boundary : option jsnum)
  | AskedHistorical
  | Answered (r : result CallError page).

Record Fallback := {
  usingHistorical : bool;
  fb_calls : list CallState;
}.

Definition with_call (i : nat) (c : CallState) (f : Fallback) : Fallback := {| usingHistorical := usingHistorical f; fb_calls := <[i := c]> (fb_calls f) |}.

(** What the sources answer. *)
Inductive FallbackLabel :=
  | GetEvents
  | PrimaryAnswers (i : nat) (r : result RpcFailure page)
  | CoversAnswers (i : nat) (r : result RpcFailure bool)
  | HistoricalAnswers (i : nat) (r : result RpcFailure page).

Context (historicalSource : bool) (startLedger : Z).

Definition too_old (boundary : option jsnum) : result CallError page :=
  Err (TooOld {| retentionBoundaryLedger := boundary; requestedLedger := startLedger; historicalSourceConfigured := historicalSource |}).

Definition rejected {A} (r : result RpcFailure A) : result CallError A := match r with Ok a => Ok a | Err e => Err (Rejected e) end.

Definition getEvents (f : Fallback) : Fallback :=
  {| usingHistorical := usingHistorical f;
     fb_calls := fb_calls f ++ [if usingHistorical f && historicalSource then AskedHistorical else AskedPrimary] |}.

Definition primary_answered (i : nat) (r : result RpcFailure page) (f : Fallback) : Fallback :=
  match r with
  | Ok p => with_call i (Answered (Ok p)) f
  | Err e =>
      if isOutOfRetentionError e then
        let boundary := match e with SorobanRpcError message | OtherFailure message => parseRetentionBoundary message end in
        with_call i (if historicalSource then AskedCovers boundary else Answered (too_old boundary)) f
      else with_call i (Answered (Err (Rejected e))) f
  end.

Definition covers_answered (i : nat) (boundary : option jsnum) (r : result RpcFailure bool) (f : Fallback) : Fallback :=
  match r with
  | Err e => with_call i (Answered (Err (Rejected e))) f
  | Ok false => with_call i (Answered (too_old boundary)) f
  | Ok true => {| usingHistorical := true; fb_calls := <[i := AskedFallback boundary]> (fb_calls f) |}
  end.

Definition fallback_step (l : FallbackLabel) (f : Fallback) : Fallback :=
  match l with
  | GetEvents => getEvents f
  | PrimaryAnswers i r => match fb_calls f !! i with Some AskedPrimary => primary_answered i r f | _ => f end
  | CoversAnswers i r => match fb_calls f !! i with Some (AskedCovers boundary) => covers_answered i boundary r f | _ => f end
  | HistoricalAnswers i r =>
      match fb_calls f !! i with
      | Some AskedHistorical => with_call i (Answered (rejected r)) f
      | Some (AskedFallback boundary) => with_call i (Answered (match r with Ok p => Ok p | Err _ => too_old boundary end)) f
      | _ => f
      end
  end.

Definition fallback_run (ls : list FallbackLabel) (f : Fallback) : Fallback := foldl (λ f l, fallback_step l f) f ls.
Definition new_fallback : Fallback := {| usingHistorical := false; fb_calls := [] |}.

(** *** One call after the other *)

(** What the sources answer to a call. *)
Record Answers := {
  primary : result RpcFailure page;
  covered : result RpcFailure bool;
  historical : result RpcFailure page;
}.

(** A call with all its answers, which source it asked last aside. *)
Definition serve (a : Answers) (f : Fallback) : Fallback :=
  let i := length (fb_calls f) in
  fallback_run [GetEvents; PrimaryAnswers i (primary a); CoversAnswers i (covered a); HistoricalAnswers i (historical a)] f.

Definition serve_all (l : list Answers) : Fallback := foldl (λ f a, serve a f) new_fallback l.

(** The call on which the wrapper goes over. *)
Definition switches (a : Answers) : bool :=
  historicalSource && match primary a with Err e => isOutOfRetentionError e | Ok _ => false end && match covered a with Ok b => b | Err _ => false end.

Definition boundary_of (e : RpcFailure) : option jsnum := match e with SorobanRpcError message | OtherFailure message => parseRetentionBoundary message end.

(** What a call that asks the primary source first returns. *)
Definition first_answer (a : Answers) : result CallError page :=
  match primary a with
  | Ok p => Ok p
  | Err e =>
      if isOutOfRetentionError e then
        if historicalSource then
          match covered a with
          | Err e => Err (Rejected e)
          | Ok false => too_old (boundary_of e)
          | Ok true => match historical a with Ok p => Ok p | Err _ => too_old (boundary_of e) end
          end
        else too_old (boundary_of e)
      else Err (Rejected e)
  end.

(** The steps of the last call. *)
Definition at_last (u : bool) (cs : list CallState) (c : CallState) : Fallback := {| usingHistorical := u; fb_calls := cs ++ [c] |}.

Lemma last_call u cs c : fb_calls (at_last u cs c) !! length cs = Some c.
Proof using Type. unfold at_last. cbn [fb_calls]. by apply (list_lookup_middle cs []). Qed.

Lemma with_last u cs c c' : with_call (length cs) c' (at_last u cs c) = at_last u cs c'.
Proof using Type. unfold with_call, at_last. cbn [fb_calls usingHistorical]. f_equal. rewrite insert_app_r_alt by lia. by rewrite Nat.sub_diag. Qed.

Lemma primary_last u cs c r :
  fallback_step (PrimaryAnswers (length cs) r) (at_last u cs c)
  = match c with
    | AskedPrimary =>
        at_last u cs (match r with
                      | Ok p => Answered (Ok p)
                      | Err e => if isOutOfRetentionError e then if historicalSource then AskedCovers (boundary_of e) else Answered (too_old (boundary_of e))
                                 else Answered (Err (Rejected e))
                      end)
    | _ => at_last u cs c
    end.
Proof using Type.
  cbn [fallback_step]. rewrite last_call. destruct c; try done. unfold primary_answered. destruct r as [p|e]; [apply with_last|].
  by destruct (isOutOfRetentionError e); rewrite with_last.
Qed.

Lemma covers_last u cs c r :
  fallback_step (CoversAnswers (length cs) r) (at_last u cs c)
  = match c with
    | AskedCovers boundary =>
        match r with
        | Err e => at_last u cs (Answered (Err (Rejected e)))
        | Ok false => at_last u cs (Answered (too_old boundary))
        | Ok true => at_last true cs (AskedFallback boundary)
        end
    | _ => at_last u cs c
    end.
Proof using Type.
  cbn [fallback_step]. rewrite last_call. destruct c; try done. unfold covers_answered. destruct r as [[]|e]; try apply with_last.
  pose proof (with_last u cs (AskedCovers boundary) (AskedFallback boundary)) as Hw. unfold with_call, at_last in *. cbn [fb_calls] in *. congruence.
Qed.

Lemma historical_last u cs c r :
  fallback_step (HistoricalAnswers (length cs) r) (at_last u cs c)
  = at_last u cs (match c with
                  | AskedHistorical => Answered (rejected r)
                  | AskedFallback boundary => Answered (match r with Ok p => Ok p | Err _ => too_old boundary end)
                  | c => c
                  end).
Proof using Type. cbn [fallback_step]. rewrite last_call. destruct c; try done; apply with_last. Qed.

Lemma serve_exact a f :
  serve a f = {| usingHistorical := usingHistorical f || (negb (usingHistorical f && historicalSource) && switches a);
                 fb_calls := fb_calls f ++ [Answered (if usingHistorical f && historicalSource then rejected (historical a) else first_answer a)] |}.
Proof using Type.
  destruct f as [u cs]. unfold serve, fallback_run, switches, first_answer. cbn [foldl fb_calls usingHistorical].
  change (fallback_step GetEvents {| usingHistorical := u; fb_calls := cs |}) with (at_last u cs (if u && historicalSource then AskedHistorical else AskedPrimary)).
  rewrite primary_last. destruct (u && historicalSource) eqn:Hu.
  - rewrite covers_last, historical_last. unfold at_last. by rewrite orb_false_r.
  - destruct (primary a) as [p|e].
    { rewrite covers_last, historical_last. unfold at_last. by rewrite andb_false_r, orb_false_r. }
    destruct (isOutOfRetentionError e).
    2: { rewrite covers_last, historical_last. unfold at_last. by rewrite andb_false_r, orb_false_r. }
    rewrite covers_last. destruct historicalSource.
    2: { rewrite historical_last. unfold at_last. by rewrite orb_false_r. }
    destruct (covered a) as [[]|e']; rewrite historical_last; unfold at_last; cbn [andb negb]; rewrite ?orb_false_r; try done.
    by rewrite orb_true_r.
Qed.

(** The first answers until one switches, and the historical ones from then on. *)
Fixpoint answers (u : bool) (l : list Answers) : list (result CallError page) :=
  match l with
  | [] => []
  | a :: l => if u then rejected (historical a) :: answers u l else first_answer a :: answers (switches a) l
  end.

Lemma serve_all_from l : ∀ f,
  (usingHistorical f = true → historicalSource = true) →
  fb_calls (foldl (λ f a, serve a f) f l) = fb_calls f ++ (Answered <$> answers (usingHistorical f) l).
Proof using Type.
  induction l as [|a l IH]; intros f Hf; [by rewrite app_nil_r|]. cbn [foldl]. rewrite IH.
  - rewrite serve_exact. cbn [usingHistorical fb_calls answers]. destruct (usingHistorical f) eqn:Hu; cbn [andb orb].
    + rewrite (Hf eq_refl). cbn [fmap list_fmap]. by rewrite <-app_assoc.
    + cbn [negb andb fmap list_fmap]. by rewrite <-app_assoc.
  - rewrite serve_exact. cbn [usingHistorical]. intros [Hu|[_ Hs]%andb_true_iff]%orb_true_iff; [by apply Hf|].
    unfold switches in Hs. by destruct historicalSource.
Qed.
End fallback.

(** ** The theorem *)

(** Calls one after the other: until one finds the ledger no longer kept, and a
    historical source that covers the start, each is answered by the primary source
    (an error that says so is told as such); all later ones are answered by the
    historical source alone, whatever the primary one would say. *)
Theorem fallback_exact {page} historicalSource startLedger (before after : list (@Answers page)) a :
  Forall (λ b, switches historicalSource b = false) before → switches historicalSource a = true →
  fb_calls (serve_all historicalSource startLedger (before ++ a :: after))
  = Answered <$> ((first_answer historicalSource startLedger <$> before) ++
                  first_answer historicalSource startLedger a :: ((λ b, rejected (historical b)) <$> after)).
Proof.
  intros Hb Ha. unfold serve_all. rewrite serve_all_from by done. cbn [usingHistorical new_fallback fb_calls app]. f_equal.
  induction Hb as [|b before Hb _ IH]; cbn [app answers fmap list_fmap].
  - rewrite Ha. f_equal. clear. induction after as [|b after IH]; [done|]. cbn [answers fmap list_fmap]. by rewrite IH.
  - rewrite Hb. by rewrite IH.
Qed.

(** *** Witness *)

Definition kept_range : string := "startLedger must be within the ledger range: 100 - 200".

Definition sample_answers : @Answers string :=
  {| primary := Err (SorobanRpcError kept_range); covered := Ok true; historical := Ok "old" |}.

Lemma fallback_exact_witness :
  fb_calls (serve_all true 50 ([{| primary := Ok "new"; covered := Ok true; historical := Ok "x" |}] ++ sample_answers :: [{| primary := Ok "newer"; covered := Ok true; historical := Ok "older" |}]))
  = [Answered (Ok "new"); Answered (Ok "old"); Answered (Ok "older")].
Proof. rewrite (fallback_exact true 50); [reflexivity|repeat constructor|reflexivity]. Defined.

(** *** What may surprise *)

Lemma range_read : parseRetentionBoundary kept_range = Some (jint 100) ∧ parseRetentionBoundary "LEDGER RANGE:7-9" = Some (jint 7).
Proof. split; vm_compute; reflexivity. Qed.

(** After the change an error is passed on as it is: it names no boundary. *)
Lemma later_error_is_bare :
  fb_calls (serve_all true 50 [sample_answers; {| primary := Ok "new"; covered := Ok true; historical := Err (SorobanRpcError kept_range) |}])
  = [Answered (Ok "old"); Answered (Err (Rejected (SorobanRpcError kept_range)))].
Proof. vm_compute. reflexivity. Qed.

(** A fallback that fails is final too: the primary source is not asked again. *)
Lemma failed_fallback_is_final :
  let down := {| primary := Err (SorobanRpcError kept_range); covered := Ok true; historical := Err (OtherFailure "down") |} in
  let up := {| primary := Ok "new"; covered := Ok true; historical := Err (OtherFailure "down") |} in
  ∃ e, fb_calls (serve_all true 50 [down; up]) = [Answered (too_old true 50 e); Answered (@Err _ string (Rejected (OtherFailure "down")))].
Proof. eexists. vm_compute. reflexivity. Qed.

(** A ledger after the range is refused with the same text, and called too old. *)
Lemma future_ledger_called_too_old :
  fb_calls (serve_all false 5000 [{| primary := @Err _ string (SorobanRpcError kept_range); covered := Ok true; historical := Ok "" |}])
  = [Answered (Err (TooOld {| retentionBoundaryLedger := Some (jint 100); requestedLedger := 5000; historicalSourceConfigured := false |}))].
Proof. vm_compute. reflexivity. Qed.
