(* ===== verification/Doubles.v ===== *)
(** * Arithmetic of binary64 numbers

    The operators [+], [-], [*], [/] and the comparisons of the language on finite
    numbers, correctly rounded by [Sponsorship.rounded_quotient]; infinities and NaN
    as IEEE 754 has them.  The range of the format is not bounded, and the two
    zeros are one. *)

From S2P Require Import Prelude Sponsorship.

Definition fneg (x : jsnum) : jsnum := match x with JFin m k => JFin (- m) k | JInf neg => JInf (negb neg) | JNaN => JNaN end.

(** The number next to [a / b], for [b] positive. *)
Definition rnd (a b : Z) : jsnum := if (a <? 0)%Z then fneg (rounded_quotient (- a) b) else rounded_quotient a b.

Definition fadd (x y : jsnum) : jsnum :=
  match x, y with
  | JFin m k, JFin m' k' => rnd (m * 2 ^ Z.of_nat k' + m' * 2 ^ Z.of_nat k) (2 ^ Z.of_nat (k + k'))
  | JNaN, _ | _, JNaN => JNaN
  | JInf a, JInf b => if Bool.eqb a b then JInf a else JNaN
  | JInf a, _ | _, JInf a => JInf a
  end.

Definition fsub (x y : jsnum) : jsnum := fadd x (fneg y).

Definition negative (x : jsnum) : bool := match x with JFin m _ => (m <? 0)%Z | JInf neg => neg | JNaN => false end.
Definition is_zero (x : jsnum) : bool := match x with JFin m _ => (m =? 0)%Z | _ => false end.

Definition fmul (x y : jsnum) : jsnum :=
  match x, y with
  | JFin m k, JFin m' k' => rnd (m * m') (2 ^ Z.of_nat (k + k'))
  | JNaN, _ | _, JNaN => JNaN
  | _, _ => if is_zero x || is_zero y then JNaN else JInf (xorb (negative x) (negative y))
  end.

Definition fdiv (x y : jsnum) : jsnum :=
  match x, y with
  | JFin m k, JFin m' k' =>
      if (m' =? 0)%Z then if (m =? 0)%Z then JNaN else JInf (m <? 0)%Z
      else rnd (Z.sgn m' * (m * 2 ^ Z.of_nat k')) (Z.abs m' * 2 ^ Z.of_nat k)
  | JNaN, _ | _, JNaN => JNaN
  | JInf _, JInf _ => JNaN
  | JInf _, _ => JInf (xorb (negative x) (negative y))
  | _, JInf _ => jint 0
  end.

(** [x <= y] and [x < y] *)
Definition fle (x y : jsnum) : bool := js_ge y x.
Definition flt (x y : jsnum) : bool := match x, y with JNaN, _ | _, JNaN => false | _, _ => negb (js_ge x y) end.
(** [x === y] *)
Definition feq (x y : jsnum) : bool := fle x y && fle y x.
(** [Math.max(x, y)] *)
Definition fmax (x y : jsnum) : jsnum := match x, y with JNaN, _ | _, JNaN => JNaN | _, _ => if fle x y then y else x end.

(** [Math.round(x)] of a finite number. *)
Definition fround (x : jsnum) : jsnum := match x with JFin m k => jint ((2 * m + 2 ^ Z.of_nat k) / 2 ^ (Z.of_nat k + 1)) | _ => x end.

Definition finite (x : jsnum) : bool := match x with JFin _ _ => true | _ => false end.
Definition nonneg (x : jsnum) : bool := match x with JFin m _ => (0 <=? m)%Z | _ => false end.
Definition positive (x : jsnum) : bool := match x with JFin m _ => (0 <? m)%Z | _ => false end.

Example three_tenths : fadd (rnd 1 10) (rnd 2 10) = rnd 30000000000000004 100000000000000000.
Proof. vm_compute. reflexivity. Qed.

Lemma round_even_le num den u : (0 < den)%Z → (num ≤ u * den)%Z → (round_even num den ≤ u)%Z.
Proof.
  intros Hd Hle. unfold round_even. assert (num / den ≤ u)%Z as Hq by (apply Z.div_le_upper_bound; lia).
  destruct (Z.eq_dec (num / den)%Z u) as [He|Hne].
  - assert (num mod den = 0)%Z as ->.
    { pose proof (Z.div_mod num den ltac:(lia)). pose proof (Z.mod_pos_bound num den Hd). nia. }
    destruct (Z.ltb_spec den (2 * 0)%Z), (Z.eqb_spec (2 * 0)%Z den); cbn; lia.
  - destruct (_ || _); lia.
Qed.

(** Rounding does not cross a double from below. *)
Lemma rounded_le a b m k :
  (0 ≤ a)%Z → (0 < b)%Z → is_double m → (a * 2 ^ Z.of_nat k ≤ m * b)%Z →
  fle (rounded_quotient a b) (JFin m k) = true.
Proof.
  intros Ha Hb (m' & j & Hm & Hj & Hbits) Hle. unfold rounded_quotient, fle.
  assert (0 < 2 ^ Z.of_nat k)%Z as Hk by (apply Z.pow_pos_nonneg; lia).
  destruct (Z.eqb_spec a 0) as [->|Hne]; cbn [js_ge]; apply Z.leb_le; [cbn; nia|].
  pose proof (quotient_bits a b ltac:(lia) Hb) as Hq. cbv zeta in Hq. set (e := quotient_exponent a b) in *.
  assert (0 < scaled b (- e))%Z as HB by (unfold scaled; pose proof (pow_pos (- e)); nia).
  set (E := Z.max e 0) in *. set (E' := Z.max (- e) 0) in *.
  assert (2 ^ Z.of_nat (Z.to_nat e) = 2 ^ E)%Z as -> by (f_equal; lia).
  assert (0 < 2 ^ E)%Z as HE by apply pow_pos. assert (0 < 2 ^ E')%Z as HE' by apply pow_pos.
  unfold scaled at 1. fold E'.
  (* the bound on the scale of the quotient *)
  assert (scaled a e * (2 ^ Z.of_nat k * 2 ^ E') ≤ m * 2 ^ E * scaled b (- e))%Z as Hscaled.
  { unfold scaled. fold E E'. replace (a * 2 ^ E * (2 ^ Z.of_nat k * 2 ^ E'))%Z with (a * 2 ^ Z.of_nat k * (2 ^ E * 2 ^ E'))%Z by ring.
    replace (m * 2 ^ E * (b * 2 ^ E'))%Z with (m * b * (2 ^ E * 2 ^ E'))%Z by ring. apply Z.mul_le_mono_nonneg_r; [nia|done]. }
  destruct (Z.le_gt_cases (Z.of_nat k + E') (j + E)) as [Hdiv|Hlt].
  - set (u := (m' * 2 ^ (j + E - (Z.of_nat k + E')))%Z).
    assert (m * 2 ^ E = u * (2 ^ Z.of_nat k * 2 ^ E'))%Z as Hu.
    { unfold u. rewrite Hm, <-!Z.mul_assoc, <-!Z.pow_add_r by lia. f_equal. f_equal. lia. }
    rewrite Hu. assert (round_even (scaled a e) (scaled b (- e)) ≤ u)%Z as Hr.
    { apply round_even_le; [done|]. apply (Z.mul_le_mono_pos_r _ _ (2 ^ Z.of_nat k * 2 ^ E')); [nia|]. rewrite Hu in Hscaled. nia. }
    rewrite <-Z.mul_assoc, (Z.mul_comm (2 ^ E')). apply Z.mul_le_mono_nonneg_r; [nia|done].
  - exfalso. assert (2 ^ 52 * (2 ^ Z.of_nat k * 2 ^ E') ≤ m * 2 ^ E)%Z as Hbig.
    { apply (Z.mul_le_mono_pos_r _ _ (scaled b (- e))); [done|]. etransitivity; [|exact Hscaled].
      replace (2 ^ 52 * (2 ^ Z.of_nat k * 2 ^ E') * scaled b (- e))%Z with (2 ^ 52 * scaled b (- e) * (2 ^ Z.of_nat k * 2 ^ E'))%Z by ring.
      apply Z.mul_le_mono_nonneg_r; [nia|]. pose proof (Z.mul_div_le (scaled a e) (scaled b (- e)) HB). nia. }
    rewrite Hm, <-Z.mul_assoc, <-!Z.pow_add_r in Hbig by lia.
    assert (2 ^ (52 + (Z.of_nat k + E')) = 2 ^ 53 * 2 ^ (Z.of_nat k + E' - 1))%Z as H53.
    { rewrite <-Z.pow_add_r by lia. f_equal. lia. }
    rewrite H53 in Hbig. assert (2 ^ (j + E) ≤ 2 ^ (Z.of_nat k + E' - 1))%Z by (apply Z.pow_le_mono_r; lia).
    assert (0 < 2 ^ (j + E))%Z as HP by (apply Z.pow_pos_nonneg; lia).
    assert (m' * 2 ^ (j + E) ≤ Z.abs m' * 2 ^ (Z.of_nat k + E' - 1))%Z by nia.
    assert (Z.abs m' * 2 ^ (Z.of_nat k + E' - 1) < 2 ^ 53 * 2 ^ (Z.of_nat k + E' - 1))%Z by (apply Z.mul_lt_mono_pos_r; lia). lia.
Qed.

(** The rounded quotient is itself a double. *)
Lemma quotient_bits_upper a b :
  (0 < a)%Z → (0 < b)%Z →
  let e := quotient_exponent a b in (scaled a e / scaled b (- e) < 2 ^ 53)%Z.
Proof.
  intros Ha Hb. unfold quotient_exponent. cbv zeta. set (e := (52 - Z.log2 a + Z.log2 b)%Z).
  assert (0 < scaled b (- e))%Z as HB by (unfold scaled; pose proof (pow_pos (- e)); nia).
  destruct (Z.ltb_spec (scaled a e / scaled b (- e)) (2 ^ 52)) as [Hlt|Hge].
  - assert (0 < scaled b (- (e + 1)))%Z as HB' by (unfold scaled; pose proof (pow_pos (- (e + 1))); nia).
    apply Z.div_lt_upper_bound; [done|].
    assert (scaled a e < 2 ^ 52 * scaled b (- e))%Z as Hx.
    { pose proof (Z.mul_succ_div_gt (scaled a e) (scaled b (- e)) HB). nia. }
    destruct (Z.le_gt_cases 0 e) as [He|He]; unfold scaled in *.
    + rewrite Z.max_l in * by lia. rewrite Z.max_r in Hx |- * by lia. rewrite Z.pow_add_r by lia. change (2 ^ 53)%Z with (2 ^ 52 * 2)%Z. lia.
    + rewrite Z.max_r in Hx |- * by lia. rewrite Z.max_l in Hx |- * by lia.
      assert (2 ^ (- e) = 2 * 2 ^ (- (e + 1)))%Z as Hp by (rewrite <-Z.pow_succ_r by lia; f_equal; lia).
      rewrite Hp in Hx. change (2 ^ 53)%Z with (2 ^ 52 * 2)%Z. replace (Z.max (e + 1) 0) with 0%Z by lia. lia.
  - apply Z.div_lt_upper_bound; [done|]. rewrite Z.mul_comm. destruct (Z.log2_spec a Ha) as [_ Hla]. destruct (Z.log2_spec b Hb) as [Hlb _].
    pose proof (Z.log2_nonneg a). pose proof (Z.log2_nonneg b). unfold scaled. pose proof (pow_pos e) as Pe. pose proof (pow_pos (- e)) as Pe'.
    apply Z.lt_le_trans with (2 ^ Z.succ (Z.log2 a) * 2 ^ Z.max e 0)%Z; [by apply Z.mul_lt_mono_pos_r|].
    apply Z.le_trans with (2 ^ 53 * (2 ^ Z.log2 b * 2 ^ Z.max (- e) 0))%Z.
    + rewrite <-!Z.pow_add_r by lia. apply Z.pow_le_mono_r; lia.
    + apply Z.mul_le_mono_nonneg_l; [lia|]. apply Z.mul_le_mono_nonneg_r; [lia|done].
Qed.

(** Doubles that are not negative. *)
Definition dbl (x : jsnum) : Prop := match x with JFin m _ => (0 ≤ m)%Z ∧ is_double m | _ => False end.

Lemma is_double_small z : (Z.abs z < 2 ^ 53)%Z → is_double z.
Proof. intros Hz. exists z, 0%Z. split_and!; lia. Qed.

Lemma is_double_shift z j : (0 ≤ j)%Z → (0 ≤ z ≤ 2 ^ 53)%Z → is_double (z * 2 ^ j).
Proof.
  intros Hj Hz. destruct (Z.eq_dec z (2 ^ 53)%Z) as [->|Hne].
  - exists (2 ^ 52)%Z, (j + 1)%Z. rewrite Z.pow_add_r by lia. change (2 ^ 53)%Z with (2 ^ 52 * 2)%Z. split_and!; [ring|lia|].
    change (Z.abs (2 ^ 52)) with (2 ^ 52)%Z. lia.
  - exists z, j. split_and!; lia.
Qed.

Lemma rounded_dbl a b : (0 ≤ a)%Z → (0 < b)%Z → dbl (rounded_quotient a b).
Proof.
  intros Ha Hb. unfold rounded_quotient. destruct (Z.eqb_spec a 0) as [->|Hne]; [split; [done|by apply is_double_small]|].
  pose proof (quotient_bits a b ltac:(lia) Hb) as Hq. pose proof (quotient_bits_upper a b ltac:(lia) Hb) as Hq'. cbv zeta in Hq, Hq'.
  set (e := quotient_exponent a b) in *.
  assert (0 < scaled b (- e))%Z as HB by (unfold scaled; pose proof (pow_pos (- e)); nia).
  pose proof (round_even_ge (scaled a e) (scaled b (- e)) HB) as Hr.
  assert (round_even (scaled a e) (scaled b (- e)) ≤ 2 ^ 53)%Z as Hr' by (unfold round_even; destruct (_ || _); lia).
  set (r := round_even (scaled a e) (scaled b (- e))) in *. unfold dbl, scaled. pose proof (pow_pos (- e)). split; [nia|]. apply is_double_shift; lia.
Qed.

Lemma rnd_dbl a b : (0 ≤ a)%Z → (0 < b)%Z → dbl (rnd a b).
Proof. intros Ha Hb. unfold rnd. destruct (Z.ltb_spec a 0); [lia|]. by apply rounded_dbl. Qed.

Lemma pow_of_nat k : (0 < 2 ^ Z.of_nat k)%Z.
Proof. apply Z.pow_pos_nonneg; lia. Qed.

Lemma pow_nat_add k k' : (2 ^ Z.of_nat (k + k') = 2 ^ Z.of_nat k * 2 ^ Z.of_nat k')%Z.
Proof. rewrite Nat2Z.inj_add. apply Z.pow_add_r; lia. Qed.

Lemma fadd_dbl x y : dbl x → dbl y → dbl (fadd x y) ∧ fle x (fadd x y) = true ∧ fle y (fadd x y) = true.
Proof.
  destruct x as [| |m k], y as [| |m' k']; try done. intros [Hm Hd] [Hm' Hd']. cbn [fadd].
  pose proof (pow_of_nat k) as Hk. pose proof (pow_of_nat k') as Hk'. pose proof (pow_of_nat (k + k')) as Hkk.
  assert (0 ≤ m * 2 ^ Z.of_nat k' + m' * 2 ^ Z.of_nat k)%Z as H0 by nia. split; [by apply rnd_dbl|].
  unfold rnd. destruct (Z.ltb_spec (m * 2 ^ Z.of_nat k' + m' * 2 ^ Z.of_nat k) 0); [lia|].
  split; unfold fle; apply rounded_ge; try done; rewrite pow_nat_add; nia.
Qed.

Lemma dbl_nonneg x : dbl x → nonneg x = true.
Proof. destruct x; try done. intros [Hm _]. by apply Z.leb_le. Qed.

Lemma positive_nonneg x : positive x = true → nonneg x = true.
Proof. destruct x; try done. cbn. rewrite Z.ltb_lt, Z.leb_le. lia. Qed.

Lemma nonneg_finite x : nonneg x = true → finite x = true.
Proof. by destruct x. Qed.

Lemma fdiv_dbl x y : nonneg x = true → positive y = true → dbl (fdiv x y).
Proof.
  destruct x as [| |m k], y as [| |m' k']; try done. intros Hm%Z.leb_le Hp%Z.ltb_lt. cbn [fdiv].
  destruct (Z.eqb_spec m' 0); [lia|]. rewrite Z.sgn_pos, Z.abs_eq by lia. pose proof (pow_of_nat k). pose proof (pow_of_nat k'). apply rnd_dbl; nia.
Qed.

(** A part divided by its whole is at most one. *)
Lemma fdiv_le_one x y : nonneg x = true → positive y = true → fle x y = true → fle (fdiv x y) (jint 1) = true.
Proof.
  destruct x as [| |m k], y as [| |m' k']; try done. intros Hm%Z.leb_le Hp%Z.ltb_lt Hle. cbn [fdiv].
  destruct (Z.eqb_spec m' 0); [lia|]. rewrite Z.sgn_pos, Z.abs_eq by lia. unfold fle in Hle. cbn [js_ge] in Hle. apply Z.leb_le in Hle.
  pose proof (pow_of_nat k). pose proof (pow_of_nat k'). unfold rnd. destruct (Z.ltb_spec (1 * (m * 2 ^ Z.of_nat k')) 0); [nia|].
  apply rounded_le; [nia|nia|by apply is_double_small|]. change (2 ^ Z.of_nat 0)%Z with 1%Z. lia.
Qed.

Lemma fmul_dbl x y : nonneg x = true → nonneg y = true → dbl (fmul x y).
Proof.
  destruct x as [| |m k], y as [| |m' k']; try done. intros Hm%Z.leb_le Hm'%Z.leb_le. cbn [fmul]. pose proof (pow_of_nat (k + k')). apply rnd_dbl; nia.
Qed.

(** A difference of what is not more. *)
Lemma fsub_dbl x y : finite x = true → finite y = true → fle y x = true → dbl (fsub x y).
Proof.
  destruct x as [| |m k], y as [| |m' k']; try done. intros _ _ Hle. unfold fle in Hle. cbn [js_ge] in Hle. apply Z.leb_le in Hle.
  unfold fsub. cbn [fneg fadd]. pose proof (pow_of_nat (k + k')). apply rnd_dbl; nia.
Qed.

Lemma finite_fadd x y : finite x = true → finite y = true → finite (fadd x y) = true.
Proof. destruct x, y; try done. cbn [fadd]. unfold rnd, rounded_quotient. intros _ _. destruct (_ <? 0)%Z; by destruct (_ =? 0)%Z. Qed.

Lemma finite_fmul x y : finite x = true → finite y = true → finite (fmul x y) = true.
Proof. destruct x, y; try done. cbn [fmul]. unfold rnd, rounded_quotient. intros _ _. destruct (_ <? 0)%Z; by destruct (_ =? 0)%Z. Qed.

Lemma finite_fneg x : finite (fneg x) = finite x.
Proof. by destruct x. Qed.

Lemma finite_fsub x y : finite x = true → finite y = true → finite (fsub x y) = true.
Proof. intros. apply finite_fadd; [done|by rewrite finite_fneg]. Qed.

Lemma jint_dbl z : (0 ≤ z < 2 ^ 53)%Z → dbl (jint z).
Proof. intros Hz. split; [lia|]. apply is_double_small. lia. Qed.

Lemma fle_neg x : nonneg x = true → fle (fneg x) (jint 0) = true.
Proof. destruct x as [| |m k]; try done. intros Hm%Z.leb_le. unfold fle. cbn. apply Z.leb_le. pose proof (pow_of_nat k). nia. Qed.

Lemma nonneg_positive x : nonneg x = true → is_zero x = false → positive x = true.
Proof. destruct x; try done. cbn. rewrite Z.leb_le, Z.eqb_neq, Z.ltb_lt. lia. Qed.

(** Comparisons of a number with an integer. *)
Lemma flt_int_r m k z : flt (JFin m k) (jint z) = (m <? z * 2 ^ Z.of_nat k)%Z.
Proof. unfold flt. cbn. rewrite Z.mul_1_r. symmetry. apply Z.ltb_antisym. Qed.

Lemma flt_int_l m k z : flt (jint z) (JFin m k) = (z * 2 ^ Z.of_nat k <? m)%Z.
Proof. unfold flt. cbn. rewrite Z.mul_1_r. symmetry. apply Z.ltb_antisym. Qed.

Lemma fle_int_r m k z : fle (JFin m k) (jint z) = (m <=? z * 2 ^ Z.of_nat k)%Z.
Proof. unfold fle. cbn. by rewrite Z.mul_1_r. Qed.
