(* ===== verification/Reputation.v ===== *)
(** * The reputation of operators

    worker-core/src/reputation/window.ts and score.ts: the verdicts of a window, their
    percentiles, and the score with what lowered it.  Times are whole milliseconds,
    other numbers are doubles ([Doubles]); [Math.pow(0.5, x)] is a parameter, of which
    only that it is a double that is not negative is used ([PowLaw]). *)

From Stdlib Require Import Sorted.
From S2P Require Import Prelude Sponsorship Doubles.

(** ** Windows (window.ts) *)

Inductive VerdictOutcome := success | miss.

Record Verdict := {
  v_id : string;
  v_operatorId : string;
  v_at : Z;
  v_outcome : VerdictOutcome;
  v_latencyMs : jsnum;
}.

Record WindowSelection := {
  sel_operatorId : string;
  sel_windowStart : Z;
  sel_windowEnd : Z;
  sel_verdicts : list Verdict;
}.

Record WindowMetrics := {
  wm_total : nat;
  wm_successes : nat;
  wm_misses : nat;
  wm_uptime : jsnum;
  wm_missRate : jsnum;
  wm_latencyP50Ms : option jsnum;
  wm_latencyP95Ms : option jsnum;
}.

Definition selected (operatorId : string) (windowStart asOf : Z) (v : Verdict) : bool :=
  String.eqb (v_operatorId v) operatorId && (windowStart <=? v_at v)%Z && (v_at v <=? asOf)%Z.

Definition selectWindow (verdicts : list Verdict) (operatorId : string) (windowMs asOf : Z) : WindowSelection :=
  let windowStart := (asOf - windowMs)%Z in
  {| sel_operatorId := operatorId; sel_windowStart := windowStart; sel_windowEnd := asOf;
     sel_verdicts := sort_by v_at (List.filter (selected operatorId windowStart asOf) verdicts) |}.

Definition is_success (v : Verdict) : bool := match v_outcome v with success => true | miss => false end.

Inductive PercentileError := EmptyArray | BadP.

Definition math_floor (x : jsnum) : Z := match x with JFin m k => (m / 2 ^ Z.of_nat k)%Z | _ => 0%Z end.
Definition math_ceil (x : jsnum) : Z := match x with JFin m k => (- ((- m) / 2 ^ Z.of_nat k))%Z | _ => 0%Z end.

(** [sorted[i]], in arithmetic NaN where there is none. *)
Definition at_index (sorted : list jsnum) (i : Z) : jsnum := if (i <? 0)%Z then JNaN else nth (Z.to_nat i) sorted JNaN.

Definition percentile (sorted : list jsnum) (p : jsnum) : result PercentileError jsnum :=
  let n := length sorted in
  if n =? 0 then Err EmptyArray
  else if flt p (jint 0) || flt (jint 1) p || match p with JNaN => true | _ => false end then Err BadP
  else if n =? 1 then Ok (at_index sorted 0)
  else
    let idx := fmul p (jint (Z.of_nat (n - 1))) in
    let lo := math_floor idx in
    let hi := math_ceil idx in
    let loVal := at_index sorted lo in
    let hiVal := at_index sorted hi in
    if (lo =? hi)%Z then Ok loVal
    else
      let frac := fsub idx (jint lo) in
      Ok (fadd loVal (fmul frac (fsub hiVal loVal))).

Definition half : jsnum := JFin 1 1.
Definition ninety_five : jsnum := rounded_quotient 95 100.

(** The latencies of the successes; they are taken to be numbers other than NaN. *)
Definition latencies (l : list Verdict) : list jsnum := sort_with fle (v_latencyMs <$> List.filter is_success l).

Definition percentile_of (l : list jsnum) (p : jsnum) : option jsnum := match percentile l p with Ok x => Some x | Err _ => None end.

Definition share (n total : nat) : jsnum := if total =? 0 then jint 0 else fdiv (jint (Z.of_nat n)) (jint (Z.of_nat total)).

Definition computeWindowMetrics (sel : WindowSelection) : WindowMetrics :=
  let l := sel_verdicts sel in
  let total := length l in
  let successes := length (List.filter is_success l) in
  let misses := total - successes in
  {| wm_total := total; wm_successes := successes; wm_misses := misses;
     wm_uptime := share successes total; wm_missRate := share misses total;
     wm_latencyP50Ms := percentile_of (latencies l) half; wm_latencyP95Ms := percentile_of (latencies l) ninety_five |}.

(** ** Scores (score.ts) *)

Definition SCORE_FORMULA_VERSION : string := "1.0.0".
Definition DEFAULT_WEIGHTS : jsnum * jsnum := (rounded_quotient 7 10, rounded_quotient 3 10).

Record ScoreConfig := {
  sc_formulaVersion : string;
  sc_windowMs : Z;
  sc_halfLifeMs : jsnum;
  sc_minSamples : Z;
  sc_latencyTargetMs : jsnum;
  sc_weights : option (jsnum * jsnum);   (** availability and latency *)
}.

Inductive ScoreContributorReason := by_miss | by_slow.

Record ScoreContributor := {
  co_verdict : Verdict;
  co_reason : ScoreContributorReason;
  co_impact : jsnum;
}.

Record ScoredScore := {
  ss_operatorId : string;
  ss_formulaVersion : string;
  ss_score : jsnum;
  ss_windowStart : Z;
  ss_windowEnd : Z;
  ss_samples : nat;
  ss_availability : jsnum;
  ss_missRate : jsnum;
  ss_latencyP50Ms : option jsnum;
  ss_latencyP95Ms : option jsnum;
  ss_latencyQuality : jsnum;
  ss_contributors : list ScoreContributor;
}.

Inductive OperatorScore :=
  | InsufficientData (operatorId formulaVersion : string) (windowStart windowEnd : Z) (samples : nat) (minSamples : Z)
  | Scored (s : ScoredScore).

Inductive ScoreError := VersionMismatch.

Definition clamp01 (x : jsnum) : jsnum := if flt x (jint 0) then jint 0 else if flt (jint 1) x then jint 1 else x.
Definition clampScore (x : jsnum) : jsnum := if flt x (jint 0) then jint 0 else if flt (jint 1000) x then jint 1000 else x.

Section score.
(** [Math.pow(0.5, x)] *)
Context (pow_half : jsnum → jsnum).

Definition recencyWeight (ageMs : Z) (halfLifeMs : jsnum) : jsnum :=
  if (ageMs <=? 0)%Z then jint 1 else pow_half (fdiv (jint ageMs) halfLifeMs).

Definition weight_of (config : ScoreConfig) (asOf : Z) (v : Verdict) : jsnum := recencyWeight (asOf - v_at v) (sc_halfLifeMs config).

(** The weights of the successes and of the misses, added up in order. *)
Definition weigh (config : ScoreConfig) (asOf : Z) (l : list Verdict) : jsnum * jsnum :=
  foldl (λ a v, let w := weight_of config asOf v in
                if is_success v then (fadd a.1 w, a.2) else (a.1, fadd a.2 w)) (jint 0, jint 0) l.

Definition share_of (x total : jsnum) : jsnum := if is_zero total then jint 0 else fdiv x total.

(** [Math.max(0, p95 - target) / target], from one and clamped. *)
Definition latency_quality (p95 : option jsnum) (target : jsnum) : jsnum :=
  match p95 with
  | None => jint 0
  | Some p95 => clamp01 (fsub (jint 1) (fdiv (fmax (jint 0) (fsub p95 target)) target))
  end.

Definition is_slow (target : jsnum) (v : Verdict) : bool := is_success v && flt target (v_latencyMs v).

Definition scoreOperator (verdicts : list Verdict) (operatorId : string) (config : ScoreConfig) (asOf : Z) : result ScoreError OperatorScore :=
  if negb (String.eqb (sc_formulaVersion config) SCORE_FORMULA_VERSION) then Err VersionMismatch
  else
    let selection := selectWindow verdicts operatorId (sc_windowMs config) asOf in
    let metrics := computeWindowMetrics selection in
    if (Z.of_nat (wm_total metrics) <? sc_minSamples config)%Z then
      Ok (InsufficientData operatorId SCORE_FORMULA_VERSION (sel_windowStart selection) (sel_windowEnd selection) (wm_total metrics) (sc_minSamples config))
    else
      let weights := default DEFAULT_WEIGHTS (sc_weights config) in
      let totalWeightScale := fadd weights.1 weights.2 in
      let availScale := share_of weights.1 totalWeightScale in
      let latencyScale := share_of weights.2 totalWeightScale in
      let '(successWeight, missWeight) := weigh config asOf (sel_verdicts selection) in
      let totalWeight := fadd successWeight missWeight in
      let availability := share_of successWeight totalWeight in
      let missRate := share_of missWeight totalWeight in
      let p95 := wm_latencyP95Ms metrics in
      let latencyQuality := latency_quality p95 (sc_latencyTargetMs config) in
      let base := clampScore (fmul (jint 1000) (fadd (fmul availScale availability) (fmul latencyScale latencyQuality))) in
      let missPenaltyPoints := fmul (fmul (jint 1000) availScale) (fsub (jint 1) availability) in
      let missed :=
        if flt (jint 0) missWeight then
          (λ v, {| co_verdict := v; co_reason := by_miss;
                   co_impact := fneg (fmul (fdiv (weight_of config asOf v) missWeight) missPenaltyPoints) |})
            <$> List.filter (λ v, negb (is_success v)) (sel_verdicts selection)
        else [] in
      let slowVerdicts := match p95 with None => [] | Some _ => List.filter (is_slow (sc_latencyTargetMs config)) (sel_verdicts selection) end in
      let slowPenaltyPoints := fmul (fmul (jint 1000) latencyScale) (fsub (jint 1) latencyQuality) in
      let perSlow := fdiv slowPenaltyPoints (jint (Z.of_nat (length slowVerdicts))) in
      let slow := (λ v, {| co_verdict := v; co_reason := by_slow; co_impact := fneg perSlow |}) <$> slowVerdicts in
      Ok (Scored {|
        ss_operatorId := operatorId; ss_formulaVersion := SCORE_FORMULA_VERSION; ss_score := fround base;
        ss_windowStart := sel_windowStart selection; ss_windowEnd := sel_windowEnd selection; ss_samples := wm_total metrics;
        ss_availability := availability; ss_missRate := missRate;
        ss_latencyP50Ms := wm_latencyP50Ms metrics; ss_latencyP95Ms := p95; ss_latencyQuality := latencyQuality;
        ss_contributors := missed ++ slow |}).

Definition attributableDrop (before after : OperatorScore) : list Verdict :=
  match before, after with
  | Scored b, Scored a =>
      let beforeIds := (λ c, v_id (co_verdict c)) <$> ss_contributors b in
      co_verdict <$> List.filter (λ c, negb (existsb (String.eqb (v_id (co_verdict c))) beforeIds)) (ss_contributors a)
  | _, _ => []
  end.
End score.

(** ** Lemmas *)

Definition PowLaw (pow_half : jsnum → jsnum) : Prop := ∀ x, dbl x → dbl (pow_half x).

(** A configuration whose numbers are what they stand for. *)
Record config_ok (c : ScoreConfig) : Prop := {
  co_version : sc_formulaVersion c = SCORE_FORMULA_VERSION;
  co_halfLife : positive (sc_halfLifeMs c) = true;
  co_target : positive (sc_latencyTargetMs c) = true;
  co_window : (sc_windowMs c < 2 ^ 53)%Z;
  co_weights : dbl (default DEFAULT_WEIGHTS (sc_weights c)).1 ∧ dbl (default DEFAULT_WEIGHTS (sc_weights c)).2;
}.

Lemma clamp01_range x : finite x = true → finite (clamp01 x) = true ∧ nonneg (clamp01 x) = true ∧ fle (clamp01 x) (jint 1) = true.
Proof.
  destruct x as [| |m k]; try done. intros _. unfold clamp01. rewrite flt_int_r, flt_int_l. pose proof (pow_of_nat k).
  destruct (Z.ltb_spec m (0 * 2 ^ Z.of_nat k)); [done|]. destruct (Z.ltb_spec (1 * 2 ^ Z.of_nat k) m); [done|].
  split; [done|]. rewrite fle_int_r. cbn [nonneg]. split; apply Z.leb_le; lia.
Qed.

Lemma clampScore_round x : finite x = true → ∃ z, fround (clampScore x) = jint z ∧ (0 ≤ z ≤ 1000)%Z.
Proof.
  destruct x as [| |m k]; try done. intros _. unfold clampScore. rewrite flt_int_r, flt_int_l. pose proof (pow_of_nat k) as Hk.
  destruct (Z.ltb_spec m (0 * 2 ^ Z.of_nat k)); [by exists 0%Z|]. destruct (Z.ltb_spec (1000 * 2 ^ Z.of_nat k) m); [by exists 1000%Z|].
  eexists. split; [reflexivity|]. rewrite Z.pow_add_r, Z.pow_1_r by lia. split.
  - apply Z.div_pos; lia.
  - apply Z.lt_succ_r, Z.div_lt_upper_bound; lia.
Qed.

Lemma fmax_nonneg x : finite x = true → nonneg (fmax (jint 0) x) = true.
Proof.
  destruct x as [| |m k]; try done. intros _. unfold fmax, fle. cbn. rewrite Z.mul_1_r. pose proof (pow_of_nat k).
  destruct (Z.leb_spec (0 * 2 ^ Z.of_nat k) m); [|done]. cbn. apply Z.leb_le. lia.

Qed.

Lemma latency_quality_range p95 target :
  positive target = true → match p95 with Some x => finite x = true | None => True end →
  finite (latency_quality p95 target) = true ∧ nonneg (latency_quality p95 target) = true ∧ fle (latency_quality p95 target) (jint 1) = true.
Proof.
  intros Ht Hp. destruct p95 as [x|]; [|done]. unfold latency_quality. apply clamp01_range. apply finite_fsub; [done|].
  apply nonneg_finite, dbl_nonneg, fdiv_dbl; [|done]. apply fmax_nonneg, finite_fsub; [done|]. by apply nonneg_finite, positive_nonneg.
Qed.

(** The part that a share takes of a whole. *)
Lemma share_of_dbl x y : dbl x → dbl y → dbl (share_of x (fadd x y)) ∧ fle (share_of x (fadd x y)) (jint 1) = true.
Proof.
  intros Hx Hy. destruct (fadd_dbl x y Hx Hy) as (Hs & Hle & _). unfold share_of. destruct (is_zero _) eqn:Hz; [split; [by apply jint_dbl|done]|].
  pose proof (nonneg_positive _ (dbl_nonneg _ Hs) Hz) as Hp. split; [apply fdiv_dbl|apply fdiv_le_one]; try done; by apply dbl_nonneg.
Qed.

Lemma share_of_dbl_r x y : dbl x → dbl y → dbl (share_of y (fadd x y)).
Proof.
  intros Hx Hy. destruct (fadd_dbl x y Hx Hy) as (Hs & _). unfold share_of. destruct (is_zero _) eqn:Hz; [by apply jint_dbl|].
  apply fdiv_dbl; [by apply dbl_nonneg|]. by apply nonneg_positive, Hz; apply dbl_nonneg.
Qed.

Section laws.
Context (pow_half : jsnum → jsnum) (Hpow : PowLaw pow_half) (config : ScoreConfig) (Hok : config_ok config) (asOf : Z).

Lemma weight_dbl v : (Z.abs (asOf - v_at v) < 2 ^ 53)%Z → dbl (weight_of pow_half config asOf v).
Proof using Hpow Hok.
  intros Hv. unfold weight_of, recencyWeight. destruct (Z.leb_spec (asOf - v_at v) 0); [by apply jint_dbl|].
  apply Hpow, fdiv_dbl; [cbn; apply Z.leb_le; lia|]. apply Hok.
Qed.

Lemma weigh_dbl l :
  Forall (λ v, (Z.abs (asOf - v_at v) < 2 ^ 53)%Z) l → dbl (weigh pow_half config asOf l).1 ∧ dbl (weigh pow_half config asOf l).2.
Proof using Hpow Hok.
  intros Hl. unfold weigh. assert (dbl (jint 0, jint 0).1 ∧ dbl (jint 0, jint 0).2) as Ha by (split; by apply jint_dbl).
  revert Ha. generalize (jint 0, jint 0) as a. induction Hl as [|v l Hv _ IH]; intros a [H1 H2]; [done|]. cbn [foldl]. apply IH.
  pose proof (weight_dbl v Hv) as Hw. destruct (is_success v); cbn [fst snd]; split; try done; by apply fadd_dbl.
Qed.
End laws.

(** *** Percentiles *)

(** The place of a percentile is within the list. *)
Lemma place_within p n :
  dbl p → fle p (jint 1) = true → (0 ≤ n < 2 ^ 53)%Z →
  let idx := fmul p (jint n) in finite idx = true ∧ (0 ≤ math_floor idx ≤ n)%Z ∧ (0 ≤ math_ceil idx ≤ n)%Z.
Proof.
  intros Hp Hle Hn idx. assert (dbl idx) as Hd by (apply fmul_dbl; [by apply dbl_nonneg|cbn; apply Z.leb_le; lia]).
  assert (fle idx (jint n) = true) as Hidx.
  { unfold idx. destruct p as [| |m k]; try done. destruct Hp as [Hm _]. rewrite fle_int_r in Hle. apply Z.leb_le in Hle. cbn [fmul jint].
    pose proof (pow_of_nat (k + 0)). unfold rnd. destruct (Z.ltb_spec (m * n) 0); [nia|]. apply rounded_le; [nia|done|apply is_double_small; lia|].
    rewrite Nat.add_0_r. change (2 ^ Z.of_nat 0)%Z with 1%Z. nia. }
  clearbody idx. destruct idx as [| |m k]; try done. destruct Hd as [Hm _]. rewrite fle_int_r in Hidx. apply Z.leb_le in Hidx.
  pose proof (pow_of_nat k) as Hk. split; [done|]. cbn [math_floor math_ceil]. split; split.
  - by apply Z.div_pos.
  - apply Z.lt_succ_r, Z.div_lt_upper_bound; lia.
  - assert (- m / 2 ^ Z.of_nat k ≤ 0)%Z; [|lia]. apply Z.lt_succ_r, Z.div_lt_upper_bound; lia.
  - assert (- n ≤ - m / 2 ^ Z.of_nat k)%Z; [|lia]. apply Z.div_le_lower_bound; lia.
Qed.

Lemma at_index_finite l i : Forall (λ x, finite x = true) l → (0 ≤ i < Z.of_nat (length l))%Z → finite (at_index l i) = true.
Proof.
  intros Hl Hi. unfold at_index. destruct (Z.ltb_spec i 0); [lia|]. rewrite Forall_forall in Hl. apply Hl, list_elem_of_In, nth_In. lia.
Qed.

Lemma percentile_finite l p :
  dbl p → fle p (jint 1) = true → Forall (λ x, finite x = true) l → l ≠ [] → (Z.of_nat (length l) < 2 ^ 53)%Z →
  ∃ x, percentile l p = Ok x ∧ finite x = true.
Proof.
  intros Hp Hle Hl Hne Hlen. unfold percentile. destruct (Nat.eqb_spec (length l) 0) as [H0|H0]; [by destruct l|].
  assert (flt p (jint 0) || flt (jint 1) p || match p with JNaN => true | _ => false end = false) as ->.
  { destruct p as [| |m k]; try done. destruct Hp as [Hm _]. rewrite fle_int_r in Hle. apply Z.leb_le in Hle. rewrite flt_int_r, flt_int_l.
    rewrite !orb_false_iff, !Z.ltb_ge. pose proof (pow_of_nat k). split_and!; done || lia. }
  destruct (Nat.eqb_spec (length l) 1) as [H1|H1].
  - eexists. split; [done|]. apply at_index_finite; [done|lia].
  - destruct (place_within p (Z.of_nat (length l - 1)) Hp Hle ltac:(lia)) as (Hf & Hlo & Hhi). cbv zeta.
    assert (finite (at_index l (math_floor (fmul p (jint (Z.of_nat (length l - 1)))))) = true) as Hfl by (apply at_index_finite; [done|lia]).
    assert (finite (at_index l (math_ceil (fmul p (jint (Z.of_nat (length l - 1)))))) = true) as Hfh by (apply at_index_finite; [done|lia]).
    destruct (_ =? _)%Z; [by eexists|]. eexists. split; [done|]. apply finite_fadd; [done|]. apply finite_fmul; by apply finite_fsub.
Qed.

Lemma percentile_none l p x : percentile l p = Ok x → l ≠ [].
Proof. by destruct l. Qed.

(** The percentile of the successes is a number, if there are any. *)
Lemma p95_finite l :
  Forall (λ v, finite (v_latencyMs v) = true) l → (Z.of_nat (length l) < 2 ^ 53)%Z →
  match percentile_of (latencies l) ninety_five with Some x => finite x = true | None => List.filter is_success l = [] end.
Proof.
  intros Hl Hlen. assert (latencies l ≡ₚ (v_latencyMs <$> List.filter is_success l)) as Hp by apply sort_with_perm.
  assert (length (latencies l) ≤ length l) as Hle.
  { rewrite Hp, length_fmap. apply List.filter_length_le. }
  assert (Forall (λ x, finite x = true) (latencies l)) as Hf.
  { rewrite Hp, Forall_fmap. rewrite Forall_forall in *. intros v [Hv _]%elem_of_List_filter. by apply Hl. }
  unfold percentile_of. destruct (decide (latencies l = [])) as [He|Hne].
  - rewrite He. cbn. rewrite He in Hp. apply Permutation_nil_l in Hp. symmetry in Hp. by apply fmap_nil_inv in Hp.
  - assert (dbl ninety_five) as Hd by (apply rounded_dbl; lia).
    destruct (percentile_finite (latencies l) ninety_five Hd) as (x & -> & Hx); [reflexivity|done|done|lia|done].
Qed.

Lemma selected_age verdicts operatorId windowMs asOf :
  (windowMs < 2 ^ 53)%Z →
  Forall (λ v, (Z.abs (asOf - v_at v) < 2 ^ 53)%Z) (sel_verdicts (selectWindow verdicts operatorId windowMs asOf)).
Proof.
  intros Hw. cbn [selectWindow sel_verdicts]. rewrite sort_by_perm. apply Forall_forall. intros v [_ Hs]%elem_of_List_filter.
  unfold selected in Hs. rewrite !andb_true_iff, !Z.leb_le in Hs. lia.
Qed.

(** ** The theorem *)

(** C40: Scoring by a sound configuration never fails: it reports insufficient data
    exactly when fewer verdicts of the operator than asked for are in the window, and
    otherwise a whole score from 0 to 1000, with the misses (when they weigh anything)
    and the slow successes of the window, each once and in order, as what lowered it,
    none of them by less than nothing. *)
Theorem score_bounded pow_half verdicts operatorId config asOf :
  PowLaw pow_half → config_ok config → Forall (λ v, finite (v_latencyMs v) = true) verdicts → (Z.of_nat (length verdicts) < 2 ^ 53)%Z →
  let chosen := sel_verdicts (selectWindow verdicts operatorId (sc_windowMs config) asOf) in
  match scoreOperator pow_half verdicts operatorId config asOf with
  | Err _ => False
  | Ok (InsufficientData _ _ _ _ samples _) => samples = length chosen ∧ (Z.of_nat samples < sc_minSamples config)%Z
  | Ok (Scored s) =>
      (sc_minSamples config ≤ Z.of_nat (length chosen))%Z ∧
      (∃ z, ss_score s = jint z ∧ (0 ≤ z ≤ 1000)%Z) ∧
      Forall (λ c, fle (co_impact c) (jint 0) = true) (ss_contributors s) ∧
      (λ c, (co_verdict c, co_reason c)) <$> ss_contributors s
      = ((λ v, (v, by_miss)) <$> (if flt (jint 0) (weigh pow_half config asOf chosen).2 then List.filter (λ v, negb (is_success v)) chosen else [])) ++
        ((λ v, (v, by_slow)) <$> List.filter (is_slow (sc_latencyTargetMs config)) chosen)
  end.
Proof.
  intros Hpow Hok Hlat Hlen chosen. unfold scoreOperator. rewrite (co_version _ Hok), String.eqb_refl. cbn [negb]. cbv zeta.
  assert (Forall (λ v, finite (v_latencyMs v) = true) chosen ∧ length chosen ≤ length verdicts) as [Hf Hl].
  { unfold chosen. cbn [selectWindow sel_verdicts]. rewrite sort_by_perm. split; [|apply List.filter_length_le].
    rewrite Forall_forall in *. intros v [Hv _]%elem_of_List_filter. by apply Hlat. }
  pose proof (selected_age verdicts operatorId (sc_windowMs config) asOf (co_window _ Hok)) as Hage. fold chosen in Hage |- *.
  pose proof (p95_finite chosen Hf ltac:(lia)) as Hp95. cbn [wm_total computeWindowMetrics sel_verdicts wm_latencyP95Ms].
  change (sel_verdicts (selectWindow verdicts operatorId (sc_windowMs config) asOf)) with chosen.
  destruct (Z.ltb_spec (Z.of_nat (length chosen)) (sc_minSamples config)) as [Hlt|Hge]; [done|].
  destruct (weigh_dbl pow_half Hpow config Hok asOf chosen Hage) as [Hsw Hmw].
  destruct (weigh pow_half config asOf chosen) as [sw mw]. cbn [fst snd] in Hsw, Hmw |- *.
  destruct (co_weights _ Hok) as [Hw1 Hw2]. set (ws := default DEFAULT_WEIGHTS (sc_weights config)) in *.
  destruct (share_of_dbl ws.1 ws.2 Hw1 Hw2) as [Ha _]. pose proof (share_of_dbl_r ws.1 ws.2 Hw1 Hw2) as Hls.
  destruct (share_of_dbl sw mw Hsw Hmw) as [Hav Hav1].
  assert (match percentile_of (latencies chosen) ninety_five with Some x => finite x = true | None => True end) as Hp by by destruct (percentile_of _ _).
  destruct (latency_quality_range _ _ (co_target _ Hok) Hp) as (Hqf & Hqn & Hq1).
  set (lq := latency_quality _ _) in *. set (a := share_of ws.1 _) in *. set (ls := share_of ws.2 _) in *. set (av := share_of sw _) in *.
  cbn [ss_score ss_contributors]. split_and!; [done| | |].
  - apply clampScore_round, finite_fmul; [done|]. apply finite_fadd; apply finite_fmul; done || by apply nonneg_finite, dbl_nonneg.
  - apply Forall_app. split.
    + destruct (flt (jint 0) mw) eqn:Hpos; [|constructor]. apply Forall_fmap, Forall_forall. intros v [Hv _]%elem_of_List_filter. cbn [co_impact compose].
      apply fle_neg, dbl_nonneg, fmul_dbl; apply dbl_nonneg.
      * apply fdiv_dbl; [apply dbl_nonneg; apply weight_dbl; [done|done|]; rewrite Forall_forall in Hage; by apply Hage|].
        destruct mw as [| |m k]; try done. rewrite flt_int_l in Hpos. exact Hpos.
      * apply fmul_dbl; apply dbl_nonneg; [by apply fmul_dbl; [|apply dbl_nonneg]|]. apply fsub_dbl; [done| |done]. by apply nonneg_finite, dbl_nonneg.
    + apply Forall_fmap, Forall_forall. intros v Hv. cbn [co_impact compose]. apply fle_neg, dbl_nonneg, fdiv_dbl.
      * apply dbl_nonneg, fmul_dbl; apply dbl_nonneg; [by apply fmul_dbl; [|apply dbl_nonneg]|]. by apply fsub_dbl.
      * cbn. apply Z.ltb_lt. destruct (match percentile_of _ _ with Some _ => _ | None => _ end); [by apply not_elem_of_nil in Hv|cbn; lia].
  - rewrite fmap_app, <-!list_fmap_compose. f_equal.
    + destruct (flt (jint 0) mw); [|done]. by rewrite <-list_fmap_compose.
    + destruct (percentile_of _ _) eqn:Hpo; [done|]. unfold is_slow. clear -Hp95. induction chosen as [|v l IH]; [done|].
      cbn in *. destruct (is_success v); [done|]. cbn. by apply IH.
Qed.

(** *** Witness *)

(** A half for every age. *)
Definition constant_half (_ : jsnum) : jsnum := half.

Lemma constant_half_law : PowLaw constant_half.
Proof. intros x _. split; [done|]. by apply is_double_small. Qed.

Definition sample_verdict (n : string) (t : Z) (o : VerdictOutcome) (ms : Z) : Verdict :=
  {| v_id := n; v_operatorId := "op"; v_at := t; v_outcome := o; v_latencyMs := jint ms |}.

Definition sample_config (target : Z) : ScoreConfig :=
  {| sc_formulaVersion := "1.0.0"; sc_windowMs := 1000; sc_halfLifeMs := jint 100; sc_minSamples := 2; sc_latencyTargetMs := jint target; sc_weights := None |}.

Definition sample_verdicts : list Verdict :=
  [sample_verdict "a" 900 success 50; sample_verdict "b" 950 miss 0; sample_verdict "c" 1000 success 150; sample_verdict "old" 0 miss 0].

Lemma sample_config_ok target : (0 < target)%Z → config_ok (sample_config target).
Proof. intros Ht. split; cbn; [done|done|by apply Z.ltb_lt|lia|]. split; [apply (rounded_dbl 7 10)|apply (rounded_dbl 3 10)]; lia. Qed.

Lemma score_bounded_witness :
  ∃ s, scoreOperator constant_half sample_verdicts "op" (sample_config 100) 1000 = Ok (Scored s) ∧
       (∃ z, ss_score s = jint z ∧ (0 ≤ z ≤ 1000)%Z) ∧ (v_id ∘ co_verdict) <$> ss_contributors s = ["old"; "b"; "c"].
Proof.
  pose proof (score_bounded constant_half sample_verdicts "op" (sample_config 100) 1000 constant_half_law (sample_config_ok 100 ltac:(lia))
    ltac:(repeat constructor) ltac:(cbn; lia)) as Hs.
  destruct (scoreOperator constant_half sample_verdicts "op" (sample_config 100) 1000) as [[| s]|] eqn:He; [| |done].
  - exfalso. apply (f_equal (λ r, match r with Ok (Scored _) => true | _ => false end)) in He. vm_compute in He. discriminate.
  - exists s. split; [done|]. split; [apply Hs|].
    apply (f_equal (λ r, match r with Ok (Scored s) => (v_id ∘ co_verdict) <$> ss_contributors s | _ => [] end)) in He.
    vm_compute in He. symmetry. exact He.
Defined.

(** What has newly lowered a score is what is listed after and was not before. *)
Lemma attributable_exact b a v :
  v ∈ attributableDrop (Scored b) (Scored a) ↔
  ∃ c, c ∈ ss_contributors a ∧ co_verdict c = v ∧ ∀ c', c' ∈ ss_contributors b → v_id (co_verdict c') ≠ v_id v.
Proof.
  cbn [attributableDrop]. rewrite list_elem_of_fmap. setoid_rewrite elem_of_List_filter. setoid_rewrite negb_true_iff. split.
  - intros (c & -> & Hc & Hn). exists c. split_and!; [done|done|]. intros c' Hc' He. rewrite existsb_false in Hn.
    specialize (Hn (v_id (co_verdict c')) ltac:(apply list_elem_of_fmap; by exists c')). by rewrite He, String.eqb_refl in Hn.
  - intros (c & Hc & <- & Hn). exists c. split_and!; [done|done|]. apply existsb_false. intros i (c' & -> & Hc')%list_elem_of_fmap.
    apply String.eqb_neq. intros He. by apply (Hn c' Hc').
Qed.

(** *** What may surprise *)

(** With a target of zero and a percentile of zero the score is no number. *)
Lemma zero_target_no_score :
  match scoreOperator constant_half [sample_verdict "a" 900 success 0; sample_verdict "b" 950 success 0] "op" (sample_config 0) 1000 with
  | Ok (Scored s) => ss_score s = JNaN
  | _ => False
  end.
Proof. vm_compute. reflexivity. Qed.

(** A success slower than the target is listed as lowering the score also where the
    percentile is within the target and nothing is lost. *)
Lemma slow_without_loss :
  let quick := (λ n, sample_verdict n 900 success 10) <$> ["1"; "2"; "3"; "4"; "5"; "6"; "7"; "8"; "9"; "10"; "11"; "12"; "13"; "14"; "15"; "16"; "17"; "18"; "19"; "20"; "21"] in
  match scoreOperator constant_half (quick ++ [sample_verdict "slow" 950 success 500]) "op" (sample_config 100) 1000 with
  | Ok (Scored s) => ss_score s = jint 1000 ∧ (v_id ∘ co_verdict) <$> ss_contributors s = ["slow"]
  | _ => False
  end.
Proof. vm_compute. split; reflexivity. Qed.

(** Without a success the latency counts as worst, and nothing is named for it. *)
Lemma misses_lose_latency :
  latency_quality (wm_latencyP95Ms (computeWindowMetrics (selectWindow [sample_verdict "a" 900 miss 0] "op" 1000 1000))) (jint 100) = jint 0.
Proof. reflexivity. Qed.
